(* ===== verification/_CoqProject ===== *)
-Q . S2P
Prelude.v
Varint.v
Lsn.v
LogRecord.v
Crc32c.v
Frame.v
Reader.v
Commit.v
Durability.v
Group16.v
Index.v
IndexMap.v
Scan.v
Swar.v
Crlf.v
Resp.v
RespConn.v
RespWriter.v
Member.v
Wheel.v
WheelSpec.v
ByteOrder.v
F64.v
Utf8.v
IndexKey.v
Doc.v
Predicate.v
Bounds.v
Tail.v
Glob.v
Ring.v
SegmentFs.v
SimDisk.v
SimDiskSpec.v
Envelope.v
MetaSwap.v
Manifest.v
ManifestSpec.v
PathProgram.v
PathEval.v
PathSelect.v
PathEvalSpec.v
PathCanonical.v
PredicateProgram.v
PredicateProgramSpec.v
PredicateCanonical.v
PredicateVm.v
PredicateVmSpec.v
