(* ===== verification/Prelude.v ===== *)
(** * InfinityDB: a verification development

    InfinityDB (Rust, [crates/] and [bins/]) is a sharded in-memory database that
    speaks the Redis protocol. A cell owns a slice of the key space: it parses
    commands from connections ([inf-wire] over the byte kernels of [inf-simd]),
    executes them on a record store ([inf-store]), and makes them durable in a
    segmented log of checksummed frames with group commit ([inf-log]). This
    library models those data paths as executable Rocq definitions, one file per
    component, and proves what makes each of them correct.

    ** Conventions

    A machine integer is a [Z] with its wrap-around written out ([wrap], [in_u],
    [checked_add]); bytes are [byte] in wire and log formats and integers below
    256 in the index's control array. A fallible function is a function into
    [outcome E A]: a result, the error the source returns, or [Panic] (an
    assertion, an index out of range, an [unwrap] or [expect] that fails).
    Release assertions are panics of the model; a [debug_assert] is not modelled
    unless the file says so.
    A loop is a [Fixpoint] on its list, or takes fuel; running out of fuel is
    [Panic], so that a theorem that excludes panics also shows the fuel is
    enough. What is not in the repository (the allocator, the file system, the
    random source, [f64] formatting, vector intrinsics) is an argument of the
    definitions or a type class with its documented laws.

    ** The parts and their files

    - [Prelude] (this file): outcomes, machine integers, bytes, little-endian
      words, indexing and slicing with bounds, counting; the hint databases and
      tactics the other files use ([inv_ok], [ok_step], [lens]).
    - The log ([crates/inf-log]). [Varint] ([inf-foundation/varint.rs]) is the
      canonical LEB128 codec; [Lsn] ([lsn.rs]) log positions; [LogRecord]
      ([record.rs]) the record codec; [Crc32c] ([inf-simd/crc32c.rs]) the
      slicing-by-8 checksum; [Frame] ([frame.rs]) the frame builder, decoder and
      iterators; [Reader] ([reader.rs]) the windowed segment reader over the
      [SegmentFile] seam. [Commit] ([commit.rs]) is the group-commit ledger and
      [Durability] runs it against a device with explicit stable storage.
      [SegmentFs] ([fs.rs]) is the file system interface as a class, [SimDisk]
      ([fs/sim.rs]) the disk that loses what was not synced, with its invariant in
      [SimDiskSpec]; [Envelope] ([meta.rs]) the checksummed metadata file and its
      swap, [MetaSwap] their theorem; [Manifest] ([manifest.rs]) the recovery unit
      they carry, with its theorems in [ManifestSpec].
    - The store ([crates/inf-store]). [Group16] ([inf-simd/group16.rs]) are the
      16-way probes; [Index] ([index.rs]) the open-addressing record index with
      growth and tombstones; [IndexMap] its view as a finite map; [Scan]
      ([store/scan.rs], [store.rs]) the [SCAN] cursor. [Member]
      ([wheel/member.rs]) is the timing wheel's membership table, [Wheel]
      ([wheel.rs]) the expiry timing wheel and the lemmas on its lists, slots and
      bitmaps, [WheelSpec] its invariant and theorems.
    - The wire ([crates/inf-wire]). [Swar] ([inf-simd/swar.rs]) parses integers
      eight bytes at a time; [Crlf] ([inf-simd/crlf.rs]) finds line ends with
      scalar, SSE2, AVX2 and NEON scans; [Resp] ([parser.rs]) is the command
      parser, [RespConn] a connection fed in arbitrary pieces, [RespWriter]
      ([writer.rs]) the reply writer.
    - Documents and queries ([crates/inf-doc], [crates/inf-query]). [ByteOrder]
      is lexicographic byte order, [F64] binary64 as bit patterns, [Utf8] the
      UTF-8 grammar. [IndexKey] ([inf-store/index_key.rs]) admits, coerces and
      encodes scalars as order-preserving keys. [Doc] is the document tree,
      [PathProgram] ([path/program.rs]) compiled paths with their validator and
      decoder, [PathEval] ([path/eval.rs]) the walks over a document, with the
      meaning of one selector in [PathSelect], that of paths and the theorems in
      [PathEvalSpec] and the document-order view in [PathCanonical]. [Predicate] ([predicate/vm.rs]) is the comparison table and
      the meaning of a predicate tree; [PredicateProgram] ([predicate/program.rs])
      the builder, validator and decoder of predicate bytecode, with its canonical
      form in [PredicateProgramSpec] and [PredicateCanonical]; [PredicateVm]
      ([predicate/vm.rs]) the machine that runs it, with its theorem in
      [PredicateVmSpec]. [Tail] holds the lemmas on reading bytes at offsets.
      [Bounds] ([partiql/compile.rs]) turns key conditions into index ranges.
    - Between cells and at the server. [Ring] ([inf-fabric/ring.rs]) is the
      single-producer single-consumer ring, with both sides as interleaved steps;
      [Glob] ([inf-server/glob.rs]) the pattern matcher of [KEYS] and [SCAN].

    Components meet at interfaces: the reader is proved against
    [Reader.SegmentFileLaws] and the in-memory file discharges it; the index is
    proved for every [Index.SlotModeLaws]; the wheel is proved against
    [Member.MembersSpec] and the membership table discharges it; the metadata swap
    is written against [SegmentFs.SegmentFs] and the disk is an instance.

    ** What the theorems show

    - Durability: along every admissible sequence of ledger events no operation
      panics and every frame at or below the watermark is on stable storage; a
      failed fsync freezes the watermark; a sync owed for what was staged or ticked
      is never forgotten; the counters are recounts of the entries.
    - Log format: every codec accepts exactly the canonical encodings and inverts
      its encoder; a sealed frame, and a segment of frames, read back as written,
      through the windowed reader too; a torn frame is reported truncated and a
      damaged one is refused; no input makes a decoder panic.
    - Metadata: in every history of swaps, reads, power cuts and injected faults whose
      payloads fit the reader's 64 MiB, the committed file is an atomic durable
      register; the manifest's encoding is
      canonical, its tier ranges tile, and a published manifest within that bound is
      what recovery reads after a power cut.
    - Index and scan: insert, replace, remove and growth refine a finite map and
      a lookup is its lookup; a reserved capacity is honoured; [SCAN] returns every
      key present throughout, across concurrent writes and doublings, and ends.
    - Expiry: the membership table refines a finite map; the wheel implements a
      map from key hashes to deadlines under any allocator; a tick fires only
      overdue entries and leaves none when it starts at or before [now] and reports
      it caught up; slices of any positive budget catch up.
    - Protocol: a command is accepted exactly by its grammar; what a connection
      delivers does not depend on how its bytes were split, inline lines of exactly
      the bulk cap excepted, which a cut between CR and LF closes; arbitrary bytes never
      panic the parser and its buffer stays bounded; replies are single frames
      and commands written parse back; the vector kernels agree with their scalar
      definitions.
    - Documents and queries: admitted scalars keep their value and their keys
      compare as they do; keys decode to what was encoded. Path programs are
      canonical; the recording walk finds exactly the matches of the path in
      order, suspended and resumed or not, and the streaming walk delivers the
      same values. Predicate programs are canonical, and the machine that runs
      them returns the verdict, the flags and the exact price of the tree, or
      reports that the budget does not cover it. An index range holds a stored key
      exactly when the comparison it was built from holds of the value.
    - Between cells: under every interleaving, with stale index loads, the ring is a
      bounded queue that never overwrites or re-reads a slot; the pattern matcher
      answers exactly by the meaning of its pattern.

    ** Bounds and fuel

    Loops over a list take its length (or the pool's length, for a list linked
    through a pool: distinct nodes, so the list is no longer). Probe loops take
    the table's length; an invariant provides the empty slot that ends them. The
    cursor loops of [Wheel] count rounds in binary ([Wheel.loop]) and take the
    distance from the cursor to [now] plus two, since every round advances it.
    Parser and reader loops take the buffer's length: every round consumes a byte
    or returns. A walk over a document takes twice its number of visits: every
    round visits a node or closes a frame. The predicate builder and validator
    take one round more than the op limit they enforce; the decoder and the
    machine take the program's length, since every op takes a byte. The pattern
    matcher takes a round per pair of pattern and string positions; the reader of an
    envelope its length; a cut the bytes of each unsynced write. Clock values of the wheel are below [2^63], so that the next
    boundary fits in 64 bits; the callback's contract, that a re-file names a
    deadline in [[now, 2^40)], is the one the source asserts in debug builds.

    ** Not modelled

    - Wrap-around of the ledger's 64-bit counters (bytes, tickets, frame ids,
      statistics), which only grow by what was written or counted, and an iterator
      that unwinds inside the ring's [publish_batch].
    - Bytes accounting and statistics that no decision reads: [resident_bytes],
      [slot_bytes] and capacities of the wheel, latency histograms of the ledger,
      the wheel's test-support audits and its compile-time canaries (off).
    - The rest of the log: segment rotation, checkpoints, tiering and blobs
      ([segment.rs], [ckpt.rs], [tier.rs], [blob.rs]) are built around the frame and
      ledger modelled here, but interleave asynchronous device I/O with their own
      state. Of the simulated disk: directory handles, the driver's calls,
      write-through, truncation, direct files and service times.
    - The rest of the store: the record arena, the address space and tiered
      storage, which hold raw pointers into mapped memory, and the catalogue.
    - The secondary index tree ([ordered.rs]): a B+-tree in safe code over pools
      of nodes and a heap of key suffixes. Nothing in it resists the method used
      here; it is left for later work, and so are the registry, maintenance,
      backfill and sidecar files built on it.
    - The rest of [inf-doc] and [inf-query]: the physical document forms, JSON
      text, mutation, the text of paths and statements.
    - The runtime, the rest of the cross-cell fabric and of the server
      ([inf-runtime], [inf-fabric], [inf-server]): asynchronous tasks, the mesh of
      rings and command handlers over the parts above. The ring's memory model is
      per-location: index loads may be stale, slot accesses are ordered by the
      release and acquire pairs the source documents.
    - [inf-simd]'s UTF-8 and JSON kernels; [inf-wire]'s command table.
    - [inf-alloc], [inf-probe] and the binaries: mapped memory, device probing,
      benchmarks and the simulator that tests the system. [inf-stream],
      [inf-vector], [inf-compute], [inf-replica] and [infinity-embedded] are
      stubs without code. *)

From Stdlib Require Export ZArith Lia Bool.
From Stdlib Require Export Strings.Byte.
From stdpp Require Export base list option numbers.

#[global] Open Scope Z_scope.

(** ** Outcomes

    A Rust function that returns [Result<A, E>] and that may also hit an
    [assert!], [expect] or an out-of-range slice is a function into
    [outcome E A]: the three ways such a call ends. *)

Inductive outcome (E A : Type) : Type :=
  | Ok (a : A)
  | Err (e : E)
  | Panic.
Arguments Ok {E A} a.
Arguments Err {E A} e.
Arguments Panic {E A}.

#[global] Instance outcome_ret (E : Type) : MRet (outcome E) := fun A a => Ok a.
#[global] Instance outcome_bind (E : Type) : MBind (outcome E) :=
  fun A B f c => match c with Ok a => f a | Err e => Err e | Panic => Panic end.
Arguments outcome_bind E A B f !c /.

(** [o.ok_or(e)?], [o.expect(..)], [assert!(b)] and [if b { return Err(e) }]. *)
Definition ok_or {E A} (e : E) (o : option A) : outcome E A :=
  match o with Some a => Ok a | None => Err e end.
Definition expect {E A} (o : option A) : outcome E A :=
  match o with Some a => Ok a | None => Panic end.
Definition rassert {E} (b : bool) : outcome E unit := if b then Ok tt else Panic.
Definition refuse_if {E} (b : bool) (e : E) : outcome E unit :=
  if b then Err e else Ok tt.

(** A computation that cannot fail with an error value. *)
Notation panics := (outcome False).

Definition is_panic {E A} (c : outcome E A) : bool :=
  match c with Panic => true | _ => false end.

Lemma bind_Ok {E A B} (c : outcome E A) (f : A -> outcome E B) b :
  (c ≫= f) = Ok b <-> exists a, c = Ok a /\ f a = Ok b.
Proof. destruct c; cbn; naive_solver. Qed.

Lemma bind_Err {E A B} (c : outcome E A) (f : A -> outcome E B) e :
  (c ≫= f) = Err e <-> c = Err e \/ exists a, c = Ok a /\ f a = Err e.
Proof. destruct c; cbn; naive_solver. Qed.

Lemma bind_not_Panic {E A B} (c : outcome E A) (f : A -> outcome E B) :
  c <> Panic -> (forall a, c = Ok a -> f a <> Panic) -> (c ≫= f) <> Panic.
Proof. destruct c; cbn; naive_solver. Qed.

Lemma ok_or_Ok {E A} (e : E) (o : option A) a : ok_or e o = Ok a <-> o = Some a.
Proof. destruct o; cbn; naive_solver. Qed.

Lemma ok_or_not_Panic {E A} (e : E) (o : option A) : ok_or e o <> Panic.
Proof. by destruct o. Qed.

Lemma expect_Ok {E A} (o : option A) a : expect (E:=E) o = Ok a <-> o = Some a.
Proof. destruct o; cbn; naive_solver. Qed.

Lemma rassert_Ok {E} b u : rassert (E:=E) b = Ok u <-> b = true.
Proof. destruct b, u; cbn; naive_solver. Qed.

Lemma refuse_if_Ok {E} b (e : E) u : refuse_if b e = Ok u <-> b = false.
Proof. destruct b, u; cbn; naive_solver. Qed.

Lemma refuse_if_not_Panic {E} b (e : E) : refuse_if b e <> Panic.
Proof. by destruct b. Qed.

(** [inv_ok H] splits a hypothesis saying that a sequence of binds returned
    [Ok] into one equation per step, destructuring the pairs on the way; the
    last equation keeps the name [H]. *)
Ltac inv_ok H :=
  lazymatch type of H with
  | (_ ≫= _) = Ok _ =>
      let a := fresh "a" in let H1 := fresh H in
      apply bind_Ok in H as (a & H1 & H);
      lazymatch type of a with
      | prod _ _ => let b := fresh "b" in destruct a as [a b]
      | unit => destruct a
      | _ => idtac
      end;
      inv_ok H1; inv_ok H
  | ok_or _ _ = Ok _ => apply ok_or_Ok in H
  | expect _ = Ok _ => apply expect_Ok in H
  | rassert _ = Ok _ => apply rassert_Ok in H
  | refuse_if _ _ = Ok _ => apply refuse_if_Ok in H
  | Err _ = Ok _ => discriminate H
  | Panic = Ok _ => discriminate H
  | _ => idtac
  end.

(** ** Machine integers

    A [w]-bit unsigned integer is a [Z] in [0, 2^w); [wrap w] is the release
    build's wrap-around and [checked_add w] is [checked_add]. *)

Definition wrap (w z : Z) : Z := z mod 2 ^ w.
Definition in_u (w z : Z) : Prop := 0 <= z < 2 ^ w.
Definition checked_add (w a b : Z) : option Z :=
  if a + b <? 2 ^ w then Some (a + b) else None.
Definition checked_sub (a b : Z) : option Z := if b <=? a then Some (a - b) else None.
Definition sat_sub (a b : Z) : Z := Z.max 0 (a - b).
Definition U32_MAX : Z := 4294967295.
Definition U64_MAX : Z := 18446744073709551615.

#[global] Instance in_u_dec w z : Decision (in_u w z).
Proof. unfold in_u. apply _. Defined.

Lemma wrap_in_u w z : 0 <= w -> in_u w (wrap w z).
Proof. intros. unfold in_u, wrap. apply Z.mod_pos_bound. lia. Qed.

Lemma wrap_id w z : in_u w z -> wrap w z = z.
Proof. intros. unfold wrap. by apply Z.mod_small. Qed.

Lemma checked_add_Some w a b c :
  checked_add w a b = Some c <-> c = a + b /\ a + b < 2 ^ w.
Proof. unfold checked_add. destruct (Z.ltb_spec (a + b) (2 ^ w)); naive_solver lia. Qed.

(** Bit-level facts the codecs share. *)
Lemma in_u_lxor w a b : 0 <= w -> in_u w a -> in_u w b -> in_u w (Z.lxor a b).
Proof.
  unfold in_u. intros Hw Ha Hb. assert (0 <= Z.lxor a b) by (apply Z.lxor_nonneg; lia).
  split; [done|]. destruct (Z.eq_dec (Z.lxor a b) 0) as [->|]; [lia|].
  apply Z.log2_lt_pow2; [lia|]. pose proof (Z.log2_lxor a b ltac:(lia) ltac:(lia)).
  assert (forall x, 0 <= x < 2 ^ w -> x = 0 \/ Z.log2 x < w) as Hl.
  { intros x Hx. destruct (Z.eq_dec x 0); [by left|right]. apply Z.log2_lt_pow2; lia. }
  destruct (Hl a Ha) as [-> | ?], (Hl b Hb) as [-> | ?]; rewrite ?Z.lxor_0_l, ?Z.lxor_0_r in *;
    cbn [Z.log2] in *; lia.
Qed.

Lemma land_low n a : 0 <= n -> Z.land a (Z.ones n) = a mod 2 ^ n.
Proof. apply Z.land_ones. Qed.

Lemma land_127 a : Z.land a 127 = a mod 128.
Proof. apply (Z.land_ones a 7). lia. Qed.

Lemma land_1_mod a : Z.land a 1 = a mod 2.
Proof. apply (Z.land_ones a 1). lia. Qed.

Lemma land_255 a : Z.land a 255 = a mod 256.
Proof. apply (Z.land_ones a 8). lia. Qed.

Lemma land_shiftl_disjoint n a b :
  0 <= n -> 0 <= a < 2 ^ n -> Z.land a (Z.shiftl b n) = 0.
Proof.
  intros Hn Ha. apply Z.bits_inj'. intros i Hi.
  rewrite Z.land_spec, Z.bits_0, Z.shiftl_spec by lia.
  destruct (Z.lt_ge_cases i n).
  - by rewrite (Z.testbit_neg_r b), andb_false_r by lia.
  - destruct (Z.eq_dec a 0) as [->|]; [by rewrite Z.bits_0|].
    rewrite (Z.bits_above_log2 a), andb_false_l; [done|lia|].
    apply Z.lt_le_trans with n; [|lia]. apply Z.log2_lt_pow2; lia.
Qed.

Lemma lor_shiftl n a b :
  0 <= n -> 0 <= a < 2 ^ n -> Z.lor a (Z.shiftl b n) = a + b * 2 ^ n.
Proof.
  intros Hn Ha. pose proof (Z.add_lor_land a (Z.shiftl b n)) as E.
  rewrite land_shiftl_disjoint in E by lia.
  rewrite Z.shiftl_mul_pow2 in * by lia. lia.
Qed.

Lemma shiftr_div n a : 0 <= n -> Z.shiftr a n = a / 2 ^ n.
Proof. apply Z.shiftr_div_pow2. Qed.

(** ** Bytes *)

Definition u8 (b : byte) : Z := Z.of_N (Byte.to_N b).
Definition b8 (z : Z) : byte :=
  match Byte.of_N (Z.to_N (z mod 256)) with Some b => b | None => x00 end.

Lemma u8_range b : 0 <= u8 b < 256.
Proof. unfold u8. pose proof (Byte.to_N_bounded b). lia. Qed.

Lemma u8_b8 z : u8 (b8 z) = z mod 256.
Proof.
  unfold u8, b8. pose proof (Z.mod_pos_bound z 256 ltac:(lia)) as Hm.
  destruct (Byte.of_N _) as [b|] eqn:E.
  - apply Byte.to_of_N in E. rewrite E. lia.
  - apply Byte.of_N_None_iff in E. lia.
Qed.

Lemma u8_b8_small z : 0 <= z < 256 -> u8 (b8 z) = z.
Proof. intros. rewrite u8_b8. apply Z.mod_small. lia. Qed.

Lemma b8_u8 b : b8 (u8 b) = b.
Proof.
  unfold b8, u8. rewrite Z.mod_small, N2Z.id by apply (u8_range b).
  by rewrite Byte.of_to_N.
Qed.

Lemma u8_inj a b : u8 a = u8 b -> a = b.
Proof. intros H. by rewrite <- (b8_u8 a), <- (b8_u8 b), H. Qed.

#[global] Instance byte_eq_dec : EqDecision byte := Byte.byte_eq_dec.

(** Little-endian integers: [to_le_bytes] truncated to [n] bytes, and
    [from_le_bytes]. *)
Fixpoint le_bytes (n : nat) (z : Z) : list byte :=
  match n with O => [] | S n => b8 z :: le_bytes n (z / 256) end.
Fixpoint le_val (l : list byte) : Z :=
  match l with [] => 0 | b :: l => u8 b + 256 * le_val l end.

Lemma length_le_bytes n z : length (le_bytes n z) = n.
Proof. revert z. induction n; intros; cbn; [done|]. by rewrite IHn. Qed.

Lemma le_val_bound l : 0 <= le_val l < 2 ^ (8 * Z.of_nat (length l)).
Proof.
  induction l as [|b l IH]; [cbn; lia|].
  change (le_val (b :: l)) with (u8 b + 256 * le_val l).
  rewrite length_cons, Nat2Z.inj_succ, Z.mul_succ_r, Z.pow_add_r by lia.
  change (2 ^ 8) with 256. pose proof (u8_range b). lia.
Qed.

Lemma le_val_le_bytes n z : le_val (le_bytes n z) = z mod 2 ^ (8 * Z.of_nat n).
Proof.
  revert z. induction n as [|n IH]; intros z.
  { cbn [le_bytes le_val]. by rewrite Z.mod_1_r. }
  cbn [le_bytes le_val]. rewrite IH, u8_b8.
  replace (8 * Z.of_nat (S n)) with (8 + 8 * Z.of_nat n) by lia.
  rewrite Z.pow_add_r by lia. change (2 ^ 8) with 256.
  assert (0 < 2 ^ (8 * Z.of_nat n)) by (apply Z.pow_pos_nonneg; lia).
  rewrite Z.rem_mul_r by lia. lia.
Qed.

Lemma le_val_le_bytes_small n z :
  0 <= z < 2 ^ (8 * Z.of_nat n) -> le_val (le_bytes n z) = z.
Proof. intros. rewrite le_val_le_bytes. by apply Z.mod_small. Qed.

Lemma le_bytes_le_val n l : length l = n -> le_bytes n (le_val l) = l.
Proof.
  revert n. induction l as [|b l IH]; intros n <-; [done|].
  cbn [length le_bytes le_val]. pose proof (u8_range b). f_equal.
  - apply u8_inj. rewrite u8_b8, Z.mul_comm, Z.mod_add by lia.
    apply Z.mod_small. lia.
  - rewrite Z.mul_comm, Z.div_add, Z.div_small by lia. by apply IH.
Qed.

(** ** Lengths and slices *)

Definition len {A} (l : list A) : Z := Z.of_nat (length l).

Create HintDb len discriminated.

Lemma len_nil {A} : len (@nil A) = 0.
Proof. done. Qed.
Lemma len_cons {A} (x : A) l : len (x :: l) = 1 + len l.
Proof. unfold len. rewrite length_cons. lia. Qed.
Lemma len_app {A} (l k : list A) : len (l ++ k) = len l + len k.
Proof. unfold len. rewrite length_app. lia. Qed.
Lemma len_le_bytes n z : len (le_bytes n z) = Z.of_nat n.
Proof. unfold len. by rewrite length_le_bytes. Qed.
Lemma len_replicate {A} n (x : A) : len (replicate n x) = Z.of_nat n.
Proof. unfold len. by rewrite length_replicate. Qed.
Lemma len_take {A} n (l : list A) : len (take n l) = Z.min (Z.of_nat n) (len l).
Proof. unfold len. rewrite length_take. lia. Qed.
Lemma len_drop {A} n (l : list A) : len (drop n l) = Z.max 0 (len l - Z.of_nat n).
Proof. unfold len. rewrite length_drop. lia. Qed.
Lemma len_nonneg {A} (l : list A) : 0 <= len l.
Proof. unfold len. lia. Qed.
Lemma len_insert {A} i (x : A) l : len (<[i:=x]> l) = len l.
Proof. unfold len. by rewrite length_insert. Qed.
Lemma len_fmap {A B} (f : A -> B) l : len (f <$> l) = len l.
Proof. unfold len. by rewrite length_fmap. Qed.
Lemma len_0_nil {A} (l : list A) : len l = 0 -> l = [].
Proof. destruct l; [done|]. rewrite len_cons. pose proof (len_nonneg l). lia. Qed.

#[export] Hint Rewrite @len_nil @len_cons @len_app len_le_bytes @len_replicate
  @len_take @len_drop @len_insert @len_fmap : len.

(** [lens] normalises lengths everywhere, adds their signs and calls [lia]. *)
Ltac len_facts :=
  repeat match goal with
    | |- context [len ?l] =>
        lazymatch goal with H : 0 <= len l |- _ => fail | _ => pose proof (len_nonneg l) end
    | H : context [len ?l] |- _ =>
        lazymatch goal with H : 0 <= len l |- _ => fail | _ => pose proof (len_nonneg l) end
    end.
Ltac lens := autorewrite with len in *; len_facts; lia.

(** [l.get(a..b)]: [None] out of range. [&l[a..b]] is its [expect]. *)
Definition get_range {A} (l : list A) (a b : Z) : option (list A) :=
  if (0 <=? a) && (a <=? b) && (b <=? len l)
  then Some (take (Z.to_nat (b - a)) (drop (Z.to_nat a) l)) else None.
Definition slice {E A} (l : list A) (a b : Z) : outcome E (list A) :=
  expect (get_range l a b).
Definition slice_from {E A} (l : list A) (a : Z) : outcome E (list A) :=
  expect (get_range l a (len l)).
Definition get {A} (l : list A) (i : Z) : option A :=
  if 0 <=? i then l !! Z.to_nat i else None.

Lemma get_range_Some {A} (l y : list A) a b :
  get_range l a b = Some y <->
  exists x z, l = x ++ y ++ z /\ len x = a /\ len y = b - a.
Proof.
  unfold get_range. split.
  - destruct (Z.leb_spec 0 a), (Z.leb_spec a b), (Z.leb_spec b (len l)); try done.
    intros [= <-]. exists (take (Z.to_nat a) l), (drop (Z.to_nat (b - a)) (drop (Z.to_nat a) l)).
    rewrite take_drop, take_drop. split; [done|lens].
  - intros (x & z & -> & <- & Hy).
    destruct (Z.leb_spec 0 (len x)), (Z.leb_spec (len x) b),
      (Z.leb_spec b (len (x ++ y ++ z))); try lens.
    cbn. unfold len in *. rewrite Nat2Z.id, drop_app_length.
    replace (Z.to_nat (b - Z.of_nat (length x))) with (length y) by lia.
    by rewrite take_app_length.
Qed.

Lemma slice_Ok {E A} (l y : list A) a b :
  slice (E:=E) l a b = Ok y <->
  exists x z, l = x ++ y ++ z /\ len x = a /\ len y = b - a.
Proof. unfold slice. by rewrite expect_Ok, get_range_Some. Qed.

Lemma slice_from_Ok {E A} (l y : list A) a :
  slice_from (E:=E) l a = Ok y <-> exists x, l = x ++ y /\ len x = a.
Proof.
  unfold slice_from. rewrite expect_Ok, get_range_Some. split.
  - intros (x & z & -> & <- & Hy). exists x.
    assert (z = []) as -> by (apply len_0_nil; lens). by rewrite app_nil_r.
  - intros (x & -> & <-). exists x, []. rewrite app_nil_r. split_and!; [done|done|lens].
Qed.

Lemma get_Some {A} (l : list A) i x :
  get l i = Some x <-> 0 <= i /\ l !! Z.to_nat i = Some x.
Proof. unfold get. destruct (Z.leb_spec 0 i); naive_solver lia. Qed.

Lemma get_lookup {A} (l : list A) i x : get l i = Some x -> l !! Z.to_nat i = Some x.
Proof. unfold get. by destruct (0 <=? i). Qed.

(** [l[i] = x]. *)
Definition set_at {E A} (l : list A) (i : Z) (x : A) : outcome E (list A) :=
  if (0 <=? i) && (i <? len l) then Ok (<[Z.to_nat i := x]> l) else Panic.

Lemma get_lt {A} (l : list A) i x : get l i = Some x -> 0 <= i < len l.
Proof. rewrite get_Some. intros [? H%lookup_lt_Some]. unfold len. lia. Qed.

Lemma get_in {A} (l : list A) i : 0 <= i < len l -> exists x, get l i = Some x.
Proof.
  intros H. destruct (lookup_lt_is_Some_2 l (Z.to_nat i)) as [x Hx]; [unfold len in H; lia|].
  exists x. apply get_Some. split; [lia|done].
Qed.

Lemma set_at_Ok {E A} (l : list A) i x :
  0 <= i < len l -> set_at (E:=E) l i x = Ok (<[Z.to_nat i := x]> l).
Proof. intros. unfold set_at. destruct (Z.leb_spec 0 i), (Z.ltb_spec i (len l)); lia || done. Qed.

Lemma get_insert {A} (l : list A) i j x :
  0 <= i < len l -> 0 <= j -> get (<[Z.to_nat i := x]> l) j = if j =? i then Some x else get l j.
Proof.
  intros Hi Hj. unfold get. rewrite (proj2 (Z.leb_le 0 j)) by done.
  destruct (Z.eqb_spec j i) as [-> |Hne].
  - apply list_lookup_insert_eq. unfold len in Hi. lia.
  - apply list_lookup_insert_ne. lia.
Qed.

(** A suffix is determined by its length. *)
Lemma app_len_inj {A} (x1 x2 y1 y2 : list A) :
  x1 ++ y1 = x2 ++ y2 -> len x1 = len x2 -> x1 = x2 /\ y1 = y2.
Proof. unfold len. intros E H. apply app_inj_1 in E; [done|lia]. Qed.

Lemma lookup_map {A B} (f : A -> B) l i : map f l !! i = f <$> l !! i.
Proof. apply list_lookup_fmap. Qed.

Lemma get_range_app {A} (x y z : list A) a b :
  len x = a -> len y = b - a -> get_range (x ++ y ++ z) a b = Some y.
Proof. intros. apply get_range_Some. eauto. Qed.

Lemma get_range_app_0 {A} (y z : list A) b :
  len y = b -> get_range (y ++ z) 0 b = Some y.
Proof. intros. apply (get_range_app []); lens. Qed.

Lemma slice_from_app {E A} (x y : list A) a :
  len x = a -> slice_from (E:=E) (x ++ y) a = Ok y.
Proof. intros. apply slice_from_Ok. eauto. Qed.

Lemma get_split {A} (l : list A) i b :
  get l i = Some b <-> exists x y, l = x ++ b :: y /\ len x = i.
Proof.
  rewrite get_Some. split.
  - intros [Hi Hl]. exists (take (Z.to_nat i) l), (drop (S (Z.to_nat i)) l).
    split; [by rewrite take_drop_middle|]. apply lookup_lt_Some in Hl.
    unfold len. rewrite length_take. lia.
  - intros (x & y & -> & <-). split; [apply len_nonneg|]. unfold len.
    rewrite Nat2Z.id. by apply list_lookup_middle.
Qed.

(** A slice in range does not panic. *)
Lemma slice_from_not_Panic {E A} (l : list A) a :
  0 <= a <= len l -> slice_from (E:=E) l a <> Panic.
Proof.
  intros. unfold slice_from, get_range.
  destruct (Z.leb_spec 0 a), (Z.leb_spec a (len l)), (Z.leb_spec (len l) (len l)); lia || done.
Qed.

Lemma slice_not_Panic {E A} (l : list A) a b :
  0 <= a <= b -> b <= len l -> slice (E:=E) l a b <> Panic.
Proof.
  intros. unfold slice, get_range.
  destruct (Z.leb_spec 0 a), (Z.leb_spec a b), (Z.leb_spec b (len l)); lia || done.
Qed.

(** ** Counting *)

(** How many elements satisfy [f]. *)
Fixpoint cnt {A} (f : A -> bool) (l : list A) : Z :=
  match l with [] => 0 | x :: l => Z.b2z (f x) + cnt f l end.

Lemma cnt_app {A} (f : A -> bool) l k : cnt f (l ++ k) = cnt f l + cnt f k.
Proof. induction l as [|x l IH]; [done|]. cbn [app cnt]. rewrite IH. lia. Qed.

Lemma cnt_nonneg {A} (f : A -> bool) l : 0 <= cnt f l <= len l.
Proof.
  induction l as [|x l IH]; [done|]. cbn [cnt]. rewrite len_cons. destruct (f x); cbn; lia.
Qed.

Lemma cnt_insert {A} (f : A -> bool) l i x y :
  l !! i = Some x -> cnt f (<[i := y]> l) = cnt f l - Z.b2z (f x) + Z.b2z (f y).
Proof.
  revert i. induction l as [|z l IH]; intros [|i] Hi; try done.
  - injection Hi as ->. cbn [cnt insert list_insert]. lia.
  - cbn. rewrite IH by done. lia.
Qed.

Lemma cnt_pos {A} (f : A -> bool) l i x : l !! i = Some x -> f x = true -> 0 < cnt f l.
Proof.
  revert i. induction l as [|z l IH]; intros [|i] Hi Hf; try done.
  - injection Hi as ->. cbn [cnt]. rewrite Hf. pose proof (cnt_nonneg f l). cbn. lia.
  - cbn [cnt]. specialize (IH i Hi Hf). destruct (f z); cbn; lia.
Qed.

#[global] Arguments checked_add : simpl never.
#[global] Arguments checked_sub : simpl never.
#[global] Arguments wrap : simpl never.
#[global] Arguments in_u : simpl never.
#[global] Arguments len : simpl never.
#[global] Arguments get_range : simpl never.
#[global] Arguments slice : simpl never.
#[global] Arguments slice_from : simpl never.
#[global] Arguments get : simpl never.
#[global] Arguments set_at : simpl never.
#[global] Arguments le_bytes : simpl never.
#[global] Arguments u8 : simpl never.
#[global] Arguments b8 : simpl never.

(** One successful step of a sequence of binds. *)
Ltac ok_step := cbn [mbind outcome_bind option_bind mret outcome_ret ok_or expect].
Tactic Notation "ok_step" "in" hyp(H) :=
  cbn [mbind outcome_bind option_bind mret outcome_ret ok_or expect] in H.
