(* ===== verification/Varint.v ===== *)
(** * LEB128 varints ([crates/inf-foundation/src/varint.rs])

    The length prefixes of every log record, fabric message and document tape.
    [encode_u64] and [decode_u64] are the two loops of the source; the fuel of
    the encoder (nine further bytes after the first) is enough for every
    64-bit value, which [encode_u64_step] states as the loop's equation. *)

From S2P Require Import Prelude.

Module Varint.

(** [encode_u64]: one iteration pushes a byte and either returns or goes on. *)
Fixpoint encode_loop (fuel : nat) (v : Z) : list byte :=
  let byte := Z.land v 127 in
  let v := Z.shiftr v 7 in
  if v =? 0 then [b8 byte]
  else match fuel with
       | O => []
       | S fuel => b8 (Z.lor byte 128) :: encode_loop fuel v
       end.
Definition encode_u64 (v : Z) : list byte := encode_loop 9 v.

(** [decode_u64]: [i] counts the bytes consumed before the head of [buf]. *)
Fixpoint decode_loop (i : Z) (value : Z) (buf : list byte) : option (Z * Z) :=
  match buf with
  | [] => None
  | b :: buf =>
      if 10 <=? i then None
      else
        let value := Z.lor value (wrap 64 (Z.shiftl (Z.land (u8 b) 127) (7 * i))) in
        if Z.land (u8 b) 128 =? 0 then
          if (i =? 9) && (1 <? u8 b) then None
          else if (0 <? i) && (u8 b =? 0) then None
          else Some (value, i + 1)
        else decode_loop (i + 1) value buf
  end.
Definition decode_u64 (buf : list byte) : option (Z * Z) := decode_loop 0 0 buf.

(** [varint_len] of [crates/inf-log/src/record.rs]: the encoded size by
    [leading_zeros]. *)
Definition leading_zeros64 (v : Z) : Z := if v =? 0 then 64 else 63 - Z.log2 v.
Definition div_ceil (a b : Z) : Z := (a + b - 1) / b.
Definition varint_len (v : Z) : Z :=
  if v =? 0 then 1 else div_ceil (64 - leading_zeros64 v) 7.

(** ** The encoder's loop equation *)

Lemma encode_loop_fuel f1 f2 v :
  0 <= v < 2 ^ (7 * (Z.of_nat f1 + 1)) ->
  0 <= v < 2 ^ (7 * (Z.of_nat f2 + 1)) ->
  encode_loop f1 v = encode_loop f2 v.
Proof.
  revert f2 v. induction f1 as [|f1 IH]; intros [|f2] v H1 H2; cbn [encode_loop];
    rewrite shiftr_div by lia; try done.
  - change (2 ^ (7 * (Z.of_nat 0 + 1))) with 128 in H1. change (2 ^ 7) with 128.
    by rewrite Z.div_small by lia.
  - change (2 ^ (7 * (Z.of_nat 0 + 1))) with 128 in H2. change (2 ^ 7) with 128.
    by rewrite Z.div_small by lia.
  - destruct (v / 2 ^ 7 =? 0); [done|]. f_equal. change (2 ^ 7) with 128.
    replace (7 * (Z.of_nat (S f1) + 1)) with (7 + 7 * (Z.of_nat f1 + 1)) in H1 by lia.
    replace (7 * (Z.of_nat (S f2) + 1)) with (7 + 7 * (Z.of_nat f2 + 1)) in H2 by lia.
    rewrite Z.pow_add_r in H1, H2 by lia. change (2 ^ 7) with 128 in H1, H2.
    apply IH; (split; [apply Z.div_pos; lia|apply Z.div_lt_upper_bound; lia]).
Qed.

Lemma encode_loop_S f v :
  encode_loop (S f) v =
    if Z.shiftr v 7 =? 0 then [b8 (Z.land v 127)]
    else b8 (Z.lor (Z.land v 127) 128) :: encode_loop f (Z.shiftr v 7).
Proof. done. Qed.

Lemma encode_u64_step v :
  in_u 64 v ->
  encode_u64 v =
    if v <? 128 then [b8 v] else b8 (v mod 128 + 128) :: encode_u64 (v / 128).
Proof.
  unfold in_u, encode_u64. intros Hv. rewrite (encode_loop_S 8).
  rewrite shiftr_div, land_127 by lia. change (2 ^ 7) with 128.
  pose proof (Z.mod_pos_bound v 128 ltac:(lia)).
  destruct (Z.ltb_spec v 128).
  - rewrite Z.div_small, Z.mod_small by lia. done.
  - assert (1 <= v / 128) by (apply Z.div_le_lower_bound; lia).
    destruct (Z.eqb_spec (v / 128) 0); [lia|]. f_equal.
    + f_equal. exact (lor_shiftl 7 (v mod 128) 1 ltac:(lia) ltac:(lia)).
    + apply encode_loop_fuel;
        (split; [lia|apply Z.div_lt_upper_bound; cbn; lia]).
Qed.

Lemma in_u64_div128 v : in_u 64 v -> in_u 64 (v / 128).
Proof.
  unfold in_u. intros. split; [apply Z.div_pos; lia|].
  apply Z.div_lt_upper_bound; lia.
Qed.

(** Strong induction along the encoder: [v] decreases by a factor of 128. *)
Lemma varint_ind (P : Z -> Prop) :
  (forall v, 0 <= v < 128 -> P v) ->
  (forall v, 128 <= v -> P (v / 128) -> P v) ->
  forall v, 0 <= v -> P v.
Proof.
  intros Hs Hb. apply Zlt_0_ind.
  intros v IH Hv. destruct (Z.lt_ge_cases v 128); [apply Hs; lia|].
  apply Hb; [lia|]. apply IH. split; [apply Z.div_pos; lia|apply Z.div_lt; lia].
Qed.

Lemma len_encode_u64_pos v : in_u 64 v -> 1 <= len (encode_u64 v).
Proof. intros. rewrite encode_u64_step by done. destruct (v <? 128); lens. Qed.

Lemma log2_div128 v : 128 <= v -> Z.log2 v = 7 + Z.log2 (v / 128).
Proof.
  intros. change 128 with (2 ^ 7). rewrite <- (shiftr_div 7 v), Z.log2_shiftr by lia.
  assert (7 <= Z.log2 v) by (apply Z.log2_le_pow2; lia). lia.
Qed.

(** [varint_len] is the length of the encoding, and it is at most ten. *)
Lemma varint_len_encode v : in_u 64 v -> varint_len v = len (encode_u64 v).
Proof.
  intros Hv. pose proof (proj1 Hv) as H0. revert v H0 Hv.
  refine (varint_ind _ _ _); intros v Hv; [|intros IH]; intros Hu.
  all: rewrite encode_u64_step by done.
  all: unfold varint_len, leading_zeros64, div_ceil in *.
  - destruct (Z.ltb_spec v 128); [|lia]. destruct (Z.eqb_spec v 0); [done|].
    assert (Z.log2 v < 7) by (apply Z.log2_lt_pow2; lia).
    pose proof (Z.log2_nonneg v). rewrite len_cons, len_nil.
    symmetry. apply (Z.div_unique _ _ _ (Z.log2 v)); lia.
  - destruct (Z.ltb_spec v 128); [lia|]. destruct (Z.eqb_spec v 0); [lia|].
    assert (1 <= v / 128) by (apply Z.div_le_lower_bound; lia).
    rewrite len_cons, <- IH by (by apply in_u64_div128).
    destruct (Z.eqb_spec (v / 128) 0); [lia|]. rewrite log2_div128 by lia.
    replace (64 - (63 - (7 + Z.log2 (v / 128))) + 7 - 1)
      with (64 - (63 - Z.log2 (v / 128)) + 7 - 1 + 1 * 7) by lia.
    rewrite Z.div_add by lia. lia.
Qed.

(** ** Decoding *)

Lemma bit7 b : (Z.land (u8 b) 128 =? 0) = (u8 b <? 128).
Proof. by destruct b. Qed.

Lemma pow7 i : 0 <= i -> 2 ^ (7 * (i + 1)) = 128 * 2 ^ (7 * i).
Proof. intros. rewrite Z.mul_add_distr_l, Z.pow_add_r by lia. lia. Qed.

(** One decoder step's accumulator, as arithmetic. *)
Lemma acc_step i acc d :
  0 <= i -> 0 <= acc < 2 ^ (7 * i) -> 0 <= d -> d * 2 ^ (7 * i) < 2 ^ 64 ->
  Z.lor acc (wrap 64 (Z.shiftl d (7 * i))) = acc + d * 2 ^ (7 * i).
Proof.
  intros. rewrite wrap_id.
  - apply lor_shiftl; lia.
  - unfold in_u. rewrite Z.shiftl_mul_pow2 by lia. lia.
Qed.

Lemma pow7_small i : 0 <= i < 10 -> 2 ^ (7 * i) <= 2 ^ 63.
Proof. intros. apply Z.pow_le_mono_r; lia. Qed.

Lemma scaled_index v i : 0 <= i -> 0 < v -> v * 2 ^ (7 * i) < 2 ^ 64 -> i < 10.
Proof.
  intros. destruct (Z.lt_ge_cases i 10); [done|].
  assert (2 ^ 70 <= 2 ^ (7 * i)) by (apply Z.pow_le_mono_r; lia).
  assert (2 ^ 64 < 2 ^ 70) by (cbn; lia). nia.
Qed.

Lemma decode_loop_encode v :
  0 <= v -> forall i acc rest,
  0 <= i -> 0 <= acc < 2 ^ (7 * i) -> v * 2 ^ (7 * i) < 2 ^ 64 ->
  i = 0 \/ 0 < v ->
  decode_loop i acc (encode_u64 v ++ rest)
  = Some (acc + v * 2 ^ (7 * i), i + len (encode_u64 v)).
Proof.
  revert v. refine (varint_ind _ _ _); intros v Hv; [|intros IH].
  all: intros i acc rest Hi Hacc Hbound Hor.
  all: assert (Hi10 : i < 10) by (destruct Hor; [lia|by apply (scaled_index v)]).
  all: assert (Hp : 0 < 2 ^ (7 * i)) by lia.
  all: assert (Hu : in_u 64 v) by (unfold in_u; nia).
  all: rewrite encode_u64_step by done.
  - destruct (Z.ltb_spec v 128); [|lia]. cbn [app decode_loop].
    rewrite bit7, land_127, u8_b8_small, Z.mod_small by lia.
    destruct (Z.leb_spec 10 i); [lia|]. destruct (Z.ltb_spec v 128); [|lia].
    rewrite acc_step by lia.
    destruct (Z.eqb_spec i 9) as [->|].
    + change (2 ^ (7 * 9)) with (2 ^ 63) in *.
      destruct (Z.ltb_spec 1 v); [cbn in Hbound; lia|].
      destruct (Z.eqb_spec v 0); [lia|]. done.
    + destruct (Z.ltb_spec 0 i), (Z.eqb_spec v 0); done || lia.
  - destruct (Z.ltb_spec v 128); [lia|]. cbn [app decode_loop].
    pose proof (Z.mod_pos_bound v 128 ltac:(lia)) as Hm.
    pose proof (Z.div_mod v 128 ltac:(lia)) as Hdm.
    assert (1 <= v / 128) by (apply Z.div_le_lower_bound; lia).
    rewrite bit7, land_127, u8_b8_small by lia.
    destruct (Z.leb_spec 10 i); [lia|].
    destruct (Z.ltb_spec (v mod 128 + 128) 128); [lia|].
    replace ((v mod 128 + 128) mod 128) with (v mod 128)
      by (rewrite Z.add_mod, Z.mod_same, Z.add_0_r, !Z.mod_mod; lia).
    rewrite acc_step by nia. rewrite IH by (rewrite ?pow7; nia).
    rewrite pow7 by lia. f_equal. f_equal; [nia|]. lens.
Qed.

Lemma decode_loop_sound buf : forall i acc v n,
  0 <= i <= 10 -> 0 <= acc < 2 ^ (7 * i) ->
  decode_loop i acc buf = Some (v, n) ->
  exists w rest, buf = encode_u64 w ++ rest /\ in_u 64 w /\
    (0 < i -> 0 < w) /\ v = acc + w * 2 ^ (7 * i) /\ in_u 64 v /\
    n = i + len (encode_u64 w).
Proof.
  induction buf as [|b buf IH]; intros i acc v n Hi Hacc; cbn [decode_loop]; [done|].
  destruct (Z.leb_spec 10 i); [done|].
  pose proof (u8_range b) as Hb. pose proof (pow7_small i ltac:(lia)) as Hp.
  assert (0 < 2 ^ (7 * i)) by lia. change (2 ^ 63) with 9223372036854775808 in Hp.
  rewrite bit7, land_127. destruct (Z.ltb_spec (u8 b) 128).
  - rewrite Z.mod_small by lia.
    destruct (Z.eqb_spec i 9) as [->|Hi9]; cbn [andb].
    + change (2 ^ (7 * 9)) with 9223372036854775808 in *.
      destruct (Z.ltb_spec 1 (u8 b)); [done|]. change (0 <? 9) with true. cbn [andb].
      destruct (Z.eqb_spec (u8 b) 0); [done|]. intros [= <- <-].
      exists (u8 b), buf. rewrite acc_step by (change (2^(7*9)) with 9223372036854775808; cbn; lia).
      change (2 ^ (7 * 9)) with 9223372036854775808.
      rewrite encode_u64_step by (unfold in_u; cbn; lia).
      destruct (Z.ltb_spec (u8 b) 128); [|lia]. rewrite b8_u8.
      unfold in_u. cbn [app length]. repeat split; lia || done.
    + destruct ((0 <? i) && (u8 b =? 0)) eqn:E; [done|]. intros [= <- <-].
      assert (2 ^ (7 * i) <= 2 ^ 56) by (apply Z.pow_le_mono_r; lia).
      change (2 ^ 56) with 72057594037927936 in *.
      assert (u8 b * 2 ^ (7 * i) < 2 ^ 63) by (cbn; nia).
      assert (in_u 64 (u8 b)) by (unfold in_u; cbn; lia).
      assert (in_u 64 (acc + u8 b * 2 ^ (7 * i))) by (unfold in_u in *; cbn in *; nia).
      exists (u8 b), buf. rewrite acc_step by (cbn in *; nia).
      rewrite encode_u64_step by done.
      destruct (Z.ltb_spec (u8 b) 128); [|lia]. rewrite b8_u8.
      split_and!; try done.
      intros. apply andb_false_iff in E as [E|E]; lia.
  - intros Hrec. destruct (Z.eq_dec i 9) as [->|Hi9].
    { destruct buf; done. }
    assert (2 ^ (7 * i) <= 2 ^ 56) by (apply Z.pow_le_mono_r; lia).
    change (2 ^ 56) with 72057594037927936 in *.
    assert (Em : u8 b mod 128 = u8 b - 128).
    { symmetry. apply (Z.mod_unique _ _ 1); lia. }
    rewrite Em, acc_step in Hrec by (try lia; cbn; nia).
    apply IH in Hrec as (w & rest & -> & Hw & Hpos & -> & Hv & ->);
      [|lia|rewrite pow7; nia].
    rewrite pow7 in * by lia. specialize (Hpos ltac:(lia)).
    assert (Hw' : in_u 64 (u8 b - 128 + 128 * w)) by (unfold in_u in *; nia).
    exists (u8 b - 128 + 128 * w), rest. rewrite (encode_u64_step (_ + 128 * w)) by done.
    destruct (Z.ltb_spec (u8 b - 128 + 128 * w) 128); [lia|].
    replace ((u8 b - 128 + 128 * w) mod 128) with (u8 b - 128)
      by (rewrite Z.mul_comm, Z.mod_add, Z.mod_small; lia).
    replace ((u8 b - 128 + 128 * w) / 128) with w
      by (rewrite Z.mul_comm, Z.div_add, Z.div_small; lia).
    replace (u8 b - 128 + 128) with (u8 b) by lia. rewrite b8_u8.
    assert (Ev : acc + (u8 b - 128) * 2 ^ (7 * i) + w * (128 * 2 ^ (7 * i))
                 = acc + (u8 b - 128 + 128 * w) * 2 ^ (7 * i)) by ring.
    rewrite Ev in *. split_and!; try done; [lia|lens].
Qed.

Lemma decode_encode v rest :
  in_u 64 v ->
  decode_u64 (encode_u64 v ++ rest) = Some (v, len (encode_u64 v)).
Proof.
  intros Hv. unfold decode_u64. rewrite decode_loop_encode;
    change (2 ^ (7 * 0)) with 1; unfold in_u in Hv;
    rewrite ?Z.mul_1_r, ?Z.add_0_l; auto; lia.
Qed.

Lemma decode_sound buf v n :
  decode_u64 buf = Some (v, n) ->
  in_u 64 v /\ n = len (encode_u64 v) /\
  exists rest, buf = encode_u64 v ++ rest.
Proof.
  intros H. apply decode_loop_sound in H as (w & rest & -> & Hw & _ & -> & _ & ->);
    [|lia|cbn; lia].
  change (2 ^ (7 * 0)) with 1. rewrite Z.mul_1_r, !Z.add_0_l. eauto.
Qed.

(** [decode_u64] accepts exactly the canonical encodings: it returns
    [(v, n)] on a buffer if and only if the buffer starts with the bytes
    [encode_u64] writes for the 64-bit value [v] and [n] is their number, so
    decoding inverts encoding whatever follows and a decoded prefix re-encodes
    byte for byte. *)
Theorem decode_u64_canonical (buf : list byte) (v n : Z) :
  decode_u64 buf = Some (v, n) <->
  in_u 64 v /\ n = len (encode_u64 v) /\
  exists rest, buf = encode_u64 v ++ rest.
Proof.
  split; [apply decode_sound|].
  intros (Hv & -> & rest & ->). by apply decode_encode.
Qed.

#[global] Arguments encode_u64 : simpl never.
#[global] Arguments decode_u64 : simpl never.
#[global] Arguments varint_len : simpl never.

End Varint.
