(* ===== verification/Lsn.v ===== *)
(** * Log addresses ([crates/inf-log/src/lsn.rs])

    A record's identity is its LSN, the pair (segment, offset) of 32-bit
    numbers; [to_u64] packs it into the durability watermark's key. *)

From S2P Require Import Prelude.

Module Lsn.

(** [MAX_SEGMENT_LEN]. *)
Definition MAX_SEGMENT_LEN : Z := U32_MAX.

(** [SegmentId] is its [u32]. [SegmentId::next]. *)
Definition next_segment (id : Z) : panics Z := expect (checked_add 32 id 1).

(** [Lsn]. *)
Record t := new { segment : Z; offset : Z }.

#[global] Instance lsn_eq_dec : EqDecision t.
Proof. solve_decision. Defined.

Definition wf (a : t) : Prop := in_u 32 (segment a) /\ in_u 32 (offset a).

(** The derived [Ord]: field by field. *)
Definition lt (a b : t) : Prop :=
  segment a < segment b \/ segment a = segment b /\ offset a < offset b.
Definition ltb (a b : t) : bool :=
  (segment a <? segment b) || ((segment a =? segment b) && (offset a <? offset b)).
Definition le (a b : t) : Prop := lt a b \/ a = b.
Definition leb (a b : t) : bool := negb (ltb b a).

(** [Lsn::advance], [Lsn::to_u64], [Lsn::from_u64]. *)
Definition advance (a : t) (bytes : Z) : panics t :=
  o ← expect (checked_add 32 (offset a) bytes);
  mret (new (segment a) o).
Definition to_u64 (a : t) : Z := Z.lor (Z.shiftl (segment a) 32) (offset a).
Definition from_u64 (packed : Z) : t :=
  new (wrap 32 (Z.shiftr packed 32)) (wrap 32 packed).

(** [check_segment_len]: [false] is the [InvalidData] refusal. *)
Definition check_segment_len (len : Z) : bool := len <=? MAX_SEGMENT_LEN.

Lemma ltb_lt a b : ltb a b = true <-> lt a b.
Proof. unfold ltb, lt. lia. Qed.

Lemma leb_le a b : leb a b = true <-> le a b.
Proof.
  unfold leb, le, lt, ltb. destruct a as [s1 o1], b as [s2 o2]. cbn. split.
  - intros H. destruct (Z.eq_dec s1 s2) as [->|]; [|left; lia].
    destruct (Z.eq_dec o1 o2) as [->|]; [by right|left; lia].
  - intros [H|H]; [lia|]. injection H as -> ->. lia.
Qed.

Lemma le_alt a b :
  le a b <-> segment a < segment b \/ segment a = segment b /\ offset a <= offset b.
Proof.
  unfold le, lt. destruct a as [s1 o1], b as [s2 o2]. cbn. split.
  - intros [H|H]; [lia|]. injection H as -> ->. lia.
  - intros H. destruct (Z.eq_dec s1 s2) as [->|]; [|left; lia].
    destruct (Z.eq_dec o1 o2) as [->|]; [by right|left; lia].
Qed.

(** Goals and hypotheses on the order, by arithmetic on the fields. *)
Ltac lsn := rewrite ?le_alt in *; unfold lt in *; lia.

Lemma leb_spec a b : Bool.reflect (le a b) (leb a b).
Proof. apply iff_reflect. by rewrite leb_le. Qed.

Lemma ltb_spec a b : Bool.reflect (lt a b) (ltb a b).
Proof. apply iff_reflect. by rewrite ltb_lt. Qed.

Lemma to_u64_val a : wf a -> to_u64 a = segment a * 2 ^ 32 + offset a.
Proof.
  intros [_ Ho]. unfold to_u64. rewrite Z.lor_comm, lor_shiftl by (lia || apply Ho). lia.
Qed.

Lemma to_u64_range a : wf a -> in_u 64 (to_u64 a).
Proof.
  intros W. rewrite to_u64_val by done. destruct W as [Hs Ho]. unfold in_u in *.
  change (2 ^ 64) with (2 ^ 32 * 2 ^ 32). nia.
Qed.

Lemma from_to_u64 a : wf a -> from_u64 (to_u64 a) = a.
Proof.
  intros W. unfold from_u64. rewrite to_u64_val, shiftr_div by done || lia.
  destruct W as [Hs Ho]. rewrite Z.div_add_l, (Z.div_small (offset a)), Z.add_0_r by (apply Ho || lia).
  unfold wrap at 2. rewrite Z.add_comm, Z.mod_add, Z.mod_small by (apply Ho || lia).
  rewrite wrap_id by done. by destruct a.
Qed.

Lemma to_from_u64 p : in_u 64 p -> wf (from_u64 p) /\ to_u64 (from_u64 p) = p.
Proof.
  intros Hp. assert (W : wf (from_u64 p)) by (split; apply wrap_in_u; lia).
  split; [done|]. rewrite to_u64_val by done. unfold from_u64. cbn [segment offset].
  unfold in_u in Hp. rewrite shiftr_div by lia. rewrite (wrap_id 32 (p / _)) by
    (split; [apply Z.div_pos|apply Z.div_lt_upper_bound]; lia).
  unfold wrap. pose proof (Z.div_mod p (2 ^ 32) ltac:(lia)). lia.
Qed.

Lemma to_u64_lt a b : wf a -> wf b -> lt a b <-> to_u64 a < to_u64 b.
Proof.
  intros Wa Wb. rewrite !to_u64_val by done. destruct Wa, Wb. unfold lt, in_u in *. nia.
Qed.

(** Packing an LSN keeps it and its order: on well-formed addresses
    [from_u64] inverts [to_u64], every 64-bit value is the packing of the
    address it unpacks to, and the [u64] order of packings is the append order
    (segment first, then offset) of addresses. *)
Theorem packing_is_order_isomorphism (a b : t) (p : Z) :
  wf a -> wf b -> in_u 64 p ->
  from_u64 (to_u64 a) = a /\ to_u64 (from_u64 p) = p /\
  (lt a b <-> to_u64 a < to_u64 b).
Proof.
  intros Wa Wb Hp. split_and!; [by apply from_to_u64|by apply to_from_u64|by apply to_u64_lt].
Qed.

Lemma packing_is_order_isomorphism_witness :
  from_u64 (to_u64 (new 3 40)) = new 3 40 /\ to_u64 (from_u64 12884901928) = 12884901928 /\
  (lt (new 3 40) (new 4 0) <-> to_u64 (new 3 40) < to_u64 (new 4 0)).
Proof.
  apply (packing_is_order_isomorphism (new 3 40) (new 4 0) 12884901928);
    repeat split; cbn; lia.
Defined.

End Lsn.
