(* ===== verification/LogRecord.v ===== *)
(** * Log records ([crates/inf-log/src/record.rs])

    The record vocabulary of the log: [RecordView] with the source's nine
    constructors, the encoder [encode_into] with its size functions, and the
    decoder [decode_record] with its error values. A slice the source takes
    with [&x[a..]] is a [slice_from], which panics out of range, so that the
    decoder's freedom from panics is a theorem and not a convention. *)

From S2P Require Import Prelude Varint.
Import Varint.

Module LogRecord.

(** [RecordType] and [RecordType::from_u8]. *)
Inductive RecordType :=
  | TStringPostImage | TDelete | TExpireAt | TNsOp | TCkptBegin
  | TDocDelta | TDocFull | TColdDisplace | TStringExtentRef.

Definition type_tag (t : RecordType) : Z :=
  match t with
  | TStringPostImage => 1 | TDelete => 2 | TExpireAt => 3 | TNsOp => 4
  | TCkptBegin => 5 | TDocDelta => 6 | TDocFull => 7 | TColdDisplace => 8
  | TStringExtentRef => 9
  end.

Definition from_u8 (tag : Z) : option RecordType :=
  match tag with
  | 1 => Some TStringPostImage | 2 => Some TDelete | 3 => Some TExpireAt
  | 4 => Some TNsOp | 5 => Some TCkptBegin | 6 => Some TDocDelta
  | 7 => Some TDocFull | 8 => Some TColdDisplace | 9 => Some TStringExtentRef
  | _ => None
  end.

Definition RECORD_FLAGS_V1 : Z := 0.
Definition DOC_VERSION_MASK : Z := 16777215.

(** [RecordView]. Numbers are the unsigned fields of the source; [lineage]
    is the [NonZeroU64] of a [DocLineage]. *)
Inductive RecordView :=
  | StringPostImage (ns : Z) (key value : list byte)
  | Delete (ns : Z) (key : list byte)
  | ExpireAt (ns at_unix_ms : Z) (key : list byte)
  | NsOp (ns : Z) (payload : list byte)
  | CkptBegin (ns ckpt_id : Z)
  | DocDelta (ns : Z) (key : list byte) (lineage base_version match_count post_len : Z)
      (opcode : byte) (program operand : list byte)
  | DocFull (ns : Z) (key : list byte) (lineage version : Z) (idoc : list byte)
  | ColdDisplace (ns old_addr : Z)
  | StringExtentRef (ns : Z) (key : list byte) (extent_id offset length : Z).

#[global] Instance RecordView_eq_dec : EqDecision RecordView.
Proof. solve_decision. Defined.

Definition record_type (r : RecordView) : RecordType :=
  match r with
  | StringPostImage _ _ _ => TStringPostImage
  | Delete _ _ => TDelete
  | ExpireAt _ _ _ => TExpireAt
  | NsOp _ _ => TNsOp
  | CkptBegin _ _ => TCkptBegin
  | DocDelta _ _ _ _ _ _ _ _ _ => TDocDelta
  | DocFull _ _ _ _ _ => TDocFull
  | ColdDisplace _ _ => TColdDisplace
  | StringExtentRef _ _ _ _ _ => TStringExtentRef
  end.

Definition ns_of (r : RecordView) : Z :=
  match r with
  | StringPostImage ns _ _ | Delete ns _ | ExpireAt ns _ _ | NsOp ns _
  | CkptBegin ns _ | DocDelta ns _ _ _ _ _ _ _ _ | DocFull ns _ _ _ _
  | ColdDisplace ns _ | StringExtentRef ns _ _ _ _ => ns
  end.

(** [RecordView::body_len] and [RecordView::encoded_len]. *)
Definition body_len (r : RecordView) : Z :=
  2 + match r with
      | StringPostImage ns key value =>
          varint_len ns + varint_len (len key) + len key + len value
      | Delete ns key => varint_len ns + len key
      | ExpireAt ns at_unix_ms key => varint_len ns + varint_len at_unix_ms + len key
      | NsOp ns payload => varint_len ns + len payload
      | CkptBegin ns ckpt_id => varint_len ns + varint_len ckpt_id
      | DocDelta ns key _ _ _ _ _ program operand =>
          varint_len ns + varint_len (len key) + len key + 8 + 3 + 4 + 3 + 1
          + varint_len (len program) + len program + len operand
      | DocFull ns key _ _ idoc =>
          varint_len ns + varint_len (len key) + len key + 8 + 3 + len idoc
      | ColdDisplace ns _ => varint_len ns + 6
      | StringExtentRef ns key _ _ _ =>
          varint_len ns + varint_len (len key) + len key + 24
      end.
Definition encoded_len (r : RecordView) : Z :=
  varint_len (body_len r) + body_len r.

(** [RecordView::encode_into]: what it appends after the namespace varint, and
    the whole append. *)
Definition encode_payload (r : RecordView) : list byte :=
  match r with
  | StringPostImage _ key value => encode_u64 (len key) ++ key ++ value
  | Delete _ key => key
  | ExpireAt _ at_unix_ms key => encode_u64 at_unix_ms ++ key
  | NsOp _ payload => payload
  | CkptBegin _ ckpt_id => encode_u64 ckpt_id
  | DocDelta _ key lineage base_version match_count post_len opcode program operand =>
      encode_u64 (len key) ++ key ++ le_bytes 8 lineage
      ++ take 3 (le_bytes 4 base_version) ++ le_bytes 4 match_count
      ++ take 3 (le_bytes 4 post_len) ++ [opcode]
      ++ encode_u64 (len program) ++ program ++ operand
  | DocFull _ key lineage version idoc =>
      encode_u64 (len key) ++ key ++ le_bytes 8 lineage
      ++ take 3 (le_bytes 4 version) ++ idoc
  | ColdDisplace _ old_addr => take 6 (le_bytes 8 old_addr)
  | StringExtentRef _ key extent_id offset length =>
      encode_u64 (len key) ++ key
      ++ le_bytes 8 extent_id ++ le_bytes 8 offset ++ le_bytes 8 length
  end.
Definition encode_into (r : RecordView) (out : list byte) : list byte :=
  out ++ encode_u64 (body_len r)
  ++ [b8 (type_tag (record_type r)); b8 RECORD_FLAGS_V1]
  ++ encode_u64 (ns_of r) ++ encode_payload r.

(** [RecordDecodeError]. *)
Inductive RecordDecodeError :=
  | Truncated | Varint | UnknownType (tag : Z) | UnknownFlags (bits : Z)
  | NsOutOfRange (ns : Z) | KeyOverrun | ProgramOverrun | InvalidDocLineage
  | InvalidDocBounds | InvalidExtentBounds | TrailingBytes.

#[global] Instance RecordDecodeError_eq_dec : EqDecision RecordDecodeError.
Proof. solve_decision. Defined.

Notation decoded := (outcome RecordDecodeError).

(** [varint::decode_u64(buf).ok_or(if buf.is_empty() { Truncated } else { Varint })?] *)
Definition read_varint (buf : list byte) : decoded (Z * Z) :=
  ok_or (match buf with [] => Truncated | _ => Varint end) (decode_u64 buf).

(** [decode_key], [decode_u24], [decode_doc_lineage]. [usize] is 64 bits wide. *)
Definition decode_key (payload : list byte) : decoded (list byte * list byte) :=
  '(key_len, used) ← read_varint payload;
  key_end ← ok_or KeyOverrun (checked_add 64 used key_len);
  key ← ok_or KeyOverrun (get_range payload used key_end);
  rest ← slice_from payload key_end;
  mret (key, rest).

Definition decode_u24 (bytes : list byte) : option Z :=
  raw ← get_range bytes 0 3; Some (le_val raw).

Definition decode_doc_lineage (bytes : list byte) : decoded Z :=
  raw ← ok_or Truncated (get_range bytes 0 8);
  if le_val raw =? 0 then Err InvalidDocLineage else Ok (le_val raw).

(** The [match record_type] of [decode_record]. *)
Definition decode_view (t : RecordType) (ns : Z) (payload : list byte) : decoded RecordView :=
  match t with
  | TStringPostImage =>
      '(key, value) ← decode_key payload;
      mret (StringPostImage ns key value)
  | TDelete => mret (Delete ns payload)
  | TExpireAt =>
      '(at_unix_ms, at_len) ← read_varint payload;
      key ← slice_from payload at_len;
      mret (ExpireAt ns at_unix_ms key)
  | TNsOp => mret (NsOp ns payload)
  | TCkptBegin =>
      '(ckpt_id, id_len) ← read_varint payload;
      _ ← refuse_if (negb (id_len =? len payload)) TrailingBytes;
      mret (CkptBegin ns ckpt_id)
  | TDocDelta =>
      '(key, rest) ← decode_key payload;
      lineage ← decode_doc_lineage rest;
      from8 ← slice_from rest 8;
      version ← ok_or Truncated (decode_u24 from8);
      counted ← ok_or Truncated (get_range rest 11 15);
      from15 ← slice_from rest 15;
      post_len ← ok_or Truncated (decode_u24 from15);
      _ ← refuse_if ((le_val counted =? 0) || (post_len =? 0)) InvalidDocBounds;
      opcode ← ok_or Truncated (get rest 18);
      fields ← slice_from rest 19;
      '(program_len, used) ← read_varint fields;
      program_end ← ok_or ProgramOverrun (checked_add 64 used program_len);
      program ← ok_or ProgramOverrun (get_range fields used program_end);
      operand ← slice_from fields program_end;
      mret (DocDelta ns key lineage version (le_val counted) post_len opcode program operand)
  | TDocFull =>
      '(key, rest) ← decode_key payload;
      lineage ← decode_doc_lineage rest;
      from8 ← slice_from rest 8;
      version ← ok_or Truncated (decode_u24 from8);
      idoc ← slice_from rest 11;
      mret (DocFull ns key lineage version idoc)
  | TColdDisplace =>
      if negb (len payload =? 6)
      then Err (if len payload <? 6 then Truncated else TrailingBytes)
      else mret (ColdDisplace ns (le_val payload))
  | TStringExtentRef =>
      '(key, rest) ← decode_key payload;
      if negb (len rest =? 24)
      then Err (if len rest <? 24 then Truncated else TrailingBytes)
      else
        id ← slice rest 0 8; off ← slice rest 8 16; l ← slice rest 16 24;
        _ ← refuse_if (le_val l =? 0) InvalidExtentBounds;
        mret (StringExtentRef ns key (le_val id) (le_val off) (le_val l))
  end.

Definition decode_record (buf : list byte) : decoded (RecordView * Z) :=
  '(blen, prefix_len) ← read_varint buf;
  record_end ← ok_or Truncated (checked_add 64 prefix_len blen);
  body ← ok_or Truncated (get_range buf prefix_len record_end);
  match body with
  | tag :: flags :: fields =>
      t ← ok_or (UnknownType (u8 tag)) (from_u8 (u8 tag));
      _ ← refuse_if (negb (u8 flags =? RECORD_FLAGS_V1)) (UnknownFlags (u8 flags));
      '(ns, ns_len) ← read_varint fields;
      _ ← refuse_if (U32_MAX <? ns) (NsOutOfRange ns);
      payload ← slice_from fields ns_len;
      view ← decode_view t ns payload;
      mret (view, record_end)
  | _ => Err Truncated
  end.

(** ** Well-formed records: the field widths and the encoder's debug
    assertions, and a size that fits the 64-bit address space. *)
Definition fields_ok (r : RecordView) : Prop :=
  in_u 32 (ns_of r) /\
  match r with
  | StringPostImage _ _ _ | Delete _ _ | NsOp _ _ => True
  | ExpireAt _ at_unix_ms _ => in_u 64 at_unix_ms
  | CkptBegin _ ckpt_id => in_u 64 ckpt_id
  | DocDelta _ _ lineage base_version match_count post_len _ _ _ =>
      in_u 64 lineage /\ lineage <> 0 /\ in_u 24 base_version /\
      in_u 32 match_count /\ match_count <> 0 /\ in_u 24 post_len /\ post_len <> 0
  | DocFull _ _ lineage version _ => in_u 64 lineage /\ lineage <> 0 /\ in_u 24 version
  | ColdDisplace _ old_addr => in_u 48 old_addr
  | StringExtentRef _ _ extent_id offset length =>
      in_u 64 extent_id /\ in_u 64 offset /\ in_u 64 length /\ length <> 0
  end.
Definition record_ok (r : RecordView) : Prop :=
  fields_ok r /\ len (encode_into r []) < 2 ^ 64.

(** ** The pieces of the decoder *)

Lemma read_varint_Ok p v n :
  read_varint p = Ok (v, n) <->
  in_u 64 v /\ n = len (encode_u64 v) /\ exists rest, p = encode_u64 v ++ rest.
Proof.
  unfold read_varint. rewrite ok_or_Ok. split; [apply decode_sound|].
  intros (Hv & -> & rest & ->). by apply decode_encode.
Qed.

Lemma read_varint_app v rest :
  in_u 64 v -> read_varint (encode_u64 v ++ rest) = Ok (v, len (encode_u64 v)).
Proof. intros. apply read_varint_Ok. eauto. Qed.

Lemma in_u64_len {A} (l : list A) : len l < 2 ^ 64 -> in_u 64 (len l).
Proof. split; [apply len_nonneg|done]. Qed.

Lemma decode_key_Ok p key rest :
  decode_key p = Ok (key, rest) <->
  p = encode_u64 (len key) ++ key ++ rest /\
  len (encode_u64 (len key)) + len key < 2 ^ 64.
Proof.
  unfold decode_key. split.
  - intros H. inv_ok H. rename a into kl, b into used.
    apply read_varint_Ok in H0 as (Hv & -> & r & ->).
    apply checked_add_Some in H1 as [-> Hlt].
    apply get_range_Some in H2 as (x & z & E & Hx & Hk).
    apply slice_from_Ok in H3 as (x' & E' & Hx'). injection H as <- <-.
    apply app_len_inj in E as [<- ->]; [|lia].
    assert (len a1 = kl) as -> by lens.
    rewrite app_assoc in E'. apply app_len_inj in E' as [<- <-]; [done|lens].
  - intros [-> Hlt]. assert (in_u 64 (len key)) by (apply in_u64_len; lens).
    rewrite read_varint_app by done. cbn.
    rewrite (proj2 (checked_add_Some _ _ _ _) (conj eq_refl Hlt)). cbn.
    rewrite get_range_app by lia. cbn.
    rewrite app_assoc, slice_from_app by lens. done.
Qed.

Lemma decode_u24_Some bytes v :
  decode_u24 bytes = Some v <-> in_u 24 v /\ exists z, bytes = le_bytes 3 v ++ z.
Proof.
  unfold decode_u24. split.
  - destruct (get_range bytes 0 3) as [raw|] eqn:E; [|done]. ok_step. intros [= <-].
    apply get_range_Some in E as (x & z & -> & Hx & Hr).
    apply len_0_nil in Hx as ->. pose proof (le_val_bound raw) as Hb.
    rewrite (le_bytes_le_val 3) by (unfold len in Hr; lia).
    split; [|eauto]. unfold in_u. unfold len in Hr.
    replace (8 * Z.of_nat (length raw)) with 24 in Hb by lia. done.
  - intros (Hv & z & ->). rewrite (get_range_app [] (le_bytes 3 v) z) by lens.
    cbn [mbind option_bind]. by rewrite le_val_le_bytes_small.
Qed.

Lemma decode_doc_lineage_Ok bytes v :
  decode_doc_lineage bytes = Ok v <->
  in_u 64 v /\ v <> 0 /\ exists z, bytes = le_bytes 8 v ++ z.
Proof.
  unfold decode_doc_lineage. split.
  - intros H. inv_ok H. apply get_range_Some in H0 as (x & z & -> & Hx & Hr).
    apply len_0_nil in Hx as ->. pose proof (le_val_bound a) as Hb.
    destruct (Z.eqb_spec (le_val a) 0); [done|]. injection H as <-.
    rewrite (le_bytes_le_val 8) by (unfold len in Hr; lia).
    split_and!; [| |eauto]; try done. unfold in_u. unfold len in Hr.
    by replace (8 * Z.of_nat (length a)) with 64 in Hb by lia.
  - intros (Hv & Hn & z & ->). rewrite (get_range_app [] (le_bytes 8 v) z) by lens.
    cbn [mbind outcome_bind ok_or]. rewrite le_val_le_bytes_small by done.
    by destruct (Z.eqb_spec v 0).
Qed.

(** The bytes after the length prefix, and their declared length. *)
Definition body (r : RecordView) : list byte :=
  [b8 (type_tag (record_type r)); b8 RECORD_FLAGS_V1]
  ++ encode_u64 (ns_of r) ++ encode_payload r.

Lemma encode_into_body r out :
  encode_into r out = out ++ encode_u64 (body_len r) ++ body r.
Proof. done. Qed.

Lemma in_u_mono w1 w2 v : 0 <= w1 <= w2 -> in_u w1 v -> in_u w2 v.
Proof.
  unfold in_u. intros Hw [H0 H1]. split; [done|].
  apply Z.lt_le_trans with (2 ^ w1); [done|]. apply Z.pow_le_mono_r; lia.
Qed.

Lemma body_len_body r : fields_ok r -> len (body r) < 2 ^ 64 -> body_len r = len (body r).
Proof.
  intros [Hns Hf] Hl. apply (in_u_mono 32 64) in Hns; [|lia].
  destruct r; cbn [ns_of] in *; unfold body, body_len in *;
    cbn [encode_payload ns_of record_type] in *;
    autorewrite with len in *; len_facts;
    rewrite ?varint_len_encode by (try apply in_u64_len; tauto || lia); lia.
Qed.

(** ** Encoding then decoding *)

Lemma take_3_le_bytes v : take 3 (le_bytes 4 v) = le_bytes 3 v.
Proof. done. Qed.
Lemma take_6_le_bytes v : take 6 (le_bytes 8 v) = le_bytes 6 v.
Proof. done. Qed.

Lemma decode_key_app key rest :
  len (encode_u64 (len key) ++ key) < 2 ^ 64 ->
  decode_key (encode_u64 (len key) ++ key ++ rest) = Ok (key, rest).
Proof. intros. apply decode_key_Ok. split; [done|lens]. Qed.

Lemma decode_u24_app v z : in_u 24 v -> decode_u24 (le_bytes 3 v ++ z) = Some v.
Proof. intros. apply decode_u24_Some. eauto. Qed.

Lemma decode_lineage_app v z :
  in_u 64 v -> v <> 0 -> decode_doc_lineage (le_bytes 8 v ++ z) = Ok v.
Proof. intros. apply decode_doc_lineage_Ok. eauto. Qed.

(** [behind x a] reads the suffix behind the prefix [x], [a] bytes long. *)
Ltac behind x a := rewrite (slice_from_app x _ a) by lens; ok_step.

(** The fixed fields of a document delta, at their offsets. *)
Lemma delta_fields (l v c p : list byte) (op : byte) (rest : list byte) :
  len l = 8 -> len v = 3 -> len c = 4 -> len p = 3 ->
  let R := l ++ v ++ c ++ p ++ [op] ++ rest in
  slice_from (E:=RecordDecodeError) R 8 = Ok (v ++ c ++ p ++ [op] ++ rest) /\
  get_range R 11 15 = Some c /\
  slice_from (E:=RecordDecodeError) R 15 = Ok (p ++ [op] ++ rest) /\
  get R 18 = Some op /\ slice_from (E:=RecordDecodeError) R 19 = Ok rest.
Proof.
  intros. unfold R. split_and!.
  - by apply slice_from_app.
  - rewrite (app_assoc l). apply get_range_app; lens.
  - rewrite (app_assoc l), (app_assoc (l ++ v)). apply slice_from_app. lens.
  - apply get_split. exists (l ++ v ++ c ++ p), rest.
    split; [by rewrite <- !app_assoc|lens].
  - apply slice_from_Ok. exists (l ++ v ++ c ++ p ++ [op]).
    split; [by rewrite <- !app_assoc|lens].
Qed.

Lemma extent_fields (i o l : list byte) :
  len i = 8 -> len o = 8 -> len l = 8 ->
  slice (E:=RecordDecodeError) (i ++ o ++ l) 0 8 = Ok i /\
  slice (E:=RecordDecodeError) (i ++ o ++ l) 8 16 = Ok o /\
  slice (E:=RecordDecodeError) (i ++ o ++ l) 16 24 = Ok l.
Proof.
  intros. split_and!; apply slice_Ok.
  - by exists [], (o ++ l).
  - by exists i, l.
  - exists (i ++ o), []. rewrite app_nil_r, app_assoc. split_and!; [done|lens|lens].
Qed.

Lemma decode_delta_encode ns key lineage bv mc pl op program operand :
  fields_ok (DocDelta ns key lineage bv mc pl op program operand) ->
  len (body (DocDelta ns key lineage bv mc pl op program operand)) < 2 ^ 64 ->
  decode_view TDocDelta ns (encode_payload (DocDelta ns key lineage bv mc pl op program operand))
  = Ok (DocDelta ns key lineage bv mc pl op program operand).
Proof.
  intros (Hns & Hl & Hl0 & Hbv & Hmc & Hmc0 & Hpl & Hpl0) Hlen.
  unfold body in Hlen. cbn [encode_payload decode_view] in *.
  rewrite !take_3_le_bytes in *. rewrite decode_key_app by lens. ok_step.
  rewrite decode_lineage_app by done. ok_step.
  destruct (delta_fields (le_bytes 8 lineage) (le_bytes 3 bv) (le_bytes 4 mc) (le_bytes 3 pl)
    op (encode_u64 (len program) ++ program ++ operand)) as (-> & -> & -> & -> & ->);
    try lens. ok_step.
  rewrite !decode_u24_app, le_val_le_bytes_small by done. ok_step.
  destruct (Z.eqb_spec mc 0), (Z.eqb_spec pl 0); try done. cbn [orb refuse_if]. ok_step.
  rewrite read_varint_app by (apply in_u64_len; lens). ok_step.
  rewrite (proj2 (checked_add_Some _ _ _ _)) by (split; [done|lens]). ok_step.
  rewrite get_range_app by lens. ok_step. rewrite app_assoc.
  by rewrite slice_from_app by lens.
Qed.

Lemma decode_view_encode r :
  fields_ok r -> len (body r) < 2 ^ 64 ->
  decode_view (record_type r) (ns_of r) (encode_payload r) = Ok r.
Proof.
  intros Hf Hlen. destruct r.
  6: exact (decode_delta_encode _ _ _ _ _ _ _ _ _ Hf Hlen).
  all: destruct Hf as [Hns Hf]; unfold body in Hlen.
  all: cbn [record_type ns_of encode_payload decode_view] in *;
       rewrite ?take_3_le_bytes, ?take_6_le_bytes in *; try done.
  - rewrite decode_key_app by lens. done.
  - rewrite read_varint_app by done. ok_step. by rewrite slice_from_app by lens.
  - rewrite <- (app_nil_r (encode_u64 ckpt_id)) at 1. rewrite read_varint_app by done.
    ok_step. by rewrite Z.eqb_refl.
  - destruct Hf as (Hl & Hl0 & Hv). rewrite decode_key_app by lens. ok_step.
    rewrite decode_lineage_app by done. ok_step. behind (le_bytes 8 lineage) 8.
    rewrite decode_u24_app by done. ok_step. rewrite app_assoc.
    by behind (le_bytes 8 lineage ++ le_bytes 3 version) 11.
  - rewrite len_le_bytes. cbn [negb Z.eqb Pos.eqb Z.of_nat Pos.of_succ_nat Pos.succ].
    by rewrite le_val_le_bytes_small.
  - destruct Hf as (He & Ho & Hl & Hl0). rewrite decode_key_app by lens. ok_step.
    autorewrite with len. cbn [negb Z.eqb Pos.eqb Z.of_nat Pos.of_succ_nat Pos.succ Z.add Pos.add].
    destruct (extent_fields (le_bytes 8 extent_id) (le_bytes 8 offset) (le_bytes 8 length))
      as (-> & -> & ->); try lens. ok_step.
    rewrite !le_val_le_bytes_small by done. by destruct (Z.eqb_spec length 0).
Qed.

(** ** Decoding then encoding *)

Lemma le_bytes_of_slice n (l : list byte) :
  len l = Z.of_nat n -> in_u (8 * Z.of_nat n) (le_val l) /\ le_bytes n (le_val l) = l.
Proof.
  intros Hl. unfold len in Hl. split; [|apply le_bytes_le_val; lia].
  rewrite <- Hl. apply le_val_bound.
Qed.

Lemma decode_delta_sound ns p r :
  in_u 32 ns -> decode_view TDocDelta ns p = Ok r ->
  record_type r = TDocDelta /\ ns_of r = ns /\ encode_payload r = p /\ fields_ok r.
Proof.
  intros Hns H. cbn [decode_view] in H. inv_ok H. injection H as <-.
  apply decode_key_Ok in H0 as [-> _].
  apply decode_doc_lineage_Ok in H1 as (Hl & Hl0 & z & ->).
  rewrite slice_from_app in H2 by lens. injection H2 as <-.
  apply decode_u24_Some in H3 as (Hv & z1 & ->).
  apply get_range_Some in H4 as (x & z2 & E & Hx & Hc).
  rewrite app_assoc in E. apply app_len_inj in E as [<- ->]; [|lens].
  destruct (le_bytes_of_slice 4 a3) as [Hm Em]; [lens|].
  rewrite !app_assoc in H5. rewrite slice_from_app in H5 by lens. injection H5 as <-.
  apply decode_u24_Some in H6 as (Hpl & z3 & ->).
  apply orb_false_iff in H7 as [Hc0 Hp0].
  apply get_split in H8 as (x & z4 & E & Hx8).
  rewrite !app_assoc in E. apply app_len_inj in E as [<- ->]; [|lens].
  apply slice_from_Ok in H9 as (x & E & Hx9).
  change (a6 :: z4) with ([a6] ++ z4) in E. rewrite !app_assoc in E.
  apply app_len_inj in E as [<- <-]; [|lens].
  apply read_varint_Ok in H10 as (Hpv & -> & z5 & ->).
  apply checked_add_Some in H11 as [-> _].
  apply get_range_Some in H12 as (x & z6 & E & Hx12 & Hp12).
  apply app_len_inj in E as [<- ->]; [|lia].
  rewrite app_assoc, slice_from_app in H13 by lens. injection H13 as <-.
  assert (len a10 = a8) as El by lens.
  cbn [record_type ns_of encode_payload fields_ok]. rewrite !take_3_le_bytes, Em, El.
  split_and!; try done. unfold fields_ok. split_and!; try done; lia.
Qed.

Lemma decode_view_sound t ns p r :
  in_u 32 ns -> decode_view t ns p = Ok r ->
  record_type r = t /\ ns_of r = ns /\ encode_payload r = p /\ fields_ok r.
Proof.
  intros Hns H. destruct t.
  6: exact (decode_delta_sound _ _ _ Hns H).
  all: cbn [decode_view] in H; inv_ok H.
  - injection H as <-. apply decode_key_Ok in H0 as [-> _]. done.
  - injection H as <-. done.
  - injection H as <-. apply read_varint_Ok in H0 as (Hv & -> & z & ->).
    rewrite slice_from_app in H1 by done. injection H1 as <-. done.
  - injection H as <-. done.
  - injection H as <-. apply read_varint_Ok in H0 as (Hv & -> & z & ->).
    assert (z = []) as -> by (apply len_0_nil; lens). by rewrite app_nil_r.
  - injection H as <-. apply decode_key_Ok in H0 as [-> _].
    apply decode_doc_lineage_Ok in H1 as (Hl & Hl0 & z & ->).
    rewrite slice_from_app in H2 by lens. injection H2 as <-.
    apply decode_u24_Some in H3 as (Hv & z1 & ->).
    rewrite app_assoc, slice_from_app in H4 by lens. injection H4 as <-.
    cbn [record_type ns_of encode_payload fields_ok]. by rewrite take_3_le_bytes.
  - destruct (Z.eqb_spec (len p) 6); [|done]. cbn [negb] in H. injection H as <-.
    destruct (le_bytes_of_slice 6 p) as [Hv Ev]; [done|].
    cbn [record_type ns_of encode_payload]. by rewrite take_6_le_bytes, Ev.
  - destruct (Z.eqb_spec (len b) 24) as [Hb|]; [|done]. cbn [negb] in H. inv_ok H.
    injection H as <-. apply decode_key_Ok in H0 as [-> _].
    apply slice_Ok in H1 as (x & z & -> & Hx & H1). apply len_0_nil in Hx as ->.
    cbn [app] in *. apply slice_Ok in H2 as (x & z2 & E & Hx & H2).
    apply app_len_inj in E as [<- ->]; [|lens].
    apply slice_Ok in H3 as (x & z3 & E & Hx3 & H3).
    rewrite app_assoc in E. apply app_len_inj in E as [<- ->]; [|lens].
    assert (z3 = []) as -> by (apply len_0_nil; lens). rewrite app_nil_r.
    destruct (le_bytes_of_slice 8 a0) as [? E0], (le_bytes_of_slice 8 a1) as [? E1],
      (le_bytes_of_slice 8 a2) as [? E2]; try lens.
    cbn [record_type ns_of encode_payload]. rewrite E0, E1, E2.
    split_and!; try done. unfold fields_ok. split_and!; try done; lia.
Qed.

Lemma from_u8_tag t b : from_u8 (u8 b) = Some t <-> b = b8 (type_tag t).
Proof.
  split; [|intros ->; by destruct t].
  intros H. apply u8_inj. destruct t; destruct b; cbn in H; done.
Qed.

(** ** The whole record *)

Lemma decode_record_encode r rest :
  record_ok r ->
  decode_record (encode_into r [] ++ rest) = Ok (r, len (encode_into r [])).
Proof.
  intros [Hf Hlen]. rewrite encode_into_body in *. cbn [app] in *.
  assert (Hb : body_len r = len (body r)) by (apply body_len_body; [done|lens]).
  rewrite Hb in *. rewrite len_app in Hlen.
  unfold decode_record. rewrite <- app_assoc.
  rewrite read_varint_app by (apply in_u64_len; lens). ok_step.
  rewrite (proj2 (checked_add_Some _ _ _ _) (conj eq_refl Hlen)). ok_step.
  rewrite get_range_app by lens. ok_step. unfold body at 1. cbn [app].
  rewrite (proj2 (from_u8_tag (record_type r) _)) by done. ok_step.
  change (u8 (b8 RECORD_FLAGS_V1) =? RECORD_FLAGS_V1) with true. cbn [negb refuse_if]. ok_step.
  pose proof (proj1 Hf) as Hns. unfold in_u in Hns.
  rewrite read_varint_app by (apply (in_u_mono 32); [lia|apply Hf]). ok_step.
  destruct (Z.ltb_spec U32_MAX (ns_of r)) as [Hlt|_]; [unfold U32_MAX in Hlt; lia|].
  cbn [refuse_if]. ok_step. rewrite slice_from_app by done. ok_step.
  rewrite decode_view_encode by (done || lens). ok_step. by rewrite len_app.
Qed.

Lemma decode_record_sound buf r n :
  decode_record buf = Ok (r, n) ->
  record_ok r /\ n = len (encode_into r []) /\ exists rest, buf = encode_into r [] ++ rest.
Proof.
  intros H. unfold decode_record in H. inv_ok H.
  destruct a1 as [|tag [|flags fields]]; try done. inv_ok H. injection H as -> <-.
  apply read_varint_Ok in H0 as (Hv & -> & rest & ->).
  apply checked_add_Some in H1 as [-> Hend].
  apply get_range_Some in H2 as (x & z & E & Hx & Hb).
  apply app_len_inj in E as [<- ->]; [|done].
  apply from_u8_tag in H3 as ->. apply negb_false_iff, Z.eqb_eq in H4.
  apply read_varint_Ok in H5 as (Hns & -> & z1 & ->).
  rewrite slice_from_app in H7 by done. injection H7 as <-.
  apply Z.ltb_ge in H6. unfold U32_MAX in H6.
  assert (Hns32 : in_u 32 a2) by (unfold in_u in *; lia).
  apply decode_view_sound in H8 as (Ht & En & Ep & Hf); [|done].
  assert (flags = b8 RECORD_FLAGS_V1) as -> by (by apply u8_inj).
  assert (Eb : body r = b8 (type_tag a1) :: b8 RECORD_FLAGS_V1 :: encode_u64 a2 ++ z1).
  { unfold body. by rewrite Ht, En, Ep. }
  rewrite <- Eb in *. assert (Hlb : len (body r) = a) by lia.
  assert (body_len r = a) as El.
  { rewrite <- Hlb. apply body_len_body; [done|]. unfold in_u in Hv. lia. }
  unfold record_ok. rewrite encode_into_body, El. cbn [app]. rewrite len_app, Hlb.
  split_and!; try done. exists z. by rewrite <- app_assoc.
Qed.

(** The record codec is canonical: [decode_record] returns a record [r]
    and a byte count [n] on a buffer if and only if [r] is well formed, the
    buffer starts with exactly the bytes [encode_into] writes for [r], and [n]
    is their number. So every record written is read back whatever follows it,
    and what is read re-encodes to the bytes it was read from. *)
Theorem decode_record_canonical (buf : list byte) (r : RecordView) (n : Z) :
  decode_record buf = Ok (r, n) <->
  record_ok r /\ n = len (encode_into r []) /\
  exists rest, buf = encode_into r [] ++ rest.
Proof.
  split; [apply decode_record_sound|].
  intros (Hr & -> & rest & ->). by apply decode_record_encode.
Qed.

(** [encoded_len], which the staging accounting charges, is exactly the
    number of bytes [encode_into] appends, for every well-formed record. *)
Theorem encoded_len_exact (r : RecordView) (out : list byte) :
  record_ok r -> len (encode_into r out) = len out + encoded_len r.
Proof.
  intros [Hf Hlen]. rewrite encode_into_body in *. cbn [app] in *.
  assert (Hb : body_len r = len (body r)) by (apply body_len_body; [done|lens]).
  unfold encoded_len. rewrite varint_len_encode by (rewrite Hb; apply in_u64_len; lens). lens.
Qed.

Lemma encoded_len_exact_witness :
  let r := ExpireAt 7 1700000000000 [x6b; x31] in
  record_ok r /\ len (encode_into r [x00]) = len [x00] + encoded_len r.
Proof.
  intros r. assert (H : record_ok r).
  { split; [split; cbn; unfold in_u; lia|]. vm_compute. done. }
  split; [exact H|]. exact (encoded_len_exact r [x00] H).
Defined.

(** ** Panic freedom *)

Lemma read_varint_not_Panic p : read_varint p <> Panic.
Proof. apply ok_or_not_Panic. Qed.

Lemma decode_key_not_Panic p : decode_key p <> Panic.
Proof.
  unfold decode_key. apply bind_not_Panic; [apply read_varint_not_Panic|].
  intros [kl used] _. apply bind_not_Panic; [apply ok_or_not_Panic|]. intros e _.
  apply bind_not_Panic; [apply ok_or_not_Panic|]. intros key Hk.
  apply ok_or_Ok, get_range_Some in Hk as (x & z & -> & Hx & Hl).
  apply bind_not_Panic; [|done]. apply slice_from_not_Panic. lens.
Qed.

Lemma decode_doc_lineage_not_Panic p : decode_doc_lineage p <> Panic.
Proof.
  unfold decode_doc_lineage. apply bind_not_Panic; [apply ok_or_not_Panic|].
  intros a _. by destruct (_ =? _).
Qed.

(** What each successful read says about the length of the bytes it read. *)
Lemma read_varint_len p v n : read_varint p = Ok (v, n) -> 0 <= n <= len p.
Proof. intros (Hv & -> & rest & ->)%read_varint_Ok. lens. Qed.
Lemma lineage_len p v : decode_doc_lineage p = Ok v -> 8 <= len p.
Proof. intros (_ & _ & z & ->)%decode_doc_lineage_Ok. lens. Qed.
Lemma get_range_len {A} (l y : list A) a b :
  get_range l a b = Some y -> 0 <= a <= b /\ b <= len l.
Proof. intros (x & z & -> & <- & Hy)%get_range_Some. lens. Qed.
Lemma u24_from_len (l y : list byte) a v :
  slice_from (E:=RecordDecodeError) l a = Ok y -> decode_u24 y = Some v -> a + 3 <= len l.
Proof. intros (x & -> & <-)%slice_from_Ok (_ & z & ->)%decode_u24_Some. lens. Qed.
Lemma get_len {A} (l : list A) i x : get l i = Some x -> i < len l.
Proof. intros (y & z & -> & <-)%get_split. lens. Qed.

(** [np] walks a sequence of binds, keeping the equation of each step; a slice
    is in range by the lengths the earlier steps established. *)
Ltac np_atom :=
  first [ apply ok_or_not_Panic | apply refuse_if_not_Panic | apply read_varint_not_Panic
        | apply decode_key_not_Panic | apply decode_doc_lineage_not_Panic
        | apply slice_from_not_Panic; lens | apply slice_not_Panic; lens | done ].
Ltac np_learn H :=
  first [ apply ok_or_Ok, get_range_len in H | apply ok_or_Ok, get_len in H
        | apply lineage_len in H | apply read_varint_len in H
        | match type of H with ok_or _ (decode_u24 ?y) = _ =>
            match goal with S : slice_from _ _ = Ok y |- _ =>
              apply ok_or_Ok in H; apply (u24_from_len _ _ _ _ S) in H end end
        | idtac ].
Ltac np :=
  repeat (apply bind_not_Panic;
          [np_atom | let x := fresh "x" in let H := fresh "H" in
                     intros x H;
                     lazymatch type of x with prod _ _ => destruct x | _ => idtac end;
                     np_learn H]);
  try done.

Lemma decode_view_not_Panic t ns p : decode_view t ns p <> Panic.
Proof.
  destruct t; cbn [decode_view]; np.
  - by destruct (negb _).
  - destruct (Z.eqb_spec (len l0) 24); [|done]. cbn [negb]. np.
Qed.

Lemma decode_record_not_Panic buf : decode_record buf <> Panic.
Proof.
  unfold decode_record. np. destruct x0 as [|tag [|flags fields]]; np.
  apply bind_not_Panic; [apply decode_view_not_Panic|done].
Qed.

(** [decode_record] never panics: on every byte string, each slice it takes
    is in range, so the outcome is a record or a named error. *)
Theorem decode_record_total (buf : list byte) : decode_record buf <> Panic.
Proof. apply decode_record_not_Panic. Qed.

End LogRecord.
