(* ===== verification/Crc32c.v ===== *)
(** * CRC32C ([crates/inf-simd/src/crc32c.rs])

    The portable slicing-by-8 implementation, with its tables built the way
    [build_tables] builds them, and the bit-at-a-time definition of the
    reflected Castagnoli polynomial it is meant to compute. The SSE4.2 and
    ARMv8 paths are the processor's instructions for the same function and are
    not modelled. *)

From S2P Require Import Prelude.

Module Crc32c.

Definition POLY : Z := 2197175160. (* 0x82F63B78 *)

(** One bit of [build_tables]' inner loop. *)
Definition crc_bit (crc : Z) : Z :=
  if negb (Z.land crc 1 =? 0) then Z.lxor (Z.shiftr crc 1) POLY else Z.shiftr crc 1.
Definition crc_bits (n : nat) (crc : Z) : Z := Nat.iter n crc_bit crc.

(** [build_tables] and the index [TABLES[k][i]]. *)
Definition table0 : list Z := crc_bits 8 <$> seqZ 0 256.
Definition at_index (table : list Z) (i : Z) : Z := table !!! Z.to_nat i.
Definition next_table (prev : list Z) : list Z :=
  (fun p => Z.lxor (Z.shiftr p 8) (at_index table0 (Z.land p 255))) <$> prev.
Definition TABLES (k : nat) : list Z := Nat.iter k next_table table0.

(** [!x] on a [u32]. *)
Definition not32 (x : Z) : Z := Z.lxor x U32_MAX.

(** The two loops of [scalar_crc32c_update]. *)
Definition chunk_step (state : Z) (chunk : list byte) : Z :=
  let lo := Z.lxor (le_val (take 4 chunk)) state in
  let hi := le_val (drop 4 chunk) in
  Z.lxor (Z.lxor (Z.lxor (Z.lxor (Z.lxor (Z.lxor (Z.lxor
    (at_index (TABLES 7) (Z.land lo 255))
    (at_index (TABLES 6) (Z.land (Z.shiftr lo 8) 255)))
    (at_index (TABLES 5) (Z.land (Z.shiftr lo 16) 255)))
    (at_index (TABLES 4) (Z.shiftr lo 24)))
    (at_index (TABLES 3) (Z.land hi 255)))
    (at_index (TABLES 2) (Z.land (Z.shiftr hi 8) 255)))
    (at_index (TABLES 1) (Z.land (Z.shiftr hi 16) 255)))
    (at_index (TABLES 0) (Z.shiftr hi 24)).
Definition byte_step (state : Z) (b : byte) : Z :=
  Z.lxor (Z.shiftr state 8) (at_index (TABLES 0) (Z.land (Z.lxor state (u8 b)) 255)).
Fixpoint update_loop (state : Z) (data : list byte) {struct data} : Z :=
  match data with
  | b0 :: b1 :: b2 :: b3 :: b4 :: b5 :: b6 :: b7 :: rest =>
      update_loop (chunk_step state [b0; b1; b2; b3; b4; b5; b6; b7]) rest
  | remainder => fold_left byte_step remainder state
  end.
Definition scalar_crc32c_update (crc : Z) (data : list byte) : Z :=
  not32 (update_loop (not32 crc) data).
Definition crc32c (data : list byte) : Z := scalar_crc32c_update 0 data.

(** ** The reference: one bit at a time *)
Definition bit_step (state : Z) (b : byte) : Z := crc_bits 8 (Z.lxor state (u8 b)).
Definition crc_state (state : Z) (data : list byte) : Z := fold_left bit_step data state.
Definition bitwise_crc32c (crc : Z) (data : list byte) : Z :=
  not32 (crc_state (not32 crc) data).

(** The check value of RFC 3720. *)
Example check_value :
  crc32c [x31; x32; x33; x34; x35; x36; x37; x38; x39] = 3808858755.
Proof. vm_compute. done. Qed.

(** ** Linearity *)

Lemma land_1 a : (Z.land a 1 =? 0) = negb (Z.testbit a 0).
Proof. rewrite land_1_mod, <- Z.bit0_mod. by destruct (Z.testbit a 0). Qed.

Lemma crc_bit_alt a :
  crc_bit a = Z.lxor (Z.shiftr a 1) (if Z.testbit a 0 then POLY else 0).
Proof.
  unfold crc_bit. rewrite land_1, negb_involutive.
  destruct (Z.testbit a 0); [done|]. by rewrite Z.lxor_0_r.
Qed.

(** Equations between exclusive ors, bit by bit. *)
Ltac xor_bits :=
  apply Z.bits_inj'; intros ? ?; rewrite ?Z.lxor_spec, ?Z.bits_0;
  repeat match goal with |- context [Z.testbit ?a ?i] => destruct (Z.testbit a i) end; done.

Lemma crc_bit_lxor a b : crc_bit (Z.lxor a b) = Z.lxor (crc_bit a) (crc_bit b).
Proof.
  rewrite !crc_bit_alt, Z.shiftr_lxor, Z.lxor_spec.
  destruct (Z.testbit a 0), (Z.testbit b 0); cbn [xorb]; xor_bits.
Qed.

Lemma crc_bits_S n a : crc_bits (S n) a = crc_bit (crc_bits n a).
Proof. done. Qed.
Lemma TABLES_S k : TABLES (S k) = next_table (TABLES k).
Proof. done. Qed.

Lemma crc_bits_lxor n a b : crc_bits n (Z.lxor a b) = Z.lxor (crc_bits n a) (crc_bits n b).
Proof.
  induction n as [|n IH]; [done|]. by rewrite !crc_bits_S, IH, crc_bit_lxor.
Qed.

Lemma crc_bits_add n m a : crc_bits (n + m) a = crc_bits n (crc_bits m a).
Proof. apply Nat.iter_add. Qed.

(** Shifting left by [n] and advancing [n] bits cancel. *)
Lemma crc_bits_shiftl n a : crc_bits n (Z.shiftl a (Z.of_nat n)) = a.
Proof.
  induction n as [|n IH]; [apply Z.shiftl_0_r|].
  replace (S n) with (n + 1)%nat by lia. rewrite crc_bits_add.
  rewrite <- IH at 2. f_equal. rewrite crc_bits_S, crc_bit_alt. cbn [crc_bits Nat.iter nat_rect].
  rewrite Z.shiftl_spec_low by lia. rewrite Z.lxor_0_r, Nat2Z.inj_add.
  rewrite <- Z.shiftl_shiftl by lia. change (Z.of_nat 1) with 1.
  by rewrite Z.shiftr_shiftl_l, Z.shiftl_0_r by lia.
Qed.

Lemma crc_bits_shiftl_le n m a :
  (m <= n)%nat -> crc_bits n (Z.shiftl a (Z.of_nat m)) = crc_bits (n - m) a.
Proof.
  intros. replace n with (n - m + m)%nat at 1 by lia.
  by rewrite crc_bits_add, crc_bits_shiftl.
Qed.

(** ** The tables *)

Lemma lookup_table0 i : 0 <= i < 256 -> at_index table0 i = crc_bits 8 i.
Proof.
  intros. unfold at_index, table0. apply list_lookup_total_correct.
  rewrite list_lookup_fmap, (proj2 (lookup_seqZ 0 256 _ i)) by lia. done.
Qed.

Lemma split_low_byte s : Z.lxor (Z.land s 255) (Z.shiftl (Z.shiftr s 8) 8) = s.
Proof.
  apply Z.bits_inj'. intros i Hi. rewrite Z.lxor_spec, Z.land_spec, Z.shiftl_spec by lia.
  change 255 with (Z.ones 8). destruct (Z.lt_ge_cases i 8).
  - rewrite Z.ones_spec_low, (Z.testbit_neg_r _ (i - 8)) by lia.
    by rewrite andb_true_r, xorb_false_r.
  - rewrite Z.ones_spec_high, Z.shiftr_spec, andb_false_r by lia.
    cbn [xorb]. f_equal. lia.
Qed.

(** Eight bits are one table lookup. *)
Lemma crc_bits_8 s :
  Z.lxor (Z.shiftr s 8) (at_index table0 (Z.land s 255)) = crc_bits 8 s.
Proof.
  rewrite lookup_table0 by (rewrite land_255; apply Z.mod_pos_bound; lia).
  rewrite <- (split_low_byte s) at 3.
  rewrite crc_bits_lxor, (crc_bits_shiftl 8). apply Z.lxor_comm.
Qed.

Lemma length_TABLES k : length (TABLES k) = 256%nat.
Proof.
  induction k as [|k IH].
  - unfold TABLES, table0. cbn [Nat.iter nat_rect]. by rewrite length_fmap, length_seqZ.
  - rewrite TABLES_S. unfold next_table. by rewrite length_fmap.
Qed.

Lemma lookup_TABLES k i :
  0 <= i < 256 -> at_index (TABLES k) i = crc_bits (8 * S k) i.
Proof.
  intros Hi. induction k as [|k IH]; [by apply lookup_table0|].
  rewrite TABLES_S. unfold at_index, next_table in *.
  rewrite (list_lookup_total_fmap _ (TABLES k)) by (rewrite length_TABLES; lia).
  rewrite IH, crc_bits_8, <- crc_bits_add. f_equal. lia.
Qed.

(** ** The two loops compute the reference *)

Lemma byte_step_bits s b : byte_step s b = bit_step s b.
Proof.
  unfold byte_step, bit_step. rewrite <- crc_bits_8. f_equal.
  rewrite Z.shiftr_lxor, (shiftr_div 8 (u8 b)), Z.div_small by (try lia; apply u8_range).
  by rewrite Z.lxor_0_r.
Qed.

Lemma le_val_cons b d : le_val (b :: d) = Z.lxor (u8 b) (Z.shiftl (le_val d) 8).
Proof.
  pose proof (u8_range b). cbn [le_val]. rewrite Z.add_nocarry_lxor.
  - rewrite Z.shiftl_mul_pow2 by lia. f_equal. lia.
  - rewrite Z.mul_comm. rewrite <- (Z.shiftl_mul_pow2 _ 8) by lia.
    apply land_shiftl_disjoint; lia.
Qed.

(** Advancing by a string is advancing by its little-endian number. *)
Lemma crc_state_word d : forall s,
  crc_state s d = crc_bits (8 * length d) (Z.lxor s (le_val d)).
Proof.
  induction d as [|b d IH]; intros s; [by rewrite Z.lxor_0_r|].
  change (crc_state s (b :: d)) with (crc_state (bit_step s b) d).
  rewrite IH, le_val_cons. cbn [length]. replace (8 * S (length d))%nat with (8 * length d + 8)%nat by lia.
  rewrite crc_bits_add. f_equal. unfold bit_step.
  by rewrite !crc_bits_lxor, (crc_bits_shiftl 8), Z.lxor_assoc.
Qed.

Lemma peel n x :
  (8 <= n)%nat ->
  crc_bits n x = Z.lxor (crc_bits n (Z.land x 255)) (crc_bits (n - 8) (Z.shiftr x 8)).
Proof.
  intros. rewrite <- (split_low_byte x) at 1. rewrite crc_bits_lxor. f_equal.
  by apply (crc_bits_shiftl_le n 8).
Qed.

Lemma low_byte x : 0 <= Z.land x 255 < 256.
Proof. rewrite land_255. apply Z.mod_pos_bound. lia. Qed.

Lemma high_byte x : in_u 32 x -> 0 <= Z.shiftr x 24 < 256.
Proof.
  unfold in_u. intros. rewrite shiftr_div by lia.
  split; [apply Z.div_pos; lia|apply Z.div_lt_upper_bound; lia].
Qed.

(** Four lookups advance a 32-bit number through [k + 4] bytes. *)
Lemma four_lookups k x :
  in_u 32 x ->
  crc_bits (8 * (k + 4)) x =
  Z.lxor (Z.lxor (Z.lxor
    (at_index (TABLES (k + 3)) (Z.land x 255))
    (at_index (TABLES (k + 2)) (Z.land (Z.shiftr x 8) 255)))
    (at_index (TABLES (k + 1)) (Z.land (Z.shiftr x 16) 255)))
    (at_index (TABLES k) (Z.shiftr x 24)).
Proof.
  intros Hx. rewrite !lookup_TABLES by (apply low_byte || by apply high_byte).
  rewrite (peel _ x), (peel _ (Z.shiftr x 8)), (peel _ (Z.shiftr (Z.shiftr x 8) 8)) by lia.
  rewrite !Z.shiftr_shiftr by lia. cbn [Z.add Pos.add Pos.succ].
  rewrite <- !Z.lxor_assoc. repeat f_equal; lia.
Qed.

Lemma chunk_step_word s chunk :
  in_u 32 s -> length chunk = 8%nat -> chunk_step s chunk = crc_state s chunk.
Proof.
  intros Hs Hl. rewrite crc_state_word, Hl.
  destruct chunk as [|b0 [|b1 [|b2 [|b3 [|b4 [|b5 [|b6 [|b7 [|]]]]]]]]]; try done.
  unfold chunk_step. cbn [take drop].
  set (l4 := [b0; b1; b2; b3]). set (h4 := [b4; b5; b6; b7]).
  assert (Hlo : in_u 32 (Z.lxor (le_val l4) s))
    by (apply in_u_lxor; [lia|apply (le_val_bound l4)|done]).
  assert (Hhi : in_u 32 (le_val h4)) by apply (le_val_bound h4).
  assert (Ew : le_val (b0 :: b1 :: b2 :: b3 :: h4)
               = Z.lxor (le_val l4) (Z.shiftl (le_val h4) 32)).
  { unfold l4, h4. rewrite !le_val_cons, !Z.shiftl_lxor, !Z.shiftl_shiftl by lia.
    cbn [le_val]. rewrite Z.shiftl_0_l, !Z.lxor_0_r. by rewrite <- !Z.lxor_assoc. }
  rewrite Ew, <- Z.lxor_assoc, (Z.lxor_comm s), crc_bits_lxor.
  rewrite (crc_bits_shiftl_le 64 32) by lia.
  etransitivity; [|exact (eq_sym (f_equal2 Z.lxor (four_lookups 4 _ Hlo) (four_lookups 0 _ Hhi)))].
  cbn [Nat.add]. by rewrite <- !Z.lxor_assoc.
Qed.

Lemma crc_bit_in_u32 a : in_u 32 a -> in_u 32 (crc_bit a).
Proof.
  intros Ha. assert (in_u 32 (Z.shiftr a 1)).
  { unfold in_u in *. rewrite shiftr_div by lia.
    split; [apply Z.div_pos; lia|apply Z.div_lt_upper_bound; lia]. }
  rewrite crc_bit_alt. apply in_u_lxor; [lia|done|].
  destruct (Z.testbit a 0); unfold in_u, POLY; lia.
Qed.

Lemma crc_bits_in_u32 n a : in_u 32 a -> in_u 32 (crc_bits n a).
Proof. intros. induction n; [done|]. rewrite crc_bits_S. by apply crc_bit_in_u32. Qed.

Lemma crc_state_in_u32 d s : in_u 32 s -> in_u 32 (crc_state s d).
Proof.
  revert s. induction d as [|b d IH]; intros s Hs; [done|].
  apply IH. apply crc_bits_in_u32. apply in_u_lxor; [lia|done|].
  pose proof (u8_range b). unfold in_u. lia.
Qed.

Lemma update_loop_state n : forall d s,
  (length d <= n)%nat -> in_u 32 s -> update_loop s d = crc_state s d.
Proof.
  assert (Hrem : forall d s, fold_left byte_step d s = crc_state s d).
  { induction d as [|b d IH]; intros s; [done|]. cbn [fold_left].
    by rewrite IH, byte_step_bits. }
  induction n as [|n IH]; intros d s Hn Hs.
  { by destruct d; [|cbn in Hn; lia]. }
  destruct d as [|b0 [|b1 [|b2 [|b3 [|b4 [|b5 [|b6 [|b7 rest]]]]]]]];
    try apply Hrem.
  cbn [update_loop]. rewrite chunk_step_word by done.
  rewrite IH; [done|cbn in Hn; lia|by apply crc_state_in_u32].
Qed.

Lemma not32_in_u32 x : in_u 32 x -> in_u 32 (not32 x).
Proof. intros. apply in_u_lxor; [lia|done|]. unfold in_u, U32_MAX. lia. Qed.

Lemma not32_involutive x : not32 (not32 x) = x.
Proof. unfold not32. rewrite Z.lxor_assoc, Z.lxor_nilpotent. apply Z.lxor_0_r. Qed.

Lemma update_bitwise crc d :
  in_u 32 crc -> scalar_crc32c_update crc d = bitwise_crc32c crc d.
Proof.
  intros. unfold scalar_crc32c_update, bitwise_crc32c.
  by rewrite (update_loop_state (length d)) by (try apply not32_in_u32; done).
Qed.

Lemma crc_state_app s d1 d2 : crc_state s (d1 ++ d2) = crc_state (crc_state s d1) d2.
Proof. apply fold_left_app. Qed.

Lemma crc32c_in_u32 d : in_u 32 (crc32c d).
Proof.
  unfold crc32c. rewrite update_bitwise by (unfold in_u; lia).
  apply not32_in_u32, crc_state_in_u32, not32_in_u32. unfold in_u. lia.
Qed.

(** C35. The slicing-by-8 checksum is the CRC32C of the definition: for every
    32-bit running value and every byte string, the table-driven loops of
    [scalar_crc32c_update] return what the bit-at-a-time division by the
    reflected Castagnoli polynomial returns, and splitting the input at any
    byte boundary does not change the result. *)
Theorem slicing_by_8_is_bitwise (crc : Z) (d1 d2 : list byte) :
  in_u 32 crc ->
  scalar_crc32c_update crc (d1 ++ d2) = bitwise_crc32c crc (d1 ++ d2) /\
  scalar_crc32c_update crc (d1 ++ d2)
  = scalar_crc32c_update (scalar_crc32c_update crc d1) d2.
Proof.
  intros H. assert (in_u 32 (bitwise_crc32c crc d1)).
  { apply not32_in_u32, crc_state_in_u32, not32_in_u32, H. }
  rewrite !update_bitwise by (rewrite ?update_bitwise; done).
  split; [done|]. unfold bitwise_crc32c. by rewrite crc_state_app, not32_involutive.
Qed.

Lemma slicing_by_8_is_bitwise_witness :
  scalar_crc32c_update 0 ([x31; x32; x33; x34; x35] ++ [x36; x37; x38; x39])
  = bitwise_crc32c 0 ([x31; x32; x33; x34; x35] ++ [x36; x37; x38; x39]) /\
  scalar_crc32c_update 0 ([x31; x32; x33; x34; x35] ++ [x36; x37; x38; x39])
  = scalar_crc32c_update (scalar_crc32c_update 0 [x31; x32; x33; x34; x35])
      [x36; x37; x38; x39].
Proof. apply slicing_by_8_is_bitwise. unfold in_u. lia. Defined.

(** ** What a matching checksum excludes *)

Lemma lxor_eq_0 a b : Z.lxor a b = 0 -> a = b.
Proof. apply Z.lxor_eq. Qed.

Lemma lxor_cancel t a b : Z.lxor t a = Z.lxor t b -> a = b.
Proof.
  intros E%(f_equal (Z.lxor t)). by rewrite <- !Z.lxor_assoc, !Z.lxor_nilpotent, !Z.lxor_0_l in E.
Qed.

Lemma crc_bit_kernel c : in_u 32 c -> crc_bit c = 0 -> c = 0.
Proof.
  unfold in_u, crc_bit. rewrite land_1_mod, shiftr_div by lia. intros Hc.
  pose proof (Z.mod_pos_bound c 2). pose proof (Z.div_mod c 2).
  change (2 ^ 1) with 2. case_match eqn:E.
  - intros Hx%lxor_eq_0. unfold POLY in Hx. lia.
  - apply negb_false_iff, Z.eqb_eq in E. lia.
Qed.

Lemma crc_bits_inj n a b : in_u 32 a -> in_u 32 b -> crc_bits n a = crc_bits n b -> a = b.
Proof.
  intros Ha Hb. induction n as [|n IH]; [done|]. rewrite !crc_bits_S. intros E. apply IH.
  apply lxor_eq_0, crc_bit_kernel.
  - apply in_u_lxor; [lia| |]; by apply crc_bits_in_u32.
  - by rewrite crc_bit_lxor, E, Z.lxor_nilpotent.
Qed.

Lemma bit_step_inj s s' b : in_u 32 s -> in_u 32 s' -> bit_step s b = bit_step s' b -> s = s'.
Proof.
  intros Hs Hs' E. assert (in_u 32 (u8 b)) by (pose proof (u8_range b); unfold in_u; lia).
  apply crc_bits_inj in E; [|by apply in_u_lxor..].
  apply (lxor_cancel (u8 b)). by rewrite !(Z.lxor_comm (u8 b)).
Qed.

Lemma crc_state_inj d : forall s s',
  in_u 32 s -> in_u 32 s' -> crc_state s d = crc_state s' d -> s = s'.
Proof.
  induction d as [|b d IH]; intros s s' Hs Hs' E; [done|].
  apply (bit_step_inj _ _ b); [done..|]. apply (IH _ _); [by apply (crc_state_in_u32 [b])..|done].
Qed.

Lemma le_val_inj d1 d2 : length d1 = length d2 -> le_val d1 = le_val d2 -> d1 = d2.
Proof.
  intros Hl E. by rewrite <- (le_bytes_le_val _ d1 eq_refl), <- (le_bytes_le_val _ d2 eq_refl), Hl, E.
Qed.

Lemma crc_state_burst s p x y q :
  in_u 32 s -> length x = length y -> (length x <= 4)%nat ->
  crc_state s (p ++ x ++ q) = crc_state s (p ++ y ++ q) -> x = y.
Proof.
  intros Hs Hl H4. rewrite !crc_state_app. set (t := crc_state s p).
  assert (Ht : in_u 32 t) by by apply crc_state_in_u32.
  intros E%crc_state_inj; [|by apply crc_state_in_u32..]. apply le_val_inj; [done|].
  assert (H32 : forall d, (length d <= 4)%nat -> in_u 32 (le_val d)).
  { intros d Hd. pose proof (le_val_bound d). unfold in_u in *.
    assert (2 ^ (8 * Z.of_nat (length d)) <= 2 ^ 32) by (apply Z.pow_le_mono_r; lia). lia. }
  rewrite !crc_state_word, <- Hl in E.
  apply crc_bits_inj in E; [|apply in_u_lxor; [lia|done|apply H32; lia]..].
  by apply (lxor_cancel t).
Qed.

(** A trailer holds the checksum of what precedes it exactly when the register
    ends in a constant, which turns trailer bytes into ordinary ones. *)
Definition RESIDUE : Z := crc_bits 32 U32_MAX.

Lemma trailer_residue d trailer :
  length trailer = 4%nat ->
  le_val trailer = crc32c d <-> crc_state U32_MAX (d ++ trailer) = RESIDUE.
Proof.
  intros Hl. unfold crc32c. rewrite update_bitwise by (unfold in_u; lia).
  rewrite crc_state_app, crc_state_word, Hl. unfold bitwise_crc32c, RESIDUE.
  change (not32 0) with U32_MAX. set (t := crc_state U32_MAX d).
  assert (Ht : in_u 32 t) by (apply crc_state_in_u32; unfold in_u, U32_MAX; lia).
  assert (in_u 32 (le_val trailer)) by (pose proof (le_val_bound trailer) as Hb; by rewrite Hl in Hb).
  unfold not32. split.
  - intros ->. by rewrite <- Z.lxor_assoc, Z.lxor_nilpotent, Z.lxor_0_l.
  - intros E. apply crc_bits_inj in E;
      [|apply in_u_lxor; [lia|done..]|unfold in_u, U32_MAX; lia].
    by rewrite <- E, <- Z.lxor_assoc, Z.lxor_nilpotent, Z.lxor_0_l.
Qed.

(** Two checksummed strings that differ only inside one window of at most
    four bytes, trailer bytes included, are equal. *)
Lemma burst_window d d' t t' p x y q :
  length t = 4%nat -> length t' = 4%nat ->
  le_val t = crc32c d -> le_val t' = crc32c d' ->
  d ++ t = p ++ x ++ q -> d' ++ t' = p ++ y ++ q ->
  length x = length y -> (length x <= 4)%nat -> x = y.
Proof.
  intros Ht Ht' E E' Hd Hd' Hl H4.
  apply trailer_residue in E; [|done]. apply trailer_residue in E'; [|done].
  rewrite Hd in E. rewrite Hd' in E'.
  apply (crc_state_burst U32_MAX p x y q); [unfold in_u, U32_MAX; lia|done..|congruence].
Qed.

End Crc32c.
