(* ===== verification/Frame.v ===== *)
(** * Batch frames ([crates/inf-log/src/frame.rs])

    One frame groups the records of one reactor iteration. This file models
    the builder that seals a frame, the decoder that validates one, and the two
    iterators (records of a frame, frames of a segment image), and relates them
    to [frame_bytes], the bytes a frame stands for. *)

From S2P Require Import Prelude Varint Lsn LogRecord Crc32c.
Import Crc32c LogRecord.

Module Frame.

Definition FRAME_MAGIC_V1 : list byte := [x49; x46; x52; x31].
Definition FRAME_MAGIC : list byte := [x49; x46; x52; x32].
Definition FRAME_MAGIC_V3 : list byte := [x49; x46; x52; x33].
Definition FRAME_ALIGN : Z := 4096.
Definition FRAME_HEADER_LEN_V1 : Z := 20.
Definition FRAME_HEADER_LEN : Z := 40.
Definition FRAME_TRAILER_LEN : Z := 4.
Definition MIN_FRAME_LEN_V1 : Z := 28.
Definition MIN_FRAME_LEN : Z := 48.

Record FrameStamp := { epoch : Z; seq : Z; covered_lsn : Z }.
#[global] Instance FrameStamp_eq_dec : EqDecision FrameStamp.
Proof. solve_decision. Defined.

Definition frame_header_len (has_stamp : bool) : Z :=
  if has_stamp then FRAME_HEADER_LEN else FRAME_HEADER_LEN_V1.

(** [u32::checked_next_multiple_of]. *)
Definition checked_next_multiple_of (n m : Z) : option Z :=
  if n mod m =? 0 then Some n else checked_add 32 n (m - n mod m).
Definition align_up_frame (n : Z) : Z :=
  match checked_next_multiple_of n FRAME_ALIGN with Some padded => padded | None => U32_MAX end.

Inductive FrameLayout := Packed | Aligned.
#[global] Instance FrameLayout_eq_dec : EqDecision FrameLayout.
Proof. solve_decision. Defined.

Definition layout_padded_len (layout : FrameLayout) (frame_len : Z) : Z :=
  match layout with Packed => frame_len | Aligned => align_up_frame frame_len end.

(** ** The builder

    [at_] is the first aligned offset of the allocation, which [align_offset]
    returns: a number below [FRAME_ALIGN] that the model leaves open. *)
Record FrameBuilder := {
  buf : list byte;
  at_ : Z;
  record_count : Z;
  sealed : bool;
  sealed_len : Z }.

(** [Vec::resize] with zeroes and [Vec::truncate]. *)
Definition resize (l : list byte) (n : Z) : list byte :=
  take (Z.to_nat n) l ++ replicate (Z.to_nat n - length l) x00.
Definition truncate (l : list byte) (n : Z) : list byte := take (Z.to_nat n) l.
Definition zero_header : list byte := replicate (Z.to_nat FRAME_HEADER_LEN) x00.

Definition with_capacity (align_offset : Z) : FrameBuilder :=
  let buf := resize [] FRAME_ALIGN in
  let buf := truncate buf align_offset in
  {| buf := buf ++ zero_header; at_ := align_offset; record_count := 0;
     sealed := false; sealed_len := 0 |}.

Definition is_empty (b : FrameBuilder) : bool := record_count b =? 0.

(** [u32::try_from(..).expect(..)]. *)
Definition builder_frame_len (b : FrameBuilder) : panics Z :=
  expect (checked_add 32 (len (buf b) - at_ b) FRAME_TRAILER_LEN).

Definition append (b : FrameBuilder) (record : RecordView) : panics FrameBuilder :=
  _ ← rassert (negb (sealed b));
  mret {| buf := encode_into record (buf b); at_ := at_ b;
          record_count := wrap 32 (record_count b + 1);
          sealed := sealed b; sealed_len := sealed_len b |}.

(** [header[off..off + n].copy_from_slice(bytes)]. *)
Definition copy_at (l : list byte) (off : Z) (bytes : list byte) : panics (list byte) :=
  if (0 <=? off) && (off + len bytes <=? len l)
  then Ok (take (Z.to_nat off) l ++ bytes ++ drop (Z.to_nat (off + len bytes)) l)
  else Panic.

Definition finalize (b : FrameBuilder) (first_record_lsn : Lsn.t) (stamp : FrameStamp)
    (layout : FrameLayout) : panics (FrameBuilder * list byte) :=
  _ ← rassert (0 <? record_count b);
  _ ← rassert (negb (sealed b));
  _ ← rassert (0 <? epoch stamp);
  _ ← rassert (0 <? seq stamp);
  _ ← rassert (covered_lsn stamp <=? Lsn.to_u64 first_record_lsn);
  frame_len ← builder_frame_len b;
  let magic := match layout with Packed => FRAME_MAGIC | Aligned => FRAME_MAGIC_V3 end in
  header ← slice_from (buf b) (at_ b);
  header ← copy_at header 0 magic;
  header ← copy_at header 4 (le_bytes 4 frame_len);
  header ← copy_at header 8 (le_bytes 4 (record_count b));
  header ← copy_at header 12 (le_bytes 4 (Lsn.segment first_record_lsn));
  header ← copy_at header 16 (le_bytes 4 (Lsn.offset first_record_lsn));
  header ← copy_at header 20 (le_bytes 4 (epoch stamp));
  header ← copy_at header 24 (le_bytes 8 (seq stamp));
  header ← copy_at header 32 (le_bytes 8 (covered_lsn stamp));
  let buf' := truncate (buf b) (at_ b) ++ header ++ le_bytes 4 (crc32c header) in
  _ ← rassert (len buf' - at_ b =? frame_len);
  let padded := layout_padded_len layout frame_len in
  let buf' := resize buf' (at_ b + padded) in
  let b' := {| buf := buf'; at_ := at_ b; record_count := record_count b;
               sealed := true; sealed_len := padded |} in
  bytes ← slice_from buf' (at_ b);
  mret (b', bytes).

Definition sealed_frame (b : FrameBuilder) : panics (list byte) :=
  _ ← rassert (sealed b);
  rest ← slice_from (buf b) (at_ b);
  slice rest 0 (sealed_len b).

Definition reset (b : FrameBuilder) : FrameBuilder :=
  {| buf := truncate (buf b) (at_ b) ++ zero_header; at_ := at_ b; record_count := 0;
     sealed := false; sealed_len := 0 |}.

(** ** The decoder *)

Inductive FrameDecodeError :=
  | Truncated (needed available : Z)
  | ZeroMagic
  | BadMagic (found : list byte)
  | BadLength (n : Z)
  | ZeroRecordCount
  | BadStamp
  | CrcMismatch (stored computed : Z)
  | BadFirstLsn (offset : Z).
#[global] Instance FrameDecodeError_eq_dec : EqDecision FrameDecodeError.
Proof. solve_decision. Defined.

Record FrameRef := {
  first_lsn : Lsn.t;
  count : Z; (* record_count *)
  stamp : option FrameStamp;
  layout : FrameLayout;
  frame_len : Z;
  frame_body : list byte }.

Definition padded_len (f : FrameRef) : Z := layout_padded_len (layout f) (frame_len f).
Definition header_len (f : FrameRef) : Z := frame_header_len (bool_decide (is_Some (stamp f))).

Record FrameShape := {
  shape_header_len : Z;
  shape_min_frame_len : Z;
  has_stamp : bool;
  shape_layout : FrameLayout }.

Definition frame_shape (magic : list byte) : outcome FrameDecodeError (option FrameShape) :=
  if bool_decide (magic = replicate 4 x00) then Ok None
  else if bool_decide (magic = FRAME_MAGIC) then
    Ok (Some {| shape_header_len := FRAME_HEADER_LEN; shape_min_frame_len := MIN_FRAME_LEN;
                has_stamp := true; shape_layout := Packed |})
  else if bool_decide (magic = FRAME_MAGIC_V3) then
    Ok (Some {| shape_header_len := FRAME_HEADER_LEN; shape_min_frame_len := MIN_FRAME_LEN;
                has_stamp := true; shape_layout := Aligned |})
  else if bool_decide (magic = FRAME_MAGIC_V1) then
    Ok (Some {| shape_header_len := FRAME_HEADER_LEN_V1; shape_min_frame_len := MIN_FRAME_LEN_V1;
                has_stamp := false; shape_layout := Packed |})
  else Err (BadMagic magic).

(** [u32::from_le_bytes(l[a..b].try_into().expect(..))]. *)
Definition read_le {E} (l : list byte) (a b : Z) : outcome E Z :=
  bytes ← slice l a b; mret (le_val bytes).

(** [split_last_chunk]. *)
Definition split_last_chunk (n : nat) (l : list byte) : option (list byte * list byte) :=
  if decide (n <= length l)%nat
  then Some (take (length l - n) l, drop (length l - n) l) else None.

Definition zeroes (l : list byte) : bool := forallb (fun b => u8 b =? 0) l.

(** The header fields of a frame whose checksum matched. *)
Definition decode_header (shape : FrameShape) (frame_len extent : Z) (frame covered : list byte)
    : outcome FrameDecodeError (FrameRef * Z) :=
  record_count ← read_le frame 8 12;
  _ ← refuse_if (record_count =? 0) ZeroRecordCount;
  segment ← read_le frame 12 16;
  offset ← read_le frame 16 20;
  let first_lsn := Lsn.new segment offset in
  let fits_segment :=
    match checked_sub offset (shape_header_len shape) with
    | Some base => match checked_add 64 base extent with
                   | Some e => e <=? U32_MAX
                   | None => false
                   end
    | None => false
    end in
  _ ← refuse_if (negb fits_segment) (BadFirstLsn offset);
  stamp ←
    (if has_stamp shape then
       epoch ← read_le frame 20 24;
       seq ← read_le frame 24 32;
       covered_lsn ← read_le frame 32 40;
       _ ← refuse_if ((epoch =? 0) || (seq =? 0) || (Lsn.to_u64 first_lsn <? covered_lsn)) BadStamp;
       mret (Some {| epoch := epoch; seq := seq; covered_lsn := covered_lsn |})
     else mret None);
  body ← slice_from covered (shape_header_len shape);
  mret ({| first_lsn := first_lsn; count := record_count; stamp := stamp;
           layout := shape_layout shape; frame_len := frame_len; frame_body := body |},
        frame_len).

Definition decode_frame (buf : list byte) (max_frame_len : Z)
    : outcome FrameDecodeError (FrameRef * Z) :=
  if len buf <? 4 then
    if zeroes buf then Err ZeroMagic else Err (Truncated 4 (len buf))
  else
    magic ← slice buf 0 4;
    shape ← frame_shape magic;
    match shape with
    | None => Err ZeroMagic
    | Some shape =>
        _ ← refuse_if (len buf <? shape_header_len shape)
              (Truncated (shape_header_len shape) (len buf));
        frame_len ← read_le buf 4 8;
        _ ← refuse_if ((frame_len <? shape_min_frame_len shape) || (max_frame_len <? frame_len))
              (BadLength frame_len);
        extent ← ok_or (BadLength frame_len)
          match shape_layout shape with
          | Packed => Some frame_len
          | Aligned => checked_next_multiple_of frame_len FRAME_ALIGN
          end;
        _ ← refuse_if (len buf <? frame_len) (Truncated frame_len (len buf));
        frame ← slice buf 0 frame_len;
        '(covered, trailer) ← ok_or (BadLength frame_len) (split_last_chunk 4 frame);
        let stored := le_val trailer in
        let computed := crc32c covered in
        _ ← refuse_if (negb (stored =? computed)) (CrcMismatch stored computed);
        decode_header shape frame_len extent frame covered
    end.

(** ** The records of a frame *)

Inductive FrameRecordError :=
  | Record_ (e : RecordDecodeError)
  | TrailingBytes (at_ : Z)
  | MissingRecords (decoded declared : Z).
#[global] Instance FrameRecordError_eq_dec : EqDecision FrameRecordError.
Proof. solve_decision. Defined.

Record RecordIter := {
  it_body : list byte;
  it_offset : Z;
  declared : Z;
  remaining : Z;
  next_lsn : Lsn.t;
  failed : bool }.

Definition records (f : FrameRef) : RecordIter :=
  {| it_body := frame_body f; it_offset := 0; declared := count f; remaining := count f;
     next_lsn := first_lsn f; failed := false |}.

Definition fail (it : RecordIter) : RecordIter :=
  {| it_body := it_body it; it_offset := it_offset it; declared := declared it;
     remaining := remaining it; next_lsn := next_lsn it; failed := true |}.

(** An item: [inl] is [Ok], [inr] is [Err]. *)
Definition item : Type := (Lsn.t * RecordView) + FrameRecordError.

Definition record_next (it : RecordIter) : panics (option item * RecordIter) :=
  if failed it then mret (None, it)
  else if remaining it =? 0 then
    if negb (it_offset it =? len (it_body it))
    then mret (Some (inr (TrailingBytes (it_offset it))), fail it)
    else mret (None, it)
  else if it_offset it =? len (it_body it) then
    mret (Some (inr (MissingRecords (wrap 32 (declared it - remaining it)) (declared it))), fail it)
  else
    rest ← slice_from (it_body it) (it_offset it);
    match decode_record rest with
    | Panic => Panic
    | Ok (view, consumed) =>
        next ← Lsn.advance (next_lsn it) (wrap 32 consumed);
        mret (Some (inl (next_lsn it, view)),
              {| it_body := it_body it; it_offset := it_offset it + consumed;
                 declared := declared it; remaining := wrap 32 (remaining it - 1);
                 next_lsn := next; failed := failed it |})
    | Err e => mret (Some (inr (Record_ e)), fail it)
    end.

(** [for item in iter]: the items until the first [None], [None] here when
    [fuel] calls were not enough. *)
Fixpoint record_items (fuel : nat) (it : RecordIter) : panics (option (list item)) :=
  match fuel with
  | O => mret None
  | S fuel =>
      '(x, it') ← record_next it;
      match x with
      | None => mret (Some [])
      | Some x => rest ← record_items fuel it'; mret (cons x <$> rest)
      end
  end.

(** ** The frames of an image *)

Record FrameIter := { image : list byte; pos : Z; max_frame_len : Z; done_ : bool }.

Definition frame_iter (image : list byte) (max_frame_len : Z) : FrameIter :=
  {| image := image; pos := 0; max_frame_len := max_frame_len; done_ := false |}.

Definition finish (it : FrameIter) : FrameIter :=
  {| image := image it; pos := pos it; max_frame_len := max_frame_len it; done_ := true |}.

Definition frame_item : Type := (Z * FrameRef) + FrameDecodeError.

Definition frame_next (it : FrameIter) : panics (option frame_item * FrameIter) :=
  if done_ it || (len (image it) <=? pos it) then mret (None, finish it)
  else
    rest ← slice_from (image it) (pos it);
    match decode_frame rest (max_frame_len it) with
    | Panic => Panic
    | Ok (frame, _) =>
        mret (Some (inl (pos it, frame)),
              {| image := image it; pos := Z.min (pos it + padded_len frame) U64_MAX;
                 max_frame_len := max_frame_len it; done_ := done_ it |})
    | Err ZeroMagic => mret (None, finish it)
    | Err err => mret (Some (inr err), finish it)
    end.

Fixpoint frame_items (fuel : nat) (it : FrameIter) : panics (option (list frame_item)) :=
  match fuel with
  | O => mret None
  | S fuel =>
      '(x, it') ← frame_next it;
      match x with
      | None => mret (Some [])
      | Some x => rest ← frame_items fuel it'; mret (cons x <$> rest)
      end
  end.

(** ** What a frame is

    [frame_bytes f] are the bytes of the frame [f]; [frame_ok] is what the
    decoder guarantees of a frame it returns. *)

Definition magic_of (f : FrameRef) : list byte :=
  match stamp f, layout f with
  | None, _ => FRAME_MAGIC_V1
  | Some _, Packed => FRAME_MAGIC
  | Some _, Aligned => FRAME_MAGIC_V3
  end.
Definition stamp_bytes (s : FrameStamp) : list byte :=
  le_bytes 4 (epoch s) ++ le_bytes 8 (seq s) ++ le_bytes 8 (covered_lsn s).
Definition header_bytes (f : FrameRef) : list byte :=
  magic_of f ++ le_bytes 4 (frame_len f) ++ le_bytes 4 (count f) ++
  le_bytes 4 (Lsn.segment (first_lsn f)) ++ le_bytes 4 (Lsn.offset (first_lsn f)) ++
  from_option stamp_bytes [] (stamp f).
Definition covered_bytes (f : FrameRef) : list byte := header_bytes f ++ frame_body f.
Definition frame_bytes (f : FrameRef) : list byte :=
  covered_bytes f ++ le_bytes 4 (crc32c (covered_bytes f)).

Definition stamp_ok (first : Lsn.t) (s : FrameStamp) : Prop :=
  in_u 32 (epoch s) /\ in_u 64 (seq s) /\ in_u 64 (covered_lsn s) /\
  epoch s <> 0 /\ seq s <> 0 /\ covered_lsn s <= Lsn.to_u64 first.

Record frame_ok (max : Z) (f : FrameRef) : Prop := {
  ok_len : frame_len f = header_len f + len (frame_body f) + FRAME_TRAILER_LEN;
  ok_min : 4 <= len (frame_body f);
  ok_max : frame_len f <= max;
  ok_u32 : in_u 32 (frame_len f);
  ok_aligned : layout f = Aligned -> frame_len f <= U32_MAX - (FRAME_ALIGN - 1);
  ok_count : in_u 32 (count f) /\ count f <> 0;
  ok_lsn : Lsn.wf (first_lsn f);
  ok_base : header_len f <= Lsn.offset (first_lsn f);
  ok_end : Lsn.offset (first_lsn f) - header_len f + padded_len f <= U32_MAX;
  ok_stamp : match stamp f with
             | Some s => stamp_ok (first_lsn f) s
             | None => layout f = Packed
             end }.

Lemma header_len_stamp f :
  header_len f = match stamp f with Some _ => 40 | None => 20 end.
Proof. unfold header_len. by destruct (stamp f). Qed.

Lemma len_header_bytes f : len (header_bytes f) = header_len f.
Proof.
  rewrite header_len_stamp. unfold header_bytes, magic_of, stamp_bytes.
  destruct (stamp f), (layout f); cbn [from_option]; autorewrite with len; vm_compute; done.
Qed.
#[local] Hint Rewrite len_header_bytes : len.

Lemma len_frame_bytes max f : frame_ok max f -> len (frame_bytes f) = frame_len f.
Proof. intros []. unfold frame_bytes, covered_bytes in *. unfold FRAME_TRAILER_LEN in *. lens. Qed.

(** ** Alignment *)

Lemma next_multiple n :
  in_u 32 n ->
  checked_next_multiple_of n FRAME_ALIGN =
  if n <=? U32_MAX - (FRAME_ALIGN - 1) then Some (align_up_frame n) else None.
Proof.
  unfold align_up_frame, checked_next_multiple_of, checked_add, FRAME_ALIGN, U32_MAX, in_u.
  intros Hn. pose proof (Z.mod_pos_bound n 4096). pose proof (Z.div_mod n 4096).
  destruct (Z.eqb_spec (n mod 4096) 0), (Z.leb_spec n (4294967295 - (4096 - 1))); try done; try lia.
  - destruct (Z.ltb_spec (n + (4096 - n mod 4096)) (2 ^ 32)); [done|lia].
  - destruct (Z.ltb_spec (n + (4096 - n mod 4096)) (2 ^ 32)); [lia|done].
Qed.

Lemma align_up_frame_bounds n :
  in_u 32 n -> n <= align_up_frame n < 2 ^ 32 /\
  (n <= U32_MAX - (FRAME_ALIGN - 1) ->
   align_up_frame n mod FRAME_ALIGN = 0 /\ align_up_frame n < n + FRAME_ALIGN).
Proof.
  unfold align_up_frame, checked_next_multiple_of, checked_add, FRAME_ALIGN, U32_MAX, in_u.
  intros Hn. pose proof (Z.mod_pos_bound n 4096). pose proof (Z.div_mod n 4096).
  destruct (Z.eqb_spec (n mod 4096) 0); [lia|].
  destruct (Z.ltb_spec (n + (4096 - n mod 4096)) (2 ^ 32)); [|lia].
  split; [lia|]. intros _. split; [|lia].
  replace (n + (4096 - n mod 4096)) with ((n / 4096 + 1) * 4096) by lia.
  apply Z.mod_mul. lia.
Qed.

Lemma layout_padded_len_bounds l n :
  in_u 32 n -> n <= layout_padded_len l n < 2 ^ 32.
Proof.
  intros. pose proof (align_up_frame_bounds n). destruct l; cbn; unfold in_u in *; naive_solver lia.
Qed.

(** ** Fields at fixed offsets *)

Definition field (a n : nat) (l : list byte) : list byte := take n (drop a l).

Lemma length_field a n l : (a + n <= length l)%nat -> length (field a n l) = n.
Proof. intros. unfold field. rewrite length_take, length_drop. lia. Qed.

Lemma read_le_field {E} l a b :
  0 <= a <= b -> b <= len l ->
  read_le (E:=E) l a b = Ok (le_val (field (Z.to_nat a) (Z.to_nat (b - a)) l)).
Proof.
  intros. unfold read_le, slice, get_range.
  rewrite (proj2 (Z.leb_le 0 a)), (proj2 (Z.leb_le a b)), (proj2 (Z.leb_le b (len l))) by lia. done.
Qed.

Lemma read_le_at {E} (a n : nat) l z1 z2 :
  z1 = Z.of_nat a -> z2 = Z.of_nat (a + n) -> z2 <= len l ->
  read_le (E:=E) l z1 z2 = Ok (le_val (field a n l)).
Proof. intros -> -> ?. rewrite read_le_field by lia. repeat f_equal; lia. Qed.

(** A list with at least [n] elements, as [n] elements and the rest. *)
Tactic Notation "expose" integer(n) hyp(l) hyp(H) :=
  do n (destruct l as [|? l]; [cbn in H; lia|]).

Lemma fields_20 l :
  (20 <= length l)%nat ->
  l = field 0 4 l ++ field 4 4 l ++ field 8 4 l ++ field 12 4 l ++ field 16 4 l ++ drop 20 l.
Proof. intros H. expose 20 l H. reflexivity. Qed.

Lemma fields_40 l :
  (40 <= length l)%nat ->
  drop 20 l = (field 20 4 l ++ field 24 8 l ++ field 32 8 l) ++ drop 40 l.
Proof. intros H. expose 40 l H. reflexivity. Qed.

Lemma app_fields_20 m a b c d r :
  length m = 4%nat -> length a = 4%nat -> length b = 4%nat -> length c = 4%nat -> length d = 4%nat ->
  let l := m ++ a ++ b ++ c ++ d ++ r in
  field 0 4 l = m /\ field 4 4 l = a /\ field 8 4 l = b /\ field 12 4 l = c /\
  field 16 4 l = d /\ drop 20 l = r.
Proof.
  intros. do 5 (match goal with H : length ?x = 4%nat |- _ =>
    destruct x as [|? [|? [|? [|? [|]]]]]; try discriminate H; clear H end). done.
Qed.

Lemma app_fields_40 l a b c r :
  drop 20 l = (a ++ b ++ c) ++ r ->
  length a = 4%nat -> length b = 8%nat -> length c = 8%nat ->
  field 20 4 l = a /\ field 24 8 l = b /\ field 32 8 l = c /\ drop 40 l = r.
Proof.
  intros E Ha Hb Hc. unfold field.
  rewrite <- (drop_drop l 4 20 : _ = drop 24 l), <- (drop_drop l 12 20 : _ = drop 32 l),
    <- (drop_drop l 20 20 : _ = drop 40 l), E.
  destruct a as [|? [|? [|? [|? [|]]]]]; try discriminate Ha.
  do 8 (destruct b as [|? b]; [discriminate Hb|]). destruct b; [|discriminate Hb].
  do 8 (destruct c as [|? c]; [discriminate Hc|]). destruct c; [|discriminate Hc].
  done.
Qed.

Lemma field_app a n l r : (a + n <= length l)%nat -> field a n (l ++ r) = field a n l.
Proof.
  intros. unfold field. rewrite drop_app_le by lia. rewrite take_app_le; [done|].
  rewrite length_drop. lia.
Qed.

Lemma le_field n a l :
  (a + n <= length l)%nat -> le_bytes n (le_val (field a n l)) = field a n l.
Proof. intros. apply le_bytes_le_val, length_field. done. Qed.

Lemma field_u32 a l : (a + 4 <= length l)%nat -> in_u 32 (le_val (field a 4 l)).
Proof. intros. pose proof (le_val_bound (field a 4 l)) as H1. by rewrite length_field in H1. Qed.
Lemma field_u64 a l : (a + 8 <= length l)%nat -> in_u 64 (le_val (field a 8 l)).
Proof. intros. pose proof (le_val_bound (field a 8 l)) as H1. by rewrite length_field in H1. Qed.

(** ** The decoder accepts exactly the frames *)

Definition shape_of (f : FrameRef) : FrameShape :=
  {| shape_header_len := header_len f; shape_min_frame_len := header_len f + 8;
     has_stamp := bool_decide (is_Some (stamp f)); shape_layout := layout f |}.

Lemma frame_shape_magic_of f :
  (stamp f = None -> layout f = Packed) -> frame_shape (magic_of f) = Ok (Some (shape_of f)).
Proof.
  intros H. unfold shape_of. rewrite header_len_stamp. unfold magic_of.
  destruct (stamp f); [by destruct (layout f)|]. by rewrite H.
Qed.

Lemma frame_shape_Ok m sh :
  frame_shape m = Ok (Some sh) ->
  exists st l, sh = {| shape_header_len := frame_header_len st;
                       shape_min_frame_len := frame_header_len st + 8;
                       has_stamp := st; shape_layout := l |} /\
    m = (if st then match l with Packed => FRAME_MAGIC | Aligned => FRAME_MAGIC_V3 end
         else FRAME_MAGIC_V1) /\ (st = false -> l = Packed).
Proof.
  unfold frame_shape. repeat case_bool_decide; intros [= <-];
    [exists true, Packed|exists true, Aligned|exists false, Packed]; done.
Qed.

(** The checks on the first LSN. *)
Lemma fits_segment_spec off hl ext :
  in_u 32 off -> 0 <= hl -> in_u 32 ext ->
  match checked_sub off hl with
  | Some base => match checked_add 64 base ext with
                 | Some e => e <=? U32_MAX
                 | None => false
                 end
  | None => false
  end = (hl <=? off) && (off - hl + ext <=? U32_MAX).
Proof.
  unfold in_u, checked_sub, checked_add. intros. destruct (Z.leb_spec hl off); [|done].
  destruct (Z.ltb_spec (off - hl + ext) (2 ^ 64)); [done|lia].
Qed.

Lemma extent_spec l n :
  in_u 32 n ->
  match l with Packed => Some n | Aligned => checked_next_multiple_of n FRAME_ALIGN end =
  if match l with Packed => true | Aligned => n <=? U32_MAX - (FRAME_ALIGN - 1) end
  then Some (layout_padded_len l n) else None.
Proof. intros. destruct l; [done|]. by apply next_multiple. Qed.

(** The fields of the bytes of a frame, whatever follows them. *)
Lemma frame_fields f rest :
  let l := frame_bytes f ++ rest in
  field 0 4 l = magic_of f /\ field 4 4 l = le_bytes 4 (frame_len f) /\
  field 8 4 l = le_bytes 4 (count f) /\
  field 12 4 l = le_bytes 4 (Lsn.segment (first_lsn f)) /\
  field 16 4 l = le_bytes 4 (Lsn.offset (first_lsn f)) /\
  forall s, stamp f = Some s ->
    field 20 4 l = le_bytes 4 (epoch s) /\ field 24 8 l = le_bytes 8 (seq s) /\
    field 32 8 l = le_bytes 8 (covered_lsn s).
Proof.
  cbv zeta. unfold frame_bytes. set (crc := le_bytes 4 _). clearbody crc.
  unfold covered_bytes, header_bytes. rewrite <- !app_assoc.
  assert (Hm : length (magic_of f) = 4%nat).
  { unfold magic_of. by destruct (stamp f), (layout f). }
  match goal with |- field 0 4 ?l = _ /\ _ => set (L := l) end.
  destruct (app_fields_20 (magic_of f) (le_bytes 4 (frame_len f)) (le_bytes 4 (count f))
    (le_bytes 4 (Lsn.segment (first_lsn f))) (le_bytes 4 (Lsn.offset (first_lsn f)))
    (from_option stamp_bytes [] (stamp f) ++ frame_body f ++ crc ++ rest))
    as (F0 & F4 & F8 & F12 & F16 & F20); [done|by rewrite length_le_bytes..|].
  fold L in F0, F4, F8, F12, F16, F20. clearbody L.
  split_and!; [done..|]. intros s Hs. rewrite Hs in F20.
  destruct (app_fields_40 L _ _ _ _ F20) as (? & ? & ? & _); by rewrite ?length_le_bytes.
Qed.

(** The number of bytes of the header and its checksum. *)
Lemma frame_bytes_len f :
  len (covered_bytes f) = header_len f + len (frame_body f) /\
  len (frame_bytes f) = len (covered_bytes f) + 4 /\
  (stamp f = None -> header_len f = 20) /\ (forall s, stamp f = Some s -> header_len f = 40) /\
  20 <= header_len f <= 40.
Proof.
  unfold frame_bytes, covered_bytes. rewrite header_len_stamp.
  pose proof (len_header_bytes f) as E. rewrite header_len_stamp in E.
  destruct (stamp f); split_and!; try lens; naive_solver.
Qed.

(** A header of the right shape decodes to its fields. *)
Lemma decode_header_complete max f :
  frame_ok max f ->
  decode_header (shape_of f) (frame_len f) (padded_len f) (frame_bytes f) (covered_bytes f)
  = Ok (f, frame_len f).
Proof.
  intros Hok. pose proof (ok_len _ _ Hok). unfold FRAME_TRAILER_LEN in *.
  pose proof (ok_min _ _ Hok). pose proof (ok_count _ _ Hok) as [Hcount Hc0].
  pose proof (ok_lsn _ _ Hok) as [Hseg Hoff]. pose proof (ok_base _ _ Hok).
  pose proof (ok_end _ _ Hok). pose proof (ok_stamp _ _ Hok) as Hst.
  pose proof (layout_padded_len_bounds (layout f) (frame_len f) (ok_u32 _ _ Hok)) as Hp.
  fold (padded_len f) in Hp. pose proof (frame_bytes_len f) as (Lc & Lf & L1 & L2 & Lb).
  destruct (frame_fields f []) as (_ & _ & F8 & F12 & F16 & FS). rewrite app_nil_r in *.
  unfold decode_header, shape_of; cbn [shape_header_len has_stamp shape_layout].
  rewrite (read_le_at 8 4 _ 8 12), F8, le_val_le_bytes_small by (done || lia). ok_step.
  rewrite (proj2 (Z.eqb_neq _ _) Hc0). ok_step.
  rewrite (read_le_at 12 4 _ 12 16), F12, le_val_le_bytes_small by (done || lia). ok_step.
  rewrite (read_le_at 16 4 _ 16 20), F16, le_val_le_bytes_small by (done || lia). ok_step.
  rewrite fits_segment_spec by (done || unfold in_u; lia).
  rewrite (proj2 (Z.leb_le (header_len f) _)), (proj2 (Z.leb_le _ U32_MAX)) by lia.
  cbn [andb negb refuse_if]. ok_step.
  assert (Hb : slice_from (E:=FrameDecodeError) (covered_bytes f) (header_len f) = Ok (frame_body f)).
  { apply slice_from_app, len_header_bytes. }
  assert (Hf : forall st, stamp f = st -> Ok (E:=FrameDecodeError) (
      {| first_lsn := first_lsn f; count := count f; stamp := st; layout := layout f; frame_len := frame_len f;
         frame_body := frame_body f |}, frame_len f) = Ok (f, frame_len f))
    by (intros ? <-; by destruct f).
  replace (Lsn.new _ _) with (first_lsn f) by by destruct (first_lsn f).
  destruct (stamp f) as [s|] eqn:Es.
  2:{ rewrite bool_decide_false by (intros [? [=]]). ok_step. rewrite Hb. by apply Hf. }
  rewrite bool_decide_true by eauto.
  destruct (FS s eq_refl) as (F20 & F24 & F32). destruct Hst as (He & Hs & Hv & He0 & Hs0 & Hvl).
  pose proof (L2 s eq_refl).
  rewrite (read_le_at 20 4 _ 20 24), F20, le_val_le_bytes_small by (done || lia). ok_step.
  rewrite (read_le_at 24 8 _ 24 32), F24, le_val_le_bytes_small by (done || lia). ok_step.
  rewrite (read_le_at 32 8 _ 32 40), F32, le_val_le_bytes_small by (done || lia). ok_step.
  rewrite (proj2 (Z.eqb_neq _ _) He0), (proj2 (Z.eqb_neq _ _) Hs0), (proj2 (Z.ltb_ge _ _) Hvl).
  cbn [orb refuse_if]. ok_step. rewrite Hb. apply (Hf (Some _)). by destruct s.
Qed.

Lemma slice_0 {E} (l : list byte) n :
  0 <= n <= len l -> slice (E:=E) l 0 n = Ok (take (Z.to_nat n) l).
Proof.
  intros. unfold slice, get_range.
  rewrite (proj2 (Z.leb_le 0 n)), (proj2 (Z.leb_le n (len l))) by lia. cbn [andb Z.leb Z.compare].
  by rewrite Z.sub_0_r.
Qed.

Lemma split_last_app l t : length t = 4%nat -> split_last_chunk 4 (l ++ t) = Some (l, t).
Proof.
  intros Ht. unfold split_last_chunk. rewrite length_app, Ht.
  destruct (decide _); [|lia]. rewrite Nat.add_sub, take_app_length, drop_app_length. done.
Qed.

(** Past the header, on a buffer that agrees with a frame as far as it goes. *)
Lemma decode_frame_past_header max f buf q rest :
  frame_ok max f -> frame_bytes f ++ rest = buf ++ q -> header_len f <= len buf ->
  decode_frame buf max =
  (_ ← refuse_if (len buf <? frame_len f) (Truncated (frame_len f) (len buf));
   frame ← slice buf 0 (frame_len f);
   '(covered, trailer) ← ok_or (BadLength (frame_len f)) (split_last_chunk 4 frame);
   _ ← refuse_if (negb (le_val trailer =? crc32c covered)) (CrcMismatch (le_val trailer) (crc32c covered));
   decode_header (shape_of f) (frame_len f) (padded_len f) frame covered).
Proof.
  intros Hok E Hl. pose proof (frame_bytes_len f) as (_ & _ & _ & _ & Lb).
  pose proof (ok_min _ _ Hok). pose proof (ok_len _ _ Hok) as Hlen. pose proof (ok_max _ _ Hok).
  pose proof (ok_u32 _ _ Hok) as H32. unfold FRAME_TRAILER_LEN in Hlen.
  destruct (frame_fields f rest) as (F0 & F4 & _). rewrite E in F0, F4.
  rewrite field_app in F0, F4 by (unfold len in *; lia).
  unfold decode_frame. rewrite (proj2 (Z.ltb_ge _ 4)), slice_0 by lia. ok_step.
  change (take (Z.to_nat 4) buf) with (field 0 4 buf).
  rewrite F0, frame_shape_magic_of. 2:{ pose proof (ok_stamp _ _ Hok) as Hs. by intros E1; rewrite E1 in Hs. }
  ok_step. cbn [shape_of shape_header_len shape_min_frame_len shape_layout].
  rewrite (proj2 (Z.ltb_ge _ (header_len f))) by lia. cbn [refuse_if]. ok_step.
  rewrite (read_le_at 4 4 _ 4 8), F4, le_val_le_bytes_small by (done || lia). ok_step.
  rewrite (proj2 (Z.ltb_ge (frame_len f) _)), (proj2 (Z.ltb_ge max _)) by lia. cbn [orb refuse_if]. ok_step.
  rewrite extent_spec by done.
  assert ((match layout f with Packed => true | Aligned => frame_len f <=? U32_MAX - (FRAME_ALIGN - 1) end) = true) as ->.
  { destruct (layout f) eqn:E1; [done|]. apply Z.leb_le, (ok_aligned _ _ Hok E1). }
  done.
Qed.

Lemma decode_frame_complete max f rest :
  frame_ok max f -> decode_frame (frame_bytes f ++ rest) max = Ok (f, frame_len f).
Proof.
  intros Hok. pose proof (len_frame_bytes _ _ Hok) as Hl. pose proof (ok_u32 _ _ Hok) as H32.
  pose proof (frame_bytes_len f) as (Lc & Lf & _). pose proof (len_nonneg (frame_body f)).
  assert (Hlb : len (frame_bytes f ++ rest) = frame_len f + len rest) by lens. pose proof (len_nonneg rest).
  rewrite (decode_frame_past_header max f _ [] rest) by (rewrite ?app_nil_r; done || lia).
  rewrite (proj2 (Z.ltb_ge _ (frame_len f))), slice_0 by (unfold in_u in *; lia).
  cbn [refuse_if]. ok_step.
  replace (Z.to_nat (frame_len f)) with (length (frame_bytes f)) by (unfold len in Hl; lia).
  rewrite take_app_length.
  rewrite (split_last_app (covered_bytes f) _ (length_le_bytes 4 _)
    : split_last_chunk 4 (frame_bytes f) = _). ok_step.
  rewrite le_val_le_bytes_small, Z.eqb_refl by apply crc32c_in_u32. cbn [negb refuse_if]. ok_step.
  by apply (decode_header_complete max).
Qed.

Lemma slice_from_drop {E} (l y : list byte) a :
  slice_from (E:=E) l a = Ok y -> y = drop (Z.to_nat a) l.
Proof.
  intros (x & -> & <-)%slice_from_Ok. unfold len. by rewrite Nat2Z.id, drop_app_length.
Qed.

Lemma decode_stamp_sound (st : bool) first covered trailer a :
  frame_header_len st <= len covered ->
  (if st then
     epoch ← read_le (covered ++ trailer) 20 24;
     seq ← read_le (covered ++ trailer) 24 32;
     covered_lsn ← read_le (covered ++ trailer) 32 40;
     _ ← refuse_if ((epoch =? 0) || (seq =? 0) || (Lsn.to_u64 first <? covered_lsn)) BadStamp;
     mret (Some {| epoch := epoch; seq := seq; covered_lsn := covered_lsn |})
   else mret None) = Ok a ->
  bool_decide (is_Some a) = st /\ match a with Some s => stamp_ok first s | None => True end /\
  drop 20 covered = from_option stamp_bytes [] a ++ drop (Z.to_nat (frame_header_len st)) covered.
Proof.
  intros Hlen. destruct st; [|by intros [= <-]].
  assert (Hl : (40 <= length covered)%nat) by (change (frame_header_len true) with 40 in Hlen; unfold len in Hlen; lia).
  assert (40 <= len (covered ++ trailer)) by (unfold len; rewrite length_app; lia).
  rewrite (read_le_at 20 4 _ 20 24), (read_le_at 24 8 _ 24 32), (read_le_at 32 8 _ 32 40) by (done || lia).
  ok_step. rewrite !field_app by lia. intros H1. inv_ok H1. injection H1 as <-.
  apply orb_false_iff in H0 as [[He%Z.eqb_neq Hs%Z.eqb_neq]%orb_false_iff Hv%Z.ltb_ge].
  split; [done|]. split.
  - split_and!; cbn; [apply field_u32|apply field_u64|apply field_u64|..]; lia || done.
  - cbn [from_option]. unfold stamp_bytes; cbn [epoch seq covered_lsn].
    rewrite !le_field by lia. by apply fields_40.
Qed.

(** The fields a successful [decode_header] returns, against the bytes. *)
Lemma decode_header_sound st ly fl ext covered trailer f n :
  length trailer = 4%nat -> in_u 32 fl -> in_u 32 ext ->
  frame_header_len st <= len covered ->
  decode_header {| shape_header_len := frame_header_len st;
                   shape_min_frame_len := frame_header_len st + 8;
                   has_stamp := st; shape_layout := ly |} fl ext (covered ++ trailer) covered
  = Ok (f, n) ->
  n = fl /\ frame_len f = fl /\ layout f = ly /\ bool_decide (is_Some (stamp f)) = st /\
  in_u 32 (count f) /\ count f <> 0 /\ Lsn.wf (first_lsn f) /\
  header_len f <= Lsn.offset (first_lsn f) /\
  Lsn.offset (first_lsn f) - header_len f + ext <= U32_MAX /\
  match stamp f with Some s => stamp_ok (first_lsn f) s | None => True end /\
  covered = field 0 4 covered ++ field 4 4 covered ++ le_bytes 4 (count f) ++
    le_bytes 4 (Lsn.segment (first_lsn f)) ++ le_bytes 4 (Lsn.offset (first_lsn f)) ++
    from_option stamp_bytes [] (stamp f) ++ frame_body f.
Proof.
  intros Ht Hfl Hext Hlen. assert (20 <= frame_header_len st) by by destruct st.
  assert (Hlc : (20 <= length covered)%nat) by (unfold len in Hlen; lia).
  assert (Hlf : len (covered ++ trailer) = len covered + 4) by (unfold len; rewrite length_app; lia).
  unfold decode_header; cbn [shape_header_len shape_min_frame_len has_stamp shape_layout].
  rewrite (read_le_at 8 4 _ 8 12), (read_le_at 12 4 _ 12 16), (read_le_at 16 4 _ 16 20) by (done || lia).
  ok_step. rewrite !field_app by lia.
  intros H1. inv_ok H1. apply Z.eqb_neq in H0.
  rewrite fits_segment_spec in H2 by (done || by (apply field_u32; lia) || lia).
  apply negb_false_iff, andb_true_iff in H2 as [?%Z.leb_le ?%Z.leb_le].
  apply slice_from_drop in H4 as ->.
  apply decode_stamp_sound in H3 as (Hst & Hsok & Hsb); [|done..].
  injection H1 as <- <-. unfold header_len; cbn [frame_len layout stamp count first_lsn frame_body Lsn.offset Lsn.segment].
  rewrite Hst, !le_field, <- Hsb by lia.
  split_and!; try done; [apply field_u32; lia|split; apply field_u32; cbn; lia|by apply fields_20].
Qed.

Lemma split_last_Some n l c t :
  split_last_chunk n l = Some (c, t) -> l = c ++ t /\ length t = n.
Proof.
  unfold split_last_chunk. case_decide; [|done]. intros [= <- <-].
  rewrite take_drop, length_drop. split; [done|lia].
Qed.

Lemma decode_frame_sound max buf f n :
  decode_frame buf max = Ok (f, n) ->
  frame_ok max f /\ n = frame_len f /\ exists rest, buf = frame_bytes f ++ rest.
Proof.
  unfold decode_frame. destruct (Z.ltb_spec (len buf) 4) as [|Hl4]; [by destruct (zeroes buf)|].
  intros H. inv_ok H. rewrite slice_0 in H0 by lia. injection H0 as <-.
  change (take (Z.to_nat 4) buf) with (field 0 4 buf) in H1.
  destruct a0 as [sh|]; [|done]. inv_ok H.
  apply frame_shape_Ok in H1 as (st & ly & -> & Hm & Hly).
  cbn [shape_header_len shape_min_frame_len has_stamp shape_layout] in *.
  apply Z.ltb_ge in H0. apply orb_false_iff in H3 as [Hmin%Z.ltb_ge Hmax%Z.ltb_ge].
  assert (20 <= frame_header_len st) by by destruct st.
  rewrite (read_le_at 4 4 _ 4 8) in H2 by (done || lia). injection H2 as <-.
  assert (H32 : in_u 32 (le_val (field 4 4 buf))) by (apply field_u32; unfold len in *; lia).
  apply Z.ltb_ge in H5. rewrite slice_0 in H6 by (unfold in_u in *; lia). injection H6 as <-.
  rewrite extent_spec in H4 by done. set (fl := le_val (field 4 4 buf)) in *.
  pose proof (layout_padded_len_bounds ly fl H32) as Hpb.
  destruct (match ly with Packed => true | _ => _ end) eqn:Eext; [|done]. injection H4 as <-.
  apply split_last_Some in H7 as [Hfr Ht]. apply negb_false_iff, Z.eqb_eq in H8.
  rewrite Hfr in H.
  assert (Hlc : len a2 = fl - 4).
  { apply (f_equal len) in Hfr. autorewrite with len in Hfr. unfold len in *. unfold in_u in *. lia. }
  assert (Hfields : forall a k, (a + k <= 20)%nat -> field a k buf = field a k a2).
  { intros a k Hak. rewrite <- (take_drop (Z.to_nat fl) buf), Hfr, <- app_assoc.
    apply field_app. unfold len in *. lia. }
  apply decode_header_sound in H as (-> & Hfl & Hlay & Hst & Hc & Hc0 & Hwf & Hb & He & Hsok & Hcov);
    [|done|done|unfold in_u in *; lia|lia].
  assert (Hm' : magic_of f = field 0 4 buf).
  { rewrite Hm. unfold magic_of. rewrite Hlay.
    destruct (stamp f); cbn in Hst; rewrite <- Hst in *; [by destruct ly|done]. }
  rewrite <- (Hfields 0%nat 4%nat), <- (Hfields 4%nat 4%nat) in Hcov by lia.
  assert (Hcv : a2 = covered_bytes f).
  { rewrite Hcov. unfold covered_bytes, header_bytes. rewrite Hm', Hfl, <- !app_assoc.
    unfold fl. by rewrite le_field by (unfold len in *; lia). }
  assert (Hhl : header_len f = frame_header_len st) by (unfold header_len; by rewrite Hst).
  pose proof (frame_bytes_len f) as (Lc & _).
  split_and!; [|done|].
  - constructor; rewrite ?Hfl, ?Hlay; try done; unfold FRAME_TRAILER_LEN; try (rewrite Hcv in Hlc; lia).
    + intros ->. by apply Z.leb_le in Eext.
    + unfold padded_len. by rewrite Hlay, Hfl.
    + destruct (stamp f); [done|]. by apply Hly.
  - exists (drop (Z.to_nat fl) buf). rewrite <- (take_drop (Z.to_nat fl) buf) at 1.
    rewrite Hfr. unfold frame_bytes. by rewrite <- Hcv, <- H8, le_bytes_le_val.
Qed.

Lemma refuse_not_Panic {E A} b (e : E) (k : unit -> outcome E A) :
  (b = false -> k tt <> Panic) -> (refuse_if b e ≫= k) <> Panic.
Proof. destruct b; [done|]. intros H. by apply H. Qed.

Lemma frame_shape_not_Panic m : frame_shape m <> Panic.
Proof. unfold frame_shape. by repeat case_bool_decide. Qed.

Lemma read_le_not_Panic {E} l a b : 0 <= a <= b -> b <= len l -> read_le (E:=E) l a b <> Panic.
Proof. intros. by rewrite read_le_field. Qed.

Lemma decode_header_not_Panic sh fl ext frame covered :
  len covered <= len frame -> shape_header_len sh <= len covered ->
  (if has_stamp sh then 40 else 20) <= shape_header_len sh ->
  decode_header sh fl ext frame covered <> Panic.
Proof.
  intros. unfold decode_header.
  assert (20 <= shape_header_len sh) by (destruct (has_stamp sh); lia).
  apply bind_not_Panic; [apply read_le_not_Panic; lia|intros rc _].
  apply refuse_not_Panic; intros _.
  apply bind_not_Panic; [apply read_le_not_Panic; lia|intros sg _].
  apply bind_not_Panic; [apply read_le_not_Panic; lia|intros off _].
  apply refuse_not_Panic; intros _.
  apply bind_not_Panic; [|intros; apply bind_not_Panic; [apply slice_from_not_Panic; lia|done]].
  destruct (has_stamp sh); [|done].
  do 3 (apply bind_not_Panic; [apply read_le_not_Panic; lia|intros ? _]).
  by apply refuse_not_Panic.
Qed.

Lemma decode_frame_not_Panic buf max : decode_frame buf max <> Panic.
Proof.
  unfold decode_frame. destruct (Z.ltb_spec (len buf) 4) as [|Hl4]; [by destruct (zeroes buf)|].
  apply bind_not_Panic; [apply slice_not_Panic; lia|intros m _].
  apply bind_not_Panic; [apply frame_shape_not_Panic|]. intros [sh|] Hsh; [|done].
  apply frame_shape_Ok in Hsh as (st & ly & -> & _ & _).
  cbn [shape_header_len shape_min_frame_len has_stamp shape_layout].
  assert (Hst : (if st then 40 else 20) <= frame_header_len st) by by destruct st.
  assert (20 <= frame_header_len st) by (destruct st; lia).
  apply refuse_not_Panic. intros Hlb%Z.ltb_ge.
  apply bind_not_Panic; [apply read_le_not_Panic; lia|intros fl _].
  apply refuse_not_Panic. intros [Hmin%Z.ltb_ge _]%orb_false_iff.
  apply bind_not_Panic; [apply ok_or_not_Panic|intros ext _].
  apply refuse_not_Panic. intros Hfl%Z.ltb_ge.
  apply bind_not_Panic; [apply slice_not_Panic; lia|intros frame Hf].
  apply bind_not_Panic; [apply ok_or_not_Panic|intros [covered trailer] Hs].
  apply refuse_not_Panic. intros _.
  apply ok_or_Ok, split_last_Some in Hs as [-> Ht].
  rewrite slice_0 in Hf by lia. injection Hf as Hf.
  apply (f_equal len) in Hf. autorewrite with len in Hf. assert (len trailer = 4) by (unfold len; lia).
  apply decode_header_not_Panic; cbn [shape_header_len has_stamp]; lens.
Qed.

(** C36. [decode_frame] accepts exactly the frames: it returns [f] and [n] on a
    buffer if and only if [f] satisfies every validated fact (lengths within
    the cap and the [u32] segment ceiling, at least one record, reserved stamp
    values excluded, watermark not ahead of the frame), the buffer starts with
    the bytes of [f] under their own CRC32C, and [n] is their number. *)
Theorem decode_frame_canonical (buf : list byte) (max : Z) (f : FrameRef) (n : Z) :
  decode_frame buf max = Ok (f, n) <->
  frame_ok max f /\ n = frame_len f /\ exists rest, buf = frame_bytes f ++ rest.
Proof.
  split; [apply decode_frame_sound|].
  intros (Hok & -> & rest & ->). by apply decode_frame_complete.
Qed.

(** ** Walking the records of a frame *)

Definition record_bytes (rs : list RecordView) : list byte :=
  concat ((fun r => encode_into r []) <$> rs).

(** Each record with its LSN, the byte offset of its length prefix. *)
Fixpoint with_lsns (l : Lsn.t) (rs : list RecordView) : list (Lsn.t * RecordView) :=
  match rs with
  | [] => []
  | r :: rs =>
      (l, r) :: with_lsns (Lsn.new (Lsn.segment l) (Lsn.offset l + len (encode_into r []))) rs
  end.

(** How the walk ends after [n] records of a body whose unread bytes are
    [rest], [at_] bytes in. *)
Inductive walk_end (declared n at_ : Z) (rest : list byte) : list item -> Prop :=
  | walk_all : n = declared -> rest = [] -> walk_end declared n at_ rest []
  | walk_trailing : n = declared -> rest <> [] ->
      walk_end declared n at_ rest [inr (TrailingBytes at_)]
  | walk_missing : n < declared -> rest = [] ->
      walk_end declared n at_ rest [inr (MissingRecords n declared)]
  | walk_record e : n < declared -> rest <> [] -> decode_record rest = Err e ->
      walk_end declared n at_ rest [inr (Record_ e)].

Lemma len_encode_pos r : 0 < len (encode_into r []).
Proof. rewrite encode_into_body. unfold body. lens. Qed.

Lemma record_items_stop k it : failed it = true -> record_items (S k) it = Ok (Some []).
Proof. intros H. cbn [record_items]. unfold record_next. by rewrite H. Qed.

Lemma record_items_some k it x it' :
  record_next it = Ok (Some x, it') ->
  record_items (S k) it =
  (record_items k it' ≫= fun rest : option (list item) => Ok (cons x <$> rest)).
Proof. intros H. cbn [record_items]. by rewrite H. Qed.

Definition iter_at (body : list byte) (off total n : Z) (lsn : Lsn.t) : RecordIter :=
  {| it_body := body; it_offset := off; declared := total; remaining := total - n;
     next_lsn := lsn; failed := false |}.

(** One successful call of [next]. *)
Lemma record_next_Ok body pre r rest total n lsn :
  body = pre ++ encode_into r [] ++ rest -> record_ok r ->
  0 <= n < total -> in_u 32 total ->
  0 <= Lsn.offset lsn -> Lsn.offset lsn + len (encode_into r []) < 2 ^ 32 ->
  record_next (iter_at body (len pre) total n lsn) =
  Ok (Some (inl (lsn, r)),
      iter_at body (len (pre ++ encode_into r [])) total (n + 1)
        (Lsn.new (Lsn.segment lsn) (Lsn.offset lsn + len (encode_into r [])))).
Proof.
  intros -> Hr Hn Hd Hl0 Hl. pose proof (len_encode_pos r). unfold record_next, iter_at.
  cbn [failed remaining it_offset it_body next_lsn declared].
  rewrite (proj2 (Z.eqb_neq (total - n) 0)), (proj2 (Z.eqb_neq (len pre) _)) by lens.
  rewrite (slice_from_app pre _ (len pre)) by done. ok_step.
  rewrite decode_record_encode, (wrap_id 32 (len (encode_into r []))) by (done || (unfold in_u; lia)).
  unfold Lsn.advance, checked_add. rewrite (proj2 (Z.ltb_lt _ (2 ^ 32))) by done. ok_step.
  rewrite wrap_id by (unfold in_u in *; lia). autorewrite with len.
  by replace (total - (n + 1)) with (total - n - 1) by lia.
Qed.

(** The walk stops where [walk_end] says. *)
Lemma record_items_end fuel body pre rest total n lsn tail :
  body = pre ++ rest -> 0 <= n <= total -> in_u 32 total ->
  walk_end total n (len pre) rest tail ->
  record_items (S (S fuel)) (iter_at body (len pre) total n lsn) = Ok (Some tail).
Proof.
  intros -> Hn Hd Hw.
  assert (Hstop : forall x, let it := iter_at (pre ++ rest) (len pre) total n lsn in
    record_next it = Ok (Some x, fail it) -> record_items (S (S fuel)) it = Ok (Some [x])).
  { intros x it E. by rewrite (record_items_some _ _ _ _ E), record_items_stop. }
  assert (Hne : rest <> [] -> len rest <> 0) by (intros Hne E; by apply Hne, len_0_nil).
  destruct Hw as [-> ->| -> Hr|Hlt ->|e Hlt Hr He]; [cbn [record_items]|apply Hstop..];
    unfold record_next, iter_at; cbn [failed remaining it_offset it_body declared].
  - rewrite Z.sub_diag, Z.eqb_refl. by rewrite (proj2 (Z.eqb_eq _ _)) by lens.
  - rewrite Z.sub_diag, Z.eqb_refl. specialize (Hne Hr). by rewrite (proj2 (Z.eqb_neq _ _)) by lens.
  - rewrite (proj2 (Z.eqb_neq (total - n) 0)), (proj2 (Z.eqb_eq (len pre) _)) by lens.
    rewrite wrap_id by (unfold in_u in *; lia). repeat f_equal. lia.
  - specialize (Hne Hr).
    rewrite (proj2 (Z.eqb_neq (total - n) 0)), (proj2 (Z.eqb_neq (len pre) _)) by lens.
    rewrite (slice_from_app pre _ (len pre)) by done. ok_step. by rewrite He.
Qed.

(** Where a walk is: at an end, or in front of a record. *)
Lemma walk_cases total n at_ rest :
  n <= total ->
  (exists tail, walk_end total n at_ rest tail) \/
  n < total /\ exists r rest', record_ok r /\ rest = encode_into r [] ++ rest'.
Proof.
  intros Hn. destruct (Z.eq_dec n total) as [->|], (decide (rest = [])) as [->|];
    [left; eexists; by constructor|left; eexists; by constructor|left; eexists; by constructor; [lia|]|].
  destruct (decode_record rest) as [[r k]|e|] eqn:Er.
  - right. split; [lia|]. apply decode_record_sound in Er as (? & _ & rest' & ?). eauto.
  - left. exists [inr (Record_ e)]. by apply walk_record; [lia|..].
  - by apply decode_record_not_Panic in Er.
Qed.

Lemma record_walk fuel : forall body pre rest total n lsn,
  body = pre ++ rest -> (length rest + 2 <= fuel)%nat ->
  0 <= n <= total -> in_u 32 total ->
  0 <= Lsn.offset lsn -> Lsn.offset lsn + len rest < 2 ^ 32 ->
  exists rs rest' tail,
    record_items fuel (iter_at body (len pre) total n lsn)
    = Ok (Some (map inl (with_lsns lsn rs) ++ tail)) /\
    Forall record_ok rs /\ rest = record_bytes rs ++ rest' /\
    walk_end total (n + len rs) (len body - len rest') rest' tail.
Proof.
  induction fuel as [|fuel IH]; intros body pre rest total n lsn Hb Hf Hn Hd Hl0 Hl; [lia|].
  assert (Hlb : len body = len pre + len rest) by (rewrite Hb; lens).
  destruct (walk_cases total n (len pre) rest) as [[tail Hw]|(Hlt & r & rest1 & Hr & ->)]; [lia|..].
  - exists [], rest, tail. rewrite len_nil, Z.add_0_r. replace (len body - _) with (len pre) by lia.
    destruct fuel as [|fuel]; [lia|]. split_and!; try done. by apply (record_items_end _ _ _ rest).
  - pose proof (len_encode_pos r) as Hp.
    destruct (IH body (pre ++ encode_into r []) rest1 total (n + 1)
      (Lsn.new (Lsn.segment lsn) (Lsn.offset lsn + len (encode_into r []))))
      as (rs & rest' & tail & E & Hrs & -> & Hw); cbn [Lsn.offset];
      [by rewrite <- app_assoc|unfold len in Hp; rewrite length_app in Hf; lia|lia|done|lia|lens|].
    exists (r :: rs), rest', tail. split_and!; [|by constructor|cbn; by rewrite app_assoc|].
    + erewrite record_items_some by (eapply record_next_Ok; done || lens). by rewrite E.
    + rewrite len_cons. by replace (n + (1 + len rs)) with (n + 1 + len rs) by lia.
Qed.

(** The record walk of a validated frame is total and exact. It never
    panics ([Lsn::advance] stays below the segment ceiling) and ends within one
    call per body byte; what it yields is a list of well-formed records whose
    encodings are a prefix of the body, each with the LSN of its own bytes,
    followed by nothing when the body holds exactly the declared records, and by
    the one error [walk_end] names otherwise. *)
Theorem frame_records_exact (max : Z) (f : FrameRef) :
  frame_ok max f ->
  exists rs rest tail,
    record_items (length (frame_body f) + 2) (records f)
    = Ok (Some (map inl (with_lsns (first_lsn f) rs) ++ tail)) /\
    Forall record_ok rs /\ frame_body f = record_bytes rs ++ rest /\
    walk_end (count f) (len rs) (len (frame_body f) - len rest) rest tail.
Proof.
  intros Hok. pose proof (ok_len _ _ Hok) as Hl. pose proof (ok_end _ _ Hok) as He.
  pose proof (ok_count _ _ Hok) as [Hc _]. pose proof (ok_lsn _ _ Hok) as [_ Ho].
  pose proof (layout_padded_len_bounds (layout f) _ (ok_u32 _ _ Hok)) as Hp.
  unfold padded_len, FRAME_TRAILER_LEN, U32_MAX, in_u in *.
  destruct (record_walk (length (frame_body f) + 2) (frame_body f) [] (frame_body f)
    (count f) 0 (first_lsn f)) as (rs & rest & tail & E & H); [done|lia|lia|done|lia|lia|].
  exists rs, rest, tail. split; [|done]. rewrite <- E. unfold records, iter_at.
  by rewrite Z.sub_0_r.
Qed.

(** ** The builder *)

Lemma copy_at_Ok l off w x y z :
  l = x ++ y ++ z -> len x = off -> len y = len w -> copy_at l off w = Ok (x ++ w ++ z).
Proof.
  intros -> <- Hw. unfold copy_at.
  rewrite (proj2 (Z.leb_le 0 _)), (proj2 (Z.leb_le _ (len (x ++ y ++ z)))) by lens.
  cbn [andb]. rewrite <- Hw, <- len_app. unfold len. rewrite !Nat2Z.id.
  by rewrite take_app_length, (app_assoc x y z), drop_app_length.
Qed.

(** A builder that holds the records [rs], unsealed. *)
Record builder_inv (b : FrameBuilder) (rs : list RecordView) : Prop := {
  inv_at : 0 <= at_ b < FRAME_ALIGN;
  inv_buf : exists pre, len pre = at_ b /\ buf b = pre ++ zero_header ++ record_bytes rs;
  inv_count : record_count b = wrap 32 (len rs);
  inv_sealed : sealed b = false }.

Lemma with_capacity_inv a : 0 <= a < FRAME_ALIGN -> builder_inv (with_capacity a) [].
Proof.
  intros Ha. constructor; [done| |done|done]. exists (truncate (resize [] FRAME_ALIGN) a).
  split; [|by rewrite app_nil_r]. cbn [with_capacity at_]. unfold truncate, resize, FRAME_ALIGN in *. cbn [length]. lens.
Qed.

Lemma record_bytes_app rs1 rs2 : record_bytes (rs1 ++ rs2) = record_bytes rs1 ++ record_bytes rs2.
Proof. unfold record_bytes. by rewrite fmap_app, concat_app. Qed.

Lemma record_bytes_1 r : record_bytes [r] = encode_into r [].
Proof. apply app_nil_r. Qed.

Lemma encode_into_app r out : encode_into r out = out ++ encode_into r [].
Proof. by rewrite !encode_into_body. Qed.

Lemma append_inv b rs r :
  builder_inv b rs -> exists b', append b r = Ok b' /\ builder_inv b' (rs ++ [r]).
Proof.
  intros [Ha (pre & Hp & Hb) Hc Hs]. unfold append. rewrite Hs. eexists. split; [done|].
  constructor; cbn [at_ buf record_count sealed]; [done| |rewrite Hc|done].
  - exists pre. split; [done|]. rewrite Hb, encode_into_app, record_bytes_app, record_bytes_1.
    by rewrite <- !app_assoc.
  - rewrite len_app, len_cons, len_nil. unfold wrap. by rewrite Zplus_mod_idemp_l.
Qed.

Fixpoint append_all (b : FrameBuilder) (rs : list RecordView) : panics FrameBuilder :=
  match rs with [] => mret b | r :: rs => b' ← append b r; append_all b' rs end.

Lemma append_all_inv rs : forall b rs0,
  builder_inv b rs0 -> exists b', append_all b rs = Ok b' /\ builder_inv b' (rs0 ++ rs).
Proof.
  induction rs as [|r rs IH]; intros b rs0 Hb; [exists b; by rewrite app_nil_r|].
  destruct (append_inv b rs0 r Hb) as (b1 & E & Hb1). destruct (IH b1 _ Hb1) as (b2 & E2 & Hb2).
  exists b2. cbn [append_all]. rewrite E. split; [done|]. by rewrite <- app_assoc in Hb2.
Qed.

Lemma reset_inv b pre tail :
  0 <= at_ b < FRAME_ALIGN -> len pre = at_ b -> buf b = pre ++ tail -> builder_inv (reset b) [].
Proof.
  intros Ha Hp Hb. constructor; [done| |done|done]. exists pre. split; [done|]. cbn [reset buf].
  rewrite Hb, <- Hp. unfold truncate, len. by rewrite Nat2Z.id, take_app_length, app_nil_r.
Qed.

(** The frame a builder holding [rs] seals into. *)
Definition sealed_ref (rs : list RecordView) (lsn : Lsn.t) (s : FrameStamp) (ly : FrameLayout)
    : FrameRef :=
  {| first_lsn := lsn; count := len rs; stamp := Some s; layout := ly;
     frame_len := FRAME_HEADER_LEN + len (record_bytes rs) + FRAME_TRAILER_LEN;
     frame_body := record_bytes rs |}.

Definition padding (f : FrameRef) : list byte :=
  replicate (Z.to_nat (padded_len f - frame_len f)) x00.

Lemma len_record_bytes rs : len rs <= len (record_bytes rs).
Proof.
  induction rs as [|r rs IH]; [done|]. unfold record_bytes in *. cbn [fmap list_fmap concat].
  pose proof (len_encode_pos r). lens.
Qed.

(** Patching the eight header fields over a zeroed header. *)
Ltac patch off w x y z :=
  rewrite (copy_at_Ok _ off w x y z);
  [|rewrite <- ?app_assoc; reflexivity|lens|lens]; ok_step.

Lemma patch_header {B} (k : list byte -> panics B) rest m a b c d e g h :
  len m = 4 -> len a = 4 -> len b = 4 -> len c = 4 -> len d = 4 -> len e = 4 -> len g = 8 -> len h = 8 ->
  (x ← copy_at (zero_header ++ rest) 0 m; x ← copy_at x 4 a; x ← copy_at x 8 b;
   x ← copy_at x 12 c; x ← copy_at x 16 d; x ← copy_at x 20 e; x ← copy_at x 24 g;
   x ← copy_at x 32 h; k x)
  = k ((m ++ a ++ b ++ c ++ d ++ e ++ g ++ h) ++ rest).
Proof.
  intros. set (z4 := replicate 4 x00). set (z8 := replicate 8 x00).
  assert (L4 : len z4 = 4) by done. assert (L8 : len z8 = 8) by done.
  assert (Hz : zero_header ++ rest = z4 ++ z4 ++ z4 ++ z4 ++ z4 ++ z4 ++ z8 ++ z8 ++ rest) by done.
  clearbody z4 z8. rewrite Hz.
  patch 0 m (@nil byte) z4 (z4 ++ z4 ++ z4 ++ z4 ++ z4 ++ z8 ++ z8 ++ rest).
  patch 4 a m z4 (z4 ++ z4 ++ z4 ++ z4 ++ z8 ++ z8 ++ rest).
  patch 8 b (m ++ a) z4 (z4 ++ z4 ++ z4 ++ z8 ++ z8 ++ rest).
  patch 12 c (m ++ a ++ b) z4 (z4 ++ z4 ++ z8 ++ z8 ++ rest).
  patch 16 d (m ++ a ++ b ++ c) z4 (z4 ++ z8 ++ z8 ++ rest).
  patch 20 e (m ++ a ++ b ++ c ++ d) z4 (z8 ++ z8 ++ rest).
  patch 24 g (m ++ a ++ b ++ c ++ d ++ e) z8 (z8 ++ rest).
  patch 32 h (m ++ a ++ b ++ c ++ d ++ e ++ g) z8 rest.
  by rewrite <- !app_assoc.
Qed.

Lemma resize_grow l n : len l <= n -> resize l n = l ++ replicate (Z.to_nat n - length l) x00.
Proof. intros. unfold resize. rewrite take_ge; [done|]. unfold len in *. lia. Qed.

Lemma finalize_Ok max b rs lsn s ly :
  let f := sealed_ref rs lsn s ly in
  builder_inv b rs -> frame_ok max f ->
  exists pre, len pre = at_ b /\
  finalize b lsn s ly =
  Ok ({| buf := pre ++ frame_bytes f ++ padding f; at_ := at_ b; record_count := len rs;
         sealed := true; sealed_len := padded_len f |}, frame_bytes f ++ padding f).
Proof.
  intros f [Ha (pre & Hp & Hb) Hc Hs] Hok. exists pre. split; [done|].
  pose proof (ok_stamp _ _ Hok) as (He & Hq & Hv & He0 & Hq0 & Hvl). cbn [first_lsn f sealed_ref] in *.
  pose proof (ok_count _ _ Hok) as [Hcnt Hc0]. pose proof (ok_u32 _ _ Hok) as H32.
  pose proof (layout_padded_len_bounds ly _ H32) as Hpad.
  pose proof (len_frame_bytes _ _ Hok) as Hlf. pose proof (len_nonneg rs).
  rewrite wrap_id in Hc by done. unfold finalize. rewrite Hc, Hs.
  rewrite (proj2 (Z.ltb_lt 0 (len rs))), (proj2 (Z.ltb_lt 0 (epoch s))), (proj2 (Z.ltb_lt 0 (seq s))),
    (proj2 (Z.leb_le (covered_lsn s) _)) by (unfold in_u in *; cbn in Hc0; lia).
  cbn [rassert negb]. ok_step.
  assert (Hlen : len zero_header = 40) by done.
  unfold builder_frame_len, checked_add. rewrite (proj2 (Z.ltb_lt _ (2 ^ 32))).
  2:{ rewrite Hb. unfold in_u, f, sealed_ref, FRAME_HEADER_LEN, FRAME_TRAILER_LEN in *.
      cbn [frame_len] in *. lens. }
  ok_step. replace (len (buf b) - at_ b + FRAME_TRAILER_LEN) with (frame_len f).
  2:{ rewrite Hb. cbn [frame_len f sealed_ref]. unfold FRAME_HEADER_LEN. lens. }
  rewrite Hb at 1. rewrite slice_from_app by done. ok_step.
  rewrite patch_header by (autorewrite with len; by destruct ly).
  match goal with |- context [crc32c ?x] => assert (Hcov : x = covered_bytes f) end.
  { unfold covered_bytes, header_bytes, magic_of, stamp_bytes. cbn [stamp f sealed_ref layout count
      first_lsn from_option frame_body]. by rewrite <- !app_assoc. }
  rewrite Hcov. fold (frame_bytes f).
  replace (truncate (buf b) (at_ b)) with pre.
  2:{ rewrite Hb, <- Hp. unfold truncate, len. by rewrite Nat2Z.id, take_app_length. }
  rewrite (proj2 (Z.eqb_eq _ (frame_len f))) by (rewrite len_app, Hlf; lia). cbn [rassert]. ok_step.
  rewrite resize_grow by (rewrite len_app, Hlf; lia).
  replace (Z.to_nat _ - _)%nat with (Z.to_nat (padded_len f - frame_len f)).
  2:{ unfold padded_len, len in *. rewrite length_app. cbn [layout f sealed_ref]. lia. }
  fold (padding f). rewrite <- app_assoc, slice_from_app by done. done.
Qed.

Lemma len_encode_4 r : record_ok r -> 4 <= len (encode_into r []).
Proof.
  intros [[Hns Hf] Hl]. rewrite encode_into_body in *. cbn [app] in *.
  assert (Hb : body_len r = len (body r)) by (apply body_len_body; [done|lens]).
  pose proof (Varint.Varint.len_encode_u64_pos (body_len r)) as H1.
  pose proof (Varint.Varint.len_encode_u64_pos (ns_of r)) as H2.
  assert (in_u 64 (ns_of r)) by (by apply (in_u_mono 32 64)).
  assert (in_u 64 (body_len r)) by (rewrite Hb; apply in_u64_len; lens).
  unfold body in *. specialize (H1 ltac:(done)). specialize (H2 ltac:(done)). lens.
Qed.

(** A frame of [rs] fits at [lsn], under the decoder's cap [max]. *)
Definition placed (max : Z) (rs : list RecordView) (lsn : Lsn.t) (ly : FrameLayout) : Prop :=
  let n := FRAME_HEADER_LEN + len (record_bytes rs) + FRAME_TRAILER_LEN in
  FRAME_HEADER_LEN <= Lsn.offset lsn /\ n <= max /\
  (ly = Aligned -> n <= U32_MAX - (FRAME_ALIGN - 1)) /\
  in_u 32 n /\
  Lsn.offset lsn - FRAME_HEADER_LEN + layout_padded_len ly n <= U32_MAX.

Lemma sealed_ref_ok max rs lsn s ly :
  rs <> [] -> Forall record_ok rs -> Lsn.wf lsn -> stamp_ok lsn s -> placed max rs lsn ly ->
  frame_ok max (sealed_ref rs lsn s ly).
Proof.
  intros Hne Hrs Hw Hs (Hb & Hmax & Hal & H32 & He). pose proof (len_record_bytes rs).
  constructor; try done.
  - cbn [sealed_ref frame_body]. destruct rs as [|r rs]; [done|]. apply Forall_cons_1 in Hrs as [Hr _].
    pose proof (len_encode_4 r Hr). change (r :: rs) with ([r] ++ rs).
    rewrite record_bytes_app, record_bytes_1. lens.
  - cbn [sealed_ref count]. split.
    + unfold in_u, FRAME_HEADER_LEN, FRAME_TRAILER_LEN in *. lens.
    + intros E. by apply Hne, len_0_nil.
Qed.

Lemma record_items_known rs : forall fuel body pre n lsn,
  body = pre ++ record_bytes rs -> Forall record_ok rs -> (length rs + 2 <= fuel)%nat ->
  0 <= n -> in_u 32 (n + len rs) ->
  0 <= Lsn.offset lsn -> Lsn.offset lsn + len (record_bytes rs) < 2 ^ 32 ->
  record_items fuel (iter_at body (len pre) (n + len rs) n lsn)
  = Ok (Some (map inl (with_lsns lsn rs))).
Proof.
  induction rs as [|r rs IH]; intros fuel body pre n lsn Hb Hrs Hf Hn H32 Hl0 Hl.
  - destruct fuel as [|[|fuel]]; [cbn in Hf; lia..|]. change (map inl (with_lsns lsn [])) with (@nil item).
    apply (record_items_end _ _ _ []); [done|lens|done|].
    constructor; [lens|done].
  - apply Forall_cons_1 in Hrs as [Hr Hrs]. destruct fuel as [|fuel]; [cbn in Hf; lia|].
    change (r :: rs) with ([r] ++ rs) in Hb, Hl. rewrite record_bytes_app, record_bytes_1 in Hb, Hl.
    rewrite len_app in Hl. rewrite len_cons in H32.
    pose proof (len_encode_pos r). pose proof (len_nonneg (record_bytes rs)). pose proof (len_nonneg rs).
    erewrite record_items_some; [|eapply record_next_Ok; try done; rewrite ?len_cons; done || lia].
    rewrite len_cons. replace (n + (1 + len rs)) with (n + 1 + len rs) by lia.
    rewrite IH; [done|by rewrite <- app_assoc|done|cbn in Hf; lia|lia|..];
      cbn [Lsn.offset]; try lia. by replace (n + 1 + len rs) with (n + (1 + len rs)) by lia.
Qed.

Lemma records_known max f rs :
  frame_ok max f -> frame_body f = record_bytes rs -> count f = len rs -> Forall record_ok rs ->
  record_items (length (frame_body f) + 2) (records f)
  = Ok (Some (map inl (with_lsns (first_lsn f) rs))).
Proof.
  intros Hok Hb Hc Hrs. pose proof (ok_len _ _ Hok) as Hl. pose proof (ok_end _ _ Hok) as He.
  pose proof (ok_count _ _ Hok) as [H32 _]. pose proof (ok_lsn _ _ Hok) as [_ Ho].
  pose proof (layout_padded_len_bounds (layout f) _ (ok_u32 _ _ Hok)) as Hp.
  unfold padded_len, FRAME_TRAILER_LEN, U32_MAX in *. pose proof (len_record_bytes rs) as Hlr.
  rewrite Hc in H32. rewrite <- (record_items_known rs (length (frame_body f) + 2) (frame_body f) [] 0).
  - unfold records, iter_at. by rewrite Z.sub_0_r, Z.add_0_l, Hc.
  - done.
  - done.
  - rewrite Hb. unfold len in Hlr. lia.
  - lia.
  - by rewrite Z.add_0_l.
  - unfold in_u in *. lia.
  - rewrite <- Hb. unfold in_u in *. lia.
Qed.

Lemma len_padding max f :
  frame_ok max f -> len (frame_bytes f ++ padding f) = padded_len f.
Proof.
  intros Hok. rewrite len_app, (len_frame_bytes _ _ Hok). unfold padding, padded_len.
  pose proof (layout_padded_len_bounds (layout f) _ (ok_u32 _ _ Hok)). rewrite len_replicate. lia.
Qed.

(** C37. What the log step writes is what replay reads. Sealing any non-empty
    batch of well-formed records that fits its segment succeeds, from any
    alignment of the buffer; the sealed bytes (also what [sealed_frame] hands to
    the write) fill the layout's extent, are a multiple of the device page when
    aligned, and, whatever follows them on disk, decode to a frame with that
    LSN, stamp and layout whose records are the batch in order, each at the LSN
    of its own bytes. [reset] returns the builder to its empty state. *)
Theorem sealed_frame_round_trip (a max : Z) (rs : list RecordView) (lsn : Lsn.t)
    (s : FrameStamp) (ly : FrameLayout) (rest : list byte) :
  0 <= a < FRAME_ALIGN -> rs <> [] -> Forall record_ok rs -> Lsn.wf lsn -> stamp_ok lsn s ->
  placed max rs lsn ly ->
  exists b b' bytes f,
    append_all (with_capacity a) rs = Ok b /\ finalize b lsn s ly = Ok (b', bytes) /\
    sealed_frame b' = Ok bytes /\ len bytes = padded_len f /\
    (ly = Aligned -> len bytes mod FRAME_ALIGN = 0) /\
    decode_frame (bytes ++ rest) max = Ok (f, frame_len f) /\
    first_lsn f = lsn /\ stamp f = Some s /\ layout f = ly /\
    record_items (length (frame_body f) + 2) (records f) = Ok (Some (map inl (with_lsns lsn rs))) /\
    builder_inv (reset b') [].
Proof.
  intros Ha Hne Hrs Hw Hs Hpl. pose proof (sealed_ref_ok max rs lsn s ly Hne Hrs Hw Hs Hpl) as Hok.
  destruct (append_all_inv rs _ _ (with_capacity_inv a Ha)) as (b & Eb & Hb). cbn [app] in Hb.
  destruct (finalize_Ok max b rs lsn s ly Hb Hok) as (pre & Hp & Ef).
  pose proof (len_padding _ _ Hok) as Hlen. set (f := sealed_ref rs lsn s ly) in *.
  eexists b, _, _, f. split; [done|]. split; [exact Ef|]. split_and!; try done.
  - unfold sealed_frame. cbn [rassert sealed buf at_ sealed_len]. ok_step.
    rewrite slice_from_app by done. ok_step. rewrite slice_0, take_ge by (unfold len in *; lia). done.
  - intros Hly. rewrite Hlen. unfold padded_len. cbn [f sealed_ref layout]. rewrite Hly.
    apply align_up_frame_bounds; [apply (ok_u32 _ _ Hok)|by apply (ok_aligned _ _ Hok)].
  - rewrite <- app_assoc. by apply decode_frame_complete.
  - by apply (records_known max).
  - apply (reset_inv _ pre (frame_bytes f ++ padding f)); [apply (inv_at _ _ Hb)|done|done].
Qed.

(** ** Damaged frames *)

Lemma field_window a n p (x y q : list byte) :
  length x = length y -> (length p + length x <= a \/ a + n <= length p)%nat ->
  field a n (p ++ x ++ q) = field a n (p ++ y ++ q).
Proof.
  intros Hl [H|H]; [|by rewrite !field_app by lia]. unfold field. f_equal.
  rewrite !app_assoc, !drop_app_ge by (rewrite length_app; lia). rewrite !length_app. by rewrite Hl.
Qed.

(** The part of a window that precedes [rest], when the window does. *)
Lemma window_split (b rest p x q : list byte) :
  b ++ rest = p ++ x ++ q -> len p + len x <= len b ->
  exists q1, b = p ++ x ++ q1 /\ q = q1 ++ rest.
Proof.
  intros E Hl. exists (drop (length (p ++ x)) b).
  assert (length (p ++ x) <= length b)%nat by (rewrite length_app; unfold len in Hl; lia).
  apply (f_equal (fun l => (take (length (p ++ x)) l, drop (length (p ++ x)) l))) in E.
  rewrite take_app_le, drop_app_le, (app_assoc p x q), take_app_length, drop_app_length in E by lia.
  injection E as E1 E2. split; [|done]. rewrite app_assoc. rewrite <- E1 at 1. by rewrite take_drop.
Qed.

Lemma burst_frames max f g rest rest' p x y q :
  frame_ok max f -> frame_ok max g ->
  frame_bytes f ++ rest = p ++ x ++ q -> frame_bytes g ++ rest' = p ++ y ++ q ->
  length x = length y -> (length x <= 4)%nat ->
  (len p + len x <= 4 \/ 8 <= len p) -> len p + len x <= frame_len f -> x = y.
Proof.
  intros Hf Hg Ef Eg Hl H4 Hpos Hin.
  assert (Hlen : frame_len g = frame_len f).
  { destruct (frame_fields f rest) as (_ & F & _), (frame_fields g rest') as (_ & G & _).
    rewrite Ef in F. rewrite Eg in G.
    rewrite <- (le_val_le_bytes_small 4 (frame_len f)), <- F by apply (ok_u32 _ _ Hf).
    rewrite <- (le_val_le_bytes_small 4 (frame_len g)), <- G by apply (ok_u32 _ _ Hg).
    f_equal. symmetry. apply field_window; [done|]. unfold len in *. lia. }
  pose proof (len_frame_bytes _ _ Hf) as Lf. pose proof (len_frame_bytes _ _ Hg) as Lg.
  assert (len x = len y) by (unfold len; lia).
  destruct (window_split _ _ _ _ _ Ef) as (q1 & F1 & Fq); [lia|].
  destruct (window_split _ _ _ _ _ Eg) as (q2 & G1 & Gq); [lia|].
  assert (q1 = q2) as <-.
  { apply (f_equal len) in F1, G1. rewrite Fq in Gq. autorewrite with len in F1, G1.
    apply app_len_inj in Gq; [by destruct Gq|lia]. }
  unfold frame_bytes in F1, G1.
  eapply (burst_window (covered_bytes f) (covered_bytes g)); try exact F1; try exact G1;
    try apply length_le_bytes; try done; apply le_val_le_bytes_small, crc32c_in_u32.
Qed.

(** C38. Damage inside one window of up to four consecutive bytes of a frame,
    header, body or checksum, that leaves the length field alone is never
    accepted: the damaged buffer decodes to an error. *)
Theorem burst_damage_refused (max : Z) (f : FrameRef) (rest p x y q : list byte) :
  frame_ok max f -> frame_bytes f ++ rest = p ++ x ++ q ->
  length x = length y -> (length x <= 4)%nat ->
  (len p + len x <= 4 \/ 8 <= len p) -> len p + len x <= frame_len f -> x <> y ->
  exists e, decode_frame (p ++ y ++ q) max = Err e.
Proof.
  intros Hf Ef Hl H4 Hpos Hin Hne. destruct (decode_frame (p ++ y ++ q) max) as [[g n]|e|] eqn:E.
  - apply decode_frame_sound in E as (Hg & _ & rest' & Eg).
    destruct Hne. by apply (burst_frames max f g rest rest' p x y q).
  - by exists e.
  - by apply decode_frame_not_Panic in E.
Qed.

Lemma zeroes_spec l : zeroes l = true <-> l = replicate (length l) x00.
Proof.
  induction l as [|b l IH]; [done|]. cbn [zeroes forallb length replicate]. split.
  - intros [Hb%Z.eqb_eq Hl]%andb_true_iff. f_equal; [|by apply IH]. by apply u8_inj.
  - intros [= -> E]. by apply IH.
Qed.

Lemma magic_head f : exists t, magic_of f = x49 :: t /\ length t = 3%nat.
Proof. unfold magic_of. destruct (stamp f), (layout f); by eexists. Qed.

Lemma torn_frame max f p q :
  frame_ok max f -> frame_bytes f = p ++ q -> 0 < len p -> q <> [] ->
  exists needed, decode_frame p max = Err (Truncated needed (len p)) /\
                 len p < needed <= frame_len f.
Proof.
  intros Hok E Hp Hq. pose proof (frame_bytes_len f) as (Lc & Lf & _ & _ & Lb).
  pose proof (ok_min _ _ Hok). pose proof (ok_len _ _ Hok) as Hlen. pose proof (ok_max _ _ Hok).
  pose proof (ok_u32 _ _ Hok) as H32. unfold FRAME_TRAILER_LEN in Hlen.
  assert (Hqp : 0 < len q) by (destruct q; [done|lens]).
  assert (Hlp : len p + len q = frame_len f) by (rewrite <- len_app, <- E; apply (len_frame_bytes _ _ Hok)).
  destruct (frame_fields f []) as (F0 & _). rewrite app_nil_r, E in F0.
  destruct (Z.ltb_spec (len p) (header_len f)) as [Hh|Hh].
  2:{ exists (frame_len f). split; [|lia].
      rewrite (decode_frame_past_header max f p q []) by (rewrite ?app_nil_r; done).
      by rewrite (proj2 (Z.ltb_lt _ (frame_len f))) by lia. }
  unfold decode_frame. destruct (Z.ltb_spec (len p) 4).
  { exists 4. split; [|lia]. destruct p as [|b p]; [done|]. destruct (magic_head f) as (t & Ht & _).
    assert (b = x49) as ->.
    { unfold frame_bytes, covered_bytes, header_bytes in E. rewrite Ht in E. by injection E. }
    done. }
  rewrite slice_0 by lia. ok_step. rewrite field_app in F0 by (unfold len in *; lia).
  change (take (Z.to_nat 4) p) with (field 0 4 p). rewrite F0, frame_shape_magic_of.
  2:{ pose proof (ok_stamp _ _ Hok) as Hs. by intros E1; rewrite E1 in Hs. }
  ok_step. cbn [shape_of shape_header_len shape_min_frame_len shape_layout].
  rewrite (proj2 (Z.ltb_lt _ (header_len f))) by done. exists (header_len f). split; [done|lia].
Qed.

(** A torn frame is reported as torn: every proper non-empty prefix of a
    frame decodes to [Truncated], asking for more bytes than it has and no more
    than the frame, never to corruption and never to a frame. *)
Theorem torn_frame_truncated (max : Z) (f : FrameRef) (p q : list byte) :
  frame_ok max f -> frame_bytes f = p ++ q -> 0 < len p -> q <> [] ->
  exists needed, decode_frame p max = Err (Truncated needed (len p)) /\
                 len p < needed <= frame_len f.
Proof. apply torn_frame. Qed.

(** ** The frames of a segment image *)

Definition image_bytes (fs : list FrameRef) : list byte :=
  concat ((fun f => frame_bytes f ++ padding f) <$> fs).

Fixpoint frames_at (pos : Z) (fs : list FrameRef) : list (Z * FrameRef) :=
  match fs with [] => [] | f :: fs => (pos, f) :: frames_at (pos + padded_len f) fs end.

Lemma decode_zeroes l max : zeroes l = true -> decode_frame l max = Err ZeroMagic.
Proof.
  intros Hz. unfold decode_frame. destruct (Z.ltb_spec (len l) 4); [by rewrite Hz|].
  rewrite slice_0 by lia. ok_step. apply zeroes_spec in Hz. rewrite Hz.
  change (Z.to_nat 4) with 4%nat. rewrite take_replicate.
  replace (4 `min` length l)%nat with 4%nat by (unfold len in *; lia). done.
Qed.

Lemma image_bytes_cons f fs : image_bytes (f :: fs) = (frame_bytes f ++ padding f) ++ image_bytes fs.
Proof. done. Qed.

Lemma frame_items_image max tail fs : forall fuel pre,
  Forall (frame_ok max) fs -> zeroes tail = true -> (length fs < fuel)%nat ->
  len (pre ++ image_bytes fs ++ tail) <= U64_MAX ->
  frame_items fuel {| image := pre ++ image_bytes fs ++ tail; pos := len pre;
                      max_frame_len := max; done_ := false |}
  = Ok (Some (map inl (frames_at (len pre) fs))).
Proof.
  induction fs as [|f fs IH]; intros fuel pre Hfs Hz Hf Hu; (destruct fuel as [|fuel]; [lia|]);
    cbn [frame_items]; unfold frame_next; cbn [done_ image pos max_frame_len].
  - cbn [image_bytes fmap list_fmap concat app]. destruct (Z.leb_spec (len (pre ++ tail)) (len pre)); [done|].
    cbn [orb]. rewrite slice_from_app by done. ok_step. by rewrite decode_zeroes.
  - apply Forall_cons_1 in Hfs as [Hok Hfs]. rewrite image_bytes_cons.
    pose proof (len_padding _ _ Hok) as Hlp. pose proof (len_frame_bytes _ _ Hok) as Hlf.
    pose proof (ok_min _ _ Hok). pose proof (ok_len _ _ Hok) as Hl.
    pose proof (frame_bytes_len f) as (_ & _ & _ & _ & Lb). unfold FRAME_TRAILER_LEN in Hl.
    rewrite image_bytes_cons in Hu.
    rewrite (proj2 (Z.leb_gt _ (len pre))) by lens. cbn [orb].
    rewrite slice_from_app by done. ok_step.
    rewrite <- !app_assoc, decode_frame_complete by done. ok_step.
    rewrite Z.min_l by lens. rewrite <- Hlp, <- len_app.
    replace (pre ++ frame_bytes f ++ padding f ++ image_bytes fs ++ tail)
      with ((pre ++ frame_bytes f ++ padding f) ++ image_bytes fs ++ tail) by by rewrite <- !app_assoc.
    rewrite IH; [|done|done|cbn in Hf; lia|by rewrite <- !app_assoc in *]. ok_step.
    cbn [frames_at map fmap option_fmap option_map]. by rewrite len_app, Hlp.
Qed.

(** A segment image written as a sequence of frames, each in its layout's
    extent, and followed by preallocated zeroes, is read back as exactly those
    frames at their offsets; the iterator stops at the zeroes without an error. *)
Theorem segment_image_round_trip (max : Z) (fs : list FrameRef) (tail : list byte) (fuel : nat) :
  Forall (frame_ok max) fs -> zeroes tail = true -> (length fs < fuel)%nat ->
  len (image_bytes fs ++ tail) <= U64_MAX ->
  frame_items fuel (frame_iter (image_bytes fs ++ tail) max) = Ok (Some (map inl (frames_at 0 fs))).
Proof. intros. by apply (frame_items_image max tail fs fuel []). Qed.

(** ** Witnesses *)

Definition example_records : list RecordView :=
  [ExpireAt 7 1700000000000 [x6b; x31]; Delete 7 [x6b]].
Definition example_stamp : FrameStamp := {| epoch := 1; seq := 3; covered_lsn := 0 |}.
Definition example_frame (ly : FrameLayout) : FrameRef :=
  sealed_ref example_records (Lsn.new 1 4136) example_stamp ly.

Lemma example_records_ok : Forall record_ok example_records.
Proof. repeat constructor; cbn; unfold in_u; try lia; by vm_compute. Defined.

Lemma example_placed ly : placed 65536 example_records (Lsn.new 1 4136) ly.
Proof. destruct ly; repeat split; by vm_compute. Defined.

Lemma example_stamp_ok : stamp_ok (Lsn.new 1 4136) example_stamp.
Proof. repeat split; by vm_compute. Defined.

Lemma example_frame_ok ly : frame_ok 65536 (example_frame ly).
Proof.
  apply sealed_ref_ok; [done|apply example_records_ok|by vm_compute|apply example_stamp_ok|].
  apply example_placed.
Defined.

Lemma frame_records_exact_witness :
  exists rs rest tail,
    record_items (length (frame_body (example_frame Packed)) + 2) (records (example_frame Packed))
    = Ok (Some (map inl (with_lsns (Lsn.new 1 4136) rs) ++ tail)) /\
    Forall record_ok rs /\ frame_body (example_frame Packed) = record_bytes rs ++ rest /\
    walk_end 2 (len rs) (len (frame_body (example_frame Packed)) - len rest) rest tail.
Proof. exact (frame_records_exact 65536 (example_frame Packed) (example_frame_ok Packed)). Defined.

Lemma sealed_frame_round_trip_witness :
  exists b b' bytes f,
    append_all (with_capacity 16) example_records = Ok b /\
    finalize b (Lsn.new 1 4136) example_stamp Aligned = Ok (b', bytes) /\
    sealed_frame b' = Ok bytes /\ len bytes = padded_len f /\
    (Aligned = Aligned -> len bytes mod FRAME_ALIGN = 0) /\
    decode_frame (bytes ++ [x00]) 65536 = Ok (f, frame_len f) /\
    first_lsn f = Lsn.new 1 4136 /\ stamp f = Some example_stamp /\ layout f = Aligned /\
    record_items (length (frame_body f) + 2) (records f)
    = Ok (Some (map inl (with_lsns (Lsn.new 1 4136) example_records))) /\
    builder_inv (reset b') [].
Proof.
  apply (sealed_frame_round_trip 16 65536 example_records (Lsn.new 1 4136) example_stamp Aligned [x00]);
    [unfold FRAME_ALIGN; lia|done|apply example_records_ok|by vm_compute|apply example_stamp_ok
    |apply example_placed].
Defined.

Lemma burst_damage_refused_witness :
  exists e, decode_frame (take 9 (frame_bytes (example_frame Packed)) ++ [xff; xfe] ++
                          drop 11 (frame_bytes (example_frame Packed))) 65536 = Err e.
Proof.
  apply (burst_damage_refused 65536 (example_frame Packed) [] _ [x00; x00]);
    [apply example_frame_ok|by vm_compute|done|cbn; lia|right; by vm_compute|by vm_compute|done].
Defined.

Lemma torn_frame_truncated_witness :
  exists needed,
    decode_frame (take 30 (frame_bytes (example_frame Packed))) 65536
    = Err (Truncated needed (len (take 30 (frame_bytes (example_frame Packed))))) /\
    len (take 30 (frame_bytes (example_frame Packed))) < needed <= frame_len (example_frame Packed).
Proof.
  apply (torn_frame_truncated 65536 (example_frame Packed) _ (drop 30 (frame_bytes (example_frame Packed))));
    [apply example_frame_ok|by rewrite take_drop|by vm_compute|by vm_compute].
Defined.

Lemma segment_image_round_trip_witness :
  frame_items 3 (frame_iter (image_bytes [example_frame Aligned; example_frame Packed] ++ [x00; x00]) 65536)
  = Ok (Some (map inl (frames_at 0 [example_frame Aligned; example_frame Packed]))).
Proof.
  apply segment_image_round_trip; [|done|cbn; lia|by vm_compute].
  apply Forall_cons_2; [apply example_frame_ok|]. apply Forall_cons_2; [apply example_frame_ok|done].
Defined.

End Frame.
