(* ===== verification/Reader.v ===== *)
(** * The sequential segment reader ([crates/inf-log/src/reader.rs])

    [SegmentReader] pulls a read-ahead window through the [SegmentFile] seam of
    [fs.rs] and validates one frame at a time. The seam is a type class: what a
    file promises is [SegmentFileLaws], the reader is proved against it, and the
    in-memory file of [fs.rs] discharges it. *)

From S2P Require Import Prelude Varint Lsn LogRecord Crc32c Frame.
Import LogRecord Frame.

Module Reader.

(** [io::Error]: the one kind the log raises itself, and the system's. *)
Inductive IoError := InvalidData | OsError (code : Z).
#[global] Instance IoError_eq_dec : EqDecision IoError.
Proof. solve_decision. Defined.

(** [SegmentFile::read_at f offset buf] with [cap = buf.len()]: the count it
    reports and the bytes it put at the front of [buf]. The file is threaded
    because two identical calls may return different amounts. *)
Class SegmentFile (F : Type) := {
  read_at : F -> Z -> Z -> F * outcome IoError (Z * list byte) }.

(** The documented contract, for the files [file_ok] describes: partial reads are
    legal, 0 means end of file, and what is read is the file's content. *)
Class SegmentFileLaws (F : Type) `{SegmentFile F} := {
  content : F -> list byte;
  file_ok : F -> Prop;
  read_at_content f off cap f' r :
    file_ok f -> read_at f off cap = (f', r) -> content f' = content f /\ file_ok f';
  read_at_Ok f off cap f' n data :
    file_ok f -> 0 <= off -> 0 <= cap -> read_at f off cap = (f', Ok (n, data)) ->
    n = len data /\ n <= cap /\ (exists rest, drop (Z.to_nat off) (content f) = data ++ rest) /\
    (n = 0 -> cap = 0 \/ len (content f) <= off);
  read_at_not_Panic f off cap :
    file_ok f -> 0 <= off -> 0 <= cap -> (read_at f off cap).2 <> Panic }.

(** A file whose reads never fail. *)
Class HealthyFile (F : Type) `{SegmentFileLaws F} := {
  healthy f off cap e : file_ok f -> (read_at f off cap).2 <> Err e }.

(** [advance_read]. *)
Definition advance_read (done n cap : Z) : outcome IoError Z :=
  match checked_add 64 done n with
  | Some next => if next <=? cap then Ok next else Err InvalidData
  | None => Err InvalidData
  end.

Record ReaderConfig := { chunk_bytes : Z; cfg_max_frame_len : Z }.

Inductive ReadEnd := ZeroTail (at_ : Z) | FileEnd (at_ : Z).
#[global] Instance ReadEnd_eq_dec : EqDecision ReadEnd.
Proof. solve_decision. Defined.
Definition end_offset (e : ReadEnd) : Z := match e with ZeroTail a | FileEnd a => a end.

Inductive ReadStep := SFrame (f : FrameRef) | SEnd (e : ReadEnd).

Inductive ReadError :=
  | EIo (segment offset : Z) (source : IoError)
  | EFrame (segment offset : Z) (error : FrameDecodeError)
  | ELsnMismatch (segment offset : Z) (stored expected : Lsn.t)
  | EForeignSegment (segment offset stored_segment : Z).

Inductive ApplyError (E : Type) := ARead (e : ReadError) | AApply (at_ : Lsn.t) (error : E).
Arguments ARead {E}.
Arguments AApply {E}.

Inductive Peek :=
  | PZeroTail
  | PReady (n : Z)
  | PNeedMore (n : Z)
  | PBad (e : FrameDecodeError).

Definition peek (window : list byte) (max_frame_len : Z) : panics Peek :=
  if len window <? 4 then mret (PNeedMore 4)
  else
    magic ← slice window 0 4;
    match frame_shape magic with
    | Panic => Panic
    | Err error => mret (PBad error)
    | Ok None => mret PZeroTail
    | Ok (Some shape) =>
        if len window <? shape_header_len shape then mret (PNeedMore (shape_header_len shape))
        else
          frame_len ← read_le window 4 8;
          if (frame_len <? shape_min_frame_len shape) || (max_frame_len <? frame_len)
          then mret (PBad (BadLength frame_len))
          else if len window <? frame_len then mret (PNeedMore frame_len)
          else mret (PReady frame_len)
    end.

Section Reader.
Context {F : Type} `{SegmentFile F}.

Record SegmentReader := {
  file : F;
  segment : Z;
  cfg : ReaderConfig;
  rbuf : list byte;
  start : Z;
  valid : Z;
  next_offset : Z;
  file_pos : Z;
  hit_eof : bool;
  end_ : option ReadEnd;
  rfailed : bool }.

Definition new (file : F) (segment : Z) (cfg : ReaderConfig) : SegmentReader :=
  {| file := file; segment := segment; cfg := cfg;
     rbuf := replicate (Z.to_nat (Z.max (chunk_bytes cfg) FRAME_HEADER_LEN)) x00;
     start := 0; valid := 0; next_offset := 0; file_pos := 0; hit_eof := false;
     end_ := None; rfailed := false |}.

(** Assignments to the fields of [self]. *)
Definition set_window (r : SegmentReader) buf start valid file_pos : SegmentReader :=
  {| file := file r; segment := segment r; cfg := cfg r; rbuf := buf; start := start;
     valid := valid; next_offset := next_offset r; file_pos := file_pos;
     hit_eof := hit_eof r; end_ := end_ r; rfailed := rfailed r |}.
Definition set_file (r : SegmentReader) file : SegmentReader :=
  {| file := file; segment := segment r; cfg := cfg r; rbuf := rbuf r; start := start r;
     valid := valid r; next_offset := next_offset r; file_pos := file_pos r;
     hit_eof := hit_eof r; end_ := end_ r; rfailed := rfailed r |}.
Definition set_eof (r : SegmentReader) : SegmentReader :=
  {| file := file r; segment := segment r; cfg := cfg r; rbuf := rbuf r; start := start r;
     valid := valid r; next_offset := next_offset r; file_pos := file_pos r;
     hit_eof := true; end_ := end_ r; rfailed := rfailed r |}.
Definition set_failed (r : SegmentReader) : SegmentReader :=
  {| file := file r; segment := segment r; cfg := cfg r; rbuf := rbuf r; start := start r;
     valid := valid r; next_offset := next_offset r; file_pos := file_pos r;
     hit_eof := hit_eof r; end_ := end_ r; rfailed := true |}.
Definition set_end (r : SegmentReader) (e : ReadEnd) : SegmentReader :=
  {| file := file r; segment := segment r; cfg := cfg r; rbuf := rbuf r; start := start r;
     valid := valid r; next_offset := next_offset r; file_pos := file_pos r;
     hit_eof := hit_eof r; end_ := Some e; rfailed := rfailed r |}.
Definition set_next (r : SegmentReader) start next_offset : SegmentReader :=
  {| file := file r; segment := segment r; cfg := cfg r; rbuf := rbuf r; start := start;
     valid := valid r; next_offset := next_offset; file_pos := file_pos r;
     hit_eof := hit_eof r; end_ := end_ r; rfailed := rfailed r |}.

(** [end_at]. *)
Definition end_at {E} (r : SegmentReader) (e : ReadEnd) : SegmentReader * outcome E ReadStep :=
  (set_end r e, Ok (SEnd e)).

(** [data] copied over [l] from index [i]. *)
Definition splice (l : list byte) (i : Z) (data : list byte) : list byte :=
  take (Z.to_nat i) l ++ data ++ drop (Z.to_nat (i + len data)) l.

(** The [while] of [refill]. Every turn reads at least one byte or sets
    [hit_eof], so [target - valid + 2] turns are enough. *)
Fixpoint read_loop (fuel : nat) (target : Z) (r : SegmentReader)
    : SegmentReader * outcome ReadError unit :=
  match fuel with
  | O => (r, Panic)
  | S fuel =>
      if (valid r <? target) && negb (hit_eof r) then
        if len (rbuf r) <? target then (r, Panic)
        else
          let '(file', res) := read_at (file r) (file_pos r) (target - valid r) in
          let r := set_file r file' in
          match res with
          | Panic => (r, Panic)
          | Err source => (r, Err (EIo (segment r) (next_offset r) source))
          | Ok (read, data) =>
              let r := set_window r (splice (rbuf r) (valid r) data) (start r) (valid r) (file_pos r) in
              if read =? 0 then read_loop fuel target (set_eof r)
              else
                match advance_read (valid r) read target with
                | Panic => (r, Panic)
                | Err source => (r, Err (EIo (segment r) (next_offset r) source))
                | Ok valid' =>
                    read_loop fuel target
                      (set_window r (rbuf r) (start r) valid' (file_pos r + read))
                end
          end
      else (r, Ok tt)
  end.

(** [copy_within(start..valid, 0)]. *)
Definition copy_down (l : list byte) (a b : Z) : outcome ReadError (list byte) :=
  w ← slice l a b; mret (splice l 0 w).

(** [refill]; the read-ahead hint at its end has no effect on the bytes. *)
Definition refill (needed : Z) (r : SegmentReader) : SegmentReader * outcome ReadError unit :=
  let r := if valid r <? start r
           then set_window r (rbuf r) (valid r) (valid r) (file_pos r + (start r - valid r))
           else r in
  match copy_down (rbuf r) (start r) (valid r) with
  | Ok buf =>
      let r := set_window r buf 0 (valid r - start r) (file_pos r) in
      let target := Z.max needed (chunk_bytes (cfg r)) in
      let r := if len (rbuf r) <? target
               then set_window r (resize (rbuf r) target) (start r) (valid r) (file_pos r) else r in
      read_loop (Z.to_nat (target - valid r) + 2) target r
  | Err e => (r, Err e)
  | Panic => (r, Panic)
  end.

(** A frame in the window: the address and LSN checks of [next_step]. *)
Definition check_place (segment at_ : Z) (frame : FrameRef) : outcome ReadError Z :=
  match checked_add 32 at_ (header_len frame), checked_add 32 at_ (padded_len frame) with
  | Some first_record_at, Some next_offset =>
      let expected := Lsn.new segment first_record_at in
      let stored := first_lsn frame in
      if negb (bool_decide (stored = expected)) then
        if Lsn.offset stored =? Lsn.offset expected
        then Err (EForeignSegment segment at_ (Lsn.segment stored))
        else Err (ELsnMismatch segment at_ stored expected)
      else Ok next_offset
  | _, _ => Err (EIo segment at_ InvalidData)
  end.

Definition accept (r : SegmentReader) (frame : FrameRef) : SegmentReader * outcome ReadError ReadStep :=
  match check_place (segment r) (next_offset r) frame with
  | Ok next => (set_next r (Z.min (start r + padded_len frame) U64_MAX) next, Ok (SFrame frame))
  | Err e => (set_failed r, Err e)
  | Panic => (r, Panic)
  end.

Definition decode_window (r : SegmentReader) : SegmentReader * outcome ReadError ReadStep :=
  match slice (E:=FrameDecodeError) (rbuf r) (start r) (valid r) with
  | Ok window =>
      match decode_frame window (cfg_max_frame_len (cfg r)) with
      | Ok (frame, _) => accept r frame
      | Err error => (set_failed r, Err (EFrame (segment r) (next_offset r) error))
      | Panic => (r, Panic)
      end
  | _ => (r, Panic)
  end.

(** The loop of [next_step]. A refill leaves at least the bytes asked for, or
    the end of the file, so it turns at most four times: magic, header, frame,
    and the decision. *)
Fixpoint step_loop (fuel : nat) (r : SegmentReader) : SegmentReader * outcome ReadError ReadStep :=
  match fuel with
  | O => (r, Panic)
  | S fuel =>
      match slice (E:=False) (rbuf r) (Z.min (start r) (valid r)) (valid r) with
      | Ok window =>
          match peek window (cfg_max_frame_len (cfg r)) with
          | Ok (PReady _) => decode_window r
          | Ok PZeroTail => end_at r (ZeroTail (next_offset r))
          | Ok (PNeedMore needed) =>
              if hit_eof r then
                match window with
                | [] => end_at r (FileEnd (next_offset r))
                | _ =>
                    if zeroes window then end_at r (ZeroTail (next_offset r))
                    else (set_failed r, Err (EFrame (segment r) (next_offset r)
                                                (Truncated needed (len window))))
                end
              else
                match refill needed r with
                | (r, Ok _) => step_loop fuel r
                | (r, Err e) => (r, Err e)
                | (r, Panic) => (r, Panic)
                end
          | Ok (PBad error) => (set_failed r, Err (EFrame (segment r) (next_offset r) error))
          | _ => (r, Panic)
          end
      | _ => (r, Panic)
      end
  end.

Definition next_step (r : SegmentReader) : SegmentReader * outcome ReadError ReadStep :=
  match end_ r with
  | Some e => (r, Ok (SEnd e))
  | None => step_loop 4 r
  end.

Definition next_frame (r : SegmentReader) : SegmentReader * outcome ReadError (option FrameRef) :=
  if rfailed r then (r, Ok None)
  else
    match next_step r with
    | (r, Ok (SFrame f)) => (r, Ok (Some f))
    | (r, Ok (SEnd _)) => (r, Ok None)
    | (r, Err e) => (r, Err e)
    | (r, Panic) => (r, Panic)
    end.

(** [apply_frames] with a callback that updates a state [S] and may fail. *)
Fixpoint apply_frames {S E} (apply : FrameRef -> S -> S * outcome E unit) (fuel : nat)
    (r : SegmentReader) (s : S) : SegmentReader * S * outcome (ApplyError E) (option ReadEnd) :=
  match fuel with
  | O => (r, s, Ok None)
  | Datatypes.S fuel =>
      match next_step r with
      | (r, Ok (SFrame frame)) =>
          match apply frame s with
          | (s, Ok _) => apply_frames apply fuel r s
          | (s, Err error) => (r, s, Err (AApply (first_lsn frame) error))
          | (s, Panic) => (r, s, Panic)
          end
      | (r, Ok (SEnd e)) => (r, s, Ok (Some e))
      | (r, Err err) => (r, s, Err (ARead err))
      | (r, Panic) => (r, s, Panic)
      end
  end.
End Reader.
Arguments SegmentReader : clear implicits.

(** ** The header peek agrees with the decoder *)

Lemma slice_app_l {E} (p q : list byte) a b :
  b <= len p -> slice (E:=E) (p ++ q) a b = slice p a b.
Proof.
  intros Hb. unfold slice, get_range. pose proof (len_nonneg q).
  rewrite (proj2 (Z.leb_le b (len p))), (proj2 (Z.leb_le b (len (p ++ q)))), !andb_true_r by lens.
  destruct (Z.leb_spec 0 a), (Z.leb_spec a b); try done. cbn [andb expect]. f_equal.
  unfold len in Hb. rewrite drop_app_le by lia. rewrite take_app_le; [done|]. rewrite length_drop. lia.
Qed.

Lemma read_le_app_l {E} (p q : list byte) a b :
  b <= len p -> read_le (E:=E) (p ++ q) a b = read_le p a b.
Proof. intros. unfold read_le. by rewrite slice_app_l. Qed.

Definition shaped (sh : FrameShape) : Prop :=
  20 <= shape_header_len sh <= 40 /\ shape_header_len sh <= shape_min_frame_len sh.

Lemma frame_shape_shaped m sh : frame_shape m = Ok (Some sh) -> shaped sh.
Proof.
  intros (st & l & -> & _ & _)%frame_shape_Ok. unfold shaped, frame_header_len, FRAME_HEADER_LEN, FRAME_HEADER_LEN_V1.
  cbn [shape_header_len shape_min_frame_len]. destruct st; lia.
Qed.

Lemma frame_shape_Err m e : frame_shape m = Err e -> e = BadMagic m.
Proof. unfold frame_shape. repeat case_bool_decide; intros [=]; done. Qed.

Lemma frame_shape_Some_zero sh : frame_shape (replicate 4 x00) <> Ok (Some sh).
Proof. done. Qed.

(** One pass over the header, for a window and for what follows it. *)
Inductive header_view (p : list byte) (max : Z) : Peek -> Prop :=
  | hv_short : len p < 4 -> header_view p max (PNeedMore 4)
  | hv_zero : 4 <= len p -> frame_shape (field 0 4 p) = Ok None -> header_view p max PZeroTail
  | hv_magic e : 4 <= len p -> frame_shape (field 0 4 p) = Err e -> header_view p max (PBad e)
  | hv_header sh : 4 <= len p -> frame_shape (field 0 4 p) = Ok (Some sh) -> shaped sh ->
      len p < shape_header_len sh -> header_view p max (PNeedMore (shape_header_len sh))
  | hv_length sh fl : frame_shape (field 0 4 p) = Ok (Some sh) -> shaped sh ->
      shape_header_len sh <= len p -> fl = le_val (field 4 4 p) ->
      (fl <? shape_min_frame_len sh) || (max <? fl) = true ->
      header_view p max (PBad (BadLength fl))
  | hv_need sh fl : frame_shape (field 0 4 p) = Ok (Some sh) -> shaped sh ->
      shape_header_len sh <= len p -> fl = le_val (field 4 4 p) ->
      (fl <? shape_min_frame_len sh) || (max <? fl) = false -> len p < fl ->
      header_view p max (PNeedMore fl)
  | hv_ready sh fl : frame_shape (field 0 4 p) = Ok (Some sh) -> shaped sh ->
      shape_header_len sh <= len p -> fl = le_val (field 4 4 p) ->
      (fl <? shape_min_frame_len sh) || (max <? fl) = false -> fl <= len p ->
      header_view p max (PReady fl).

Lemma peek_view p max : exists pk, peek p max = Ok pk /\ header_view p max pk.
Proof.
  unfold peek. destruct (Z.ltb_spec (len p) 4); [eexists; split; [done|by constructor]|].
  rewrite slice_0 by lia. ok_step. change (take (Z.to_nat 4) p) with (field 0 4 p).
  destruct (frame_shape (field 0 4 p)) as [[sh|]|e|] eqn:E;
    [|eexists; split; [done|by constructor]|eexists; split; [done|by constructor]
     |by apply frame_shape_not_Panic in E].
  pose proof (frame_shape_shaped _ _ E) as Hsh. pose proof Hsh as [Hs1 Hs2].
  destruct (Z.ltb_spec (len p) (shape_header_len sh)); [eexists; split; [done|by apply hv_header]|].
  rewrite (read_le_at 4 4 _ 4 8) by (done || lia). ok_step.
  destruct (_ || _) eqn:El; [eexists; split; [done|by eapply hv_length]|].
  destruct (Z.ltb_spec (len p) (le_val (field 4 4 p)));
    (eexists; split; [done|]); [by eapply hv_need|by eapply hv_ready].
Qed.

Lemma bind_not_Err {E A B} (c : outcome E A) (f : A -> outcome E B) e :
  c <> Err e -> (forall a, f a <> Err e) -> (c ≫= f) <> Err e.
Proof. destruct c; cbn; naive_solver. Qed.

Lemma slice_not_Err {E A} (l : list A) a b (e : E) : slice l a b <> Err e.
Proof. unfold slice. by destruct (get_range l a b). Qed.
Lemma read_le_not_Err {E} l a b (e : E) : read_le l a b <> Err e.
Proof. apply bind_not_Err; [apply slice_not_Err|done]. Qed.

(** Only the magic word says "never written". *)
Ltac not_zero_magic :=
  repeat first
    [ done | apply read_le_not_Err | apply slice_not_Err
    | match goal with |- refuse_if ?b _ <> _ => by destruct b end
    | match goal with |- ok_or _ ?o <> _ => by destruct o end
    | apply bind_not_Err; [|intros ?] ].

Lemma decode_header_not_ZeroMagic sh fl ext fr cv : decode_header sh fl ext fr cv <> Err ZeroMagic.
Proof.
  unfold decode_header. not_zero_magic. destruct (has_stamp sh); not_zero_magic.
Qed.

Section agree.
Context (p q : list byte) (max : Z).

Lemma field_front a n : Z.of_nat (a + n) <= len p -> field a n (p ++ q) = field a n p.
Proof. intros. apply field_app. unfold len in *. lia. Qed.

(** A decision of the peek is the decoder's, however long the rest is. *)
Lemma view_ZeroTail : header_view p max PZeroTail -> decode_frame (p ++ q) max = Err ZeroMagic.
Proof.
  inversion 1 as [|H4 Hm| | | | |].
  unfold decode_frame. pose proof (len_nonneg q).
  rewrite (proj2 (Z.ltb_ge _ 4)), slice_0 by lens. ok_step.
  change (take (Z.to_nat 4) (p ++ q)) with (field 0 4 (p ++ q)).
  by rewrite field_front, Hm by (cbn; lia).
Qed.

Lemma view_Bad e :
  header_view p max (PBad e) -> decode_frame (p ++ q) max = Err e /\ e <> ZeroMagic.
Proof.
  pose proof (len_nonneg q).
  inversion 1 as [| |? H4 Hm| |sh fl Hm [Hs1 Hs2] Hl -> Hb| |];
    (split; [|done || by rewrite (frame_shape_Err _ _ Hm)]);
    unfold decode_frame; rewrite (proj2 (Z.ltb_ge _ 4)), slice_0 by lens; ok_step;
    change (take (Z.to_nat 4) (p ++ q)) with (field 0 4 (p ++ q));
    rewrite field_front, Hm by (cbn; lia); [done|]; ok_step.
  rewrite (proj2 (Z.ltb_ge _ (shape_header_len sh))) by lens. cbn [refuse_if]. ok_step.
  rewrite read_le_app_l, (read_le_at 4 4 _ 4 8) by (done || lia). ok_step. by rewrite Hb.
Qed.

(** What the decoder does with the bytes of a frame-sized window. *)
Lemma view_Ready n :
  header_view p max (PReady n) ->
  decode_frame (p ++ q) max = decode_frame p max /\ decode_frame p max <> Err ZeroMagic.
Proof.
  inversion 1 as [| | | | | |sh fl Hm [Hs1 Hs2] Hl Hfl Hb Hlf]. subst fl.
  unfold decode_frame. pose proof (len_nonneg q).
  apply orb_false_iff in Hb as [Hb1 Hb2]. apply Z.ltb_ge in Hb1 as Hb1'.
  rewrite (proj2 (Z.ltb_ge (len (p ++ q)) 4)), (proj2 (Z.ltb_ge (len p) 4)), slice_app_l, slice_0 by lens.
  ok_step. change (take (Z.to_nat 4) p) with (field 0 4 p). rewrite Hm. ok_step.
  rewrite (proj2 (Z.ltb_ge (len (p ++ q)) (shape_header_len sh))),
    (proj2 (Z.ltb_ge (len p) (shape_header_len sh))) by lens. cbn [refuse_if]. ok_step.
  rewrite read_le_app_l, (read_le_at 4 4 _ 4 8), <- Hfl by (done || lia). ok_step.
  rewrite Hb1, Hb2. cbn [orb refuse_if]. ok_step.
  destruct (match shape_layout sh with Packed => Some n | _ => _ end) as [ext|]; [|done]. ok_step.
  rewrite (proj2 (Z.ltb_ge (len (p ++ q)) n)), (proj2 (Z.ltb_ge (len p) n)), slice_app_l by lens.
  cbn [refuse_if]. ok_step. split; [done|]. not_zero_magic. destruct a0.
  apply bind_not_Err; [by destruct (negb _)|intros; apply decode_header_not_ZeroMagic].
Qed.

Lemma view_Ready_len n f k :
  header_view p max (PReady n) -> decode_frame p max = Ok (f, k) -> k = n.
Proof.
  inversion 1 as [| | | | | |sh fl Hm [Hs1 Hs2] Hl Hfl Hb Hlf]. subst fl.
  intros (Hok & -> & rest & ->)%decode_frame_sound. destruct (frame_fields f rest) as (_ & F4 & _).
  rewrite F4, le_val_le_bytes_small in Hfl by apply (ok_u32 _ _ Hok). done.
Qed.

(** A window the peek wants more of is one the decoder finds truncated. *)
Lemma view_NeedMore n :
  max <= U32_MAX - (FRAME_ALIGN - 1) -> header_view p max (PNeedMore n) ->
  len p < n /\
  decode_frame p max = if zeroes p then Err ZeroMagic else Err (Truncated n (len p)).
Proof.
  intros Hmax.
  assert (Hz : forall sh, 4 <= len p -> frame_shape (field 0 4 p) = Ok (Some sh) -> zeroes p = false).
  { intros sh H4 Hm. apply not_true_iff_false. intros Hz%zeroes_spec. rewrite Hz in Hm.
    unfold field in Hm. rewrite drop_0, take_replicate in Hm.
    replace (4 `min` length p)%nat with 4%nat in Hm by (unfold len in *; lia). done. }
  inversion 1 as [H4| | |sh H4 Hm [Hs1 Hs2] Hl| |sh fl Hm [Hs1 Hs2] Hl Hfl Hb Hlf|].
  { split; [done|]. unfold decode_frame. rewrite (proj2 (Z.ltb_lt _ 4)) by done. by destruct (zeroes p). }
  all: split; [done|]; rewrite (Hz sh) by (done || lia); unfold decode_frame;
    rewrite (proj2 (Z.ltb_ge _ 4)), slice_0 by lia; ok_step;
    change (take (Z.to_nat 4) p) with (field 0 4 p); rewrite Hm; ok_step.
  - by rewrite (proj2 (Z.ltb_lt _ _)) by done.
  - rewrite (proj2 (Z.ltb_ge _ (shape_header_len sh))) by lia. cbn [refuse_if]. ok_step.
    rewrite (read_le_at 4 4 _ 4 8), <- Hfl by (done || lia). ok_step. rewrite Hb. cbn [refuse_if]. ok_step.
    assert (Hu : in_u 32 n) by (rewrite Hfl; apply field_u32; unfold len in *; lia).
    apply orb_false_iff in Hb as [_ Hb%Z.ltb_ge]. rewrite extent_spec by done.
    assert ((match shape_layout sh with Packed => true
      | Aligned => n <=? U32_MAX - (FRAME_ALIGN - 1) end) = true) as ->
      by (destruct (shape_layout sh); [done|apply Z.leb_le; lia]).
    ok_step. by rewrite (proj2 (Z.ltb_lt _ _)) by done.
Qed.
End agree.

(** How far a window is from a decision: the number of refills left. *)
Definition rank (max : Z) (p : list byte) : nat :=
  if len p <? 4 then 3
  else match frame_shape (field 0 4 p) with
       | Ok (Some sh) =>
           if len p <? shape_header_len sh then 2
           else let fl := le_val (field 4 4 p) in
                if (fl <? shape_min_frame_len sh) || (max <? fl) then 0
                else if len p <? fl then 1 else 0
       | _ => 0
       end.

Lemma rank_grows max p x n :
  header_view p max (PNeedMore n) -> n <= len (p ++ x) ->
  (rank max (p ++ x) < rank max p)%nat /\ 4 <= n <= Z.max 40 max.
Proof.
  assert (Hf : forall a k, Z.of_nat (a + k) <= len p -> field a k (p ++ x) = field a k p).
  { intros. by apply field_front. }
  inversion 1 as [H4| | |sh H4 Hm [Hs1 Hs2] Hl| |sh fl Hm [Hs1 Hs2] Hl Hfl Hb Hlf|];
    intros Hn; unfold rank.
  - rewrite (proj2 (Z.ltb_lt (len p) 4)), (proj2 (Z.ltb_ge _ 4)) by lia. split; [|lia].
    destruct (frame_shape _) as [[sh|]| |]; try lia. destruct (_ <? _); [lia|].
    destruct (_ || _); [lia|]. destruct (_ <? _); lia.
  - rewrite (proj2 (Z.ltb_ge (len p) 4)), (proj2 (Z.ltb_ge (len (p ++ x)) 4)), Hf, Hm by (cbn; lia).
    rewrite (proj2 (Z.ltb_lt (len p) _)), (proj2 (Z.ltb_ge (len (p ++ x)) _)) by lia.
    split; [|lia]. destruct (_ || _); [lia|]. destruct (_ <? _); lia.
  - rewrite (proj2 (Z.ltb_ge (len p) 4)), (proj2 (Z.ltb_ge (len (p ++ x)) 4)), !Hf, Hm, <- Hfl by (cbn; lens).
    rewrite (proj2 (Z.ltb_ge (len p) (shape_header_len sh))),
      (proj2 (Z.ltb_ge (len (p ++ x)) (shape_header_len sh))), Hb by lens.
    rewrite (proj2 (Z.ltb_lt (len p) n)), (proj2 (Z.ltb_ge (len (p ++ x)) n)) by lia.
    apply orb_false_iff in Hb as [Hb1%Z.ltb_ge Hb2%Z.ltb_ge]. lia.
Qed.

Lemma rank_decided max p pk :
  header_view p max pk -> (rank max p > 0)%nat <-> exists n, pk = PNeedMore n.
Proof.
  assert (Hy : forall n, (S n > 0)%nat) by lia. assert (Hn : ~ (0 > 0)%nat) by lia.
  unfold rank. destruct 1 as [H4|H4 Hm|e H4 Hm|sh H4 Hm [Hs1 Hs2] Hl|sh fl Hm [Hs1 Hs2] Hl Hfl Hb
    |sh fl Hm [Hs1 Hs2] Hl Hfl Hb Hlf|sh fl Hm [Hs1 Hs2] Hl Hfl Hb Hlf];
    try rewrite (proj2 (Z.ltb_lt (len p) 4)) by done;
    try rewrite (proj2 (Z.ltb_ge (len p) 4)) by lia; rewrite ?Hm; try naive_solver.
  - rewrite (proj2 (Z.ltb_lt _ _)) by done. naive_solver.
  - rewrite (proj2 (Z.ltb_ge (len p) (shape_header_len sh))), <- Hfl, Hb by lia. naive_solver.
  - rewrite (proj2 (Z.ltb_ge (len p) (shape_header_len sh))), <- Hfl, Hb by lia.
    rewrite (proj2 (Z.ltb_lt _ _)) by done. naive_solver.
  - rewrite (proj2 (Z.ltb_ge (len p) (shape_header_len sh))), <- Hfl, Hb by lia.
    rewrite (proj2 (Z.ltb_ge _ _)) by done. naive_solver.
Qed.

(** ** The window is a piece of the file *)

Section laws.
Context {F : Type} `{Laws : SegmentFileLaws F}.
Implicit Types r : SegmentReader F.

Definition window r : list byte :=
  let a := Z.min (start r) (valid r) in
  take (Z.to_nat (valid r - a)) (drop (Z.to_nat a) (rbuf r)).

Definition cfg_ok (c : ReaderConfig) : Prop :=
  0 <= chunk_bytes c < 2 ^ 63 /\ cfg_max_frame_len c <= U32_MAX - (FRAME_ALIGN - 1).

Definition cap (c : ReaderConfig) : Z :=
  Z.max (chunk_bytes c) (Z.max FRAME_HEADER_LEN (cfg_max_frame_len c)).

Record reader_inv (img : list byte) r : Prop := {
  inv_img : content (file r) = img /\ file_ok (file r);
  inv_cfg : cfg_ok (cfg r);
  inv_start : 0 <= start r;
  inv_valid : 0 <= valid r <= len (rbuf r);
  inv_cap : len (rbuf r) <= cap (cfg r);
  inv_next : 0 <= next_offset r;
  inv_pos : 0 <= file_pos r /\ file_pos r + start r = next_offset r + valid r;
  inv_window : exists rest, drop (Z.to_nat (next_offset r)) img = window r ++ rest;
  inv_eof : hit_eof r = true -> len img <= file_pos r }.

(** What a refill leaves alone. *)
Definition same_place r r' : Prop :=
  segment r' = segment r /\ cfg r' = cfg r /\ next_offset r' = next_offset r /\
  end_ r' = end_ r /\ rfailed r' = rfailed r.

Lemma len_window img r : reader_inv img r -> len (window r) = Z.max 0 (valid r - start r).
Proof.
  intros []. unfold window. rewrite len_take, len_drop. lia.
Qed.

Lemma window_slice {E} img r :
  reader_inv img r -> slice (E:=E) (rbuf r) (Z.min (start r) (valid r)) (valid r) = Ok (window r).
Proof.
  intros []. unfold slice, get_range.
  rewrite (proj2 (Z.leb_le 0 _)), (proj2 (Z.leb_le _ (valid r))), (proj2 (Z.leb_le _ (len _))) by lia.
  done.
Qed.

(** At the end of the file the window is the rest of the image. *)
Lemma window_at_eof img r :
  reader_inv img r -> hit_eof r = true -> drop (Z.to_nat (next_offset r)) img = window r.
Proof.
  intros Hi Heof. pose proof (len_window _ _ Hi) as Hlw. destruct Hi as [_ _ ? ? _ ? [? ?] [rest Hr] He].
  specialize (He Heof). rewrite Hr. assert (rest = []) as ->; [|apply app_nil_r].
  apply len_0_nil. apply (f_equal len) in Hr. rewrite len_drop, len_app in Hr.
  pose proof (len_nonneg rest). lia.
Qed.

Lemma splice_window (l data : list byte) v :
  0 <= v -> v + len data <= len l ->
  take (Z.to_nat (v + len data)) (splice l v data) = take (Z.to_nat v) l ++ data /\
  len (splice l v data) = len l.
Proof.
  intros Hv Hl. unfold splice. split; [|lens]. rewrite app_assoc, take_app_le.
  - apply take_ge. rewrite length_app, length_take. unfold len in *. lia.
  - rewrite length_app, length_take. unfold len in *. lia.
Qed.

(** A read that failed. *)
Definition read_failed (e : IoError) : Prop := exists (f : F) off cap, file_ok f /\ (read_at f off cap).2 = Err e.

(** The result of a refill. *)
Definition refilled (img : list byte) (target : Z) r (res : SegmentReader F * outcome ReadError unit) : Prop :=
  match res with
  | (r', Ok _) => reader_inv img r' /\ same_place r r' /\ start r' = 0 /\
                  (hit_eof r' = true \/ target <= valid r')
  | (_, Err e) => exists io, e = EIo (segment r) (next_offset r) io /\ read_failed io
  | (_, Panic) => False
  end.

Lemma same_place_trans r1 r2 r3 : same_place r1 r2 -> same_place r2 r3 -> same_place r1 r3.
Proof. unfold same_place. naive_solver congruence. Qed.

(** Reading [data] behind a window that starts at index 0. *)
Lemma inv_read img r file' data :
  reader_inv img r -> start r = 0 -> content file' = img /\ file_ok file' ->
  valid r + len data <= len (rbuf r) ->
  (exists rest, drop (Z.to_nat (file_pos r)) img = data ++ rest) ->
  reader_inv img
    (set_window (set_window (set_file r file') (splice (rbuf r) (valid r) data) (start r) (valid r) (file_pos r))
       (splice (rbuf r) (valid r) data) (start r) (valid r + len data) (file_pos r + len data)).
Proof.
  intros Hi Hs Hf Hl [rest' Hd]. pose proof (len_nonneg data).
  pose proof (len_window _ _ Hi) as Hlw. destruct Hi as [Hc Hcfg Hst Hv Hcap Hn [Hp Hpos] [rest Hw] He].
  destruct (splice_window (rbuf r) data (valid r)) as [Ht Hls]; [lia|lia|].
  constructor; cbn [set_window set_file file cfg rbuf start valid next_offset file_pos hit_eof]; try done; try lia.
  - exists rest'. unfold window; cbn [set_window set_file start valid rbuf].
    rewrite Hs, Z.min_l, Z.sub_0_r, drop_0, Ht by lia. rewrite <- app_assoc, <- Hd.
    unfold window in Hw, Hlw. rewrite Hs, Z.min_l, Z.sub_0_r, drop_0 in Hw, Hlw by lia. rewrite Hw.
    f_equal. replace (Z.to_nat (file_pos r)) with (Z.to_nat (next_offset r) + Z.to_nat (valid r))%nat by lia.
    rewrite <- drop_drop, Hw. rewrite drop_app_length'; [done|]. unfold len in Hlw. lia.
  - intros Hh. specialize (He Hh). lia.
Qed.

Lemma inv_eof_read img r file' data :
  reader_inv img r -> start r = 0 -> content file' = img /\ file_ok file' -> len data = 0 ->
  len img <= file_pos r ->
  reader_inv img (set_eof (set_window (set_file r file') (splice (rbuf r) (valid r) data) (start r) (valid r) (file_pos r))).
Proof.
  intros Hi Hs Hf Hl Hle. apply len_0_nil in Hl as ->.
  assert (splice (rbuf r) (valid r) [] = rbuf r) as ->.
  { unfold splice. rewrite len_nil, Z.add_0_r. apply take_drop. }
  destruct Hi. by constructor.
Qed.

Lemma read_loop_ok img target r0 fuel : forall r,
  reader_inv img r -> same_place r0 r -> start r = 0 ->
  target <= len (rbuf r) -> target < 2 ^ 64 ->
  (1 <= fuel)%nat -> (hit_eof r = false -> Z.to_nat (target - valid r) + 2 <= fuel)%nat ->
  refilled img target r0 (read_loop fuel target r).
Proof.
  induction fuel as [|fuel IH]; intros r Hi Hsame Hs Ht H64 Hf1 Hf; [lia|]. cbn [read_loop].
  destruct ((valid r <? target) && negb (hit_eof r)) eqn:Ego.
  2:{ cbn. split_and!; try done. destruct (hit_eof r); [by left|right].
      rewrite andb_true_r in Ego. by apply Z.ltb_ge. }
  apply andb_true_iff in Ego as [Hlt%Z.ltb_lt Heof%negb_true_iff].
  rewrite (proj2 (Z.ltb_ge _ target)) by done.
  destruct (read_at (file r) (file_pos r) (target - valid r)) as [file' res] eqn:Er.
  pose proof (inv_img _ _ Hi) as [Hc Hfo]. pose proof (inv_pos _ _ Hi) as [Hp0 _]. pose proof (inv_valid _ _ Hi) as Hv.
  pose proof (read_at_content _ _ _ _ _ Hfo Er) as Hc'. rewrite Hc in Hc'.
  destruct res as [[n data]|e|].
  - apply read_at_Ok in Er as (-> & Hn & Hd & Hz); [|done|lia..]. rewrite Hc in Hd, Hz.
    cbn [set_window set_file valid]. pose proof (len_nonneg data).
    destruct (splice_window (rbuf r) data (valid r)) as [_ Hls]; [lia|lia|].
    specialize (Hf Heof). destruct (Z.eqb_spec (len data) 0) as [E0|E0].
    + apply IH; try done; [|cbn [set_eof set_window set_file rbuf]; lia|lia].
      apply (inv_eof_read img r file' data); try done. destruct (Hz E0); lia.
    + unfold advance_read, checked_add.
      rewrite (proj2 (Z.ltb_lt _ (2 ^ 64))), (proj2 (Z.leb_le _ target)) by lia.
      apply IH; [apply (inv_read img r file' data); try done; lia|done|done|cbn [set_window set_file rbuf]; lia|done|lia|].
      intros Hh. cbn [set_window valid] in *. lia.
  - cbn. destruct Hsame as (-> & _ & -> & _). exists e. split; [done|].
    exists (file r), (file_pos r), (target - valid r). by rewrite Er.
  - pose proof (read_at_not_Panic (file r) (file_pos r) (target - valid r) Hfo) as Hnp.
    rewrite Er in Hnp. by destruct Hnp; [lia..|].
Qed.

(** The three preparations of [refill] keep the invariant. *)
Lemma inv_skip img r :
  reader_inv img r -> valid r < start r ->
  reader_inv img (set_window r (rbuf r) (valid r) (valid r) (file_pos r + (start r - valid r))).
Proof.
  intros Hi Hlt. destruct Hi as [Hc Hcfg Hst Hv Hcap Hn [Hp Hpos] [rest Hw] He].
  constructor; cbn [set_window file cfg rbuf start valid next_offset file_pos hit_eof]; try done; try lia.
  - exists (drop (Z.to_nat (next_offset r)) img). unfold window; cbn [set_window start valid rbuf].
    by rewrite Z.min_id, Z.sub_diag.
  - intros Hh. specialize (He Hh). lia.
Qed.

Lemma inv_compact img r :
  reader_inv img r -> start r <= valid r ->
  slice (E:=ReadError) (rbuf r) (start r) (valid r) = Ok (window r) /\
  reader_inv img (set_window r (splice (rbuf r) 0 (window r)) 0 (valid r - start r) (file_pos r)).
Proof.
  intros Hi Hle. pose proof (window_slice (E:=ReadError) _ _ Hi) as Hsl. rewrite Z.min_l in Hsl by done.
  split; [done|]. pose proof (len_window _ _ Hi) as Hlw.
  destruct Hi as [Hc Hcfg Hst Hv Hcap Hn [Hp Hpos] [rest Hw] He].
  destruct (splice_window (rbuf r) (window r) 0) as [Ht Hls]; [lia|lia|]. rewrite Z.add_0_l, take_0 in Ht.
  constructor; cbn [set_window file cfg rbuf start valid next_offset file_pos hit_eof]; try done; try lia.
  exists rest. rewrite Hw. f_equal. unfold window at 2; cbn [set_window start valid rbuf].
  rewrite Z.min_l, Z.sub_0_r, drop_0 by lia. rewrite <- Ht at 1. do 2 f_equal. lia.
Qed.

Lemma inv_resize img r n :
  reader_inv img r -> len (rbuf r) <= n <= cap (cfg r) ->
  reader_inv img (set_window r (resize (rbuf r) n) (start r) (valid r) (file_pos r)).
Proof.
  intros Hi Hn. destruct Hi as [Hc Hcfg Hst Hv Hcap Hnx Hpos [rest Hw] He].
  assert (Hlr : len (resize (rbuf r) n) = n).
  { rewrite resize_grow by lia. rewrite len_app, len_replicate. unfold len in *. lia. }
  constructor; cbn [set_window file cfg rbuf start valid next_offset file_pos hit_eof]; try done; try lia.
  exists rest. rewrite Hw. f_equal. unfold window; cbn [set_window start valid rbuf].
  rewrite resize_grow by lia. rewrite drop_app_le, take_app_le; [done|..];
    rewrite ?length_drop; unfold len in *; lia.
Qed.

Lemma refill_ok img r needed :
  reader_inv img r -> 0 <= needed <= Z.max 40 (cfg_max_frame_len (cfg r)) ->
  refilled img needed r (refill needed r).
Proof.
  intros Hi Hneed. unfold refill.
  set (r1 := if valid r <? start r then _ else r).
  assert (H1 : reader_inv img r1 /\ start r1 <= valid r1 /\ same_place r r1).
  { unfold r1. destruct (Z.ltb_spec (valid r) (start r)); [|done].
    split; [by apply inv_skip|]. by cbn. }
  clearbody r1. destruct H1 as (Hi1 & Hle & Hs1). destruct (inv_compact _ _ Hi1 Hle) as [Hsl Hi2].
  unfold copy_down. rewrite Hsl. ok_step.
  set (r2 := set_window r1 _ 0 _ _) in *. set (target := Z.max needed _).
  assert (Hcfg : cfg r2 = cfg r) by apply Hs1. unfold target. rewrite Hcfg.
  pose proof (inv_cfg _ _ Hi) as [Hch Hmx].
  assert (Ht : Z.max needed (chunk_bytes (cfg r)) <= cap (cfg r) /\ Z.max needed (chunk_bytes (cfg r)) < 2 ^ 64).
  { unfold cap, FRAME_HEADER_LEN, U32_MAX, FRAME_ALIGN in *. lia. }
  destruct Ht as [Htc Ht64]. set (t := Z.max needed (chunk_bytes (cfg r))) in *.
  set (r3 := if len (rbuf r2) <? t then _ else r2).
  assert (H3 : reader_inv img r3 /\ same_place r r3 /\ start r3 = 0 /\ t <= len (rbuf r3) /\ valid r3 = valid r2).
  { unfold r3. destruct (Z.ltb_spec (len (rbuf r2)) t); [|by split_and!].
    split_and!; try done; [apply inv_resize; [done|rewrite Hcfg; lia]|].
    cbn [set_window rbuf]. rewrite resize_grow by lia. rewrite len_app, len_replicate. unfold len in *. lia. }
  clearbody r3. destruct H3 as (Hi3 & Hs3 & H0 & Ht3 & Hv3).
  pose proof (read_loop_ok img t r (Z.to_nat (t - valid r3) + 2) r3 Hi3 Hs3 H0 Ht3 Ht64
    ltac:(lia) ltac:(lia)) as Hr.
  destruct (read_loop _ _ r3) as [r' [[]|e|]]; [|done|done]. destruct Hr as (? & ? & ? & Hor).
  split_and!; try done. destruct Hor; [by left|right; lia].
Qed.

(** ** One step against the whole image

    [image_step] is what a reader holding the whole rest [w] of the segment
    would do at offset [at_]. *)
Definition image_step (segment max at_ : Z) (w : list byte) : outcome ReadError ReadStep :=
  match decode_frame w max with
  | Ok (f, _) => _ ← check_place segment at_ f; mret (SFrame f)
  | Err ZeroMagic => Ok (SEnd (match w with [] => FileEnd at_ | _ => ZeroTail at_ end))
  | Err e => Err (EFrame segment at_ e)
  | Panic => Panic
  end.

Definition step_at (img : list byte) r : outcome ReadError ReadStep :=
  image_step (segment r) (cfg_max_frame_len (cfg r)) (next_offset r)
    (drop (Z.to_nat (next_offset r)) img).

(** The state a step leaves. *)
Definition stepped (img : list byte) r (r' : SegmentReader F) (res : outcome ReadError ReadStep) : Prop :=
  match res with
  | Ok (SFrame f) =>
      reader_inv img r' /\ segment r' = segment r /\ cfg r' = cfg r /\ end_ r' = end_ r /\
      next_offset r' = next_offset r + padded_len f
  | Ok (SEnd e) => end_ r' = Some e
  | _ => rfailed r' = true
  end.

Definition good_step (img : list byte) r (x : SegmentReader F * outcome ReadError ReadStep) : Prop :=
  (exists io, x.2 = Err (EIo (segment r) (next_offset r) io) /\ read_failed io) \/
  (x.2 = step_at img r /\ stepped img r x.1 x.2).

Lemma check_place_Ok seg at_ f next :
  check_place seg at_ f = Ok next ->
  next = at_ + padded_len f /\ next < 2 ^ 32 /\ first_lsn f = Lsn.new seg (at_ + header_len f).
Proof.
  unfold check_place, checked_add.
  destruct (Z.ltb_spec (at_ + header_len f) (2 ^ 32)); [|done].
  destruct (Z.ltb_spec (at_ + padded_len f) (2 ^ 32)); [|done].
  case_bool_decide as Hd; cbn [negb]; [by intros [= <-]|]. by destruct (_ =? _).
Qed.

Lemma check_place_not_Panic seg at_ f : check_place seg at_ f <> Panic.
Proof.
  unfold check_place. destruct (checked_add _ _ _); [|done]. destruct (checked_add _ _ _); [|done].
  destruct (negb _); [by destruct (_ =? _)|done].
Qed.

(** The cursor moves over a frame; the window may be left behind. *)
Lemma inv_accept img r f next :
  reader_inv img r -> start r <= valid r -> 0 <= padded_len f < 2 ^ 32 ->
  next = next_offset r + padded_len f ->
  reader_inv img (set_next r (Z.min (start r + padded_len f) U64_MAX) next).
Proof.
  intros Hi Hle Hp ->. pose proof (len_window _ _ Hi) as Hlw.
  destruct Hi as [Hc Hcfg Hst Hv Hcap Hn [Hp0 Hpos] [rest Hw] He].
  assert (start r + padded_len f <= U64_MAX).
  { destruct Hcfg. unfold cap, FRAME_HEADER_LEN, U32_MAX, U64_MAX, FRAME_ALIGN in *. lia. }
  rewrite Z.min_l by done.
  constructor; cbn [set_next file cfg rbuf start valid next_offset file_pos hit_eof]; try done; try lia.
  unfold window; cbn [set_next start valid rbuf].
  unfold window in Hw, Hlw. rewrite Z.min_l in Hw, Hlw by done.
  rewrite Z2Nat.inj_add, <- drop_drop, Hw by lia. set (w := take _ _) in *.
  destruct (Z.le_ge_cases (start r + padded_len f) (valid r)).
  - exists rest. rewrite Z.min_l by done. rewrite drop_app_le by (unfold len in Hlw; lia). f_equal.
    unfold w. rewrite skipn_firstn_comm, drop_drop. f_equal; [lia|f_equal; lia].
  - exists (drop (Z.to_nat (padded_len f)) (w ++ rest)). rewrite Z.min_r, Z.sub_diag by done. done.
Qed.

Lemma decode_window_ok img r q n :
  reader_inv img r -> drop (Z.to_nat (next_offset r)) img = window r ++ q ->
  header_view (window r) (cfg_max_frame_len (cfg r)) (PReady n) ->
  good_step img r (decode_window r).
Proof.
  intros Hi Hq Hv. right. pose proof (len_window _ _ Hi) as Hlw.
  assert (Hle : start r <= valid r).
  { inversion Hv as [| | | | | |sh fl Hm [Hs1 Hs2] Hl]. lia. }
  pose proof (window_slice (E:=FrameDecodeError) _ _ Hi) as Hsl. rewrite Z.min_l in Hsl by done.
  destruct (view_Ready (window r) q _ n Hv) as [Eq Hnz].
  unfold step_at, image_step. rewrite Hq, Eq. unfold decode_window. rewrite Hsl.
  destruct (decode_frame (window r) _) as [[f k]|e|] eqn:Ed.
  - apply decode_frame_sound in Ed as (Hok & _ & _).
    pose proof (layout_padded_len_bounds (layout f) _ (ok_u32 _ _ Hok)) as Hp. fold (padded_len f) in Hp.
    pose proof (ok_u32 _ _ Hok) as [Hu _].
    unfold accept. destruct (check_place _ _ f) as [next|e|] eqn:Ec; [|done|by apply check_place_not_Panic in Ec].
    apply check_place_Ok in Ec as (-> & _ & _). split; [done|]. cbn [fst snd stepped].
    split_and!; try done. apply inv_accept; try done. lia.
  - by destruct e.
  - by apply decode_frame_not_Panic in Ed.
Qed.

Lemma good_step_same img r r' x : same_place r r' -> good_step img r' x -> good_step img r x.
Proof.
  unfold good_step, step_at, stepped. intros (-> & -> & -> & -> & _) [?|[E Hs]]; [by left|by right].
Qed.

(** A refill that delivers what the peek asked for brings the decision closer. *)
Lemma need_grows img r n :
  reader_inv img r -> header_view (window r) (cfg_max_frame_len (cfg r)) (PNeedMore n) ->
  let rk r := rank (cfg_max_frame_len (cfg r)) (window r) in
  4 <= n <= Z.max 40 (cfg_max_frame_len (cfg r)) /\ (1 <= rk r)%nat /\
  forall r', reader_inv img r' -> next_offset r' = next_offset r -> start r' = 0 -> n <= valid r' ->
    (rank (cfg_max_frame_len (cfg r)) (window r') < rk r)%nat.
Proof.
  intros Hi Hv. cbn. set (max := cfg_max_frame_len (cfg r)) in *.
  split; [|split].
  - apply (rank_grows max (window r) (replicate (Z.to_nat n) x00)); [done|].
    rewrite len_app, len_replicate. pose proof (len_nonneg (window r)). lia.
  - apply (rank_decided _ _ _ Hv). eauto.
  - intros r' Hi' Hnx Hs0 Hv'. pose proof (len_window _ _ Hi') as Hl'.
    destruct (inv_window _ _ Hi) as [q Hq], (inv_window _ _ Hi') as [q' Hq'].
    rewrite Hnx, Hq in Hq'.
    assert (Hlt : len (window r) < n).
    { inversion Hv; lia. }
    assert (exists x, window r' = window r ++ x) as [x Hx].
    { exists (drop (length (window r)) (window r')).
      apply (f_equal (take (length (window r)))) in Hq'.
      rewrite take_app_length, take_app_le in Hq' by (unfold len in *; lia).
      rewrite Hq' at 1. by rewrite take_drop. }
    rewrite Hx. apply (rank_grows max (window r) x n); [done|]. rewrite <- Hx. lia.
Qed.

Lemma step_loop_ok img fuel : forall r,
  reader_inv img r -> (1 <= fuel)%nat ->
  (hit_eof r = false -> rank (cfg_max_frame_len (cfg r)) (window r) < fuel)%nat ->
  good_step img r (step_loop fuel r).
Proof.
  induction fuel as [|fuel IH]; intros r Hi Hf1 Hrk; [lia|]. cbn [step_loop].
  rewrite (window_slice _ _ Hi). pose proof (inv_cfg _ _ Hi) as [_ Hmax].
  destruct (inv_window _ _ Hi) as [q Hq]. set (max := cfg_max_frame_len (cfg r)) in *.
  destruct (peek_view (window r) max) as (pk & Epk & Hv). rewrite Epk. destruct pk as [|n|n|e].
  - right. cbn [end_at fst snd stepped set_end end_]. split; [|done].
    unfold step_at, image_step. rewrite Hq, (view_ZeroTail _ _ _ Hv).
    destruct (window r) eqn:Ew; [|done]. inversion Hv as [|H4| | | | |]. done.
  - by apply (decode_window_ok _ _ q n).
  - destruct (view_NeedMore _ _ _ Hmax Hv) as [Hlt Hd]. destruct (hit_eof r) eqn:Heof.
    + right. assert (Es : step_at img r = image_step (segment r) max (next_offset r) (window r)).
      { unfold step_at. by rewrite (window_at_eof _ _ Hi Heof). }
      rewrite Es. unfold image_step. rewrite Hd. destruct (window r) as [|b w] eqn:Ew; [done|].
      by destruct (zeroes (b :: w)).
    + specialize (Hrk eq_refl). destruct (need_grows img r n Hi Hv) as (Hn & Hpos & Hgrow).
      pose proof (refill_ok img r n Hi ltac:(lia)) as Hr.
      destruct (refill n r) as [r' [[]|e|]]; [|by left; destruct Hr as (io & -> & ?); eauto|done].
      destruct Hr as (Hi' & Hsame & Hs0 & Hor). apply (good_step_same _ _ _ _ Hsame).
      apply IH; [done|unfold max in Hrk; lia|]. intros Heof'. destruct Hor as [|Hv']; [congruence|].
      destruct Hsame as (_ & Hcfg & Hnx & _). rewrite Hcfg.
      specialize (Hgrow r' Hi' Hnx Hs0 Hv'). unfold max in *. lia.
  - right. cbn [fst snd]. destruct (view_Bad _ q _ _ Hv) as [Hd Hne].
    unfold step_at, image_step. fold max. rewrite Hq, Hd. by destruct e.
Qed.

Lemma next_step_ok img r :
  reader_inv img r -> end_ r = None -> good_step img r (next_step r).
Proof.
  intros Hi He. unfold next_step. rewrite He. apply step_loop_ok; [done|lia|]. intros _. unfold rank.
  destruct (_ <? 4); [lia|]. destruct (frame_shape _) as [[sh|]| |]; try lia.
  destruct (_ <? _); [lia|]. destruct (_ || _); [lia|]. destruct (_ <? _); lia.
Qed.

Lemma new_inv img f seg c :
  content f = img -> file_ok f -> cfg_ok c -> reader_inv img (new f seg c).
Proof.
  intros Hc Hfo Hcfg. destruct Hcfg as [Hch Hmx].
  constructor; cbn [new file cfg rbuf start valid next_offset file_pos hit_eof]; try done; try lia.
  - rewrite len_replicate. lia.
  - rewrite len_replicate. unfold cap. lia.
  - exists img. done.
Qed.

(** Windows are invisible. Whatever the read-ahead size, however short the
    file's reads, and wherever the window happens to end, a step of the reader
    either reports the failure of a read, or returns exactly what a reader
    holding the whole rest of the segment would return: the same frame, the same
    clean end, or the same error at the same offset. The loop inside it never
    runs out of turns, no slice is out of range, and after a frame the reader is
    again in a state of this kind, at the frame's successor. *)
Theorem read_step_windowless (img : list byte) r :
  reader_inv img r -> end_ r = None ->
  let '(r', res) := next_step r in
  (exists io, res = Err (EIo (segment r) (next_offset r) io) /\ read_failed io) \/
  (res = image_step (segment r) (cfg_max_frame_len (cfg r)) (next_offset r)
           (drop (Z.to_nat (next_offset r)) img) /\ stepped img r r' res).
Proof.
  intros Hi He. pose proof (next_step_ok img r Hi He) as Hg. by destruct (next_step r).
Qed.

(** ** Reading back a written segment *)

Definition placed_at (segment : Z) (x : Z * FrameRef) : Prop :=
  first_lsn x.2 = Lsn.new segment (x.1 + header_len x.2).

(** The callback over the frames in order, stopping at its first error. *)
Fixpoint apply_all {S E} (apply : FrameRef -> S -> S * outcome E unit) (fs : list FrameRef) (s : S)
    : S * outcome (ApplyError E) unit :=
  match fs with
  | [] => (s, Ok tt)
  | f :: fs =>
      match apply f s with
      | (s, Ok _) => apply_all apply fs s
      | (s, Err e) => (s, Err (AApply (first_lsn f) e))
      | (s, Panic) => (s, Panic)
      end
  end.

Lemma check_place_placed seg at_ f :
  placed_at seg (at_, f) -> 0 <= header_len f <= padded_len f -> at_ + padded_len f < 2 ^ 32 ->
  check_place seg at_ f = Ok (at_ + padded_len f).
Proof.
  unfold placed_at. cbn [fst snd]. intros Hl Hh Hp. unfold check_place, checked_add.
  rewrite (proj2 (Z.ltb_lt (at_ + header_len f) _)), (proj2 (Z.ltb_lt (at_ + padded_len f) _)) by lia.
  by rewrite Hl, bool_decide_true.
Qed.

Context `{Healthy : !HealthyFile F}.

Lemma healthy_step img r :
  reader_inv img r -> end_ r = None ->
  exists r', next_step r = (r', step_at img r) /\ stepped img r r' (step_at img r).
Proof.
  intros Hi He. destruct (next_step_ok img r Hi He) as [(io & _ & f & off & c & Hfo & Hf)|[E Hs]].
  - by apply healthy in Hf.
  - exists (next_step r).1. rewrite <- E. split; [apply surjective_pairing|done].
Qed.

Lemma apply_frames_ok {S E} (apply : FrameRef -> S -> S * outcome E unit) tail fs :
  forall img r s fuel,
  reader_inv img r -> end_ r = None -> (length fs < fuel)%nat ->
  zeroes tail = true -> Forall (frame_ok (cfg_max_frame_len (cfg r))) fs ->
  drop (Z.to_nat (next_offset r)) img = image_bytes fs ++ tail ->
  Forall (placed_at (segment r)) (frames_at (next_offset r) fs) ->
  next_offset r + len (image_bytes fs) < 2 ^ 32 ->
  exists r', apply_frames apply fuel r s =
  (let '(s', res) := apply_all apply fs s in
   (r', s', _ ← res;
            mret (Some (match tail with
                        | [] => FileEnd (next_offset r + len (image_bytes fs))
                        | _ => ZeroTail (next_offset r + len (image_bytes fs))
                        end)))).
Proof.
  induction fs as [|f fs IH]; intros img r s fuel Hi He Hf Hz Hok Hd Hpl Hlen;
    (destruct fuel as [|fuel]; [lia|]); cbn [apply_frames];
    destruct (healthy_step img r Hi He) as (r' & -> & Hst); unfold step_at, image_step in *; rewrite Hd in *.
  - exists r'. cbn [image_bytes fmap list_fmap concat app] in *. rewrite decode_zeroes by done.
    rewrite len_nil, Z.add_0_r. by destruct tail.
  - apply Forall_cons_1 in Hok as [Hf1 Hok]. apply Forall_cons_1 in Hpl as [Hp1 Hpl].
    pose proof (len_padding _ _ Hf1) as Hlp.
    assert (Hli : len (image_bytes (f :: fs)) = padded_len f + len (image_bytes fs))
      by (rewrite image_bytes_cons, len_app; lia).
    rewrite Hli in *. rewrite image_bytes_cons, <- !app_assoc in *.
    rewrite decode_frame_complete in * by done.
    pose proof (len_nonneg (image_bytes fs)). pose proof (ok_len _ _ Hf1) as Hl.
    pose proof (frame_bytes_len f) as (_ & _ & _ & _ & Lb). pose proof (ok_min _ _ Hf1).
    pose proof (layout_padded_len_bounds (layout f) _ (ok_u32 _ _ Hf1)) as Hpb. fold (padded_len f) in Hpb.
    unfold FRAME_TRAILER_LEN in Hl.
    rewrite check_place_placed in * by (done || lia). cbn [mbind outcome_bind mret outcome_ret] in *.
    destruct Hst as (Hi' & Hs' & Hc' & He' & Hn'). cbn [apply_all].
    destruct (apply f s) as [s' [[]|e|]]; [|by exists r'..].
    destruct (IH img r' s' fuel) as [r'' E'']; try done; rewrite ?Hs', ?Hc', ?Hn'; try done;
      [congruence|cbn in Hf; lia| |lia|].
    { pose proof (inv_next _ _ Hi). rewrite Z2Nat.inj_add, <- drop_drop, Hd by lia.
      rewrite (app_assoc (frame_bytes f)), drop_app_length'; [done|]. unfold len in Hlp. lia. }
    exists r''. by rewrite E'', Hn', Z.add_assoc.
Qed.

(** C39. Replay reads back the segment. Opening a healthy file that holds a
    sequence of frames, each written at the offset its stored LSN names, followed
    by nothing or by preallocated zeroes, and applying every frame, is applying
    the callback to those frames in order: it stops with the callback's error and
    LSN if it fails, and otherwise reports the end exactly one byte past the last
    frame's extent. *)
Theorem segment_read_back {S E} (apply : FrameRef -> S -> S * outcome E unit)
    (f : F) (seg : Z) (c : ReaderConfig) (fs : list FrameRef) (tail : list byte) (s : S) (fuel : nat) :
  content f = image_bytes fs ++ tail -> file_ok f -> cfg_ok c -> (length fs < fuel)%nat ->
  zeroes tail = true -> Forall (frame_ok (cfg_max_frame_len c)) fs ->
  Forall (placed_at seg) (frames_at 0 fs) -> len (image_bytes fs) < 2 ^ 32 ->
  exists r', apply_frames apply fuel (new f seg c) s =
  (let '(s', res) := apply_all apply fs s in
   (r', s', _ ← res;
            mret (Some (match tail with
                        | [] => FileEnd (len (image_bytes fs))
                        | _ => ZeroTail (len (image_bytes fs))
                        end)))).
Proof.
  intros Hc Hfo Hcfg Hf Hz Hok Hpl Hlen.
  apply (apply_frames_ok apply tail fs (content f) (new f seg c) s fuel); try done.
  by apply new_inv.
Qed.

End laws.

(** ** The in-memory file ([fs.rs], [mem::MemFile]): at most [read_cap] bytes
    per read. *)

Record MemFile := { data : list byte; read_cap : option Z; reads : Z }.

#[global] Instance MemFile_SegmentFile : SegmentFile MemFile := {|
  read_at f offset cap :=
    let f' := {| data := data f; read_cap := read_cap f; reads := reads f + 1 |} in
    if len (data f) <=? offset then (f', Ok (0, []))
    else
      let n := Z.min (Z.min cap (len (data f) - offset))
                 (match read_cap f with Some c => c | None => U64_MAX end) in
      match get_range (data f) offset (offset + n) with
      | Some bytes => (f', Ok (n, bytes))
      | None => (f', Panic)
      end |}.

#[global] Instance MemFile_Laws : SegmentFileLaws MemFile.
Proof.
  refine {| content := data; file_ok f := match read_cap f with Some c => 0 < c | None => True end |}.
  - intros f off cap f' r Hf Hr. cbn in Hr. destruct (_ <=? _); [by injection Hr as <- <-|].
    destruct (get_range _ _ _); by injection Hr as <- <-.
  - intros f off cap f' n d Hf Ho Hc Hr. cbn in Hr. destruct (Z.leb_spec (len (data f)) off).
    + injection Hr as <- <- <-. split_and!; [done|done|by eexists|by right].
    + destruct (get_range _ _ _) as [b|] eqn:Eg; [|done]. injection Hr as <- <- <-.
      apply get_range_Some in Eg as (x & z & Hd & Hx & Hb). split_and!; [lia|lia| |].
      * exists z. rewrite Hd, <- Hx. unfold len. by rewrite Nat2Z.id, drop_app_length.
      * intros E. left. unfold U64_MAX in *. destruct (read_cap f); lia.
  - intros f off cap Hf Ho Hc. cbn. destruct (Z.leb_spec (len (data f)) off); [done|].
    unfold get_range. rewrite (proj2 (Z.leb_le 0 off)) by lia.
    rewrite (proj2 (Z.leb_le off _)) by (unfold U64_MAX; destruct (read_cap f); lia).
    by rewrite (proj2 (Z.leb_le _ (len (data f)))) by lia.
Defined.

#[global] Instance MemFile_Healthy : HealthyFile MemFile.
Proof.
  constructor. intros f off cap e _. cbn. destruct (_ <=? _); [done|]. by destruct (get_range _ _ _).
Qed.

(** ** Witnesses: a file that returns three bytes per read, read through a window
    of sixteen. *)

Definition example_cfg : ReaderConfig := {| chunk_bytes := 16; cfg_max_frame_len := 65536 |}.
Definition example_image_frame : FrameRef :=
  sealed_ref example_records (Lsn.new 1 40) example_stamp Packed.
Definition example_file : MemFile :=
  {| data := image_bytes [example_image_frame] ++ [x00; x00]; read_cap := Some 3; reads := 0 |}.

Lemma example_cfg_ok : cfg_ok example_cfg.
Proof. repeat split; by vm_compute. Defined.

Lemma example_image_frame_ok : frame_ok 65536 example_image_frame.
Proof.
  apply sealed_ref_ok; [done|apply example_records_ok|by vm_compute|apply example_stamp_ok|].
  repeat split; by vm_compute.
Defined.

Lemma read_step_windowless_witness :
  let r := new example_file 1 example_cfg in
  let '(r', res) := next_step r in
  (exists io, res = Err (EIo 1 0 io) /\ read_failed (F:=MemFile) io) \/
  (res = image_step 1 65536 0 (data example_file) /\ stepped (data example_file) r r' res).
Proof.
  exact (read_step_windowless (data example_file) (new example_file 1 example_cfg)
    (new_inv _ example_file 1 example_cfg eq_refl eq_refl example_cfg_ok) eq_refl).
Defined.

Lemma segment_read_back_witness :
  exists r', apply_frames (fun f n => (n + count f, Ok (E:=Empty_set) tt)) 2 (new example_file 1 example_cfg) 0
  = (r', 2, Ok (Some (ZeroTail (len (image_bytes [example_image_frame]))))).
Proof.
  apply (segment_read_back (fun f n => (n + count f, Ok (E:=Empty_set) tt)) example_file 1 example_cfg
    [example_image_frame] [x00; x00] 0 2); [done|done|apply example_cfg_ok|cbn; lia|done| | |by vm_compute].
  - apply Forall_cons_2; [apply example_image_frame_ok|done].
  - by repeat constructor.
Defined.

End Reader.
