(* ===== verification/Commit.v ===== *)
(** * Group commit ([crates/inf-log/src/commit.rs])

    The cell-local ledger behind the durability watermark: which frames were
    queued and written, which fsyncs were submitted, what each covers, and how
    far the done prefix reaches. The file models every operation of
    [GroupCommit]. A release assertion is a [Panic]; a [debug_assert] is left
    out, as is the latency histogram of [on_fsync_complete]. *)

From S2P Require Import Prelude Lsn.

Module Commit.

Definition MAX_FRAMES_IN_FLIGHT : Z := 8.
Definition REORDER_WINDOW_FRAMES : Z := 2 * MAX_FRAMES_IN_FLIGHT.
Definition WRITE_THROUGH_WINDOW_ENTRIES : Z := REORDER_WINDOW_FRAMES.
Definition EXTENT_SEAL_WINDOW_ENTRIES : Z := 16.

Inductive FsyncClass := Everysec | Always.

Inductive SyncReason :=
  | Linked | Seal | Standalone | Completion | BootBarrier | PreallocBarrier
  | ExtentSeal | WriteThrough | ZeroFill.
#[global] Instance SyncReason_eq_dec : EqDecision SyncReason.
Proof. solve_decision. Defined.

Definition is_wt (r : SyncReason) : bool := bool_decide (r = WriteThrough).
Definition is_extent (r : SyncReason) : bool := bool_decide (r = ExtentSeal).

Record ExtentSync := { es_ticket : Z; es_fd : option Z }.

Inductive FramePlan := PlanPlain | PlanWriteThrough | PlanLinkedFsync | PlanWait.
#[global] Instance FramePlan_eq_dec : EqDecision FramePlan.
Proof. solve_decision. Defined.

(** [CommitStats]: the counters by name. *)
Inductive counter :=
  | frames_queued | frame_bytes_queued | fsyncs_linked | fsyncs_seal | fsyncs_standalone
  | fsyncs_completion | fsyncs_boot_barrier | fsyncs_prealloc_barrier | fsyncs_write_through
  | fsyncs_zero_fill | fsyncs_completed | idle_ticks.
#[global] Instance counter_eq_dec : EqDecision counter.
Proof. solve_decision. Defined.
Definition CommitStats : Type := counter -> Z.
Definition count_up (c : counter) (n : Z) (s : CommitStats) : CommitStats :=
  fun d => if decide (d = c) then s d + n else s d.

Inductive ExtentRegistration (T E : Type) :=
  | Registered (t : Z) (made : T)
  | Full
  | Refused (e : E).
Arguments Registered {T E}.
Arguments Full {T E}.
Arguments Refused {T E}.

Section GroupCommit.
(** The segment-file tier: only its descriptor is asked for. *)
Context {File : Type} (raw_fd : File -> option Z).

(** [segment.rs]: a sealed segment on its way to its fdatasync. *)
Record SealHandoff := { ho_segment : Z; ho_file : File; ho_end_offset : Z }.

Inductive HeldHandle :=
  | HeldNone
  | HeldSeal (h : SealHandoff)
  | HeldDir (f : File)
  | HeldExtent (f : File).

Record QueuedFrame := { qid : Z; qend : Lsn.t; end_bytes : Z; written : bool }.

Record PendingFsync := {
  ticket : Z;
  covers_up_to : Lsn.t;
  covers_bytes : Z;
  submitted_at : Z;
  reason : SyncReason;
  done_ : bool;
  failed : bool;
  held : HeldHandle }.

(** The fields of [GroupCommit], by the question they answer: what is owed,
    what was handed to the driver, what was synced. The latency histograms are
    left out: nothing reads them back. *)
Record Dues := {
  sync_due : bool;
  always_pending : bool;
  always_unqueued : bool;
  everysec_unqueued : bool;
  always_queued_up_to : option Lsn.t }.

Record Queue := {
  queued_up_to : option Lsn.t;
  queued_bytes : Z;
  queued : list QueuedFrame;
  unwritten : Z;
  next_frame_id : Z;
  written_up_to : option Lsn.t;
  written_bytes : Z }.

Record Ledger := {
  flush_bound : Z;
  flush_in_flight : Z;
  write_through_pending : Z;
  durable_up_to : option Lsn.t;
  durable_bytes : Z;
  pending : list PendingFsync;
  next_ticket : Z;
  extent_window : list ExtentSync;
  extent_unsent : Z }.

Record GroupCommit := { dues : Dues; queue : Queue; ledger : Ledger; stats : CommitStats }.

Definition with_flush_bound (bound : Z) : panics GroupCommit :=
  _ ← rassert ((1 <=? bound) && (bound <=? 2));
  mret {| dues := {| sync_due := false; always_pending := false; always_unqueued := false;
                     everysec_unqueued := false; always_queued_up_to := None |};
          queue := {| queued_up_to := None; queued_bytes := 0; queued := []; unwritten := 0;
                      next_frame_id := 0; written_up_to := None; written_bytes := 0 |};
          ledger := {| flush_bound := bound; flush_in_flight := 0; write_through_pending := 0;
                       durable_up_to := None; durable_bytes := 0; pending := []; next_ticket := 0;
                       extent_window := []; extent_unsent := 0 |};
          stats := fun _ => 0 |}.
Definition new : panics GroupCommit := with_flush_bound 1.

(** ** EXECUTE and timer inputs *)

Definition note_staged (g : GroupCommit) (class : FsyncClass) : GroupCommit :=
  let d := dues g in
  {| dues := match class with
             | Always =>
                 {| sync_due := true; always_pending := true; always_unqueued := true;
                    everysec_unqueued := everysec_unqueued d;
                    always_queued_up_to := always_queued_up_to d |}
             | Everysec =>
                 {| sync_due := sync_due d; always_pending := always_pending d;
                    always_unqueued := always_unqueued d; everysec_unqueued := true;
                    always_queued_up_to := always_queued_up_to d |}
             end;
     queue := queue g; ledger := ledger g; stats := stats g |}.

Definition set_due (b : bool) (d : Dues) : Dues :=
  {| sync_due := b; always_pending := always_pending d; always_unqueued := always_unqueued d;
     everysec_unqueued := everysec_unqueued d; always_queued_up_to := always_queued_up_to d |}.

Definition note_everysec_tick (g : GroupCommit) : GroupCommit :=
  if (queued_bytes (queue g) =? durable_bytes (ledger g)) && negb (always_pending (dues g))
     && negb (everysec_unqueued (dues g))
  then {| dues := dues g; queue := queue g; ledger := ledger g;
          stats := count_up idle_ticks 1 (stats g) |}
  else {| dues := set_due true (dues g); queue := queue g; ledger := ledger g; stats := stats g |}.

(** ** LOG-step decisions *)

Definition syncs_in_flight (g : GroupCommit) : Z := flush_in_flight (ledger g).
Definition drained (g : GroupCommit) : bool := written_bytes (queue g) =? queued_bytes (queue g).
Definition reorder_window_full (g : GroupCommit) : bool :=
  REORDER_WINDOW_FRAMES <=? len (queued (queue g)).
Definition write_through_window_full (g : GroupCommit) : bool :=
  WRITE_THROUGH_WINDOW_ENTRIES <=? write_through_pending (ledger g).
Definition frame_fsync_due (g : GroupCommit) : bool :=
  sync_due (dues g) && drained g && (syncs_in_flight g <? flush_bound (ledger g)).

Definition coverage_tail (g : GroupCommit) : Lsn.t * Z :=
  match list.last (pending (ledger g)) with
  | None => (default (Lsn.new 0 0) (durable_up_to (ledger g)), durable_bytes (ledger g))
  | Some tail => (covers_up_to tail, covers_bytes tail)
  end.

Definition write_through_due (g : GroupCommit) : bool :=
  sync_due (dues g) && ((coverage_tail g).2 =? queued_bytes (queue g)).

Definition frame_plan (g : GroupCommit) (write_through_ok seal_ahead : bool) : FramePlan :=
  if reorder_window_full g then PlanWait
  else if negb (sync_due (dues g)) then PlanPlain
  else if write_through_ok && (seal_ahead || write_through_due g)
          && negb (write_through_window_full g) then PlanWriteThrough
  else if negb (drained g) then PlanWait
  else if syncs_in_flight g + Z.b2z seal_ahead <? flush_bound (ledger g) then PlanLinkedFsync
  else PlanPlain.

Definition tail_below_written (g : GroupCommit) : bool :=
  match list.last (pending (ledger g)) with
  | None => true
  | Some p => covers_bytes p <? written_bytes (queue g)
  end.

Definition standalone_fsync_due (g : GroupCommit) : bool :=
  sync_due (dues g) && (syncs_in_flight g <? flush_bound (ledger g))
  && (durable_bytes (ledger g) <? written_bytes (queue g)) && tail_below_written g.

Definition always_discharged_at_written (g : GroupCommit) : bool :=
  if negb (always_pending (dues g)) then true
  else negb (always_unqueued (dues g))
       && match always_queued_up_to (dues g), written_up_to (queue g) with
          | Some e, Some w => Lsn.leb e w
          | _, _ => false
          end.

Definition completion_fsync_due (g : GroupCommit) : bool :=
  sync_due (dues g) && (1 <? flush_bound (ledger g))
  && (syncs_in_flight g <? flush_bound (ledger g) - 1)
  && (durable_bytes (ledger g) <? written_bytes (queue g))
  && always_discharged_at_written g && tail_below_written g.

Definition settle_due_at_written (g : GroupCommit) : Dues :=
  let d := dues g in
  let always_owed := always_pending d && negb (always_discharged_at_written g) in
  let in_flight_uncovered := written_bytes (queue g) <? queued_bytes (queue g) in
  {| sync_due := always_owed || in_flight_uncovered || everysec_unqueued d;
     always_pending := always_owed; always_unqueued := always_unqueued d;
     everysec_unqueued := everysec_unqueued d; always_queued_up_to := always_queued_up_to d |}.

(** ** Registrations *)

(** [FsyncTicket(self.next_ticket + 1)]. *)
Definition mint (g : GroupCommit) : Z := next_ticket (ledger g) + 1.

Definition push_pending (g : GroupCommit) (up_to : Lsn.t) (bytes now : Z) (why : SyncReason)
    (h : HeldHandle) : panics (GroupCommit * Z) :=
  let l := ledger g in
  _ ← rassert (match list.last (pending l) with
               | None => true
               | Some p => Lsn.leb (covers_up_to p) up_to
               end);
  _ ← rassert (match why with
               | Linked | Standalone | Completion => flush_in_flight l <? flush_bound l
               | _ => true
               end);
  _ ← rassert (negb (is_wt why) || (write_through_pending l <? WRITE_THROUGH_WINDOW_ENTRIES));
  let t := mint g in
  mret ({| dues := dues g; queue := queue g;
           ledger :=
             {| flush_bound := flush_bound l;
                flush_in_flight := flush_in_flight l + (if is_wt why then 0 else 1);
                write_through_pending := write_through_pending l + (if is_wt why then 1 else 0);
                durable_up_to := durable_up_to l; durable_bytes := durable_bytes l;
                pending := pending l ++
                  [{| ticket := t; covers_up_to := up_to; covers_bytes := bytes;
                      submitted_at := now; reason := why; done_ := false; failed := false;
                      held := h |}];
                next_ticket := t; extent_window := extent_window l;
                extent_unsent := extent_unsent l |};
           stats := stats g |}, t).

Definition set_dues (d : Dues) (g : GroupCommit) : GroupCommit :=
  {| dues := d; queue := queue g; ledger := ledger g; stats := stats g |}.
Definition set_stats (c : counter) (g : GroupCommit) : GroupCommit :=
  {| dues := dues g; queue := queue g; ledger := ledger g; stats := count_up c 1 (stats g) |}.

Definition register_seal_fsync (g : GroupCommit) (handoff : SealHandoff) (now : Z)
    : panics (GroupCommit * Z) :=
  _ ← rassert (drained g);
  push_pending (set_stats fsyncs_seal g)
    (Lsn.new (ho_segment handoff) (ho_end_offset handoff)) (queued_bytes (queue g)) now Seal
    (HeldSeal handoff).

Definition register_boot_barrier (g : GroupCommit) (floor : Lsn.t) (h : option File) (now : Z)
    : panics (GroupCommit * Z) :=
  _ ← rassert (stats g frames_queued =? 0);
  _ ← rassert (match durable_up_to (ledger g) with None => true | Some _ => false end);
  push_pending (set_stats fsyncs_boot_barrier g) floor 0 now BootBarrier
    (match h with Some f => HeldDir f | None => HeldNone end).

Definition register_prealloc_barrier (g : GroupCommit) (dir : File) (now : Z)
    : panics (GroupCommit * Z) :=
  let '(up_to, bytes) := coverage_tail g in
  push_pending (set_stats fsyncs_prealloc_barrier g) up_to bytes now PreallocBarrier (HeldDir dir).

Definition register_zero_fill_barrier (g : GroupCommit) (now : Z) : panics (GroupCommit * Z) :=
  let '(up_to, bytes) := coverage_tail g in
  push_pending (set_stats fsyncs_zero_fill g) up_to bytes now ZeroFill HeldNone.

(** [register_extent]: [effect] is the result of the caller's closure, which
    runs only when the window has a unit. *)
Definition register_extent {T E} (g : GroupCommit) (now : Z) (effect : unit -> outcome E (File * T))
    : panics (GroupCommit * ExtentRegistration T E) :=
  let '(up_to, bytes) := coverage_tail g in
  let t := mint g in
  let l := ledger g in
  if negb (len (extent_window l) <? EXTENT_SEAL_WINDOW_ENTRIES) then mret (g, Full)
  else
    match effect tt with
    | Panic => Panic
    | Err refused => mret (g, Refused refused)
    | Ok (extent, made) =>
        let g' :=
          {| dues := dues g; queue := queue g;
             ledger :=
               {| flush_bound := flush_bound l; flush_in_flight := flush_in_flight l;
                  write_through_pending := write_through_pending l;
                  durable_up_to := durable_up_to l; durable_bytes := durable_bytes l;
                  pending := pending l; next_ticket := next_ticket l;
                  extent_window := extent_window l ++ [{| es_ticket := t; es_fd := raw_fd extent |}];
                  extent_unsent := extent_unsent l + 1 |};
             stats := stats g |} in
        '(g'', _) ← push_pending g' up_to bytes now ExtentSeal (HeldExtent extent);
        mret (g'', Registered t made)
    end.

(** [issue_extent_syncs]: the entries handed to [issue]. *)
Definition issue_extent_syncs (g : GroupCommit) : GroupCommit * list ExtentSync :=
  let l := ledger g in
  let issued := sat_sub (len (extent_window l)) (extent_unsent l) in
  ({| dues := dues g; queue := queue g;
      ledger :=
        {| flush_bound := flush_bound l; flush_in_flight := flush_in_flight l;
           write_through_pending := write_through_pending l;
           durable_up_to := durable_up_to l; durable_bytes := durable_bytes l;
           pending := pending l; next_ticket := next_ticket l;
           extent_window := extent_window l; extent_unsent := 0 |};
      stats := stats g |}, drop (Z.to_nat issued) (extent_window l)).

Definition note_frame_queued (g : GroupCommit) (e : Lsn.t) (frame_len : Z)
    : panics (GroupCommit * Z) :=
  let q := queue g in
  let d := dues g in
  _ ← rassert (match queued_up_to q with None => true | Some u => Lsn.ltb u e end);
  _ ← rassert (unwritten q <? MAX_FRAMES_IN_FLIGHT);
  _ ← rassert (negb (reorder_window_full g));
  let bytes := queued_bytes q + frame_len in
  let id := next_frame_id q + 1 in
  mret ({| dues :=
             {| sync_due := sync_due d; always_pending := always_pending d;
                always_unqueued := false; everysec_unqueued := false;
                always_queued_up_to :=
                  if always_unqueued d then Some e else always_queued_up_to d |};
           queue :=
             {| queued_up_to := Some e; queued_bytes := bytes;
                queued := queued q ++ [{| qid := id; qend := e; end_bytes := bytes; written := false |}];
                unwritten := unwritten q + 1; next_frame_id := id;
                written_up_to := written_up_to q; written_bytes := written_bytes q |};
           ledger := ledger g;
           stats := count_up frame_bytes_queued frame_len (count_up frames_queued 1 (stats g)) |}, id).

Definition discharge (d : Dues) : Dues :=
  {| sync_due := false; always_pending := false; always_unqueued := always_unqueued d;
     everysec_unqueued := everysec_unqueued d; always_queued_up_to := always_queued_up_to d |}.

Definition register_linked_fsync (g : GroupCommit) (now : Z) : panics (GroupCommit * Z) :=
  up_to ← expect (queued_up_to (queue g));
  _ ← rassert (negb (always_unqueued (dues g)));
  _ ← rassert (match queued (queue g) with [f] => negb (written f) | _ => false end);
  push_pending (set_stats fsyncs_linked (set_dues (discharge (dues g)) g)) up_to
    (queued_bytes (queue g)) now Linked HeldNone.

(** [self.queued.iter().rev().nth(1)]. *)
Definition back_but_one (l : list QueuedFrame) : option QueuedFrame := rev l !! 1%nat.

Definition register_write_through (g : GroupCommit) (now : Z) : panics (GroupCommit * Z) :=
  up_to ← expect (queued_up_to (queue g));
  _ ← rassert (negb (always_unqueued (dues g)));
  let base := match back_but_one (queued (queue g)) with
              | Some f => end_bytes f
              | None => written_bytes (queue g)
              end in
  _ ← rassert ((coverage_tail g).2 =? base);
  push_pending (set_stats fsyncs_write_through (set_dues (discharge (dues g)) g)) up_to
    (queued_bytes (queue g)) now WriteThrough HeldNone.

Definition register_standalone_fsync (g : GroupCommit) (now : Z) : panics (GroupCommit * Z) :=
  up_to ← expect (written_up_to (queue g));
  push_pending (set_stats fsyncs_standalone (set_dues (settle_due_at_written g) g)) up_to
    (written_bytes (queue g)) now Standalone HeldNone.

Definition register_completion_fsync (g : GroupCommit) (now : Z) : panics (GroupCommit * Z) :=
  up_to ← expect (written_up_to (queue g));
  push_pending (set_stats fsyncs_completion (set_dues (settle_due_at_written g) g)) up_to
    (written_bytes (queue g)) now Completion HeldNone.

(** ** Completions *)

(** The [while let] that advances the written prefix. *)
Fixpoint drain_written (l : list QueuedFrame) (w : option Lsn.t * Z)
    : list QueuedFrame * (option Lsn.t * Z) :=
  match l with
  | f :: rest => if written f then drain_written rest (Some (qend f), end_bytes f) else (l, w)
  | [] => ([], w)
  end.

Definition set_written (f : QueuedFrame) : QueuedFrame :=
  {| qid := qid f; qend := qend f; end_bytes := end_bytes f; written := true |}.

Definition note_frame_written (g : GroupCommit) (id : Z) : panics GroupCommit :=
  let q := queue g in
  front ← expect (head (queued q));
  index ← expect (checked_sub id (qid front));
  frame ← expect (get (queued q) index);
  _ ← rassert (negb (written frame));
  n ← expect (checked_sub (unwritten q) 1);
  let '(rest, (up_to, bytes)) :=
    drain_written (<[Z.to_nat index := set_written frame]> (queued q))
      (written_up_to q, written_bytes q) in
  mret {| dues := dues g;
          queue := {| queued_up_to := queued_up_to q; queued_bytes := queued_bytes q;
                      queued := rest; unwritten := n; next_frame_id := next_frame_id q;
                      written_up_to := up_to; written_bytes := bytes |};
          ledger := ledger g; stats := stats g |}.

(** [pending_mut]: the index of a ticket's entry, by ordinal arithmetic. *)
Definition pending_index (g : GroupCommit) (t : Z) : option Z :=
  front ← head (pending (ledger g));
  index ← checked_sub t (ticket front);
  _ ← get (pending (ledger g)) index;
  Some index.

Definition set_pending (p : list PendingFsync) (l : Ledger) : Ledger :=
  {| flush_bound := flush_bound l; flush_in_flight := flush_in_flight l;
     write_through_pending := write_through_pending l;
     durable_up_to := durable_up_to l; durable_bytes := durable_bytes l;
     pending := p; next_ticket := next_ticket l;
     extent_window := extent_window l; extent_unsent := extent_unsent l |}.

Definition set_clock (now : Z) (p : PendingFsync) : PendingFsync :=
  {| ticket := ticket p; covers_up_to := covers_up_to p; covers_bytes := covers_bytes p;
     submitted_at := now; reason := reason p; done_ := done_ p; failed := failed p; held := held p |}.
Definition set_done (p : PendingFsync) : PendingFsync :=
  {| ticket := ticket p; covers_up_to := covers_up_to p; covers_bytes := covers_bytes p;
     submitted_at := submitted_at p; reason := reason p; done_ := true; failed := failed p;
     held := HeldNone |}.
Definition set_failed (p : PendingFsync) : PendingFsync :=
  {| ticket := ticket p; covers_up_to := covers_up_to p; covers_bytes := covers_bytes p;
     submitted_at := submitted_at p; reason := reason p; done_ := done_ p; failed := true;
     held := held p |}.

Definition rebase_clock (g : GroupCommit) (t now : Z) : GroupCommit :=
  match pending_index g t with
  | None => g
  | Some i =>
      let l := ledger g in
      {| dues := dues g; queue := queue g;
         ledger := set_pending
           (alter (fun p => if done_ p || failed p then p else set_clock now p)
              (Z.to_nat i) (pending l)) l;
         stats := stats g |}
  end.

(** [fold_extent]. *)
Definition fold_extent (t : Z) (w : list ExtentSync) : list ExtentSync := tail w.

(** The [while let] that folds the done prefix. *)
Fixpoint fold_done (p : list PendingFsync) (l : Ledger) : Ledger :=
  match p with
  | front :: rest =>
      if negb (done_ front) || failed front then set_pending p l
      else
        fold_done rest
          {| flush_bound := flush_bound l; flush_in_flight := flush_in_flight l;
             write_through_pending := write_through_pending l - (if is_wt (reason front) then 1 else 0);
             durable_up_to := Some (covers_up_to front); durable_bytes := covers_bytes front;
             pending := rest; next_ticket := next_ticket l;
             extent_window := if is_extent (reason front)
                              then fold_extent (ticket front) (extent_window l) else extent_window l;
             extent_unsent := extent_unsent l |}
  | [] => set_pending [] l
  end.

Definition on_fsync_complete (g : GroupCommit) (t : Z) : panics (GroupCommit * option Lsn.t) :=
  let l := ledger g in
  i ← expect (pending_index g t);
  entry ← expect (get (pending l) i);
  _ ← rassert (negb (done_ entry));
  _ ← rassert (negb (failed entry));
  let p := <[Z.to_nat i := set_done entry]> (pending l) in
  let l1 :=
    {| flush_bound := flush_bound l;
       flush_in_flight := flush_in_flight l - (if is_wt (reason entry) then 0 else 1);
       write_through_pending := write_through_pending l;
       durable_up_to := durable_up_to l; durable_bytes := durable_bytes l;
       pending := p; next_ticket := next_ticket l;
       extent_window := extent_window l; extent_unsent := extent_unsent l |} in
  let l2 := fold_done p l1 in
  mret ({| dues := dues g; queue := queue g; ledger := l2;
           stats := count_up fsyncs_completed 1 (stats g) |},
        if bool_decide (durable_up_to l2 = durable_up_to l) then None else durable_up_to l2).

Definition on_fsync_error (g : GroupCommit) (t : Z) : panics (GroupCommit * SyncReason) :=
  let l := ledger g in
  i ← expect (pending_index g t);
  entry ← expect (get (pending l) i);
  _ ← rassert (negb (done_ entry));
  _ ← rassert (negb (failed entry));
  mret ({| dues := dues g; queue := queue g;
           ledger :=
             {| flush_bound := flush_bound l;
                flush_in_flight := flush_in_flight l - (if is_wt (reason entry) then 0 else 1);
                write_through_pending := write_through_pending l;
                durable_up_to := durable_up_to l; durable_bytes := durable_bytes l;
                pending := <[Z.to_nat i := set_failed entry]> (pending l);
                next_ticket := next_ticket l;
                extent_window := extent_window l; extent_unsent := extent_unsent l |};
           stats := stats g |}, reason entry).

(** ** Observations *)

Definition watermark (g : GroupCommit) : option Lsn.t := durable_up_to (ledger g).
Definition extent_barrier_pending (g : GroupCommit) : bool :=
  existsb (fun p => is_extent (reason p) && negb (done_ p)) (pending (ledger g)).
Definition pending_log_bytes (g : GroupCommit) : Z :=
  queued_bytes (queue g) - durable_bytes (ledger g).
Definition pending_fsyncs (g : GroupCommit) : Z :=
  len (filter (fun p => done_ p = false) (pending (ledger g))).
Definition pending_covers_within (g : GroupCommit) (lo hi : Lsn.t) : bool :=
  existsb (fun p => Lsn.leb lo (covers_up_to p) && Lsn.ltb (covers_up_to p) hi) (pending (ledger g)).
Definition write_through_in_flight (g : GroupCommit) : Z :=
  len (filter (fun p => (negb (done_ p) && is_wt (reason p)) = true) (pending (ledger g))).

End GroupCommit.
Arguments SealHandoff : clear implicits.
Arguments HeldHandle : clear implicits.
Arguments PendingFsync : clear implicits.
Arguments Ledger : clear implicits.
Arguments GroupCommit : clear implicits.

End Commit.
