(* ===== verification/Durability.v ===== *)
(** * What the watermark promises ([crates/inf-log/src/commit.rs])

    The ledger of [Commit] over an explicit device: a world that records every
    frame handed to the driver, which of them reached the file, which are on
    stable storage, and what each submitted barrier will persist. The plane's
    LOG step ([crates/inf-server/src/durable.rs], [seal_log] and [queue_frame])
    is the composite event [LogFrame]. *)

From S2P Require Import Prelude Lsn Commit.
From stdpp Require Import gmap sets.
Import Commit.
#[local] Open Scope Z_scope.

Module Durability.

Section world.
Context {File : Type} (raw_fd : File -> option Z).
Notation GroupCommit := (GroupCommit File).
Notation Ledger := (Ledger File).
Notation PendingFsync := (PendingFsync File).

(** Frames are numbered from 0 in queue order; a frame is its exclusive end, as
    an LSN and in ledger bytes. [staged] lists the classes of the records staged
    since the last frame, which the next frame carries. [owed] and [owed_next] are
    the promises made to clients: bytes that must be covered by a barrier, and
    whether the next frame carries a record that must. The world keeps its own
    account: none of its fields is computed from a field of the ledger. *)
Record World := {
  cursor : Lsn.t;
  frames : list (Lsn.t * Z);
  landed : gset nat;
  stable : gset nat;
  will : gmap Z (gset nat);
  staged : list FsyncClass;
  owed : Z;
  owed_next : bool }.

Definition start (at_ : Lsn.t) : World :=
  {| cursor := at_; frames := []; landed := ∅; stable := ∅; will := ∅; staged := []; owed := 0;
     owed_next := false |}.

Definition will_of (w : World) (t : Z) : gset nat := default ∅ (will w !! t).

(** The frames of segment [s] that an fdatasync submitted now would persist. *)
Definition in_segment (w : World) (s : Z) (i : nat) : bool :=
  match frames w !! i with Some (e, _) => Lsn.segment e =? s | None => false end.
Definition landed_in (w : World) (s : Z) : gset nat := filter (fun i => in_segment w s i = true) (landed w).

Definition promise (t : Z) (s : gset nat) (w : World) : World :=
  {| cursor := cursor w; frames := frames w; landed := landed w; stable := stable w;
     will := <[t := s]> (will w); staged := staged w; owed := owed w; owed_next := owed_next w |}.
Definition move_cursor (c : Lsn.t) (w : World) : World :=
  {| cursor := c; frames := frames w; landed := landed w; stable := stable w; will := will w;
     staged := staged w; owed := owed w; owed_next := owed_next w |}.
Definition add_frame (e : Lsn.t) (b : Z) (w : World) : World :=
  {| cursor := e; frames := frames w ++ [(e, b)]; landed := landed w; stable := stable w;
     will := will w; staged := []; owed := if owed_next w then b else owed w; owed_next := false |}.
Definition land (i : nat) (w : World) : World :=
  {| cursor := cursor w; frames := frames w; landed := {[i]} ∪ landed w; stable := stable w;
     will := will w; staged := staged w; owed := owed w; owed_next := owed_next w |}.
Definition persist (t : Z) (w : World) : World :=
  {| cursor := cursor w; frames := frames w; landed := landed w; stable := will_of w t ∪ stable w;
     will := will w; staged := staged w; owed := owed w; owed_next := owed_next w |}.
(** A record is staged: an [Always] one is owed a sync at once. *)
Definition stage (c : FsyncClass) (w : World) : World :=
  {| cursor := cursor w; frames := frames w; landed := landed w; stable := stable w;
     will := will w; staged := staged w ++ [c]; owed := owed w;
     owed_next := match c with Always => true | Everysec => owed_next w end |}.
(** The last frame's end in ledger bytes. *)
Definition top_bytes (F : list (Lsn.t * Z)) : Z := default 0 (snd <$> list.last F).
(** A second has passed: everything framed or staged until now is owed a sync. *)
Definition tick_promise (w : World) : World :=
  {| cursor := cursor w; frames := frames w; landed := landed w; stable := stable w;
     will := will w; staged := staged w; owed := top_bytes (frames w);
     owed_next := negb (bool_decide (staged w = [])) |}.

Inductive event :=
  | Stage (c : FsyncClass)
  | Tick
  | LogFrame (write_through_ok : bool) (seal : option (SealHandoff File)) (e : Lsn.t) (n now : Z)
  | LogStandalone (now : Z)
  | LogCompletion (now : Z)
  | FrameWritten (id : Z)
  | Synced (t : Z)
  | SyncFailed (t : Z)
  | BootBarrierOn (h : option File) (now : Z)
  | PreallocBarrierOn (dir : File) (now : Z)
  | ZeroFillOn (now : Z)
  | ExtentOn (now : Z) (made : option File)
  | IssueExtents
  | Rebase (t now : Z).

Definition state : Type := World * GroupCommit.

(** A rotation's deferred seal, if any. *)
Definition log_seal (x : state) (seal : option (SealHandoff File)) (now : Z) : panics state :=
  let '(w, g) := x in
  match seal with
  | None => mret (w, g)
  | Some h =>
      '(g', t) ← register_seal_fsync g h now;
      mret (move_cursor (Lsn.new (ho_segment h) (ho_end_offset h))
              (promise t (landed_in w (ho_segment h)) w), g')
  end.

(** The frame and the barrier its plan gave it. *)
Definition log_queue (x : state) (plan : FramePlan) (e : Lsn.t) (n now : Z) : panics state :=
  let '(w, g) := x in
  '(g1, _) ← note_frame_queued g e n;
  let own := length (frames w) in
  let w1 := add_frame e (top_bytes (frames w) + n) w in
  match plan with
  | PlanWriteThrough =>
      '(g2, t) ← register_write_through g1 now; mret (promise t {[own]} w1, g2)
  | PlanLinkedFsync =>
      '(g2, t) ← register_linked_fsync g1 now;
      mret (promise t ({[own]} ∪ landed_in w1 (Lsn.segment e)) w1, g2)
  | PlanPlain => mret (w1, g1)
  | PlanWait => Panic
  end.

Definition step (x : state) (ev : event) : panics state :=
  let '(w, g) := x in
  match ev with
  | Stage c => mret (stage c w, note_staged g c)
  | Tick => mret (tick_promise w, note_everysec_tick g)
  | LogFrame ok seal e n now =>
      let plan := frame_plan g ok (bool_decide (is_Some seal)) in
      if bool_decide (plan = PlanWait) then mret x
      else x1 ← log_seal x seal now; log_queue x1 plan e n now
  | LogStandalone now =>
      '(g', t) ← register_standalone_fsync g now;
      mret (promise t (landed_in w (Lsn.segment (cursor w))) w, g')
  | LogCompletion now =>
      '(g', t) ← register_completion_fsync g now;
      mret (promise t (landed_in w (Lsn.segment (cursor w))) w, g')
  | FrameWritten id => g' ← note_frame_written g id; mret (land (Z.to_nat (id - 1)) w, g')
  | Synced t => '(g', _) ← on_fsync_complete g t; mret (persist t w, g')
  | SyncFailed t => '(g', _) ← on_fsync_error g t; mret (w, g')
  | BootBarrierOn h now =>
      '(g', t) ← register_boot_barrier g (cursor w) h now; mret (promise t ∅ w, g')
  | PreallocBarrierOn dir now =>
      '(g', t) ← register_prealloc_barrier g dir now; mret (promise t ∅ w, g')
  | ZeroFillOn now => '(g', t) ← register_zero_fill_barrier g now; mret (promise t ∅ w, g')
  | ExtentOn now made =>
      '(g', r) ← register_extent raw_fd g now
                   (fun _ => match made with Some f => Ok (f, tt) | None => Err tt end);
      mret (match r with Registered t _ => promise t ∅ w | _ => w end, g')
  | IssueExtents => mret (w, (issue_extent_syncs g).1)
  | Rebase t now => mret (w, rebase_clock g t now)
  end.

Fixpoint run (x : state) (evs : list event) : panics state :=
  match evs with [] => mret x | ev :: evs => x' ← step x ev; run x' evs end.

(** The fdatasync of extent ticket [t], if the window holds it, was issued. *)
Definition issued (l : Ledger) (t : Z) : Prop :=
  forall k s, extent_window l !! k = Some s -> es_ticket s = t ->
    Z.of_nat k < len (extent_window l) - extent_unsent l.

(** What the plane, the rotor and the driver promise. Frames are non-empty and
    appended at the cursor; the staging ring holds at most
    [MAX_FRAMES_IN_FLIGHT]; rotation waits for the pipeline to drain, seals the
    active segment and opens a later one; standalone syncs are registered when
    due; completions name an entry in flight that was submitted, once; boot
    barriers come first. *)
Definition allowed (x : state) (ev : event) : Prop :=
  let '(w, g) := x in
  match ev with
  | LogFrame _ seal e n _ =>
      0 < n /\ unwritten (queue g) < MAX_FRAMES_IN_FLIGHT /\
      match seal with
      | None => Lsn.segment e = Lsn.segment (cursor w) /\ Lsn.lt (cursor w) e
      | Some h =>
          drained g = true /\ ho_segment h = Lsn.segment (cursor w) /\
          Lsn.offset (cursor w) <= ho_end_offset h /\ Lsn.segment (cursor w) < Lsn.segment e
      end
  | LogStandalone _ => standalone_fsync_due g = true
  | LogCompletion _ => completion_fsync_due g = true
  | FrameWritten id => exists f, f ∈ queued (queue g) /\ qid f = id /\ written f = false
  | Synced t | SyncFailed t =>
      (exists p, p ∈ pending (ledger g) /\ ticket p = t /\ done_ p = false /\ failed p = false) /\
      issued (ledger g) t
  | BootBarrierOn _ _ => stats g frames_queued = 0 /\ durable_up_to (ledger g) = None
  | _ => True
  end.

(** ** The invariant *)

(** The tickets of the extent barriers, in ledger order. *)
Fixpoint ext_tickets (ps : list PendingFsync) : list Z :=
  match ps with
  | [] => []
  | p :: ps => if is_extent (reason p) then ticket p :: ext_tickets ps else ext_tickets ps
  end.

Definition fr (f : QueuedFrame) : Lsn.t * Z := (qend f, end_bytes f).
Definition top_lsn (F : list (Lsn.t * Z)) : option Lsn.t := fst <$> list.last F.

(** An LSN and a byte count that separate the frames at the same place. *)
Definition cut (w : World) (c : Lsn.t) (b : Z) : Prop :=
  forall i x, frames w !! i = Some x -> Lsn.le x.1 c <-> x.2 <= b.

(** On stable storage, or in what one of the entries will persist. *)
Definition covered (w : World) (ps : list PendingFsync) (i : nat) : Prop :=
  i ∈ stable w \/ exists p, p ∈ ps /\ i ∈ will_of w (ticket p).

Definition in_flight (p : PendingFsync) : bool :=
  negb (done_ p) && negb (failed p) && negb (is_wt (reason p)).

Record frames_inv (w : World) : Prop := {
  fi_sorted i j x y : (i < j)%nat -> frames w !! i = Some x -> frames w !! j = Some y ->
    Lsn.lt x.1 y.1 /\ x.2 < y.2;
  fi_pos i x : frames w !! i = Some x ->
    Lsn.lt (Lsn.new 0 0) x.1 /\ 0 < x.2 /\ Lsn.le x.1 (cursor w);
  fi_cursor : Lsn.le (Lsn.new 0 0) (cursor w) }.

Record queue_inv (w : World) (q : Queue) (F : list (Lsn.t * Z)) : Prop := {
  qi_frames : frames w = F ++ (fr <$> queued q);
  qi_up : queued_up_to q = top_lsn (frames w);
  qi_bytes : queued_bytes q = top_bytes (frames w);
  qi_wup : written_up_to q = top_lsn F;
  qi_wbytes : written_bytes q = top_bytes F;
  qi_id : next_frame_id q = len (frames w);
  qi_ids i f : queued q !! i = Some f -> qid f = len F + Z.of_nat i + 1;
  qi_landed i : (i < length F)%nat -> i ∈ landed w;
  qi_written i f : queued q !! i = Some f -> written f = true -> (length F + i)%nat ∈ landed w;
  qi_unwritten : unwritten q = cnt (fun f => negb (written f)) (queued q);
  qi_front f : head (queued q) = Some f -> written f = false;
  qi_window : len (queued q) <= REORDER_WINDOW_FRAMES;
  qi_ring : unwritten q <= MAX_FRAMES_IN_FLIGHT }.

Record ledger_inv (w : World) (qb : Z) (l : Ledger) : Prop := {
  li_bound : 1 <= flush_bound l <= 2;
  li_tickets i p : pending l !! i = Some p -> ticket p = next_ticket l - len (pending l) + Z.of_nat i + 1;
  li_flush : flush_in_flight l = cnt in_flight (pending l);
  li_wt : write_through_pending l = cnt (fun p => is_wt (reason p)) (pending l);
  li_wt_window : write_through_pending l <= WRITE_THROUGH_WINDOW_ENTRIES;
  li_excl p : p ∈ pending l -> done_ p = true -> failed p = false;
  li_cut p : p ∈ pending l -> cut w (covers_up_to p) (covers_bytes p);
  li_range p : p ∈ pending l ->
    Lsn.le (covers_up_to p) (cursor w) /\ durable_bytes l <= covers_bytes p <= qb;
  li_sorted i j p p' : (i < j)%nat -> pending l !! i = Some p -> pending l !! j = Some p' ->
    Lsn.le (covers_up_to p) (covers_up_to p') /\ covers_bytes p <= covers_bytes p';
  li_cov k p i x : pending l !! k = Some p -> frames w !! i = Some x -> x.2 <= covers_bytes p ->
    covered w (take (S k) (pending l)) i;
  li_done p : p ∈ pending l -> done_ p = true -> will_of w (ticket p) ⊆ stable w;
  li_durable i x : frames w !! i = Some x -> x.2 <= durable_bytes l -> i ∈ stable w;
  li_watermark : match durable_up_to l with
                 | Some d => cut w d (durable_bytes l) /\ Lsn.le d (cursor w) /\
                             (forall p, p ∈ pending l -> Lsn.le d (covers_up_to p))
                 | None => durable_bytes l = 0
                 end;
  li_durable_range : 0 <= durable_bytes l <= qb;
  li_old i x : frames w !! i = Some x -> Lsn.segment x.1 < Lsn.segment (cursor w) ->
    covered w (pending l) i;
  li_fresh t : next_ticket l < t -> will w !! t = None }.

(** The done prefix is folded. *)
Definition front_open (l : Ledger) : Prop :=
  forall p, head (pending l) = Some p -> done_ p = false \/ failed p = true.

(** The extent window mirrors the ledger's extent barriers; those already done
    are among the issued ones. *)
Record extent_inv (l : Ledger) : Prop := {
  ei_issued p : p ∈ pending l -> done_ p = true -> issued l (ticket p);
  ei_window : es_ticket <$> extent_window l = ext_tickets (pending l);
  ei_unsent : 0 <= extent_unsent l <= len (extent_window l);
  ei_cap : len (extent_window l) <= EXTENT_SEAL_WINDOW_ENTRIES }.

Record due_inv (w : World) (g : GroupCommit) : Prop := {
  di_unqueued : always_unqueued (dues g) = true -> always_pending (dues g) = true;
  di_always : always_pending (dues g) = true -> sync_due (dues g) = true;
  di_owed : 0 <= owed w <= queued_bytes (queue g);
  di_staged : staged w <> [] -> (always_unqueued (dues g) || everysec_unqueued (dues g)) = true;
  di_next : owed_next w = true -> sync_due (dues g) = true /\ staged w <> [];
  di_idle : sync_due (dues g) = false -> owed w <= (coverage_tail g).2 }.

Definition inv (x : state) : Prop :=
  frames_inv x.1 /\ (exists F, queue_inv x.1 (queue x.2) F) /\
  ledger_inv x.1 (queued_bytes (queue x.2)) (ledger x.2) /\ front_open (ledger x.2) /\
  extent_inv (ledger x.2) /\ due_inv x.1 x.2 /\ (stats x.2 frames_queued = len (frames x.1)).

(** ** Extent tickets *)

Lemma ext_tickets_app ps qs : ext_tickets (ps ++ qs) = ext_tickets ps ++ ext_tickets qs.
Proof. induction ps as [|p ps IH]; [done|]. cbn. destruct (is_extent _); cbn; by rewrite IH. Qed.

Lemma ext_tickets_insert ps i p p' :
  ps !! i = Some p -> reason p' = reason p -> ticket p' = ticket p ->
  ext_tickets (<[i := p']> ps) = ext_tickets ps.
Proof.
  revert i. induction ps as [|z ps IH]; intros [|i] Hi Hr Ht; try done.
  - injection Hi as ->. cbn. by rewrite Hr, Ht.
  - change (<[S i := p']> (z :: ps)) with (z :: <[i := p']> ps). cbn [ext_tickets]. by rewrite (IH i).
Qed.

(** ** Pushing an entry *)

Definition push_entry (p : PendingFsync) (l : Ledger) : Ledger :=
  {| flush_bound := flush_bound l;
     flush_in_flight := flush_in_flight l + (if is_wt (reason p) then 0 else 1);
     write_through_pending := write_through_pending l + (if is_wt (reason p) then 1 else 0);
     durable_up_to := durable_up_to l; durable_bytes := durable_bytes l;
     pending := pending l ++ [p]; next_ticket := ticket p;
     extent_window := extent_window l; extent_unsent := extent_unsent l |}.

Definition discretionary (why : SyncReason) : bool :=
  match why with Linked | Standalone | Completion => true | _ => false end.

Definition new_entry (g : GroupCommit) up_to bytes now why h : PendingFsync :=
  {| ticket := mint g; covers_up_to := up_to; covers_bytes := bytes; submitted_at := now;
     reason := why; done_ := false; failed := false; held := h |}.

Lemma push_pending_Ok g up_to bytes now why h :
  (forall p, list.last (pending (ledger g)) = Some p -> Lsn.le (covers_up_to p) up_to) ->
  (discretionary why = true -> flush_in_flight (ledger g) < flush_bound (ledger g)) ->
  (why = WriteThrough -> write_through_pending (ledger g) < WRITE_THROUGH_WINDOW_ENTRIES) ->
  push_pending g up_to bytes now why h =
  Ok ({| dues := dues g; queue := queue g;
         ledger := push_entry (new_entry g up_to bytes now why h) (ledger g);
         stats := stats g |}, mint g).
Proof.
  intros Hm Hd Hw. unfold push_pending.
  assert ((match list.last (pending (ledger g)) with
    | None => true | Some p => Lsn.leb (covers_up_to p) up_to end) = true) as ->.
  { destruct (list.last _); [|done]. by apply Lsn.leb_le, Hm. }
  assert ((match why with Linked | Standalone | Completion =>
      flush_in_flight (ledger g) <? flush_bound (ledger g) | _ => true end) = true) as ->.
  { destruct why; try done; apply Z.ltb_lt, Hd; done. }
  assert ((negb (is_wt why) ||
    (write_through_pending (ledger g) <? WRITE_THROUGH_WINDOW_ENTRIES)) = true) as ->.
  { unfold is_wt. case_bool_decide as E; [|done]. cbn. apply Z.ltb_lt, Hw, E. }
  done.
Qed.

Lemma ticket_le w qb l p : ledger_inv w qb l -> p ∈ pending l -> ticket p <= next_ticket l.
Proof.
  intros Hl [i Hi]%list_elem_of_lookup. rewrite (li_tickets _ _ _ Hl i p Hi).
  apply lookup_lt_Some in Hi. unfold len. lia.
Qed.

Lemma will_of_promise t E w t' :
  will_of (promise t E w) t' = if decide (t' = t) then E else will_of w t'.
Proof.
  unfold will_of, promise. cbn [will]. case_decide as Ht.
  - subst. by rewrite lookup_insert_eq.
  - by rewrite lookup_insert_ne.
Qed.

Lemma covered_promise t E w ps i :
  (forall p, p ∈ ps -> ticket p <> t) -> covered w ps i -> covered (promise t E w) ps i.
Proof.
  intros Hne [Hs|(p & Hp & Hi)]; [by left|right]. exists p. split; [done|].
  rewrite will_of_promise, decide_False by by apply Hne. done.
Qed.

Lemma covered_weaken w ps qs i : covered w ps i -> ps ⊆ qs -> covered w qs i.
Proof. intros [?|(p & ? & ?)] Hs; [by left|right; exists p; set_solver]. Qed.

Record pushable (w : World) (qb : Z) (l : Ledger) (p : PendingFsync) : Prop := {
  pu_ticket : ticket p = next_ticket l + 1;
  pu_open : done_ p = false /\ failed p = false;
  pu_tail p0 : p0 ∈ pending l ->
    Lsn.le (covers_up_to p0) (covers_up_to p) /\ covers_bytes p0 <= covers_bytes p;
  pu_durable : match durable_up_to l with Some d => Lsn.le d (covers_up_to p) | None => True end;
  pu_range : durable_bytes l <= covers_bytes p <= qb /\ Lsn.le (covers_up_to p) (cursor w);
  pu_cut : cut w (covers_up_to p) (covers_bytes p);
  pu_wt : reason p = WriteThrough -> write_through_pending l < WRITE_THROUGH_WINDOW_ENTRIES }.

Lemma ledger_inv_push w qb l p E :
  ledger_inv w qb l -> pushable w qb l p ->
  (forall i x, frames w !! i = Some x -> x.2 <= covers_bytes p -> covered w (pending l) i \/ i ∈ E) ->
  ledger_inv (promise (ticket p) E w) qb (push_entry p l).
Proof.
  intros Hl Hp HE. destruct Hp as [Ht [Hd Hfl] Htail Hdu [Hr1 Hr2] Hcut Hwt].
  assert (Hne : forall p0, p0 ∈ pending l -> ticket p0 <> ticket p).
  { intros p0 H0. pose proof (ticket_le _ _ _ _ Hl H0). lia. }
  assert (Hin : forall p0, p0 ∈ pending l ++ [p] -> p0 ∈ pending l \/ p0 = p) by set_solver.
  assert (Hlk : forall i p0, (pending l ++ [p]) !! i = Some p0 ->
    pending l !! i = Some p0 \/ i = length (pending l) /\ p0 = p).
  { intros i p0 [Hi|[Hi1 Hi2]]%lookup_app_Some; [by left|right].
    apply list_lookup_singleton_Some in Hi2 as [? <-]. split; [lia|done]. }
  assert (Hold : forall ps i, ps ⊆ pending l -> covered w ps i -> covered (promise (ticket p) E w) ps i).
  { intros ps i Hps. apply covered_promise. intros p0 H0. apply Hne, Hps, H0. }
  destruct Hl. constructor; cbn [push_entry flush_bound pending next_ticket flush_in_flight
    write_through_pending durable_bytes durable_up_to promise frames stable cursor will]; try done.
  - intros i p0 [Hi|[-> ->]]%Hlk; rewrite len_app, len_cons, len_nil.
    + rewrite (li_tickets0 _ _ Hi). lia.
    + unfold len. lia.
  - rewrite cnt_app, li_flush0. cbn [cnt]. replace (in_flight p) with (negb (is_wt (reason p)))
      by (unfold in_flight; by rewrite Hd, Hfl).
    destruct (is_wt _); cbn; lia.
  - rewrite cnt_app, li_wt0. cbn [cnt]. destruct (is_wt _); cbn; lia.
  - unfold is_wt. case_bool_decide as Hw; [specialize (Hwt Hw); lia|lia].
  - intros p0 [Hi| ->]%Hin; [by apply li_excl0|congruence].
  - intros p0 [Hi| ->]%Hin; [by apply li_cut0|done].
  - intros p0 [Hi| ->]%Hin; [by apply li_range0|done].
  - intros i j p0 p1 Hij [Hi|[-> ->]]%Hlk [Hj|[-> ->]]%Hlk.
    + by apply (li_sorted0 i j).
    + apply Htail. by apply list_elem_of_lookup_2 in Hi.
    + apply lookup_lt_Some in Hj. lia.
    + lia.
  - intros k p0 i x Hk Hi Hx. apply Hlk in Hk as [Hk|[-> ->]].
    + rewrite take_app_le by (apply lookup_lt_Some in Hk; lia).
      apply Hold; [by intros ? (? & ?%list_elem_of_lookup_2 & _)%elem_of_take|]. by apply (li_cov0 k p0 i x).
    + rewrite take_ge by (rewrite length_app; cbn; lia). destruct (HE i x Hi Hx) as [Hc|Hc].
      * apply (covered_weaken _ (pending l)); [by apply Hold|set_solver].
      * right. exists p. split; [set_solver|]. by rewrite will_of_promise, decide_True.
  - intros p0 [Hi| ->]%Hin H0; [|congruence]. rewrite will_of_promise, decide_False by by apply Hne.
    by apply li_done0.
  - destruct (durable_up_to l); [|done]. destruct li_watermark0 as (? & ? & Hle). split_and!; try done.
    intros p0 [Hi| ->]%Hin; [by apply Hle|done].
  - intros i x Hi Hs. apply (covered_weaken _ (pending l)); [|set_solver].
    apply Hold; [done|]. by apply (li_old0 i x).
  - intros t Hlt. rewrite lookup_insert_ne by lia. apply li_fresh0. lia.
Qed.

(** ** Completing an entry *)

Definition mark_done (i : nat) (p : PendingFsync) (l : Ledger) : Ledger :=
  {| flush_bound := flush_bound l;
     flush_in_flight := flush_in_flight l - (if is_wt (reason p) then 0 else 1);
     write_through_pending := write_through_pending l;
     durable_up_to := durable_up_to l; durable_bytes := durable_bytes l;
     pending := <[i := set_done p]> (pending l); next_ticket := next_ticket l;
     extent_window := extent_window l; extent_unsent := extent_unsent l |}.

(** An entry of an updated ledger is the old one up to its completion flags. *)
Definition same_entry (p p' : PendingFsync) : Prop :=
  ticket p' = ticket p /\ covers_up_to p' = covers_up_to p /\ covers_bytes p' = covers_bytes p /\
  reason p' = reason p.

Lemma lookup_update {A} (l : list A) i j x y z :
  l !! i = Some x -> <[i := y]> l !! j = Some z ->
  j = i /\ z = y \/ j <> i /\ l !! j = Some z.
Proof.
  intros Hi Hj. destruct (decide (i = j)) as [<-|Hne].
  - rewrite list_lookup_insert_eq in Hj by (by eapply lookup_lt_Some). left. naive_solver.
  - rewrite list_lookup_insert_ne in Hj by done. right. naive_solver.
Qed.

Lemma covered_same w ps ps' i :
  (forall p, p ∈ ps -> exists p', p' ∈ ps' /\ ticket p' = ticket p) -> covered w ps i -> covered w ps' i.
Proof.
  intros H [?|(p & Hp & Hi)]; [by left|right]. destruct (H p Hp) as (p' & ? & Ht).
  exists p'. by rewrite Ht.
Qed.

Lemma covered_persist t w ps i : covered w ps i -> covered (persist t w) ps i.
Proof. intros [?|?]; [left; cbn; set_solver|by right]. Qed.

(** Replacing an entry by one with the same coverage. *)
Section update.
Context (w : World) (qb : Z) (l : Ledger) (i : nat) (p p' : PendingFsync).
Hypothesis Hl : ledger_inv w qb l.
Hypothesis Hi : pending l !! i = Some p.
Hypothesis Hsame : same_entry p p'.

Lemma update_entry j q : <[i := p']> (pending l) !! j = Some q ->
  exists q0, pending l !! j = Some q0 /\ same_entry q0 q.
Proof.
  intros Hj. destruct (lookup_update _ _ _ _ _ _ Hi Hj) as [[-> ->]|[_ Hj']]; [by eauto|].
  exists q. split; [done|]. by unfold same_entry.
Qed.

Lemma update_elem q : q ∈ <[i := p']> (pending l) ->
  q = p' \/ q ∈ pending l.
Proof.
  intros [j Hj]%list_elem_of_lookup. destruct (lookup_update _ _ _ _ _ _ Hi Hj) as [[-> ->]|[_ Hj']];
    [by left|right]. by apply list_elem_of_lookup_2 in Hj'.
Qed.

Lemma update_back j q0 : pending l !! j = Some q0 ->
  exists q, <[i := p']> (pending l) !! j = Some q /\ ticket q = ticket q0.
Proof.
  intros Hj. destruct (decide (i = j)) as [<-|Hne].
  - exists p'. rewrite list_lookup_insert_eq by (by eapply lookup_lt_Some).
    split; [done|]. assert (q0 = p) as -> by congruence. apply Hsame.
  - exists q0. by rewrite list_lookup_insert_ne.
Qed.
End update.

Definition with_entry (i : nat) (p : PendingFsync) (flush : Z) (l : Ledger) : Ledger :=
  {| flush_bound := flush_bound l; flush_in_flight := flush;
     write_through_pending := write_through_pending l;
     durable_up_to := durable_up_to l; durable_bytes := durable_bytes l;
     pending := <[i := p]> (pending l); next_ticket := next_ticket l;
     extent_window := extent_window l; extent_unsent := extent_unsent l |}.

(** [w'] differs from [w] at most in having more on stable storage. *)
Definition more_stable (w w' : World) : Prop :=
  frames w' = frames w /\ cursor w' = cursor w /\ will w' = will w /\ stable w ⊆ stable w'.

Lemma ledger_inv_update w w' qb l i p p' flush :
  ledger_inv w qb l -> pending l !! i = Some p -> same_entry p p' -> more_stable w w' ->
  (done_ p' = true -> failed p' = false /\ will_of w (ticket p) ⊆ stable w') ->
  flush = cnt in_flight (<[i := p']> (pending l)) ->
  ledger_inv w' qb (with_entry i p' flush l).
Proof.
  intros Hl Hi Hsame (Hfr & Hcu & Hwi & Hst) Hdone Hflush.
  pose proof (update_entry l i p p' Hi Hsame) as Hent. pose proof (update_elem l i p p' Hi) as Hel.
  assert (Hp : p ∈ pending l) by (by eapply list_elem_of_lookup_2).
  assert (Hmem : forall q, q ∈ <[i := p']> (pending l) -> exists q0, q0 ∈ pending l /\ same_entry q0 q).
  { intros q [j Hj]%list_elem_of_lookup. destruct (Hent j q Hj) as (q0 & ?%list_elem_of_lookup_2 & ?). eauto. }
  assert (Hcov : forall ps i0, covered w ps i0 -> covered w' ps i0).
  { intros ps i0 [?|(q & ? & ?)]; [left; set_solver|right; exists q]. unfold will_of in *. by rewrite Hwi. }
  destruct Hl. constructor; cbn [with_entry flush_bound flush_in_flight write_through_pending durable_up_to
    durable_bytes pending next_ticket]; rewrite ?Hfr, ?Hcu, ?Hwi; try done.
  - intros j q (q0 & Hq0 & (Ht & _))%Hent. rewrite Ht, (li_tickets0 j q0 Hq0). unfold len. by rewrite length_insert.
  - rewrite (cnt_insert _ _ _ _ _ Hi). destruct Hsame as (_ & _ & _ & ->). lia.
  - intros q [-> |Hq]%Hel Hd; [by apply Hdone|by apply li_excl0].
  - intros q (q0 & Hq0 & (_ & -> & -> & _))%Hmem j x. rewrite Hfr. by apply li_cut0.
  - intros q (q0 & Hq0 & (_ & -> & -> & _))%Hmem. by apply li_range0.
  - intros a b q q' Hab (q0 & Hq0 & (_ & -> & -> & _))%Hent (q1 & Hq1 & (_ & -> & -> & _))%Hent.
    by apply (li_sorted0 a b).
  - intros k q j x (q0 & Hq0 & (_ & _ & -> & _))%Hent Hj Hx.
    apply (covered_same _ (take (S k) (pending l))); [|by apply Hcov, (li_cov0 k q0 j x)].
    intros r (a & Ha & Hlt)%elem_of_take. destruct (update_back l i p p' Hi Hsame a r Ha) as (r' & Hr' & ?).
    exists r'. split; [|done]. apply elem_of_take. eauto.
  - intros q [-> |Hq]%Hel Hd.
    + destruct Hsame as (Ht & _). unfold will_of in *. rewrite Hwi, Ht. by apply Hdone.
    + etrans; [|exact Hst]. unfold will_of in *. rewrite Hwi. by apply li_done0.
  - intros j x Hj Hx. apply Hst. by apply (li_durable0 j x).
  - destruct (durable_up_to l) as [d|]; [|done]. destruct li_watermark0 as (Hc & ? & Hle).
    split_and!; [|done|].
    + intros j x. rewrite Hfr. apply Hc.
    + intros q (q0 & Hq0 & (_ & -> & _ & _))%Hmem. by apply Hle.
  - intros j x Hj Hs. apply (covered_same _ (pending l)); [|by apply Hcov, (li_old0 j x)].
    intros r [a Ha]%list_elem_of_lookup. destruct (update_back l i p p' Hi Hsame a r Ha) as (r' & Hr' & ?).
    exists r'. split; [|done]. by apply list_elem_of_lookup_2 in Hr'.
Qed.

(** ** Folding the done prefix *)

Definition fold_one (front : PendingFsync) (rest : list PendingFsync) (l : Ledger) : Ledger :=
  {| flush_bound := flush_bound l; flush_in_flight := flush_in_flight l;
     write_through_pending := write_through_pending l - (if is_wt (reason front) then 1 else 0);
     durable_up_to := Some (covers_up_to front); durable_bytes := covers_bytes front;
     pending := rest; next_ticket := next_ticket l;
     extent_window := if is_extent (reason front)
                      then fold_extent (ticket front) (extent_window l) else extent_window l;
     extent_unsent := extent_unsent l |}.

Lemma ledger_inv_fold w qb l front rest :
  ledger_inv w qb l -> pending l = front :: rest -> done_ front = true ->
  ledger_inv w qb (fold_one front rest l).
Proof.
  intros Hl Hp Hd.
  assert (Hin : forall q, q ∈ rest -> q ∈ pending l) by (rewrite Hp; set_solver).
  assert (Hfr : front ∈ pending l) by (rewrite Hp; set_solver).
  assert (Hlk : forall j q, rest !! j = Some q -> pending l !! S j = Some q) by (by rewrite Hp).
  assert (H0 : pending l !! 0%nat = Some front) by (by rewrite Hp).
  assert (Hcov : forall ps i, covered w (front :: ps) i -> covered w ps i).
  { intros ps i [?|(q & Hq & ?)]; [by left|]. apply elem_of_cons in Hq as [-> |]; [|by right; eauto].
    left. by apply (li_done _ _ _ Hl front Hfr Hd). }
  assert (Hlt : forall q, q ∈ rest -> Lsn.le (covers_up_to front) (covers_up_to q) /\ covers_bytes front <= covers_bytes q).
  { intros q [j Hj]%list_elem_of_lookup. by apply (li_sorted _ _ _ Hl 0 (S j)); [lia|..|apply Hlk]. }
  destruct Hl. constructor; cbn [fold_one flush_bound flush_in_flight write_through_pending durable_up_to
    durable_bytes pending next_ticket]; try done.
  - intros j q Hj. rewrite (li_tickets0 (S j) q) by by apply Hlk. rewrite Hp, len_cons. lia.
  - rewrite li_flush0, Hp. cbn [cnt]. unfold in_flight at 1. by rewrite Hd.
  - rewrite li_wt0, Hp. cbn [cnt]. destruct (is_wt _); cbn; lia.
  - destruct (is_wt _); lia.
  - intros q Hq. by apply li_excl0, Hin.
  - intros q Hq. by apply li_cut0, Hin.
  - intros q Hq. split; [by apply li_range0, Hin|]. split; [by apply Hlt|by apply li_range0, Hin].
  - intros a b q q' Hab Ha Hb. apply (li_sorted0 (S a) (S b)); [lia|by apply Hlk..].
  - intros k q i x Hk Hi Hx. apply Hcov. specialize (li_cov0 (S k) q i x (Hlk _ _ Hk) Hi Hx). by rewrite Hp in li_cov0.
  - intros q Hq. by apply li_done0, Hin.
  - intros i x Hi Hx. specialize (li_cov0 0%nat front i x H0 Hi Hx). rewrite Hp in li_cov0.
    apply Hcov in li_cov0 as [?|(q & Hq & _)]; [done|]. cbn in Hq. set_solver.
  - split_and!; [by apply li_cut0|by apply li_range0|]. intros q Hq. by apply Hlt.
  - destruct (li_range0 front Hfr) as [_ ?]. lia.
  - intros i x Hi Hs. apply Hcov. specialize (li_old0 i x Hi Hs). by rewrite Hp in li_old0.
Qed.

Lemma extent_inv_fold l front rest :
  extent_inv l -> pending l = front :: rest -> done_ front = true ->
  extent_inv (fold_one front rest l).
Proof.
  intros [Hiss Hwin Hun Hcap] Hp Hd. rewrite Hp in Hwin. cbn [ext_tickets] in Hwin.
  assert (Hin : forall q, q ∈ rest -> q ∈ pending l) by (rewrite Hp; set_solver).
  unfold fold_one. destruct (is_extent (reason front)) eqn:Ee.
  2:{ constructor; cbn; try done. intros q Hq. by apply Hiss, Hin. }
  destruct (extent_window l) as [|s ws] eqn:Ew; [done|]. cbn in Hwin. injection Hwin as Hs Hws.
  pose proof (Hiss front ltac:(rewrite Hp; set_solver) Hd) as Hi0. unfold issued in *. rewrite Ew in *.
  specialize (Hi0 0%nat s eq_refl Hs). rewrite len_cons in *.
  constructor; cbn; try done; [|lia|lia].
  intros q Hq Hdq k s' Hk Ht. specialize (Hiss q (Hin q Hq) Hdq (S k) s' Hk Ht). cbn in *. lia.
Qed.

Lemma fold_done_inv w qb p : forall l,
  ledger_inv w qb l -> extent_inv l -> pending l = p ->
  let l' := fold_done p l in
  ledger_inv w qb l' /\ extent_inv l' /\ front_open l' /\
  (forall g, ledger g = l -> forall g', ledger g' = l' -> (coverage_tail g').2 = (coverage_tail g).2).
Proof.
  induction p as [|front rest IH]; intros l Hl He Hp l'.
  - assert (l' = l) as ->.
    { unfold l'. cbn. unfold set_pending. destruct l; cbn in *. by subst. }
    split_and!; try done; [intros q; by rewrite Hp|]. intros g <- g' Hg. unfold coverage_tail. by rewrite Hg.
  - unfold l'. cbn [fold_done]. destruct (negb (done_ front) || failed front) eqn:Est.
    + assert (set_pending (front :: rest) l = l) as -> by (unfold set_pending; destruct l; cbn in *; by subst).
      split_and!; try done.
      * intros q. rewrite Hp. intros [= <-]. destruct (done_ front); [right; by cbn in Est|by left].
      * intros g <- g' Hg. unfold coverage_tail. by rewrite Hg.
    + apply orb_false_iff in Est as [Hd%negb_false_iff Hf].
      destruct (IH (fold_one front rest l)) as (H1 & H2 & H3 & H4);
        [by apply ledger_inv_fold|by apply extent_inv_fold|done|].
      fold (fold_one front rest l). split_and!; try done. intros g <- g' Hg.
      rewrite (H4 {| dues := dues g; queue := queue g; ledger := fold_one front rest (ledger g); stats := stats g |}
        eq_refl g' Hg). unfold coverage_tail. cbn [ledger fold_one pending durable_up_to durable_bytes].
      rewrite Hp. destruct rest as [|q rest]; [done|]. rewrite last_cons_cons.
      destruct (list.last (q :: rest)) eqn:El; [done|]. by apply last_None in El.
Qed.

(** ** The completion events *)

Lemma pending_index_Some w qb g p t :
  ledger_inv w qb (ledger g) -> p ∈ pending (ledger g) -> ticket p = t ->
  exists i, pending (ledger g) !! i = Some p /\ pending_index g t = Some (Z.of_nat i) /\
            get (pending (ledger g)) (Z.of_nat i) = Some p.
Proof.
  intros Hl [i Hi]%list_elem_of_lookup Ht. exists i. split; [done|].
  assert (Hg : get (pending (ledger g)) (Z.of_nat i) = Some p).
  { unfold get. rewrite (proj2 (Z.leb_le 0 _)), Nat2Z.id by lia. done. }
  split; [|done]. unfold pending_index.
  pose proof (li_tickets _ _ _ Hl i p Hi) as Hti.
  destruct (pending (ledger g)) as [|p0 ps] eqn:Ep; [done|]. cbn [head hd_error mbind option_bind].
  pose proof (li_tickets _ _ _ Hl 0%nat p0 ltac:(by rewrite Ep)) as H0. rewrite Ep in *.
  unfold checked_sub. rewrite (proj2 (Z.leb_le _ t)) by lia. cbn [mbind option_bind].
  replace (t - ticket p0) with (Z.of_nat i) by lia. by rewrite Hg.
Qed.

Lemma tail_with_entry g g' i p p' flush w qb :
  ledger_inv w qb (ledger g) -> pending (ledger g) !! i = Some p -> same_entry p p' ->
  ledger g' = with_entry i p' flush (ledger g) -> coverage_tail g' = coverage_tail g.
Proof.
  intros Hl Hi Hs Hg. unfold coverage_tail. rewrite Hg. cbn [with_entry pending durable_up_to durable_bytes].
  rewrite !last_lookup, length_insert. set (k := pred _).
  destruct (pending (ledger g) !! k) as [q|] eqn:Ek.
  - destruct (update_back (ledger g) i p p' Hi Hs k q Ek) as (q' & Hq' & _). rewrite Hq'.
    destruct (update_entry (ledger g) i p p' Hi Hs k q' Hq') as (q0 & Hq0 & (_ & -> & -> & _)).
    by assert (q0 = q) as -> by congruence.
  - apply lookup_ge_None in Ek. rewrite (proj2 (lookup_ge_None _ _)); [done|]. by rewrite length_insert.
Qed.

Lemma extent_inv_with_entry i p p' flush l :
  extent_inv l -> pending l !! i = Some p -> same_entry p p' ->
  (done_ p' = true -> issued l (ticket p)) -> extent_inv (with_entry i p' flush l).
Proof.
  intros [Hiss Hwin Hun Hcap] Hi (Ht & Hc1 & Hc2 & Hr) Hd.
  constructor; cbn [with_entry pending extent_window extent_unsent]; try done.
  - intros q [-> |Hq]%(update_elem l i p p' Hi) Hdq; [rewrite Ht; by apply Hd|by apply Hiss].
  - by rewrite (ext_tickets_insert _ _ p).
Qed.

Lemma due_inv_tail w w' g g' :
  due_inv w g -> dues g' = dues g -> queue g' = queue g -> staged w' = staged w ->
  owed w' = owed w -> owed_next w' = owed_next w -> (coverage_tail g').2 = (coverage_tail g).2 -> due_inv w' g'.
Proof.
  intros [] Hd Hq Hs Ho Hn Ht. constructor; rewrite ?Hd, ?Hq, ?Hs, ?Ho, ?Hn, ?Ht; done.
Qed.

Lemma queue_inv_more_stable w w' q F :
  more_stable w w' -> landed w' = landed w -> queue_inv w q F -> queue_inv w' q F.
Proof. intros (Hf & _) Hl []. constructor; rewrite ?Hf, ?Hl; done. Qed.

Lemma frames_inv_more_stable w w' : more_stable w w' -> frames_inv w -> frames_inv w'.
Proof. intros (Hf & Hc & _) []. constructor; rewrite ?Hf, ?Hc; done. Qed.

Lemma persist_more_stable t w : more_stable w (persist t w).
Proof. split_and!; try done. cbn. set_solver. Qed.

Lemma step_Synced w g t :
  inv (w, g) -> allowed (w, g) (Synced t) -> exists x', step (w, g) (Synced t) = Ok x' /\ inv x'.
Proof.
  intros (Hf & [F Hq] & Hl & Hfo & He & Hd & Hs) [(p & Hp & Ht & Hdn & Hfl) Hiss]. cbn [fst snd] in *.
  destruct (pending_index_Some _ _ _ _ _ Hl Hp Ht) as (i & Hi & Hpi & Hg).
  cbn [step]. unfold on_fsync_complete. rewrite Hpi. ok_step. rewrite Hg. ok_step. rewrite Hdn, Hfl.
  cbn [negb rassert]. ok_step. rewrite Nat2Z.id.
  match goal with |- context [fold_done _ ?l] => set (l1 := l) end.
  assert (Hse : same_entry p (set_done p)) by done.
  assert (Hl1 : ledger_inv (persist t w) (queued_bytes (queue g)) l1).
  { apply (ledger_inv_update w _ _ _ i p (set_done p)); try done; [apply persist_more_stable| |].
    - intros _. split; [done|]. cbn. rewrite <- Ht. set_solver.
    - rewrite (li_flush _ _ _ Hl), (cnt_insert _ _ _ _ _ Hi). unfold in_flight. rewrite Hdn, Hfl. cbn.
      destruct (is_wt _); cbn; lia. }
  assert (He1 : extent_inv l1).
  { apply (extent_inv_with_entry i p (set_done p)); try done. intros _. by rewrite Ht. }
  destruct (fold_done_inv _ _ _ l1 Hl1 He1 eq_refl) as (H1 & H2 & H3 & H4).
  eexists. split; [reflexivity|]. split_and!; cbn [fst snd ledger queue stats]; try done.
  - by apply (frames_inv_more_stable w), Hf; apply persist_more_stable.
  - exists F. by apply (queue_inv_more_stable w); [apply persist_more_stable|..].
  - apply (due_inv_tail w _ g); try done.
    rewrite (H4 {| dues := dues g; queue := queue g; ledger := l1; stats := stats g |} eq_refl) by done.
    f_equal. by apply (tail_with_entry _ _ i p (set_done p) (flush_in_flight l1) _ _ Hl Hi Hse).
Qed.

Lemma step_SyncFailed w g t :
  inv (w, g) -> allowed (w, g) (SyncFailed t) -> exists x', step (w, g) (SyncFailed t) = Ok x' /\ inv x'.
Proof.
  intros (Hf & [F Hq] & Hl & Hfo & He & Hd & Hs) [(p & Hp & Ht & Hdn & Hfl) Hiss]. cbn [fst snd] in *.
  destruct (pending_index_Some _ _ _ _ _ Hl Hp Ht) as (i & Hi & Hpi & Hg).
  cbn [step]. unfold on_fsync_error. rewrite Hpi. ok_step. rewrite Hg. ok_step. rewrite Hdn, Hfl.
  cbn [negb rassert]. ok_step. rewrite Nat2Z.id.
  match goal with |- context [{| ledger := ?l |}] => set (l1 := l) end.
  assert (Hse : same_entry p (set_failed p)) by done.
  eexists. split; [reflexivity|]. split_and!; cbn [fst snd ledger queue stats]; try done; [by exists F|..].
  - apply (ledger_inv_update w _ _ _ i p (set_failed p)); try done; [cbn; congruence|].
    rewrite (li_flush _ _ _ Hl), (cnt_insert _ _ _ _ _ Hi). unfold in_flight. rewrite Hdn, Hfl. cbn.
    rewrite Hdn. destruct (is_wt _); cbn; lia.
  - intros q. unfold l1. cbn [pending]. destruct (pending (ledger g)) as [|p0 ps] eqn:Ep; [done|].
    destruct i as [|i]; [intros [= <-]; by right|]. intros [= <-]. apply Hfo. by rewrite Ep.
  - apply (extent_inv_with_entry i p (set_failed p)); try done. cbn. congruence.
  - apply (due_inv_tail w _ g); try done. f_equal.
    by apply (tail_with_entry _ _ i p (set_failed p) (flush_in_flight l1) _ _ Hl Hi Hse).
Qed.

Lemma pending_index_inv (g : GroupCommit) t k :
  pending_index g t = Some k -> exists p, 0 <= k /\ pending (ledger g) !! Z.to_nat k = Some p.
Proof.
  unfold pending_index. destruct (head _); [|done]. cbn. destruct (checked_sub _ _) as [j|]; [|done]. cbn.
  destruct (get _ j) as [q|] eqn:Eg; [|done]. intros [= <-]. apply get_Some in Eg as [? ?]. eauto.
Qed.

Lemma alter_insert {A} (f : A -> A) (l : list A) i x : l !! i = Some x -> alter f i l = <[i := f x]> l.
Proof.
  intros Hi. apply list_eq. intros j. destruct (decide (i = j)) as [<-|].
  - rewrite list_lookup_alter_eq, Hi, list_lookup_insert_eq by (by eapply lookup_lt_Some). done.
  - by rewrite list_lookup_alter_ne, list_lookup_insert_ne.
Qed.

Lemma step_Rebase w g t now :
  inv (w, g) -> exists x', step (w, g) (Rebase t now) = Ok x' /\ inv x'.
Proof.
  intros Hinv. eexists. split; [reflexivity|]. unfold rebase_clock.
  destruct (pending_index g t) as [k|] eqn:Ek; [|done].
  destruct (pending_index_inv _ _ _ Ek) as (p & Hk & Hi).
  destruct Hinv as (Hf & HF & Hl & Hfo & He & Hd & Hs). cbn [fst snd] in *.
  rewrite (alter_insert _ _ _ _ Hi). set (i := Z.to_nat k) in *.
  set (p' := if done_ p || failed p then p else set_clock now p).
  assert (Hse : same_entry p p') by (unfold p', same_entry; by destruct (_ || _)).
  assert (Hfl : done_ p' = done_ p /\ failed p' = failed p /\ reason p' = reason p)
    by (unfold p'; by destruct (_ || _)). destruct Hfl as (Hd' & Hf' & Hr').
  assert (Hw : set_pending (<[i := p']> (pending (ledger g))) (ledger g)
    = with_entry i p' (flush_in_flight (ledger g)) (ledger g)) by done.
  rewrite Hw. split_and!; cbn [fst snd ledger queue stats]; try done.
  - apply (ledger_inv_update w _ _ _ i p p'); try done.
    + rewrite Hd', Hf'. intros Hdn. apply list_elem_of_lookup_2 in Hi.
      split; [by apply (li_excl _ _ _ Hl)|by apply (li_done _ _ _ Hl)].
    + rewrite (li_flush _ _ _ Hl), (cnt_insert _ _ _ _ _ Hi). unfold in_flight. rewrite Hd', Hf', Hr'. lia.
  - intros q. cbn [with_entry pending]. destruct (pending (ledger g)) as [|p0 ps] eqn:Ep; [done|].
    destruct i as [|i']; intros [= <-]; [|apply Hfo; by rewrite Ep]. rewrite Hd', Hf'. apply Hfo. by rewrite Ep.
  - apply (extent_inv_with_entry i p p'); try done. rewrite Hd'. intros ?.
    apply (ei_issued _ He); [by apply list_elem_of_lookup_2 in Hi|done].
  - apply (due_inv_tail w _ g); try done. f_equal.
    by apply (tail_with_entry _ _ i p p' (flush_in_flight (ledger g)) _ _ Hl Hi Hse).
Qed.

(** ** A frame reaches the file *)

Lemma checked_sub_ge a b : b <= a -> checked_sub a b = Some (a - b).
Proof. intros. unfold checked_sub. by rewrite (proj2 (Z.leb_le _ _)). Qed.

Lemma top_lsn_snoc F x : top_lsn (F ++ [x]) = Some x.1.
Proof. unfold top_lsn. by rewrite last_snoc. Qed.
Lemma top_bytes_snoc F x : top_bytes (F ++ [x]) = x.2.
Proof. unfold top_bytes. by rewrite last_snoc. Qed.

Lemma drain_written_spec l : forall F, exists l1 l',
  l = l1 ++ l' /\
  drain_written l (top_lsn F, top_bytes F)
  = (l', (top_lsn (F ++ (fr <$> l1)), top_bytes (F ++ (fr <$> l1)))) /\
  Forall (fun f => written f = true) l1 /\ (forall f, head l' = Some f -> written f = false).
Proof.
  induction l as [|f l IH]; intros F.
  - exists [], []. cbn. by rewrite app_nil_r.
  - cbn [drain_written]. destruct (written f) eqn:Ew.
    + destruct (IH (F ++ [fr f])) as (l1 & l' & -> & E & Hl1 & Hh).
      exists (f :: l1), l'. rewrite top_lsn_snoc, top_bytes_snoc in E. cbn [fr fst snd] in E.
      rewrite E. split_and!; try done; [|by constructor]. cbn [fmap list_fmap].
      by rewrite <- app_assoc.
    + exists [], (f :: l). cbn. rewrite app_nil_r. split_and!; try done. by intros ? [= <-].
Qed.

Lemma cnt_written l : Forall (fun f => written f = true) l -> cnt (fun f => negb (written f)) l = 0.
Proof. induction 1 as [|f l Hf _ IH]; [done|]. cbn [cnt]. by rewrite Hf, IH. Qed.

Lemma queue_inv_written w q F i f n l' up_to bytes :
  queue_inv w q F -> queued q !! i = Some f -> written f = false -> n = unwritten q - 1 ->
  drain_written (<[i := set_written f]> (queued q)) (written_up_to q, written_bytes q) = (l', (up_to, bytes)) ->
  exists F', queue_inv (land (length F + i) w)
    {| queued_up_to := queued_up_to q; queued_bytes := queued_bytes q; queued := l'; unwritten := n;
       next_frame_id := next_frame_id q; written_up_to := up_to; written_bytes := bytes |} F'.
Proof.
  intros [] Hi Hw -> Hdr. set (qs := <[i := set_written f]> (queued q)) in *.
  rewrite qi_wup0, qi_wbytes0 in Hdr.
  destruct (drain_written_spec qs F) as (l1 & l2 & Hqs & E & Hl1 & Hh). rewrite E in Hdr.
  injection Hdr as -> <- <-. exists (F ++ (fr <$> l1)).
  assert (Hfr : fr <$> queued q = (fr <$> l1) ++ (fr <$> l')).
  { rewrite <- fmap_app, <- Hqs. unfold qs. rewrite list_fmap_insert.
    symmetry. apply list_insert_id. rewrite list_lookup_fmap, Hi. done. }
  assert (Hcnt : cnt (fun f => negb (written f)) l' = unwritten q - 1).
  { rewrite qi_unwritten0. pose proof (cnt_insert (fun f => negb (written f)) _ _ _ (set_written f) Hi) as Hc.
    fold qs in Hc. rewrite Hqs, cnt_app, cnt_written in Hc by done. rewrite Hw in Hc. cbn in Hc. lia. }
  assert (Hlen : length (queued q) = (length l1 + length l')%nat).
  { rewrite <- length_app, <- Hqs. unfold qs. by rewrite length_insert. }
  assert (Hlk : forall j f', l1 ++ l' = qs -> qs !! j = Some f' -> exists f0, queued q !! j = Some f0 /\ qid f' = qid f0 /\
    (written f' = true -> j = i \/ written f0 = true)).
  { intros j f' _ Hj. destruct (lookup_update _ _ _ _ _ _ Hi Hj) as [[-> ->]|[_ Hj']]; eauto 10. }
  constructor; cbn [queued_up_to queued_bytes queued unwritten next_frame_id written_up_to written_bytes
    land frames landed]; try done.
  - by rewrite qi_frames0, Hfr, app_assoc.
  - intros j f' Hj. destruct (Hlk (length l1 + j)%nat f' (eq_sym Hqs)) as (f0 & Hf0 & -> & _).
    { rewrite Hqs, lookup_app_r, Nat.add_comm, Nat.add_sub by lia. done. }
    rewrite (qi_ids0 _ _ Hf0). unfold len. rewrite length_app, length_fmap. lia.
  - intros j Hj. rewrite length_app, length_fmap in Hj.
    destruct (decide (j < length F)%nat) as [|Hge]; [set_solver|].
    destruct (lookup_lt_is_Some_2 l1 (j - length F)) as [f' Hf']; [lia|].
    destruct (Hlk (j - length F)%nat f' (eq_sym Hqs)) as (f0 & Hf0 & _ & Hwr).
    { rewrite Hqs, lookup_app_l by lia. done. }
    rewrite Forall_lookup in Hl1. destruct (Hwr (Hl1 _ _ Hf')) as [Hji|H0].
    + replace j with (length F + i)%nat by lia. set_solver.
    + specialize (qi_written0 _ _ Hf0 H0). replace (length F + (j - length F))%nat with j in qi_written0 by lia.
      set_solver.
  - intros j f' Hj Hwf'. destruct (Hlk (length l1 + j)%nat f' (eq_sym Hqs)) as (f0 & Hf0 & _ & Hwr).
    { rewrite Hqs, lookup_app_r, Nat.add_comm, Nat.add_sub by lia. done. }
    rewrite length_app, length_fmap. destruct (Hwr Hwf') as [Hji|H0].
    + replace (length F + length l1 + j)%nat with (length F + i)%nat by lia. set_solver.
    + specialize (qi_written0 _ _ Hf0 H0). rewrite Nat.add_assoc in qi_written0. set_solver.
  - unfold len in *. lia.
  - lia.
Qed.

Lemma queued_index q w F f id :
  queue_inv w q F -> f ∈ queued q -> qid f = id ->
  exists i front, queued q !! i = Some f /\ head (queued q) = Some front /\
    id - qid front = Z.of_nat i /\ Z.to_nat (id - 1) = (length F + i)%nat.
Proof.
  intros Hq [i Hi]%list_elem_of_lookup <-. exists i.
  destruct (queued q) as [|front qs] eqn:Eq; [done|]. exists front.
  pose proof (qi_ids _ _ _ Hq i f ltac:(by rewrite Eq)) as H1.
  pose proof (qi_ids _ _ _ Hq 0%nat front ltac:(by rewrite Eq)) as H2.
  rewrite H1, H2. unfold len. split_and!; try done; lia.
Qed.

Lemma ledger_inv_land w qb l i : ledger_inv w qb l -> ledger_inv (land i w) qb l.
Proof. intros []. by constructor. Qed.

Lemma step_FrameWritten w g id :
  inv (w, g) -> allowed (w, g) (FrameWritten id) ->
  exists x', step (w, g) (FrameWritten id) = Ok x' /\ inv x'.
Proof.
  intros (Hf & [F Hq] & Hl & Hfo & He & Hd & Hs) (f & Hfq & Hid & Hw). cbn [fst snd] in *.
  destruct (queued_index _ _ _ _ _ Hq Hfq Hid) as (i & front & Hi & Hh & Hx & Hn).
  cbn [step]. unfold note_frame_written. rewrite Hh. ok_step.
  rewrite (checked_sub_ge id (qid front)), Hx by lia. ok_step. unfold get.
  rewrite (proj2 (Z.leb_le 0 _)), Nat2Z.id, Hi by lia. ok_step. rewrite Hw. cbn [negb rassert]. ok_step.
  pose proof (cnt_pos (fun f => negb (written f)) _ _ _ Hi ltac:(cbn; by rewrite Hw)) as Hpos.
  pose proof (qi_unwritten _ _ _ Hq) as Hun.
  rewrite checked_sub_ge by lia. ok_step.
  destruct (drain_written _ _) as [l' [up_to bytes]] eqn:Edr. ok_step.
  destruct (queue_inv_written _ _ _ _ _ _ _ _ _ Hq Hi Hw eq_refl Edr) as [F' Hq'].
  eexists. split; [reflexivity|]. rewrite Hn.
  split_and!; cbn [fst snd ledger queue stats queued_bytes]; try done.
  - destruct Hf. by constructor.
  - by exists F'.
  - by apply ledger_inv_land.
  - destruct Hd. by constructor.
Qed.

(** ** Registrations *)

Lemma tail_max w qb l p0 p :
  ledger_inv w qb l -> list.last (pending l) = Some p0 -> p ∈ pending l ->
  Lsn.le (covers_up_to p) (covers_up_to p0) /\ covers_bytes p <= covers_bytes p0.
Proof.
  intros Hl Hlast [i Hi]%list_elem_of_lookup. rewrite last_lookup in Hlast.
  destruct (decide (i = pred (length (pending l)))) as [->|Hne].
  - assert (p = p0) as -> by congruence. split; [Lsn.lsn|lia].
  - apply lookup_lt_Some in Hi as Hlt. apply (li_sorted _ _ _ Hl i (pred (length (pending l)))); [lia|done..].
Qed.

(** A new entry is admissible when it does not fall behind the coverage tail. *)
Lemma pushable_tail w g up_to bytes now why h :
  let qb := queued_bytes (queue g) in
  frames_inv w -> ledger_inv w qb (ledger g) ->
  Lsn.le (coverage_tail g).1 up_to -> (coverage_tail g).2 <= bytes <= qb ->
  Lsn.le up_to (cursor w) -> cut w up_to bytes ->
  (why = WriteThrough -> write_through_pending (ledger g) < WRITE_THROUGH_WINDOW_ENTRIES) ->
  pushable w qb (ledger g) (new_entry g up_to bytes now why h).
Proof.
  intros qb Hf Hl Hle Hb Hc Hcut Hwt. unfold coverage_tail in *.
  constructor; cbn [new_entry ticket done_ failed covers_up_to covers_bytes reason]; try done.
  - intros p0 Hp0. destruct (list.last (pending (ledger g))) as [p1|] eqn:El.
    + cbn [fst snd] in *. destruct (tail_max _ _ _ _ _ Hl El Hp0). split; [Lsn.lsn|lia].
    + apply last_None in El. rewrite El in Hp0. set_solver.
  - destruct (durable_up_to (ledger g)) as [d|] eqn:Ed; [|done].
    pose proof (li_watermark _ _ _ Hl) as Hwm. rewrite Ed in Hwm. destruct Hwm as (_ & _ & Hall).
    destruct (list.last (pending (ledger g))) as [p1|] eqn:El; cbn in Hle; [|done].
    specialize (Hall p1 (last_Some_elem_of _ _ El)). cbn [fst] in *. Lsn.lsn.
  - destruct (list.last (pending (ledger g))) as [p1|] eqn:El; cbn [fst snd] in *; [|done].
    destruct (li_range _ _ _ Hl p1 (last_Some_elem_of _ _ El)). split; [lia|done].
Qed.

(** What the ledger already covers up to its tail. *)
Lemma tail_covered w g i x :
  ledger_inv w (queued_bytes (queue g)) (ledger g) -> frames w !! i = Some x ->
  x.2 <= (coverage_tail g).2 -> covered w (pending (ledger g)) i.
Proof.
  intros Hl Hi Hx. unfold coverage_tail in Hx. destruct (list.last _) as [p|] eqn:El.
  - rewrite last_lookup in El. pose proof (li_cov _ _ _ Hl _ p i x El Hi Hx) as Hc.
    apply (covered_weaken _ _ _ _ Hc). by intros ? (? & ?%list_elem_of_lookup_2 & _)%elem_of_take.
  - left. by apply (li_durable _ _ _ Hl i x).
Qed.

Lemma tail_cut w g :
  frames_inv w -> ledger_inv w (queued_bytes (queue g)) (ledger g) ->
  cut w (coverage_tail g).1 (coverage_tail g).2 /\ Lsn.le (coverage_tail g).1 (cursor w) /\
  0 <= (coverage_tail g).2 <= queued_bytes (queue g).
Proof.
  intros Hf Hl. unfold coverage_tail. pose proof (li_durable_range _ _ _ Hl).
  destruct (list.last _) as [p|] eqn:El; cbn [fst snd].
  - pose proof (last_Some_elem_of _ _ El) as Hp. destruct (li_range _ _ _ Hl p Hp).
    split_and!; [by apply (li_cut _ _ _ Hl)|done|lia|lia].
  - pose proof (li_watermark _ _ _ Hl) as Hw. destruct (durable_up_to _) as [d|]; cbn [default].
    + destruct Hw as (? & ? & _). split_and!; done || lia.
    + split_and!; [|apply (fi_cursor _ Hf)|lia|lia]. intros i x Hi.
      destruct (fi_pos _ Hf i x Hi) as (H0 & Hb & _). rewrite Hw. cbn in *. split; [intros; exfalso; Lsn.lsn|lia].
Qed.

Lemma push_event w g up_to bytes now why h E :
  let qb := queued_bytes (queue g) in
  ledger_inv w qb (ledger g) -> front_open (ledger g) ->
  pushable w qb (ledger g) (new_entry g up_to bytes now why h) ->
  (discretionary why = true -> flush_in_flight (ledger g) < flush_bound (ledger g)) ->
  (forall i x, frames w !! i = Some x -> x.2 <= bytes -> covered w (pending (ledger g)) i \/ i ∈ E) ->
  exists g', push_pending g up_to bytes now why h = Ok (g', mint g) /\
    dues g' = dues g /\ queue g' = queue g /\ stats g' = stats g /\
    ledger g' = push_entry (new_entry g up_to bytes now why h) (ledger g) /\
    coverage_tail g' = (up_to, bytes) /\
    ledger_inv (promise (mint g) E w) qb (ledger g') /\ front_open (ledger g').
Proof.
  intros qb Hl Hfo Hp Hd HE. rewrite push_pending_Ok; [|
    intros p Hlast; apply (pu_tail _ _ _ _ Hp p (last_Some_elem_of _ _ Hlast))|done|apply (pu_wt _ _ _ _ Hp)].
  eexists. split; [reflexivity|]. cbn [dues queue stats ledger]. split_and!; try done.
  - unfold coverage_tail. cbn [ledger push_entry pending]. by rewrite last_snoc.
  - by apply (ledger_inv_push w qb (ledger g) (new_entry g up_to bytes now why h) E).
  - intros q. cbn [push_entry pending]. destruct (pending (ledger g)) as [|p0 ps] eqn:Ep.
    + intros [= <-]. by left.
    + intros [= <-]. apply Hfo. by rewrite Ep.
Qed.

Lemma extent_inv_push p l : is_extent (reason p) = false -> done_ p = false ->
  extent_inv l -> extent_inv (push_entry p l).
Proof.
  intros Hr Hd [Hiss Hwin Hun Hcap]. constructor; cbn [push_entry pending extent_window extent_unsent]; try done.
  - intros q [Hq|Hq]%elem_of_app Hdq; [by apply Hiss|]. apply list_elem_of_singleton in Hq as ->. congruence.
  - rewrite ext_tickets_app. cbn [ext_tickets]. by rewrite Hr, app_nil_r.
Qed.

(** ** Staging, timer and observation events *)

Lemma step_Stage w g c : inv (w, g) -> exists x', step (w, g) (Stage c) = Ok x' /\ inv x'.
Proof.
  intros (Hf & [F Hq] & Hl & Hfo & He & Hd & Hs). eexists. split; [reflexivity|]. cbn [fst snd] in *.
  split_and!; cbn [fst snd note_staged queue ledger stats]; try done.
  - destruct Hf. by constructor.
  - exists F. destruct Hq. by constructor.
  - destruct Hl. by constructor.
  - pose proof (app_cons_not_nil (staged w) [] c) as Hne.
    destruct Hd, c; constructor; cbn; try done; [by rewrite orb_true_r|].
    intros Hn. split; [by apply di_next0|congruence].
Qed.

Lemma tail_ge_durable w g :
  ledger_inv w (queued_bytes (queue g)) (ledger g) -> durable_bytes (ledger g) <= (coverage_tail g).2.
Proof.
  intros Hl. unfold coverage_tail. destruct (list.last _) as [p|] eqn:El; cbn; [|lia].
  destruct (li_range _ _ _ Hl p (last_Some_elem_of _ _ El)) as [_ [H _]]. done.
Qed.

Lemma step_Tick w g : inv (w, g) -> exists x', step (w, g) Tick = Ok x' /\ inv x'.
Proof.
  intros (Hf & [F Hq] & Hl & Hfo & He & Hd & Hs). eexists. split; [reflexivity|]. cbn [fst snd] in *.
  assert (Hqb : queue (note_everysec_tick g) = queue g) by (unfold note_everysec_tick; by destruct (_ && _)).
  assert (Hlb : ledger (note_everysec_tick g) = ledger g) by (unfold note_everysec_tick; by destruct (_ && _)).
  assert (Hsb : stats (note_everysec_tick g) frames_queued = stats g frames_queued)
    by (unfold note_everysec_tick; by destruct (_ && _)).
  pose proof (li_durable_range _ _ _ Hl) as Hdr. pose proof (tail_ge_durable _ _ Hl) as Htd.
  pose proof (qi_bytes _ _ _ Hq) as Hqt.
  split_and!; cbn [fst snd]; rewrite ?Hqb, ?Hlb, ?Hsb; try done.
  - destruct Hf. by constructor.
  - exists F. destruct Hq. by constructor.
  - destruct Hl. by constructor.
  - destruct Hd. unfold note_everysec_tick.
    destruct ((_ =? _) && _ && _) eqn:Ei.
    + apply andb_true_iff in Ei as [[Hb%Z.eqb_eq Hap%negb_true_iff]%andb_true_iff Heu%negb_true_iff].
      assert (Hau : always_unqueued (dues g) = false).
      { apply not_true_is_false. intros H. specialize (di_unqueued0 H). congruence. }
      assert (Hst : staged w = []).
      { destruct (staged w); [done|]. rewrite Hau, Heu in di_staged0. by discriminate di_staged0. }
      constructor; cbn [dues queue staged owed owed_next tick_promise]; rewrite <- ?Hqt; try done;
        [lia|by rewrite Hst|].
      intros _. change (coverage_tail _) with (coverage_tail g). lia.
    + constructor; cbn [dues queue staged owed owed_next tick_promise set_due sync_due always_pending
        always_unqueued everysec_unqueued]; rewrite <- ?Hqt; try done; [lia|].
      intros H%negb_true_iff%bool_decide_eq_false. by split.
Qed.

Lemma step_IssueExtents w g : inv (w, g) -> exists x', step (w, g) IssueExtents = Ok x' /\ inv x'.
Proof.
  intros (Hf & [F Hq] & Hl & Hfo & He & Hd & Hs). eexists. split; [reflexivity|]. cbn [fst snd] in *.
  split_and!; cbn [fst snd issue_extent_syncs queue ledger stats]; try done; [by exists F|..].
  - destruct Hl. by constructor.
  - destruct He as [Hiss Hwin Hun Hcap]. constructor; cbn; try done; [|lia].
    intros p _ _ k s0 Hk _. apply lookup_lt_Some in Hk. cbn in *. unfold len. lia.
  - destruct Hd. by constructor.
Qed.

(** ** Coverage-neutral barriers *)

Lemma neutral_event w g0 g now why h :
  dues g = dues g0 -> queue g = queue g0 -> pending (ledger g) = pending (ledger g0) ->
  durable_up_to (ledger g) = durable_up_to (ledger g0) ->
  durable_bytes (ledger g) = durable_bytes (ledger g0) ->
  frames_inv w -> ledger_inv w (queued_bytes (queue g)) (ledger g) -> front_open (ledger g) ->
  due_inv w g0 -> discretionary why = false -> is_wt why = false ->
  exists g', push_pending g (coverage_tail g0).1 (coverage_tail g0).2 now why h = Ok (g', mint g) /\
    dues g' = dues g /\ queue g' = queue g /\ stats g' = stats g /\
    ledger g' = push_entry (new_entry g (coverage_tail g0).1 (coverage_tail g0).2 now why h) (ledger g) /\
    ledger_inv (promise (mint g) ∅ w) (queued_bytes (queue g)) (ledger g') /\ front_open (ledger g') /\
    due_inv (promise (mint g) ∅ w) g'.
Proof.
  intros Hdg Hqg Hpg Hug Hbg Hf Hl Hfo Hd Hdis Hwt.
  assert (Ht : coverage_tail g = coverage_tail g0) by (unfold coverage_tail; by rewrite Hpg, Hug, Hbg).
  rewrite <- Ht. destruct (tail_cut _ _ Hf Hl) as (Hcut & Hle & Hb).
  destruct (push_event w g (coverage_tail g).1 (coverage_tail g).2 now why h ∅) as
    (g' & E & H1 & H2 & H3 & H4 & H5 & H6 & H7); try done.
  - apply pushable_tail; try done; [Lsn.lsn|lia|]. intros ->. done.
  - congruence.
  - intros i x Hi Hx. left. by apply (tail_covered w g i x).
  - exists g'. split_and!; try done.
    apply (due_inv_tail w _ g0); try done; [congruence|congruence|]. by rewrite H5, Ht.
Qed.

Lemma inv_push w g' F qb :
  frames_inv w -> queue_inv w (queue g') F -> qb = queued_bytes (queue g') ->
  ledger_inv w qb (ledger g') -> front_open (ledger g') -> extent_inv (ledger g') ->
  due_inv w g' -> stats g' frames_queued = len (frames w) -> inv (w, g').
Proof. intros ? ? -> ? ? ? ? ?. split_and!; try done. by exists F. Qed.

Lemma promise_frames_inv t E w : frames_inv w -> frames_inv (promise t E w).
Proof. intros []. by constructor. Qed.
Lemma promise_queue_inv t E w q F : queue_inv w q F -> queue_inv (promise t E w) q F.
Proof. intros []. by constructor. Qed.

Lemma step_ZeroFill w g now : inv (w, g) -> exists x', step (w, g) (ZeroFillOn now) = Ok x' /\ inv x'.
Proof.
  intros (Hf & [F Hq] & Hl & Hfo & He & Hd & Hs). cbn [fst snd step] in *.
  unfold register_zero_fill_barrier. rewrite (surjective_pairing (coverage_tail g)).
  destruct (neutral_event w g (set_stats fsyncs_zero_fill g) now ZeroFill HeldNone) as
    (g' & -> & H1 & H2 & H3 & H4 & H5 & H6 & H7); try done. ok_step.
  eexists. split; [reflexivity|].
  apply (inv_push _ _ F (queued_bytes (queue g))); rewrite ?H2, ?H3, ?H4; try done;
    [by apply promise_frames_inv|by apply promise_queue_inv|by rewrite <- H4|by rewrite <- H4|].
  by apply extent_inv_push.
Qed.

Lemma step_Prealloc w g dir now :
  inv (w, g) -> exists x', step (w, g) (PreallocBarrierOn dir now) = Ok x' /\ inv x'.
Proof.
  intros (Hf & [F Hq] & Hl & Hfo & He & Hd & Hs). cbn [fst snd step] in *.
  unfold register_prealloc_barrier. rewrite (surjective_pairing (coverage_tail g)).
  destruct (neutral_event w g (set_stats fsyncs_prealloc_barrier g) now PreallocBarrier (HeldDir dir)) as
    (g' & -> & H1 & H2 & H3 & H4 & H5 & H6 & H7); try done. ok_step.
  eexists. split; [reflexivity|].
  apply (inv_push _ _ F (queued_bytes (queue g))); rewrite ?H2, ?H3, ?H4; try done;
    [by apply promise_frames_inv|by apply promise_queue_inv|by rewrite <- H4|by rewrite <- H4|].
  by apply extent_inv_push.
Qed.

Lemma step_Boot w g h now : inv (w, g) -> allowed (w, g) (BootBarrierOn h now) ->
  exists x', step (w, g) (BootBarrierOn h now) = Ok x' /\ inv x'.
Proof.
  intros (Hf & [F Hq] & Hl & Hfo & He & Hd & Hs) [Hz Hn]. cbn [fst snd step] in *.
  assert (Hw : frames w = []) by (apply length_zero_iff_nil; unfold len in Hs; lia).
  assert (Hqb : queued_bytes (queue g) = 0) by (rewrite (qi_bytes _ _ _ Hq), Hw; done).
  destruct (tail_cut _ _ Hf Hl) as (_ & Hle & Hb). pose proof (tail_ge_durable _ _ Hl).
  pose proof (li_durable_range _ _ _ Hl).
  unfold register_boot_barrier. rewrite (proj2 (Z.eqb_eq _ _) Hz), Hn. ok_step.
  set (g0 := set_stats fsyncs_boot_barrier g).
  destruct (push_event w g0 (cursor w) 0 now BootBarrier
    (match h with Some f => HeldDir f | None => HeldNone end) ∅) as
    (g' & -> & H1 & H2 & H3 & H4 & H5 & H6 & H7); try done.
  { apply pushable_tail; try done; [change (coverage_tail g0) with (coverage_tail g); change (queue g0) with (queue g); lia|Lsn.lsn|]. intros i x. by rewrite Hw. }
  { intros i x. by rewrite Hw. }
  ok_step. eexists. split; [reflexivity|].
  apply (inv_push _ _ F (queued_bytes (queue g0))); rewrite ?H2, ?H3, ?H4; try done;
    [by apply promise_frames_inv|by apply promise_queue_inv|by rewrite <- H4|by rewrite <- H4|
     by apply extent_inv_push|].
  apply (due_inv_tail w _ g); try done. rewrite H5. cbn. lia.
Qed.

(** ** Syncs over the written prefix *)

Lemma written_top w q F : frames_inv w -> queue_inv w q F -> 0 < written_bytes q ->
  exists k x, frames w !! k = Some x /\ S k = length F /\ written_up_to q = Some x.1 /\ written_bytes q = x.2.
Proof.
  intros Hf Hq Hpos. rewrite (qi_wbytes _ _ _ Hq) in *. rewrite (qi_wup _ _ _ Hq).
  unfold top_bytes, top_lsn in *. destruct (list.last F) as [x|] eqn:El; [|done].
  rewrite last_lookup in El. pose proof (lookup_lt_Some _ _ _ El).
  exists (pred (length F)), x. rewrite (qi_frames _ _ _ Hq), lookup_app_l by done. split_and!; try done. lia.
Qed.

Lemma frame_cut w k x : frames_inv w -> frames w !! k = Some x -> cut w x.1 x.2.
Proof.
  intros Hf Hk i y Hi. destruct (lt_eq_lt_dec i k) as [[Hlt| ->]|Hlt].
  - destruct (fi_sorted _ Hf _ _ _ _ Hlt Hi Hk). split; intros; [lia|Lsn.lsn].
  - rewrite Hk in Hi. injection Hi as ->. split; intros; [lia|Lsn.lsn].
  - destruct (fi_sorted _ Hf _ _ _ _ Hlt Hk Hi). split; intros; [Lsn.lsn|lia].
Qed.

Lemma top_max w k x : frames_inv w -> frames w !! k = Some x -> x.2 <= top_bytes (frames w).
Proof.
  intros Hf Hk. unfold top_bytes. destruct (list.last (frames w)) as [y|] eqn:El.
  - rewrite last_lookup in El. pose proof (lookup_lt_Some _ _ _ Hk).
    destruct (decide (k = pred (length (frames w)))) as [-> |Hne].
    + rewrite Hk in El. injection El as ->. done.
    + assert (Hlt : (k < pred (length (frames w)))%nat) by lia.
      destruct (fi_sorted _ Hf _ _ _ _ Hlt Hk El). cbn. lia.
  - apply last_None in El. by rewrite El in Hk.
Qed.

Lemma settle_due w w' g g' : due_inv w g ->
  staged w' = staged w -> owed w' = owed w -> owed_next w' = owed_next w -> queue g' = queue g ->
  dues g' = settle_due_at_written g -> (coverage_tail g').2 = written_bytes (queue g) -> due_inv w' g'.
Proof.
  intros [Hun Hal Ho Hst Hn Hi] Hs' Ho' Hn' Hq Hdg Ht.
  constructor; rewrite ?Hs', ?Ho', ?Hdg, ?Hq, ?Hn', ?Ht; cbn [settle_due_at_written sync_due always_pending
    always_unqueued everysec_unqueued]; try done; unfold always_discharged_at_written.
  - intros Hu. rewrite (Hun Hu), Hu. done.
  - intros ->. done.
  - intros Hx. destruct (Hn Hx) as [_ Hne]. split; [|done]. specialize (Hst Hne) as Hor.
    destruct (always_unqueued (dues g)) eqn:Eu; [by rewrite (Hun eq_refl)|].
    cbn in Hor. rewrite Hor. by rewrite !orb_true_r.
  - intros [[_ Hw%Z.ltb_ge]%orb_false_iff _]%orb_false_iff. lia.
Qed.

Lemma written_covered w g F i x :
  frames_inv w -> queue_inv w (queue g) F -> ledger_inv w (queued_bytes (queue g)) (ledger g) ->
  frames w !! i = Some x -> x.2 <= written_bytes (queue g) ->
  covered w (pending (ledger g)) i \/ i ∈ landed_in w (Lsn.segment (cursor w)).
Proof.
  intros Hf Hq Hl Hi Hx. destruct (fi_pos _ Hf _ _ Hi) as (_ & Hpos & _).
  destruct (written_top _ _ _ Hf Hq) as (k & y & Hk & HkF & _ & Hy); [lia|].
  assert (Hlen : (i < length F)%nat).
  { apply not_ge. intros Hge. assert (Hki : (k < i)%nat) by lia.
    destruct (fi_sorted _ Hf _ _ _ _ Hki Hk Hi). lia. }
  destruct (fi_pos _ Hf _ _ Hi) as (_ & _ & Hc).
  destruct (decide (Lsn.segment x.1 = Lsn.segment (cursor w))) as [Heq|Hne].
  - right. unfold landed_in. apply elem_of_filter. split; [|by apply (qi_landed _ _ _ Hq)].
    unfold in_segment. rewrite Hi. destruct x. cbn in *. by apply Z.eqb_eq.
  - left. apply (li_old _ _ _ Hl i x Hi). Lsn.lsn.
Qed.

Lemma written_sync w g c why now :
  inv (w, g) -> c <> frames_queued -> why = Standalone \/ why = Completion ->
  syncs_in_flight g < flush_bound (ledger g) ->
  durable_bytes (ledger g) < written_bytes (queue g) -> tail_below_written g = true ->
  exists x',
    ('(g', t) ← (up_to ← expect (written_up_to (queue g));
                 push_pending (set_stats c (set_dues (settle_due_at_written g) g)) up_to
                   (written_bytes (queue g)) now why HeldNone);
     mret (promise t (landed_in w (Lsn.segment (cursor w))) w, g')) = Ok (E := False) x' /\ inv x'.
Proof.
  intros (Hf & [F Hq] & Hl & Hfo & He & Hd & Hs) Hc Hwhy Hfl Hdw Htw. cbn [fst snd] in *.
  pose proof (li_durable_range _ _ _ Hl).
  destruct (written_top _ _ _ Hf Hq) as (k & x & Hk & HkF & Hup & Hb); [lia|].
  destruct (tail_cut _ _ Hf Hl) as (Hcut & Hle & Hbt).
  assert (Htb : (coverage_tail g).2 < written_bytes (queue g)).
  { unfold tail_below_written, coverage_tail in *. destruct (list.last _); cbn; [by apply Z.ltb_lt|done]. }
  assert (Hwq : written_bytes (queue g) <= queued_bytes (queue g)).
  { rewrite Hb, (qi_bytes _ _ _ Hq). unfold top_bytes. apply (top_max _ _ _ Hf Hk). }
  set (g0 := set_stats c (set_dues (settle_due_at_written g) g)).
  destruct (push_event w g0 x.1 (written_bytes (queue g)) now why HeldNone
    (landed_in w (Lsn.segment (cursor w)))) as (g' & E & H1 & H2 & H3 & H4 & H5 & H6 & H7); try done.
  { apply pushable_tail; try done.
    - change (coverage_tail g0) with (coverage_tail g). destruct (Lsn.leb_spec x.1 (coverage_tail g).1) as [H'|H']; [|Lsn.lsn].
      apply (Hcut k x Hk) in H'. lia.
    - change (coverage_tail g0) with (coverage_tail g). cbn. lia.
    - apply (fi_pos _ Hf _ _ Hk).
    - rewrite Hb. by apply (frame_cut w k).
    - intros ->. by destruct Hwhy. }
  { intros i y Hi Hy. by apply (written_covered w g F i y). }
  rewrite Hup. ok_step. rewrite E. ok_step.
  eexists. split; [reflexivity|].
  apply (inv_push _ _ F (queued_bytes (queue g))); rewrite ?H2, ?H3, ?H4; try done;
    [by apply promise_frames_inv|by apply promise_queue_inv|by rewrite <- H4|by rewrite <- H4|..].
  - apply extent_inv_push; try done. by destruct Hwhy as [-> | ->].
  - by apply (settle_due w _ g); rewrite ?H5.
  - cbn. unfold count_up. by rewrite decide_False.
Qed.

Lemma step_Standalone w g now : inv (w, g) -> allowed (w, g) (LogStandalone now) ->
  exists x', step (w, g) (LogStandalone now) = Ok x' /\ inv x'.
Proof.
  intros Hi Ha. cbn [allowed] in Ha. unfold standalone_fsync_due in Ha.
  apply andb_true_iff in Ha as [[[_ Hfl%Z.ltb_lt]%andb_true_iff Hdw%Z.ltb_lt]%andb_true_iff Htw].
  apply written_sync; try done. by left.
Qed.

Lemma step_Completion w g now : inv (w, g) -> allowed (w, g) (LogCompletion now) ->
  exists x', step (w, g) (LogCompletion now) = Ok x' /\ inv x'.
Proof.
  intros Hi Ha. cbn [allowed] in Ha. unfold completion_fsync_due in Ha.
  apply andb_true_iff in Ha as [[[[_ Hfl%Z.ltb_lt]%andb_true_iff Hdw%Z.ltb_lt]%andb_true_iff _]%andb_true_iff Htw].
  apply written_sync; try done; [by right|lia].
Qed.

(** ** Extent barriers *)

Lemma extent_inv_append p l fd :
  is_extent (reason p) = true -> done_ p = false -> extent_inv l ->
  (forall q, q ∈ pending l -> ticket q < ticket p) ->
  len (extent_window l) < EXTENT_SEAL_WINDOW_ENTRIES ->
  extent_inv {| flush_bound := flush_bound l; flush_in_flight := flush_in_flight l + 1;
     write_through_pending := write_through_pending l + 0;
     durable_up_to := durable_up_to l; durable_bytes := durable_bytes l;
     pending := pending l ++ [p]; next_ticket := ticket p;
     extent_window := extent_window l ++ [{| es_ticket := ticket p; es_fd := fd |}];
     extent_unsent := extent_unsent l + 1 |}.
Proof.
  intros Hr Hd [Hiss Hwin Hun Hcap] Hlt Hroom. constructor; cbn [pending extent_window extent_unsent].
  - intros q [Hq|Hq]%elem_of_app Hdq; [|apply list_elem_of_singleton in Hq as ->; congruence].
    intros k s Hk Hs. cbn [extent_window extent_unsent] in *. rewrite len_app, len_cons, len_nil.
    apply lookup_app_Some in Hk as [Hk|[_ Hk]].
    + specialize (Hiss q Hq Hdq k s Hk Hs). lia.
    + apply list_lookup_singleton_Some in Hk as [_ <-]. cbn in Hs. specialize (Hlt q Hq). lia.
  - by rewrite fmap_app, Hwin, ext_tickets_app; cbn [ext_tickets fmap list_fmap es_ticket]; rewrite Hr.
  - lens.
  - lens.
Qed.

Lemma ticket_bound w qb l p : ledger_inv w qb l -> p ∈ pending l -> ticket p <= next_ticket l.
Proof.
  intros Hl [i Hi]%list_elem_of_lookup. rewrite (li_tickets _ _ _ Hl i p Hi).
  apply lookup_lt_Some in Hi. unfold len. lia.
Qed.

Lemma step_Extent w g now made : inv (w, g) ->
  exists x', step (w, g) (ExtentOn now made) = Ok x' /\ inv x'.
Proof.
  intros Hinv. pose proof Hinv as (Hf & [F Hq] & Hl & Hfo & He & Hd & Hs). cbn [fst snd step] in *.
  unfold register_extent. rewrite (surjective_pairing (coverage_tail g)).
  destruct (Z.ltb_spec (len (extent_window (ledger g))) EXTENT_SEAL_WINDOW_ENTRIES) as [Hroom|];
    [|by eexists].
  destruct made as [f|]; [|by eexists]. cbn [negb].
  match goal with |- context [push_pending ?g0 _ _ _ _ _] => set (g1 := g0) end.
  assert (Hl1 : ledger_inv w (queued_bytes (queue g1)) (ledger g1)) by (destruct Hl; by constructor).
  destruct (neutral_event w g g1 now ExtentSeal (HeldExtent f)) as
    (g' & -> & H1 & H2 & H3 & H4 & H5 & H6 & H7); try done. ok_step.
  change (mint g1) with (mint g) in *.
  eexists. split; [reflexivity|].
  apply (inv_push _ _ F (queued_bytes (queue g))); rewrite ?H2, ?H3, ?H4; try done;
    [by apply promise_frames_inv|by apply promise_queue_inv|by rewrite <- H4|by rewrite <- H4|].
  apply (extent_inv_append (new_entry g (coverage_tail g).1 (coverage_tail g).2 now ExtentSeal (HeldExtent f))
           (ledger g) (raw_fd f)); try done.
  intros q Hin. cbn. unfold mint. pose proof (ticket_bound _ _ _ _ Hl Hin). lia.
Qed.

(** ** The LOG step: a rotation's seal *)

Lemma frames_below w q F i x : frames_inv w -> queue_inv w q F -> frames w !! i = Some x -> x.2 <= queued_bytes q.
Proof. intros Hf Hq Hi. rewrite (qi_bytes _ _ _ Hq). by apply (top_max w i). Qed.

Lemma ledger_inv_move w qb l c :
  ledger_inv w qb l -> Lsn.le (cursor w) c -> Lsn.segment c = Lsn.segment (cursor w) ->
  ledger_inv (move_cursor c w) qb l.
Proof.
  intros [] Hle Hseg. constructor; try done; cbn [move_cursor cursor].
  - intros p Hp. destruct (li_range0 p Hp). split; [Lsn.lsn|done].
  - destruct (durable_up_to l); [|done]. destruct li_watermark0 as (? & ? & ?). split_and!; try done. Lsn.lsn.
  - intros i x Hi Hx. rewrite Hseg in Hx. by apply (li_old0 i x).
Qed.

Lemma log_seal_inv w g h now :
  inv (w, g) -> drained g = true -> ho_segment h = Lsn.segment (cursor w) ->
  Lsn.offset (cursor w) <= ho_end_offset h ->
  exists w' g', log_seal (w, g) (Some h) now = Ok (w', g') /\ inv (w', g') /\
    cursor w' = Lsn.new (ho_segment h) (ho_end_offset h) /\ dues g' = dues g /\ queue g' = queue g /\
    (coverage_tail g').2 = queued_bytes (queue g) /\
    flush_in_flight (ledger g') = flush_in_flight (ledger g) + 1 /\
    flush_bound (ledger g') = flush_bound (ledger g) /\
    write_through_pending (ledger g') = write_through_pending (ledger g).
Proof.
  intros (Hf & [F Hq] & Hl & Hfo & He & Hd & Hs) Hdr Hseg Hoff. cbn [fst snd log_seal] in *.
  unfold register_seal_fsync. rewrite Hdr. ok_step. apply Z.eqb_eq in Hdr.
  set (c := Lsn.new (ho_segment h) (ho_end_offset h)).
  assert (Hc : Lsn.le (cursor w) c) by (apply Lsn.le_alt; cbn; lia).
  set (g0 := set_stats fsyncs_seal g). set (wm := move_cursor c w).
  assert (Hfm : frames_inv wm).
  { destruct Hf as [? Hp ?]. constructor; cbn [wm move_cursor frames cursor]; try done; [|Lsn.lsn].
    intros i x Hi. destruct (Hp i x Hi) as (? & ? & ?). split_and!; try done. Lsn.lsn. }
  assert (Hlm : ledger_inv wm (queued_bytes (queue g0)) (ledger g0)) by (by apply ledger_inv_move).
  destruct (tail_cut _ _ Hfm Hlm) as (_ & Hle & Hb).
  destruct (push_event wm g0 c (queued_bytes (queue g)) now Seal (HeldSeal h)
    (landed_in w (ho_segment h))) as (g' & -> & H1 & H2 & H3 & H4 & H5 & H6 & H7); try done.
  { apply pushable_tail; try done; [change (queue g0) with (queue g) in *; lia|by right|]. intros i x Hi. pose proof (frames_below _ _ _ _ _ Hf Hq Hi).
    destruct (fi_pos _ Hfm i x Hi) as (_ & _ & ?). done. }
  { intros i x Hi Hx. rewrite Hseg. apply (written_covered w g F i x); try done. by rewrite Hdr. }
  ok_step. exists (promise (mint g0) (landed_in w (ho_segment h)) wm), g'. split; [reflexivity|].
  rewrite H1, H2, H4, H5. cbn [push_entry flush_in_flight write_through_pending is_wt new_entry reason].
  split; [|split_and!; try done; apply Z.add_0_r].
  apply (inv_push _ _ F (queued_bytes (queue g))); rewrite ?H2, ?H3, ?H4; try done;
    [by apply promise_frames_inv|apply promise_queue_inv; by destruct Hq|by rewrite <- H4|by rewrite <- H4|..].
  - by apply extent_inv_push.
  - destruct Hd. constructor; rewrite ?H1, ?H2, ?H5; try done. intros _. cbn. lia.
Qed.

(** ** The LOG step: the frame *)

Lemma add_frame_lookup e b w i x : frames (add_frame e b w) !! i = Some x ->
  frames w !! i = Some x \/ i = length (frames w) /\ x = (e, b).
Proof.
  cbn [add_frame frames]. intros [Hi|[Hge Hi]]%lookup_app_Some; [by left|right].
  apply list_lookup_singleton_Some in Hi as [Hi <-]. split; [lia|done].
Qed.

Lemma add_frame_frames_inv e b w :
  frames_inv w -> Lsn.lt (cursor w) e -> (forall i x, frames w !! i = Some x -> x.2 < b) -> 0 < b ->
  frames_inv (add_frame e b w).
Proof.
  intros [Hs Hp Hc] He Hb Hpos. constructor; [..|cbn; Lsn.lsn].
  - intros i j x y Hij [Hi|[-> ->]]%add_frame_lookup [Hj|[-> ->]]%add_frame_lookup; cbn [fst snd].
    + by apply (Hs i j).
    + destruct (Hp _ _ Hi) as (_ & _ & ?). split; [Lsn.lsn|by apply (Hb i)].
    + apply lookup_lt_Some in Hj. lia.
    + lia.
  - intros i x [Hi|[-> ->]]%add_frame_lookup; cbn [fst snd add_frame cursor].
    + destruct (Hp _ _ Hi) as (? & ? & ?). split_and!; try done. Lsn.lsn.
    + split_and!; try done; Lsn.lsn.
Qed.

Lemma add_frame_ledger_inv e n w qb l :
  ledger_inv w qb l -> 0 < n -> Lsn.lt (cursor w) e ->
  (Lsn.segment e = Lsn.segment (cursor w) \/ forall i x, frames w !! i = Some x -> covered w (pending l) i) ->
  ledger_inv (add_frame e (qb + n) w) (qb + n) l.
Proof.
  intros [] Hn He Hold.
  assert (Hcut : forall c b, cut w c b -> Lsn.le c (cursor w) -> b <= qb -> cut (add_frame e (qb + n) w) c b).
  { intros c b Hc Hle Hb i x [Hi|[-> ->]]%add_frame_lookup; [by apply (Hc i)|]. cbn [fst snd].
    split; intros; [Lsn.lsn|lia]. }
  constructor; try done.
  - intros p Hp. destruct (li_range0 p Hp) as [? []]. apply Hcut; auto.
  - intros p Hp. destruct (li_range0 p Hp) as [? []]. cbn [add_frame cursor]. split; [Lsn.lsn|lia].
  - intros k p i x Hk [Hi|[-> ->]]%add_frame_lookup Hx; [by apply (li_cov0 k p i x)|].
    destruct (li_range0 p (list_elem_of_lookup_2 _ _ _ Hk)) as [_ []]. cbn in Hx. lia.
  - intros i x [Hi|[-> ->]]%add_frame_lookup Hx; [by apply (li_durable0 i x)|]. cbn in Hx. lia.
  - destruct (durable_up_to l); [|done]. destruct li_watermark0 as (? & ? & ?). cbn [add_frame cursor].
    split_and!; try done; [apply Hcut; try done; lia|Lsn.lsn].
  - lia.
  - intros i x [Hi|[-> ->]]%add_frame_lookup Hx; cbn [add_frame cursor fst] in Hx; [|lia].
    destruct Hold as [Hseg|Hall]; [|by apply (Hall i x)]. rewrite Hseg in Hx. by apply (li_old0 i x).
Qed.

Lemma add_frame_queue_inv e n w q F :
  queue_inv w q F -> unwritten q < MAX_FRAMES_IN_FLIGHT -> len (queued q) < REORDER_WINDOW_FRAMES ->
  let b := queued_bytes q + n in
  queue_inv (add_frame e b w)
    {| queued_up_to := Some e; queued_bytes := b;
       queued := queued q ++ [{| qid := next_frame_id q + 1; qend := e; end_bytes := b; written := false |}];
       unwritten := unwritten q + 1; next_frame_id := next_frame_id q + 1;
       written_up_to := written_up_to q; written_bytes := written_bytes q |} F.
Proof.
  intros [] Hu Hw b. assert (Hlen : len (frames w) = len F + len (queued q)).
  { rewrite qi_frames0, len_app. unfold len. by rewrite length_fmap. }
  constructor; cbn [queued_up_to queued_bytes queued unwritten next_frame_id written_up_to written_bytes
    add_frame frames landed]; try done.
  - by rewrite qi_frames0, fmap_app, app_assoc.
  - unfold top_lsn. by rewrite last_snoc.
  - unfold top_bytes. by rewrite last_snoc.
  - rewrite len_app, qi_id0. done.
  - intros i f [Hi|[Hge Hi]]%lookup_app_Some; [by apply qi_ids0|].
    apply list_lookup_singleton_Some in Hi as [Hi <-]. cbn [qid]. unfold len in *. lia.
  - intros i f [Hi|[Hge Hi]]%lookup_app_Some Hwr; [by apply (qi_written0 i f)|].
    apply list_lookup_singleton_Some in Hi as [_ <-]. done.
  - rewrite cnt_app, qi_unwritten0. done.
  - intros f. destruct (queued q) as [|f0 qs]; [by intros [= <-]|]. intros [= <-]. by apply qi_front0.
  - rewrite len_app, len_cons. lens.
  - lia.
Qed.

Lemma note_frame_queued_inv w g e n :
  inv (w, g) -> 0 < n -> unwritten (queue g) < MAX_FRAMES_IN_FLIGHT -> reorder_window_full g = false ->
  Lsn.lt (cursor w) e ->
  (Lsn.segment e = Lsn.segment (cursor w) \/ (coverage_tail g).2 = queued_bytes (queue g)) ->
  exists g' id, note_frame_queued g e n = Ok (g', id) /\
    let b := queued_bytes (queue g) + n in
    queue g' = {| queued_up_to := Some e; queued_bytes := b;
       queued := queued (queue g) ++ [{| qid := id; qend := e; end_bytes := b; written := false |}];
       unwritten := unwritten (queue g) + 1; next_frame_id := id;
       written_up_to := written_up_to (queue g); written_bytes := written_bytes (queue g) |} /\
    ledger g' = ledger g /\ always_unqueued (dues g') = false /\
    inv (add_frame e b w, g').
Proof.
  intros (Hf & [F Hq] & Hl & Hfo & He & Hd & Hs) Hn Hu Hr Hlt Hseg. cbn [fst snd] in *.
  unfold note_frame_queued. rewrite Hr, (proj2 (Z.ltb_lt _ _) Hu). apply Z.leb_gt in Hr.
  replace (match queued_up_to (queue g) with None => true | Some u => Lsn.ltb u e end) with true.
  2: { rewrite (qi_up _ _ _ Hq). unfold top_lsn. destruct (list.last (frames w)) as [x|] eqn:El; [|done].
       rewrite last_lookup in El. destruct (fi_pos _ Hf _ _ El) as (_ & _ & ?). cbn. symmetry.
       apply Lsn.ltb_lt. Lsn.lsn. }
  ok_step. eexists _, _. split; [reflexivity|]. cbn [queue ledger dues always_unqueued]. split_and!; try done.
  pose proof (tail_cut _ _ Hf Hl) as (_ & _ & Ht).
  assert (Hb : forall i x, frames w !! i = Some x -> x.2 < queued_bytes (queue g) + n).
  { intros i x Hi. pose proof (frames_below _ _ _ _ _ Hf Hq Hi). lia. }
  apply (inv_push _ _ F (queued_bytes (queue g) + n)); cbn [queue ledger stats]; try done.
  - apply add_frame_frames_inv; try done. lia.
  - by apply add_frame_queue_inv.
  - apply add_frame_ledger_inv; try done. destruct Hseg as [Hseg|Htail]; [by left|right].
    intros i x Hi. apply (tail_covered w g i x); try done. rewrite Htail. by apply (frames_below w _ F i).
  - destruct Hd. constructor; cbn [dues queue staged owed owed_next add_frame sync_due always_unqueued
      always_pending everysec_unqueued queued_bytes]; try done; [destruct (owed_next w); lia|].
    intros Hsd. change (coverage_tail _) with (coverage_tail g).
    destruct (owed_next w); [|auto]. destruct (di_next0 eq_refl). congruence.
  - unfold count_up. cbn [add_frame frames]. rewrite len_app, <- Hs. done.
Qed.

Lemma inv_top w g : inv (w, g) -> top_bytes (frames w) = queued_bytes (queue g).
Proof. intros (_ & [F Hq] & _). symmetry. apply (qi_bytes _ _ _ Hq). Qed.

Lemma inv_own_sync w g e c why now E :
  inv (w, g) -> queued_up_to (queue g) = Some e -> cursor w = e -> c <> frames_queued ->
  why = Linked \/ why = WriteThrough -> always_unqueued (dues g) = false -> owed_next w = false ->
  (why = Linked -> flush_in_flight (ledger g) < flush_bound (ledger g)) ->
  (why = WriteThrough -> write_through_pending (ledger g) < WRITE_THROUGH_WINDOW_ENTRIES) ->
  (forall i x, frames w !! i = Some x -> covered w (pending (ledger g)) i \/ i ∈ E) ->
  exists g' t,
    push_pending (set_stats c (set_dues (discharge (dues g)) g)) e (queued_bytes (queue g)) now why HeldNone
      = Ok (g', t) /\ inv (promise t E w, g').
Proof.
  intros (Hf & [F Hq] & Hl & Hfo & He & Hd & Hs) Hup Hcur Hc Hwhy Hau Hnx Hfl Hwt HE. cbn [fst snd] in *.
  set (g0 := set_stats c (set_dues (discharge (dues g)) g)).
  destruct (tail_cut _ _ Hf Hl) as (_ & Hle & Hb).
  destruct (push_event w g0 e (queued_bytes (queue g)) now why HeldNone E) as
    (g' & Ep & H1 & H2 & H3 & H4 & H5 & H6 & H7); try done.
  - apply pushable_tail; try done; change (coverage_tail g0) with (coverage_tail g).
    + by rewrite <- Hcur.
    + change (queue g0) with (queue g). lia.
    + rewrite Hcur. by right.
    + rewrite (qi_up _ _ _ Hq) in Hup. rewrite (qi_bytes _ _ _ Hq). unfold top_lsn, top_bytes in *.
      destruct (list.last (frames w)) as [x|] eqn:El; [|done]. injection Hup as <-.
      rewrite last_lookup in El. by apply (frame_cut w _ x Hf El).
  - intros Hdis. apply Hfl. by destruct Hwhy as [-> | ->].
  - intros i x Hi _. by apply (HE i x).
  - exists g', (mint g0). split; [done|].
    apply (inv_push _ _ F (queued_bytes (queue g))); rewrite ?H2, ?H3, ?H4; try done;
      [by apply promise_frames_inv|by apply promise_queue_inv|by rewrite <- H4|by rewrite <- H4|..].
    + apply extent_inv_push; try done. by destruct Hwhy as [-> | ->].
    + destruct Hd. constructor; rewrite ?H1, ?H2, ?H5; cbn; try done; try congruence. lia.
    + cbn. unfold count_up. by rewrite decide_False.
Qed.

Lemma queue_base w q F : queue_inv w q F ->
  queued_bytes q = match list.last (queued q) with Some f => end_bytes f | None => written_bytes q end.
Proof.
  intros Hq. rewrite (qi_bytes _ _ _ Hq), (qi_wbytes _ _ _ Hq), (qi_frames _ _ _ Hq). unfold top_bytes.
  destruct (list.last (queued q)) as [f|] eqn:El.
  - apply last_Some in El as [l ->]. rewrite fmap_app, app_assoc. change (fr <$> [f]) with [fr f]. by rewrite last_snoc.
  - apply last_None in El. by rewrite El, app_nil_r.
Qed.

Lemma back_but_one_snoc l f : back_but_one (l ++ [f]) = list.last l.
Proof.
  unfold back_but_one. rewrite rev_app_distr. cbn. destruct l as [|x l _] using rev_ind; [done|].
  by rewrite rev_app_distr, last_snoc.
Qed.

Lemma log_queue_write_through w g e n now :
  inv (w, g) -> 0 < n -> unwritten (queue g) < MAX_FRAMES_IN_FLIGHT -> reorder_window_full g = false ->
  Lsn.lt (cursor w) e -> (coverage_tail g).2 = queued_bytes (queue g) ->
  write_through_pending (ledger g) < WRITE_THROUGH_WINDOW_ENTRIES ->
  exists x', log_queue (w, g) PlanWriteThrough e n now = Ok x' /\ inv x'.
Proof.
  intros Hinv Hn Hu Hr Hlt Ht Hw. cbn [log_queue]. rewrite (inv_top w g Hinv).
  destruct (note_frame_queued_inv w g e n) as (g1 & id & -> & Hqe & Hle & Hau & Hi1); try done; [by right|].
  destruct Hinv as (Hf & [F Hq] & Hl & _). cbn [fst snd] in *. ok_step.
  unfold register_write_through. rewrite Hqe, Hau. cbn [queued_up_to queued written_bytes queued_bytes].
  rewrite back_but_one_snoc, <- (queue_base w _ F Hq). unfold coverage_tail. rewrite Hle.
  fold (coverage_tail g). rewrite Ht, Z.eqb_refl. ok_step.
  destruct (inv_own_sync (add_frame e (queued_bytes (queue g) + n) w) g1 e fsyncs_write_through
    WriteThrough now {[length (frames w)]}) as (g2 & t & E & Hi2); rewrite ?Hqe, ?Hle; try done; [by right|..].
  - intros i x [Hi|[-> _]]%add_frame_lookup; [left|right; set_solver].
    destruct (tail_covered w g i x Hl Hi) as [?|?]; [|by left|by right].
    rewrite Ht. by apply (frames_below w _ F i).
  - rewrite Hqe in E. cbn [queued_bytes] in E. rewrite E. ok_step. by eexists.
Qed.

Lemma drained_queue w q F : frames_inv w -> queue_inv w q F -> written_bytes q = queued_bytes q -> queued q = [].
Proof.
  intros Hf Hq Hd. rewrite (queue_base _ _ _ Hq), (qi_wbytes _ _ _ Hq) in Hd.
  destruct (list.last (queued q)) as [f|] eqn:El; [|by apply last_None].
  exfalso. apply last_Some in El as [l El].
  assert (Hk : frames w !! (length F + length l)%nat = Some (fr f)).
  { rewrite (qi_frames _ _ _ Hq), El, fmap_app, app_assoc, lookup_app_r by (rewrite length_app, length_fmap; lia).
    by rewrite length_app, length_fmap, Nat.sub_diag. }
  unfold top_bytes in Hd. destruct (list.last F) as [x|] eqn:ElF; cbn in Hd.
  - rewrite last_lookup in ElF. pose proof (lookup_lt_Some _ _ _ ElF) as HltF.
    assert (Hx : frames w !! pred (length F) = Some x) by (by rewrite (qi_frames _ _ _ Hq), lookup_app_l).
    destruct (fi_sorted _ Hf (pred (length F)) (length F + length l)%nat x (fr f)) as [_ ?]; try done; [lia|].
    cbn in *. lia.
  - destruct (fi_pos _ Hf _ _ Hk) as (_ & ? & _). cbn in *. lia.
Qed.

Lemma log_queue_linked w g e n now :
  inv (w, g) -> 0 < n -> unwritten (queue g) < MAX_FRAMES_IN_FLIGHT -> reorder_window_full g = false ->
  Lsn.lt (cursor w) e -> drained g = true ->
  (Lsn.segment e = Lsn.segment (cursor w) \/ (coverage_tail g).2 = queued_bytes (queue g)) ->
  flush_in_flight (ledger g) < flush_bound (ledger g) ->
  exists x', log_queue (w, g) PlanLinkedFsync e n now = Ok x' /\ inv x'.
Proof.
  intros Hinv Hn Hu Hr Hlt Hdr Hseg Hfl. cbn [log_queue]. rewrite (inv_top w g Hinv).
  destruct (note_frame_queued_inv w g e n) as (g1 & id & -> & Hqe & Hle & Hau & Hi1); try done.
  destruct Hinv as (Hf & [F Hq] & Hl & _). cbn [fst snd] in *. ok_step.
  apply Z.eqb_eq in Hdr. pose proof (drained_queue _ _ _ Hf Hq Hdr) as Hnil.
  unfold register_linked_fsync. rewrite Hqe, Hau, Hnil. cbn [queued_up_to queued app written queued_bytes].
  ok_step. set (w1 := add_frame e (queued_bytes (queue g) + n) w) in *.
  destruct (inv_own_sync w1 g1 e fsyncs_linked Linked now
    ({[length (frames w)]} ∪ landed_in w1 (Lsn.segment e))) as (g2 & t & E & Hi2);
    rewrite ?Hqe, ?Hle; try done; [by left|..].
  - intros i x Hi. destruct (add_frame_lookup _ _ _ _ _ Hi) as [Hi0|[-> _]]; [|right; set_solver].
    destruct Hi1 as (Hf1 & _ & Hl1 & _). cbn [fst snd] in *. destruct (fi_pos _ Hf1 _ _ Hi) as (_ & _ & Hc).
    destruct (decide (Lsn.segment x.1 = Lsn.segment e)) as [Heq|Hne].
    + right. apply elem_of_union_r, elem_of_filter. split.
      * unfold in_segment. rewrite Hi. destruct x. by apply Z.eqb_eq.
      * apply (qi_landed _ _ _ Hq). apply lookup_lt_Some in Hi0.
        by rewrite (qi_frames _ _ _ Hq), Hnil, app_nil_r in Hi0.
    + left. rewrite Hle in Hl1. apply (li_old _ _ _ Hl1 i x Hi). cbn in *. Lsn.lsn.
  - rewrite Hqe in E. cbn [queued_bytes] in E. rewrite E. ok_step. by eexists.
Qed.

(** What a plan other than [PlanWait] was given for. *)
Lemma frame_plan_inv (g : GroupCommit) ok seal :
  frame_plan g ok seal <> PlanWait ->
  reorder_window_full g = false /\
  match frame_plan g ok seal with
  | PlanWriteThrough =>
      (seal = true \/ (coverage_tail g).2 = queued_bytes (queue g)) /\
      write_through_pending (ledger g) < WRITE_THROUGH_WINDOW_ENTRIES
  | PlanLinkedFsync => drained g = true /\ flush_in_flight (ledger g) + Z.b2z seal < flush_bound (ledger g)
  | _ => True
  end.
Proof.
  unfold frame_plan. destruct (reorder_window_full g); [done|].
  destruct (negb (sync_due (dues g))); [done|].
  destruct (ok && (seal || write_through_due g) && negb (write_through_window_full g)) eqn:E.
  - intros _. split; [done|].
    apply andb_true_iff in E as [[_ Hor]%andb_true_iff Hw%negb_true_iff%Z.leb_gt]. split; [|done].
    apply orb_true_iff in Hor as [->|Hor]; [by left|right].
    by apply andb_true_iff in Hor as [_ ?%Z.eqb_eq].
  - destruct (drained g); [|done]. unfold syncs_in_flight. destruct (Z.ltb_spec (flush_in_flight (ledger g) + Z.b2z seal)
      (flush_bound (ledger g))); done.
Qed.

Lemma log_queue_inv w g plan e n now :
  inv (w, g) -> 0 < n -> unwritten (queue g) < MAX_FRAMES_IN_FLIGHT -> reorder_window_full g = false ->
  Lsn.lt (cursor w) e ->
  (Lsn.segment e = Lsn.segment (cursor w) \/ (coverage_tail g).2 = queued_bytes (queue g)) ->
  match plan with
  | PlanWriteThrough => (coverage_tail g).2 = queued_bytes (queue g) /\
      write_through_pending (ledger g) < WRITE_THROUGH_WINDOW_ENTRIES
  | PlanLinkedFsync => drained g = true /\ flush_in_flight (ledger g) < flush_bound (ledger g)
  | PlanPlain => True
  | PlanWait => False
  end ->
  exists x', log_queue (w, g) plan e n now = Ok x' /\ inv x'.
Proof.
  intros Hinv Hn Hu Hr Hlt Hseg Hp. destruct plan.
  - cbn [log_queue]. rewrite (inv_top w g Hinv).
    destruct (note_frame_queued_inv w g e n) as (g1 & id & -> & _ & _ & _ & Hi); try done.
    ok_step. by eexists.
  - destruct Hp. by apply log_queue_write_through.
  - destruct Hp. by apply log_queue_linked.
  - done.
Qed.

Lemma step_LogFrame w g ok seal e n now : inv (w, g) -> allowed (w, g) (LogFrame ok seal e n now) ->
  exists x', step (w, g) (LogFrame ok seal e n now) = Ok x' /\ inv x'.
Proof.
  intros Hinv (Hn & Hu & Hseal). cbn [step].
  destruct (bool_decide_reflect (frame_plan g ok (bool_decide (is_Some seal)) = PlanWait)) as [|Hplan];
    [by eexists|].
  destruct (frame_plan_inv _ _ _ Hplan) as [Hr Hp]. destruct seal as [h|].
  - destruct Hseal as (Hdr & Hseg & Hoff & Hlt). rewrite bool_decide_true in * by done.
    destruct (log_seal_inv w g h now Hinv Hdr Hseg Hoff) as
      (w' & g' & -> & Hi & Hcur & Hdu & Hq & Ht & Hfl & Hb & Hw). ok_step.
    apply log_queue_inv; rewrite ?Hcur, ?Hq; try done.
    + unfold reorder_window_full in *. by rewrite Hq.
    + left. cbn. lia.
    + by right.
    + destruct (frame_plan _ _ _); try done; rewrite ?Hfl, ?Hb, ?Hw; [split; [done|lia]|].
      destruct Hp as [_ ?]. split; [unfold drained in *; by rewrite Hq|]. cbn in *. lia.
  - destruct Hseal as [Hseg Hlt]. rewrite (bool_decide_false (is_Some None)) in * by (by intros []). ok_step.
    apply log_queue_inv; try done; [by left|].
    destruct (frame_plan _ _ _); try done; destruct Hp as [Hp ?]; split; try done; [by destruct Hp|cbn in *; lia].
Qed.

(** ** Every allowed step keeps the invariant *)

Lemma step_inv x ev : inv x -> allowed x ev -> exists x', step x ev = Ok x' /\ inv x'.
Proof.
  destruct x as [w g]. intros Hi Ha. destruct ev.
  - by apply step_Stage.
  - by apply step_Tick.
  - by apply step_LogFrame.
  - by apply step_Standalone.
  - by apply step_Completion.
  - by apply step_FrameWritten.
  - by apply step_Synced.
  - by apply step_SyncFailed.
  - by apply step_Boot.
  - by apply step_Prealloc.
  - by apply step_ZeroFill.
  - by apply step_Extent.
  - by apply step_IssueExtents.
  - by apply step_Rebase.
Qed.

(** A trace whose every event is allowed where it happens. It does not say that
    the steps return: that they do is proved. *)
Fixpoint trace (x : state) (evs : list event) : Prop :=
  match evs with
  | [] => True
  | ev :: evs => allowed x ev /\ match step x ev with Ok x' => trace x' evs | _ => True end
  end.

Lemma run_inv x evs : inv x -> trace x evs -> exists x', run x evs = Ok x' /\ inv x'.
Proof.
  revert x. induction evs as [|ev evs IH]; intros x Hi Ht; [by eexists|]. destruct Ht as [Ha Ht].
  destruct (step_inv x ev Hi Ha) as (x' & E & Hi'). cbn [run]. rewrite E in *. ok_step. by apply IH.
Qed.

Lemma init_inv b g at_ : with_flush_bound b = Ok g -> Lsn.le (Lsn.new 0 0) at_ -> inv (start at_, g).
Proof.
  unfold with_flush_bound. intros H Hat. apply bind_Ok in H as (? & Hb & H). injection H as <-.
  assert (Hr : 1 <= b <= 2) by (unfold rassert in Hb; destruct ((1 <=? b) && (b <=? 2)) eqn:E; [lia|done]).
  split_and!; cbn [fst snd queue ledger stats]; try done.
  - exists []. constructor; cbn; try done; lia.
  - constructor; cbn; try done; set_solver.
Qed.

Lemma run_from_start b g at_ evs :
  with_flush_bound b = Ok g -> Lsn.le (Lsn.new 0 0) at_ -> trace (start at_, g) evs ->
  exists w' g', run (start at_, g) evs = Ok (w', g') /\ inv (w', g').
Proof.
  intros Hg Hat Ht. destruct (run_inv _ _ (init_inv _ _ _ Hg Hat) Ht) as ([w' g'] & E & Hi). by exists w', g'.
Qed.

(** ** A failed barrier *)

(** The entry of ticket [t] failed, and nothing before it covers more than [B]. *)
Definition frozen (t B : Z) (l : Ledger) : Prop :=
  exists k p, pending l !! k = Some p /\ ticket p = t /\ failed p = true /\ durable_bytes l <= B /\
    forall q, q ∈ take k (pending l) -> covers_bytes q <= B.

Lemma push_pending_frozen t B g up_to bytes now why h g' t' :
  push_pending g up_to bytes now why h = Ok (g', t') ->
  frozen t B (ledger g) -> frozen t B (ledger g').
Proof.
  intros H (k & p & Hk & Hp). unfold push_pending in H. inv_ok H. injection H as <- <-.
  exists k, p. cbn [ledger pending durable_bytes]. pose proof (lookup_lt_Some _ _ _ Hk).
  rewrite lookup_app_l, take_app_le by lia. done.
Qed.

Lemma insert_frozen t B (l l' : Ledger) i p p' :
  pending l !! i = Some p -> failed p = false \/ failed p' = true ->
  ticket p' = ticket p -> covers_bytes p' = covers_bytes p ->
  pending l' = <[i := p']> (pending l) -> durable_bytes l' = durable_bytes l ->
  frozen t B l -> frozen t B l'.
Proof.
  intros Hi Hfl Ht Hc Hp Hd (k & q & Hk & Hqt & Hqf & Hdb & Hall).
  exists k, (if decide (i = k) then p' else q). rewrite Hp, Hd.
  assert (Hbelow : forall r, r ∈ take k (<[i := p']> (pending l)) -> covers_bytes r <= B).
  { intros r (j & Hj & Hjk)%elem_of_take.
    destruct (decide (j = i)) as [-> |Hne].
    - rewrite list_lookup_insert_eq in Hj by (by eapply lookup_lt_Some). injection Hj as <-. rewrite Hc.
      apply Hall, elem_of_take. eauto.
    - rewrite list_lookup_insert_ne in Hj by done. apply Hall, elem_of_take. eauto. }
  destruct (decide (i = k)) as [-> |Hne].
  - rewrite Hi in Hk. injection Hk as ->. rewrite list_lookup_insert_eq by (by eapply lookup_lt_Some).
    rewrite Ht. destruct Hfl; [congruence|done].
  - rewrite list_lookup_insert_ne by done. done.
Qed.

Lemma fold_frozen t B ps : forall l, pending l = ps -> frozen t B l -> frozen t B (fold_done ps l).
Proof.
  induction ps as [|front rest IH]; intros l Hp (k & q & Hk & Hqt & Hqf & Hdb & Hall); rewrite Hp in *; [done|].
  cbn [fold_done]. destruct (negb (done_ front) || failed front) eqn:E.
  - exists k, q. done.
  - apply IH; [done|]. apply orb_false_iff in E as [_ E].
    destruct k as [|k]; [injection Hk as ->; congruence|].
    exists k, q. cbn [pending durable_bytes]. split_and!; try done.
    + apply Hall. left.
    + intros r Hr. apply Hall. by right.
Qed.

Lemma complete_frozen t B g t' g' r :
  on_fsync_complete g t' = Ok (g', r) -> frozen t B (ledger g) -> frozen t B (ledger g').
Proof.
  intros H Hz. unfold on_fsync_complete in H. inv_ok H. injection H as <- _. cbn [ledger].
  match goal with Hg : get _ _ = Some _, Hf : negb (failed _) = true |- _ =>
    apply get_lookup in Hg; apply negb_true_iff in Hf;
    apply fold_frozen; [done|]; by eapply (insert_frozen t B (ledger g) _ _ _ (set_done _) Hg (or_introl Hf))
  end.
Qed.

Lemma error_frozen t B g t' g' r :
  on_fsync_error g t' = Ok (g', r) -> frozen t B (ledger g) -> frozen t B (ledger g').
Proof.
  intros H Hz. unfold on_fsync_error in H. inv_ok H. injection H as <- _. cbn [ledger].
  match goal with Hg : get _ _ = Some ?p |- _ =>
    apply get_lookup in Hg;
    by apply (insert_frozen t B (ledger g) _ _ p (set_failed p) Hg (or_intror eq_refl))
  end.
Qed.

Lemma rebase_frozen t B g t' now : frozen t B (ledger g) -> frozen t B (ledger (rebase_clock g t' now)).
Proof.
  intros Hz. unfold rebase_clock. destruct (pending_index g t') as [k|] eqn:Ek; [|done].
  destruct (pending_index_inv _ _ _ Ek) as (p & Hk & Hi). cbn [ledger]. rewrite (alter_insert _ _ _ _ Hi).
  apply (insert_frozen t B (ledger g) _ (Z.to_nat k) p (if done_ p || failed p then p else set_clock now p));
    try done.
  - destruct (failed p) eqn:E; [right|by left]. by rewrite orb_true_r.
  - by destruct (_ || _).
  - by destruct (_ || _).
Qed.

Lemma step_frozen t B x ev x' :
  step x ev = Ok x' -> frozen t B (ledger x.2) -> frozen t B (ledger x'.2).
Proof.
  destruct x as [w g]. intros H Hz. cbn [snd] in Hz. destruct ev; cbn [step] in H.
  - injection H as <-. by destruct c.
  - injection H as <-. cbn [snd]. unfold note_everysec_tick. by destruct (_ && _).
  - destruct (bool_decide _); [by injection H as <-|]. inv_ok H. destruct a as [w1 b].
    assert (Hz1 : frozen t B (ledger b)).
    { destruct seal as [h|]; cbn [log_seal] in H0; [|by injection H0 as _ <-].
      inv_ok H0. injection H0 as _ <-. unfold register_seal_fsync in H1. inv_ok H1.
      by eapply push_pending_frozen in H1. }
    cbn [log_queue] in H. inv_ok H. unfold note_frame_queued in H1. inv_ok H1. injection H1 as <- <-.
    destruct (frame_plan g _ _); [by injection H as <-| | |done].
    all: inv_ok H; injection H as <-;
      match goal with Hr : register_write_through _ _ = Ok _ |- _ => unfold register_write_through in Hr; inv_ok Hr
        | Hr : register_linked_fsync _ _ = Ok _ |- _ => unfold register_linked_fsync in Hr; inv_ok Hr end;
      by match goal with Hr : push_pending _ _ _ _ _ _ = Ok _ |- _ => eapply push_pending_frozen in Hr end.
  - inv_ok H. injection H as <-. unfold register_standalone_fsync in H0. inv_ok H0.
    by eapply push_pending_frozen in H0.
  - inv_ok H. injection H as <-. unfold register_completion_fsync in H0. inv_ok H0.
    by eapply push_pending_frozen in H0.
  - inv_ok H. injection H as <-. unfold note_frame_written in H0. inv_ok H0.
    destruct (drain_written _ _) as [? []]. by injection H0 as <-.
  - inv_ok H. injection H as <-. by eapply complete_frozen.
  - inv_ok H. injection H as <-. by eapply error_frozen.
  - inv_ok H. injection H as <-. unfold register_boot_barrier in H0. inv_ok H0. by eapply push_pending_frozen in H0.
  - inv_ok H. injection H as <-. unfold register_prealloc_barrier in H0. destruct (coverage_tail g).
    by eapply push_pending_frozen in H0.
  - inv_ok H. injection H as <-. unfold register_zero_fill_barrier in H0. destruct (coverage_tail g).
    by eapply push_pending_frozen in H0.
  - inv_ok H. injection H as <-. unfold register_extent in H0. destruct (coverage_tail g).
    destruct (negb _); [by injection H0 as <- <-|]. destruct made; [|by injection H0 as <- <-].
    inv_ok H0. injection H0 as <- <-. by eapply push_pending_frozen in H1.
  - injection H as <-. done.
  - injection H as <-. by apply rebase_frozen.
Qed.

Lemma run_frozen t B evs : forall x x',
  run x evs = Ok x' -> frozen t B (ledger x.2) -> frozen t B (ledger x'.2).
Proof.
  induction evs as [|ev evs IH]; intros x x' H Hz; cbn [run] in H; [by injection H as <-|].
  apply bind_Ok in H as (y & Hy & H). by apply (IH y), (step_frozen _ _ _ _ _ Hy).
Qed.

(** ** What the ledger promises *)

(** C1. The watermark is honest. From a fresh ledger, along every sequence of
    events the plane, the rotor and the driver may produce, no operation
    panics, and every frame that ends at or below the watermark is on stable
    storage: what is acknowledged as durable is durable. *)
Theorem watermark_honest b g at_ evs :
  with_flush_bound b = Ok g -> Lsn.le (Lsn.new 0 0) at_ -> trace (start at_, g) evs ->
  exists w' g', run (start at_, g) evs = Ok (w', g') /\
    forall d i e n, watermark g' = Some d -> frames w' !! i = Some (e, n) -> Lsn.le e d -> i ∈ stable w'.
Proof.
  intros Hg Hat Ht. destruct (run_from_start _ _ _ _ Hg Hat Ht) as (w' & g' & E & Hi).
  exists w', g'. split; [done|]. intros d i e n Hd Hf Hle. destruct Hi as (_ & _ & Hl & _). cbn [fst snd] in Hl.
  pose proof (li_watermark _ _ _ Hl) as Hw. unfold watermark in Hd. rewrite Hd in Hw.
  apply (li_durable _ _ _ Hl i (e, n) Hf). by apply (proj1 Hw i (e, n)).
Qed.

(** C5. The ledger's counters and windows. Along every allowed sequence, the
    FLUSH-class and write-through counters equal a recount of the entries, the
    unwritten counter a recount of the reorder window; no window exceeds its
    bound; tickets are consecutive; coverage never decreases down the ledger;
    and the extent window lists exactly the ledger's extent barriers. *)
Theorem ledger_recounts b g at_ evs :
  with_flush_bound b = Ok g -> Lsn.le (Lsn.new 0 0) at_ -> trace (start at_, g) evs ->
  exists w' g', run (start at_, g) evs = Ok (w', g') /\
    let l := ledger g' in let q := queue g' in
    syncs_in_flight g' = cnt in_flight (pending l) /\
    write_through_pending l = cnt (fun p => is_wt (reason p)) (pending l) /\
    unwritten q = cnt (fun f => negb (written f)) (queued q) /\
    write_through_pending l <= WRITE_THROUGH_WINDOW_ENTRIES /\
    len (queued q) <= REORDER_WINDOW_FRAMES /\ unwritten q <= MAX_FRAMES_IN_FLIGHT /\
    len (extent_window l) <= EXTENT_SEAL_WINDOW_ENTRIES /\
    (forall i p, pending l !! i = Some p -> ticket p = next_ticket l - len (pending l) + Z.of_nat i + 1) /\
    (forall i j p p', (i < j)%nat -> pending l !! i = Some p -> pending l !! j = Some p' ->
       Lsn.le (covers_up_to p) (covers_up_to p')) /\
    es_ticket <$> extent_window l = ext_tickets (pending l).
Proof.
  intros Hg Hat Ht. destruct (run_from_start _ _ _ _ Hg Hat Ht) as (w' & g' & E & Hi).
  exists w', g'. split; [done|]. destruct Hi as (_ & [F []] & [] & _ & [] & _). cbn [fst snd] in *.
  cbn zeta. split_and!; try done. intros i j p p' Hij Hp Hp'. by destruct (li_sorted0 i j p p').
Qed.

(** C4. No promised sync is forgotten. A staged [Always] record is owed a sync at
    once, and a tick owes one to every record framed or staged before it. Along
    every allowed sequence, while a record staged for the next frame is owed a
    sync the due flag is up; once the due flag is down every frame owed a sync is
    on stable storage or inside the coverage of a submitted barrier; and when no
    entry is in flight or failed the ledger is empty, so that then every owed
    frame is on stable storage. What is owed is the world's account of what was
    staged and ticked, not the ledger's flags. *)
Theorem due_never_forgotten b g at_ evs :
  with_flush_bound b = Ok g -> Lsn.le (Lsn.new 0 0) at_ -> trace (start at_, g) evs ->
  exists w' g', run (start at_, g) evs = Ok (w', g') /\
    (owed_next w' = true -> sync_due (dues g') = true) /\
    (sync_due (dues g') = false ->
      forall i e n, frames w' !! i = Some (e, n) -> n <= owed w' -> covered w' (pending (ledger g')) i) /\
    ((forall p, p ∈ pending (ledger g') -> done_ p = true /\ failed p = false) ->
      pending (ledger g') = [] /\
      (sync_due (dues g') = false ->
       forall i e n, frames w' !! i = Some (e, n) -> n <= owed w' -> i ∈ stable w')).
Proof.
  intros Hg Hat Ht. destruct (run_from_start _ _ _ _ Hg Hat Ht) as (w' & g' & E & Hi).
  exists w', g'. split; [done|]. destruct Hi as (_ & _ & Hl & Hfo & _ & Hd & _). cbn [fst snd] in *.
  assert (Hcov : sync_due (dues g') = false ->
    forall i e n, frames w' !! i = Some (e, n) -> n <= owed w' -> covered w' (pending (ledger g')) i).
  { intros Hs i e n Hf Hn. apply (tail_covered w' g' i (e, n)); try done.
    pose proof (di_idle _ _ Hd Hs). cbn. lia. }
  split_and!; try done.
  - intros Hn. by destruct (di_next _ _ Hd Hn).
  - intros Hall. assert (Hnil : pending (ledger g') = []).
    { destruct (pending (ledger g')) as [|p ps] eqn:Ep; [done|].
      destruct (Hall p) as [H1 H2]; [left|]. destruct (Hfo p); [by rewrite Ep|congruence|congruence]. }
    split; [done|]. intros Hs i e n Hf Hn. destruct (Hcov Hs i e n Hf Hn) as [|(p & Hp & _)]; [done|].
    rewrite Hnil in Hp. set_solver.
Qed.

(** What the entries before the [k]-th cover. *)
Definition covered_before (g : GroupCommit) (k : nat) : Z :=
  match list.last (take k (pending (ledger g))) with
  | Some p => covers_bytes p
  | None => durable_bytes (ledger g)
  end.

(** C2. A failed sync freezes the watermark. Once an entry has failed, along
    every allowed continuation the watermark stays below the end of every frame
    past what the entries before it cover, and the failed entry never leaves
    the ledger: later completions cannot step over it. *)
Theorem failure_freezes_watermark b g at_ evs evs' w1 g1 k p :
  with_flush_bound b = Ok g -> Lsn.le (Lsn.new 0 0) at_ -> trace (start at_, g) evs ->
  run (start at_, g) evs = Ok (w1, g1) ->
  pending (ledger g1) !! k = Some p -> failed p = true -> trace (w1, g1) evs' ->
  exists w2 g2, run (w1, g1) evs' = Ok (w2, g2) /\
    (exists p', p' ∈ pending (ledger g2) /\ ticket p' = ticket p /\ failed p' = true) /\
    forall d i e n, watermark g2 = Some d -> frames w2 !! i = Some (e, n) -> covered_before g1 k < n ->
      Lsn.lt d e.
Proof.
  intros Hg Hat Ht E Hk Hp Ht'. destruct (run_from_start _ _ _ _ Hg Hat Ht) as (? & ? & E' & Hi).
  rewrite E in E'. injection E' as <- <-. destruct (run_inv _ _ Hi Ht') as ([w2 g2] & E2 & Hi2).
  exists w2, g2. split; [done|].
  assert (Hz : frozen (ticket p) (covered_before g1 k) (ledger g1)).
  { destruct Hi as (_ & _ & Hl & _). cbn [fst snd] in Hl. exists k, p. split_and!; try done.
    - unfold covered_before. destruct (list.last _) as [q|] eqn:El; [|done].
      apply last_Some_elem_of, elem_of_take in El as (j & Hj & _).
      by destruct (li_range _ _ _ Hl q (list_elem_of_lookup_2 _ _ _ Hj)) as [_ []].
    - intros q (j & Hj & Hjk)%elem_of_take. unfold covered_before. rewrite last_lookup, length_take.
      pose proof (lookup_lt_Some _ _ _ Hk). rewrite Nat.min_l, lookup_take_lt by lia.
      destruct (lookup_lt_is_Some_2 (pending (ledger g1)) (pred k)) as [q' Hq']; [lia|]. rewrite Hq'.
      destruct (decide (j = pred k)) as [-> |Hne]; [rewrite Hj in Hq'; by injection Hq' as ->|].
      apply (li_sorted _ _ _ Hl j (pred k) q q'); try done. lia. }
  apply (run_frozen _ _ _ _ _ E2) in Hz as (k2 & p2 & Hk2 & Hpt & Hpf & Hdb & _). cbn [snd] in *.
  split; [exists p2; split_and!; try done; by apply list_elem_of_lookup_2 in Hk2|].
  intros d i e n Hd Hf Hn. destruct Hi2 as (_ & _ & Hl & _). cbn [fst snd] in Hl.
  pose proof (li_watermark _ _ _ Hl) as Hw. unfold watermark in Hd. rewrite Hd in Hw. destruct Hw as [Hcut _].
  destruct (Lsn.leb_spec e d) as [Hle|Hle]; [|Lsn.lsn]. apply (Hcut i (e, n) Hf) in Hle. cbn in Hle. lia.
Qed.

End world.

(** ** Examples *)

(** One [always] record, an [everysec] record in a plain frame, a tick with a
    standalone sync, an extent barrier, and a rotation whose frame carries a
    linked sync. *)
Definition example_events : list (event (File := unit)) :=
  [ Stage Always; LogFrame true None (Lsn.new 1 100) 60 1; FrameWritten 1; Synced 1;
    Stage Everysec; LogFrame true None (Lsn.new 1 200) 100 2; FrameWritten 2; Tick;
    LogStandalone 3; Synced 2; ExtentOn 3 (Some tt); IssueExtents; Synced 3; Stage Always;
    LogFrame false (Some {| ho_segment := 1; ho_end_offset := 200; ho_file := tt |}) (Lsn.new 2 80) 40 4;
    Synced 4; Rebase 5 6; FrameWritten 3 ].

(** Two write-through frames in flight, the first of which fails; the second
    completes. *)
Definition example_failure : list (event (File := unit)) :=
  [ Stage Always; LogFrame true None (Lsn.new 1 100) 60 1; Stage Always;
    LogFrame true None (Lsn.new 1 200) 100 2; SyncFailed 1 ].
Definition example_after : list (event (File := unit)) := [ FrameWritten 2; Synced 2 ].

Definition example_ledger : GroupCommit unit :=
  ltac:(match eval vm_compute in (@with_flush_bound unit 2) with Ok ?g => exact g end).
Definition example_start : Lsn.t := Lsn.new 1 40.
Definition example_state : state := (start example_start, example_ledger).
Definition no_fd (_ : unit) : option Z := None.
Definition example_failed : state :=
  ltac:(match eval vm_compute in (run no_fd example_state example_failure) with Ok ?x => exact x end).

Ltac solve_trace :=
  vm_compute; repeat split;
  first [ done | by right | by left | by (left; left) | by (eexists; split; [left|done])
        | by (eexists; split; [right; left|done]) | by intros [|?] ? ? ].

Lemma watermark_honest_witness :
  exists w' g', run no_fd example_state example_events = Ok (w', g') /\
    forall d i e n, watermark g' = Some d -> frames w' !! i = Some (e, n) -> Lsn.le e d -> i ∈ stable w'.
Proof. apply (watermark_honest no_fd 2 example_ledger example_start); [done|solve_trace|solve_trace]. Defined.

Lemma ledger_recounts_witness :
  exists w' g', run no_fd example_state example_events = Ok (w', g') /\
    let l := ledger g' in let q := queue g' in
    syncs_in_flight g' = cnt in_flight (pending l) /\
    write_through_pending l = cnt (fun p => is_wt (reason p)) (pending l) /\
    unwritten q = cnt (fun f => negb (written f)) (queued q) /\
    write_through_pending l <= WRITE_THROUGH_WINDOW_ENTRIES /\
    len (queued q) <= REORDER_WINDOW_FRAMES /\ unwritten q <= MAX_FRAMES_IN_FLIGHT /\
    len (extent_window l) <= EXTENT_SEAL_WINDOW_ENTRIES /\
    (forall i p, pending l !! i = Some p -> ticket p = next_ticket l - len (pending l) + Z.of_nat i + 1) /\
    (forall i j p p', (i < j)%nat -> pending l !! i = Some p -> pending l !! j = Some p' ->
       Lsn.le (covers_up_to p) (covers_up_to p')) /\
    es_ticket <$> extent_window l = ext_tickets (pending l).
Proof. apply (ledger_recounts no_fd 2 example_ledger example_start); [done|solve_trace|solve_trace]. Defined.

Lemma due_never_forgotten_witness :
  exists w' g', run no_fd example_state example_events = Ok (w', g') /\
    (owed_next w' = true -> sync_due (dues g') = true) /\
    (sync_due (dues g') = false ->
      forall i e n, frames w' !! i = Some (e, n) -> n <= owed w' -> covered w' (pending (ledger g')) i) /\
    ((forall p, p ∈ pending (ledger g') -> done_ p = true /\ failed p = false) ->
      pending (ledger g') = [] /\
      (sync_due (dues g') = false ->
       forall i e n, frames w' !! i = Some (e, n) -> n <= owed w' -> i ∈ stable w')).
Proof. apply (due_never_forgotten no_fd 2 example_ledger example_start); [done|solve_trace|solve_trace]. Defined.

Lemma failure_freezes_watermark_witness :
  exists w2 g2, run no_fd example_failed example_after = Ok (w2, g2) /\
    (exists p', p' ∈ pending (ledger g2) /\ ticket p' = 1 /\ failed p' = true) /\
    forall d i e n, watermark g2 = Some d -> frames w2 !! i = Some (e, n) ->
      covered_before example_failed.2 0 < n -> Lsn.lt d e.
Proof.
  pose (p := default {| ticket := 0; covers_up_to := example_start; covers_bytes := 0; submitted_at := 0;
    reason := Seal; done_ := false; failed := false; held := HeldNone |}
    (pending (ledger example_failed.2) !! 0%nat)).
  apply (failure_freezes_watermark no_fd 2 example_ledger example_start example_failure example_after
    example_failed.1 example_failed.2 0 p); try done; solve_trace.
Defined.

End Durability.
