(* ===== verification/Group16.v ===== *)
(** * Control-group probes ([crates/inf-simd/src/group16.rs])

    The 16-way byte masks behind the record index: the scalar definition, the
    SSE2 and NEON kernels over the documented meaning of their intrinsics, and
    the bit iteration the index runs over a mask. Bytes are integers in
    [0, 256). *)

From S2P Require Import Prelude.

Module Group16.

(** ** Scalar definition *)

Definition fold_mask (f : Z -> bool) (group : list Z) : Z :=
  foldl (fun m ib => Z.lor m (Z.shiftl (Z.b2z (f ib.2)) ib.1)) 0
    (zip (seqZ 0 (len group)) group).
Definition scalar_eq_mask16 (group : list Z) (tag : Z) : Z := fold_mask (fun b => b =? tag) group.
Definition scalar_high_bit_mask16 (group : list Z) : Z :=
  fold_mask (fun b => negb (Z.land b 0x80 =? 0)) group.

(** ** SSE2 *)

(** [_mm_cmpeq_epi8] against a broadcast byte; [_mm_movemask_epi8]. *)
Definition mm_cmpeq_epi8 (g : list Z) (t : Z) : list Z := (fun b => if b =? t then 0xFF else 0) <$> g.
Fixpoint mm_movemask_epi8 (g : list Z) : Z :=
  match g with [] => 0 | b :: g => Z.shiftr b 7 + 2 * mm_movemask_epi8 g end.

Definition sse2_eq_mask16 (group : list Z) (tag : Z) : Z := mm_movemask_epi8 (mm_cmpeq_epi8 group tag).
Definition sse2_high_bit_mask16 (group : list Z) : Z := mm_movemask_epi8 group.

(** ** NEON *)

Definition vceqq_u8 (g : list Z) (t : Z) : list Z := (fun b => if b =? t then 0xFF else 0) <$> g.
Definition vandq_u8 (g : list Z) (t : Z) : list Z := (fun b => Z.land b t) <$> g.

(** [vshrn_n_u16::<4>] over the little-endian [u16] lanes of the bytes, then
    the first [u64] lane of the eight result bytes. *)
Fixpoint vshrn_u64 (g : list Z) : Z :=
  match g with
  | lo :: hi :: g => wrap 8 (Z.shiftr (lo + Z.shiftl hi 8) 4) + Z.shiftl (vshrn_u64 g) 8
  | _ => 0
  end.

(** [mask_from_cmp]: the [while i < 16] loop, [n] iterations from [i]. *)
Fixpoint sample (n : nat) (i bits mask : Z) : Z :=
  match n with
  | O => mask
  | S n =>
      sample n (i + 1) bits
        (if Z.land (Z.shiftr bits (i * 4)) 1 =? 0 then mask else Z.lor mask (Z.shiftl 1 i))
  end.
Definition mask_from_cmp (cmp : list Z) : Z := sample 16 0 (vshrn_u64 cmp) 0.

Definition neon_eq_mask16 (group : list Z) (tag : Z) : Z := mask_from_cmp (vceqq_u8 group tag).
Definition neon_high_bit_mask16 (group : list Z) : Z :=
  mask_from_cmp (vceqq_u8 (vandq_u8 group 0x80) 0x80).

(** ** Iterating a mask

    [while c != 0 { let i = c.trailing_zeros(); c &= c - 1; .. }]: the body
    returns a new state or leaves the loop with a result. *)

Fixpoint pos_trailing_zeros (p : positive) : Z :=
  match p with xO p => 1 + pos_trailing_zeros p | _ => 0 end.
Definition trailing_zeros (c : Z) : Z :=
  match c with Zpos p => pos_trailing_zeros p | _ => 16 end.

Fixpoint each_bit {S R} (fuel : nat) (c : Z) (f : Z -> S -> panics (S + R)) (s : S) : panics (S + R) :=
  if c =? 0 then mret (inl s)
  else
    match fuel with
    | O => Panic
    | Datatypes.S fuel =>
        r ← f (trailing_zeros c) s;
        match r with
        | inr res => mret (inr res)
        | inl s' => each_bit fuel (Z.land c (c - 1)) f s'
        end
    end.

(** ** Specification *)

(** Bit [i] is the [i]-th boolean. *)
Fixpoint mask_of (bs : list bool) : Z :=
  match bs with [] => 0 | b :: bs => Z.b2z b + 2 * mask_of bs end.

(** The indices of the [true]s, counted from [i]. *)
Fixpoint trues (i : Z) (bs : list bool) : list Z :=
  match bs with
  | [] => []
  | b :: bs => if b then i :: trues (i + 1) bs else trues (i + 1) bs
  end.

(** A loop over a list that the body may leave. *)
Fixpoint visit {A S R} (l : list A) (f : A -> S -> panics (S + R)) (s : S) : panics (S + R) :=
  match l with
  | [] => mret (inl s)
  | x :: l =>
      r ← f x s;
      match r with inr res => mret (inr res) | inl s' => visit l f s' end
  end.

Lemma mask_of_nonneg bs : 0 <= mask_of bs < 2 ^ len bs.
Proof.
  induction bs as [|b bs IH]; [done|]. cbn [mask_of]. rewrite len_cons, Z.pow_add_r by lens.
  destruct b; cbn; lia.
Qed.

Lemma mask_of_testbit bs i : 0 <= i -> Z.testbit (mask_of bs) i = default false (get bs i).
Proof.
  revert i. induction bs as [|b bs IH]; intros i Hi; cbn [mask_of].
  - rewrite Z.bits_0. unfold get. by destruct (0 <=? i).
  - destruct (Z.eq_dec i 0) as [-> |Hne].
    + rewrite Z.add_comm, Z.testbit_0_r. done.
    + replace i with (Z.succ (i - 1)) by lia. rewrite Z.add_comm, Z.testbit_succ_r, IH by lia.
      unfold get. rewrite !(proj2 (Z.leb_le 0 _)) by lia. f_equal.
      replace (Z.to_nat (Z.succ (i - 1))) with (S (Z.to_nat (i - 1))) by lia. done.
Qed.

Lemma fold_mask_shift (f : Z -> bool) g : forall i m, 0 <= i -> 0 <= m < 2 ^ i ->
  foldl (fun m ib => Z.lor m (Z.shiftl (Z.b2z (f ib.2)) ib.1)) m (zip (seqZ i (len g)) g)
  = m + 2 ^ i * mask_of (f <$> g).
Proof.
  induction g as [|b g IH]; intros i m Hi Hm; [change (m = m + 2 ^ i * 0); lia|].
  rewrite len_cons, (seqZ_cons i) by lens. cbn [zip zip_with foldl fst snd].
  replace (Z.pred (1 + len g)) with (len g) by lia.
  rewrite lor_shiftl by lia. rewrite IH; [|lia|rewrite Z.pow_succ_r by lia; destruct (f b); cbn; lia].
  change (f <$> b :: g) with (f b :: (f <$> g)). cbn [mask_of]. rewrite Z.pow_succ_r by lia. lia.
Qed.

Lemma fold_mask_spec f g : fold_mask f g = mask_of (f <$> g).
Proof. unfold fold_mask. rewrite fold_mask_shift by (cbn; lia). lia. Qed.

Lemma movemask_spec (f : Z -> bool) (v : Z -> Z) g :
  (forall b, b ∈ g -> Z.shiftr (v b) 7 = Z.b2z (f b)) -> mm_movemask_epi8 (v <$> g) = mask_of (f <$> g).
Proof.
  induction g as [|b g IH]; intros H; [done|]. cbn. rewrite H by left. rewrite IH; [done|].
  intros b' Hb'. apply H. by right.
Qed.

Lemma all_bytes (P : Z -> bool) b : forallb P (seqZ 0 256) = true -> 0 <= b < 256 -> P b = true.
Proof.
  intros H Hb. rewrite forallb_forall in H. apply H, list_elem_of_In, elem_of_seqZ. lia.
Qed.

Lemma high_bit_shift b : 0 <= b < 256 -> Z.shiftr b 7 = Z.b2z (negb (Z.land b 0x80 =? 0)).
Proof.
  intros Hb. apply Z.eqb_eq.
  apply (all_bytes (fun b => Z.shiftr b 7 =? Z.b2z (negb (Z.land b 0x80 =? 0)))); done.
Qed.

Lemma high_bit_eq b : 0 <= b < 256 -> (Z.land b 0x80 =? 0x80) = negb (Z.land b 0x80 =? 0).
Proof.
  intros Hb. apply eqb_prop.
  apply (all_bytes (fun b => Bool.eqb (Z.land b 0x80 =? 0x80) (negb (Z.land b 0x80 =? 0)))); done.
Qed.

(** ** The NEON narrowing *)

Definition lanes (bs : list bool) : list Z := (fun b : bool => if b then 0xFF else 0) <$> bs.

Lemma vshrn_step b0 b1 bs :
  vshrn_u64 (lanes (b0 :: b1 :: bs)) = 15 * Z.b2z b0 + 240 * Z.b2z b1 + 256 * vshrn_u64 (lanes bs).
Proof.
  cbn [lanes fmap list_fmap vshrn_u64]. fold (lanes bs). rewrite (Z.shiftl_mul_pow2 (vshrn_u64 _)) by lia.
  rewrite (Z.mul_comm _ (2 ^ 8)). f_equal. by destruct b0, b1.
Qed.

Lemma shiftr_lane a r k : 0 <= a < 256 -> 0 <= k -> Z.shiftr (a + 256 * r) (8 + k) = Z.shiftr r k.
Proof.
  intros Ha Hk. rewrite !Z.shiftr_div_pow2, Z.pow_add_r by lia. change (2 ^ 8) with 256.
  rewrite <- Z.div_div by lia. f_equal. rewrite Z.mul_comm, Z.div_add, Z.div_small by lia. lia.
Qed.

Lemma vshrn_bit n bs : length bs = (2 * n)%nat -> forall i, 0 <= i -> i < len bs ->
  Z.land (Z.shiftr (vshrn_u64 (lanes bs)) (i * 4)) 1 = Z.b2z (default false (get bs i)).
Proof.
  revert bs. induction n as [|n IH]; intros bs Hlen i Hi Hlt; [unfold len in Hlt; lia|].
  destruct bs as [|b0 [|b1 bs]]; try (cbn in Hlen; lia). rewrite vshrn_step.
  set (r := vshrn_u64 (lanes bs)). rewrite !len_cons in Hlt.
  assert (Hodd : forall z, Z.land z 1 = z mod 2) by (intros z; apply (Z.land_ones z 1); lia).
  destruct (Z.eq_dec i 0) as [-> |]; [|destruct (Z.eq_dec i 1) as [-> |]].
  - rewrite Hodd, Z.shiftr_0_r. change (get (b0 :: b1 :: bs) 0) with (Some b0). cbn [default id].
    rewrite (Z.mul_comm 256 r). change 256 with (128 * 2). rewrite Z.mul_assoc, Z.mod_add by lia.
    by destruct b0, b1.
  - rewrite Hodd. change (get (b0 :: b1 :: bs) 1) with (Some b1). cbn [default id].
    rewrite Z.shiftr_div_pow2 by lia. change (2 ^ (1 * 4)) with 16.
    replace (15 * Z.b2z b0 + 240 * Z.b2z b1 + 256 * r)
      with (15 * Z.b2z b0 + 240 * Z.b2z b1 + (r * 8 * 2) * 16) by lia.
    rewrite Z.div_add, Z.mod_add by lia. by destruct b0, b1.
  - replace (i * 4) with (8 + (i - 2) * 4) by lia. rewrite shiftr_lane by (destruct b0, b1; cbn; lia).
    unfold r. rewrite IH; [|cbn in Hlen; lia|lia|lia]. do 2 f_equal. unfold get.
    rewrite !(proj2 (Z.leb_le 0 _)) by lia.
    replace (Z.to_nat i) with (S (S (Z.to_nat (i - 2)))) by lia. done.
Qed.

Lemma drop_get {A} (l : list A) i x : get l i = Some x ->
  drop (Z.to_nat i) l = x :: drop (Z.to_nat (i + 1)) l.
Proof.
  intros [Hi Hl]%get_Some. replace (Z.to_nat (i + 1)) with (S (Z.to_nat i)) by lia.
  by rewrite (drop_S l x).
Qed.

Lemma sample_spec bs bits n : forall i mask, 0 <= i -> len bs = i + Z.of_nat n -> 0 <= mask < 2 ^ i ->
  (forall k, 0 <= k < len bs -> Z.land (Z.shiftr bits (k * 4)) 1 = Z.b2z (default false (get bs k))) ->
  sample n i bits mask = mask + 2 ^ i * mask_of (drop (Z.to_nat i) bs).
Proof.
  induction n as [|n IH]; intros i mask Hi Hlen Hm Hb.
  - rewrite drop_ge by (unfold len in Hlen; lia). cbn [sample mask_of]. lia.
  - destruct (get_in bs i) as [b Hg]; [lia|]. rewrite (drop_get _ _ _ Hg). cbn [sample mask_of].
    rewrite (Hb i), Hg by lia. cbn [default id].
    replace (if Z.b2z b =? 0 then mask else Z.lor mask (Z.shiftl 1 i)) with (mask + Z.b2z b * 2 ^ i).
    + rewrite IH; [|lia|lia|rewrite Z.pow_add_r by lia; destruct b; cbn; lia|done].
      rewrite Z.pow_add_r by lia. lia.
    + destruct b; cbn [Z.b2z]; [|change (0 =? 0) with true; cbn iota; lia].
      change (1 =? 0) with false. cbn iota. rewrite lor_shiftl by lia. lia.
Qed.

Lemma mask_from_cmp_spec bs : length bs = 16%nat -> mask_from_cmp (lanes bs) = mask_of bs.
Proof.
  intros H. unfold mask_from_cmp. rewrite (sample_spec bs); [|lia|unfold len; lia|lia|].
  - rewrite drop_0. lia.
  - intros k Hk. apply (vshrn_bit 8); lia.
Qed.

(** ** Bit iteration *)

Lemma trailing_zeros_shift i m : 0 <= i -> 0 <= m -> trailing_zeros (2 ^ i * (1 + 2 * m)) = i.
Proof.
  intros Hi Hm. revert i Hi. apply natlike_ind.
  - rewrite Z.pow_0_r, Z.mul_1_l. by destruct m.
  - intros i Hi IH. rewrite Z.pow_succ_r, <- Z.mul_assoc by done.
    assert (Hp : 0 < 2 ^ i * (1 + 2 * m)) by (apply Z.mul_pos_pos; lia).
    destruct (2 ^ i * (1 + 2 * m)) as [|p|p]; [done| |done].
    change (2 * Z.pos p) with (Z.pos (xO p)). cbn [trailing_zeros pos_trailing_zeros] in *. lia.
Qed.

Lemma clear_lowest i m : 0 <= i -> 0 <= m ->
  let c := 2 ^ i * (1 + 2 * m) in Z.land c (c - 1) = 2 ^ (i + 1) * m.
Proof.
  intros Hi Hm c.
  assert (Hc : c = Z.shiftl (2 * m + 1) i) by (unfold c; rewrite Z.shiftl_mul_pow2; lia).
  assert (Hc1 : c - 1 = Z.lor (2 ^ i - 1) (Z.shiftl (2 * m) i)) by (rewrite lor_shiftl; lia).
  assert (Hr : 2 ^ (i + 1) * m = Z.shiftl (2 * m) i)
    by (rewrite Z.shiftl_mul_pow2, Z.pow_add_r by lia; lia).
  rewrite Hc1, Hr, Hc. apply Z.bits_inj'. intros n Hn.
  rewrite Z.land_spec, Z.lor_spec, !Z.shiftl_spec by lia.
  replace (2 ^ i - 1) with (Z.ones i) by (rewrite Z.ones_equiv; lia).
  destruct (Z.ltb_spec n i).
  - by rewrite !(Z.testbit_neg_r _ (n - i)) by lia.
  - rewrite Z.ones_spec_high by lia. cbn [orb].
    destruct (Z.eq_dec n i) as [-> |].
    + rewrite Z.sub_diag, Z.testbit_even_0. apply andb_false_r.
    + replace (n - i) with (Z.succ (n - i - 1)) by lia.
      rewrite Z.testbit_odd_succ, Z.testbit_even_succ by lia. apply andb_diag.
Qed.

Lemma each_bit_shift {S R} (f : Z -> S -> panics (S + R)) bs : forall fuel i s,
  (length bs <= fuel)%nat -> 0 <= i ->
  each_bit fuel (2 ^ i * mask_of bs) f s = visit (trues i bs) f s.
Proof.
  induction bs as [|b bs IH]; intros fuel i s Hf Hi; cbn [mask_of trues length] in *.
  - rewrite Z.mul_0_r. by destruct fuel.
  - pose proof (mask_of_nonneg bs) as [Hm _]. destruct b; cbn [Z.b2z].
    + destruct fuel as [|fuel]; [lia|]. cbn [each_bit visit].
      rewrite (proj2 (Z.eqb_neq _ 0)) by (apply Z.neq_mul_0; lia).
      rewrite trailing_zeros_shift by lia. destruct (f i s) as [[s'|r]| |]; ok_step; try done.
      rewrite clear_lowest by lia. apply IH; lia.
    + replace (2 ^ i * (0 + 2 * mask_of bs)) with (2 ^ (i + 1) * mask_of bs)
        by (rewrite Z.pow_add_r by lia; lia).
      apply IH; lia.
Qed.

(** Running through the bits of a mask is running through the indices of the
    bytes it selects, in order. *)
Lemma each_bit_mask {S R} (f : Z -> S -> panics (S + R)) (p : Z -> bool) g s :
  length g = 16%nat -> each_bit 16 (fold_mask p g) f s = visit (trues 0 (p <$> g)) f s.
Proof.
  intros Hg. rewrite fold_mask_spec, <- (each_bit_shift f _ 16 0); [|rewrite length_fmap; lia|done].
  by rewrite Z.mul_1_l.
Qed.

(** The vector kernels are the scalar masks: on every 16-byte group the
    SSE2 and the NEON [eq_mask16] and [high_bit_mask16] return exactly the
    bits of the scalar definitions. *)
Theorem kernels_agree group tag :
  length group = 16%nat -> Forall (fun b => 0 <= b < 256) group ->
  sse2_eq_mask16 group tag = scalar_eq_mask16 group tag /\
  neon_eq_mask16 group tag = scalar_eq_mask16 group tag /\
  sse2_high_bit_mask16 group = scalar_high_bit_mask16 group /\
  neon_high_bit_mask16 group = scalar_high_bit_mask16 group.
Proof.
  intros Hlen Hf. assert (Hb : forall b, b ∈ group -> 0 <= b < 256)
    by (intros b Hin; rewrite Forall_forall in Hf; by apply Hf, list_elem_of_In).
  unfold scalar_eq_mask16, scalar_high_bit_mask16. rewrite !fold_mask_spec. split_and!.
  - apply movemask_spec. intros b _. by destruct (b =? tag).
  - rewrite <- mask_from_cmp_spec by (by rewrite length_fmap). unfold neon_eq_mask16, vceqq_u8, lanes.
    by rewrite <- list_fmap_compose.
  - rewrite <- (movemask_spec _ id), list_fmap_id; [done|]. intros b Hin. exact (high_bit_shift b (Hb b Hin)).
  - rewrite <- mask_from_cmp_spec by (by rewrite length_fmap).
    unfold neon_high_bit_mask16, vceqq_u8, vandq_u8, lanes. rewrite <- !list_fmap_compose.
    apply (f_equal mask_from_cmp).
    apply list_fmap_ext. intros i b Hin. cbn [compose].
    rewrite high_bit_eq by (apply Hb, (list_elem_of_lookup_2 _ _ _ Hin)). done.
Qed.

Definition example_group : list Z := [0x80; 0x11; 0xFE; 0x11; 0; 0x7F; 0x80; 3; 4; 5; 6; 7; 0x11; 0x80; 0xFE; 0x11].

Lemma kernels_agree_witness :
  sse2_eq_mask16 example_group 0x11 = scalar_eq_mask16 example_group 0x11 /\
  neon_eq_mask16 example_group 0x11 = scalar_eq_mask16 example_group 0x11 /\
  sse2_high_bit_mask16 example_group = scalar_high_bit_mask16 example_group /\
  neon_high_bit_mask16 example_group = scalar_high_bit_mask16 example_group.
Proof. apply (kernels_agree example_group 0x11); [done|]. repeat constructor; lia. Defined.

End Group16.
