(* ===== verification/Index.v ===== *)
(** * The record index ([crates/inf-store/src/index.rs])

    The per-cell open-addressing table: control bytes probed sixteen at a time,
    8-byte slots of a 48-bit address and a 15-bit fingerprint, triangular probing
    over a power-of-two group count, tombstones, stop-and-copy growth. Every
    operation of [Index] is modelled; a closure that the code calls with an
    address is a predicate, or the list of addresses it was handed. The theorems
    relate a table to the set of (hash, address) pairs it holds. *)

From S2P Require Import Prelude Group16.
From stdpp Require Import gmap sets.
From Stdlib Require Znumtheory.
Import Group16.
#[local] Open Scope Z_scope.

Module Index.

Definition GROUP : Z := 16.
Definition CTRL_EMPTY : Z := 0x80.
Definition CTRL_TOMB : Z := 0xFE.
Definition LOAD_NUM : Z := 85.
Definition LOAD_DEN : Z := 100.

(** ** Slot modes *)

Class SlotMode := {
  Addr : Type;
  ExtStore : Type;
  EXT_BYTES_PER_SLOT : Z;
  addr_to_raw : Addr -> Z;
  addr_from_raw : Z -> panics Addr;
  ext_new : Z -> ExtStore;
  ext_set : ExtStore -> Z -> Z -> panics ExtStore;
  ext_hash : ExtStore -> Z -> panics Z;
  ext_matches : ExtStore -> Z -> Z -> panics bool }.

(** [ArenaAddr] and [LogicalAddr]: a [u64] of at most 48 bits. *)
Record ArenaAddr := { arena_raw : Z }.
Definition MAX_ADDR : Z := 2 ^ 48 - 1.
Definition ArenaAddr_from_raw (raw : Z) : option ArenaAddr :=
  if raw <=? MAX_ADDR then Some {| arena_raw := raw |} else None.

Record LogicalAddr := { logical_raw : Z }.
Definition MAX_RAW : Z := 2 ^ 48 - 1.
Definition LogicalAddr_from_raw (raw : Z) : option LogicalAddr :=
  if raw <=? MAX_RAW then Some {| logical_raw := raw |} else None.

Definition MemoryMode : SlotMode :=
  {| Addr := ArenaAddr; ExtStore := unit; EXT_BYTES_PER_SLOT := 0;
     addr_to_raw := arena_raw;
     addr_from_raw raw := expect (ArenaAddr_from_raw raw);
     ext_new _ := tt;
     ext_set s _ _ := mret s;
     ext_hash _ _ := mret 0;
     ext_matches _ _ _ := mret true |}.

Definition TieredMode : SlotMode :=
  {| Addr := LogicalAddr; ExtStore := list Z; EXT_BYTES_PER_SLOT := 8;
     addr_to_raw := logical_raw;
     addr_from_raw raw := expect (LogicalAddr_from_raw raw);
     ext_new capacity := replicate (Z.to_nat capacity) 0;
     ext_set s pos hash := set_at s pos hash;
     ext_hash s pos := expect (get s pos);
     ext_matches s pos hash := h ← expect (get s pos); mret (h =? hash) |}.

(** ** Slots and hash fragments *)

Definition ADDR_MASK : Z := 2 ^ 48 - 1.
Definition slot_new (addr_raw fp15 : Z) : Z :=
  Z.lor (Z.lor addr_raw (Z.shiftl fp15 48)) (Z.shiftl 1 63).
Definition slot_addr_raw (s : Z) : Z := Z.land s ADDR_MASK.
Definition slot_fp15 (s : Z) : Z := Z.land (Z.shiftr s 48) 0x7FFF.

Definition h2 (hash : Z) : Z := Z.land (wrap 8 (Z.shiftr hash 57)) 0x7F.
Definition fp15 (hash : Z) : Z := Z.land (Z.shiftr hash 42) 0x7FFF.

(** ** The table *)

Section Index.
Context {M : SlotMode}.

Record Index := {
  ctrl : list Z;
  slots : list Z;
  ext : ExtStore;
  capacity : Z;
  live : Z;
  tombstones : Z;
  rebuilds : Z }.

Definition empty_table (capacity rebuilds : Z) : Index :=
  {| ctrl := replicate (Z.to_nat capacity) CTRL_EMPTY; slots := replicate (Z.to_nat capacity) 0;
     ext := ext_new capacity; capacity := capacity; live := 0; tombstones := 0;
     rebuilds := rebuilds |}.

Definition next_power_of_two (n : Z) : Z := if n <=? 1 then 1 else 2 ^ Z.log2_up n.
Definition div_ceil (a b : Z) : Z := (a + b - 1) / b.

Definition with_capacity (at_least : Z) : Index :=
  let slots := div_ceil (wrap 64 (Z.max at_least 1 * LOAD_DEN)) LOAD_NUM in
  empty_table (Z.max (next_power_of_two slots) GROUP) 0.

Definition index_len (t : Index) : Z := live t.
Definition is_empty (t : Index) : bool := live t =? 0.
Definition memory_bytes (t : Index) : Z := capacity t * (1 + 8 + EXT_BYTES_PER_SLOT).
Definition group_count (t : Index) : Z := capacity t / GROUP.
Definition group_mask (t : Index) : Z := capacity t / GROUP - 1.
Definition ctrl_group (t : Index) (group : Z) : panics (list Z) :=
  slice (ctrl t) (group * GROUP) (group * GROUP + GROUP).

(** The probe loop shared by every lookup and scan: [body] runs on a group's
    control bytes and may leave with a result; an EMPTY in the group, or having
    seen every group, ends the chain. [fuel] bounds the groups visited. *)
Fixpoint probe {S R} (fuel : nat) (t : Index) (group stride : Z)
    (body : Z -> list Z -> S -> panics (S + R)) (s : S) : panics (S + R) :=
  match fuel with
  | O => Panic
  | Datatypes.S fuel =>
      c ← ctrl_group t group;
      r ← body group c s;
      match r with
      | inr res => mret (inr res)
      | inl s' =>
          if negb (scalar_eq_mask16 c CTRL_EMPTY =? 0) then mret (inl s')
          else if group_mask t <? stride + 1 then mret (inl s')
          else probe fuel t (Z.land (group + (stride + 1)) (group_mask t)) (stride + 1) body s'
      end
  end.
Definition probe_from {S R} (t : Index) (group : Z) body s : panics (S + R) :=
  probe (Z.to_nat (group_count t)) t group 0 body s.
Definition home (t : Index) (hash : Z) : Z := Z.land hash (group_mask t).

(** [find]: the result is the address that [verify] accepted. *)
Definition find_candidate (t : Index) (hash : Z) (verify : Addr -> bool) (group i : Z) (s : unit)
    : panics (unit + Addr) :=
  slot ← expect (get (slots t) (group * GROUP + i));
  if slot_fp15 slot =? fp15 hash
  then addr ← addr_from_raw (slot_addr_raw slot); mret (if verify addr then inr addr else inl s)
  else mret (inl s).
Definition find (t : Index) (hash : Z) (verify : Addr -> bool) : panics (option Addr) :=
  r ← probe_from t (home t hash)
        (fun group c s => each_bit 16 (scalar_eq_mask16 c (h2 hash)) (find_candidate t hash verify group) s) tt;
  mret (match r with inr addr => Some addr | inl _ => None end).

(** [probe_exact_bounded]: [visit] sees the addresses visited so far and says
    whether to stop; the state is those addresses and the groups loaded. *)
Inductive ProbeEnd := ChainEnd (groups : Z) | GroupBudget | Stopped (groups : Z).

Definition exact_candidate (t : Index) (hash : Z) (stop : list Addr -> bool) (group i : Z)
    (s : list Addr * Z) : panics ((list Addr * Z) + (list Addr * ProbeEnd)) :=
  slot ← expect (get (slots t) (group * GROUP + i));
  if slot_fp15 slot =? fp15 hash
  then
    m ← ext_matches (ext t) (group * GROUP + i) hash;
    if m : bool
    then
      addr ← addr_from_raw (slot_addr_raw slot);
      let seen := s.1 ++ [addr] in
      mret (if stop seen then inr (seen, Stopped s.2) else inl (seen, s.2))
    else mret (inl s)
  else mret (inl s).
Definition probe_exact_bounded (t : Index) (hash groups_max : Z) (stop : list Addr -> bool)
    : panics (list Addr * ProbeEnd) :=
  r ← probe_from t (home t hash)
        (fun group c s =>
           if groups_max <=? s.2 then mret (inr (s.1, GroupBudget))
           else each_bit 16 (scalar_eq_mask16 c (h2 hash)) (exact_candidate t hash stop group) (s.1, s.2 + 1))
        ([], 0);
  mret (match r with inr res => res | inl s => (s.1, ChainEnd s.2) end).

Definition each_exact (t : Index) (hash : Z) : panics (list Addr) :=
  '(seen, _) ← probe_exact_bounded t hash (group_count t) (fun _ => false);
  mret seen.

(** [probe_groups]: the groups visited before the probe ends. *)
Definition probe_groups (t : Index) (hash : Z) (verify : Addr -> bool) : panics Z :=
  r ← probe_from t (home t hash)
        (fun group c visited =>
           r ← each_bit 16 (scalar_eq_mask16 c (h2 hash)) (find_candidate t hash verify group) tt;
           mret (match r with inr _ => inr (visited + 1) | inl _ => inl (visited + 1) end)) 0;
  mret (match r with inr v => v | inl v => v end).

Definition needs_grow (t : Index) : bool :=
  capacity t * LOAD_NUM <? (live t + tombstones t + 1) * LOAD_DEN.

(** [insert] *)
Definition fill (t : Index) (pos hash : Z) (addr : Addr) : panics Index :=
  old ← expect (get (ctrl t) pos);
  ctrl' ← set_at (ctrl t) pos (h2 hash);
  slots' ← set_at (slots t) pos (slot_new (addr_to_raw addr) (fp15 hash));
  ext' ← ext_set (ext t) pos hash;
  mret {| ctrl := ctrl'; slots := slots'; ext := ext'; capacity := capacity t; live := live t + 1;
          tombstones := if old =? CTRL_TOMB then tombstones t - 1 else tombstones t;
          rebuilds := rebuilds t |}.
Fixpoint insert_loop (fuel : nat) (t : Index) (group stride hash : Z) (addr : Addr) : panics Index :=
  match fuel with
  | O => Panic
  | Datatypes.S fuel =>
      c ← ctrl_group t group;
      let specials := scalar_high_bit_mask16 c in
      if negb (specials =? 0) then fill t (group * GROUP + trailing_zeros specials) hash addr
      else
        _ ← rassert (stride + 1 <=? group_mask t);
        insert_loop fuel t (Z.land (group + (stride + 1)) (group_mask t)) (stride + 1) hash addr
  end.
Definition insert (t : Index) (hash : Z) (addr : Addr) : panics Index :=
  insert_loop (Z.to_nat (group_count t)) t (home t hash) 0 hash addr.

(** [position_of], [replace], [contains_pair], [remove_if_present], [remove] *)
Definition pair_candidate (t : Index) (hash raw group i : Z) (s : unit) : panics (unit + Z) :=
  slot ← expect (get (slots t) (group * GROUP + i));
  if slot_addr_raw slot =? raw
  then m ← ext_matches (ext t) (group * GROUP + i) hash;
       mret (if m : bool then inr (group * GROUP + i) else inl s)
  else mret (inl s).
Definition position_of (t : Index) (hash : Z) (addr : Addr) : panics (option Z) :=
  r ← probe_from t (home t hash)
        (fun group c s => each_bit 16 (scalar_eq_mask16 c (h2 hash))
                            (pair_candidate t hash (addr_to_raw addr) group) s) tt;
  mret (match r with inr pos => Some pos | inl _ => None end).

Definition replace (t : Index) (hash : Z) (old new : Addr) : panics Index :=
  p ← position_of t hash old;
  pos ← expect p;
  slots' ← set_at (slots t) pos (slot_new (addr_to_raw new) (fp15 hash));
  mret {| ctrl := ctrl t; slots := slots'; ext := ext t; capacity := capacity t; live := live t;
          tombstones := tombstones t; rebuilds := rebuilds t |}.

Definition contains_pair (t : Index) (hash : Z) (addr : Addr) : panics bool :=
  p ← position_of t hash addr; mret (bool_decide (is_Some p)).

Definition remove_at (t : Index) (pos : Z) : panics Index :=
  c ← ctrl_group t (pos / GROUP);
  let has_empty := negb (scalar_eq_mask16 c CTRL_EMPTY =? 0) in
  ctrl' ← set_at (ctrl t) pos (if has_empty then CTRL_EMPTY else CTRL_TOMB);
  slots' ← set_at (slots t) pos 0;
  mret {| ctrl := ctrl'; slots := slots'; ext := ext t; capacity := capacity t;
          live := live t - 1; tombstones := if has_empty then tombstones t else tombstones t + 1;
          rebuilds := rebuilds t |}.
Definition remove_if_present (t : Index) (hash : Z) (addr : Addr) : panics (Index * bool) :=
  p ← position_of t hash addr;
  match p with
  | None => mret (t, false)
  | Some pos => t' ← remove_at t pos; mret (t', true)
  end.
Definition remove (t : Index) (hash : Z) (addr : Addr) : panics Index :=
  p ← position_of t hash addr;
  pos ← expect p;
  remove_at t pos.

(** ** Home-group scans *)

(** The [for] over a group's control bytes: live slots only. *)
Definition live_slots (c : list Z) : list Z := trues 0 ((fun b => Z.land b 0x80 =? 0) <$> c).

Definition scan_slot (t : Index) (hash_of : Addr -> Z) (target group i : Z) (out : list Addr)
    : panics (list Addr + False) :=
  slot ← expect (get (slots t) (group * GROUP + i));
  addr ← addr_from_raw (slot_addr_raw slot);
  mret (inl (if home t (hash_of addr) =? target then out ++ [addr] else out)).
Definition scan_home_group (t : Index) (group : Z) (hash_of : Addr -> Z) : panics (list Addr) :=
  let target := home t group in
  r ← probe_from (R := False) t target (fun group c out => visit (live_slots c) (scan_slot t hash_of target group) out) [];
  mret (match r with inl out => out | inr f => match f : False with end end).

Definition scan_slot_ext (t : Index) (target group i : Z) (out : list (Addr * Z))
    : panics (list (Addr * Z) + False) :=
  hash ← ext_hash (ext t) (group * GROUP + i);
  if home t hash =? target
  then
    slot ← expect (get (slots t) (group * GROUP + i));
    addr ← addr_from_raw (slot_addr_raw slot);
    mret (inl (out ++ [(addr, hash)]))
  else mret (inl out).
Definition scan_home_group_ext (t : Index) (group : Z) : panics (list (Addr * Z)) :=
  let target := home t group in
  r ← probe_from (R := False) t target (fun group c out => visit (live_slots c) (scan_slot_ext t target group) out) [];
  mret (match r with inl out => out | inr f => match f : False with end end).

(** The group-by-group form of the same walk. *)
Record HomeGroupCursor := { hc_mask : Z; hc_home : Z; hc_group : Z; hc_stride : Z }.
Definition home_group_cursor (t : Index) (group : Z) : HomeGroupCursor :=
  {| hc_mask := group_mask t; hc_home := home t group; hc_group := home t group; hc_stride := 0 |}.
Definition scan_home_group_step (t : Index) (cur : HomeGroupCursor)
    : panics (HomeGroupCursor * list (Addr * Z) * bool) :=
  c ← ctrl_group t (hc_group cur);
  r ← visit (R := False) (live_slots c) (scan_slot_ext t (hc_home cur) (hc_group cur)) [];
  let out := match r with inl out => out | inr f => match f : False with end end in
  if negb (scalar_eq_mask16 c CTRL_EMPTY =? 0) then mret (cur, out, false)
  else
    let stride := hc_stride cur + 1 in
    if group_mask t <? stride
    then mret ({| hc_mask := hc_mask cur; hc_home := hc_home cur; hc_group := hc_group cur; hc_stride := stride |},
               out, false)
    else mret ({| hc_mask := hc_mask cur; hc_home := hc_home cur;
                  hc_group := Z.land (hc_group cur + stride) (group_mask t); hc_stride := stride |},
               out, true).

(** ** Resumable chain walks *)

Record ChainPos := { cp_rebuilds : Z; cp_home : Z; cp_group : Z; cp_stride : Z; cp_slot : Z }.
#[global] Instance ChainPos_eq_dec : EqDecision ChainPos.
Proof. solve_decision. Defined.

Definition at_slot (p : ChainPos) (slot : Z) : ChainPos :=
  {| cp_rebuilds := cp_rebuilds p; cp_home := cp_home p; cp_group := cp_group p;
     cp_stride := cp_stride p; cp_slot := slot |}.

(** [while pos.slot < GROUP]: [step] says whether to go on; stopping keeps the
    state it had before the slot. *)
Fixpoint walk_slots {S} (fuel : nat) (c : list Z) (p : ChainPos)
    (step : Z -> ChainPos -> S -> panics (S * bool)) (s : S) : panics (S * option ChainPos) :=
  match fuel with
  | O => mret (s, None)
  | Datatypes.S fuel =>
      if cp_slot p <? GROUP
      then
        b ← expect (get c (cp_slot p));
        if Z.land b 0x80 =? 0
        then
          '(s', go) ← step (cp_group p * GROUP + cp_slot p) p s;
          if go : bool then walk_slots fuel c (at_slot p (cp_slot p + 1)) step s'
          else mret (s', Some p)
        else walk_slots fuel c (at_slot p (cp_slot p + 1)) step s
      else mret (s, None)
  end.
Fixpoint walk_groups {S} (fuel : nat) (t : Index) (p : ChainPos)
    (step : Z -> ChainPos -> S -> panics (S * bool)) (s : S) : panics (S * option ChainPos) :=
  match fuel with
  | O => Panic
  | Datatypes.S fuel =>
      c ← ctrl_group t (cp_group p);
      '(s', stopped) ← walk_slots 16 c p step s;
      match stopped with
      | Some p' => mret (s', Some p')
      | None =>
          if negb (scalar_eq_mask16 c CTRL_EMPTY =? 0) then mret (s', None)
          else
            let stride := cp_stride p + 1 in
            if group_mask t <? stride then mret (s', None)
            else
              walk_groups fuel t
                {| cp_rebuilds := cp_rebuilds p; cp_home := cp_home p;
                   cp_group := Z.land (cp_group p + stride) (group_mask t);
                   cp_stride := stride; cp_slot := 0 |} step s'
      end
  end.
Definition chain_head (t : Index) (h : Z) : ChainPos :=
  {| cp_rebuilds := rebuilds t; cp_home := h; cp_group := h; cp_stride := 0; cp_slot := 0 |}.
Definition resume_at (t : Index) (h : Z) (resume : option ChainPos) : ChainPos :=
  match resume with
  | Some p => if (cp_rebuilds p =? rebuilds t) && (cp_home p =? h) then p else chain_head t h
  | None => chain_head t h
  end.
Definition walk_chain {S} (t : Index) (home_group : Z) (resume : option ChainPos)
    (step : Z -> ChainPos -> S -> panics (S * bool)) (s : S) : panics (S * option ChainPos) :=
  walk_groups (Z.to_nat (group_count t)) t (resume_at t (home t home_group) resume) step s.

(** [emit] sees what was emitted so far and the entry; [false] stops before it. *)
Definition scan_home_group_from (t : Index) (home_group : Z) (resume : option ChainPos)
    (hash_of : Addr -> Z) (emit : list Addr -> Addr -> bool) : panics (list Addr * option ChainPos) :=
  let target := home t home_group in
  walk_chain t home_group resume
    (fun pos _ out =>
       slot ← expect (get (slots t) pos);
       addr ← addr_from_raw (slot_addr_raw slot);
       mret (if negb (home t (hash_of addr) =? target) then (out, true)
             else if emit out addr then (out ++ [addr], true) else (out, false))) [].

Definition scan_home_group_ext_from (t : Index) (home_group : Z) (resume : option ChainPos)
    (emit : list (Addr * Z) -> Addr * Z -> bool) : panics (list (Addr * Z) * option ChainPos) :=
  let target := home t home_group in
  walk_chain t home_group resume
    (fun pos _ out =>
       hash ← ext_hash (ext t) pos;
       if negb (home t hash =? target) then mret (out, true)
       else
         slot ← expect (get (slots t) pos);
         addr ← addr_from_raw (slot_addr_raw slot);
         mret (if emit out (addr, hash) then (out ++ [(addr, hash)], true) else (out, false))) [].

(** ** Whole-table walks *)

Definition slot_addr (t : Index) (pos : Z) : panics (option Addr) :=
  c ← expect (get (ctrl t) pos);
  if Z.land c 0x80 =? 0
  then
    slot ← expect (get (slots t) pos);
    addr ← addr_from_raw (slot_addr_raw slot);
    mret (Some addr)
  else mret None.

(** The [for i in 0..span] of [live_walk], [n] iterations from [i]. *)
Fixpoint live_walk_loop (n : nat) (t : Index) (start i : Z) (out : list Addr) : panics (list Addr) :=
  match n with
  | O => mret out
  | Datatypes.S n =>
      a ← slot_addr t (Z.land (start + i) (capacity t - 1));
      live_walk_loop n t start (i + 1) (out ++ option_list a)
  end.
Definition live_walk (t : Index) (start_slot max_slots : Z) : panics (list Addr * Z) :=
  let mask := capacity t - 1 in
  let start := Z.land start_slot mask in
  let span := Z.min max_slots (capacity t) in
  out ← live_walk_loop (Z.to_nat span) t start 0 [];
  mret (out, Z.land (start + span) mask).

(** [live_from]: the chained iteration visits [start], [start + 1], .. and wraps. *)
Fixpoint live_from_loop (n : nat) (t : Index) (start i : Z) : panics (option Addr) :=
  match n with
  | O => mret None
  | Datatypes.S n =>
      a ← slot_addr t (Z.land (start + i) (capacity t - 1));
      match a with Some addr => mret (Some addr) | None => live_from_loop n t start (i + 1) end
  end.
Definition live_from (t : Index) (start_slot : Z) : panics (option Addr) :=
  if live t =? 0 then mret None
  else live_from_loop (Z.to_nat (capacity t)) t (Z.land start_slot (capacity t - 1)) 0.

(** [grow]: the [for pos in 0..capacity], [n] iterations from [pos]. *)
Fixpoint grow_loop (n : nat) (t : Index) (hash_of : Addr -> Z -> Z) (pos : Z) (next : Index) : panics Index :=
  match n with
  | O => mret next
  | Datatypes.S n =>
      a ← slot_addr t pos;
      next' ← match a with
              | Some addr => h ← ext_hash (ext t) pos; insert next (hash_of addr h) addr
              | None => mret next
              end;
      grow_loop n t hash_of (pos + 1) next'
  end.
Definition grow (t : Index) (hash_of : Addr -> Z -> Z) : panics Index :=
  let new_capacity := if live t <=? tombstones t then capacity t else capacity t * 2 in
  grow_loop (Z.to_nat (capacity t)) t hash_of 0 (empty_table new_capacity (rebuilds t + 1)).

End Index.
Arguments Index : clear implicits.

(** ** Fragments and slots *)

Lemma land_ones_mod k x : 0 <= k -> Z.land x (2 ^ k - 1) = x mod 2 ^ k.
Proof. intros. rewrite <- Z.land_ones, Z.ones_equiv by done. done. Qed.

Lemma h2_range hash : 0 <= h2 hash < 128.
Proof. unfold h2. change 0x7F with (2 ^ 7 - 1). rewrite land_ones_mod by lia. apply Z.mod_pos_bound. lia. Qed.

Lemma fp15_range hash : 0 <= fp15 hash < 2 ^ 15.
Proof.
  unfold fp15. change 0x7FFF with (2 ^ 15 - 1). rewrite land_ones_mod by lia. apply Z.mod_pos_bound. lia.
Qed.

Lemma slot_new_val a f : 0 <= a <= ADDR_MASK -> 0 <= f < 2 ^ 15 ->
  slot_new a f = a + f * 2 ^ 48 + 2 ^ 63.
Proof.
  intros Ha Hf. unfold slot_new, ADDR_MASK in *. rewrite (lor_shiftl 48) by lia.
  rewrite (lor_shiftl 63); [lia|lia|]. change (2 ^ 63) with (2 ^ 15 * 2 ^ 48). lia.
Qed.

(** The frozen slot layout keeps the address and the fingerprint. *)
Lemma slot_round_trip a f : 0 <= a <= ADDR_MASK -> 0 <= f < 2 ^ 15 ->
  slot_addr_raw (slot_new a f) = a /\ slot_fp15 (slot_new a f) = f.
Proof.
  intros Ha Hf. rewrite slot_new_val by done. unfold slot_addr_raw, slot_fp15, ADDR_MASK in *.
  change 0x7FFF with (2 ^ 15 - 1). rewrite !land_ones_mod, Z.shiftr_div_pow2 by lia.
  replace (a + f * 2 ^ 48 + 2 ^ 63) with (a + (f + 1 * 2 ^ 15) * 2 ^ 48) by lia.
  rewrite Z.mod_add, Z.div_add, (Z.div_small a), (Z.mod_small a) by lia.
  rewrite Z.add_0_l, Z.mod_add, Z.mod_small by lia. done.
Qed.

(** ** Triangular probing *)

(** The group after [j] strides from [h], over [2^k] groups. *)
Definition tri (k h j : Z) : Z := (h + j * (j + 1) / 2) mod 2 ^ k.

Lemma tri_double j : 2 * (j * (j + 1) / 2) = j * (j + 1).
Proof.
  assert (Hm : (j * (j + 1)) mod 2 = 0).
  { destruct (Z.Even_or_Odd j) as [[x ->]|[x ->]].
    - replace (2 * x * (2 * x + 1)) with ((x * (2 * x + 1)) * 2) by lia. apply Z.mod_mul. lia.
    - replace ((2 * x + 1) * (2 * x + 1 + 1)) with (((2 * x + 1) * (x + 1)) * 2) by lia. apply Z.mod_mul. lia. }
  pose proof (Z.div_mod (j * (j + 1)) 2 ltac:(lia)). lia.
Qed.

Lemma tri_0 k h : 0 <= h < 2 ^ k -> tri k h 0 = h.
Proof. intros. unfold tri. change (0 * (0 + 1) / 2) with 0. rewrite Z.add_0_r. by apply Z.mod_small. Qed.

Lemma tri_succ k h j : 0 <= k -> Z.land (tri k h j + (j + 1)) (2 ^ k - 1) = tri k h (j + 1).
Proof.
  intros Hk. rewrite land_ones_mod by done. unfold tri. rewrite Zplus_mod_idemp_l. f_equal.
  pose proof (tri_double j). pose proof (tri_double (j + 1)). lia.
Qed.

Lemma tri_range k h j : 0 <= k -> 0 <= tri k h j < 2 ^ k.
Proof. intros. apply Z.mod_pos_bound. lia. Qed.

Lemma odd_coprime_pow2 k x : 0 <= k -> Z.odd x = true -> Znumtheory.rel_prime (2 ^ k) x.
Proof.
  intros Hk Hx. apply Znumtheory.rel_prime_sym.
  assert (H2 : Znumtheory.rel_prime x 2).
  { apply Znumtheory.rel_prime_sym, Znumtheory.prime_rel_prime; [apply Znumtheory.prime_2|].
    intros [y ->]. by rewrite Z.odd_mul, andb_false_r in Hx. }
  revert k Hk. apply natlike_ind.
  - apply Znumtheory.rel_prime_sym, Znumtheory.rel_prime_1.
  - intros k Hk IH. rewrite Z.pow_succ_r by done. by apply Znumtheory.rel_prime_mult.
Qed.

(** One cycle of strides meets no group twice. *)
Lemma tri_inj k h i j : 0 <= k -> 0 <= i < 2 ^ k -> 0 <= j < 2 ^ k -> tri k h i = tri k h j -> i = j.
Proof.
  intros Hk. assert (Hlt : forall i j, 0 <= i < j -> j < 2 ^ k -> tri k h i <> tri k h j).
  2: { intros Hi Hj E. destruct (Z.lt_trichotomy i j) as [H|[H|H]]; [|done|];
       [destruct (Hlt i j)|destruct (Hlt j i)]; lia || done. }
  clear i j. intros i j Hi Hj E. unfold tri in E.
  assert (Hd : (2 ^ k | j * (j + 1) / 2 - i * (i + 1) / 2)).
  { apply Z.mod_divide; [lia|]. 
    replace (j * (j + 1) / 2 - i * (i + 1) / 2) with ((h + j * (j + 1) / 2) - (h + i * (i + 1) / 2)) by lia.
    rewrite Zminus_mod, E, Z.sub_diag. apply Z.mod_0_l. lia. }
  destruct Hd as [q Hq]. pose proof (tri_double i). pose proof (tri_double j).
  assert (Hp : (2 ^ (k + 1) | (j - i) * (j + i + 1))).
  { exists q. rewrite Z.pow_add_r by lia. lia. }
  assert (Hpos : forall x, 0 < x < 2 ^ (k + 1) -> (2 ^ (k + 1) | x) -> False).
  { intros x Hx Hdiv. apply Z.divide_pos_le in Hdiv; lia. }
  rewrite Z.pow_add_r in Hpos by lia. 
  destruct (Z.odd (j - i)) eqn:Eo.
  - apply (Hpos (j + i + 1)); [lia|]. rewrite <- Z.pow_add_r by lia.
    apply (Znumtheory.Gauss _ (j - i)); [done|]. apply odd_coprime_pow2; [lia|done].
  - apply (Hpos (j - i)); [lia|]. rewrite <- Z.pow_add_r by lia. rewrite Z.mul_comm in Hp.
    apply (Znumtheory.Gauss _ (j + i + 1)); [done|]. apply odd_coprime_pow2; [lia|].
    replace (j + i + 1) with ((j - i) + (2 * i + 1)) by lia.
    rewrite Z.odd_add, Eo, Z.odd_add, Z.odd_mul. done.
Qed.

(** One cycle meets every group. *)
Lemma tri_surj k h g : 0 <= k -> 0 <= g < 2 ^ k -> exists j, 0 <= j < 2 ^ k /\ tri k h j = g.
Proof.
  intros Hk Hg. set (js := seqZ 0 (2 ^ k)).
  assert (Hnd : NoDup (tri k h <$> js)).
  { apply NoDup_fmap_2_strong; [|apply NoDup_seqZ]. intros i j Hi%elem_of_seqZ Hj%elem_of_seqZ. by apply tri_inj; lia. }
  assert (Hp : tri k h <$> js ≡ₚ js).
  { apply submseteq_length_Permutation; [|by rewrite length_fmap].
    apply NoDup_submseteq; [done|]. intros x (j & -> & Hj)%list_elem_of_fmap.
    apply elem_of_seqZ. pose proof (tri_range k h j Hk). lia. }
  assert (Hin : g ∈ tri k h <$> js) by (rewrite Hp; apply elem_of_seqZ; lia).
  apply list_elem_of_fmap in Hin as (j & -> & Hj%elem_of_seqZ). exists j. split; [lia|done].
Qed.

(** ** Loops as list traversals *)

Lemma visit_concat {A B S R} (l : list A) (g : A -> list B) (f : A -> B -> S -> panics (S + R)) s :
  visit l (fun x => visit (g x) (f x)) s
  = visit (l ≫= fun x => pair x <$> g x) (fun xy => f xy.1 xy.2) s.
Proof.
  revert s. induction l as [|x l IH]; intros s; [done|]. cbn [mbind list_bind visit].
  assert (Happ : forall (ys : list B) s,
    visit ((pair x <$> ys) ++ (l ≫= fun x => pair x <$> g x)) (fun xy => f xy.1 xy.2) s
    = r ← visit ys (f x) s;
      match r with inr res => mret (inr res)
      | inl s' => visit (l ≫= fun x => pair x <$> g x) (fun xy => f xy.1 xy.2) s' end).
  { induction ys as [|y ys IHy]; intros s0; [done|]. cbn [fmap list_fmap app visit fst snd].
    destruct (f x y s0) as [[s1|r]| |]; ok_step; try done. }
  rewrite Happ. destruct (visit (g x) (f x) s) as [[s1|r]| |]; ok_step; try done.
Qed.

Lemma visit_ext {A S R} (l : list A) (f g : A -> S -> panics (S + R)) s :
  (forall x s, x ∈ l -> f x s = g x s) -> visit l f s = visit l g s.
Proof.
  revert s. induction l as [|x l IH]; intros s H; [done|]. cbn [visit]. rewrite (H x) by left.
  destruct (g x s) as [[s1|r]| |]; ok_step; try done. apply IH. intros. apply H. by right.
Qed.

(** A traversal that stops at the first hit. *)
Lemma visit_first {A R} (l : list A) (f : A -> unit -> panics (unit + R)) (g : A -> option R) :
  (forall x, x ∈ l -> f x tt = Ok (match g x with Some r => inr r | None => inl tt end)) ->
  visit l f tt = Ok (match head (omap g l) with Some r => inr r | None => inl tt end).
Proof.
  induction l as [|x l IH]; intros H; [done|]. cbn [visit omap list_omap]. rewrite H by left.
  destruct (g x) as [r|]; ok_step; [done|]. apply IH. intros. apply H. by right.
Qed.

(** A traversal that collects. *)
Lemma visit_collect {A B R} (l : list A) (f : A -> list B -> panics (list B + R)) (g : A -> list B) s :
  (forall x s, x ∈ l -> f x s = Ok (inl (s ++ g x))) -> visit l f s = Ok (inl (s ++ (l ≫= g))).
Proof.
  revert s. induction l as [|x l IH]; intros s H; [by rewrite app_nil_r|]. cbn [visit mbind list_bind].
  rewrite H by left. ok_step. rewrite IH, app_assoc; [done|]. intros. apply H. by right.
Qed.

Lemma elem_of_trues bs j i : i ∈ trues j bs <-> j <= i /\ get bs (i - j) = Some true.
Proof.
  revert j. induction bs as [|b bs IH]; intros j; cbn [trues].
  - split; [by intros ?%not_elem_of_nil|]. intros [_ H]. unfold get in H. by destruct (_ <=? _).
  - assert (Hs : j + 1 <= i -> get (b :: bs) (i - j) = get bs (i - (j + 1))).
    { intros. unfold get. rewrite !(proj2 (Z.leb_le 0 _)) by lia.
      replace (Z.to_nat (i - j)) with (S (Z.to_nat (i - (j + 1)))) by lia. done. }
    assert (H0 : get (b :: bs) 0 = Some b) by done.
    destruct (Z.eq_dec i j) as [-> |Hne].
    + rewrite Z.sub_diag, H0. destruct b.
      * split; [intros _; split; [lia|done]|intros _; left].
      * rewrite IH. split; [lia|intros [_ [=]]].
    + destruct b; [rewrite elem_of_cons|]; rewrite IH; split.
      * intros [?|[? ?]]; [done|]. rewrite Hs by lia. split; [lia|done].
      * intros [? H]. right. rewrite Hs in H by lia. split; [lia|done].
      * intros [? ?]. rewrite Hs by lia. split; [lia|done].
      * intros [? H]. rewrite Hs in H by lia. split; [lia|done].
Qed.

Lemma NoDup_trues bs j : NoDup (trues j bs).
Proof.
  revert j. induction bs as [|b bs IH]; intros j; cbn [trues]; [constructor|]. destruct b; [|done].
  constructor; [|done]. rewrite elem_of_trues. lia.
Qed.

Lemma mask_zero bs : mask_of bs = 0 <-> trues 0 bs = [].
Proof.
  assert (H : forall j, mask_of bs = 0 <-> trues j bs = []).
  { induction bs as [|b bs IH]; intros j; [done|]. cbn [mask_of trues]. pose proof (mask_of_nonneg bs).
    destruct b; cbn [Z.b2z]; [split; [lia|done]|]. rewrite <- IH. lia. }
  apply H.
Qed.

(** ** What a slot mode promises *)

Definition addr_ok {M : SlotMode} (a : Addr) : Prop := 0 <= addr_to_raw a <= ADDR_MASK.

(** [sidecar]: the mode keeps full hashes. *)
Class SlotModeLaws (M : SlotMode) := {
  sidecar : bool;
  ext_ok : ExtStore -> Z -> Prop;
  ext_holds : ExtStore -> Z -> Z -> Prop;
  addr_round_trip a : addr_ok a -> addr_from_raw (addr_to_raw a) = Ok a;
  ext_new_ok n : 0 <= n -> ext_ok (ext_new n) n;
  ext_set_ok s n p h : ext_ok s n -> 0 <= p < n ->
    exists s', ext_set s p h = Ok s' /\ ext_ok s' n /\ ext_holds s' p h /\
      forall q h', q <> p -> ext_holds s q h' -> ext_holds s' q h';
  ext_hash_ok s n p h : ext_ok s n -> 0 <= p < n -> ext_holds s p h ->
    exists x, ext_hash s p = Ok x /\ (sidecar = true -> x = h);
  ext_matches_ok s n p h h' : ext_ok s n -> 0 <= p < n -> ext_holds s p h ->
    ext_matches s p h' = Ok (if sidecar then h =? h' else true) }.

#[global] Instance MemoryMode_laws : SlotModeLaws MemoryMode.
Proof.
  refine (Build_SlotModeLaws MemoryMode false (fun _ _ => True) (fun _ _ _ => True) _ _ _ _ _); try done.
  - intros [raw] [_ H]. cbn in *. unfold ArenaAddr_from_raw, MAX_ADDR. unfold ADDR_MASK in H.
    by rewrite (proj2 (Z.leb_le raw _)).
  - intros [] n p h _ _. by exists tt.
  - intros [] n p h _ _ _. by exists 0.
Defined.

#[global] Instance TieredMode_laws : SlotModeLaws TieredMode.
Proof.
  refine (Build_SlotModeLaws TieredMode true (fun s n => len s = n) (fun s p h => get s p = Some h) _ _ _ _ _).
  - intros [raw] [_ H]. cbn in *. unfold LogicalAddr_from_raw, MAX_RAW. unfold ADDR_MASK in H.
    by rewrite (proj2 (Z.leb_le raw _)).
  - intros n Hn. cbn. rewrite len_replicate. lia.
  - intros s n p h <- Hp. exists (<[Z.to_nat p := h]> s). cbn. rewrite set_at_Ok by done. split_and!; try done.
    + apply len_insert.
    + rewrite get_insert, Z.eqb_refl by lia. done.
    + intros q h' Hne Hq. rewrite get_insert by (done || apply (get_lt _ _ _ Hq)).
      by rewrite (proj2 (Z.eqb_neq _ _)).
  - intros s n p h _ _ Hg. exists h. cbn in *. by rewrite Hg.
  - intros s n p h h' _ _ Hg. cbn in *. by rewrite Hg.
Defined.

(** ** The invariant *)

Section table.
Context {M : SlotMode} {L : SlotModeLaws M}.
Notation Index := (Index M).

Definition group_bytes (t : Index) (g : Z) : list Z := take 16 (drop (Z.to_nat (g * GROUP)) (ctrl t)).
Definition has_empty (t : Index) (g : Z) : Prop :=
  exists p, p / GROUP = g /\ get (ctrl t) p = Some CTRL_EMPTY.

(** Arrays of [2^k] groups. *)
Record shape (t : Index) (k : Z) : Prop := {
  sh_k : 0 <= k;
  sh_cap : capacity t = GROUP * 2 ^ k;
  sh_ctrl : len (ctrl t) = capacity t;
  sh_slots : len (slots t) = capacity t;
  sh_ext : ext_ok (ext t) (capacity t) }.

(** The table holds the pairs [es], indexed by slot: each is written out in its
    slot, and lies on the probe chain of its hash with no EMPTY before it. *)
Record table_inv (t : Index) (es : gmap Z (Z * Addr)) : Prop := {
  ti_shape : exists k, shape t k;
  ti_entry p h a : es !! p = Some (h, a) ->
    get (ctrl t) p = Some (h2 h) /\ get (slots t) p = Some (slot_new (addr_to_raw a) (fp15 h)) /\
    ext_holds (ext t) p h /\ addr_ok a;
  ti_special p : 0 <= p < capacity t -> es !! p = None ->
    get (ctrl t) p = Some CTRL_EMPTY \/ get (ctrl t) p = Some CTRL_TOMB;
  ti_live : live t = Z.of_nat (size es);
  ti_tombs : tombstones t = cnt (fun c => c =? CTRL_TOMB) (ctrl t);
  ti_chain k p h a : shape t k -> es !! p = Some (h, a) ->
    exists j, 0 <= j < 2 ^ k /\ p / GROUP = tri k (home t h) j /\
      forall i, 0 <= i < j -> ~ has_empty t (tri k (home t h) i) }.

Lemma group_mask_val t k : shape t k -> group_mask t = 2 ^ k - 1.
Proof.
  intros []. unfold group_mask. rewrite sh_cap0, Z.mul_comm, Z.div_mul by done. done.
Qed.

Lemma group_count_val t k : shape t k -> group_count t = 2 ^ k.
Proof. intros H. pose proof (group_mask_val _ _ H). unfold group_count, group_mask in *. lia. Qed.

Lemma home_val t k h : shape t k -> home t h = h mod 2 ^ k.
Proof. intros H. unfold home. rewrite (group_mask_val _ _ H). apply land_ones_mod, H. Qed.

Lemma home_range t k h : shape t k -> 0 <= home t h < 2 ^ k.
Proof. intros H. rewrite (home_val _ _ _ H). apply Z.mod_pos_bound. pose proof (sh_k _ _ H). lia. Qed.

Lemma ctrl_group_Ok t k g : shape t k -> 0 <= g < 2 ^ k ->
  ctrl_group t g = Ok (group_bytes t g) /\ length (group_bytes t g) = 16%nat.
Proof.
  intros [] Hg. unfold ctrl_group, slice, get_range, group_bytes, GROUP in *.
  assert (Hle : g * 16 + 16 <= len (ctrl t)) by (rewrite sh_ctrl0, sh_cap0; nia).
  rewrite (proj2 (Z.leb_le 0 (g * 16))), (proj2 (Z.leb_le (g * 16) (g * 16 + 16))), (proj2 (Z.leb_le _ _)) by lia.
  replace (g * 16 + 16 - g * 16) with 16 by lia. split; [done|].
  rewrite length_take, length_drop. unfold len in Hle. lia.
Qed.

Lemma get_group_bytes t g i : 0 <= g -> 0 <= i < 16 -> get (group_bytes t g) i = get (ctrl t) (g * GROUP + i).
Proof.
  intros Hg Hi. unfold group_bytes, get, GROUP in *. rewrite !(proj2 (Z.leb_le 0 _)) by lia.
  rewrite lookup_take_lt, lookup_drop by lia. f_equal. lia.
Qed.

Lemma pos_split g i : 0 <= i < 16 -> (g * GROUP + i) / GROUP = g /\ (g * GROUP + i) mod GROUP = i.
Proof.
  intros. unfold GROUP. rewrite Z.add_comm. rewrite Z.div_add, Z.mod_add, Z.div_small, Z.mod_small by lia. lia.
Qed.

Lemma pos_join p : p = p / GROUP * GROUP + p mod GROUP /\ 0 <= p mod GROUP < 16.
Proof.
  unfold GROUP. pose proof (Z.div_mod p 16 ltac:(lia)). pose proof (Z.mod_pos_bound p 16 ltac:(lia)). lia.
Qed.

(** The slots of a group whose control byte satisfies [f]. *)
Lemma elem_of_slots t k g f i : shape t k -> 0 <= g < 2 ^ k ->
  i ∈ trues 0 (f <$> group_bytes t g) <->
  0 <= i < 16 /\ exists b, get (ctrl t) (g * GROUP + i) = Some b /\ f b = true.
Proof.
  intros Hs Hg. destruct (ctrl_group_Ok t k g Hs Hg) as [_ Hlen]. rewrite elem_of_trues, Z.sub_0_r.
  assert (Hmap : get (f <$> group_bytes t g) i = f <$> get (group_bytes t g) i).
  { unfold get. destruct (0 <=? i); [|done]. apply list_lookup_fmap. }
  rewrite Hmap. split.
  - intros [Hi H]. destruct (get (group_bytes t g) i) as [b|] eqn:E; [|done]. injection H as H.
    pose proof (get_lt _ _ _ E) as Hlt. unfold len in Hlt. assert (Hi' : 0 <= i < 16) by lia.
    split; [done|]. exists b. rewrite <- get_group_bytes by lia. done.
  - intros [Hi (b & E & Hb)]. split; [lia|]. rewrite get_group_bytes, E by lia. cbn. by rewrite Hb.
Qed.

Lemma mask_nonzero t k g f : shape t k -> 0 <= g < 2 ^ k ->
  negb (fold_mask f (group_bytes t g) =? 0) = true <->
  exists p b, p / GROUP = g /\ get (ctrl t) p = Some b /\ f b = true.
Proof.
  intros Hs Hg. rewrite fold_mask_spec, negb_true_iff, Z.eqb_neq, mask_zero. split.
  - intros H. destruct (trues 0 (f <$> group_bytes t g)) as [|i l] eqn:E; [done|].
    assert (Hi : i ∈ trues 0 (f <$> group_bytes t g)) by (rewrite E; left).
    apply (elem_of_slots t k) in Hi as (Hi & b & Hb & Hf); [|done|done].
    exists (g * GROUP + i), b. by destruct (pos_split g i Hi).
  - intros (p & b & <- & Hp & Hf) Hnil. destruct (pos_join p) as [Hj Hm].
    assert (Hi : p mod GROUP ∈ trues 0 (f <$> group_bytes t (p / GROUP))).
    { apply (elem_of_slots t k); [done|done|]. split; [done|]. exists b. by rewrite <- Hj. }
    rewrite Hnil in Hi. by apply not_elem_of_nil in Hi.
Qed.

Lemma has_empty_mask t k g : shape t k -> 0 <= g < 2 ^ k ->
  negb (scalar_eq_mask16 (group_bytes t g) CTRL_EMPTY =? 0) = true <-> has_empty t g.
Proof.
  intros Hs Hg. unfold scalar_eq_mask16. rewrite (mask_nonzero t k) by done. split.
  - intros (p & b & Hp & Hb & ->%Z.eqb_eq). by exists p.
  - intros (p & Hp & Hb). exists p, CTRL_EMPTY. done.
Qed.

(** ** Probe chains *)

#[global] Instance has_empty_dec t g : Decision (has_empty t g).
Proof.
  destruct (decide (Exists (fun p => p / GROUP = g /\ get (ctrl t) p = Some CTRL_EMPTY) (seqZ 0 (len (ctrl t)))))
    as [H|H].
  - left. apply list.Exists_exists in H as (p & _ & Hp). by exists p.
  - right. intros (p & Hp & Hg). apply H, list.Exists_exists. exists p. split; [|done].
    apply elem_of_seqZ. apply get_lt in Hg. lia.
Qed.

(** The groups a probe starting at stride [j] of home [h] visits, [n] at most. *)
Fixpoint chain_from (n : nat) (t : Index) (k h j : Z) : list Z :=
  match n with
  | O => []
  | S n => tri k h j :: (if decide (has_empty t (tri k h j)) then [] else chain_from n t k h (j + 1))
  end.
Definition chain (t : Index) (k h : Z) : list Z := chain_from (Z.to_nat (2 ^ k)) t k h 0.

Lemma elem_of_chain_from n t k h g : forall j,
  g ∈ chain_from n t k h j <->
  exists i, j <= i < j + Z.of_nat n /\ g = tri k h i /\ forall i', j <= i' < i -> ~ has_empty t (tri k h i').
Proof.
  induction n as [|n IH]; intros j; cbn [chain_from].
  - split; [by intros ?%not_elem_of_nil|]. intros (i & ? & _). lia.
  - rewrite elem_of_cons. split.
    + intros [-> |Hin]; [exists j; split; [lia|split; [done|intros; lia]]|].
      destruct (decide _) as [|Hne]; [by apply not_elem_of_nil in Hin|].
      apply IH in Hin as (i & Hi & -> & Hb). exists i. split; [lia|split; [done|]].
      intros i' Hi'. destruct (Z.eq_dec i' j) as [-> |]; [done|]. apply Hb. lia.
    + intros (i & Hi & -> & Hb). destruct (Z.eq_dec i j) as [-> |Hne]; [by left|right].
      rewrite decide_False by (apply Hb; lia). apply IH. exists i. split; [lia|split; [done|]].
      intros. apply Hb. lia.
Qed.

Lemma elem_of_chain t k h g : 0 <= k ->
  g ∈ chain t k h <->
  exists j, 0 <= j < 2 ^ k /\ g = tri k h j /\ forall i, 0 <= i < j -> ~ has_empty t (tri k h i).
Proof.
  intros Hk. unfold chain. rewrite elem_of_chain_from.
  by replace (0 + Z.of_nat (Z.to_nat (2 ^ k))) with (2 ^ k) by lia.
Qed.

Lemma NoDup_chain_from n t k h : forall j, 0 <= k -> 0 <= j -> j + Z.of_nat n <= 2 ^ k ->
  NoDup (chain_from n t k h j).
Proof.
  induction n as [|n IH]; intros j Hk Hj Hn; cbn [chain_from]; constructor.
  - destruct (decide _); [apply not_elem_of_nil|]. rewrite elem_of_chain_from.
    intros (i & Hi & E & _). apply tri_inj in E; lia.
  - destruct (decide _); [constructor|]. apply IH; lia.
Qed.

Lemma NoDup_chain t k h : 0 <= k -> NoDup (chain t k h).
Proof. intros. apply NoDup_chain_from; lia. Qed.

Lemma chain_range t k h g : 0 <= k -> g ∈ chain t k h -> 0 <= g < 2 ^ k.
Proof. intros Hk (j & _ & -> & _)%elem_of_chain; [|done]. by apply tri_range. Qed.

(** The probe loop is a traversal of the chain. *)
Lemma probe_chain_from {S R} t k h (body : Z -> list Z -> S -> panics (S + R)) n : shape t k ->
  forall j s, 0 <= j -> j + Z.of_nat n = 2 ^ k -> 0 <= j < 2 ^ k ->
  probe n t (tri k h j) j body s = visit (chain_from n t k h j) (fun g => body g (group_bytes t g)) s.
Proof.
  intros Hs. pose proof (sh_k _ _ Hs) as Hk. induction n as [|n IH]; intros j s Hj Hn Hlt; [lia|].
  cbn [probe chain_from visit]. pose proof (tri_range k h j Hk) as Hr.
  destruct (ctrl_group_Ok t k _ Hs Hr) as [-> _]. ok_step.
  destruct (body (tri k h j) (group_bytes t (tri k h j)) s) as [[s'|r]| |]; ok_step; try done.
  destruct (negb (scalar_eq_mask16 (group_bytes t (tri k h j)) CTRL_EMPTY =? 0)) eqn:Ee.
  - apply (has_empty_mask t k) in Ee; [|done|done]. by rewrite decide_True.
  - rewrite decide_False by (rewrite <- (has_empty_mask t k) by done; congruence).
    rewrite (group_mask_val _ _ Hs). destruct (Z.ltb_spec (2 ^ k - 1) (j + 1)).
    + assert (n = O) as -> by lia. done.
    + rewrite tri_succ by done. apply IH; lia.
Qed.

Lemma probe_chain {S R} t k h (body : Z -> list Z -> S -> panics (S + R)) s : shape t k -> 0 <= h < 2 ^ k ->
  probe_from t h body s = visit (chain t k h) (fun g => body g (group_bytes t g)) s.
Proof.
  intros Hs Hh. unfold probe_from. rewrite (group_count_val _ _ Hs).
  rewrite <- (tri_0 k h) at 1 by done. apply probe_chain_from; [done|lia|lia|lia].
Qed.

(** The slots on the chain of [h] whose control byte satisfies [f], in order. *)
Definition on_chain (t : Index) (k h : Z) (f : Z -> bool) : list (Z * Z) :=
  chain t k h ≫= fun g => pair g <$> trues 0 (f <$> group_bytes t g).

Lemma elem_of_on_chain t k h f g i : shape t k ->
  (g, i) ∈ on_chain t k h f <->
  g ∈ chain t k h /\ 0 <= i < 16 /\ exists b, get (ctrl t) (g * GROUP + i) = Some b /\ f b = true.
Proof.
  intros Hs. unfold on_chain. rewrite list_elem_of_bind. split.
  - intros (g' & Hin & Hg). apply list_elem_of_fmap in Hin as (i' & [= <- <-] & Hi).
    apply (elem_of_slots t k) in Hi; [|done|apply (chain_range t k h); [apply Hs|done]]. done.
  - intros (Hg & Hi & Hb). exists g. split; [|done]. apply list_elem_of_fmap. exists i. split; [done|].
    apply (elem_of_slots t k); [done|apply (chain_range t k h); [apply Hs|done]|done].
Qed.

Lemma NoDup_on_chain t k h f : shape t k -> NoDup (on_chain t k h f).
Proof.
  intros Hs. apply NoDup_bind.
  - intros g1 g2 [g i] _ _ (? & [= <- <-] & _)%list_elem_of_fmap (? & [= <- _] & _)%list_elem_of_fmap. done.
  - intros g _. apply NoDup_fmap_2; [by intros ? ? [= ->]|]. apply NoDup_trues.
  - apply NoDup_chain, Hs.
Qed.

(** ** Lookups *)

Lemma ctrl_live t es k p b : table_inv t es -> shape t k -> get (ctrl t) p = Some b -> b < 128 ->
  exists h a, es !! p = Some (h, a) /\ b = h2 h.
Proof.
  intros Ht Hs Hp Hb. pose proof (get_lt _ _ _ Hp) as Hr. rewrite (sh_ctrl _ _ Hs) in Hr.
  destruct (es !! p) as [[h a]|] eqn:E.
  - exists h, a. split; [done|]. destruct (ti_entry _ _ Ht p h a E) as (Hc & _). congruence.
  - destruct (ti_special _ _ Ht p Hr E) as [Hc|Hc]; rewrite Hp in Hc; injection Hc as ->;
      unfold CTRL_EMPTY, CTRL_TOMB in *; lia.
Qed.

Lemma entry_range t es k p h a : table_inv t es -> shape t k -> es !! p = Some (h, a) -> 0 <= p < capacity t.
Proof.
  intros Ht Hs E. destruct (ti_entry _ _ Ht p h a E) as (Hc & _). apply get_lt in Hc.
  by rewrite (sh_ctrl _ _ Hs) in Hc.
Qed.

(** An entry lies on its hash's chain. *)
Lemma entry_on_chain t es k p h a f : table_inv t es -> shape t k -> es !! p = Some (h, a) -> f (h2 h) = true ->
  (p / GROUP, p mod GROUP) ∈ on_chain t k (home t h) f.
Proof.
  intros Ht Hs E Hf. destruct (pos_join p) as [Hj Hm]. apply elem_of_on_chain; [done|].
  split; [|split; [done|]].
  - apply elem_of_chain; [apply Hs|]. destruct (ti_chain _ _ Ht k p h a Hs E) as (j & Hj' & Hg & Hn).
    by exists j.
  - exists (h2 h). rewrite <- Hj. split; [|done]. apply (ti_entry _ _ Ht p h a E).
Qed.

(** A slot with tag [h2 hash] on the chain holds an entry. *)
Lemma tagged_entry t es k hash g i : table_inv t es -> shape t k ->
  (g, i) ∈ on_chain t k (home t hash) (fun b => b =? h2 hash) ->
  exists h a, es !! (g * GROUP + i) = Some (h, a) /\ h2 h = h2 hash.
Proof.
  intros Ht Hs (_ & _ & b & Hb & Hf%Z.eqb_eq)%elem_of_on_chain; [|done]. subst b.
  destruct (ctrl_live t es k _ _ Ht Hs Hb) as (h & a & E & Hh); [apply h2_range|]. by exists h, a.
Qed.

(** Every lookup is a traversal of the tagged slots of its chain. *)
Lemma tagged_probe {S R} t k hash (f : Z -> Z -> S -> panics (S + R)) s : shape t k ->
  probe_from t (home t hash) (fun g c s => each_bit 16 (scalar_eq_mask16 c (h2 hash)) (f g) s) s
  = visit (on_chain t k (home t hash) (fun b => b =? h2 hash)) (fun gi => f gi.1 gi.2) s.
Proof.
  intros Hs. rewrite (probe_chain t k) by (done || by apply home_range).
  unfold on_chain. rewrite <- visit_concat. apply visit_ext. intros g s0 Hg.
  unfold scalar_eq_mask16. rewrite each_bit_mask; [done|].
  apply (ctrl_group_Ok t k g Hs), (chain_range t k (home t hash)); [apply Hs|done].
Qed.

Definition found (hash : Z) (verify : Addr -> bool) (e : option (Z * Addr)) : option Addr :=
  match e with
  | Some (h, a) => if (fp15 h =? fp15 hash) && verify a then Some a else None
  | None => None
  end.

Lemma slot_entry t es p h a : table_inv t es -> es !! p = Some (h, a) ->
  exists slot, get (slots t) p = Some slot /\ slot_fp15 slot = fp15 h /\
    slot_addr_raw slot = addr_to_raw a /\ addr_from_raw (slot_addr_raw slot) = Ok a.
Proof.
  intros Ht E. destruct (ti_entry _ _ Ht p h a E) as (_ & Hs & _ & Ha).
  destruct (slot_round_trip (addr_to_raw a) (fp15 h) Ha (fp15_range h)) as [E1 E2].
  eexists. split; [done|]. split_and!; [done|done|]. rewrite E1. by apply addr_round_trip.
Qed.

Lemma find_traversal t es k hash verify : table_inv t es -> shape t k ->
  find t hash verify
  = Ok (head (omap (fun gi => found hash verify (es !! (gi.1 * GROUP + gi.2)))
         (on_chain t k (home t hash) (fun b => b =? h2 hash)))).
Proof.
  intros Ht Hs. unfold find. rewrite (tagged_probe t k) by done.
  rewrite (visit_first _ _ (fun gi => found hash verify (es !! (gi.1 * GROUP + gi.2)))).
  - ok_step. by destruct (head _).
  - intros [g i] Hin. cbn [fst snd]. destruct (tagged_entry t es k hash g i Ht Hs Hin) as (h & a & E & _).
    destruct (slot_entry t es _ h a Ht E) as (slot & Hg & Hfp & _ & Ha). unfold find_candidate.
    rewrite Hg, E. ok_step. rewrite Hfp. cbn [found]. destruct (fp15 h =? fp15 hash); [|done].
    rewrite Ha. ok_step. by destruct (verify a).
Qed.

Lemma head_omap_Some {A B} (f : A -> option B) l y : head (omap f l) = Some y -> exists x, x ∈ l /\ f x = Some y.
Proof.
  induction l as [|x l IH]; cbn [omap list_omap]; [done|]. destruct (f x) eqn:E.
  - intros [= ->]. exists x. split; [left|done].
  - intros H. destruct (IH H) as (z & ? & ?). exists z. split; [by right|done].
Qed.

Lemma head_omap_None {A B} (f : A -> option B) l x : head (omap f l) = None -> x ∈ l -> f x = None.
Proof.
  induction l as [|y l IH]; cbn [omap list_omap]; [by intros _ ?%not_elem_of_nil|].
  destruct (f y) eqn:E; [done|]. intros H [-> |Hin]%elem_of_cons; [done|]. by apply IH.
Qed.

Lemma find_spec t es hash verify : table_inv t es ->
  exists r, find t hash verify = Ok r /\
    match r with
    | Some a => verify a = true /\
        exists p h, es !! p = Some (h, a) /\ h2 h = h2 hash /\ fp15 h = fp15 hash
    | None => forall p a, es !! p = Some (hash, a) -> verify a = false
    end.
Proof.
  intros Ht. destruct (ti_shape _ _ Ht) as [k Hs]. rewrite (find_traversal t es k) by done.
  eexists. split; [reflexivity|].
  destruct (head (omap _ _)) as [a|] eqn:E.
  - apply head_omap_Some in E as ([g i] & Hin & Hf). cbn [fst snd] in Hf.
    destruct (tagged_entry t es k hash g i Ht Hs Hin) as (h & a' & Ee & Hh). rewrite Ee in Hf. cbn [found] in Hf.
    destruct (Z.eqb_spec (fp15 h) (fp15 hash)), (verify a') eqn:Ev; try done. injection Hf as <-.
    split; [done|]. by exists (g * GROUP + i), h.
  - intros p a Ee. pose proof (entry_on_chain t es k p hash a (fun b => b =? h2 hash) Ht Hs Ee (Z.eqb_refl _)) as Hin.
    pose proof (head_omap_None _ _ _ E Hin) as Hf. cbn [fst snd] in Hf.
    destruct (pos_join p) as [Hj _]. rewrite <- Hj, Ee in Hf. cbn [found] in Hf. rewrite Z.eqb_refl in Hf.
    by destruct (verify a).
Qed.

Lemma addr_raw_inj a a' : addr_ok a -> addr_to_raw a = addr_to_raw a' -> a = a'.
Proof.
  intros Ha E. pose proof (addr_round_trip a Ha) as H1.
  pose proof (addr_round_trip a') as H2. unfold addr_ok in *. rewrite <- E in H2. rewrite H2 in H1 by done.
  by injection H1.
Qed.

Lemma position_of_spec t es hash addr : table_inv t es ->
  exists r, position_of t hash addr = Ok r /\
    match r with
    | Some p => exists h, es !! p = Some (h, addr) /\ h2 h = h2 hash /\ (sidecar = true -> h = hash)
    | None => forall p, es !! p <> Some (hash, addr)
    end.
Proof.
  intros Ht. destruct (ti_shape _ _ Ht) as [k Hs]. unfold position_of. rewrite (tagged_probe t k) by done.
  set (hit := fun gi : Z * Z => match es !! (gi.1 * GROUP + gi.2) with
    | Some (h, a) => if (addr_to_raw a =? addr_to_raw addr) && (if sidecar then h =? hash else true)
                     then Some (gi.1 * GROUP + gi.2) else None
    | None => None end).
  rewrite (visit_first _ _ hit).
  - ok_step. eexists. split; [reflexivity|]. destruct (head (omap hit _)) as [p|] eqn:E.
    + apply head_omap_Some in E as ([g i] & Hin & Hf).
      destruct (tagged_entry t es k hash g i Ht Hs Hin) as (h & a & Ee & Hh). unfold hit in Hf.
      cbn [fst snd] in Hf. rewrite Ee in Hf. destruct (Z.eqb_spec (addr_to_raw a) (addr_to_raw addr)) as [Er|]; [|done].
      assert (Ha : a = addr) by (apply addr_raw_inj; [apply (ti_entry _ _ Ht _ _ _ Ee)|done]).
      subst a. exists h. destruct (Z.eqb_spec h hash), sidecar; try done; injection Hf as <-; by split_and!.
    + intros p Ee.
      pose proof (entry_on_chain t es k p hash addr (fun b => b =? h2 hash) Ht Hs Ee (Z.eqb_refl _)) as Hin.
      pose proof (head_omap_None _ _ _ E Hin) as Hf. unfold hit in Hf. cbn [fst snd] in Hf.
      destruct (pos_join p) as [Hj _]. rewrite <- Hj, Ee, !Z.eqb_refl in Hf. by destruct sidecar.
  - intros [g i] Hin. unfold hit. cbn [fst snd].
    destruct (tagged_entry t es k hash g i Ht Hs Hin) as (h & a & Ee & Hh).
    destruct (slot_entry t es _ h a Ht Ee) as (slot & Hg & _ & Hr & _). unfold pair_candidate.
    rewrite Hg, Ee. ok_step. rewrite Hr. destruct (_ =? _); [|done].
    rewrite (ext_matches_ok _ (capacity t) _ h hash) by
      (apply Hs || apply (entry_range t es k _ h a Ht Hs Ee) || apply (ti_entry _ _ Ht _ _ _ Ee)).
    ok_step. by destruct (if sidecar then _ else _).
Qed.

(** ** Updates *)

Lemma get_ctrl_set (l : list Z) p q x : 0 <= p < len l ->
  get (<[Z.to_nat p := x]> l) q = if decide (q = p) then Some x else get l q.
Proof.
  intros Hp. destruct (decide (q = p)) as [-> |Hne]; [by rewrite get_insert, Z.eqb_refl by lia|].
  destruct (Z.leb_spec 0 q); [|unfold get; by rewrite !(proj2 (Z.leb_gt 0 q))].
  rewrite get_insert by lia. by rewrite (proj2 (Z.eqb_neq _ _)).
Qed.

(** Tables of the same size, the second with an EMPTY only in groups where the
    first has one: the entries of the first stay on their chains. *)
Lemma chain_kept t t' es k p h a :
  table_inv t es -> shape t k -> shape t' k -> capacity t' = capacity t ->
  (forall g, has_empty t' g -> has_empty t g) -> es !! p = Some (h, a) ->
  exists j, 0 <= j < 2 ^ k /\ p / GROUP = tri k (home t' h) j /\
    forall i, 0 <= i < j -> ~ has_empty t' (tri k (home t' h) i).
Proof.
  intros Ht Hs Hs' Hc He E. assert (Hh : home t' h = home t h) by (unfold home, group_mask; by rewrite Hc).
  rewrite Hh. destruct (ti_chain _ _ Ht k p h a Hs E) as (j & Hj & Hp & Hn). exists j.
  split; [done|split; [done|]]. intros i Hi H. by apply (Hn i Hi), He.
Qed.

Lemma shape_unique t k k' : shape t k -> shape t k' -> k = k'.
Proof.
  intros H H'. pose proof (sh_cap _ _ H) as E. rewrite (sh_cap _ _ H') in E. unfold GROUP in E.
  pose proof (sh_k _ _ H). pose proof (sh_k _ _ H'). apply (Z.pow_inj_r 2); lia.
Qed.

Lemma high_special t es k p b : table_inv t es -> shape t k -> get (ctrl t) p = Some b ->
  negb (Z.land b 0x80 =? 0) = true <-> es !! p = None.
Proof.
  intros Ht Hs Hb. pose proof (get_lt _ _ _ Hb) as Hr. rewrite (sh_ctrl _ _ Hs) in Hr.
  destruct (es !! p) as [[h a]|] eqn:E.
  - split; [|done]. destruct (ti_entry _ _ Ht p h a E) as (Hc & _). rewrite Hc in Hb. injection Hb as <-.
    pose proof (all_bytes (fun b => implb (b <? 128) (Z.land b 0x80 =? 0)) (h2 h) eq_refl) as Hall.
    cbn beta in Hall. pose proof (h2_range h). rewrite (proj2 (Z.ltb_lt (h2 h) 128)) in Hall by lia. cbn [implb] in Hall.
    rewrite Hall by lia. done.
  - split; [done|]. intros _. destruct (ti_special _ _ Ht p Hr E) as [Hc|Hc]; rewrite Hb in Hc; by injection Hc as ->.
Qed.

Lemma fill_inv t es k p hash addr i :
  table_inv t es -> shape t k -> addr_ok addr -> 0 <= p < capacity t -> es !! p = None ->
  0 <= i < 2 ^ k -> p / GROUP = tri k (home t hash) i ->
  (forall i', 0 <= i' < i -> ~ has_empty t (tri k (home t hash) i')) ->
  exists t', fill t p hash addr = Ok t' /\ table_inv t' (<[p := (hash, addr)]> es) /\
    capacity t' = capacity t /\ rebuilds t' = rebuilds t /\
    live t' + tombstones t' <= live t + tombstones t + 1.
Proof.
  intros Ht Hs Ha Hp He Hi Hg Hn. pose proof Hs as [Hk Hcap Hlc Hls Hle].
  destruct (get_in (ctrl t) p) as [old Ho]; [lia|].
  destruct (ext_set_ok (ext t) (capacity t) p hash Hle Hp) as (ext' & Ee & Hle' & Hhold & Hkeep).
  unfold fill. rewrite Ho. ok_step. rewrite set_at_Ok by lia. ok_step. rewrite set_at_Ok by lia. ok_step.
  rewrite Ee. ok_step. eexists. split; [reflexivity|].
  set (t' := {| ctrl := _ |}).
  assert (Hs' : shape t' k) by (constructor; cbn; rewrite ?len_insert; done).
  assert (Hem : forall g, has_empty t' g -> has_empty t g).
  { intros g (q & Hq & Hgq). exists q. split; [done|]. cbn [t' ctrl] in Hgq.
    rewrite get_ctrl_set in Hgq by lia. destruct (decide (q = p)); [|done].
    injection Hgq as E. pose proof (h2_range hash). unfold CTRL_EMPTY in E. lia. }
  assert (Htb : 0 <= Z.b2z (old =? CTRL_TOMB) <= 1) by (destruct (old =? CTRL_TOMB); cbn; lia).
  assert (Htv : tombstones t' = tombstones t - Z.b2z (old =? CTRL_TOMB)) by (cbn; destruct (old =? CTRL_TOMB); cbn; lia).
  split; [|split_and!; [done|done|rewrite Htv; cbn; lia]]. constructor.
  - by exists k.
  - intros q h a E. cbn [t' ctrl slots ext]. rewrite !get_ctrl_set by lia.
    destruct (decide (q = p)) as [-> |Hne].
    + rewrite lookup_insert_eq in E. injection E as <- <-. done.
    + rewrite lookup_insert_ne in E by done. destruct (ti_entry _ _ Ht q h a E) as (? & ? & ? & ?).
      split_and!; try done. by apply Hkeep.
  - intros q Hq E. cbn [t' ctrl capacity] in *. rewrite get_ctrl_set by lia.
    destruct (decide (q = p)) as [-> |Hne]; [by rewrite lookup_insert_eq in E|].
    rewrite lookup_insert_ne in E by done. by apply (ti_special _ _ Ht).
  - cbn [t' live]. rewrite (ti_live _ _ Ht), map_size_insert_None by done. lia.
  - rewrite Htv, (ti_tombs _ _ Ht). cbn [t' ctrl].
    rewrite (cnt_insert _ _ _ old) by (by apply get_lookup).
    pose proof (h2_range hash). rewrite (proj2 (Z.eqb_neq (h2 hash) CTRL_TOMB)) by (unfold CTRL_TOMB; lia). cbn. lia.
  - intros k' q h a Hs'' E. rewrite (shape_unique _ _ _ Hs'' Hs'). destruct (decide (q = p)) as [-> |Hne].
    + rewrite lookup_insert_eq in E. injection E as <- <-. exists i. split; [done|]. split; [done|].
      intros i' Hi' H. by apply (Hn i' Hi'), Hem.
    + rewrite lookup_insert_ne in E by done. by apply (chain_kept t t' es k q h a).
Qed.

Lemma trailing_zeros_mask bs i : 0 <= i -> mask_of bs <> 0 ->
  exists x, trailing_zeros (2 ^ i * mask_of bs) = x /\ x ∈ trues i bs.
Proof.
  revert i. induction bs as [|b bs IH]; intros i Hi Hm; [done|]. cbn [mask_of trues] in *.
  pose proof (mask_of_nonneg bs). destruct b; cbn [Z.b2z] in *.
  - exists i. rewrite trailing_zeros_shift by lia. split; [done|left].
  - destruct (IH (i + 1)) as (x & Hx & Hin); [lia|lia|]. exists x. split; [|done]. rewrite <- Hx.
    f_equal. rewrite Z.pow_add_r by lia. lia.
Qed.

Lemma insert_loop_spec t es k hash addr n : table_inv t es -> shape t k -> forall j,
  let h := home t hash in
  0 <= j -> j + Z.of_nat n = 2 ^ k ->
  (forall i, 0 <= i < j -> ~ has_empty t (tri k h i)) ->
  (exists i p, j <= i < 2 ^ k /\ p / GROUP = tri k h i /\ 0 <= p < capacity t /\ es !! p = None) ->
  exists p i, insert_loop n t (tri k h j) j hash addr = fill t p hash addr /\
    0 <= p < capacity t /\ es !! p = None /\ 0 <= i < 2 ^ k /\ p / GROUP = tri k h i /\
    forall i', 0 <= i' < i -> ~ has_empty t (tri k h i').
Proof.
  intros Ht Hs. pose proof (sh_k _ _ Hs) as Hk. induction n as [|n IH]; intros j h Hj Hn Hno Hex.
  { destruct Hex as (i & _ & ? & _). lia. }
  cbn [insert_loop]. pose proof (tri_range k h j Hk) as Hr.
  destruct (ctrl_group_Ok t k _ Hs Hr) as [-> Hlen]. ok_step. unfold scalar_high_bit_mask16.
  set (f := fun b => negb (Z.land b 128 =? 0)).
  destruct (negb (fold_mask f (group_bytes t (tri k h j)) =? 0)) eqn:Em.
  - rewrite fold_mask_spec in *. apply negb_true_iff, Z.eqb_neq in Em.
    destruct (trailing_zeros_mask _ 0 ltac:(lia) Em) as (x & Hx & Hin). rewrite Z.pow_0_r, Z.mul_1_l in Hx.
    rewrite Hx. apply (elem_of_slots t k) in Hin as (Hxr & b & Hb & Hf); [|done|done].
    exists (tri k h j * GROUP + x), j. destruct (pos_split (tri k h j) x Hxr) as [Hd _].
    pose proof (get_lt _ _ _ Hb) as Hlt. rewrite (sh_ctrl _ _ Hs) in Hlt.
    split; [done|]. split; [lia|]. split; [by apply (high_special t es k _ b)|]. split; [lia|].
    split; [done|]. intros i' Hi'. apply Hno. lia.
  - assert (Hns : forall p, p / GROUP = tri k h j -> 0 <= p < capacity t -> es !! p <> None).
    { intros p Hp Hpr E. destruct (get_in (ctrl t) p) as [b Hb]; [by rewrite (sh_ctrl _ _ Hs)|].
      enough (negb (fold_mask f (group_bytes t (tri k h j)) =? 0) = true) by congruence.
      apply (mask_nonzero t k); [done|done|]. exists p, b. split_and!; try done. by apply (high_special t es k p). }
    destruct Hex as (i & p & Hi & Hp & Hpr & E).
    assert (Hij : i <> j) by (intros ->; by apply (Hns p)).
    rewrite (group_mask_val _ _ Hs), (proj2 (Z.leb_le _ _)) by lia. cbn [rassert]. ok_step.
    rewrite tri_succ by done. apply IH; [lia|lia| |by exists i, p; split_and!; lia || done].
    intros i' Hi' He. destruct (Z.eq_dec i' j) as [-> |]; [|by apply (Hno i'); [lia|]].
    destruct He as (q & Hq & Hgq). pose proof (get_lt _ _ _ Hgq) as Hlt. rewrite (sh_ctrl _ _ Hs) in Hlt.
    apply (Hns q Hq Hlt). by apply (high_special t es k q CTRL_EMPTY).
Qed.

Lemma dom_range t es k : table_inv t es -> shape t k -> dom es ⊆ list_to_set (C := gset Z) (seqZ 0 (capacity t)).
Proof.
  intros Ht Hs p [[h a] E]%elem_of_dom. apply elem_of_list_to_set, elem_of_seqZ.
  pose proof (entry_range t es k p h a Ht Hs E). lia.
Qed.

Lemma size_seqZ n : 0 <= n -> Z.of_nat (size (list_to_set (C := gset Z) (seqZ 0 n))) = n.
Proof. intros. rewrite size_list_to_set by apply NoDup_seqZ. rewrite length_seqZ. lia. Qed.

Lemma size_bound t es k : table_inv t es -> shape t k -> Z.of_nat (size es) <= capacity t.
Proof.
  intros Ht Hs. pose proof (subseteq_size _ _ (dom_range t es k Ht Hs)) as H. rewrite size_dom in H.
  pose proof (size_seqZ (capacity t)). pose proof (sh_cap _ _ Hs). unfold GROUP in *. 
  pose proof (sh_k _ _ Hs). lia.
Qed.

Lemma free_slot t es k : table_inv t es -> shape t k -> Z.of_nat (size es) < capacity t ->
  exists p, 0 <= p < capacity t /\ es !! p = None.
Proof.
  intros Ht Hs Hlt.
  destruct (decide (Exists (fun p => es !! p = None) (seqZ 0 (capacity t)))) as [H|H].
  - apply list.Exists_exists in H as (p & Hp%elem_of_seqZ & E). exists p. split; [lia|done].
  - exfalso. assert (Hsub : list_to_set (C := gset Z) (seqZ 0 (capacity t)) ⊆ dom es).
    { intros p Hp%elem_of_list_to_set. apply elem_of_dom. destruct (es !! p) eqn:E; [done|].
      exfalso. apply H, list.Exists_exists. by exists p. }
    apply subseteq_size in Hsub. rewrite size_dom in Hsub.
    pose proof (size_seqZ (capacity t)). pose proof (sh_cap _ _ Hs). unfold GROUP in *.
    pose proof (sh_k _ _ Hs). lia.
Qed.

Lemma insert_spec t es hash addr : table_inv t es -> Z.of_nat (size es) < capacity t -> addr_ok addr ->
  exists t' p, insert t hash addr = Ok t' /\ es !! p = None /\ table_inv t' (<[p := (hash, addr)]> es) /\
    capacity t' = capacity t /\ rebuilds t' = rebuilds t /\
    live t' + tombstones t' <= live t + tombstones t + 1.
Proof.
  intros Ht Hlt Ha. destruct (ti_shape _ _ Ht) as [k Hs]. pose proof (sh_k _ _ Hs) as Hk.
  destruct (free_slot t es k Ht Hs Hlt) as (p0 & Hp0 & E0).
  assert (Hg : 0 <= p0 / GROUP < 2 ^ k).
  { rewrite (sh_cap _ _ Hs) in Hp0. unfold GROUP in *.
    split; [apply Z.div_pos; lia|apply Z.div_lt_upper_bound; lia]. }
  destruct (tri_surj k (home t hash) _ Hk Hg) as (j0 & Hj0 & Et).
  assert (Hl : insert t hash addr = insert_loop (Z.to_nat (2 ^ k)) t (tri k (home t hash) 0) 0 hash addr)
    by (unfold insert; rewrite (group_count_val _ _ Hs), tri_0 by (by apply home_range); done).
  rewrite Hl.
  destruct (insert_loop_spec t es k hash addr (Z.to_nat (2 ^ k)) Ht Hs 0) as
    (p & i & -> & Hp & E & Hi & Hpi & Hn); [lia|lia|intros; lia|by exists j0, p0|].
  destruct (fill_inv t es k p hash addr i Ht Hs Ha Hp E Hi Hpi Hn) as (t' & Ef & Ht' & Hc & Hr & Hb).
  exists t', p. by split_and!.
Qed.

Lemma remove_at_inv t es p h a : table_inv t es -> es !! p = Some (h, a) ->
  exists t', remove_at t p = Ok t' /\ table_inv t' (delete p es) /\
    capacity t' = capacity t /\ rebuilds t' = rebuilds t /\
    live t' + tombstones t' <= live t + tombstones t.
Proof.
  intros Ht E. destruct (ti_shape _ _ Ht) as [k Hs]. pose proof Hs as [Hk Hcap Hlc Hls Hle].
  pose proof (entry_range t es k p h a Ht Hs E) as Hp. destruct (ti_entry _ _ Ht p h a E) as (Hc & _).
  assert (Hg : 0 <= p / GROUP < 2 ^ k).
  { rewrite Hcap in Hp. unfold GROUP in *. split; [apply Z.div_pos; lia|apply Z.div_lt_upper_bound; lia]. }
  unfold remove_at. destruct (ctrl_group_Ok t k _ Hs Hg) as [-> _]. ok_step.
  destruct (has_empty_mask t k _ Hs Hg) as [Hhe _].
  set (b := negb (scalar_eq_mask16 (group_bytes t (p / GROUP)) CTRL_EMPTY =? 0)) in *.
  rewrite !set_at_Ok by lia. ok_step. eexists. split; [reflexivity|].
  set (t' := {| ctrl := _ |}).
  assert (Hs' : shape t' k) by (constructor; cbn; rewrite ?len_insert; done).
  assert (Hem : forall g, has_empty t' g -> has_empty t g).
  { intros g (q & Hq & Hgq). cbn [t' ctrl] in Hgq. rewrite get_ctrl_set in Hgq by lia.
    destruct (decide (q = p)) as [-> |]; [|by exists q]. subst g. destruct b; [by apply Hhe|done]. }
  assert (Htv : tombstones t' = tombstones t + Z.b2z (negb b)) by (cbn; destruct b; cbn; lia).
  split; [|split_and!; [done|done|rewrite Htv; cbn; destruct b; cbn; lia]]. constructor.
  - by exists k.
  - intros q h' a' [Hne E']%lookup_delete_Some. cbn [t' ctrl slots ext]. rewrite !get_ctrl_set, !decide_False by (lia || done).
    by apply (ti_entry _ _ Ht).
  - intros q Hq E'. cbn [t' ctrl capacity] in *. rewrite get_ctrl_set by lia.
    destruct (decide (q = p)) as [-> |Hne]; [destruct b; [by left|by right]|].
    rewrite lookup_delete_ne in E' by done. by apply (ti_special _ _ Ht).
  - cbn [t' live]. rewrite (ti_live _ _ Ht), map_size_delete_Some by (by eexists).
    assert (size es <> 0%nat) by (intros H0%map_size_empty_inv; by rewrite H0, lookup_empty in E). lia.
  - rewrite Htv, (ti_tombs _ _ Ht). cbn [t' ctrl]. rewrite (cnt_insert _ _ _ (h2 h)) by (by apply get_lookup).
    pose proof (h2_range h). rewrite (proj2 (Z.eqb_neq (h2 h) CTRL_TOMB)) by (unfold CTRL_TOMB; lia).
    destruct b; cbn; lia.
  - intros k' q h' a' Hs'' [Hne E']%lookup_delete_Some. rewrite (shape_unique _ _ _ Hs'' Hs').
    by apply (chain_kept t t' es k q h' a').
Qed.

(** In a mode without full hashes, the entries with this address have this hash. *)
Definition exact (es : gmap Z (Z * Addr)) (hash : Z) (addr : Addr) : Prop :=
  sidecar = true \/ forall p h, es !! p = Some (h, addr) -> h = hash.

Lemma position_of_exact t es hash addr : table_inv t es -> exact es hash addr ->
  exists r, position_of t hash addr = Ok r /\
    match r with
    | Some p => es !! p = Some (hash, addr)
    | None => forall p, es !! p <> Some (hash, addr)
    end.
Proof.
  intros Ht Hx. destruct (position_of_spec t es hash addr Ht) as (r & E & Hr). exists r. split; [done|].
  destruct r as [p|]; [|done]. destruct Hr as (h & Ee & _ & Hsc).
  destruct Hx as [Hsd|Hu]; [by rewrite <- (Hsc Hsd)|]. by rewrite <- (Hu p h Ee).
Qed.

Lemma replace_spec t es hash old new : table_inv t es -> exact es hash old -> addr_ok new ->
  (exists p, es !! p = Some (hash, old)) ->
  exists t' p, replace t hash old new = Ok t' /\ es !! p = Some (hash, old) /\
    table_inv t' (<[p := (hash, new)]> es) /\ capacity t' = capacity t /\ rebuilds t' = rebuilds t /\
    live t' = live t /\ tombstones t' = tombstones t.
Proof.
  intros Ht Hx Ha [p0 E0]. destruct (position_of_exact t es hash old Ht Hx) as ([p|] & Ep & Hr);
    [|by destruct (Hr p0)].
  destruct (ti_shape _ _ Ht) as [k Hs]. pose proof Hs as [Hk Hcap Hlc Hls Hle].
  pose proof (entry_range t es k p _ _ Ht Hs Hr) as Hp.
  unfold replace. rewrite Ep. ok_step. rewrite set_at_Ok by lia. ok_step.
  eexists _, p. split; [reflexivity|]. set (t' := {| ctrl := _ |}). split; [done|].
  assert (Hs' : shape t' k) by (constructor; cbn; rewrite ?len_insert; done).
  split; [|done]. constructor.
  - by exists k.
  - intros q h a E. cbn [t' ctrl slots ext]. rewrite get_ctrl_set by lia.
    destruct (decide (q = p)) as [-> |Hne].
    + rewrite lookup_insert_eq in E. injection E as <- <-.
      destruct (ti_entry _ _ Ht p hash old Hr) as (? & _ & ? & _). done.
    + rewrite lookup_insert_ne in E by done. by apply (ti_entry _ _ Ht).
  - intros q Hq E. assert (Hne : q <> p) by (intros ->; by rewrite lookup_insert_eq in E).
    rewrite lookup_insert_ne in E by done. by apply (ti_special _ _ Ht).
  - cbn [t' live]. rewrite (ti_live _ _ Ht), map_size_insert_Some by (by eexists). done.
  - apply (ti_tombs _ _ Ht).
  - intros k' q h a Hs'' E. rewrite (shape_unique _ _ _ Hs'' Hs').
    assert (exists a', es !! q = Some (h, a')) as [a' E'].
    { destruct (decide (q = p)) as [-> |Hne]; [|rewrite lookup_insert_ne in E by done; by eexists].
      rewrite lookup_insert_eq in E. injection E as <- <-. by eexists. }
    by apply (chain_kept t t' es k q h a').
Qed.

(** ** New tables *)

Lemma get_replicate {A} n (x : A) i : 0 <= i < Z.of_nat n -> get (replicate n x) i = Some x.
Proof. intros. apply get_Some. split; [lia|]. apply lookup_replicate_2. lia. Qed.

Lemma cnt_replicate {A} (f : A -> bool) n x : cnt f (replicate n x) = if f x then Z.of_nat n else 0.
Proof. induction n as [|n IH]; [by destruct (f x)|]. cbn [replicate cnt]. rewrite IH. destruct (f x); cbn; lia. Qed.

Lemma empty_table_inv k r : 0 <= k -> table_inv (empty_table (GROUP * 2 ^ k) r) ∅.
Proof.
  intros Hk. assert (0 <= GROUP * 2 ^ k) by (unfold GROUP; lia).
  assert (Hs : shape (empty_table (GROUP * 2 ^ k) r) k).
  { constructor; cbn; rewrite ?len_replicate; try lia. by apply ext_new_ok. }
  constructor.
  - by exists k.
  - intros p h a E. by rewrite lookup_empty in E.
  - intros p Hp _. left. cbn in *. apply get_replicate. lia.
  - by rewrite map_size_empty.
  - cbn. by rewrite cnt_replicate.
  - intros k' p h a _ E. by rewrite lookup_empty in E.
Qed.

Lemma next_power_spec n : 1 <= n -> exists j, 0 <= j /\ next_power_of_two n = 2 ^ j /\ n <= 2 ^ j.
Proof.
  intros Hn. unfold next_power_of_two. destruct (Z.leb_spec n 1); [exists 0; split_and!; lia|].
  exists (Z.log2_up n). pose proof (Z.log2_up_nonneg n). split_and!; [done|done|].
  by apply Z.log2_log2_up_spec; lia.
Qed.

Lemma with_capacity_spec at_least : 0 <= at_least < 2 ^ 56 ->
  table_inv (with_capacity at_least) ∅ /\
  at_least * LOAD_DEN <= capacity (with_capacity at_least) * LOAD_NUM.
Proof.
  intros Hn. unfold with_capacity. rewrite wrap_id by (unfold in_u, LOAD_DEN; lia).
  set (m := Z.max at_least 1 * LOAD_DEN). set (sl := div_ceil m LOAD_NUM).
  assert (Hsl : m <= sl * LOAD_NUM /\ 1 <= sl).
  { unfold sl, div_ceil, m, LOAD_NUM, LOAD_DEN.
    pose proof (Z.div_mod (Z.max at_least 1 * 100 + 85 - 1) 85 ltac:(lia)).
    pose proof (Z.mod_pos_bound (Z.max at_least 1 * 100 + 85 - 1) 85 ltac:(lia)). lia. }
  destruct (next_power_spec sl) as (j & Hj & -> & Hle); [lia|].
  assert (Hcap : exists k, 0 <= k /\ Z.max (2 ^ j) GROUP = GROUP * 2 ^ k).
  { unfold GROUP. destruct (Z.le_gt_cases 4 j).
    - exists (j - 4). split; [lia|]. change 16 with (2 ^ 4) at 2. rewrite <- Z.pow_add_r by lia.
      replace (4 + (j - 4)) with j by lia. apply Z.max_l. apply (Z.pow_le_mono_r 2 4); lia.
    - exists 0. split; [lia|]. rewrite Z.max_r; [done|]. apply (Z.pow_le_mono_r 2 j 4); lia. }
  destruct Hcap as (k & Hk & Hmax). rewrite Hmax. split; [by apply empty_table_inv|].
  cbn [empty_table capacity]. rewrite <- Hmax. unfold m, LOAD_DEN, LOAD_NUM in *. lia.
Qed.

(** ** Growth *)

(** The pairs a table holds, in some order. *)
Definition pairs (es : gmap Z (Z * Addr)) : list (Z * Addr) := (map_to_list es).*2.

Lemma pairs_insert es p e : es !! p = None -> pairs (<[p := e]> es) ≡ₚ e :: pairs es.
Proof. intros. unfold pairs. by rewrite map_to_list_insert. Qed.

Lemma pairs_delete es p e : es !! p = Some e -> pairs es ≡ₚ e :: pairs (delete p es).
Proof. intros. unfold pairs. by rewrite <- (map_to_list_delete es p e). Qed.

Lemma elem_of_pairs es h a : (h, a) ∈ pairs es <-> exists p, es !! p = Some (h, a).
Proof.
  unfold pairs. rewrite list_elem_of_fmap. split.
  - intros ([p e] & -> & Hin%elem_of_map_to_list). by exists p.
  - intros [p E]. exists (p, (h, a)). split; [done|]. by apply elem_of_map_to_list.
Qed.

Lemma length_pairs es : length (pairs es) = size es.
Proof. unfold pairs. by rewrite length_fmap, length_map_to_list. Qed.

Definition below (n : Z) (es : gmap Z (Z * Addr)) : gmap Z (Z * Addr) := filter (fun x => x.1 < n) es.

Lemma below_succ_None n es : es !! n = None -> below (n + 1) es = below n es.
Proof.
  intros E. apply map_filter_ext. intros p e Hp. cbn.
  assert (p <> n) by (intros ->; congruence). lia.
Qed.

Lemma below_succ_Some n es e : es !! n = Some e -> pairs (below (n + 1) es) ≡ₚ e :: pairs (below n es).
Proof.
  intros E. rewrite <- (pairs_insert (below n es) n e) by (apply map_lookup_filter_None; right; intros x _ Hx; cbn in Hx; lia).
  unfold below. rewrite <- (insert_id es n e E) at 1. rewrite map_filter_insert_True by (cbn; lia).
  replace (filter (fun x => x.1 < n + 1) es) with (<[n := e]> (filter (fun x : Z * (Z * Addr) => x.1 < n) es)); [by rewrite insert_insert_eq|].
  apply map_eq. intros p. apply option_eq. intros e'. rewrite lookup_insert_Some, !map_lookup_filter_Some. cbn.
  split.
  - intros [[<- <-]|(Hne & ? & ?)]; [split; [done|lia]|split; [done|lia]].
  - intros [Hp ?]. destruct (decide (n = p)) as [<- |]; [left; split; [done|congruence]|right; split_and!; try done; lia].
Qed.

Lemma slot_addr_spec t es k p : table_inv t es -> shape t k -> 0 <= p < capacity t ->
  slot_addr t p = Ok (snd <$> es !! p).
Proof.
  intros Ht Hs Hp. destruct (get_in (ctrl t) p) as [b Hb]; [by rewrite (sh_ctrl _ _ Hs)|].
  unfold slot_addr. rewrite Hb. ok_step. pose proof (high_special t es k p b Ht Hs Hb) as Hh.
  destruct (es !! p) as [[h a]|] eqn:E.
  - destruct (Z.land b 128 =? 0) eqn:El; [|by destruct Hh as [Hh _]; specialize (Hh eq_refl)].
    destruct (slot_entry t es p h a Ht E) as (slot & -> & _ & _ & Ha). ok_step. rewrite Ha. done.
  - destruct (Z.land b 128 =? 0); [by destruct Hh as [_ Hh]; specialize (Hh eq_refl)|done].
Qed.

(** [hash_of] gives every entry its hash back. *)
Definition rehashes (t : Index) (es : gmap Z (Z * Addr)) (hash_of : Addr -> Z -> Z) : Prop :=
  forall p h a x, es !! p = Some (h, a) -> ext_hash (ext t) p = Ok x -> hash_of a x = h.

Lemma grow_loop_spec t es k hash_of : table_inv t es -> shape t k -> rehashes t es hash_of ->
  forall n pos next es', 0 <= pos -> pos + Z.of_nat n = capacity t ->
  table_inv next es' -> pairs es' ≡ₚ pairs (below pos es) -> Z.of_nat (size es) <= capacity next ->
  exists t' es'', grow_loop n t hash_of pos next = Ok t' /\ table_inv t' es'' /\
    pairs es'' ≡ₚ pairs (below (capacity t) es) /\ capacity t' = capacity next /\ rebuilds t' = rebuilds next /\
    live t' + tombstones t' <= live next + tombstones next + Z.of_nat (size es'') - Z.of_nat (size es').
Proof.
  intros Ht Hs Hh. induction n as [|n IH]; intros pos next es' Hpos Hn Hnx Hp Hsz; cbn [grow_loop].
  - exists next, es'. replace (capacity t) with pos by lia. split_and!; try done. lia.
  - rewrite (slot_addr_spec t es k pos Ht Hs) by lia. ok_step.
    destruct (es !! pos) as [[h a]|] eqn:E; cbn [fmap option_fmap option_map snd].
    + destruct (ti_entry _ _ Ht pos h a E) as (_ & _ & Hx & Ha).
      destruct (ext_hash_ok (ext t) (capacity t) pos h) as (x & Ex & _); [apply Hs|lia|done|].
      rewrite Ex. ok_step. rewrite (Hh pos h a x E Ex).
      assert (Hlt : Z.of_nat (size es') < capacity next).
      { rewrite <- length_pairs, (Permutation_length Hp), length_pairs.
        assert (size (below pos es) < size es)%nat; [|lia].
        apply map_subset_size. split; [apply map_filter_subseteq|]. intros Hsub.
        pose proof (lookup_weaken _ _ _ _ E Hsub) as [_ Hb]%map_lookup_filter_Some. cbn in Hb. lia. }
      destruct (insert_spec next es' h a Hnx Hlt Ha) as (next' & q & Ei & Eq & Hi & Hc & Hr & Hb).
      rewrite Ei. ok_step.
      destruct (IH (pos + 1) next' (<[q := (h, a)]> es')) as (t' & es'' & -> & Ht' & Hp' & Hc' & Hr' & Hb');
        [lia|lia|done|by rewrite pairs_insert, (below_succ_Some _ _ _ E), Hp by done|lia|].
      exists t', es''. rewrite map_size_insert_None in Hb' by done. split_and!; try done; [congruence|congruence|lia].
    + ok_step. destruct (IH (pos + 1) next es') as (t' & es'' & -> & ?); try done; [lia|lia|by rewrite below_succ_None|].
      by exists t', es''.
Qed.

(** Growth keeps the pairs, sweeps the tombstones and makes room. *)
Lemma grow_spec t es hash_of : table_inv t es -> rehashes t es hash_of ->
  (live t + tombstones t) * LOAD_DEN <= capacity t * LOAD_NUM ->
  exists t' es', grow t hash_of = Ok t' /\ table_inv t' es' /\ pairs es' ≡ₚ pairs es /\
    needs_grow t' = false /\ tombstones t' = 0 /\ rebuilds t' = rebuilds t + 1 /\
    capacity t' = (if live t <=? tombstones t then capacity t else capacity t * 2).
Proof.
  intros Ht Hh Hload. destruct (ti_shape _ _ Ht) as [k Hs]. pose proof (sh_k _ _ Hs) as Hk.
  pose proof (size_bound t es k Ht Hs) as Hsz. pose proof (sh_cap _ _ Hs) as Hcap.
  set (c := if live t <=? tombstones t then capacity t else capacity t * 2).
  assert (Hc : exists k', 0 <= k' /\ c = GROUP * 2 ^ k').
  { unfold c. destruct (live t <=? tombstones t); [by exists k|]. exists (k + 1). split; [lia|].
    rewrite Hcap, Z.pow_add_r by lia. lia. }
  destruct Hc as (k' & Hk' & Hc). assert (0 < 2 ^ k) by lia.
  assert (Hge : capacity t <= c) by (unfold c, GROUP in *; destruct (live t <=? tombstones t); lia).
  assert (Hb0 : pairs (below 0 es) = []).
  { assert (E : below 0 es = ∅); [|by rewrite E]. apply map_empty. intros p. apply map_lookup_filter_None. right.
    intros [h a] E Hlt. cbn in Hlt. pose proof (entry_range t es k p h a Ht Hs E). lia. }
  destruct (grow_loop_spec t es k hash_of Ht Hs Hh (Z.to_nat (capacity t)) 0 (empty_table c (rebuilds t + 1)) ∅)
    as (t' & es' & E & Ht' & Hp & Hc' & Hr & Hb); [lia|unfold GROUP in *; lia|rewrite Hc; by apply empty_table_inv| |cbn; lia|].
  { rewrite Hb0. unfold pairs. by rewrite map_to_list_empty. }
  exists t', es'. split; [done|]. split; [done|].
  assert (Hall : below (capacity t) es = es).
  { apply map_filter_id. intros p [h a] Ee. cbn. pose proof (entry_range t es k p h a Ht Hs Ee). lia. }
  rewrite Hall in Hp. split; [done|]. cbn [empty_table live tombstones rebuilds capacity] in *.
  assert (Hsize : size es' = size es) by (by rewrite <- !length_pairs, Hp).
  rewrite (ti_live _ _ Ht'), map_size_empty in Hb.
  assert (Htomb : tombstones t' = 0).
  { pose proof (ti_tombs _ _ Ht') as Ec. pose proof (cnt_nonneg (fun x => x =? CTRL_TOMB) (ctrl t')). lia. }
  split_and!; try done. unfold needs_grow. apply Z.ltb_ge. rewrite Hc', Htomb, (ti_live _ _ Ht'), Hsize.
  rewrite <- (ti_live _ _ Ht). unfold c, LOAD_DEN, LOAD_NUM, GROUP in *.
  pose proof (ti_tombs _ _ Ht). pose proof (cnt_nonneg (fun x => x =? CTRL_TOMB) (ctrl t)).
  destruct (Z.leb_spec (live t) (tombstones t)); lia.
Qed.

(** ** Chain walks and the entries of a home group *)

Definition live_byte (b : Z) : bool := Z.land b 0x80 =? 0.

Lemma live_on_chain t es k h g i : table_inv t es -> shape t k ->
  (g, i) ∈ on_chain t k h live_byte -> exists e, es !! (g * GROUP + i) = Some e.
Proof.
  intros Ht Hs (_ & _ & b & Hb & Hf)%elem_of_on_chain; [|done].
  destruct (es !! (g * GROUP + i)) as [e|] eqn:E; [by exists e|].
  apply (high_special t es k _ b Ht Hs Hb) in E. unfold live_byte in Hf. by rewrite Hf in E.
Qed.

Lemma live_h2 h : live_byte (h2 h) = true.
Proof.
  pose proof (all_bytes (fun b => implb (b <? 128) (live_byte b)) (h2 h) eq_refl) as Hall. cbn beta in Hall.
  pose proof (h2_range h). rewrite (proj2 (Z.ltb_lt (h2 h) 128)) in Hall by lia. apply Hall. lia.
Qed.

(** The entries whose home is [target], by slot. *)
Definition homed (t : Index) (target : Z) (es : gmap Z (Z * Addr)) : gmap Z (Z * Addr) :=
  filter (fun x => home t x.2.1 = target) es.
Definition hit (t : Index) (target : Z) (es : gmap Z (Z * Addr)) (gi : Z * Z) : list (Z * (Z * Addr)) :=
  match es !! (gi.1 * GROUP + gi.2) with
  | Some e => if home t e.1 =? target then [(gi.1 * GROUP + gi.2, e)] else []
  | None => []
  end.

Lemma elem_of_hit t target es gi p e :
  (p, e) ∈ hit t target es gi <-> p = gi.1 * GROUP + gi.2 /\ es !! p = Some e /\ home t e.1 = target.
Proof.
  unfold hit. destruct (es !! (gi.1 * GROUP + gi.2)) as [e'|] eqn:E.
  - destruct (Z.eqb_spec (home t e'.1) target) as [Hh|Hh].
    + rewrite list_elem_of_singleton. split; [intros [= -> ->]; done|intros (-> & E' & _); congruence].
    + split; [by intros ?%not_elem_of_nil|]. intros (-> & E' & Hh'). congruence.
  - split; [by intros ?%not_elem_of_nil|]. intros (-> & E' & _). congruence.
Qed.

(** Walking a home's chain meets each of its entries exactly once. *)
Lemma chain_hits t es k target : table_inv t es -> shape t k ->
  (on_chain t k target live_byte ≫= hit t target es) ≡ₚ map_to_list (homed t target es).
Proof.
  intros Ht Hs. apply NoDup_Permutation.
  - apply NoDup_bind.
    + intros [g1 i1] [g2 i2] [p e] (_ & Hi1 & _)%elem_of_on_chain (_ & Hi2 & _)%elem_of_on_chain
        (E1 & _)%elem_of_hit (E2 & _)%elem_of_hit; [|done|done]. cbn [fst snd] in *.
      destruct (pos_split g1 i1 Hi1), (pos_split g2 i2 Hi2). f_equal; congruence.
    + intros gi _. unfold hit. destruct (es !! _); [|constructor]. destruct (_ =? _); [apply NoDup_singleton|constructor].
    + by apply NoDup_on_chain.
  - apply NoDup_map_to_list.
  - intros [p [h a]]. unfold homed. rewrite list_elem_of_bind, elem_of_map_to_list, map_lookup_filter_Some. cbn [fst snd]. split.
    + intros (gi & Hh%elem_of_hit & _). by destruct Hh as (_ & ? & ?).
    + intros [E Hh]. exists (p / GROUP, p mod GROUP). destruct (pos_join p) as [Hj _]. split.
      * apply elem_of_hit. cbn [fst snd]. by rewrite <- Hj.
      * rewrite <- Hh. apply (entry_on_chain t es k p h a); try done. apply live_h2.
Qed.

Lemma live_slots_on_chain {S R} t k target (f : Z -> Z -> S -> panics (S + R)) s : shape t k -> 0 <= target < 2 ^ k ->
  probe_from t target (fun g c s => visit (live_slots c) (f g) s) s
  = visit (on_chain t k target live_byte) (fun gi => f gi.1 gi.2) s.
Proof. intros Hs Hr. rewrite (probe_chain t k) by done. unfold on_chain. by rewrite <- visit_concat. Qed.

Lemma scan_home_group_spec t es group hash_of : table_inv t es ->
  (forall p h a, es !! p = Some (h, a) -> hash_of a = h) ->
  exists out, scan_home_group t group hash_of = Ok out /\
    out ≡ₚ snd <$> pairs (homed t (home t group) es).
Proof.
  intros Ht Hh. destruct (ti_shape _ _ Ht) as [k Hs]. set (target := home t group).
  pose proof (home_range t k group Hs : 0 <= target < 2 ^ k) as Hr.
  unfold scan_home_group. fold target. rewrite (live_slots_on_chain t k) by done.
  rewrite (visit_collect _ _ (fun gi => (fun x => x.2.2) <$> hit t target es gi)).
  - ok_step. eexists. split; [reflexivity|]. cbn [app]. unfold pairs. rewrite <- list_fmap_compose.
    rewrite <- (chain_hits t es k target Ht Hs).
    induction (on_chain t k target live_byte) as [|gi l IH]; [done|]. cbn [mbind list_bind].
    rewrite fmap_app. apply Permutation_app; [done|apply IH].
  - intros [g i] out Hin. cbn [fst snd]. destruct (live_on_chain t es k target g i Ht Hs Hin) as [[h a] E].
    destruct (slot_entry t es _ h a Ht E) as (slot & Hg & _ & _ & Ha). unfold scan_slot. rewrite Hg. ok_step.
    rewrite Ha. ok_step. rewrite (Hh _ _ _ E). unfold hit. cbn [fst snd]. rewrite E. cbn [fst snd].
    destruct (home t h =? target); [done|]. cbn. by rewrite app_nil_r.
Qed.

Lemma scan_home_group_ext_spec t es group : table_inv t es -> sidecar = true ->
  exists out, scan_home_group_ext t group = Ok out /\
    out ≡ₚ (fun e => (e.2, e.1)) <$> pairs (homed t (home t group) es).
Proof.
  intros Ht Hsc. destruct (ti_shape _ _ Ht) as [k Hs]. set (target := home t group).
  pose proof (home_range t k group Hs : 0 <= target < 2 ^ k) as Hr.
  unfold scan_home_group_ext. fold target. rewrite (live_slots_on_chain t k) by done.
  rewrite (visit_collect _ _ (fun gi => (fun x => (x.2.2, x.2.1)) <$> hit t target es gi)).
  - ok_step. eexists. split; [reflexivity|]. cbn [app]. unfold pairs. rewrite <- list_fmap_compose.
    rewrite <- (chain_hits t es k target Ht Hs).
    induction (on_chain t k target live_byte) as [|gi l IH]; [done|]. cbn [mbind list_bind].
    rewrite fmap_app. apply Permutation_app; [done|apply IH].
  - intros [g i] out Hin. cbn [fst snd]. destruct (live_on_chain t es k target g i Ht Hs Hin) as [[h a] E].
    destruct (slot_entry t es _ h a Ht E) as (slot & Hg & _ & _ & Ha).
    destruct (ext_hash_ok (ext t) (capacity t) (g * GROUP + i) h) as (x & Hx & Hxh);
      [apply Hs|by apply (entry_range t es k _ h a)|apply (ti_entry _ _ Ht _ _ _ E)|].
    unfold scan_slot_ext. rewrite Hx. ok_step. rewrite (Hxh Hsc). unfold hit. cbn [fst snd]. rewrite E. cbn [fst snd].
    destruct (home t h =? target); [|cbn; by rewrite app_nil_r]. rewrite Hg. ok_step. rewrite Ha. done.
Qed.

End table.

End Index.
