(* ===== verification/IndexMap.v ===== *)
(** * The record index as a finite map ([crates/inf-store/src/index.rs])

    What the stores rely on: with the key of every record known, the table of
    [Index] is a finite map from keys to addresses. The lookups, insertions,
    moves, removals and rebuilds of the table implement those of the map. *)

From S2P Require Import Prelude Group16 Index.
From stdpp Require Import gmap sets.
Import Group16 Index.Index.
#[local] Open Scope Z_scope.

Module IndexMap.

Section map.
Context {M : SlotMode} {L : SlotModeLaws M}.
Context {K : Type} `{Countable K}.
(** The store's hash of a key, and the key of the record at an address. *)
Context (hash_key : K -> Z) (key_at : Addr -> K).
Notation Index := (Index M).

Definition entries (m : gmap K Addr) : list (Z * Addr) := (fun ka => (hash_key ka.1, ka.2)) <$> map_to_list m.
Definition loaded (t : Index) : Prop := (live t + tombstones t) * LOAD_DEN <= capacity t * LOAD_NUM.

(** The table holds exactly the map's addresses, each under its key's hash. *)
Definition represents (t : Index) (m : gmap K Addr) : Prop :=
  exists es, table_inv t es /\ loaded t /\ pairs es ≡ₚ entries m /\
    forall k a, m !! k = Some a -> key_at a = k.

Definition key_is (k : K) (a : Addr) : bool := bool_decide (key_at a = k).

(** The store's way to insert an absent key ([write_record_at], [insert_admitted]). *)
Definition put (t : Index) (hash_of : Addr -> Z -> Z) (hash : Z) (a : Addr) : panics Index :=
  t1 ← (if needs_grow t then grow t hash_of else mret t);
  insert t1 hash a.

(** Both stores' [hash_of]: the record's key, or the full hash kept beside it. *)
Definition hashes (hash_of : Addr -> Z -> Z) : Prop :=
  (forall a x, hash_of a x = hash_key (key_at a)) \/ (sidecar = true /\ forall a x, hash_of a x = x).

Lemma elem_of_entries m h a : (h, a) ∈ entries m <-> exists k, m !! k = Some a /\ h = hash_key k.
Proof.
  unfold entries. rewrite list_elem_of_fmap. split.
  - intros ([k a'] & [= -> ->] & Hin%elem_of_map_to_list). by exists k.
  - intros (k & E & ->). exists (k, a). split; [done|]. by apply elem_of_map_to_list.
Qed.

Lemma entries_insert m k a : m !! k = None -> entries (<[k := a]> m) ≡ₚ (hash_key k, a) :: entries m.
Proof. intros. unfold entries. by rewrite map_to_list_insert. Qed.

Lemma entries_delete m k a : m !! k = Some a -> entries m ≡ₚ (hash_key k, a) :: entries (delete k m).
Proof. intros E. unfold entries. by rewrite <- (map_to_list_delete m k a E). Qed.

Lemma slot_of_key es m k a : pairs es ≡ₚ entries m -> m !! k = Some a -> exists p, es !! p = Some (hash_key k, a).
Proof. intros Hp E. apply elem_of_pairs. rewrite Hp. apply elem_of_entries. by exists k. Qed.

Lemma key_of_slot es m p h a : pairs es ≡ₚ entries m -> es !! p = Some (h, a) ->
  exists k, m !! k = Some a /\ h = hash_key k.
Proof. intros Hp E. apply elem_of_entries. rewrite <- Hp. apply elem_of_pairs. by exists p. Qed.

Lemma exact_key t es m k a : table_inv t es -> pairs es ≡ₚ entries m ->
  (forall k a, m !! k = Some a -> key_at a = k) -> key_at a = k -> exact es (hash_key k) a.
Proof.
  intros _ Hp Hk Ha. right. intros p h E. destruct (key_of_slot es m p h a Hp E) as (k' & E' & ->).
  by rewrite <- (Hk k' a E'), Ha.
Qed.

Lemma rehashes_key t es m hash_of : table_inv t es -> pairs es ≡ₚ entries m ->
  (forall k a, m !! k = Some a -> key_at a = k) -> hashes hash_of -> rehashes t es hash_of.
Proof.
  intros Ht Hp Hk Hh p h a x E Ex. destruct (ti_shape _ _ Ht) as [k Hs].
  destruct Hh as [Hh|[Hsc Hh]]; rewrite Hh.
  - destruct (key_of_slot es m p h a Hp E) as (k' & E' & ->). by rewrite (Hk k' a E').
  - destruct (ext_hash_ok (ext t) (capacity t) p h) as (y & Ey & Hy);
      [apply Hs|by apply (entry_range t es k p h a)|apply (ti_entry _ _ Ht p h a E)|].
    rewrite Ex in Ey. injection Ey as ->. by apply Hy.
Qed.

Lemma find_lookup t m k : represents t m -> find t (hash_key k) (key_is k) = Ok (m !! k).
Proof.
  intros (es & Ht & _ & Hp & Hk). destruct (find_spec t es (hash_key k) (key_is k) Ht) as (r & -> & Hr). f_equal.
  destruct r as [a|].
  - destruct Hr as [Hv%bool_decide_eq_true (p & h & E & _)].
    destruct (key_of_slot es m p h a Hp E) as (k' & E' & _). by rewrite <- Hv, (Hk k' a E'), E'.
  - destruct (m !! k) as [a|] eqn:E; [|done]. destruct (slot_of_key es m k a Hp E) as [p Ep].
    specialize (Hr p a Ep). apply bool_decide_eq_false in Hr. by destruct Hr; apply Hk.
Qed.

Lemma insert_represents t m k a : represents t m -> needs_grow t = false ->
  m !! k = None -> key_at a = k -> addr_ok a ->
  exists t', insert t (hash_key k) a = Ok t' /\ represents t' (<[k := a]> m).
Proof.
  intros (es & Ht & _ & Hp & Hk) Hg%Z.ltb_ge E Ha Hok. destruct (ti_shape _ _ Ht) as [j Hs].
  assert (Htb : 0 <= tombstones t)
    by (rewrite (ti_tombs _ _ Ht); apply (cnt_nonneg (fun c => c =? CTRL_TOMB))).
  destruct (insert_spec t es (hash_key k) a Ht) as (t' & p & -> & Ep & Ht' & Hc & _ & Hb); [|done|].
  { rewrite <- (ti_live _ _ Ht). unfold LOAD_DEN, LOAD_NUM in Hg. pose proof (size_bound t es j Ht Hs). lia. }
  exists t'. split; [done|]. exists (<[p := (hash_key k, a)]> es). split; [done|]. split.
  - unfold loaded. rewrite Hc. unfold LOAD_DEN, LOAD_NUM in *. lia.
  - split; [by rewrite pairs_insert, entries_insert, Hp by done|].
    intros k' a' [[<- <-]|[_ E']]%lookup_insert_Some; [done|by apply Hk].
Qed.

Lemma grow_represents t m hash_of : represents t m -> hashes hash_of ->
  exists t', grow t hash_of = Ok t' /\ represents t' m /\ needs_grow t' = false.
Proof.
  intros (es & Ht & Hl & Hp & Hk) Hh.
  destruct (grow_spec t es hash_of Ht) as (t' & es' & E & Ht' & Hp' & Hg & Hz & _); [by eapply rehashes_key|done|].
  exists t'. split; [done|]. split; [|done]. exists es'. split; [done|]. split.
  - apply Z.ltb_ge in Hg. unfold loaded, LOAD_DEN, LOAD_NUM in *. lia.
  - split; [by rewrite Hp', Hp|done].
Qed.

Lemma put_represents t m k a hash_of : represents t m -> hashes hash_of ->
  m !! k = None -> key_at a = k -> addr_ok a ->
  exists t', put t hash_of (hash_key k) a = Ok t' /\ represents t' (<[k := a]> m).
Proof.
  intros Hr Hh E Ha Hok. unfold put. destruct (needs_grow t) eqn:Eg.
  - destruct (grow_represents t m hash_of Hr Hh) as (t1 & -> & Hr1 & Hg). ok_step. by apply insert_represents.
  - ok_step. by apply insert_represents.
Qed.

Lemma replace_represents t m k old new : represents t m -> m !! k = Some old -> key_at new = k -> addr_ok new ->
  exists t', replace t (hash_key k) old new = Ok t' /\ represents t' (<[k := new]> m).
Proof.
  intros (es & Ht & Hl & Hp & Hk) E Ha Hok.
  destruct (replace_spec t es (hash_key k) old new Ht) as (t' & p & Er & Ep & Ht' & Hc & _ & Hlv & Htb);
    [by apply (exact_key t es m); auto|done|by apply (slot_of_key es m)|].
  exists t'. split; [done|]. exists (<[p := (hash_key k, new)]> es). split; [done|]. split.
  - unfold loaded. by rewrite Hc, Hlv, Htb.
  - split.
    + rewrite <- (insert_delete_eq es), <- (insert_delete_eq m).
      rewrite pairs_insert by apply lookup_delete_eq. rewrite entries_insert by apply lookup_delete_eq.
      apply perm_skip. apply (Permutation_cons_inv (a := (hash_key k, old))).
      by rewrite <- (pairs_delete es p), <- entries_delete, Hp.
    + intros k' a' [[<- <-]|[_ E']]%lookup_insert_Some; [done|by apply Hk].
Qed.

Lemma remove_slot t m k a : represents t m -> m !! k = Some a ->
  exists p t', position_of t (hash_key k) a = Ok (Some p) /\ remove_at t p = Ok t' /\ represents t' (delete k m).
Proof.
  intros (es & Ht & Hl & Hp & Hk) E.
  destruct (position_of_exact t es (hash_key k) a Ht) as ([p|] & Ep & Hr);
    [by apply (exact_key t es m); auto| |by destruct (slot_of_key es m k a Hp E) as [p Hp']; destruct (Hr p)].
  destruct (remove_at_inv t es p _ _ Ht Hr) as (t' & Er & Ht' & Hc & _ & Hb).
  exists p, t'. split; [done|]. split; [done|]. exists (delete p es). split; [done|]. split.
  - unfold loaded in *. rewrite Hc. unfold LOAD_DEN, LOAD_NUM in *. lia.
  - split.
    + apply (Permutation_cons_inv (a := (hash_key k, a))). by rewrite <- (pairs_delete es p), <- entries_delete, Hp.
    + intros k' a' [_ E']%lookup_delete_Some. by apply Hk.
Qed.

Lemma position_absent t m k a : represents t m -> key_at a = k -> m !! k <> Some a ->
  position_of t (hash_key k) a = Ok None.
Proof.
  intros (es & Ht & Hl & Hp & Hk) Ha E.
  destruct (position_of_exact t es (hash_key k) a Ht) as ([p|] & -> & Hr); [by apply (exact_key t es m)| |done].
  exfalso. destruct (key_of_slot es m p _ a Hp Hr) as (k' & E' & _). apply E. by rewrite <- Ha, (Hk k' a E').
Qed.

Lemma new_represents n : 0 <= n < 2 ^ 56 -> represents (with_capacity n) ∅.
Proof.
  intros Hn. destruct (with_capacity_spec n Hn) as [Ht Hc]. exists ∅. split; [done|]. split.
  - unfold loaded, LOAD_DEN, LOAD_NUM in *. cbn [with_capacity empty_table live tombstones]. lia.
  - split; [|done]. unfold pairs, entries. by rewrite !map_to_list_empty.
Qed.

(** Insertions in a row, none of which may grow the table. *)
Fixpoint insert_all (t : Index) (l : list (K * Addr)) : panics Index :=
  match l with
  | [] => mret t
  | (k, a) :: l =>
      _ ← rassert (negb (needs_grow t));
      t' ← insert t (hash_key k) a;
      insert_all t' l
  end.

Lemma insert_all_spec t m l c :
  represents t m -> capacity t = c -> tombstones t = 0 -> live t = Z.of_nat (size m) ->
  (Z.of_nat (size m) + len l) * LOAD_DEN <= c * LOAD_NUM ->
  NoDup l.*1 -> (forall k a, (k, a) ∈ l -> m !! k = None /\ key_at a = k /\ addr_ok a) ->
  exists t', insert_all t l = Ok t' /\ represents t' (list_to_map l ∪ m) /\ capacity t' = c.
Proof.
  revert t m. induction l as [|[k a] l IH]; intros t m Hr Hc Htb Hlv Hload Hnd Hin.
  { exists t. cbn. rewrite (left_id ∅ (∪)). done. }
  apply NoDup_cons in Hnd as [Hk Hnd]. rewrite len_cons in Hload. pose proof (len_nonneg l).
  destruct (Hin k a) as (E & Hka & Hok); [left|]. cbn [insert_all].
  assert (Hg : needs_grow t = false).
  { apply Z.ltb_ge. rewrite Hc, Htb, Hlv. unfold LOAD_DEN, LOAD_NUM in *. lia. }
  rewrite Hg. cbn [negb rassert]. ok_step.
  destruct (insert_represents t m k a Hr Hg E Hka Hok) as (t1 & Ei & Hr1). rewrite Ei. ok_step.
  assert (Hfacts : capacity t1 = c /\ tombstones t1 = 0 /\ live t1 = Z.of_nat (size (<[k := a]> m))).
  { destruct Hr as (es & Ht & _ & Hp & _). destruct Hr1 as (es1 & Ht1 & _ & Hp1 & _).
    destruct (ti_shape _ _ Ht) as [j Hs].
    destruct (insert_spec t es (hash_key k) a Ht) as (t1' & p & Ei' & Ep & Ht1' & Hc1 & _ & Hb); [|done|].
    { rewrite <- (ti_live _ _ Ht), Hlv, <- Hc in *. pose proof (size_bound t es j Ht Hs).
      unfold LOAD_DEN, LOAD_NUM in *. lia. }
    rewrite Ei in Ei'. injection Ei' as <-.
    assert (Htb1 : 0 <= tombstones t1)
      by (rewrite (ti_tombs _ _ Ht1); apply (cnt_nonneg (fun c => c =? CTRL_TOMB))).
    assert (Hl1 : live t1 = live t + 1)
      by (rewrite (ti_live _ _ Ht1'), map_size_insert_None, (ti_live _ _ Ht) by done; lia).
    rewrite map_size_insert_None by done. split; [congruence|]. lia. }
  destruct Hfacts as (Hc1 & Htb1 & Hlv1).
  destruct (IH t1 (<[k := a]> m)) as (t' & E' & Hr' & Hc'); try done.
  - rewrite map_size_insert_None by done. unfold LOAD_DEN, LOAD_NUM in *. lia.
  - intros k' a' Hin'. destruct (Hin k' a') as (E' & ? & ?); [by right|]. split_and!; try done.
    rewrite lookup_insert_ne; [done|]. intros <-. apply Hk, list_elem_of_fmap. by exists (k, a').
  - exists t'. split; [done|]. split; [|done]. cbn [list_to_map foldr]. cbn.
    rewrite <- insert_union_l. by rewrite <- insert_union_r in Hr' by (by apply not_elem_of_list_to_map_1).
Qed.

Lemma insert_all_new n l :
  0 <= n < 2 ^ 56 -> len l <= n -> NoDup l.*1 ->
  (forall k a, (k, a) ∈ l -> key_at a = k /\ addr_ok a) ->
  exists t', insert_all (with_capacity n) l = Ok t' /\ represents t' (list_to_map l) /\
    capacity t' = capacity (with_capacity n).
Proof.
  intros Hn Hlen Hnd Hin. destruct (with_capacity_spec n Hn) as [_ Hc].
  destruct (insert_all_spec (with_capacity n) ∅ l (capacity (with_capacity n))) as (t' & E & Hr & Hcap);
    try done; [by apply new_represents|..].
  - rewrite map_size_empty. unfold LOAD_DEN, LOAD_NUM in *. lia.
  - intros k a Hka. rewrite lookup_empty. destruct (Hin k a Hka). done.
  - exists t'. by rewrite (right_id ∅ (∪)) in Hr.
Qed.

(** C9. Index lookups are map lookups: when the table represents the map [m]
    from keys to addresses, [find] with the key's hash and the key comparison
    returns exactly [m]'s answer, present or absent, whatever fingerprints and
    tombstones the probe meets; it never panics. *)
Theorem index_find_is_lookup t m k : represents t m -> find t (hash_key k) (key_is k) = Ok (m !! k).
Proof. apply find_lookup. Qed.

(** C8. Index updates are map updates. On a table that represents [m]: an
    absent key is inserted, growing first when the load asks for it; a present
    key's address is replaced; a present key is removed; and the table then
    represents the updated map. Replacing or removing a pair that is not in
    the table panics, and [remove_if_present] and [contains_pair] report it. *)
Theorem index_updates_refine t m k a hash_of :
  represents t m -> hashes hash_of -> key_at a = k -> addr_ok a ->
  (m !! k = None ->
     exists t', put t hash_of (hash_key k) a = Ok t' /\ represents t' (<[k := a]> m)) /\
  (forall old, m !! k = Some old ->
     exists t', replace t (hash_key k) old a = Ok t' /\ represents t' (<[k := a]> m)) /\
  (m !! k = Some a ->
     contains_pair t (hash_key k) a = Ok true /\
     exists t', remove t (hash_key k) a = Ok t' /\ remove_if_present t (hash_key k) a = Ok (t', true) /\
       represents t' (delete k m)) /\
  (m !! k <> Some a ->
     contains_pair t (hash_key k) a = Ok false /\ remove t (hash_key k) a = Panic /\
     remove_if_present t (hash_key k) a = Ok (t, false) /\ replace t (hash_key k) a a = Panic).
Proof.
  intros Hr Hh Hka Hok. split; [|split; [|split]].
  - intros E. by apply put_represents.
  - intros old E. by apply replace_represents.
  - intros E. destruct (remove_slot t m k a Hr E) as (p & t' & Ep & Er & Hr').
    unfold contains_pair, remove, remove_if_present. rewrite Ep. ok_step. split; [done|].
    exists t'. by rewrite Er.
  - intros E. pose proof (position_absent t m k a Hr Hka E) as Ep.
    unfold contains_pair, remove, remove_if_present, replace. rewrite Ep. done.
Qed.

(** C10. A table made for [n] < 2^56 entries holds them without growing: any [n]
    distinct keys can be inserted one after the other with [needs_grow] false
    every time, the capacity never changes, and the table represents them. *)
Theorem capacity_is_reserved n l :
  0 <= n < 2 ^ 56 -> len l <= n -> NoDup l.*1 ->
  (forall k a, (k, a) ∈ l -> key_at a = k /\ addr_ok a) ->
  exists t', insert_all (with_capacity n) l = Ok t' /\ represents t' (list_to_map l) /\
    capacity t' = capacity (with_capacity n).
Proof. apply insert_all_new. Qed.

End map.

(** ** Examples: a memory table whose records are their own keys *)

Definition ex_hash (k : Z) : Z := k * 2 ^ 42 + k.
Definition ex_key (a : Addr (SlotMode := MemoryMode)) : Z := arena_raw a.
Definition ex_addr (k : Z) : Addr (SlotMode := MemoryMode) := {| arena_raw := k |}.
Definition ex_hash_of (a : Addr (SlotMode := MemoryMode)) (_ : Z) : Z := ex_hash (ex_key a).
Definition ex_list : list (Z * Addr (SlotMode := MemoryMode)) := (fun k => (k, ex_addr k)) <$> seqZ 0 13.
Definition ex_table : Index MemoryMode :=
  ltac:(match eval vm_compute in (insert_all ex_hash (with_capacity 13) ex_list) with Ok ?t => exact t end).

Lemma ex_addr_ok k : 0 <= k < 1000 -> addr_ok (ex_addr k).
Proof. intros. unfold addr_ok, ADDR_MASK. change (addr_to_raw (ex_addr k)) with k. lia. Qed.

Lemma ex_entries k a : (k, a) ∈ ex_list -> ex_key a = k /\ addr_ok a.
Proof.
  intros Hin. unfold ex_list in Hin. apply list_elem_of_fmap in Hin as (x & E & Hx).
  apply elem_of_seqZ in Hx. injection E as -> ->. split; [reflexivity|]. apply ex_addr_ok. lia.
Qed.

Lemma ex_represents : represents ex_hash ex_key ex_table (list_to_map ex_list).
Proof.
  destruct (insert_all_new ex_hash ex_key 13 ex_list) as (t' & E & Hr & _).
  - lia.
  - by vm_compute.
  - apply (bool_decide_unpack _). by vm_compute.
  - exact ex_entries.
  - assert (Et : insert_all ex_hash (with_capacity 13) ex_list = Ok ex_table)
      by (vm_cast_no_check (@eq_refl (panics (Index MemoryMode)) (Ok ex_table))).
    rewrite Et in E. injection E as <-. done.
Qed.

Lemma index_find_is_lookup_witness :
  find ex_table (ex_hash 7) (key_is ex_key 7) = Ok (list_to_map (M := gmap Z _) ex_list !! 7).
Proof. apply (index_find_is_lookup ex_hash ex_key ex_table (list_to_map ex_list) 7 ex_represents). Defined.

Lemma index_updates_refine_witness :
  exists t', put ex_table ex_hash_of (ex_hash 99) (ex_addr 99) = Ok t' /\
    represents ex_hash ex_key t' (<[99 := ex_addr 99]> (list_to_map ex_list)).
Proof.
  refine (proj1 (index_updates_refine ex_hash ex_key ex_table (list_to_map ex_list) 99 (ex_addr 99) ex_hash_of
    ex_represents (or_introl _) eq_refl (ex_addr_ok 99 _)) _); [reflexivity|lia|].
  vm_cast_no_check (@eq_refl (option (Addr (SlotMode := MemoryMode))) None).
Defined.

Lemma capacity_is_reserved_witness :
  exists t', insert_all ex_hash (with_capacity 13) ex_list = Ok t' /\
    represents ex_hash ex_key t' (list_to_map ex_list) /\
    capacity t' = capacity (with_capacity (M := MemoryMode) 13).
Proof.
  apply (capacity_is_reserved ex_hash ex_key 13 ex_list); [lia|by vm_compute|by apply (bool_decide_unpack _); vm_compute|].
  exact ex_entries.
Defined.

End IndexMap.
