(* ===== verification/Scan.v ===== *)
(** * Keyspace iteration ([crates/inf-store/src/store/scan.rs], [store.rs])

    The [SCAN] cursor: home groups in reverse-binary order, over the table of
    [Index]. A store is its table, with the records seen through their key, the
    hash of the key and whether they have expired; reaping a record removes it
    from the table. The arena, the document heap and the expiry schedule behind
    [free_record] are not part of this file. *)

From S2P Require Import Prelude Group16 Index IndexMap.
From stdpp Require Import gmap sets.
Import Group16 Index.Index IndexMap.
#[local] Open Scope Z_scope.

Module Scan.

(** [u64::reverse_bits], on the low [n] bits. *)
Fixpoint rev (n : nat) (x : Z) : Z :=
  match n with O => 0 | S n => (x mod 2) * 2 ^ Z.of_nat n + rev n (x / 2) end.
Definition reverse_bits (x : Z) : Z := rev 64 x.

Definition not64 (x : Z) : Z := 2 ^ 64 - 1 - x.
Definition next_rev_cursor (cursor mask : Z) : Z :=
  let v := Z.lor cursor (not64 mask) in
  let v := reverse_bits v in
  let v := wrap 64 (v + 1) in
  reverse_bits v.

Section store.
Context {M : SlotMode} {L : SlotModeLaws M}.
Context {K : Type} `{Countable K}.
Context (hash_key : K -> Z) (key_at : Addr -> K).
Notation Index := (Index M).

(** The [for &addr in &batch] of [scan]: reap or emit. *)
Fixpoint drain (expired : Addr -> bool) (batch : list Addr) (t : Index) (out : list K)
    : panics (Index * list K) :=
  match batch with
  | [] => mret (t, out)
  | a :: batch =>
      if expired a
      then t' ← remove t (hash_key (key_at a)) a; drain expired batch t' out
      else drain expired batch t (out ++ [key_at a])
  end.

(** The [loop] of [scan]; [fuel] bounds the groups visited by one call. *)
Fixpoint scan_loop (fuel : nat) (expired : Addr -> bool) (count mask : Z) (t : Index) (cursor : Z) (out : list K)
    : panics (Index * list K * Z) :=
  match fuel with
  | O => Panic
  | S fuel =>
      batch ← scan_home_group t cursor (fun a => hash_key (key_at a));
      '(t', out') ← drain expired batch t out;
      let cursor' := next_rev_cursor cursor mask in
      if (cursor' =? 0) || (count <=? len out') then mret (t', out', cursor')
      else scan_loop fuel expired count mask t' cursor' out'
  end.
Definition scan (expired : Addr -> bool) (t : Index) (cursor count : Z) : panics (Index * list K * Z) :=
  let mask := group_count t - 1 in
  scan_loop (Z.to_nat (group_count t)) expired count mask t (Z.land cursor mask) [].

End store.

(** ** Reversal *)

Lemma rev_range n x : 0 <= rev n x < 2 ^ Z.of_nat n.
Proof.
  revert x. induction n as [|n IH]; intros x; [cbn; lia|]. cbn [rev]. specialize (IH (x / 2)).
  pose proof (Z.mod_pos_bound x 2 ltac:(lia)). rewrite Nat2Z.inj_succ, Z.pow_succ_r by lia. nia.
Qed.

Lemma rev_split b k x :
  rev (b + k) x = rev b (x mod 2 ^ Z.of_nat b) * 2 ^ Z.of_nat k + rev k (x / 2 ^ Z.of_nat b).
Proof.
  revert x. induction b as [|b IH]; intros x.
  { cbn [rev Nat.add]. rewrite Z.pow_0_r, Z.div_1_r. lia. }
  cbn [rev Nat.add]. rewrite IH. rewrite Nat2Z.inj_add, Z.pow_add_r by lia.
  rewrite (Nat2Z.inj_succ b), Z.pow_succ_r by lia.
  assert (E1 : (x mod (2 * 2 ^ Z.of_nat b)) mod 2 = x mod 2).
  { rewrite Z.rem_mul_r by lia. rewrite (Z.mul_comm 2), Z.mod_add by lia. apply Z.mod_mod. lia. }
  assert (E2 : (x mod (2 * 2 ^ Z.of_nat b)) / 2 = (x / 2) mod 2 ^ Z.of_nat b).
  { rewrite Z.rem_mul_r by lia. rewrite (Z.mul_comm 2), Z.div_add by lia.
    rewrite (Z.div_small (x mod 2)) by (apply Z.mod_pos_bound; lia). lia. }
  rewrite E1, E2, Z.div_div by lia. lia.
Qed.

Lemma rev_mod n x : rev n (x mod 2 ^ Z.of_nat n) = rev n x.
Proof.
  pose proof (rev_split n 0 x) as E. rewrite Nat.add_0_r in E. rewrite E. cbn [rev]. rewrite Z.pow_0_r. lia.
Qed.

Lemma rev_0 n : rev n 0 = 0.
Proof. induction n as [|n IH]; [done|]. cbn [rev]. rewrite Z.mod_0_l, Z.div_0_l, IH by lia. lia. Qed.

Lemma rev_ones n : rev n (2 ^ Z.of_nat n - 1) = 2 ^ Z.of_nat n - 1.
Proof.
  induction n as [|n IH]; [done|]. cbn [rev]. rewrite Nat2Z.inj_succ, Z.pow_succ_r by lia.
  set (p := 2 ^ Z.of_nat n) in *. assert (0 < p) by (unfold p; lia).
  replace (2 * p - 1) with (1 + (p - 1) * 2) by lia. rewrite Z.mod_add, Z.div_add by lia.
  change (1 mod 2) with 1. change (1 / 2) with 0. rewrite Z.add_0_l, IH. lia.
Qed.

Lemma rev_involutive n x : 0 <= x < 2 ^ Z.of_nat n -> rev n (rev n x) = x.
Proof.
  revert x. induction n as [|n IH]; intros x Hx; [cbn in *; lia|].
  rewrite Nat2Z.inj_succ, Z.pow_succ_r in Hx by lia.
  replace (S n) with (n + 1)%nat at 1 by lia. rewrite rev_split. cbn [rev].
  pose proof (rev_range n (x / 2)). pose proof (Z.mod_pos_bound x 2 ltac:(lia)).
  set (p := 2 ^ Z.of_nat n) in *.
  replace ((x mod 2 * p + rev n (x / 2)) mod p) with (rev n (x / 2))
    by (rewrite Z.add_comm, Z.mod_add, Z.mod_small by lia; done).
  replace ((x mod 2 * p + rev n (x / 2)) / p) with (x mod 2)
    by (rewrite Z.add_comm, Z.div_add, Z.div_small by lia; done).
  rewrite IH by (split; [apply Z.div_pos|apply Z.div_lt_upper_bound]; lia).
  rewrite Z.mod_mod by lia. change (2 ^ Z.of_nat 1) with 2. change (2 ^ Z.of_nat 0) with 1.
  pose proof (Z.div_mod x 2 ltac:(lia)). lia.
Qed.

(** The scan order: reversed hashes. The hashes whose home is [c] among [2^k]
    groups are an interval of it. *)
Definition place (h : Z) : Z := reverse_bits h.

Lemma split64 k : 0 <= k <= 64 -> exists b r, 64%nat = (b + r)%nat /\ k = Z.of_nat b.
Proof. intros. exists (Z.to_nat k), (64 - Z.to_nat k)%nat. lia. Qed.

Lemma place_home k c h : 0 <= k <= 64 -> 0 <= c < 2 ^ k ->
  h mod 2 ^ k = c <-> place c <= place h < place c + 2 ^ (64 - k).
Proof.
  intros Hk Hc. destruct (split64 k Hk) as (b & r & E & ->). unfold place, reverse_bits. rewrite E.
  rewrite !rev_split. replace (64 - Z.of_nat b) with (Z.of_nat r) by lia.
  rewrite (Z.mod_small c), (Z.div_small c), rev_0 by lia. set (p := 2 ^ Z.of_nat r).
  pose proof (rev_range r (h / 2 ^ Z.of_nat b)) as Hr. fold p in Hr. split.
  - intros ->. lia.
  - intros Hi. assert (Er : rev b (h mod 2 ^ Z.of_nat b) = rev b c) by nia.
    rewrite <- (rev_involutive b (h mod 2 ^ Z.of_nat b)) by (apply Z.mod_pos_bound; lia).
    rewrite Er. by apply rev_involutive.
Qed.

Lemma place_range h : 0 <= place h < 2 ^ 64.
Proof. apply rev_range. Qed.

(** One increment moves past exactly one home group. *)
Lemma next_rev_cursor_spec k c : 0 <= k <= 64 -> 0 <= c < 2 ^ k ->
  let c' := next_rev_cursor c (2 ^ k - 1) in
  0 <= c' < 2 ^ k /\ place c' = wrap 64 (place c + 2 ^ (64 - k)).
Proof.
  intros Hk Hc. destruct (split64 k Hk) as (b & r & E & ->). unfold next_rev_cursor, place, reverse_bits, not64.
  replace (64 - Z.of_nat b) with (Z.of_nat r) by lia.
  assert (E64 : 2 ^ 64 = 2 ^ Z.of_nat b * 2 ^ Z.of_nat r) by (rewrite <- Z.pow_add_r by lia; f_equal; lia).
  set (p := 2 ^ Z.of_nat r) in *. assert (0 < p) by (unfold p; lia).
  assert (Ev : Z.lor c (2 ^ 64 - 1 - (2 ^ Z.of_nat b - 1)) = c + (p - 1) * 2 ^ Z.of_nat b).
  { rewrite E64. replace (_ * p - 1 - (2 ^ Z.of_nat b - 1)) with ((p - 1) * 2 ^ Z.of_nat b) by lia.
    rewrite <- Z.shiftl_mul_pow2 by lia. rewrite lor_shiftl by lia. by rewrite Z.shiftl_mul_pow2 by lia. }
  rewrite Ev. clear Ev.
  assert (E1 : rev 64 (c + (p - 1) * 2 ^ Z.of_nat b) = rev b c * p + (p - 1)).
  { rewrite E, rev_split, Z.mod_add, Z.div_add, Z.mod_small, Z.div_small by lia.
    rewrite Z.add_0_l. unfold p at 2. by rewrite rev_ones. }
  assert (E2 : rev 64 c = rev b c * p).
  { rewrite E, rev_split, Z.mod_small, Z.div_small, rev_0 by lia. fold p. lia. }
  rewrite E1, E2. replace (rev b c * p + (p - 1) + 1) with (rev b c * p + p) by lia.
  set (y := wrap 64 (rev b c * p + p)). pose proof (rev_range b c) as Hr.
  assert (Hy : 0 <= y < 2 ^ 64) by (apply Z.mod_pos_bound; lia).
  assert (Hd : y mod p = 0).
  { unfold y, wrap. rewrite E64, (Z.mul_comm (2 ^ Z.of_nat b)).
    replace (rev b c * p + p) with (p * (rev b c + 1)) by lia. rewrite Z.mul_mod_distr_l by lia.
    rewrite Z.mul_comm. apply Z.mod_mul. lia. }
  split; [|apply (rev_involutive 64); done].
  rewrite E, Nat.add_comm, rev_split. fold p. rewrite Hd, rev_0. apply rev_range.
Qed.

(** ** One call *)

Section spec.
Context {M : SlotMode} {L : SlotModeLaws M}.
Context {K : Type} `{Countable K}.
Context (hash_key : K -> Z) (key_at : Addr -> K).
Notation Index := (Index M).
Notation represents := (represents hash_key key_at).
Notation drain := (drain hash_key key_at).
Notation scan_loop := (scan_loop hash_key key_at).
Notation scan := (scan hash_key key_at).

Lemma remove_capacity t h a t' : remove t h a = Ok t' -> capacity t' = capacity t.
Proof.
  intros E. unfold remove in E. inv_ok E. unfold remove_at in E. inv_ok E. by injection E as <-.
Qed.

(** The batch of a home group: its keys' addresses, each once. *)
Lemma batch_spec t m cursor : represents t m ->
  exists batch, scan_home_group t cursor (fun a => hash_key (key_at a)) = Ok batch /\ NoDup batch /\
    forall a, a ∈ batch <-> m !! key_at a = Some a /\ home t (hash_key (key_at a)) = home t cursor.
Proof.
  intros (es & Ht & _ & Hp & Hk).
  destruct (scan_home_group_spec t es cursor (fun a => hash_key (key_at a)) Ht) as (out & E & Ho).
  { intros p h a Ee. destruct (key_of_slot hash_key es m p h a Hp Ee) as (k & Em & ->). by rewrite (Hk k a Em). }
  assert (Hin : forall h a, (h, a) ∈ pairs es <-> m !! key_at a = Some a /\ h = hash_key (key_at a)).
  { intros h a. rewrite Hp, elem_of_entries. split.
    - intros (k & Em & ->). by rewrite (Hk k a Em).
    - intros [Em ->]. by exists (key_at a). }
  exists out. split; [done|]. split.
  - rewrite Ho. unfold pairs. rewrite <- list_fmap_compose.
    apply NoDup_fmap_2_strong; [|apply NoDup_map_to_list].
    intros [p1 [h1 a1]] [p2 [h2 a2]] H1%elem_of_map_to_list H2%elem_of_map_to_list Ea. cbn in Ea. subst a2.
    unfold homed in *. apply map_lookup_filter_Some in H1 as [H1 _], H2 as [H2 _].
    destruct (proj1 (Hin h1 a1)) as [_ ->]; [apply elem_of_pairs; by eexists|].
    destruct (proj1 (Hin h2 a1)) as [_ ->]; [apply elem_of_pairs; by eexists|].
    assert (Hnd : NoDup (pairs es)).
    { rewrite Hp. unfold entries. apply NoDup_fmap_2_strong; [|apply NoDup_map_to_list].
      intros [k1 x1] [k2 x2] Hk1%elem_of_map_to_list Hk2%elem_of_map_to_list [= _ <-].
      f_equal. by rewrite <- (Hk k1 x1 Hk1), <- (Hk k2 x1 Hk2). }
    destruct (decide (p1 = p2)) as [-> |Hne]; [done|]. exfalso.
    rewrite (pairs_delete es p1 _ H1), (pairs_delete (delete p1 es) p2 _) in Hnd
      by (by rewrite lookup_delete_ne).
    apply NoDup_cons in Hnd as [Hnin _]. apply Hnin. left.
  - intros a. rewrite Ho, list_elem_of_fmap. split.
    + intros ([h a'] & -> & Hx). apply elem_of_pairs in Hx as [p Hx]. unfold homed in Hx.
      apply map_lookup_filter_Some in Hx as [Hx Hh]. cbn in Hh.
      destruct (proj1 (Hin h a')) as [Em ->]; [apply elem_of_pairs; by eexists|]. done.
    + intros [Em Hh]. exists (hash_key (key_at a), a). split; [done|].
      pose proof (proj2 (Hin _ a) (conj Em eq_refl)) as Hx. apply elem_of_pairs in Hx as [p Hx].
      apply elem_of_pairs. exists p. apply map_lookup_filter_Some. done.
Qed.

(** [m'] is [m] without some of the expired records. *)
Definition reaped (expired : Addr -> bool) (m m' : gmap K Addr) : Prop :=
  m' ⊆ m /\ forall k a, m !! k = Some a -> expired a = false -> m' !! k = Some a.

Lemma reaped_trans expired m1 m2 m3 : reaped expired m1 m2 -> reaped expired m2 m3 -> reaped expired m1 m3.
Proof. intros [H1 H2] [H3 H4]. split; [by etrans|]. intros k a Ea Hx. apply H4; [by apply H2|done]. Qed.

Lemma drain_spec expired batch : forall t m out,
  represents t m -> NoDup batch -> (forall a, a ∈ batch -> m !! key_at a = Some a) ->
  exists t' m', drain expired batch t out
      = Ok (t', out ++ (key_at <$> filter (fun a => expired a = false) batch)) /\
    represents t' m' /\ reaped expired m m' /\ capacity t' = capacity t.
Proof.
  induction batch as [|a batch IH]; intros t m out Hr Hnd Hin; cbn [Scan.drain].
  { exists t, m. rewrite app_nil_r. done. }
  apply NoDup_cons in Hnd as [Ha Hnd]. assert (Em : m !! key_at a = Some a) by (apply Hin; left).
  assert (Hinj : forall a', a' ∈ batch -> key_at a' <> key_at a).
  { intros a' Ha' E. assert (Em' : m !! key_at a' = Some a') by (apply Hin; by right).
    rewrite E, Em in Em'. by injection Em' as ->. }
  destruct (expired a) eqn:Ex.
  - destruct (remove_slot hash_key key_at t m (key_at a) a Hr Em) as (p & t1 & Ep & Er & Hr1).
    assert (Erm : remove t (hash_key (key_at a)) a = Ok t1) by (unfold remove; rewrite Ep; done).
    rewrite Erm. ok_step. destruct (IH t1 (delete (key_at a) m) out Hr1 Hnd) as (t' & m' & -> & Hr' & Hre & Hc).
    { intros a' Ha'. rewrite lookup_delete_ne by (symmetry; by apply Hinj). apply Hin. by right. }
    exists t', m'. rewrite filter_cons_False by congruence. split; [done|]. split; [done|]. split.
    + apply (reaped_trans _ _ (delete (key_at a) m)); [|done]. split; [apply delete_subseteq|].
      intros k a0 Ek Ea0. rewrite lookup_delete_ne; [done|]. intros <-. congruence.
    + rewrite Hc. by apply remove_capacity in Erm.
  - destruct (IH t m (out ++ [key_at a]) Hr Hnd) as (t' & m' & -> & Hr' & Hre & Hc).
    { intros. apply Hin. by right. }
    exists t', m'. rewrite filter_cons_True by done. cbn [fmap list_fmap]. rewrite <- app_assoc. done.
Qed.

Lemma shape_cap t k t' es : table_inv t' es -> shape t k -> capacity t' = capacity t -> shape t' k.
Proof.
  intros Ht Hs Hc. destruct (ti_shape _ _ Ht) as [k' Hs']. replace k with k'; [done|].
  pose proof (sh_cap _ _ Hs) as E. pose proof (sh_cap _ _ Hs') as E'. rewrite Hc, E in E'. unfold GROUP in E'.
  pose proof (sh_k _ _ Hs). pose proof (sh_k _ _ Hs'). apply (Z.pow_inj_r 2); lia.
Qed.

(** Where the scan stands: past every place, once the cursor is back at 0. *)
Definition reached (cursor : Z) : Z := if cursor =? 0 then 2 ^ 64 else place cursor.

Lemma scan_loop_spec expired count k n : forall t m c out,
  represents t m -> shape t k -> k <= 64 -> 0 <= c < 2 ^ k ->
  2 ^ 64 <= place c + Z.of_nat n * 2 ^ (64 - k) ->
  exists t' m' c' new, scan_loop n expired count (2 ^ k - 1) t c out = Ok (t', out ++ new, c') /\
    represents t' m' /\ reaped expired m m' /\ shape t' k /\ 0 <= c' < 2 ^ k /\
    place c + 2 ^ (64 - k) <= reached c' /\
    (forall key, key ∈ new -> exists a, m !! key = Some a /\ expired a = false) /\
    (forall key a, m !! key = Some a -> expired a = false ->
       place c <= place (hash_key key) < reached c' -> key ∈ new).
Proof.
  induction n as [|n IH]; intros t m c out Hr Hs Hk Hc Hn.
  { pose proof (place_range c). change (Z.of_nat 0) with 0 in Hn. lia. }
  pose proof (sh_k _ _ Hs) as Hk0.
  cbn [Scan.scan_loop]. destruct (batch_spec t m c Hr) as (batch & -> & Hnd & Hin). ok_step.
  destruct (drain_spec expired batch t m out Hr Hnd) as (t1 & m1 & -> & Hr1 & Hre & Hcap).
  { intros a Ha. by apply Hin in Ha as []. }
  ok_step. set (new := key_at <$> filter (fun a => expired a = false) batch).
  assert (Hs1 : shape t1 k) by (destruct Hr1 as (es1 & Ht1 & _); by apply (shape_cap t k t1 es1)).
  assert (Hsound : forall key, key ∈ new -> exists a, m !! key = Some a /\ expired a = false).
  { intros key (a & -> & [Hx Ha]%list_elem_of_filter)%list_elem_of_fmap. exists a. split; [|done]. by apply Hin in Ha as []. }
  assert (Hall : forall key a, m !! key = Some a -> expired a = false ->
    place c <= place (hash_key key) < place c + 2 ^ (64 - k) -> key ∈ new).
  { intros key a Em Hx Hp. assert (Hka : key_at a = key) by (destruct Hr as (? & _ & _ & _ & Hk'); by apply Hk').
    apply list_elem_of_fmap. exists a. split; [done|]. apply list_elem_of_filter. split; [done|]. apply Hin.
    rewrite Hka. split; [done|]. rewrite !(home_val t k) by done. rewrite (Z.mod_small c) by lia.
    by apply place_home; lia. }
  destruct (next_rev_cursor_spec k c) as [Hc' Hp']; [lia|done|]. set (c' := next_rev_cursor c (2 ^ k - 1)) in *.
  pose proof (place_range c) as Hpc. pose proof (place_range c') as Hpc'.
  assert (Hw : place c' = place c + 2 ^ (64 - k) /\ c' <> 0 \/ c' = 0 /\ place c + 2 ^ (64 - k) = 2 ^ 64).
  { assert (Hdiv : exists q, place c = q * 2 ^ (64 - k) /\ 0 <= q < 2 ^ k).
    { destruct (split64 k) as (b & r & Ebr & ->); [lia|]. exists (rev b c). unfold place, reverse_bits.
      rewrite Ebr, rev_split, (Z.mod_small c), (Z.div_small c), rev_0 by lia.
      replace (64 - Z.of_nat b) with (Z.of_nat r) by lia. split; [lia|apply rev_range]. }
    destruct Hdiv as (q & Hq & Hqr).
    assert (E64 : 2 ^ 64 = 2 ^ k * 2 ^ (64 - k)) by (rewrite <- Z.pow_add_r by lia; f_equal; lia).
    destruct (Z.eq_dec (place c + 2 ^ (64 - k)) (2 ^ 64)) as [E|E].
    - right. split; [|done]. rewrite E in Hp'. unfold wrap in Hp'. rewrite Z.mod_same in Hp' by lia.
      rewrite <- (rev_involutive 64 c') by (change (Z.of_nat 64) with 64; assert (2 ^ k <= 2 ^ 64) by (apply Z.pow_le_mono_r; lia); lia).
      unfold place, reverse_bits in Hp'. rewrite Hp'. apply rev_0.
    - left. unfold wrap in Hp'. rewrite Z.mod_small in Hp' by nia. split; [done|]. intros E0. rewrite E0 in Hp'.
      assert (E0' : place 0 = 0) by (apply rev_0). lia. }
  destruct ((c' =? 0) || (count <=? len (out ++ new))) eqn:Estop.
  - exists t1, m1, c', new. split; [done|]. split; [done|]. split; [done|]. split; [done|]. split; [done|].
    assert (Hreach : reached c' = place c + 2 ^ (64 - k)).
    { unfold reached. destruct (Z.eqb_spec c' 0); destruct Hw as [[? ?]|[? ?]]; lia. }
    rewrite Hreach. split; [lia|]. split; [done|]. exact Hall.
  - apply orb_false_iff in Estop as [Hz%Z.eqb_neq _]. destruct Hw as [[Hpl _]|[? _]]; [|done].
    destruct (IH t1 m1 c' (out ++ new) Hr1 Hs1 Hk Hc') as
      (t2 & m2 & c2 & new2 & -> & Hr2 & Hre2 & Hs2 & Hc2 & Hadv & Hso2 & Hall2); [lia|].
    exists t2, m2, c2, (new ++ new2). rewrite app_assoc. split; [done|]. split; [done|].
    split; [by apply (reaped_trans _ _ m1)|]. split; [done|]. split; [done|].
    assert (0 < 2 ^ (64 - k)) by lia. split; [lia|]. split.
    + intros key [Hk1|Hk2]%elem_of_app; [by apply Hsound|]. destruct (Hso2 key Hk2) as (a & Ea & Hx).
      exists a. split; [|done]. by apply (lookup_weaken _ _ _ _ Ea), Hre.
    + intros key a Em Hx Hp. apply elem_of_app. destruct (Z.lt_ge_cases (place (hash_key key)) (place c')).
      * left. apply (Hall key a); try done. lia.
      * right. apply (Hall2 key a); [by apply Hre|done|lia].
Qed.

Lemma scan_spec expired t m k cursor count :
  represents t m -> shape t k -> k <= 64 -> 0 <= cursor < 2 ^ k ->
  exists t' m' c' new, scan expired t cursor count = Ok (t', new, c') /\
    represents t' m' /\ reaped expired m m' /\ 0 <= c' < 2 ^ k /\
    place cursor + 2 ^ (64 - k) <= reached c' /\
    (forall key, key ∈ new -> exists a, m !! key = Some a /\ expired a = false) /\
    (forall key a, m !! key = Some a -> expired a = false ->
       place cursor <= place (hash_key key) < reached c' -> key ∈ new).
Proof.
  intros Hr Hs Hk Hc. pose proof (sh_k _ _ Hs). unfold Scan.scan. rewrite (group_count_val _ _ Hs).
  rewrite land_ones_mod, Z.mod_small by lia.
  destruct (scan_loop_spec expired count k (Z.to_nat (2 ^ k)) t m cursor [] Hr Hs Hk Hc) as
    (t' & m' & c' & new & -> & Hr' & Hre & _ & Hc' & Hrest).
  { pose proof (place_range cursor). rewrite Z2Nat.id, <- Z.pow_add_r by lia.
    replace (k + (64 - k)) with 64 by lia. lia. }
  exists t', m', c', new. do 4 (split; [done|]). done.
Qed.

(** ** A whole iteration *)

(** One [SCAN] call: the table and the map it represents at that moment, which
    records have expired by then, and the count asked for. *)
Record call := { c_table : Index; c_map : gmap K Addr; c_expired : Addr -> bool; c_count : Z }.

(** The client's loop: from one cursor to the next until 0 comes back. *)
Fixpoint iterate (calls : list call) (cursor : Z) : panics (list K * bool) :=
  match calls with
  | [] => mret ([], false)
  | x :: calls =>
      '(_, out, cursor') ← scan (c_expired x) (c_table x) cursor (c_count x);
      if cursor' =? 0 then mret (out, true)
      else '(out', finished) ← iterate calls cursor'; mret (out ++ out', finished)
  end.

(** Between calls the table may be written, rebuilt and doubled at will; it
    never shrinks. [lo] and [hi] bound the base-2 logarithm of the group count. *)
Fixpoint calls_ok (lo hi : Z) (calls : list call) : Prop :=
  match calls with
  | [] => True
  | x :: calls => exists k, lo <= k <= hi /\ shape (c_table x) k /\ represents (c_table x) (c_map x) /\
      calls_ok k hi calls
  end.

Definition present (key : K) (x : call) : Prop :=
  exists a, c_map x !! key = Some a /\ c_expired x a = false.

Lemma iterate_spec hi calls : forall lo cursor, 0 <= lo -> hi <= 64 -> calls_ok lo hi calls -> 0 <= cursor < 2 ^ lo ->
  exists out finished, iterate calls cursor = Ok (out, finished) /\
    (forall key, key ∈ out -> exists x, x ∈ calls /\ present key x) /\
    (finished = true -> forall key, (forall x, x ∈ calls -> present key x) ->
       place cursor <= place (hash_key key) -> key ∈ out) /\
    (2 ^ 64 <= place cursor + len calls * 2 ^ (64 - hi) -> finished = true).
Proof.
  induction calls as [|x calls IH]; intros lo cursor Hlo Hhi Hok Hc; cbn [iterate].
  { exists [], false. split; [done|]. split; [by intros ? ?%not_elem_of_nil|]. split; [done|].
    change (len (@nil call)) with 0. pose proof (place_range cursor). lia. }
  destruct Hok as (k & Hk & Hs & Hr & Hok).
  assert (Hpow : 2 ^ lo <= 2 ^ k) by (apply Z.pow_le_mono_r; lia).
  destruct (scan_spec (c_expired x) (c_table x) (c_map x) k cursor (c_count x) Hr Hs) as
    (t' & m' & c' & new & -> & _ & _ & Hc' & Hadv & Hsound & Hall); [lia|lia|]. ok_step.
  assert (Hsnd : forall key, key ∈ new -> exists y, y ∈ x :: calls /\ present key y).
  { intros key Hin. exists x. split; [left|]. by apply Hsound. }
  assert (Hstep : 2 ^ (64 - hi) <= 2 ^ (64 - k)) by (apply Z.pow_le_mono_r; lia).
  unfold reached in *. destruct (Z.eqb_spec c' 0) as [-> |Hne].
  - exists new, true. split; [done|]. split; [done|]. split; [|done].
    intros _ key Hpres Hpl. destruct (Hpres x ltac:(left)) as (a & Ea & Hx). apply (Hall key a Ea Hx).
    pose proof (place_range (hash_key key)). lia.
  - destruct (IH k c') as (out' & fin & -> & Hso & Hco & Hterm); [lia|done|done|done|]. ok_step.
    exists (new ++ out'), fin. split; [done|]. split; [|split].
    + intros key [Hin|Hin]%elem_of_app; [by apply Hsnd|]. destruct (Hso key Hin) as (y & Hy & Hp).
      exists y. split; [by right|done].
    + intros Hfin key Hpres Hpl. apply elem_of_app.
      destruct (Z.lt_ge_cases (place (hash_key key)) (place c')) as [Hlt|Hge].
      * left. destruct (Hpres x ltac:(left)) as (a & Ea & Hx). by apply (Hall key a).
      * right. apply Hco; [done| |done]. intros y Hy. apply Hpres. by right.
    + rewrite len_cons. intros Hlen. apply Hterm. lia.
Qed.

(** C7. The [SCAN] guarantee. Over any sequence of calls that starts at cursor
    0 and follows the returned cursors, with the table written, rebuilt and
    doubled in any way between the calls: no call panics, only keys that are
    present and not expired at a call are emitted, and when the cursor comes
    back to 0 every key that was present and unexpired at every call has been
    emitted. With at most [2^hi] groups the iteration ends within [2^hi]
    calls. *)
Theorem scan_guarantee hi calls :
  hi <= 64 -> calls_ok 0 hi calls ->
  exists out finished, iterate calls 0 = Ok (out, finished) /\
    (forall key, key ∈ out -> exists x, x ∈ calls /\ present key x) /\
    (finished = true -> forall key, (forall x, x ∈ calls -> present key x) -> key ∈ out) /\
    (0 <= hi -> 2 ^ hi <= len calls -> finished = true).
Proof.
  intros Hhi Hok. destruct (iterate_spec hi calls 0 0) as (out & fin & E & Hso & Hco & Hterm); [lia|done|done|cbn; lia|].
  assert (H0 : place 0 = 0) by (apply rev_0).
  exists out, fin. split; [done|]. split; [done|]. split.
  - intros Hf key Hp. apply Hco; [done|done|]. pose proof (place_range (hash_key key)). lia.
  - intros Hnn Hlen. apply Hterm. assert (E64 : 2 ^ 64 = 2 ^ hi * 2 ^ (64 - hi)) by (rewrite <- Z.pow_add_r by lia; f_equal; lia).
    rewrite E64, H0. nia.
Qed.

End spec.

(** ** Example: five keys, the table doubled between two calls *)

Definition ex_keys : list (Z * Addr (SlotMode := MemoryMode)) := (fun k => (k, ex_addr k)) <$> seqZ 0 5.
Definition ex_small : Index MemoryMode :=
  ltac:(match eval vm_compute in (insert_all ex_hash (with_capacity 20) ex_keys) with Ok ?t => exact t end).
Definition ex_large : Index MemoryMode :=
  ltac:(match eval vm_compute in (insert_all ex_hash (with_capacity 40) ex_keys) with Ok ?t => exact t end).
Definition ex_call (t : Index MemoryMode) : call (K := Z) :=
  {| c_table := t; c_map := list_to_map ex_keys; c_expired := fun a => ex_key a =? 3; c_count := 1 |}.

Lemma ex_built n t : 0 <= n < 2 ^ 56 -> 5 <= n -> insert_all ex_hash (with_capacity n) ex_keys = Ok t ->
  represents ex_hash ex_key t (list_to_map ex_keys).
Proof.
  intros Hn H5 E. destruct (insert_all_new ex_hash ex_key n ex_keys) as (t' & E' & Hr & _).
  - done.
  - change (len ex_keys) with 5. lia.
  - apply (bool_decide_unpack _). by vm_compute.
  - intros k a Hin. unfold ex_keys in Hin. apply list_elem_of_fmap in Hin as (x & Ex & Hx).
    apply elem_of_seqZ in Hx. injection Ex as -> ->. split; [reflexivity|]. apply ex_addr_ok. lia.
  - rewrite E in E'. injection E' as <-. done.
Qed.

Lemma ex_shape t k : 0 <= k -> capacity t = GROUP * 2 ^ k -> len (ctrl t) = capacity t -> len (slots t) = capacity t ->
  shape (M := MemoryMode) t k.
Proof. intros. by constructor. Qed.

Lemma scan_guarantee_witness :
  exists out finished, iterate ex_hash ex_key [ex_call ex_small; ex_call ex_large; ex_call ex_large; ex_call ex_large] 0
      = Ok (out, finished) /\
    (forall key, key ∈ out -> exists x, x ∈ [ex_call ex_small; ex_call ex_large; ex_call ex_large; ex_call ex_large] /\ present key x) /\
    (finished = true -> forall key,
       (forall x, x ∈ [ex_call ex_small; ex_call ex_large; ex_call ex_large; ex_call ex_large] -> present key x) -> key ∈ out) /\
    (0 <= 2 -> 2 ^ 2 <= len [ex_call ex_small; ex_call ex_large; ex_call ex_large; ex_call ex_large] -> finished = true).
Proof.
  assert (Hs : represents ex_hash ex_key ex_small (list_to_map ex_keys)).
  { apply (ex_built 20); [lia|lia|]. vm_cast_no_check (@eq_refl (panics (Index MemoryMode)) (Ok ex_small)). }
  assert (Hl : represents ex_hash ex_key ex_large (list_to_map ex_keys)).
  { apply (ex_built 40); [lia|lia|]. vm_cast_no_check (@eq_refl (panics (Index MemoryMode)) (Ok ex_large)). }
  apply (scan_guarantee ex_hash ex_key 2); [lia|].
  assert (Hsh : shape ex_small 1) by (by apply ex_shape).
  assert (Hlh : shape ex_large 2) by (by apply ex_shape).
  exists 1. split; [lia|]. split; [done|]. split; [done|].
  do 3 (exists 2; split; [lia|]; split; [done|]; split; [done|]). exact I.
Defined.

End Scan.
