(* ===== verification/Swar.v ===== *)
(** * Decimal parsing ([crates/inf-simd/src/swar.rs])

    The first eight digits of an integer prefix are recognised and folded in
    one 64-bit word. The file models the routine on words, and shows that it is
    a plain left-to-right decimal reader: [swar_parse_int] returns the signed
    value of the leading digits and their number, or [None] when there is no
    digit, when the value leaves [i64], or when there are more than nineteen
    digits. *)

From S2P Require Import Prelude Group16.

Module Swar.
Import Group16.

(** ** The routine *)

Definition ASCII_ZERO_BROADCAST : Z := 0x3030303030303030.
Definition DIGIT_OVERFLOW_BIAS : Z := 0x7676767676767676.
Definition BYTE_HIGH_BITS : Z := 0x8080808080808080.
Definition EVEN_BYTE_MASK : Z := 0x00FF00FF00FF00FF.
Definition EVEN_HALFWORD_MASK : Z := 0x0000FFFF0000FFFF.
Definition LOW_U32_MASK : Z := 0x00000000FFFFFFFF.
Definition NON_DIGIT_SENTINEL : byte := ":"%byte.
Definition I64_MIN_MAGNITUDE : Z := 0x7FFFFFFFFFFFFFFF + 1.
Definition MAX_I64_DIGITS : Z := 19.

(** [first_chunk::<8>] or the bytes padded with the sentinel. *)
Definition load_padded_chunk (buf : list byte) : Z :=
  match get_range buf 0 8 with
  | Some chunk => le_val chunk
  | None => le_val (buf ++ replicate (8 - length buf) NON_DIGIT_SENTINEL)
  end.

Definition leading_digit_count (digit_values : Z) : Z :=
  let invalid :=
    Z.land (Z.lor digit_values (wrap 64 (digit_values + DIGIT_OVERFLOW_BIAS))) BYTE_HIGH_BITS in
  if invalid =? 0 then 8 else Z.shiftr (trailing_zeros invalid) 3.

Definition valid_byte_mask (digit_count : Z) : Z :=
  if digit_count =? 0 then 0
  else if digit_count =? 8 then U64_MAX
  else Z.shiftl 1 (digit_count * 8) - 1.

Definition parse_chunk_value (digit_values digit_count : Z) : Z :=
  let mask := valid_byte_mask digit_count in
  let aligned := wrap 64 (Z.shiftl (Z.land digit_values mask) ((8 - digit_count) * 8)) in
  let even := Z.land aligned EVEN_BYTE_MASK in
  let odd := Z.land (Z.shiftr aligned 8) EVEN_BYTE_MASK in
  let pairs := wrap 64 (even * 10 + odd) in
  let low_pairs := Z.land pairs EVEN_HALFWORD_MASK in
  let high_pairs := Z.land (Z.shiftr pairs 16) EVEN_HALFWORD_MASK in
  let quads := wrap 64 (low_pairs * 100 + high_pairs) in
  let low_quad := Z.land quads LOW_U32_MASK in
  let high_quad := Z.shiftr quads 32 in
  wrap 64 (low_quad * 10000 + high_quad).

Definition checked_mul (w a b : Z) : option Z := if a * b <? 2 ^ w then Some (a * b) else None.

(** The [while consumed < buf.len()] loop; [rest] is [buf[consumed..]]. *)
Fixpoint prefix_loop (rest : list byte) (value consumed : Z) : option (Z * Z) :=
  match rest with
  | [] => Some (value, consumed)
  | b :: rest =>
      let digit := wrap 8 (u8 b - 48) in
      if 9 <? digit then Some (value, consumed)
      else if consumed =? MAX_I64_DIGITS then None
      else
        value ← checked_mul 64 value 10;
        value ← checked_add 64 value digit;
        prefix_loop rest value (consumed + 1)
  end.

Definition parse_unsigned_prefix (buf : list byte) : option (Z * Z) :=
  let word := load_padded_chunk buf in
  let digit_values := wrap 64 (word - ASCII_ZERO_BROADCAST) in
  let digit_count := leading_digit_count digit_values in
  if digit_count =? 0 then None
  else
    let value := parse_chunk_value digit_values digit_count in
    if digit_count <? 8 then Some (value, digit_count)
    else prefix_loop (drop 8 buf) value 8.

(** [i64::try_from] of a [u64]. *)
Definition to_i64 (m : Z) : option Z := if m <? 2 ^ 63 then Some m else None.

Definition swar_parse_int (buf : list byte) : option (Z * Z) :=
  match buf with
  | [] => None
  | first :: _ =>
      let negative := bool_decide (first = "-"%byte) in
      let explicit_plus := bool_decide (first = "+"%byte) in
      let sign_len := Z.b2z (negative || explicit_plus) in
      '(magnitude, digit_len) ← parse_unsigned_prefix (drop (Z.to_nat sign_len) buf);
      let consumed := sign_len + digit_len in
      if negative then
        if magnitude =? I64_MIN_MAGNITUDE then Some (- 2 ^ 63, consumed)
        else value ← to_i64 magnitude; Some (- value, consumed)
      else value ← to_i64 magnitude; Some (value, consumed)
  end.

(** ** The reference reader *)

Definition is_digit (b : byte) : bool := (48 <=? u8 b) && (u8 b <=? 57).
Fixpoint leading_digits (l : list byte) : list byte :=
  match l with [] => [] | b :: l => if is_digit b then b :: leading_digits l else [] end.
Definition dec_step (v : Z) (b : byte) : Z := 10 * v + (u8 b - 48).
Definition decimal (ds : list byte) : Z := foldl dec_step 0 ds.
Definition sign_len (l : list byte) : nat :=
  match l with b :: _ => if bool_decide (b = "-"%byte \/ b = "+"%byte) then 1 else 0 | [] => 0 end.
Definition signed (l : list byte) (v : Z) : Z :=
  match l with b :: _ => if bool_decide (b = "-"%byte) then - v else v | [] => v end.

(** Sign, digits, value in [i64]. *)
Definition scalar_parse_int (buf : list byte) : option (Z * Z) :=
  let ds := leading_digits (drop (sign_len buf) buf) in
  let v := signed buf (decimal ds) in
  if (len ds =? 0) || negb ((- 2 ^ 63 <=? v) && (v <? 2 ^ 63)) then None
  else Some (v, Z.of_nat (sign_len buf) + len ds).

(** ** Words as little-endian lanes *)

Lemma lane_bits w a b i : 0 <= w -> 0 <= a < 2 ^ w -> 0 <= i ->
  Z.testbit (a + 2 ^ w * b) i = if i <? w then Z.testbit a i else Z.testbit b (i - w).
Proof.
  intros Hw Ha Hi. replace (a + 2 ^ w * b) with (Z.lor a (Z.shiftl b w)) by (rewrite lor_shiftl; lia).
  rewrite Z.lor_spec, Z.shiftl_spec by lia. destruct (Z.ltb_spec i w).
  - by rewrite (Z.testbit_neg_r b), orb_false_r by lia.
  - destruct (Z.eq_dec a 0) as [-> |]; [by rewrite Z.bits_0|].
    rewrite (Z.bits_above_log2 a); [done|lia|].
    assert (Z.log2 a < w) by (apply Z.log2_lt_pow2; lia). lia.
Qed.

Lemma land_range w a b : 0 <= w -> 0 <= a < 2 ^ w -> 0 <= b -> 0 <= Z.land a b < 2 ^ w.
Proof.
  intros Hw Ha Hb. assert (0 <= Z.land a b) by (apply Z.land_nonneg; lia). split; [done|].
  apply Z.bounded_iff_bits_nonneg; [done..|]. intros i Hi. rewrite Z.land_spec.
  by rewrite (proj1 (Z.bounded_iff_bits_nonneg w a Hw ltac:(lia)) ltac:(lia) i Hi).
Qed.

Lemma lor_range w a b : 0 <= w -> 0 <= a < 2 ^ w -> 0 <= b < 2 ^ w -> 0 <= Z.lor a b < 2 ^ w.
Proof.
  intros Hw Ha Hb. assert (0 <= Z.lor a b) by (apply Z.lor_nonneg; lia). split; [done|].
  apply Z.bounded_iff_bits_nonneg; [done..|]. intros i Hi. rewrite Z.lor_spec.
  rewrite (proj1 (Z.bounded_iff_bits_nonneg w a Hw ltac:(lia)) ltac:(lia) i Hi).
  by rewrite (proj1 (Z.bounded_iff_bits_nonneg w b Hw ltac:(lia)) ltac:(lia) i Hi).
Qed.

Lemma land_lane w a b m n : 0 <= w -> 0 <= a < 2 ^ w -> 0 <= m < 2 ^ w ->
  Z.land (a + 2 ^ w * b) (m + 2 ^ w * n) = Z.land a m + 2 ^ w * Z.land b n.
Proof.
  intros Hw Ha Hm. apply Z.bits_inj'. intros i Hi.
  pose proof (land_range w a m Hw Ha ltac:(lia)).
  rewrite Z.land_spec, !lane_bits by lia. by destruct (i <? w); rewrite Z.land_spec.
Qed.

Lemma lor_lane w a b m n : 0 <= w -> 0 <= a < 2 ^ w -> 0 <= m < 2 ^ w ->
  Z.lor (a + 2 ^ w * b) (m + 2 ^ w * n) = Z.lor a m + 2 ^ w * Z.lor b n.
Proof.
  intros Hw Ha Hm. apply Z.bits_inj'. intros i Hi.
  pose proof (lor_range w a m Hw Ha ltac:(lia)).
  rewrite Z.lor_spec, !lane_bits by lia. by destruct (i <? w); rewrite Z.lor_spec.
Qed.

Lemma mod_lane k a v : 0 <= a < 256 -> 0 <= k ->
  (a + 256 * v) mod 256 ^ (1 + k) = a + 256 * (v mod 256 ^ k).
Proof.
  intros Ha Hk. rewrite Z.pow_add_r, Z.pow_1_r by lia.
  assert (0 < 256 ^ k) by (apply Z.pow_pos_nonneg; lia).
  rewrite Z.rem_mul_r by lia. rewrite (Z.mul_comm 256 v), Z.mod_add, Z.div_add by lia.
  by rewrite (Z.mod_small a), (Z.div_small a) by lia.
Qed.


(** ** Recognising the digits *)

(** [k] copies of the byte [c]; the digit values and the invalid mask of [k] lanes. *)
Fixpoint rep (k : nat) (c : Z) : Z := match k with O => 0 | S k => c + 256 * rep k c end.
Definition dv (l : list byte) : Z := (le_val l - rep (length l) 0x30) mod 256 ^ len l.
Definition invalid (l : list byte) : Z :=
  Z.land (Z.lor (dv l) ((dv l + rep (length l) 0x76) mod 256 ^ len l)) (rep (length l) 0x80).
Fixpoint lanes_of (ds : list byte) : Z :=
  match ds with [] => 0 | b :: ds => (u8 b - 48) + 256 * lanes_of ds end.

Lemma le_val_lane b l : le_val (b :: l) = u8 b + 256 * le_val l.
Proof. done. Qed.

Lemma is_digit_range b : is_digit b = true <-> 48 <= u8 b <= 57.
Proof. unfold is_digit. rewrite andb_true_iff, !Z.leb_le. lia. Qed.

(** The low lane after the borrow, and what is left of the others. *)
Lemma dv_cons b l : dv (b :: l) =
  (u8 b - 48) mod 256 + 256 * ((le_val l - rep (length l) 0x30 + (u8 b - 48) / 256) mod 256 ^ len l).
Proof.
  unfold dv. rewrite le_val_lane, len_cons. cbn [length rep].
  pose proof (Z.mod_pos_bound (u8 b - 48) 256 ltac:(lia)).
  rewrite <- mod_lane by (try apply len_nonneg; lia). f_equal.
  pose proof (Z.div_mod (u8 b - 48) 256 ltac:(lia)). lia.
Qed.

Lemma dv_digit b l : is_digit b = true -> dv (b :: l) = (u8 b - 48) + 256 * dv l.
Proof.
  rewrite is_digit_range. intros H. rewrite dv_cons, Z.mod_small, Z.div_small by lia.
  unfold dv. by rewrite Z.add_0_r.
Qed.

Lemma pow256 k : 0 <= k -> 256 ^ k = 2 ^ (8 * k).
Proof. intros. by rewrite Z.pow_mul_r by lia. Qed.

Lemma invalid_lane d e r s t : 0 <= d < 256 -> 0 <= e < 256 ->
  Z.land (Z.lor (d + 256 * r) (e + 256 * s)) (0x80 + 256 * t) =
  Z.land (Z.lor d e) 0x80 + 256 * Z.land (Z.lor r s) t.
Proof.
  intros. change 256 with (2 ^ 8). pose proof (lor_range 8 d e ltac:(lia) ltac:(lia) ltac:(lia)).
  rewrite lor_lane, land_lane by lia. done.
Qed.

Lemma digit_lane_valid d : 0 <= d <= 9 -> Z.land (Z.lor d (d + 0x76)) 0x80 = 0.
Proof.
  intros. assert (exists n, (n < 10)%nat /\ d = Z.of_nat n) as (n & Hn & ->)
    by (exists (Z.to_nat d); lia).
  do 10 (destruct n; [done|]). lia.
Qed.

Lemma nondigit_lane_invalid b : is_digit b = false ->
  Z.land (Z.lor ((u8 b - 48) mod 256) (((u8 b - 48) mod 256 + 0x76) mod 256)) 0x80 = 0x80.
Proof. destruct b; vm_compute; congruence. Qed.

Lemma invalid_digit b l : is_digit b = true -> invalid (b :: l) = 256 * invalid l.
Proof.
  intros Hb. unfold invalid. rewrite dv_digit, len_cons by done. cbn [length rep].
  apply is_digit_range in Hb.
  replace (u8 b - 48 + 256 * dv l + (0x76 + 256 * rep (length l) 0x76))
    with ((u8 b - 48 + 0x76) + 256 * (dv l + rep (length l) 0x76)) by lia.
  rewrite mod_lane by (try apply len_nonneg; lia).
  by rewrite invalid_lane, digit_lane_valid by lia.
Qed.

Lemma invalid_nondigit b l : is_digit b = false -> exists m, 0 <= m /\ invalid (b :: l) = 0x80 + 256 * m.
Proof.
  intros Hb. unfold invalid. rewrite dv_cons, len_cons. cbn [length rep].
  pose proof (nondigit_lane_invalid b Hb) as Hn.
  set (d := (u8 b - 48) mod 256) in *. assert (0 <= d < 256) by (apply Z.mod_pos_bound; lia).
  set (r := _ mod 256 ^ len l). pose proof (len_nonneg l).
  assert (0 <= r) by (apply Z.mod_pos_bound, Z.pow_pos_nonneg; lia).
  pose proof (Z.div_mod (d + 0x76) 256 ltac:(lia)).
  pose proof (Z.mod_pos_bound (d + 0x76) 256 ltac:(lia)).
  replace (d + 256 * r + (0x76 + 256 * rep (length l) 0x76))
    with ((d + 0x76) mod 256 + 256 * (r + rep (length l) 0x76 + (d + 0x76) / 256)) by lia.
  rewrite mod_lane, invalid_lane, Hn by (done || lia).
  eexists; split; [|done]. apply Z.land_nonneg. left. apply Z.lor_nonneg. split; [done|].
  apply Z.mod_pos_bound, Z.pow_pos_nonneg; lia.
Qed.

Lemma leading_digits_split l : exists rest, l = leading_digits l ++ rest /\
  Forall (fun b => is_digit b = true) (leading_digits l) /\
  match rest with [] => True | b :: _ => is_digit b = false end.
Proof.
  induction l as [|b l (rest & E & Hd & Hr)]; [by exists []|]. cbn [leading_digits].
  destruct (is_digit b) eqn:Hb.
  - exists rest. split_and!; [cbn; by f_equal|by constructor|done].
  - exists (b :: l). by repeat split.
Qed.

Lemma dv_digits ds rest : Forall (fun b => is_digit b = true) ds ->
  dv (ds ++ rest) = lanes_of ds + 256 ^ len ds * dv rest.
Proof.
  induction 1 as [|b ds Hb Hds IH]; [change (256 ^ len (@nil byte)) with 1; cbn [app lanes_of]; lia|].
  change ((b :: ds) ++ rest) with (b :: (ds ++ rest)). rewrite dv_digit, IH, len_cons by done.
  cbn [lanes_of]. rewrite Z.pow_add_r, Z.pow_1_r by lens. lia.
Qed.

Lemma invalid_digits ds rest : Forall (fun b => is_digit b = true) ds ->
  invalid (ds ++ rest) = 256 ^ len ds * invalid rest.
Proof.
  induction 1 as [|b ds Hb Hds IH]; [change (256 ^ len (@nil byte)) with 1; cbn [app]; lia|].
  change ((b :: ds) ++ rest) with (b :: (ds ++ rest)). rewrite invalid_digit, IH, len_cons by done.
  rewrite Z.pow_add_r, Z.pow_1_r by lens. lia.
Qed.

Lemma leading_digit_count_spec l : length l = 8%nat ->
  leading_digit_count (dv l) = len (leading_digits l).
Proof.
  intros Hl. unfold leading_digit_count.
  assert (Z.land (Z.lor (dv l) (wrap 64 (dv l + DIGIT_OVERFLOW_BIAS))) BYTE_HIGH_BITS = invalid l) as ->.
  { unfold invalid, len. by rewrite Hl. }
  destruct (leading_digits_split l) as (rest & E & Hd & Hr).
  assert (invalid l = 256 ^ len (leading_digits l) * invalid rest) as ->
    by (rewrite <- invalid_digits, <- E; done).
  pose proof (f_equal len E) as Hlen. rewrite len_app in Hlen.
  assert (0 < 256 ^ len (leading_digits l)) by (apply Z.pow_pos_nonneg; lens).
  destruct rest as [|b rest].
  { change (invalid []) with 0. rewrite Z.mul_0_r. cbn [Z.eqb].
    rewrite len_nil in Hlen. unfold len in *. lia. }
  destruct (invalid_nondigit b rest Hr) as (m & Hm & ->).
  rewrite (proj2 (Z.eqb_neq _ _)) by lia.
  replace (_ * _) with (2 ^ (8 * len (leading_digits l) + 7) * (1 + 2 * m)).
  2:{ rewrite Z.pow_add_r, <- pow256 by lens. lia. }
  rewrite trailing_zeros_shift, Z.shiftr_div_pow2 by lens. change (2 ^ 3) with 8.
  rewrite (Z.mul_comm 8), Z.div_add_l by lia. change (7 / 8) with 0. lia.
Qed.

(** ** Folding the digits *)

(** Eight digits in the lanes of a word, the first in the lowest. *)
Definition lanes8 (e : list Z) : Z := foldr (fun d r => d + 256 * r) 0 e.

Lemma land_even w a b c m n : 0 <= w -> 0 <= a < 2 ^ w -> 0 <= b < 2 ^ w -> m = 2 ^ w - 1 ->
  Z.land (a + 2 ^ w * (b + 2 ^ w * c)) (m + 2 ^ w * (0 + 2 ^ w * n)) =
  a + 2 ^ w * (0 + 2 ^ w * Z.land c n).
Proof.
  intros Hw Ha Hb ->. rewrite land_lane by lia. rewrite land_lane by lia.
  rewrite Z.land_0_r. f_equal. rewrite <- (Z.mod_small a (2 ^ w)) at 2 by lia.
  rewrite <- Z.land_ones by lia. by rewrite Z.ones_equiv, Z.sub_1_r.
Qed.

Lemma even_bytes e0 e1 e2 e3 e4 e5 e6 e7 : Forall (fun d => 0 <= d < 256) [e0;e1;e2;e3;e4;e5;e6;e7] ->
  Z.land (lanes8 [e0;e1;e2;e3;e4;e5;e6;e7]) EVEN_BYTE_MASK = lanes8 [e0;0;e2;0;e4;0;e6;0].
Proof.
  rewrite !Forall_cons_iff. intros H. cbn [lanes8 foldr].
  change EVEN_BYTE_MASK with (255 + 2^8 * (0 + 2^8 * (255 + 2^8 * (0 + 2^8 *
    (255 + 2^8 * (0 + 2^8 * (255 + 2^8 * (0 + 2^8 * 0)))))))).
  change 256 with (2 ^ 8) in *. by rewrite !land_even by lia.
Qed.

Lemma even_halves p0 p1 p2 p3 : Forall (fun d => 0 <= d < 2 ^ 16) [p0;p1;p2;p3] ->
  Z.land (p0 + 2^16 * (p1 + 2^16 * (p2 + 2^16 * (p3 + 2^16 * 0)))) EVEN_HALFWORD_MASK =
  p0 + 2^16 * (0 + 2^16 * (p2 + 2^16 * 0)).
Proof.
  rewrite !Forall_cons_iff. intros H.
  change EVEN_HALFWORD_MASK with (65535 + 2^16 * (0 + 2^16 * (65535 + 2^16 * (0 + 2^16 * 0)))).
  by rewrite !land_even by lia.
Qed.

Lemma shiftr_low w a b : 0 <= w -> 0 <= a < 2 ^ w -> Z.shiftr (a + 2 ^ w * b) w = b.
Proof.
  intros. rewrite Z.shiftr_div_pow2, (Z.mul_comm (2 ^ w)), Z.div_add, Z.div_small by lia. lia.
Qed.

Ltac all_lanes := repeat (constructor; [lia|]); constructor.

Lemma fold_pairs v n e0 e1 e2 e3 e4 e5 e6 e7 :
  Forall (fun d => 0 <= d <= 9) [e0;e1;e2;e3;e4;e5;e6;e7] ->
  wrap 64 (Z.shiftl (Z.land v (valid_byte_mask n)) ((8 - n) * 8)) = lanes8 [e0;e1;e2;e3;e4;e5;e6;e7] ->
  parse_chunk_value v n = ((((((e0*10+e1)*10+e2)*10+e3)*10+e4)*10+e5)*10+e6)*10+e7.
Proof.
  rewrite !Forall_cons_iff. intros H E. unfold parse_chunk_value. rewrite E.
  rewrite even_bytes by all_lanes.
  replace (Z.shiftr _ 8) with (lanes8 [e1;e2;e3;e4;e5;e6;e7;0])
    by (symmetry; apply (shiftr_low 8); lia).
  rewrite even_bytes by all_lanes.
  set (p0 := e0*10+e1). set (p1 := e2*10+e3). set (p2 := e4*10+e5). set (p3 := e6*10+e7).
  replace (lanes8 _ * 10 + lanes8 _) with (p0 + 2^16 * (p1 + 2^16 * (p2 + 2^16 * (p3 + 2^16 * 0)))).
  2:{ unfold lanes8, p0, p1, p2, p3. cbn [foldr]. lia. }
  rewrite (wrap_id 64 (p0 + _)) by (unfold in_u; lia).
  rewrite even_halves, (shiftr_low 16) by (lia || all_lanes).
  replace (Z.land (p1 + _) EVEN_HALFWORD_MASK) with (p1 + 2^16 * (0 + 2^16 * (p3 + 2^16 * 0))).
  2:{ rewrite <- (even_halves p1 p2 p3 0) by all_lanes. done. }
  set (q0 := p0 * 100 + p1). set (q1 := p2 * 100 + p3).
  replace ((p0 + _) * 100 + _) with (q0 + 2^32 * q1) by (unfold q0, q1; lia).
  rewrite (wrap_id 64 (q0 + _)) by (unfold in_u; lia).
  rewrite (shiftr_low 32) by lia.
  change LOW_U32_MASK with (Z.ones 32). rewrite Z.land_ones by lia.
  rewrite (Z.mul_comm (2^32)), Z.mod_add, Z.mod_small by lia.
  rewrite wrap_id by (unfold in_u; lia). lia.
Qed.

Notation all_digits := (Forall (fun b => is_digit b = true)).

Lemma lanes_of_lanes8 ds : lanes_of ds = lanes8 ((fun b => u8 b - 48) <$> ds).
Proof. induction ds as [|b ds IH]; [done|]. cbn [lanes_of fmap list_fmap lanes8 foldr]. by rewrite IH. Qed.

Lemma lanes_of_bound ds : all_digits ds -> 0 <= lanes_of ds < 256 ^ len ds.
Proof.
  induction 1 as [|b ds Hb%is_digit_range Hds IH]; [done|].
  cbn [lanes_of]. rewrite len_cons, Z.pow_add_r, Z.pow_1_r by lens. lia.
Qed.

Lemma lanes8_shift k e : lanes8 (replicate k 0 ++ e) = 256 ^ Z.of_nat k * lanes8 e.
Proof.
  induction k as [|k IH]; [cbn [replicate app]; change (256 ^ Z.of_nat 0) with 1; lia|].
  cbn [replicate app lanes8 foldr]. unfold lanes8 in IH. rewrite IH.
  rewrite Nat2Z.inj_succ, Z.pow_succ_r by lia. unfold lanes8. lia.
Qed.

Lemma valid_byte_mask_ones n : 1 <= n <= 8 -> valid_byte_mask n = Z.ones (8 * n).
Proof.
  intros. assert (n = 1 \/ n = 2 \/ n = 3 \/ n = 4 \/ n = 5 \/ n = 6 \/ n = 7 \/ n = 8) by lia.
  naive_solver.
Qed.

Lemma aligned_lanes ds rest : all_digits ds -> 1 <= len ds <= 8 ->
  wrap 64 (Z.shiftl (Z.land (dv (ds ++ rest)) (valid_byte_mask (len ds))) ((8 - len ds) * 8)) =
  lanes8 (replicate (8 - length ds) 0 ++ ((fun b => u8 b - 48) <$> ds)).
Proof.
  intros Hd Hn. pose proof (lanes_of_bound ds Hd) as Hb.
  rewrite valid_byte_mask_ones, Z.land_ones, dv_digits, <- pow256 by (done || lia).
  rewrite (Z.mul_comm (256 ^ _)), Z.mod_add, Z.mod_small by lia.
  rewrite Z.shiftl_mul_pow2, (Z.mul_comm _ 8), <- pow256 by lia.
  rewrite lanes8_shift, <- lanes_of_lanes8.
  assert (Z.of_nat (8 - length ds) = 8 - len ds) as -> by (unfold len in *; lia).
  rewrite wrap_id; [lia|]. unfold in_u.
  assert (2 ^ 64 = 256 ^ len ds * 256 ^ (8 - len ds)) as ->.
  { rewrite <- Z.pow_add_r by lia. by replace (len ds + (8 - len ds)) with 8 by lia. }
  assert (0 < 256 ^ (8 - len ds)) by (apply Z.pow_pos_nonneg; lia). nia.
Qed.

Definition dec10 (a d : Z) : Z := a * 10 + d.

Lemma parse_chunk_fold v n e : length e = 8%nat -> Forall (fun d => 0 <= d <= 9) e ->
  wrap 64 (Z.shiftl (Z.land v (valid_byte_mask n)) ((8 - n) * 8)) = lanes8 e ->
  parse_chunk_value v n = foldl dec10 0 e.
Proof.
  intros Hl He E. do 8 (destruct e as [|? e]; [done|]). destruct e; [|done].
  rewrite (fold_pairs v n _ _ _ _ _ _ _ _ He E). cbn [foldl]. unfold dec10. lia.
Qed.

Lemma foldl_decimal ds : forall a, foldl dec10 a ((fun b => u8 b - 48) <$> ds) = foldl dec_step a ds.
Proof.
  induction ds as [|b ds IH]; intros a; [done|]. cbn [fmap list_fmap foldl]. unfold fmap in IH.
  rewrite IH. unfold dec10, dec_step. f_equal. lia.
Qed.

Lemma parse_chunk_value_spec ds rest : all_digits ds -> 1 <= len ds <= 8 ->
  parse_chunk_value (dv (ds ++ rest)) (len ds) = decimal ds.
Proof.
  intros Hd Hn. rewrite (fun H1 H2 => parse_chunk_fold _ _ _ H1 H2 (aligned_lanes ds rest Hd Hn)).
  - rewrite foldl_app, foldl_decimal. unfold decimal. f_equal.
    generalize (8 - length ds)%nat as k. induction k; [done|]. by cbn [replicate foldl].
  - rewrite length_app, length_replicate, length_fmap. unfold len in *. lia.
  - apply Forall_app_2; [by apply Forall_replicate|]. apply Forall_fmap.
    eapply Forall_impl; [|exact Hd]. intros b Hb%is_digit_range. cbn. lia.
Qed.

(** ** The unsigned prefix *)

Lemma load_padded_chunk_spec buf : exists l, length l = 8%nat /\
  wrap 64 (load_padded_chunk buf - ASCII_ZERO_BROADCAST) = dv l /\
  leading_digits l = take 8 (leading_digits buf) /\
  ((8 <= length buf)%nat -> l = take 8 buf).
Proof.
  unfold load_padded_chunk, get_range. destruct (Z.leb_spec 8 (len buf)) as [H|H].
  - exists (take 8 buf). cbn -[take drop]. rewrite drop_0.
    assert (length (take 8 buf) = 8%nat) as E by (rewrite length_take; unfold len in H; lia).
    split_and!; [done| | |done].
    + unfold dv, len. by rewrite E.
    + generalize 8%nat as k. clear. intros k. revert buf.
      induction k as [|k IH]; intros [|b buf]; try done. cbn [take leading_digits].
      destruct (is_digit b); [|done]. cbn [take]. by rewrite IH.
  - rewrite andb_false_r.
    exists (buf ++ replicate (8 - length buf) NON_DIGIT_SENTINEL).
    assert (length (buf ++ replicate (8 - length buf) NON_DIGIT_SENTINEL) = 8%nat) as E
      by (rewrite length_app, length_replicate; unfold len in H; lia).
    split_and!; [done|unfold dv, len; by rewrite E| |unfold len in H; lia].
    assert (leading_digits (buf ++ replicate (8 - length buf) NON_DIGIT_SENTINEL) = leading_digits buf) as ->.
    + clear. generalize (8 - length buf)%nat as k. intros k.
      induction buf as [|b buf IH]; [by destruct k|]. cbn [app leading_digits].
      destruct (is_digit b); [|done]. by rewrite IH.
    + rewrite take_ge; [done|]. destruct (leading_digits_split buf) as (r & Er & _).
      apply (f_equal length) in Er. rewrite length_app in Er. unfold len in H. lia.
Qed.

Lemma leading_digits_app ds l : all_digits ds -> leading_digits (ds ++ l) = ds ++ leading_digits l.
Proof.
  induction 1 as [|b ds Hb Hds IH]; [done|]. cbn [app leading_digits]. by rewrite Hb, IH.
Qed.

Lemma decimal_app ds es : decimal (ds ++ es) = foldl dec_step (decimal ds) es.
Proof. apply foldl_app. Qed.

Lemma dec_step_bound ds : all_digits ds -> forall v, 0 <= v -> 
  v * 10 ^ len ds <= foldl dec_step v ds < (v + 1) * 10 ^ len ds.
Proof.
  induction 1 as [|b ds Hb%is_digit_range Hds IH]; intros v Hv; [change (10 ^ len (@nil byte)) with 1; cbn; lia|].
  cbn [foldl]. specialize (IH (dec_step v b)). rewrite len_cons, Z.pow_add_r, Z.pow_1_r by lens.
  unfold dec_step in *. assert (0 < 10 ^ len ds) by (apply Z.pow_pos_nonneg; lens). nia.
Qed.

Lemma decimal_bound ds : all_digits ds -> 0 <= decimal ds < 10 ^ len ds.
Proof. intros H. pose proof (dec_step_bound ds H 0 ltac:(lia)). unfold decimal. lia. Qed.

Lemma wrap_digit b : is_digit b = negb (9 <? wrap 8 (u8 b - 48)).
Proof. by destruct b. Qed.

(** Eight digits read; the loop reads the rest, up to the nineteenth. *)
Lemma prefix_loop_spec rest : forall ds, all_digits ds -> len ds <= 19 ->
  prefix_loop rest (decimal ds) (len ds) =
  if 19 <? len (ds ++ leading_digits rest) then None
  else Some (decimal (ds ++ leading_digits rest), len (ds ++ leading_digits rest)).
Proof.
  induction rest as [|b rest IH]; intros ds Hd Hn; cbn [prefix_loop leading_digits].
  { rewrite app_nil_r. by rewrite (proj2 (Z.ltb_ge _ _)). }
  destruct (is_digit b) eqn:Hb; pose proof Hb as Hw; rewrite wrap_digit in Hw.
  2:{ apply negb_false_iff in Hw. rewrite Hw, app_nil_r. by rewrite (proj2 (Z.ltb_ge _ _)). }
  apply negb_true_iff in Hw. rewrite Hw. unfold MAX_I64_DIGITS.
  apply is_digit_range in Hb as Hr. rewrite (wrap_id 8) by (unfold in_u; lia).
  destruct (Z.eqb_spec (len ds) 19) as [H19|H19].
  { by rewrite (proj2 (Z.ltb_lt _ _)) by lens. }
  pose proof (decimal_bound ds Hd) as Hv.
  assert (10 ^ len ds <= 10 ^ 18) by (apply Z.pow_le_mono_r; lia).
  unfold checked_mul, checked_add. rewrite (proj2 (Z.ltb_lt _ _)) by lia. cbn [mbind option_bind].
  rewrite (proj2 (Z.ltb_lt _ _)) by lia. cbn [mbind option_bind].
  assert (Some (decimal ds * 10 + (u8 b - 48)) = Some (decimal (ds ++ [b]))) as [= ->].
  { rewrite decimal_app. cbn. unfold dec_step. f_equal. lia. }
  replace (len ds + 1) with (len (ds ++ [b])) by lens.
  rewrite IH, <- app_assoc by (lens || (apply Forall_app_2; [done|by constructor])). done.
Qed.

Lemma parse_unsigned_prefix_spec buf :
  parse_unsigned_prefix buf =
  let ds := leading_digits buf in
  if (len ds =? 0) || (19 <? len ds) then None else Some (decimal ds, len ds).
Proof.
  unfold parse_unsigned_prefix.
  destruct (load_padded_chunk_spec buf) as (l & Hl & -> & Eds & Hfull).
  rewrite leading_digit_count_spec by done.
  destruct (leading_digits_split buf) as (r & Er & Hd & _).
  destruct (leading_digits_split l) as (rl & El & Hdl & _).
  pose proof (f_equal len Eds) as Hlen. rewrite len_take in Hlen.
  pose proof (len_nonneg (leading_digits buf)). cbv zeta.
  destruct (Z.eqb_spec (len (leading_digits l)) 0) as [H0|H0].
  { rewrite (proj2 (Z.eqb_eq (len (leading_digits buf)) 0)) by lia. done. }
  rewrite (proj2 (Z.eqb_neq (len (leading_digits buf)) 0)) by lia. cbn [orb].
  assert (parse_chunk_value (dv l) (len (leading_digits l)) = decimal (leading_digits l)) as ->.
  { rewrite El at 1. apply parse_chunk_value_spec; [done|lens]. }
  destruct (Z.ltb_spec (len (leading_digits l)) 8).
  { rewrite (proj2 (Z.ltb_ge _ _)) by lia. rewrite Eds, take_ge by (unfold len in *; lia). done. }
  assert (len (leading_digits l) = 8) as H8 by lens.
  replace (prefix_loop _ _ 8) with
    (prefix_loop (drop 8 buf) (decimal (leading_digits l)) (len (leading_digits l))) by by rewrite H8.
  rewrite prefix_loop_spec by (done || lia).
  enough (leading_digits l ++ leading_digits (drop 8 buf) = leading_digits buf) as -> by done.
  assert (rl = []) as -> by (apply len_0_nil; apply (f_equal len) in El; unfold len in *; rewrite length_app in El; lia).
  rewrite app_nil_r in El. rewrite <- leading_digits_app, <- El, Hfull, take_drop by (done ||
    (apply (f_equal len) in Er; unfold len in *; rewrite length_app in Er; lia)). done.
Qed.

(** ** The signed routine *)

Definition digits_of (buf : list byte) : list byte := leading_digits (drop (sign_len buf) buf).

Lemma swar_parse_int_spec buf :
  swar_parse_int buf = if 19 <? len (digits_of buf) then None else scalar_parse_int buf.
Proof.
  destruct buf as [|b buf]; [done|]. unfold swar_parse_int, scalar_parse_int, digits_of.
  replace (Z.b2z (bool_decide (b = "-"%byte) || bool_decide (b = "+"%byte)))
    with (Z.of_nat (sign_len (b :: buf))).
  2:{ cbn [sign_len]. case_bool_decide; repeat case_bool_decide; naive_solver. }
  rewrite Nat2Z.id, parse_unsigned_prefix_spec. cbv zeta.
  destruct (leading_digits_split (drop (sign_len (b :: buf)) (b :: buf))) as (r & _ & Hd & _).
  set (ds := leading_digits _) in *. pose proof (decimal_bound ds Hd).
  destruct (Z.eqb_spec (len ds) 0) as [->|H0]; [done|]. cbn [orb].
  destruct (Z.ltb_spec 19 (len ds)); [done|]. cbn [mbind option_bind].
  cbn [signed]. unfold to_i64, I64_MIN_MAGNITUDE. case_bool_decide.
  - destruct (Z.eqb_spec (decimal ds) (0x7FFFFFFFFFFFFFFF + 1)) as [->|]; [done|].
    destruct (Z.ltb_spec (decimal ds) (2 ^ 63)), (Z.leb_spec (- 2 ^ 63) (- decimal ds)),
      (Z.ltb_spec (- decimal ds) (2 ^ 63)); try lia; done.
  - destruct (Z.ltb_spec (decimal ds) (2 ^ 63)), (Z.leb_spec (- 2 ^ 63) (decimal ds));
      try lia; done.
Qed.

(** C32. The word-at-a-time integer reader is the digit-at-a-time one: on every
    buffer whose sign is followed by at most nineteen digits, it returns the
    signed decimal value of those digits and the number of bytes read, and it
    returns [None] exactly when there is no digit or the value is outside
    [i64]; with a twentieth digit it returns [None]. *)
Theorem swar_reads_decimal (buf : list byte) :
  swar_parse_int buf = if 19 <? len (digits_of buf) then None else scalar_parse_int buf.
Proof. apply swar_parse_int_spec. Qed.

(** A twentieth digit is refused even when the digits before it are zeros, so
    the value is far inside [i64] and the plain reader returns it. *)
Lemma twenty_digits_refused :
  let one := replicate 19 "0"%byte ++ ["1"%byte] in
  swar_parse_int one = None /\ scalar_parse_int one = Some (1, 20).
Proof. by split. Qed.

End Swar.
