(* ===== verification/Crlf.v ===== *)
(** * CRLF scanning ([crates/inf-simd/src/crlf.rs])

    The position table with its inline, overflow and wide storage, the scalar
    scan, the SSE2, AVX2 and NEON scans over the documented meaning of their
    intrinsics, the binary search and the single-line [find_crlf]. Every scan
    yields the table of all CRLF offsets of the buffer in ascending order;
    [next_after] and [find_crlf] return the first one at or after an offset. *)

From Stdlib Require Import Sorting.Sorted.
From S2P Require Import Prelude Group16.

Module Crlf.
Import Group16.

Definition INLINE_CAPACITY : Z := 64.
Definition SMALL_BUFFER_MAX : Z := 65535.
Definition NO_PENDING_CR : Z := U64_MAX.
Definition CR : byte := x0d.
Definition LF : byte := x0a.

(** ** The position table *)

Record SmallCrlfPositions := mkSmall { inline : list Z; slen : Z; overflow : option (list Z) }.
Inductive CrlfPositions :=
  | Small (small : SmallCrlfPositions)
  | Large (positions : list Z).

Definition small_default : SmallCrlfPositions := mkSmall (replicate 64 0) 0 None.
Definition with_buffer_len (buffer_len : Z) : CrlfPositions :=
  if SMALL_BUFFER_MAX <? buffer_len then Large [] else Small small_default.
Definition plen (ps : CrlfPositions) : Z :=
  match ps with Small small => slen small | Large positions => len positions end.
Definition inline_len (small : SmallCrlfPositions) : Z := Z.min (slen small) INLINE_CAPACITY.

Definition position_at (ps : CrlfPositions) (index : Z) : panics Z :=
  match ps with
  | Small small =>
      let inline_len := inline_len small in
      if index <? inline_len then expect (get (inline small) index)
      else expect (overflow ← overflow small; get overflow (index - inline_len))
  | Large positions => expect (get positions index)
  end.

Definition pget (ps : CrlfPositions) (index : Z) : panics (option Z) :=
  if index <? plen ps then p ← position_at ps index; mret (Some p) else mret None.

Definition small_push (small : SmallCrlfPositions) (position : Z) : panics SmallCrlfPositions :=
  if slen small <? INLINE_CAPACITY then
    inline ← set_at (inline small) (slen small) position;
    mret (mkSmall inline (wrap 16 (slen small + 1)) (overflow small))
  else
    mret (mkSmall (inline small) (wrap 16 (slen small + 1))
            (Some (default [] (overflow small) ++ [position]))).

Definition push (ps : CrlfPositions) (position : Z) : panics CrlfPositions :=
  match ps with
  | Small small =>
      p ← expect (if position <? 2 ^ 16 then Some position else None);
      small ← small_push small p; mret (Small small)
  | Large positions =>
      p ← expect (if position <? 2 ^ 32 then Some position else None);
      mret (Large (positions ++ [p]))
  end.

(** [while low < high]; the interval at least halves, so its length is fuel enough. *)
Fixpoint search (fuel : nat) (ps : CrlfPositions) (offset low high : Z) : panics Z :=
  if low <? high then
    match fuel with
    | O => Panic
    | S fuel =>
        let mid := low + Z.shiftr (high - low) 1 in
        p ← position_at ps mid;
        if p <? offset then search fuel ps offset (mid + 1) high
        else search fuel ps offset low mid
    end
  else mret low.
Definition next_after (ps : CrlfPositions) (offset : Z) : panics (option Z) :=
  low ← search (Z.to_nat (plen ps)) ps offset 0 (plen ps);
  pget ps low.

(** The table read out in order. *)
Definition iter (ps : CrlfPositions) : panics (list Z) :=
  foldr (fun i acc => p ← position_at ps i; l ← acc; mret (p :: l)) (mret []) (seqZ 0 (plen ps)).

(** ** Scans *)

Definition byte_at (buf : list byte) (i : Z) : panics byte := expect (get buf i).
(** [buf[offset] == b'\r' && buf[offset + 1] == b'\n']. *)
Definition pair_at (buf : list byte) (offset : Z) : panics bool :=
  a ← byte_at buf offset;
  if bool_decide (a = CR) then b ← byte_at buf (offset + 1); mret (bool_decide (b = LF))
  else mret false.
Fixpoint scan_range (n : nat) (buf : list byte) (offset : Z) (ps : CrlfPositions)
  : panics CrlfPositions :=
  match n with
  | O => mret ps
  | S n =>
      c ← pair_at buf offset;
      ps ← (if c : bool then push ps offset else mret ps);
      scan_range n buf (offset + 1) ps
  end.

Definition scalar_scan_crlf (buf : list byte) : panics CrlfPositions :=
  let positions := with_buffer_len (len buf) in
  if len buf <? 2 then mret positions
  else scan_range (Z.to_nat (len buf - 1)) buf 0 positions.

(** The positions found so far and the carriage return at the end of the last
    chunk, if it ended with one. *)
Notation scan_state := (CrlfPositions * Z)%type.

Definition resolve_pending_cr (buf : list byte) (next_index : Z) (st : scan_state)
  : panics scan_state :=
  let '(ps, pending_cr) := st in
  if pending_cr =? NO_PENDING_CR then mret st
  else
    hit ← (if next_index <? len buf then b ← byte_at buf next_index; mret (bool_decide (b = LF))
           else mret false);
    ps ← (if hit : bool then push ps pending_cr else mret ps);
    mret (ps, NO_PENDING_CR).

(** The body of both mask loops: a matched lane is a CRLF when a line feed
    follows; the last lane's byte is in the next chunk. *)
Definition visit_lane (buf : list byte) (base width lane : Z) (st : scan_state)
  : panics (scan_state + False) :=
  let '(ps, pending_cr) := st in
  let offset := base + lane in
  if lane + 1 <? width then
    b ← byte_at buf (offset + 1);
    ps ← (if bool_decide (b = LF) then push ps offset else mret ps);
    mret (inl (ps, pending_cr))
  else mret (inl (ps, offset)).

Definition left_loop {S} (r : S + False) : S := match r with inl s => s | inr f => match f with end end.

Definition process_cr_mask (buf : list byte) (base width mask : Z) (st : scan_state)
  : panics scan_state :=
  st ← resolve_pending_cr buf base st;
  r ← each_bit (Z.to_nat width) mask (visit_lane buf base width) st;
  mret (left_loop r).

Fixpoint nibble_loop (fuel : nat) (buf : list byte) (base width mask : Z) (st : scan_state)
  : panics scan_state :=
  if mask =? 0 then mret st
  else
    match fuel with
    | O => Panic
    | S fuel =>
        let lane := Z.shiftr (trailing_zeros mask) 2 in
        r ← visit_lane buf base width lane st;
        nibble_loop fuel buf base width (Z.ldiff mask (Z.shiftl 0xF (lane * 4))) (left_loop r)
    end.
Definition process_cr_nibble_mask (buf : list byte) (base width mask : Z) (st : scan_state)
  : panics scan_state :=
  st ← resolve_pending_cr buf base st;
  nibble_loop (Z.to_nat width) buf base width mask st.

Definition scan_tail (buf : list byte) (start : Z) (st : scan_state) : panics CrlfPositions :=
  '(ps, _) ← resolve_pending_cr buf start st;
  let last := sat_sub (len buf) 1 in
  if last <=? start then mret ps
  else scan_range (Z.to_nat (last - start)) buf start ps.

(** [while offset + CHUNK <= buf.len()]: [step] turns a chunk into a mask and
    processes it. *)
Fixpoint chunk_loop (fuel : nat) (buf : list byte) (CHUNK : Z)
    (step : list Z -> Z -> scan_state -> panics scan_state) (offset : Z) (st : scan_state)
  : panics (Z * scan_state) :=
  if offset + CHUNK <=? len buf then
    match fuel with
    | O => Panic
    | S fuel =>
        chunk ← slice buf offset (offset + CHUNK);
        st ← step (u8 <$> chunk) offset st;
        chunk_loop fuel buf CHUNK step (offset + CHUNK) st
    end
  else mret (offset, st).

Definition scan_chunks (buf : list byte) (CHUNK : Z)
    (step : list Z -> Z -> scan_state -> panics scan_state) : panics CrlfPositions :=
  let positions := with_buffer_len (len buf) in
  '(offset, st) ← chunk_loop (length buf) buf CHUNK step 0 (positions, NO_PENDING_CR);
  scan_tail buf offset st.

Definition sse2_scan_crlf (buf : list byte) : panics CrlfPositions :=
  scan_chunks buf 16 (fun chunk offset st =>
    process_cr_mask buf offset 16 (mm_movemask_epi8 (mm_cmpeq_epi8 chunk (u8 CR))) st).
(** [_mm256_cmpeq_epi8] and [_mm256_movemask_epi8] are the same functions on 32 lanes. *)
Definition avx2_scan_crlf (buf : list byte) : panics CrlfPositions :=
  scan_chunks buf 32 (fun chunk offset st =>
    process_cr_mask buf offset 32 (mm_movemask_epi8 (mm_cmpeq_epi8 chunk (u8 CR))) st).
Definition neon_scan_crlf (buf : list byte) : panics CrlfPositions :=
  scan_chunks buf 16 (fun chunk offset st =>
    process_cr_nibble_mask buf offset 16 (vshrn_u64 (vceqq_u8 chunk (u8 CR))) st).

(** The target the dispatch selects; [x86_scan_crlf] reads the CPU's level once. *)
Inductive target := X86_64 (avx2 : bool) | Aarch64 | Other.
Definition x86_scan_crlf (avx2 : bool) (buf : list byte) : panics CrlfPositions :=
  if avx2 then avx2_scan_crlf buf else sse2_scan_crlf buf.
Definition scan_crlf (t : target) (buf : list byte) : panics CrlfPositions :=
  if len buf <? 2 then mret (with_buffer_len (len buf))
  else
    match t with
    | X86_64 avx2 => x86_scan_crlf avx2 buf
    | Aarch64 => neon_scan_crlf buf
    | Other => scalar_scan_crlf buf
    end.

(** [iter().position(|&b| b == b'\r')]. *)
Fixpoint position_cr (l : list byte) : option Z :=
  match l with
  | [] => None
  | b :: l => if bool_decide (b = CR) then Some 0 else i ← position_cr l; Some (1 + i)
  end.
Fixpoint find_loop (fuel : nat) (buf : list byte) (offset : Z) : panics (option Z) :=
  if offset + 1 <? len buf then
    match fuel with
    | O => Panic
    | S fuel =>
        window ← slice buf offset (len buf - 1);
        match position_cr window with
        | None => mret None
        | Some rel =>
            let at_ := offset + rel in
            b ← byte_at buf (at_ + 1);
            if bool_decide (b = LF) then mret (Some at_) else find_loop fuel buf (at_ + 1)
        end
    end
  else mret None.
Definition find_crlf (buf : list byte) (from : Z) : panics (option Z) :=
  if len buf <=? from then mret None else find_loop (length buf) buf from.

(** ** Specification *)

Definition is_cr (buf : list byte) (i : Z) : bool := bool_decide (get buf i = Some CR).
Definition is_lf (buf : list byte) (i : Z) : bool := bool_decide (get buf i = Some LF).
Definition crlf_at (buf : list byte) (i : Z) : bool := is_cr buf i && is_lf buf (i + 1).
(** The CRLF offsets below [k], ascending; all of them. *)
Definition upto (buf : list byte) (k : Z) : list Z := filter (fun i => crlf_at buf i = true) (seqZ 0 k).
Definition crlfs (buf : list byte) : list Z := upto buf (len buf).

(** ** The table holds a list *)

Definition items (ps : CrlfPositions) : list Z :=
  match ps with
  | Small s => take (Z.to_nat (inline_len s)) (inline s) ++ default [] (overflow s)
  | Large l => l
  end.
Definition table_ok (n : Z) (ps : CrlfPositions) : Prop :=
  match ps with
  | Small s => n <= SMALL_BUFFER_MAX /\ length (inline s) = 64%nat /\ 0 <= slen s < 2 ^ 16 /\
      len (default [] (overflow s)) = Z.max 0 (slen s - INLINE_CAPACITY)
  | Large _ => n <= 2 ^ 32
  end.
(** A table for a buffer of [n] bytes that stores [l]. *)
Definition holds (n : Z) (ps : CrlfPositions) (l : list Z) : Prop := table_ok n ps /\ items ps = l.

Lemma plen_items n ps l : holds n ps l -> plen ps = len l.
Proof.
  intros [Hok <-]. destruct ps as [s|]; [|done]. destruct Hok as (_ & Hi & Hs & Ho).
  cbn [plen items]. rewrite len_app, len_take, Ho. unfold inline_len, INLINE_CAPACITY, len in *. lia.
Qed.

Lemma with_buffer_len_holds n : n <= 2 ^ 32 -> holds n (with_buffer_len n) [].
Proof.
  intros Hn. unfold with_buffer_len. destruct (Z.ltb_spec SMALL_BUFFER_MAX n); by split.
Qed.

Lemma push_holds n ps l p : holds n ps l -> len l <= p < n ->
  exists ps', push ps p = Ok ps' /\ holds n ps' (l ++ [p]).
Proof.
  intros H Hp. pose proof (plen_items _ _ _ H) as Hlen. destruct H as [Hok <-].
  destruct ps as [s|q]; cbn [push].
  - destruct Hok as (Hn & Hi & Hs & Ho). unfold SMALL_BUFFER_MAX, INLINE_CAPACITY in *. cbn [plen] in Hlen.
    pose proof (len_nonneg (items (Small s))).
    rewrite (proj2 (Z.ltb_lt p _)) by lia. ok_step. unfold small_push, INLINE_CAPACITY.
    rewrite wrap_id by (unfold in_u; lia). destruct (Z.ltb_spec (slen s) 64).
    + rewrite set_at_Ok by (unfold len; lia). ok_step. eexists; split; [done|].
      assert (default [] (overflow s) = []) as E by (apply len_0_nil; lia).
      split; cbn [table_ok items inline slen overflow inline_len].
      { rewrite length_insert, Ho. unfold SMALL_BUFFER_MAX, INLINE_CAPACITY. lia. }
      unfold inline_len, INLINE_CAPACITY. cbn [slen]. rewrite E, !app_nil_r.
      rewrite Z.min_l, (Z.min_l (slen s)) by lia.
      replace (Z.to_nat (slen s + 1)) with (S (Z.to_nat (slen s))) by lia.
      rewrite (take_S_r _ _ p), take_insert_ge by (lia || apply list_lookup_insert_eq; lia). done.
    + eexists; split; [done|]. split; cbn [table_ok items inline slen overflow default].
      { unfold SMALL_BUFFER_MAX, INLINE_CAPACITY. cbn [from_option id]. rewrite len_app, Ho. change (len [p]) with 1. lia. }
      unfold inline_len, INLINE_CAPACITY. cbn [slen]. rewrite Z.min_r, (Z.min_r (slen s)) by lia.
      cbn. by rewrite app_assoc.
  - cbn in Hok. rewrite (proj2 (Z.ltb_lt p _)) by lia. ok_step. by eexists.
Qed.

Lemma position_at_holds n ps l i p : holds n ps l -> get l i = Some p -> position_at ps i = Ok p.
Proof.
  intros H Hg. pose proof (plen_items _ _ _ H) as Hlen. destruct H as [Hok <-].
  apply get_lt in Hg as Hi. destruct ps as [s|q]; cbn [position_at].
  - destruct Hok as (_ & Hil & Hs & Ho). cbn [plen items] in *. unfold inline_len, INLINE_CAPACITY in *.
    apply get_Some in Hg as [_ Hg].
    assert (Hlt : length (take (Z.to_nat (slen s `min` 64)) (inline s)) = Z.to_nat (slen s `min` 64))
      by (rewrite length_take; lia).
    destruct (Z.ltb_spec i (slen s `min` 64)).
    + rewrite lookup_app_l, lookup_take_lt in Hg by lia.
      by rewrite (proj2 (get_Some _ _ _) (conj (proj1 Hi) Hg)).
    + rewrite lookup_app_r, Hlt in Hg by lia.
      destruct (overflow s) as [o|]; [|cbn in Ho; change (len (@nil Z)) with 0 in *; lia].
      cbn [mbind option_bind default] in *.
      rewrite (proj2 (get_Some o (i - slen s `min` 64) p)); [done|]. split; [lia|].
      rewrite <- Hg. cbn [id]. f_equal. lia.
  - cbn [items] in Hg. by rewrite Hg.
Qed.

Lemma iter_holds n ps l : holds n ps l -> iter ps = Ok l.
Proof.
  intros H. unfold iter. rewrite (plen_items _ _ _ H).
  assert (forall m k, Forall2 (fun i p => get l i = Some p) m k ->
    foldr (fun i acc => p ← position_at ps i; l ← acc; mret (p :: l)) (mret []) m = Ok k) as Hf.
  { induction 1 as [|i p m k Hg Hm IH]; [done|]. cbn [foldr]. rewrite IH.
    by rewrite (position_at_holds _ _ _ _ _ H Hg). }
  apply Hf, Forall2_same_length_lookup_2.
  { rewrite length_seqZ. unfold len. lia. }
  intros i x y Hx Hy. apply lookup_seqZ in Hx as [-> ?]. apply get_Some. split; [lia|].
  by replace (Z.to_nat (0 + Z.of_nat i)) with i by lia.
Qed.

(** ** The scans fill the table *)

Lemma byte_at_in buf i : 0 <= i < len buf -> exists b, get buf i = Some b /\ byte_at buf i = Ok b.
Proof. intros [b Hb]%get_in. exists b. unfold byte_at. by rewrite Hb. Qed.

Lemma upto_0 buf : upto buf 0 = [].
Proof. done. Qed.

Lemma upto_S buf k : 0 <= k -> upto buf (k + 1) = upto buf k ++ if crlf_at buf k then [k] else [].
Proof.
  intros Hk. unfold upto. rewrite seqZ_app by lia. rewrite list.filter_app. f_equal.
  rewrite (seqZ_cons (0 + k)), (seqZ_nil _ (Z.pred 1)), list.filter_cons, list.filter_nil, Z.add_0_l by lia.
  destruct (crlf_at buf k); by case_decide.
Qed.

Lemma len_upto buf k : 0 <= k -> len (upto buf k) <= k.
Proof.
  intros Hk. unfold upto, len. pose proof (list.length_filter (fun i => crlf_at buf i = true) (seqZ 0 k)).
  rewrite length_seqZ in *. lia.
Qed.

Lemma crlf_at_end buf k : len buf - 1 <= k -> crlf_at buf k = false.
Proof.
  intros Hk. unfold crlf_at, is_lf. apply andb_false_intro2, bool_decide_eq_false.
  intros H%get_lt. lia.
Qed.

Lemma upto_end buf k : len buf - 1 <= k <= len buf -> 0 <= k -> upto buf k = crlfs buf.
Proof.
  intros Hk H0. unfold crlfs. destruct (Z.eq_dec k (len buf)) as [-> |]; [done|].
  replace (len buf) with (k + 1) by lia.
  rewrite upto_S, crlf_at_end, app_nil_r by lia. done.
Qed.

(** The table of the offsets below [k]. *)
Notation scanned buf ps k := (holds (len buf) ps (upto buf k)).

(** Deciding the pair at [k] extends the table by one offset. *)
Lemma push_if buf ps k : scanned buf ps k -> 0 <= k < len buf ->
  exists ps', (if crlf_at buf k then push ps k else mret ps) = Ok ps' /\ scanned buf ps' (k + 1).
Proof.
  intros H Hk. rewrite upto_S by lia. destruct (crlf_at buf k).
  - apply (push_holds _ _ _ k) in H; [done|]. pose proof (len_upto buf k). lia.
  - rewrite app_nil_r. by eexists.
Qed.

Lemma pair_at_spec buf k : 0 <= k -> k + 1 < len buf -> pair_at buf k = Ok (crlf_at buf k).
Proof.
  intros H0 H. unfold pair_at, crlf_at, is_cr, is_lf.
  destruct (byte_at_in buf k) as (a & Ga & ->); [lia|].
  destruct (byte_at_in buf (k + 1)) as (b & Gb & ->); [lia|].
  rewrite Ga, Gb. ok_step. rewrite (bool_decide_ext (Some a = Some CR) (a = CR)) by naive_solver.
  rewrite (bool_decide_ext (Some b = Some LF) (b = LF)) by naive_solver.
  by destruct (bool_decide (a = CR)).
Qed.

Lemma scan_range_spec buf n : forall k ps, scanned buf ps k -> 0 <= k -> k + Z.of_nat n < len buf ->
  exists ps', scan_range n buf k ps = Ok ps' /\ scanned buf ps' (k + Z.of_nat n).
Proof.
  induction n as [|n IH]; intros k ps H Hk Hn; cbn [scan_range].
  { exists ps. by rewrite Z.add_0_r. }
  rewrite pair_at_spec by lia. ok_step. destruct (push_if buf ps k H) as (ps' & -> & H'); [lia|].
  ok_step. destruct (IH (k + 1) ps' H') as (ps'' & -> & H''); [lia..|].
  exists ps''. split; [done|]. by replace (k + Z.of_nat (S n)) with (k + 1 + Z.of_nat n) by lia.
Qed.

(** Between chunks: everything below the last byte is decided, and a carriage
    return in that byte is pending. *)
Definition between (buf : list byte) (base : Z) (st : scan_state) : Prop :=
  scanned buf st.1 (Z.max 0 (base - 1)) /\
  st.2 = if is_cr buf (base - 1) then base - 1 else NO_PENDING_CR.
(** Inside a chunk, [k] lanes done, the last lane of the chunk excepted. *)
Definition inside (buf : list byte) (k : Z) (st : scan_state) : Prop :=
  scanned buf st.1 k /\ st.2 = NO_PENDING_CR.

Lemma is_cr_lt buf i : is_cr buf i = true -> 0 <= i < len buf.
Proof. intros H%bool_decide_eq_true. by apply get_lt in H. Qed.

Lemma resolve_spec buf base st : len buf <= 2 ^ 32 -> between buf base st -> 0 <= base <= len buf ->
  exists st', resolve_pending_cr buf base st = Ok st' /\ inside buf base st'.
Proof.
  destruct st as [ps pend]. intros Hmax [H E] Hb. cbn [fst snd] in *. unfold resolve_pending_cr.
  destruct (is_cr buf (base - 1)) eqn:Hcr.
  - apply is_cr_lt in Hcr as Hr. rewrite E, (proj2 (Z.eqb_neq _ _)) by (unfold NO_PENDING_CR, U64_MAX; lia).
    rewrite Z.max_r in H by lia. destruct (push_if buf ps (base - 1) H) as (ps' & E' & H'); [lia|].
    unfold crlf_at in E'. rewrite Hcr, Z.sub_add in E'. rewrite Z.sub_add in H'. cbn [andb] in E'.
    assert ((if base <? len buf then b ← byte_at buf base; mret (bool_decide (b = LF)) else mret false)
      = @Ok False bool (is_lf buf base)) as ->.
    { unfold is_lf. destruct (Z.ltb_spec base (len buf)).
      - destruct (byte_at_in buf base) as (b & -> & ->); [lia|]. ok_step. f_equal.
        apply bool_decide_ext. naive_solver.
      - rewrite bool_decide_false; [done|]. intros Hg%get_lt. lia. }
    ok_step. rewrite E'. ok_step. by eexists.
  - rewrite E. change (NO_PENDING_CR =? NO_PENDING_CR) with true. eexists; split; [done|]. split; [|done].
    cbn [fst]. destruct (Z.eq_dec base 0) as [-> |]; [done|]. rewrite Z.max_r in H by lia.
    replace base with (base - 1 + 1) by lia. rewrite upto_S by lia. unfold crlf_at.
    by rewrite Hcr, app_nil_r.
Qed.

(** The lanes of a chunk from [j] on: which of them hold a carriage return. *)
Definition cr_lanes (buf : list byte) (base j : Z) (bs : list bool) : Prop :=
  forall i b, bs !! i = Some b -> b = is_cr buf (base + j + Z.of_nat i).

Lemma cr_lanes_cons buf base j b bs : cr_lanes buf base j (b :: bs) ->
  b = is_cr buf (base + j) /\ cr_lanes buf base (j + 1) bs.
Proof.
  intros H. split.
  - rewrite (H 0%nat b) by done. f_equal. lia.
  - intros i b' Hi. rewrite (H (S i) b' Hi). f_equal. lia.
Qed.

Lemma visit_lane_in buf base width lane ps pend : lane + 1 < width -> 0 <= base + lane + 1 < len buf ->
  visit_lane buf base width lane (ps, pend) =
  (ps ← (if is_lf buf (base + lane + 1) then push ps (base + lane) else mret ps);
   mret (inl (ps, pend))).
Proof.
  intros Hl Hb. unfold visit_lane, is_lf. rewrite (proj2 (Z.ltb_lt _ _)) by done.
  destruct (byte_at_in buf (base + lane + 1)) as (c & -> & ->); [lia|]. ok_step.
  by rewrite (bool_decide_ext (Some c = Some LF) (c = LF)) by naive_solver.
Qed.

Lemma visit_lanes buf base width bs : base + width <= len buf -> 0 <= base ->
  forall j st, cr_lanes buf base j bs -> 0 <= j < width -> len bs = width - j ->
  inside buf (base + j) st ->
  exists st', visit (trues j bs) (visit_lane buf base width) st = Ok (inl st') /\
    between buf (base + width) st'.
Proof.
  intros Hw H0. induction bs as [|b bs IH]; intros j [ps pend] Hbs Hj Hlen [H E]; [lens|].
  cbn [fst snd] in *. subst pend. apply cr_lanes_cons in Hbs as [Hb Hbs]. rewrite len_cons in Hlen.
  destruct (Z.ltb_spec (j + 1) width) as [Hin|Hlast].
  - destruct (push_if buf ps (base + j) H) as (ps' & E' & H'); [lia|].
    rewrite <- Z.add_assoc in H'. destruct b; cbn [trues visit].
    + rewrite visit_lane_in by lia. unfold crlf_at in E'. rewrite <- Hb in E'. cbn [andb] in E'.
      rewrite E'. ok_step. apply IH; done || lia.
    + unfold crlf_at in E'. rewrite <- Hb in E'. injection E' as ->. apply IH; done || lia.
  - assert (bs = []) as -> by (apply len_0_nil; lens). assert (base + j = base + width - 1) as Ej by lia.
    rewrite Ej in *. destruct b; cbn [trues visit].
    + unfold visit_lane. rewrite (proj2 (Z.ltb_ge (j + 1) width)) by lia. ok_step. eexists; split; [done|].
      split; cbn [fst snd]; [by rewrite Z.max_r by lia|]. rewrite <- Hb. lia.
    + eexists; split; [done|]. split; cbn [fst snd]; [by rewrite Z.max_r by lia|]. by rewrite <- Hb.
Qed.

(** Which bytes of a chunk the comparison marks. *)
Definition marks (chunk : list byte) : list bool := (fun b => u8 b =? u8 CR) <$> chunk.

Lemma marks_lanes buf base width chunk : slice (E:=False) buf base (base + width) = Ok chunk ->
  cr_lanes buf base 0 (marks chunk) /\ len (marks chunk) = width.
Proof.
  intros (x & z & -> & <- & Hl)%slice_Ok. split; [|unfold marks; rewrite len_fmap; lia].
  intros i b Hi. unfold marks in Hi. apply list_lookup_fmap_Some in Hi as (c & -> & Hc).
  unfold is_cr, get. rewrite (proj2 (Z.leb_le 0 _)) by lens.
  replace (Z.to_nat _) with (length x + i)%nat by (unfold len; lia).
  rewrite lookup_app_r, Nat.add_sub', lookup_app_l by (lia || by eapply lookup_lt_Some).
  rewrite Hc. destruct (Z.eqb_spec (u8 c) (u8 CR)) as [Hu|Hu].
  - apply u8_inj in Hu as ->. by rewrite bool_decide_true.
  - rewrite bool_decide_false; [done|]. congruence.
Qed.

(** A mask step that visits the marked lanes does a chunk. *)
Definition chunk_step_ok (buf : list byte) (width : Z)
    (step : list Z -> Z -> scan_state -> panics scan_state) : Prop :=
  forall base st chunk st', slice (E:=False) buf base (base + width) = Ok chunk ->
    resolve_pending_cr buf base st = Ok st' ->
    step (u8 <$> chunk) base st =
    (r ← visit (trues 0 (marks chunk)) (visit_lane buf base width) st'; mret (left_loop r)).

Lemma chunk_step_between buf width step base st chunk :
  len buf <= 2 ^ 32 -> chunk_step_ok buf width step -> 0 < width -> 0 <= base ->
  slice (E:=False) buf base (base + width) = Ok chunk -> between buf base st ->
  exists st', step (u8 <$> chunk) base st = Ok st' /\ between buf (base + width) st'.
Proof.
  intros Hmax Hstep Hw Hb Hs Hst. pose proof (proj1 (slice_Ok _ _ _ _) Hs) as (x & z & E & Hx & Hy).
  assert (base + width <= len buf) by (subst buf; lens).
  destruct (resolve_spec buf base st Hmax Hst) as (st1 & E1 & H1); [lia|].
  rewrite (Hstep _ _ _ _ Hs E1). destruct (marks_lanes _ _ _ _ Hs) as [Hm Hl].
  destruct (visit_lanes buf base width (marks chunk) ltac:(lia) Hb 0 st1 Hm) as (st2 & -> & H2);
    [lia|lia|by rewrite Z.add_0_r|].
  ok_step. by eexists.
Qed.

Lemma chunk_loop_spec buf width step : len buf <= 2 ^ 32 -> chunk_step_ok buf width step -> 0 < width ->
  forall fuel offset st, 0 <= offset <= len buf -> len buf - offset <= Z.of_nat fuel ->
  between buf offset st ->
  exists offset' st', chunk_loop fuel buf width step offset st = Ok (offset', st') /\
    between buf offset' st' /\ 0 <= offset' <= len buf.
Proof.
  intros Hmax Hstep Hw. induction fuel as [|fuel IH]; intros offset st Ho Hf Hst; cbn [chunk_loop].
  all: destruct (Z.leb_spec (offset + width) (len buf)); [|by eexists _, _]; try lia.
  destruct (slice (E:=False) buf offset (offset + width)) as [chunk| |] eqn:Hs; [|done|].
  2:{ by apply slice_not_Panic in Hs; try lia. }
  ok_step. destruct (chunk_step_between _ _ _ _ _ _ Hmax Hstep Hw (proj1 Ho) Hs Hst) as (st' & -> & H').
  ok_step. apply IH; done || lia.
Qed.

Lemma scan_tail_spec buf offset st : len buf <= 2 ^ 32 -> between buf offset st -> 0 <= offset <= len buf ->
  exists ps, scan_tail buf offset st = Ok ps /\ holds (len buf) ps (crlfs buf).
Proof.
  intros Hmax Hst Ho. unfold scan_tail, sat_sub.
  destruct (resolve_spec buf offset st Hmax Hst Ho) as ([ps pend] & -> & [H _]). ok_step.
  destruct (Z.leb_spec (Z.max 0 (len buf - 1)) offset).
  - exists ps. split; [done|]. rewrite upto_end in H by lia. done.
  - destruct (scan_range_spec buf (Z.to_nat (Z.max 0 (len buf - 1) - offset)) offset ps H)
      as (ps' & -> & H'); [lia..|]. exists ps'. split; [done|]. rewrite upto_end in H' by lia. done.
Qed.

Lemma scan_chunks_spec buf width step : len buf <= 2 ^ 32 -> chunk_step_ok buf width step -> 0 < width ->
  exists ps, scan_chunks buf width step = Ok ps /\ holds (len buf) ps (crlfs buf).
Proof.
  intros Hmax Hstep Hw. unfold scan_chunks.
  destruct (chunk_loop_spec buf width step Hmax Hstep Hw (length buf) 0
    (with_buffer_len (len buf), NO_PENDING_CR)) as (o & st & -> & H & Ho); [lens|unfold len; lia| |].
  { split; [by apply with_buffer_len_holds|]. cbn [snd]. destruct (is_cr buf (0 - 1)) eqn:E; [|done].
    apply is_cr_lt in E. lia. }
  ok_step. by apply scan_tail_spec.
Qed.

(** ** The kernels visit the marked lanes *)

Lemma mask_step_ok buf width : 0 <= width ->
  chunk_step_ok buf width (fun chunk offset st =>
    process_cr_mask buf offset width (mm_movemask_epi8 (mm_cmpeq_epi8 chunk (u8 CR))) st).
Proof.
  intros Hw base st chunk st' Hs E. destruct (marks_lanes _ _ _ _ Hs) as [_ Hl].
  unfold process_cr_mask. rewrite E. ok_step. unfold mm_cmpeq_epi8.
  rewrite (movemask_spec (fun b => b =? u8 CR)) by (intros b _; by destruct (b =? u8 CR)).
  rewrite <- list_fmap_compose. fold (marks chunk).
  rewrite <- (each_bit_shift _ (marks chunk) (Z.to_nat width) 0);
    [|unfold len in Hl; lia|done]. by rewrite Z.mul_1_l.
Qed.

(** One nibble per lane. *)
Fixpoint nibbles (bs : list bool) : Z :=
  match bs with [] => 0 | b :: bs => 15 * Z.b2z b + 16 * nibbles bs end.

Lemma nibbles_nonneg bs : 0 <= nibbles bs.
Proof. induction bs as [|b bs IH]; cbn [nibbles]; [lia|]. destruct b; cbn; lia. Qed.

Lemma vshrn_nibbles n bs : length bs = (2 * n)%nat -> vshrn_u64 (lanes bs) = nibbles bs.
Proof.
  revert bs. induction n as [|n IH]; intros bs Hl.
  { by destruct bs. }
  destruct bs as [|b0 [|b1 bs]]; try (cbn in Hl; lia).
  rewrite vshrn_step, IH by (cbn in Hl; lia). cbn [nibbles]. lia.
Qed.

Lemma clear_nibble i m : 0 <= i -> 0 <= m ->
  Z.ldiff (2 ^ (4 * i) * (15 + 16 * m)) (Z.shiftl 0xF (i * 4)) = 2 ^ (4 * (i + 1)) * m.
Proof.
  intros Hi Hm. rewrite (Z.mul_comm i 4). rewrite <- (Z.mul_comm (15 + 16 * m)).
  rewrite <- (Z.shiftl_mul_pow2 (15 + 16 * m)) by lia. rewrite <- Z.shiftl_ldiff.
  replace (Z.ldiff (15 + 16 * m) 15) with (m * 2 ^ 4).
  - rewrite Z.shiftl_mul_pow2, <- Z.mul_assoc, <- Z.pow_add_r by lia.
    replace (4 + 4 * i) with (4 * (i + 1)) by lia. lia.
  - change 15 with (Z.ones 4) at 2. rewrite Z.ldiff_ones_r by lia.
    rewrite Z.shiftl_mul_pow2, Z.shiftr_div_pow2 by lia. change (2 ^ 4) with 16.
    rewrite (Z.mul_comm 16 m), Z.div_add by lia. done.
Qed.

Lemma nibble_loop_visit buf base width bs : forall fuel i st, (length bs <= fuel)%nat -> 0 <= i ->
  nibble_loop fuel buf base width (2 ^ (4 * i) * nibbles bs) st =
  (r ← visit (trues i bs) (visit_lane buf base width) st; mret (left_loop r)).
Proof.
  induction bs as [|b bs IH]; intros fuel i st Hf Hi; cbn [nibbles trues length] in *.
  { rewrite Z.mul_0_r. by destruct fuel. }
  pose proof (nibbles_nonneg bs) as Hm. destruct b; cbn [Z.b2z].
  - destruct fuel as [|fuel]; [lia|]. cbn [nibble_loop visit].
    rewrite (proj2 (Z.eqb_neq _ 0)) by (apply Z.neq_mul_0; lia).
    change (15 * 1) with 15.
    assert (Z.shiftr (trailing_zeros (2 ^ (4 * i) * (15 + 16 * nibbles bs))) 2 = i) as ->.
    { replace (15 + 16 * nibbles bs) with (1 + 2 * (7 + 8 * nibbles bs)) by lia.
      rewrite trailing_zeros_shift, Z.shiftr_div_pow2 by lia. change (2 ^ 2) with 4.
      rewrite Z.mul_comm. apply Z.div_mul. lia. }
    destruct (visit_lane buf base width i st) as [[st'|[]]| |]; ok_step; try done.
    cbn [left_loop]. rewrite clear_nibble by lia. apply IH; lia.
  - replace (2 ^ (4 * i) * (15 * 0 + 16 * nibbles bs)) with (2 ^ (4 * (i + 1)) * nibbles bs).
    + apply IH; lia.
    + replace (4 * (i + 1)) with (4 * i + 4) by lia. rewrite Z.pow_add_r by lia. lia.
Qed.

Lemma nibble_step_ok buf :
  chunk_step_ok buf 16 (fun chunk offset st =>
    process_cr_nibble_mask buf offset 16 (vshrn_u64 (vceqq_u8 chunk (u8 CR))) st).
Proof.
  intros base st chunk st' Hs E. destruct (marks_lanes _ _ _ _ Hs) as [_ Hl].
  unfold process_cr_nibble_mask. rewrite E. ok_step. unfold vceqq_u8.
  rewrite <- (nibble_loop_visit buf base 16 (marks chunk) (Z.to_nat 16) 0) by (unfold len in Hl; lia).
  rewrite <- (vshrn_nibbles 8), Z.mul_1_l by (unfold len in Hl; lia).
  unfold lanes, marks. by rewrite <- !list_fmap_compose.
Qed.

Lemma scalar_scan_holds buf : len buf <= 2 ^ 32 ->
  exists ps, scalar_scan_crlf buf = Ok ps /\ holds (len buf) ps (crlfs buf).
Proof.
  intros Hmax. unfold scalar_scan_crlf. pose proof (with_buffer_len_holds (len buf) Hmax) as H0.
  rewrite <- (upto_0 buf) in H0. pose proof (len_nonneg buf).
  destruct (Z.ltb_spec (len buf) 2).
  - eexists; split; [done|]. by rewrite <- (upto_end buf (Z.max 0 (len buf - 1))), Z.max_comm by lia;
      destruct (Z.max_spec (len buf - 1) 0) as [[? ->]|[? ->]]; [|replace (len buf - 1) with 0 by lia].
  - destruct (scan_range_spec buf (Z.to_nat (len buf - 1)) 0 _ H0) as (ps & -> & Hps); [lia..|].
    exists ps. split; [done|]. rewrite upto_end in Hps by lia. done.
Qed.

Lemma scan_crlf_holds t buf : len buf <= 2 ^ 32 ->
  exists ps, scan_crlf t buf = Ok ps /\ holds (len buf) ps (crlfs buf).
Proof.
  intros Hmax. unfold scan_crlf. destruct (Z.ltb_spec (len buf) 2) as [H|H].
  { destruct (scalar_scan_holds buf Hmax) as (ps & E & Hps). exists ps. split; [|done].
    unfold scalar_scan_crlf in E. by rewrite (proj2 (Z.ltb_lt _ _) H) in E. }
  destruct t as [[]| |]; cbn [x86_scan_crlf].
  - apply scan_chunks_spec; [done|by apply mask_step_ok|done].
  - apply scan_chunks_spec; [done|by apply mask_step_ok|done].
  - apply scan_chunks_spec; [done|by apply nibble_step_ok|done].
  - by apply scalar_scan_holds.
Qed.

(** ** Searching *)

(** The first CRLF at or after [from]. *)
Definition first_from (buf : list byte) (from : Z) (r : option Z) : Prop :=
  match r with
  | Some i => from <= i /\ crlf_at buf i = true /\ forall k, from <= k < i -> crlf_at buf k = false
  | None => forall k, from <= k -> crlf_at buf k = false
  end.

Lemma first_from_inj buf from r r' : first_from buf from r -> first_from buf from r' -> r = r'.
Proof.
  destruct r as [i|], r' as [j|]; cbn; [|naive_solver congruence..].
  intros (? & Hi & Hi') (? & Hj & Hj').
  destruct (Z.lt_trichotomy i j) as [?|[->|?]]; [|done|].
  - rewrite Hj' in Hi by lia. done.
  - rewrite Hi' in Hj by lia. done.
Qed.

Lemma elem_of_crlfs buf i : i ∈ crlfs buf <-> crlf_at buf i = true.
Proof.
  unfold crlfs, upto. rewrite list_elem_of_filter, elem_of_seqZ. split; [tauto|].
  intros H. split; [done|]. apply andb_true_iff in H as [H%is_cr_lt _]. lia.
Qed.

Lemma sorted_seqZ n : forall a, StronglySorted Z.lt (seqZ a (Z.of_nat n)).
Proof.
  induction n as [|n IH]; intros a; [constructor|]. rewrite seqZ_cons by lia. constructor.
  - replace (Z.pred (Z.of_nat (S n))) with (Z.of_nat n) by lia. apply IH.
  - apply Forall_forall. intros x Hx%list_elem_of_In%elem_of_seqZ. lia.
Qed.

Lemma crlfs_sorted buf : StronglySorted Z.lt (crlfs buf).
Proof.
  unfold crlfs, upto, len. generalize 0 as a. generalize (length buf) as n.
  intros n a. pose proof (sorted_seqZ n a) as H. induction H as [|x l Hl IH Hx]; [constructor|].
  rewrite list.filter_cons. case_decide; [|done]. constructor; [done|].
  rewrite Forall_forall in Hx |- *. intros y Hy%list_elem_of_In. apply list_elem_of_filter in Hy as [_ Hy].
  by apply Hx, list_elem_of_In.
Qed.

Lemma sorted_get l i j x y : StronglySorted Z.lt l -> get l i = Some x -> get l j = Some y -> i < j -> x < y.
Proof.
  intros Hs [Hi Gi]%get_Some [Hj Gj]%get_Some Hij.
  assert (Hab : (Z.to_nat i < Z.to_nat j)%nat) by lia. revert Gi Gj Hab.
  generalize (Z.to_nat i) as a, (Z.to_nat j) as b. clear - Hs.
  induction Hs as [|z l Hs IH Hz]; intros a b Gi Gj Hab; [done|].
  destruct b as [|b]; [lia|]. destruct a as [|a]; cbn in Gi, Gj.
  - injection Gi as ->. rewrite Forall_forall in Hz. by apply Hz, list_elem_of_In, (list_elem_of_lookup_2 _ b).
  - apply (IH a b); done || lia.
Qed.

Lemma search_spec n ps l offset : holds n ps l -> StronglySorted Z.lt l ->
  forall fuel low high, 0 <= low <= high -> high <= len l -> high - low <= Z.of_nat fuel ->
  (forall i p, get l i = Some p -> i < low -> p < offset) ->
  (forall i p, get l i = Some p -> high <= i -> offset <= p) ->
  exists r, search fuel ps offset low high = Ok r /\ 0 <= r <= len l /\
    (forall i p, get l i = Some p -> i < r -> p < offset) /\
    (forall i p, get l i = Some p -> r <= i -> offset <= p).
Proof.
  intros Hh Hs. induction fuel as [|fuel IH]; intros low high Hr Hl Hf Hlo Hhi; cbn [search].
  all: destruct (Z.ltb_spec low high);
    [|exists low; split_and!; [done|lia|lia|done|intros; eapply Hhi; [done|lia]]]; try lia.
  rewrite Z.shiftr_div_pow2 by lia. change (2 ^ 1) with 2.
  pose proof (Z.div_mod (high - low) 2 ltac:(lia)). pose proof (Z.mod_pos_bound (high - low) 2 ltac:(lia)).
  set (mid := low + (high - low) / 2). destruct (get_in l mid) as [p Hp]; [lia|].
  rewrite (position_at_holds _ _ _ _ _ Hh Hp). ok_step. destruct (Z.ltb_spec p offset).
  - apply IH; try lia; [|done]. intros i q Hq Hi. destruct (Z.eq_dec i mid) as [-> |]; [congruence|].
    assert (q < p) by (eapply (sorted_get l i mid); done || lia). lia.
  - apply IH; try lia; [done|]. intros i q Hq Hi. destruct (Z.eq_dec i mid) as [-> |]; [congruence|].
    assert (p < q) by (eapply (sorted_get l mid i); done || lia). lia.
Qed.

Lemma next_after_spec buf ps offset : holds (len buf) ps (crlfs buf) ->
  exists r, next_after ps offset = Ok r /\ first_from buf offset r.
Proof.
  intros Hh. pose proof (crlfs_sorted buf) as Hs. unfold next_after.
  rewrite (plen_items _ _ _ Hh).
  destruct (search_spec _ ps (crlfs buf) offset Hh Hs (Z.to_nat (len (crlfs buf))) 0 (len (crlfs buf)))
    as (r & -> & Hr & Hlo & Hhi); [lens..| | |].
  { intros i p Hg%get_lt Hi. lia. }
  { intros i p Hg%get_lt Hi. lia. }
  ok_step. unfold pget. rewrite (plen_items _ _ _ Hh).
  assert (forall k, crlf_at buf k = true -> exists i, get (crlfs buf) i = Some k) as Hin.
  { intros k [j Hj]%elem_of_crlfs%list_elem_of_lookup. exists (Z.of_nat j). apply get_Some.
    rewrite Nat2Z.id. split; [lia|done]. }
  destruct (Z.ltb_spec r (len (crlfs buf))) as [Hlt|Hge].
  - destruct (get_in (crlfs buf) r) as [p Hp]; [lia|]. rewrite (position_at_holds _ _ _ _ _ Hh Hp).
    ok_step. eexists; split; [done|]. cbn. split_and!.
    + by apply (Hhi r p).
    + by apply elem_of_crlfs, (list_elem_of_lookup_2 _ (Z.to_nat r)), get_lookup.
    + intros k Hk. apply not_true_iff_false. intros [i Hi]%Hin.
      destruct (Z.lt_ge_cases i r) as [H|H]; [specialize (Hlo _ _ Hi H); lia|].
      destruct (Z.eq_dec i r) as [-> |]; [rewrite Hp in Hi; simplify_eq; lia|].
      pose proof (sorted_get _ _ _ _ _ Hs Hp Hi). lia.
  - eexists; split; [done|]. cbn. intros k Hk. apply not_true_iff_false. intros [i Hi]%Hin.
    apply get_lt in Hi as Hl. specialize (Hlo i k Hi). lia.
Qed.

Lemma position_cr_spec l : match position_cr l with
  | Some i => exists x y, l = x ++ CR :: y /\ len x = i /\ CR ∉ x
  | None => CR ∉ l
  end.
Proof.
  induction l as [|b l IH]; cbn [position_cr]; [apply not_elem_of_nil|].
  case_bool_decide as Hb.
  - subst b. exists [], l. split_and!; [done|done|apply not_elem_of_nil].
  - destruct (position_cr l) as [i|]; cbn [mbind option_bind].
    + destruct IH as (x & y & -> & <- & Hx). exists (b :: x), y. rewrite len_cons.
      split_and!; [done|done|]. apply not_elem_of_cons. by split; [congruence|].
    + apply not_elem_of_cons. by split; [congruence|].
Qed.

Lemma is_cr_app x y i : 0 <= i -> is_cr (x ++ y) (len x + i) = is_cr y i.
Proof.
  intros Hi. unfold is_cr, get. rewrite !(proj2 (Z.leb_le 0 _)) by lens.
  rewrite lookup_app_r by (unfold len; lia).
  by replace (Z.to_nat (len x + i) - length x)%nat with (Z.to_nat i) by (unfold len; lia).
Qed.

(** No carriage return in a window is no CRLF starting there. *)
Lemma no_cr_no_crlf buf x w z k : buf = x ++ w ++ z -> CR ∉ w -> len x <= k < len x + len w ->
  crlf_at buf k = false.
Proof.
  intros -> Hw Hk. unfold crlf_at. apply andb_false_intro1.
  replace k with (len x + (k - len x)) by lia. rewrite is_cr_app by lia.
  apply bool_decide_eq_false. intros [_ H]%get_Some. apply Hw.
  rewrite lookup_app_l in H by (unfold len in *; lia). by eapply list_elem_of_lookup_2.
Qed.

Lemma find_loop_spec buf : forall fuel offset, 0 <= offset -> len buf - offset <= Z.of_nat fuel ->
  exists r, find_loop fuel buf offset = Ok r /\ first_from buf offset r.
Proof.
  induction fuel as [|fuel IH]; intros offset H0 Hf; cbn [find_loop].
  all: destruct (Z.ltb_spec (offset + 1) (len buf));
    [|eexists; split; [done|]; cbn; intros; apply crlf_at_end; lia]; try lia.
  destruct (slice (E:=False) buf offset (len buf - 1)) as [w| |] eqn:Hs; [|done|].
  2:{ by apply slice_not_Panic in Hs; try lia. }
  ok_step. apply slice_Ok in Hs as (x & z & E & Hx & Hw). pose proof (position_cr_spec w) as Hp.
  destruct (position_cr w) as [rel|].
  - destruct Hp as (a & b & -> & Ha & Hna).
    assert (Hcr : is_cr buf (offset + rel) = true).
    { subst buf offset rel. rewrite is_cr_app by lens. rewrite <- app_assoc.
      rewrite <- (Z.add_0_r (len a)), is_cr_app by lia. done. }
    assert (Hbefore : forall k, offset <= k < offset + rel -> crlf_at buf k = false).
    { intros k Hk. apply (no_cr_no_crlf buf x a ((CR :: b) ++ z)); [|done|lia].
      rewrite E. by rewrite <- app_assoc. }
    rewrite len_app, len_cons in Hw.
    destruct (byte_at_in buf (offset + rel + 1)) as (c & Gc & ->); [lens|]. ok_step.
    case_bool_decide as Hc.
    + eexists; split; [done|]. cbn. split_and!; [lens| |done]. unfold crlf_at, is_lf.
      rewrite Hcr, Gc, Hc. by rewrite bool_decide_true.
    + destruct (IH (offset + rel + 1)) as (r & -> & Hr); [lens..|]. exists r. split; [done|].
      assert (Hno : forall k, offset <= k < offset + rel + 1 -> crlf_at buf k = false).
      { intros k Hk. destruct (Z.eq_dec k (offset + rel)) as [-> |]; [|apply Hbefore; lia].
        unfold crlf_at, is_lf. rewrite Gc. apply andb_false_intro2, bool_decide_eq_false. congruence. }
      destruct r as [i|]; cbn in *.
      * destruct Hr as (Hi & Ht & Hb'). split_and!; [lens|done|]. intros k Hk.
        destruct (Z.lt_ge_cases k (offset + rel + 1)); [apply Hno|apply Hb']; lia.
      * intros k Hk. destruct (Z.lt_ge_cases k (offset + rel + 1)); [apply Hno|apply Hr]; lia.
  - eexists; split; [done|]. cbn. intros k Hk.
    destruct (Z.lt_ge_cases k (len buf - 1)); [|apply crlf_at_end; lia].
    apply (no_cr_no_crlf buf x w z); [done|done|lia].
Qed.

Lemma find_crlf_spec buf from : 0 <= from ->
  exists r, find_crlf buf from = Ok r /\ first_from buf from r.
Proof.
  intros H0. unfold find_crlf. destruct (Z.leb_spec (len buf) from).
  - eexists; split; [done|]. cbn. intros. apply crlf_at_end. lia.
  - apply find_loop_spec; [done|unfold len; lia].
Qed.

(** C33. Every CRLF scanner is the same scanner: on any buffer of at most 2^32
    bytes, and whichever of the AVX2, SSE2, NEON and scalar kernels the
    dispatch picks, the scan does not panic, the table read back in order is
    the ascending list of all CRLF offsets (also past the inline capacity and
    across chunk boundaries), and the binary search answers from every offset
    what the line-by-line [find_crlf] answers. *)
Theorem crlf_scans_agree (t : target) (buf : list byte) (H : len buf <= 2 ^ 32) :
  exists ps, scan_crlf t buf = Ok ps /\ iter ps = Ok (crlfs buf) /\
    forall offset, 0 <= offset -> next_after ps offset = find_crlf buf offset.
Proof.
  destruct (scan_crlf_holds t buf H) as (ps & E & Hh). exists ps.
  split_and!; [done|by eapply iter_holds|]. intros offset Ho.
  destruct (next_after_spec buf ps offset Hh) as (r & -> & Hr).
  destruct (find_crlf_spec buf offset Ho) as (r' & -> & Hr'). f_equal. by eapply first_from_inj.
Qed.

(** Forty bytes: a CRLF across the first chunk boundary, one inside, a stray CR. *)
Definition ex_lines : list byte :=
  replicate 15 "a"%byte ++ [CR; LF] ++ replicate 10 "b"%byte ++ [CR; "c"%byte; CR; LF] ++
  replicate 9 "d"%byte.

Lemma crlf_scans_agree_witness :
  exists ps, scan_crlf (X86_64 false) ex_lines = Ok ps /\ iter ps = Ok [15; 29] /\
    next_after ps 16 = Ok (Some 29).
Proof.
  destruct (crlf_scans_agree (X86_64 false) ex_lines ltac:(done)) as (ps & E & Ei & Hn).
  exists ps. split_and!; [exact E|rewrite Ei; by vm_compute|rewrite Hn; [by vm_compute|done]].
Defined.

End Crlf.
