(* ===== verification/Resp.v ===== *)
(** * RESP command parser ([crates/inf-wire/src/parser.rs])

    The limits, the argv offsets, the frame parser and the resumable
    per-connection parser with its accumulator. *)

From S2P Require Import Prelude Group16 Swar Crlf.

Module Resp.
Import Crlf Swar.

(** ** Limits and results *)

Definition ARGV_FRAME_BYTES_MAX : Z := U32_MAX.
Definition ARGV_ENTRIES_MAX : Z := U32_MAX.
Definition INLINE_ARGS : Z := 16.
Definition DEFAULT_MAX_BULK_BYTES : Z := Z.shiftl 16 20.
Definition FRAME_HEADROOM_BYTES : Z := Z.shiftl 64 10.

Record ParserLimits := mkLimits { max_bulk_bytes : Z; max_frame_bytes : Z; max_args : Z }.
Definition for_bulk_cap (max_bulk_bytes : Z) : ParserLimits :=
  mkLimits max_bulk_bytes (Z.min U64_MAX (max_bulk_bytes + FRAME_HEADROOM_BYTES)) 1024.
Definition default_limits : ParserLimits := for_bulk_cap DEFAULT_MAX_BULK_BYTES.

Inductive WireError :=
  | FrameTooLarge (declared cap : Z)
  | FrameTooLong (size cap : Z)
  | TooManyArgs (declared cap : Z)
  | BadMultibulkLen
  | BadBulkLen
  | ExpectedBulk (found : byte)
  | ExpectedCrlf
  | BadInline.

(** Argument positions: sixteen inline, the rest spilled. *)
Record ArgOffsets := mkOffsets { off_inline : list (Z * Z); off_len : Z; off_spill : list (Z * Z) }.
Definition offsets_new : ArgOffsets := mkOffsets (replicate 16 (0, 0)) 0 [].
Definition offsets_push (o : ArgOffsets) (start len : Z) : panics ArgOffsets :=
  let entry := (start, len) in
  let i := off_len o in
  if i <? INLINE_ARGS then
    inline ← set_at (off_inline o) i entry;
    mret (mkOffsets inline (i + 1) (off_spill o))
  else mret (mkOffsets (off_inline o) (i + 1) (off_spill o ++ [entry])).
Definition count (o : ArgOffsets) : Z := off_len o.

Record ArgvRef := mkArgv
  { frame : list byte; argv_inline : list (Z * Z); argv_len : Z; spill : list (Z * Z) }.
Definition materialize (o : ArgOffsets) (frame : list byte) : ArgvRef :=
  mkArgv frame (off_inline o) (off_len o) (off_spill o).
Definition arg (a : ArgvRef) (i : Z) : panics (list byte) :=
  '(start, len) ← expect (if i <? INLINE_ARGS then get (argv_inline a) i
                          else get (spill a) (i - INLINE_ARGS));
  slice (frame a) start (start + len).
Definition argv_iter (a : ArgvRef) : panics (list (list byte)) :=
  foldr (fun i acc => x ← arg a i; l ← acc; mret (x :: l)) (mret []) (seqZ 0 (argv_len a)).

Inductive Parsed :=
  | Command (argv : ArgvRef)
  | Inline (argv : ArgvRef)
  | Incomplete
  | ProtocolError (e : WireError).

Inductive FrameKind :=
  | KCommand (o : ArgOffsets)
  | KInline (o : ArgOffsets)
  | KEmpty.
Inductive ParseOne :=
  | PFrame (k : FrameKind) (used : Z)
  | PIncomplete
  | PError (e : WireError).

(** ** One frame *)

Definition parse_count_line (buf : list byte) (from : Z) (err : WireError)
  : outcome WireError (option (Z * Z)) :=
  line ← slice_from buf (Z.min from (len buf));
  match swar_parse_int line with
  | Some (value, used) =>
      match get_range line used (len line) with
      | Some (x0d :: x0a :: _) => Ok (Some (value, from + used + 2))
      | Some [] | Some [x0d] => Ok None
      | Some _ | None => Err err
      end
  | None =>
      match line with
      | [] | ["-"%byte] | ["+"%byte] => Ok None
      | _ => Err err
      end
  end.

Inductive BulkParse :=
  | BComplete (start len end_ : Z)
  | BIncomplete
  | BError (e : WireError).

Definition frame_cap (limits : ParserLimits) : Z :=
  Z.min (max_frame_bytes limits) ARGV_FRAME_BYTES_MAX.

Definition parse_bulk (buf : list byte) (pos : Z) (limits : ParserLimits) : panics BulkParse :=
  match get buf pos with
  | None => mret BIncomplete
  | Some marker =>
      if negb (bool_decide (marker = "$"%byte)) then mret (BError (ExpectedBulk marker))
      else
        match parse_count_line buf (pos + 1) BadBulkLen with
        | Panic => Panic
        | Err e => mret (BError e)
        | Ok None => mret BIncomplete
        | Ok (Some (blen, start)) =>
            if blen <? 0 then mret (BError BadBulkLen)
            else if max_bulk_bytes limits <? blen
            then mret (BError (FrameTooLarge blen (max_bulk_bytes limits)))
            else
              let cap := frame_cap limits in
              match e ← checked_add 64 start blen; checked_add 64 e 2 with
              | None => mret (BError (FrameTooLong U64_MAX cap))
              | Some frame_end =>
                  if cap <? frame_end then mret (BError (FrameTooLong frame_end cap))
                  else if len buf <? frame_end then mret BIncomplete
                  else
                    tail ← slice buf (frame_end - 2) frame_end;
                    if negb (bool_decide (tail = [CR; LF])) then mret (BError ExpectedCrlf)
                    else mret (BComplete (wrap 32 start) (wrap 32 blen) frame_end)
              end
        end
  end.

(** [for _ in 0..argc]. *)
Fixpoint bulk_loop (n : nat) (buf : list byte) (pos : Z) (limits : ParserLimits) (o : ArgOffsets)
  : panics ParseOne :=
  match n with
  | O => mret (PFrame (KCommand o) pos)
  | S n =>
      r ← parse_bulk buf pos limits;
      match r with
      | BIncomplete => mret PIncomplete
      | BError e => mret (PError e)
      | BComplete start len end_ =>
          o ← offsets_push o start len;
          bulk_loop n buf end_ limits o
      end
  end.

Definition parse_multibulk (buf : list byte) (limits : ParserLimits) : panics ParseOne :=
  match parse_count_line buf 1 BadMultibulkLen with
  | Panic => Panic
  | Err e => mret (PError e)
  | Ok None => mret PIncomplete
  | Ok (Some (argc, pos)) =>
      if argc <? 0 then mret (PError BadMultibulkLen)
      else
        let cap := Z.min (max_args limits) ARGV_ENTRIES_MAX in
        if cap <? argc then mret (PError (TooManyArgs argc cap))
        else if argc =? 0 then
          let cap := frame_cap limits in
          if cap <? pos then mret (PError (FrameTooLong pos cap)) else mret (PFrame KEmpty pos)
        else bulk_loop (Z.to_nat argc) buf pos limits offsets_new
  end.

(** [u8::is_ascii_whitespace]. *)
Definition is_ascii_whitespace (b : byte) : bool :=
  bool_decide (b ∈ [x20; x09; x0a; x0c; x0d]).
(** How far [while i < line.len() && p(line[i]) { i += 1 }] runs. *)
Fixpoint run (p : byte -> bool) (l : list byte) : Z :=
  match l with [] => 0 | b :: l => if p b then 1 + run p l else 0 end.

Fixpoint inline_loop (fuel : nat) (line : list byte) (limits : ParserLimits) (i : Z) (o : ArgOffsets)
  : panics (ArgOffsets + WireError) :=
  if i <? len line then
    match fuel with
    | O => Panic
    | S fuel =>
        let start := i + run is_ascii_whitespace (drop (Z.to_nat i) line) in
        let i := start + run (fun b => negb (is_ascii_whitespace b)) (drop (Z.to_nat start) line) in
        if start <? i then
          if max_args limits <=? count o
          then mret (inr (TooManyArgs (count o + 1) (max_args limits)))
          else
            o ← offsets_push o (wrap 32 start) (wrap 32 (i - start));
            inline_loop fuel line limits i o
        else inline_loop fuel line limits i o
    end
  else mret (inl o).

Definition parse_inline (buf : list byte) (limits : ParserLimits) : panics ParseOne :=
  f ← find_crlf buf 0;
  let cap := frame_cap limits in
  match f with
  | None =>
      mret (if max_bulk_bytes limits <? len buf
            then PError (FrameTooLarge (len buf) (max_bulk_bytes limits))
            else if cap <? len buf then PError (FrameTooLong (len buf) cap)
            else PIncomplete)
  | Some end_ =>
      line ← slice buf 0 end_;
      let used := end_ + 2 in
      if max_bulk_bytes limits <? end_
      then mret (PError (FrameTooLarge end_ (max_bulk_bytes limits)))
      else if cap <? used then mret (PError (FrameTooLong used cap))
      else
        r ← inline_loop (length line) line limits 0 offsets_new;
        mret (match r with
              | inr e => PError e
              | inl o => if count o =? 0 then PFrame KEmpty used else PFrame (KInline o) used
              end)
  end.

Definition parse_one (buf : list byte) (limits : ParserLimits) : panics ParseOne :=
  match buf with
  | [] => mret PIncomplete
  | first :: _ =>
      if bool_decide (first = "*"%byte) then parse_multibulk buf limits else parse_inline buf limits
  end.

(** ** The connection *)

Record ConnParser := mkParser { limits : ParserLimits; acc : list byte; poisoned : bool }.
Definition parser_new (limits : ParserLimits) : ConnParser := mkParser limits [] false.
Definition buffered (p : ConnParser) : Z := len (acc p).
Definition is_poisoned (p : ConnParser) : bool := poisoned p.
Definition set_limits (p : ConnParser) (l : ParserLimits) : ConnParser :=
  mkParser l (acc p) (poisoned p).

Inductive Mode := Direct | Accumulated | Done.
Record FrameIter := mkIter { parser : ConnParser; input : list byte; pos : Z; mode : Mode }.

Definition feed (p : ConnParser) (input : list byte) : FrameIter :=
  if poisoned p then mkIter p input 0 Done
  else if bool_decide (acc p = []) then mkIter p input 0 Direct
  else mkIter (mkParser (limits p) (acc p ++ input) (poisoned p)) input 0 Accumulated.

(** The buffer the mode selects. *)
Definition iter_buf (it : FrameIter) : option (list byte) :=
  match mode it with Direct => Some (input it) | Accumulated => Some (acc (parser it)) | Done => None end.

Definition with_acc (p : ConnParser) (a : list byte) : ConnParser :=
  mkParser (limits p) a (poisoned p).

Definition stash_tail (it : FrameIter) : panics FrameIter :=
  match mode it with
  | Direct =>
      tail ← slice_from (input it) (pos it);
      let p := if bool_decide (tail = []) then parser it
               else with_acc (parser it) (acc (parser it) ++ tail) in
      mret (mkIter p (input it) 0 Done)
  | Accumulated =>
      p ← (if pos it =? len (acc (parser it)) then mret (with_acc (parser it) [])
           else rest ← slice_from (acc (parser it)) (pos it); mret (with_acc (parser it) rest));
      mret (mkIter p (input it) 0 Done)
  | Done => mret (mkIter (parser it) (input it) 0 Done)
  end.

Fixpoint next_loop (fuel : nat) (it : FrameIter) : panics (FrameIter * option Parsed) :=
  match fuel with
  | O => Panic
  | S fuel =>
      match iter_buf it with
      | None => mret (it, None)
      | Some buf =>
          window ← slice_from buf (pos it);
          outcome ← parse_one window (limits (parser it));
          match outcome with
          | PFrame kind used =>
              let base := pos it in
              frame ← slice window 0 used;
              let it := mkIter (parser it) (input it) (base + len frame) (mode it) in
              match kind with
              | KEmpty => next_loop fuel it
              | KCommand o =>
                  frame ← slice buf base (pos it);
                  mret (it, Some (Command (materialize o frame)))
              | KInline o =>
                  frame ← slice buf base (pos it);
                  mret (it, Some (Inline (materialize o frame)))
              end
          | PIncomplete => it ← stash_tail it; mret (it, None)
          | PError e =>
              mret (mkIter (mkParser (limits (parser it)) [] true) (input it) (pos it) Done,
                    Some (ProtocolError e))
          end
      end
  end.
(** [FrameIter::next]: a round that goes on has consumed bytes of the buffer,
    so its length bounds the rounds. *)
Definition next (it : FrameIter) : panics (FrameIter * option Parsed) :=
  next_loop (S (length (default [] (iter_buf it)))) it.

(** A caller: up to [budget] calls of [next], stopping at [None], then the drop. *)
Fixpoint calls (budget : nat) (it : FrameIter) : panics (FrameIter * list Parsed) :=
  match budget with
  | O => mret (it, [])
  | S budget =>
      '(it, r) ← next it;
      match r with
      | None => mret (it, [])
      | Some x => '(it, l) ← calls budget it; mret (it, x :: l)
      end
  end.
Definition feed_drive (p : ConnParser) (chunk : list byte) (budget : nat)
  : panics (ConnParser * list Parsed) :=
  '(it, l) ← calls budget (feed p chunk);
  it ← stash_tail it;
  mret (parser it, l).

(** ** Length lines

    What a length line reads as so far: never valid, not decided yet, or a
    value and the number of bytes up to its CRLF. *)

Inductive line_res := Bad | More | Got (v n : Z).
Definition count_res (line : list byte) : line_res :=
  match swar_parse_int line with
  | Some (value, used) =>
      match drop (Z.to_nat used) line with
      | x0d :: x0a :: _ => Got value (used + 2)
      | [] | [x0d] => More
      | _ => Bad
      end
  | None =>
      match line with
      | [] | ["-"%byte] | ["+"%byte] => More
      | _ => Bad
      end
  end.

Lemma leading_digits_grow m y : exists e, leading_digits (m ++ y) = leading_digits m ++ e /\
  all_digits e /\ (e = [] \/ leading_digits m = m).
Proof.
  induction m as [|b m (e & E & Hd & He)]; cbn [app leading_digits].
  - exists (leading_digits y). destruct (leading_digits_split y) as (r & _ & H & _). by split_and!; [|done|right].
  - destruct (is_digit b); [|by exists []; split_and!; [|constructor|left]].
    exists e. rewrite E. split_and!; [done|done|]. destruct He as [->| ->]; auto.
Qed.

Lemma sign_len_app l y : l <> [] -> sign_len (l ++ y) = sign_len l.
Proof. by destruct l. Qed.
Lemma signed_app l y v : l <> [] -> signed (l ++ y) v = signed l v.
Proof. by destruct l. Qed.
Lemma sign_len_le l : (sign_len l <= length l)%nat.
Proof. destruct l; cbn; [lia|]. case_bool_decide; lia. Qed.

Lemma digits_of_app l y : l <> [] -> digits_of (l ++ y) = leading_digits (drop (sign_len l) l ++ y).
Proof.
  intros Hl. unfold digits_of. rewrite sign_len_app by done. pose proof (sign_len_le l).
  by rewrite drop_app_le by lia.
Qed.

Lemma decimal_grow ds e : all_digits ds -> all_digits e -> decimal ds <= decimal (ds ++ e).
Proof.
  intros Hd He. rewrite decimal_app. pose proof (decimal_bound ds Hd).
  pose proof (dec_step_bound e He (decimal ds) ltac:(lia)).
  assert (0 < 10 ^ len e) by (apply Z.pow_pos_nonneg; lens). nia.
Qed.

Lemma all_digits_of l : all_digits (digits_of l).
Proof. unfold digits_of. by destruct (leading_digits_split (drop (sign_len l) l)) as (r & _ & H & _). Qed.

(** The value is outside [i64]. *)
Definition out_of_range (l : list byte) (v : Z) : Prop := signed l v < - 2 ^ 63 \/ 2 ^ 63 <= signed l v.

Lemma swar_None l : swar_parse_int l = None <->
  len (digits_of l) = 0 \/ 19 < len (digits_of l) \/ out_of_range l (decimal (digits_of l)).
Proof.
  rewrite swar_parse_int_spec. unfold scalar_parse_int, out_of_range. fold (digits_of l). cbv zeta.
  destruct (Z.ltb_spec 19 (len (digits_of l))), (Z.eqb_spec (len (digits_of l)) 0),
    (Z.leb_spec (- 2 ^ 63) (signed l (decimal (digits_of l)))),
    (Z.ltb_spec (signed l (decimal (digits_of l))) (2 ^ 63)); cbn [orb negb andb];
    split; intros; try done; lia || intuition lia.
Qed.

Lemma swar_Some l v n : swar_parse_int l = Some (v, n) ->
  l <> [] /\ v = signed l (decimal (digits_of l)) /\ n = Z.of_nat (sign_len l) + len (digits_of l) /\
  0 < len (digits_of l) <= 19 /\ - 2 ^ 63 <= v < 2 ^ 63.
Proof.
  rewrite swar_parse_int_spec. unfold scalar_parse_int. fold (digits_of l). cbv zeta.
  destruct (Z.ltb_spec 19 (len (digits_of l))), (Z.eqb_spec (len (digits_of l)) 0),
    (Z.leb_spec (- 2 ^ 63) (signed l (decimal (digits_of l)))),
    (Z.ltb_spec (signed l (decimal (digits_of l))) (2 ^ 63)); cbn [orb negb andb]; try done.
  intros [= <- <-]. pose proof (len_nonneg (digits_of l)). destruct l; [done|]. split_and!; done || lia.
Qed.

(** The text is its sign and digits, then what follows. *)
Lemma swar_split l v n : swar_parse_int l = Some (v, n) ->
  exists r, l = take (Z.to_nat n) l ++ r /\ drop (Z.to_nat n) l = r /\ len (take (Z.to_nat n) l) = n /\
    match r with [] => True | b :: _ => is_digit b = false end.
Proof.
  intros H. apply swar_Some in H as (Hl & _ & -> & Hn & _).
  destruct (leading_digits_split (drop (sign_len l) l)) as (r & E & _ & Hr).
  fold (digits_of l) in E. exists r.
  assert (Hd : drop (Z.to_nat (Z.of_nat (sign_len l) + len (digits_of l))) l = r).
  { replace (Z.to_nat _) with (sign_len l + length (digits_of l))%nat by (unfold len; lia).
    rewrite <- drop_drop, E at 1. apply drop_app_length. }
  split_and!; [by rewrite <- Hd, take_drop|done| |done].
  apply (f_equal length) in E. rewrite length_drop, length_app in E. pose proof (sign_len_le l).
  rewrite len_take. unfold len in *. lia.
Qed.

Lemma swar_same_digits l y : l <> [] -> digits_of (l ++ y) = digits_of l ->
  swar_parse_int (l ++ y) = swar_parse_int l.
Proof.
  intros Hl E. rewrite !swar_parse_int_spec. unfold scalar_parse_int. fold (digits_of (l ++ y)).
  fold (digits_of l). by rewrite E, signed_app, sign_len_app.
Qed.

Lemma swar_extend l y v n : swar_parse_int l = Some (v, n) -> drop (Z.to_nat n) l <> [] ->
  swar_parse_int (l ++ y) = Some (v, n).
Proof.
  intros H Hr. destruct (swar_split _ _ _ H) as (r & El & Ed & Hn & Hh). rewrite Ed in Hr.
  pose proof (swar_Some _ _ _ H) as (Hl & _ & En & _).
  assert (digits_of (l ++ y) = digits_of l) as E.
  { rewrite digits_of_app by done.
    destruct (leading_digits_grow (drop (sign_len l) l) y) as (e & -> & _ & [-> |Hall]);
      [by rewrite app_nil_r|].
    exfalso. apply Hr. rewrite <- Ed. apply drop_ge.
    apply (f_equal length) in Hall. fold (digits_of l) in Hall. rewrite length_drop in Hall.
    rewrite En. unfold len. lia. }
  by rewrite swar_same_digits.
Qed.

(** Not a bare sign, and not empty. *)
Definition started (l : list byte) : Prop := l <> [] /\ l <> ["-"%byte] /\ l <> ["+"%byte].

Lemma no_digits l y : started l -> len (digits_of l) = 0 -> len (digits_of (l ++ y)) = 0.
Proof.
  intros (H1 & H2 & H3) H0. rewrite digits_of_app by done. unfold digits_of in H0.
  assert (drop (sign_len l) l <> []) as Hd.
  { destruct l as [|b l]; [done|]. cbn [sign_len]. case_bool_decide as Hb; [|done].
    destruct l; [|done]. destruct Hb as [-> | ->]; done. }
  destruct (drop (sign_len l) l) as [|b m]; [done|]. cbn [app leading_digits] in *.
  destruct (is_digit b); [|done]. rewrite len_cons in H0. lens.
Qed.

Lemma swar_None_extend l y : started l -> swar_parse_int l = None -> swar_parse_int (l ++ y) = None.
Proof.
  intros Hs. rewrite !swar_None. intros [H|H]; [left; by apply no_digits|].
  assert (Hl : l <> []) by apply Hs.
  destruct (leading_digits_grow (drop (sign_len l) l) y) as (e & E & He & _).
  fold (digits_of l) in E. rewrite <- digits_of_app in E by done. rewrite E.
  right. destruct H as [H|H]; [left; lens|right].
  pose proof (decimal_grow (digits_of l) e (all_digits_of l) He).
  pose proof (decimal_bound (digits_of l) (all_digits_of l)).
  unfold out_of_range in *. rewrite !signed_app by done.
  destruct l as [|b l]; [done|]. cbn [signed] in *. case_bool_decide; lia.
Qed.

Lemma more_or_started l : l = [] \/ l = ["-"%byte] \/ l = ["+"%byte] \/ started l.
Proof.
  unfold started. destruct (decide (l = [])), (decide (l = ["-"%byte])), (decide (l = ["+"%byte])); tauto.
Qed.

(** A line that is decided stays what it is when bytes arrive. *)
Lemma count_res_extend l y : count_res l <> More -> count_res (l ++ y) = count_res l.
Proof.
  unfold count_res. destruct (swar_parse_int l) as [[v n]|] eqn:E.
  - intros H. rewrite (swar_extend l y v n E) by (intros Hz; by rewrite Hz in H).
    destruct (swar_split _ _ _ E) as (r & El & Ed & Hn & _).
    rewrite drop_app_le by (rewrite len_take in Hn; unfold len in Hn; lia). rewrite Ed in H |- *.
    destruct r as [|b r]; [done|]. destruct (decide (b = x0d)) as [-> |Hb].
    + destruct r as [|c r]; [done|]. by destruct c.
    + by destruct b.
  - intros H. destruct (more_or_started l) as [->|[->|[->|Hs]]]; [done..|].
    rewrite (swar_None_extend l y Hs E). destruct Hs as (H1 & H2 & H3).
    destruct l as [|b [|c l]]; [done| |by destruct b]. destruct y as [|c y]; [done|].
    cbn [app]. destruct b; done.
Qed.

Lemma count_res_Got l v n : count_res l = Got v n -> 3 <= n <= len l.
Proof.
  unfold count_res. destruct (swar_parse_int l) as [[v' n']|] eqn:E.
  - apply swar_Some in E as Hs. destruct Hs as (_ & _ & -> & Hn & _).
    destruct (swar_split _ _ _ E) as (r & El & -> & Hl & _).
    destruct r as [|b [|c r]]; [done|by destruct b|].
    assert (len l = (Z.of_nat (sign_len l) + len (digits_of l)) + len (b :: c :: r)) as Hlen.
    { rewrite El at 1. rewrite len_app, Hl. done. }
    rewrite !len_cons in Hlen. pose proof (len_nonneg r).
    intros Hr. assert (n = Z.of_nat (sign_len l) + len (digits_of l) + 2) as ->; [|lia].
    destruct b; try done. destruct c; try done. congruence.
  - destruct l as [|b [|c l]]; [done|by destruct b|by destruct b].
Qed.

(** An undecided line is short: a sign, nineteen digits and a CR. *)
Lemma count_res_More l : count_res l = More -> len l <= 21.
Proof.
  unfold count_res. destruct (swar_parse_int l) as [[v n]|] eqn:E.
  - apply swar_Some in E as Hs. destruct Hs as (_ & _ & -> & Hn & _).
    destruct (swar_split _ _ _ E) as (r & El & -> & Hl & _).
    assert (Z.of_nat (sign_len l) <= 1) by (destruct l; cbn; [lia|case_bool_decide; lia]).
    assert (len l = (Z.of_nat (sign_len l) + len (digits_of l)) + len r) as Hlen.
    { rewrite El at 1. rewrite len_app, Hl. done. }
    intros Hr. assert (len r <= 1); [|lia]. destruct r as [|b [|c r]]; [done|done|]. exfalso.
    destruct (decide (b = x0d)) as [-> |]; [by destruct c|by destruct b].
  - destruct l as [|b [|c l]]; [done|done|by destruct b].
Qed.

Lemma parse_count_line_eq buf from err : 0 <= from <= len buf ->
  parse_count_line buf from err =
  match count_res (drop (Z.to_nat from) buf) with
  | Bad => Err err | More => Ok None | Got v n => Ok (Some (v, from + n))
  end.
Proof.
  intros Hf. unfold parse_count_line. rewrite Z.min_l by lia.
  assert (slice_from (E:=WireError) buf from = Ok (drop (Z.to_nat from) buf)) as ->.
  { apply slice_from_Ok. exists (take (Z.to_nat from) buf). rewrite take_drop. split; [done|lens]. }
  ok_step. set (line := drop (Z.to_nat from) buf). unfold count_res.
  destruct (swar_parse_int line) as [[v n]|] eqn:E.
  - destruct (swar_split _ _ _ E) as (r & El & Ed & Hn & _). rewrite Ed.
    assert (get_range line n (len line) = Some r) as ->.
    { apply get_range_Some. exists (take (Z.to_nat n) line), []. rewrite app_nil_r.
      split_and!; [done|done|]. apply (f_equal len) in El. rewrite len_app in El. lia. }
    rewrite <- Z.add_assoc. destruct r as [|b [|c r]]; [done|by destruct b|].
    destruct (decide (b = x0d)) as [-> |]; [by destruct c|by destruct b].
  - destruct line as [|b [|c l]]; [done| |]; by destruct b.
Qed.

(** A line is decided by its own bytes. *)
Definition count_text (t : list byte) (v : Z) : Prop := count_res t = Got v (len t).

Lemma count_res_text l v n : count_res l = Got v n ->
  exists t r, l = t ++ r /\ len t = n /\ count_text t v.
Proof.
  intros H. pose proof (count_res_Got _ _ _ H) as Hn. exists (take (Z.to_nat n) l), (drop (Z.to_nat n) l).
  assert (Hlen : len (take (Z.to_nat n) l) = n) by lens.
  split_and!; [by rewrite take_drop|done|]. unfold count_text. rewrite Hlen.
  unfold count_res in H. destruct (swar_parse_int l) as [[v' u]|] eqn:E;
    [|by destruct l as [|b [|c l]]; [|destruct b..]].
  destruct (swar_split _ _ _ E) as (r & El & Ed & Hu & _). rewrite Ed in H.
  assert (exists r', r = CR :: LF :: r' /\ v' = v /\ n = u + 2) as (r' & -> & -> & ->).
  { destruct r as [|b [|c r]]; [done|by destruct b|].
    destruct b; try done. destruct c; try done. injection H as -> <-. by exists r. }
  assert (Et : take (Z.to_nat (u + 2)) l = take (Z.to_nat u) l ++ [CR; LF]).
  { rewrite El at 1. rewrite take_app_ge by (unfold len in Hu; lia).
    f_equal. replace (_ - _)%nat with 2%nat by (unfold len in Hu; lia). done. }
  set (m := take (Z.to_nat (u + 2)) l) in *.
  assert (Hm : l = m ++ r') by (rewrite Et, <- app_assoc; done).
  assert (Hm0 : m <> []) by (rewrite Et; by destruct (take (Z.to_nat u) l)).
  assert (Ed' : digits_of (m ++ r') = digits_of m).
  { rewrite digits_of_app by done.
    destruct (leading_digits_grow (drop (sign_len m) m) r') as (e & -> & _ & [-> |Hall]);
      [by rewrite app_nil_r|].
    exfalso. destruct (leading_digits_split (drop (sign_len m) m)) as (_ & _ & Hd & _).
    rewrite Hall, Et in Hd. rewrite drop_app_le in Hd.
    - apply Forall_app in Hd as [_ Hd]. by inversion Hd.
    - rewrite <- Et. unfold sign_len. destruct m as [|b m]; [done|].
      case_bool_decide; [|lia]. pose proof (swar_Some _ _ _ E) as (_ & _ & Eu & ? & _).
      unfold len in Hu. lia. }
  unfold count_res. rewrite <- (swar_same_digits m r'), <- Hm, E by done.
  rewrite Et, drop_app_le, drop_ge by (unfold len in Hu; lia). done.
Qed.

Lemma count_text_extend t v r : count_text t v -> count_res (t ++ r) = Got v (len t).
Proof. unfold count_text. intros H. rewrite count_res_extend; [done|]. by rewrite H. Qed.

(** ** Bulks *)

Definition bulk_text (x b : list byte) : Prop :=
  exists t, x = "$"%byte :: t ++ b ++ [CR; LF] /\ count_text t (len b).

Lemma get_app_l {A} (x y : list A) i : 0 <= i < len x -> get (x ++ y) i = get x i.
Proof.
  intros. unfold get. rewrite (proj2 (Z.leb_le 0 i)) by lia. apply lookup_app_l. unfold len in *. lia.
Qed.

Lemma checked_end start blen : 0 <= start -> 0 <= blen ->
  (e ← checked_add 64 start blen; checked_add 64 e 2) =
  if start + blen + 2 <? 2 ^ 64 then Some (start + blen + 2) else None.
Proof.
  intros. unfold checked_add. destruct (Z.ltb_spec (start + blen) (2 ^ 64)); cbn [mbind option_bind]; [done|].
  by rewrite (proj2 (Z.ltb_ge _ _)) by lia.
Qed.

(** The bulk at [pos], from what its length line reads as. *)
Definition bulk_res (buf : list byte) (pos : Z) (lim : ParserLimits) : BulkParse :=
  match get buf pos with
  | None => BIncomplete
  | Some m =>
      if negb (bool_decide (m = "$"%byte)) then BError (ExpectedBulk m)
      else
        match count_res (drop (Z.to_nat (pos + 1)) buf) with
        | Bad => BError BadBulkLen
        | More => BIncomplete
        | Got blen n =>
            let e := pos + 1 + n + blen + 2 in
            if blen <? 0 then BError BadBulkLen
            else if max_bulk_bytes lim <? blen then BError (FrameTooLarge blen (max_bulk_bytes lim))
            else if negb (e <? 2 ^ 64) then BError (FrameTooLong U64_MAX (frame_cap lim))
            else if frame_cap lim <? e then BError (FrameTooLong e (frame_cap lim))
            else if len buf <? e then BIncomplete
            else if negb (bool_decide (get buf (e - 2) = Some CR /\ get buf (e - 1) = Some LF))
            then BError ExpectedCrlf
            else BComplete (pos + 1 + n) blen e
        end
  end.

Lemma slice_pair {E} (buf : list byte) e : 2 <= e <= len buf ->
  exists a b, slice (E:=E) buf (e - 2) e = Ok [a; b] /\ get buf (e - 2) = Some a /\ get buf (e - 1) = Some b.
Proof.
  intros He. destruct (get_in buf (e - 2)) as [a Ha]; [lia|]. destruct (get_in buf (e - 1)) as [b Hb]; [lia|].
  exists a, b. split; [|done]. apply slice_Ok.
  apply get_split in Ha as (x & y & -> & Hx). exists x.
  assert (get y 0 = Some b) as Hy.
  { unfold get in Hb. rewrite (proj2 (Z.leb_le 0 _)) in Hb by lia.
    rewrite lookup_app_r, lookup_cons_ne_0 in Hb by (unfold len in Hx; lia).
    unfold get. cbn. rewrite <- Hb. f_equal. unfold len in Hx. lia. }
  apply get_split in Hy as ([|? z] & z' & -> & Hz); [|rewrite len_cons in Hz; pose proof (len_nonneg z); lia].
  exists z'. split_and!; [done|done|]. change (2 = e - (e - 2)). lia.
Qed.

Lemma parse_bulk_eq buf pos lim : 0 <= pos -> parse_bulk buf pos lim = Ok (bulk_res buf pos lim).
Proof.
  intros Hp. unfold parse_bulk, bulk_res. destruct (get buf pos) as [m|] eqn:Hm; [|done].
  apply get_lt in Hm. case_bool_decide; cbn [negb]; [|done].
  rewrite parse_count_line_eq by lia. destruct (count_res _) as [| |blen n] eqn:Hc; [done..|].
  pose proof (count_res_Got _ _ _ Hc) as Hn.
  destruct (Z.ltb_spec blen 0); [done|]. destruct (max_bulk_bytes lim <? blen); [done|].
  rewrite checked_end by lia. destruct (Z.ltb_spec (pos + 1 + n + blen + 2) (2 ^ 64)); [|done].
  cbn [negb]. destruct (Z.ltb_spec (frame_cap lim) (pos + 1 + n + blen + 2)); [done|].
  destruct (Z.ltb_spec (len buf) (pos + 1 + n + blen + 2)); [done|].
  destruct (slice_pair (E:=False) buf (pos + 1 + n + blen + 2)) as (a & b & -> & -> & ->); [lia|]. ok_step.
  rewrite (bool_decide_ext ([a; b] = [CR; LF]) (Some a = Some CR /\ Some b = Some LF)) by naive_solver.
  case_bool_decide; cbn [negb]; [|done].
  assert (frame_cap lim < 2 ^ 32) by (unfold frame_cap, ARGV_FRAME_BYTES_MAX, U32_MAX; lia).
  rewrite !wrap_id by (unfold in_u; lia). done.
Qed.

Lemma bulk_res_extend x y pos lim : 0 <= pos -> bulk_res x pos lim <> BIncomplete ->
  bulk_res (x ++ y) pos lim = bulk_res x pos lim.
Proof.
  intros Hp. unfold bulk_res. destruct (get x pos) as [m|] eqn:Hm; [|done].
  apply get_lt in Hm as Hl. rewrite get_app_l, Hm by done. case_bool_decide; cbn [negb]; [|done].
  rewrite drop_app_le by (unfold len in Hl; lia). intros Hn.
  rewrite count_res_extend by (intros E; by rewrite E in Hn).
  destruct (count_res _) as [| |blen n] eqn:Hc; [done..|]. apply count_res_Got in Hc.
  destruct (Z.ltb_spec blen 0); [done|]. destruct (max_bulk_bytes lim <? blen); [done|].
  destruct (negb _); [done|]. destruct (frame_cap lim <? _); [done|].
  destruct (Z.ltb_spec (len x) (pos + 1 + n + blen + 2)); [done|].
  rewrite (proj2 (Z.ltb_ge (len (x ++ y)) _)) by lens. by rewrite !get_app_l by lia.
Qed.

(** [buf] has the bulk [b] at [pos], the bytes up to [e], within the limits. *)
Definition bulk_at (buf : list byte) (pos : Z) (lim : ParserLimits) (b : list byte) (e : Z) : Prop :=
  exists a x r, buf = a ++ x ++ r /\ len a = pos /\ bulk_text x b /\ e = pos + len x /\
    len b <= max_bulk_bytes lim /\ e <= frame_cap lim.

Lemma drop_marker {A} (a : list A) m l : drop (Z.to_nat (len a + 1)) (a ++ m :: l) = l.
Proof.
  rewrite cons_middle, app_assoc. apply drop_app_length'. rewrite length_app. cbn. unfold len. lia.
Qed.

(** The payload and the CRLF at a length-determined position. *)
Lemma split_payload pre r v (buf := pre ++ r) : 0 <= v -> v + 2 <= len r ->
  get buf (len pre + v) = Some CR -> get buf (len pre + v + 1) = Some LF ->
  exists b r', r = b ++ CR :: LF :: r' /\ len b = v.
Proof.
  intros Hv Hr H1 H2. exists (take (Z.to_nat v) r), (drop (Z.to_nat (v + 2)) r). split; [|lens].
  rewrite <- (take_drop (Z.to_nat v) r) at 1. f_equal.
  assert (forall k c, 0 <= k -> get buf (len pre + k) = Some c -> get r k = Some c) as Hg.
  { intros k c Hk. unfold buf, get. rewrite !(proj2 (Z.leb_le 0 _)) by lens.
    rewrite lookup_app_r by (unfold len in *; lia). intros <-. f_equal. unfold len. lia. }
  apply Hg in H1; [|lia]. rewrite <- Z.add_assoc in H2. apply Hg in H2; [|lia].
  rewrite (Group16.drop_get _ _ _ H1), (Group16.drop_get _ _ _ H2). do 3 f_equal. lia.
Qed.

Lemma bulk_res_Complete_inv buf pos lim start blen e : 0 <= pos ->
  bulk_res buf pos lim = BComplete start blen e ->
  exists b, bulk_at buf pos lim b e /\ start = e - 2 - len b /\ blen = len b.
Proof.
  intros Hp. unfold bulk_res.
  destruct (get buf pos) as [m|] eqn:Hm; [|done]. case_bool_decide as Hd; cbn [negb]; [|done]. subst m.
  destruct (count_res _) as [| |v n] eqn:Hc; [done..|]. pose proof (count_res_Got _ _ _ Hc) as Hn.
  destruct (Z.ltb_spec v 0); [done|]. destruct (Z.ltb_spec (max_bulk_bytes lim) v); [done|].
  destruct (negb _); [done|]. destruct (Z.ltb_spec (frame_cap lim) (pos + 1 + n + v + 2)); [done|].
  destruct (Z.ltb_spec (len buf) (pos + 1 + n + v + 2)); [done|].
  case_bool_decide as Hcl; cbn [negb]; [|done]. destruct Hcl as [H1' H2']. intros [= <- <- <-].
  apply get_split in Hm as (a & l & -> & Ha).
  rewrite <- Ha, drop_marker, Ha in *. apply count_res_text in Hc as (t & r & -> & <- & Ht).
  destruct (split_payload (a ++ "$"%byte :: t) r v) as (b & r' & -> & Hb);
    rewrite ?len_app, ?len_cons, ?len_app in *; try lia.
  { rewrite <- app_assoc. cbn [app]. rewrite <- H1'. f_equal. lia. }
  { rewrite <- app_assoc. cbn [app]. rewrite <- H2'. f_equal. lia. }
  exists b. split; [|lia]. exists a, ("$"%byte :: t ++ b ++ [CR; LF]), r'.
  rewrite len_cons, !len_app. change (len [CR; LF]) with 2. rewrite <- Hb in *.
  split_and!; try done; try lia; [cbn; by rewrite <- !app_assoc|by exists t].
Qed.

Lemma bulk_res_Complete_text buf pos lim b e : bulk_at buf pos lim b e ->
  bulk_res buf pos lim = BComplete (e - 2 - len b) (len b) e.
Proof.
  intros (a & x & r & -> & <- & (t & -> & Ht) & -> & Hb & Hcap). unfold bulk_res.
  rewrite len_cons, !len_app in *. change (len [CR; LF]) with 2 in *.
  rewrite (proj2 (get_split _ _ _)) by (by eexists _, _). rewrite bool_decide_true by done. cbn [negb].
  change (("$"%byte :: t ++ b ++ [CR; LF]) ++ r) with ("$"%byte :: (t ++ b ++ [CR; LF]) ++ r).
  rewrite drop_marker, <- app_assoc, (count_text_extend _ _ _ Ht). pose proof (len_nonneg a).
  pose proof (len_nonneg t). pose proof (len_nonneg b).
  rewrite (proj2 (Z.ltb_ge (len b) 0)), (proj2 (Z.ltb_ge (max_bulk_bytes lim) (len b))) by lia.
  assert (frame_cap lim < 2 ^ 32) by (unfold frame_cap, ARGV_FRAME_BYTES_MAX, U32_MAX; lia).
  rewrite (proj2 (Z.ltb_lt _ (2 ^ 64))), (proj2 (Z.ltb_ge (frame_cap lim) _)) by lia. cbn [negb].
  rewrite (proj2 (Z.ltb_ge _ _)) by lens.
  rewrite bool_decide_true; [cbn [negb]; f_equal; lia|]. split; apply get_split.
  - exists (a ++ "$"%byte :: t ++ b), (LF :: r).
    split; [by rewrite <- !app_assoc; cbn; rewrite <- !app_assoc|lens].
  - exists (a ++ "$"%byte :: t ++ b ++ [CR]), r.
    split; [by rewrite <- !app_assoc; cbn; rewrite <- !app_assoc|].
    rewrite !len_app, len_cons, !len_app. change (len [CR]) with 1. lia.
Qed.

Lemma bulk_res_Incomplete buf pos lim : 0 <= pos -> bulk_res buf pos lim = BIncomplete ->
  len buf <= Z.max pos (frame_cap lim) + 22.
Proof.
  intros Hp. unfold bulk_res. destruct (get buf pos) as [m|] eqn:Hm.
  - apply get_lt in Hm. case_bool_decide; cbn [negb]; [|done].
    destruct (count_res _) as [| |v n] eqn:Hc; [done| |].
    + intros _. apply count_res_More in Hc. rewrite len_drop in Hc. lia.
    + destruct (v <? 0); [done|]. destruct (_ <? v); [done|]. destruct (negb _); [done|].
      destruct (Z.ltb_spec (frame_cap lim) (pos + 1 + n + v + 2)); [done|].
      destruct (Z.ltb_spec (len buf) (pos + 1 + n + v + 2)); [lia|]. by case_bool_decide.
  - intros _. destruct (Z.le_gt_cases (len buf) pos); [lia|]. destruct (get_in buf pos); [lia|congruence].
Qed.

(** ** Argument offsets *)

Definition entries (o : ArgOffsets) : list (Z * Z) :=
  take (Z.to_nat (Z.min (off_len o) INLINE_ARGS)) (off_inline o) ++ off_spill o.
Definition offs_ok (o : ArgOffsets) : Prop :=
  length (off_inline o) = 16%nat /\ 0 <= off_len o /\
  len (off_spill o) = Z.max 0 (off_len o - INLINE_ARGS).

Lemma offsets_new_ok : offs_ok offsets_new /\ entries offsets_new = [].
Proof. done. Qed.

Lemma len_entries o : offs_ok o -> len (entries o) = off_len o.
Proof.
  intros (Hi & H0 & Hs). unfold entries. rewrite len_app, len_take, Hs.
  unfold INLINE_ARGS, len in *. lia.
Qed.

Lemma offsets_push_spec o s l : offs_ok o ->
  exists o', offsets_push o s l = Ok o' /\ offs_ok o' /\ entries o' = entries o ++ [(s, l)].
Proof.
  intros (Hi & H0 & Hs). unfold offsets_push, INLINE_ARGS in *. destruct (Z.ltb_spec (off_len o) 16).
  - rewrite set_at_Ok by (unfold len; lia). ok_step. eexists; split; [done|].
    assert (off_spill o = []) as E by (apply len_0_nil; lia).
    unfold offs_ok, entries, INLINE_ARGS. cbn [off_inline off_len off_spill].
    rewrite length_insert, E, !app_nil_r, Z.min_l, (Z.min_l (off_len o)) by lia.
    split; [split_and!; [done|lia|change (0 = Z.max 0 (off_len o + 1 - 16)); lia]|].
    replace (Z.to_nat (off_len o + 1)) with (S (Z.to_nat (off_len o))) by lia.
    rewrite (take_S_r _ _ (s, l)), take_insert_ge by (lia || apply list_lookup_insert_eq; lia). done.
  - eexists; split; [done|]. unfold offs_ok, entries, INLINE_ARGS. cbn [off_inline off_len off_spill].
    rewrite Z.min_r, (Z.min_r (off_len o)), app_assoc by lia.
    split; [split_and!; [done|lia|rewrite len_app; change (len [(s, l)]) with 1; lia]|done].
Qed.

(** [es] are the places of [args] in [buf]. *)
Definition spans (buf : list byte) (es : list (Z * Z)) (args : list (list byte)) : Prop :=
  Forall2 (fun e x => slice (E:=False) buf e.1 (e.1 + e.2) = Ok x) es args.

Lemma arg_entry o frame i s l : offs_ok o -> get (entries o) i = Some (s, l) ->
  arg (materialize o frame) i = slice frame s (s + l).
Proof.
  intros Ho Hg. pose proof (len_entries o Ho) as Hlen. apply get_lt in Hg as Hi.
  destruct Ho as (Hin & H0 & Hs). unfold arg, materialize. cbn [argv_inline spill Resp.frame].
  apply get_Some in Hg as [_ Hg]. unfold entries, INLINE_ARGS in *.
  assert (Hlt : length (take (Z.to_nat (off_len o `min` 16)) (off_inline o)) = Z.to_nat (off_len o `min` 16))
    by (rewrite length_take; lia).
  destruct (Z.ltb_spec i 16).
  - assert (get (off_inline o) i = Some (s, l)) as ->; [|done].
    apply get_Some. split; [lia|]. rewrite lookup_app_l in Hg by lia.
    by rewrite lookup_take_lt in Hg by lia.
  - assert (get (off_spill o) (i - 16) = Some (s, l)) as ->; [|done].
    apply get_Some. split; [lia|]. rewrite lookup_app_r, Hlt in Hg by lia. rewrite <- Hg. f_equal. lia.
Qed.

Lemma argv_iter_spans o frame args : offs_ok o -> spans frame (entries o) args ->
  argv_iter (materialize o frame) = Ok args.
Proof.
  intros Ho Hs. unfold argv_iter. change (argv_len (materialize o frame)) with (off_len o).
  rewrite <- (len_entries o Ho).
  assert (forall m k, Forall2 (fun i x => arg (materialize o frame) i = Ok x) m k ->
    foldr (fun i acc => x ← arg (materialize o frame) i; l ← acc; mret (x :: l)) (mret []) m = Ok k) as Hf.
  { induction 1 as [|i x m k Hg Hm IH]; [done|]. cbn [foldr]. by rewrite IH, Hg. }
  apply Hf, Forall2_same_length_lookup_2.
  { rewrite length_seqZ, <- (Forall2_length Hs). unfold len. lia. }
  intros i x y Hx Hy. apply lookup_seqZ in Hx as [-> Hi]. rewrite Z.add_0_l.
  destruct (get_in (entries o) (Z.of_nat i)) as [[s l] Hg]; [lia|].
  rewrite (arg_entry _ _ _ _ _ Ho Hg).
  apply get_lookup in Hg. rewrite Nat2Z.id in Hg. exact (Forall2_lookup_lr _ _ _ _ _ _ Hs Hg Hy).
Qed.

(** Places stay when bytes arrive, and lie in any prefix that covers them. *)
Lemma slice_prefix {E} (x y : list byte) a b r : b <= len x ->
  slice (E:=E) (x ++ y) a b = Ok r <-> slice (E:=E) x a b = Ok r.
Proof.
  intros Hb. unfold slice. rewrite !expect_Ok. unfold get_range.
  destruct (Z.leb_spec 0 a), (Z.leb_spec a b); cbn [andb]; try done.
  rewrite (proj2 (Z.leb_le b (len x))), (proj2 (Z.leb_le b (len (x ++ y)))) by lens.
  rewrite drop_app_le by (unfold len in Hb; lia). rewrite take_app_le; [done|].
  rewrite length_drop. unfold len in Hb. lia.
Qed.

(** [args] as consecutive bulks of [buf] from [pos] to [e]. *)
Fixpoint bulks_at (buf : list byte) (pos : Z) (lim : ParserLimits) (args : list (list byte)) (e : Z) : Prop :=
  match args with
  | [] => e = pos
  | b :: args => exists m, bulk_at buf pos lim b m /\ bulks_at buf m lim args e
  end.

Lemma bulk_at_bounds buf pos lim b e : bulk_at buf pos lim b e ->
  0 <= pos /\ pos + 6 + len b <= e <= len buf /\ e <= frame_cap lim /\
  slice (E:=False) buf (e - 2 - len b) (e - 2 - len b + len b) = Ok b.
Proof.
  intros (a & x & r & -> & <- & (t & -> & Ht) & -> & Hb & Hcap).
  pose proof (count_res_Got _ _ _ Ht) as Hn. rewrite !len_app, len_cons, !len_app in *.
  change (len [CR; LF]) with 2 in *. split_and!; try lens.
  apply slice_Ok. exists (a ++ "$"%byte :: t), ([CR; LF] ++ r).
  split_and!; [by rewrite <- !app_assoc; cbn; rewrite <- !app_assoc| |lia].
  rewrite len_app, len_cons. lia.
Qed.

Lemma bulks_at_bounds buf lim args : forall pos e, bulks_at buf pos lim args e -> args <> [] ->
  0 <= pos /\ pos + 6 <= e <= len buf /\ e <= frame_cap lim.
Proof.
  induction args as [|b args IH]; intros pos e H Hne; [done|]. destruct H as (m & Hb & Hr).
  apply bulk_at_bounds in Hb as (? & ? & ? & _). pose proof (len_nonneg b).
  destruct args as [|b' args]; [cbn in Hr; subst m; lia|]. apply IH in Hr; [lia|done].
Qed.

(** ** Multibulk frames *)

(** The offsets [o'] extend [o] by the places of [args]. *)
Definition collected (buf : list byte) (o o' : ArgOffsets) (args : list (list byte)) : Prop :=
  offs_ok o' /\ exists es, entries o' = entries o ++ es /\ spans buf es args.

Lemma collected_nil buf o : offs_ok o -> collected buf o o [].
Proof. intros Ho. split; [done|]. exists []. rewrite app_nil_r. split; [done|constructor]. Qed.

Lemma collected_cons buf pos lim o o1 o' b args e :
  bulk_at buf pos lim b e -> entries o1 = entries o ++ [(e - 2 - len b, len b)] ->
  collected buf o1 o' args -> collected buf o o' (b :: args).
Proof.
  intros (_ & _ & _ & Hs)%bulk_at_bounds E1 (Hok & es & E & Hes). split; [done|].
  exists ((e - 2 - len b, len b) :: es). rewrite E, E1, <- app_assoc. split; [done|].
  by constructor.
Qed.

Lemma bulk_loop_text buf lim args : forall pos e o, bulks_at buf pos lim args e -> 0 <= pos -> offs_ok o ->
  exists o', bulk_loop (length args) buf pos lim o = Ok (PFrame (KCommand o') e) /\ collected buf o o' args.
Proof.
  induction args as [|b args IH]; intros pos e o H Hp Ho; cbn [length bulk_loop].
  { cbn in H. subst e. exists o. split; [done|]. by apply collected_nil. }
  destruct H as (m & Hb & Hr). rewrite parse_bulk_eq, (bulk_res_Complete_text _ _ _ _ _ Hb) by done. ok_step.
  destruct (offsets_push_spec o (m - 2 - len b) (len b) Ho) as (o1 & -> & Ho1 & E1). ok_step.
  pose proof (bulk_at_bounds _ _ _ _ _ Hb) as (_ & Hm & _).
  destruct (IH m e o1 Hr ltac:(pose proof (len_nonneg b); lia) Ho1) as (o' & -> & Hc).
  exists o'. split; [done|]. by eapply collected_cons.
Qed.

Lemma bulk_loop_total lim buf n : forall pos o, 0 <= pos -> offs_ok o ->
  exists r, bulk_loop n buf pos lim o = Ok r /\
  match r with
  | PFrame k e => exists args o', length args = n /\ bulks_at buf pos lim args e /\
      k = KCommand o' /\ collected buf o o' args
  | PIncomplete => len buf <= Z.max pos (frame_cap lim) + 22
  | PError _ => True
  end.
Proof.
  induction n as [|n IH]; intros pos o Hp Ho; cbn [bulk_loop].
  { eexists; split; [done|]. exists [], o. split_and!; try done. by apply collected_nil. }
  rewrite parse_bulk_eq by done. ok_step. destruct (bulk_res buf pos lim) as [st bl m| |] eqn:Hr.
  - apply bulk_res_Complete_inv in Hr as (b & Hb & -> & ->); [|done].
    destruct (offsets_push_spec o (m - 2 - len b) (len b) Ho) as (o1 & -> & Ho1 & E1). ok_step.
    pose proof (bulk_at_bounds _ _ _ _ _ Hb) as (_ & Hm & Hcap & _). pose proof (len_nonneg b).
    destruct (IH m o1 ltac:(lia) Ho1) as (r & -> & Hres). exists r. split; [done|].
    destruct r as [k e| |]; [|lia|done]. destruct Hres as (args & o' & <- & Hbs & -> & Hc).
    exists (b :: args), o'. split_and!; try done; [by exists m|by eapply collected_cons].
  - eexists; split; [done|]. by apply bulk_res_Incomplete.
  - by eexists.
Qed.

Lemma bulk_loop_extend lim x y n : forall pos o r, 0 <= pos -> bulk_loop n x pos lim o = Ok r ->
  r <> PIncomplete -> bulk_loop n (x ++ y) pos lim o = Ok r.
Proof.
  induction n as [|n IH]; intros pos o r Hp H Hr; cbn [bulk_loop] in *; [done|].
  rewrite parse_bulk_eq in * by done. cbn [mbind outcome_bind] in *.
  rewrite bulk_res_extend by (done || (intros E; rewrite E in H; by injection H as <-)).
  destruct (bulk_res x pos lim) as [st bl m| |] eqn:Hb; [|done|done].
  apply bulk_res_Complete_inv in Hb as (b & Hb & -> & ->); [|done].
  apply bulk_at_bounds in Hb as (_ & Hm & _). pose proof (len_nonneg b).
  destruct (offsets_push o _ _) as [o1| |]; [|done..]. cbn [mbind outcome_bind] in *. apply IH; done || lia.
Qed.

(** The bytes of a command: a count line and one bulk per argument. *)
Definition command_text (x : list byte) (args : list (list byte)) : Prop :=
  exists t bs, x = "*"%byte :: t ++ concat bs /\ count_text t (len args) /\ Forall2 bulk_text bs args.
Definition within (lim : ParserLimits) (x : list byte) (args : list (list byte)) : Prop :=
  len args <= Z.min (max_args lim) ARGV_ENTRIES_MAX /\ len x <= frame_cap lim /\
  Forall (fun b => len b <= max_bulk_bytes lim) args.

Lemma bulks_at_text lim args : forall a bs r, Forall2 bulk_text bs args ->
  Forall (fun b => len b <= max_bulk_bytes lim) args -> len (a ++ concat bs) <= frame_cap lim ->
  bulks_at (a ++ concat bs ++ r) (len a) lim args (len (a ++ concat bs)).
Proof.
  induction args as [|b args IH]; intros a bs r Hbs Hl Hcap.
  { apply Forall2_nil_inv_r in Hbs as ->. cbn. by rewrite app_nil_r. }
  apply Forall2_cons_inv_r in Hbs as (x & bs' & Hx & Hbs & ->). apply Forall_cons_iff in Hl as [Hb Hl].
  cbn [concat bulks_at] in *. exists (len (a ++ x)). split.
  - exists a, x, (concat bs' ++ r). rewrite <- !app_assoc. split_and!; try done; lens.
  - specialize (IH (a ++ x) bs' r Hbs Hl). rewrite <- !app_assoc in *. apply IH. lens.
Qed.

Lemma bulks_at_inv lim buf args : forall pos e, bulks_at buf pos lim args e -> 0 <= pos <= len buf ->
  exists a bs r, buf = a ++ concat bs ++ r /\ len a = pos /\ Forall2 bulk_text bs args /\
    len (a ++ concat bs) = e /\ Forall (fun b => len b <= max_bulk_bytes lim) args.
Proof.
  induction args as [|b args IH]; intros pos e H Hp.
  { cbn in H. subst e. exists (take (Z.to_nat pos) buf), [], (drop (Z.to_nat pos) buf). cbn.
    rewrite take_drop, app_nil_r. split_and!; [done|lens|constructor|lens|constructor]. }
  destruct H as (m & (a & x & r & -> & <- & Hx & -> & Hb & Hcap) & Hr).
  apply IH in Hr as (a' & bs & r' & E & Ha' & Hbs & <- & Hl); [|lens].
  rewrite app_assoc in E. apply app_len_inj in E as [<- ->]; [|by rewrite len_app].
  exists a, (x :: bs), r'. cbn [concat]. rewrite <- !app_assoc in *.
  split_and!; try done; by constructor.
Qed.

Lemma count_res_Got_le l v n : count_res l = Got v n -> n <= 22.
Proof.
  unfold count_res. destruct (swar_parse_int l) as [[v' u]|] eqn:E; [|by destruct l as [|b [|c l]]; [|destruct b..]].
  apply swar_Some in E as (_ & _ & -> & Hn & _).
  assert (Z.of_nat (sign_len l) <= 1) by (destruct l; cbn; [lia|case_bool_decide; lia]).
  destruct (drop _ l) as [|b [|c r]]; [done|by destruct b|]. destruct b; try done. destruct c; try done.
  intros [= _ <-]. lia.
Qed.

(** [parse_multibulk] after its count line. *)
Definition multibulk_rest (buf : list byte) (lim : ParserLimits) (argc pos : Z) : panics ParseOne :=
  if argc <? 0 then mret (PError BadMultibulkLen)
  else if Z.min (max_args lim) ARGV_ENTRIES_MAX <? argc
  then mret (PError (TooManyArgs argc (Z.min (max_args lim) ARGV_ENTRIES_MAX)))
  else if argc =? 0 then
    if frame_cap lim <? pos then mret (PError (FrameTooLong pos (frame_cap lim))) else mret (PFrame KEmpty pos)
  else bulk_loop (Z.to_nat argc) buf pos lim offsets_new.

Lemma parse_multibulk_eq b l lim : parse_multibulk (b :: l) lim =
  match count_res l with
  | Bad => mret (PError BadMultibulkLen)
  | More => mret PIncomplete
  | Got argc n => multibulk_rest (b :: l) lim argc (1 + n)
  end.
Proof.
  unfold parse_multibulk. rewrite parse_count_line_eq by (rewrite len_cons; lens).
  change (drop (Z.to_nat 1) (b :: l)) with (drop 0 l). rewrite drop_0.
  by destruct (count_res l).
Qed.

Lemma multibulk_extend b x y lim r : parse_multibulk (b :: x) lim = Ok r -> r <> PIncomplete ->
  parse_multibulk (b :: x ++ y) lim = Ok r.
Proof.
  rewrite !parse_multibulk_eq. intros H Hr.
  rewrite count_res_extend by (intros E; rewrite E in H; by injection H as <-).
  destruct (count_res x) as [| |argc n] eqn:Hc; [done..|]. unfold multibulk_rest in *.
  apply count_res_Got in Hc.
  destruct (argc <? 0); [done|]. destruct (_ <? argc); [done|]. destruct (argc =? 0); [done|].
  apply (bulk_loop_extend lim (b :: x)); done || lia.
Qed.

Lemma multibulk_text x args r lim : command_text x args -> args <> [] -> within lim x args ->
  exists o, parse_multibulk (x ++ r) lim = Ok (PFrame (KCommand o) (len x)) /\
    argv_iter (materialize o x) = Ok args.
Proof.
  intros (t & bs & -> & Ht & Hbs) Hne (Hn & Hcap & Hl).
  pose proof (bulks_at_text lim args ("*"%byte :: t) bs [] Hbs Hl Hcap) as Hb.
  cbn [app] in Hb. rewrite app_nil_r in Hb.
  destruct (bulk_loop_text _ _ _ _ _ offsets_new Hb (len_nonneg _) (proj1 offsets_new_ok)) as (o & E & Ho & es & Ee & Hs).
  exists o. split; [|rewrite (proj2 offsets_new_ok) in Ee; cbn in Ee; subst es; by apply argv_iter_spans].
  change (("*"%byte :: t ++ concat bs) ++ r) with ("*"%byte :: (t ++ concat bs) ++ r).
  apply multibulk_extend; [|done]. rewrite parse_multibulk_eq, (count_text_extend _ _ _ Ht).
  unfold multibulk_rest. assert (0 < len args).
  { destruct args; [done|]. rewrite len_cons. lens. }
  rewrite (proj2 (Z.ltb_ge (len args) 0)), (proj2 (Z.ltb_ge _ (len args))), (proj2 (Z.eqb_neq _ _)) by lia.
  unfold len at 1. rewrite Nat2Z.id. rewrite len_cons in E. exact E.
Qed.

Lemma multibulk_total l lim : exists r, parse_multibulk ("*"%byte :: l) lim = Ok r /\
  match r with
  | PFrame KEmpty u => exists t rest, l = t ++ rest /\ u = 1 + len t /\ count_text t 0 /\ u <= frame_cap lim
  | PFrame (KCommand o) u => exists x rest args, "*"%byte :: l = x ++ rest /\ len x = u /\
      command_text x args /\ args <> [] /\ within lim x args /\ argv_iter (materialize o x) = Ok args
  | PFrame (KInline _) _ => False
  | PIncomplete => len l <= Z.max 23 (frame_cap lim) + 21
  | PError _ => True
  end.
Proof.
  rewrite parse_multibulk_eq. destruct (count_res l) as [| |argc n] eqn:Hc.
  { by eexists. }
  { exists PIncomplete. split; [done|]. apply count_res_More in Hc. lia. }
  pose proof (count_res_Got_le _ _ _ Hc) as Hle. pose proof (count_res_text _ _ _ Hc) as (t & r & -> & <- & Ht).
  unfold multibulk_rest. destruct (Z.ltb_spec argc 0); [by eexists|].
  destruct (Z.ltb_spec (max_args lim `min` ARGV_ENTRIES_MAX) argc) as [|Hcap]; [by eexists|].
  destruct (Z.eqb_spec argc 0) as [-> |Hne].
  { destruct (Z.ltb_spec (frame_cap lim) (1 + len t)); eexists; (split; [done|]); [done|].
    exists t, r. split_and!; done || lia. }
  destruct (bulk_loop_total lim ("*"%byte :: t ++ r) (Z.to_nat argc) (1 + len t) offsets_new)
    as (res & E & Hres); [lens|apply offsets_new_ok|].
  exists res. split; [done|]. destruct res as [k e| |]; [|rewrite len_cons in Hres; lia|done].
  destruct Hres as (args & o & Hlen & Hbs & -> & _).
  assert (Hargs : args <> []) by (intros ->; cbn in Hlen; lia).
  pose proof (bulks_at_bounds _ _ _ _ _ Hbs Hargs) as (_ & _ & He).
  apply bulks_at_inv in Hbs as (a & bs & rest & Eb & Ha & Hb & Hx & Hl); [|rewrite len_cons; lens].
  assert (a = "*"%byte :: t) as ->.
  { change ("*"%byte :: t ++ r) with (("*"%byte :: t) ++ r) in Eb. apply app_len_inj in Eb as [-> _]; [done|].
    rewrite len_cons. lia. }
  assert (argc = len args) as -> by (unfold len; lia).
  assert (Hct : command_text ("*"%byte :: t ++ concat bs) args) by (by exists t, bs).
  assert (Hw : within lim ("*"%byte :: t ++ concat bs) args) by (split_and!; [done|cbn in Hx; lia|done]).
  exists ("*"%byte :: t ++ concat bs), rest, args. split_and!; try done; try apply Hw.
  { rewrite Eb. cbn. by rewrite <- app_assoc. }
  destruct (multibulk_text _ args rest lim Hct Hargs Hw) as (o' & E' & Ho').
  enough (o = o') as -> by done. revert E'.
  replace (("*"%byte :: t ++ concat bs) ++ rest) with ("*"%byte :: t ++ r)
    by (rewrite Eb; cbn; by rewrite <- app_assoc).
  rewrite parse_multibulk_eq, Hc. unfold multibulk_rest.
  rewrite (proj2 (Z.ltb_ge (len args) 0)), (proj2 (Z.ltb_ge _ (len args))), (proj2 (Z.eqb_neq _ _)) by done.
  rewrite E. by intros [= ->].
Qed.

(** ** Inline commands *)

(** The whitespace-separated words of a line; [cur] is the word being read. *)
Fixpoint words_from (cur l : list byte) : list (list byte) :=
  match l with
  | [] => match cur with [] => [] | _ => [cur] end
  | b :: l =>
      if is_ascii_whitespace b then
        match cur with [] => words_from [] l | _ => cur :: words_from [] l end
      else words_from (cur ++ [b]) l
  end.
Definition words (line : list byte) : list (list byte) := words_from [] line.

Lemma run_split p l : exists x y, l = x ++ y /\ run p l = len x /\ Forall (fun b => p b = true) x /\
  match y with [] => True | b :: _ => p b = false end.
Proof.
  induction l as [|b l (x & y & E & Hr & Hx & Hy)]; [by exists [], []|]. cbn [run].
  destruct (p b) eqn:Hb.
  - exists (b :: x), y. rewrite len_cons, Hr. split_and!; [cbn; by f_equal|done|by constructor|done].
  - by exists [], (b :: l).
Qed.

Lemma words_skip x y : Forall (fun b => is_ascii_whitespace b = true) x -> words (x ++ y) = words y.
Proof. unfold words. induction 1 as [|b x Hb Hx IH]; [done|]. cbn. by rewrite Hb. Qed.

Lemma words_take d y : forall cur, Forall (fun b => negb (is_ascii_whitespace b) = true) d ->
  match y with [] => True | b :: _ => is_ascii_whitespace b = true end -> cur ++ d <> [] ->
  words_from cur (d ++ y) = (cur ++ d) :: words y.
Proof.
  induction d as [|b d IH]; intros cur Hd Hy Hne.
  - cbn [app]. rewrite app_nil_r in *. destruct y as [|b y]; cbn [words_from]; [by destruct cur|].
    rewrite Hy. unfold words. cbn [words_from]. rewrite Hy. by destruct cur.
  - apply Forall_cons_iff in Hd as [Hb%negb_true_iff Hd]. cbn [app words_from]. rewrite Hb.
    rewrite (cons_middle b cur d), app_assoc. apply IH; try done. by destruct cur.
Qed.

Lemma inline_step pre suf : exists w d s, suf = w ++ d ++ s /\
  (let start := len pre + run is_ascii_whitespace (drop (Z.to_nat (len pre)) (pre ++ suf)) in
   start = len pre + len w /\
   run (fun b => negb (is_ascii_whitespace b)) (drop (Z.to_nat start) (pre ++ suf)) = len d) /\
  words suf = (match d with [] => [] | _ => [d] end) ++ words s /\ (d = [] -> s = []) /\
  (suf <> [] -> w ++ d <> []).
Proof.
  destruct (run_split is_ascii_whitespace suf) as (w & y & -> & Hr & Hw & Hy).
  destruct (run_split (fun b => negb (is_ascii_whitespace b)) y) as (d & s & -> & Hr' & Hd & Hs).
  exists w, d, s. split; [done|].
  assert (Edrop : forall a b : list byte, drop (Z.to_nat (len a)) (a ++ b) = b).
  { intros a b. unfold len. rewrite Nat2Z.id. apply drop_app_length. }
  rewrite Edrop, Hr. cbv zeta. split.
  { split; [done|]. replace (len pre + len w) with (len (pre ++ w)) by lens. by rewrite app_assoc, Edrop. }
  rewrite words_skip by done. destruct d as [|b d].
  - assert (s = []) as ->.
    { destruct s as [|c s]; [done|]. cbn in Hy, Hs. by rewrite Hy in Hs. }
    split_and!; [done|done|]. by rewrite !app_nil_r.
  - split_and!; [|done|by destruct w]. apply words_take; [done| |done].
    destruct s; [done|]. by apply negb_false_iff.
Qed.

Lemma spans_one line es args s d pre suf : spans line es args -> line = pre ++ d ++ suf -> s = len pre ->
  spans line (es ++ [(s, len d)]) (args ++ [d]).
Proof.
  intros H E Hs. apply Forall2_app; [done|]. constructor; [|constructor]. cbn [fst snd].
  apply slice_Ok. exists pre, suf. split_and!; [done|done|lia].
Qed.

Lemma inline_loop_spec line lim : 0 <= max_args lim -> len line < 2 ^ 32 ->
  forall fuel pre suf o done_, line = pre ++ suf -> len suf <= Z.of_nat fuel -> offs_ok o ->
  spans line (entries o) done_ -> len done_ <= max_args lim ->
  exists r, inline_loop fuel line lim (len pre) o = Ok r /\
  match r with
  | inl o' => offs_ok o' /\ spans line (entries o') (done_ ++ words suf) /\
      len (done_ ++ words suf) <= max_args lim
  | inr e => e = TooManyArgs (max_args lim + 1) (max_args lim) /\ max_args lim < len (done_ ++ words suf)
  end.
Proof.
  intros Hmax Hlen. induction fuel as [|fuel IH]; intros pre suf o dn E Hf Ho Hs Hn; cbn [inline_loop].
  all: destruct (Z.ltb_spec (len pre) (len line)) as [Hlt|Hge].
  1: subst line; rewrite len_app in Hlt; lia.
  2: destruct (inline_step pre suf) as (w & d & s & Es & (Hst & Hrd) & Hw & Hds & Hprog).
  1, 3: assert (suf = []) as -> by (apply len_0_nil; apply (f_equal len) in E; rewrite len_app in E; lens).
  1, 2: eexists; split; [done|]; cbn; rewrite app_nil_r; by split_and!.
  rewrite <- E in Hst, Hrd. rewrite Hrd, Hst. clear Hrd Hst.
  assert (suf <> []) as Hne by (intros ->; rewrite app_nil_r in E; subst; lia). specialize (Hprog Hne).
  assert (E' : line = (pre ++ w ++ d) ++ s) by (rewrite E, Es; by rewrite <- !app_assoc).
  assert (Hl : len line = len pre + len w + len d + len s) by (rewrite E'; lens).
  assert (Hfs : len s <= Z.of_nat fuel).
  { rewrite Es, !len_app in Hf. assert (0 < len (w ++ d)); [|lens].
    destruct (w ++ d) as [|? l]; [done|]. rewrite len_cons. lens. }
  pose proof (len_nonneg pre). pose proof (len_nonneg w). pose proof (len_nonneg s).
  replace (len pre + len w + len d) with (len (pre ++ w ++ d)) by lens.
  destruct d as [|b d].
  { rewrite (proj2 (Z.ltb_ge _ _)) by lens. rewrite Hw. cbn [app]. by apply IH. }
  rewrite (proj2 (Z.ltb_lt _ _)) by lens. unfold count.
  rewrite <- (len_entries o Ho). rewrite (f_equal Z.of_nat (Forall2_length Hs) : len (entries o) = len dn).
  assert (Hdn : len (dn ++ words suf) = len dn + 1 + len (words s)) by (rewrite Hw; lens).
  destruct (Z.leb_spec (max_args lim) (len dn)).
  { eexists; split; [done|]. pose proof (len_nonneg (words s)). split; [f_equal; lia|lia]. }
  pose proof (len_nonneg (b :: d)).
  rewrite !wrap_id by (unfold in_u; lens). replace (len (pre ++ w ++ b :: d) - (len pre + len w)) with (len (b :: d)) by lens.
  destruct (offsets_push_spec o (len pre + len w) (len (b :: d)) Ho) as (o1 & -> & Ho1 & E1). ok_step.
  assert (Hw' : dn ++ words suf = (dn ++ [b :: d]) ++ words s) by (rewrite Hw; by rewrite <- app_assoc).
  rewrite Hw'. apply IH; try done; [|lens].
  rewrite E1. apply (spans_one _ _ _ _ _ (pre ++ w) s); [done|by rewrite E', <- !app_assoc|lens].
Qed.

Lemma crlf_at_extend x y k : 0 <= k -> k + 1 < len x -> crlf_at (x ++ y) k = crlf_at x k.
Proof. intros. unfold crlf_at, is_cr, is_lf. by rewrite !get_app_l by lia. Qed.

Lemma crlf_at_text buf k : crlf_at buf k = true -> 0 <= k ->
  exists x r, buf = x ++ [CR; LF] ++ r /\ len x = k.
Proof.
  intros [H1%bool_decide_eq_true H2%bool_decide_eq_true]%andb_true_iff Hk.
  pose proof (get_lt _ _ _ H2). exists (take (Z.to_nat k) buf), (drop (Z.to_nat (k + 2)) buf).
  split; [|lens]. rewrite <- (take_drop (Z.to_nat k) buf) at 1. f_equal.
  rewrite (Group16.drop_get _ _ _ H1), (Group16.drop_get _ _ _ H2). cbn. do 3 f_equal. lia.
Qed.

(** The first line of [buf]: its bytes before the first CRLF, if there is one. *)
Definition first_line (buf : list byte) (f : option (list byte)) : Prop :=
  match f with
  | Some line => exists r, buf = line ++ [CR; LF] ++ r /\ first_from buf 0 (Some (len line))
  | None => first_from buf 0 None
  end.

Lemma first_line_ex buf : exists f, first_line buf f.
Proof.
  destruct (find_crlf_spec buf 0 ltac:(lia)) as (r & _ & Hr). destruct r as [i|]; [|by exists None].
  pose proof Hr as (Hi & Hc & _). apply crlf_at_text in Hc as (x & r & E & <-); [|done].
  exists (Some x). by exists r.
Qed.

Lemma first_line_extend x y line : first_line x (Some line) -> first_line (x ++ y) (Some line).
Proof.
  intros (r & E & Hi & Hc & Hb). exists (r ++ y).
  assert (Hl : len line + 2 <= len x) by (rewrite E, !len_app; change (len [CR; LF]) with 2; lens).
  split; [rewrite E; by rewrite <- !app_assoc|]. cbn. split_and!; [done| |].
  - by rewrite crlf_at_extend by lia.
  - intros k Hk. rewrite crlf_at_extend by lia. by apply Hb.
Qed.

(** [parse_inline] on a complete line. *)
Definition inline_rest (line : list byte) (lim : ParserLimits) : panics ParseOne :=
  let cap := frame_cap lim in
  if max_bulk_bytes lim <? len line then mret (PError (FrameTooLarge (len line) (max_bulk_bytes lim)))
  else if cap <? len line + 2 then mret (PError (FrameTooLong (len line + 2) cap))
  else
    r ← inline_loop (length line) line lim 0 offsets_new;
    mret (match r with
          | inr e => PError e
          | inl o => if count o =? 0 then PFrame KEmpty (len line + 2) else PFrame (KInline o) (len line + 2)
          end).

Lemma parse_inline_eq buf f lim : first_line buf f ->
  parse_inline buf lim =
  match f with
  | Some line => inline_rest line lim
  | None => mret (if max_bulk_bytes lim <? len buf
                  then PError (FrameTooLarge (len buf) (max_bulk_bytes lim))
                  else if frame_cap lim <? len buf then PError (FrameTooLong (len buf) (frame_cap lim))
                  else PIncomplete)
  end.
Proof.
  intros Hf. unfold parse_inline. destruct (find_crlf_spec buf 0 ltac:(lia)) as (r & -> & Hr). ok_step.
  destruct f as [line|]; cbn [first_line] in Hf.
  - destruct Hf as (rest & E & Hf). rewrite (first_from_inj _ _ _ _ Hr Hf).
    assert (slice (E:=False) buf 0 (len line) = Ok line) as ->; [|done].
    apply slice_Ok. exists [], ([CR; LF] ++ rest). split_and!; [done|done|lia].
  - by rewrite (first_from_inj _ _ _ _ Hr Hf).
Qed.

Lemma inline_rest_total line lim : 0 <= max_args lim -> exists r, inline_rest line lim = Ok r /\
  match r with
  | PFrame KEmpty u => words line = [] /\ u = len line + 2 /\ u <= frame_cap lim
  | PFrame (KInline o) u => words line <> [] /\ u = len line + 2 /\ u <= frame_cap lim /\
      forall y, argv_iter (materialize o (line ++ y)) = Ok (words line)
  | PFrame (KCommand _) _ => False
  | PIncomplete => False
  | PError _ => max_bulk_bytes lim < len line \/ frame_cap lim < len line + 2 \/ max_args lim < len (words line)
  end.
Proof.
  intros Hmax. unfold inline_rest. destruct (Z.ltb_spec (max_bulk_bytes lim) (len line)) as [|Hbulk]; [eexists; split; [done|by left]|].
  destruct (Z.ltb_spec (frame_cap lim) (len line + 2)) as [|Hcap]; [eexists; split; [done|by right; left]|].
  assert (frame_cap lim < 2 ^ 32) by (unfold frame_cap, ARGV_FRAME_BYTES_MAX, U32_MAX; lia).
  destruct (inline_loop_spec line lim Hmax ltac:(lia) (length line) [] line offsets_new [])
    as (r & E & Hr); try done; try (unfold len; lia); [constructor|].
  change (len (@nil byte)) with 0 in E. rewrite E. ok_step. destruct r as [o|e]; [|eexists; split; [done|right; right; apply Hr]].
  destruct Hr as (Ho & Hs & _). cbn [app] in Hs.
  assert (Hc : count o = len (words line)).
  { unfold count. rewrite <- (len_entries o Ho). unfold len. by rewrite (Forall2_length Hs). }
  rewrite Hc. destruct (Z.eqb_spec (len (words line)) 0) as [H0|H0].
  - eexists; split; [done|]. cbn. split_and!; [by apply len_0_nil|done|lia].
  - eexists; split; [done|]. cbn. split_and!; [by intros H0'; rewrite H0' in H0|done|lia|].
    intros y. apply argv_iter_spans; [done|]. eapply Forall2_impl; [|exact Hs]. intros [s l] x Hx.
    pose proof (proj1 (slice_Ok _ _ _ _) Hx) as (a & b & Eb & Ha & Hxl).
    apply slice_prefix; [|done]. rewrite Eb. cbn [fst snd] in *. lens.
Qed.

(** A complete line is parsed the same whatever follows it. *)
Lemma inline_extend x y line lim : first_line x (Some line) ->
  parse_inline (x ++ y) lim = parse_inline x lim.
Proof.
  intros H. rewrite (parse_inline_eq _ _ _ H). by rewrite (parse_inline_eq _ _ _ (first_line_extend _ y _ H)).
Qed.

(** C28. A command is parsed exactly when its bytes are the command's grammar:
    the front [x] of a buffer is taken as a command with arguments [args] if and
    only if [x] is a count line followed by one length-prefixed bulk per
    argument, with at least one argument, and the declared sizes are within the
    argument, bulk and frame caps. *)
Theorem command_grammar lim x rest args :
  (exists o, parse_one (x ++ rest) lim = Ok (PFrame (KCommand o) (len x)) /\
     argv_iter (materialize o x) = Ok args) <->
  command_text x args /\ args <> [] /\ within lim x args.
Proof.
  split.
  - intros (o & E & Ha). destruct (x ++ rest) as [|b l] eqn:Hx; [done|]. unfold parse_one in E.
    revert E. case_bool_decide as Hb; intros E.
    + subst b. destruct (multibulk_total l lim) as (r & E' & Hm). rewrite E in E'. injection E' as <-.
      destruct Hm as (x' & rest' & args' & E' & Hl & Ht & Hne & Hw & Ha'). rewrite E' in Hx.
      apply app_len_inj in Hx as [<- _]; [|done]. rewrite Ha in Ha'. by injection Ha' as <-.
    + exfalso. destruct (first_line_ex (b :: l)) as [[line|] Hf]; rewrite (parse_inline_eq _ _ _ Hf) in E.
      * unfold inline_rest in E. revert E. repeat case_match; try done.
        destruct (inline_loop _ _ _ _ _) as [[o'|e]| |]; cbn; [|done..]. by case_match.
      * revert E. clear. by repeat case_match.
  - intros (Ht & Hne & Hw). destruct (multibulk_text x args rest lim Ht Hne Hw) as (o & E & Ha).
    exists o. split; [|done]. destruct Ht as (t & bs & -> & _). unfold parse_one. cbn [app].
    by rewrite bool_decide_true.
Qed.

Lemma bulk_loop_refuses lim e args : forall n pos end_ o buf, bulks_at buf pos lim args end_ ->
  (length args < n)%nat -> 0 <= pos -> offs_ok o -> bulk_res buf end_ lim = BError e ->
  bulk_loop n buf pos lim o = Ok (PError e).
Proof.
  induction args as [|b args IH]; intros n pos end_ o buf Hbs Hn Hp Ho He;
    (destruct n as [|n]; [cbn in Hn; lia|]); cbn [bulk_loop]; rewrite parse_bulk_eq by done; ok_step.
  - cbn in Hbs. subst end_. by rewrite He.
  - destruct Hbs as (m & Hb & Hr). rewrite (bulk_res_Complete_text _ _ _ _ _ Hb).
    destruct (offsets_push_spec o (m - 2 - len b) (len b) Ho) as (o1 & -> & Ho1 & _). ok_step.
    apply bulk_at_bounds in Hb as (_ & Hm & _). pose proof (len_nonneg b).
    apply (IH n m end_ o1 buf Hr); [cbn in Hn; lia|lia|done|done].
Qed.

(** A bulk over the cap is refused from its length line: as soon as the
    line declaring more than the bulk cap is complete, and whatever bytes follow
    or none, the frame is the error that names the declared length and the cap,
    so no payload byte is ever buffered for it. *)
Theorem oversize_refused_early lim t bs args argc line v rest :
  count_text t argc -> len args < argc -> argc <= Z.min (max_args lim) ARGV_ENTRIES_MAX ->
  Forall2 bulk_text bs args -> Forall (fun b => len b <= max_bulk_bytes lim) args ->
  len ("*"%byte :: t ++ concat bs) <= frame_cap lim ->
  count_text line v -> max_bulk_bytes lim < v -> 0 <= v ->
  parse_one ("*"%byte :: t ++ concat bs ++ "$"%byte :: line ++ rest) lim =
  Ok (PError (FrameTooLarge v (max_bulk_bytes lim))).
Proof.
  intros Ht Hn Hcap Hbs Hl Hx Hline Hv H0. unfold parse_one. rewrite bool_decide_true by done.
  rewrite parse_multibulk_eq, (count_text_extend _ _ _ Ht). unfold multibulk_rest.
  pose proof (len_nonneg args).
  rewrite (proj2 (Z.ltb_ge argc 0)), (proj2 (Z.ltb_ge _ argc)), (proj2 (Z.eqb_neq argc 0)) by lia.
  pose proof (bulks_at_text lim args ("*"%byte :: t) bs ("$"%byte :: line ++ rest) Hbs Hl Hx) as Hb.
  rewrite len_cons in Hb. cbn [app] in Hb.
  apply (bulk_loop_refuses lim _ args _ _ _ _ _ Hb); [unfold len in *; lia|lens|apply offsets_new_ok|].
  unfold bulk_res. set (a := "*"%byte :: t ++ concat bs).
  replace ("*"%byte :: t ++ concat bs ++ "$"%byte :: line ++ rest) with (a ++ "$"%byte :: line ++ rest)
    by (unfold a; cbn; by rewrite <- app_assoc).
  rewrite (proj2 (get_split _ _ _)) by (by eexists _, _). rewrite bool_decide_true by done. cbn [negb].
  rewrite drop_marker, (count_text_extend _ _ _ Hline).
  by rewrite (proj2 (Z.ltb_ge v 0)), (proj2 (Z.ltb_lt _ _)) by lia.
Qed.

Definition text (s : list Z) : list byte := b8 <$> s.

(** Limits: bulks of at most 8 bytes, frames of at most 64, four arguments. *)
Definition small_limits : ParserLimits := mkLimits 8 64 4.

Lemma oversize_refused_early_witness :
  parse_one ("*"%byte :: text [50;13;10] ++ concat [text [36;49;13;10;107;13;10]] ++
             "$"%byte :: text [57;57;13;10] ++ []) small_limits = Ok (PError (FrameTooLarge 99 8)).
Proof.
  apply (oversize_refused_early small_limits (text [50;13;10]) [text [36;49;13;10;107;13;10]] [text [107]] 2);
    try done.
  - constructor; [|constructor]. exists (text [49;13;10]). by vm_compute.
  - repeat constructor. done.
Defined.

End Resp.
