(* ===== verification/RespConn.v ===== *)
(** * The resumable connection parser ([crates/inf-wire/src/parser.rs])

    What [FrameIter] and [ConnParser] of [Resp.v] promise over a whole
    connection: the commands delivered do not depend on how the bytes were cut
    into feeds or on where a caller stopped, the accumulator is bounded, a
    protocol error is final, and no input makes the parser panic. *)

From S2P Require Import Prelude Group16 Swar Crlf Resp.

Module RespConn.
Import Crlf Resp.

(** ** One frame and the bytes after it *)

Section Frames.
Context (lim : ParserLimits) (Hargs : 0 <= max_args lim).

Lemma parse_one_total buf : exists r, parse_one buf lim = Ok r /\
  match r with
  | PFrame _ u => 2 <= u <= len buf /\ u <= frame_cap lim
  | PIncomplete => len buf <= Z.max 23 (frame_cap lim) + 22
  | PError _ => True
  end.
Proof.
  destruct buf as [|b l].
  { exists PIncomplete. split; [done|]. change (len (@nil byte)) with 0. lia. }
  unfold parse_one. case_bool_decide as Hb.
  - subst b. destruct (multibulk_total l lim) as (r & E & H). exists r. split; [done|].
    destruct r as [k u| |]; [|rewrite len_cons; lia|done]. destruct k as [o|o|]; [| done |].
    + destruct H as (x & rest & args & -> & <- & (t & bs & -> & Ht & _) & _ & (_ & Hc & _) & _).
      apply count_res_Got in Ht. rewrite len_app. revert Hc. rewrite len_cons, !len_app. lens.
    + destruct H as (t & rest & -> & -> & Ht & Hc). apply count_res_Got in Ht. rewrite len_cons. lens.
  - destruct (first_line_ex (b :: l)) as [f Hf]. rewrite (parse_inline_eq _ _ _ Hf).
    destruct f as [line|].
    + destruct (inline_rest_total line lim Hargs) as (r & -> & H). exists r. split; [done|].
      destruct Hf as (r' & E & _). assert (len line + 2 <= len (b :: l)).
      { rewrite E, !len_app. change (len [CR; LF]) with 2. lens. }
      pose proof (len_nonneg line). destruct r as [[o|o|] u| |]; try done; naive_solver lia.
    + destruct (_ <? _); [by eexists|].
      destruct (Z.ltb_spec (frame_cap lim) (len (b :: l))); [by eexists|].
      exists PIncomplete. split; [done|]. lia.
Qed.

Lemma parse_one_frame_extend x y k u : parse_one x lim = Ok (PFrame k u) ->
  parse_one (x ++ y) lim = Ok (PFrame k u).
Proof.
  destruct x as [|b x]; [done|]. unfold parse_one at 2. cbn [app]. unfold parse_one.
  case_bool_decide as Hb.
  - intros H. by apply multibulk_extend.
  - destruct (first_line_ex (b :: x)) as [[line|] Hf]; intros H.
    + by rewrite (inline_extend (b :: x) y line).
    + rewrite (parse_inline_eq _ _ _ Hf) in H. destruct (_ <? _); [done|]. by destruct (_ <? _).
Qed.

(** A split-safe frame: a multibulk, or an inline line shorter than the bulk cap. *)
Definition splits (x : list byte) : Prop :=
  head x = Some "*"%byte \/ len x - 2 < max_bulk_bytes lim.

Lemma frame_prefix_incomplete a b k :
  parse_one (a ++ b) lim = Ok (PFrame k (len (a ++ b))) -> splits (a ++ b) -> b <> [] ->
  parse_one a lim = Ok PIncomplete.
Proof.
  intros Hx Hs Hb. destruct (parse_one_total a) as (r & E & Hr). destruct r as [k' u| |e]; [|done|].
  { rewrite (parse_one_frame_extend _ b _ _ E) in Hx. injection Hx as <- Hu.
    destruct b; [done|]. rewrite len_app, len_cons in Hu. pose proof (len_nonneg b0). lia. }
  exfalso. destruct a as [|c a]; [discriminate E|]. unfold parse_one in E, Hx. cbn [app] in Hx.
  revert E Hx. case_bool_decide as Hc; intros E Hx.
  { rewrite (multibulk_extend _ _ b _ _ E) in Hx; done. }
  destruct (first_line_ex (c :: a)) as [[line|] Hf].
  { change (c :: a ++ b) with ((c :: a) ++ b) in Hx. by rewrite (inline_extend _ b _ _ Hf), E in Hx. }
  rewrite (parse_inline_eq _ _ _ Hf) in E.
  destruct (first_line_ex (c :: a ++ b)) as [[line|] Hf']; rewrite (parse_inline_eq _ _ _ Hf') in Hx.
  2:{ revert Hx. clear. by repeat case_match. }
  destruct (inline_rest_total line lim Hargs) as (r & E' & Hr'). rewrite E' in Hx. injection Hx as ->.
  change ((c :: a) ++ b) with (c :: a ++ b) in *.
  assert (len (c :: a ++ b) = len line + 2 /\ len line + 2 <= frame_cap lim) as [Hl Hcap].
  { destruct k; naive_solver lia. }
  destruct Hs as [Hs|Hs]; [cbn in Hs; congruence|].
  assert (len (c :: a) < len (c :: a ++ b)).
  { rewrite !len_cons, len_app. destruct b; [done|]. rewrite len_cons. lens. }
  rewrite (proj2 (Z.ltb_ge _ _)), (proj2 (Z.ltb_ge _ _)) in E by lia. done.
Qed.

Lemma incomplete_prefix a b : parse_one (a ++ b) lim = Ok PIncomplete -> parse_one a lim = Ok PIncomplete.
Proof.
  intros Hx. destruct (parse_one_total a) as (r & E & Hr). destruct r as [k' u| |e]; [|done|].
  { by rewrite (parse_one_frame_extend _ b _ _ E) in Hx. }
  exfalso. destruct a as [|c a]; [discriminate E|]. unfold parse_one in E, Hx. cbn [app] in Hx.
  revert E Hx. case_bool_decide as Hc; intros E Hx.
  { rewrite (multibulk_extend _ _ b _ _ E) in Hx; done. }
  destruct (first_line_ex (c :: a)) as [[line|] Hf].
  { change (c :: a ++ b) with ((c :: a) ++ b) in Hx. by rewrite (inline_extend _ b _ _ Hf), E in Hx. }
  rewrite (parse_inline_eq _ _ _ Hf) in E.
  destruct (first_line_ex (c :: a ++ b)) as [[line|] Hf']; rewrite (parse_inline_eq _ _ _ Hf') in Hx.
  { destruct (inline_rest_total line lim Hargs) as (r & E' & Hr'). rewrite E' in Hx. by injection Hx as ->. }
  destruct (Z.ltb_spec (max_bulk_bytes lim) (len (c :: a ++ b))); [done|].
  destruct (Z.ltb_spec (frame_cap lim) (len (c :: a ++ b))); [done|].
  rewrite !len_cons, len_app in *. pose proof (len_nonneg b).
  rewrite (proj2 (Z.ltb_ge _ _)), (proj2 (Z.ltb_ge _ _)) in E by lia. done.
Qed.

(** ** A stream of frames *)

Inductive item := ICommand (args : list (list byte)) | IInline (args : list (list byte)).

(** What a yielded value shows to its caller. *)
Definition shows (p : Parsed) (i : item) : Prop :=
  match p, i with
  | Command a, ICommand args => argv_iter a = Ok args
  | Inline a, IInline args => argv_iter a = Ok args
  | _, _ => False
  end.

(** [x] is exactly one frame; it yields [oi], or nothing when it has no argument. *)
Definition frame_shows (x : list byte) (oi : option item) : Prop :=
  exists k, parse_one x lim = Ok (PFrame k (len x)) /\
  match k, oi with
  | KCommand o, Some i => shows (Command (materialize o x)) i
  | KInline o, Some i => shows (Inline (materialize o x)) i
  | KEmpty, None => True
  | _, _ => False
  end.
Definition frame_item (x : list byte) (oi : option item) : Prop := splits x /\ frame_shows x oi.

Notation frames := (list (list byte * option item)).
Definition bytes_of (fs : frames) : list byte := concat (fst <$> fs).
Definition items_of (fs : frames) : list item := omap snd fs.
(** Whole frames, then the beginning of one. *)
Definition stream (fs : frames) (t : list byte) : Prop :=
  Forall (fun f => frame_item f.1 f.2) fs /\ parse_one t lim = Ok PIncomplete.

Lemma stream_cons f fs t : stream (f :: fs) t <-> frame_item f.1 f.2 /\ stream fs t.
Proof. unfold stream. rewrite Forall_cons_iff. tauto. Qed.

(** The window [w] of a stream, [fut] still to come: its first frame is there
    or [w] is incomplete. *)
Lemma stream_window fs t w fut : stream fs t -> w ++ fut = bytes_of fs ++ t ->
  parse_one w lim = Ok PIncomplete \/
  exists x oi fs' w', fs = (x, oi) :: fs' /\ w = x ++ w' /\ w' ++ fut = bytes_of fs' ++ t.
Proof.
  intros Hs E. destruct fs as [|[x oi] fs].
  { left. destruct Hs as [_ Ht]. cbn in E. apply (incomplete_prefix w fut). by rewrite E. }
  change (bytes_of ((x, oi) :: fs)) with (x ++ bytes_of fs) in E. rewrite <- app_assoc in E.
  destruct (Z.le_gt_cases (len x) (len w)) as [Hle|Hgt].
  - right. exists x, oi, fs, (drop (length x) w).
    assert (w = x ++ drop (length x) w) as Hw.
    { rewrite <- (take_drop (length x) w) at 1. f_equal.
      apply (f_equal (take (length x))) in E. rewrite take_app_length, take_app_le in E by (unfold len in Hle; lia).
      done. }
    split_and!; [done|done|]. rewrite Hw, <- app_assoc in E. by apply app_inv_head in E.
  - left. apply stream_cons in Hs as [[Hsp (k & Hk & _)] _].
    assert (x = w ++ drop (length w) x) as Hx.
    { rewrite <- (take_drop (length w) x) at 1. f_equal.
      apply (f_equal (take (length w))) in E. rewrite take_app_length, take_app_le in E by (unfold len in Hgt; lia).
      done. }
    cbn [fst] in *. apply (frame_prefix_incomplete w (drop (length w) x) k).
    + by rewrite <- Hx.
    + by rewrite <- Hx.
    + intros Hd. rewrite Hd, app_nil_r in Hx. subst. lia.
Qed.

(** ** The iterator over its buffer *)

(** [it] reads [b], and [w] is what is left of it. *)
Definition view (it : FrameIter) (b w : list byte) : Prop :=
  limits (parser it) = lim /\ poisoned (parser it) = false /\
  match mode it with
  | Direct => acc (parser it) = [] /\ input it = b
  | Accumulated => acc (parser it) = b
  | Done => False
  end /\ exists pre, b = pre ++ w /\ len pre = pos it.
(** A live connection holding [w]. *)
Definition idle (p : ConnParser) (w : list byte) : Prop :=
  limits p = lim /\ poisoned p = false /\ acc p = w.

Lemma view_buf it b w : view it b w -> iter_buf it = Some b.
Proof. unfold view, iter_buf. destruct (mode it); naive_solver. Qed.

Lemma feed_view p chunk w : idle p w -> view (feed p chunk) (w ++ chunk) (w ++ chunk).
Proof.
  intros (Hl & Hp & Ha). unfold feed, view. rewrite Hp. case_bool_decide as Hn; cbn.
  - assert (w = []) as -> by congruence. split_and!; try done. by exists [].
  - rewrite Ha. split_and!; try done. by exists [].
Qed.

Lemma stash_view it b w : view it b w ->
  exists it', stash_tail it = Ok it' /\ mode it' = Done /\ idle (parser it') w.
Proof.
  intros (Hl & Hp & Hm & pre & E & Hpos). unfold stash_tail. destruct (mode it).
  - destruct Hm as [Ha Hi]. rewrite Hi, (proj2 (slice_from_Ok b w (pos it))) by (by exists pre).
    ok_step. eexists; split; [done|]. cbn. split; [done|]. case_bool_decide as Hw.
    + by subst w.
    + unfold idle, with_acc. cbn. rewrite Ha. by split_and!.
  - destruct (Z.eqb_spec (pos it) (len (acc (parser it)))) as [He|He].
    + ok_step. eexists; split; [done|]. cbn. split_and!; try done. unfold idle, with_acc. cbn.
      split_and!; [done|done|]. symmetry. apply len_0_nil. rewrite Hm, E, len_app in He. lia.
    + rewrite Hm, (proj2 (slice_from_Ok b w (pos it))) by (by exists pre). ok_step.
      eexists; split; [done|]. cbn. by split_and!.
  - done.
Qed.

Lemma stash_done it : mode it = Done -> exists it', stash_tail it = Ok it' /\ parser it' = parser it.
Proof. intros E. unfold stash_tail. rewrite E. by eexists. Qed.

(** One round at an incomplete window. *)
Lemma round_incomplete fuel it b w : view it b w -> parse_one w lim = Ok PIncomplete ->
  exists it', next_loop (S fuel) it = Ok (it', None) /\ mode it' = Done /\ idle (parser it') w.
Proof.
  intros Hv Hi. pose proof Hv as (Hl & _ & _ & pre & E & Hpos). cbn [next_loop].
  rewrite (view_buf _ _ _ Hv), (proj2 (slice_from_Ok b w (pos it))) by (by exists pre). ok_step.
  rewrite Hl, Hi. ok_step. destruct (stash_view it b w Hv) as (it' & -> & H). ok_step. by exists it'.
Qed.

(** One round at a frame: it is consumed, and yielded unless it is empty. *)
Lemma round_frame fuel it b x w oi : view it b (x ++ w) -> frame_shows x oi ->
  exists it', view it' b w /\
  match oi with
  | Some i => exists p, next_loop (S fuel) it = Ok (it', Some p) /\ shows p i
  | None => next_loop (S fuel) it = next_loop fuel it'
  end.
Proof.
  intros Hv (k & Hk & Hoi). pose proof Hv as (Hl & Hp & Hm & pre & E & Hpos).
  exists (mkIter (parser it) (input it) (pos it + len x) (mode it)). split.
  { unfold view. cbn [parser mode input pos]. split_and!; try done. exists (pre ++ x).
    split; [by rewrite <- app_assoc|lens]. }
  assert (slice (E:=False) b (pos it) (pos it + len x) = Ok x) as Hsl.
  { apply slice_Ok. exists pre, w. split_and!; [done|done|lia]. }
  assert (slice (E:=False) (x ++ w) 0 (len x) = Ok x) as Hsx.
  { apply slice_Ok. exists [], w. split_and!; [done|done|lia]. }
  destruct oi as [i|]; cbn [next_loop].
  all: rewrite (view_buf _ _ _ Hv), (proj2 (slice_from_Ok b (x ++ w) (pos it))) by (by exists pre); ok_step.
  all: rewrite Hl, (parse_one_frame_extend _ w _ _ Hk); ok_step; rewrite Hsx; ok_step.
  - destruct k as [o|o|]; [| |done]; cbn [pos]; rewrite Hsl; ok_step; by eexists.
  - by destruct k as [o|o|].
Qed.

(** One round at a refusal: it is yielded and the connection is closed. *)
Lemma round_error fuel it b w e : view it b w -> parse_one w lim = Ok (PError e) ->
  exists it', next_loop (S fuel) it = Ok (it', Some (ProtocolError e)) /\ mode it' = Done /\
    poisoned (parser it') = true /\ acc (parser it') = [].
Proof.
  intros Hv Er. pose proof Hv as (Hl & Hp & Hm & pre & E & Hpos). cbn [next_loop].
  rewrite (view_buf _ _ _ Hv), (proj2 (slice_from_Ok b w (pos it))) by (by exists pre). ok_step.
  rewrite Hl, Er. ok_step. by eexists.
Qed.

(** ** Whole connections *)

(** [fs1] has been consumed: the window left, and what it means for the stream. *)
Definition rest_of (fs fs1 fs2 : frames) (t w fut : list byte) : Prop :=
  fs = fs1 ++ fs2 /\ w ++ fut = bytes_of fs2 ++ t.

Lemma next_frames t fut : forall fuel fs it b w, stream fs t -> view it b w -> (length w < fuel)%nat ->
  w ++ fut = bytes_of fs ++ t ->
  (exists fs1 x i fs2 it' p w', next_loop fuel it = Ok (it', Some p) /\ shows p i /\ view it' b w' /\
     items_of fs1 = [] /\ rest_of fs (fs1 ++ [(x, Some i)]) fs2 t w' fut) \/
  (exists fs1 fs2 it' w', next_loop fuel it = Ok (it', None) /\ mode it' = Done /\
     idle (parser it') w' /\ parse_one w' lim = Ok PIncomplete /\
     items_of fs1 = [] /\ rest_of fs fs1 fs2 t w' fut).
Proof.
  induction fuel as [|fuel IH]; intros fs it b w Hs Hv Hf E; [lia|].
  destruct (stream_window fs t w fut Hs E) as [Hi|(x & oi & fs' & w' & -> & -> & E')].
  - right. destruct (round_incomplete fuel it b w Hv Hi) as (it' & -> & Hd & Hid).
    exists [], fs, it', w. by split_and!.
  - apply stream_cons in Hs as [Hx Hs]. cbn [fst snd] in Hx.
    destruct (round_frame fuel it b x w' oi Hv (proj2 Hx)) as (it' & Hv' & Hr). destruct oi as [i|].
    + destruct Hr as (p & -> & Hp). left. by exists [], x, i, fs', it', p, w'.
    + rewrite Hr. rewrite length_app in Hf.
      assert (0 < length x)%nat.
      { destruct Hx as (_ & k & Hk & _). destruct (parse_one_total x) as (r & Er & Hr').
        rewrite Hk in Er. injection Er as <-. unfold len in Hr'. lia. }
      destruct (IH fs' it' b w' Hs Hv' ltac:(lia) E')
        as [(fs1 & y & i & fs2 & it2 & p & w2 & H1 & H2 & H3 & H4 & [-> H5])|
            (fs1 & fs2 & it2 & w2 & H1 & H2 & H3 & H4 & H5 & [-> H6])].
      * left. exists ((x, None) :: fs1), y, i, fs2, it2, p, w2. by split_and!.
      * right. exists ((x, None) :: fs1), fs2, it2, w2. by split_and!.
Qed.

(** After the calls the iterator is at a window, or finished and the window stored. *)
Definition holding (it : FrameIter) (b w : list byte) : Prop :=
  view it b w \/ (mode it = Done /\ idle (parser it) w).

Lemma items_of_app fs1 fs2 : items_of (fs1 ++ fs2) = items_of fs1 ++ items_of fs2.
Proof. apply omap_app. Qed.

Lemma calls_frames t fut budget : forall fs it b w, stream fs t -> view it b w ->
  w ++ fut = bytes_of fs ++ t ->
  exists fs1 fs2 it' out w', calls budget it = Ok (it', out) /\ holding it' b w' /\
    Forall2 shows out (items_of fs1) /\ rest_of fs fs1 fs2 t w' fut /\
    ((length fs < budget)%nat -> parse_one w' lim = Ok PIncomplete).
Proof.
  induction budget as [|budget IH]; intros fs it b w Hs Hv E; cbn [calls].
  { exists [], fs, it, [], w. split_and!; [done|by left|constructor|by split|lia]. }
  unfold next. rewrite (view_buf _ _ _ Hv). change (default [] (Some b)) with b.
  assert (length w < S (length b))%nat as Hfuel.
  { destruct Hv as (_ & _ & _ & pre & -> & _). rewrite length_app. lia. }
  destruct (next_frames t fut (S (length b)) fs it b w Hs Hv Hfuel E)
    as [(fs1 & x & i & fs2 & it' & p & w' & -> & Hp & Hv' & Hi & [-> E'])|
        (fs1 & fs2 & it' & w' & -> & Hd & Hid & Hinc & Hi & Hr)]; ok_step.
  - assert (stream fs2 t) as Hs2.
    { destruct Hs as [Hs Ht]. split; [|done]. by apply Forall_app in Hs as [_ Hs]. }
    destruct (IH fs2 it' b w' Hs2 Hv' E') as (fs3 & fs4 & it2 & out & w2 & -> & Hh & Ho & [-> Hr] & Hb).
    ok_step. exists ((fs1 ++ [(x, Some i)]) ++ fs3), fs4, it2, (p :: out), w2.
    split_and!; [done|done| |by split; [rewrite app_assoc|]|].
    + rewrite !items_of_app, Hi. by constructor.
    + intros Hlt. apply Hb. rewrite !length_app in *. cbn in Hlt. lia.
  - exists fs1, fs2, it', [], w'. rewrite Hi. split_and!; [done|by right|constructor|done|done].
Qed.

Lemma feed_drive_frames p w chunk budget fs t fut : idle p w -> stream fs t ->
  (w ++ chunk) ++ fut = bytes_of fs ++ t ->
  exists fs1 fs2 p' out w', feed_drive p chunk budget = Ok (p', out) /\ idle p' w' /\
    Forall2 shows out (items_of fs1) /\ rest_of fs fs1 fs2 t w' fut /\
    ((length fs < budget)%nat -> parse_one w' lim = Ok PIncomplete).
Proof.
  intros Hid Hs E. unfold feed_drive.
  destruct (calls_frames t fut budget fs _ _ _ Hs (feed_view p chunk w Hid) E)
    as (fs1 & fs2 & it & out & w' & -> & Hh & Ho & Hr & Hb). ok_step.
  destruct Hh as [Hv|[Hd Hid']].
  - destruct (stash_view it _ _ Hv) as (it' & -> & _ & Hi). ok_step. by exists fs1, fs2, (parser it'), out, w'.
  - destruct (stash_done it Hd) as (it' & -> & Ep). ok_step. rewrite Ep.
    by exists fs1, fs2, (parser it), out, w'.
Qed.

(** A connection: feeds with the caller's budgets, in order. *)
Fixpoint run_feeds (p : ConnParser) (sched : list (list byte * nat)) : panics (ConnParser * list Parsed) :=
  match sched with
  | [] => mret (p, [])
  | (chunk, budget) :: sched =>
      '(p, out) ← feed_drive p chunk budget;
      '(p, outs) ← run_feeds p sched;
      mret (p, out ++ outs)
  end.

Lemma run_feeds_frames t sched : forall p w fs fut, idle p w -> stream fs t ->
  (w ++ concat (fst <$> sched)) ++ fut = bytes_of fs ++ t ->
  exists fs1 fs2 p' out w', run_feeds p sched = Ok (p', out) /\ idle p' w' /\
    Forall2 shows out (items_of fs1) /\ rest_of fs fs1 fs2 t w' fut.
Proof.
  induction sched as [|[chunk budget] sched IH]; intros p w fs fut Hid Hs E.
  { exists [], fs, p, [], w. cbn in E. rewrite app_nil_r in E. split_and!; [done|done|constructor|by split]. }
  change (concat (fst <$> (chunk, budget) :: sched)) with (chunk ++ concat (fst <$> sched)) in E.
  cbn [run_feeds].
  destruct (feed_drive_frames p w chunk budget fs t (concat (fst <$> sched) ++ fut) Hid Hs)
    as (fs1 & fs2 & p' & out & w' & -> & Hid' & Ho & [-> E'] & _); [by rewrite <- E, <- !app_assoc|].
  ok_step. assert (stream fs2 t) as Hs2.
  { destruct Hs as [Hs Ht]. split; [|done]. by apply Forall_app in Hs as [_ Hs]. }
  destruct (IH p' w' fs2 fut Hid' Hs2) as (fs3 & fs4 & p2 & out2 & w2 & -> & Hid2 & Ho2 & [-> E2]);
    [by rewrite <- app_assoc|].
  ok_step. exists (fs1 ++ fs3), fs4, p2, (out ++ out2), w2. split_and!; [done|done| |].
  - rewrite items_of_app. by apply Forall2_app.
  - split; [by rewrite app_assoc|done].
Qed.

(** ** Arbitrary bytes *)

(** A yielded argv can be read. *)
Definition readable (p : Parsed) : Prop :=
  match p with
  | Command a | Inline a => exists args, argv_iter a = Ok args
  | ProtocolError _ => True
  | Incomplete => False
  end.
Definition is_error (p : Parsed) : bool := match p with ProtocolError _ => true | _ => false end.

Lemma frame_readable buf k u : parse_one buf lim = Ok (PFrame k u) ->
  exists x w, buf = x ++ w /\ len x = u /\
  match k with
  | KCommand o => readable (Command (materialize o x))
  | KInline o => readable (Inline (materialize o x))
  | KEmpty => True
  end.
Proof.
  intros H. destruct (parse_one_total buf) as (r & E & Hr). rewrite H in E. injection E as <-.
  destruct k as [o|o|].
  3:{ exists (take (Z.to_nat u) buf), (drop (Z.to_nat u) buf). rewrite take_drop. split_and!; [done|lens|done]. }
  all: destruct buf as [|b l]; [done|]; unfold parse_one in H; revert H; case_bool_decide as Hb; intros H.
  - subst b. destruct (multibulk_total l lim) as (r & E & Hm). rewrite H in E. injection E as <-.
    destruct Hm as (x & rest & args & -> & <- & _ & _ & _ & Ha). exists x, rest. split_and!; [done..|]. by exists args.
  - exfalso. destruct (first_line_ex (b :: l)) as [[line|] Hf]; rewrite (parse_inline_eq _ _ _ Hf) in H.
    + destruct (inline_rest_total line lim Hargs) as (r & E & Hm). rewrite H in E. by injection E as <-.
    + revert H. clear. by repeat case_match.
  - subst b. destruct (multibulk_total l lim) as (r & E & Hm). rewrite H in E. by injection E as <-.
  - destruct (first_line_ex (b :: l)) as [[line|] Hf]; rewrite (parse_inline_eq _ _ _ Hf) in H.
    + destruct (inline_rest_total line lim Hargs) as (r & E & Hm). rewrite H in E. injection E as <-.
      destruct Hm as (_ & -> & _ & Ha). destruct Hf as (rest & -> & _). exists (line ++ [CR; LF]), rest.
      split_and!; [by rewrite <- app_assoc|lens|]. by exists (words line).
    + exfalso. revert H. clear. by repeat case_match.
Qed.

(** A connection closed by a protocol error. *)
Definition dead (p : ConnParser) : Prop := poisoned p = true /\ acc p = [].

Lemma next_any b : forall fuel it w, view it b w -> (length w < fuel)%nat ->
  exists it' r, next_loop fuel it = Ok (it', r) /\
  match r with
  | None => mode it' = Done /\ exists w', idle (parser it') w' /\ parse_one w' lim = Ok PIncomplete
  | Some p => readable p /\
      if is_error p then mode it' = Done /\ dead (parser it')
      else exists w', view it' b w'
  end.
Proof.
  induction fuel as [|fuel IH]; intros it w Hv Hf; [lia|].
  destruct (parse_one_total w) as (r & Er & Hr). destruct r as [k u| |e].
  - destruct (frame_readable w k u Er) as (x & w' & -> & Hx & Hk).
    pose proof Hv as (Hl & Hp & Hm & pre & E & Hpos).
    set (it' := mkIter (parser it) (input it) (pos it + len x) (mode it)).
    assert (Hv' : view it' b w').
    { unfold view, it'. cbn [parser mode input pos]. split_and!; try done. exists (pre ++ x).
      split; [by rewrite <- app_assoc|lens]. }
    assert (slice (E:=False) b (pos it) (pos it + len x) = Ok x) as Hsl.
    { apply slice_Ok. exists pre, w'. split_and!; [done|done|lia]. }
    assert (slice (E:=False) (x ++ w') 0 u = Ok x) as Hsx.
    { apply slice_Ok. exists [], w'. split_and!; [done|done|lia]. }
    cbn [next_loop].
    rewrite (view_buf _ _ _ Hv), (proj2 (slice_from_Ok b (x ++ w') (pos it))) by (by exists pre). ok_step.
    rewrite Hl, Er. ok_step. rewrite Hsx. ok_step. fold it'. destruct k as [o|o|].
    + cbn [pos it']. rewrite Hsl. ok_step. eexists _, _. split; [done|]. split; [done|]. by exists w'.
    + cbn [pos it']. rewrite Hsl. ok_step. eexists _, _. split; [done|]. split; [done|]. by exists w'.
    + apply (IH it' w' Hv'). rewrite length_app in Hf. unfold len in Hx. lia.
  - destruct (round_incomplete fuel it b w Hv Er) as (it' & -> & Hd & Hid). exists it', None.
    split_and!; try done. by exists w.
  - destruct (round_error fuel it b w e Hv Er) as (it' & -> & H). by eexists _, _.
Qed.

(** The outputs of a run and the connection after it: an error, if any, is the
    last output and the connection is dead; otherwise it is live. *)
Definition ended (out : list Parsed) (live : Prop) (closed : Prop) : Prop :=
  Forall readable out /\
  ((exists pre e, out = pre ++ [ProtocolError e] /\ existsb is_error pre = false /\ closed) \/
   (existsb is_error out = false /\ live)).

Lemma ended_cons p out live closed : readable p -> is_error p = false -> ended out live closed ->
  ended (p :: out) live closed.
Proof.
  intros Hp He [Ho H]. split; [by constructor|]. destruct H as [(pre & e & -> & Hn & Hc)|[Hn Hl]].
  - left. exists (p :: pre), e. cbn. by rewrite He.
  - right. cbn. by rewrite He.
Qed.

Lemma ended_app out out' live closed : Forall readable out -> existsb is_error out = false ->
  ended out' live closed -> ended (out ++ out') live closed.
Proof.
  intros H. induction H as [|p out Hp Ho IH]; cbn; [done|]. intros [He Hn]%orb_false_iff Ho'.
  by apply ended_cons, IH.
Qed.

Lemma calls_done budget it : mode it = Done -> calls budget it = Ok (it, []).
Proof.
  intros H. destruct budget; [done|]. cbn [calls]. unfold next, iter_buf. rewrite H. cbn [next_loop].
  unfold iter_buf. by rewrite H.
Qed.

Lemma calls_any b budget : forall it w, view it b w ->
  exists it' out, calls budget it = Ok (it', out) /\
    ended out (exists w', holding it' b w' /\ ((length out < budget)%nat ->
                 mode it' = Done /\ parse_one w' lim = Ok PIncomplete))
      (mode it' = Done /\ dead (parser it')).
Proof.
  induction budget as [|budget IH]; intros it w Hv; cbn [calls].
  { eexists _, _. split; [done|]. split; [constructor|]. right. split; [done|]. exists w.
    split; [by left|]. cbn. lia. }
  unfold next. rewrite (view_buf _ _ _ Hv). change (default [] (Some b)) with b.
  destruct (next_any b (S (length b)) it w Hv) as (it' & r & -> & Hr).
  { destruct Hv as (_ & _ & _ & pre & -> & _). rewrite length_app. lia. }
  ok_step. destruct r as [p|].
  - destruct Hr as [Hp Hr]. destruct (is_error p) eqn:He.
    + rewrite (calls_done budget it') by apply Hr.
      ok_step. eexists _, _. split; [done|]. split; [by constructor|]. left.
      destruct p as [| | |e]; try done. by exists [], e.
    + destruct Hr as [w' Hv']. destruct (IH it' w' Hv') as (it2 & out & -> & Ho). ok_step.
      eexists _, _. split; [done|]. apply ended_cons; try done. destruct Ho as [Ho [H|[He' (w2 & Hh & Hb)]]];
        (split; [done|]); [by left|right]. split; [done|]. exists w2. split; [done|].
      intros Hlt. apply Hb. cbn [length] in Hlt. lia.
  - destruct Hr as (Hd & w' & Hid & Hinc). eexists _, _. split; [done|]. split; [constructor|]. right.
    split; [done|]. exists w'. split; [by right|done].
Qed.

(** A connection is live with some bytes held, or dead. *)
Definition conn_ok (p : ConnParser) : Prop := (exists w, idle p w) \/ dead p.

Lemma ended_impl out (P Q P' Q' : Prop) : (P -> P') -> (Q -> Q') -> ended out P Q -> ended out P' Q'.
Proof. intros HP HQ [Ho [(pre & e & -> & Hn & H)|[Hn H]]]; (split; [done|]); [left|right]; naive_solver. Qed.

Lemma feed_drive_any p chunk budget : conn_ok p ->
  exists p' out, feed_drive p chunk budget = Ok (p', out) /\
    (dead p -> p' = p /\ out = []) /\
    (poisoned p = false -> ended out
      (exists w, idle p' w /\ ((length out < budget)%nat -> parse_one w lim = Ok PIncomplete)) (dead p')).
Proof.
  intros Hc. unfold feed_drive. destruct Hc as [[w Hid]|Hd].
  - destruct (calls_any (w ++ chunk) budget _ _ (feed_view p chunk w Hid)) as (it & out & -> & He). ok_step.
    assert (exists it', stash_tail it = Ok it' /\ ended out
      (exists w, idle (parser it') w /\ ((length out < budget)%nat -> parse_one w lim = Ok PIncomplete))
      (dead (parser it'))) as (it' & -> & He').
    { destruct He as [Ho [(pre & e & -> & Hn & Hd & Hde)|[Hn (w' & Hh & Hb)]]].
      - destruct (stash_done it Hd) as (it' & -> & Ep). exists it'. split; [done|]. split; [done|].
        left. exists pre, e. rewrite Ep. by split_and!.
      - destruct Hh as [Hv|[Hd Hi]].
        + destruct (stash_view it _ _ Hv) as (it' & -> & _ & Hi). exists it'. split; [done|]. split; [done|].
          right. split; [done|]. exists w'. split; [done|]. intros Hlt. by apply Hb.
        + destruct (stash_done it Hd) as (it' & -> & Ep). exists it'. split; [done|]. split; [done|].
          right. split; [done|]. exists w'. rewrite Ep. split; [done|]. intros Hlt. by apply Hb. }
    ok_step. eexists _, _. split; [done|]. split; [|done].
    intros [Hd _]. destruct Hid as (_ & Hf & _). congruence.
  - pose proof Hd as [Hp Ha].
    assert (feed p chunk = mkIter p chunk 0 Done) as -> by (unfold feed; by rewrite Hp).
    rewrite calls_done by done. ok_step. cbn. eexists _, _. split; [done|]. split; [done|]. congruence.
Qed.

Lemma run_feeds_any sched : forall p, conn_ok p ->
  exists p' out, run_feeds p sched = Ok (p', out) /\
    (dead p -> p' = p /\ out = []) /\
    (poisoned p = false -> ended out (exists w, idle p' w) (dead p')).
Proof.
  induction sched as [|[chunk budget] sched IH]; intros p Hc.
  { eexists _, _. split; [done|]. split; [done|]. intros Hp. split; [constructor|]. right. split; [done|].
    destruct Hc as [Hc|[? _]]; [done|congruence]. }
  cbn [run_feeds]. destruct (feed_drive_any p chunk budget Hc) as (p1 & out1 & -> & Hd1 & Ha1). ok_step.
  assert (conn_ok p1) as Hc1.
  { destruct Hc as [[w Hid]|Hd]; [|right; by destruct (Hd1 Hd) as [-> _]].
    destruct Ha1 as [_ [(pre & e & _ & _ & H)|[_ (w' & H & _)]]]; [apply Hid|by right|left; by exists w']. }
  destruct (IH p1 Hc1) as (p2 & out2 & -> & Hd2 & Ha2). ok_step. eexists _, _. split; [done|]. split.
  - intros Hd. destruct (Hd1 Hd) as [-> ->]. destruct (Hd2 Hd) as [-> ->]. done.
  - intros Hp. destruct (Ha1 Hp) as [Ho1 [(pre & e & -> & Hn & Hde)|[Hn (w' & Hi & _)]]].
    + destruct (Hd2 Hde) as [-> ->]. rewrite app_nil_r. split; [done|]. left. by exists pre, e.
    + apply ended_app; [done|done|]. apply Ha2. apply Hi.
Qed.

(** ** A feed that ends at a frame, inside one, or at a refusal *)

Lemma feed_drive_incomplete p w chunk budget : idle p w -> parse_one (w ++ chunk) lim = Ok PIncomplete ->
  exists p', feed_drive p chunk (S budget) = Ok (p', []) /\ idle p' (w ++ chunk).
Proof.
  intros Hid Hi. unfold feed_drive. cbn [calls]. pose proof (feed_view p chunk w Hid) as Hv. unfold next.
  destruct (round_incomplete (length (default [] (iter_buf (feed p chunk)))) _ _ _ Hv Hi) as (it & -> & Hd & Hid'). ok_step.
  destruct (stash_done it Hd) as (it' & -> & Ep). ok_step. exists (parser it'). by rewrite Ep.
Qed.

Lemma feed_drive_error p w chunk budget e : idle p w -> parse_one (w ++ chunk) lim = Ok (PError e) ->
  exists p', feed_drive p chunk (S budget) = Ok (p', [ProtocolError e]) /\ dead p'.
Proof.
  intros Hid Hi. unfold feed_drive. cbn [calls]. pose proof (feed_view p chunk w Hid) as Hv. unfold next.
  destruct (round_error (length (default [] (iter_buf (feed p chunk)))) _ _ _ _ Hv Hi) as (it & -> & Hd & Hid'). ok_step.
  rewrite (calls_done budget it Hd). ok_step. destruct (stash_done it Hd) as (it' & -> & Ep). ok_step.
  exists (parser it'). by rewrite Ep.
Qed.

Lemma feed_drive_frame p w chunk budget i : idle p w -> frame_shows (w ++ chunk) (Some i) ->
  exists p' q, feed_drive p chunk (S budget) = Ok (p', [q]) /\ shows q i /\ idle p' [].
Proof.
  intros Hid Hi. unfold feed_drive. cbn [calls]. pose proof (feed_view p chunk w Hid) as Hv. unfold next.
  rewrite <- (app_nil_r (w ++ chunk)) in Hv at 2.
  destruct (round_frame (length (default [] (iter_buf (feed p chunk)))) _ _ _ _ _ Hv Hi) as (it & Hv' & q & -> & Hq). ok_step.
  assert (exists it', calls budget it = Ok (it', []) /\ holding it' (w ++ chunk) []) as (it1 & -> & Hh).
  { destruct budget as [|budget]; cbn [calls]; [exists it; split; [done|by left]|]. unfold next.
    destruct (round_incomplete (length (default [] (iter_buf it))) it _ [] Hv' eq_refl) as (it1 & -> & H). ok_step.
    exists it1. split; [done|by right]. }
  ok_step. destruct Hh as [Hv1|[Hd Hid1]].
  - destruct (stash_view it1 _ _ Hv1) as (it2 & -> & _ & H). ok_step. by exists (parser it2), q.
  - destruct (stash_done it1 Hd) as (it2 & -> & Ep). ok_step. exists (parser it2), q. by rewrite Ep.
Qed.

(** ** An inline line as long as the bulk cap *)

Section AtTheCap.
Context (line : list byte).
Hypothesis Hstar : head line <> Some "*"%byte.
Hypothesis Hline : forall k, 0 <= k -> crlf_at line k = false.
Hypothesis Hwords : words line <> [].
Hypothesis Hcount : len (words line) <= max_args lim.
Hypothesis Hlen : len line = max_bulk_bytes lim.
Hypothesis Hcap : len line + 2 <= frame_cap lim.

Lemma line_no_crlf y k : 0 <= k < len line -> head y <> Some LF -> crlf_at (line ++ y) k = false.
Proof.
  intros Hk Hy. destruct (decide (k + 1 < len line)) as [Hlt|Hge]; [by rewrite crlf_at_extend by lia; apply Hline; lia|].
  unfold crlf_at, is_lf. rewrite (bool_decide_false (get _ (k + 1) = _)); [apply andb_false_r|].
  intros (a & b & E & Ha)%get_split. apply app_len_inj in E as [_ ->]; [by apply Hy|lia].
Qed.

Lemma whole_line : first_line (line ++ [CR; LF]) (Some line).
Proof.
  exists []. split; [done|]. pose proof (len_nonneg line). split_and!; [done| |].
  - unfold crlf_at, is_cr, is_lf. rewrite !bool_decide_true; [done| |]; apply get_split;
      [exists (line ++ [CR]), []; rewrite <- app_assoc; split; [done|lens]|by exists line, [LF]].
  - intros k Hk. by apply line_no_crlf.
Qed.

Lemma whole_frame : frame_shows (line ++ [CR; LF]) (Some (IInline (words line))).
Proof.
  destruct (inline_rest_total line lim Hargs) as (r & E & Hr). pose proof whole_line as Hf.
  unfold frame_shows. rewrite len_app. change (len [CR; LF]) with 2.
  assert (parse_one (line ++ [CR; LF]) lim = Ok r) as ->.
  { destruct line as [|b l]; [by destruct Hwords|]. unfold parse_one. cbn [app head] in *.
    rewrite bool_decide_false by congruence. by rewrite (parse_inline_eq _ _ _ Hf). }
  destruct r as [[o|o|] u| |]; [done| |by destruct Hr|done|lia].
  destruct Hr as (_ & -> & _ & Ha). exists (KInline o). split; [done|]. apply Ha.
Qed.

Lemma part_parse x y : x ++ y = line ++ [CR; LF] -> y <> [] ->
  parse_one x lim = Ok (if bool_decide (x = line ++ [CR])
                        then PError (FrameTooLarge (max_bulk_bytes lim + 1) (max_bulk_bytes lim)) else PIncomplete).
Proof.
  intros E Hy. destruct x as [|b x]; [by rewrite bool_decide_false by (by destruct line)|].
  assert (Hx : len (b :: x) + len y = len line + 2) by (rewrite <- len_app, E; lens).
  assert (0 < len y) by (destruct y; [done|lens]).
  assert (Hf : first_line (b :: x) None).
  { intros k Hk. destruct (decide (k + 1 < len (b :: x))) as [Hlt|Hge].
    - rewrite <- (crlf_at_extend _ y) by lia. rewrite E. apply line_no_crlf; [lia|done].
    - apply andb_false_iff. right. apply bool_decide_eq_false. intros ?%get_lt. lia. }
  assert (b <> "*"%byte).
  { intros ->. destruct line as [|c l]; [by destruct Hwords|]. cbn in E, Hstar. congruence. }
  unfold parse_one. rewrite bool_decide_false, (parse_inline_eq _ _ _ Hf) by done. unfold mret, outcome_ret. f_equal.
  case_bool_decide as Hcr.
  - rewrite Hcr. replace (len (line ++ [CR])) with (max_bulk_bytes lim + 1) by lens.
    by rewrite (proj2 (Z.ltb_lt _ _)) by lia.
  - assert (len (b :: x) <= len line).
    { destruct (decide (len y = 1)) as [Hy1|]; [|lia]. exfalso. apply Hcr.
      change (line ++ [CR; LF]) with (line ++ [CR] ++ [LF]) in E. rewrite app_assoc in E.
      apply app_len_inj in E as [-> _]; [done|lens]. }
    by rewrite !(proj2 (Z.ltb_ge _ _)) by lia.
Qed.
End AtTheCap.

End Frames.

Lemma run_feeds_app s1 s2 : forall p, run_feeds p (s1 ++ s2) =
  ('(p1, o1) ← run_feeds p s1; '(p2, o2) ← run_feeds p1 s2; mret (p2, o1 ++ o2)).
Proof.
  induction s1 as [|[c b] s1 IH]; intros p; cbn [app run_feeds].
  { ok_step. by destruct (run_feeds p s2) as [[]| |]. }
  destruct (feed_drive p c b) as [[p1 o1]| |]; ok_step; [|done..]. rewrite IH.
  destruct (run_feeds p1 s1) as [[p2 o2]| |]; ok_step; [|done..].
  destruct (run_feeds p2 s2) as [[p3 o3]| |]; ok_step; [|done..]. by rewrite app_assoc.
Qed.

Lemma new_idle lim : idle lim (parser_new lim) [].
Proof. done. Qed.

(** C27. The commands a connection delivers depend on its bytes only: whatever
    way a well-framed stream, whose inline lines are shorter than the bulk cap, is
    cut into feeds, and wherever the caller stops
    early on the way, once a feed is drained the values yielded are exactly the
    frames' commands, in order and with their exact arguments; the bytes kept
    are exactly the unfinished tail, and the connection is not poisoned. *)
Theorem delivery_split_independent lim fs t sched chunk budget :
  0 <= max_args lim -> stream lim fs t ->
  concat (fst <$> sched) ++ chunk = bytes_of fs ++ t -> (length fs < budget)%nat ->
  exists p out, run_feeds (parser_new lim) (sched ++ [(chunk, budget)]) = Ok (p, out) /\
    Forall2 shows out (items_of fs) /\ acc p = t /\ is_poisoned p = false.
Proof.
  intros Hargs Hs E Hb. rewrite run_feeds_app.
  destruct (run_feeds_frames lim Hargs t sched (parser_new lim) [] fs chunk (new_idle lim) Hs)
    as (fs1 & fs2 & p1 & o1 & w1 & -> & Hid1 & Ho1 & [-> E1]); [done|]. ok_step. cbn [run_feeds].
  assert (Hs2 : stream lim fs2 t).
  { destruct Hs as [Hs Ht]. split; [|done]. by apply Forall_app in Hs as [_ Hs]. }
  destruct (feed_drive_frames lim Hargs p1 w1 chunk budget fs2 t [] Hid1 Hs2)
    as (fs3 & fs4 & p2 & o2 & w2 & -> & Hid2 & Ho2 & [-> E2] & Hinc); [by rewrite app_nil_r|]. ok_step.
  rewrite app_nil_r in E2. rewrite length_app in Hb. specialize (Hinc ltac:(lia)).
  assert (fs4 = []) as ->.
  { destruct fs4 as [|[x oi] fs4]; [done|]. destruct Hs2 as [Hs2 _].
    apply Forall_app in Hs2 as [_ [(_ & k & Hk & _) _]%Forall_cons_iff].
    rewrite E2 in Hinc. change (bytes_of ((x, oi) :: fs4)) with (x ++ bytes_of fs4) in Hinc.
    rewrite <- app_assoc in Hinc. by rewrite (parse_one_frame_extend _ _ _ _ _ Hk) in Hinc. }
  eexists _, _. split; [done|]. rewrite !app_nil_r. destruct Hid2 as (_ & Hp & Ha).
  split_and!; [|by rewrite Ha, E2|done]. rewrite items_of_app. by apply Forall2_app.
Qed.

(** C29. No input breaks the connection: whatever bytes arrive, in whatever
    feeds and with whatever budgets, no call panics or runs out of rounds;
    every argv handed out can be read to its last argument; and a protocol
    error is final - it is the last thing the connection yields, it empties the
    accumulator, and every later feed yields nothing. *)
Theorem connection_safe lim sched :
  0 <= max_args lim ->
  exists p out, run_feeds (parser_new lim) sched = Ok (p, out) /\ Forall readable out /\
    ((exists pre e, out = pre ++ [ProtocolError e] /\ existsb is_error pre = false /\
        is_poisoned p = true /\ buffered p = 0 /\
        forall sched', run_feeds p sched' = Ok (p, [])) \/
     (existsb is_error out = false /\ is_poisoned p = false)).
Proof.
  intros Hargs. destruct (run_feeds_any lim Hargs sched (parser_new lim)) as (p & out & E & _ & H).
  { left. by exists []. }
  exists p, out. split; [done|]. destruct (H eq_refl) as [Ho [(pre & e & -> & Hn & Hd)|[Hn (w & Hi)]]];
    (split; [done|]).
  - left. exists pre, e. pose proof Hd as [Hp Ha]. split_and!; try done.
    + unfold buffered. by rewrite Ha.
    + intros sched'. destruct (run_feeds_any lim Hargs sched' p) as (p' & out' & -> & Hd' & _); [by right|].
      by destruct (Hd' Hd) as [-> ->].
  - right. split; [done|]. apply Hi.
Qed.

(** The accumulator is bounded whatever a peer sends: once a feed is
    drained, the bytes a connection keeps are at most the frame cap plus the 22
    bytes of one unfinished length line. *)
Theorem accumulator_bounded lim sched p outs chunk budget p' out :
  0 <= max_args lim -> 23 <= frame_cap lim ->
  run_feeds (parser_new lim) sched = Ok (p, outs) ->
  feed_drive p chunk budget = Ok (p', out) -> (length out < budget)%nat ->
  buffered p' <= frame_cap lim + 22.
Proof.
  intros Hargs Hcap Hr Hf Hb.
  destruct (run_feeds_any lim Hargs sched (parser_new lim)) as (p1 & o1 & E & _ & H); [left; by exists []|].
  rewrite Hr in E. injection E as <- <-.
  assert (conn_ok lim p) as Hc.
  { destruct (H eq_refl) as [_ [(pre & e & _ & _ & Hd)|[_ Hw]]]; [by right|by left]. }
  destruct (feed_drive_any lim Hargs p chunk budget Hc) as (p2 & o2 & E & Hd & Ha).
  rewrite Hf in E. injection E as <- <-. unfold buffered. destruct (poisoned p) eqn:Hp.
  - destruct Hc as [[w (_ & Hq & _)]|Hde]; [congruence|]. destruct (Hd Hde) as [-> _].
    destruct Hde as [_ ->]. change (len (@nil byte)) with 0. lia.
  - destruct (Ha eq_refl) as [_ [(pre & e & _ & _ & [_ ->])|[_ (w & (_ & _ & ->) & Hinc)]]].
    + change (len (@nil byte)) with 0. lia.
    + destruct (parse_one_total lim Hargs w) as (r & Er & Hlen). rewrite Hinc in Er by done.
      injection Er as <-. lia.
Qed.

(** ** Examples *)

(** [*2\r\n$3\r\nGET\r\n$1\r\nk\r\n] *)
Definition ex_get : list byte :=
  text [42;50;13;10; 36;51;13;10;71;69;84;13;10; 36;49;13;10;107;13;10].
(** [PING\r\n] *)
Definition ex_ping : list byte := text [80;73;78;71;13;10].
Definition ex_tail : list byte := text [42;49;13].

Definition ex_frames : list (list byte * option item) :=
  [(ex_get, Some (ICommand [text [71;69;84]; text [107]])); (text [42;48;13;10], None);
   (ex_ping, Some (IInline [text [80;73;78;71]]))].

Lemma ex_stream : stream small_limits ex_frames ex_tail.
Proof.
  split; [|by vm_compute]. constructor; [|constructor; [|constructor; [|constructor]]].
  all: split; [first [by left | by right]|]; eexists; split; by vm_compute.
Qed.

(** The stream cut inside a length line, with a caller that stops after one command. *)
Lemma delivery_split_independent_witness :
  exists p out, run_feeds (parser_new small_limits)
    ([(take 7 (bytes_of ex_frames ++ ex_tail), 5%nat);
      (take 15 (drop 7 (bytes_of ex_frames ++ ex_tail)), 1%nat)] ++
     [(drop 22 (bytes_of ex_frames ++ ex_tail), 4%nat)]) = Ok (p, out) /\
    Forall2 shows out (items_of ex_frames) /\ acc p = ex_tail /\ is_poisoned p = false.
Proof.
  apply (delivery_split_independent small_limits); [done|exact ex_stream|by vm_compute|cbn; lia].
Defined.

Lemma connection_safe_witness :
  exists p out, run_feeds (parser_new small_limits) [(ex_ping ++ text [42;120], 9%nat)] = Ok (p, out) /\
    length out = 2%nat /\ is_poisoned p = true.
Proof.
  destruct (connection_safe small_limits [(ex_ping ++ text [42;120], 9%nat)] ltac:(done)) as (p & out & E & _).
  exists p, out. split; [exact E|]. revert E. vm_compute. intros [= <- <-]. done.
Defined.

(** A frame of 64 bytes whose arguments are not all there, then a 22-byte line. *)
Definition ex_full : list byte :=
  text [42;52;13;10] ++ (text [36;48;48;48;48;56;13;10] ++ replicate 8 x61 ++ [CR; LF]) ++
  (text [36;48;48;48;48;48;48;48;48;56;13;10] ++ replicate 8 x61 ++ [CR; LF]) ++
  (text [36;48;48;48;48;48;48;56;13;10] ++ replicate 8 x61 ++ [CR; LF] ) ++
  text [36;43] ++ replicate 19 x31 ++ [CR].

Lemma accumulator_bounded_witness :
  exists p', feed_drive (parser_new small_limits) ex_full 9 = Ok (p', []) /\ buffered p' <= 64 + 22.
Proof.
  assert (exists p', feed_drive (parser_new small_limits) ex_full 9 = Ok (p', [])) as [p' E]
    by (eexists; by vm_compute).
  exists p'. split; [exact E|].
  refine (accumulator_bounded small_limits [] (parser_new small_limits) [] ex_full 9 p' [] _ _ _ E _).
  - done.
  - done.
  - reflexivity.
  - cbn. lia.
Defined.

(** ** Where the code departs from its description *)

(** C40. An inline command whose line is exactly as long as the bulk cap, within
    the other caps, is delivered with its words however its bytes are cut into two
    feeds, except when the cut falls between its CR and its LF: then the
    connection is refused and closed. This holds for every limits and line. *)
Theorem inline_cap_depends_on_split lim line x y b1 b2 :
  0 <= max_args lim -> head line <> Some "*"%byte -> (forall k, 0 <= k -> crlf_at line k = false) ->
  words line <> [] -> len (words line) <= max_args lim ->
  len line = max_bulk_bytes lim -> len line + 2 <= frame_cap lim -> x ++ y = line ++ [CR; LF] ->
  exists p out, run_feeds (parser_new lim) [(x, S b1); (y, S b2)] = Ok (p, out) /\
    if bool_decide (x = line ++ [CR])
    then out = [ProtocolError (FrameTooLarge (max_bulk_bytes lim + 1) (max_bulk_bytes lim))] /\ is_poisoned p = true
    else Forall2 shows out [IInline (words line)] /\ is_poisoned p = false /\ buffered p = 0.
Proof.
  intros Hargs Hstar Hline Hwords Hcount Hlen Hcap E. cbn [run_feeds].
  pose proof (whole_frame lim Hargs line Hstar Hline Hwords Hcount Hlen Hcap) as Hw.
  destruct (decide (y = [])) as [-> |Hy].
  { rewrite app_nil_r in E. subst x. rewrite bool_decide_false by (intros H%app_inv_head; discriminate H).
    destruct (feed_drive_frame lim Hargs (parser_new lim) [] _ b1 _ (new_idle lim) Hw) as (p1 & q & -> & Hq & Hid1). ok_step.
    destruct (feed_drive_incomplete lim Hargs p1 [] [] b2 Hid1 eq_refl) as (p2 & -> & _ & Hp & Ha). ok_step.
    eexists _, _. split; [done|]. unfold buffered. rewrite Ha. split_and!; [by repeat constructor|done|done]. }
  pose proof (part_parse lim line Hstar Hline Hwords Hcount Hlen Hcap x y E Hy) as Hx. case_bool_decide as Hcr.
  - destruct (feed_drive_error lim Hargs (parser_new lim) [] x b1 _ (new_idle lim) Hx) as (p1 & -> & Hd). ok_step.
    destruct (feed_drive_any lim Hargs p1 y (S b2) (or_intror Hd)) as (p2 & o2 & -> & Hdead & _). ok_step.
    destruct (Hdead Hd) as [-> ->]. eexists _, _. split; [done|]. split; [done|apply Hd].
  - destruct (feed_drive_incomplete lim Hargs (parser_new lim) [] x b1 (new_idle lim) Hx) as (p1 & -> & Hid1). ok_step.
    cbn [app] in Hid1. rewrite <- E in Hw.
    destruct (feed_drive_frame lim Hargs p1 x y b2 _ Hid1 Hw) as (p2 & q & -> & Hq & _ & Hp & Ha). ok_step.
    eexists _, _. split; [done|]. unfold buffered. rewrite Ha. split_and!; [by repeat constructor|done|done].
Qed.

(** Eight bytes at a cap of eight, cut between CR and LF and inside the word. *)
Lemma inline_cap_depends_on_split_witness :
  (exists p, run_feeds (parser_new small_limits) [(replicate 8 x41 ++ [CR], 1%nat); ([LF], 1%nat)] =
     Ok (p, [ProtocolError (FrameTooLarge 9 8)])) /\
  (exists p a, run_feeds (parser_new small_limits) [(replicate 3 x41, 1%nat); (replicate 5 x41 ++ [CR; LF], 1%nat)] =
     Ok (p, [Inline a])).
Proof.
  assert (Hno : forall k, 0 <= k -> crlf_at (replicate 8 x41) k = false).
  { intros k _. unfold crlf_at, is_cr. rewrite bool_decide_false; [done|].
    intros [_ H%lookup_replicate_1]%get_Some. by destruct H. }
  pose proof (fun x y => inline_cap_depends_on_split small_limits (replicate 8 x41) x y 0 0 ltac:(done) ltac:(done)
    Hno ltac:(done) ltac:(done) eq_refl ltac:(done)) as H. split.
  - destruct (H (replicate 8 x41 ++ [CR]) [LF] eq_refl) as (p & out & E & -> & _). by exists p.
  - destruct (H (replicate 3 x41) (replicate 5 x41 ++ [CR; LF]) eq_refl) as (p & out & E & Hs & _).
    exists p. inversion Hs as [|q i out' l Hq Hn]; subst. inversion Hn; subst. destruct q as [|a| |]; try done. by exists a.
Defined.

(** The accumulator can hold more than the frame cap: 64 bytes of complete
    bulks and an unfinished length line of 22. *)
Lemma accumulator_exceeds_frame_cap :
  exists p, feed_drive (parser_new small_limits) ex_full 9 = Ok (p, []) /\
    buffered p = 86 /\ max_frame_bytes small_limits = 64.
Proof. eexists. split; [by vm_compute|]. by vm_compute. Qed.

End RespConn.
