(* ===== verification/RespWriter.v ===== *)
(** * RESP reply writer ([crates/inf-wire/src/writer.rs], [limits.rs])

    The reply serializer: decimal headers through a stack buffer, line-framed
    replies with their sanitisation, length-prefixed replies, the patched bulk
    whose length is known only after its payload, and marks with rollback. The
    send buffer is a list of bytes; an out-of-range index is a panic. *)

From S2P Require Import Prelude Group16 Swar Crlf Resp.

Module RespWriter.
Import Swar Crlf Resp.

(** ** Decimal formatting *)

(** The [loop] of [utoa]: a digit per round, from the end of the buffer. *)
Fixpoint utoa_loop (fuel : nat) (buf : list byte) (at_ magnitude : Z) : panics (list byte * Z) :=
  match fuel with
  | O => Panic
  | S fuel =>
      let at_ := at_ - 1 in
      buf ← set_at buf at_ (b8 (48 + magnitude mod 10));
      let magnitude := magnitude / 10 in
      if magnitude =? 0 then mret (buf, at_) else utoa_loop fuel buf at_ magnitude
  end.
Definition utoa (magnitude : Z) (negative : bool) : panics (list byte) :=
  let buf := replicate 20 x00 in
  '(buf, at_) ← utoa_loop 20 buf (len buf) magnitude;
  if negative then
    let at_ := at_ - 1 in
    buf ← set_at buf at_ "-"%byte;
    slice_from buf at_
  else slice_from buf at_.
Definition itoa (value : Z) : panics (list byte) := utoa (Z.abs value) (value <? 0).

(** ** The writer *)

Inductive Protocol := Resp2 | Resp3.
Record RespWriter := mkWriter { out : list byte; proto : Protocol }.
Definition put (w : RespWriter) (l : list byte) : RespWriter := mkWriter (out w ++ l) (proto w).
Definition CRLF : list byte := [CR; LF].

Definition ReplyMark : Type := Z.
Definition mark (w : RespWriter) : ReplyMark := len (out w).
(** [Vec::truncate]. *)
Definition truncate (l : list byte) (n : Z) : list byte := take (Z.to_nat n) l.
Definition rollback (w : RespWriter) (m : ReplyMark) : RespWriter :=
  mkWriter (truncate (out w) m) (proto w).
Definition buffered_bytes (w : RespWriter) : Z := len (out w).

Definition raw_int (w : RespWriter) (value : Z) : panics RespWriter :=
  text ← itoa value; mret (put w text).
Definition raw_len (w : RespWriter) (n : Z) : panics RespWriter :=
  text ← utoa n false; mret (put w text).

(** *** Line breaks, eight bytes at a time *)

Definition ONES : Z := 0x0101010101010101.
Definition HIGH : Z := 0x8080808080808080.
Definition has_zero_byte (word : Z) : Z :=
  Z.land (Z.land (wrap 64 (word - ONES)) (Z.lnot word)) HIGH.
Definition is_break (b : byte) : bool := bool_decide (b = CR) || bool_decide (b = LF).
(** [chunks_exact(8)], then the remainder. *)
Fixpoint break_chunks (text : list byte) : bool :=
  match text with
  | b0 :: b1 :: b2 :: b3 :: b4 :: b5 :: b6 :: b7 :: rest =>
      let word := le_val [b0; b1; b2; b3; b4; b5; b6; b7] in
      let cr := has_zero_byte (Z.lxor word (wrap 64 (ONES * u8 CR))) in
      let lf := has_zero_byte (Z.lxor word (wrap 64 (ONES * u8 LF))) in
      if negb (Z.lor cr lf =? 0) then true else break_chunks rest
  | remainder => existsb is_break remainder
  end.
Definition contains_line_break (text : list byte) : bool :=
  if len text <? 8 then existsb is_break text else break_chunks text.

(** *** Line-framed replies *)

Fixpoint position (p : byte -> bool) (l : list byte) : option Z :=
  match l with [] => None | b :: l => if p b then Some 0 else i ← position p l; Some (1 + i) end.
(** The last index that satisfies [p]. *)
Definition rposition (p : byte -> bool) (l : list byte) : option Z :=
  i ← position p (rev l); Some (len l - 1 - i).

Definition push_line_sanitized (w : RespWriter) (tag : byte) (text : list byte) : panics RespWriter :=
  let start := default (len text) (position (fun b => negb (is_break b)) text) in
  let end_ := match rposition (fun b => negb (is_break b)) text with Some i => i + 1 | None => start end in
  let out1 := out w ++ [tag] in
  body ← slice text start end_;
  let out2 := out1 ++ ((fun b => if is_break b then x20 else b) <$> body) in
  mret (mkWriter (out2 ++ CRLF) (proto w)).
Definition push_line (w : RespWriter) (tag : byte) (text : list byte) : panics RespWriter :=
  if contains_line_break text then push_line_sanitized w tag text
  else mret (put (put (put w [tag]) text) CRLF).
Definition simple (w : RespWriter) (text : list byte) : panics RespWriter := push_line w "+"%byte text.
Definition error_bytes (w : RespWriter) (text : list byte) : panics RespWriter := push_line w "-"%byte text.
Definition error (w : RespWriter) (text : list byte) : panics RespWriter := error_bytes w text.

(** *** Length-prefixed replies *)

Definition int (w : RespWriter) (value : Z) : panics RespWriter :=
  w ← raw_int (put w [":"%byte]) value; mret (put w CRLF).
Definition bulk (w : RespWriter) (bytes : list byte) : panics RespWriter :=
  w ← raw_len (put w ["$"%byte]) (len bytes);
  mret (put (put (put w CRLF) bytes) CRLF).
Definition null (w : RespWriter) : RespWriter :=
  match proto w with
  | Resp2 => put w (["$"%byte; "-"%byte; "1"%byte] ++ CRLF)
  | Resp3 => put w (["_"%byte] ++ CRLF)
  end.
Definition null_array (w : RespWriter) : RespWriter :=
  match proto w with
  | Resp2 => put w (["*"%byte; "-"%byte; "1"%byte] ++ CRLF)
  | Resp3 => put w (["_"%byte] ++ CRLF)
  end.
Definition header (w : RespWriter) (tag : byte) (n : Z) : panics RespWriter :=
  w ← raw_len (put w [tag]) n; mret (put w CRLF).
Definition array_header (w : RespWriter) (n : Z) : panics RespWriter := header w "*"%byte n.
Definition push_header (w : RespWriter) (n : Z) : panics RespWriter :=
  match proto w with Resp2 => array_header w n | Resp3 => header w ">"%byte n end.
Definition map_header (w : RespWriter) (pairs : Z) : panics RespWriter :=
  match proto w with
  | Resp2 => array_header w (wrap 64 (pairs * 2))
  | Resp3 => header w "%"%byte pairs
  end.
Definition bool_ (w : RespWriter) (value : bool) : panics RespWriter :=
  match proto w with
  | Resp2 => int w (Z.b2z value)
  | Resp3 => mret (put w (["#"%byte; if value then "t"%byte else "f"%byte] ++ CRLF))
  end.
Definition verbatim (w : RespWriter) (kind text : list byte) : panics RespWriter :=
  match proto w with
  | Resp2 => bulk w text
  | Resp3 =>
      w ← raw_len (put w ["="%byte]) (len text + 4);
      mret (put (put (put (put (put w CRLF) kind) [":"%byte]) text) CRLF)
  end.
Definition big_number (w : RespWriter) (digits : list byte) : panics RespWriter :=
  match proto w with
  | Resp2 => bulk w digits
  | Resp3 => mret (put (put (put w ["("%byte]) digits) CRLF)
  end.

(** *** Doubles

    [pieces] is what [Display] hands to [write_str] for the value, and [utf8]
    decides [str::from_utf8]. *)

Definition F64_DISPLAY_MAX : Z := 336.
Record FmtBuf := mkFmt { fbuf : list byte; flen : Z }.
Definition write_at (l : list byte) (i : Z) (x : list byte) : panics (list byte) :=
  if (0 <=? i) && (i + len x <=? len l)
  then mret (take (Z.to_nat i) l ++ x ++ drop (Z.to_nat (i + len x)) l) else Panic.
Definition write_str (f : FmtBuf) (s : list byte) : outcome unit FmtBuf :=
  if len (fbuf f) <? flen f + len s then Err tt
  else
    match write_at (fbuf f) (flen f) s with
    | Ok b => Ok (mkFmt b (flen f + len s))
    | _ => Panic
    end.
Fixpoint write_fmt (f : FmtBuf) (pieces : list (list byte)) : outcome unit FmtBuf :=
  match pieces with [] => Ok f | s :: pieces => f ← write_str f s; write_fmt f pieces end.
Definition format (utf8 : list byte -> bool) (f : FmtBuf) (pieces : list (list byte)) : panics (list byte) :=
  match write_fmt (mkFmt (fbuf f) 0) pieces with
  | Ok f => text ← slice (fbuf f) 0 (flen f); rassert (utf8 text) ≫= fun _ => mret text
  | _ => Panic
  end.
Definition double (utf8 : list byte -> bool) (w : RespWriter) (pieces : list (list byte)) : panics RespWriter :=
  text ← format utf8 (mkFmt (replicate 336 x00) 0) pieces;
  match proto w with
  | Resp2 => bulk w text
  | Resp3 => mret (put (put (put w [","%byte]) text) CRLF)
  end.

(** [decimal_digits]: [while value >= 10]. *)
Fixpoint decimal_digits_loop (fuel : nat) (value digits : Z) : Z :=
  match fuel with
  | O => digits
  | S fuel => if 10 <=? value then decimal_digits_loop fuel (value / 10) (digits + 1) else digits
  end.
Definition decimal_digits (value : Z) : Z := decimal_digits_loop 20 value 1.
Definition DOUBLE_REPLY_BYTES_MAX : Z :=
  let display := F64_DISPLAY_MAX in
  let resp2 := 1 + decimal_digits display + 2 + display + 2 in
  let resp3 := 1 + display + 2 in
  if resp3 <? resp2 then resp2 else resp3.

(** *** The patched bulk *)

Definition PATCHED_DIGITS : Z := 8.
Definition PATCHED_HEADER_SLACK_BYTES : Z := PATCHED_DIGITS - 1.
(** [copy_within(src..end, dest)]: an overlapping move. *)
Definition copy_within (l : list byte) (src end_ dest : Z) : panics (list byte) :=
  x ← slice l src end_; write_at l dest x.

Definition widen_patched_header (out : list byte) (digits_at payload_at : Z) (text : list byte)
  : panics (list byte) :=
  let extra := len text - PATCHED_DIGITS in
  let old_len := len out in
  let out := out ++ replicate (Z.to_nat extra) x00 in
  out ← copy_within out payload_at old_len (payload_at + extra);
  out ← write_at out digits_at text;
  write_at out (digits_at + len text) CRLF.

(** [build] appends to the buffer it is given, and may fail. *)
Definition try_bulk_patched {E} (w : RespWriter) (build : list byte -> list byte * option E)
  : panics (RespWriter * option E) :=
  let frame_at := len (out w) in
  let out1 := out w ++ ["$"%byte] in
  let digits_at := len out1 in
  let out2 := out1 ++ replicate 8 "0"%byte ++ CRLF in
  let payload_at := digits_at + PATCHED_DIGITS + 2 in
  let '(out3, r) := build out2 in
  match r with
  | Some e => mret (mkWriter (truncate out3 frame_at) (proto w), Some e)
  | None =>
      let n := wrap 64 (len out3 - payload_at) in
      text ← utoa n false;
      out4 ← (if len text <=? PATCHED_DIGITS then
                let gap := PATCHED_DIGITS - len text in
                o ← write_at out3 digits_at text;
                o ← write_at o (digits_at + len text) CRLF;
                if 0 <? gap then
                  o ← copy_within o payload_at (len o) (payload_at - gap);
                  mret (truncate o (len o - gap))
                else mret o
              else widen_patched_header out3 digits_at payload_at text);
      mret (mkWriter (out4 ++ CRLF) (proto w), None)
  end.
Definition bulk_patched (w : RespWriter) (build : list byte -> list byte) : panics RespWriter :=
  '(w, r) ← try_bulk_patched (E:=False) w (fun o => (build o, None));
  match r : option False with None => mret w | Some e => match e with end end.

(** ** Decimal headers *)

(** The decimal digits of [m], without leading zeros. *)
Definition canon (m : Z) (ds : list byte) : Prop :=
  all_digits ds /\ decimal ds = m /\ ds <> [] /\ (len ds = 1 \/ 10 ^ (len ds - 1) <= m).

Lemma digit_byte d : 0 <= d < 10 -> u8 (b8 (48 + d)) = 48 + d /\ is_digit (b8 (48 + d)) = true.
Proof. intros. rewrite is_digit_range, u8_b8_small by lia. lia. Qed.

Lemma canon_len m ds k : canon m ds -> 0 <= k -> m < 10 ^ k -> len ds <= Z.max 1 k.
Proof.
  intros (_ & _ & _ & [H|H]) Hk Hm; [lia|]. destruct (Z.le_gt_cases (len ds) k); [lia|].
  assert (10 ^ k <= 10 ^ (len ds - 1)) by (apply Z.pow_le_mono_r; lia). lia.
Qed.

Lemma canon_snoc m ds : canon (m / 10) ds -> m / 10 <> 0 -> 0 <= m ->
  canon m (ds ++ [b8 (48 + m mod 10)]).
Proof.
  intros (Hd & Hv & Hne & Hl) H0 Hm. pose proof (Z.mod_pos_bound m 10 ltac:(lia)).
  destruct (digit_byte (m mod 10)) as [Hu Hi]; [lia|]. pose proof (Z.div_mod m 10 ltac:(lia)).
  pose proof (Z.div_pos m 10 Hm ltac:(lia)).
  split_and!; [apply Forall_app_2; [done|by constructor]| | |].
  - rewrite decimal_app. cbn. unfold dec_step. rewrite Hv, Hu. lia.
  - by destruct ds.
  - right. rewrite len_app. change (len [_]) with 1. rewrite Z.add_simpl_r.
    destruct Hl as [-> |Hl]; [change (10 ^ 1) with 10; lia|].
    replace (len ds) with (len ds - 1 + 1) by lia. rewrite Z.pow_add_r; [lia| |lia].
    destruct ds; [done|]. rewrite len_cons. lens.
Qed.

Lemma set_at_middle {E A} (p : list A) x s y : set_at (E:=E) (p ++ x :: s) (len p) y = Ok (p ++ y :: s).
Proof.
  rewrite set_at_Ok by (rewrite len_app, len_cons; lens). f_equal. unfold len. rewrite Nat2Z.id.
  replace (length p) with (length p + 0)%nat at 1 by lia. by rewrite insert_app_r.
Qed.

Lemma utoa_loop_spec fuel : forall pre suf m, 0 <= m < 10 ^ len pre -> pre <> [] ->
  (length pre <= fuel)%nat ->
  exists pre' ds, utoa_loop fuel (pre ++ suf) (len pre) m = Ok (pre' ++ ds ++ suf, len pre') /\
    canon m ds /\ len pre' + len ds = len pre.
Proof.
  induction fuel as [|fuel IH]; intros pre suf m Hm Hne Hf; [destruct pre; [done|cbn in Hf; lia]|].
  destruct pre as [|x p _] using rev_ind; [done|]. clear Hne. cbn [utoa_loop].
  rewrite len_app in *. change (len [x]) with 1 in *. rewrite Z.add_simpl_r, <- app_assoc. cbn [app].
  rewrite set_at_middle. ok_step. pose proof (Z.mod_pos_bound m 10 ltac:(lia)).
  destruct (digit_byte (m mod 10)) as [Hu Hi]; [lia|]. pose proof (Z.div_mod m 10 ltac:(lia)).
  destruct (Z.eqb_spec (m / 10) 0) as [Hq|Hq].
  - exists p, [b8 (48 + m mod 10)]. split_and!; [done| |done]. split_and!; [by constructor| |done|by left].
    cbn. unfold dec_step. rewrite Hu. lia.
  - rewrite length_app in Hf. cbn in Hf.
    assert (p <> []) as Hp by (intros ->; cbn in Hm; change (10 ^ (len (@nil byte) + 1)) with 10 in Hm; lia).
    rewrite Z.pow_add_r in Hm by lens. destruct (IH p (b8 (48 + m mod 10) :: suf) (m / 10)) as (p' & ds & -> & Hc & Hl);
      [|done|lia|].
    { split; [apply Z.div_pos; lia|]. apply Z.div_lt_upper_bound; lia. }
    exists p', (ds ++ [b8 (48 + m mod 10)]). split_and!; [by rewrite <- app_assoc|apply canon_snoc; [done|done|lia]|].
    rewrite len_app. change (len [_]) with 1. lia.
Qed.

Lemma utoa_spec m : 0 <= m < 2 ^ 64 -> exists ds, utoa m false = Ok ds /\ canon m ds.
Proof.
  intros Hm. unfold utoa.
  destruct (utoa_loop_spec 20 (replicate 20 x00) [] m) as (p & ds & E & Hc & Hl); [|done|done|].
  { change (len (replicate 20 x00)) with 20. lia. }
  rewrite app_nil_r in E. rewrite E. ok_step. exists ds. split; [|done]. rewrite app_nil_r.
  by apply slice_from_app.
Qed.

Lemma itoa_spec v : - 2 ^ 63 <= v < 2 ^ 63 ->
  exists ds, itoa v = Ok ((if v <? 0 then ["-"%byte] else []) ++ ds) /\ canon (Z.abs v) ds.
Proof.
  intros Hv. unfold itoa. destruct (Z.ltb_spec v 0).
  - unfold utoa. destruct (utoa_loop_spec 20 (replicate 20 x00) [] (Z.abs v)) as (p & ds & E & Hc & Hl); [|done|done|].
    { change (len (replicate 20 x00)) with 20. lia. }
    rewrite app_nil_r in E. rewrite E. ok_step. exists ds. split; [|done]. rewrite app_nil_r.
    assert (len ds <= 19) by (eapply (canon_len _ _ 19) in Hc; lia).
    change (len (replicate 20 x00)) with 20 in Hl.
    destruct p as [|x p _] using rev_ind; [change (len (@nil byte)) with 0 in Hl; lia|].
    rewrite len_app. change (len [x]) with 1. rewrite Z.add_simpl_r, <- app_assoc. cbn [app].
    rewrite set_at_middle. ok_step. by apply slice_from_app.
  - rewrite Z.abs_eq by lia. destruct (utoa_spec v) as (ds & -> & Hc); [lia|]. by exists ds.
Qed.

(** ** Line breaks, a word at a time *)

Notation lanes_ok := (Forall (fun d => 0 <= d < 256)).

(** The zero-byte test on any number of lanes. *)
Definition zero_test (l : list Z) : Z :=
  Z.land (Z.land ((lanes8 l - rep (length l) 1) mod 256 ^ len l) (Z.lnot (lanes8 l))) (rep (length l) 0x80).

Lemma lxor_lane w a b m n : 0 <= w -> 0 <= a < 2 ^ w -> 0 <= m < 2 ^ w ->
  Z.lxor (a + 2 ^ w * b) (m + 2 ^ w * n) = Z.lxor a m + 2 ^ w * Z.lxor b n.
Proof.
  intros Hw Ha Hm. apply Z.bits_inj'. intros i Hi. pose proof (in_u_lxor w a m Hw Ha Hm).
  rewrite Z.lxor_spec, !lane_bits by (done || lia). by destruct (i <? w); rewrite Z.lxor_spec.
Qed.

Lemma zero_test_lane a b c d f : 0 <= a < 256 -> 0 <= c < 256 ->
  Z.land (Z.land (a + 256 * b) (c + 256 * d)) (0x80 + 256 * f) =
  Z.land (Z.land a c) 0x80 + 256 * Z.land (Z.land b d) f.
Proof.
  intros. change 256 with (2 ^ 8). pose proof (land_range 8 a c ltac:(lia) ltac:(lia) ltac:(lia)).
  by rewrite !land_lane by lia.
Qed.

Lemma nonzero_lane d : 1 <= d < 256 -> Z.land (Z.land (d - 1) (255 - d)) 0x80 = 0.
Proof.
  intros Hd. assert (forallb (fun d => (d =? 0) || (Z.land (Z.land (d - 1) (255 - d)) 0x80 =? 0)) (seqZ 0 256) = true)
    as H by by vm_compute.
  pose proof (Group16.all_bytes _ d H ltac:(lia)) as Hb. cbn in Hb.
  rewrite (proj2 (Z.eqb_neq d 0)) in Hb by lia. by apply Z.eqb_eq in Hb.
Qed.

Lemma lnot_lane d r : Z.lnot (d + 256 * r) = (255 - d) + 256 * Z.lnot r.
Proof. unfold Z.lnot. lia. Qed.

Lemma zero_test_hit l : exists q, zero_test (0 :: l) = 0x80 + 256 * q.
Proof.
  unfold zero_test. cbn [lanes8 foldr length rep]. fold (lanes8 l). rewrite len_cons, lnot_lane.
  replace (0 + 256 * lanes8 l - (1 + 256 * rep (length l) 1))
    with (255 + 256 * (lanes8 l - rep (length l) 1 - 1)) by lia.
  rewrite mod_lane, zero_test_lane by (try apply len_nonneg; lia). by eexists.
Qed.

Lemma zero_test_miss d l : 1 <= d < 256 -> zero_test (d :: l) = 256 * zero_test l.
Proof.
  intros Hd. unfold zero_test. cbn [lanes8 foldr length rep]. fold (lanes8 l). rewrite len_cons, lnot_lane.
  replace (d + 256 * lanes8 l - (1 + 256 * rep (length l) 1))
    with ((d - 1) + 256 * (lanes8 l - rep (length l) 1)) by lia.
  by rewrite mod_lane, zero_test_lane, nonzero_lane by (try apply len_nonneg; lia).
Qed.

Lemma zero_test_spec l : lanes_ok l -> zero_test l = 0 <-> Forall (fun d => d <> 0) l.
Proof.
  induction l as [|d l IH]; intros Hl; [by split|].
  apply Forall_cons_iff in Hl as [Hd Hl]. rewrite Forall_cons_iff.
  destruct (Z.eq_dec d 0) as [-> |Hne].
  - split; [|naive_solver]. destruct (zero_test_hit l) as [q ->]. lia.
  - rewrite zero_test_miss, <- IH by (done || lia).
    split; [intros; split; [done|lia]|intros [_ ->]; lia].
Qed.

Lemma lxor_lanes c l : 0 <= c < 256 -> lanes_ok l ->
  Z.lxor (lanes8 l) (rep (length l) c) = lanes8 (Z.lxor c <$> l).
Proof.
  intros Hc. induction 1 as [|d l Hd Hl IH]; [done|].
  change (lanes8 (Z.lxor c <$> d :: l)) with (Z.lxor c d + 256 * lanes8 (Z.lxor c <$> l)). rewrite <- IH.
  change (lanes8 (d :: l)) with (d + 256 * lanes8 l). cbn [length rep].
  change 256 with (2 ^ 8). rewrite lxor_lane by lia. by rewrite Z.lxor_comm.
Qed.

Lemma le_val_lanes l : le_val l = lanes8 (u8 <$> l).
Proof. induction l as [|b l IH]; [done|]. rewrite le_val_lane, IH. done. Qed.

Lemma u8_lanes l : lanes_ok (u8 <$> l).
Proof. apply Forall_fmap, Forall_forall. intros b _. apply u8_range. Qed.

(** One of the two tests on a chunk: is the byte [c] in it. *)
Lemma chunk_test chunk c : length chunk = 8%nat ->
  has_zero_byte (Z.lxor (le_val chunk) (wrap 64 (ONES * u8 c))) = 0 <-> c ∉ chunk.
Proof.
  intros Hl. pose proof (u8_range c) as Hc.
  assert (wrap 64 (ONES * u8 c) = rep (length (u8 <$> chunk)) (u8 c)) as ->.
  { rewrite length_fmap, Hl. rewrite wrap_id by (unfold in_u, ONES; lia). unfold ONES. cbn [rep]. lia. }
  rewrite le_val_lanes, lxor_lanes by (done || apply u8_lanes).
  set (l := Z.lxor (u8 c) <$> _).
  assert (length l = 8%nat) as Hll by (unfold l; by rewrite !length_fmap).
  assert (has_zero_byte (lanes8 l) = zero_test l) as ->.
  { unfold has_zero_byte, zero_test, len. by rewrite Hll. }
  rewrite zero_test_spec.
  - unfold l. rewrite !Forall_fmap, Forall_forall. split.
    + intros H Hin%list_elem_of_In. apply (H c Hin). cbn. by rewrite Z.lxor_nilpotent.
    + intros H b Hin%list_elem_of_In. cbn. intros E%Z.lxor_eq%u8_inj. by subst b.
  - unfold l. apply Forall_fmap, Forall_fmap, Forall_forall. intros b _. cbn.
    apply (in_u_lxor 8); [lia|apply u8_range..].
Qed.

Lemma chunk_break chunk : length chunk = 8%nat ->
  negb (Z.lor (has_zero_byte (Z.lxor (le_val chunk) (wrap 64 (ONES * u8 CR))))
              (has_zero_byte (Z.lxor (le_val chunk) (wrap 64 (ONES * u8 LF)))) =? 0) = existsb is_break chunk.
Proof.
  intros Hl. apply Bool.eq_iff_eq_true. rewrite negb_true_iff, Z.eqb_neq, Z.lor_eq_0_iff, !chunk_test by done.
  rewrite existsb_exists. unfold is_break. split.
  - intros H. destruct (decide (CR ∈ chunk)) as [Hin|Hn]; [exists CR; by rewrite <- list_elem_of_In|].
    destruct (decide (LF ∈ chunk)) as [Hin|Hn']; [exists LF; by rewrite <- list_elem_of_In|]. tauto.
  - intros (b & Hin%list_elem_of_In & [->%bool_decide_eq_true| ->%bool_decide_eq_true]%orb_true_iff) [H1 H2]; done.
Qed.

Lemma break_chunks_spec n : forall text, (length text <= n)%nat -> break_chunks text = existsb is_break text.
Proof.
  induction n as [n IH] using lt_wf_ind. intros text Hn.
  destruct text as [|b0 [|b1 [|b2 [|b3 [|b4 [|b5 [|b6 [|b7 rest]]]]]]]]; try done.
  cbn [break_chunks]. rewrite (chunk_break [b0; b1; b2; b3; b4; b5; b6; b7]) by done.
  change (b0 :: b1 :: b2 :: b3 :: b4 :: b5 :: b6 :: b7 :: rest)
    with ([b0; b1; b2; b3; b4; b5; b6; b7] ++ rest) in *.
  rewrite existsb_app. destruct (existsb is_break [b0; _; _; _; _; _; _; _]); [done|].
  rewrite length_app in Hn. cbn in Hn. rewrite (IH (length rest)) by lia. done.
Qed.

Lemma contains_line_break_spec text : contains_line_break text = existsb is_break text.
Proof. unfold contains_line_break. destruct (len text <? 8); [done|]. by eapply break_chunks_spec. Qed.

(** ** Line-framed replies *)

(** Trim the line breaks at both ends, then blank the rest: what a line reply
    says of its text. *)
Fixpoint trim_start (l : list byte) : list byte :=
  match l with [] => [] | b :: l' => if is_break b then trim_start l' else l end.
Definition trim (l : list byte) : list byte := rev (trim_start (rev (trim_start l))).
Definition sanitize (text : list byte) : list byte :=
  (fun b => if is_break b then x20 else b) <$> trim text.

Lemma sanitize_clean text b : b ∈ sanitize text -> is_break b = false.
Proof.
  unfold sanitize. intros (c & -> & _)%list_elem_of_fmap. by destruct (is_break c) eqn:E.
Qed.

Lemma position_trim l :
  match position (fun b => negb (is_break b)) l with
  | Some i => trim_start l <> [] /\ exists x, l = x ++ trim_start l /\ len x = i
  | None => trim_start l = []
  end.
Proof.
  induction l as [|b l IH]; cbn [position trim_start]; [done|]. destruct (is_break b); cbn [negb].
  - destruct (position _ l) as [i|]; cbn [mbind option_bind]; [|done].
    destruct IH as (Hn & x & E & <-). split; [done|]. exists (b :: x). rewrite len_cons.
    split; [cbn; by rewrite <- E|done].
  - split; [done|]. by exists [].
Qed.

Lemma trim_start_app l m : trim_start l <> [] -> trim_start (l ++ m) = trim_start l ++ m.
Proof. induction l as [|b l IH]; cbn [trim_start app]; [done|]. by destruct (is_break b). Qed.

Lemma trim_start_nil l : trim_start l = [] <-> existsb (fun b => negb (is_break b)) l = false.
Proof. induction l as [|b l IH]; cbn; [done|]. by destruct (is_break b). Qed.

Lemma existsb_rev {A} (p : A -> bool) l : existsb p (rev l) = existsb p l.
Proof.
  apply Bool.eq_iff_eq_true. rewrite !existsb_exists. split; intros (x & Hx & Hp); exists x;
    (split; [by apply in_rev; rewrite ?rev_involutive|done]).
Qed.

Lemma trim_start_rev l : trim_start (rev l) = [] <-> trim_start l = [].
Proof. by rewrite !trim_start_nil, existsb_rev. Qed.

Lemma trim_start_idem l : trim_start (trim_start l) = trim_start l.
Proof. induction l as [|b l IH]; cbn [trim_start]; [done|]. destruct (is_break b) eqn:E; [done|]. cbn. by rewrite E. Qed.

(** The slice between the first and the last byte that is not a line break. *)
Lemma slice_trim text :
  let start := default (len text) (position (fun b => negb (is_break b)) text) in
  slice (E:=False) text start
    (match rposition (fun b => negb (is_break b)) text with Some i => i + 1 | None => start end) = Ok (trim text).
Proof.
  pose proof (position_trim text) as H1. pose proof (position_trim (rev text)) as H2. unfold rposition, trim.
  pose proof (trim_start_rev text) as Hr.
  destruct (position _ text) as [i|], (position _ (rev text)) as [j|]; cbn [from_option id mbind option_bind];
    try naive_solver.
  - destruct H1 as (Hb & x & E & <-), H2 as (_ & z & Ez & <-). set (b := trim_start text) in *.
    assert (trim_start (rev b) <> []) as Hne by (rewrite trim_start_rev; unfold b; by rewrite trim_start_idem).
    assert (rev text = rev b ++ rev x) as Er by (rewrite E; apply rev_app_distr).
    rewrite Er, trim_start_app in Ez by done. apply (f_equal (@rev byte)) in Ez.
    rewrite <- Er, rev_involutive, !rev_app_distr, rev_involutive in Ez.
    apply slice_Ok. exists x, (rev z). split_and!; [by rewrite Ez at 1; rewrite <- app_assoc|done|].
    apply (f_equal len) in Ez. rewrite !len_app in Ez. unfold len in *. rewrite !length_rev in *. lia.
  - rewrite H1. apply slice_Ok. exists text, []. split_and!; [by rewrite !app_nil_r|done|].
    cbn [rev trim_start]. change (len (@nil byte)) with 0. lia.
Qed.

Lemma sanitize_id text : existsb is_break text = false -> sanitize text = text.
Proof.
  intros H. assert (forall l, existsb is_break l = false -> trim_start l = l) as Ht.
  { intros [|b l]; [done|]. cbn. by intros [-> _]%orb_false_iff. }
  unfold sanitize, trim. rewrite (Ht text), (Ht (rev text)), rev_involutive by (by rewrite ?existsb_rev).
  rewrite <- (list_fmap_id text) at 2. apply list_fmap_ext. intros i b Hb. cbn.
  destruct (is_break b) eqn:E; [|done]. exfalso. apply not_true_iff_false in H. apply H, existsb_exists.
  exists b. split; [by apply list_elem_of_In; eapply list_elem_of_lookup_2|done].
Qed.

Lemma push_line_spec w tag text : push_line w tag text = Ok (put w (tag :: sanitize text ++ CRLF)).
Proof.
  unfold push_line. rewrite contains_line_break_spec. destruct (existsb is_break text) eqn:E.
  - unfold push_line_sanitized. rewrite slice_trim. ok_step. unfold put. do 2 f_equal.
    by rewrite <- !app_assoc.
  - rewrite sanitize_id by done. unfold put. cbn [out proto]. do 2 f_equal. by rewrite <- !app_assoc.
Qed.

(** A reply line cannot open a second frame: whatever bytes a simple
    string or an error carries, client bytes included, the writer appends the
    tag, a body without a carriage return or a line feed - the text with its
    line breaks trimmed at the ends and blanked inside, and the text itself when
    it has none - and one CRLF. *)
Theorem line_reply_is_one_frame w text :
  simple w text = Ok (put w ("+"%byte :: sanitize text ++ CRLF)) /\
  error_bytes w text = Ok (put w ("-"%byte :: sanitize text ++ CRLF)) /\
  (forall b, b ∈ sanitize text -> b <> CR /\ b <> LF) /\
  (~ (exists b, b ∈ text /\ (b = CR \/ b = LF)) -> sanitize text = text).
Proof.
  split_and!; [apply push_line_spec..| |].
  - intros b Hb%sanitize_clean. unfold is_break in Hb. apply orb_false_iff in Hb as [H1 H2].
    by rewrite bool_decide_eq_false in H1, H2.
  - intros H. apply sanitize_id. apply not_true_iff_false. intros (b & Hin%list_elem_of_In & Hb)%existsb_exists.
    apply H. exists b. split; [done|]. unfold is_break in Hb.
    apply orb_true_iff in Hb as [Hb|Hb]; apply bool_decide_eq_true in Hb; auto.
Qed.

(** ** Length-prefixed replies *)

Lemma raw_len_spec w n : 0 <= n < 2 ^ 64 ->
  exists ds, canon n ds /\ utoa n false = Ok ds /\ raw_len w n = Ok (put w ds).
Proof. intros Hn. destruct (utoa_spec n Hn) as (ds & E & Hc). exists ds. unfold raw_len. by rewrite E. Qed.

Lemma put_put w l m : put (put w l) m = put w (l ++ m).
Proof. unfold put. cbn. by rewrite <- app_assoc. Qed.

Lemma bulk_spec w bytes : len bytes < 2 ^ 64 ->
  exists ds, canon (len bytes) ds /\ utoa (len bytes) false = Ok ds /\
    bulk w bytes = Ok (put w ("$"%byte :: ds ++ CRLF ++ bytes ++ CRLF)).
Proof.
  intros Hn. destruct (raw_len_spec (put w ["$"%byte]) (len bytes)) as (ds & Hc & Eu & E); [lens|].
  exists ds. split_and!; [done|done|]. unfold bulk. rewrite E. ok_step. by rewrite !put_put.
Qed.

Lemma header_spec w tag n : 0 <= n < 2 ^ 64 ->
  exists ds, canon n ds /\ header w tag n = Ok (put w (tag :: ds ++ CRLF)).
Proof.
  intros Hn. destruct (raw_len_spec (put w [tag]) n Hn) as (ds & Hc & _ & E).
  exists ds. split; [done|]. unfold header. rewrite E. ok_step. by rewrite !put_put.
Qed.

(** ** The patched bulk *)

Lemma write_at_app a x b y i : i = len a -> len x = len y -> write_at (a ++ x ++ b) i y = Ok (a ++ y ++ b).
Proof.
  intros -> H. unfold write_at. rewrite (proj2 (Z.leb_le 0 _)), (proj2 (Z.leb_le _ _)) by lens. cbn [andb].
  unfold len in *. rewrite Nat2Z.id, take_app_length. do 3 f_equal. rewrite app_assoc.
  apply drop_app_length'. rewrite length_app. lia.
Qed.

Lemma split_len {A} (l : list A) n : 0 <= n <= len l -> exists x y, l = x ++ y /\ len x = n /\ len y = len l - n.
Proof.
  intros Hn. exists (take (Z.to_nat n) l), (drop (Z.to_nat n) l). rewrite take_drop.
  split_and!; [done|lens|lens].
Qed.

Lemma slice_app {E} (a x b : list byte) i j : i = len a -> j = len a + len x -> slice (E:=E) (a ++ x ++ b) i j = Ok x.
Proof. intros -> ->. apply slice_Ok. exists a, b. split_and!; [done|done|lia]. Qed.

Lemma truncate_app a b n : n = len a -> truncate (a ++ b) n = a.
Proof. intros ->. unfold truncate, len. rewrite Nat2Z.id. apply take_app_length. Qed.

(** The header fits the reserve: the digits are written and the gap closed. *)
Lemma patch_narrow P Z_ payload ds : len Z_ = 10 -> 0 < len ds <= 8 ->
  exists o, write_at (P ++ Z_ ++ payload) (len P) ds = Ok o /\
  exists o', write_at o (len P + len ds) CRLF = Ok o' /\
    (if 0 <? 8 - len ds then
       o2 ← copy_within o' (len P + 8 + 2) (len o') (len P + 8 + 2 - (8 - len ds));
       mret (truncate o2 (len o2 - (8 - len ds)))
     else mret o') = @Ok False _ (P ++ ds ++ CRLF ++ payload).
Proof.
  intros HZ Hd. destruct (split_len Z_ (len ds)) as (z1 & z2 & -> & Hz1 & Hz2); [lia|]. rewrite HZ in Hz2.
  rewrite <- app_assoc. exists (P ++ ds ++ z2 ++ payload). split; [by apply write_at_app|].
  destruct (split_len z2 2) as (z3 & G & -> & Hz3 & HG); [lia|]. rewrite Hz2 in HG.
  exists ((P ++ ds) ++ CRLF ++ G ++ payload). split.
  { rewrite <- app_assoc, (app_assoc P). apply write_at_app; [lens|done]. }
  destruct (Z.ltb_spec 0 (8 - len ds)).
  - unfold copy_within. set (Q := (P ++ ds) ++ CRLF). assert (HQ : len Q = len P + len ds + 2) by (unfold Q; rewrite !len_app; done).
    rewrite app_assoc. fold Q.
    assert (slice (E:=False) (Q ++ G ++ payload) (len P + 8 + 2) (len (Q ++ G ++ payload)) = Ok payload) as ->.
    { apply slice_Ok. exists (Q ++ G), []. rewrite app_nil_r, <- app_assoc. split_and!; [done|lens|lens]. }
    ok_step. destruct (split_len (G ++ payload) (len payload)) as (X & Y & E & HX & HY); [lens|].
    rewrite E. rewrite (write_at_app Q X Y payload) by lia. ok_step. do 1 f_equal.
    rewrite app_assoc, truncate_app by (rewrite !len_app in *; lia). unfold Q. by rewrite <- !app_assoc.
  - assert (G = []) as -> by (apply len_0_nil; lia). cbn [app]. by rewrite <- !app_assoc.
Qed.

(** The header is wider than the reserve: the payload moves right. *)
Lemma patch_wide P Z_ payload ds : len Z_ = 10 -> 8 < len ds ->
  widen_patched_header (P ++ Z_ ++ payload) (len P) (len P + 8 + 2) ds = Ok (P ++ ds ++ CRLF ++ payload).
Proof.
  intros HZ Hd. unfold widen_patched_header, PATCHED_DIGITS, copy_within.
  set (R := replicate _ _). assert (HR : len R = len ds - 8) by (unfold R; lens).
  replace ((P ++ Z_ ++ payload) ++ R) with ((P ++ Z_) ++ payload ++ R) by (by rewrite <- !app_assoc).
  rewrite (slice_app (P ++ Z_) payload R) by (rewrite ?app_assoc, !len_app; lens). ok_step.
  destruct (split_len (payload ++ R) (len ds - 8)) as (X & Y & E & HX & HY); [lens|]. rewrite E.
  rewrite app_assoc. rewrite <- (app_nil_r Y).
  rewrite (write_at_app ((P ++ Z_) ++ X) Y [] payload) by (rewrite ?len_app in *; lens). ok_step.
  rewrite app_nil_r. destruct (split_len (Z_ ++ X) (len ds)) as (D1 & D2 & E2 & HD1 & HD2); [lens|].
  replace (((P ++ Z_) ++ X) ++ payload) with (P ++ D1 ++ D2 ++ payload)
    by (rewrite (app_assoc D1), <- E2; by rewrite <- !app_assoc).
  rewrite write_at_app by done. ok_step. rewrite (app_assoc P).
  rewrite write_at_app; [by rewrite <- app_assoc|lens|]. rewrite HD2, len_app, HZ, HX. change (len CRLF) with 2. lia.
Qed.

(** The patched bulk is the bulk: when the builder appends [payload] and
    succeeds, the bytes written are those of [bulk] for that payload, whether
    its length fits the eight reserved digits or widens the header; when the
    builder fails after writing [payload], the buffer is back where it was. *)
Theorem patched_bulk_is_bulk {E} w (build : list byte -> list byte * option E) payload r :
  (forall o, build o = (o ++ payload, r)) -> len payload < 2 ^ 64 ->
  exists w', bulk w payload = Ok w' /\
    try_bulk_patched w build = Ok (match r with None => (w', None) | Some e => (w, Some e) end).
Proof.
  intros Hb Hn. destruct (bulk_spec w payload Hn) as (ds & Hc & Eu & Ew). eexists. split; [exact Ew|].
  unfold try_bulk_patched. rewrite Hb. destruct r as [e|].
  { rewrite <- !app_assoc, truncate_app by done. by destruct w. }
  set (P := out w ++ ["$"%byte]). set (Z_ := replicate 8 "0"%byte ++ CRLF).
  assert (HZ : len Z_ = 10) by done. pose proof (len_nonneg payload).
  rewrite <- app_assoc. unfold PATCHED_DIGITS.
  replace (len (P ++ Z_ ++ payload) - (len P + 8 + 2)) with (len payload) by lens.
  rewrite wrap_id, Eu by (unfold in_u; lia). ok_step.
  assert (0 < len ds).
  { destruct Hc as (_ & _ & Hne & _). destruct ds; [done|]. rewrite len_cons. lens. }
  replace (put w ("$"%byte :: ds ++ CRLF ++ payload ++ CRLF)) with
    (mkWriter ((P ++ ds ++ CRLF ++ payload) ++ CRLF) (proto w)) by (unfold put, P; by rewrite <- !app_assoc).
  destruct (Z.leb_spec (len ds) 8).
  - destruct (patch_narrow P Z_ payload ds HZ) as (o & -> & o' & E' & E2); [lia|]. ok_step. rewrite E'. ok_step.
    by rewrite E2.
  - by rewrite (patch_wide P Z_ payload ds HZ) by lia.
Qed.

(** ** Reading back what was written *)

Lemma leading_digits_stop ds b r : all_digits ds -> is_digit b = false -> leading_digits (ds ++ b :: r) = ds.
Proof. intros Hd Hb. rewrite leading_digits_app by done. cbn [leading_digits]. by rewrite Hb, app_nil_r. Qed.

Lemma digit_not_sign b : is_digit b = true -> b <> "-"%byte /\ b <> "+"%byte.
Proof. by destruct b. Qed.

Lemma swar_canon v ds b r : canon (Z.abs v) ds -> - 2 ^ 63 <= v < 2 ^ 63 -> is_digit b = false ->
  let t := (if v <? 0 then ["-"%byte] else []) ++ ds in
  swar_parse_int (t ++ b :: r) = Some (v, len t).
Proof.
  intros Hc Hv Hb. pose proof (canon_len _ _ 19 Hc ltac:(lia) ltac:(lia)) as Hl.
  destruct Hc as (Hd & Hm & Hne & _). cbv zeta.
  assert (0 < len ds) by (destruct ds; [done|rewrite len_cons; lens]).
  rewrite swar_parse_int_spec. unfold scalar_parse_int, digits_of.
  destruct (Z.ltb_spec v 0).
  - change (sign_len (([_] ++ ds) ++ b :: r)) with 1%nat. cbn [app drop signed].
    rewrite drop_0, leading_digits_stop, Hm by done. rewrite (proj2 (Z.ltb_ge 19 _)) by lia.
    rewrite bool_decide_true by done. rewrite (proj2 (Z.eqb_neq (len ds) 0)) by lia.
    rewrite (proj2 (Z.leb_le _ _)), (proj2 (Z.ltb_lt _ _)) by lia. cbn [orb negb andb].
    rewrite len_cons. do 2 f_equal. lia.
  - cbn [app]. destruct ds as [|d ds]; [done|]. pose proof Hd as [Hd0 _]%Forall_cons_iff.
    destruct (digit_not_sign d Hd0) as [H1 H2]. cbn [app sign_len signed].
    rewrite !bool_decide_false by naive_solver. rewrite drop_0.
    change (d :: ds ++ b :: r) with ((d :: ds) ++ b :: r). rewrite leading_digits_stop, Hm by done.
    rewrite (proj2 (Z.ltb_ge 19 _)), (proj2 (Z.eqb_neq (len (d :: ds)) 0)) by lia.
    rewrite (proj2 (Z.leb_le _ _)), (proj2 (Z.ltb_lt _ _)) by lia. cbn [orb negb andb].
    rewrite Z.abs_eq by lia. done.
Qed.

Lemma count_text_canon n ds : canon n ds -> 0 <= n < 2 ^ 63 -> count_text (ds ++ CRLF) n.
Proof.
  intros Hc Hn. unfold count_text, count_res.
  pose proof (swar_canon n ds CR [LF]) as H. rewrite (proj2 (Z.ltb_ge n 0)) in H by lia. cbn [app] in H.
  change (ds ++ CRLF) with (ds ++ [CR; LF]). rewrite H by (rewrite ?Z.abs_eq; done || lia).
  unfold len at 1. rewrite Nat2Z.id, drop_app_length. by rewrite len_app.
Qed.

(** A client's command, written with the writer's own operations. *)
Fixpoint write_bulks (w : RespWriter) (args : list (list byte)) : panics RespWriter :=
  match args with [] => mret w | b :: args => w ← bulk w b; write_bulks w args end.
Definition write_command (w : RespWriter) (args : list (list byte)) : panics RespWriter :=
  w ← array_header w (len args); write_bulks w args.

Lemma write_bulks_text args : forall w, Forall (fun b => len b < 2 ^ 63) args ->
  exists bs, write_bulks w args = Ok (put w (concat bs)) /\ Forall2 bulk_text bs args.
Proof.
  induction args as [|b args IH]; intros w Hl; cbn [write_bulks].
  { exists []. cbn. unfold put. rewrite app_nil_r. split; [by destruct w|constructor]. }
  apply Forall_cons_iff in Hl as [Hb Hl]. destruct (bulk_spec w b) as (ds & Hc & _ & ->); [lia|]. ok_step.
  destruct (IH (put w ("$"%byte :: ds ++ CRLF ++ b ++ CRLF)) Hl) as (bs & -> & Hbs).
  exists (("$"%byte :: ds ++ CRLF ++ b ++ CRLF) :: bs). split; [by rewrite put_put|]. constructor; [|done].
  exists (ds ++ CRLF). split; [by rewrite <- app_assoc|]. apply count_text_canon; [done|lens].
Qed.

(** C30. What the writer writes the parser reads: the array header and the
    bulks of any argument vector are, when the vector is within the parser's
    limits, parsed back as one command with exactly those arguments, whatever
    bytes follow; and an integer reply's digits read back as the integer. *)
Theorem command_round_trip w args v rest :
  Forall (fun b => len b < 2 ^ 63) args -> len args < 2 ^ 63 -> - 2 ^ 63 <= v < 2 ^ 63 ->
  (exists x, write_command w args = Ok (put w x) /\
     forall lim, args <> [] -> within lim x args ->
     exists o, parse_one (x ++ rest) lim = Ok (PFrame (KCommand o) (len x)) /\
       argv_iter (materialize o x) = Ok args) /\
  (exists t, int w v = Ok (put w (":"%byte :: t ++ CRLF)) /\
     swar_parse_int (t ++ CRLF ++ rest) = Some (v, len t)).
Proof.
  intros Hl Hn Hv. split.
  - unfold write_command. destruct (header_spec w "*"%byte (len args)) as (ds & Hc & E); [lens|].
    unfold array_header. rewrite E. ok_step.
    destruct (write_bulks_text args (put w ("*"%byte :: ds ++ CRLF)) Hl) as (bs & -> & Hbs).
    exists ("*"%byte :: (ds ++ CRLF) ++ concat bs). split; [by rewrite put_put|].
    intros lim Hne Hw. assert (Ht : command_text ("*"%byte :: (ds ++ CRLF) ++ concat bs) args).
    { exists (ds ++ CRLF), bs. split_and!; [done|apply count_text_canon; [done|lens]|done]. }
    destruct (multibulk_text _ args rest lim Ht Hne Hw) as (o & Eo & Ha). by exists o.
  - unfold int, raw_int. destruct (itoa_spec v Hv) as (ds & -> & Hc). ok_step. eexists. split; [by rewrite !put_put|].
    apply (swar_canon v ds CR (LF :: rest)); done.
Qed.

(** ** Marks *)

Inductive reply :=
  | RSimple (text : list byte) | RError (text : list byte) | RInt (v : Z) | RBulk (b : list byte)
  | RNull | RNullArray | RArray (n : Z) | RPush (n : Z) | RMap (n : Z) | RBool (b : bool)
  | RVerbatim (kind text : list byte) | RBig (digits : list byte).
Definition write (w : RespWriter) (r : reply) : panics RespWriter :=
  match r with
  | RSimple t => simple w t | RError t => error w t | RInt v => int w v | RBulk b => bulk w b
  | RNull => mret (null w) | RNullArray => mret (null_array w) | RArray n => array_header w n
  | RPush n => push_header w n | RMap n => map_header w n | RBool b => bool_ w b
  | RVerbatim k t => verbatim w k t | RBig d => big_number w d
  end.
Fixpoint write_all (w : RespWriter) (rs : list reply) : panics RespWriter :=
  match rs with [] => mret w | r :: rs => w ← write w r; write_all w rs end.

(** The values a 64-bit writer is called with. *)
Definition reply_ok (r : reply) : Prop :=
  match r with
  | RInt v => - 2 ^ 63 <= v < 2 ^ 63
  | RArray n | RPush n | RMap n => 0 <= n < 2 ^ 64
  | RBulk b | RBig b => len b < 2 ^ 63
  | RVerbatim _ t => len t < 2 ^ 63
  | _ => True
  end.

Ltac appended := eexists; split; [|reflexivity]; done.

Lemma write_appends w r : reply_ok r -> exists l, l <> [] /\ write w r = Ok (put w l).
Proof.
  assert (forall tag n, 0 <= n < 2 ^ 64 -> exists l, l <> [] /\ header w tag n = Ok (put w l)) as Hh.
  { intros tag n Hn. destruct (header_spec w tag n Hn) as (ds & _ & ->). appended. }
  assert (forall b, len b < 2 ^ 63 -> exists l, l <> [] /\ bulk w b = Ok (put w l)) as Hbk.
  { intros b Hb. destruct (bulk_spec w b) as (ds & _ & _ & ->); [lia|]. appended. }
  assert (forall v, - 2 ^ 63 <= v < 2 ^ 63 -> exists l, l <> [] /\ int w v = Ok (put w l)) as Hi.
  { intros v Hv. unfold int, raw_int. destruct (itoa_spec v Hv) as (ds & -> & _). ok_step. rewrite !put_put. appended. }
  destruct r as [t|t|v|b| | |n|n|n|b|k t|d]; intros Hok; cbn [write reply_ok] in *.
  - unfold simple. rewrite push_line_spec. appended.
  - unfold error, error_bytes. rewrite push_line_spec. appended.
  - by apply Hi.
  - by apply Hbk.
  - unfold null. destruct (proto w); appended.
  - unfold null_array. destruct (proto w); appended.
  - by apply Hh.
  - unfold push_header. destruct (proto w); by apply Hh.
  - unfold map_header. destruct (proto w); apply Hh; [|done]. apply (wrap_in_u 64). lia.
  - unfold bool_. destruct (proto w); [apply Hi; destruct b; cbn; lia|appended].
  - unfold verbatim. destruct (proto w); [by apply Hbk|].
    destruct (raw_len_spec (put w ["="%byte]) (len t + 4)) as (ds & _ & _ & ->); [lens|]. ok_step.
    rewrite !put_put. appended.
  - unfold big_number. destruct (proto w); [by apply Hbk|]. rewrite !put_put. appended.
Qed.

(** A refused reply leaves no byte behind: after a mark, any sequence of
    replies only appends to the send buffer without panicking, and rolling back
    to the mark restores the buffer, earlier pipelined replies included,
    exactly. *)
Theorem rollback_restores w rs : Forall reply_ok rs ->
  exists w' l, write_all w rs = Ok w' /\ w' = put w l /\ (rs <> [] -> l <> []) /\
    rollback w' (mark w) = w.
Proof.
  intros H. assert (exists l, write_all w rs = Ok (put w l) /\ (rs <> [] -> l <> [])) as (l & E & Hl).
  { revert w. induction H as [|r rs Hr Hrs IH]; intros w; cbn [write_all].
    - exists []. unfold put. rewrite app_nil_r. by destruct w.
    - destruct (write_appends w r Hr) as (l & Hl & ->). ok_step. destruct (IH (put w l)) as (l' & -> & _).
      exists (l ++ l'). rewrite put_put. split; [done|]. intros _. by destruct l. }
  exists (put w l), l. split_and!; [done|done|done|]. unfold rollback, mark, put. cbn [out proto].
  rewrite truncate_app by done. by destruct w.
Qed.

(** ** Doubles *)

Lemma write_fmt_spec pieces : forall done_ rest, len (concat pieces) <= len rest ->
  exists rest', write_fmt (mkFmt (done_ ++ rest) (len done_)) pieces =
    Ok (mkFmt (done_ ++ concat pieces ++ rest') (len done_ + len (concat pieces))).
Proof.
  induction pieces as [|s pieces IH]; intros dn rest Hl; cbn [write_fmt concat] in *.
  { exists rest. change (len (@nil byte)) with 0. by rewrite Z.add_0_r. }
  rewrite len_app in Hl. pose proof (len_nonneg (concat pieces)). pose proof (len_nonneg s).
  destruct (split_len rest (len s)) as (x & y & -> & Hx & Hy); [lia|].
  unfold write_str. cbn [fbuf flen]. rewrite (proj2 (Z.ltb_ge _ _)) by lens.
  rewrite (write_at_app dn x y s) by done. ok_step.
  destruct (IH (dn ++ s) y) as (r & E); [lens|]. rewrite len_app, <- !app_assoc in E. rewrite E.
  exists r. by rewrite len_app, Z.add_assoc, <- app_assoc.
Qed.

(** A double reply is bounded: given that the displayed number is UTF-8
    and at most 336 bytes, as the formatter documents, the reply does not panic,
    appends the number as a RESP3 double or a RESP2 bulk, and takes at most the
    344 bytes that reply accounts reserve for it. *)
Theorem double_reply_bounded utf8 w pieces :
  utf8 (concat pieces) = true -> len (concat pieces) <= F64_DISPLAY_MAX ->
  exists l, double utf8 w pieces = Ok (put w l) /\ len l <= DOUBLE_REPLY_BYTES_MAX /\
    match proto w with
    | Resp3 => l = ","%byte :: concat pieces ++ CRLF
    | Resp2 => bulk w (concat pieces) = Ok (put w l)
    end.
Proof.
  intros Hu Hl. unfold double, format. cbn [fbuf]. change DOUBLE_REPLY_BYTES_MAX with 344. unfold F64_DISPLAY_MAX in Hl.
  destruct (write_fmt_spec pieces [] (replicate 336 x00)) as (r & E); [done|]. cbn [app] in E.
  change (len (@nil byte)) with 0 in E. rewrite E. cbn [fbuf flen]. rewrite Z.add_0_l.
  rewrite (slice_app [] (concat pieces) r) by done. ok_step. rewrite Hu. cbn [rassert mbind outcome_bind mret outcome_ret].
  destruct (proto w).
  - destruct (bulk_spec w (concat pieces)) as (ds & Hc & _ & ->); [lia|]. eexists. split; [reflexivity|]. split; [|reflexivity].
    pose proof (canon_len _ _ 3 Hc ltac:(lia) ltac:(lia)). rewrite len_cons, !len_app. change (len CRLF) with 2. lia.
  - rewrite !put_put. eexists. split; [done|]. cbn [app]. split; [|done].
    rewrite len_cons, !len_app. change (len CRLF) with 2. lia.
Qed.

(** ** Examples *)

Definition ex_writer : RespWriter := mkWriter ["+"%byte; "O"%byte; "K"%byte; CR; LF] Resp3.

Lemma patched_bulk_is_bulk_witness :
  exists w', bulk ex_writer ["h"%byte; "i"%byte] = Ok w' /\
    try_bulk_patched (E:=unit) ex_writer (fun o => (o ++ ["h"%byte; "i"%byte], None)) = Ok (w', None).
Proof. by apply (patched_bulk_is_bulk (E:=unit) ex_writer _ ["h"%byte; "i"%byte] None). Defined.

Lemma command_round_trip_witness :
  (exists x, write_command ex_writer [["G"%byte; "E"%byte; "T"%byte]; []] = Ok (put ex_writer x) /\
     forall lim, [["G"%byte; "E"%byte; "T"%byte]; []] <> [] -> within lim x [["G"%byte; "E"%byte; "T"%byte]; []] ->
     exists o, parse_one (x ++ []) lim = Ok (PFrame (KCommand o) (len x)) /\
       argv_iter (materialize o x) = Ok [["G"%byte; "E"%byte; "T"%byte]; []]) /\
  (exists t, int ex_writer (-7) = Ok (put ex_writer (":"%byte :: t ++ CRLF)) /\
     swar_parse_int (t ++ CRLF ++ []) = Some (-7, len t)).
Proof.
  apply (command_round_trip ex_writer [["G"%byte; "E"%byte; "T"%byte]; []] (-7) []);
    [repeat constructor|done|done].
Defined.

Lemma rollback_restores_witness :
  exists w' l, write_all ex_writer [RMap 1; RBulk ["k"%byte]; RError [CR; LF; "x"%byte]] = Ok w' /\
    w' = put ex_writer l /\
    ([RMap 1; RBulk ["k"%byte]; RError [CR; LF; "x"%byte]] <> [] -> l <> []) /\
    rollback w' (mark ex_writer) = ex_writer.
Proof.
  apply (rollback_restores ex_writer [RMap 1; RBulk ["k"%byte]; RError [CR; LF; "x"%byte]]).
  repeat constructor; cbn; lia.
Defined.

Lemma double_reply_bounded_witness :
  exists l, double (fun _ => true) ex_writer [["1"%byte]; ["."%byte]; ["5"%byte]] = Ok (put ex_writer l) /\
    len l <= DOUBLE_REPLY_BYTES_MAX /\ l = ","%byte :: ["1"%byte; "."%byte; "5"%byte] ++ CRLF.
Proof. by apply (double_reply_bounded (fun _ => true) ex_writer [["1"%byte]; ["."%byte]; ["5"%byte]]). Defined.

End RespWriter.
