(* ===== verification/Member.v ===== *)
(** * The timing wheel's nodes and membership table
    ([crates/inf-store/src/wheel.rs] [Node], [crates/inf-store/src/wheel/member.rs])

    A node packs a deadline and a link into one word. The membership table
    maps a key hash to its node: 256 open-addressed, linearly probed shards of
    4-byte entries that name a node and keep eight bits of its hash; the full
    hash is read from the pool. Deletion shifts the run back. The allocator's
    answers are arguments of the operations that grow. *)

From stdpp Require Import gmap.
From S2P Require Import Prelude Swar.
#[local] Open Scope Z_scope.

Module Member.
Import Swar.

(** ** Nodes *)

Definition NIL : Z := Z.shiftl 1 24 - 1.
Definition DEADLINE_BITS : Z := 40.
Definition DEADLINE_MASK : Z := Z.shiftl 1 DEADLINE_BITS - 1.

Record Node := mkNode { hash : Z; packed : Z }.
Definition node_new (hash deadline_ms next : Z) : Node :=
  mkNode hash (Z.lor deadline_ms (Z.shiftl next DEADLINE_BITS)).
Definition deadline_ms (n : Node) : Z := Z.land (packed n) DEADLINE_MASK.
Definition next (n : Node) : Z := wrap 32 (Z.shiftr (packed n) DEADLINE_BITS).
Definition set_next (n : Node) (next : Z) : Node :=
  mkNode (hash n) (Z.lor (Z.land (packed n) DEADLINE_MASK) (Z.shiftl next DEADLINE_BITS)).
Definition set_deadline (n : Node) (deadline_ms : Z) : Node :=
  mkNode (hash n) (Z.lor (Z.ldiff (packed n) DEADLINE_MASK) deadline_ms).

(** ** The table *)

Definition WHEEL_MEMBER_SHARDS : Z := 256.
Definition EMPTY : Z := U32_MAX.
Definition SHARD_SLOTS_MIN : Z := 8.
Definition LOAD_NUM : Z := 7.
Definition LOAD_DEN : Z := 8.
Definition NODE_MASK : Z := NIL.

Record Shard := mkShard { slots : list Z; shard_len : Z }.
Record Membership := mkMembers { shards : list Shard; mlen : Z }.

Definition shard_of (hash : Z) : Z := Z.shiftr hash 56.
Definition fingerprint (hash : Z) : Z := Z.land (Z.shiftr hash 48) 0xFF.
Definition home (hash mask : Z) : Z := Z.land hash mask.
Definition entry (node hash : Z) : Z := Z.lor node (Z.shiftl (fingerprint hash) 24).
Definition node_of (entry : Z) : Z := Z.land entry NODE_MASK.

Definition members_new : Membership := mkMembers [] 0.

(** [pool[node].hash]. *)
Definition pool_hash (pool : list Node) (node : Z) : panics Z :=
  n ← expect (get pool node); mret (hash n).

(** [for _ in 0..self.slots.len()]. *)
Fixpoint position_loop (n : nat) (slots : list Z) (hash at_ : Z) (pool : list Node) : panics (option Z) :=
  match n with
  | O => mret None
  | S n =>
      e ← expect (get slots at_);
      if e =? EMPTY then mret None
      else
        m ← (if Z.shiftr e 24 =? fingerprint hash
             then h ← pool_hash pool (node_of e); mret (h =? hash) else mret false);
        if m : bool then mret (Some at_)
        else position_loop n slots hash (Z.land (at_ + 1) (len slots - 1)) pool
  end.
Definition position (s : Shard) (hash : Z) (pool : list Node) : panics (option Z) :=
  match slots s with
  | [] => mret None
  | _ => position_loop (length (slots s)) (slots s) hash (home hash (len (slots s) - 1)) pool
  end.

(** [while self.slots[at] != EMPTY]. *)
Fixpoint place_loop (fuel : nat) (slots : list Z) (e at_ : Z) : panics (list Z) :=
  x ← expect (get slots at_);
  if x =? EMPTY then set_at slots at_ e
  else
    match fuel with
    | O => Panic
    | S fuel => place_loop fuel slots e (Z.land (at_ + 1) (len slots - 1))
    end.
Definition place_entry (slots : list Z) (e hash : Z) : panics (list Z) :=
  place_loop (length slots) slots e (home hash (len slots - 1)).

Fixpoint place_all (slots : list Z) (old : list Z) (pool : list Node) : panics (list Z) :=
  match old with
  | [] => mret slots
  | e :: old =>
      if e =? EMPTY then place_all slots old pool
      else
        h ← pool_hash pool (node_of e);
        slots ← place_entry slots e h;
        place_all slots old pool
  end.
Definition grow (alloc : bool) (s : Shard) (pool : list Node) : panics (option Shard) :=
  let slots_new := Z.max (len (slots s) * 2) SHARD_SLOTS_MIN in
  if negb alloc then mret None
  else
    slots ← place_all (replicate (Z.to_nat slots_new) EMPTY) (slots s) pool;
    mret (Some (mkShard slots (shard_len s))).

(** The backward-shift loop from [next]. *)
Fixpoint delete_loop (fuel : nat) (slots : list Z) (hole next : Z) (pool : list Node) : panics (list Z) :=
  match fuel with
  | O => Panic
  | S fuel =>
      let mask := len slots - 1 in
      let next := Z.land (next + 1) mask in
      e ← expect (get slots next);
      if e =? EMPTY then set_at slots hole EMPTY
      else
        h ← pool_hash pool (node_of e);
        let from_home := Z.land (wrap 64 (next - home h mask)) mask in
        if Z.land (wrap 64 (next - hole)) mask <=? from_home
        then slots ← set_at slots hole e; delete_loop fuel slots next next pool
        else delete_loop fuel slots hole next pool
  end.
Definition delete_at (s : Shard) (at_ : Z) (pool : list Node) : panics (list Z) :=
  delete_loop (length (slots s)) (slots s) at_ at_ pool.

Definition lookup (m : Membership) (hash : Z) (pool : list Node) : panics (option Z) :=
  match get (shards m) (shard_of hash) with
  | None => mret None
  | Some shard =>
      p ← position shard hash pool;
      match p with
      | None => mret None
      | Some at_ => e ← expect (get (slots shard) at_); mret (Some (node_of e))
      end
  end.

(** [table] and [growth] are the allocator's answers; the result is whether
    the entry was added. *)
Definition insert (table growth : bool) (m : Membership) (hash node : Z) (pool : list Node)
  : panics (Membership * bool) :=
  let empty := bool_decide (shards m = []) in
  if empty && negb table then mret (m, false)
  else
    let shards := if empty then replicate 256 (mkShard [] 0) else shards m in
    shard ← expect (get shards (shard_of hash));
    g ← (if len (slots shard) * LOAD_NUM <? (shard_len shard + 1) * LOAD_DEN
         then grow growth shard pool else mret (Some shard));
    match g with
    | None => mret (mkMembers shards (mlen m), false)
    | Some shard =>
        slots ← place_entry (slots shard) (entry node hash) hash;
        shards ← set_at shards (shard_of hash) (mkShard slots (wrap 32 (shard_len shard + 1)));
        mret (mkMembers shards (wrap 64 (mlen m + 1)), true)
    end.

Definition remove (m : Membership) (hash node : Z) (pool : list Node) : panics Membership :=
  match get (shards m) (shard_of hash) with
  | None => mret m
  | Some shard =>
      p ← position shard hash pool;
      match p with
      | None => mret m
      | Some at_ =>
          slots ← delete_at shard at_ pool;
          shards ← set_at (shards m) (shard_of hash) (mkShard slots (wrap 32 (shard_len shard - 1)));
          mret (mkMembers shards (wrap 64 (mlen m - 1)))
      end
  end.

Definition retarget (m : Membership) (hash from to : Z) (pool : list Node) : panics Membership :=
  match get (shards m) (shard_of hash) with
  | None => mret m
  | Some shard =>
      p ← position shard hash pool;
      match p with
      | None => mret m
      | Some at_ =>
          slots ← set_at (slots shard) at_ (entry to hash);
          shards ← set_at (shards m) (shard_of hash) (mkShard slots (shard_len shard));
          mret (mkMembers shards (mlen m))
      end
  end.

(** ** Node words *)

Definition node_ok (n : Node) : Prop :=
  0 <= hash n < 2 ^ 64 /\ exists d k, packed n = d + k * 2 ^ 40 /\ 0 <= d < 2 ^ 40 /\ 0 <= k < 2 ^ 24.

Lemma pack_fields d k : 0 <= d < 2 ^ 40 -> 0 <= k < 2 ^ 24 ->
  Z.land (d + k * 2 ^ 40) DEADLINE_MASK = d /\ wrap 32 (Z.shiftr (d + k * 2 ^ 40) DEADLINE_BITS) = k.
Proof.
  intros Hd Hk. split.
  - change DEADLINE_MASK with (Z.ones 40). rewrite Z.land_ones, Z.mod_add by lia. by apply Z.mod_small.
  - unfold DEADLINE_BITS. rewrite Z.shiftr_div_pow2, Z.div_add, Z.div_small by lia.
    apply wrap_id. unfold in_u. lia.
Qed.

Lemma node_fields n : node_ok n ->
  packed n = deadline_ms n + next n * 2 ^ 40 /\ 0 <= deadline_ms n < 2 ^ 40 /\ 0 <= next n < 2 ^ 24.
Proof.
  intros (_ & d & k & E & Hd & Hk). unfold deadline_ms, next. rewrite E.
  by destruct (pack_fields d k Hd Hk) as [-> ->].
Qed.

Lemma node_new_ok h d k : 0 <= h < 2 ^ 64 -> 0 <= d < 2 ^ 40 -> 0 <= k < 2 ^ 24 ->
  node_ok (node_new h d k) /\ deadline_ms (node_new h d k) = d /\ next (node_new h d k) = k.
Proof.
  intros Hh Hd Hk. assert (E : packed (node_new h d k) = d + k * 2 ^ 40).
  { cbn. unfold DEADLINE_BITS. by rewrite lor_shiftl by lia. }
  unfold deadline_ms, next, node_ok. rewrite E. destruct (pack_fields d k Hd Hk) as [-> ->].
  split; [|done]. split; [done|]. by exists d, k.
Qed.

Lemma set_next_ok n k : node_ok n -> 0 <= k < 2 ^ 24 ->
  node_ok (set_next n k) /\ hash (set_next n k) = hash n /\
  deadline_ms (set_next n k) = deadline_ms n /\ next (set_next n k) = k.
Proof.
  intros Hn Hk. pose proof (node_fields n Hn) as (_ & Hd & _). destruct Hn as [Hh _].
  change (set_next n k) with (node_new (hash n) (deadline_ms n) k).
  destruct (node_new_ok (hash n) (deadline_ms n) k Hh Hd Hk) as (H1 & H2 & H3). by split_and!.
Qed.

Lemma set_deadline_ok n d : node_ok n -> 0 <= d < 2 ^ 40 ->
  node_ok (set_deadline n d) /\ hash (set_deadline n d) = hash n /\
  deadline_ms (set_deadline n d) = d /\ next (set_deadline n d) = next n.
Proof.
  intros Hn Hd. pose proof (node_fields n Hn) as (E & Hd0 & Hk). destruct Hn as [Hh _].
  assert (set_deadline n d = node_new (hash n) d (next n)) as ->.
  { unfold set_deadline, node_new. f_equal. rewrite Z.lor_comm. f_equal. rewrite E.
    change DEADLINE_MASK with (Z.ones 40). rewrite Z.ldiff_ones_r by lia. f_equal.
    rewrite Z.shiftr_div_pow2, Z.div_add, Z.div_small by lia. lia. }
  destruct (node_new_ok (hash n) d (next n) Hh Hd Hk) as (H1 & H2 & H3). by split_and!.
Qed.

(** ** Entries *)

Lemma fingerprint_range h : 0 <= fingerprint h < 256.
Proof. unfold fingerprint. rewrite land_255. apply Z.mod_pos_bound. lia. Qed.

Lemma entry_fields nd h : 0 <= nd < NIL ->
  node_of (entry nd h) = nd /\ Z.shiftr (entry nd h) 24 = fingerprint h /\ entry nd h <> EMPTY.
Proof.
  intros Hn. pose proof (fingerprint_range h) as Hf. change NIL with (2 ^ 24 - 1) in Hn.
  unfold entry. rewrite lor_shiftl by lia.
  assert (node_of (nd + fingerprint h * 2 ^ 24) = nd) as E.
  { unfold node_of. change NODE_MASK with (Z.ones 24). rewrite Z.land_ones, Z.mod_add by lia. apply Z.mod_small. lia. }
  split_and!; [done| |].
  - rewrite Z.shiftr_div_pow2, Z.div_add, Z.div_small by lia. lia.
  - intros H. rewrite H in E. change (node_of EMPTY) with (2 ^ 24 - 1) in E. lia.
Qed.

(** ** Positions on a ring of [n] slots *)

(** From [a] forward to [b]; [j] steps back from [i]; one step forward. *)
Definition dst (n a b : Z) : Z := if a <=? b then b - a else b - a + n.
Definition bck (n i j : Z) : Z := if j <=? i then i - j else i - j + n.
Definition fwd (n i : Z) : Z := if i + 1 =? n then 0 else i + 1.

(** [ring] decides the case analyses on ring positions. *)
Ltac ring_cases := unfold dst, bck, fwd in *;
  repeat match goal with
    | |- context [?a <=? ?b] => destruct (Z.leb_spec a b)
    | H : context [?a <=? ?b] |- _ => destruct (Z.leb_spec a b)
    | |- context [?a =? ?b] => destruct (Z.eqb_spec a b)
    | H : context [?a =? ?b] |- _ => destruct (Z.eqb_spec a b)
    end; try lia.

Lemma land_mask z k : 0 <= k -> Z.land z (2 ^ k - 1) = z mod 2 ^ k.
Proof. intros. rewrite <- Z.land_ones by lia. by rewrite Z.ones_equiv, <- Z.sub_1_r. Qed.

Lemma fwd_mask k i : 0 <= k -> 0 <= i < 2 ^ k -> Z.land (i + 1) (2 ^ k - 1) = fwd (2 ^ k) i.
Proof.
  intros Hk Hi. rewrite land_mask by done. unfold fwd. destruct (Z.eqb_spec (i + 1) (2 ^ k)) as [-> |].
  - apply Z.mod_same. lia.
  - apply Z.mod_small. lia.
Qed.

Lemma dst_mask k a b : 0 <= k <= 64 -> 0 <= a < 2 ^ k -> 0 <= b < 2 ^ k ->
  Z.land (wrap 64 (b - a)) (2 ^ k - 1) = dst (2 ^ k) a b.
Proof.
  intros Hk Ha Hb. rewrite land_mask by lia. unfold wrap.
  assert (2 ^ 64 = 2 ^ k * 2 ^ (64 - k)) as -> by (rewrite <- Z.pow_add_r by lia; f_equal; lia).
  assert (0 < 2 ^ (64 - k)) by (apply Z.pow_pos_nonneg; lia).
  rewrite Z.rem_mul_r, Z.mul_comm, Z.mod_add, Z.mod_mod by lia. unfold dst.
  destruct (Z.leb_spec a b); [apply Z.mod_small; lia|].
  rewrite <- (Z.mod_add _ 1) by lia. rewrite Z.mod_small; lia.
Qed.

(** ** Linear probing *)

Definition hash_of (pool : list Node) (nd : Z) : option Z := hash <$> get pool nd.

(** Slot [i] holds the entry of node [nd], whose hash is [h]. *)
Definition cell (pool : list Node) (slots : list Z) (i h nd : Z) : Prop :=
  get slots i = Some (entry nd h) /\ 0 <= nd < NIL /\ hash_of pool nd = Some h /\ 0 <= h < 2 ^ 64.
Definition filled (slots : list Z) (i : Z) : Prop := exists e, get slots i = Some e /\ e <> EMPTY.

Lemma cell_filled pool slots i h nd : cell pool slots i h nd -> filled slots i.
Proof. intros (H & Hn & _). exists (entry nd h). split; [done|]. by apply entry_fields. Qed.

Lemma cell_inj pool slots i h nd h' nd' : cell pool slots i h nd -> cell pool slots i h' nd' ->
  h = h' /\ nd = nd'.
Proof.
  intros (G1 & N1 & E1 & _) (G2 & N2 & E2 & _). rewrite G1 in G2. injection G2 as Ee.
  destruct (entry_fields nd h N1) as (En & _). destruct (entry_fields nd' h' N2) as (En' & _).
  rewrite <- Ee in En'. split; congruence.
Qed.

Lemma cell_hash pool slots i h nd h' nd' : cell pool slots i h nd -> cell pool slots i h' nd' -> h = h'.
Proof. intros H1 H2. by destruct (cell_inj _ _ _ _ _ _ _ H1 H2). Qed.

Lemma filled_dec slots i : 0 <= i < len slots -> filled slots i \/ get slots i = Some EMPTY.
Proof.
  intros [e He]%get_in. destruct (Z.eq_dec e EMPTY) as [-> |]; [by right|left; by exists e].
Qed.

Lemma filled_insert slots w e i : 0 <= w < len slots -> 0 <= i ->
  filled (<[Z.to_nat w := e]> slots) i <-> (i = w /\ e <> EMPTY) \/ (i <> w /\ filled slots i).
Proof.
  intros Hw Hi. unfold filled. rewrite get_insert by done. destruct (Z.eqb_spec i w) as [-> |].
  - split; [naive_solver|]. intros [[_ H]|[]]; [by exists e|done].
  - naive_solver.
Qed.

Lemma cell_insert pool slots w nd h i h' nd' : 0 <= w < len slots -> 0 <= nd < NIL -> hash_of pool nd = Some h ->
  0 <= h < 2 ^ 64 ->
  cell pool (<[Z.to_nat w := entry nd h]> slots) i h' nd' <->
  (i = w /\ h' = h /\ nd' = nd) \/ (i <> w /\ cell pool slots i h' nd').
Proof.
  intros Hw Hn Hh Hh64. unfold cell. destruct (Z.le_gt_cases 0 i) as [Hi|Hi].
  2:{ split; [intros (H%get_lt & _); lia|]. intros [[-> _]|[_ (H%get_lt & _)]]; lia. }
  rewrite get_insert by done. destruct (Z.eqb_spec i w) as [-> |]; [|naive_solver].
  split; [|naive_solver]. intros ([= E] & Hn' & Hh' & _). left.
  destruct (entry_fields nd h Hn) as (En & _). destruct (entry_fields nd' h' Hn') as (En' & _).
  rewrite <- E in En'. assert (nd' = nd) as End by congruence. rewrite End, Hh in Hh'. naive_solver.
Qed.

(** Clearing a slot drops its cell. *)
Lemma cell_clear pool slots w i h nd : 0 <= w < len slots ->
  cell pool (<[Z.to_nat w := EMPTY]> slots) i h nd <-> i <> w /\ cell pool slots i h nd.
Proof.
  intros Hw. unfold cell. destruct (Z.le_gt_cases 0 i) as [Hi|Hi].
  2:{ split; [intros (H%get_lt & _); lia|]. intros [_ (H%get_lt & _)]; lia. }
  rewrite get_insert by done. destruct (Z.eqb_spec i w) as [-> |]; [|naive_solver].
  split; [|naive_solver]. intros ([= E] & Hn & _). by destruct (entry_fields nd h Hn) as (_ & _ & []).
Qed.

Definition full (e : Z) : bool := negb (e =? EMPTY).
Definition load (slots : list Z) : Z := cnt full slots.

Lemma load_insert (l : list Z) i x y : get l i = Some x -> load (<[Z.to_nat i := y]> l) = load l - Z.b2z (full x) + Z.b2z (full y).
Proof. intros H%get_lookup. by apply cnt_insert. Qed.

Section Ring.
Context (pool : list Node) (k : Z) (Hk : 0 <= k <= 64).
Notation n := (2 ^ k).

(** Every filled slot holds a node's entry, and every slot of its probe path is
    filled, or is excused by [X]. *)
Definition runs (X : Z -> Z -> Prop) (slots : list Z) : Prop :=
  forall i, filled slots i -> exists h nd, cell pool slots i h nd /\
    forall j, 0 <= j <= dst n (h mod n) i -> filled slots (bck n i j) \/ X i (bck n i j).
Definition uniq (slots : list Z) : Prop :=
  forall i j h nd nd', cell pool slots i h nd -> cell pool slots j h nd' -> i = j.
Definition table (slots : list Z) : Prop := len slots = n /\ runs (fun _ _ => False) slots /\ uniq slots.

Lemma n_pos : 0 < n.
Proof. apply Z.pow_pos_nonneg; lia. Qed.

Lemma home_eq h (slots : list Z) : len slots = n -> home h (len slots - 1) = h mod n /\ 0 <= h mod n < n.
Proof. intros ->. unfold home. rewrite land_mask by lia. split; [done|]. apply Z.mod_pos_bound, n_pos. Qed.

Lemma cell_lt slots i h nd : len slots = n -> cell pool slots i h nd -> 0 <= i < n.
Proof. intros <- (H%get_lt & _). done. Qed.

Lemma pool_hash_eq nd h : hash_of pool nd = Some h -> pool_hash pool nd = Ok h.
Proof. unfold hash_of, pool_hash. destruct (get pool nd); [|done]. by intros [= <-]. Qed.

(** The test of one probed slot. *)
Lemma probe_test slots i h h' nd : cell pool slots i h' nd ->
  (if Z.shiftr (entry nd h') 24 =? fingerprint h
   then x ← pool_hash pool (node_of (entry nd h')); mret (x =? h) else mret false) = @Ok False _ (h' =? h).
Proof.
  intros (_ & Hn & Hh & _). destruct (entry_fields nd h' Hn) as (-> & -> & _).
  destruct (Z.eqb_spec (fingerprint h') (fingerprint h)) as [|Hf].
  - rewrite (pool_hash_eq _ _ Hh). done.
  - destruct (Z.eqb_spec h' h) as [-> |]; done.
Qed.

Lemma probe_present slots i h nd : table slots -> cell pool slots i h nd ->
  forall m at_, 0 <= at_ < n -> dst n at_ i < Z.of_nat m ->
  (forall j, 0 <= j <= dst n at_ i -> filled slots (bck n i j)) ->
  position_loop m slots h at_ pool = Ok (Some i).
Proof.
  intros (Hl & Hr & Hu) Hc. pose proof (cell_lt _ _ _ _ Hl Hc) as Hi.
  induction m as [|m IH]; intros at_ Ha Hm Hp; [ring_cases|]. cbn [position_loop].
  assert (Hf : filled slots at_).
  { replace at_ with (bck n i (dst n at_ i)) by ring_cases. apply Hp. ring_cases. }
  destruct (Hr _ Hf) as (h' & nd' & Hc' & _). pose proof Hc' as (Hg & Hn & _). rewrite Hg. ok_step.
  destruct (entry_fields nd' h' Hn) as (_ & _ & He). rewrite (proj2 (Z.eqb_neq _ _)) by done.
  rewrite (probe_test _ _ h _ _ Hc'). ok_step. destruct (Z.eqb_spec h' h) as [-> |Hne].
  - by rewrite (Hu _ _ _ _ _ Hc' Hc).
  - assert (at_ <> i).
    { intros ->. by pose proof (cell_hash _ _ _ _ _ _ _ Hc' Hc). }
    rewrite Hl, fwd_mask by lia. apply IH; [ring_cases|ring_cases|].
    intros j Hj. apply Hp. ring_cases.
Qed.

Lemma probe_absent slots h : table slots -> (forall i nd, ~ cell pool slots i h nd) ->
  forall m at_, 0 <= at_ < n -> position_loop m slots h at_ pool = Ok None.
Proof.
  intros (Hl & Hr & Hu) Hno. induction m as [|m IH]; intros at_ Ha; [done|]. cbn [position_loop].
  destruct (filled_dec slots at_) as [Hf|He]; [lia| |].
  - destruct (Hr _ Hf) as (h' & nd' & Hc' & _). pose proof Hc' as (Hg & Hn & _). rewrite Hg. ok_step.
    destruct (entry_fields nd' h' Hn) as (_ & _ & He). rewrite (proj2 (Z.eqb_neq _ _)) by done.
    rewrite (probe_test _ _ h _ _ Hc'). ok_step. destruct (Z.eqb_spec h' h) as [-> |Hne].
    + by destruct (Hno at_ nd').
    + rewrite Hl, fwd_mask by lia. apply IH. ring_cases.
  - rewrite He. done.
Qed.

(** A slot that is not filled, and the filled ones before it. *)
Lemma place_loop_spec slots e z : len slots = n -> 0 <= z < n -> get slots z = Some EMPTY ->
  forall fuel at_, 0 <= at_ < n -> dst n at_ z <= Z.of_nat fuel ->
  exists w, place_loop fuel slots e at_ = Ok (<[Z.to_nat w := e]> slots) /\ 0 <= w < n /\
    get slots w = Some EMPTY /\ forall j, 1 <= j <= dst n at_ w -> filled slots (bck n w j).
Proof.
  intros Hl Hz Hze. induction fuel as [|fuel IH]; intros at_ Ha Hf; cbn [place_loop].
  all: destruct (filled_dec slots at_) as [(x & Hx & Hne)|He]; [lia| |].
  2, 4: rewrite He; ok_step; change (EMPTY =? EMPTY) with true; rewrite set_at_Ok by lia;
    exists at_; split_and!; try done; try lia; intros j Hj; ring_cases.
  { assert (at_ = z) as -> by ring_cases. congruence. }
  rewrite Hx. ok_step. rewrite (proj2 (Z.eqb_neq _ _)) by done. rewrite Hl, fwd_mask by lia.
  assert (at_ <> z) by congruence.
  destruct (IH (fwd n at_)) as (w & -> & Hw & Hwe & Hp); [ring_cases|ring_cases|].
  exists w. split_and!; try done; try lia. intros j Hj.
  destruct (decide (bck n w j = at_)) as [-> |Hd]; [by exists x|]. apply Hp. ring_cases.
Qed.

Lemma table_insert slots w nd h : table slots -> (forall i nd, ~ cell pool slots i h nd) ->
  0 <= w < n -> get slots w = Some EMPTY -> (forall j, 1 <= j <= dst n (h mod n) w -> filled slots (bck n w j)) ->
  0 <= nd < NIL -> hash_of pool nd = Some h -> 0 <= h < 2 ^ 64 ->
  table (<[Z.to_nat w := entry nd h]> slots).
Proof.
  intros (Hl & Hr & Hu) Hno Hw Hwe Hp Hn Hh Hh64. pose proof n_pos.
  destruct (entry_fields nd h Hn) as (_ & _ & Hne).
  assert (Hmono : forall i, 0 <= i -> filled slots i -> filled (<[Z.to_nat w := entry nd h]> slots) i).
  { intros i Hi Hf. apply filled_insert; [lia|done|]. destruct (Z.eq_dec i w); [by left|by right]. }
  split_and!; [by rewrite len_insert| |].
  - intros i Hf. assert (0 <= i < n) by (destruct Hf as (? & Hg%get_lt & _); rewrite len_insert in Hg; lia).
    apply filled_insert in Hf as [[-> _]|[Hiw Hf]]; [| |lia|lia].
    + exists h, nd. split; [apply cell_insert; try done; [lia|by left]|]. intros j Hj. left.
      pose proof (Z.mod_pos_bound h n ltac:(lia)).
      destruct (Z.eq_dec j 0) as [-> |Hj0].
      { apply filled_insert; [lia|ring_cases|]. left. split; [ring_cases|done]. }
      apply Hmono; [ring_cases|]. apply Hp. lia.
    + destruct (Hr i Hf) as (h' & nd' & Hc & Hj). exists h', nd'.
      split; [apply cell_insert; try done; [lia|by right]|]. intros j Hjr. left.
      destruct (Hj j Hjr) as [H'|[]]. apply Hmono; [|done]. destruct H' as (? & Hg%get_lt & _). lia.
  - intros i j h' nd1 nd2 H1 H2. apply cell_insert in H1, H2; try done; try lia.
    destruct H1 as [(-> & -> & ->)|[Hi H1]], H2 as [(-> & E & ->)|[Hj H2]]; try done.
    + by destruct (Hno j nd2).
    + subst h'. by destruct (Hno i nd1).
    + by eapply Hu.
Qed.

(** ** Backward-shift deletion

    The array read as if the hole were empty. Entries beyond [next] may still
    have the hole on their probe path. *)
Definition excused (hole next : Z) (i z : Z) : Prop := z = hole /\ dst n hole next < dst n hole i.
Definition shifting (v : list Z) (hole next : Z) : Prop :=
  len v = n /\ get v hole = Some EMPTY /\ runs (excused hole next) v /\ uniq v.

(** The cells of two arrays are the same up to their slots. *)
Definition same_cells (v v' : list Z) : Prop :=
  forall h nd, (exists i, cell pool v i h nd) <-> (exists i, cell pool v' i h nd).

(** At an empty slot no entry has the hole on its path. *)
Lemma shifting_done v hole next : shifting v hole next -> 0 <= hole < n -> 0 <= next < n ->
  get v (fwd n next) = Some EMPTY -> fwd n next <> hole -> table v.
Proof.
  intros (Hl & _ & Hr & Hu) Hh Hx He Hne. split_and!; [done| |done]. intros i Hf.
  destruct (Hr i Hf) as (h & nd & Hc & Hp). exists h, nd. split; [done|]. intros j Hj. left.
  destruct (Hp j Hj) as [H|[E Hd]]; [done|exfalso]. pose proof (cell_lt _ _ _ _ Hl Hc) as Hi.
  pose proof (Z.mod_pos_bound h n n_pos).
  assert (Hj' : j = dst n hole i) by ring_cases.
  destruct (Hp (dst n (fwd n next) i)) as [(x & Hx' & Hxe)|[E' _]]; [ring_cases| |ring_cases].
  replace (bck n i (dst n (fwd n next) i)) with (fwd n next) in Hx' by ring_cases. congruence.
Qed.

(** An entry whose path does not cross the hole stays. *)
Lemma shifting_skip v hole next h nd : shifting v hole next -> 0 <= hole < n -> 0 <= next < n ->
  cell pool v (fwd n next) h nd -> dst n (h mod n) (fwd n next) < dst n hole (fwd n next) ->
  fwd n next <> hole -> shifting v hole (fwd n next).
Proof.
  intros (Hl & He & Hr & Hu) Hh Hx Hc Hd Hne. split_and!; try done. intros i Hf.
  destruct (Hr i Hf) as (h' & nd' & Hc' & Hp). exists h', nd'. split; [done|]. intros j Hj.
  destruct (Hp j Hj) as [H|[E Hlt]]; [by left|right]. split; [done|].
  pose proof (cell_lt _ _ _ _ Hl Hc') as Hi. pose proof (Z.mod_pos_bound h n n_pos).
  pose proof (Z.mod_pos_bound h' n n_pos).
  destruct (Z.eq_dec i (fwd n next)) as [-> |Hn']; [|ring_cases]. exfalso.
  assert (h' = h) as -> by (by eapply cell_hash; [exact Hc'|exact Hc]). ring_cases.
Qed.

(** The array after an entry moved from slot [x] into the hole. *)
Definition moved (v : list Z) (hole x e : Z) : list Z :=
  <[Z.to_nat x := EMPTY]> (<[Z.to_nat hole := e]> v).

Lemma moved_cell v hole x h nd : len v = n -> 0 <= hole < n -> 0 <= x < n -> x <> hole ->
  get v hole = Some EMPTY -> cell pool v x h nd ->
  forall i h' nd', cell pool (moved v hole x (entry nd h)) i h' nd' <->
    (i = hole /\ h' = h /\ nd' = nd) \/ (i <> hole /\ i <> x /\ cell pool v i h' nd').
Proof.
  intros Hl Hh Hx Hne He (Hg & Hn & Hha & Hh64) i h' nd'. unfold moved.
  rewrite cell_clear by (rewrite len_insert; lia). rewrite cell_insert by (done || lia). naive_solver.
Qed.

Lemma moved_filled v hole x e i : len v = n -> 0 <= hole < n -> 0 <= x < n -> x <> hole -> e <> EMPTY -> 0 <= i ->
  filled (moved v hole x e) i <-> i <> x /\ (i = hole \/ filled v i).
Proof.
  intros Hl Hh Hx Hne He Hi. unfold moved. rewrite filled_insert by (rewrite ?len_insert; lia).
  rewrite filled_insert by lia. destruct (Z.eq_dec i hole); naive_solver.
Qed.

Lemma shifting_move v hole next h nd (x := fwd n next) : shifting v hole next -> 0 <= hole < n -> 0 <= next < n ->
  cell pool v x h nd -> dst n hole x <= dst n (h mod n) x -> x <> hole ->
  shifting (moved v hole x (entry nd h)) x x /\ same_cells v (moved v hole x (entry nd h)).
Proof.
  intros (Hl & He & Hr & Hu) Hh Hnx Hc Hd Hne. assert (Hx : 0 <= x < n) by (unfold x; ring_cases).
  pose proof (Z.mod_pos_bound h n n_pos) as Hm. pose proof (moved_cell v hole x h nd Hl Hh Hx Hne He Hc) as Hmc.
  destruct (entry_fields nd h (proj1 (proj2 Hc))) as (_ & _ & Hen).
  assert (Hmf : forall i, 0 <= i -> filled (moved v hole x (entry nd h)) i <-> i <> x /\ (i = hole \/ filled v i))
    by (intros; by apply moved_filled).
  assert (Hbe : filled v hole -> False) by (intros (y & Hy & Hye); congruence).
  split; [unfold shifting; split_and!; [unfold moved; by rewrite !len_insert| | |]|].
  - unfold moved. rewrite get_insert by (rewrite ?len_insert; lia). by rewrite Z.eqb_refl.
  - intros i Hf. assert (0 <= i < n) as Hi.
    { destruct Hf as (? & Hg%get_lt & _). unfold moved in Hg. rewrite !len_insert in Hg. lia. }
    apply Hmf in Hf as [Hix Hf]; [|lia]. destruct (Z.eq_dec i hole) as [-> |Hih].
    + exists h, nd. split; [apply Hmc; by left|]. intros j Hj. left. apply Hmf; [ring_cases|].
      destruct (Z.eq_dec j 0) as [-> |Hj0]; [split; [ring_cases|left; ring_cases]|].
      destruct (Hr x (cell_filled _ _ _ _ _ Hc)) as (h2 & nd2 & Hc2 & Hp).
      assert (h2 = h) as -> by (by eapply cell_hash; [exact Hc2|exact Hc]).
      destruct (Hp (dst n hole x + j)) as [H|[E _]]; [ring_cases| |].
      * replace (bck n hole j) with (bck n x (dst n hole x + j)) by ring_cases.
        split; [ring_cases|by right].
      * exfalso. ring_cases.
    + destruct Hf as [|Hf]; [done|]. destruct (Hr i Hf) as (h' & nd' & Hc' & Hp). exists h', nd'.
      split; [apply Hmc; by right|]. intros j Hj. pose proof (Z.mod_pos_bound h' n n_pos).
      destruct (Z.eq_dec (bck n i j) x) as [Ex|Hnx'].
      * right. split; [done|]. ring_cases.
      * left. apply Hmf; [ring_cases|]. split; [done|]. destruct (Hp j Hj) as [H'|[E _]]; [by right|by left].
  - intros i j h' nd1 nd2 H1 H2. apply Hmc in H1, H2.
    destruct H1 as [(-> & -> & ->)|(Hi & Hi' & H1)], H2 as [(-> & E & ->)|(Hj & Hj' & H2)]; try done.
    + by pose proof (Hu _ _ _ _ _ Hc H2).
    + subst h'. by pose proof (Hu _ _ _ _ _ Hc H1).
    + by eapply Hu.
  - intros h' nd'. split.
    + intros [i Hi]. destruct (Z.eq_dec i x) as [-> |Hix].
      * exists hole. apply Hmc. left. split; [done|].
        destruct (cell_inj _ _ _ _ _ _ _ Hi Hc) as [-> ->]. done.
      * exists i. apply Hmc. right. split_and!; try done. intros ->. apply cell_filled in Hi. by apply Hbe.
    + intros [i Hi]. apply Hmc in Hi as [(-> & -> & ->)|(_ & _ & Hi)]; by eexists.
Qed.

Lemma load_moved v hole x e : len v = n -> 0 <= hole < n -> x <> hole -> 0 <= x -> get v hole = Some EMPTY ->
  get v x = Some e -> load (moved v hole x e) = load v.
Proof.
  intros Hl Hh Hne Hx He Hg. unfold moved. rewrite (load_insert _ x e).
  - rewrite (load_insert _ hole EMPTY) by done. cbn. lia.
  - rewrite get_insert by lia. by rewrite (proj2 (Z.eqb_neq _ _)).
Qed.

Lemma same_cells_trans v1 v2 v3 : same_cells v1 v2 -> same_cells v2 v3 -> same_cells v1 v3.
Proof. intros H1 H2 h nd. by rewrite (H1 h nd). Qed.

Lemma delete_loop_spec fuel : forall slots hole next z (v := <[Z.to_nat hole := EMPTY]> slots),
  shifting v hole next -> 0 <= hole < n -> 0 <= next < n ->
  0 <= z < n -> get v z = Some EMPTY -> z <> hole -> dst n hole next < dst n hole z ->
  dst n hole z - dst n hole next <= Z.of_nat fuel ->
  exists v', delete_loop fuel slots hole next pool = Ok v' /\ table v' /\ same_cells v v' /\ load v' = load v.
Proof.
  induction fuel as [|fuel IH]; intros slots hole next z v Hs Hh Hx Hz Hze Hzh Hd Hf; [lia|].
  assert (Hl : len slots = n) by (destruct Hs as [Hl _]; unfold v in Hl; by rewrite len_insert in Hl).
  cbn [delete_loop]. rewrite Hl, fwd_mask by lia.
  assert (0 <= fwd n next < n /\ fwd n next <> hole) as [Hy Hyh] by (split; ring_cases).
  assert (Hv : get slots (fwd n next) = get v (fwd n next)).
  { unfold v. rewrite get_insert by lia. by rewrite (proj2 (Z.eqb_neq _ _)). }
  rewrite Hv. destruct (filled_dec v (fwd n next)) as [Hfl|He]; [unfold v; rewrite len_insert; lia| |].
  2:{ rewrite He. ok_step. change (EMPTY =? EMPTY) with true. cbn iota. rewrite set_at_Ok by lia.
      exists v. split_and!; [done|by eapply shifting_done|done|done]. }
  pose proof Hs as (Hlv & Hhe & Hr & Hu). destruct (Hr _ Hfl) as (h & nd & Hc & _). pose proof Hc as (Hg & Hn & Hh' & _).
  rewrite Hg. ok_step. destruct (entry_fields nd h Hn) as (En & _ & Hne). rewrite (proj2 (Z.eqb_neq _ _)) by done.
  rewrite En, (pool_hash_eq _ _ Hh'). ok_step.
  pose proof (Z.mod_pos_bound h n n_pos) as Hm.
  assert (home h (n - 1) = h mod n) as -> by (unfold home; apply land_mask; lia).
  rewrite !dst_mask by lia. assert (Hzy : z <> fwd n next) by (intros E; rewrite <- E, Hze in Hg; congruence).
  destruct (Z.leb_spec (dst n hole (fwd n next)) (dst n (h mod n) (fwd n next))) as [Hle|Hgt].
  - rewrite set_at_Ok by lia. ok_step.
    destruct (shifting_move v hole next h nd Hs Hh Hx Hc Hle Hyh) as [Hs' Hsame].
    assert (Em : moved v hole (fwd n next) (entry nd h) =
      <[Z.to_nat (fwd n next) := EMPTY]> (<[Z.to_nat hole := entry nd h]> slots)).
    { unfold moved, v. by rewrite list_insert_insert_eq. }
    rewrite Em in Hs'.
    assert (Hze' : get (<[Z.to_nat (fwd n next) := EMPTY]> (<[Z.to_nat hole := entry nd h]> slots)) z = Some EMPTY).
    { rewrite !get_insert by (rewrite ?len_insert; lia). rewrite !(proj2 (Z.eqb_neq _ _)) by done.
      unfold v in Hze. rewrite get_insert in Hze by lia. by rewrite (proj2 (Z.eqb_neq _ _)) in Hze. }
    destruct (IH _ _ _ z Hs' Hy Hy Hz Hze' Hzy) as (v' & -> & Ht & Hsm & Hld); [clear IH; ring_cases..|].
    exists v'. split_and!; try done.
    + rewrite <- Em in Hsm. by eapply same_cells_trans.
    + rewrite Hld, <- Em. apply load_moved; done || lia.
  - destruct (IH slots hole (fwd n next) z) as (v' & -> & Ht & Hsm & Hld); try done.
    + by eapply shifting_skip.
    + clear IH. ring_cases.
    + clear IH. ring_cases.
    + by exists v'.
Qed.

End Ring.

(** ** Sets of entries *)

Definition fits (pool : list Node) (h nd : Z) : Prop := 0 <= nd < NIL /\ hash_of pool nd = Some h /\ 0 <= h < 2 ^ 64.
Definition held (pool : list Node) (l : list Z) (h nd : Z) : Prop := entry nd h ∈ l /\ fits pool h nd.
Definition good (pool : list Node) (e : Z) : Prop := e = EMPTY \/ exists h nd, e = entry nd h /\ fits pool h nd.
Definition key (pool : list Node) (e : Z) : option Z := if full e then hash_of pool (node_of e) else None.

Lemma full_entry nd h : 0 <= nd < NIL -> full (entry nd h) = true.
Proof. intros (_ & _ & H)%(entry_fields nd h). unfold full. by rewrite (proj2 (Z.eqb_neq _ _)). Qed.

Lemma fits_entry pool nd h nd' h' : fits pool h nd -> fits pool h' nd' -> entry nd h = entry nd' h' -> nd = nd' /\ h = h'.
Proof.
  intros (N1 & E1 & _) (N2 & E2 & _) E. destruct (entry_fields nd h N1) as (En & _).
  destruct (entry_fields nd' h' N2) as (En' & _). rewrite E in En. split; congruence.
Qed.

Lemma get_elem {A} (l : list A) x : x ∈ l <-> exists i, get l i = Some x.
Proof.
  rewrite list_elem_of_lookup. split.
  - intros [i Hi]. exists (Z.of_nat i). apply get_Some. split; [lia|]. by rewrite Nat2Z.id.
  - intros [i Hi%get_lookup]. by eexists.
Qed.

Lemma get_nil {A} i : get (@nil A) i = None.
Proof. destruct (get [] i) eqn:E; [|done]. apply get_lt in E. change (len (@nil A)) with 0 in E. lia. Qed.

Lemma held_cell pool l h nd : held pool l h nd <-> exists i, cell pool l i h nd.
Proof. unfold held, cell. rewrite get_elem. unfold fits. naive_solver. Qed.

Lemma key_entry pool nd h : fits pool h nd -> key pool (entry nd h) = Some h.
Proof. intros (Hn & Hh & _). unfold key. rewrite full_entry by done. by destruct (entry_fields nd h Hn) as (-> & _). Qed.

Lemma key_good pool e h : good pool e -> key pool e = Some h -> exists nd, e = entry nd h /\ fits pool h nd.
Proof.
  intros [-> |(h' & nd & -> & Hf)] Hk; [done|]. rewrite (key_entry _ _ _ Hf) in Hk. injection Hk as <-. by exists nd.
Qed.

Lemma omap_NoDup {A B} (f : A -> option B) (l : list A) :
  (forall i j x y b, l !! i = Some x -> l !! j = Some y -> f x = Some b -> f y = Some b -> i = j) -> NoDup (omap f l).
Proof.
  induction l as [|a l IH]; intros H; [constructor|]. cbn.
  assert (NoDup (omap f l)).
  { apply IH. intros i j x y b Hi Hj Hx Hy. by injection (H (S i) (S j) x y b Hi Hj Hx Hy). }
  destruct (f a) as [b|] eqn:E; [|done]. constructor; [|done].
  rewrite list_elem_of_omap. intros (y & [j Hj]%list_elem_of_lookup & Hy). by pose proof (H O (S j) a y b eq_refl Hj E Hy).
Qed.

Lemma bounded_NoDup (l : list Z) m : NoDup l -> Forall (fun x => 0 <= x < m) l -> len l <= Z.max 0 m.
Proof.
  intros Hd Hf. unfold len. rewrite <- (Nat2Z.id (length l)). 
  assert (length l <= length (seqZ 0 m))%nat as Hl.
  { apply submseteq_length, NoDup_submseteq; [done|]. intros x Hx. apply elem_of_seqZ.
    rewrite Forall_forall in Hf. specialize (Hf x). rewrite list_elem_of_In in Hx. specialize (Hf Hx). lia. }
  rewrite length_seqZ in Hl. lia.
Qed.

Lemma load_nonneg l : 0 <= load l <= len l.
Proof. apply cnt_nonneg. Qed.

Lemma load_hole l : load l < len l -> exists z, 0 <= z < len l /\ get l z = Some EMPTY.
Proof.
  intros H. assert (EMPTY ∈ l) as [z Hz]%get_elem; [|exists z; split; [by eapply get_lt|done]].
  induction l as [|e l IH]; [change (0 < 0) in H; lia|]. destruct (Z.eq_dec e EMPTY) as [-> |Hne]; [by left|right].
  apply IH. unfold load in *. cbn [cnt] in H. rewrite len_cons in H. unfold full in H at 1.
  rewrite (proj2 (Z.eqb_neq _ _)) in H by done. cbn [negb Z.b2z] in H. lia.
Qed.

Section Tables.
Context (pool : list Node).

Lemma table_good k l : table pool k l -> Forall (good pool) l.
Proof.
  intros (Hl & Hr & _). apply Forall_forall. intros e [i Hi]%list_elem_of_In%get_elem.
  destruct (Z.eq_dec e EMPTY) as [-> |Hne]; [by left|right].
  destruct (Hr i) as (h & nd & (Hg & Hf) & _); [by exists e|]. exists h, nd. split; [congruence|done].
Qed.

Lemma table_keys k l : table pool k l -> NoDup (omap (key pool) l).
Proof.
  intros Ht. pose proof (table_good _ _ Ht) as Hg. destruct Ht as (_ & _ & Hu).
  assert (Hi : forall i x b, l !! i = Some x -> key pool x = Some b -> exists nd, cell pool l (Z.of_nat i) b nd).
  { intros i x b Hi Hb. rewrite Forall_lookup in Hg. destruct (key_good pool x b) as (nd & -> & Hf); [by eapply Hg|done|].
    exists nd. split; [|done]. apply get_Some. split; [lia|]. by rewrite Nat2Z.id. }
  apply omap_NoDup. intros i j x y b H1 H2 H3 H4. destruct (Hi _ _ _ H1 H3) as [nd Hc].
  destruct (Hi _ _ _ H2 H4) as [nd' Hc']. pose proof (Hu _ _ _ _ _ Hc Hc'). lia.
Qed.

(** Distinct nodes: a shard holds fewer than [NIL] entries. *)
Lemma table_load k l : table pool k l -> load l <= NIL.
Proof.
  intros Ht. pose proof (table_good _ _ Ht) as Hg. destruct Ht as (_ & _ & Hu).
  set (f := fun e => if full e then Some (node_of e) else None).
  assert (Hn : forall e x, good pool e -> f e = Some x -> exists h, e = entry x h /\ fits pool h x).
  { intros e x [-> |(h & nd & -> & Hf)] Hx; [done|]. unfold f in Hx. rewrite full_entry in Hx by apply Hf.
    destruct (entry_fields nd h) as (En & _); [apply Hf|]. rewrite En in Hx. injection Hx as <-. by exists h. }
  assert (Hc : forall l, load l = len (omap f l)).
  { clear. induction l as [|e l IH]; [done|]. unfold load in *. cbn. unfold f at 1.
    destruct (full e); rewrite ?len_cons; cbn; rewrite IH; lia. }
  rewrite Hc. change NIL with (Z.max 0 NIL). apply bounded_NoDup.
  - apply omap_NoDup. intros i j x y b Hi Hj Hx Hy. rewrite Forall_lookup in Hg.
    destruct (Hn _ _ (Hg _ _ Hi) Hx) as (h & -> & Hf), (Hn _ _ (Hg _ _ Hj) Hy) as (h' & -> & Hf').
    assert (h' = h) as -> by (destruct Hf as (_ & ? & _), Hf' as (_ & ? & _); congruence).
    apply Nat2Z.inj. eapply Hu; (split; [apply get_Some; split; [lia|rewrite Nat2Z.id]|]); eassumption.
  - apply Forall_forall. intros x (e & He & Hx)%list_elem_of_In%list_elem_of_omap.
    rewrite Forall_forall in Hg. destruct (Hn e x) as (h & _ & Hf); [by apply Hg, list_elem_of_In|done|apply Hf].
Qed.

Lemma held_write slots w nd h : 0 <= w < len slots -> get slots w = Some EMPTY -> fits pool h nd ->
  forall h' nd', held pool (<[Z.to_nat w := entry nd h]> slots) h' nd' <-> held pool slots h' nd' \/ (h' = h /\ nd' = nd).
Proof.
  intros Hw He (Hn & Hh & Hr) h' nd'. rewrite !held_cell. setoid_rewrite cell_insert; try done. split.
  - intros [i [(-> & -> & ->)|[_ Hi]]]; [by right|left; by exists i].
  - intros [[i Hi]|[-> ->]]; [|exists w; by left]. exists i. right. split; [|done]. intros ->.
    destruct Hi as (Hg & Hn' & _). destruct (entry_fields nd' h' Hn') as (_ & _ & []). congruence.
Qed.

Lemma place_entry_spec k slots h nd : 0 <= k <= 64 -> table pool k slots -> load slots < 2 ^ k ->
  (forall nd, ~ held pool slots h nd) -> fits pool h nd ->
  exists slots', place_entry slots (entry nd h) h = Ok slots' /\ table pool k slots' /\ load slots' = load slots + 1 /\
    forall h' nd', held pool slots' h' nd' <-> held pool slots h' nd' \/ (h' = h /\ nd' = nd).
Proof.
  intros Hk Ht Hl Hno Hf. pose proof Ht as (Hlen & _). destruct (load_hole slots) as (z & Hz & Hze); [lia|].
  unfold place_entry. destruct (home_eq k Hk h slots Hlen) as [-> Hm].
  destruct (place_loop_spec k Hk slots (entry nd h) z Hlen ltac:(lia) Hze (length slots) (h mod 2 ^ k) Hm)
    as (w & -> & Hw & Hwe & Hp).
  { unfold len in Hlen. rewrite Hlen. clear -Hm Hz Hlen. unfold len in Hz. ring_cases. }
  destruct Hf as (Hn & Hh & Hr). exists (<[Z.to_nat w := entry nd h]> slots). split_and!; [done| | |].
  - apply table_insert; try done. intros i nd' Hc. apply (Hno nd'), held_cell. by exists i.
  - rewrite (load_insert _ _ _ _ Hwe), full_entry by done. cbn. lia.
  - apply held_write; [lia|done|done].
Qed.

Lemma held_cons e old h nd : good pool e -> held pool (e :: old) h nd <->
  (key pool e = Some h /\ node_of e = nd) \/ held pool old h nd.
Proof.
  intros Hg. unfold held. rewrite elem_of_cons. split.
  - intros [[<-|H] Hf]; [left|by right]. rewrite (key_entry _ _ _ Hf). split; [done|].
    by destruct (entry_fields nd h) as (? & _); [apply Hf|].
  - intros [[Hk Hn]|[H Hf]]; [|split; [by right|done]]. destruct (key_good _ _ _ Hg Hk) as (nd' & -> & Hf).
    destruct (entry_fields nd' h) as (En & _); [apply Hf|]. rewrite En in Hn. subst nd'. split; [by left|done].
Qed.

Lemma keys_cons e old h : h ∈ omap (key pool) (e :: old) <-> key pool e = Some h \/ h ∈ omap (key pool) old.
Proof. rewrite !list_elem_of_omap. setoid_rewrite elem_of_cons. naive_solver. Qed.

Lemma place_all_spec k : 0 <= k <= 64 -> forall old slots, table pool k slots -> load slots + load old < 2 ^ k ->
  Forall (good pool) old -> NoDup (omap (key pool) old) ->
  (forall h nd, h ∈ omap (key pool) old -> ~ held pool slots h nd) ->
  exists slots', place_all slots old pool = Ok slots' /\ table pool k slots' /\ load slots' = load slots + load old /\
    forall h nd, held pool slots' h nd <-> held pool slots h nd \/ held pool old h nd.
Proof.
  intros Hk. induction old as [|e old IH]; intros slots Ht Hl Hg Hd Hno; cbn [place_all].
  { exists slots. split_and!; [done|done|cbn; lia|]. intros h nd. unfold held at 3. set_solver. }
  apply Forall_cons_iff in Hg as [He Hg].
  assert (El : load (e :: old) = Z.b2z (full e) + load old) by done. rewrite El in *.
  pose proof (load_nonneg old). setoid_rewrite held_cons; [|done..]. setoid_rewrite keys_cons in Hno.
  destruct He as [-> |(h & nd & -> & Hf)].
  { destruct (IH slots) as (slots' & -> & H1 & H2 & H3); [done|cbn in Hl; lia|done|done|naive_solver|].
    exists slots'. split_and!; [done|done|cbn; lia|]. intros h nd. rewrite H3. naive_solver. }
  rewrite full_entry in * by apply Hf. cbn [Z.b2z] in *. rewrite (key_entry _ _ _ Hf) in Hno |- *.
  destruct (entry_fields nd h) as (En & _ & Hne); [apply Hf|]. rewrite (proj2 (Z.eqb_neq _ _)) by done.
  rewrite En, (pool_hash_eq pool nd h) by apply Hf. ok_step.
  cbn in Hd. rewrite (key_entry _ _ _ Hf) in Hd. apply list.NoDup_cons in Hd as [Hnk Hd].
  destruct (place_entry_spec k slots h nd) as (s1 & -> & Ht1 & Hl1 & Hh1); try done; [lia|naive_solver|]. ok_step.
  destruct (IH s1) as (slots' & -> & H1 & H2 & H3); try done; [lia| |].
  { intros h' nd' Hin [Hh|[-> ->]]%Hh1; [|done]. eapply Hno; [by right|done]. }
  exists slots'. split_and!; [done|done|lia|]. intros h' nd'. rewrite H3, Hh1. naive_solver.
Qed.

Lemma empty_table k : 0 <= k -> table pool k (replicate (Z.to_nat (2 ^ k)) EMPTY) /\
  load (replicate (Z.to_nat (2 ^ k)) EMPTY) = 0 /\ forall h nd, ~ held pool (replicate (Z.to_nat (2 ^ k)) EMPTY) h nd.
Proof.
  intros Hk. assert (0 < 2 ^ k) by (apply Z.pow_pos_nonneg; lia).
  assert (Hh : forall h nd, ~ held pool (replicate (Z.to_nat (2 ^ k)) EMPTY) h nd).
  { intros h nd [[E _]%elem_of_replicate Hf]. by destruct (entry_fields nd h) as (_ & _ & []); [apply Hf|]. }
  split_and!; [|generalize (Z.to_nat (2 ^ k)) as m; by induction m|done]. split_and!.
  - rewrite len_replicate. lia.
  - intros i (e & He%get_lookup & Hne). by apply lookup_replicate in He as [-> _].
  - intros i j h nd nd' Hc. exfalso. eapply Hh, held_cell. by exists i.
Qed.

End Tables.

(** ** A shard *)

Definition sized (pool : list Node) (k : Z) (s : Shard) : Prop :=
  3 <= k <= 25 /\ table pool k (slots s) /\ load (slots s) = shard_len s /\
  shard_len s * LOAD_DEN <= len (slots s) * LOAD_NUM.
Definition shard_ok (pool : list Node) (s : Shard) : Prop :=
  (slots s = [] /\ shard_len s = 0) \/ exists k, sized pool k s.
Notation holds pool s := (held pool (slots s)).

Section Shards.
Context (pool : list Node).

Lemma holds_sized s h nd : shard_ok pool s -> holds pool s h nd -> exists k, sized pool k s.
Proof. intros [[E _]|[k Hk]] [Hh _]; [|by exists k]. rewrite E in Hh. by apply elem_of_nil in Hh. Qed.

Lemma sized_facts k s : sized pool k s -> len (slots s) = 2 ^ k /\ 8 <= 2 ^ k <= 2 ^ 25 /\
  0 <= shard_len s <= NIL /\ load (slots s) < 2 ^ k.
Proof.
  intros (Hk & Ht & Hl & Hb). pose proof (table_load pool k _ Ht). pose proof (load_nonneg (slots s)).
  destruct Ht as (Hlen & _). unfold LOAD_NUM, LOAD_DEN in Hb.
  assert (2 ^ 3 <= 2 ^ k <= 2 ^ 25) by (split; apply Z.pow_le_mono_r; lia). lia.
Qed.

Lemma position_eq s h : slots s <> [] ->
  position s h pool = position_loop (length (slots s)) (slots s) h (home h (len (slots s) - 1)) pool.
Proof. unfold position. by destruct (slots s). Qed.

Lemma sized_cons k s : sized pool k s -> slots s <> [].
Proof. intros (Hl & ? & _)%sized_facts E. rewrite E in Hl. change (0 = 2 ^ k) in Hl. lia. Qed.

Lemma position_hit s i h nd : shard_ok pool s -> cell pool (slots s) i h nd -> position s h pool = Ok (Some i).
Proof.
  intros Hs Hc. destruct (holds_sized s h nd Hs) as [k Hk]; [apply held_cell; by exists i|].
  rewrite position_eq by (by eapply sized_cons). pose proof (sized_facts k s Hk) as (Hl & Hn & _).
  destruct Hk as (Hk & Ht & _). destruct (home_eq k ltac:(lia) h (slots s) Hl) as [-> Hm].
  pose proof Ht as (_ & Hr & _). destruct (Hr i) as (h' & nd' & Hc' & Hp); [by eapply cell_filled|].
  assert (h' = h) as -> by (by eapply cell_hash; [exact Hc'|exact Hc]).
  pose proof (cell_lt pool k (slots s) i h nd Hl Hc) as Hi.
  eapply (probe_present pool k); [lia|done|exact Hc|done| |].
  - unfold len in Hl. rewrite Hl. clear -Hm Hi. ring_cases.
  - intros j Hj. by destruct (Hp j Hj).
Qed.

Lemma position_miss s h : shard_ok pool s -> (forall nd, ~ holds pool s h nd) -> position s h pool = Ok None.
Proof.
  intros [[E _]|[k Hk]] Hno; [unfold position; by rewrite E|].
  rewrite position_eq by (by eapply sized_cons). pose proof (sized_facts k s Hk) as (Hl & Hn & _).
  destruct Hk as (Hk & Ht & _). destruct (home_eq k ltac:(lia) h (slots s) Hl) as [-> Hm].
  apply (probe_absent pool k); try done; [lia|]. intros i nd Hc. apply (Hno nd), held_cell. by exists i.
Qed.

(** A grown shard has room for one more entry. *)
Lemma shard_grow_spec s : shard_ok pool s -> len (slots s) * LOAD_NUM < (shard_len s + 1) * LOAD_DEN ->
  exists k s', grow true s pool = Ok (Some s') /\ sized pool k s' /\ (shard_len s' + 1) * LOAD_DEN <= len (slots s') * LOAD_NUM /\
    forall h nd, holds pool s' h nd <-> holds pool s h nd.
Proof.
  intros Hs Hgt. unfold grow. cbn [negb].
  assert (exists k, 3 <= k <= 25 /\ Z.max (len (slots s) * 2) SHARD_SLOTS_MIN = 2 ^ k /\
    (shard_len s + 1) * LOAD_DEN <= 2 ^ k * LOAD_NUM) as (k & Hk & -> & Hroom).
  { destruct Hs as [[E El]|[k Hk]].
    - exists 3. rewrite E, El. done.
    - pose proof (sized_facts k s Hk) as (Hl & Hn & Hsl & Hld). destruct Hk as (Hk & _ & _ & Hb).
      exists (k + 1). rewrite Hl in *. unfold LOAD_NUM, LOAD_DEN, SHARD_SLOTS_MIN in *. rewrite Z.pow_add_r by lia.
      change NIL with (2 ^ 24 - 1) in Hsl. assert (k < 25); [|split_and!; lia].
      apply (Z.pow_lt_mono_r_iff 2); lia. }
  destruct (empty_table pool k ltac:(lia)) as (Ht0 & Hl0 & Hh0).
  assert (Hold : Forall (good pool) (slots s) /\ NoDup (omap (key pool) (slots s)) /\ load (slots s) = shard_len s).
  { destruct Hs as [[-> ->]|[k' (_ & Ht & Hl & _)]]; [split_and!; by constructor|].
    split_and!; [by eapply table_good|by eapply table_keys|done]. }
  destruct Hold as (Hg & Hd & Hl). unfold LOAD_NUM, LOAD_DEN in Hroom.
  destruct (place_all_spec pool k ltac:(lia) (slots s) _ Ht0) as (sl & -> & Ht & Hld & Hh); [lia|done|done|naive_solver|].
  ok_step. exists k, (mkShard sl (shard_len s)). pose proof Ht as (Hlen & _).
  unfold sized, LOAD_NUM, LOAD_DEN. cbn [slots shard_len]. rewrite Hlen.
  split_and!; [done|lia|lia|done|lia|lia|lia|]. intros h nd. rewrite Hh. naive_solver.
Qed.

Lemma add_spec k s h nd : sized pool k s -> (shard_len s + 1) * LOAD_DEN <= len (slots s) * LOAD_NUM ->
  (forall nd, ~ holds pool s h nd) -> fits pool h nd ->
  exists sl, place_entry (slots s) (entry nd h) h = Ok sl /\ shard_ok pool (mkShard sl (wrap 32 (shard_len s + 1))) /\
    forall h' nd', held pool sl h' nd' <-> holds pool s h' nd' \/ (h' = h /\ nd' = nd).
Proof.
  intros Hs Hroom Hno Hf. pose proof (sized_facts k s Hs) as (Hl & Hn & Hsl & Hld). pose proof Hs as (Hk & Ht & Hlo & _).
  destruct (place_entry_spec pool k (slots s) h nd) as (sl & -> & Ht' & Hl' & Hh); try done; [lia|].
  exists sl. split_and!; [done| |done]. right. exists k. pose proof Ht' as (Hlen & _). change NIL with (2 ^ 24 - 1) in Hsl.
  unfold sized, LOAD_NUM, LOAD_DEN in *. cbn [slots shard_len]. rewrite wrap_id by (unfold in_u; lia).
  split_and!; [lia|lia|done|lia|lia].
Qed.

Lemma cleared_shifting k sl i h nd : 0 <= k <= 64 -> table pool k sl -> cell pool sl i h nd ->
  shifting pool k (<[Z.to_nat i := EMPTY]> sl) i i.
Proof.
  intros Hk (Hl & Hr & Hu) Hc. pose proof (cell_lt pool k sl i h nd Hl Hc) as Hi. unfold shifting. split_and!.
  - by rewrite len_insert.
  - rewrite get_insert by lia. by rewrite Z.eqb_refl.
  - intros x Hx. assert (0 <= x < 2 ^ k) as Hxr by (destruct Hx as (? & Hg%get_lt & _); rewrite len_insert in Hg; lia).
    apply filled_insert in Hx as [[_ []]|[Hxi Hx]]; [done| |lia|lia].
    destruct (Hr x Hx) as (h' & nd' & Hc' & Hp). exists h', nd'. split; [apply cell_clear; [lia|done]|].
    intros j Hj. pose proof (Z.mod_pos_bound h' (2 ^ k) ltac:(lia)).
    destruct (Z.eq_dec (bck (2 ^ k) x j) i) as [E|Hne]; [right|left].
    + split; [done|]. clear -E Hi Hxr Hxi. ring_cases.
    + apply filled_insert; [lia|clear -Hj Hxr H; ring_cases|]. right. split; [done|]. by destruct (Hp j Hj).
  - intros x y h' nd1 nd2 H1 H2. apply cell_clear in H1 as [_ H1]; [|lia]. apply cell_clear in H2 as [_ H2]; [|lia].
    by eapply Hu.
Qed.

Lemma delete_spec s i h nd : shard_ok pool s -> cell pool (slots s) i h nd ->
  exists sl, delete_at s i pool = Ok sl /\ shard_ok pool (mkShard sl (wrap 32 (shard_len s - 1))) /\
    forall h' nd', held pool sl h' nd' <-> holds pool s h' nd' /\ h' <> h.
Proof.
  intros Hs Hc. destruct (holds_sized s h nd Hs) as [k Hk]; [apply held_cell; by exists i|].
  pose proof (sized_facts k s Hk) as (Hl & Hn & Hsl & Hld). destruct Hk as (Hk & Ht & Hlo & Hb).
  pose proof (cell_lt pool k (slots s) i h nd Hl Hc) as Hi. pose proof Hc as (Hg & Hnd & _).
  destruct (load_hole (slots s)) as (z & Hz & Hze); [lia|].
  assert (Hzi : z <> i) by (intros ->; destruct (entry_fields nd h Hnd) as (_ & _ & []); congruence).
  assert (Hlv : load (<[Z.to_nat i := EMPTY]> (slots s)) = load (slots s) - 1).
  { rewrite (load_insert _ _ _ _ Hg), full_entry by done. cbn. lia. }
  unfold delete_at. destruct (delete_loop_spec pool k ltac:(lia) (length (slots s)) (slots s) i i z) as (sl & -> & Ht' & Hsm & Hld');
    [by eapply cleared_shifting; [lia|..]|done|done|lia| |done|clear -Hi Hz Hl Hzi; ring_cases| |].
  { rewrite get_insert by lia. by rewrite (proj2 (Z.eqb_neq _ _)). }
  { unfold len in Hl. rewrite Hl. clear -Hi Hz Hl. unfold len in Hz. ring_cases. }
  exists sl. split_and!; [done| |].
  - right. exists k. pose proof Ht' as (Hlen & _). pose proof (load_nonneg sl). change NIL with (2 ^ 24 - 1) in Hsl.
    unfold sized, LOAD_NUM, LOAD_DEN in *. cbn [slots shard_len]. rewrite wrap_id by (unfold in_u; lia).
    split_and!; [lia|lia|done|lia|lia].
  - intros h' nd'. rewrite held_cell, <- (Hsm h' nd'), held_cell. setoid_rewrite cell_clear; [|lia].
    destruct Ht as (_ & _ & Hu). split.
    + intros (x & Hx & Hcx). split; [by exists x|]. intros ->. by pose proof (Hu _ _ _ _ _ Hcx Hc).
    + intros [[x Hx] Hne]. exists x. split; [|done]. intros ->. by pose proof (cell_hash _ _ _ _ _ _ _ Hx Hc).
Qed.

(** Overwriting the entry of a hash with another node of that hash. *)
Lemma redirect_spec s i h nd to : shard_ok pool s -> cell pool (slots s) i h nd -> fits pool h to ->
  exists sl, set_at (slots s) i (entry to h) = @Ok False _ sl /\ shard_ok pool (mkShard sl (shard_len s)) /\
    forall h' nd', held pool sl h' nd' <-> (holds pool s h' nd' /\ h' <> h) \/ (h' = h /\ nd' = to).
Proof.
  intros Hs Hc (Hto & Hh & Hr64). destruct (holds_sized s h nd Hs) as [k Hk]; [apply held_cell; by exists i|].
  pose proof (sized_facts k s Hk) as (Hl & Hn & Hsl & Hld). destruct Hk as (Hk & (_ & Hr & Hu) & Hlo & Hb).
  pose proof (cell_lt pool k (slots s) i h nd Hl Hc) as Hi. pose proof Hc as (Hg & Hnd & _).
  rewrite set_at_Ok by lia. eexists. split_and!; [done| |].
  - right. exists k. unfold sized, table. cbn [slots shard_len]. rewrite !len_insert, (load_insert _ _ _ _ Hg), !full_entry by done.
    split_and!; [lia|lia|done| | |lia|done].
    + assert (Hmono : forall x, 0 <= x -> filled (slots s) x -> filled (<[Z.to_nat i := entry to h]> (slots s)) x).
      { intros x Hx Hf. apply filled_insert; [lia|done|]. destruct (entry_fields to h Hto) as (_ & _ & ?).
        destruct (Z.eq_dec x i); [by left|by right]. }
      assert (Hold : forall x, filled (slots s) x -> forall h' nd', cell pool (slots s) x h' nd' ->
        exists nd2, cell pool (<[Z.to_nat i := entry to h]> (slots s)) x h' nd2).
      { intros x _ h' nd' Hcx. destruct (Z.eq_dec x i) as [-> |Hxi].
        - exists to. apply cell_insert; try done; [lia|]. left. split_and!; try done. by eapply cell_hash; [exact Hcx|exact Hc].
        - exists nd'. apply cell_insert; try done; [lia|by right]. }
      intros x Hx. assert (Hfx : filled (slots s) x).
      { assert (0 <= x) by (destruct Hx as (? & Hgx%get_lt & _); lia).
        apply filled_insert in Hx as [[-> _]|[_ Hx]]; [by eapply cell_filled|done|lia|done]. }
      destruct (Hr x Hfx) as (h' & nd' & Hcx & Hp). destruct (Hold x Hfx h' nd' Hcx) as [nd2 Hc2].
      exists h', nd2. split; [done|]. intros j Hj. left. destruct (Hp j Hj) as [Hf|[]].
      apply Hmono; [|done]. destruct Hf as (? & Hgx%get_lt & _). lia.
    + intros x y h' nd1 nd2 H1 H2. apply cell_insert in H1, H2; try done; try lia.
      destruct H1 as [(-> & -> & ->)|[Hx H1]], H2 as [(-> & E & ->)|[Hy H2]]; try done.
      * by eapply Hu.
      * subst h'. by eapply Hu.
      * by eapply Hu.
  - intros h' nd'. rewrite !held_cell. setoid_rewrite cell_insert; try done; [|lia]. split.
    + intros (x & [(-> & -> & ->)|[Hx Hcx]]); [by right|left]. split; [by exists x|]. intros ->.
      by pose proof (Hu _ _ _ _ _ Hcx Hc).
    + intros [[[x Hx] Hne]|[-> ->]]; [|exists i; by left]. exists x. right. split; [|done]. intros ->.
      by pose proof (cell_hash _ _ _ _ _ _ _ Hx Hc).
Qed.

End Shards.

(** ** The table as a finite map from hashes to nodes *)

Definition shard_repr (pool : list Node) (M : gmap Z Z) (x : Z) (s : Shard) : Prop :=
  shard_ok pool s /\ forall h nd, holds pool s h nd <-> (shard_of h = x /\ M !! h = Some nd).
Definition members_ok (pool : list Node) (m : Membership) (M : gmap Z Z) : Prop :=
  mlen m = Z.of_nat (size M) /\ (forall h nd, M !! h = Some nd -> fits pool h nd) /\
  ((shards m = [] /\ M = ∅) \/
   (len (shards m) = 256 /\ forall x s, get (shards m) x = Some s -> shard_repr pool M x s)).

Lemma shard_of_range h : 0 <= h < 2 ^ 64 -> 0 <= shard_of h < 256.
Proof. intros H. unfold shard_of. rewrite Z.shiftr_div_pow2 by lia. split; [apply Z.div_pos|apply Z.div_lt_upper_bound]; lia. Qed.

Section Members.
Context (pool : list Node).

Lemma members_size m M : members_ok pool m M -> Z.of_nat (size M) <= NIL.
Proof.
  intros (_ & Hf & _). rewrite <- length_map_to_list, <- (length_fmap snd). fold (len (snd <$> map_to_list M)).
  change NIL with (Z.max 0 NIL). apply bounded_NoDup.
  - apply NoDup_fmap_2_strong; [|apply NoDup_map_to_list].
    intros [h nd] [h' nd'] H1%elem_of_map_to_list H2%elem_of_map_to_list [= E]. cbn in E. subst nd'.
    destruct (Hf _ _ H1) as (_ & E1 & _), (Hf _ _ H2) as (_ & E2 & _). congruence.
  - apply Forall_forall. intros nd ([h nd'] & -> & H%elem_of_map_to_list)%list_elem_of_In%list_elem_of_fmap.
    apply (Hf _ _ H).
Qed.

Lemma members_shard m M h : members_ok pool m M -> 0 <= h < 2 ^ 64 ->
  (shards m = [] /\ M = ∅) \/ exists s, len (shards m) = 256 /\ get (shards m) (shard_of h) = Some s /\ shard_repr pool M (shard_of h) s.
Proof.
  intros (_ & _ & [H|[Hl H]]) Hh; [by left|right]. destruct (get_in (shards m) (shard_of h)) as [s Hs].
  { rewrite Hl. by apply shard_of_range. }
  exists s. split_and!; [done|done|by apply H].
Qed.

Lemma repr_miss M x s h : shard_repr pool M x s -> M !! h = None -> position s h pool = Ok None.
Proof. intros [Hs Hh] Hn. apply position_miss; [done|]. intros nd [_ Hx]%Hh. congruence. Qed.

Lemma repr_hit M s h nd : shard_repr pool M (shard_of h) s -> M !! h = Some nd ->
  exists i, position s h pool = Ok (Some i) /\ cell pool (slots s) i h nd.
Proof.
  intros [Hs Hh] Hn. assert (holds pool s h nd) as [i Hi]%held_cell by (by apply Hh).
  exists i. split; [by eapply position_hit|done].
Qed.

Lemma lookup_ok m M h : members_ok pool m M -> 0 <= h < 2 ^ 64 -> lookup m h pool = Ok (M !! h).
Proof.
  intros Hm Hh. unfold lookup. destruct (members_shard m M h Hm Hh) as [[-> ->]|(s & _ & -> & Hr)]; [by rewrite get_nil|].
  destruct (M !! h) as [nd|] eqn:E.
  - destruct (repr_hit M s h nd Hr E) as (i & -> & Hg & Hn & _). ok_step. rewrite Hg. ok_step.
    by destruct (entry_fields nd h Hn) as (-> & _).
  - by rewrite (repr_miss M _ s h Hr E).
Qed.

(** One shard is replaced; only the binding of [h] changes. *)
Lemma members_put m M h s s' M' n' : members_ok pool m M -> 0 <= h < 2 ^ 64 -> len (shards m) = 256 ->
  get (shards m) (shard_of h) = Some s -> shard_ok pool s' ->
  (forall h', h' <> h -> M' !! h' = M !! h') -> (forall nd, M' !! h = Some nd -> fits pool h nd) ->
  (forall h' nd, holds pool s' h' nd <-> (holds pool s h' nd /\ h' <> h) \/ (h' = h /\ M' !! h = Some nd)) ->
  n' = Z.of_nat (size M') ->
  members_ok pool (mkMembers (<[Z.to_nat (shard_of h) := s']> (shards m)) n') M'.
Proof.
  intros (_ & Hf & Hc) Hh Hl Hs Hok Hsame Hfit Hhold ->. unfold members_ok. split_and!; [done| |right].
  { intros h' nd Hl'. destruct (Z.eq_dec h' h) as [-> |Hne]; [by apply Hfit|]. rewrite Hsame in Hl' by done. by apply Hf. }
  cbn [shards]. rewrite len_insert. split; [done|]. pose proof (shard_of_range h Hh) as Hx.
  assert (Hr : forall x s, get (shards m) x = Some s -> shard_repr pool M x s).
  { destruct Hc as [[E _]|[_ Hc]]; [|done]. rewrite E in Hl. done. }
  intros x t Ht. assert (0 <= x) by (apply get_lt in Ht; lia). rewrite get_insert in Ht by lia.
  destruct (Z.eqb_spec x (shard_of h)) as [-> |Hne].
  - injection Ht as <-. split; [done|]. destruct (Hr _ _ Hs) as [_ Hold]. intros h' nd. rewrite Hhold, Hold.
    destruct (Z.eq_dec h' h) as [-> |Hn]; [naive_solver|]. rewrite (Hsame h') by done. naive_solver.
  - destruct (Hr _ _ Ht) as [Hok' Hold]. split; [done|]. intros h' nd. rewrite Hold.
    destruct (Z.eq_dec h' h) as [-> |Hn]; [naive_solver|]. by rewrite (Hsame h').
Qed.

Lemma members_remove_ok m M h nd nd' : members_ok pool m M -> M !! h = Some nd ->
  exists m', remove m h nd' pool = Ok m' /\ members_ok pool m' (delete h M).
Proof.
  intros Hm Hh. pose proof Hm as (Hn & Hf & _). destruct (Hf _ _ Hh) as (_ & _ & Hr64). unfold remove.
  pose proof (members_size m M Hm) as Hsz. change NIL with (2 ^ 24 - 1) in Hsz.
  destruct (members_shard m M h Hm Hr64) as [[_ ->]|(s & Hl & Hs & Hr)]; [done|]. rewrite Hs.
  destruct (repr_hit M s h nd Hr Hh) as (i & -> & Hc). ok_step.
  destruct (delete_spec pool s i h nd (proj1 Hr) Hc) as (sl & -> & Hok & Hhold). ok_step.
  rewrite set_at_Ok by (rewrite Hl; by apply shard_of_range). ok_step. eexists. split; [done|].
  assert (size M <> O) by (intros E%map_size_empty_inv; by rewrite E in Hh).
  eapply members_put; try done.
  - intros h' Hne. by rewrite lookup_delete_ne.
  - intros nd''. by rewrite lookup_delete_eq.
  - cbn [slots]. intros h' nd''. rewrite Hhold, lookup_delete_eq. naive_solver.
  - rewrite Hn, wrap_id by (unfold in_u; lia). rewrite map_size_delete_Some by (by eexists). lia.
Qed.

Lemma retarget_ok m M h nd from to : members_ok pool m M -> M !! h = Some nd -> fits pool h to ->
  exists m', retarget m h from to pool = Ok m' /\ members_ok pool m' (<[h := to]> M).
Proof.
  intros Hm Hh Hto. pose proof Hm as (Hn & Hf & _). destruct (Hf _ _ Hh) as (_ & _ & Hr64). unfold retarget.
  destruct (members_shard m M h Hm Hr64) as [[_ ->]|(s & Hl & Hs & Hr)]; [done|]. rewrite Hs.
  destruct (repr_hit M s h nd Hr Hh) as (i & -> & Hc). ok_step.
  destruct (redirect_spec pool s i h nd to (proj1 Hr) Hc Hto) as (sl & -> & Hok & Hhold). ok_step.
  rewrite set_at_Ok by (rewrite Hl; by apply shard_of_range). ok_step. eexists. split; [done|].
  eapply members_put; try done.
  - intros h' Hne. by rewrite lookup_insert_ne.
  - intros nd''. rewrite lookup_insert_eq. by intros [= <-].
  - cbn [slots]. intros h' nd''. rewrite Hhold, lookup_insert_eq. naive_solver.
  - rewrite Hn, map_size_insert_Some; [done|by eexists].
Qed.

Lemma fresh_ok m M : members_ok pool m M ->
  let sh := if bool_decide (shards m = []) then replicate 256 (mkShard [] 0) else shards m in
  len sh = 256 /\ members_ok pool (mkMembers sh (mlen m)) M.
Proof.
  intros Hm. case_bool_decide as E.
  - destruct Hm as (Hn & Hf & [[_ ->]|[Hl _]]); [|rewrite E in Hl; done]. split; [done|]. split_and!; [done|done|right].
    split; [done|]. intros x s Hs. assert (s = mkShard [] 0) as ->.
    { apply get_lookup in Hs. cbn [shards] in Hs. by apply lookup_replicate in Hs as [-> _]. }
    split; [by left|]. intros h nd. split; [by intros [H%elem_of_nil _]|intros [_ []%lookup_empty_Some]].
  - destruct m as [sh n]. cbn in *. destruct Hm as (Hn & Hf & [[E' _]|[Hl Hr]]); [done|]. split; [done|].
    split_and!; [done|done|right]. by split.
Qed.

Lemma insert_ok t g m M h nd : members_ok pool m M -> M !! h = None -> fits pool h nd ->
  exists m' b, insert t g m h nd pool = Ok (m', b) /\ (t = true -> g = true -> b = true) /\
    members_ok pool m' (if b then <[h := nd]> M else M).
Proof.
  intros Hm Hh Hfit. pose proof Hfit as (_ & _ & Hr64). pose proof Hm as (Hn & _).
  pose proof (members_size m M Hm) as Hsz. change NIL with (2 ^ 24 - 1) in Hsz.
  destruct (fresh_ok m M Hm) as [Hl Hm0]. unfold insert.
  destruct (bool_decide (shards m = []) && negb t) eqn:Et.
  { exists m, false. split_and!; [done| |done]. intros ->. by rewrite andb_false_r in Et. }
  set (sh := if bool_decide (shards m = []) then _ else _) in *. clearbody sh.
  destruct (members_shard _ M h Hm0 Hr64) as [[E _]|(s & _ & Hs & Hr)]; [cbn in E; by rewrite E in Hl|].
  cbn [shards] in Hs. rewrite Hs. ok_step.
  assert (Hadd : forall k s1, sized pool k s1 -> (shard_len s1 + 1) * LOAD_DEN <= len (slots s1) * LOAD_NUM ->
    (forall h' nd', holds pool s1 h' nd' <-> holds pool s h' nd') ->
    exists sl, place_entry (slots s1) (entry nd h) h = Ok sl /\
      members_ok pool (mkMembers (<[Z.to_nat (shard_of h) := mkShard sl (wrap 32 (shard_len s1 + 1))]> sh) (wrap 64 (mlen m + 1))) (<[h := nd]> M)).
  { intros k s1 Hk Hroom Hsame. destruct (add_spec pool k s1 h nd Hk Hroom) as (sl & Hp & Hok & Hhold); [|done|].
    { intros nd' [_ Hx]%Hsame%Hr. congruence. }
    exists sl. split; [done|]. apply (members_put _ M h s _ _ _ Hm0); try done.
    - intros h' Hne. by rewrite lookup_insert_ne.
    - intros nd'. rewrite lookup_insert_eq. by intros [= <-].
    - intros h' nd'. cbn [slots]. rewrite Hhold, Hsame, lookup_insert_eq. destruct Hr as [_ Hr].
      destruct (Z.eq_dec h' h) as [-> |]; [|naive_solver]. rewrite Hr. naive_solver.
    - rewrite Hn, wrap_id by (unfold in_u; lia). rewrite map_size_insert_None by done. lia. }
  destruct (Z.ltb_spec (len (slots s) * LOAD_NUM) ((shard_len s + 1) * LOAD_DEN)) as [Hlt|Hge].
  - destruct g.
    2:{ exists (mkMembers sh (mlen m)), false. by split_and!. }
    destruct (shard_grow_spec pool s (proj1 Hr) Hlt) as (k & s1 & -> & Hk & Hroom & Hsame). ok_step.
    destruct (Hadd k s1 Hk Hroom Hsame) as (sl & -> & Hok). ok_step.
    rewrite set_at_Ok by (rewrite Hl; by apply shard_of_range). ok_step. by eexists _, true.
  - destruct (proj1 Hr) as [[E1 E2]|[k Hk]].
    { rewrite E1, E2 in Hge. unfold LOAD_NUM, LOAD_DEN in Hge. change (len (@nil Z)) with 0 in Hge. lia. }
    ok_step. destruct (Hadd k s Hk Hge) as (sl & -> & Hok); [done|]. ok_step.
    rewrite set_at_Ok by (rewrite Hl; by apply shard_of_range). ok_step. by eexists _, true.
Qed.

(** The table only reads the hashes of the nodes it names. *)
Lemma cell_frame pool' sl : (forall h nd, held pool sl h nd -> hash_of pool' nd = hash_of pool nd) ->
  Forall (good pool) sl -> forall i h nd, cell pool' sl i h nd <-> cell pool sl i h nd.
Proof.
  intros Hs Hg i h nd. split.
  - intros (G & Hn & Hh & Hr). rewrite Forall_lookup in Hg.
    destruct (Hg _ _ (get_lookup _ _ _ G)) as [E|(h2 & nd2 & E & Hf)].
    { by destruct (entry_fields nd h Hn) as (_ & _ & []). }
    assert (nd2 = nd) as ->.
    { destruct (entry_fields nd h Hn) as (<- & _). rewrite E. by destruct (entry_fields nd2 h2 (proj1 Hf)) as (-> & _). }
    unfold cell. split_and!; try done; try lia. rewrite <- (Hs h2 nd); [done|]. split; [|done]. rewrite <- E. apply get_elem. by exists i.
  - intros Hc. pose proof Hc as (G & Hn & Hh & Hr). unfold cell. split_and!; try done; try lia. rewrite (Hs h nd); [done|]. apply held_cell. by exists i.
Qed.

Lemma shard_frame pool' s : (forall h nd, holds pool s h nd -> hash_of pool' nd = hash_of pool nd) -> shard_ok pool s ->
  shard_ok pool' s /\ forall h nd, holds pool' s h nd <-> holds pool s h nd.
Proof.
  intros Hs [[E El]|[k Hk]].
  { split; [by left|]. intros h nd. unfold held. rewrite E. split; intros [H%elem_of_nil _]; done. }
  destruct Hk as (Hk & Ht & Hlo & Hb). pose proof (cell_frame pool' (slots s) Hs (table_good pool k _ Ht)) as Hc. split.
  - right. exists k. unfold sized. split_and!; [lia|lia| |done|done]. destruct Ht as (Hl & Hr & Hu). split_and!; [done| |].
    + intros i Hi. destruct (Hr i Hi) as (h & nd & Hcell & Hp). exists h, nd. split; [by apply Hc|done].
    + intros i j h nd nd' H1%Hc H2%Hc. by eapply Hu.
  - intros h nd. rewrite !held_cell. by setoid_rewrite Hc.
Qed.

End Members.

Lemma members_frame pool pool' m M : members_ok pool m M ->
  (forall h nd, M !! h = Some nd -> hash_of pool' nd = hash_of pool nd) -> members_ok pool' m M.
Proof.
  intros (Hn & Hf & Hc) Hs. unfold members_ok. split_and!; [done| |].
  - intros h nd H. destruct (Hf _ _ H) as (H1 & H2 & H3). unfold fits. split_and!; try done; try lia. by rewrite (Hs h nd).
  - destruct Hc as [H|[Hl Hr]]; [by left|right]. split; [done|]. intros x s [Hok Hh]%Hr.
    destruct (shard_frame pool pool' s) as [Hok' Hh']; [intros h nd [_ H]%Hh; by apply (Hs h)|done|].
    split; [done|]. intros h nd. by rewrite Hh'.
Qed.

Lemma new_ok pool : members_ok pool members_new ∅.
Proof. split_and!; [done|done|by left]. Qed.

(** ** The interface the wheel relies on *)

Class MembersSpec (R : list Node -> Membership -> gmap Z Z -> Prop) : Prop := {
  ms_new pool : R pool members_new ∅;
  ms_fits pool m M h nd : R pool m M -> M !! h = Some nd -> fits pool h nd;
  ms_frame pool pool' m M : R pool m M ->
    (forall h nd, M !! h = Some nd -> hash_of pool' nd = hash_of pool nd) -> R pool' m M;
  ms_lookup pool m M h : R pool m M -> 0 <= h < 2 ^ 64 -> lookup m h pool = Ok (M !! h);
  ms_insert pool t g m M h nd : R pool m M -> M !! h = None -> fits pool h nd ->
    exists m' b, insert t g m h nd pool = Ok (m', b) /\ (t = true -> g = true -> b = true) /\
      R pool m' (if b then <[h := nd]> M else M);
  ms_remove pool m M h nd nd' : R pool m M -> M !! h = Some nd ->
    exists m', remove m h nd' pool = Ok m' /\ R pool m' (delete h M);
  ms_retarget pool m M h nd from to : R pool m M -> M !! h = Some nd -> fits pool h to ->
    exists m', retarget m h from to pool = Ok m' /\ R pool m' (<[h := to]> M) }.

#[export] Instance members_spec : MembersSpec members_ok.
Proof.
  split.
  - exact new_ok.
  - intros pool m M h nd (_ & Hf & _). apply Hf.
  - exact members_frame.
  - exact lookup_ok.
  - exact insert_ok.
  - exact members_remove_ok.
  - exact retarget_ok.
Qed.

(** C14. The membership table is a finite map from key hashes to pool nodes,
    and no operation on it panics: a lookup returns the node of the hash; an
    insert of an absent hash adds exactly its binding, or leaves the map as it
    was when the allocator refuses; a removal deletes exactly its binding, the
    backward shift keeping every other entry reachable; a retarget replaces the
    node of its hash. The entry count is the size of the map. *)
Theorem membership_refines_map pool m M h : members_ok pool m M -> 0 <= h < 2 ^ 64 ->
  mlen m = Z.of_nat (size M) /\ lookup m h pool = Ok (M !! h) /\
  (forall t g nd, M !! h = None -> fits pool h nd ->
     exists m' b, insert t g m h nd pool = Ok (m', b) /\ (t = true -> g = true -> b = true) /\
       members_ok pool m' (if b then <[h := nd]> M else M)) /\
  (forall nd node, M !! h = Some nd -> exists m', remove m h node pool = Ok m' /\ members_ok pool m' (delete h M)) /\
  (forall nd from to, M !! h = Some nd -> fits pool h to ->
     exists m', retarget m h from to pool = Ok m' /\ members_ok pool m' (<[h := to]> M)).
Proof.
  intros Hm Hh. split_and!; [apply Hm|by apply lookup_ok|..]; intros; [by apply insert_ok|by eapply members_remove_ok|by eapply retarget_ok].
Qed.

(** Two hashes of one shard, one fingerprint and one home slot. *)
Definition pair_pool : list Node := [node_new 0x2A5A000000000000 7 NIL; node_new 0x2A5A000000010000 9 NIL].

Lemma membership_refines_map_witness : exists m, members_ok pair_pool m {[0x2A5A000000010000 := 1]} /\
  lookup m 0x2A5A000000010000 pair_pool = Ok (Some 1) /\ lookup m 0x2A5A000000000000 pair_pool = Ok None.
Proof.
  set (a := 0x2A5A000000000000). set (b := 0x2A5A000000010000).
  assert (fits pair_pool a 0 /\ fits pair_pool b 1) as [Fa Fb] by (split; repeat split; done).
  destruct (membership_refines_map pair_pool members_new ∅ a (new_ok _) ltac:(done)) as (_ & _ & Hi & _).
  destruct (Hi true true 0 (lookup_empty _) Fa) as (m1 & b1 & _ & E1 & Hm1). rewrite (E1 eq_refl eq_refl) in Hm1.
  destruct (membership_refines_map pair_pool m1 _ b Hm1 ltac:(done)) as (_ & _ & Hi1 & _).
  destruct (Hi1 true true 1 eq_refl Fb) as (m2 & b2 & _ & E2 & Hm2). rewrite (E2 eq_refl eq_refl) in Hm2.
  destruct (membership_refines_map pair_pool m2 _ a Hm2 ltac:(done)) as (_ & _ & _ & Hd & _).
  destruct (Hd 0 0 eq_refl) as (m3 & _ & Hm3). exists m3.
  replace (delete a (<[b:=1]> (<[a:=0]> ∅))) with ({[b := 1]} : gmap Z Z) in Hm3 by reflexivity.
  split_and!; [done|exact (proj1 (proj2 (membership_refines_map pair_pool m3 _ b Hm3 ltac:(done))))
    |exact (proj1 (proj2 (membership_refines_map pair_pool m3 _ a Hm3 ltac:(done))))].
Defined.

End Member.
