(* ===== verification/Wheel.v ===== *)
(** * The expiry timing wheel ([crates/inf-store/src/wheel.rs] [TtlWheel])

    Four tiers of 512 slots and an overflow list hold the scheduled nodes as
    linked lists threaded through one pool; a fifth list is the free list. The
    state is [TtlWheel]; each method is a definition on it in the [panics]
    monad (an index out of range is [Panic]), with the answers of the allocator
    as arguments. The fire callback is an argument of [tick] with a state of its
    own. The membership table is used through its interface
    [Member.MembersSpec].

    After the definitions: linked lists in the pool ([chain], [linked]), the
    list a deadline belongs to at a cursor ([timed], [pending], [spot_of]), and
    the slot heads with their occupancy bitmap ([rows_ok]). The wheel's
    invariant and theorems are in [WheelSpec]. *)

From stdpp Require Import gmap.
From S2P Require Import Prelude Member.
#[local] Open Scope Z_scope.

Module Wheel.
Import Member(NIL, DEADLINE_MASK, Node, node_new, hash, deadline_ms, next, set_next, set_deadline,
  Membership, members_new, node_ok, hash_of, fits, MembersSpec).

(** ** Data *)

Definition SLOTS : Z := 512.
Definition SLOT_BITS : Z := 9.
Definition TIERS : Z := 4.
Definition BITMAP_WORDS : Z := SLOTS / 64.
Definition HORIZON_MS : Z := Z.shiftl 1 (SLOT_BITS * TIERS).

Inductive Placement := Filed | Held | Moved | Refused.
Record Due := mkDue { due_hash : Z; due_deadline_ms : Z }.
Inductive FireNext := Refile (deadline_ms : Z) | Release | ReleaseOwe.
Record ExpiryBudget := mkBudget { max_fires : Z; max_steps : Z; max_sweep_slots : Z }.
Definition UNBOUNDED : ExpiryBudget := mkBudget U32_MAX U32_MAX U32_MAX.
Record TickStats := mkStats { fired : Z; steps : Z; caught_up : bool; refiled : Z; owed : Z }.
Definition stats_default : TickStats := mkStats 0 0 false 0 0.
Inductive Drain := Done | Cut.

(** [WheelNodesMax::new], with [limits::WHEEL_NODES_MAX]. *)
Definition WHEEL_NODES_MAX : Z := Z.shiftl 1 24 - 1.
Definition WheelNodesMax_new (nodes : Z) : outcome Z Z :=
  _ ← refuse_if (WHEEL_NODES_MAX <? nodes) nodes;
  mret (wrap 32 nodes).

Record TtlWheel := mkWheel {
  pool : list Node; free : Z; nodes_in_use : Z; nodes_max : Z; tombstones : Z;
  heads : list (list Z); occupied : list (list Z); overflow : Z; cursor_ms : Z; members : Membership }.

Definition with_pool w x := mkWheel x (free w) (nodes_in_use w) (nodes_max w) (tombstones w)
  (heads w) (occupied w) (overflow w) (cursor_ms w) (members w).
Definition with_free w x := mkWheel (pool w) x (nodes_in_use w) (nodes_max w) (tombstones w)
  (heads w) (occupied w) (overflow w) (cursor_ms w) (members w).
Definition with_in_use w x := mkWheel (pool w) (free w) x (nodes_max w) (tombstones w)
  (heads w) (occupied w) (overflow w) (cursor_ms w) (members w).
Definition with_tombstones w x := mkWheel (pool w) (free w) (nodes_in_use w) (nodes_max w) x
  (heads w) (occupied w) (overflow w) (cursor_ms w) (members w).
Definition with_lists w hs occ := mkWheel (pool w) (free w) (nodes_in_use w) (nodes_max w) (tombstones w)
  hs occ (overflow w) (cursor_ms w) (members w).
Definition with_overflow w x := mkWheel (pool w) (free w) (nodes_in_use w) (nodes_max w) (tombstones w)
  (heads w) (occupied w) x (cursor_ms w) (members w).
Definition with_cursor w x := mkWheel (pool w) (free w) (nodes_in_use w) (nodes_max w) (tombstones w)
  (heads w) (occupied w) (overflow w) x (members w).
Definition with_members w x := mkWheel (pool w) (free w) (nodes_in_use w) (nodes_max w) (tombstones w)
  (heads w) (occupied w) (overflow w) (cursor_ms w) x.

Definition wheel_new (start_ms nodes_max : Z) : TtlWheel :=
  mkWheel [] NIL 0 nodes_max 0
    (replicate (Z.to_nat TIERS) (replicate (Z.to_nat SLOTS) NIL))
    (replicate (Z.to_nat TIERS) (replicate (Z.to_nat BITMAP_WORDS) 0)) NIL start_ms members_new.

Definition armed (w : TtlWheel) : Z := wrap 64 (nodes_in_use w - tombstones w).

(** ** Lists *)

(** [a[i][j]], and the assignment to it. *)
Definition get2 (a : list (list Z)) (i j : Z) : option Z := get a i ≫= fun r => get r j.
Definition set2 (a : list (list Z)) (i j x : Z) : panics (list (list Z)) :=
  r ← expect (get a i); r ← set_at r j x; set_at a i r.

Definition pool_node (w : TtlWheel) (at_ : Z) : panics Node := expect (get (pool w) at_).
Definition put_node (w : TtlWheel) (at_ : Z) (n : Node) : panics TtlWheel :=
  p ← set_at (pool w) at_ n; mret (with_pool w p).
Definition put_next (w : TtlWheel) (at_ x : Z) : panics TtlWheel :=
  n ← pool_node w at_; put_node w at_ (set_next n x).

Definition take_list (w : TtlWheel) (tier slot : Z) : panics (TtlWheel * Z) :=
  word ← expect (get2 (occupied w) tier (slot / 64));
  occ ← set2 (occupied w) tier (slot / 64) (Z.ldiff word (Z.shiftl 1 (slot mod 64)));
  head ← expect (get2 (heads w) tier slot);
  hs ← set2 (heads w) tier slot NIL;
  mret (with_lists w hs occ, head).

Definition set_list (w : TtlWheel) (tier slot head : Z) : panics TtlWheel :=
  hs ← set2 (heads w) tier slot head;
  let bit := Z.shiftl 1 (slot mod 64) in
  word ← expect (get2 (occupied w) tier (slot / 64));
  occ ← set2 (occupied w) tier (slot / 64) (if head =? NIL then Z.ldiff word bit else Z.lor word bit);
  mret (with_lists w hs occ).

Definition tier_occupied (w : TtlWheel) (tier : Z) : panics bool :=
  r ← expect (get (occupied w) tier); mret (existsb (fun word => negb (word =? 0)) r).

(** The tier loop of [file]; three rounds suffice ([tier < TIERS - 1]). *)
Fixpoint file_tier (fuel : nat) (delta tier : Z) : Z :=
  match fuel with
  | O => tier
  | S fuel =>
      if (tier <? TIERS - 1) && (Z.shiftl 1 (SLOT_BITS * (tier + 1)) <=? delta)
      then file_tier fuel delta (tier + 1) else tier
  end.
Definition file (w : TtlWheel) (at_ floor_ms : Z) : panics TtlWheel :=
  n ← pool_node w at_;
  let instant := Z.max (wrap 64 (deadline_ms n + 1)) floor_ms in
  let delta := sat_sub instant (cursor_ms w) in
  if HORIZON_MS <=? delta then
    w' ← put_next w at_ (overflow w);
    mret (with_overflow w' at_)
  else
    let tier := file_tier 3 delta 0 in
    let slot := Z.land (Z.shiftr instant (SLOT_BITS * tier)) (SLOTS - 1) in
    head ← expect (get2 (heads w) tier slot);
    w ← put_next w at_ head;
    set_list w tier slot at_.

(** ** Allocation *)

(** The allocator's answers to the pool, the shard table and the shard. *)
Record Alloc := mkAlloc { reserve : bool; table : bool; growth : bool }.

Definition alloc (a : Alloc) (w : TtlWheel) (hash deadline_ms : Z) : panics (option (TtlWheel * Z)) :=
  if negb (free w =? NIL) then
    let at_ := free w in
    n ← pool_node w at_;
    w ← put_node (with_free w (next n)) at_ (node_new hash deadline_ms NIL);
    mret (Some (with_in_use w (wrap 64 (nodes_in_use w + 1)), at_))
  else if (nodes_max w <=? len (pool w)) || negb (reserve a) then mret None
  else
    let at_ := wrap 32 (len (pool w)) in
    let w := with_pool w (pool w ++ [node_new hash deadline_ms NIL]) in
    mret (Some (with_in_use w (wrap 64 (nodes_in_use w + 1)), at_)).

Definition release (w : TtlWheel) (at_ : Z) : panics TtlWheel :=
  w ← put_next w at_ (free w);
  mret (with_in_use (with_free w at_) (wrap 64 (nodes_in_use w - 1))).

Definition release_member (w : TtlWheel) (at_ : Z) : panics TtlWheel :=
  n ← pool_node w at_;
  m ← Member.remove (members w) (hash n) at_ (pool w);
  release (with_members w m) at_.

Definition free_tombstone (w : TtlWheel) (at_ : Z) : panics TtlWheel :=
  release (with_tombstones w (sat_sub (tombstones w) 1)) at_.

Definition file_new (a : Alloc) (w : TtlWheel) (hash deadline_ms : Z) : panics (TtlWheel * bool) :=
  r ← alloc a w hash deadline_ms;
  match r with
  | None => mret (w, false)
  | Some (w, at_) =>
      i ← Member.insert (table a) (growth a) (members w) hash at_ (pool w);
      let w := with_members w (fst i) in
      if snd i : bool then w ← file w at_ (cursor_ms w); mret (w, true)
      else w ← release w at_; mret (w, false)
  end.

(** ** Scheduling *)

Definition node_deadline (w : TtlWheel) (hash : Z) : panics (option Z) :=
  r ← Member.lookup (members w) hash (pool w);
  match r with
  | None => mret None
  | Some at_ => n ← pool_node w at_; mret (Some (deadline_ms n))
  end.

Definition remove (w : TtlWheel) (hash_ : Z) : panics (TtlWheel * bool) :=
  r ← Member.lookup (members w) hash_ (pool w);
  match r with
  | None => mret (w, false)
  | Some at_ =>
      m ← Member.remove (members w) hash_ at_ (pool w);
      let w := with_members w m in
      n ← pool_node w at_;
      let successor := next n in
      if successor =? NIL then mret (with_tombstones w (wrap 64 (tombstones w + 1)), true)
      else
        moved ← pool_node w successor;
        w ← put_node w at_ moved;
        r ← Member.lookup (members w) (hash moved) (pool w);
        w ← (if bool_decide (r = Some successor)
             then m ← Member.retarget (members w) (hash moved) successor at_ (pool w); mret (with_members w m)
             else mret w);
        w ← release w successor;
        mret (w, true)
  end.

Definition place (a : Alloc) (w : TtlWheel) (hash deadline : Z) : panics (TtlWheel * Placement) :=
  let deadline := Z.min deadline DEADLINE_MASK in
  r ← Member.lookup (members w) hash (pool w);
  match r with
  | None =>
      r ← file_new a w hash deadline;
      mret (fst r, if snd r : bool then Filed else Refused)
  | Some at_ =>
      n ← pool_node w at_;
      let filed := deadline_ms n in
      if (filed =? deadline) || (filed <? deadline) then mret (w, Held)
      else
        r ← remove w hash;
        r ← file_new a (fst r) hash deadline;
        mret (fst r, if snd r : bool then Moved else Refused)
  end.

(** ** Ticking *)

(** A [while at != NIL] walk that files every node at the cursor. *)
Fixpoint refile_list (fuel : nat) (w : TtlWheel) (at_ : Z) : panics TtlWheel :=
  if at_ =? NIL then mret w
  else match fuel with
  | O => Panic
  | S fuel =>
      n ← pool_node w at_;
      w ← file w at_ (cursor_ms w);
      refile_list fuel w (next n)
  end.

(** [for tier in 1..TIERS], from [tier] on. *)
Fixpoint cascade_tiers (rounds : nat) (w : TtlWheel) (tier : Z) : panics TtlWheel :=
  match rounds with
  | O => mret w
  | S rounds =>
      let bits := SLOT_BITS * tier in
      if negb (Z.land (cursor_ms w) (Z.shiftl 1 bits - 1) =? 0) then mret w
      else
        let slot := Z.land (Z.shiftr (cursor_ms w) bits) (SLOTS - 1) in
        r ← take_list w tier slot;
        w ← refile_list (length (pool (fst r))) (fst r) (snd r);
        cascade_tiers rounds w (tier + 1)
  end.
Definition cascade_boundaries (w : TtlWheel) : panics TtlWheel :=
  w ← cascade_tiers 3 w 1;
  if (Z.land (cursor_ms w) (HORIZON_MS / SLOTS - 1) =? 0) && negb (overflow w =? NIL)
  then refile_list (length (pool w)) (with_overflow w NIL) (overflow w)
  else mret w.

Definition sat_add32 (a b : Z) : Z := Z.min (a + b) U32_MAX.
Definition add_step (st : TickStats) : TickStats :=
  mkStats (fired st) (sat_add32 (steps st) 1) (caught_up st) (refiled st) (owed st).

(** One round of [fast_forward]'s loop; [inr] leaves it. *)
Definition fast_forward_step (now_ms : Z) (s : TtlWheel * TickStats)
  : panics (TtlWheel * TickStats + TtlWheel * TickStats) :=
  let '(w, st) := s in
  o0 ← tier_occupied w 0;
  if (now_ms <? cursor_ms w) || o0 then mret (inr (w, st))
  else
    o1 ← tier_occupied w 1;
    o2 ← tier_occupied w 2;
    o3 ← tier_occupied w 3;
    let align :=
      if o1 : bool then Some SLOT_BITS
      else if o2 : bool then Some (SLOT_BITS * 2)
      else if o3 || negb (overflow w =? NIL) then Some (SLOT_BITS * 3) else None in
    match align with
    | None =>
        if cursor_ms w <? now_ms then mret (inr (with_cursor w now_ms, add_step st)) else mret (inr (w, st))
    | Some align =>
        let boundary := wrap 64 (Z.shiftl (Z.shiftr (cursor_ms w) align + 1) align) in
        let target := Z.min boundary now_ms in
        if target <=? cursor_ms w then mret (inr (w, st))
        else
          w ← cascade_boundaries (with_cursor w target);
          mret (inl (w, add_step st))
    end.

(** [p] rounds of a loop body; [inr] leaves the loop. *)
Fixpoint spin {S R} (p : positive) (f : S -> panics (S + R)) (s : S) : panics (S + R) :=
  match p with
  | xH => f s
  | xO p => r ← spin p f s; match r with inl s => spin p f s | inr r => mret (inr r) end
  | xI p =>
      r ← f s;
      match r with
      | inl s => r ← spin p f s; match r with inl s => spin p f s | inr r => mret (inr r) end
      | inr r => mret (inr r)
      end
  end.
(** A loop that runs out of rounds is a [Panic]. *)
Definition loop {S R} (rounds : Z) (f : S -> panics (S + R)) (s : S) : panics R :=
  r ← spin (Z.to_pos rounds) f s;
  match r with inl _ => Panic | inr r => mret r end.

Definition fast_forward (w : TtlWheel) (now_ms : Z) (st : TickStats) : panics (TtlWheel * TickStats) :=
  loop (now_ms - cursor_ms w + 2) (fast_forward_step now_ms) (w, st).

Section Tick.
Context {F : Type} (fire : F -> Due -> FireNext * F).

Definition settle (w : TtlWheel) (at_ : Z) (answer : FireNext) (now_ms : Z) (st : TickStats)
  : panics (TtlWheel * TickStats) :=
  match answer with
  | Release => w ← release_member w at_; mret (w, st)
  | ReleaseOwe =>
      w ← release_member w at_;
      mret (w, mkStats (fired st) (steps st) (caught_up st) (refiled st) (wrap 32 (owed st + 1)))
  | Refile deadline =>
      let st := mkStats (fired st) (steps st) (caught_up st) (wrap 32 (refiled st + 1)) (owed st) in
      n ← pool_node w at_;
      w ← put_node w at_ (set_deadline n (Z.min deadline DEADLINE_MASK));
      w ← file w at_ (wrap 64 (now_ms + 1));
      mret (w, st)
  end.

(** [while keep != NIL]: the kept chain goes back in front of [rest]. *)
Fixpoint splice (fuel : nat) (w : TtlWheel) (keep rest : Z) : panics (TtlWheel * Z) :=
  if keep =? NIL then mret (w, rest)
  else match fuel with
  | O => Panic
  | S fuel =>
      n ← pool_node w keep;
      w ← put_next w keep rest;
      splice fuel w (next n) keep
  end.

Fixpoint drain_loop (fuel : nat) (now_ms max_fires slot : Z) (w : TtlWheel) (at_ keep : Z) (st : TickStats) (f : F)
  : panics (TtlWheel * TickStats * F * Drain) :=
  if at_ =? NIL then w ← set_list w 0 slot keep; mret (w, st, f, Done)
  else match fuel with
  | O => Panic
  | S fuel =>
      if max_fires <=? fired st then
        r ← splice (length (pool w)) w keep at_;
        w ← set_list (fst r) 0 slot (snd r);
        mret (w, st, f, Cut)
      else
        n ← pool_node w at_;
        if now_ms <=? deadline_ms n then
          w ← put_next w at_ keep;
          drain_loop fuel now_ms max_fires slot w (next n) at_ st f
        else
          r ← Member.lookup (members w) (hash n) (pool w);
          if bool_decide (r <> Some at_) then
            w ← free_tombstone w at_;
            drain_loop fuel now_ms max_fires slot w (next n) keep st f
          else
            let st := mkStats (wrap 32 (fired st + 1)) (steps st) (caught_up st) (refiled st) (owed st) in
            let '(answer, f) := fire f (mkDue (hash n) (deadline_ms n)) in
            r ← settle w at_ answer now_ms st;
            drain_loop fuel now_ms max_fires slot (fst r) (next n) keep (snd r) f
  end.

Definition drain_slot (w : TtlWheel) (now_ms max_fires : Z) (st : TickStats) (f : F)
  : panics (TtlWheel * TickStats * F * Drain) :=
  let slot := Z.land (cursor_ms w) (SLOTS - 1) in
  r ← take_list w 0 slot;
  drain_loop (length (pool w)) now_ms max_fires slot (fst r) (snd r) NIL st f.

Definition tick_step (now_ms : Z) (b : ExpiryBudget) (s : TtlWheel * TickStats * F)
  : panics (TtlWheel * TickStats * F + TtlWheel * TickStats * F) :=
  let '(w, st, f) := s in
  if negb (cursor_ms w <=? now_ms)
  then mret (inr (w, mkStats (fired st) (steps st) true (refiled st) (owed st), f))
  else if (max_fires b <=? fired st) || (max_steps b <=? steps st) then mret (inr (w, st, f))
  else
    r ← drain_slot w now_ms (max_fires b) st f;
    let '(w, st, f, d) := r in
    match d with
    | Cut => mret (inr (w, st, f))
    | Done =>
        let w := with_cursor w (wrap 64 (cursor_ms w + 1)) in
        let st := mkStats (fired st) (wrap 32 (steps st + 1)) (caught_up st) (refiled st) (owed st) in
        w ← cascade_boundaries w;
        r ← fast_forward w now_ms st;
        mret (inl (r, f))
    end.

Definition tick (w : TtlWheel) (now_ms : Z) (b : ExpiryBudget) (f : F) : panics (TtlWheel * TickStats * F) :=
  loop (now_ms - cursor_ms w + 2) (tick_step now_ms b) (w, stats_default, f).

End Tick.

(** ** Linked lists in the pool *)

Fixpoint chain (pool : list Node) (h : Z) (l : list Z) : Prop :=
  match l with
  | [] => h = NIL
  | x :: l => h = x /\ exists n, get pool x = Some n /\ chain pool (next n) l
  end.

(** The lists: a slot, the overflow list, the free list, and the list a walk
    has detached. *)
Inductive spot := Slot (t s : Z) | Over | Free | Hand.
#[global] Instance spot_eq_dec : EqDecision spot.
Proof. solve_decision. Defined.

Definition upd {A} (f : spot -> A) (p : spot) (a : A) (q : spot) : A := if decide (q = p) then a else f q.

Record linked (pool : list Node) (H : spot -> Z) (L : spot -> list Z) : Prop := {
  lk_chain p : chain pool (H p) (L p);
  lk_disj p q x : x ∈ L p -> x ∈ L q -> p = q;
  lk_nodup p : NoDup (L p);
  lk_cover x : 0 <= x < len pool -> exists p, x ∈ L p }.

(** Split a goal about an updated list family by the list it asks for. *)
Ltac spots := unfold upd in *;
  repeat match goal with
    | |- context [decide (?a = ?b)] => destruct (decide (a = b)) as [-> |]; try done
    | H : context [decide (?a = ?b)] |- _ => destruct (decide (a = b)) as [-> |]; try done
    end.

Lemma chain_frame pool pool' h l : (forall x, x ∈ l -> next <$> get pool' x = next <$> get pool x) ->
  chain pool h l -> chain pool' h l.
Proof.
  revert h. induction l as [|x l IH]; intros h Hs; [done|]. intros [-> (n & Hn & Hc)]. split; [done|].
  pose proof (Hs x ltac:(left)) as Hx. rewrite Hn in Hx. destruct (get pool' x) as [n'|]; [|done].
  injection Hx as Hx. exists n'. split; [done|]. rewrite Hx. apply IH; [|done]. intros y Hy. apply Hs. by right.
Qed.

Lemma chain_get pool h l x : chain pool h l -> x ∈ l -> exists n, get pool x = Some n.
Proof.
  revert h. induction l as [|y l IH]; intros h Hc Hx; [by apply elem_of_nil in Hx|].
  destruct Hc as [_ (n & Hn & Hc)]. apply elem_of_cons in Hx as [-> |Hx]; [by exists n|by eapply IH].
Qed.

Lemma chain_nil pool l : len pool <= NIL -> chain pool NIL l -> l = [].
Proof. intros Hl. destruct l as [|x l]; [done|]. intros [<- (n & Hn%get_lt & _)]. lia. Qed.

Lemma chain_cons pool h l : h <> NIL -> chain pool h l ->
  exists n l', l = h :: l' /\ get pool h = Some n /\ chain pool (next n) l'.
Proof. destruct l as [|x l]; [done|]. intros _ [-> (n & Hn & Hc)]. by exists n, l. Qed.

Lemma chain_app pool h l1 a l2 : chain pool h (l1 ++ a :: l2) -> exists n, get pool a = Some n /\ chain pool (next n) l2.
Proof.
  revert h. induction l1 as [|x l1 IH]; intros h; [by intros [_ H]|]. intros [_ (n & _ & Hc)]. by eapply IH.
Qed.

Lemma next_insert pool x n y : 0 <= x < len pool -> y <> x ->
  next <$> get (<[Z.to_nat x := n]> pool) y = next <$> get pool y.
Proof.
  intros Hx Hne. destruct (Z.le_gt_cases 0 y).
  - rewrite get_insert by done. by rewrite (proj2 (Z.eqb_neq _ _)).
  - unfold get. by rewrite (proj2 (Z.leb_gt _ _)).
Qed.

Section Linked.
Context (pool : list Node) (H : spot -> Z) (L : spot -> list Z) (Hl : linked pool H L).

Lemma linked_range p x : x ∈ L p -> 0 <= x < len pool.
Proof. intros Hx. destruct (chain_get pool (H p) (L p) x) as [n Hn%get_lt]; [apply Hl|done|done]. Qed.

(** Only the links and the heads matter. *)
Lemma linked_frame pool' H' L' : len pool' = len pool -> (forall x, next <$> get pool' x = next <$> get pool x) ->
  (forall p, H' p = H p) -> (forall p, L' p = L p) -> linked pool' H' L'.
Proof.
  intros Hlen Hn HH HL. split.
  - intros p. rewrite HH, HL. eapply chain_frame; [|apply Hl]. done.
  - intros p q x. rewrite !HL. apply Hl.
  - intros p. rewrite HL. apply Hl.
  - intros x. rewrite Hlen. setoid_rewrite HL. apply Hl.
Qed.

(** The head of list [q] moves to the front of list [p]. *)
Lemma linked_move p q x n rest H' n' : p <> q -> L q = x :: rest -> get pool x = Some n -> next n' = H p ->
  H' p = x -> H' q = next n -> (forall r, r <> p -> r <> q -> H' r = H r) ->
  linked (<[Z.to_nat x := n']> pool) H' (upd (upd L q rest) p (x :: L p)).
Proof.
  intros Hpq Hq Hn Hn' Hp' Hq' Ho. pose proof (get_lt _ _ _ Hn) as Hx.
  pose proof (lk_nodup _ _ _ Hl q) as Hdq. rewrite Hq in Hdq. apply list.NoDup_cons in Hdq as [Hxr Hdr].
  assert (Hxq : x ∈ L q) by (rewrite Hq; left).
  assert (Hxo : forall r, r <> q -> x ∉ L r) by (intros r Hr Hx'; apply Hr; by eapply (lk_disj _ _ _ Hl)).
  assert (Hfr : forall h l, x ∉ l -> chain pool h l -> chain (<[Z.to_nat x := n']> pool) h l).
  { intros h l Hxl. apply chain_frame. intros y Hy. apply next_insert; [done|]. intros ->. done. }
  split.
  - intros r. spots.
    + split; [done|]. exists n'. split; [rewrite get_insert by lia; by rewrite Z.eqb_refl|].
      rewrite Hn'. apply Hfr; [by apply Hxo|apply Hl].
    + rewrite Hq'. apply Hfr; [done|]. pose proof (lk_chain _ _ _ Hl q) as Hc. rewrite Hq in Hc.
      destruct Hc as [_ (n2 & Hn2 & Hc)]. congruence.
    + rewrite Ho by done. apply Hfr; [by apply Hxo|apply Hl].
  - intros r1 r2 y. assert (Hrest : forall y, y ∈ rest -> y ∈ L q) by (intros ? ?; rewrite Hq; by right).
    spots; rewrite ?elem_of_cons; try done; intros Hy1 Hy2.
    + destruct Hy1 as [-> |Hy1]; [done|]. by apply Hrest in Hy2; pose proof (lk_disj _ _ _ Hl _ _ _ Hy1 Hy2).
    + destruct Hy1 as [-> |Hy1]; [by apply Hxo in Hy2|by eapply (lk_disj _ _ _ Hl)].
    + destruct Hy2 as [-> |Hy2]; [done|]. apply Hrest in Hy1. by pose proof (lk_disj _ _ _ Hl _ _ _ Hy1 Hy2).
    + apply Hrest in Hy1. by eapply (lk_disj _ _ _ Hl).
    + destruct Hy2 as [-> |Hy2]; [by apply Hxo in Hy1|by eapply (lk_disj _ _ _ Hl)].
    + apply Hrest in Hy2. by eapply (lk_disj _ _ _ Hl).
    + by eapply (lk_disj _ _ _ Hl).
  - intros r. spots; [|apply Hl]. apply list.NoDup_cons. split; [by apply Hxo|apply Hl].
  - intros y. rewrite len_insert. intros [r Hr]%(lk_cover _ _ _ Hl). destruct (decide (y = x)) as [-> |Hyx].
    { exists p. unfold upd. rewrite decide_True by done. left. }
    exists r. spots; [by right|]. rewrite Hq in Hr. by apply elem_of_cons in Hr as [|].
Qed.

(** List [p] becomes list [q], which was empty. *)
Lemma linked_rename p q H' : p <> q -> L q = [] -> H' q = H p -> H' p = NIL ->
  (forall r, r <> p -> r <> q -> H' r = H r) -> linked pool H' (upd (upd L p []) q (L p)).
Proof.
  intros Hpq Hq Hq' Hp' Ho. split.
  - intros r. spots; [rewrite Hq'; apply Hl|]. rewrite Ho by done. apply Hl.
  - intros r1 r2 y. spots; try done; intros Hy1 Hy2; try (by apply elem_of_nil in Hy1); try (by apply elem_of_nil in Hy2);
      by pose proof (lk_disj _ _ _ Hl _ _ _ Hy1 Hy2).
  - intros r. spots; [apply Hl|constructor|apply Hl].
  - intros y [r Hr]%(lk_cover _ _ _ Hl). destruct (decide (r = p)) as [-> |Hrp].
    + exists q. unfold upd. by rewrite decide_True.
    + exists r. spots. rewrite Hq in Hr. by apply elem_of_nil in Hr.
Qed.

(** A new node at the end of the pool becomes the list in hand. *)
Lemma linked_push n H' : L Hand = [] -> next n = NIL -> H' Hand = len pool -> (forall r, r <> Hand -> H' r = H r) ->
  linked (pool ++ [n]) H' (upd L Hand [len pool]).
Proof.
  intros Hh Hn Hh' Ho.
  assert (Hold : forall x, 0 <= x < len pool -> get (pool ++ [n]) x = get pool x).
  { intros x Hx. unfold get. rewrite (proj2 (Z.leb_le _ _)) by lia. apply lookup_app_l. unfold len in Hx. lia. }
  assert (Hnew : forall p, len pool ∉ L p) by (intros p Hp%linked_range; lia).
  split.
  - intros r. spots.
    + split; [done|]. exists n. split; [|done]. apply get_Some. unfold len. split; [lia|].
      by rewrite Nat2Z.id, list_lookup_middle.
    + rewrite Ho by done. eapply chain_frame; [|apply Hl]. intros x Hx. by rewrite (Hold x (linked_range _ _ Hx)).
  - intros r1 r2 y. spots; intros Hy1 Hy2; rewrite ?list_elem_of_singleton in *; subst; try (by apply Hnew in Hy2);
      try (by apply Hnew in Hy1). by eapply (lk_disj _ _ _ Hl).
  - intros r. spots; [apply NoDup_singleton|apply Hl].
  - intros y Hy. rewrite len_app in Hy. change (len [n]) with 1 in Hy. destruct (decide (y = len pool)) as [-> |Hne].
    + exists Hand. unfold upd. rewrite decide_True by done. by left.
    + destruct (lk_cover _ _ _ Hl y) as [r Hr]; [lia|]. exists r. spots. by rewrite Hh in Hr; apply elem_of_nil in Hr.
Qed.

Lemma chain_skip h l1 a y l2 na ny n' (pool' := <[Z.to_nat y := n']> (<[Z.to_nat a := ny]> pool)) :
  chain pool h (l1 ++ a :: y :: l2) -> NoDup (l1 ++ a :: y :: l2) -> get pool a = Some na -> get pool y = Some ny ->
  chain pool' h (l1 ++ a :: l2).
Proof.
  intros Hc Hd Ha Hy. pose proof (get_lt _ _ _ Ha). pose proof (get_lt _ _ _ Hy).
  assert (Hfr : forall x, x <> a -> x <> y -> next <$> get pool' x = next <$> get pool x).
  { intros x Hxa Hxy. unfold pool'. rewrite next_insert by (rewrite ?len_insert; done). by apply next_insert. }
  revert h Hc Hd. induction l1 as [|x l1 IH]; intros h Hc Hd.
  - destruct Hc as [-> (n1 & Hn1 & [E1 (n2 & Hn2 & Hc)])]. cbn in Hd. apply list.NoDup_cons in Hd as [Hay Hd].
    apply list.NoDup_cons in Hd as [Hyl Hd]. split; [done|]. exists ny. split.
    + unfold pool'. rewrite !get_insert by (rewrite ?len_insert; lia). rewrite Z.eqb_refl.
      rewrite (proj2 (Z.eqb_neq _ _)); [done|]. intros ->. apply Hay. by left.
    + assert (n2 = ny) as -> by congruence. eapply chain_frame; [|done]. intros x Hx. apply Hfr; intros ->; [|done].
      apply Hay. by right.
  - destruct Hc as [-> (n & Hn & Hc)]. cbn in Hd. apply list.NoDup_cons in Hd as [Hx Hd].
    pose proof (Hfr x) as Hfx. rewrite Hn in Hfx. destruct (get pool' x) as [n2|] eqn:E.
    2:{ exfalso. apply get_lt in Hn. destruct (get_in pool' x) as [? ?]; [unfold pool'; by rewrite !len_insert|congruence]. }
    split; [done|]. exists n2. split; [done|]. assert (next n2 = next n) as ->.
    { specialize (Hfx ltac:(set_solver) ltac:(set_solver)). by injection Hfx. }
    by apply IH.
Qed.

(** The contents of [a]'s successor [y] move into [a]; [y] goes to the free list. *)
Lemma linked_unlink p l1 a y l2 na ny n' H' : p <> Free -> L p = l1 ++ a :: y :: l2 ->
  get pool a = Some na -> get pool y = Some ny -> next n' = H Free -> H' Free = y -> (forall r, r <> Free -> H' r = H r) ->
  linked (<[Z.to_nat y := n']> (<[Z.to_nat a := ny]> pool)) H' (upd (upd L p (l1 ++ a :: l2)) Free (y :: L Free)).
Proof.
  intros Hp Hlp Ha Hy Hn' Hf Ho. pose proof (get_lt _ _ _ Ha) as Hra. pose proof (get_lt _ _ _ Hy) as Hry.
  pose proof (lk_nodup _ _ _ Hl p) as Hd. rewrite Hlp in Hd.
  assert (Hin : forall x, x ∈ l1 ++ a :: l2 -> x ∈ L p /\ x <> y).
  { intros x Hx. split; [rewrite Hlp; set_solver|]. intros ->. revert Hd Hx. clear.
    rewrite list.NoDup_app. setoid_rewrite list.NoDup_cons. setoid_rewrite list.NoDup_cons. set_solver. }
  assert (Hother : forall r x, r <> p -> x ∈ L r -> x <> a /\ x <> y).
  { intros r x Hr Hx. split; intros ->; apply Hr; eapply (lk_disj _ _ _ Hl); [exact Hx| |exact Hx|]; rewrite Hlp; set_solver. }
  assert (Hfr : forall h l r, r <> p -> l = L r -> chain pool h l -> chain (<[Z.to_nat y := n']> (<[Z.to_nat a := ny]> pool)) h l).
  { intros h l r Hr ->. apply chain_frame. intros x Hx. destruct (Hother r x Hr Hx).
    rewrite next_insert by (rewrite ?len_insert; done). by apply next_insert. }
  split.
  - intros r. spots.
    + split; [done|]. exists n'. split; [rewrite get_insert by (rewrite ?len_insert; lia); by rewrite Z.eqb_refl|].
      rewrite Hn'. eapply Hfr; [|done|apply Hl]. done.
    + rewrite Ho by done. eapply chain_skip; [|done|done|done]. rewrite <- Hlp. apply Hl.
    + rewrite Ho by done. eapply Hfr; [|done|apply Hl]. done.
  - intros r1 r2 x. spots; rewrite ?elem_of_cons; intros Hx1 Hx2.
    + destruct (Hin x Hx2). destruct Hx1 as [|Hx1]; [done|]. by eapply (lk_disj _ _ _ Hl).
    + destruct Hx1 as [-> |Hx1]; [by destruct (Hother r2 y)|]. by eapply (lk_disj _ _ _ Hl).
    + destruct (Hin x Hx1). destruct Hx2 as [|Hx2]; [done|]. by eapply (lk_disj _ _ _ Hl).
    + destruct (Hin x Hx1). by eapply (lk_disj _ _ _ Hl).
    + destruct Hx2 as [-> |Hx2]; [by destruct (Hother r1 y)|]. by eapply (lk_disj _ _ _ Hl).
    + destruct (Hin x Hx2). by eapply (lk_disj _ _ _ Hl).
    + by eapply (lk_disj _ _ _ Hl).
  - intros r. spots; [| |apply Hl].
    + apply list.NoDup_cons. split; [|apply Hl]. intros Hx. by destruct (Hother Free y).
    + revert Hd. clear. rewrite !list.NoDup_app. setoid_rewrite list.NoDup_cons. setoid_rewrite list.NoDup_cons. set_solver.
  - intros x. rewrite !len_insert. intros [r Hr]%(lk_cover _ _ _ Hl). destruct (decide (x = y)) as [-> |Hxy].
    { exists Free. unfold upd. rewrite decide_True by done. by left. }
    exists r. spots; [by right|]. rewrite Hlp in Hr. set_solver.
Qed.

End Linked.

(** ** Which list a deadline belongs to *)

Notation tick_of t := (2 ^ (SLOT_BITS * t)).

(** In tier [t >= 1] a node waits in the slot of its instant, at most one turn
    ahead of the cursor's; [B] says whether the cursor's own slot may hold it. *)
Definition waits (B : Prop) (c t s d : Z) : Prop :=
  let q := c / tick_of t in let i := (d + 1) / tick_of t in
  q <= i <= q + 512 /\ (q = i -> B) /\ s = i mod 512.
Definition timed (c : Z) (p : spot) (d : Z) : Prop :=
  match p with
  | Slot t s =>
      if t =? 0 then Z.max (d + 1) c < c + 512 /\ s = Z.max (d + 1) c mod 512 else waits False c t s d
  | Over => c / tick_of 3 < (d + 1) / tick_of 3
  | Free | Hand => True
  end.

(** The same with the tiers from [k] on not cascaded yet at cursor [c]. *)
Definition pending (c k : Z) (p : spot) (d : Z) : Prop :=
  match p with
  | Slot t s => if t <? k then timed c p d else waits (c mod tick_of t = 0) c t s d
  | Over => c / tick_of 3 <= (d + 1) / tick_of 3 /\ (c / tick_of 3 = (d + 1) / tick_of 3 -> c mod tick_of 3 = 0)
  | Free | Hand => True
  end.

(** The list [file] chooses. *)
Definition spot_of (c d : Z) : spot :=
  let e := Z.max (d + 1) c in
  if HORIZON_MS <=? e - c then Over
  else let t := file_tier 3 (e - c) 0 in Slot t (Z.land (Z.shiftr e (SLOT_BITS * t)) (SLOTS - 1)).

Lemma div_after P c e : 0 < P -> c + P <= e -> c / P < e / P.
Proof.
  intros HP Hl. apply Z.lt_le_trans with ((c + 1 * P) / P); [rewrite Z.div_add by lia; lia|apply Z.div_le_mono; lia].
Qed.

Lemma div_within P c e m : 0 < P -> e < c + m * P -> e / P <= c / P + m.
Proof. intros HP Hu. rewrite <- Z.div_add by lia. apply Z.div_le_mono; lia. Qed.

Lemma tick_pos t : 0 <= t -> 0 < tick_of t.
Proof. intros. apply Z.pow_pos_nonneg; unfold SLOT_BITS; lia. Qed.

Lemma file_tier_cases delta : 0 <= delta < 2 ^ 36 ->
  (delta < 512 /\ file_tier 3 delta 0 = 0) \/
  exists t, 1 <= t <= 3 /\ file_tier 3 delta 0 = t /\ tick_of t <= delta < tick_of (t + 1).
Proof.
  intros Hd. cbn [file_tier]. unfold SLOT_BITS, TIERS.
  change (Z.shiftl 1 (9 * (0 + 1))) with 512. change (Z.shiftl 1 (9 * (0 + 1 + 1))) with (2 ^ 18).
  change (Z.shiftl 1 (9 * (0 + 1 + 1 + 1))) with (2 ^ 27). cbn [Z.ltb Z.compare Z.sub andb].
  destruct (Z.leb_spec 512 delta); [|left; by split]. right.
  destruct (Z.leb_spec (2 ^ 18) delta); [|exists 1; split; [lia|]; split; [done|split; [lia|done]]].
  destruct (Z.leb_spec (2 ^ 27) delta); [|exists 2; split; [lia|]; split; [done|split; [lia|done]]].
  exists 3; split; [lia|]; split; [done|split; [lia|]]. change (9 * (3 + 1)) with 36. lia.
Qed.

Lemma slot_of_mod e t : 0 <= t -> Z.land (Z.shiftr e (SLOT_BITS * t)) (SLOTS - 1) = (e / tick_of t) mod 512.
Proof.
  intros. change (SLOTS - 1) with (Z.ones 9). rewrite Z.land_ones, Z.shiftr_div_pow2 by (unfold SLOT_BITS; lia). done.
Qed.

Lemma spot_of_timed c d : timed c (spot_of c d) d.
Proof.
  unfold spot_of. change HORIZON_MS with (2 ^ 36). remember (Z.max (d + 1) c) as e eqn:He.
  destruct (Z.leb_spec (2 ^ 36) (e - c)) as [Ho|Ho].
  - cbn. change (tick_of 3) with (2 ^ 27). assert (e = d + 1) as <- by lia. apply div_after; lia.
  - destruct (file_tier_cases (e - c)) as [[Hd ->]|(t & Ht & -> & Hd)]; [lia| |]; cbn [timed]; rewrite slot_of_mod by lia.
    + cbn [Z.eqb]. change (tick_of 0) with 1. rewrite Z.div_1_r, <- He. split; [lia|done].
    + rewrite (proj2 (Z.eqb_neq _ _)) by lia. pose proof (tick_pos t ltac:(lia)) as HP.
      assert (tick_of (t + 1) = 512 * tick_of t) as E.
      { unfold SLOT_BITS. rewrite Z.mul_add_distr_l, Z.pow_add_r by lia. lia. }
      assert (e = d + 1) as E' by lia. rewrite E' in *.
      pose proof (div_after (tick_of t) c (d + 1) HP ltac:(lia)). pose proof (div_within (tick_of t) c (d + 1) 512 HP ltac:(lia)).
      unfold waits. split_and!; try done; lia.
Qed.

Lemma spot_of_filed c d : spot_of c d <> Hand /\ spot_of c d <> Free.
Proof. unfold spot_of. by destruct (HORIZON_MS <=? _). Qed.

Lemma spot_of_slot c d t s : spot_of c d = Slot t s -> 0 <= t < 4 /\ 0 <= s < 512.
Proof.
  unfold spot_of. change HORIZON_MS with (2 ^ 36). remember (Z.max (d + 1) c) as e eqn:He.
  destruct (Z.leb_spec (2 ^ 36) (e - c)); [done|].
  destruct (file_tier_cases (e - c)) as [[_ E]|(t' & Ht & E & _)]; [lia| |]; rewrite E, slot_of_mod by lia;
    intros [= <- <-]; (split; [lia|apply Z.mod_pos_bound; lia]).
Qed.

Lemma timed_pending c k p d : 1 <= k -> timed c p d -> pending c k p d.
Proof.
  intros Hk. destruct p as [t s| | |]; cbn -[waits SLOT_BITS]; try done; [|intros H; split; lia].
  destruct (Z.ltb_spec t k); [done|]. rewrite (proj2 (Z.eqb_neq _ _)) by lia. intros (H1 & H2 & H3).
  split_and!; [lia|lia|naive_solver|done].
Qed.

(** Moving the cursor no further than the next boundary of a tier. *)
Lemma cross_boundary P c c' i : 0 < P -> 0 <= c < c' -> c' <= (c / P + 1) * P -> c / P < i ->
  c' / P <= i /\ (c' / P = i -> c' mod P = 0) /\ c / P <= c' / P.
Proof.
  intros HP Hc Hb Hi. pose proof (Z.div_mod c' P ltac:(lia)) as E. pose proof (Z.mod_pos_bound c' P HP).
  assert (c / P <= c' / P) by (apply Z.div_le_mono; lia).
  assert (c' / P < c / P + 1 \/ (c' / P = c / P + 1 /\ c' mod P = 0)) as [?|[E' ?]]; [|lia|lia].
  destruct (Z.lt_ge_cases (c' / P) (c / P + 1)); [by left|right]. nia.
Qed.

Lemma waits_advance c c' t s d : 0 <= t -> 0 <= c < c' -> c' <= (c / tick_of t + 1) * tick_of t ->
  waits False c t s d -> waits (c' mod tick_of t = 0) c' t s d.
Proof.
  intros Ht Hc Hb (H1 & H2 & H3). pose proof (tick_pos t Ht) as HP.
  destruct (cross_boundary (tick_of t) c c' ((d + 1) / tick_of t)) as (A & B & D); try done; [|split_and!; [lia|lia|done|done]].
  destruct (Z.eq_dec (c / tick_of t) ((d + 1) / tick_of t)); [by destruct H2|lia].
Qed.

Lemma over_advance c c' d : 0 <= c < c' -> c' <= (c / tick_of 3 + 1) * tick_of 3 ->
  timed c Over d -> pending c' 1 Over d.
Proof.
  intros Hc Hb H. cbn [timed] in H. destruct (cross_boundary (tick_of 3) c c' ((d + 1) / tick_of 3)) as (A & B & _); [done..|].
  split; done.
Qed.

Lemma boundary_below c t k : 0 <= t <= k -> c mod tick_of k = 0 -> c mod tick_of t = 0.
Proof.
  intros Ht H. pose proof (tick_pos t ltac:(lia)). pose proof (tick_pos k ltac:(lia)).
  apply Z.mod_divide in H as [z ->]; [|lia]. apply Z.mod_divide; [lia|].
  exists (z * 2 ^ (SLOT_BITS * (k - t))). rewrite <- Z.mul_assoc, <- Z.pow_add_r by (unfold SLOT_BITS; lia).
  do 2 f_equal. lia.
Qed.

(** No tier from [k] on has a boundary at the cursor. *)
Lemma pending_idle c k p d : 1 <= k <= 3 -> c mod tick_of k <> 0 -> (forall t s, p = Slot t s -> t <= 3) ->
  pending c k p d -> timed c p d.
Proof.
  intros Hk Hc Hp. destruct p as [t s| | |]; cbn [pending]; try done.
  - specialize (Hp t s eq_refl). destruct (Z.ltb_spec t k); [done|]. intros (H1 & H2 & H3). cbn [timed].
    rewrite (proj2 (Z.eqb_neq _ _)) by lia. split_and!; try done; try lia.
    intros E. apply Hc. by apply (boundary_below c k t ltac:(lia)), H2.
  - intros [H1 H2]. cbn [timed]. destruct (Z.eq_dec (c / tick_of 3) ((d + 1) / tick_of 3)) as [E|]; [|lia].
    exfalso. apply Hc. by apply (boundary_below c k 3 ltac:(lia)), H2.
Qed.

(** After tier [k]'s slot at the cursor was taken. *)
Lemma pending_taken c k p d : 1 <= k -> p <> Slot k ((c / tick_of k) mod 512) -> pending c k p d -> pending c (k + 1) p d.
Proof.
  intros Hk Hp. destruct p as [t s| | |]; cbn [pending]; try done.
  destruct (Z.ltb_spec t k), (Z.ltb_spec t (k + 1)); try done; try lia.
  assert (t = k) as -> by lia. intros (H1 & H2 & H3). cbn [timed]. rewrite (proj2 (Z.eqb_neq _ _)) by lia.
  split_and!; [lia|lia| |done]. intros E. apply Hp. by rewrite H3, <- E.
Qed.

Lemma tier0_advance c s d : 0 <= c -> s <> c mod 512 -> timed c (Slot 0 s) d -> timed (c + 1) (Slot 0 s) d.
Proof.
  intros Hc Hs. cbn [timed Z.eqb]. intros [H1 H2]. destruct (Z.le_gt_cases (d + 1) c).
  - rewrite Z.max_r in H2 by lia. done.
  - rewrite !Z.max_l in * by lia. split; [lia|done].
Qed.

(** ** The slot heads and their occupancy bitmap *)

Definition bitmap (hr or : list Z) : Prop :=
  (forall j word, get or j = Some word -> in_u 64 word) /\
  forall s h word, get hr s = Some h -> get or (s / 64) = Some word -> Z.testbit word (s mod 64) = negb (h =? NIL).
Definition tier_ok (hr or : list Z) : Prop := len hr = 512 /\ len or = 8 /\ bitmap hr or.
Definition rows_ok (w : TtlWheel) : Prop :=
  len (heads w) = 4 /\ len (occupied w) = 4 /\
  forall t hr or, get (heads w) t = Some hr -> get (occupied w) t = Some or -> tier_ok hr or.

Lemma in_u_bits word : in_u 64 word <-> 0 <= word /\ forall j, 64 <= j -> Z.testbit word j = false.
Proof.
  unfold in_u. split.
  - intros Hw. split; [lia|]. intros j Hj. destruct (Z.eq_dec word 0) as [-> |]; [apply Z.bits_0|].
    apply Z.bits_above_log2; [lia|]. apply Z.lt_le_trans with 64; [|done]. apply Z.log2_lt_pow2; lia.
  - intros [H0 Hb]. split; [done|]. destruct (Z.eq_dec word 0) as [-> |]; [lia|].
    apply Z.log2_lt_pow2; [lia|]. destruct (Z.lt_ge_cases (Z.log2 word) 64) as [|Hge]; [done|].
    pose proof (Z.bit_log2 word ltac:(lia)) as E. by rewrite Hb in E.
Qed.

Lemma testbit_one k j : 0 <= k -> 0 <= j -> Z.testbit (Z.shiftl 1 k) j = (k =? j).
Proof. intros. rewrite Z.shiftl_1_l. by apply Z.pow2_bits_eqb. Qed.

Lemma bitmap_set hr or s word h : tier_ok hr or -> 0 <= s < 512 -> get or (s / 64) = Some word ->
  tier_ok (<[Z.to_nat s := h]> hr)
    (<[Z.to_nat (s / 64) := if h =? NIL then Z.ldiff word (Z.shiftl 1 (s mod 64)) else Z.lor word (Z.shiftl 1 (s mod 64))]> or).
Proof.
  intros (Hl1 & Hl2 & Hu & Hb) Hs Hw. pose proof (Z.mod_pos_bound s 64 ltac:(lia)) as Hm.
  pose proof (get_lt _ _ _ Hw) as Hj. set (word' := if h =? NIL then _ else _).
  assert (Hbit : forall j, 0 <= j -> Z.testbit word' j = if s mod 64 =? j then negb (h =? NIL) else Z.testbit word j).
  { intros j Hj'. unfold word'. destruct (h =? NIL); rewrite ?Z.ldiff_spec, ?Z.lor_spec, testbit_one by lia;
      destruct (s mod 64 =? j); by rewrite ?andb_true_r, ?andb_false_r, ?orb_true_r, ?orb_false_r. }
  assert (Hw' : in_u 64 word').
  { apply in_u_bits. destruct (proj1 (in_u_bits word) (Hu _ _ Hw)) as [H0 H1]. split.
    - unfold word'. destruct (h =? NIL); [apply Z.ldiff_nonneg; by left|apply Z.lor_nonneg; split; [done|]].
      apply Z.shiftl_nonneg. lia.
    - intros j Hj'. rewrite Hbit by lia. rewrite (proj2 (Z.eqb_neq _ _)) by lia. by apply H1. }
  unfold tier_ok, bitmap. rewrite !len_insert. split_and!; [done|done| |].
  - intros j x Hx. assert (0 <= j) by (apply get_lt in Hx; lia). rewrite get_insert in Hx by lia.
    destruct (j =? s / 64); [injection Hx as <-; done|by eapply Hu].
  - intros s' h' x Hh Hx. assert (0 <= s') by (apply get_lt in Hh; lia).
    pose proof (Z.div_pos s' 64 ltac:(lia) ltac:(lia)). rewrite get_insert in Hh by lia. rewrite get_insert in Hx by lia.
    pose proof (Z.mod_pos_bound s' 64 ltac:(lia)).
    destruct (Z.eqb_spec (s' / 64) (s / 64)) as [Ed|Hd]; [injection Hx as <-; rewrite Hbit by lia|].
    + destruct (Z.eqb_spec (s mod 64) (s' mod 64)) as [Em|Hne].
      * assert (s' = s) as -> by (rewrite (Z.div_mod s 64), (Z.div_mod s' 64) by lia; lia). rewrite Z.eqb_refl in Hh. by injection Hh as <-.
      * destruct (Z.eqb_spec s' s) as [-> |]; [done|]. eapply Hb; [done|]. by rewrite Ed.
    + destruct (Z.eqb_spec s' s) as [-> |]; [done|]. by eapply Hb.
Qed.

Definition headf (w : TtlWheel) (hand : Z) (p : spot) : Z :=
  match p with
  | Slot t s => default NIL (get2 (heads w) t s)
  | Over => overflow w
  | Free => free w
  | Hand => hand
  end.

Lemma set2_ok a t s x r y : get a t = Some r -> get r s = Some y ->
  set2 a t s x = Ok (<[Z.to_nat t := <[Z.to_nat s := x]> r]> a).
Proof.
  intros Hr Hy. pose proof (get_lt _ _ _ Hr). pose proof (get_lt _ _ _ Hy).
  unfold set2. rewrite Hr. ok_step. rewrite set_at_Ok by lia. ok_step. by rewrite set_at_Ok by lia.
Qed.

Lemma get_neg {A} (l : list A) i : i < 0 -> get l i = None.
Proof. intros. unfold get. by rewrite (proj2 (Z.leb_gt _ _)). Qed.

Lemma get2_set2 a t s x r y t' s' : get a t = Some r -> get r s = Some y ->
  get2 (<[Z.to_nat t := <[Z.to_nat s := x]> r]> a) t' s' = if decide (Slot t' s' = Slot t s) then Some x else get2 a t' s'.
Proof.
  intros Hr Hy. pose proof (get_lt _ _ _ Hr). pose proof (get_lt _ _ _ Hy). unfold get2.
  destruct (Z.lt_ge_cases t' 0) as [Ht|Ht].
  { rewrite !(get_neg _ t') by done. case_decide as E; [|done]. injection E as -> ->. lia. }
  rewrite get_insert by done. destruct (Z.eqb_spec t' t) as [-> |Hne].
  2:{ rewrite decide_False; [done|]. by intros [= -> ->]. }
  rewrite Hr. cbn [mbind option_bind]. destruct (Z.lt_ge_cases s' 0) as [Hs|Hs].
  { rewrite !(get_neg _ s') by done. case_decide as E; [|done]. injection E as ->. lia. }
  rewrite get_insert by done. destruct (Z.eqb_spec s' s) as [-> |Hns].
  - by rewrite decide_True.
  - rewrite decide_False; [done|]. by intros [= ->].
Qed.

(** Rows of the arrays at a slot. *)
Lemma rows_at w t s : rows_ok w -> 0 <= t < 4 -> 0 <= s < 512 ->
  exists hr or h word, get (heads w) t = Some hr /\ get (occupied w) t = Some or /\ tier_ok hr or /\
    get hr s = Some h /\ get or (s / 64) = Some word.
Proof.
  intros (H1 & H2 & H3) Ht Hs. destruct (get_in (heads w) t) as [hr Hh]; [lia|]. destruct (get_in (occupied w) t) as [or Ho]; [lia|].
  pose proof (H3 _ _ _ Hh Ho) as Hk. pose proof Hk as (Hl1 & Hl2 & _).
  destruct (get_in hr s) as [h Hg]; [lia|]. destruct (get_in or (s / 64)) as [word Hw].
  { rewrite Hl2. split; [apply Z.div_pos; lia|apply Z.div_lt_upper_bound; lia]. }
  by exists hr, or, h, word.
Qed.

Definition put_list (w : TtlWheel) (t s h : Z) (w' : TtlWheel) : Prop :=
  rows_ok w' /\ w' = with_lists w (heads w') (occupied w') /\
  forall hand p, headf w' hand p = upd (headf w hand) (Slot t s) h p.

Lemma put_list_ok w t s hr or h0 word h : rows_ok w -> 0 <= s < 512 ->
  get (heads w) t = Some hr -> get (occupied w) t = Some or -> tier_ok hr or -> get hr s = Some h0 -> get or (s / 64) = Some word ->
  put_list w t s h (with_lists w (<[Z.to_nat t := <[Z.to_nat s := h]> hr]> (heads w))
    (<[Z.to_nat t := <[Z.to_nat (s / 64) := if h =? NIL then Z.ldiff word (Z.shiftl 1 (s mod 64))
        else Z.lor word (Z.shiftl 1 (s mod 64))]> or]> (occupied w))).
Proof.
  intros (H1 & H2 & H3) Hs Hh Ho Hk Hg Hw. pose proof (get_lt _ _ _ Hh). pose proof (get_lt _ _ _ Ho).
  split_and!; [|done|].
  - unfold rows_ok. cbn [heads occupied with_lists]. rewrite !len_insert. split_and!; [done|done|].
    intros t' hr' or' Hh' Ho'. assert (0 <= t') by (apply get_lt in Hh'; lia).
    rewrite get_insert in Hh' by lia. rewrite get_insert in Ho' by lia. destruct (t' =? t); [|by eapply H3].
    injection Hh' as <-. injection Ho' as <-. by apply bitmap_set.
  - intros hand p. destruct p as [t' s'| | |]; cbn [headf heads with_lists]; unfold upd; [|by rewrite decide_False..].
    rewrite (get2_set2 _ _ _ _ _ h0) by done. by case_decide.
Qed.

Lemma set_list_ok w t s h : rows_ok w -> 0 <= t < 4 -> 0 <= s < 512 ->
  exists w', set_list w t s h = Ok w' /\ put_list w t s h w'.
Proof.
  intros Hw Ht Hs. destruct (rows_at w t s Hw Ht Hs) as (hr & or & h0 & word & Hh & Ho & Hk & Hg & Hwd).
  unfold set_list. rewrite (set2_ok (heads w) _ _ _ hr h0) by done. ok_step.
  assert (get2 (occupied w) t (s / 64) = Some word) as -> by (unfold get2; rewrite Ho; done). ok_step.
  rewrite (set2_ok (occupied w) _ _ _ or word) by done. ok_step. eexists. split; [done|]. by eapply put_list_ok.
Qed.

Lemma take_list_ok w t s : rows_ok w -> 0 <= t < 4 -> 0 <= s < 512 ->
  exists w', take_list w t s = Ok (w', headf w NIL (Slot t s)) /\ put_list w t s NIL w'.
Proof.
  intros Hw Ht Hs. destruct (rows_at w t s Hw Ht Hs) as (hr & or & h0 & word & Hh & Ho & Hk & Hg & Hwd).
  unfold take_list. assert (get2 (occupied w) t (s / 64) = Some word) as -> by (unfold get2; rewrite Ho; done). ok_step.
  rewrite (set2_ok (occupied w) _ _ _ or word) by done. ok_step.
  assert (E : get2 (heads w) t s = Some h0) by (unfold get2; rewrite Hh; done). rewrite E. ok_step.
  rewrite (set2_ok (heads w) _ _ _ hr h0) by done. ok_step. cbn [headf]. rewrite E. eexists. split; [done|].
  by apply (put_list_ok w t s hr or h0 word NIL).
Qed.

Lemma tier_empty w t : rows_ok w -> 0 <= t < 4 -> exists b, tier_occupied w t = Ok b /\
  (b = false -> forall s hand, headf w hand (Slot t s) = NIL).
Proof.
  intros (H1 & H2 & H3) Ht. destruct (get_in (heads w) t) as [hr Hh]; [lia|]. destruct (get_in (occupied w) t) as [or Ho]; [lia|].
  destruct (H3 _ _ _ Hh Ho) as (Hl1 & Hl2 & Hu & Hb). unfold tier_occupied. rewrite Ho. ok_step. eexists. split; [done|].
  intros He s hand. cbn [headf]. unfold get2. rewrite Hh. cbn [mbind option_bind].
  destruct (get hr s) as [h|] eqn:Hg; [|done]. cbn [default]. pose proof (get_lt _ _ _ Hg).
  destruct (get_in or (s / 64)) as [word Hw].
  { rewrite Hl2. split; [apply Z.div_pos; lia|apply Z.div_lt_upper_bound; lia]. }
  pose proof (Hb _ _ _ Hg Hw) as E. assert (word = 0) as ->.
  { destruct (Z.eq_dec word 0) as [|Hne]; [done|]. exfalso. apply not_true_iff_false in He. apply He, existsb_exists.
    exists word. split; [|by rewrite (proj2 (Z.eqb_neq _ _))]. apply list_elem_of_In. by eapply list_elem_of_lookup_2, get_lookup. }
  rewrite Z.bits_0 in E. by destruct (Z.eqb_spec h NIL) as [-> |].
Qed.

(** ** Loops *)

Fixpoint rounds {S R} (n : nat) (f : S -> panics (S + R)) (s : S) : panics (S + R) :=
  match n with
  | O => mret (inl s)
  | Datatypes.S n => r ← f s; match r with inl s => rounds n f s | inr r => mret (inr r) end
  end.

Lemma rounds_add {S R} (f : S -> panics (S + R)) n m : forall s,
  rounds (n + m) f s = (r ← rounds n f s; match r with inl s => rounds m f s | inr r => mret (inr r) end).
Proof.
  induction n as [|n IH]; intros s; [done|]. cbn [rounds Nat.add]. destruct (f s) as [[s'|r]|e|]; cbn; done || by apply IH.
Qed.

Lemma spin_rounds {S R} (f : S -> panics (S + R)) p : forall s, spin p f s = rounds (Pos.to_nat p) f s.
Proof.
  induction p as [p IH|p IH|]; intros s; cbn [spin].
  - rewrite Pos2Nat.inj_xI. cbn [rounds]. destruct (f s) as [[s1|r]|e|]; cbn [mbind outcome_bind]; try done.
    rewrite IH. replace (2 * Pos.to_nat p)%nat with (Pos.to_nat p + Pos.to_nat p)%nat by lia. rewrite rounds_add.
    destruct (rounds (Pos.to_nat p) f s1) as [[s2|r]|e|]; cbn [mbind outcome_bind]; done.
  - rewrite Pos2Nat.inj_xO. replace (2 * Pos.to_nat p)%nat with (Pos.to_nat p + Pos.to_nat p)%nat by lia. rewrite rounds_add, IH.
    destruct (rounds (Pos.to_nat p) f s) as [[s2|r]|e|]; cbn [mbind outcome_bind]; done.
  - change (Pos.to_nat 1) with 1%nat. cbn [rounds]. by destruct (f s) as [[s1|r]|e|].
Qed.

(** A loop whose body keeps [J] and decreases [mu] leaves within [mu + 1] rounds. *)
Lemma loop_rule {S R} (J : S -> Prop) (Q : R -> Prop) (mu : S -> Z) (f : S -> panics (S + R)) :
  (forall s, J s -> 0 <= mu s /\ exists r, f s = Ok r /\ match r with inl s' => J s' /\ mu s' < mu s | inr r => Q r end) ->
  forall n s, J s -> mu s < Z.max 1 n -> exists r, loop n f s = Ok r /\ Q r.
Proof.
  intros Hf n s HJ Hn.
  assert (Hr : forall k s, J s -> mu s < Z.of_nat k -> exists r, rounds k f s = Ok (inr r) /\ Q r).
  { induction k as [|k IH]; intros s1 HJ1 Hk; destruct (Hf s1 HJ1) as [H0 (r & Hr & Hm)]; [lia|].
    cbn [rounds]. rewrite Hr. ok_step. destruct r as [s2|r]; [|by exists r]. destruct Hm as [HJ2 Hm]. apply IH; [done|lia]. }
  destruct (Hf s HJ) as [H0 _]. destruct (Hr (Pos.to_nat (Z.to_pos n)) s HJ) as (r & Er & HQ); [lia|].
  exists r. unfold loop. rewrite spin_rounds, Er. done.
Qed.

End Wheel.
