(* ===== verification/WheelSpec.v ===== *)
(** * The timing wheel implements a schedule

    The invariant [Inv] names, for every list head of the wheel, the nodes the
    list links; every node of the pool is in exactly one list, and a filed
    node's slot is the one its deadline asks for at the current cursor. The
    theorems show that the wheel implements a finite map from key hashes to
    deadlines, that a tick fires only overdue entries of that map, that a tick
    that reports it caught up left none, and that slices of any positive budget
    catch up. The proofs use the membership table through its interface
    [Member.MembersSpec]. *)

From stdpp Require Import gmap.
From S2P Require Import Prelude Member Wheel.
#[local] Open Scope Z_scope.

Module WheelSpec.
Import Member(NIL, DEADLINE_MASK, Node, node_new, hash, deadline_ms, next, set_next, set_deadline,
  Membership, members_new, node_ok, hash_of, fits, MembersSpec).
Import Wheel.

(** ** The invariant *)

Definition info (pool : list Node) (x : Z) : option (Z * Z) := (fun n => (hash n, deadline_ms n)) <$> get pool x.

Section Wheels.
Context {R : list Node -> Membership -> gmap Z Z -> Prop} `{!MembersSpec R}.

(** [L] gives the nodes of every list, [hand] the head of the detached one;
    [M] is the map the membership table represents and [S] the schedule, from
    hashes to deadlines. [T] is what holds of a deadline filed in a list, and
    [e] counts the nodes in use that are neither live nor counted tombstones. *)
Record Inv (T : spot -> Z -> Prop) (e hand : Z) (L : spot -> list Z) (M S : gmap Z Z) (w : TtlWheel) : Prop := {
  iv_len : len (pool w) <= nodes_max w <= NIL;
  iv_node : Forall node_ok (pool w);
  iv_rows : rows_ok w;
  iv_link : linked (pool w) (headf w hand) L;
  iv_time p x h d : x ∈ L p -> p <> Free -> p <> Hand -> info (pool w) x = Some (h, d) -> T p d;
  iv_mem : R (pool w) (members w) M;
  iv_live h x : M !! h = Some x -> x ∉ L Free;
  iv_sched h : S !! h = M !! h ≫= fun x => snd <$> info (pool w) x;
  iv_use : nodes_in_use w = len (pool w) - len (L Free);
  iv_tomb : tombstones w + e = nodes_in_use w - Z.of_nat (size M);
  iv_cur : 0 <= cursor_ms w <= 2 ^ 63 }.

Lemma info_hash pool x : hash_of pool x = fst <$> info pool x.
Proof. unfold hash_of, info. by destruct (get pool x). Qed.

Lemma get_info pool x n : get pool x = Some n -> info pool x = Some (hash n, deadline_ms n).
Proof. intros H. unfold info. by rewrite H. Qed.

Section Facts.
Context T e hand L M S w (I : Inv T e hand L M S w).

Lemma inv_get x p : x ∈ L p -> exists n, get (pool w) x = Some n /\ node_ok n /\ 0 <= x < NIL /\ 0 <= deadline_ms n < 2 ^ 40.
Proof.
  intros Hx. pose proof (linked_range _ _ _ (iv_link _ _ _ _ _ _ _ I) _ _ Hx) as Hr.
  destruct (get_in (pool w) x) as [n Hn]; [done|]. exists n. pose proof (iv_len _ _ _ _ _ _ _ I).
  assert (Hok : node_ok n).
  { pose proof (iv_node _ _ _ _ _ _ _ I) as Hf. rewrite Forall_lookup in Hf. by eapply Hf, get_lookup. }
  split_and!; try done; try lia; apply (Member.node_fields n Hok).
Qed.

Lemma inv_slot x t s : x ∈ L (Slot t s) -> 0 <= t < 4 /\ 0 <= s < 512.
Proof.
  intros Hx. pose proof (lk_chain _ _ _ (iv_link _ _ _ _ _ _ _ I) (Slot t s)) as Hc. cbn [headf] in Hc.
  destruct (get2 (heads w) t s) as [h|] eqn:E.
  - unfold get2 in E. destruct (get (heads w) t) as [hr|] eqn:Et; [|done]. cbn in E.
    destruct (iv_rows _ _ _ _ _ _ _ I) as (H1 & H2 & H3). pose proof (get_lt _ _ _ Et). pose proof (get_lt _ _ _ E).
    destruct (get_in (occupied w) t) as [or Ho]; [lia|]. destruct (H3 _ _ _ Et Ho) as (Hl & _). lia.
  - cbn [default] in Hc. apply chain_nil in Hc; [|pose proof (iv_len _ _ _ _ _ _ _ I); lia]. rewrite Hc in Hx. by apply elem_of_nil in Hx.
Qed.

Lemma inv_member h x : M !! h = Some x -> exists n, get (pool w) x = Some n /\ hash n = h /\ 0 <= h < 2 ^ 64 /\
  S !! h = Some (deadline_ms n) /\ 0 <= x < NIL.
Proof.
  intros Hm. destruct (Member.ms_fits (R := R) _ _ _ _ _ (iv_mem _ _ _ _ _ _ _ I) Hm) as (Hx & Hh & Hr). unfold hash_of in Hh.
  destruct (get (pool w) x) as [n|] eqn:E; [|done]. injection Hh as Hh. exists n. split_and!; try done; try lia.
  rewrite (iv_sched _ _ _ _ _ _ _ I), Hm. cbn. by rewrite (get_info _ _ _ E).
Qed.

(** Pigeonhole: a node outside the free list leaves room. *)
Lemma inv_use_pos x : 0 <= x < len (pool w) -> x ∉ L Free -> len (L Free) < len (pool w).
Proof.
  intros Hx Hf. pose proof (iv_link _ _ _ _ _ _ _ I) as Hl.
  assert (len (x :: L Free) <= Z.max 0 (len (pool w))); [|rewrite len_cons in *; lia].
  apply Member.bounded_NoDup; [apply list.NoDup_cons; split; [done|apply Hl]|].
  apply Forall_cons_iff. split; [done|]. apply Forall_forall. intros y Hy%list_elem_of_In. by eapply linked_range.
Qed.

(** The nodes the membership table names. *)
Definition named : list Z := snd <$> map_to_list M.

Lemma inv_named : NoDup named /\ forall y, y ∈ named -> (exists h, M !! h = Some y) /\ 0 <= y < len (pool w).
Proof.
  split.
  - apply NoDup_fmap_2_strong; [|apply NoDup_map_to_list].
    intros [h y] [h' y'] Hy%elem_of_map_to_list Hy'%elem_of_map_to_list. cbn. intros ->.
    destruct (inv_member _ _ Hy) as (n & G1 & <- & _), (inv_member _ _ Hy') as (n' & G2 & <- & _). congruence.
  - intros y ([h y'] & -> & Hh%elem_of_map_to_list)%list_elem_of_fmap. split; [by exists h|].
    destruct (inv_member _ _ Hh) as (n & G & _). by eapply get_lt.
Qed.

Lemma len_named : len named = Z.of_nat (size M).
Proof. unfold named. rewrite len_fmap. unfold len. by rewrite length_map_to_list. Qed.

Lemma inv_size : Z.of_nat (size M) <= len (pool w).
Proof.
  destruct inv_named as [Hd Hn]. rewrite <- len_named. pose proof (len_nonneg (pool w)).
  rewrite <- (Z.max_r 0 (len (pool w))) by lia. apply Member.bounded_NoDup; [done|].
  apply Forall_forall. intros y Hy%list_elem_of_In. by apply Hn.
Qed.

Lemma inv_spare x : 0 <= x < len (pool w) -> x ∉ L Free -> (forall h, M !! h <> Some x) ->
  Z.of_nat (size M) + 1 + len (L Free) <= len (pool w).
Proof.
  intros Hx Hf Hm. pose proof (iv_link _ _ _ _ _ _ _ I) as Hl. destruct inv_named as [Hd Hn].
  assert (len (x :: L Free ++ named) <= Z.max 0 (len (pool w))) as Hle.
  { apply Member.bounded_NoDup.
    - apply list.NoDup_cons. split.
      + rewrite elem_of_app. intros [|[[h Hh] _]%Hn]; [done|by apply (Hm h)].
      + apply list.NoDup_app. split_and!; [apply Hl| |done].
        intros y Hy [[h Hh] _]%Hn. by apply (iv_live _ _ _ _ _ _ _ I) in Hh.
    - apply Forall_cons_iff. split; [done|]. apply Forall_forall. intros y Hy%list_elem_of_In.
      apply elem_of_app in Hy as [Hy|[_ Hy]%Hn]; [by eapply linked_range|done]. }
  rewrite len_cons, len_app, len_named in Hle. pose proof (len_nonneg (pool w)). lia.
Qed.

(** The state changed only in its links, its lists and its cursor. *)
Lemma inv_relink T' hand' L' w' : nodes_max w' = nodes_max w -> members w' = members w ->
  nodes_in_use w' = nodes_in_use w -> tombstones w' = tombstones w -> 0 <= cursor_ms w' <= 2 ^ 63 ->
  len (pool w') = len (pool w) -> Forall node_ok (pool w') -> (forall y, info (pool w') y = info (pool w) y) ->
  rows_ok w' -> linked (pool w') (headf w' hand') L' -> L' Free = L Free ->
  (forall p x h d, x ∈ L' p -> p <> Free -> p <> Hand -> info (pool w) x = Some (h, d) -> T' p d) ->
  Inv T' e hand' L' M S w'.
Proof.
  intros E1 E2 E3 E4 Hc E5 Hn Hi Hr Hl Ef Ht. destruct I. split; try done.
  - rewrite E1, E5. done.
  - intros p x h d Hx Hp1 Hp2. rewrite Hi. by apply Ht.
  - rewrite E2. eapply Member.ms_frame; [done|]. intros h x _. by rewrite !info_hash, Hi.
  - intros h x. rewrite Ef. apply iv_live0.
  - intros h. rewrite iv_sched0. destruct (M !! h); [|done]. cbn. by rewrite Hi.
  - rewrite E3, E5, Ef. done.
  - rewrite E3, E4. done.
Qed.

End Facts.
Lemma inv_head T e hand L M S w p : Inv T e hand L M S w -> 0 <= headf w hand p < 2 ^ 24.
Proof.
  intros I. pose proof (lk_chain _ _ _ (iv_link _ _ _ _ _ _ _ I) p) as Hc. pose proof (iv_len _ _ _ _ _ _ _ I) as Hl.
  change NIL with (2 ^ 24 - 1) in Hl. destruct (L p) as [|x l]; [rewrite Hc; done|].
  destruct Hc as [-> (n & Hn%get_lt & _)]. lia.
Qed.

Lemma info_relinked pool x n k y : get pool x = Some n -> node_ok n -> 0 <= k < 2 ^ 24 ->
  info (<[Z.to_nat x := set_next n k]> pool) y = info pool y.
Proof.
  intros Hn Hok Hk. pose proof (get_lt _ _ _ Hn). destruct (Member.set_next_ok n k Hok Hk) as (_ & Eh & Ed & _).
  unfold info. destruct (Z.lt_ge_cases y 0); [by rewrite !get_neg|]. rewrite get_insert by lia.
  destruct (Z.eqb_spec y x) as [-> |]; [|done]. rewrite Hn. cbn [fmap option_fmap option_map]. by rewrite Eh, Ed.
Qed.

Lemma put_next_ok w x n k : get (pool w) x = Some n ->
  put_next w x k = Ok (with_pool w (<[Z.to_nat x := set_next n k]> (pool w))).
Proof.
  intros Hn. pose proof (get_lt _ _ _ Hn). unfold put_next, pool_node, put_node. rewrite Hn. ok_step.
  by rewrite set_at_Ok by lia.
Qed.

Lemma put_list_fields w t s h w' : put_list w t s h w' -> pool w' = pool w /\ free w' = free w /\ nodes_in_use w' = nodes_in_use w /\
  nodes_max w' = nodes_max w /\ tombstones w' = tombstones w /\ overflow w' = overflow w /\ cursor_ms w' = cursor_ms w /\ members w' = members w.
Proof. intros (_ & -> & _). done. Qed.

(** What a step that only relinks keeps. *)
Definition same_nodes (w w' : TtlWheel) : Prop :=
  cursor_ms w' = cursor_ms w /\ len (pool w') = len (pool w) /\ forall y, info (pool w') y = info (pool w) y.

(** [file] moves the node in hand to the list its deadline asks for. *)
Lemma file_ok T e L M S w x rest n floor (c := cursor_ms w) (p := spot_of c (deadline_ms n)) :
  Inv T e x L M S w -> L Hand = x :: rest -> get (pool w) x = Some n ->
  Z.max (deadline_ms n + 1) floor = Z.max (deadline_ms n + 1) c -> T p (deadline_ms n) ->
  exists w', file w x floor = Ok w' /\ Inv T e (next n) (upd (upd L Hand rest) p (x :: L p)) M S w' /\ same_nodes w w'.
Proof.
  intros I Hh Hn Hfl HT. destruct (inv_get _ _ _ _ _ _ _ I x Hand) as (n0 & Hn0 & Hok & Hx & Hd); [rewrite Hh; left|].
  assert (n0 = n) as -> by congruence. unfold file, pool_node. rewrite Hn. ok_step. rewrite wrap_id by (unfold in_u; lia).
  rewrite Hfl. pose proof (iv_cur _ _ _ _ _ _ _ I) as Hc. fold c in Hc |- *.
  assert (sat_sub (Z.max (deadline_ms n + 1) c) c = Z.max (deadline_ms n + 1) c - c) as -> by (unfold sat_sub; lia).
  assert (Hp : p <> Hand /\ p <> Free) by apply spot_of_filed.
  assert (Hrel : forall w', pool w' = <[Z.to_nat x := set_next n (headf w x p)]> (pool w) -> nodes_max w' = nodes_max w ->
    members w' = members w -> nodes_in_use w' = nodes_in_use w -> tombstones w' = tombstones w -> cursor_ms w' = c -> rows_ok w' ->
    (forall q, headf w' (next n) q = upd (upd (headf w x) Hand (next n)) p x q) ->
    Inv T e (next n) (upd (upd L Hand rest) p (x :: L p)) M S w' /\ same_nodes w w').
  { intros w' E1 E2 E3 E4 E5 E6 Hr Hheads. pose proof (inv_head _ _ _ _ _ _ _ p I) as Hhd.
    assert (Hi : forall y, info (pool w') y = info (pool w) y) by (intros y; rewrite E1; by apply info_relinked).
    assert (El : len (pool w') = len (pool w)) by (rewrite E1; apply len_insert).
    split; [|by split_and!]. eapply inv_relink; try done.
    - rewrite E6. done.
    - rewrite E1. apply Forall_insert; [apply I|]. by apply Member.set_next_ok.
    - rewrite E1. eapply (linked_move (pool w) (headf w x) L (iv_link _ _ _ _ _ _ _ I) p Hand x n rest); try done; [apply Hp|..].
      + by apply Member.set_next_ok.
      + rewrite Hheads. unfold upd. by rewrite decide_True.
      + intros r H1 H2. rewrite Hheads. unfold upd. by rewrite !decide_False.
    - unfold upd. rewrite decide_False by naive_solver. by rewrite decide_False.
    - intros q y h d Hy Hq1 Hq2 Hyi. unfold upd in Hy. case_decide as Eq.
      + subst q. apply elem_of_cons in Hy as [-> |Hy]; [|by eapply (iv_time _ _ _ _ _ _ _ I)].
        rewrite (get_info _ _ _ Hn) in Hyi. by injection Hyi as _ <-.
      + rewrite decide_False in Hy by done. by eapply (iv_time _ _ _ _ _ _ _ I). }
  unfold p, spot_of in *. destruct (HORIZON_MS <=? Z.max (deadline_ms n + 1) c - c) eqn:Eh.
  - rewrite (put_next_ok w x n) by done. ok_step. eexists. split; [done|]. apply Hrel; try done; [apply I|].
    intros [| | |]; unfold upd; by repeat case_decide.
  - set (t := file_tier 3 _ 0) in *. set (s := Z.land _ (SLOTS - 1)) in *.
    destruct (spot_of_slot c (deadline_ms n) t s) as [Ht Hs]; [unfold spot_of; by rewrite Eh|].
    destruct (rows_at w t s (iv_rows _ _ _ _ _ _ _ I) Ht Hs) as (hr & or & h & wd & G1 & G2 & _ & G3 & _).
    assert (E : get2 (heads w) t s = Some h) by (unfold get2; rewrite G1; done). rewrite E. ok_step.
    rewrite (put_next_ok w x n) by done. ok_step. set (w1 := with_pool w _).
    destruct (set_list_ok w1 t s x) as (w' & -> & Hput); [apply I|done|done|]. exists w'. split; [done|].
    pose proof (put_list_fields _ _ _ _ _ Hput) as (F1 & F2 & F3 & F4 & F5 & F6 & F7 & F8). destruct Hput as (Hr & _ & Hhd).
    apply Hrel; try done.
    + rewrite F1. cbn [headf]. rewrite E. done.
    + intros q. rewrite Hhd. destruct q as [t' s'| | |]; unfold upd; repeat case_decide; try done.
Qed.

Lemma release_ok T L M S w x rest n : Inv T 1 x L M S w -> L Hand = x :: rest -> get (pool w) x = Some n ->
  (forall h, M !! h <> Some x) ->
  exists w', release w x = Ok w' /\ Inv T 0 (next n) (upd (upd L Hand rest) Free (x :: L Free)) M S w' /\ same_nodes w w'.
Proof.
  intros I Hh Hn Hm. destruct (inv_get _ _ _ _ _ _ _ I x Hand) as (n0 & Hn0 & Hok & Hx & Hd); [rewrite Hh; left|].
  assert (n0 = n) as -> by congruence. pose proof (inv_head _ _ _ _ _ _ _ Free I) as Hhd. cbn [headf] in Hhd.
  assert (Hxf : x ∉ L Free).
  { intros Hf. assert (x ∈ L Hand) as Hx' by (rewrite Hh; left). by pose proof (lk_disj _ _ _ (iv_link _ _ _ _ _ _ _ I) _ _ _ Hf Hx'). }
  pose proof (inv_use_pos _ _ _ _ _ _ _ I x (get_lt _ _ _ Hn) Hxf) as Hpos.
  pose proof (iv_len _ _ _ _ _ _ _ I) as Hlen. pose proof (iv_use _ _ _ _ _ _ _ I) as Hu. pose proof (len_nonneg (L Free)).
  change NIL with (2 ^ 24 - 1) in *. unfold release. rewrite (put_next_ok w x n) by done. ok_step.
  eexists. split; [done|]. cbn [nodes_in_use with_pool]. rewrite wrap_id by (unfold in_u; lia).
  assert (Hi : forall y, info (<[Z.to_nat x := set_next n (free w)]> (pool w)) y = info (pool w) y) by (intros y; by apply info_relinked).
  split; [|split_and!; [done|apply len_insert|done]].
  pose proof (iv_tomb _ _ _ _ _ _ _ I). pose proof (iv_time _ _ _ _ _ _ _ I) as Htime. pose proof (iv_live _ _ _ _ _ _ _ I) as Hlive.
  split; cbn [pool nodes_max with_in_use with_free with_pool members cursor_ms nodes_in_use tombstones]; rewrite ?len_insert; try done.
  - apply Forall_insert; [apply I|]. by apply Member.set_next_ok.
  - apply I.
  - eapply (linked_move (pool w) (headf w x) L (iv_link _ _ _ _ _ _ _ I) Free Hand x n rest); try done; [by apply Member.set_next_ok|].
    intros [| | |] H1 H2; done.
  - intros p y h d Hy Hp1 Hp2 Hyi. rewrite Hi in Hyi. unfold upd in Hy. rewrite !decide_False in Hy by done. by eapply Htime.
  - eapply Member.ms_frame; [apply I|]. intros h y _. by rewrite !info_hash, Hi.
  - intros h y Hy. unfold upd. rewrite decide_True by done. rewrite elem_of_cons. intros [-> |Hf]; [by eapply Hm|by eapply Hlive].
  - intros h. rewrite (iv_sched _ _ _ _ _ _ _ I). destruct (M !! h); [|done]. cbn. by rewrite Hi.
  - unfold upd. rewrite decide_True by done. rewrite len_cons. lia.
  - lia.
  - apply I.
Qed.

(** A membership entry removed from the node it names leaves one node owed. *)
Lemma inv_unmember T e hand L M S w h x m : Inv T e hand L M S w -> M !! h = Some x -> R (pool w) m (delete h M) ->
  Inv T (e + 1) hand L (delete h M) (delete h S) (with_members w m).
Proof.
  intros I Hm Hr. assert (size M <> O) by (intros E%map_size_empty_inv; by rewrite E in Hm).
  destruct I. split; try done; cbn [pool nodes_in_use tombstones with_members cursor_ms].
  - intros h' y Hy. apply lookup_delete_Some in Hy as [_ Hy]. by eapply iv_live0.
  - intros h'. destruct (decide (h' = h)) as [-> |Hne]; [by rewrite !lookup_delete_eq|]. by rewrite !lookup_delete_ne.
  - rewrite map_size_delete_Some by (by eexists). lia.
Qed.

Lemma release_member_ok T L M S w x rest n : Inv T 0 x L M S w -> L Hand = x :: rest -> get (pool w) x = Some n ->
  M !! hash n = Some x ->
  exists w', release_member w x = Ok w' /\
    Inv T 0 (next n) (upd (upd L Hand rest) Free (x :: L Free)) (delete (hash n) M) (delete (hash n) S) w' /\ same_nodes w w'.
Proof.
  intros I Hh Hn Hm. unfold release_member, pool_node. rewrite Hn. ok_step.
  destruct (Member.ms_remove _ _ _ _ _ x (iv_mem _ _ _ _ _ _ _ I) Hm) as (m & -> & Hr). ok_step.
  pose proof (inv_unmember _ _ _ _ _ _ _ _ _ _ I Hm Hr) as I1.
  destruct (release_ok T L _ _ (with_members w m) x rest n I1 Hh Hn) as (w' & -> & I' & Hs).
  { intros h [Hne Hh']%lookup_delete_Some. destruct (inv_member _ _ _ _ _ _ _ I _ _ Hh') as (n' & G & E & _). congruence. }
  by exists w'.
Qed.

Lemma free_tombstone_ok T L M S w x rest n : Inv T 0 x L M S w -> L Hand = x :: rest -> get (pool w) x = Some n ->
  (forall h, M !! h <> Some x) ->
  exists w', free_tombstone w x = Ok w' /\ Inv T 0 (next n) (upd (upd L Hand rest) Free (x :: L Free)) M S w' /\ same_nodes w w'.
Proof.
  intros I Hh Hn Hm. unfold free_tombstone.
  assert (Hxf : x ∉ L Free).
  { intros Hf. assert (x ∈ L Hand) as Hx' by (rewrite Hh; left). by pose proof (lk_disj _ _ _ (iv_link _ _ _ _ _ _ _ I) _ _ _ Hf Hx'). }
  pose proof (inv_spare _ _ _ _ _ _ _ I x (get_lt _ _ _ Hn) Hxf Hm) as Hsp.
  pose proof (iv_tomb _ _ _ _ _ _ _ I). pose proof (iv_use _ _ _ _ _ _ _ I).
  assert (sat_sub (tombstones w) 1 = tombstones w - 1) as -> by (unfold sat_sub; lia).
  destruct (release_ok T L M S (with_tombstones w (tombstones w - 1)) x rest n) as (w' & -> & I' & Hs); try done; [|by exists w'].
  destruct I. split; try done. cbn [tombstones with_tombstones nodes_in_use]. lia.
Qed.

Lemma hand_nil T e L M S w : Inv T e NIL L M S w -> L Hand = [].
Proof.
  intros I. eapply chain_nil; [|apply (lk_chain _ _ _ (iv_link _ _ _ _ _ _ _ I) Hand)].
  pose proof (iv_len _ _ _ _ _ _ _ I). lia.
Qed.

Lemma info_other pool x n y : 0 <= x < len pool -> y <> x -> info (<[Z.to_nat x := n]> pool) y = info pool y.
Proof.
  intros Hx Hne. unfold info. destruct (Z.lt_ge_cases y 0); [by rewrite !get_neg|].
  rewrite get_insert by lia. by rewrite (proj2 (Z.eqb_neq _ _)).
Qed.

Lemma alloc_free_ok T L M S w h d : Inv T 0 NIL L M S w -> 0 <= h < 2 ^ 64 -> 0 <= d < 2 ^ 40 -> free w <> NIL ->
  exists n w' L', get (pool w) (free w) = Some n /\
    w' = with_in_use (with_pool (with_free w (next n)) (<[Z.to_nat (free w) := node_new h d NIL]> (pool w))) (nodes_in_use w + 1) /\
    nodes_in_use w + 1 < 2 ^ 64 /\ 0 <= nodes_in_use w + 1 /\
    Inv T 1 (free w) L' M S w' /\ L' Hand = [free w] /\ (forall g, M !! g <> Some (free w)).
Proof.
  intros I Hh Hd Hf. pose proof (iv_link _ _ _ _ _ _ _ I) as Hl. pose proof (hand_nil _ _ _ _ _ _ I) as Hhand.
  destruct (chain_cons _ _ _ Hf (lk_chain _ _ _ Hl Free)) as (n & rest & Hrest & Hn & _). cbn [headf] in *.
  set (x := free w) in *. pose proof (get_lt _ _ _ Hn) as Hx.
  assert (Hxf : x ∈ L Free) by (rewrite Hrest; left).
  assert (Hm : forall g, M !! g <> Some x) by (intros g Hg; by apply (iv_live _ _ _ _ _ _ _ I) in Hg).
  destruct (Member.node_new_ok h d NIL) as (Hok & Ed & En); [done|done|done|].
  pose proof (iv_use _ _ _ _ _ _ _ I) as Hu. pose proof (iv_len _ _ _ _ _ _ _ I) as Hlen. rewrite Hrest, len_cons in Hu.
  change NIL with (2 ^ 24 - 1) in Hlen. pose proof (len_nonneg rest). pose proof (iv_tomb _ _ _ _ _ _ _ I).
  assert (len rest < len (pool w)).
  { assert (len (x :: rest) <= Z.max 0 (len (pool w))); [|rewrite len_cons in *; lia]. rewrite <- Hrest.
    apply Member.bounded_NoDup; [apply Hl|]. apply Forall_forall. intros y Hy%list_elem_of_In. by eapply linked_range. }
  eexists n, _, (upd (upd L Free rest) Hand [x]). split_and!; [done|done|lia|lia| |done|done].
  pose proof (iv_time _ _ _ _ _ _ _ I) as Htime. pose proof (iv_live _ _ _ _ _ _ _ I) as Hlive.
  assert (Hne : forall g y, M !! g = Some y -> y <> x) by (intros g y Hg ->; by apply (Hm g)).
  split; cbn [pool nodes_max with_in_use with_free with_pool members cursor_ms nodes_in_use tombstones]; rewrite ?len_insert; try done.
  - apply Forall_insert; [apply I|done].
  - apply I.
  - rewrite <- Hhand. eapply (linked_move (pool w) (headf w NIL) L Hl Hand Free x n rest); try done. intros [| | |] ? ?; done.
  - intros p y g d' Hy Hp1 Hp2 Hyi. unfold upd in Hy. rewrite !decide_False in Hy by done.
    rewrite info_other in Hyi; [by eapply Htime|done|]. intros ->. by pose proof (lk_disj _ _ _ Hl _ _ _ Hy Hxf).
  - eapply Member.ms_frame; [apply I|]. intros g y Hg. rewrite !info_hash, info_other; [done|done|by eapply Hne].
  - intros g y Hg. unfold upd. rewrite decide_False by done. rewrite decide_True by done.
    intros Hy. eapply Hlive; [done|]. rewrite Hrest. by right.
  - intros g. rewrite (iv_sched _ _ _ _ _ _ _ I). destruct (M !! g) as [y|] eqn:Eg; [|done]. cbn.
    rewrite info_other; [done|done|by eapply Hne].
  - unfold upd. rewrite decide_False by done. rewrite decide_True by done. lia.
  - lia.
  - apply I.
Qed.

Lemma alloc_push_ok T L M S w h d : Inv T 0 NIL L M S w -> 0 <= h < 2 ^ 64 -> 0 <= d < 2 ^ 40 -> len (pool w) < nodes_max w ->
  let x := len (pool w) in
  let w' := with_in_use (with_pool w (pool w ++ [node_new h d NIL])) (nodes_in_use w + 1) in
  0 <= nodes_in_use w + 1 < 2 ^ 64 /\
  Inv T 1 x (upd L Hand [x]) M S w' /\ (forall g, M !! g <> Some x) /\ get (pool w') x = Some (node_new h d NIL) /\ x < NIL.
Proof.
  intros I Hh Hd Hf x w'. pose proof (iv_link _ _ _ _ _ _ _ I) as Hl. pose proof (hand_nil _ _ _ _ _ _ I) as Hhand.
  destruct (Member.node_new_ok h d NIL) as (Hok & Ed & En); [done|done|done|].
  assert (Hg : get (pool w ++ [node_new h d NIL]) x = Some (node_new h d NIL)).
  { apply get_Some. unfold x, len. split; [lia|]. by rewrite Nat2Z.id, list_lookup_middle. }
  assert (Hold : forall y, y <> x -> info (pool w ++ [node_new h d NIL]) y = info (pool w) y).
  { intros y Hy. unfold info, get. destruct (0 <=? y) eqn:E; [|done]. apply Z.leb_le in E. unfold x, len in Hy.
    destruct (decide (Z.to_nat y < length (pool w))%nat); [by rewrite lookup_app_l by lia|].
    rewrite !lookup_ge_None_2; [done|lia|]. rewrite length_app. cbn. lia. }
  assert (Hm : forall g y, M !! g = Some y -> y <> x).
  { intros g y Hy ->. destruct (inv_member _ _ _ _ _ _ _ I _ _ Hy) as (n & Hn%get_lt & _). unfold x in Hn. lia. }
  pose proof (iv_use _ _ _ _ _ _ _ I) as Hu. pose proof (iv_len _ _ _ _ _ _ _ I) as Hlen. change NIL with (2 ^ 24 - 1) in Hlen.
  pose proof (len_nonneg (L Free)). pose proof (iv_tomb _ _ _ _ _ _ _ I).
  assert (len (L Free) <= Z.max 0 (len (pool w))).
  { apply Member.bounded_NoDup; [apply Hl|]. apply Forall_forall. intros y Hy%list_elem_of_In. by eapply linked_range. }
  pose proof (len_nonneg (pool w)).
  split_and!; [lia|lia| |by intros g Hg'%Hm|done|unfold x; change NIL with (2 ^ 24 - 1); lia].
  split; cbn [pool nodes_max w' with_in_use with_pool members cursor_ms nodes_in_use tombstones]; rewrite ?len_app; try done.
  - change (len [node_new h d NIL]) with 1. change NIL with (2 ^ 24 - 1). lia.
  - apply Forall_app. split; [apply I|]. by constructor.
  - apply I.
  - apply (linked_push (pool w) (headf w NIL) L Hl); try done. by intros [| | |].
  - intros p y g d' Hy Hp1 Hp2 Hyi. unfold upd in Hy. rewrite decide_False in Hy by done.
    rewrite Hold in Hyi; [by eapply (iv_time _ _ _ _ _ _ _ I)|]. intros ->. apply (linked_range _ _ _ Hl) in Hy. unfold x in Hy. lia.
  - eapply Member.ms_frame; [apply I|]. intros g y Hy. rewrite !info_hash, Hold; [done|by eapply Hm].
  - intros g y Hy. unfold upd. rewrite decide_False by done. by eapply (iv_live _ _ _ _ _ _ _ I).
  - intros g. rewrite (iv_sched _ _ _ _ _ _ _ I). destruct (M !! g) as [y|] eqn:Eg; [|done]. cbn. rewrite Hold; [done|by eapply Hm].
  - unfold upd. rewrite decide_False by done. change (len [node_new h d NIL]) with 1. lia.
  - lia.
  - apply I.
Qed.

Lemma sched_None T e hand L M S w h : Inv T e hand L M S w -> S !! h = None <-> M !! h = None.
Proof.
  intros I. rewrite (iv_sched _ _ _ _ _ _ _ I). destruct (M !! h) as [x|] eqn:E; [|done].
  destruct (inv_member _ _ _ _ _ _ _ I _ _ E) as (n & Hn & _). cbn. by rewrite (get_info _ _ _ Hn).
Qed.

Lemma sched_size T e hand L M S w : Inv T e hand L M S w -> size S = size M.
Proof.
  intros I. rewrite <- !size_dom. f_equal. apply set_eq. intros h. rewrite !elem_of_dom, <- !not_eq_None_Some.
  by rewrite (sched_None _ _ _ _ _ _ _ h I).
Qed.

(** The node in hand enters the membership table. *)
Lemma inv_enroll T L M S w x h d m : Inv T 1 x L M S w -> L Hand = [x] -> get (pool w) x = Some (node_new h d NIL) ->
  0 <= d < 2 ^ 40 -> 0 <= h < 2 ^ 64 -> M !! h = None -> R (pool w) m (<[h := x]> M) ->
  Inv T 0 x L (<[h := x]> M) (<[h := d]> S) (with_members w m).
Proof.
  intros I Hh Hx Hd Hh64 Hm Hr. destruct (Member.node_new_ok h d NIL) as (_ & Ed & _); [done|done|done|].
  assert (Hxh : x ∈ L Hand) by (rewrite Hh; left). pose proof (iv_link _ _ _ _ _ _ _ I) as Hl.
  assert (Hxf : x ∉ L Free) by (intros Hf; by pose proof (lk_disj _ _ _ Hl _ _ _ Hf Hxh)).
  destruct I. split; try done; cbn [pool nodes_in_use tombstones with_members cursor_ms].
  - intros h' y [[_ <-]|[_ Hy]]%lookup_insert_Some; [done|by eapply iv_live0].
  - intros h'. destruct (decide (h' = h)) as [-> |Hne].
    + rewrite !lookup_insert_eq. cbn. rewrite (get_info _ _ _ Hx). cbn [fmap option_fmap option_map snd]. by rewrite Ed.
    + by rewrite !lookup_insert_ne.
  - rewrite map_size_insert_None by done. lia.
Qed.

(** The wheel holds the schedule [S]. *)
Definition wheel_ok (w : TtlWheel) (S : gmap Z Z) : Prop :=
  exists L M, Inv (timed (cursor_ms w)) 0 NIL L M S w.

Definition refused (a : Alloc) (w : TtlWheel) : Prop :=
  reserve a && table a && growth a = false \/ nodes_max w <= nodes_in_use w.

Lemma alloc_ok a T L M S w h d : Inv T 0 NIL L M S w -> 0 <= h < 2 ^ 64 -> 0 <= d < 2 ^ 40 ->
  (alloc a w h d = Ok None /\ refused a w) \/
  exists w' x L', alloc a w h d = Ok (Some (w', x)) /\ Inv T 1 x L' M S w' /\ L' Hand = [x] /\
    get (pool w') x = Some (node_new h d NIL) /\ 0 <= x < NIL /\ (forall g, M !! g <> Some x) /\
    cursor_ms w' = cursor_ms w /\ nodes_max w' = nodes_max w.
Proof.
  intros I Hh Hd. pose proof (iv_len _ _ _ _ _ _ _ I) as Hlen. pose proof (len_nonneg (pool w)).
  unfold alloc. destruct (Z.eqb_spec (free w) NIL) as [Ef|Ef]; cbn [negb].
  - assert (L Free = []) as Hf.
    { eapply chain_nil; [|rewrite <- Ef; apply (lk_chain _ _ _ (iv_link _ _ _ _ _ _ _ I) Free)]. lia. }
    pose proof (iv_use _ _ _ _ _ _ _ I) as Hu. rewrite Hf in Hu. change (len (@nil Z)) with 0 in Hu.
    destruct ((nodes_max w <=? len (pool w)) || negb (reserve a)) eqn:E.
    { left. split; [done|]. apply orb_true_iff in E as [E%Z.leb_le|E]; [right; lia|left]. by destruct (reserve a). }
    right. apply orb_false_iff in E as [E%Z.leb_gt _]. destruct (alloc_push_ok T L M S w h d I Hh Hd E) as (Hr & I' & Hm & Hg & Hx).
    rewrite !wrap_id by (unfold in_u; change NIL with (2 ^ 24 - 1) in Hx; cbn [nodes_in_use with_pool]; lia).
    eexists _, _, _. split; [done|]. split_and!; try done; lia.
  - right. destruct (alloc_free_ok T L M S w h d I Hh Hd Ef) as (n & w' & L' & Hn & Ew & Hr1 & Hr2 & I' & HL & Hm).
    pose proof (get_lt _ _ _ Hn). unfold pool_node. rewrite Hn. ok_step. unfold put_node. cbn [pool with_free].
    rewrite set_at_Ok by done. ok_step. cbn [nodes_in_use with_pool with_free]. rewrite wrap_id by (unfold in_u; lia).
    exists w', (free w), L'. rewrite <- Ew. split; [done|]. split_and!; try done; try lia.
    + rewrite Ew. cbn [pool with_in_use with_pool]. rewrite get_insert by lia. by rewrite Z.eqb_refl.
    + by rewrite Ew.
    + by rewrite Ew.
Qed.

Lemma file_new_ok a w S h d : wheel_ok w S -> 0 <= h < 2 ^ 64 -> 0 <= d < 2 ^ 40 -> S !! h = None ->
  exists w' b, file_new a w h d = Ok (w', b) /\ wheel_ok w' (if b then <[h := d]> S else S) /\
    cursor_ms w' = cursor_ms w /\ (b = false -> refused a w).
Proof.
  intros (L & M & I) Hh Hd HS. pose proof (proj1 (sched_None _ _ _ _ _ _ _ h I) HS) as HM. unfold file_new.
  destruct (alloc_ok a _ L M S w h d I Hh Hd) as [[-> Href]|(w1 & x & L1 & -> & I1 & HL1 & Hg & Hx & Hm & Ec & Ex)]; ok_step.
  { exists w, false. split_and!; try done. by exists L, M. }
  destruct (Member.node_new_ok h d NIL) as (Hok & Ed & En); [done|done|done|].
  destruct (Member.ms_insert (pool w1) (table a) (growth a) (members w1) M h x) as (m & b & -> & Hb & Hr); [apply I1|done| |].
  { split_and!; [lia|lia| |lia|lia]. unfold hash_of. by rewrite Hg. }
  ok_step. cbn [fst snd]. destruct b.
  - pose proof (inv_enroll _ _ _ _ _ _ _ _ _ I1 HL1 Hg Hd Hh HM Hr) as I2.
    destruct (file_ok _ _ _ _ _ (with_members w1 m) x [] (node_new h d NIL) (cursor_ms w1) I2 HL1 Hg eq_refl) as (w2 & Hf & I3 & Ec2 & _).
    { rewrite <- Ec. apply spot_of_timed. }
    cbn [cursor_ms with_members] in *. rewrite Hf. ok_step. exists w2, true. split_and!; [done| |congruence|done].
    rewrite En in I3. eexists _, _. rewrite Ec2, Ec. exact I3.
  - assert (I2 : Inv (timed (cursor_ms w)) 1 x L1 M S (with_members w1 m)) by (destruct I1; by split).
    destruct (release_ok _ _ _ _ (with_members w1 m) x [] _ I2 HL1 Hg Hm) as (w2 & -> & I3 & Ec2 & _).
    cbn [cursor_ms with_members] in *. ok_step. exists w2, false. split_and!; [done| |congruence|].
    + rewrite En in I3. eexists _, _. rewrite Ec2, Ec. exact I3.
    + intros _. left. destruct (reserve a), (table a), (growth a); try done. by discriminate Hb.
Qed.

(** The pool after the contents of [y] moved into [x] and [y] was released. *)
Lemma info_moved pool x y n ny k z : get pool x = Some n -> get pool y = Some ny -> node_ok ny -> 0 <= k < 2 ^ 24 -> x <> y ->
  info (<[Z.to_nat y := set_next ny k]> (<[Z.to_nat x := ny]> pool)) z = info pool (if z =? x then y else z).
Proof.
  intros Hx Hy Hok Hk Hne. pose proof (get_lt _ _ _ Hx). pose proof (get_lt _ _ _ Hy).
  rewrite info_relinked; try done.
  - destruct (Z.eqb_spec z x) as [-> |]; [|by apply info_other]. unfold info. rewrite get_insert by lia. by rewrite Z.eqb_refl, Hy.
  - rewrite get_insert by lia. by rewrite (proj2 (Z.eqb_neq _ _)) by done.
Qed.

Lemma inv_unlink T L M M' S w w' p l1 x y l2 n ny : Inv T 1 NIL L M S w -> p <> Free -> p <> Hand ->
  L p = l1 ++ x :: y :: l2 -> get (pool w) x = Some n -> get (pool w) y = Some ny -> (forall g, M !! g <> Some x) ->
  M' = (if decide (M !! hash ny = Some y) then <[hash ny := x]> M else M) ->
  pool w' = <[Z.to_nat y := set_next ny (free w)]> (<[Z.to_nat x := ny]> (pool w)) ->
  nodes_max w' = nodes_max w -> heads w' = heads w -> occupied w' = occupied w -> overflow w' = overflow w -> free w' = y ->
  nodes_in_use w' = nodes_in_use w - 1 -> tombstones w' = tombstones w -> cursor_ms w' = cursor_ms w ->
  R (pool w') (members w') M' ->
  Inv T 0 NIL (upd (upd L p (l1 ++ x :: l2)) Free (y :: L Free)) M' S w'.
Proof.
  intros I Hp1 Hp2 HL Hn Hny Hm EM Ep E1 E2 E3 E4 E5 E6 E7 E8 Hr. pose proof (iv_link _ _ _ _ _ _ _ I) as Hl.
  assert (Hyp : y ∈ L p) by (rewrite HL; set_solver). assert (Hxp : x ∈ L p) by (rewrite HL; set_solver).
  destruct (inv_get _ _ _ _ _ _ _ I y p Hyp) as (n0 & G0 & Hok & Hy & _). assert (n0 = ny) as -> by congruence.
  pose proof (inv_head _ _ _ _ _ _ _ Free I) as Hk. cbn [headf] in Hk.
  assert (Hxy : x <> y).
  { intros ->. pose proof (lk_nodup _ _ _ Hl p) as Hd. rewrite HL in Hd. apply list.NoDup_app in Hd as (_ & _ & Hd).
    apply list.NoDup_cons in Hd as [Hd _]. apply Hd. left. }
  assert (Hi : forall z, info (pool w') z = info (pool w) (if z =? x then y else z)) by (intros z; rewrite Ep; by eapply info_moved).
  assert (Hnm : forall g z, M' !! g = Some z -> z <> y /\ (z = x \/ M !! g = Some z)).
  { intros g z Hg. subst M'. case_decide as Ed.
    - apply lookup_insert_Some in Hg as [[_ <-]|[Hne Hg]]; [naive_solver|]. split; [|by right]. intros ->.
      destruct (inv_member _ _ _ _ _ _ _ I _ _ Hg) as (n' & G & Eh & _). congruence.
    - split; [|by right]. intros ->. destruct (inv_member _ _ _ _ _ _ _ I _ _ Hg) as (n' & G & Eh & _). congruence. }
  split.
  - rewrite E1, Ep, !len_insert. apply I.
  - rewrite Ep. apply Forall_insert; [|by apply Member.set_next_ok]. apply Forall_insert; [apply I|done].
  - unfold rows_ok. rewrite E2, E3. apply I.
  - rewrite Ep. eapply (linked_unlink (pool w) (headf w NIL) L Hl p l1 x y l2 n ny); try done; [by apply Member.set_next_ok|].
    intros [| | |] ?; cbn [headf]; rewrite ?E2, ?E4; done.
  - intros q z g d Hz Hq1 Hq2. rewrite Hi. unfold upd in Hz. rewrite decide_False in Hz by done.
    destruct (Z.eqb_spec z x) as [-> |Hzx]; intros Hzi; destruct (decide (q = p)) as [-> |Hqp].
    + exact (iv_time _ _ _ _ _ _ _ I p y g d Hyp Hp1 Hp2 Hzi).
    + by pose proof (lk_disj _ _ _ Hl _ _ _ Hz Hxp).
    + eapply (iv_time _ _ _ _ _ _ _ I); [|done|done|done]. rewrite HL. set_solver.
    + by eapply (iv_time _ _ _ _ _ _ _ I).
  - done.
  - intros g z [Hzy Hz]%Hnm. unfold upd. rewrite decide_True by done. rewrite elem_of_cons. intros [|Hf]; [done|].
    destruct Hz as [-> |Hg]; [by pose proof (lk_disj _ _ _ Hl _ _ _ Hf Hxp)|by eapply (iv_live _ _ _ _ _ _ _ I)].
  - intros g. rewrite (iv_sched _ _ _ _ _ _ _ I). subst M'. case_decide as Ed.
    + destruct (decide (g = hash ny)) as [-> |Hne].
      * rewrite lookup_insert_eq, Ed. cbn. rewrite Hi, Z.eqb_refl. done.
      * rewrite lookup_insert_ne by done. destruct (M !! g) as [z|] eqn:Eg; [|done]. cbn. rewrite Hi.
        destruct (Z.eqb_spec z x) as [-> |]; [|done]. by destruct (Hm g).
    + destruct (M !! g) as [z|] eqn:Eg; [|done]. cbn. rewrite Hi. destruct (Z.eqb_spec z x) as [-> |]; [|done]. by destruct (Hm g).
  - unfold upd. rewrite decide_True by done. rewrite len_cons, Ep, !len_insert, E6, (iv_use _ _ _ _ _ _ _ I). lia.
  - assert (size M' = size M) as -> by (subst M'; case_decide; [by rewrite map_size_insert_Some|done]).
    pose proof (iv_tomb _ _ _ _ _ _ _ I). rewrite E6, E7. lia.
  - rewrite E8. apply I.
Qed.

(** Removal when the node has a successor: its contents move up. *)
Lemma remove_linked T L M S w x n : Inv T 1 NIL L M S w -> x ∉ L Free -> get (pool w) x = Some n -> next n <> NIL ->
  (forall g, M !! g <> Some x) ->
  exists ny w' L' M', get (pool w) (next n) = Some ny /\
    (w ← put_node w x ny;
     r ← Member.lookup (members w) (hash ny) (pool w);
     w ← (if bool_decide (r = Some (next n))
          then m ← Member.retarget (members w) (hash ny) (next n) x (pool w); mret (with_members w m) else mret w);
     release w (next n)) = @Ok False _ w' /\ Inv T 0 NIL L' M' S w' /\ cursor_ms w' = cursor_ms w /\
    nodes_in_use w' <= nodes_in_use w /\ nodes_max w' = nodes_max w.
Proof.
  intros I Hf Hn Hs Hm. pose proof (iv_link _ _ _ _ _ _ _ I) as Hl. pose proof (get_lt _ _ _ Hn) as Hx.
  destruct (lk_cover _ _ _ Hl x Hx) as [p Hp]. assert (p <> Free) by (by intros ->).
  assert (p <> Hand) by (intros ->; rewrite (hand_nil _ _ _ _ _ _ I) in Hp; by apply elem_of_nil in Hp).
  apply list_elem_of_split in Hp as (l1 & l2 & HL). pose proof (lk_chain _ _ _ Hl p) as Hc. rewrite HL in Hc.
  destruct (chain_app _ _ _ _ _ Hc) as (n0 & G0 & Hc2). assert (n0 = n) as -> by congruence.
  destruct (chain_cons _ _ _ Hs Hc2) as (ny & l2' & -> & Hny & _). set (y := next n) in *.
  destruct (inv_get _ _ _ _ _ _ _ I y p) as (ny0 & G1 & Hok & Hy & _); [rewrite HL; set_solver|].
  assert (ny0 = ny) as -> by congruence. pose proof (get_lt _ _ _ Hny) as Hyr.
  assert (Hxy : x <> y).
  { intros E. pose proof (lk_nodup _ _ _ Hl p) as Hd. rewrite HL, E in Hd. apply list.NoDup_app in Hd as (_ & _ & Hd).
    apply list.NoDup_cons in Hd as [Hd _]. apply Hd. left. }
  set (pool1 := <[Z.to_nat x := ny]> (pool w)).
  assert (Hi1 : forall z, z <> x -> info pool1 z = info (pool w) z) by (intros z Hz; by apply info_other).
  assert (Hg1 : get pool1 x = Some ny) by (unfold pool1; rewrite get_insert by lia; by rewrite Z.eqb_refl).
  assert (Hg1y : get pool1 y = Some ny).
  { unfold pool1. rewrite get_insert by lia. by rewrite (proj2 (Z.eqb_neq _ _)) by done. }
  assert (HR1 : R pool1 (members w) M).
  { eapply Member.ms_frame; [apply I|]. intros g z Hg. rewrite !info_hash, Hi1; [done|]. intros ->. by apply (Hm g). }
  exists ny. unfold put_node. rewrite set_at_Ok by done. ok_step. cbn [members pool with_pool]. fold pool1.
  destruct Hok as [Hh64 Hok]. rewrite (Member.ms_lookup _ _ _ _ HR1 Hh64). ok_step.
  assert (exists m', (if bool_decide (M !! hash ny = Some y) then
      m ← Member.retarget (members w) (hash ny) y x pool1; mret (with_members (with_pool w pool1) m) else mret (with_pool w pool1))
      = @Ok False _ (with_members (with_pool w pool1) m') /\ R pool1 m' (if decide (M !! hash ny = Some y) then <[hash ny := x]> M else M))
    as (m' & -> & HR2).
  { case_bool_decide as Ed; case_decide; try done.
    - destruct (Member.ms_retarget pool1 _ M (hash ny) y y x HR1 Ed) as (m' & -> & HR2).
      { destruct (inv_get _ _ _ _ _ _ _ I x p) as (? & _ & _ & ? & _); [rewrite HL; set_solver|]. split_and!; try lia.
        unfold hash_of. by rewrite Hg1. }
      ok_step. by exists m'.
    - exists (members w). by destruct w. }
  ok_step. unfold release. rewrite (put_next_ok _ y ny) by done. ok_step.
  pose proof (inv_use_pos _ _ _ _ _ _ _ I x Hx Hf). pose proof (iv_use _ _ _ _ _ _ _ I). pose proof (iv_len _ _ _ _ _ _ _ I) as Hlen.
  pose proof (len_nonneg (L Free)). change NIL with (2 ^ 24 - 1) in Hlen. cbn [nodes_in_use with_pool with_members].
  rewrite wrap_id by (unfold in_u; lia). eexists _, _, _. split; [done|]. split; [done|]. split; [|split_and!; [done|cbn; lia|done]].
  eapply (inv_unlink T L M _ S w _ p l1 x y l2' n ny); try done. cbn [pool members with_in_use with_free with_pool with_members free].
  eapply Member.ms_frame; [exact HR2|]. intros g z _. rewrite !info_hash. f_equal.
  apply info_relinked; [done|by split|apply (inv_head _ _ _ _ _ _ _ Free I)].
Qed.

Lemma unschedule_ok w S h : wheel_ok w S -> 0 <= h < 2 ^ 64 ->
  exists w', remove w h = Ok (w', bool_decide (is_Some (S !! h))) /\ wheel_ok w' (delete h S) /\ cursor_ms w' = cursor_ms w /\
    nodes_in_use w' <= nodes_in_use w /\ nodes_max w' = nodes_max w.
Proof.
  intros (L & M & I) Hh. unfold remove. rewrite (Member.ms_lookup _ _ _ _ (iv_mem _ _ _ _ _ _ _ I) Hh). ok_step.
  destruct (M !! h) as [x|] eqn:Em.
  2:{ exists w. pose proof (proj2 (sched_None _ _ _ _ _ _ _ h I) Em) as E. rewrite E.
      split_and!; [by rewrite bool_decide_false|rewrite delete_id by done; by exists L, M|done|done|done]. }
  destruct (inv_member _ _ _ _ _ _ _ I _ _ Em) as (n & Hn & Eh & _ & HS & Hx). rewrite HS, bool_decide_true by done.
  destruct (Member.ms_remove _ _ _ _ _ x (iv_mem _ _ _ _ _ _ _ I) Em) as (m & -> & Hr). ok_step.
  pose proof (inv_unmember _ _ _ _ _ _ _ _ _ _ I Em Hr) as I1.
  assert (pool_node (with_members w m) x = Ok n) as -> by (unfold pool_node; cbn [pool with_members]; by rewrite Hn). ok_step.
  assert (Hm : forall g, delete h M !! g <> Some x).
  { intros g [Hne Hg]%lookup_delete_Some. destruct (inv_member _ _ _ _ _ _ _ I _ _ Hg) as (n' & G & E & _). congruence. }
  destruct (Z.eqb_spec (next n) NIL) as [En|En].
  - pose proof (iv_tomb _ _ _ _ _ _ _ I1) as Ht. pose proof (iv_use _ _ _ _ _ _ _ I1) as Hu.
    pose proof (inv_spare _ _ _ _ _ _ _ I1 x (get_lt _ _ _ Hn) (iv_live _ _ _ _ _ _ _ I _ _ Em) Hm).
    pose proof (iv_len _ _ _ _ _ _ _ I1) as Hlen. pose proof (len_nonneg (L Free)). change NIL with (2 ^ 24 - 1) in Hlen.
    cbn [nodes_in_use tombstones pool with_members nodes_max] in *. rewrite wrap_id by (unfold in_u; lia).
    eexists. split; [done|]. split; [|done]. exists L, (delete h M). destruct I1. split; try done.
    cbn [tombstones with_tombstones with_members nodes_in_use]. lia.
  - destruct (remove_linked _ L (delete h M) (delete h S) (with_members w m) x n I1) as (ny & w' & L' & M' & Hny & Hrun & I' & Ec & Hu & Hx'); try done.
    { by eapply (iv_live _ _ _ _ _ _ _ I). }
    unfold pool_node. cbn [pool with_members] in *. rewrite Hny. ok_step.
    destruct (put_node (with_members w m) x ny) as [w2| |] eqn:E2; try done. cbn [mbind outcome_bind] in Hrun |- *.
    destruct (Member.lookup (members w2) (hash ny) (pool w2)) as [r| |]; try done. cbn [mbind outcome_bind] in Hrun |- *.
    destruct (if bool_decide (r = Some (next n)) then _ else _) as [w3| |]; try done. cbn [mbind outcome_bind] in Hrun |- *.
    rewrite Hrun. ok_step. exists w'. split_and!; [done| |done|done|done]. exists L', M'. by rewrite Ec.
Qed.

Lemma node_deadline_ok w S h : wheel_ok w S -> 0 <= h < 2 ^ 64 -> node_deadline w h = Ok (S !! h).
Proof.
  intros (L & M & I) Hh. unfold node_deadline. rewrite (Member.ms_lookup _ _ _ _ (iv_mem _ _ _ _ _ _ _ I) Hh). ok_step.
  destruct (M !! h) as [x|] eqn:Em.
  - destruct (inv_member _ _ _ _ _ _ _ I _ _ Em) as (n & Hn & _ & _ & HS & _). unfold pool_node. rewrite Hn, HS. done.
  - by rewrite (proj2 (sched_None _ _ _ _ _ _ _ h I) Em).
Qed.

Lemma armed_ok w S : wheel_ok w S -> armed w = Z.of_nat (size S).
Proof.
  intros (L & M & I). rewrite (sched_size _ _ _ _ _ _ _ I). unfold armed. pose proof (iv_tomb _ _ _ _ _ _ _ I).
  assert (nodes_in_use w - tombstones w = Z.of_nat (size M)) as -> by lia. apply wrap_id. unfold in_u.
  pose proof (inv_size _ _ _ _ _ _ _ I). pose proof (iv_len _ _ _ _ _ _ _ I) as Hlen. change NIL with (2 ^ 24 - 1) in Hlen. lia.
Qed.

Lemma wheel_new_ok start nm : 0 <= start <= 2 ^ 63 -> 0 <= nm <= NIL -> wheel_ok (wheel_new start nm) ∅.
Proof.
  intros Hs Hn. exists (fun _ => []), ∅. split; try done.
  - split_and!; try done. intros t hr or Hh%get_lookup Ho%get_lookup. cbn [heads occupied wheel_new] in Hh, Ho.
    apply lookup_replicate in Hh as [-> _]. apply lookup_replicate in Ho as [-> _]. split_and!; [done|done|]. split.
    + intros j word Hw%get_lookup. by apply lookup_replicate in Hw as [-> _].
    + intros s h word H1%get_lookup H2%get_lookup. apply lookup_replicate in H1 as [-> _]. apply lookup_replicate in H2 as [-> _].
      by rewrite Z.bits_0.
  - split; try done.
    + intros [t s| | |]; cbn; try done. destruct (get2 _ t s) as [h|] eqn:E; [|done]. unfold get2 in E.
      destruct (get _ t) as [r|] eqn:Er; [|done]. cbn in E. apply get_lookup in Er. apply get_lookup in E.
      apply (lookup_replicate (Z.to_nat TIERS)) in Er as [-> _]. by apply lookup_replicate in E as [-> _].
    + by intros p q x Hx%elem_of_nil.
    + intros p. constructor.
    + intros x Hx. change (len (pool (wheel_new start nm))) with 0 in Hx. lia.
  - by intros p x h d Hx%elem_of_nil.
  - apply Member.ms_new.
Qed.

(** The outcome of a placement on the schedule. *)
Definition placed (a : Alloc) (w : TtlWheel) (S : gmap Z Z) (h d : Z) (r : Placement) (S' : gmap Z Z) : Prop :=
  match r with
  | Filed => S !! h = None /\ S' = <[h := d]> S
  | Held => S' = S /\ exists f, S !! h = Some f /\ f <= d
  | Moved => S' = <[h := d]> S /\ exists f, S !! h = Some f /\ d < f
  | Refused => S' = delete h S /\ refused a w /\ (forall f, S !! h = Some f -> d < f)
  end.

Lemma place_ok a w S h d : wheel_ok w S -> 0 <= h < 2 ^ 64 -> 0 <= d ->
  exists w' r S', place a w h d = Ok (w', r) /\ wheel_ok w' S' /\ cursor_ms w' = cursor_ms w /\
    placed a w S h (Z.min d DEADLINE_MASK) r S'.
Proof.
  intros Hw Hh Hd0. unfold place. set (d' := Z.min d DEADLINE_MASK).
  assert (Hd : 0 <= d' < 2 ^ 40) by (unfold d'; change DEADLINE_MASK with (2 ^ 40 - 1); lia). clearbody d'.
  pose proof Hw as (L & M & I). rewrite (Member.ms_lookup _ _ _ _ (iv_mem _ _ _ _ _ _ _ I) Hh). ok_step.
  destruct (M !! h) as [x|] eqn:Em.
  - destruct (inv_member _ _ _ _ _ _ _ I _ _ Em) as (n & Hn & _ & _ & HS & _). unfold pool_node. rewrite Hn. ok_step.
    destruct (Z.eqb_spec (deadline_ms n) d'), (Z.ltb_spec (deadline_ms n) d'); cbn [orb];
      try (exists w, Held, S; split_and!; [done|done|done|split; [done|exists (deadline_ms n); split; [done|lia]]]).
    destruct (unschedule_ok w S h Hw Hh) as (w1 & -> & Hw1 & Ec & Hu & Hx). ok_step. cbn [fst].
    destruct (file_new_ok a w1 (delete h S) h d' Hw1 Hh Hd (lookup_delete_eq _ _)) as (w2 & b & -> & Hw2 & Ec2 & Hb). ok_step. cbn [fst snd].
    exists w2, (if b then Moved else Refused), (if b then <[h := d']> (delete h S) else delete h S).
    split_and!; [done|done|congruence|]. destruct b; cbn [placed].
    + rewrite insert_delete_eq. split; [done|]. exists (deadline_ms n). split; [done|lia].
    + split_and!; [done| |intros f Hf; rewrite HS in Hf; injection Hf as <-; lia].
      destruct (Hb eq_refl) as [|]; [by left|right; lia].
  - pose proof (proj2 (sched_None _ _ _ _ _ _ _ h I) Em) as HS.
    destruct (file_new_ok a w S h d' Hw Hh Hd HS) as (w2 & b & -> & Hw2 & Ec2 & Hb). ok_step. cbn [fst snd].
    exists w2, (if b then Filed else Refused), (if b then <[h := d']> S else S). split_and!; [done|done|done|].
    destruct b; cbn [placed]; [done|]. rewrite delete_id by done. split_and!; [done|by apply Hb|intros f Hf; congruence].
Qed.


(** ** Walks over a detached list *)

Lemma same_nodes_trans w1 w2 w3 : same_nodes w1 w2 -> same_nodes w2 w3 -> same_nodes w1 w3.
Proof. intros (A & B & D) (A' & B' & D'). split_and!; [congruence|congruence|]. intros y. by rewrite D', D. Qed.

Lemma hand_length T e hand L M S w p : Inv T e hand L M S w -> (length (L p) <= length (pool w))%nat.
Proof.
  intros I. pose proof (iv_link _ _ _ _ _ _ _ I) as Hl. pose proof (len_nonneg (pool w)).
  assert (len (L p) <= Z.max 0 (len (pool w))); [|unfold len in *; lia].
  apply Member.bounded_NoDup; [apply Hl|]. apply Forall_forall. intros y Hy%list_elem_of_In. by eapply linked_range.
Qed.

Lemma refile_list_ok T e M S fuel : forall at_ L w, Inv T e at_ L M S w -> (forall p d, timed (cursor_ms w) p d -> T p d) ->
  (length (L Hand) <= fuel)%nat ->
  exists w' L', refile_list fuel w at_ = Ok w' /\ Inv T e NIL L' M S w' /\ same_nodes w w'.
Proof.
  induction fuel as [|fuel IH]; intros at_ L w I HT Hf; cbn [refile_list].
  all: destruct (Z.eqb_spec at_ NIL) as [-> |Hne]; [by exists w, L|].
  all: destruct (chain_cons _ _ _ Hne (lk_chain _ _ _ (iv_link _ _ _ _ _ _ _ I) Hand)) as (n & rest & Hr & Hn & _).
  { rewrite Hr in Hf. cbn in Hf. lia. }
  cbn [headf] in *. unfold pool_node. rewrite Hn. ok_step.
  destruct (file_ok T e L M S w at_ rest n (cursor_ms w) I Hr Hn eq_refl) as (w1 & -> & I1 & Hs1); [by apply HT, spot_of_timed|].
  ok_step. destruct (IH (next n) _ w1 I1) as (w' & L' & -> & I' & Hs').
  - destruct Hs1 as [-> _]. done.
  - rewrite Hr in Hf. unfold upd. rewrite decide_False; [rewrite decide_True by done; cbn in Hf; lia|].
    intros E. by destruct (spot_of_filed (cursor_ms w) (deadline_ms n)).
  - exists w', L'. split_and!; [done|done|]. by eapply same_nodes_trans.
Qed.

(** Detaching a slot's list. *)
Lemma take_ok T T' e L M S w t s : Inv T e NIL L M S w -> 0 <= t < 4 -> 0 <= s < 512 ->
  (forall p x h d, x ∈ L p -> p <> Slot t s -> p <> Free -> p <> Hand -> info (pool w) x = Some (h, d) -> T p d -> T' p d) ->
  exists w' hd, take_list w t s = Ok (w', hd) /\ same_nodes w w' /\ pool w' = pool w /\
    Inv T' e hd (upd (upd L (Slot t s) []) Hand (L (Slot t s))) M S w'.
Proof.
  intros I Ht Hs HT. destruct (take_list_ok w t s (iv_rows _ _ _ _ _ _ _ I) Ht Hs) as (w' & -> & Hp).
  pose proof (put_list_fields _ _ _ _ _ Hp) as (F1 & F2 & F3 & F4 & F5 & F6 & F7 & F8). destruct Hp as (Hr & _ & Hh).
  exists w', (headf w NIL (Slot t s)). split; [done|]. split; [unfold same_nodes; by rewrite F1|]. split; [done|].
  eapply inv_relink; [exact I|..]; rewrite ?F1; try done.
  - rewrite F7. apply I.
  - apply I.
  - apply (linked_rename (pool w) (headf w NIL) L (iv_link _ _ _ _ _ _ _ I) (Slot t s) Hand); try done.
    + by apply (hand_nil _ _ _ _ _ _ I).
    + rewrite Hh. unfold upd. by rewrite decide_True.
    + intros r H1 H2. destruct r; try done; rewrite Hh; unfold upd; by rewrite decide_False.
  - intros p x h d Hx Hp1 Hp2 Hi. unfold upd in Hx. rewrite decide_False in Hx by done. case_decide as E; [by apply elem_of_nil in Hx|].
    eapply HT; try done. by eapply (iv_time _ _ _ _ _ _ _ I).
Qed.

(** Putting the detached list back as the list of an empty slot. *)
Lemma put_back_ok T e hd L M S w t s : Inv T e hd L M S w -> 0 <= t < 4 -> 0 <= s < 512 -> L (Slot t s) = [] ->
  (forall x h d, x ∈ L Hand -> info (pool w) x = Some (h, d) -> T (Slot t s) d) ->
  exists w', set_list w t s hd = Ok w' /\ same_nodes w w' /\ Inv T e NIL (upd (upd L Hand []) (Slot t s) (L Hand)) M S w'.
Proof.
  intros I Ht Hs He HT. destruct (set_list_ok w t s hd (iv_rows _ _ _ _ _ _ _ I) Ht Hs) as (w' & -> & Hp).
  pose proof (put_list_fields _ _ _ _ _ Hp) as (F1 & F2 & F3 & F4 & F5 & F6 & F7 & F8). destruct Hp as (Hr & _ & Hh).
  exists w'. split; [done|]. split; [unfold same_nodes; by rewrite F1|].
  eapply inv_relink; [exact I|..]; rewrite ?F1; try done.
  - rewrite F7. apply I.
  - apply I.
  - apply (linked_rename (pool w) (headf w hd) L (iv_link _ _ _ _ _ _ _ I) Hand (Slot t s)); try done.
    + rewrite Hh. unfold upd. by rewrite decide_True.
    + intros r H1 H2. destruct r; try done; rewrite Hh; unfold upd; by rewrite decide_False.
  - intros p x h d Hx Hp1 Hp2 Hi. unfold upd in Hx. case_decide as E; [subst p; by eapply HT|].
    rewrite decide_False in Hx by done. by eapply (iv_time _ _ _ _ _ _ _ I).
Qed.


(** ** Cascading *)

Lemma land_tick c t : 0 <= t -> Z.land c (Z.shiftl 1 (SLOT_BITS * t) - 1) = c mod tick_of t.
Proof.
  intros. rewrite Z.shiftl_1_l. rewrite <- Z.land_ones by (unfold SLOT_BITS; lia). by rewrite Z.ones_equiv, <- Z.sub_1_r.
Qed.

Lemma inv_weaken T T' e hand L M S w : Inv T e hand L M S w ->
  (forall p x h d, x ∈ L p -> p <> Free -> p <> Hand -> info (pool w) x = Some (h, d) -> T p d -> T' p d) -> Inv T' e hand L M S w.
Proof. intros I HT. destruct I. split; try done. intros p x h d H1 H2 H3 H4. eapply HT; try done. by eapply iv_time0. Qed.

Lemma cascade_tiers_ok M S rounds : forall k L w, k + Z.of_nat rounds = 4 -> 1 <= k ->
  Inv (pending (cursor_ms w) k) 0 NIL L M S w ->
  exists w' L', cascade_tiers rounds w k = Ok w' /\ Inv (pending (cursor_ms w) 4) 0 NIL L' M S w' /\ same_nodes w w'.
Proof.
  induction rounds as [|rounds IH]; intros k L w Hk Hk1 I; cbn [cascade_tiers].
  { assert (k = 4) as -> by lia. by exists w, L. }
  rewrite land_tick by lia. set (c := cursor_ms w) in *. destruct (Z.eqb_spec (c mod tick_of k) 0) as [Hb|Hb]; cbn [negb].
  2:{ exists w, L. split_and!; [done| |done]. eapply inv_weaken; [exact I|]. intros p x h d Hx _ _ _ HP.
      apply timed_pending; [lia|]. eapply pending_idle; try done; [lia|]. intros t s ->.
      apply (inv_slot _ _ _ _ _ _ _ I) in Hx. lia. }
  rewrite slot_of_mod by lia. pose proof (Z.mod_pos_bound (c / tick_of k) 512 ltac:(lia)) as Hs.
  destruct (take_ok (pending c k) (pending c (k + 1)) 0 L M S w k ((c / tick_of k) mod 512) I) as (w1 & hd & -> & Hs1 & Hp1 & I1); [lia|done| |].
  { intros p x h d _ Hp _ _ _. by apply pending_taken. }
  ok_step. cbn [fst snd]. pose proof Hs1 as [Ec1 _].
  destruct (refile_list_ok (pending c (k + 1)) 0 M S (length (pool w1)) hd _ w1 I1) as (w2 & L2 & -> & I2 & Hs2).
  { intros p d. rewrite Ec1. apply timed_pending. lia. }
  { by eapply hand_length. }
  ok_step. pose proof (same_nodes_trans _ _ _ Hs1 Hs2) as Hs12. pose proof Hs12 as [Ec2 _].
  destruct (IH (k + 1) L2 w2) as (w3 & L3 & -> & I3 & Hs3); [lia|lia|rewrite Ec2; exact I2|].
  exists w3, L3. rewrite Ec2 in I3. split_and!; [done|exact I3|]. by eapply same_nodes_trans.
Qed.

Lemma cascade_ok M S L w : Inv (pending (cursor_ms w) 1) 0 NIL L M S w ->
  exists w' L', cascade_boundaries w = Ok w' /\ Inv (timed (cursor_ms w)) 0 NIL L' M S w' /\ same_nodes w w'.
Proof.
  intros I. unfold cascade_boundaries. destruct (cascade_tiers_ok M S 3 1 L w eq_refl ltac:(lia) I) as (w1 & L1 & -> & I1 & Hs1).
  ok_step. pose proof Hs1 as [Ec _]. set (c := cursor_ms w) in *. rewrite Ec.
  change (HORIZON_MS / SLOTS - 1) with (Z.shiftl 1 (SLOT_BITS * 3) - 1). rewrite land_tick by lia.
  assert (Hslots : forall t s x d, x ∈ L1 (Slot t s) -> pending c 4 (Slot t s) d -> timed c (Slot t s) d).
  { intros t s x d Hx. apply (inv_slot _ _ _ _ _ _ _ I1) in Hx as [Ht _]. cbn [pending]. by rewrite (proj2 (Z.ltb_lt _ _)) by lia. }
  destruct ((c mod tick_of 3 =? 0) && negb (overflow w1 =? NIL)) eqn:E.
  - set (w2 := with_overflow w1 NIL).
    assert (I2 : Inv (timed c) 0 (overflow w1) (upd (upd L1 Over []) Hand (L1 Over)) M S w2).
    { eapply (inv_relink _ _ _ _ _ _ _ I1); try done; try apply I1.
      - apply (linked_rename (pool w1) (headf w1 NIL) L1 (iv_link _ _ _ _ _ _ _ I1) Over Hand); try done.
        + by apply (hand_nil _ _ _ _ _ _ I1).
        + by intros [| | |].
      - intros p x h d Hx Hp1 Hp2 Hi. unfold upd in Hx. rewrite decide_False in Hx by done. case_decide; [by apply elem_of_nil in Hx|].
        pose proof (iv_time _ _ _ _ _ _ _ I1 p x h d Hx Hp1 Hp2 Hi) as HP. destruct p; try done. by eapply Hslots. }
    destruct (refile_list_ok (timed c) 0 M S (length (pool w1)) _ _ w2 I2) as (w3 & L3 & -> & I3 & Hs3).
    { intros p d. cbn [w2 cursor_ms with_overflow]. by rewrite Ec. }
    { by apply (hand_length _ _ _ _ _ _ _ _ I2). }
    exists w3, L3. split_and!; [done|done|]. eapply same_nodes_trans; [exact Hs1|]. done.
  - exists w1, L1. split_and!; [done| |done]. eapply inv_weaken; [exact I1|]. intros p x h d Hx Hp1 Hp2 Hi HP.
    destruct p as [t s| | |]; try done; [by eapply Hslots|]. cbn [pending timed] in *. destruct HP as [H1 H2].
    destruct (Z.eq_dec (c / tick_of 3) ((d + 1) / tick_of 3)) as [Eq|]; [|lia]. rewrite (H2 Eq), Z.eqb_refl in E. cbn [andb] in E.
    apply negb_false_iff, Z.eqb_eq in E. exfalso. pose proof (lk_chain _ _ _ (iv_link _ _ _ _ _ _ _ I1) Over) as Hc. cbn [headf] in Hc.
    rewrite E in Hc. apply chain_nil in Hc; [|pose proof (iv_len _ _ _ _ _ _ _ I1); lia]. rewrite Hc in Hx. by apply elem_of_nil in Hx.
Qed.


(** ** Moving the cursor *)

(** Every scheduled deadline is at or after the millisecond before [c]. *)
Definition fresh (c : Z) (S : gmap Z Z) : Prop := forall h d, S !! h = Some d -> c <= d + 1.

Lemma move_cursor c' L M S w : Inv (timed (cursor_ms w)) 0 NIL L M S w -> 0 <= c' <= 2 ^ 63 ->
  (forall p x h d, x ∈ L p -> p <> Free -> p <> Hand -> info (pool w) x = Some (h, d) -> timed (cursor_ms w) p d ->
     pending c' 1 p d /\ c' <= d + 1) ->
  Inv (pending c' 1) 0 NIL L M S (with_cursor w c') /\ fresh c' S.
Proof.
  intros I Hc HT. pose proof (iv_time _ _ _ _ _ _ _ I) as Ht. pose proof (iv_link _ _ _ _ _ _ _ I) as Hl. split.
  - eapply (inv_relink _ _ _ _ _ _ _ I); try done; try apply I.
    intros p x h d Hx Hp1 Hp2 Hi. eapply HT; try done. by eapply Ht.
  - intros h d HS. destruct (M !! h) as [x|] eqn:Em.
    2:{ rewrite (proj2 (sched_None _ _ _ _ _ _ _ h I) Em) in HS. done. }
    destruct (inv_member _ _ _ _ _ _ _ I _ _ Em) as (n & Hn & _ & _ & HS' & _). rewrite HS in HS'. injection HS' as ->.
    destruct (lk_cover _ _ _ Hl x (get_lt _ _ _ Hn)) as [p Hp]. pose proof (get_info _ _ _ Hn) as Hi.
    assert (p <> Free) by (intros ->; by eapply (iv_live _ _ _ _ _ _ _ I)).
    assert (p <> Hand) by (intros ->; rewrite (hand_nil _ _ _ _ _ _ I) in Hp; by apply elem_of_nil in Hp).
    eapply HT; try done. by eapply Ht.
Qed.

Lemma weak_ahead P c i : 0 < P -> c / P <= i / P -> (c / P = i / P -> c mod P = 0) -> c <= i.
Proof.
  intros HP H1 H2. pose proof (Z.div_mod c P ltac:(lia)). pose proof (Z.div_mod i P ltac:(lia)).
  pose proof (Z.mod_pos_bound c P HP). pose proof (Z.mod_pos_bound i P HP).
  destruct (Z.eq_dec (c / P) (i / P)) as [E|]; [rewrite (H2 E) in *; nia|nia].
Qed.

(** Tiers and the overflow list, no further than their next boundary. *)
Definition tier_of (p : spot) : Z := match p with Slot t _ => t | _ => 3 end.

Lemma upper_moves c c' p d : 0 <= c < c' -> 1 <= tier_of p <= 3 -> c' <= (c / tick_of (tier_of p) + 1) * tick_of (tier_of p) ->
  p <> Free -> p <> Hand -> timed c p d -> pending c' 1 p d /\ c' <= d + 1.
Proof.
  intros Hc Hp Hb H1 H2 HT. destruct p as [t s| | |]; cbn [tier_of] in *; try done.
  -     cbn [timed] in HT. rewrite (proj2 (Z.eqb_neq _ _)) in HT by lia.
    pose proof (waits_advance c c' t s d ltac:(lia) Hc Hb HT) as Hw. cbn [pending]. rewrite (proj2 (Z.ltb_ge _ _)) by lia.
    split; [done|]. destruct Hw as ((A & _) & B & _). by eapply weak_ahead; [apply (tick_pos t); lia|..].
  - pose proof (over_advance c c' d Hc Hb HT) as Hw.
    split; [done|]. destruct Hw as [A B]. by eapply weak_ahead; [apply (tick_pos 3); lia|..].
Qed.

Lemma boundary_mono c a t : 0 <= c -> 0 <= a <= t -> (c / tick_of a + 1) * tick_of a <= (c / tick_of t + 1) * tick_of t.
Proof.
  intros Hc Ha. pose proof (tick_pos a ltac:(lia)) as HP. pose proof (tick_pos (t - a) ltac:(lia)) as HQ.
  assert (tick_of t = tick_of a * tick_of (t - a)) as E.
  { rewrite <- Z.pow_add_r by (unfold SLOT_BITS; lia). f_equal. lia. }
  rewrite E, <- Z.div_div by lia. set (q := c / tick_of a). set (Q := tick_of (t - a)) in *. set (P := tick_of a) in *.
  pose proof (Z.div_mod q Q ltac:(lia)). pose proof (Z.mod_pos_bound q Q ltac:(lia)). nia.
Qed.

(** The next millisecond, once the cursor's slot is drained. *)
Lemma advance_one L M S w : let c := cursor_ms w in Inv (timed c) 0 NIL L M S w -> L (Slot 0 (c mod 512)) = [] -> c < 2 ^ 63 ->
  Inv (pending (c + 1) 1) 0 NIL L M S (with_cursor w (c + 1)) /\ fresh (c + 1) S.
Proof.
  intros c I He Hc. pose proof (iv_cur _ _ _ _ _ _ _ I) as Hc0. fold c in Hc0. apply move_cursor; [done|lia|].
  intros p x h d Hx Hp1 Hp2 _ HT. fold c in HT. destruct (Z.eq_dec (tier_of p) 0) as [E0|Hn0].
  - destruct p as [t s| | |]; cbn [tier_of] in E0; try done. subst t. assert (s <> c mod 512) by (intros ->; rewrite He in Hx; by apply elem_of_nil in Hx).
    split; [|cbn [timed Z.eqb] in HT; destruct (Z.le_gt_cases (d + 1) c); [rewrite Z.max_r in HT by lia; naive_solver|lia]].
    cbn [pending Z.ltb Z.compare]. change (timed (c + 1) (Slot 0 s) d); apply tier0_advance; [lia|done|done].
  - apply (upper_moves c); try done; [lia| |].
    + destruct p as [t s| | |]; cbn [tier_of]; try lia. apply (inv_slot _ _ _ _ _ _ _ I) in Hx as [Ht _].
      cbn [tier_of] in Hn0. lia.
    + pose proof (boundary_mono c 0 (tier_of p) ltac:(lia)) as Hm. change (tick_of 0) with 1 in Hm. rewrite Z.div_1_r in Hm.
      assert (0 <= tier_of p); [|lia]. destruct p as [t s| | |]; cbn [tier_of]; try lia. apply (inv_slot _ _ _ _ _ _ _ I) in Hx. lia.
Qed.

(** A jump of at most one boundary of tier [a], the tiers below being empty. *)
Lemma jump L M S w a c' : let c := cursor_ms w in Inv (timed c) 0 NIL L M S w -> 1 <= a <= 3 ->
  (forall t s, 0 <= t < a -> L (Slot t s) = []) -> c < c' <= 2 ^ 63 -> c' <= (c / tick_of a + 1) * tick_of a ->
  Inv (pending c' 1) 0 NIL L M S (with_cursor w c') /\ fresh c' S.
Proof.
  intros c I Ha He Hc Hb. pose proof (iv_cur _ _ _ _ _ _ _ I) as Hc0. fold c in Hc0. apply move_cursor; [done|lia|].
  assert (Hlow : forall t s x, x ∈ L (Slot t s) -> a <= t <= 3).
  { intros t s x Hx. apply (inv_slot _ _ _ _ _ _ _ I) in Hx as Ht. destruct (Z.lt_ge_cases t a); [|lia].
    rewrite He in Hx by lia. by apply elem_of_nil in Hx. }
  intros p x h d Hx Hp1 Hp2 _ HT. assert (a <= tier_of p <= 3) by (destruct p; cbn [tier_of]; try lia; by eapply Hlow).
  apply (upper_moves c); try done; [lia|lia|]. pose proof (boundary_mono c a (tier_of p) ltac:(lia) ltac:(lia)). lia.
Qed.


Lemma tier_lists T e hand L M S w t : Inv T e hand L M S w -> 0 <= t < 4 ->
  exists b, tier_occupied w t = Ok b /\ (b = false -> forall s, L (Slot t s) = []).
Proof.
  intros I Ht. destruct (tier_empty w t (iv_rows _ _ _ _ _ _ _ I) Ht) as (b & -> & Hb). exists b. split; [done|].
  intros Eb s. eapply chain_nil; [|rewrite <- (Hb Eb s hand); apply (lk_chain _ _ _ (iv_link _ _ _ _ _ _ _ I) (Slot t s))].
  pose proof (iv_len _ _ _ _ _ _ _ I). lia.
Qed.

Lemma boundary_eq c a : 0 <= c <= 2 ^ 63 -> 1 <= a <= 3 ->
  wrap 64 (Z.shiftl (Z.shiftr c (SLOT_BITS * a) + 1) (SLOT_BITS * a)) = (c / tick_of a + 1) * tick_of a.
Proof.
  intros Hc Ha. pose proof (tick_pos a ltac:(lia)) as HP. rewrite Z.shiftl_mul_pow2, Z.shiftr_div_pow2 by (unfold SLOT_BITS; lia).
  assert (tick_of a <= 2 ^ 27) by (apply Z.pow_le_mono_r; unfold SLOT_BITS; lia).
  pose proof (Z.div_mod c (tick_of a) ltac:(lia)). pose proof (Z.mod_pos_bound c (tick_of a) HP).
  pose proof (Z.div_pos c (tick_of a) ltac:(lia) HP). apply wrap_id. unfold in_u. nia.
Qed.

(** What [fast_forward] keeps of a state and its counters. *)
Definition forwarded (now : Z) (S : gmap Z Z) (c0 : Z) (st0 : TickStats) (s : TtlWheel * TickStats) : Prop :=
  let '(w, st) := s in
  wheel_ok w S /\ fresh (cursor_ms w) S /\ c0 <= cursor_ms w <= now + 1 /\
  fired st = fired st0 /\ caught_up st = caught_up st0 /\ steps st0 <= steps st <= U32_MAX.

Lemma add_step_forwarded now S c0 st0 w st w' : forwarded now S c0 st0 (w, st) -> wheel_ok w' S -> fresh (cursor_ms w') S ->
  cursor_ms w <= cursor_ms w' <= now -> forwarded now S c0 st0 (w', add_step st).
Proof.
  intros (_ & _ & Hc & Hf & Hu & Hs) Hw Hfr Hc'. unfold forwarded, add_step, sat_add32. cbn [fired caught_up steps].
  split_and!; try done; lia.
Qed.

Lemma ff_jump now S c0 st0 w st a L M (c' := Z.min (wrap 64 (Z.shiftl (Z.shiftr (cursor_ms w) (SLOT_BITS * a) + 1) (SLOT_BITS * a))) now) :
  forwarded now S c0 st0 (w, st) -> Inv (timed (cursor_ms w)) 0 NIL L M S w -> 0 <= now < 2 ^ 63 -> 1 <= a <= 3 ->
  (forall t s, 0 <= t < a -> L (Slot t s) = []) -> cursor_ms w < c' ->
  exists w', cascade_boundaries (with_cursor w c') = Ok w' /\ forwarded now S c0 st0 (w', add_step st) /\ cursor_ms w < cursor_ms w'.
Proof.
  intros HJ I Hn Ha He Hc. pose proof (iv_cur _ _ _ _ _ _ _ I) as Hc0.
  pose proof (boundary_eq (cursor_ms w) a Hc0 Ha) as Eb.
  destruct (jump L M S w a c' I Ha He) as [I1 Hfr]; [lia|unfold c'; rewrite Eb; lia|].
  destruct (cascade_ok M S L (with_cursor w c')) as (w' & L' & -> & I2 & Ec & _); [exact I1|]. cbn [cursor_ms with_cursor] in *.
  exists w'. split_and!; [done| |lia]. eapply add_step_forwarded; try done.
  - exists L', M. rewrite Ec. exact I2.
  - rewrite Ec. done.
  - rewrite Ec. unfold c' in *. lia.
Qed.

Lemma ff_step_ok now S c0 st0 w st : 0 <= now < 2 ^ 63 -> forwarded now S c0 st0 (w, st) ->
  exists r, fast_forward_step now (w, st) = Ok r /\
    match r with inl s => forwarded now S c0 st0 s /\ cursor_ms w < cursor_ms (fst s) | inr s => forwarded now S c0 st0 s end.
Proof.
  intros Hn HJ. pose proof HJ as ((L & M & I) & _ & Hc & _). unfold fast_forward_step.
  destruct (tier_lists _ _ _ _ _ _ _ 0 I ltac:(lia)) as (o0 & -> & E0). ok_step.
  destruct ((now <? cursor_ms w) || o0) eqn:Ex; [by exists (inr (w, st))|].
  apply orb_false_iff in Ex as [Hlt%Z.ltb_ge ->]. specialize (E0 eq_refl).
  destruct (tier_lists _ _ _ _ _ _ _ 1 I ltac:(lia)) as (o1 & -> & E1). ok_step.
  destruct (tier_lists _ _ _ _ _ _ _ 2 I ltac:(lia)) as (o2 & -> & E2). ok_step.
  destruct (tier_lists _ _ _ _ _ _ _ 3 I ltac:(lia)) as (o3 & -> & E3). ok_step.
  assert (Hjump : forall a, 1 <= a <= 3 -> (forall t s, 0 <= t < a -> L (Slot t s) = []) ->
    exists r, (if Z.min (wrap 64 (Z.shiftl (Z.shiftr (cursor_ms w) (SLOT_BITS * a) + 1) (SLOT_BITS * a))) now <=? cursor_ms w
      then mret (inr (w, st))
      else w ← cascade_boundaries (with_cursor w (Z.min (wrap 64 (Z.shiftl (Z.shiftr (cursor_ms w) (SLOT_BITS * a) + 1) (SLOT_BITS * a))) now));
           mret (inl (w, add_step st))) = @Ok False _ r /\
      match r with inl s => forwarded now S c0 st0 s /\ cursor_ms w < cursor_ms (fst s) | inr s => forwarded now S c0 st0 s end).
  { intros a Ha He. destruct (Z.leb_spec (Z.min (wrap 64 (Z.shiftl (Z.shiftr (cursor_ms w) (SLOT_BITS * a) + 1) (SLOT_BITS * a))) now) (cursor_ms w)).
    - by exists (inr (w, st)).
    - destruct (ff_jump now S c0 st0 w st a L M HJ I Hn Ha He ltac:(lia)) as (w' & -> & HJ' & Hc'). ok_step. by exists (inl (w', add_step st)). }
  destruct o1; [apply (Hjump 1); [lia|intros t s Ht; assert (t = 0) as -> by lia; apply E0]|]. specialize (E1 eq_refl).
  destruct o2; [apply (Hjump 2); [lia|intros t s Ht; assert (t = 0 \/ t = 1) as [-> | ->] by lia; done]|]. specialize (E2 eq_refl).
  destruct (o3 || negb (overflow w =? NIL)) eqn:Eo.
  { apply (Hjump 3); [lia|intros t s Ht; assert (t = 0 \/ t = 1 \/ t = 2) as [-> |[-> | ->]] by lia; done]. }
  apply orb_false_iff in Eo as [-> Eo%negb_false_iff%Z.eqb_eq]. specialize (E3 eq_refl).
  destruct (Z.ltb_spec (cursor_ms w) now); [|by exists (inr (w, st))]. exists (inr (with_cursor w now, add_step st)). split; [done|].
  assert (Hnone : forall p x, x ∈ L p -> p <> Free -> p <> Hand -> False).
  { intros p x Hx H1 H2. pose proof (iv_len _ _ _ _ _ _ _ I). destruct p as [t s| | |]; try done.
    - pose proof (proj1 (inv_slot _ _ _ _ _ _ _ I x t s Hx)).
      assert (L (Slot t s) = []) as E by (assert (t = 0 \/ t = 1 \/ t = 2 \/ t = 3) as [-> |[-> |[-> | ->]]] by lia; done).
      rewrite E in Hx. by apply elem_of_nil in Hx.
    - pose proof (lk_chain _ _ _ (iv_link _ _ _ _ _ _ _ I) Over) as Hch. cbn [headf] in Hch. rewrite Eo in Hch.
      apply chain_nil in Hch; [|lia]. rewrite Hch in Hx. by apply elem_of_nil in Hx. }
  destruct (move_cursor now L M S w I) as [I1 Hfr]; [lia|intros p x h d Hx H1 H2; by destruct (Hnone p x)|].
  eapply add_step_forwarded; try done; cbn [cursor_ms with_cursor]; try lia. exists L, M. eapply inv_weaken; [exact I1|].
  intros p x h d Hx H1 H2. by destruct (Hnone p x).
Qed.

Lemma fast_forward_ok now S w st : 0 <= now < 2 ^ 63 -> forwarded now S (cursor_ms w) st (w, st) ->
  exists s, fast_forward w now st = Ok s /\ forwarded now S (cursor_ms w) st s.
Proof.
  intros Hn HJ. unfold fast_forward.
  apply (loop_rule (forwarded now S (cursor_ms w) st) _ (fun s => now + 1 - cursor_ms (fst s))); [|done|cbn; lia].
  intros [w1 st1] HJ1. split; [destruct HJ1 as (_ & _ & ? & _); cbn; lia|].
  destruct (ff_step_ok now S (cursor_ms w) st w1 st1 Hn HJ1) as (r & -> & Hr). exists r. split; [done|].
  destruct r as [s|s]; [|done]. destruct Hr. split; [done|cbn [fst] in *; lia].
Qed.


(** ** Draining and ticking *)

(** A re-filed node, still in hand, takes its new deadline. *)
Lemma inv_deadline T e L M S w x rest n d : Inv T e x L M S w -> L Hand = x :: rest -> get (pool w) x = Some n ->
  M !! hash n = Some x -> 0 <= d < 2 ^ 40 ->
  let w' := with_pool w (<[Z.to_nat x := set_deadline n d]> (pool w)) in
  Inv T e x L M (<[hash n := d]> S) w' /\ get (pool w') x = Some (set_deadline n d) /\
  (forall y, y <> x -> info (pool w') y = info (pool w) y).
Proof.
  intros I Hh Hn Hm Hd w'. pose proof (iv_link _ _ _ _ _ _ _ I) as Hl. pose proof (get_lt _ _ _ Hn) as Hx.
  assert (Hxh : x ∈ L Hand) by (rewrite Hh; left).
  destruct (inv_get _ _ _ _ _ _ _ I x Hand Hxh) as (n0 & G & Hok & Hxr & _). assert (n0 = n) as -> by congruence.
  destruct (Member.set_deadline_ok n d Hok Hd) as (Hok' & Eh & Ed & En).
  assert (Hg : get (pool w') x = Some (set_deadline n d)) by (cbn [pool w' with_pool]; rewrite get_insert by lia; by rewrite Z.eqb_refl).
  assert (Hi : forall y, y <> x -> info (pool w') y = info (pool w) y) by (intros y Hy; by apply info_other).
  assert (Hhash : forall y, hash_of (pool w') y = hash_of (pool w) y).
  { intros y. rewrite !info_hash. destruct (Z.eq_dec y x) as [-> |Hy]; [|by rewrite Hi].
    rewrite (get_info _ _ _ Hg), (get_info _ _ _ Hn). cbn [fmap option_fmap option_map fst]. by rewrite Eh. }
  split_and!; [|done|done]. destruct I. split; try done; cbn [pool nodes_max w' with_pool members cursor_ms nodes_in_use tombstones].
  - by rewrite len_insert.
  - by apply Forall_insert.
  - eapply (linked_frame _ _ _ Hl); [by rewrite len_insert| |by intros [| | |]|done]. intros y.
    destruct (Z.eq_dec y x) as [-> |Hy]; [|by apply next_insert]. rewrite get_insert by lia. rewrite Z.eqb_refl, Hn.
    cbn [fmap option_fmap option_map]. by rewrite En.
  - intros p y h d' Hy Hp1 Hp2 Hyi. assert (y <> x) by (intros ->; by pose proof (lk_disj _ _ _ Hl _ _ _ Hy Hxh)).
    change (info (pool w') y = Some (h, d')) in Hyi. rewrite Hi in Hyi by done. by eapply iv_time0.
  - eapply Member.ms_frame; [done|]. intros h y _. apply Hhash.
  - intros h. change (<[hash n := d]> S !! h = M !! h ≫= fun y => snd <$> info (pool w') y).
    destruct (decide (h = hash n)) as [-> |Hne].
    + rewrite lookup_insert_eq, Hm. cbn [mbind option_bind]. rewrite (get_info _ _ _ Hg). cbn [fmap option_fmap option_map snd]. by rewrite Ed.
    + rewrite lookup_insert_ne by done. rewrite iv_sched0. destruct (M !! h) as [y|] eqn:Ey; [|done]. cbn [mbind option_bind].
      rewrite Hi; [done|]. intros ->. destruct (Member.ms_fits (R := R) _ _ _ _ _ iv_mem0 Ey) as (_ & E1 & _).
      destruct (Member.ms_fits (R := R) _ _ _ _ _ iv_mem0 Hm) as (_ & E2 & _). congruence.
  - by rewrite len_insert.
Qed.

Lemma not_due_slot c s d : c <= d -> timed c (Slot 0 s) d -> s <> c mod 512.
Proof.
  intros Hd. cbn [timed Z.eqb]. rewrite Z.max_l by lia. intros [H1 ->] E.
  pose proof (Z.div_mod (d + 1) 512 ltac:(lia)). pose proof (Z.div_mod c 512 ltac:(lia)). nia.
Qed.

Lemma due_slot c d : timed c (Slot 0 (c mod 512)) d -> d < c.
Proof.
  cbn [timed Z.eqb]. intros [H1 E]. destruct (Z.le_gt_cases (d + 1) c); [lia|]. rewrite Z.max_l in * by lia.
  pose proof (Z.div_mod (d + 1) 512 ltac:(lia)). pose proof (Z.div_mod c 512 ltac:(lia)). nia.
Qed.

Section Fire.
Context {F : Type} (fire : F -> Due -> FireNext * F) (now : Z).

(** A fire's answer, applied to the schedule. *)
Definition settled (a : FireNext) (h : Z) (S : gmap Z Z) : gmap Z Z :=
  match a with Refile d => <[h := d]> S | Release | ReleaseOwe => delete h S end.

(** [k] fires in a row, each of an entry whose deadline has passed. *)
Inductive fires : nat -> gmap Z Z -> F -> gmap Z Z -> F -> Prop :=
| fires_nil S f : fires 0 S f S f
| fires_snoc k S f S1 f1 h d a f2 : fires k S f S1 f1 -> S1 !! h = Some d -> d < now -> fire f1 (mkDue h d) = (a, f2) ->
    fires (Datatypes.S k) S f (settled a h S1) f2.

(** The store re-files only at a later deadline a node can hold. *)
Hypothesis refiles_later : forall f due d f', fire f due = (Refile d, f') -> now <= d <= DEADLINE_MASK.
Hypothesis now_range : 0 <= now < 2 ^ 63.

(** The state of the drain of slot [s] at cursor [c]: what is in hand is due,
    and the slot is empty. *)
Definition draining (c s : Z) (at_ : Z) (L : spot -> list Z) (M S : gmap Z Z) (w : TtlWheel) : Prop :=
  Inv (timed c) 0 at_ L M S w /\ cursor_ms w = c /\ L (Slot 0 s) = [] /\
  forall x h d, x ∈ L Hand -> info (pool w) x = Some (h, d) -> d < c.

Lemma draining_step c s at_ L M S w rest p x l M' S' w' : draining c s at_ L M S w -> L Hand = x :: rest -> p <> Hand -> p <> Slot 0 s ->
  forall at', Inv (timed c) 0 at' (upd (upd L Hand rest) p l) M' S' w' -> cursor_ms w' = c ->
  (forall y, y <> x -> info (pool w') y = info (pool w) y) ->
  draining c s at' (upd (upd L Hand rest) p l) M' S' w'.
Proof.
  intros (I & Ec & He & Hd) Hh Hp1 Hp2 at' I' Ec' Hi.
  assert (Hhand : upd (upd L Hand rest) p l Hand = rest) by (unfold upd; rewrite decide_False by done; by rewrite decide_True).
  split_and!; [done|done| |].
  - unfold upd. rewrite decide_False by done. by rewrite decide_False.
  - rewrite Hhand. intros y h d Hy Hyi. assert (y <> x).
    { intros ->. pose proof (lk_nodup _ _ _ (iv_link _ _ _ _ _ _ _ I) Hand) as Hnd. rewrite Hh in Hnd.
      apply list.NoDup_cons in Hnd as [Hnd _]. done. }
    rewrite Hi in Hyi by done. eapply Hd; [|done]. rewrite Hh. by right.
Qed.

Lemma settle_ok c s at_ L M S w rest n a st f f' : draining c s at_ L M S w -> s = c mod 512 -> c <= now -> L Hand = at_ :: rest ->
  get (pool w) at_ = Some n -> M !! hash n = Some at_ -> fire f (mkDue (hash n) (deadline_ms n)) = (a, f') ->
  exists w' st' L' M', settle w at_ a now st = Ok (w', st') /\ draining c s (next n) L' M' (settled a (hash n) S) w' /\
    L' Hand = rest /\ fired st' = fired st /\ steps st' = steps st /\ caught_up st' = caught_up st.
Proof.
  intros HD Es Hc Hh Hn Hm Hf. pose proof HD as (I & Ec & He & Hd). unfold settle.
  assert (Hrel : exists w', release_member w at_ = Ok w' /\
    draining c s (next n) (upd (upd L Hand rest) Free (at_ :: L Free)) (delete (hash n) M) (delete (hash n) S) w').
  { destruct (release_member_ok _ L M S w at_ rest n I Hh Hn Hm) as (w' & -> & I' & Ec' & _ & Hi). exists w'. split; [done|].
    eapply draining_step; try done. congruence. }
  assert (Hhand : forall p l, p <> Hand -> upd (upd L Hand rest) p l Hand = rest)
    by (intros p l Hp; unfold upd; rewrite decide_False by done; by rewrite decide_True).
  destruct a as [d| |].
  - destruct (refiles_later _ _ _ _ Hf) as [Hd1 Hd2]. rewrite Z.min_l by done. change DEADLINE_MASK with (2 ^ 40 - 1) in Hd2.
    destruct (inv_deadline _ _ L M S w at_ rest n d I Hh Hn Hm) as (I1 & Hg1 & Hi1); [lia|].
    assert (Hok : node_ok n).
    { destruct (inv_get _ _ _ _ _ _ _ I at_ Hand) as (n0 & G & ? & _); [rewrite Hh; left|]. congruence. }
    destruct (Member.set_deadline_ok n d Hok ltac:(lia)) as (_ & _ & Ed & En).
    unfold pool_node. rewrite Hn. ok_step. unfold put_node. rewrite set_at_Ok by (by eapply get_lt). ok_step.
    destruct (file_ok (timed c) 0 L M _ _ at_ rest (set_deadline n d) (wrap 64 (now + 1)) I1 Hh Hg1) as (w' & Hfile & I2 & Ec2 & _ & Hi2).
    { rewrite Ed, wrap_id by (unfold in_u; lia). cbn [cursor_ms with_pool]. lia. }
    { cbn [cursor_ms with_pool]. rewrite Ec, Ed. apply spot_of_timed. }
    rewrite Hfile. ok_step. rewrite Ed, En in I2. cbn [cursor_ms with_pool] in *. rewrite Ec in *.
    eexists w', _, _, M. split; [done|]. split; [|split; [apply Hhand, spot_of_filed|done]].
    eapply draining_step; try done.
    + apply spot_of_filed.
    + intros E. pose proof (spot_of_timed c d) as HT. rewrite E in HT. apply not_due_slot in HT; [congruence|lia].
    + intros y Hy. rewrite Hi2. by apply Hi1.
  - destruct Hrel as (w' & -> & HD'). ok_step. eexists w', _, _, _. split; [done|]. split; [exact HD'|]. split; [by apply Hhand|done].
  - destruct Hrel as (w' & -> & HD'). ok_step. eexists w', _, _, _. split; [done|]. split; [exact HD'|]. split; [by apply Hhand|done].
Qed.

(** [st] counts the fires from [S0] and [f0] to [S] and [f]. *)
Definition ran (S0 : gmap Z Z) (f0 : F) (st : TickStats) (S : gmap Z Z) (f : F) : Prop :=
  exists k, fires k S0 f0 S f /\ fired st = Z.of_nat k.

Definition drained (c s max : Z) (S0 : gmap Z Z) (f0 : F) (st : TickStats) (r : TtlWheel * TickStats * F * Drain) : Prop :=
  let '(w', st', f', dr) := r in
  exists L M S, Inv (timed c) 0 NIL L M S w' /\ cursor_ms w' = c /\ ran S0 f0 st' S f' /\ fired st' <= max /\
    steps st' = steps st /\ caught_up st' = caught_up st /\
    match dr with Done => L (Slot 0 s) = [] | Cut => max <= fired st' end.

Lemma drain_loop_ok c max S0 f0 (s := c mod 512) : c <= now -> max <= U32_MAX -> forall fuel at_ L M S w st f,
  draining c s at_ L M S w -> (length (L Hand) <= fuel)%nat -> ran S0 f0 st S f -> fired st <= max ->
  exists r, drain_loop fire fuel now max s w at_ NIL st f = Ok r /\ drained c s max S0 f0 st r.
Proof.
  intros Hc Hmax. induction fuel as [|fuel IH]; intros at_ L M S w st f HD Hf Hran Hfm; cbn [drain_loop];
    pose proof HD as (I & Ec & He & Hd); pose proof (Z.mod_pos_bound c 512 ltac:(lia)) as Hs; fold s in Hs.
  all: destruct (Z.eqb_spec at_ NIL) as [-> |Hne].
  1, 3: destruct (put_back_ok (timed c) 0 NIL L M S w 0 s I ltac:(lia) Hs He) as (w' & -> & (Ec' & _) & I');
    [intros x h d Hx; rewrite (hand_nil _ _ _ _ _ _ I) in Hx; by apply elem_of_nil in Hx|]; ok_step; eexists; split; [done|];
    eexists _, M, S; split_and!; [exact I'|congruence|done|done|done|done|]; unfold upd; rewrite decide_True by done; by apply (hand_nil _ _ _ _ _ _ I).
  all: destruct (chain_cons _ _ _ Hne (lk_chain _ _ _ (iv_link _ _ _ _ _ _ _ I) Hand)) as (n & rest & Hr & Hn & _).
  { rewrite Hr in Hf. cbn in Hf. lia. }
  cbn [headf] in *. assert (Hat : at_ ∈ L Hand) by (rewrite Hr; left). pose proof (Hd _ _ _ Hat (get_info _ _ _ Hn)) as Hdue.
  destruct (Z.leb_spec max (fired st)) as [Hcut|Hgo].
  { assert (splice (length (pool w)) w NIL at_ = Ok (w, at_)) as -> by (by destruct (length (pool w))). ok_step. cbn [fst snd].
    destruct (put_back_ok (timed c) 0 at_ L M S w 0 s I ltac:(lia) Hs He) as (w' & -> & (Ec' & _) & I').
    { intros x h d Hx Hi. pose proof (Hd _ _ _ Hx Hi). cbn [timed Z.eqb]. rewrite Z.max_r by lia. split; [lia|done]. }
    ok_step. eexists. split; [done|]. eexists _, M, S. split_and!; [exact I'|congruence|done|done|done|done|lia]. }
  unfold pool_node. rewrite Hn. ok_step. rewrite (proj2 (Z.leb_gt _ _)) by lia.
  assert (Hok : node_ok n) by (destruct (inv_get _ _ _ _ _ _ _ I at_ Hand Hat) as (? & ? & ? & _); congruence).
  rewrite (Member.ms_lookup _ _ _ _ (iv_mem _ _ _ _ _ _ _ I) (proj1 Hok)). ok_step.
  assert (Hrest : (length rest <= fuel)%nat) by (rewrite Hr in Hf; cbn in Hf; lia).
  case_bool_decide as Em.
  - destruct (free_tombstone_ok _ L M S w at_ rest n I Hr Hn) as (w' & -> & I' & Ec' & _ & Hi).
    { intros g Hg. destruct (inv_member _ _ _ _ _ _ _ I _ _ Hg) as (n' & G & Eh & _). apply Em. congruence. }
    ok_step. refine (IH _ (upd (upd L Hand rest) Free (at_ :: L Free)) M S w' st f _ _ Hran Hfm); [|exact Hrest].
    refine (draining_step c s at_ L M S w rest Free at_ _ M S w' HD Hr _ _ _ I' _ _); [done|discriminate|congruence|intros y _; apply Hi].
  - destruct (fire f (mkDue (hash n) (deadline_ms n))) as [a f'] eqn:Efire.
    destruct Hran as (k & Hk & Ek). rewrite wrap_id by (unfold in_u; unfold U32_MAX in Hmax; lia).
    destruct (settle_ok c s at_ L M S w rest n a (mkStats (fired st + 1) (steps st) (caught_up st) (refiled st) (owed st)) f f' HD)
      as (w' & st' & L' & M' & -> & HD' & HL & F1 & F2 & F3); try done. ok_step. cbn [fst snd fired steps caught_up] in *.
    assert (HS : S !! hash n = Some (deadline_ms n)).
    { destruct (inv_member _ _ _ _ _ _ _ I _ _ Em) as (n' & G & _ & _ & HS & _). congruence. }
    destruct (IH (next n) L' M' (settled a (hash n) S) w' st' f' HD') as (r & -> & HR).
    + by rewrite HL.
    + exists (Datatypes.S k). split; [|lia]. eapply fires_snoc; try done. lia.
    + lia.
    + exists r. split; [done|]. destruct r as [[[w2 st2] f2] dr]. destruct HR as (L2 & M2 & S2 & A & B & D & E & G1 & G2 & G3).
      exists L2, M2, S2. split_and!; try done; congruence.
Qed.

Lemma drain_slot_ok max S0 f0 S w st f : wheel_ok w S -> cursor_ms w <= now -> max <= U32_MAX -> ran S0 f0 st S f -> fired st <= max ->
  exists r, drain_slot fire w now max st f = Ok r /\ drained (cursor_ms w) (cursor_ms w mod 512) max S0 f0 st r.
Proof.
  intros (L & M & I) Hc Hmax Hran Hf. unfold drain_slot. set (c := cursor_ms w) in *.
  assert (Z.land c (SLOTS - 1) = c mod 512) as -> by (change (SLOTS - 1) with (Z.ones 9); by rewrite Z.land_ones by lia).
  pose proof (Z.mod_pos_bound c 512 ltac:(lia)) as Hs.
  destruct (take_ok (timed c) (timed c) 0 L M S w 0 (c mod 512) I ltac:(lia) Hs) as (w1 & hd & -> & (Ec & _ & Hi) & Ep & I1); [done|].
  ok_step. cbn [fst snd]. rewrite <- Ep. eapply drain_loop_ok; try done; [|by eapply hand_length].
  split_and!; [exact I1|done|unfold upd; rewrite decide_False by done; by rewrite decide_True|].
  intros x h d Hx Hxi. unfold upd in Hx. rewrite decide_True in Hx by done. rewrite Hi in Hxi.
  apply due_slot. by eapply (iv_time _ _ _ _ _ _ _ I).
Qed.

(** The states of a tick that started at cursor [c0] with schedule [S0]. *)
Definition ticking (b : ExpiryBudget) (c0 : Z) (S0 : gmap Z Z) (f0 : F) (s : TtlWheel * TickStats * F) : Prop :=
  let '(w, st, f) := s in
  exists S, wheel_ok w S /\ ran S0 f0 st S f /\ fired st <= max_fires b /\ c0 <= cursor_ms w <= Z.max c0 (now + 1) /\
    caught_up st = false /\ 0 <= steps st <= U32_MAX /\ (0 < steps st -> c0 < cursor_ms w) /\ (c0 < cursor_ms w -> fresh (cursor_ms w) S).

(** What a tick returns: the fires it made, and why it stopped. *)
Definition ticked (b : ExpiryBudget) (c0 : Z) (S0 : gmap Z Z) (f0 : F) (s : TtlWheel * TickStats * F) : Prop :=
  let '(w, st, f) := s in
  exists S, wheel_ok w S /\ ran S0 f0 st S f /\ fired st <= max_fires b /\ c0 <= cursor_ms w <= Z.max c0 (now + 1) /\
    if caught_up st then now < cursor_ms w /\ (c0 <= now -> forall h d, S !! h = Some d -> now <= d)
    else max_fires b <= fired st \/ (max_steps b <= steps st /\ (0 < steps st -> c0 < cursor_ms w)).

Lemma tick_step_ok b c0 S0 f0 w st f : max_fires b <= U32_MAX -> max_steps b <= U32_MAX -> ticking b c0 S0 f0 (w, st, f) ->
  exists r, tick_step fire now b (w, st, f) = Ok r /\
    match r with
    | inl s => ticking b c0 S0 f0 s /\ Z.max c0 (now + 1) - cursor_ms (fst (fst s)) < Z.max c0 (now + 1) - cursor_ms w
    | inr s => ticked b c0 S0 f0 s
    end.
Proof.
  intros Hb1 Hb2 (S & Hw & Hran & Hf & Hc & Hu & Hs & Hadv & Hfr). unfold tick_step.
  destruct (Z.leb_spec (cursor_ms w) now) as [Hle|Hgt]; cbn [negb].
  2:{ eexists. split; [done|]. exists S. cbn [fired caught_up]. split_and!; try done; try lia.
      intros Hc0 h d HS. pose proof (Hfr ltac:(lia) h d HS). lia. }
  destruct (Z.leb_spec (max_fires b) (fired st)) as [Hx|Hx]; cbn [orb].
  { eexists. split; [done|]. exists S. rewrite Hu. split_and!; try done; try lia. }
  destruct (Z.leb_spec (max_steps b) (steps st)) as [Hy|Hy].
  { eexists. split; [done|]. exists S. rewrite Hu. split_and!; try done; try lia. }
  destruct (drain_slot_ok (max_fires b) S0 f0 S w st f Hw Hle Hb1 Hran Hf) as (r & -> & HD). ok_step.
  destruct r as [[[w1 st1] f1] dr]. destruct HD as (L1 & M1 & S1 & I1 & Ec1 & Hran1 & Hf1 & Est & Ecu & Hdr).
  destruct dr; cbn [fst snd].
  2:{ eexists. split; [done|]. exists S1. rewrite Ecu, Hu. split_and!; try done; try lia.
      exists L1, M1. rewrite Ec1. exact I1. }
  set (c := cursor_ms w) in *. pose proof (iv_cur _ _ _ _ _ _ _ I1). rewrite Ec1.
  rewrite (wrap_id 64), (wrap_id 32) by (unfold in_u; unfold U32_MAX in *; lia). rewrite <- Ec1 in I1, Hdr.
  destruct (advance_one L1 M1 S1 w1 I1 Hdr) as [I2 Hfr2]; [lia|]. rewrite Ec1 in I2, Hfr2.
  destruct (cascade_ok M1 S1 L1 (with_cursor w1 (c + 1)) I2) as (w2 & L2 & -> & I3 & Ec2 & _). ok_step. cbn [cursor_ms with_cursor] in *.
  destruct (fast_forward_ok now S1 w2 (mkStats (fired st1) (steps st1 + 1) (caught_up st1) (refiled st1) (owed st1)) now_range)
    as ([w3 st3] & -> & HF).
  { unfold forwarded. cbn [fired caught_up steps]. rewrite Ec2. split_and!; try done; try lia.
    exists L2, M1. rewrite Ec2. exact I3. }
  ok_step. eexists. split; [done|]. destruct HF as (Hw3 & Hfr3 & Hc3 & Hf3 & Hu3 & Hs3). cbn [fired caught_up steps] in *. rewrite Ec2 in Hc3.
  split; [|cbn [fst]; lia]. exists S1. split_and!; try done; try lia; try congruence.
  destruct Hran1 as (k & Hk & Ek). exists k. split; [done|congruence].
Qed.

Lemma tick_ok b S0 f0 w : max_fires b <= U32_MAX -> max_steps b <= U32_MAX -> 0 <= max_fires b -> wheel_ok w S0 ->
  exists r, tick fire w now b f0 = Ok r /\ ticked b (cursor_ms w) S0 f0 r.
Proof.
  intros Hb1 Hb2 Hb0 Hw. unfold tick. set (c0 := cursor_ms w).
  apply (loop_rule (ticking b c0 S0 f0) _ (fun s => Z.max c0 (now + 1) - cursor_ms (fst (fst s)))).
  - intros [[w1 st1] f1] HJ. split; [destruct HJ as (S & _ & _ & _ & ? & _); cbn [fst]; lia|].
    destruct (tick_step_ok b c0 S0 f0 w1 st1 f1 Hb1 Hb2 HJ) as (r & -> & Hr). by exists r.
  - exists S0. cbn [stats_default fired caught_up steps]. fold c0. split_and!; try done; try lia. exists O. split; [constructor|done].
  - cbn [fst]. fold c0. lia.
Qed.

(** ** Slices *)

(** Overdue entries. *)
Definition overdue (S : gmap Z Z) : Z := Z.of_nat (size (filter (fun e => e.2 < now) S)).

Lemma overdue_settled a h d S f f' : S !! h = Some d -> d < now -> fire f (mkDue h d) = (a, f') ->
  overdue (settled a h S) = overdue S - 1.
Proof.
  intros Hh Hd Hf. unfold overdue.
  assert (filter (fun e => e.2 < now) (settled a h S) = delete h (filter (fun e => e.2 < now) S)) as ->.
  { destruct a as [d'| |]; cbn [settled]; try apply map_filter_delete.
    rewrite map_filter_insert_False; [by rewrite map_filter_delete|]. cbn. destruct (refiles_later _ _ _ _ Hf). lia. }
  assert (Hin : filter (fun e => e.2 < now) S !! h = Some d) by (apply map_lookup_filter_Some_2; [done|cbn; lia]).
  rewrite map_size_delete_Some by (by eexists). assert (size (filter (fun e => e.2 < now) S) <> O); [|lia].
  intros E%map_size_empty_inv. by rewrite E in Hin.
Qed.

Lemma fires_overdue k S f S' f' : fires k S f S' f' -> overdue S' + Z.of_nat k = overdue S.
Proof.
  induction 1 as [|k S f S1 f1 h d a f2 _ IH Hh Hd Hf]; [lia|]. rewrite (overdue_settled a h d S1 f1 f2 Hh Hd Hf). lia.
Qed.

(** Ticks at one instant until one reports it caught up, at most [n + 1]. *)
Fixpoint slices (n : nat) (w : TtlWheel) (b : ExpiryBudget) (f : F) : panics (TtlWheel * TickStats * F) :=
  r ← tick fire w now b f;
  let '(w, st, f) := r in
  match n with
  | O => mret r
  | Datatypes.S n => if caught_up st then mret r else slices n w b f
  end.

Lemma slices_ok b n : 1 <= max_fires b <= U32_MAX -> 1 <= max_steps b <= U32_MAX -> forall w S f, wheel_ok w S ->
  overdue S + Z.max 0 (now + 1 - cursor_ms w) <= Z.of_nat n ->
  exists w' st f' S', slices n w b f = Ok (w', st, f') /\ caught_up st = true /\ wheel_ok w' S' /\ now < cursor_ms w'.
Proof.
  intros Hb1 Hb2. induction n as [|n IH]; intros w S f Hw Hn; cbn [slices].
  all: destruct (tick_ok b S f w ltac:(lia) ltac:(lia) ltac:(lia) Hw) as ([[w1 st1] f1] & -> & S1 & Hw1 & (k & Hk & Ek) & Hf1 & Hc1 & Hq); ok_step.
  all: pose proof (fires_overdue _ _ _ _ _ Hk) as Ho; assert (0 <= overdue S1) by (unfold overdue; lia).
  - exists w1, st1, f1, S1. destruct (caught_up st1); [by destruct Hq|]. destruct Hq as [|[? ?]]; lia.
  - destruct (caught_up st1) eqn:Eu; [exists w1, st1, f1, S1; by destruct Hq|].
    apply (IH w1 S1 f1 Hw1). destruct Hq as [|[? ?]]; lia.
Qed.

End Fire.
End Wheels.

(** ** Theorems *)

#[local] Existing Instance Member.members_spec.

Notation holds_schedule := (wheel_ok (R := Member.members_ok)).

(** C12. The wheel is a map from key hashes to deadlines. A new wheel is empty.
    From there on, whatever the allocator answers and without a panic: the node
    of a hash carries the deadline scheduled for it and the live count is the
    number of scheduled hashes; a placement schedules the hash at its deadline,
    keeps an earlier one, or is refused because the allocator or the node budget
    refused, and then the hash has no node; a removal unschedules exactly its
    hash and says whether it had a node. *)
Theorem wheel_is_a_schedule w S h : holds_schedule w S -> 0 <= h < 2 ^ 64 ->
  (forall start nm, 0 <= start <= 2 ^ 63 -> 0 <= nm <= NIL -> holds_schedule (wheel_new start nm) ∅) /\
  node_deadline w h = Ok (S !! h) /\ armed w = Z.of_nat (size S) /\
  (forall a d, 0 <= d -> exists w' r S', place a w h d = Ok (w', r) /\ holds_schedule w' S' /\
     placed a w S h (Z.min d DEADLINE_MASK) r S') /\
  (exists w', remove w h = Ok (w', bool_decide (is_Some (S !! h))) /\ holds_schedule w' (delete h S)).
Proof.
  intros Hw Hh. split_and!; [intros; by apply wheel_new_ok|by apply node_deadline_ok|by apply armed_ok| |].
  - intros a d Hd. destruct (place_ok a w S h d Hw Hh Hd) as (w' & r & S' & H1 & H2 & _ & H3). by exists w', r, S'.
  - destruct (unschedule_ok w S h Hw Hh) as (w' & H1 & H2 & _). by exists w'.
Qed.

Definition granted : Alloc := mkAlloc true true true.

Lemma first_placement_filed w' r S' : placed granted (wheel_new 5 8) ∅ 77 1000 r S' -> place granted (wheel_new 5 8) 77 1000 = Ok (w', r) ->
  S' = {[77 := 1000]}.
Proof.
  intros Hp _. destruct r; cbn [placed] in Hp.
  - by destruct Hp.
  - by destruct Hp as [_ (f & Hf & _)].
  - by destruct Hp as [_ (f & Hf & _)].
  - destruct Hp as (_ & [Hr|Hr] & _); [done|]. cbn in Hr. lia.
Qed.

Lemma wheel_is_a_schedule_witness : exists w, holds_schedule w {[77 := 1000]} /\ node_deadline w 77 = Ok (Some 1000) /\ armed w = 1.
Proof.
  destruct (wheel_is_a_schedule (wheel_new 5 8) ∅ 77) as (_ & _ & _ & Hp & _); [apply wheel_new_ok; done|done|].
  destruct (Hp granted 1000 ltac:(done)) as (w1 & r & S1 & E1 & H1 & H2). rewrite (first_placement_filed _ _ _ H2 E1) in H1.
  destruct (wheel_is_a_schedule w1 _ 77 H1 ltac:(done)) as (_ & Hn & Ha & _). by exists w1.
Defined.

(** C11. A tick returns, whatever the callback answers within its contract (a
    re-file names a later deadline a node can hold). It fires, one after the
    other and within the fire budget, entries of the schedule whose deadline has
    passed, each answer settling its entry; nothing else changes. When it
    reports it caught up, the cursor is past [now] and, if it was not past [now]
    before the tick, no overdue entry remains (a tick at an instant already passed
    returns at once and leaves what was filed behind the cursor since); otherwise a
    budget was used up. *)
Theorem tick_fires_overdue {F} (fire : F -> Due -> FireNext * F) now b w S f :
  (forall f due d f', fire f due = (Refile d, f') -> now <= d <= DEADLINE_MASK) -> 0 <= now < 2 ^ 63 ->
  0 <= max_fires b <= U32_MAX -> max_steps b <= U32_MAX -> holds_schedule w S ->
  exists w' st f' S' k, tick fire w now b f = Ok (w', st, f') /\ holds_schedule w' S' /\
    fires fire now k S f S' f' /\ fired st = Z.of_nat k /\ fired st <= max_fires b /\ cursor_ms w <= cursor_ms w' /\
    if caught_up st then now < cursor_ms w' /\ (cursor_ms w <= now -> forall h d, S' !! h = Some d -> now <= d)
    else max_fires b <= fired st \/ max_steps b <= steps st.
Proof.
  intros Hre Hn Hb1 Hb2 Hw. destruct (tick_ok fire now Hre Hn b S f w) as ([[w' st] f'] & E & S' & H1 & (k & H2 & H3) & H4 & H5 & H6); try done; try lia.
  exists w', st, f', S', k. split_and!; try done; try lia. destruct (caught_up st); [done|]. naive_solver.
Qed.

(** The callback of the witnesses: it releases and counts. *)
Definition release_all (f : Z) (_ : Due) : FireNext * Z := (Release, f + 1).

Lemma release_all_later now : forall f due d f', release_all f due = (Refile d, f') -> now <= d <= DEADLINE_MASK.
Proof. done. Qed.

Lemma scheduled_wheel : exists w, holds_schedule w {[77 := 1000]} /\ cursor_ms w = 5.
Proof.
  destruct (place_ok granted (wheel_new 5 8) ∅ 77 1000) as (w & r & S1 & E & H1 & H2 & H3); [by apply wheel_new_ok|done|done|].
  rewrite (first_placement_filed _ _ _ H3 E) in H1. by exists w.
Qed.

Lemma tick_fires_overdue_witness : exists w w' st f' S' k, cursor_ms w = 5 /\ tick release_all w 2000 UNBOUNDED 0 = Ok (w', st, f') /\
  fires release_all 2000 k {[77 := 1000]} 0 S' f' /\ fired st = Z.of_nat k.
Proof.
  destruct scheduled_wheel as (w & Hw & Ec). exists w.
  destruct (tick_fires_overdue release_all 2000 UNBOUNDED w _ 0 (release_all_later 2000) ltac:(done) ltac:(done) ltac:(done) Hw)
    as (w' & st & f' & S' & k & H1 & _ & H2 & H3 & _). by exists w', st, f', S', k.
Defined.

(** C13. Slices catch up: ticks at one instant, each with a budget of at least
    one fire and one step, reach a tick that reports it caught up within as many
    slices as there are overdue entries and milliseconds behind. *)
Theorem slices_catch_up {F} (fire : F -> Due -> FireNext * F) now b n w S f :
  (forall f due d f', fire f due = (Refile d, f') -> now <= d <= DEADLINE_MASK) -> 0 <= now < 2 ^ 63 ->
  1 <= max_fires b <= U32_MAX -> 1 <= max_steps b <= U32_MAX -> holds_schedule w S ->
  overdue now S + Z.max 0 (now + 1 - cursor_ms w) <= Z.of_nat n ->
  exists w' st f' S', slices fire now n w b f = Ok (w', st, f') /\ caught_up st = true /\ holds_schedule w' S' /\ now < cursor_ms w'.
Proof. intros Hre Hn Hb1 Hb2 Hw Ho. by eapply slices_ok. Qed.

Lemma slices_catch_up_witness : exists w w' st f', slices release_all 2000 1997 w (mkBudget 1 1 0) 0 = Ok (w', st, f') /\ caught_up st = true.
Proof.
  destruct scheduled_wheel as (w & Hw & Ec). exists w.
  destruct (slices_catch_up release_all 2000 (mkBudget 1 1 0) 1997 w {[77 := 1000]} 0 (release_all_later 2000)) as (w' & st & f' & S' & H1 & H2 & _);
    [done|done|done|exact Hw|rewrite Ec; vm_compute; discriminate|]. by exists w', st, f'.
Defined.

(** ** The step budget is not a bound on the steps

    A wheel far behind, with one node in tier 1: a tick with a budget of one
    step takes 391, since [fast_forward] jumps from boundary to boundary without
    consulting the budget. *)
Example max_steps_overrun :
  (r ← place granted (wheel_new 0 8) 7 200000;
   r ← tick release_all (fst r) 200000 (mkBudget 64 1 0) 0;
   mret (steps (snd (fst r)))) = @Ok False _ 391.
Proof. vm_compute. reflexivity. Qed.

End WheelSpec.
