(* ===== verification/ByteOrder.v ===== *)
(** * ByteOrder: byte strings in key order

    The order of [[u8]::cmp] (byte by byte, a proper prefix is smaller), the
    big-endian words of [u64::to_be_bytes] and [u64::from_be_bytes] and that
    words of one width compare as their bytes. *)

From S2P Require Import Prelude.

Fixpoint bcmp (a b : list byte) : comparison :=
  match a, b with
  | [], [] => Eq
  | [], _ :: _ => Lt
  | _ :: _, [] => Gt
  | x :: a, y :: b => match u8 x ?= u8 y with Eq => bcmp a b | c => c end
  end.

Definition blt (a b : list byte) : Prop := bcmp a b = Lt.

Lemma bcmp_refl a : bcmp a a = Eq.
Proof. induction a; cbn; [done|]. by rewrite Z.compare_refl. Qed.

Lemma bcmp_eq a b : bcmp a b = Eq <-> a = b.
Proof.
  split; [|intros ->; apply bcmp_refl]. revert b. induction a as [|x a IH]; intros [|y b]; try done.
  cbn. destruct (Z.compare_spec (u8 x) (u8 y)) as [E| |]; try done.
  intros ->%IH. by rewrite (u8_inj x y).
Qed.

Lemma bcmp_antisym a b : bcmp b a = CompOpp (bcmp a b).
Proof.
  revert b. induction a as [|x a IH]; intros [|y b]; try done.
  cbn. rewrite (Z.compare_antisym (u8 x)). destruct (u8 x ?= u8 y); cbn; auto.
Qed.

Lemma bcmp_gt a b : bcmp a b = Gt <-> bcmp b a = Lt.
Proof. rewrite (bcmp_antisym a b). by destruct (bcmp a b). Qed.

Lemma blt_trans a b c : blt a b -> blt b c -> blt a c.
Proof.
  unfold blt. revert b c. induction a as [|x a IH]; intros [|y b] [|z c]; try done.
  cbn. destruct (Z.compare_spec (u8 x) (u8 y)), (Z.compare_spec (u8 y) (u8 z));
    try done; intros; (destruct (Z.compare_spec (u8 x) (u8 z)); try lia; eauto).
Qed.

#[global] Instance blt_irrefl : Irreflexive blt.
Proof. intros a. unfold complement, blt. by rewrite bcmp_refl. Qed.
#[global] Instance blt_transitive : Transitive blt.
Proof. intros a b c. apply blt_trans. Qed.

Lemma bcmp_app p a b : bcmp (p ++ a) (p ++ b) = bcmp a b.
Proof. induction p as [|x p IH]; [done|]. cbn. by rewrite Z.compare_refl. Qed.

Lemma bcmp_nil_l a : bcmp [] a <> Gt.
Proof. by destruct a. Qed.

(** ** Big-endian words *)

Definition be_bytes (n : nat) (z : Z) : list byte := rev (le_bytes n z).
Definition be_val (l : list byte) : Z := le_val (rev l).

Lemma length_be_bytes n z : length (be_bytes n z) = n.
Proof. unfold be_bytes. by rewrite length_rev, length_le_bytes. Qed.
Lemma len_be_bytes n z : len (be_bytes n z) = Z.of_nat n.
Proof. unfold len. by rewrite length_be_bytes. Qed.
#[export] Hint Rewrite len_be_bytes : len.

Lemma be_val_be_bytes n z : 0 <= z < 2 ^ (8 * Z.of_nat n) -> be_val (be_bytes n z) = z.
Proof. intros. unfold be_val, be_bytes. rewrite rev_involutive. by apply le_val_le_bytes_small. Qed.

Lemma be_bytes_be_val n l : length l = n -> be_bytes n (be_val l) = l.
Proof.
  intros <-. unfold be_val, be_bytes. rewrite <- (length_rev l), le_bytes_le_val by done.
  apply rev_involutive.
Qed.

Lemma be_val_bound l : 0 <= be_val l < 2 ^ (8 * Z.of_nat (length l)).
Proof. unfold be_val. rewrite <- (length_rev l). apply le_val_bound. Qed.

Lemma le_val_snoc l b : le_val (l ++ [b]) = le_val l + 2 ^ (8 * Z.of_nat (length l)) * u8 b.
Proof.
  induction l as [|x l IH]; [cbn [le_val length app]; lia|].
  cbn [le_val length app]. rewrite IH.
  replace (8 * Z.of_nat (S (length l))) with (8 + 8 * Z.of_nat (length l)) by lia.
  rewrite Z.pow_add_r by lia. lia.
Qed.

Lemma be_val_cons b l : be_val (b :: l) = u8 b * 2 ^ (8 * Z.of_nat (length l)) + be_val l.
Proof. unfold be_val. cbn [rev]. rewrite le_val_snoc, length_rev. lia. Qed.

(** Words of one width are ordered as their big-endian bytes. *)
Lemma bcmp_be_val a b : length a = length b -> bcmp a b = (be_val a ?= be_val b).
Proof.
  revert b. induction a as [|x a IH]; intros [|y b] H; try done. injection H as H.
  cbn [bcmp]. rewrite !be_val_cons, IH by done. rewrite <- H.
  pose proof (be_val_bound a). pose proof (be_val_bound b) as Hb. rewrite <- H in Hb.
  set (w := 2 ^ (8 * Z.of_nat (length a))) in *.
  destruct (Z.compare_spec (u8 x) (u8 y)) as [->|L|L].
  - by rewrite Zcompare_plus_compat.
  - symmetry. apply Z.compare_lt_iff. nia.
  - symmetry. apply Z.compare_gt_iff. nia.
Qed.

Lemma bcmp_be_bytes n a b :
  0 <= a < 2 ^ (8 * Z.of_nat n) -> 0 <= b < 2 ^ (8 * Z.of_nat n) ->
  bcmp (be_bytes n a) (be_bytes n b) = (a ?= b).
Proof.
  intros. rewrite bcmp_be_val by by rewrite !length_be_bytes. by rewrite !be_val_be_bytes.
Qed.
