(* ===== verification/F64.v ===== *)
(** * F64: IEEE-754 binary64 as the sources use it

    An [f64] is its 64-bit pattern, an integer in [0, 2^64). Every finite value
    is an integer multiple of [2^-1074], so [scaled], the value times [2^1074],
    is exact, and the infinities continue the exponent scale: [scaled] orders
    every pattern that is not a NaN. The operations the index keys use are
    defined on patterns ([is_nan], comparisons, [trunc], the casts [as f64] and
    [as i64]) and related to [scaled] by the lemmas of this file. *)

From S2P Require Import Prelude.

(** [2^1074]: the number of smallest subnormals in one. *)
Definition UNIT : Z := 2 ^ 1074.
Definition SIGN_BIT : Z := 0x8000000000000000.
Definition INFINITY : Z := 0x7FF0000000000000.

Definition magnitude (b : Z) : Z := b mod 2 ^ 63.
Definition negative (b : Z) : bool := SIGN_BIT <=? b.
Definition is_nan (b : Z) : bool := INFINITY <? magnitude b.

(** The value of a magnitude (biased exponent over 52 fraction bits) times
    [UNIT]: subnormals are their fraction, normals have the hidden bit. *)
Definition scaled_mag (m : Z) : Z :=
  if m / 2 ^ 52 =? 0 then m mod 2 ^ 52
  else (2 ^ 52 + m mod 2 ^ 52) * 2 ^ (m / 2 ^ 52 - 1).
Definition scaled (b : Z) : Z :=
  if negative b then - scaled_mag (magnitude b) else scaled_mag (magnitude b).

(** [a == b], [a < b], [a <= b]: false when a side is NaN. *)
Definition feq (a b : Z) : bool := negb (is_nan a) && negb (is_nan b) && (scaled a =? scaled b).
Definition flt (a b : Z) : bool := negb (is_nan a) && negb (is_nan b) && (scaled a <? scaled b).
Definition fle (a b : Z) : bool := negb (is_nan a) && negb (is_nan b) && (scaled a <=? scaled b).

(** [f64::trunc]: the fraction bits below the binary point are cleared; a value
    below one keeps its sign only. *)
Definition trunc_mag (m : Z) : Z :=
  let e := m / 2 ^ 52 in
  if e <? 1023 then 0 else if 1075 <=? e then m else m - m mod 2 ^ (1075 - e).
Definition trunc (b : Z) : Z := b - magnitude b + trunc_mag (magnitude b).

(** [f as i64]: NaN is zero, otherwise truncation, saturating. *)
Definition as_i64 (b : Z) : Z :=
  if is_nan b then 0
  else Z.max (- 2 ^ 63) (Z.min (2 ^ 63 - 1) (Z.quot (scaled b) UNIT)).

(** [v as f64]: the nearest value, ties to even. The significand is rounded to
    53 bits; a carry out of them moves to the next exponent by itself. *)
Definition round_even (a s : Z) : Z :=
  let q := a / 2 ^ s in
  let r := a mod 2 ^ s in
  if (2 ^ s <? 2 * r) || ((2 * r =? 2 ^ s) && Z.odd q) then q + 1 else q.
Definition mag_of_nat (a : Z) : Z :=
  if a =? 0 then 0
  else
    let k := Z.log2 a in
    let q := if k <=? 52 then a * 2 ^ (52 - k) else round_even a (k - 52) in
    (k + 1023) * 2 ^ 52 + (q - 2 ^ 52).
Definition of_i64 (v : Z) : Z :=
  if v <? 0 then SIGN_BIT + mag_of_nat (- v) else mag_of_nat v.

Definition TWO_POW_63 : Z := 0x43E0000000000000.
Definition NEG_TWO_POW_63 : Z := 0xC3E0000000000000.

Example of_i64_rounds :
  of_i64 (2 ^ 53 + 1) = of_i64 (2 ^ 53) /\ of_i64 (2 ^ 53 + 3) = of_i64 (2 ^ 53 + 4) /\
  of_i64 (2 ^ 63 - 1) = TWO_POW_63 /\ of_i64 (- 2 ^ 63) = NEG_TWO_POW_63 /\
  of_i64 1 = 0x3FF0000000000000 /\ of_i64 (-3) = 0xC008000000000000.
Proof. vm_compute. done. Qed.

(** ** The order of patterns *)

Lemma UNIT_pos : 0 < UNIT.
Proof. unfold UNIT. lia. Qed.

Lemma magnitude_range b : 0 <= magnitude b < 2 ^ 63.
Proof. apply Z.mod_pos_bound. lia. Qed.

Lemma pattern_split b :
  in_u 64 b -> b = magnitude b + (if negative b then SIGN_BIT else 0).
Proof.
  unfold in_u, magnitude, negative, SIGN_BIT. intros Hb.
  destruct (Z.leb_spec 0x8000000000000000 b).
  - rewrite <- (Z_mod_plus_full b (-1)), Z.mod_small; lia.
  - rewrite Z.mod_small; lia.
Qed.

Lemma scaled_mag_nonneg m : 0 <= scaled_mag m.
Proof.
  unfold scaled_mag. pose proof (Z.mod_pos_bound m (2 ^ 52) ltac:(lia)).
  destruct (_ =? _); [lia|]. apply Z.mul_nonneg_nonneg; [lia|]. apply Z.pow_nonneg. lia.
Qed.

Lemma scaled_mag_step m : 0 <= m -> scaled_mag m < scaled_mag (m + 1).
Proof.
  intros Hm. unfold scaled_mag.
  pose proof (Z.div_mod m (2 ^ 52) ltac:(lia)) as E.
  pose proof (Z.mod_pos_bound m (2 ^ 52) ltac:(lia)) as R.
  pose proof (Z.div_pos m (2 ^ 52) Hm ltac:(lia)) as Q.
  set (q := m / 2 ^ 52) in *. set (r := m mod 2 ^ 52) in *. clearbody q r.
  destruct (Z.eq_dec r (2 ^ 52 - 1)) as [->|].
  - replace (m + 1) with ((q + 1) * 2 ^ 52) by lia.
    rewrite Z.div_mul, Z.mod_mul by lia.
    destruct (Z.eqb_spec q 0) as [->|]; [done|].
    rewrite (proj2 (Z.eqb_neq (q + 1) 0)) by lia.
    replace (q + 1 - 1) with ((q - 1) + 1) by lia. rewrite Z.pow_add_r by lia.
    pose proof (Z.pow_pos_nonneg 2 (q - 1) ltac:(lia) ltac:(lia)). nia.
  - replace (m + 1) with (r + 1 + q * 2 ^ 52) by lia.
    rewrite Z.div_add, Z.mod_add, Z.div_small, Z.mod_small by lia. rewrite Z.add_0_l.
    destruct (Z.eqb_spec q 0) as [->|]; [lia|].
    pose proof (Z.pow_pos_nonneg 2 (q - 1) ltac:(lia) ltac:(lia)). nia.
Qed.

Lemma scaled_mag_lt a b : 0 <= a < b -> scaled_mag a < scaled_mag b.
Proof.
  intros [Ha Hb]. replace b with (a + Z.of_nat (Z.to_nat (b - a - 1)) + 1) by lia.
  induction (Z.to_nat (b - a - 1)) as [|n IH].
  - rewrite Z.add_0_r. by apply scaled_mag_step.
  - etransitivity; [exact IH|].
    replace (a + Z.of_nat (S n)) with (a + Z.of_nat n + 1) by lia.
    apply scaled_mag_step. lia.
Qed.

Lemma scaled_mag_compare a b :
  0 <= a -> 0 <= b -> (scaled_mag a ?= scaled_mag b) = (a ?= b).
Proof.
  intros Ha Hb. destruct (Z.compare_spec a b) as [->|H|H].
  - apply Z.compare_refl.
  - apply Z.compare_lt_iff, scaled_mag_lt. lia.
  - apply Z.compare_gt_iff, scaled_mag_lt. lia.
Qed.

Lemma scaled_mag_0 m : 0 <= m -> scaled_mag m = 0 <-> m = 0.
Proof.
  intros Hm. pose proof (scaled_mag_compare m 0 Hm ltac:(lia)) as H.
  rewrite <- Z.compare_eq_iff, <- (Z.compare_eq_iff m 0), <- H. done.
Qed.

(** Two patterns of the same sign compare like their magnitudes; the sign
    decides otherwise, up to the two zeros. *)
Lemma scaled_sign b :
  if negative b then scaled b <= 0 else 0 <= scaled b.
Proof. unfold scaled. pose proof (scaled_mag_nonneg (magnitude b)). destruct (negative b); lia. Qed.

Lemma scaled_0 b : scaled b = 0 <-> magnitude b = 0.
Proof.
  rewrite <- (scaled_mag_0 (magnitude b)) by apply magnitude_range.
  unfold scaled. destruct (negative b); lia.
Qed.

(** ** Truncation *)

Lemma scaled_mag_trunc m :
  0 <= m -> scaled_mag (trunc_mag m) = scaled_mag m / UNIT * UNIT.
Proof.
  intros Hm. unfold trunc_mag.
  pose proof (Z.div_mod m (2 ^ 52) ltac:(lia)) as E.
  pose proof (Z.mod_pos_bound m (2 ^ 52) ltac:(lia)) as R.
  pose proof (Z.div_pos m (2 ^ 52) Hm ltac:(lia)) as Q. pose proof UNIT_pos.
  remember (m / 2 ^ 52) as e. remember (m mod 2 ^ 52) as f.
  destruct (Z.ltb_spec e 1023).
  { rewrite Z.div_small; [done|]. split; [apply scaled_mag_nonneg|].
    apply Z.lt_le_trans with (scaled_mag (1023 * 2 ^ 52)); [apply scaled_mag_lt; lia|].
    unfold scaled_mag. rewrite Z.div_mul, Z.mod_mul by lia. unfold UNIT.
    by apply Z.leb_le. }
  unfold scaled_mag at 2. rewrite <- Heqe, <- Heqf, (proj2 (Z.eqb_neq e 0)) by lia.
  destruct (Z.leb_spec 1075 e).
  { unfold scaled_mag. rewrite <- Heqe, <- Heqf, (proj2 (Z.eqb_neq e 0)) by lia.
    replace (e - 1) with (e - 1075 + 1074) by lia. rewrite Z.pow_add_r by lia. fold UNIT.
    rewrite Z.mul_assoc, Z.div_mul by lia. done. }
  remember (1075 - e) as k.
  assert (m mod 2 ^ k = (2 ^ 52 + f) mod 2 ^ k) as Ek.
  { replace (2 ^ 52) with (2 ^ (52 - k) * 2 ^ k) in E |- *
      by (rewrite <- Z.pow_add_r by lia; f_equal; lia).
    rewrite E. rewrite (Z.add_comm _ f), (Z.add_comm _ f), Z.mod_add by lia.
    rewrite <- (Z.mod_add f (2 ^ (52 - k) * e)) by lia. f_equal. ring. }
  pose proof (Z.div_mod (2 ^ 52 + f) (2 ^ k) ltac:(lia)) as D. rewrite <- Ek in D.
  assert (0 <= m mod 2 ^ k <= f) as Hr.
  { split; [apply Z.mod_pos_bound; lia|].
    replace (m mod 2 ^ k) with (f mod 2 ^ k).
    - apply Z.mod_le; lia.
    - rewrite Ek. replace (2 ^ 52) with (2 ^ (52 - k) * 2 ^ k)
        by (rewrite <- Z.pow_add_r by lia; f_equal; lia).
      by rewrite Z.add_comm, Z.mod_add by lia. }
  replace (m - m mod 2 ^ k) with (f - m mod 2 ^ k + e * 2 ^ 52) by lia.
  unfold scaled_mag. rewrite Z.div_add, Z.mod_add, Z.div_small, Z.mod_small, Z.add_0_l by lia.
  rewrite (proj2 (Z.eqb_neq e 0)) by lia.
  assert (UNIT = 2 ^ k * 2 ^ (e - 1)) as ->.
  { unfold UNIT. rewrite <- Z.pow_add_r by lia. f_equal. lia. }
  rewrite Z.div_mul_cancel_r by lia.
  replace (2 ^ 52 + (f - m mod 2 ^ k)) with (2 ^ k * ((2 ^ 52 + f) / 2 ^ k)) by lia. ring.
Qed.

Lemma trunc_mag_range m : 0 <= m -> 0 <= trunc_mag m <= m.
Proof.
  intros Hm. unfold trunc_mag. destruct (Z.ltb_spec (m / 2 ^ 52) 1023); [lia|].
  destruct (Z.leb_spec 1075 (m / 2 ^ 52)); [lia|].
  remember (1075 - m / 2 ^ 52) as k.
  pose proof (Z.mod_pos_bound m (2 ^ k) ltac:(lia)).
  pose proof (Z.mod_le m (2 ^ k) Hm ltac:(lia)). lia.
Qed.

Lemma trunc_parts b :
  in_u 64 b -> in_u 64 (trunc b) /\ magnitude (trunc b) = trunc_mag (magnitude b) /\
  negative (trunc b) = negative b.
Proof.
  intros Hb. pose proof (pattern_split b Hb) as E. pose proof (magnitude_range b).
  pose proof (trunc_mag_range (magnitude b) ltac:(lia)). unfold trunc.
  remember (trunc_mag (magnitude b)) as t.
  replace (b - magnitude b) with (if negative b then SIGN_BIT else 0) by lia.
  unfold in_u, magnitude, negative, SIGN_BIT in *.
  destruct (Z.leb_spec 0x8000000000000000 b).
  - split_and!; [lia|lia| |].
    + rewrite <- (Z_mod_plus_full _ (-1)), Z.mod_small; lia.
    + apply Z.leb_le. lia.
  - split_and!; [lia|lia|rewrite Z.mod_small; lia|]. apply Z.leb_gt. lia.
Qed.

Lemma scaled_trunc b :
  in_u 64 b -> scaled (trunc b) = Z.quot (scaled b) UNIT * UNIT.
Proof.
  intros Hb. destruct (trunc_parts b Hb) as (_ & Em & En). unfold scaled. rewrite Em, En.
  pose proof (magnitude_range b). rewrite scaled_mag_trunc by lia. pose proof UNIT_pos.
  pose proof (scaled_mag_nonneg (magnitude b)).
  destruct (negative b); rewrite ?Z.quot_opp_l, Z.quot_div_nonneg by lia; ring.
Qed.

Lemma is_nan_trunc b : in_u 64 b -> is_nan b = false -> is_nan (trunc b) = false.
Proof.
  intros Hb. destruct (trunc_parts b Hb) as (_ & Em & _). unfold is_nan. rewrite Em.
  pose proof (magnitude_range b). pose proof (trunc_mag_range (magnitude b) ltac:(lia)). lia.
Qed.

(** ** Integers *)

Lemma scaled_mag_normal e q :
  1 <= e -> 2 ^ 52 <= q <= 2 ^ 53 ->
  scaled_mag (e * 2 ^ 52 + (q - 2 ^ 52)) = q * 2 ^ (e - 1).
Proof.
  intros He Hq. unfold scaled_mag. destruct (Z.eq_dec q (2 ^ 53)) as [->|].
  - replace (e * 2 ^ 52 + (2 ^ 53 - 2 ^ 52)) with ((e + 1) * 2 ^ 52) by lia.
    rewrite Z.div_mul, Z.mod_mul, (proj2 (Z.eqb_neq (e + 1) 0)) by lia.
    replace (e + 1 - 1) with (e - 1 + 1) by lia. rewrite Z.pow_add_r by lia. ring.
  - rewrite (Z.add_comm _ (q - _)), Z.div_add, Z.mod_add, Z.div_small, Z.mod_small by lia.
    rewrite Z.add_0_l, (proj2 (Z.eqb_neq e 0)) by lia. f_equal. lia.
Qed.

(** The magnitude of a positive integer: an integral value at one of the two
    neighbours of [a], whichever is nearer. *)
Lemma mag_of_nat_spec a :
  1 <= a <= 2 ^ 63 ->
  exists n, scaled_mag (mag_of_nat a) = n * UNIT /\ 0 <= mag_of_nat a < INFINITY /\ 0 <= n /\
    forall m, 0 <= m -> Z.abs (n * UNIT - a * UNIT) <= Z.abs (scaled_mag m - a * UNIT).
Proof.
  intros Ha. unfold mag_of_nat. rewrite (proj2 (Z.eqb_neq a 0)) by lia.
  destruct (Z.log2_spec a ltac:(lia)) as [Hk1 Hk2].
  assert (0 <= Z.log2 a <= 63) as Hk.
  { split; [apply Z.log2_nonneg|]. change 63 with (Z.log2 (2 ^ 63)). apply Z.log2_le_mono. lia. }
  remember (Z.log2 a) as k. cbv zeta. destruct (Z.leb_spec k 52).
  - exists a. assert (2 ^ 52 <= a * 2 ^ (52 - k) <= 2 ^ 53) as Hq.
    { replace (2 ^ 53) with (2 ^ (Z.succ k) * 2 ^ (52 - k)) by (rewrite <- Z.pow_add_r by lia; f_equal; lia).
      replace (2 ^ 52) with (2 ^ k * 2 ^ (52 - k)) by (rewrite <- Z.pow_add_r by lia; f_equal; lia).
      pose proof (Z.pow_pos_nonneg 2 (52 - k)). nia. }
    rewrite scaled_mag_normal by lia. split_and!.
    + rewrite <- Z.mul_assoc, <- Z.pow_add_r by lia. unfold UNIT. do 2 f_equal. lia.
    + lia.
    + unfold INFINITY. lia.
    + lia.
    + intros m _. rewrite Z.sub_diag. lia.
  - assert (2 ^ k = 2 ^ 52 * 2 ^ (k - 52)) as Ek by (rewrite <- Z.pow_add_r by lia; f_equal; lia).
    assert (2 ^ Z.succ k = 2 ^ 53 * 2 ^ (k - 52)) as Ek' by (rewrite <- Z.pow_add_r by lia; f_equal; lia).
    assert (0 < 2 ^ (k - 52)) as Hs by (apply Z.pow_pos_nonneg; lia).
    unfold round_even. cbv zeta. set (s := 2 ^ (k - 52)) in *.
    pose proof (Z.div_mod a s ltac:(lia)) as E. pose proof (Z.mod_pos_bound a s Hs) as R.
    remember (a / s) as q. remember (a mod s) as r.
    assert (2 ^ 52 <= q < 2 ^ 53) as Hq by nia.
    set (b := (s <? 2 * r) || _).
    assert (b = true -> s <= 2 * r) as Hb1.
    { unfold b. intros [?%Z.ltb_lt|[?%Z.eqb_eq _]%andb_true_iff]%orb_true_iff; lia. }
    assert (b = false -> 2 * r <= s) as Hb2.
    { unfold b. intros [?%Z.ltb_ge _]%orb_false_iff. lia. }
    assert (forall q', 2 ^ 52 <= q' <= 2 ^ 53 ->
      scaled_mag ((k + 1023) * 2 ^ 52 + (q' - 2 ^ 52)) = q' * s * UNIT) as Hv.
    { intros q' ?. rewrite scaled_mag_normal by lia. rewrite <- Z.mul_assoc. f_equal.
      unfold s, UNIT. rewrite <- Z.pow_add_r by lia. f_equal. lia. }
    exists ((if b then q + 1 else q) * s). clearbody b. split_and!.
    + rewrite <- Hv by (destruct b; lia). by destruct b.
    + destruct b; lia.
    + unfold INFINITY. destruct b; lia.
    + destruct b; nia.
    + intros m Hm. set (x := (k + 1023) * 2 ^ 52 + (q - 2 ^ 52)).
      assert (scaled_mag x = q * s * UNIT) as Hx by (apply Hv; lia).
      assert (scaled_mag (x + 1) = (q + 1) * s * UNIT) as Hx1.
      { rewrite <- Hv by lia. f_equal. unfold x. lia. }
      pose proof UNIT_pos as HU. pose proof (scaled_mag_compare m x Hm ltac:(unfold x; lia)) as C1.
      pose proof (scaled_mag_compare m (x + 1) Hm ltac:(unfold x; lia)) as C2.
      assert (scaled_mag m <= q * s * UNIT \/ (q + 1) * s * UNIT <= scaled_mag m) as Hside.
      { rewrite <- Hx, <- Hx1. destruct (Z.le_gt_cases m x).
        - left. rewrite <- Z.compare_le_iff, C1, Z.compare_le_iff. done.
        - right. rewrite <- Z.compare_ge_iff, C2, Z.compare_ge_iff. lia. }
      assert (a * UNIT = q * s * UNIT + r * UNIT) as Ea by nia.
      assert ((q + 1) * s * UNIT = q * s * UNIT + s * UNIT) as Eq1 by ring.
      assert (0 <= r * UNIT < s * UNIT) by nia.
      destruct b.
      * rewrite Eq1. assert (s * UNIT <= 2 * (r * UNIT)) by (specialize (Hb1 eq_refl); nia). lia.
      * assert (2 * (r * UNIT) <= s * UNIT) by (specialize (Hb2 eq_refl); nia). lia.
Qed.

Definition in_i64 (v : Z) : Prop := - 2 ^ 63 <= v < 2 ^ 63.

(** [v as f64] is an integral value, and no value is nearer to [v]. *)
Lemma of_i64_spec v :
  in_i64 v ->
  in_u 64 (of_i64 v) /\ is_nan (of_i64 v) = false /\
  (exists n, scaled (of_i64 v) = n * UNIT) /\
  forall f, Z.abs (scaled (of_i64 v) - v * UNIT) <= Z.abs (scaled f - v * UNIT).
Proof.
  unfold in_i64. intros Hv. destruct (Z.eq_dec v 0) as [->|Hv0].
  { split_and!; [done..|exists 0; reflexivity|]. intros f. change (scaled (of_i64 0)) with 0. lia. }
  destruct (mag_of_nat_spec (Z.abs v) ltac:(lia)) as (n & En & Hr & Hn & Hnear).
  pose proof (Hnear 0 ltac:(lia)) as H0. change (scaled_mag 0) with 0 in H0.
  pose proof UNIT_pos as HU. unfold of_i64, INFINITY in *.
  assert (forall f, Z.abs (n * UNIT - Z.abs v * UNIT) <= Z.abs (scaled f - v * UNIT)) as Hf.
  { intros f. pose proof (Hnear (magnitude f) ltac:(apply magnitude_range)).
    pose proof (scaled_mag_nonneg (magnitude f)). unfold scaled.
    assert (Z.abs v * UNIT = Z.abs (v * UNIT)) as Ev by (rewrite Z.abs_mul; lia).
    destruct (negative f); lia. }
  destruct (Z.ltb_spec v 0).
  - replace (- v) with (Z.abs v) by lia. set (x := mag_of_nat (Z.abs v)) in *.
    assert (magnitude (SIGN_BIT + x) = x) as Em.
    { unfold magnitude, SIGN_BIT. rewrite <- (Z_mod_plus_full _ (-1)), Z.mod_small; lia. }
    assert (scaled (SIGN_BIT + x) = - n * UNIT) as Es.
    { unfold scaled, negative. rewrite (proj2 (Z.leb_le _ _)) by (unfold SIGN_BIT; lia).
      rewrite Em, En. ring. }
    split_and!.
    + unfold in_u, SIGN_BIT; lia.
    + unfold is_nan, INFINITY. rewrite Em. lia.
    + by exists (- n).
    + intros f. rewrite Es. specialize (Hf f). replace (Z.abs v) with (- v) in Hf by lia. lia.
  - replace v with (Z.abs v) by lia. set (x := mag_of_nat (Z.abs v)) in *.
    assert (magnitude x = x) as Em by (unfold magnitude; rewrite Z.mod_small; lia).
    assert (scaled x = n * UNIT) as Es.
    { unfold scaled, negative. rewrite (proj2 (Z.leb_gt _ _)) by (unfold SIGN_BIT; lia). by rewrite Em. }
    split_and!; [unfold in_u; lia|unfold is_nan, INFINITY; rewrite Em; lia|by exists n|].
    intros f. rewrite Es. specialize (Hf f). replace v with (Z.abs v) in Hf at 2 by lia. lia.
Qed.

(** A value in the integer range casts to its truncation. *)
Lemma as_i64_in_range b :
  is_nan b = false -> - 2 ^ 63 * UNIT <= scaled b < 2 ^ 63 * UNIT ->
  as_i64 b = Z.quot (scaled b) UNIT /\ in_i64 (as_i64 b).
Proof.
  intros Hn Hr. unfold as_i64, in_i64. rewrite Hn. pose proof UNIT_pos as HU.
  assert (- 2 ^ 63 <= Z.quot (scaled b) UNIT < 2 ^ 63) as Hq.
  { pose proof (Z.quot_rem' (scaled b) UNIT).
    pose proof (Z.rem_bound_abs (scaled b) UNIT ltac:(lia)).
    pose proof (Z.rem_sign_mul (scaled b) UNIT ltac:(lia)). nia. }
  split; lia.
Qed.

Lemma scaled_TWO_POW_63 : scaled TWO_POW_63 = 2 ^ 63 * UNIT.
Proof. by vm_compute. Qed.
Lemma scaled_NEG_TWO_POW_63 : scaled NEG_TWO_POW_63 = - 2 ^ 63 * UNIT.
Proof. by vm_compute. Qed.

(** Values of magnitude [2^52] and above are integers. *)
Lemma large_integral b :
  2 ^ 52 * UNIT <= Z.abs (scaled b) -> Z.quot (scaled b) UNIT * UNIT = scaled b.
Proof.
  intros H. pose proof UNIT_pos as HU.
  assert (exists n, scaled_mag (magnitude b) = n * UNIT) as [n En].
  { pose proof (scaled_mag_nonneg (magnitude b)) as H0.
    assert (2 ^ 52 * UNIT <= scaled_mag (magnitude b)) as Hm by (unfold scaled in H; destruct (negative b); lia).
    clear H H0. unfold scaled_mag in *. pose proof (magnitude_range b) as Hr.
    pose proof (Z.mod_pos_bound (magnitude b) (2 ^ 52) ltac:(lia)) as Hf.
    pose proof (Z.div_pos (magnitude b) (2 ^ 52) ltac:(lia) ltac:(lia)) as He.
    remember (magnitude b / 2 ^ 52) as e. remember (magnitude b mod 2 ^ 52) as f.
    destruct (Z.eqb_spec e 0); [unfold UNIT in *; nia|].
    destruct (Z.le_gt_cases 1074 (e - 1)).
    - exists ((2 ^ 52 + f) * 2 ^ (e - 1 - 1074)). unfold UNIT.
      rewrite <- Z.mul_assoc, <- Z.pow_add_r by lia. do 2 f_equal. lia.
    - exfalso. assert (2 * 2 ^ (e - 1) <= UNIT).
      { unfold UNIT. rewrite <- Z.pow_succ_r by lia. apply Z.pow_le_mono_r; lia. }
      pose proof (Z.pow_pos_nonneg 2 (e - 1)). nia. }
  unfold scaled in *. destruct (negative b); rewrite En; [|by rewrite Z.quot_mul by lia].
  rewrite <- Z.mul_opp_l, Z.quot_mul by lia. done.
Qed.
