(* ===== verification/Utf8.v ===== *)
(** * Utf8: UTF-8 validation

    The grammar of [core::str::from_utf8] ([utf8_valid]). *)

From S2P Require Import Prelude.

(** ** The grammar of [core::str::from_utf8] *)

Definition between (a b z : Z) : bool := (a <=? z) && (z <=? b).
Definition is_cont (b : byte) : bool := between 0x80 0xBF (u8 b).

(** The second byte of a three- or four-byte sequence: no overlong forms, no
    surrogates, nothing above U+10FFFF. *)
Definition second3 (b0 b1 : byte) : bool :=
  if u8 b0 =? 0xE0 then between 0xA0 0xBF (u8 b1)
  else if u8 b0 =? 0xED then between 0x80 0x9F (u8 b1) else is_cont b1.
Definition second4 (b0 b1 : byte) : bool :=
  if u8 b0 =? 0xF0 then between 0x90 0xBF (u8 b1)
  else if u8 b0 =? 0xF4 then between 0x80 0x8F (u8 b1) else is_cont b1.

Fixpoint utf8_valid (l : list byte) : bool :=
  match l with
  | [] => true
  | b0 :: l1 =>
      if u8 b0 <? 0x80 then utf8_valid l1
      else match l1 with
      | [] => false
      | b1 :: l2 =>
          if between 0xC2 0xDF (u8 b0) then is_cont b1 && utf8_valid l2
          else match l2 with
          | [] => false
          | b2 :: l3 =>
              if between 0xE0 0xEF (u8 b0)
              then second3 b0 b1 && is_cont b2 && utf8_valid l3
              else match l3 with
              | [] => false
              | b3 :: l4 =>
                  between 0xF0 0xF4 (u8 b0) && second4 b0 b1 && is_cont b2 && is_cont b3
                  && utf8_valid l4
              end
          end
      end
  end.
