(* ===== verification/IndexKey.v ===== *)
(** * IndexKey: the order-preserving typed index keys

    [inf-store/src/index_key.rs]. A secondary index stores the bytes of a typed
    scalar and compares them as bytes. The file models the admission and
    coercion table ([index_scalar_coerce]), the encoder into the caller's buffer
    ([index_key_encode]), the prefix image of range bounds
    ([index_key_escape_prefix]), the exact comparison of integers with floats
    ([compare_i64_f64]) and the canonical decoder ([index_key_decode]). A
    [&str] is its bytes, valid UTF-8; an [f64] is its pattern ([F64]). *)

From S2P Require Import Prelude F64 ByteOrder Utf8.

Definition ORDERED_KEY_MAX : Z := 1024.

Inductive IndexKeyType := TUtf8 | TI64 | TF64 | TBool.
#[global] Instance IndexKeyType_eq_dec : EqDecision IndexKeyType.
Proof. solve_decision. Defined.

Definition fixed8 (t : IndexKeyType) : bool := match t with TUtf8 => false | _ => true end.

Inductive IndexScalar :=
  | Null
  | SBool (b : bool)
  | SI64 (v : Z)
  | SF64 (f : Z)
  | SUtf8 (s : list byte).

Inductive KeySkip := Sparse | Inexact | NotANumber | TooLong.

Record IndexKeyBuf := { buf_len : Z; buf_bytes : list byte }.

Definition IndexKeyBuf_new : IndexKeyBuf :=
  {| buf_len := 0; buf_bytes := replicate (Z.to_nat ORDERED_KEY_MAX) x00 |}.

Definition as_bytes {E} (b : IndexKeyBuf) : outcome E (list byte) :=
  slice (buf_bytes b) 0 (buf_len b).

(** [bytes[..n].copy_from_slice(src)] of [n] bytes. *)
Definition copy_front {E} (bytes src : list byte) : outcome E (list byte) :=
  if len src <=? len bytes then Ok (src ++ drop (length src) bytes) else Panic.

Definition put_word {E} (b : IndexKeyBuf) (word : Z) : outcome E IndexKeyBuf :=
  bytes ← copy_front (buf_bytes b) (be_bytes 8 word);
  Ok {| buf_len := 8; buf_bytes := bytes |}.

(** ** Admission and coercion *)

Definition utf8_encoded_len (s : list byte) : Z :=
  len s + cnt (fun b => u8 b =? 0) s + 1.

Definition in_i64_range (f : Z) : bool := fle NEG_TWO_POW_63 f && flt f TWO_POW_63.

Definition coerce_i64_to_f64 (v : Z) : outcome KeySkip IndexScalar :=
  let f := of_i64 v in
  if in_i64_range f && (as_i64 f =? v) then Ok (SF64 f) else Err Inexact.

Definition coerce_f64_to_i64 (f : Z) : outcome KeySkip IndexScalar :=
  if is_nan f then Err NotANumber
  else if in_i64_range f && feq (trunc f) f then Ok (SI64 (as_i64 f)) else Err Inexact.

Definition index_scalar_coerce (t : IndexKeyType) (v : IndexScalar) : outcome KeySkip IndexScalar :=
  match t, v with
  | TI64, SI64 _ => Ok v
  | TI64, SF64 f => coerce_f64_to_i64 f
  | TF64, SI64 i => coerce_i64_to_f64 i
  | TF64, SF64 f => if is_nan f then Err NotANumber else Ok v
  | TBool, SBool _ => Ok v
  | TUtf8, SUtf8 s => if ORDERED_KEY_MAX <? utf8_encoded_len s then Err TooLong else Ok v
  | _, _ => Err Sparse
  end.

(** ** The encoder *)

Definition f64_key_word (f : Z) : Z :=
  let canonical := if feq f 0 then 0 else f in
  if negb (Z.land canonical SIGN_BIT =? 0) then wrap 64 (Z.lnot canonical)
  else Z.lor canonical SIGN_BIT.

(** The escaping loop of [encode_utf8] from position [at]. *)
Fixpoint escape_loop {E} (s bytes : list byte) (at_ : Z) : outcome E (list byte * Z) :=
  match s with
  | [] => Ok (bytes, at_)
  | b :: s =>
      bytes ← set_at bytes at_ b;
      if u8 b =? 0
      then bytes ← set_at bytes (at_ + 1) xff; escape_loop s bytes (at_ + 2)
      else escape_loop s bytes (at_ + 1)
  end.

Definition encode_utf8 {E} (s : list byte) (out : IndexKeyBuf) : outcome E IndexKeyBuf :=
  if negb (existsb (fun b => u8 b =? 0) s)
  then
    bytes ← copy_front (buf_bytes out) s;
    bytes ← set_at bytes (len s) x00;
    Ok {| buf_len := wrap 16 (len s + 1); buf_bytes := bytes |}
  else
    '(bytes, n) ← escape_loop s (buf_bytes out) 0;
    bytes ← set_at bytes n x00;
    Ok {| buf_len := wrap 16 (n + 1); buf_bytes := bytes |}.

Definition index_key_encode (t : IndexKeyType) (v : IndexScalar) (out : IndexKeyBuf)
    : outcome KeySkip IndexKeyBuf :=
  admitted ← index_scalar_coerce t v;
  match admitted with
  | SI64 v => put_word out (Z.lxor (wrap 64 v) SIGN_BIT)
  | SF64 f => put_word out (f64_key_word f)
  | SBool b => put_word out (Z.b2z b)
  | SUtf8 s => encode_utf8 s out
  | Null => Panic
  end.

(** One guarded store of [index_key_escape_prefix]. *)
Definition put_capped {E} (bytes : list byte) (n : Z) (b : byte) : outcome E (list byte * Z) :=
  if n <? ORDERED_KEY_MAX then bytes ← set_at bytes n b; Ok (bytes, n + 1) else Ok (bytes, n).

Fixpoint escape_prefix_loop {E} (s bytes : list byte) (n full : Z)
    : outcome E (list byte * Z * Z) :=
  match s with
  | [] => Ok (bytes, n, full)
  | b :: s =>
      '(bytes, n) ← put_capped bytes n b;
      if u8 b =? 0
      then '(bytes, n) ← put_capped bytes n xff; escape_prefix_loop s bytes n (full + 2)
      else escape_prefix_loop s bytes n (full + 1)
  end.

Definition index_key_escape_prefix {E} (s : list byte) (out : IndexKeyBuf)
    : outcome E (IndexKeyBuf * Z) :=
  '(bytes, n, full) ← escape_prefix_loop s (buf_bytes out) 0 0;
  Ok ({| buf_len := wrap 16 n; buf_bytes := bytes |}, full).

(** ** The exact comparison of an integer with a float *)

Definition compare_i64_f64 (a b : Z) : comparison :=
  if fle TWO_POW_63 b then Lt
  else if flt b NEG_TWO_POW_63 then Gt
  else
    let truncated := trunc b in
    let whole := as_i64 truncated in
    match a ?= whole with
    | Eq => if flt truncated b then Lt else if flt b truncated then Gt else Eq
    | unequal => unequal
    end.

(** ** The decoder *)

Inductive DecodedIndexKey := DUtf8 (s : list byte) | DI64 (v : Z) | DF64 (f : Z) | DBool (b : bool).
Inductive IndexKeyDecodeError :=
  Length | NotABool | NotCanonicalF64 | Escape | Terminator | EUtf8.

Definition cast_signed (w : Z) : Z := if w <? 2 ^ 63 then w else w - 2 ^ 64.

Definition decode_f64_word (word : Z) : outcome IndexKeyDecodeError DecodedIndexKey :=
  let bits := if negb (Z.land word SIGN_BIT =? 0)
              then Z.land word (wrap 64 (Z.lnot SIGN_BIT)) else wrap 64 (Z.lnot word) in
  if is_nan bits then Err NotCanonicalF64
  else if feq bits 0 && negb (Z.land bits SIGN_BIT =? 0) then Err NotCanonicalF64
  else Ok (DF64 bits).

(** The unescaping loop: [rest.next()] after a NUL consumes the byte it tests. *)
Fixpoint unescape (body : list byte) : outcome IndexKeyDecodeError (list byte) :=
  match body with
  | [] => Ok []
  | b :: rest =>
      if u8 b =? 0
      then match rest with
           | c :: rest' =>
               if u8 c =? 255 then raw ← unescape rest'; Ok (b :: raw) else Err Escape
           | [] => Err Escape
           end
      else raw ← unescape rest; Ok (b :: raw)
  end.

Definition split_last {A} (l : list A) : option (A * list A) :=
  match rev l with [] => None | x :: body => Some (x, rev body) end.

Definition decode_utf8_key (bytes : list byte) : outcome IndexKeyDecodeError DecodedIndexKey :=
  _ ← refuse_if (ORDERED_KEY_MAX <? len bytes) Length;
  '(terminator, body) ← ok_or Length (split_last bytes);
  _ ← refuse_if (negb (u8 terminator =? 0)) Terminator;
  raw ← unescape body;
  _ ← refuse_if (negb (utf8_valid raw)) EUtf8;
  Ok (DUtf8 raw).

Definition index_key_decode (t : IndexKeyType) (bytes : list byte)
    : outcome IndexKeyDecodeError DecodedIndexKey :=
  if fixed8 t
  then
    _ ← refuse_if (negb (len bytes =? 8)) Length;
    let word := be_val bytes in
    match t with
    | TI64 => Ok (DI64 (cast_signed (Z.lxor word SIGN_BIT)))
    | TF64 => decode_f64_word word
    | TBool => if word =? 0 then Ok (DBool false)
               else if word =? 1 then Ok (DBool true) else Err NotABool
    | TUtf8 => Panic
    end
  else decode_utf8_key bytes.

(** ** Typed values and their order

    What the bytes have to preserve: numbers compare exactly (scaled by
    [2^1074], so that integers and floats share a scale), booleans and strings
    by their own order; values of different families do not compare. *)

Definition wf_scalar (v : IndexScalar) : Prop :=
  match v with
  | SI64 i => in_i64 i
  | SF64 f => in_u 64 f
  | SUtf8 s => utf8_valid s = true
  | _ => True
  end.

Definition number (v : IndexScalar) : option Z :=
  match v with
  | SI64 i => Some (i * UNIT)
  | SF64 f => if is_nan f then None else Some (scaled f)
  | _ => None
  end.

Definition scalar_cmp (a b : IndexScalar) : option comparison :=
  match a, b with
  | SBool x, SBool y => Some (Z.b2z x ?= Z.b2z y)
  | SUtf8 s, SUtf8 t => Some (bcmp s t)
  | _, _ => x ← number a; y ← number b; Some (x ?= y)
  end.

(** The declared type of a scalar. *)
Definition scalar_type (v : IndexScalar) : option IndexKeyType :=
  match v with
  | Null => None
  | SBool _ => Some TBool
  | SI64 _ => Some TI64
  | SF64 _ => Some TF64
  | SUtf8 _ => Some TUtf8
  end.

Definition wf_buf (b : IndexKeyBuf) : Prop := len (buf_bytes b) = ORDERED_KEY_MAX.

(** The key of an admitted scalar, without the buffer. *)
Fixpoint escape (s : list byte) : list byte :=
  match s with
  | [] => []
  | b :: s => if u8 b =? 0 then b :: xff :: escape s else b :: escape s
  end.

Definition f64_word (f : Z) : Z :=
  if magnitude f =? 0 then SIGN_BIT
  else if negative f then U64_MAX - f else f + SIGN_BIT.

Definition key_of (v : IndexScalar) : list byte :=
  match v with
  | Null => []
  | SBool b => be_bytes 8 (Z.b2z b)
  | SI64 i => be_bytes 8 (i + 2 ^ 63)
  | SF64 f => be_bytes 8 (f64_word f)
  | SUtf8 s => escape s ++ [x00]
  end.

(** ** Words *)

Lemma lxor_sign x :
  in_u 64 x -> Z.lxor x SIGN_BIT = if x <? 2 ^ 63 then x + 2 ^ 63 else x - 2 ^ 63.
Proof.
  assert (forall y, 0 <= y < 2 ^ 63 -> y + 2 ^ 63 = Z.lxor y SIGN_BIT) as H.
  { intros y Hy. change SIGN_BIT with (Z.shiftl 1 63). change (2 ^ 63) with (Z.shiftl 1 63) at 1.
    apply Z.add_nocarry_lxor, land_shiftl_disjoint; lia. }
  unfold in_u. intros Hx. destruct (Z.ltb_spec x (2 ^ 63)); [rewrite H; lia|].
  replace x with (x - 2 ^ 63 + 2 ^ 63) at 1 by lia. rewrite H by lia.
  by rewrite Z.lxor_assoc, Z.lxor_nilpotent, Z.lxor_0_r.
Qed.

Lemma land_sign x : in_u 64 x -> (Z.land x SIGN_BIT =? 0) = negb (negative x).
Proof.
  unfold in_u, negative. intros Hx.
  assert (Z.land x SIGN_BIT = if Z.testbit x 63 then SIGN_BIT else 0) as ->.
  { apply Z.bits_inj'. intros i Hi. change SIGN_BIT with (2 ^ 63).
    rewrite Z.land_spec, Z.pow2_bits_eqb by lia. destruct (Z.eqb_spec 63 i) as [<-|].
    - by destruct (Z.testbit x 63).
    - rewrite andb_false_r. destruct (Z.testbit x 63); [|by rewrite Z.bits_0].
      rewrite Z.pow2_bits_eqb by lia. symmetry. by apply Z.eqb_neq. }
  rewrite Z.testbit_odd, Z.shiftr_div_pow2 by lia. unfold SIGN_BIT.
  destruct (Z.leb_spec 0x8000000000000000 x).
  - replace (x / 2 ^ 63) with 1; [done|]. apply (Z.div_unique x (2 ^ 63) 1 (x - 2 ^ 63)); lia.
  - by rewrite Z.div_small by lia.
Qed.

Lemma lnot_word x : in_u 64 x -> wrap 64 (Z.lnot x) = U64_MAX - x.
Proof.
  unfold in_u, wrap, U64_MAX. intros. unfold Z.lnot.
  rewrite <- (Z_mod_plus_full _ 1), Z.mod_small; lia.
Qed.

Lemma lor_sign x : 0 <= x < 2 ^ 63 -> Z.lor x SIGN_BIT = x + SIGN_BIT.
Proof.
  intros. change SIGN_BIT with (Z.shiftl 1 63).
  rewrite Z.add_nocarry_lxor by (apply land_shiftl_disjoint; lia).
  symmetry. apply Z.lxor_lor, land_shiftl_disjoint; lia.
Qed.

Lemma land_not_sign x : in_u 64 x -> Z.land x (wrap 64 (Z.lnot SIGN_BIT)) = magnitude x.
Proof. intros. apply (Z.land_ones x 63). lia. Qed.

Lemma i64_word i : in_i64 i -> Z.lxor (wrap 64 i) SIGN_BIT = i + 2 ^ 63.
Proof.
  unfold in_i64. intros Hi.
  rewrite lxor_sign by (apply wrap_in_u; lia). unfold wrap. destruct (Z.le_gt_cases 0 i).
  - rewrite Z.mod_small by lia. by rewrite (proj2 (Z.ltb_lt _ _)) by lia.
  - rewrite <- (Z_mod_plus_full i 1), Z.mod_small by lia.
    rewrite (proj2 (Z.ltb_ge _ _)) by lia. lia.
Qed.

Lemma feq_0 f : is_nan f = false -> feq f 0 = (magnitude f =? 0).
Proof.
  intros Hn. unfold feq. rewrite Hn. cbn [negb andb]. change (is_nan 0) with false.
  change (scaled 0) with 0. cbn [negb andb].
  apply eq_true_iff_eq. rewrite !Z.eqb_eq. apply scaled_0.
Qed.

Lemma f64_key_word_eq f : in_u 64 f -> is_nan f = false -> f64_key_word f = f64_word f.
Proof.
  intros Hf Hn. unfold f64_key_word, f64_word. rewrite feq_0 by done.
  destruct (Z.eqb_spec (magnitude f) 0); [done|]. rewrite land_sign by done.
  pose proof (pattern_split f Hf) as E. pose proof (magnitude_range f).
  destruct (negative f); cbn [negb].
  - by apply lnot_word.
  - apply lor_sign. lia.
Qed.

Lemma f64_word_range f : in_u 64 f -> in_u 64 (f64_word f).
Proof.
  unfold in_u, f64_word, negative, U64_MAX, SIGN_BIT. intros Hf.
  destruct (_ =? 0); [lia|]. destruct (Z.leb_spec 0x8000000000000000 f); lia.
Qed.

(** The word and the value of a pattern, by sign. *)
Lemma f64_word_cases f :
  in_u 64 f -> is_nan f = false ->
  let m := magnitude f in
  (m = 0 /\ f64_word f = 2 ^ 63 /\ scaled f = scaled_mag m) \/
  (0 < m /\ f64_word f = 2 ^ 63 - 1 - m /\ scaled f = - scaled_mag m) \/
  (0 < m /\ f64_word f = 2 ^ 63 + m /\ scaled f = scaled_mag m).
Proof.
  intros Hf _ m. pose proof (pattern_split f Hf) as E. pose proof (magnitude_range f).
  unfold f64_word, scaled. fold m in E |- *. destruct (Z.eqb_spec m 0) as [Em|].
  - left. rewrite Em. by destruct (negative f).
  - right. unfold U64_MAX, SIGN_BIT in *. destruct (negative f); [left|right]; lia.
Qed.

Lemma f64_word_lt a b :
  in_u 64 a -> in_u 64 b -> is_nan a = false -> is_nan b = false ->
  f64_word a < f64_word b -> scaled a < scaled b.
Proof.
  intros Ha Hb Na Nb.
  pose proof (magnitude_range a). pose proof (magnitude_range b).
  pose proof (scaled_mag_nonneg (magnitude a)). pose proof (scaled_mag_nonneg (magnitude b)).
  pose proof (scaled_mag_0 (magnitude a)). pose proof (scaled_mag_0 (magnitude b)).
  pose proof (scaled_mag_lt (magnitude a) (magnitude b)).
  pose proof (scaled_mag_lt (magnitude b) (magnitude a)).
  destruct (f64_word_cases a Ha Na) as [(?&->&->)|[(?&->&->)|(?&->&->)]],
    (f64_word_cases b Hb Nb) as [(?&->&->)|[(?&->&->)|(?&->&->)]]; lia.
Qed.

Lemma f64_word_eq a b :
  in_u 64 a -> in_u 64 b -> is_nan a = false -> is_nan b = false ->
  f64_word a = f64_word b -> scaled a = scaled b.
Proof.
  intros Ha Hb Na Nb.
  pose proof (magnitude_range a). pose proof (magnitude_range b).
  destruct (f64_word_cases a Ha Na) as [(Ea&->&->)|[(?&->&->)|(?&->&->)]],
    (f64_word_cases b Hb Nb) as [(Eb&->&->)|[(?&->&->)|(?&->&->)]]; intros; try lia;
    assert (magnitude a = magnitude b) as -> by lia; done.
Qed.

Lemma f64_word_compare a b :
  in_u 64 a -> in_u 64 b -> is_nan a = false -> is_nan b = false ->
  (f64_word a ?= f64_word b) = (scaled a ?= scaled b).
Proof.
  intros. symmetry. destruct (Z.compare_spec (f64_word a) (f64_word b)).
  - apply Z.compare_eq_iff. by apply f64_word_eq.
  - apply Z.compare_lt_iff. by apply f64_word_lt.
  - apply Z.compare_gt_iff. by apply f64_word_lt.
Qed.

(** ** The escape code *)

Lemma len_escape s : len (escape s) = len s + cnt (fun b => u8 b =? 0) s.
Proof. induction s as [|b s IH]; [done|]. cbn [escape cnt]. destruct (u8 b =? 0); cbn [Z.b2z]; lens. Qed.

Lemma len_key_utf8 s : len (key_of (SUtf8 s)) = utf8_encoded_len s.
Proof. cbn [key_of]. unfold utf8_encoded_len. rewrite len_app, len_escape. lens. Qed.

Lemma escape_no_nul s : existsb (fun b => u8 b =? 0) s = false -> escape s = s.
Proof.
  induction s as [|b s IH]; [done|]. cbn [existsb escape].
  intros [-> ?]%orb_false_iff. by rewrite IH.
Qed.

Lemma escape_app a b : escape (a ++ b) = escape a ++ escape b.
Proof. induction a as [|x a IH]; [done|]. cbn [escape app]. rewrite IH. by destruct (_ =? 0). Qed.

Lemma u8_x00 b : u8 b = 0 -> b = x00.
Proof. intros. by apply u8_inj. Qed.

(** Byte order of the keys of strings is byte order of the strings. *)
Lemma bcmp_escape s t : bcmp (escape s ++ [x00]) (escape t ++ [x00]) = bcmp s t.
Proof.
  revert t. induction s as [|x s IH]; intros [|y t].
  - done.
  - cbn [escape app]. destruct (Z.eqb_spec (u8 y) 0) as [E|E].
    + by rewrite (u8_x00 y E).
    + cbn [app bcmp]. change (u8 x00) with 0. pose proof (u8_range y). by rewrite (proj2 (Z.compare_lt_iff 0 _)) by lia.
  - cbn [escape app]. destruct (Z.eqb_spec (u8 x) 0) as [E|E].
    + rewrite (u8_x00 x E). done.
    + cbn [app bcmp]. change (u8 x00) with 0. pose proof (u8_range x). by rewrite (proj2 (Z.compare_gt_iff _ 0)) by lia.
  - cbn [escape]. destruct (Z.eqb_spec (u8 x) 0) as [Ex|Ex], (Z.eqb_spec (u8 y) 0) as [Ey|Ey];
      cbn [app bcmp]; rewrite ?Ex, ?Ey, ?Z.compare_refl; change (u8 xff ?= u8 xff) with Eq; rewrite ?IH; try done.
    + pose proof (u8_range y). by rewrite (proj2 (Z.compare_lt_iff 0 _)) by lia.
    + pose proof (u8_range x). by rewrite (proj2 (Z.compare_gt_iff _ 0)) by lia.
Qed.

(** ** The encoder writes the key *)

Lemma copy_front_Ok {E} bytes src :
  len src <= len bytes ->
  copy_front (E:=E) bytes src = Ok (src ++ drop (length src) bytes).
Proof. intros. unfold copy_front. by rewrite (proj2 (Z.leb_le _ _)). Qed.

Lemma len_overwrite (p r : list byte) : len p <= len r -> len (p ++ drop (length p) r) = len r.
Proof. unfold len. rewrite length_app, length_drop. lia. Qed.

(** A front of the buffer: [bytes] starts with [p], written so far. *)
Lemma set_at_front {E} p r (x : byte) :
  set_at (E:=E) (p ++ r) (len p) x =
  match r with [] => Panic | _ :: r => Ok ((p ++ [x]) ++ r) end.
Proof.
  destruct r as [|y r].
  - unfold set_at. rewrite app_nil_r, (proj2 (Z.ltb_ge _ _)) by lia. by rewrite andb_false_r.
  - rewrite set_at_Ok by lens. f_equal. unfold len. rewrite Nat2Z.id.
    rewrite insert_app_r_alt by lia.
    rewrite Nat.sub_diag. cbn. by rewrite <- app_assoc.
Qed.

Lemma escape_loop_Ok {E} s p r :
  len (escape s) <= len r ->
  escape_loop (E:=E) s (p ++ r) (len p) =
    Ok ((p ++ escape s) ++ drop (length (escape s)) r, len p + len (escape s)).
Proof.
  revert p r. induction s as [|b s IH]; intros p r Hr.
  { cbn [escape_loop escape]. rewrite app_nil_r, Z.add_0_r. done. }
  cbn [escape_loop escape] in *. rewrite set_at_front.
  destruct r as [|x r]; [destruct (u8 b =? 0); lens|]. ok_step.
  destruct (u8 b =? 0).
  - replace (len p + 1) with (len (p ++ [b])) by lens. rewrite set_at_front.
    destruct r as [|y r]; [lens|]. ok_step.
    replace (len p + 2) with (len ((p ++ [b]) ++ [xff])) by lens.
    rewrite IH by lens. f_equal. rewrite <- !app_assoc. f_equal. lens.
  - replace (len p + 1) with (len (p ++ [b])) by lens. rewrite IH by lens.
    f_equal. rewrite <- !app_assoc. f_equal. lens.
Qed.

Lemma put_capped_Ok {E} p r b :
  len (take (Z.to_nat ORDERED_KEY_MAX) p ++ r) = ORDERED_KEY_MAX ->
  exists r', put_capped (E:=E) (take (Z.to_nat ORDERED_KEY_MAX) p ++ r)
               (len (take (Z.to_nat ORDERED_KEY_MAX) p)) b =
             Ok (take (Z.to_nat ORDERED_KEY_MAX) (p ++ [b]) ++ r',
                 len (take (Z.to_nat ORDERED_KEY_MAX) (p ++ [b]))) /\
             len (take (Z.to_nat ORDERED_KEY_MAX) (p ++ [b]) ++ r') = ORDERED_KEY_MAX.
Proof.
  remember (Z.to_nat ORDERED_KEY_MAX) as n. assert (Z.of_nat n = ORDERED_KEY_MAX) as En by (subst; done).
  clear Heqn. intros H. unfold put_capped. destruct (Z.ltb_spec (len (take n p)) ORDERED_KEY_MAX) as [L|L].
  - assert (length p < n)%nat by (unfold len in L; rewrite length_take in L; lia).
    rewrite (take_ge p) in * by lia. rewrite (take_ge (p ++ [b])) by (rewrite length_app; cbn; lia).
    rewrite set_at_front. destruct r as [|y r]; [lens|]. exists r. ok_step. split; [|lens].
    do 2 f_equal. lens.
  - assert (n <= length p)%nat by (unfold len in L; rewrite length_take in L; lia).
    rewrite take_app_le by lia. by exists r.
Qed.

Lemma escape_prefix_loop_Ok {E} s p r :
  len (take (Z.to_nat ORDERED_KEY_MAX) p ++ r) = ORDERED_KEY_MAX ->
  exists r', escape_prefix_loop (E:=E) s (take (Z.to_nat ORDERED_KEY_MAX) p ++ r)
               (len (take (Z.to_nat ORDERED_KEY_MAX) p)) (len p) =
             Ok (take (Z.to_nat ORDERED_KEY_MAX) (p ++ escape s) ++ r',
                 len (take (Z.to_nat ORDERED_KEY_MAX) (p ++ escape s)), len (p ++ escape s)) /\
             len (take (Z.to_nat ORDERED_KEY_MAX) (p ++ escape s) ++ r') = ORDERED_KEY_MAX.
Proof.
  revert p r. induction s as [|b s IH]; intros p r Hr.
  { cbn [escape escape_prefix_loop]. rewrite app_nil_r. by exists r. }
  cbn [escape escape_prefix_loop]. destruct (put_capped_Ok (E:=E) p r b Hr) as (r1 & -> & H1).
  ok_step. destruct (u8 b =? 0).
  - destruct (put_capped_Ok (E:=E) (p ++ [b]) r1 xff H1) as (r2 & -> & H2). ok_step.
    replace (len p + 2) with (len ((p ++ [b]) ++ [xff])) by lens.
    destruct (IH _ _ H2) as (r3 & -> & H3). exists r3. by rewrite <- !app_assoc in *.
  - replace (len p + 1) with (len (p ++ [b])) by lens.
    destruct (IH _ _ H1) as (r3 & -> & H3). exists r3. by rewrite <- !app_assoc in *.
Qed.

(** A buffer whose live front is [k]. *)
Lemma as_bytes_front {E} k r :
  as_bytes (E:=E) {| buf_len := len k; buf_bytes := k ++ r |} = Ok k.
Proof.
  unfold as_bytes, slice. cbn [buf_len buf_bytes].
  by rewrite get_range_app_0.
Qed.

(** The prefix image of a string: its escape code, cut at the key cap, and the
    uncut length. *)
Lemma escape_prefix_Ok {E} s out :
  wf_buf out ->
  exists out', index_key_escape_prefix (E:=E) s out = Ok (out', len (escape s)) /\
    as_bytes (E:=E) out' = Ok (take (Z.to_nat ORDERED_KEY_MAX) (escape s)) /\ wf_buf out'.
Proof.
  intros Hb. destruct (escape_prefix_loop_Ok (E:=E) s [] (buf_bytes out) Hb) as (r & H & Hl).
  unfold index_key_escape_prefix. rewrite take_nil, !len_nil in H.
  cbn [app] in H, Hl. rewrite H. ok_step. eexists. split; [done|].
  rewrite wrap_id by (unfold in_u; unfold ORDERED_KEY_MAX in *; lens).
  split; [apply as_bytes_front|done].
Qed.

Lemma encode_utf8_Ok {E} s out :
  wf_buf out -> utf8_encoded_len s <= ORDERED_KEY_MAX ->
  exists out', encode_utf8 (E:=E) s out = Ok out' /\
    as_bytes (E:=E) out' = Ok (key_of (SUtf8 s)) /\ wf_buf out'.
Proof.
  unfold wf_buf. intros Hb Hs. rewrite <- len_key_utf8 in Hs. cbn [key_of] in *.
  assert (forall p r, len (p ++ r) = ORDERED_KEY_MAX -> len p + 1 <= ORDERED_KEY_MAX ->
    exists out', (bytes ← set_at (E:=E) (p ++ r) (len p) x00;
      Ok {| buf_len := wrap 16 (len p + 1); buf_bytes := bytes |}) = Ok out' /\
      as_bytes (E:=E) out' = Ok (p ++ [x00]) /\ wf_buf out') as Hend.
  { intros p r Hl Hp. rewrite set_at_front. destruct r as [|x r]; [lens|]. ok_step. eexists.
    split; [done|]. rewrite wrap_id by (unfold in_u, ORDERED_KEY_MAX in *; lens).
    replace (len p + 1) with (len (p ++ [x00])) by lens. split; [apply as_bytes_front|].
    unfold wf_buf. cbn [buf_bytes]. lens. }
  unfold encode_utf8. destruct (existsb _ s) eqn:Hnul; cbn [negb].
  - pose proof (escape_loop_Ok (E:=E) s [] (buf_bytes out) ltac:(lens)) as H.
    rewrite len_nil, Z.add_0_l in H. cbn [app] in H. rewrite H. ok_step.
    apply Hend; [rewrite len_overwrite|]; lens.
  - rewrite escape_no_nul in Hs |- * by done. rewrite copy_front_Ok by lens. ok_step.
    apply Hend; [rewrite len_overwrite|]; lens.
Qed.

(** ** The truth table *)

Lemma in_i64_range_iff f :
  in_u 64 f -> is_nan f = false ->
  in_i64_range f = true <-> - 2 ^ 63 * UNIT <= scaled f < 2 ^ 63 * UNIT.
Proof.
  intros _ Hn. unfold in_i64_range, fle, flt. rewrite Hn.
  rewrite scaled_TWO_POW_63, scaled_NEG_TWO_POW_63.
  change (is_nan NEG_TWO_POW_63) with false. change (is_nan TWO_POW_63) with false.
  cbn [negb andb]. rewrite andb_true_iff, Z.leb_le, Z.ltb_lt. done.
Qed.

Lemma quot_UNIT n : Z.quot (n * UNIT) UNIT = n.
Proof. apply Z.quot_mul. pose proof UNIT_pos. lia. Qed.

(** An integer is admitted as a float exactly when a float has its value. *)
Lemma coerce_i64_to_f64_spec v :
  in_i64 v ->
  match coerce_i64_to_f64 v with
  | Ok w => w = SF64 (of_i64 v) /\ scaled (of_i64 v) = v * UNIT
  | Err e => e = Inexact /\ forall f, scaled f <> v * UNIT
  | Panic => False
  end.
Proof.
  intros Hv. destruct (of_i64_spec v Hv) as (Hu & Hn & [n Hs] & Hnear). pose proof UNIT_pos as HU.
  unfold coerce_i64_to_f64. cbv zeta. unfold in_i64 in Hv.
  destruct (in_i64_range (of_i64 v)) eqn:Hr; cbn [andb].
  - rewrite in_i64_range_iff in Hr by done.
    destruct (as_i64_in_range _ Hn Hr) as [-> _]. rewrite Hs, quot_UNIT.
    destruct (Z.eqb_spec n v) as [->|Hne]; [done|]. split; [done|].
    intros f Hf. specialize (Hnear f). rewrite Hf, Hs in Hnear. nia.
  - split; [done|]. intros f Hf. specialize (Hnear f).
    assert (scaled (of_i64 v) = v * UNIT) as E by lia.
    apply not_true_iff_false in Hr. apply Hr. rewrite in_i64_range_iff by done. rewrite E. nia.
Qed.

(** A float is admitted as an integer exactly when an [i64] has its value. *)
Lemma coerce_f64_to_i64_spec f :
  in_u 64 f ->
  match coerce_f64_to_i64 f with
  | Ok w => is_nan f = false /\ exists i, w = SI64 i /\ in_i64 i /\ scaled f = i * UNIT
  | Err e => if is_nan f then e = NotANumber
             else e = Inexact /\ forall i, in_i64 i -> scaled f <> i * UNIT
  | Panic => False
  end.
Proof.
  intros Hf. unfold coerce_f64_to_i64. destruct (is_nan f) eqn:Hn; [done|].
  pose proof UNIT_pos as HU.
  assert (feq (trunc f) f = (Z.quot (scaled f) UNIT * UNIT =? scaled f)) as ->.
  { unfold feq. rewrite is_nan_trunc, Hn, scaled_trunc by done. done. }
  destruct (in_i64_range f) eqn:Hr; cbn [andb].
  - rewrite in_i64_range_iff in Hr by done. destruct (as_i64_in_range f Hn Hr) as [Ea Hi].
    destruct (Z.eqb_spec (Z.quot (scaled f) UNIT * UNIT) (scaled f)) as [E|E].
    + split; [done|]. exists (as_i64 f). rewrite Ea in *. done.
    + split; [done|]. intros i _ Hs. apply E. by rewrite Hs, quot_UNIT.
  - split; [done|]. intros i Hi Hs. apply not_true_iff_false in Hr. apply Hr.
    rewrite in_i64_range_iff, Hs by done. unfold in_i64 in Hi. nia.
Qed.

(** A scalar of type [t] whose key is storable. *)
Definition storable (t : IndexKeyType) (w : IndexScalar) : Prop :=
  wf_scalar w /\ scalar_type w = Some t /\ scalar_cmp w w = Some Eq /\
  len (key_of w) <= ORDERED_KEY_MAX.

Ltac scalar_eq :=
  cbn [scalar_cmp number option_bind mbind];
  repeat match goal with H : is_nan _ = _ |- _ => rewrite H end;
  cbn [mbind option_bind]; rewrite ?Z.compare_refl, ?bcmp_refl; try done.

Lemma coerce_Ok t v w :
  wf_scalar v -> index_scalar_coerce t v = Ok w -> storable t w /\ scalar_cmp v w = Some Eq.
Proof.
  unfold storable. intros Hv Hc. destruct t, v as [|b|i|f|s]; cbn in Hv, Hc; try done.
  - destruct (Z.ltb_spec ORDERED_KEY_MAX (utf8_encoded_len s)) as [|Hl]; [done|]. injection Hc as <-.
    split_and!; scalar_eq. by rewrite len_key_utf8.
  - injection Hc as <-. split_and!; scalar_eq.
  - pose proof (coerce_f64_to_i64_spec f Hv) as S. rewrite Hc in S.
    destruct S as (Hn & i & -> & Hi & E). split_and!; scalar_eq.
    by rewrite E, Z.compare_refl.
  - pose proof (coerce_i64_to_f64_spec i Hv) as S. rewrite Hc in S. destruct S as [-> E].
    destruct (of_i64_spec i Hv) as (Hu & Hn & _). split_and!; scalar_eq.
    by rewrite E, Z.compare_refl.
  - destruct (is_nan f) eqn:Hn; [done|]. injection Hc as <-. split_and!; scalar_eq.
  - injection Hc as <-. split_and!; scalar_eq.
Qed.

(** ** Keys of storable scalars *)

Lemma encode_writes_key t v w out :
  wf_scalar v -> wf_buf out -> index_scalar_coerce t v = Ok w ->
  exists out', index_key_encode t v out = Ok out' /\
    as_bytes (E:=KeySkip) out' = Ok (key_of w) /\ wf_buf out'.
Proof.
  intros Hv Hb Hc. destruct (coerce_Ok t v w Hv Hc) as [(Hw & Ht & Hs & Hl) _].
  unfold index_key_encode. rewrite Hc. ok_step.
  assert (forall z, exists out', put_word (E:=KeySkip) out z = Ok out' /\
    as_bytes (E:=KeySkip) out' = Ok (be_bytes 8 z) /\ wf_buf out') as Hword.
  { intros z. unfold put_word, wf_buf in *. rewrite copy_front_Ok by (rewrite Hb; done). ok_step.
    eexists. split; [done|]. split; [apply as_bytes_front|]. cbn [buf_bytes].
    rewrite len_overwrite; [done|]. by rewrite Hb. }
  destruct w as [|b|i|f|s]; [done|apply Hword| | |].
  - rewrite i64_word by done. apply Hword.
  - rewrite f64_key_word_eq; [apply Hword|done|]. cbn in Hs. by destruct (is_nan f).
  - apply encode_utf8_Ok; [done|]. by rewrite <- len_key_utf8.
Qed.

Lemma encode_inv t v out out' :
  wf_scalar v -> wf_buf out -> index_key_encode t v out = Ok out' ->
  exists w, index_scalar_coerce t v = Ok w /\ as_bytes (E:=KeySkip) out' = Ok (key_of w) /\ wf_buf out'.
Proof.
  intros Hv Hb He. destruct (index_scalar_coerce t v) as [w| |] eqn:Hc;
    [|unfold index_key_encode in He; rewrite Hc in He; done..].
  exists w. destruct (encode_writes_key t v w out Hv Hb Hc) as (o & Ho & ? & ?).
  rewrite He in Ho. by injection Ho as <-.
Qed.

Lemma storable_f64 f : storable TF64 (SF64 f) -> in_u 64 f /\ is_nan f = false.
Proof. intros (Hf & _ & Hs & _). split; [done|]. cbn in Hs. by destruct (is_nan f). Qed.

(** Storable scalars of one type compare as their keys. *)
Lemma storable_order t a b :
  storable t a -> storable t b -> scalar_cmp a b = Some (bcmp (key_of a) (key_of b)).
Proof.
  intros Ha Hb. pose proof Ha as (Wa & Ta & _). pose proof Hb as (Wb & Tb & _).
  destruct a as [|x|i|f|s], b as [|y|j|g|r]; cbn in Ta, Tb; try congruence.
  - cbn [scalar_cmp key_of]. rewrite bcmp_be_bytes; [done|destruct x; cbn; lia|destruct y; cbn; lia].
  - cbn [scalar_cmp number key_of]. cbn in Wa, Wb. unfold in_i64 in *.
    rewrite bcmp_be_bytes by (change (2 ^ (8 * Z.of_nat 8)) with (2 ^ 64); lia).
    cbn [mbind option_bind]. f_equal. pose proof UNIT_pos.
    destruct (Z.compare_spec (i * UNIT) (j * UNIT)), (Z.compare_spec (i + 2 ^ 63) (j + 2 ^ 63)); done || nia.
  - injection Ta as <-. apply storable_f64 in Ha as [Ha Na], Hb as [Hb Nb].
    cbn [scalar_cmp number key_of]. rewrite Na, Nb. cbn [mbind option_bind].
    rewrite bcmp_be_bytes by by apply f64_word_range. by rewrite f64_word_compare.
  - cbn [scalar_cmp key_of]. by rewrite bcmp_escape.
Qed.

(** Equal values compare alike. *)
Lemma scalar_cmp_eq_l a a' b : scalar_cmp a a' = Some Eq -> scalar_cmp a' b = scalar_cmp a b.
Proof.
  assert (forall x y z, (x ?= y) = Eq -> (y ?= z) = (x ?= z)) as Hz by (by intros x y z ->%Z.compare_eq_iff).
  destruct a as [|x|i|f|s], a' as [|x'|i'|f'|s']; cbn [scalar_cmp number mbind option_bind]; try done;
    repeat (destruct (is_nan _); cbn [mbind option_bind]; try done);
    destruct b as [|y|j|g|r]; cbn [scalar_cmp number mbind option_bind]; try done;
    repeat (destruct (is_nan _); cbn [mbind option_bind]; try done);
    intros [= H]; f_equal; auto.
  by apply bcmp_eq in H as ->.
Qed.

Lemma scalar_cmp_antisym a b c : scalar_cmp a b = Some c -> scalar_cmp b a = Some (CompOpp c).
Proof.
  destruct a as [|x|i|f|s], b as [|y|j|g|r]; cbn [scalar_cmp number mbind option_bind]; try done;
    repeat (destruct (is_nan _); cbn [mbind option_bind]; try done);
    intros [= <-]; f_equal; auto using Z.compare_antisym, bcmp_antisym.
Qed.

Lemma scalar_cmp_eq_r a b b' : scalar_cmp b b' = Some Eq -> scalar_cmp a b' = scalar_cmp a b.
Proof.
  intros H. destruct (scalar_cmp a b) as [c|] eqn:Hc.
  - apply scalar_cmp_antisym in Hc. rewrite <- (scalar_cmp_eq_l _ _ a H) in Hc.
    apply scalar_cmp_antisym in Hc. by destruct c.
  - destruct (scalar_cmp a b') as [c|] eqn:Hc'; [|done]. apply scalar_cmp_antisym in Hc'.
    rewrite (scalar_cmp_eq_l _ _ a H) in Hc'. apply scalar_cmp_antisym in Hc'. congruence.
Qed.

(** The virtual machine's comparison of an integer with a float is exact. *)
Lemma compare_i64_f64_exact a b :
  in_i64 a -> in_u 64 b -> is_nan b = false -> compare_i64_f64 a b = (a * UNIT ?= scaled b).
Proof.
  intros Ha Hb Hn. unfold compare_i64_f64, fle, flt. rewrite is_nan_trunc, Hn by done.
  rewrite scaled_TWO_POW_63, scaled_NEG_TWO_POW_63, scaled_trunc by done.
  change (is_nan NEG_TWO_POW_63) with false. change (is_nan TWO_POW_63) with false. cbn [negb andb].
  pose proof UNIT_pos as HU. unfold in_i64 in Ha.
  destruct (Z.leb_spec (2 ^ 63 * UNIT) (scaled b)) as [|H1]; [symmetry; apply Z.compare_lt_iff; nia|].
  destruct (Z.ltb_spec (scaled b) (- 2 ^ 63 * UNIT)) as [|H2]; [symmetry; apply Z.compare_gt_iff; nia|].
  destruct (as_i64_in_range b Hn ltac:(lia)) as [Eq Hq].
  remember (Z.quot (scaled b) UNIT) as q. rewrite Eq in Hq. clear Eq. unfold in_i64 in Hq.
  assert (as_i64 (trunc b) = q) as ->.
  { destruct (as_i64_in_range (trunc b)) as [-> _]; rewrite ?is_nan_trunc, ?scaled_trunc, <- ?Heqq by done;
      [done|nia|apply quot_UNIT]. }
  pose proof (Z.quot_rem' (scaled b) UNIT) as Er. rewrite <- Heqq in Er.
  pose proof (Z.rem_bound_abs (scaled b) UNIT ltac:(lia)) as Hr.
  destruct (Z.compare_spec a q) as [->|L|L].
  - destruct (Z.ltb_spec (q * UNIT) (scaled b)), (Z.ltb_spec (scaled b) (q * UNIT)), (Z.compare_spec (q * UNIT) (scaled b));
      lia || done.
  - symmetry. apply Z.compare_lt_iff. nia.
  - symmetry. apply Z.compare_gt_iff. nia.
Qed.

(** ** Decoding *)

Definition to_scalar (d : DecodedIndexKey) : IndexScalar :=
  match d with DUtf8 s => SUtf8 s | DI64 v => SI64 v | DF64 f => SF64 f | DBool b => SBool b end.

Lemma unescape_escape s : unescape (escape s) = Ok s.
Proof.
  induction s as [|b s IH]; [done|]. cbn [escape]. destruct (u8 b =? 0) eqn:Eb; cbn [unescape]; rewrite Eb.
  - change (u8 xff =? 255) with true. cbn iota. by rewrite IH.
  - by rewrite IH.
Qed.

Lemma escape_unescape n b s : (length b <= n)%nat -> unescape b = Ok s -> escape s = b.
Proof.
  revert b s. induction n as [|n IH]; intros [|x b] s Hn H; cbn [length] in *; try lia;
    try by injection H as <-.
  cbn [unescape] in H. destruct (u8 x =? 0) eqn:Ex.
  - destruct b as [|c b]; [done|]. destruct (Z.eqb_spec (u8 c) 255) as [Ec|]; [|done].
    inv_ok H. injection H as <-. cbn [escape]. rewrite Ex. cbn [length] in Hn.
    rewrite (IH b a) by (done || lia). by rewrite (u8_inj c xff).
  - inv_ok H. injection H as <-. cbn [escape]. rewrite Ex. by rewrite (IH b a) by (done || lia).
Qed.

Lemma split_last_snoc {A} (l : list A) x : split_last (l ++ [x]) = Some (x, l).
Proof. unfold split_last. rewrite rev_app_distr. cbn. by rewrite rev_involutive. Qed.

Lemma unsnoc_app {A} (l body : list A) x : split_last l = Some (x, body) -> l = body ++ [x].
Proof.
  unfold split_last. intros H. rewrite <- (rev_involutive l). destruct (rev l); [done|].
  injection H as -> <-. done.
Qed.

Lemma decode_word_bits w :
  in_u 64 w ->
  (if negb (Z.land w SIGN_BIT =? 0) then Z.land w (wrap 64 (Z.lnot SIGN_BIT)) else wrap 64 (Z.lnot w)) =
  if w <? 2 ^ 63 then U64_MAX - w else w - 2 ^ 63.
Proof.
  intros Hw. rewrite land_sign, land_not_sign, lnot_word, negb_involutive by done.
  unfold negative. pose proof (pattern_split w Hw) as E. unfold negative, SIGN_BIT in *.
  destruct (Z.leb_spec 0x8000000000000000 w), (Z.ltb_spec w (2 ^ 63)); lia.
Qed.

Lemma magnitude_neg b : 2 ^ 63 <= b < 2 ^ 64 -> magnitude b = b - 2 ^ 63 /\ negative b = true.
Proof.
  intros. unfold magnitude, negative, SIGN_BIT. split; [|lia].
  rewrite <- (Z_mod_plus_full _ (-1)), Z.mod_small; lia.
Qed.
Lemma magnitude_pos b : 0 <= b < 2 ^ 63 -> magnitude b = b /\ negative b = false.
Proof. intros. unfold magnitude, negative, SIGN_BIT. split; [apply Z.mod_small|]; lia. Qed.

(** A float's word decodes to the float, or to [0.0] for the other zero. *)
Lemma decode_f64_word_key f :
  in_u 64 f -> is_nan f = false ->
  decode_f64_word (f64_word f) = Ok (DF64 (if magnitude f =? 0 then 0 else f)).
Proof.
  intros Hf Hn. unfold decode_f64_word. cbv zeta. rewrite decode_word_bits by by apply f64_word_range.
  unfold f64_word. destruct (Z.eqb_spec (magnitude f) 0) as [|Hm]; [done|].
  replace (if (if negative f then U64_MAX - f else f + SIGN_BIT) <? 2 ^ 63 then _ else _) with f.
  - rewrite Hn, feq_0, (proj2 (Z.eqb_neq _ _) Hm) by done. done.
  - pose proof (pattern_split f Hf). pose proof (magnitude_range f). unfold U64_MAX, SIGN_BIT in *.
    destruct (negative f); case Z.ltb_spec; lia.
Qed.

(** Only canonical words decode. *)
Lemma decode_f64_word_Ok w d :
  in_u 64 w -> decode_f64_word w = Ok d ->
  exists f, d = DF64 f /\ in_u 64 f /\ is_nan f = false /\ f64_word f = w.
Proof.
  intros Hw. unfold decode_f64_word. cbv zeta. rewrite decode_word_bits by done.
  set (f := if w <? 2 ^ 63 then _ else _). assert (in_u 64 f) as Hf.
  { unfold in_u, f, U64_MAX in *. destruct (Z.ltb_spec w (2 ^ 63)); lia. }
  destruct (is_nan f) eqn:Hn; [done|]. rewrite feq_0, land_sign, negb_involutive by done.
  destruct ((magnitude f =? 0) && negative f) eqn:Hz; [done|]. intros [= <-].
  exists f. split_and!; try done. apply andb_false_iff in Hz. unfold f64_word.
  destruct (Z.ltb_spec w (2 ^ 63)) as [L|L]; unfold in_u in Hw.
  - destruct (magnitude_neg f) as [Em Es]; [unfold f, U64_MAX; lia|]. rewrite Es in *.
    destruct Hz as [->|]; [|done]. unfold f. lia.
  - destruct (magnitude_pos f) as [Em Es]; [unfold f; lia|]. rewrite Em, Es.
    destruct (Z.eqb_spec f 0); unfold f, SIGN_BIT in *; lia.
Qed.

Lemma be_val_word l : len l = 8 -> in_u 64 (be_val l).
Proof.
  intros H. pose proof (be_val_bound l). unfold len in H.
  replace (8 * Z.of_nat (length l)) with 64 in * by lia. done.
Qed.

Lemma cast_signed_word w :
  in_u 64 w -> in_i64 (cast_signed (Z.lxor w SIGN_BIT)) /\ cast_signed (Z.lxor w SIGN_BIT) + 2 ^ 63 = w.
Proof.
  intros Hw. rewrite lxor_sign by done. unfold in_u, in_i64, cast_signed in *.
  destruct (Z.ltb_spec w (2 ^ 63)); case Z.ltb_spec; lia.
Qed.

(** What decodes is a storable scalar of the type, and its key is the input. *)
Lemma decode_canonical t b d :
  index_key_decode t b = Ok d -> storable t (to_scalar d) /\ key_of (to_scalar d) = b.
Proof.
  unfold index_key_decode, storable. intros H. destruct t; cbn [fixed8] in H.
  2-4: inv_ok H; apply negb_false_iff, Z.eqb_eq in H0; pose proof (be_val_word b H0) as Hw;
    assert (be_bytes 8 (be_val b) = b) as Eb by (apply be_bytes_be_val; unfold len in H0; lia).
  - unfold decode_utf8_key in H. inv_ok H. apply Z.ltb_ge in H0.
    apply negb_false_iff, Z.eqb_eq, u8_x00 in H2 as ->. apply negb_false_iff in H4.
    injection H as <-. cbn [to_scalar key_of]. apply unsnoc_app in H1 as ->.
    rewrite (escape_unescape (length b0) b0 a0) by done. split_and!; try done. scalar_eq.
  - injection H as <-. destruct (cast_signed_word (be_val b) Hw) as [Hi Ei].
    cbn [to_scalar key_of]. rewrite Ei, Eb. split_and!; try done; [scalar_eq|].
    rewrite H0. done.
  - apply decode_f64_word_Ok in H as (f & -> & Hf & Hn & Ef); [|done].
    cbn [to_scalar key_of]. rewrite Ef, Eb. split_and!; try done; [scalar_eq|]. by rewrite H0.
  - destruct (Z.eqb_spec (be_val b) 0) as [E|]; [|destruct (Z.eqb_spec (be_val b) 1) as [E|]; [|done]];
      injection H as <-; rewrite E in Eb; cbn [to_scalar key_of Z.b2z]; by rewrite Eb, H0.
Qed.

(** A storable scalar decodes from its key, up to the sign of zero. *)
Lemma decode_key t w :
  storable t w ->
  exists d, index_key_decode t (key_of w) = Ok d /\ scalar_cmp w (to_scalar d) = Some Eq.
Proof.
  intros Hs. pose proof Hs as (Hw & Ht & He & Hl). unfold index_key_decode.
  destruct w as [|x|i|f|s]; cbn in Ht; try done; injection Ht as <-; cbn [fixed8 key_of] in *;
    rewrite ?len_be_bytes; cbn [Z.of_nat Pos.of_succ_nat Pos.succ]; cbn [negb refuse_if]; ok_step.
  - exists (DBool x). by destruct x.
  - cbn in Hw. unfold in_i64 in Hw. rewrite be_val_be_bytes by (change (8 * Z.of_nat 8) with 64; lia).
    eexists. split; [done|]. cbn [to_scalar]. destruct (cast_signed_word (i + 2 ^ 63)) as [_ E]; [unfold in_u; lia|].
    replace (cast_signed _) with i by lia. scalar_eq.
  - apply storable_f64 in Hs as [Hf Hn]. rewrite be_val_be_bytes by by apply f64_word_range.
    rewrite decode_f64_word_key by done. eexists. split; [done|]. cbn [to_scalar].
    destruct (Z.eqb_spec (magnitude f) 0) as [Hm|]; [|scalar_eq].
    cbn [scalar_cmp number]. rewrite Hn. change (is_nan 0) with false. cbn [mbind option_bind].
    by rewrite (proj2 (scaled_0 f) Hm).
  - exists (DUtf8 s). split; [|scalar_eq]. unfold decode_utf8_key.
    rewrite (proj2 (Z.ltb_ge _ _) Hl). ok_step. rewrite split_last_snoc. ok_step.
    change (u8 x00 =? 0) with true. ok_step. cbn [negb]. rewrite unescape_escape. ok_step.
    cbn in Hw. rewrite Hw. done.
Qed.

(** ** Theorems *)

(** C22. The admission table is exact: a scalar is admitted in an index iff the
    declared type has a value equal to it that fits a key, the admitted scalar is
    that value and has the declared type; each refusal means what its name says: a
    number without an equal in the type, a NaN offered to a numeric index, a string
    whose key is too long, or a scalar comparable with nothing of the type and, in a
    numeric index, neither a number nor a NaN. *)
Theorem coerce_exact t v :
  wf_scalar v ->
  match index_scalar_coerce t v with
  | Ok w => wf_scalar w /\ scalar_type w = Some t /\ scalar_cmp v w = Some Eq /\
            len (key_of w) <= ORDERED_KEY_MAX
  | Err Inexact => number v <> None /\
      forall w, wf_scalar w -> scalar_type w = Some t -> scalar_cmp v w <> Some Eq
  | Err NotANumber => exists f, v = SF64 f /\ is_nan f = true /\ (t = TF64 \/ t = TI64)
  | Err TooLong => scalar_type v = Some t /\ ORDERED_KEY_MAX < len (key_of v)
  | Err Sparse => (t = TF64 \/ t = TI64 -> number v = None /\ forall f, v <> SF64 f) /\
      forall w, scalar_type w = Some t -> scalar_cmp v w = None
  | Panic => False
  end.
Proof.
  intros Hv. destruct (index_scalar_coerce t v) as [w|e|] eqn:Hc.
  { destruct (coerce_Ok t v w Hv Hc) as [(? & ? & _ & ?) ?]. done. }
  - destruct t, v as [|b|i|f|s]; cbn in Hv, Hc; try discriminate;
      try (injection Hc as <-; split; [naive_solver|]; intros [|?|?|?|?] Hw; cbn in Hw; try discriminate Hw; cbn; try done;
           by destruct (is_nan _)).
    + destruct (Z.ltb_spec ORDERED_KEY_MAX (utf8_encoded_len s)); [|done]. injection Hc as <-.
      by rewrite len_key_utf8.
    + pose proof (coerce_f64_to_i64_spec f Hv) as S. rewrite Hc in S.
      destruct (is_nan f) eqn:Hn; [subst; eauto|]. destruct S as [-> S]. cbn [number]. rewrite Hn.
      split; [done|]. intros [|?|i|?|?] Hw Ht; try discriminate Ht. cbn. rewrite Hn. cbn.
      intros [= H%Z.compare_eq]. by apply (S i).
    + pose proof (coerce_i64_to_f64_spec i Hv) as S. rewrite Hc in S. destruct S as [-> S].
      split; [done|]. intros [|?|?|f|?] Hw Ht; try discriminate Ht. cbn.
      destruct (is_nan f); [done|]. cbn. intros [= H%Z.compare_eq]. by apply (S f).
    + destruct (is_nan f) eqn:Hn; [|done]. injection Hc as <-. eauto.
  - destruct t, v as [|b|i|f|s]; cbn in Hc; try done.
    + by destruct (_ <? _).
    + pose proof (coerce_f64_to_i64_spec f Hv) as S. by rewrite Hc in S.
    + pose proof (coerce_i64_to_f64_spec i Hv) as S. by rewrite Hc in S.
    + by destruct (is_nan f).
Qed.

Lemma coerce_exact_witness :
  wf_scalar (SI64 (2 ^ 53 + 1)) /\
  number (SI64 (2 ^ 53 + 1)) <> None /\
  forall w, wf_scalar w -> scalar_type w = Some TF64 -> scalar_cmp (SI64 (2 ^ 53 + 1)) w <> Some Eq.
Proof.
  assert (wf_scalar (SI64 (2 ^ 53 + 1))) as H by (unfold wf_scalar, in_i64; lia).
  split; [exact H|]. pose proof (coerce_exact TF64 _ H) as E.
  assert (index_scalar_coerce TF64 (SI64 (2 ^ 53 + 1)) = Err Inexact) as Ei by (vm_compute; done).
  rewrite Ei in E. exact E.
Defined.

(** C21. Keys are order preserving: of two scalars an index admits, the bytes
    the encoder leaves in its buffers compare exactly as the scalars do (integers
    and floats by exact value, so also across the two), for every key type. *)
Theorem keys_order t v1 v2 out1 out2 out1' out2' :
  wf_scalar v1 -> wf_scalar v2 -> wf_buf out1 -> wf_buf out2 ->
  index_key_encode t v1 out1 = Ok out1' -> index_key_encode t v2 out2 = Ok out2' ->
  exists k1 k2, as_bytes (E:=KeySkip) out1' = Ok k1 /\ as_bytes (E:=KeySkip) out2' = Ok k2 /\
    scalar_cmp v1 v2 = Some (bcmp k1 k2).
Proof.
  intros W1 W2 B1 B2 E1 E2.
  destruct (encode_inv t v1 out1 out1' W1 B1 E1) as (w1 & C1 & K1 & _).
  destruct (encode_inv t v2 out2 out2' W2 B2 E2) as (w2 & C2 & K2 & _).
  destruct (coerce_Ok t v1 w1 W1 C1) as [S1 Q1]. destruct (coerce_Ok t v2 w2 W2 C2) as [S2 Q2].
  exists (key_of w1), (key_of w2). split_and!; [done..|].
  rewrite <- (storable_order t w1 w2 S1 S2), (scalar_cmp_eq_l v1 w1 w2 Q1).
  symmetry. by apply scalar_cmp_eq_r.
Qed.

(** [-1.5] and the integer [2] in an [f64] index. *)
Lemma keys_order_witness :
  exists k1 k2, scalar_cmp (SF64 0xBFF8000000000000) (SI64 2) = Some (bcmp k1 k2).
Proof.
  destruct (index_key_encode TF64 (SF64 0xBFF8000000000000) IndexKeyBuf_new) as [o1| |] eqn:E1;
    [|vm_compute in E1; discriminate E1..].
  destruct (index_key_encode TF64 (SI64 2) IndexKeyBuf_new) as [o2| |] eqn:E2;
    [|vm_compute in E2; discriminate E2..].
  destruct (keys_order TF64 (SF64 0xBFF8000000000000) (SI64 2) IndexKeyBuf_new IndexKeyBuf_new o1 o2)
    as (k1 & k2 & _ & _ & H);
    [unfold wf_scalar, in_u; lia|unfold wf_scalar, in_i64; lia|reflexivity|reflexivity|exact E1|exact E2|].
  exists k1, k2. exact H.
Defined.

(** C25. The decoder accepts exactly the encoder's keys: a key decodes to a
    scalar equal to the encoded one, and whatever decodes re-encodes to the same
    bytes; no input makes it panic. *)
Theorem decode_inverts_encode t :
  (forall v out out' k, wf_scalar v -> wf_buf out -> index_key_encode t v out = Ok out' ->
     as_bytes (E:=KeySkip) out' = Ok k ->
     exists d, index_key_decode t k = Ok d /\ scalar_cmp v (to_scalar d) = Some Eq) /\
  (forall b d out, index_key_decode t b = Ok d -> wf_buf out ->
     exists out', index_key_encode t (to_scalar d) out = Ok out' /\
       as_bytes (E:=KeySkip) out' = Ok b) /\
  (forall b, index_key_decode t b <> Panic).
Proof.
  split_and!.
  - intros v out out' k Hv Hb He Hk. destruct (encode_inv t v out out' Hv Hb He) as (w & Hc & Hk' & _).
    rewrite Hk in Hk'. injection Hk' as ->. destruct (coerce_Ok t v w Hv Hc) as [Hs Hq].
    destruct (decode_key t w Hs) as (d & Hd & He'). exists d. split; [done|].
    by rewrite <- (scalar_cmp_eq_l v w _ Hq).
  - intros b d out Hd Hb. destruct (decode_canonical t b d Hd) as [(Hw & Ht & Hn & Hl) <-].
    assert (index_scalar_coerce t (to_scalar d) = Ok (to_scalar d)) as Hc.
    { destruct d as [s|i|f|x]; cbn in Ht; injection Ht as <-; cbn; try done.
      - cbn [to_scalar] in Hl. rewrite len_key_utf8 in Hl. by rewrite (proj2 (Z.ltb_ge _ _) Hl).
      - cbn in Hn. by destruct (is_nan f). }
    destruct (encode_writes_key t _ _ out Hw Hb Hc) as (o & ? & ? & _). eauto.
  - intros b. unfold index_key_decode, decode_utf8_key, decode_f64_word.
    assert (forall n l, (length l <= n)%nat -> unescape l <> Panic) as Hu.
    { induction n as [|n IH]; intros [|x l] Hl; cbn [length] in Hl; try done; [lia|]. cbn [unescape].
      destruct (_ =? 0); [destruct l as [|c l]; [done|]; destruct (_ =? 255); [|done]|];
        apply bind_not_Panic; try done; apply IH; cbn [length] in Hl; lia. }
    destruct t; cbn [fixed8]; [|destruct (len b =? 8); cbn; repeat case_match; done..].
    apply bind_not_Panic; [apply refuse_if_not_Panic|intros _ _].
    apply bind_not_Panic; [apply ok_or_not_Panic|intros [x body] _].
    apply bind_not_Panic; [apply refuse_if_not_Panic|intros _ _].
    apply bind_not_Panic; [by apply (Hu (length body))|intros raw _].
    by apply bind_not_Panic; [apply refuse_if_not_Panic|].
Qed.
