(* ===== verification/Doc.v ===== *)
(** * Doc: document values

    [inf-doc]'s reference tree ([model.rs], [Value]): what a document is behind
    either physical form, and what the cursors ([cursor.rs], [DocValue]) present
    to the path evaluator and the predicate machine. Objects keep insertion
    order and may repeat a key; numbers are [i64] or an [f64] pattern; strings
    are their bytes. *)

From S2P Require Import Prelude F64 Utf8.

Inductive Value :=
  | VNull
  | VBool (b : bool)
  | VI64 (v : Z)
  | VF64 (f : Z)
  | VStr (s : list byte)
  | VArr (items : list Value)
  | VObj (entries : list (list byte * Value)).

(** Induction over the nested lists. *)
Section value_ind.
Variable P : Value -> Prop.
Hypothesis Hnull : P VNull.
Hypothesis Hbool : forall b, P (VBool b).
Hypothesis Hi64 : forall v, P (VI64 v).
Hypothesis Hf64 : forall f, P (VF64 f).
Hypothesis Hstr : forall s, P (VStr s).
Hypothesis Harr : forall items, Forall P items -> P (VArr items).
Hypothesis Hobj : forall entries, Forall (fun e => P e.2) entries -> P (VObj entries).

Fixpoint value_ind' (v : Value) : P v :=
  match v with
  | VNull => Hnull
  | VBool b => Hbool b
  | VI64 i => Hi64 i
  | VF64 f => Hf64 f
  | VStr s => Hstr s
  | VArr items =>
      Harr items ((fix go (l : list Value) : Forall P l :=
        match l with
        | [] => List.Forall_nil _
        | x :: l => List.Forall_cons _ _ _ (value_ind' x) (go l)
        end) items)
  | VObj entries =>
      Hobj entries ((fix go (l : list (list byte * Value)) : Forall (fun e => P e.2) l :=
        match l with
        | [] => List.Forall_nil _
        | x :: l => List.Forall_cons _ _ _ (value_ind' x.2) (go l)
        end) entries)
  end.
End value_ind.

(** The numbers and strings of a document are in their types' ranges. *)
Definition wf_scalar_value (v : Value) : Prop :=
  match v with
  | VI64 i => in_i64 i
  | VF64 f => in_u 64 f
  | VStr s => utf8_valid s = true
  | _ => True
  end.

(** The children of a container in document order. *)
Definition children (v : Value) : list Value :=
  match v with
  | VArr items => items
  | VObj entries => entries.*2
  | _ => []
  end.

(** Induction on the children, whichever container. *)
Lemma children_ind (P : Value -> Prop) :
  (forall v, (forall c, c ∈ children v -> P c) -> P v) -> forall v, P v.
Proof.
  intros H. apply value_ind'; intros; apply H; cbn [children]; try (by intros ? ?%elem_of_nil).
  - by apply list.Forall_forall.
  - intros c (e & -> & He)%list_elem_of_fmap. by apply (proj1 (list.Forall_forall _ _) H0 e).
Qed.
