(* ===== verification/Predicate.v ===== *)
(** * Predicate: predicate expressions and their truth table

    [inf-query/src/predicate]: the operand types of [program.rs] and the
    comparison table of [vm.rs] ([relation], [cmp_matches]) with the verdict of
    one leaf on one value. [verdict] is the meaning of a predicate tree over the
    values its paths resolve to; [PredicateVm] shows that the bytecode machine
    computes it. *)

From S2P Require Import Prelude F64 ByteOrder Utf8 IndexKey Doc.

Inductive CmpOp := CEq | CNe | CLt | CLe | CGt | CGe.
#[global] Instance CmpOp_eq_dec : EqDecision CmpOp.
Proof. solve_decision. Defined.

Inductive Constant := KI64 (v : Z) | KF64 (f : Z) | KBool (b : bool) | KUtf8 (s : list byte).
#[global] Instance Constant_eq_dec : EqDecision Constant.
Proof. solve_decision. Defined.

(** A path is the bytes of its program. *)
Inductive Predicate :=
  | PAnd (l : list Predicate)
  | POr (l : list Predicate)
  | PNot (p : Predicate)
  | PCmp (op : CmpOp) (path : list byte) (c : Constant)
  | PBetween (path : list byte) (lo hi : Constant)
  | PBeginsWith (path : list byte) (prefix : list byte)
  | PIn (path : list byte) (members : list Constant)
  | PExists (path : list byte).

(** [f64::partial_cmp]. *)
Definition partial_cmp (a b : Z) : option comparison :=
  if is_nan a || is_nan b then None else Some (scaled a ?= scaled b).

Definition relation (v : Value) (c : Constant) : option comparison :=
  match v, c with
  | VI64 v, KI64 c => Some (v ?= c)
  | VI64 v, KF64 c => Some (compare_i64_f64 v c)
  | VF64 v, KI64 c => if is_nan v then None else Some (CompOpp (compare_i64_f64 c v))
  | VF64 v, KF64 c => partial_cmp v c
  | VBool v, KBool c => Some (Z.b2z v ?= Z.b2z c)
  | VStr v, KUtf8 c => Some (bcmp v c)
  | _, _ => None
  end.

Definition cmp_matches (op : CmpOp) (o : comparison) : bool :=
  match op, o with
  | CEq, Eq | CLt, Lt | CGt, Gt => true
  | CNe, (Lt | Gt) | CLe, (Lt | Eq) | CGe, (Gt | Eq) => true
  | _, _ => false
  end.

(** [s.as_bytes().starts_with(p)]. *)
Fixpoint starts_with (s p : list byte) : bool :=
  match p, s with
  | [], _ => true
  | _ :: _, [] => false
  | y :: p, x :: s => (u8 x =? u8 y) && starts_with s p
  end.

(** The verdict of a comparison leaf on one value. *)
Definition cmp_test (op : CmpOp) (c : Constant) (v : Value) : bool :=
  match relation v c with Some o => cmp_matches op o | None => false end.
Definition between_test (lo hi : Constant) (v : Value) : bool :=
  match relation v lo, relation v hi with
  | Some l, Some h => negb (bool_decide (l = Lt)) && negb (bool_decide (h = Gt))
  | _, _ => false
  end.
Definition begins_with_test (p : list byte) (v : Value) : bool :=
  match v with VStr s => starts_with s p | _ => false end.
Definition in_test (members : list Constant) (v : Value) : bool :=
  existsb (fun c => bool_decide (relation v c = Some Eq)) members.

Section verdict.
  (** The values a path program resolves to in the document at hand. *)
Context (values : list byte -> list Value).

Fixpoint verdict (p : Predicate) : bool :=
  match p with
  | PAnd l => forallb verdict l
  | POr l => existsb verdict l
  | PNot p => negb (verdict p)
  | PCmp op path c => existsb (cmp_test op c) (values path)
  | PBetween path lo hi => existsb (between_test lo hi) (values path)
  | PBeginsWith path prefix => existsb (begins_with_test prefix) (values path)
  | PIn path members => existsb (in_test members) (values path)
  | PExists path => match values path with [] => false | _ => true end
  end.
End verdict.

(** ** Values and constants as scalars *)

Definition value_scalar (v : Value) : IndexScalar :=
  match v with
  | VBool b => SBool b
  | VI64 i => SI64 i
  | VF64 f => SF64 f
  | VStr s => SUtf8 s
  | _ => Null
  end.

Definition const_scalar (c : Constant) : IndexScalar :=
  match c with KI64 v => SI64 v | KF64 f => SF64 f | KBool b => SBool b | KUtf8 s => SUtf8 s end.

(** Literals of the language: floats are not NaN. *)
Definition wf_const (c : Constant) : Prop :=
  wf_scalar (const_scalar c) /\ match c with KF64 f => is_nan f = false | _ => True end.

Lemma wf_value_scalar v : wf_scalar_value v -> wf_scalar (value_scalar v).
Proof. by destruct v. Qed.

Lemma mul_UNIT_compare a b : (a * UNIT ?= b * UNIT) = (a ?= b).
Proof.
  pose proof UNIT_pos.
  destruct (Z.compare_spec (a * UNIT) (b * UNIT)), (Z.compare_spec a b); done || nia.
Qed.

(** The comparison table is the order of scalars. *)
Lemma relation_scalar v c :
  wf_scalar_value v -> wf_const c -> relation v c = scalar_cmp (value_scalar v) (const_scalar c).
Proof.
  unfold wf_const. intros Hv [Hc Hn]. destruct v as [|b|i|f|s|items|entries], c as [j|g|x|r]; cbn in Hv, Hc, Hn;
    cbn [relation value_scalar const_scalar scalar_cmp number mbind option_bind]; try done.
  - by rewrite mul_UNIT_compare.
  - rewrite Hn. cbn [mbind option_bind]. by rewrite compare_i64_f64_exact.
  - destruct (is_nan f) eqn:Hf; [done|]. cbn [mbind option_bind].
    rewrite compare_i64_f64_exact by done. by rewrite <- Z.compare_antisym.
  - unfold partial_cmp. rewrite Hn. by destruct (is_nan f).
  - by destruct (is_nan f).
  - by destruct (is_nan f).
Qed.

Lemma starts_with_prefix s p : starts_with s p = true <-> p `prefix_of` s.
Proof.
  revert s. induction p as [|y p IH]; intros s; [split; [intros _; apply prefix_nil|by destruct s]|].
  destruct s as [|x s]; cbn [starts_with].
  - split; [done|]. intros [k H]. done.
  - rewrite andb_true_iff, IH, Z.eqb_eq. split.
    + intros [E%u8_inj [k ->]]. subst. by exists k.
    + intros [k [= -> ->]]. split; [done|by exists k].
Qed.
