(* ===== verification/Bounds.v ===== *)
(** * Bounds: index ranges of key conditions

    [inf-query/src/partiql/compile.rs], bound construction, and the range edges
    of [access.rs]. A key condition on an indexed path becomes one interval of
    encoded keys: same-type literals bind at their key, over-long strings at
    their truncated image, prefixes at their successor, and numbers of the other
    type at the nearest representable neighbour. The theorem is that the interval
    contains the key of a stored value exactly when the predicate machine's
    comparison holds of it. *)

From S2P Require Import Prelude F64 ByteOrder Utf8 IndexKey Doc Predicate.

Inductive RangeEdge := Unbounded | Included (k : list byte) | Excluded (k : list byte).

Definition admits_from_below (e : RangeEdge) (key : list byte) : bool :=
  match e with
  | Unbounded => true
  | Included edge => match bcmp key edge with Lt => false | _ => true end
  | Excluded edge => match bcmp key edge with Gt => true | _ => false end
  end.

Definition admits_from_above (e : RangeEdge) (key : list byte) : bool :=
  match e with
  | Unbounded => true
  | Included edge => match bcmp key edge with Gt => false | _ => true end
  | Excluded edge => match bcmp key edge with Lt => true | _ => false end
  end.

Record Interval := { lo : RangeEdge; hi : RangeEdge }.

Definition unbounded : Interval := {| lo := Unbounded; hi := Unbounded |}.
Definition empty_fixed (key : list byte) : Interval :=
  {| lo := Included key; hi := Excluded key |}.

Definition is_excluded (e : RangeEdge) : bool := match e with Excluded _ => true | _ => false end.

Definition tighter_lo (a b : RangeEdge) : RangeEdge :=
  match a, b with
  | Unbounded, _ => b
  | _, Unbounded => a
  | (Included x | Excluded x), (Included y | Excluded y) =>
      match bcmp x y with
      | Gt => a
      | Lt => b
      | Eq => if is_excluded a then a else b
      end
  end.

Definition tighter_hi (a b : RangeEdge) : RangeEdge :=
  match a, b with
  | Unbounded, _ => b
  | _, Unbounded => a
  | (Included x | Excluded x), (Included y | Excluded y) =>
      match bcmp x y with
      | Lt => a
      | Gt => b
      | Eq => if is_excluded a then a else b
      end
  end.

Definition intersect (a b : Interval) : Interval :=
  {| lo := tighter_lo (lo a) (lo b); hi := tighter_hi (hi a) (hi b) |}.

(** A literal of the statement, and [constant] which makes it an operand. *)
Inductive Lit := LI64 (v : Z) | LF64 (f : Z) | LBool (b : bool) | LStr (s : list byte).

Definition constant (l : Lit) : Constant :=
  match l with LI64 v => KI64 v | LF64 f => KF64 f | LBool b => KBool b | LStr s => KUtf8 s end.

(** [expect("caller admits the value by construction")]. *)
Definition encode_key {E} (t : IndexKeyType) (v : IndexScalar) : outcome E (list byte) :=
  match index_key_encode t v IndexKeyBuf_new with
  | Ok buf => as_bytes buf
  | _ => Panic
  end.

Definition same_type_interval {E} (cmp : CmpOp) (key : list byte) : outcome E Interval :=
  match cmp with
  | CEq => Ok {| lo := Included key; hi := Included key |}
  | CLt => Ok {| lo := Unbounded; hi := Excluded key |}
  | CLe => Ok {| lo := Unbounded; hi := Included key |}
  | CGt => Ok {| lo := Excluded key; hi := Unbounded |}
  | CGe => Ok {| lo := Included key; hi := Unbounded |}
  | CNe => Panic
  end.

Definition utf8_interval {E} (cmp : CmpOp) (s : list byte) : outcome E Interval :=
  match index_key_encode TUtf8 (SUtf8 s) IndexKeyBuf_new with
  | Ok buf => key ← as_bytes buf; same_type_interval cmp key
  | Panic => Panic
  | Err _ =>
      '(image, _) ← index_key_escape_prefix s IndexKeyBuf_new;
      image ← as_bytes image;
      match cmp with
      | CEq => Ok (empty_fixed image)
      | CLt | CLe => Ok {| lo := Unbounded; hi := Included image |}
      | CGt | CGe => Ok {| lo := Excluded image; hi := Unbounded |}
      | CNe => Panic
      end
  end.

(** [image.iter().rposition(|&b| b != 0xFF)]: the last byte that can be
    incremented. *)
Fixpoint rposition_not_ff (l : list byte) (i : nat) : option nat :=
  match l with
  | [] => None
  | b :: l =>
      match rposition_not_ff l (S i) with
      | Some j => Some j
      | None => if u8 b =? 255 then None else Some i
      end
  end.

(** [checked_add] of a byte and one. *)
Definition prefix_successor (image : list byte) : option (list byte) :=
  last ← rposition_not_ff image 0;
  b ← image !! last;
  next ← checked_add 8 (u8 b) 1;
  Some (take last image ++ [b8 next]).

Definition prefix_interval {E} (prefix : list byte) : outcome E Interval :=
  match prefix with
  | [] => Ok unbounded
  | _ =>
      '(image_buf, full_len) ← index_key_escape_prefix prefix IndexKeyBuf_new;
      image ← as_bytes image_buf;
      if ORDERED_KEY_MAX <=? full_len then Ok (empty_fixed image)
      else
        let hi := match prefix_successor image with
                  | Some successor => Excluded successor
                  | None => Unbounded
                  end in
        Ok {| lo := Included image; hi := hi |}
  end.

(** [t + 1] and [t - 1] on [i64], wrapping. *)
Definition iadd (a b : Z) : Z := cast_signed (wrap 64 (a + b)).

Definition i64_cross_interval {E} (cmp : CmpOp) (c : Z) : outcome E Interval :=
  if fle TWO_POW_63 c then
    match cmp with
    | CLt | CLe => Ok unbounded
    | _ => Ok (empty_fixed (be_bytes 8 0))
    end
  else if flt c NEG_TWO_POW_63 then
    match cmp with
    | CGt | CGe => Ok unbounded
    | _ => Ok (empty_fixed (be_bytes 8 0))
    end
  else
    let truncated := trunc c in
    let t := as_i64 truncated in
    let key v := encode_key TI64 (SI64 v) in
    if feq c truncated then k ← key t; same_type_interval cmp k
    else
      let ceil := if flt truncated c then iadd t 1 else t in
      let floor := if flt c truncated then iadd t (-1) else t in
      match cmp with
      | CEq => k ← key t; Ok (empty_fixed k)
      | CGt | CGe => k ← key ceil; Ok {| lo := Included k; hi := Unbounded |}
      | CLt | CLe => k ← key floor; Ok {| lo := Unbounded; hi := Included k |}
      | CNe => Panic
      end.

Definition f64_cross_interval {E} (cmp : CmpOp) (c : Z) : outcome E Interval :=
  let g := of_i64 c in
  let lossless := match index_scalar_coerce TF64 (SI64 c) with Ok (SF64 _) => true | _ => false end in
  g_key ← encode_key TF64 (SF64 g);
  if lossless then same_type_interval cmp g_key
  else
    _ ← rassert (len g_key =? 8);
    let word := be_val g_key in
    let side := compare_i64_f64 c g in
    '(above, below) ← match side with
      | Lt => below ← expect (checked_sub word 1); Ok (word, below)
      | Gt => above ← expect (checked_add 64 word 1); Ok (above, word)
      | Eq => Panic
      end;
    match cmp with
    | CEq => Ok (empty_fixed g_key)
    | CGt | CGe => Ok {| lo := Included (be_bytes 8 above); hi := Unbounded |}
    | CLt | CLe => Ok {| lo := Unbounded; hi := Included (be_bytes 8 below) |}
    | CNe => Panic
    end.

(** [KeyTypeMismatch]: a literal outside the index's family. *)
Inductive BoundError := KeyTypeMismatch (t : IndexKeyType).

Definition lit_interval (t : IndexKeyType) (cmp : CmpOp) (lit : Lit) : outcome BoundError Interval :=
  match t, lit with
  | TUtf8, LStr s => utf8_interval cmp s
  | TBool, LBool b => k ← encode_key TBool (SBool b); same_type_interval cmp k
  | TI64, LI64 v => k ← encode_key TI64 (SI64 v); same_type_interval cmp k
  | TF64, LF64 f => k ← encode_key TF64 (SF64 f); same_type_interval cmp k
  | TI64, LF64 f => i64_cross_interval cmp f
  | TF64, LI64 v => f64_cross_interval cmp v
  | _, _ => Err (KeyTypeMismatch t)
  end.

Inductive KeyOp :=
  | KCmp (op : CmpOp) (l : Lit)
  | KBetween (lo hi : Lit)
  | KBeginsWith (p : list byte).

Definition key_op_interval (t : IndexKeyType) (op : KeyOp) : outcome BoundError Interval :=
  match op with
  | KCmp cmp lit => lit_interval t cmp lit
  | KBetween lo hi =>
      a ← lit_interval t CGe lo;
      b ← lit_interval t CLe hi;
      Ok (intersect a b)
  | KBeginsWith prefix =>
      if bool_decide (t = TUtf8) then prefix_interval prefix else Err (KeyTypeMismatch t)
  end.

(** ** Intervals *)

Definition admits (i : Interval) (k : list byte) : bool :=
  admits_from_below (lo i) k && admits_from_above (hi i) k.

(** Order facts about three strings, by cases on their comparisons. *)
Ltac bcmp_facts :=
  repeat match goal with
    | H : bcmp _ _ = Eq |- _ => apply bcmp_eq in H
    | H : bcmp _ _ = Gt |- _ => apply bcmp_gt in H
    end; subst; rewrite ?bcmp_refl in *; try done;
  repeat match goal with H : bcmp ?a ?b = Lt |- _ => change (blt a b) in H end;
  exfalso;
  match goal with
  | H1 : blt ?a ?b, H2 : blt ?b ?c, H3 : blt ?c ?a |- _ =>
      exact (blt_irrefl a (blt_trans a c a (blt_trans a b c H1 H2) H3))
  | H1 : blt ?a ?b, H2 : blt ?b ?a |- _ => exact (blt_irrefl a (blt_trans a b a H1 H2))
  | H1 : blt ?a ?a |- _ => exact (blt_irrefl a H1)
  end.

Lemma admits_tighter_lo a b k :
  admits_from_below (tighter_lo a b) k = admits_from_below a k && admits_from_below b k.
Proof.
  destruct a as [|x|x], b as [|y|y]; cbn [tighter_lo is_excluded admits_from_below];
    rewrite ?andb_true_r; try done;
    destruct (bcmp x y) eqn:Exy; cbn [admits_from_below];
    destruct (bcmp k x) eqn:Ekx; destruct (bcmp k y) eqn:Eky; try done; bcmp_facts.
Qed.

Lemma admits_tighter_hi a b k :
  admits_from_above (tighter_hi a b) k = admits_from_above a k && admits_from_above b k.
Proof.
  destruct a as [|x|x], b as [|y|y]; cbn [tighter_hi is_excluded admits_from_above];
    rewrite ?andb_true_r; try done;
    destruct (bcmp x y) eqn:Exy; cbn [admits_from_above];
    destruct (bcmp k x) eqn:Ekx; destruct (bcmp k y) eqn:Eky; try done; bcmp_facts.
Qed.

Lemma admits_intersect a b k : admits (intersect a b) k = admits a k && admits b k.
Proof.
  unfold admits, intersect. cbn [lo hi]. rewrite admits_tighter_lo, admits_tighter_hi.
  destruct (admits_from_below (lo a) k), (admits_from_below (lo b) k),
    (admits_from_above (hi a) k), (admits_from_above (hi b) k); done.
Qed.

Lemma admits_empty x k : admits (empty_fixed x) k = false.
Proof. unfold admits. cbn. by destruct (bcmp k x). Qed.

(** What an interval promises for the stored values of type [t]: it contains
    the key of a value exactly when [test] holds of the value. *)
Definition exact_for (t : IndexKeyType) (i : Interval) (test : IndexScalar -> bool) : Prop :=
  forall w, storable t w -> admits i (key_of w) = test w.

Definition scalar_test (cmp : CmpOp) (c w : IndexScalar) : bool :=
  match scalar_cmp w c with Some o => cmp_matches cmp o | None => false end.

Lemma wf_new_buf : wf_buf IndexKeyBuf_new.
Proof. done. Qed.

Lemma encode_key_Ok {E} t v :
  wf_scalar v -> index_scalar_coerce t v = Ok v -> encode_key (E:=E) t v = Ok (key_of v).
Proof.
  intros Hv Hc. destruct (encode_writes_key t v v _ Hv wf_new_buf Hc) as (o & Ho & Hk & Hb).
  unfold encode_key. rewrite Ho. unfold as_bytes, slice in *.
  by destruct (get_range _ _ _); [injection Hk as ->|].
Qed.

(** A literal of the index's own type binds at its key. *)
Lemma same_type_exact {E} t cmp c :
  cmp <> CNe -> storable t c ->
  exists i, same_type_interval (E:=E) cmp (key_of c) = Ok i /\ exact_for t i (scalar_test cmp c).
Proof.
  intros Hne Hc. destruct cmp; try done; (eexists; split; [done|]); intros w Hw;
    unfold scalar_test, admits; rewrite (storable_order t w c Hw Hc); cbn [lo hi admits_from_below admits_from_above];
    by destruct (bcmp (key_of w) (key_of c)).
Qed.

Lemma storable_i64 v : in_i64 v -> storable TI64 (SI64 v).
Proof. intros. unfold storable. split_and!; scalar_eq. Qed.

Lemma storable_f64_of f : in_u 64 f -> is_nan f = false -> storable TF64 (SF64 f).
Proof. intros. unfold storable. split_and!; scalar_eq. Qed.

Lemma i64_key {E} v : in_i64 v -> encode_key (E:=E) TI64 (SI64 v) = Ok (key_of (SI64 v)).
Proof. intros. by apply encode_key_Ok. Qed.

Lemma f64_key {E} f :
  in_u 64 f -> is_nan f = false -> encode_key (E:=E) TF64 (SF64 f) = Ok (key_of (SF64 f)).
Proof. intros. apply encode_key_Ok; [done|]. cbn. by rewrite H0. Qed.

(** ** Strings *)

(** A key no longer than [n] against the first [n] bytes of an escape code that
    does not fit: the truncated image is never below the string. *)
Lemma bcmp_truncated s' s n :
  (length (escape s' ++ [x00]) <= n <= length (escape s))%nat ->
  match bcmp s' s with
  | Lt => bcmp (escape s' ++ [x00]) (take n (escape s)) <> Gt
  | Gt => bcmp (escape s' ++ [x00]) (take n (escape s)) = Gt
  | Eq => False
  end.
Proof.
  revert s n. induction s' as [|x s' IH]; intros s n; rewrite length_app; cbn [escape length]; intros Hn.
  { destruct s as [|y s]; [cbn in Hn; lia|]. destruct n as [|n]; [lia|]. cbn [escape].
    destruct (Z.eqb_spec (u8 y) 0) as [Ey|Ey]; cbn [app take bcmp]; change (u8 x00) with 0.
    - rewrite Ey. cbn. destruct n; done.
    - pose proof (u8_range y). rewrite (proj2 (Z.compare_lt_iff 0 _)) by lia. done. }
  destruct s as [|y s]; [cbn in Hn; destruct (u8 x =? 0); cbn in Hn; lia|].
  destruct n as [|n]; [destruct (u8 x =? 0); cbn in Hn; lia|]. pose proof (u8_range x). pose proof (u8_range y).
  cbn [escape bcmp] in *. destruct (Z.eqb_spec (u8 x) 0) as [Ex|Ex], (Z.eqb_spec (u8 y) 0) as [Ey|Ey];
    cbn [app take bcmp length] in *; rewrite ?Ex, ?Ey.
  - destruct n as [|n]; [lia|]. cbn [take bcmp]. change (u8 xff ?= u8 xff) with Eq. cbn [Z.compare].
    apply IH. rewrite length_app. cbn. lia.
  - by rewrite (proj2 (Z.compare_lt_iff 0 _)) by lia.
  - by rewrite (proj2 (Z.compare_gt_iff _ 0)) by lia.
  - destruct (u8 x ?= u8 y); [|done..]. apply IH. rewrite length_app. cbn. lia.
Qed.

Lemma storable_utf8 w : storable TUtf8 w -> exists s, w = SUtf8 s /\ len (escape s ++ [x00]) <= ORDERED_KEY_MAX.
Proof. intros (_ & Ht & _ & Hl). destruct w; try done. eauto. Qed.

Lemma utf8_interval_exact {E} cmp s :
  cmp <> CNe -> utf8_valid s = true ->
  exists i, utf8_interval (E:=E) cmp s = Ok i /\ exact_for TUtf8 i (scalar_test cmp (SUtf8 s)).
Proof.
  intros Hne Hs. unfold utf8_interval.
  destruct (Z.ltb_spec ORDERED_KEY_MAX (utf8_encoded_len s)) as [Hl|Hl].
  - assert (index_key_encode TUtf8 (SUtf8 s) IndexKeyBuf_new = Err TooLong) as ->.
    { unfold index_key_encode. cbn [index_scalar_coerce]. by rewrite (proj2 (Z.ltb_lt _ _) Hl). }
    destruct (escape_prefix_Ok (E:=E) s _ wf_new_buf) as (o & -> & Ho & _). ok_step. rewrite Ho. ok_step.
    rewrite <- len_key_utf8 in Hl. cbn [key_of] in Hl.
    assert (forall w, storable TUtf8 w -> exists s', w = SUtf8 s' /\
      match bcmp s' s with
      | Lt => bcmp (key_of w) (take (Z.to_nat ORDERED_KEY_MAX) (escape s)) <> Gt
      | Gt => bcmp (key_of w) (take (Z.to_nat ORDERED_KEY_MAX) (escape s)) = Gt
      | Eq => False
      end) as Hw.
    { intros w (s' & -> & Hw)%storable_utf8. exists s'. split; [done|]. apply bcmp_truncated.
      unfold len, ORDERED_KEY_MAX in *. rewrite length_app in *. cbn [length] in *. lia. }
    destruct cmp; try done; (eexists; split; [done|]); intros w (s' & -> & Hc)%Hw;
      rewrite ?admits_empty; unfold admits, scalar_test; cbn [scalar_cmp lo hi admits_from_below admits_from_above];
      destruct (bcmp s' s); try done; rewrite ?Hc; try done;
      by destruct (bcmp (key_of (SUtf8 s')) _).
  - assert (index_scalar_coerce TUtf8 (SUtf8 s) = Ok (SUtf8 s)) as Hc.
    { cbn. by rewrite (proj2 (Z.ltb_ge _ _) Hl). }
    destruct (encode_writes_key TUtf8 (SUtf8 s) (SUtf8 s) _ Hs wf_new_buf Hc) as (o & -> & Ho & _).
    assert (as_bytes (E:=E) o = Ok (key_of (SUtf8 s))) as ->.
    { unfold as_bytes, slice in *. by destruct (get_range _ _ _); [injection Ho as ->|]. }
    ok_step. apply same_type_exact; [done|]. by apply (coerce_Ok TUtf8 (SUtf8 s)).
Qed.

(** ** Prefixes *)

(** The successor, by structure. *)
Fixpoint successor (l : list byte) : option (list byte) :=
  match l with
  | [] => None
  | b :: l =>
      match successor l with
      | Some l' => Some (b :: l')
      | None => if u8 b =? 255 then None else Some [b8 (u8 b + 1)]
      end
  end.

Lemma rposition_shift l i : rposition_not_ff l (S i) = S <$> rposition_not_ff l i.
Proof.
  revert i. induction l as [|b l IH]; intros i; [done|]. cbn [rposition_not_ff].
  rewrite (IH (S i)). destruct (rposition_not_ff l (S i)); cbn; [done|]. by destruct (_ =? 255).
Qed.

Lemma rposition_lookup l j :
  rposition_not_ff l 0 = Some j -> exists c, l !! j = Some c /\ u8 c + 1 < 256.
Proof.
  revert j. induction l as [|b l IH]; intros j; [done|]. cbn [rposition_not_ff].
  rewrite rposition_shift. destruct (rposition_not_ff l 0) as [i|]; cbn.
  - intros [= <-]. by apply IH.
  - destruct (Z.eqb_spec (u8 b) 255); [done|]. intros [= <-]. exists b. pose proof (u8_range b).
    split; [done|lia].
Qed.

Lemma prefix_successor_eq l : prefix_successor l = successor l.
Proof.
  induction l as [|b l IH]; [done|]. unfold prefix_successor in *. cbn [rposition_not_ff successor].
  rewrite rposition_shift. rewrite <- IH. clear IH.
  destruct (rposition_not_ff l 0) as [j|] eqn:Ej; cbn [fmap option_fmap option_map mbind option_bind].
  - destruct (rposition_lookup l j Ej) as (c & Hj & Hc).
    assert ((b :: l) !! S j = Some c) as Hj' by done. rewrite Hj, Hj'. cbn [mbind option_bind].
    by rewrite (proj2 (checked_add_Some 8 (u8 c) 1 (u8 c + 1))) by lia.
  - destruct (Z.eqb_spec (u8 b) 255) as [|Hb]; cbn; [done|].
    pose proof (u8_range b). by rewrite (proj2 (checked_add_Some 8 (u8 b) 1 (u8 b + 1))) by lia.
Qed.

(** Between a prefix and its successor lie exactly the strings it starts. *)
Lemma successor_interval l k :
  admits_from_below (Included l) k &&
    admits_from_above (match successor l with Some s => Excluded s | None => Unbounded end) k = true <->
  l `prefix_of` k.
Proof.
  revert k. induction l as [|b l IH]; intros k.
  { split; [intros _; apply prefix_nil|]. intros _. by destruct k. }
  destruct k as [|x k].
  { split; [done|]. intros [? ?]. done. }
  assert ((b :: l) `prefix_of` (x :: k) <-> u8 x = u8 b /\ l `prefix_of` k) as ->.
  { split.
    - intros [r [= -> ->]]. split; [done|by exists r].
    - intros [->%u8_inj [r ->]]. by exists r. }
  rewrite <- (IH k). clear IH. pose proof (u8_range b). pose proof (u8_range x).
  cbn [successor admits_from_below bcmp]. destruct (successor l) as [l'|]; cbn [admits_from_above bcmp].
  - destruct (Z.compare_spec (u8 x) (u8 b)); naive_solver lia.
  - destruct (Z.eqb_spec (u8 b) 255); cbn [admits_from_above bcmp].
    + destruct (Z.compare_spec (u8 x) (u8 b)); naive_solver lia.
    + rewrite u8_b8_small by lia. destruct (Z.compare_spec (u8 x) (u8 b)), (Z.compare_spec (u8 x) (u8 b + 1));
        try lia; try naive_solver lia. destruct k; naive_solver lia.
Qed.

(** The prefix law of the escape code. *)
Lemma escape_prefix_of p s :
  escape p `prefix_of` escape s ++ [x00] <-> p `prefix_of` s.
Proof.
  split.
  - revert s. induction p as [|x p IH]; intros s; [intros _; apply prefix_nil|].
    destruct s as [|y s]; cbn [escape].
    + destruct (Z.eqb_spec (u8 x) 0) as [|Hx]; intros [r Er]; [done|].
      by injection Er as <- _.
    + destruct (u8 x =? 0) eqn:Ex, (u8 y =? 0) eqn:Ey; intros [r [= -> Er]].
      * destruct (IH s) as [q ->]; [by exists r|]. by exists q.
      * congruence.
      * congruence.
      * destruct (IH s) as [q ->]; [by exists r|]. by exists q.
  - intros [r ->]. rewrite escape_app, <- app_assoc. by eexists.
Qed.

Lemma prefix_interval_exact {E} p :
  exists i, prefix_interval (E:=E) p = Ok i /\
    exact_for TUtf8 i (fun w => match w with SUtf8 s => starts_with s p | _ => false end).
Proof.
  unfold prefix_interval. destruct p as [|x p'] eqn:Ep.
  { eexists. split; [done|]. intros w (s & -> & _)%storable_utf8. by destruct s. }
  rewrite <- Ep. destruct (escape_prefix_Ok (E:=E) p _ wf_new_buf) as (o & -> & Ho & _).
  ok_step. rewrite Ho. ok_step. destruct (Z.leb_spec ORDERED_KEY_MAX (len (escape p))) as [Hl|Hl].
  - eexists. split; [done|]. intros w (s & -> & Hs)%storable_utf8. rewrite admits_empty. symmetry.
    apply not_true_iff_false. rewrite starts_with_prefix. intros [r ->].
    rewrite escape_app in Hs. lens.
  - eexists. split; [done|]. intros w (s & -> & Hs)%storable_utf8.
    rewrite take_ge by (unfold len, ORDERED_KEY_MAX in *; lia). rewrite prefix_successor_eq.
    apply eq_true_iff_eq. rewrite starts_with_prefix, <- escape_prefix_of. apply successor_interval.
Qed.

(** ** Numbers of the other type *)

Lemma storable_i64_inv w : storable TI64 w -> exists i, w = SI64 i /\ in_i64 i.
Proof. intros (Hw & Ht & _). destruct w; try done. eauto. Qed.

Lemma bcmp_i64_keys i j :
  in_i64 i -> in_i64 j -> bcmp (key_of (SI64 i)) (key_of (SI64 j)) = (i ?= j).
Proof.
  intros Hi Hj. pose proof (storable_order TI64 (SI64 i) (SI64 j) (storable_i64 i Hi) (storable_i64 j Hj)) as H.
  cbn [scalar_cmp number mbind option_bind] in H. rewrite mul_UNIT_compare in H. congruence.
Qed.

Lemma iadd_small a b : in_i64 (a + b) -> iadd a b = a + b.
Proof.
  unfold in_i64, iadd, cast_signed, wrap. intros H. destruct (Z.le_gt_cases 0 (a + b)).
  - rewrite Z.mod_small by lia. case Z.ltb_spec; lia.
  - rewrite <- (Z_mod_plus_full _ 1), Z.mod_small by lia. case Z.ltb_spec; lia.
Qed.

Lemma i64_cross_exact {E} cmp c :
  cmp <> CNe -> in_u 64 c -> is_nan c = false ->
  exists i, i64_cross_interval (E:=E) cmp c = Ok i /\ exact_for TI64 i (scalar_test cmp (SF64 c)).
Proof.
  intros Hne Hc Hn. unfold i64_cross_interval, fle, flt, feq. rewrite is_nan_trunc, Hn by done.
  rewrite scaled_TWO_POW_63, scaled_NEG_TWO_POW_63, scaled_trunc by done.
  change (is_nan NEG_TWO_POW_63) with false. change (is_nan TWO_POW_63) with false. cbn [negb andb].
  pose proof UNIT_pos as HU.
  assert (forall i, scalar_test cmp (SF64 c) (SI64 i) = cmp_matches cmp (i * UNIT ?= scaled c)) as Ht.
  { intros i. unfold scalar_test. cbn. by rewrite Hn. }
  destruct (Z.leb_spec (2 ^ 63 * UNIT) (scaled c)) as [|H1].
  { destruct cmp; try done; (eexists; split; [done|]); intros w (i & -> & Hi)%storable_i64_inv;
      unfold in_i64 in Hi; rewrite Ht, (proj2 (Z.compare_lt_iff _ _)) by nia; by rewrite ?admits_empty. }
  destruct (Z.ltb_spec (scaled c) (- 2 ^ 63 * UNIT)) as [|H2].
  { destruct cmp; try done; (eexists; split; [done|]); intros w (i & -> & Hi)%storable_i64_inv;
      unfold in_i64 in Hi; rewrite Ht, (proj2 (Z.compare_gt_iff _ _)) by nia; by rewrite ?admits_empty. }
  destruct (as_i64_in_range c Hn ltac:(lia)) as [Eq Hq]. pose proof (large_integral c) as Hlarge.
  remember (Z.quot (scaled c) UNIT) as q. rewrite Eq in Hq. clear Eq.
  assert (as_i64 (trunc c) = q) as Ea.
  { destruct (as_i64_in_range (trunc c)) as [-> _]; rewrite ?is_nan_trunc, ?scaled_trunc, <- ?Heqq by done;
      [done|unfold in_i64 in Hq; nia|apply quot_UNIT]. }
  rewrite Ea. destruct (Z.eqb_spec (scaled c) (q * UNIT)) as [Ec|Ec].
  { rewrite i64_key by done. ok_step.
    destruct (same_type_exact (E:=E) TI64 cmp (SI64 q) Hne (storable_i64 q Hq)) as (i & -> & Hi).
    exists i. split; [done|]. intros w Hw. rewrite Hi by done. unfold scalar_test.
    rewrite (scalar_cmp_eq_r w (SI64 q) (SF64 c)); [done|]. cbn. rewrite Hn. cbn. by rewrite Ec, Z.compare_refl. }
  pose proof (Z.quot_rem' (scaled c) UNIT) as Er. rewrite <- Heqq in Er.
  pose proof (Z.rem_bound_abs (scaled c) UNIT ltac:(lia)) as Hr.
  assert (- 2 ^ 53 < q < 2 ^ 53) as Hsmall by (destruct (Z.le_gt_cases (2 ^ 52 * UNIT) (Z.abs (scaled c))); [lia|nia]).
  assert (in_i64 (q + 1) /\ in_i64 (q + -1)) as [Hq1 Hq2] by (unfold in_i64; lia).
  rewrite !iadd_small by done.
  set (ceil := if q * UNIT <? scaled c then q + 1 else q).
  set (floor := if scaled c <? q * UNIT then q + -1 else q).
  assert (in_i64 ceil /\ in_i64 floor) as [Hce Hfl] by (unfold ceil, floor; split; case Z.ltb_spec; done).
  rewrite !i64_key by done. ok_step.
  assert (forall i, in_i64 i -> cmp_matches cmp (i * UNIT ?= scaled c) =
    match cmp with CEq => false | CGt | CGe => ceil <=? i | CLt | CLe => i <=? floor | CNe => true end) as Hm.
  { intros i _. unfold ceil, floor. destruct (Z.compare_spec (i * UNIT) (scaled c)); [|
      destruct cmp; cbn; try done; symmetry;
        destruct (Z.ltb_spec (q * UNIT) (scaled c)), (Z.ltb_spec (scaled c) (q * UNIT)); try lia; try nia..].
    exfalso. assert (i = q) by nia. subst i. done. }
  destruct cmp; try done; (eexists; split; [done|]); intros w (i & -> & Hi)%storable_i64_inv;
    rewrite Ht, Hm by done; rewrite ?admits_empty; try done;
    unfold admits; cbn [lo hi admits_from_below admits_from_above]; rewrite bcmp_i64_keys by done;
    rewrite ?andb_true_r; cbn [andb]; apply eq_true_iff_eq; rewrite Z.leb_le;
    by destruct (Z.compare_spec i ceil), (Z.compare_spec i floor); split; lia || done.
Qed.

Lemma storable_f64_inv w : storable TF64 w -> exists f, w = SF64 f /\ in_u 64 f /\ is_nan f = false.
Proof.
  intros Hs. pose proof Hs as (_ & Ht & _). destruct w as [| | |f|]; try done.
  exists f. split; [done|]. by apply storable_f64.
Qed.

Lemma f64_word_interior g :
  in_u 64 g -> is_nan g = false -> 1 <= f64_word g /\ f64_word g + 1 < 2 ^ 64.
Proof.
  intros Hg Hn. pose proof (magnitude_range g). unfold is_nan, INFINITY in Hn. apply Z.ltb_ge in Hn.
  destruct (f64_word_cases g Hg ltac:(unfold is_nan, INFINITY; lia)) as [(?&->&_)|[(?&->&_)|(?&->&_)]]; lia.
Qed.

(** An integer no float equals lies strictly between two neighbouring words. *)
Lemma lossy_neighbours c f :
  in_i64 c -> in_u 64 f -> is_nan f = false -> (forall h, scaled h <> c * UNIT) ->
  let g := of_i64 c in
  if scaled g <? c * UNIT
  then (scaled f ?= c * UNIT) = if f64_word f <=? f64_word g then Lt else Gt
  else (scaled f ?= c * UNIT) = if f64_word f <? f64_word g then Lt else Gt.
Proof.
  intros Hc Hf Hn Hlossy g. destruct (of_i64_spec c Hc) as (Hu & Hng & _ & Hnear). fold g in Hu, Hng, Hnear.
  specialize (Hnear f). pose proof (Hlossy f) as Lf. pose proof (Hlossy g) as Lg.
  pose proof (f64_word_compare f g Hf Hu Hn Hng) as Hw.
  destruct (Z.ltb_spec (scaled g) (c * UNIT)), (Z.compare_spec (scaled f) (scaled g)) as [E|E|E];
    rewrite ?Z.compare_eq_iff, ?Z.compare_lt_iff, ?Z.compare_gt_iff in Hw.
  all: first [case Z.leb_spec|case Z.ltb_spec]; intros; try lia;
    first [apply Z.compare_lt_iff; lia|apply Z.compare_gt_iff; lia].
Qed.

Lemma f64_cross_exact {E} cmp c :
  cmp <> CNe -> in_i64 c ->
  exists i, f64_cross_interval (E:=E) cmp c = Ok i /\ exact_for TF64 i (scalar_test cmp (SI64 c)).
Proof.
  intros Hne Hc. destruct (of_i64_spec c Hc) as (Hu & Hn & _ & _). unfold f64_cross_interval.
  rewrite f64_key by done. ok_step. pose proof (coerce_i64_to_f64_spec c Hc) as S. cbn [index_scalar_coerce].
  destruct (coerce_i64_to_f64 c) as [w|e|]; [|destruct S as [-> S]|done].
  { destruct S as [-> Es].
    destruct (same_type_exact (E:=E) TF64 cmp _ Hne (storable_f64_of _ Hu Hn)) as (i & -> & Hi).
    exists i. split; [done|]. intros w Hw. rewrite Hi by done. unfold scalar_test.
    rewrite (scalar_cmp_eq_r w (SF64 (of_i64 c)) (SI64 c)); [done|]. cbn. rewrite Hn. cbn.
    by rewrite Es, Z.compare_refl. }
  assert (forall f, is_nan f = false -> scalar_test cmp (SI64 c) (SF64 f) = cmp_matches cmp (scaled f ?= c * UNIT)) as Ht.
  { intros f Hf. unfold scalar_test. cbn. by rewrite Hf. }
  pose proof (fun f Hf Hnf => lossy_neighbours c f Hc Hf Hnf S) as Hside. cbv zeta in Hside.
  cbn [key_of]. rewrite len_be_bytes, be_val_be_bytes by by apply f64_word_range. cbn [rassert Z.eqb Z.of_nat].
  destruct (f64_word_interior _ Hu Hn) as [Hw1 Hw2].
  rewrite compare_i64_f64_exact by done. pose proof (S (of_i64 c)) as Sg.
  assert (forall x y, bcmp (be_bytes 8 x) (be_bytes 8 y) = (x ?= y) \/ ~ (in_u 64 x /\ in_u 64 y)) as Hcmp.
  { intros x y. destruct (decide (in_u 64 x /\ in_u 64 y)) as [[? ?]|]; [left|by right]. by apply bcmp_be_bytes. }
  destruct (Z.compare_spec (c * UNIT) (scaled (of_i64 c))) as [|L|L]; [by destruct (S (of_i64 c))| |].
  - rewrite (proj2 (Z.ltb_ge _ _)) in Hside by lia.
    unfold checked_sub. rewrite (proj2 (Z.leb_le _ _) Hw1). ok_step.
    destruct cmp; try done; (eexists; split; [done|]); intros w (f & -> & Hf & Hnf)%storable_f64_inv;
      rewrite ?admits_empty, Ht, Hside by done; pose proof (f64_word_range f Hf) as Hwf;
      unfold admits; cbn [lo hi admits_from_below admits_from_above key_of];
      try (destruct (Hcmp (f64_word f) (f64_word (of_i64 c))) as [->|Hx];
           [|destruct Hx; split; [done|by apply f64_word_range]]);
      try (destruct (Hcmp (f64_word f) (f64_word (of_i64 c) - 1)) as [->|Hx];
           [|destruct Hx; split; [done|unfold in_u in *; lia]]);
      destruct (Z.ltb_spec (f64_word f) (f64_word (of_i64 c))); cbn [cmp_matches]; try done;
      case Z.compare_spec; intros; done || lia.
  - rewrite (proj2 (Z.ltb_lt _ _)) in Hside by lia.
    unfold checked_add. rewrite (proj2 (Z.ltb_lt _ _) Hw2). ok_step.
    destruct cmp; try done; (eexists; split; [done|]); intros w (f & -> & Hf & Hnf)%storable_f64_inv;
      rewrite ?admits_empty, Ht, Hside by done; pose proof (f64_word_range f Hf) as Hwf;
      unfold admits; cbn [lo hi admits_from_below admits_from_above key_of];
      try (destruct (Hcmp (f64_word f) (f64_word (of_i64 c))) as [->|Hx];
           [|destruct Hx; split; [done|by apply f64_word_range]]);
      try (destruct (Hcmp (f64_word f) (f64_word (of_i64 c) + 1)) as [->|Hx];
           [|destruct Hx; split; [done|unfold in_u in *; lia]]);
      destruct (Z.leb_spec (f64_word f) (f64_word (of_i64 c))); cbn [cmp_matches]; try done;
      case Z.compare_spec; intros; done || lia.
Qed.

(** ** Key conditions *)

Definition wf_lit (l : Lit) : Prop := wf_const (constant l).

(** The condition a servable conjunct states of one value. *)
Definition key_op_test (op : KeyOp) (v : Value) : bool :=
  match op with
  | KCmp cmp l => cmp_test cmp (constant l) v
  | KBetween lo hi => between_test (constant lo) (constant hi) v
  | KBeginsWith p => begins_with_test p v
  end.

Definition wf_op (op : KeyOp) : Prop :=
  match op with
  | KCmp cmp l => cmp <> CNe /\ wf_lit l
  | KBetween lo hi => wf_lit lo /\ wf_lit hi
  | KBeginsWith _ => True
  end.

(** The literal's family is the index's. *)
Definition lit_fits (t : IndexKeyType) (l : Lit) : bool :=
  match t, l with
  | TUtf8, LStr _ | TBool, LBool _ | (TI64 | TF64), (LI64 _ | LF64 _) => true
  | _, _ => false
  end.

Lemma lit_interval_exact t cmp l :
  cmp <> CNe -> wf_lit l ->
  if lit_fits t l
  then exists i, lit_interval t cmp l = Ok i /\ exact_for t i (scalar_test cmp (const_scalar (constant l)))
  else lit_interval t cmp l = Err (KeyTypeMismatch t).
Proof.
  intros Hne [Hl Hn]. destruct t, l as [v|f|b|s]; cbn in Hl, Hn; cbn [lit_fits lit_interval constant const_scalar]; try done.
  - by apply utf8_interval_exact.
  - rewrite i64_key by done. ok_step. apply same_type_exact; [done|by apply storable_i64].
  - by apply i64_cross_exact.
  - by apply f64_cross_exact.
  - rewrite f64_key by done. ok_step. apply same_type_exact; [done|by apply storable_f64_of].
  - rewrite encode_key_Ok by done. ok_step. apply same_type_exact; [done|]. unfold storable. split_and!; scalar_eq.
Qed.

(** A value the index admits satisfies a test of scalars like its key's scalar. *)
Lemma admitted_test t v w c cmp :
  wf_scalar_value v -> wf_const c -> index_scalar_coerce t (value_scalar v) = Ok w ->
  scalar_test cmp (const_scalar c) w = cmp_test cmp c v.
Proof.
  intros Hv Hc Hw. destruct (coerce_Ok t _ w (wf_value_scalar v Hv) Hw) as [_ Heq].
  unfold scalar_test, cmp_test. by rewrite relation_scalar, (scalar_cmp_eq_l _ _ _ Heq).
Qed.

Lemma between_cmp lo hi v :
  between_test lo hi v = cmp_test CGe lo v && cmp_test CLe hi v.
Proof.
  unfold between_test, cmp_test. destruct (relation v lo) as [[]|], (relation v hi) as [[]|]; done.
Qed.

(** A key condition becomes an interval that is exact for the values the index
    admits, or is refused for a literal of another family; it never panics. *)
Lemma key_op_interval_exact t op :
  wf_op op ->
  match key_op_interval t op with
  | Ok i => forall v w, wf_scalar_value v -> index_scalar_coerce t (value_scalar v) = Ok w ->
              admits i (key_of w) = key_op_test op v
  | Err _ => True
  | Panic => False
  end.
Proof.
  intros Hop. destruct op as [cmp l|l h|p]; cbn [key_op_interval key_op_test].
  - destruct Hop as [Hne Hl]. pose proof (lit_interval_exact t cmp l Hne Hl) as H.
    destruct (lit_fits t l); [|by rewrite H]. destruct H as (i & -> & Hi). intros v w Hv Hw.
    rewrite Hi by by apply (coerce_Ok t _ w (wf_value_scalar v Hv)). by apply (admitted_test t).
  - destruct Hop as [Hl Hh]. pose proof (lit_interval_exact t CGe l ltac:(done) Hl) as H1.
    destruct (lit_fits t l); [|by rewrite H1]. destruct H1 as (i & -> & Hi). ok_step.
    pose proof (lit_interval_exact t CLe h ltac:(done) Hh) as H2.
    destruct (lit_fits t h); [|by rewrite H2]. destruct H2 as (j & -> & Hj). ok_step.
    intros v w Hv Hw. pose proof (coerce_Ok t _ w (wf_value_scalar v Hv) Hw) as [Hs _].
    rewrite admits_intersect, Hi, Hj, between_cmp by done. by rewrite !(admitted_test t v).
  - destruct (bool_decide_reflect (t = TUtf8)) as [->|]; [|done].
    destruct (prefix_interval_exact (E:=BoundError) p) as (i & -> & Hi). intros v w Hv Hw.
    rewrite Hi by by apply (coerce_Ok TUtf8 _ w (wf_value_scalar v Hv)).
    destruct v; cbn in Hw; try done. case_match; [done|]. by injection Hw as <-.
Qed.

(** A value of another family than the index's satisfies no key condition the
    index serves. *)
Lemma sparse_value_fails t op i v e :
  wf_op op -> key_op_interval t op = Ok i -> wf_scalar_value v ->
  index_scalar_coerce t (value_scalar v) = Err e -> e <> Inexact -> e <> TooLong ->
  key_op_test op v = false.
Proof.
  intros Hop Hi Hv He Hin Htl.
  assert (forall cmp l, wf_lit l -> lit_fits t l = true -> cmp_test cmp (constant l) v = false) as Hf.
  { intros cmp l Hl Hfit. unfold cmp_test. rewrite relation_scalar by done.
    destruct t, l as [j|g|x|r], v as [|b|k|f|s|items|entries]; cbn in Hfit, He; try done; cbn; try (by destruct (is_nan _)).
    - destruct (_ <? _); congruence.
    - destruct (is_nan f) eqn:Hn; [done|].
      pose proof (coerce_f64_to_i64_spec f Hv) as S. rewrite He in S. rewrite Hn in S. naive_solver.
    - destruct (is_nan f) eqn:Hn; [done|].
      pose proof (coerce_f64_to_i64_spec f Hv) as S. rewrite He in S. rewrite Hn in S. naive_solver.
    - pose proof (coerce_i64_to_f64_spec k Hv) as S. rewrite He in S. naive_solver.
    - pose proof (coerce_i64_to_f64_spec k Hv) as S. rewrite He in S. naive_solver. }
  destruct op as [cmp l|l h|p]; cbn [key_op_interval key_op_test] in *.
  - destruct Hop as [Hne Hl]. pose proof (lit_interval_exact t cmp l Hne Hl) as H.
    destruct (lit_fits t l) eqn:Hfit; [by apply Hf|congruence].
  - destruct Hop as [Hl Hh]. pose proof (lit_interval_exact t CGe l ltac:(done) Hl) as H.
    rewrite between_cmp. destruct (lit_fits t l) eqn:Hfit; [by rewrite Hf|]. rewrite H in Hi. done.
  - destruct (bool_decide_reflect (t = TUtf8)) as [->|]; [|done]. destruct v; cbn in He |- *; try done.
    case_match; congruence.
Qed.

(** The condition's literals are of the index's family. *)
Definition op_fits (t : IndexKeyType) (op : KeyOp) : bool :=
  match op with
  | KCmp _ l => lit_fits t l
  | KBetween lo hi => lit_fits t lo && lit_fits t hi
  | KBeginsWith _ => bool_decide (t = TUtf8)
  end.

Lemma key_op_fits t op : wf_op op -> key_op_interval t op <> Panic /\
  op_fits t op = match key_op_interval t op with Ok _ => true | _ => false end.
Proof.
  intros Hop. destruct op as [cmp l|l h|p]; cbn [key_op_interval op_fits].
  - destruct Hop as [Hne Hl]. pose proof (lit_interval_exact t cmp l Hne Hl) as H.
    destruct (lit_fits t l); [destruct H as (i & -> & _)|rewrite H]; done.
  - destruct Hop as [Hl Hh]. pose proof (lit_interval_exact t CGe l ltac:(done) Hl) as H1.
    pose proof (lit_interval_exact t CLe h ltac:(done) Hh) as H2.
    destruct (lit_fits t l); [destruct H1 as (i & -> & _)|by rewrite H1]. ok_step.
    destruct (lit_fits t h); [destruct H2 as (j & -> & _)|rewrite H2]; done.
  - destruct (bool_decide_reflect (t = TUtf8)) as [->|]; [|done].
    by destruct (prefix_interval_exact (E:=BoundError) p) as (i & -> & _).
Qed.

(** C20. A key condition compiles to an exact index range: it is refused
    exactly when a literal is not of the index's family, and otherwise, for every
    value, the key the index stores for it lies in the range if and only if the
    predicate machine's comparison holds; a value without a key fails the
    comparison, unless the index counted it as inexact or too long. *)
Theorem index_range_exact t op (Hop : wf_op op) :
  match key_op_interval t op with
  | Ok i => op_fits t op = true /\ forall v, wf_scalar_value v ->
      match index_key_encode t (value_scalar v) IndexKeyBuf_new with
      | Ok buf => exists k, as_bytes (E:=KeySkip) buf = Ok k /\ admits i k = key_op_test op v
      | Err e => e = Inexact \/ e = TooLong \/ key_op_test op v = false
      | Panic => False
      end
  | Err _ => op_fits t op = false
  | Panic => False
  end.
Proof.
  pose proof (key_op_interval_exact t op Hop) as Hx. pose proof (key_op_fits t op Hop) as [_ ->].
  destruct (key_op_interval t op) as [i|e|] eqn:Hi; [|done..]. split; [done|]. intros v Hv.
  destruct (index_scalar_coerce t (value_scalar v)) as [w|e|] eqn:Hc.
  - destruct (encode_writes_key t _ w IndexKeyBuf_new (wf_value_scalar v Hv) wf_new_buf Hc) as (buf & -> & Hk & _).
    exists (key_of w). split; [done|]. by apply Hx.
  - unfold index_key_encode. rewrite Hc. ok_step. destruct e; [|by left| |by right; left]; right; right;
      by apply (sparse_value_fails t op i v _ Hop Hi Hv Hc).
  - exfalso. destruct t, (value_scalar v); cbn [index_scalar_coerce] in Hc; try done.
    + destruct (_ <? _); done.
    + unfold coerce_f64_to_i64 in Hc. destruct (is_nan f); [done|]. destruct (_ && _); done.
    + unfold coerce_i64_to_f64 in Hc. cbn zeta in Hc. destruct (_ && _); done.
    + destruct (is_nan f); done.
Qed.

(** [x >= 2.5] on an integer index: 3 is in the range. *)
Lemma index_range_exact_witness :
  exists i, key_op_interval TI64 (KCmp CGe (LF64 0x4004000000000000)) = Ok i /\
    exists k, admits i k = true /\ key_op_test (KCmp CGe (LF64 0x4004000000000000)) (VI64 3) = true.
Proof.
  assert (wf_op (KCmp CGe (LF64 0x4004000000000000))) as Hop by (split; [discriminate|vm_compute; split; [done|lia]]).
  pose proof (index_range_exact TI64 _ Hop) as H.
  destruct (key_op_interval TI64 (KCmp CGe (LF64 0x4004000000000000))) as [i|e|] eqn:Ei;
    [|vm_compute in Ei; discriminate Ei..].
  destruct H as [_ H]. specialize (H (VI64 3) ltac:(unfold wf_scalar_value, in_i64; lia)).
  destruct (index_key_encode TI64 (value_scalar (VI64 3)) IndexKeyBuf_new) as [buf|e|] eqn:Eb;
    [|vm_compute in Eb; discriminate Eb..].
  destruct H as (k & _ & Hk). exists i. split; [done|]. exists k. rewrite Hk. split; vm_compute; reflexivity.
Defined.
