(* ===== verification/Tail.v ===== *)
(** * Tail: reading a byte string at offsets

    Decoders of this repository walk a byte string by offset. [tail_at bytes a q]
    says that the bytes from offset [a] on are [q]; the lemmas turn an indexed
    read into a fact about [q], so that a decoder is compared with the bytes its
    encoder appends. *)

From S2P Require Import Prelude.

(** [bytes[at]]. *)
Definition byte_at {E} (bytes : list byte) (at_ : Z) : outcome E Z :=
  b ← expect (get bytes at_); Ok (u8 b).

(** ** Reading at an offset

    [tail_at bytes a q]: the bytes from offset [a] on are [q]. *)

Definition tail_at (bytes : list byte) (a : Z) (q : list byte) : Prop :=
  exists p, bytes = p ++ q /\ len p = a.

Lemma tail_cons bytes a b q : tail_at bytes a (b :: q) -> tail_at bytes (a + 1) q.
Proof. intros (p & -> & <-). exists (p ++ [b]). rewrite <- app_assoc. split; [done|lens]. Qed.

Lemma tail_app bytes a x q : tail_at bytes a (x ++ q) -> tail_at bytes (a + len x) q.
Proof. intros (p & -> & <-). exists (p ++ x). rewrite <- app_assoc. split; [done|lens]. Qed.

Lemma tail_len bytes a q : tail_at bytes a q -> 0 <= a /\ a + len q = len bytes.
Proof. intros (p & -> & <-). split; lens. Qed.

Lemma tail_exists bytes a : 0 <= a <= len bytes -> exists q, tail_at bytes a q.
Proof.
  intros. exists (drop (Z.to_nat a) bytes), (take (Z.to_nat a) bytes).
  split; [by rewrite take_drop|]. lens.
Qed.

Lemma tail_get bytes a q : tail_at bytes a q -> get bytes a = head q.
Proof.
  intros (p & -> & <-). destruct q as [|b q]; cbn [head].
  - destruct (get _ _) eqn:E; [|done]. apply get_lt in E. rewrite app_nil_r in E. lia.
  - apply get_split. eauto.
Qed.

Lemma tail_byte {E} bytes a b q : tail_at bytes a (b :: q) -> byte_at (E:=E) bytes a = Ok (u8 b).
Proof. intros H%tail_get. unfold byte_at. by rewrite H. Qed.

Lemma tail_from {E} bytes a q : tail_at bytes a q -> slice_from (E:=E) bytes a = Ok q.
Proof. intros (p & -> & <-). by apply slice_from_app. Qed.

Lemma tail_slice {E} bytes a x q b :
  tail_at bytes a (x ++ q) -> b = a + len x -> slice (E:=E) bytes a b = Ok x.
Proof. intros (p & -> & <-) ->. unfold slice. rewrite (get_range_app p x q); [done|done|lia]. Qed.
