(* ===== verification/Glob.v ===== *)
(** * Glob: the pattern matcher of KEYS, SCAN and CONFIG GET

    [inf-server/src/glob.rs]: [*], [?], classes, ranges and escapes, matched by a
    loop that remembers only its last star. The reference is the obvious meaning
    of a pattern: it is read once into elements ([elements]), a star stands for
    any bytes and every other element for one byte ([matches]), with letters compared
    by [same] and ranges by [between], which are stated apart from the code. The loop returns,
    on every pattern and string, and answers exactly by that meaning. *)

From S2P Require Import Prelude Tail.

Module Glob.

(** The ASCII codes of the pattern language. *)
Definition STAR : Z := 42.
Definition QUESTION : Z := 63.
Definition OPEN : Z := 91.
Definition BACKSLASH : Z := 92.
Definition CLOSE : Z := 93.
Definition CARET : Z := 94.
Definition DASH : Z := 45.

(** [u8::to_ascii_lowercase]. *)
Definition to_ascii_lowercase (b : Z) : Z := if (65 <=? b) && (b <=? 90) then b + 32 else b.

Definition eq (a b : Z) (nocase : bool) : bool :=
  if nocase then to_ascii_lowercase a =? to_ascii_lowercase b else a =? b.

Inductive Advance := Star | Matched | Mismatch.

(** A byte of the pattern, as a number. *)
Definition at_ (pattern : list byte) (i : Z) : option Z := u8 <$> get pattern i.

Section matcher.
Context (pattern : list byte) (nocase : bool).

Definition range_holds (lo hi c : Z) : bool :=
  let '(a, b) := if lo <=? hi then (lo, hi) else (hi, lo) in
  let probe := if nocase then to_ascii_lowercase c else c in
  let '(a, b) := if nocase then (to_ascii_lowercase a, to_ascii_lowercase b) else (a, b) in
  (a <=? probe) && (probe <=? b).

Fixpoint class_loop (fuel : nat) (i c : Z) (matched : bool) : panics (bool * Z) :=
  match fuel with
  | O => Panic
  | S fuel =>
      match at_ pattern i with
      | None => Ok (matched, i)
      | Some b =>
          if b =? CLOSE then Ok (matched, i + 1)
          else if (b =? BACKSLASH) && (i + 1 <? len pattern) then
            x ← expect (at_ pattern (i + 1));
            class_loop fuel (i + 2) c (if eq x c nocase then true else matched)
          else if bool_decide (at_ pattern (i + 1) = Some DASH) && (i + 2 <? len pattern) then
            hi ← expect (at_ pattern (i + 2));
            class_loop fuel (i + 3) c (if range_holds b hi c then true else matched)
          else class_loop fuel (i + 1) c (if eq b c nocase then true else matched)
      end
  end.

Definition class_match (start c : Z) : panics (bool * Z) :=
  let i := start + 1 in
  let negate := bool_decide (at_ pattern i = Some CARET) in
  let i := if negate then i + 1 else i in
  '(matched, i) ← class_loop (S (length pattern)) i c false;
  Ok (xorb matched negate, i).

(** [while *p < pattern.len() && pattern[*p] == b'*' { *p += 1 }]. *)
Fixpoint skip_stars (fuel : nat) (p : Z) : panics Z :=
  if p <? len pattern then
    b ← expect (at_ pattern p);
    if b =? STAR then match fuel with O => Panic | S fuel => skip_stars fuel (p + 1) end else Ok p
  else Ok p.

Definition advance (p c : Z) : panics (Advance * Z) :=
  if len pattern <=? p then Ok (Mismatch, p)
  else
    b ← expect (at_ pattern p);
    if b =? STAR then p ← skip_stars (length pattern) p; Ok (Star, p)
    else if b =? QUESTION then Ok (Matched, p + 1)
    else if b =? OPEN then
      '(matched, next) ← class_match p c;
      Ok (if (matched : bool) then (Matched, next) else (Mismatch, p))
    else if (b =? BACKSLASH) && (p + 1 <? len pattern) then
      x ← expect (at_ pattern (p + 1));
      Ok (if eq x c nocase then (Matched, p + 2) else (Mismatch, p))
    else Ok (if eq b c nocase then (Matched, p + 1) else (Mismatch, p)).

Fixpoint match_loop (fuel : nat) (string : list byte) (p s : Z) (star : option (Z * Z)) : panics bool :=
  if s <? len string then
    match fuel with
    | O => Panic
    | S fuel =>
        c ← expect (get string s);
        '(a, p) ← advance p (u8 c);
        match a with
        | Star => match_loop fuel string p s (Some (p, s))
        | Matched => match_loop fuel string p (s + 1) star
        | Mismatch =>
            match star with
            | None => Ok false
            | Some (star_p, star_s) =>
                match_loop fuel string star_p (star_s + 1) (Some (star_p, star_s + 1))
            end
        end
    end
  else
    p ← skip_stars (length pattern) p;
    Ok (p =? len pattern).
End matcher.

(** Rounds: the last star's place in the string only moves right, and between two
    moves the pattern position only does. *)
Definition rounds (pattern string : list byte) : nat := S ((S (length pattern)) * (S (length string))).

Definition glob_match (pattern string : list byte) (nocase : bool) : panics bool :=
  match_loop pattern nocase (rounds pattern string) string 0 0 None.

(** ** The meaning of a pattern *)

Inductive element := Any | One (accepts : Z -> bool).

Section meaning.
Context (nocase : bool).

(** A letter in lower case; other bytes are themselves. *)
Definition lower (b : Z) : Z := if bool_decide (b ∈ seqZ 65 26) then b + 32 else b.
(** One byte stands for another: it is that byte or, without case, the same letter
    in the other case. *)
Definition same (a b : Z) : bool :=
  bool_decide (a = b \/ nocase = true /\ Z.abs (a - b) = 32 /\ Z.min a b ∈ seqZ 65 26).
(** A byte lies between the ends of a range, in either order, each in lower case
    when case does not count. *)
Definition between (lo hi c : Z) : bool :=
  let low := if nocase then lower else id in
  bool_decide (low (Z.min lo hi) <= low c <= low (Z.max lo hi)).

(** What a class accepts, and the pattern after it. *)
Fixpoint class_of (l : list byte) : (Z -> bool) * list byte :=
  match l with
  | [] => (fun _ => false, [])
  | b :: l =>
      let literal := let '(f, rest) := class_of l in (fun c => same (u8 b) c || f c, rest) in
      if u8 b =? CLOSE then (fun _ => false, l)
      else match l with
      | [] => literal
      | x :: l' =>
          if u8 b =? BACKSLASH then
            let '(f, rest) := class_of l' in (fun c => same (u8 x) c || f c, rest)
          else match l' with
          | hi :: l'' =>
              if u8 x =? DASH then
                let '(f, rest) := class_of l'' in (fun c => between (u8 b) (u8 hi) c || f c, rest)
              else literal
          | [] => literal
          end
      end
  end.

Definition class_element (l : list byte) : element * list byte :=
  match l with
  | b :: l' =>
      if u8 b =? CARET then let '(f, rest) := class_of l' in (One (fun c => negb (f c)), rest)
      else let '(f, rest) := class_of l in (One f, rest)
  | [] => let '(f, rest) := class_of l in (One f, rest)
  end.

(** The element at the front of a pattern. *)
Definition element_of (b : byte) (l : list byte) : element * list byte :=
  if u8 b =? STAR then (Any, l)
  else if u8 b =? QUESTION then (One (fun _ => true), l)
  else if u8 b =? OPEN then class_element l
  else match l with
  | x :: l' => if u8 b =? BACKSLASH then (One (fun c => same (u8 x) c), l') else (One (fun c => same (u8 b) c), l)
  | [] => (One (fun c => same (u8 b) c), l)
  end.

Fixpoint elements_fuel (fuel : nat) (l : list byte) : list element :=
  match fuel, l with
  | S fuel, b :: l => let '(e, rest) := element_of b l in e :: elements_fuel fuel rest
  | _, _ => []
  end.
Definition elements (l : list byte) : list element := elements_fuel (length l) l.
End meaning.

Inductive matches : list element -> list byte -> Prop :=
  | matches_nil : matches [] []
  | matches_one f es c s : f (u8 c) = true -> matches es s -> matches (One f :: es) (c :: s)
  | matches_any es skipped s : matches es s -> matches (Any :: es) (skipped ++ s).

(** ** Reading a pattern *)

Lemma lower_ascii b : to_ascii_lowercase b = lower b.
Proof.
  unfold to_ascii_lowercase, lower. case_bool_decide as H; rewrite elem_of_seqZ in H;
    destruct (Z.leb_spec 65 b), (Z.leb_spec b 90); cbn [andb]; lia.
Qed.

Lemma eq_same nocase a b : eq a b nocase = same nocase a b.
Proof.
  unfold eq, same. destruct nocase.
  - rewrite !lower_ascii. unfold lower. apply Bool.eq_iff_eq_true. rewrite Z.eqb_eq, bool_decide_eq_true.
    destruct (bool_decide_reflect (a ∈ seqZ 65 26)) as [Ha|Ha], (bool_decide_reflect (b ∈ seqZ 65 26)) as [Hb|Hb];
      rewrite !elem_of_seqZ in *; lia.
  - apply Bool.eq_iff_eq_true. rewrite Z.eqb_eq, bool_decide_eq_true. naive_solver.
Qed.

Lemma range_between nocase lo hi c : range_holds nocase lo hi c = between nocase lo hi c.
Proof.
  unfold range_holds, between. apply Bool.eq_iff_eq_true. rewrite bool_decide_eq_true.
  destruct (Z.leb_spec lo hi); [rewrite Z.min_l, Z.max_r by lia|rewrite Z.min_r, Z.max_l by lia];
    (destruct nocase; rewrite ?lower_ascii, andb_true_iff, !Z.leb_le; done).
Qed.

Lemma at_tail pattern i l : tail_at pattern i l -> at_ pattern i = u8 <$> head l.
Proof. intros H. unfold at_. by rewrite (tail_get _ _ _ H). Qed.

Lemma more_tail pattern i l k : tail_at pattern i l -> 0 <= k -> (i + k <? len pattern) = bool_decide (k < len l).
Proof.
  intros [_ H]%tail_len Hk. destruct (Z.ltb_spec (i + k) (len pattern)); [rewrite bool_decide_true|rewrite bool_decide_false]; [done|lia|done|lia].
Qed.

Section reading.
Context (pattern : list byte) (nocase : bool).

Lemma class_loop_ok fuel c : forall i l m,
  tail_at pattern i l -> (length l < fuel)%nat ->
  exists j, class_loop pattern nocase fuel i c m = Ok (m || (class_of nocase l).1 c, j) /\
    tail_at pattern j (class_of nocase l).2 /\ (length (class_of nocase l).2 <= length l)%nat.
Proof.
  assert (forall a b d : bool, (if a then true else b) || d = b || (a || d)) as Hor by by intros [] [] [].
  induction fuel as [|fuel IH]; intros i l m Ht Hf; [lia|]. cbn [class_loop]. rewrite (at_tail _ _ _ Ht).
  destruct l as [|b l]; cbn [head fmap option_fmap option_map].
  { exists i. cbn. by rewrite orb_false_r. }
  pose proof (tail_cons _ _ _ _ Ht) as Ht1. cbn [length] in Hf.
  assert (exists j, class_loop pattern nocase fuel (i + 1) c (if eq (u8 b) c nocase then true else m) =
      Ok (m || (same nocase (u8 b) c || (class_of nocase l).1 c), j) /\
      tail_at pattern j (class_of nocase l).2 /\ (length (class_of nocase l).2 <= S (length l))%nat) as Hlit.
  { destruct (IH (i + 1) l (if eq (u8 b) c nocase then true else m) Ht1 ltac:(lia)) as (j & -> & Hj & Hl). exists j. by rewrite Hor, eq_same; split_and!; [| |lia]. }
  rewrite (more_tail _ _ _ 1 Ht), (more_tail _ _ _ 2 Ht), (at_tail _ _ _ Ht1) by lia. cbn [class_of length].
  destruct (u8 b =? CLOSE). { exists (i + 1). cbn. rewrite orb_false_r. split_and!; [done|done|lia]. }
  destruct l as [|x l].
  { rewrite !bool_decide_false by (first [done|lens]). rewrite andb_false_r. cbn [andb]. by destruct (class_of nocase []) as [f r]. }
  rewrite (bool_decide_true (1 < _)) by lens. rewrite andb_true_r. cbn [head fmap option_fmap option_map].
  pose proof (tail_cons _ _ _ _ Ht1) as Ht2. replace (i + 1 + 1) with (i + 2) in Ht2 by lia. cbn [length] in Hf.
  destruct (u8 b =? BACKSLASH).
  { cbn [expect]. ok_step. destruct (IH (i + 2) l (if eq (u8 x) c nocase then true else m) Ht2 ltac:(lia)) as (j & -> & Hj & Hl).
    exists j. destruct (class_of nocase l) as [f r]. rewrite Hor, eq_same. cbn in *. split_and!; [done|done|lia]. }
  destruct l as [|h l].
  { rewrite (bool_decide_false (2 < _)) by lens. rewrite andb_false_r. by destruct (class_of nocase [x]) as [f r]. }
  rewrite (bool_decide_true (2 < _)) by lens. rewrite andb_true_r.
  pose proof (tail_cons _ _ _ _ Ht2) as Ht3. replace (i + 2 + 1) with (i + 3) in Ht3 by lia. cbn [length] in Hf.
  destruct (Z.eqb_spec (u8 x) DASH) as [Ex|Ex].
  - rewrite Ex, bool_decide_true by done. rewrite (at_tail _ _ _ Ht2). cbn [head fmap option_fmap option_map expect]. ok_step.
    destruct (IH (i + 3) l (if range_holds nocase (u8 b) (u8 h) c then true else m) Ht3 ltac:(lia)) as (j & -> & Hj & Hl).
    exists j. destruct (class_of nocase l) as [f r]. rewrite Hor, range_between. cbn in *. split_and!; [done|done|lia].
  - rewrite bool_decide_false by congruence. destruct (class_of nocase (x :: h :: l)) as [f r]. done.
Qed.

Lemma class_match_ok p b l c :
  tail_at pattern p (b :: l) ->
  exists f rest j, class_element nocase l = (One f, rest) /\ class_match pattern nocase p c = Ok (f c, j) /\
    tail_at pattern j rest /\ (length rest <= length l)%nat.
Proof.
  intros Ht. pose proof (tail_cons _ _ _ _ Ht) as Ht1. unfold class_match. rewrite (at_tail _ _ _ Ht1).
  assert (length l < S (length pattern))%nat as Hl by (apply tail_len in Ht1; unfold len in Ht1; lia).
  assert (forall i k, tail_at pattern i k -> (length k <= length l)%nat -> forall n, exists j,
    ('(matched, i) ← class_loop pattern nocase (S (length pattern)) i c false; Ok (xorb matched n, i)) =
      Ok (E:=False) (xorb ((class_of nocase k).1 c) n, j) /\ tail_at pattern j (class_of nocase k).2 /\
      (length (class_of nocase k).2 <= length l)%nat) as Hloop.
  { intros i k Hk Hkl n. destruct (class_loop_ok (S (length pattern)) c i k false Hk ltac:(lia)) as (j & -> & Hj & Hjl).
    exists j. cbn. split_and!; [done|done|lia]. }
  destruct l as [|x l]; cbn [head fmap option_fmap option_map class_element].
  { rewrite bool_decide_false by done. destruct (Hloop _ [] Ht1 ltac:(lia) false) as (j & -> & Hj & Hjl).
    destruct (class_of nocase []) as [f r]. exists f, r, j. rewrite xorb_false_r. done. }
  destruct (Z.eqb_spec (u8 x) CARET) as [Ex|Ex].
  - rewrite Ex, bool_decide_true by done. destruct (Hloop _ l (tail_cons _ _ _ _ Ht1) ltac:(cbn; lia) true) as (j & -> & Hj & Hjl).
    destruct (class_of nocase l) as [f r]. exists (fun c => negb (f c)), r, j. rewrite xorb_true_r. done.
  - rewrite bool_decide_false by congruence. destruct (Hloop _ (x :: l) Ht1 ltac:(lia) false) as (j & -> & Hj & Hjl).
    destruct (class_of nocase (x :: l)) as [f r]. exists f, r, j. rewrite xorb_false_r. done.
Qed.

Fixpoint drop_stars (l : list byte) : list byte :=
  match l with b :: l' => if u8 b =? STAR then drop_stars l' else l | [] => [] end.

Lemma drop_stars_length l : (length (drop_stars l) <= length l)%nat.
Proof. induction l as [|b l IH]; cbn; [done|]. destruct (_ =? _); cbn; lia. Qed.

Lemma skip_stars_ok fuel p l :
  tail_at pattern p l -> (length l <= fuel)%nat ->
  exists j, skip_stars pattern fuel p = Ok j /\ tail_at pattern j (drop_stars l).
Proof.
  revert p l. induction fuel as [|fuel IH]; intros p [|b l] Ht Hf; cbn [length] in Hf; try lia.
  1,2: pose proof (tail_len _ _ _ Ht) as [_ Hl]; rewrite len_nil in Hl; exists p; cbn [skip_stars drop_stars];
    by rewrite (proj2 (Z.ltb_ge _ _)) by lia.
  pose proof (tail_len _ _ _ Ht) as [_ Hl]. rewrite len_cons in Hl. pose proof (len_nonneg l). cbn [skip_stars drop_stars].
  rewrite (proj2 (Z.ltb_lt _ _)), (at_tail _ _ _ Ht) by lia. cbn [head fmap option_fmap option_map expect]. ok_step.
  destruct (u8 b =? STAR); [|by exists p]. apply tail_cons in Ht. apply IH; [done|lia].
Qed.

(** One element of the pattern against one byte. *)
Lemma advance_ok p b l c :
  tail_at pattern p (b :: l) ->
  let '(e, rest) := element_of nocase b l in
  exists j, (length rest <= length l)%nat /\
  match e with
  | Any => rest = l /\ u8 b = STAR /\ advance pattern nocase p c = Ok (Star, j) /\ tail_at pattern j (drop_stars l)
  | One f => tail_at pattern j rest /\ advance pattern nocase p c = Ok (if f c then (Matched, j) else (Mismatch, p))
  end.
Proof.
  intros Ht. pose proof (tail_len _ _ _ Ht) as [Hp Hl]. rewrite len_cons in Hl. pose proof (len_nonneg l).
  unfold advance, element_of. rewrite (proj2 (Z.leb_gt _ _)), (at_tail _ _ _ Ht) by lia. cbn [head fmap option_fmap option_map expect]. ok_step.
  pose proof (tail_cons _ _ _ _ Ht) as Ht1. destruct (Z.eqb_spec (u8 b) STAR) as [Eb|_].
  { destruct (skip_stars_ok (length pattern) p (b :: l) Ht ltac:(unfold len in Hl; cbn; lia)) as (j & -> & Hj). cbn [drop_stars] in Hj.
    rewrite Eb in Hj. exists j. by split_and!. }
  destruct (u8 b =? QUESTION). { by exists (p + 1). }
  destruct (u8 b =? OPEN).
  { destruct (class_match_ok p b l c Ht) as (f & rest & j & -> & -> & Hj & Hle). exists j. split_and!; [done|done|]. ok_step. by destruct (f c). }
  rewrite (more_tail _ _ _ 1 Ht) by lia. destruct l as [|x l].
  { rewrite bool_decide_false by lens. rewrite andb_false_r. exists (p + 1). rewrite <- eq_same. by destruct (eq (u8 b) c nocase). }
  rewrite bool_decide_true by lens. rewrite andb_true_r. destruct (u8 b =? BACKSLASH).
  - rewrite (at_tail _ _ _ Ht1). cbn [head fmap option_fmap option_map expect]. ok_step. exists (p + 2). cbn [length].
    split_and!; [lia| |by rewrite eq_same]. replace (p + 2) with (p + 1 + 1) by lia. by apply tail_cons in Ht1.
  - exists (p + 1). rewrite <- eq_same. by destruct (eq (u8 b) c nocase).
Qed.
End reading.

Section elements.
Context (nocase : bool).

Lemma element_shorter b l : (length (element_of nocase b l).2 <= length l)%nat.
Proof.
  assert (tail_at (b :: l) 0 (b :: l)) as Ht by by exists [].
  pose proof (advance_ok (b :: l) nocase 0 b l 0 Ht) as H. destruct (element_of nocase b l) as [e rest]. by destruct H as (j & H & _).
Qed.

Lemma elements_fuel_irrel f g l : (length l <= f)%nat -> (length l <= g)%nat -> elements_fuel nocase f l = elements_fuel nocase g l.
Proof.
  revert g l. induction f as [|f IH]; intros [|g] [|b l] Hf Hg; cbn [length] in *; try lia; try done. cbn [elements_fuel].
  pose proof (element_shorter b l). destruct (element_of nocase b l) as [e rest]. cbn in *. f_equal. apply IH; lia.
Qed.

Lemma elements_cons b l : elements nocase (b :: l) = let '(e, rest) := element_of nocase b l in e :: elements nocase rest.
Proof.
  unfold elements. cbn [length elements_fuel]. pose proof (element_shorter b l). destruct (element_of nocase b l) as [e rest].
  cbn in *. f_equal. apply elements_fuel_irrel; lia.
Qed.

(** ** Matching *)

Lemma matches_nil_inv s : matches [] s <-> s = [].
Proof. split; [by inversion 1|intros ->; constructor]. Qed.

Lemma matches_one_inv f es s : matches (One f :: es) s <-> exists c s', s = c :: s' /\ f (u8 c) = true /\ matches es s'.
Proof. split; [inversion 1; subst; eauto|]. intros (c & s' & -> & ? & ?). by constructor. Qed.

Lemma matches_any_inv es s : matches (Any :: es) s <-> exists x s', s = x ++ s' /\ matches es s'.
Proof. split; [inversion 1; subst; eauto|]. intros (x & s' & -> & ?). by constructor. Qed.

(** Runs of stars are one star. *)
Lemma matches_stars l s : matches (Any :: elements nocase (drop_stars l)) s <-> matches (Any :: elements nocase l) s.
Proof.
  revert s. induction l as [|b l IH]; intros s; cbn [drop_stars]; [done|]. destruct (u8 b =? STAR) eqn:Eb; [|done].
  rewrite IH, elements_cons. unfold element_of. rewrite Eb. rewrite !matches_any_inv. split.
  - intros (x & s' & -> & H). exists x, s'. split; [done|]. by apply (matches_any _ []).
  - intros (x & s' & -> & (y & s'' & -> & H)%matches_any_inv). exists (x ++ y), s''. by rewrite app_assoc.
Qed.

Lemma matches_empty l : matches (elements nocase l) [] <-> drop_stars l = [].
Proof.
  induction l as [|b l IH]; cbn [drop_stars]; [by rewrite matches_nil_inv|]. rewrite elements_cons. unfold element_of.
  destruct (u8 b =? STAR).
  { rewrite matches_any_inv, <- IH. split; [intros (x & s' & E & H)|intros H; by exists [], []]. symmetry in E. by apply app_eq_nil in E as [_ ->]. }
  split; [|done]. intros H. exfalso. revert H.
  assert (forall f es, ~ matches (One f :: es) []) as Hone by (intros f es (c & s' & ? & _)%matches_one_inv; done).
  destruct (_ =? QUESTION); [apply Hone|]. destruct (_ =? OPEN).
  { unfold class_element. destruct l as [|x l]; [destruct (class_of _ _); apply Hone|].
    destruct (_ =? CARET); [destruct (class_of _ _); apply Hone|destruct (class_of _ _); apply Hone]. }
  destruct l as [|x l]; [apply Hone|]. destruct (_ =? BACKSLASH); apply Hone.
Qed.
End elements.

Definition is_one (e : element) : Prop := match e with One _ => True | Any => False end.

(** Single-byte elements consume a byte each. *)
Lemma matches_ones ones es s :
  Forall is_one ones -> matches (ones ++ es) s -> exists x y, s = x ++ y /\ len x = len ones /\ matches es y.
Proof.
  intros H. revert s. induction H as [|e ones He _ IH]; intros s Hm; [by exists [], s|]. destruct e as [|f]; [done|].
  cbn [app] in Hm. apply matches_one_inv in Hm as (c & s' & -> & _ & (x & y & -> & Hx & Hy)%IH).
  exists (c :: x), y. split; [done|]. split; [lens|done].
Qed.

(** ** The loop *)

Section loop.
Context (pattern string : list byte) (nocase : bool).
Notation elements := (elements nocase).

(** The pattern matches from offset [k] of the string on. *)
Definition matches_at (l : list byte) (k : Z) : Prop := exists r, tail_at string k r /\ matches (elements l) r.

Lemma tail_unique bytes k (q r : list byte) : tail_at bytes k q -> tail_at bytes k r -> q = r.
Proof. intros (x & -> & Hx) (y & E & Hy). apply app_len_inj in E as [_ ->]; [done|]. congruence. Qed.

(** What the last star leaves to try: the elements since then took one byte each,
    and the star may take more. *)
Definition star_at (star : option (Z * Z)) (l : list byte) (s : Z) (sl : list byte) : Prop :=
  match star with
  | None => True
  | Some (sp, ss) => tail_at pattern sp sl /\ 0 <= ss <= s /\
      exists ones, elements sl = ones ++ elements l /\ Forall is_one ones /\ len ones = s - ss
  end.
Definition later (star : option (Z * Z)) (sl : list byte) : Prop :=
  match star with None => False | Some (_, ss) => exists k, ss + 1 <= k /\ matches_at sl k end.

Definition star_s (star : option (Z * Z)) : Z := match star with Some (_, ss) => ss | None => 0 end.
Definition measure (p : Z) (star : option (Z * Z)) : Z :=
  (len string - star_s star) * (len pattern + 1) + (len pattern - p).

(** A new star subsumes what the old one left. *)
Lemma star_subsumes star l s sl es :
  star_at star l s sl -> elements l = Any :: es -> later star sl ->
  exists k r, s + 1 <= k /\ tail_at string k r /\ matches es r.
Proof.
  destruct star as [[sp ss]|]; [|done]. intros (_ & Hs & ones & E & Hones & Hlen) El (k & Hk & r & Hr & Hm).
  rewrite E, El in Hm. apply matches_ones in Hm as (x & y & -> & Hx & Hy); [|done].
  apply matches_any_inv in Hy as (z & w & -> & Hw). exists (k + len x + len z), w. pose proof (len_nonneg z). split; [lia|].
  split; [|done]. by do 2 apply tail_app in Hr.
Qed.

Lemma matches_from es s rest :
  tail_at string s rest -> matches (Any :: es) rest <-> exists k r, s <= k /\ tail_at string k r /\ matches es r.
Proof.
  intros Ht. rewrite matches_any_inv. split.
  - intros (x & r & -> & Hm). apply tail_app in Ht. pose proof (len_nonneg x). exists (s + len x), r. split; [lia|done].
  - intros (k & r & Hk & Hr & Hm). destruct Ht as (a & E & Ha), Hr as (b & E' & Hb). rewrite E in E'.
    destruct (app_eq_app a rest b r E') as (z & [[-> ->]|[-> ->]]).
    + rewrite len_app in Ha. pose proof (len_nonneg z). destruct z; [|revert Ha; rewrite len_cons; pose proof (len_nonneg z); lia].
      by exists [], rest.
    + by exists z, r.
Qed.

Lemma match_loop_ok fuel : forall p l s rest star sl,
  tail_at pattern p l -> tail_at string s rest -> star_at star l s sl -> measure p star < Z.of_nat fuel ->
  exists b, match_loop pattern nocase fuel string p s star = Ok b /\ (b = true <-> matches (elements l) rest \/ later star sl).
Proof.
  induction fuel as [|fuel IH]; intros p l s rest star sl Hp Hs Hst Hf; pose proof (tail_len _ _ _ Hp) as [? Hpl];
    pose proof (tail_len _ _ _ Hs) as [? Hsl]; pose proof (len_nonneg l); pose proof (len_nonneg rest);
    assert (0 <= star_s star <= s) as Hss by (destruct star as [[? ?]|]; [by destruct Hst as (_ & ? & _)|cbn; lia]).
  { exfalso. unfold measure in Hf. pose proof (Z.mul_nonneg_nonneg (len string - star_s star) (len pattern + 1)). lia. }
  cbn [match_loop]. destruct rest as [|c rest].
  - rewrite len_nil in Hsl. rewrite (proj2 (Z.ltb_ge _ _)) by lia.
    destruct (skip_stars_ok pattern (length pattern) p l Hp ltac:(unfold len in *; lia)) as (j & -> & Hj). ok_step.
    eexists. split; [done|]. rewrite Z.eqb_eq, matches_empty. apply tail_len in Hj as [_ Hj]. split.
    + intros ->. left. destruct (drop_stars l); [done|]. rewrite len_cons in Hj. pose proof (len_nonneg l0). lia.
    + intros [E|Hl]; [rewrite E, len_nil in Hj; lia|]. exfalso. destruct star as [[sp ss]|]; [|done].
      destruct Hst as (_ & _ & ones & E & Hones & Hlen), Hl as (k & Hk & r & Hr & Hm). rewrite E in Hm.
      apply matches_ones in Hm as (x & y & -> & Hx & _); [|done]. apply tail_len in Hr as [_ Hr]. rewrite len_app in Hr.
      pose proof (len_nonneg y). lia.
  - rewrite len_cons in Hsl. pose proof (len_nonneg rest). rewrite (proj2 (Z.ltb_lt _ _)), (tail_get _ _ _ Hs) by lia. cbn [head expect]. ok_step.
    (* a mismatch falls back to the star *)
    assert (~ matches (elements l) (c :: rest) -> exists b,
      match star with None => Ok (E:=False) false | Some (sp, ss) => match_loop pattern nocase fuel string sp (ss + 1) (Some (sp, ss + 1)) end = Ok b /\
      (b = true <-> matches (elements l) (c :: rest) \/ later star sl)) as Hback.
    { intros Hno. destruct star as [[sp ss]|]; [|exists false; split; [done|]; split; [done|]; by intros [?|[]]].
      destruct Hst as (Hsp & Hr & ones & E & Hones & Hlen). cbn [star_s] in Hss.
      destruct (tail_exists string (ss + 1)) as [rest' Hs']; [lia|]. pose proof (tail_len _ _ _ Hsp) as [? Hspl]. pose proof (len_nonneg sl).
      destruct (IH sp sl (ss + 1) rest' (Some (sp, ss + 1)) sl Hsp Hs') as (b & -> & Hb).
      - split; [done|]. split; [lia|]. exists []. split; [done|]. split; [constructor|]. rewrite len_nil. lia.
      - unfold measure in *. cbn [star_s] in *. nia.
      - exists b. split; [done|]. rewrite Hb. cbn [later]. split.
        + intros [Hm|(k & Hk & Hm)]; right; [exists (ss + 1); split; [lia|]; by exists rest'|exists k; split; [lia|done]].
        + intros [?|(k & Hk & r & Hkr & Hm)]; [done|]. destruct (decide (k = ss + 1)) as [->|].
          * left. by rewrite (tail_unique _ _ _ _ Hs' Hkr).
          * right. exists k. split; [lia|]. by exists r. }
    destruct l as [|b l].
    { unfold advance. rewrite (proj2 (Z.leb_le _ _)) by (rewrite len_nil in Hpl; lia). ok_step. apply Hback.
      change (elements []) with (@nil element). by rewrite matches_nil_inv. }
    pose proof (advance_ok pattern nocase p b l (u8 c) Hp) as Ha. pose proof (elements_cons nocase b l) as El.
    destruct (element_of nocase b l) as [[|f] el].
    + destruct Ha as (j & _ & -> & Eb & -> & Hj). ok_step. pose proof (tail_len _ _ _ Hj) as [? Hjl]. pose proof (drop_stars_length l) as Hd.
      rewrite len_cons in Hpl. pose proof (len_nonneg (drop_stars l)).
      destruct (IH j (drop_stars l) s (c :: rest) (Some (j, s)) (drop_stars l) Hj Hs) as (r & -> & Hr).
      * split; [done|]. split; [lia|]. exists []. split; [done|]. split; [constructor|]. rewrite len_nil. lia.
      * unfold measure in *. cbn [star_s]. unfold len in *. nia.
      * exists r. split; [done|]. rewrite Hr, El. cbn [later].
        assert (matches (Any :: elements l) (c :: rest) <-> exists k, s <= k /\ matches_at (drop_stars l) k) as Hany.
        { rewrite <- matches_stars, (matches_from _ s) by done. unfold matches_at. naive_solver. }
        rewrite Hany. split.
        -- intros [Hm|(k & Hk & Hm)]; left; [exists s; split; [lia|]; by exists (c :: rest)|exists k; split; [lia|done]].
        -- intros Hor. assert (exists k, s <= k /\ matches_at (drop_stars l) k) as (k & Hk & q & Hq & Hm).
           { destruct Hor as [Hor|Hor]; [done|]. destruct (star_subsumes star (b :: l) s sl (elements l) Hst El Hor) as (k & q & Hk & Hq & Hm).
             apply Hany. apply (matches_from _ s); [done|]. exists k, q. split; [lia|done]. }
           destruct (decide (k = s)) as [->|]; [left; by rewrite (tail_unique _ _ _ _ Hs Hq)|right; exists k; split; [lia|by exists q]].
    + destruct Ha as (j & Hle & Hj & ->). ok_step. pose proof (tail_len _ _ _ Hj) as [? Hjl]. rewrite len_cons in Hpl.
      destruct (f (u8 c)) eqn:Ef.
      * pose proof (len_nonneg el). destruct (IH j el (s + 1) rest star sl Hj (tail_cons _ _ _ _ Hs)) as (r & -> & Hr).
        -- destruct star as [[sp ss]|]; [|done]. destruct Hst as (Hsp & Hb & ones & E & Hones & Hlen). split; [done|]. split; [lia|].
           exists (ones ++ [One f]). rewrite E, El, <- app_assoc. split; [done|]. split; [apply Forall_app; split; [done|by constructor]|lens].
        -- unfold measure in *. unfold len in *. nia.
        -- exists r. split; [done|]. rewrite Hr, El, matches_one_inv. naive_solver.
      * apply Hback. rewrite El, matches_one_inv. intros (c' & s' & [= <- <-] & Hf' & _). congruence.
Qed.
End loop.

(** C31. The pattern matcher returns on every pattern and string, and answers
    true exactly when the string is a concatenation of what the pattern's elements
    stand for: any bytes for a star, one byte in the element's set for the others,
    in both case modes; a range holds the bytes between its ends in either order.
    Remembering only the last star loses no match. *)
Theorem glob_match_exact pattern string nocase :
  exists b, glob_match pattern string nocase = Ok b /\ (b = true <-> matches (elements nocase pattern) string).
Proof.
  destruct (match_loop_ok pattern string nocase (rounds pattern string) 0 pattern 0 string None []) as (b & E & Hb).
  - by exists [].
  - by exists [].
  - done.
  - unfold measure, rounds, star_s. unfold len. nia.
  - exists b. split; [done|]. rewrite Hb. cbn [later]. tauto.
Qed.
End Glob.
