(* ===== verification/Ring.v ===== *)
(** * Ring: the single-producer single-consumer ring between cells

    [inf-fabric/src/ring.rs]. The producer and the consumer run concurrently: each
    call is a sequence of steps, one per access to shared memory, and a schedule
    interleaves the steps of the two sides in any way.

    An atomic index is the list of values stored to it, oldest first. An [Acquire]
    load returns any of them from the last one that side has seen on (reads of one
    location do not go back), so a load may be stale; what the other side stored
    before that value is then visible. The slots are plain memory: a slot holds a
    value that has been moved in and not yet moved out, or nothing. Writing a slot
    that still holds a value, or reading one that holds none, breaks the contract
    of the unsafe blocks and is a panic of the model.

    The iterator given to [publish_batch] is a list: its [next] returns. One that
    unwinds leaves slots written and not published, which later calls write again;
    that is not modelled. A consumer callback that unwinds is. *)

From S2P Require Import Prelude.

Module Ring.

Definition wrapping_add (a b : Z) : Z := wrap 64 (a + b).
Definition wrapping_sub (a b : Z) : Z := wrap 64 (a - b).
Definition USIZE_MAX : Z := 2 ^ 64 - 1.

(** ** Atomics *)

(** [store(Release)] by the only writer. *)
Definition store (history : list Z) (v : Z) : list Z := history ++ [v].

(** [load(Acquire)]: the value at [pick], not before what was seen. *)
Definition load (history : list Z) (seen pick : nat) : panics (Z * nat) :=
  let i := Nat.max seen (Nat.min pick (length history - 1)) in
  v ← expect (history !! i); Ok (v, i).

Section ring.
Context {T : Type}.

Record Shared := { head : list Z; tail : list Z; mask : Z; slots : list (option T) }.

(** Where a call of a side stands between its accesses to shared memory. *)
Inductive ProducerPc :=
  | PIdle
  | PushWrite (value : T)
  | PushPublish
  | BatchWrite (free n : Z) (it : list T)
  | BatchPublish (n : Z).
Inductive ConsumerPc := CIdle | CRead (remaining count : Z) | CAdvance (returns : option Z).

Record Producer := { p_tail : Z; head_cache : Z; head_seen : nat; p_pc : ProducerPc }.
Record Consumer := { c_head : Z; tail_cache : Z; tail_seen : nat; c_pc : ConsumerPc }.

Record State := { shared : Shared; producer : Producer; consumer : Consumer }.

(** What happens at a step: a value moves into the ring, a call returns, a value
    is handed to the consumer's callback. *)
Inductive output :=
  | Wrote (value : T)
  | PushOk
  | PushFull (value : T)
  | Published (n : Z)
  | Delivered (value : T)
  | Consumed (n : Z).

(** [usize::is_power_of_two]. *)
Definition is_power_of_two (n : Z) : bool := (0 <? n) && (n =? 2 ^ Z.log2 n).

Definition ring (capacity : Z) : panics State :=
  _ ← rassert (is_power_of_two capacity);
  Ok {| shared := {| head := [0]; tail := [0]; mask := capacity - 1; slots := replicate (Z.to_nat capacity) None |};
        producer := {| p_tail := 0; head_cache := 0; head_seen := 0; p_pc := PIdle |};
        consumer := {| c_head := 0; tail_cache := 0; tail_seen := 0; c_pc := CIdle |} |}.

(** ** The producer *)

Definition set_slots (sh : Shared) (s : list (option T)) : Shared :=
  {| head := head sh; tail := tail sh; mask := mask sh; slots := s |}.
Definition set_ppc (p : Producer) (pc : ProducerPc) : Producer :=
  {| p_tail := p_tail p; head_cache := head_cache p; head_seen := head_seen p; p_pc := pc |}.

Definition free_slots (sh : Shared) (p : Producer) (want : Z) (pick : nat) : panics (Z * Producer) :=
  let cap := mask sh + 1 in
  free ← expect (checked_sub cap (wrapping_sub (p_tail p) (head_cache p)));
  if want <=? free then Ok (free, p)
  else
    '(h, seen) ← load (head sh) (head_seen p) pick;
    let p := {| p_tail := p_tail p; head_cache := h; head_seen := seen; p_pc := p_pc p |} in
    free ← expect (checked_sub cap (wrapping_sub (p_tail p) h));
    Ok (free, p).

Definition write_slot (sh : Shared) (index : Z) (value : T) : panics Shared :=
  let i := Z.land index (mask sh) in
  slot ← expect (get (slots sh) i);
  match slot with
  | Some _ => Panic
  | None => s ← set_at (slots sh) i (Some value); Ok (set_slots sh s)
  end.

Definition publish (sh : Shared) (p : Producer) (n : Z) : Shared * Producer :=
  let t := wrapping_add (p_tail p) n in
  ({| head := head sh; tail := store (tail sh) t; mask := mask sh; slots := slots sh |},
   {| p_tail := t; head_cache := head_cache p; head_seen := head_seen p; p_pc := PIdle |}).

Definition try_push (sh : Shared) (p : Producer) (value : T) (pick : nat) : panics (Producer * list output) :=
  '(free, p) ← free_slots sh p 1 pick;
  if free =? 0 then Ok (p, [PushFull value]) else Ok (set_ppc p (PushWrite value), []).

Definition publish_batch (sh : Shared) (p : Producer) (it : list T) (pick : nat) : panics (Producer * list output) :=
  '(free, p) ← free_slots sh p USIZE_MAX pick;
  Ok (set_ppc p (BatchWrite free 0 it), []).

(** The next access of the call under way. *)
Definition producer_step (sh : Shared) (p : Producer) : panics (Shared * Producer * list output) :=
  match p_pc p with
  | PIdle => Ok (sh, p, [])
  | PushWrite value =>
      sh ← write_slot sh (p_tail p) value;
      Ok (sh, set_ppc p PushPublish, [Wrote value])
  | PushPublish => let '(sh, p) := publish sh p 1 in Ok (sh, p, [PushOk])
  | BatchWrite free n it =>
      match it with
      | value :: it =>
          if n <? free then
            sh ← write_slot sh (wrapping_add (p_tail p) n) value;
            Ok (sh, set_ppc p (BatchWrite free (n + 1) it), [Wrote value])
          else Ok (sh, set_ppc p (BatchPublish n), [])
      | [] => Ok (sh, set_ppc p (BatchPublish n), [])
      end
  | BatchPublish n =>
      if 0 <? n then let '(sh, p) := publish sh p n in Ok (sh, p, [Published n])
      else Ok (sh, set_ppc p PIdle, [Published n])
  end.

(** ** The consumer *)

Definition set_cpc (c : Consumer) (pc : ConsumerPc) : Consumer :=
  {| c_head := c_head c; tail_cache := tail_cache c; tail_seen := tail_seen c; c_pc := pc |}.

Definition read_slot (sh : Shared) (index : Z) : panics (T * Shared) :=
  let i := Z.land index (mask sh) in
  slot ← expect (get (slots sh) i);
  match slot with
  | None => Panic
  | Some value => s ← set_at (slots sh) i None; Ok (value, set_slots sh s)
  end.

Definition consume_batch (sh : Shared) (c : Consumer) (max : Z) (pick : nat) : panics (Consumer * list output) :=
  let available := wrapping_sub (tail_cache c) (c_head c) in
  c ← (if available <? max then
         '(t, seen) ← load (tail sh) (tail_seen c) pick;
         Ok {| c_head := c_head c; tail_cache := t; tail_seen := seen; c_pc := c_pc c |}
       else Ok c);
  let available := wrapping_sub (tail_cache c) (c_head c) in
  if available =? 0 then Ok (c, [Consumed 0])
  else
    let n := Z.min available max in
    Ok (set_cpc c (CRead n n), []).

(** [f_panics]: the callback unwinds, and the guard publishes what was read. *)
Definition consumer_step (sh : Shared) (c : Consumer) (f_panics : bool) : panics (Shared * Consumer * list output) :=
  match c_pc c with
  | CIdle => Ok (sh, c, [])
  | CRead remaining count =>
      if remaining <=? 0 then Ok (sh, set_cpc c (CAdvance (Some count)), [])
      else
        '(value, sh) ← read_slot sh (c_head c);
        let c := {| c_head := wrapping_add (c_head c) 1; tail_cache := tail_cache c; tail_seen := tail_seen c;
                    c_pc := if f_panics then CAdvance None else CRead (remaining - 1) count |} in
        Ok (sh, c, [Delivered value])
  | CAdvance returns =>
      Ok ({| head := store (head sh) (c_head c); tail := tail sh; mask := mask sh; slots := slots sh |},
          set_cpc c CIdle, match returns with Some n => [Consumed n] | None => [] end)
  end.

(** ** Schedules *)

Inductive event :=
  | CallPush (value : T) (pick : nat)
  | CallPublish (it : list T) (pick : nat)
  | StepProducer
  | CallConsume (max : Z) (pick : nat)
  | StepConsumer (f_panics : bool).

(** A side takes a new call only when it is idle. *)
Definition step (st : State) (e : event) : panics (State * list output) :=
  let sh := shared st in
  match e with
  | CallPush value pick =>
      match p_pc (producer st) with
      | PIdle => '(p, out) ← try_push sh (producer st) value pick;
          Ok ({| shared := sh; producer := p; consumer := consumer st |}, out)
      | _ => Ok (st, [])
      end
  | CallPublish it pick =>
      match p_pc (producer st) with
      | PIdle => '(p, out) ← publish_batch sh (producer st) it pick;
          Ok ({| shared := sh; producer := p; consumer := consumer st |}, out)
      | _ => Ok (st, [])
      end
  | StepProducer =>
      '(sh, p, out) ← producer_step sh (producer st);
      Ok ({| shared := sh; producer := p; consumer := consumer st |}, out)
  | CallConsume max pick =>
      match c_pc (consumer st) with
      | CIdle => '(c, out) ← consume_batch sh (consumer st) max pick;
          Ok ({| shared := sh; producer := producer st; consumer := c |}, out)
      | _ => Ok (st, [])
      end
  | StepConsumer f_panics =>
      '(sh, c, out) ← consumer_step sh (consumer st) f_panics;
      Ok ({| shared := sh; producer := producer st; consumer := c |}, out)
  end.

Fixpoint run (st : State) (es : list event) : panics (State * list output) :=
  match es with
  | [] => Ok (st, [])
  | e :: es => '(st, out) ← step st e; '(st, rest) ← run st es; Ok (st, out ++ rest)
  end.

(** [Drop for Shared], when both handles are gone: the values between the
    published indices are dropped. *)
Fixpoint drop_loop (fuel : nat) (sh : Shared) (index stop : Z) : panics (list T) :=
  if index =? stop then Ok []
  else match fuel with
  | O => Panic
  | S fuel => '(value, sh) ← read_slot sh index; rest ← drop_loop fuel sh (wrapping_add index 1) stop; Ok (value :: rest)
  end.
Definition drop_shared (sh : Shared) : panics (list T) :=
  h ← expect (list.last (head sh));
  t ← expect (list.last (tail sh));
  drop_loop (length (slots sh)) sh h t.

(** Values moved into the ring, and out of it to the callback. *)
Definition wrote (out : list output) : list T := omap (fun o => match o with Wrote v => Some v | _ => None end) out.
Definition delivered (out : list output) : list T := omap (fun o => match o with Delivered v => Some v | _ => None end) out.

(** ** Indices *)

Notation w64 := (wrap 64).

Lemma wrap_add_l a b : wrapping_add (w64 a) b = w64 (a + b).
Proof. unfold wrapping_add, wrap. apply Zplus_mod_idemp_l. Qed.

Lemma wrap_sub_small a b : 0 <= a - b < 2 ^ 64 -> wrapping_sub (w64 a) (w64 b) = a - b.
Proof. intros H. unfold wrapping_sub, wrap. rewrite <- Zminus_mod. by apply Z.mod_small. Qed.

Lemma land_index k n : 0 <= k <= 64 -> Z.land (w64 n) (2 ^ k - 1) = n mod 2 ^ k.
Proof.
  intros Hk. replace (2 ^ k - 1) with (Z.ones k) by (rewrite Z.ones_equiv; lia). rewrite Z.land_ones by lia. unfold wrap.
  rewrite <- Znumtheory.Zmod_div_mod; [done|lia|lia|]. exists (2 ^ (64 - k)). rewrite <- Z.pow_add_r by lia. f_equal. lia.
Qed.

Lemma power_of_two n : is_power_of_two n = true -> in_u 64 n -> exists k, 0 <= k < 64 /\ n = 2 ^ k.
Proof.
  unfold is_power_of_two, in_u. intros [H0%Z.ltb_lt H%Z.eqb_eq]%andb_true_iff Hn. exists (Z.log2 n). split; [|done].
  split; [apply Z.log2_nonneg|]. apply Z.log2_lt_pow2; lia.
Qed.

(** ** Histories *)

Definition mono (l : list Z) : Prop := forall i j a b, (i <= j)%nat -> l !! i = Some a -> l !! j = Some b -> a <= b.

Lemma mono_snoc l v : mono l -> Forall (fun a => a <= v) l -> mono (l ++ [v]).
Proof.
  intros Hl Hv i j a b Hij Hi Hj. apply lookup_app_Some in Hj as [Hj|[Hge Hj]].
  - apply (Hl i j); [done| |done]. apply lookup_lt_Some in Hj. rewrite lookup_app_l in Hi by lia. done.
  - apply list_lookup_singleton_Some in Hj as [_ <-]. apply lookup_app_Some in Hi as [Hi|[_ Hi]].
    + by eapply (Forall_lookup_1 _ _ _ _ Hv).
    + by apply list_lookup_singleton_Some in Hi as [_ <-].
Qed.

Lemma load_ok l seen pick a :
  mono l -> l !! seen = Some a ->
  exists i b, load (map w64 l) seen pick = Ok (w64 b, i) /\ l !! i = Some b /\ a <= b.
Proof.
  intros Hm Ha. unfold load. rewrite length_map. apply lookup_lt_Some in Ha as Hlt.
  set (i := Nat.max seen (Nat.min pick (length l - 1))). destruct (lookup_lt_is_Some_2 l i) as [b Hb]; [lia|].
  exists i, b. rewrite (lookup_map w64), Hb. split; [done|]. split; [done|]. apply (Hm seen i); [lia|done|done].
Qed.

(** A fresh load sees the last store. *)
Lemma load_fresh l seen pick a b :
  l !! seen = Some a -> list.last l = Some b -> (length l <= S pick)%nat -> load (map w64 l) seen pick = Ok (w64 b, length l - 1)%nat.
Proof.
  intros Ha Hb Hp. unfold load. rewrite length_map. apply lookup_lt_Some in Ha.
  replace (Nat.max seen (Nat.min pick (length l - 1))) with (length l - 1)%nat by lia.
  rewrite last_lookup in Hb. replace (Init.Nat.pred (length l)) with (length l - 1)%nat in Hb by lia. by rewrite (lookup_map w64), Hb.
Qed.

(** ** The ownership protocol

    [ins] are the values moved into the ring so far, [outs] those moved out;
    [hs] and [ts] are the published indices counted without wrap-around. *)

Record ghost := { hs : list Z; ts : list Z; published : Z; hc : Z; tc : Z }.

Section protocol.
Context (k : Z) (Hk : 0 <= k < 64).
Notation cap := (2 ^ k).

Definition slots_ok (slots : list (option T)) (ins : list T) (d : Z) : Prop :=
  len slots = cap /\ forall i, d <= i < d + cap -> get slots (i mod cap) = Some (get ins i).

Definition shared_ok (sh : Shared) (g : ghost) (ins : list T) (d : Z) : Prop :=
  mask sh = cap - 1 /\ slots_ok (slots sh) ins d /\
  head sh = map w64 (hs g) /\ mono (hs g) /\ Forall (fun a => a <= d) (hs g) /\
  tail sh = map w64 (ts g) /\ mono (ts g) /\ Forall (fun a => a <= published g) (ts g) /\ list.last (ts g) = Some (published g).

Definition producer_ok (p : Producer) (g : ghost) (w : Z) : Prop :=
  p_tail p = w64 (published g) /\ head_cache p = w64 (hc g) /\ hs g !! head_seen p = Some (hc g) /\ w <= hc g + cap /\
  match p_pc p with
  | PIdle => w = published g
  | PushWrite _ => w = published g /\ w < hc g + cap
  | PushPublish => w = published g + 1
  | BatchWrite free n _ => 0 <= n /\ w = published g + n /\ free = hc g + cap - published g
  | BatchPublish n => 0 <= n /\ w = published g + n
  end.

Definition consumer_ok (c : Consumer) (g : ghost) (d : Z) : Prop :=
  c_head c = w64 d /\ tail_cache c = w64 (tc g) /\ ts g !! tail_seen c = Some (tc g) /\ d <= tc g /\
  match c_pc c with
  | CIdle => list.last (hs g) = Some d
  | CRead r _ => d + r <= tc g
  | CAdvance _ => True
  end.

Definition Inv (ins outs : list T) (st : State) : Prop := exists g,
  outs `prefix_of` ins /\ 0 <= hc g <= len outs /\ tc g <= published g <= len ins /\
  shared_ok (shared st) g ins (len outs) /\ producer_ok (producer st) g (len ins) /\ consumer_ok (consumer st) g (len outs).

(** ** Slots *)

Lemma cap_pos : 0 < cap.
Proof. apply Z.pow_pos_nonneg; lia. Qed.

Lemma mod_window d i j : d <= i < d + cap -> d <= j < d + cap -> i mod cap = j mod cap -> i = j.
Proof.
  intros Hi Hj E. pose proof cap_pos. pose proof (Z.div_mod i cap ltac:(lia)). pose proof (Z.div_mod j cap ltac:(lia)).
  rewrite E in *. assert (i / cap = j / cap); [|congruence]. set (a := i / cap) in *. set (b := j / cap) in *. nia.
Qed.

Lemma get_snoc {A} (l : list A) x i : 0 <= i -> get (l ++ [x]) i = if i =? len l then Some x else get l i.
Proof.
  intros Hi. unfold get. rewrite (proj2 (Z.leb_le 0 i)) by done. unfold len. destruct (Z.eqb_spec i (Z.of_nat (length l))) as [->|Hne].
  - rewrite Nat2Z.id, lookup_app_r, Nat.sub_diag by lia. done.
  - destruct (Z.lt_ge_cases i (Z.of_nat (length l))); [by rewrite lookup_app_l by lia|].
    rewrite !lookup_ge_None_2; [done|lia|rewrite length_app; cbn; lia].
Qed.

(** Moving a value into the next slot. *)
Lemma write_slot_ok sh ins d v :
  mask sh = cap - 1 -> slots_ok (slots sh) ins d -> 0 <= d <= len ins -> len ins < d + cap ->
  exists s, write_slot sh (w64 (len ins)) v = Ok (set_slots sh s) /\ slots_ok s (ins ++ [v]) d.
Proof.
  intros Hm [Hl Hs] Hd Hw. pose proof cap_pos as Hc. unfold write_slot. rewrite Hm, land_index, Hs by lia.
  pose proof (Z.mod_pos_bound (len ins) cap Hc).
  destruct (get ins (len ins)) eqn:E; [apply get_lt in E; lia|]. ok_step. rewrite set_at_Ok by lia. ok_step.
  eexists. split; [done|]. split; [by rewrite len_insert|]. intros i Hi. pose proof (Z.mod_pos_bound i cap Hc).
  rewrite get_insert, get_snoc by lia. destruct (Z.eqb_spec (i mod cap) (len ins mod cap)) as [Em|Em].
  - apply (mod_window d) in Em; [|lia..]. subst. by rewrite Z.eqb_refl.
  - destruct (Z.eqb_spec i (len ins)) as [->|]; [done|]. by apply Hs.
Qed.

(** Moving the oldest value out. *)
Lemma read_slot_ok sh ins d :
  mask sh = cap - 1 -> slots_ok (slots sh) ins d -> 0 <= d < len ins -> len ins <= d + cap ->
  exists v s, read_slot sh (w64 d) = Ok (v, set_slots sh s) /\ get ins d = Some v /\ slots_ok s ins (d + 1).
Proof.
  intros Hm [Hl Hs] Hd Hw. pose proof cap_pos as Hc. unfold read_slot. rewrite Hm, land_index, Hs by lia.
  pose proof (Z.mod_pos_bound d cap Hc). destruct (get_in ins d) as [v Hv]; [lia|]. rewrite Hv. ok_step.
  rewrite set_at_Ok by lia. ok_step. do 2 eexists. split; [done|]. split; [done|]. split; [by rewrite len_insert|].
  intros i Hi. pose proof (Z.mod_pos_bound i cap Hc). rewrite get_insert by lia.
  destruct (Z.eqb_spec (i mod cap) (d mod cap)) as [Em|Em].
  - destruct (decide (i = d + cap)) as [->|]; [|apply (mod_window d) in Em; lia].
    destruct (get ins (d + cap)) eqn:E; [apply get_lt in E; lia|done].
  - apply Hs. destruct (decide (i = d + cap)) as [->|]; [|lia]. destruct Em. rewrite <- (Z.mul_1_l cap) at 1. by rewrite Z_mod_plus_full.
Qed.

(** ** Steps *)

Definition set_hc (g : ghost) (h : Z) : ghost := {| hs := hs g; ts := ts g; published := published g; hc := h; tc := tc g |}.
Definition set_tc (g : ghost) (t : Z) : ghost := {| hs := hs g; ts := ts g; published := published g; hc := hc g; tc := t |}.

Lemma checked_sub_le a b : b <= a -> checked_sub a b = Some (a - b).
Proof. intros. unfold checked_sub. by rewrite (proj2 (Z.leb_le _ _)). Qed.

Lemma free_slots_ok sh p g ins d w want pick :
  shared_ok sh g ins d -> producer_ok p g w -> p_pc p = PIdle -> 0 <= hc g <= d -> d <= published g ->
  exists h p', free_slots sh p want pick = Ok (h + cap - published g, p') /\ hc g <= h <= d /\
    producer_ok p' (set_hc g h) w /\ p_pc p' = PIdle /\
    (want <= h + cap - published g \/
     ((length (hs g) <= S pick)%nat -> list.last (hs g) = Some h)).
Proof.
  intros (Hm & _ & Hh & Hmono & Hle & _) (Et & Ec & Hseen & Hw & Hpc) Hidle Hhc Hd. rewrite Hidle in Hpc. pose proof cap_pos.
  assert (cap <= 2 ^ 63) by (apply Z.pow_le_mono_r; lia).
  unfold free_slots. rewrite Hm, Et, Ec, wrap_sub_small by lia. replace (cap - 1 + 1) with cap by lia.
  rewrite checked_sub_le by lia. ok_step. destruct (Z.leb_spec want (cap - (published g - hc g))).
  - exists (hc g), p. replace (hc g + cap - published g) with (cap - (published g - hc g)) by lia. split; [done|]. split; [lia|].
    split; [unfold producer_ok; by rewrite Hidle|]. split; [done|]. by left.
  - destruct (load_ok (hs g) (head_seen p) pick (hc g) Hmono Hseen) as (i & b & El & Hb & Hge). rewrite Hh, El. ok_step.
    assert (b <= d) by (by eapply (Forall_lookup_1 _ _ _ _ Hle)). cbn [p_tail]. rewrite wrap_sub_small by lia.
    rewrite checked_sub_le by lia. ok_step. exists b. eexists.
    replace (b + cap - published g) with (cap - (published g - b)) by lia. split; [done|]. split; [lia|].
    split; [unfold producer_ok; cbn; rewrite Hidle; split_and!; try done; lia|]. split; [done|]. right. intros Hf.
    destruct (list.last (hs g)) as [l|] eqn:Hl; [|apply last_None in Hl; rewrite Hl in Hseen; done].
    rewrite (load_fresh _ _ _ _ _ Hseen Hl Hf) in El. injection El as _ <-. rewrite last_lookup in Hl.
    replace (Init.Nat.pred (length (hs g))) with (length (hs g) - 1)%nat in Hl by lia. congruence.
Qed.

(** A step that keeps the protocol. *)
Definition keeps (ins outs : list T) (c : panics (State * list output)) : Prop :=
  exists st out, c = Ok (st, out) /\ Inv (ins ++ wrote out) (outs ++ delivered out) st.

Lemma keeps_silent ins outs st out c :
  c = Ok (st, out) -> wrote out = [] -> delivered out = [] -> Inv ins outs st -> keeps ins outs c.
Proof. intros -> E1 E2 H. exists st, out. split; [done|]. by rewrite E1, E2, !app_nil_r. Qed.

Lemma push_keeps ins outs st v pick : Inv ins outs st -> keeps ins outs (step st (CallPush v pick)).
Proof.
  intros Hinv. cbn [step]. destruct (p_pc (producer st)) eqn:Hidle; try (by eapply keeps_silent).
  destruct Hinv as (g & Hpre & Hhc & Htc & Hsh & Hp & Hc). pose proof Hc as (_ & _ & _ & Hd & _).
  destruct (free_slots_ok _ _ _ _ _ _ 1 pick Hsh Hp Hidle Hhc ltac:(lia)) as (h & p & Ef & Hh & Hp' & Hpc & _).
  unfold try_push. rewrite Ef. ok_step. pose proof Hp as (_ & _ & _ & _ & Hw). rewrite Hidle in Hw.
  destruct (Z.eqb_spec (h + cap - published g) 0).
  - eapply keeps_silent; [done|done|done|]. exists (set_hc g h). by split_and!; try done; cbn; lia.
  - eapply keeps_silent; [done|done|done|]. exists (set_hc g h). split_and!; try done; cbn; try lia.
    destruct Hp' as (? & ? & ? & ? & _). split_and!; try done. cbn in *. lia.
Qed.

Lemma publish_keeps ins outs st it pick : Inv ins outs st -> keeps ins outs (step st (CallPublish it pick)).
Proof.
  intros Hinv. cbn [step]. destruct (p_pc (producer st)) eqn:Hidle; try (by eapply keeps_silent).
  destruct Hinv as (g & Hpre & Hhc & Htc & Hsh & Hp & Hc). pose proof Hc as (_ & _ & _ & Hd & _).
  destruct (free_slots_ok _ _ _ _ _ _ USIZE_MAX pick Hsh Hp Hidle Hhc ltac:(lia)) as (h & p & Ef & Hh & Hp' & Hpc & _).
  unfold publish_batch. rewrite Ef. ok_step. pose proof Hp as (_ & _ & _ & _ & Hw). rewrite Hidle in Hw.
  eapply keeps_silent; [done|done|done|]. exists (set_hc g h). split_and!; try done; cbn; try lia.
  destruct Hp' as (? & ? & ? & ? & _). split_and!; try done. cbn in *. lia.
Qed.

(** Writing the next slot, whatever call it belongs to. *)
Lemma write_keeps ins outs st v pc :
  Inv ins outs st -> len ins < len outs + cap ->
  (forall g, producer_ok (producer st) g (len ins) -> producer_ok (set_ppc (producer st) pc) g (len ins + 1)) ->
  keeps ins outs
    (sh ← write_slot (shared st) (w64 (len ins)) v;
     Ok ({| shared := sh; producer := set_ppc (producer st) pc; consumer := consumer st |}, [Wrote v])).
Proof.
  intros (g & Hpre & Hhc & Htc & Hsh & Hp & Hc) Hroom Hpc. pose proof Hsh as (Hm & Hs & Hrest). pose proof Hc as (_ & _ & _ & Hd & _).
  destruct (write_slot_ok _ _ _ v Hm Hs) as (s & -> & Hs'); [pose proof (len_nonneg outs); lia|lia|]. ok_step.
  do 2 eexists. split; [done|]. change (wrote [Wrote v]) with [v]. change (delivered [Wrote v]) with (@nil T). rewrite app_nil_r.
  exists g. cbn [shared producer consumer]. rewrite len_app. change (len [v]) with 1.
  refine (conj _ (conj _ (conj _ (conj _ (conj _ _))))); [by apply prefix_app_r|done|lia|by split|by apply Hpc|done].
Qed.

Lemma publish_store sh p g ins d n :
  shared_ok sh g ins d -> 0 <= n -> p_tail p = w64 (published g) ->
  let '(sh', p') := publish sh p n in
  let g' := {| hs := hs g; ts := ts g ++ [published g + n]; published := published g + n; hc := hc g; tc := tc g |} in
  shared_ok sh' g' ins d /\ p_tail p' = w64 (published g + n) /\ p_pc p' = PIdle /\ head_cache p' = head_cache p /\ head_seen p' = head_seen p.
Proof.
  intros (Hm & Hs & Hh & Hmo & Hle & Ht & Htm & Htle & Htl) Hn Et. unfold publish. cbn. rewrite Et, wrap_add_l.
  split; [|done]. split_and!; try done; cbn.
  - unfold store. by rewrite Ht, map_app.
  - apply mono_snoc; [done|]. eapply Forall_impl; [|exact Htle]. cbn. lia.
  - apply Forall_app. split; [eapply Forall_impl; [|exact Htle]; cbn; lia|]. constructor; [lia|constructor].
  - by rewrite last_snoc.
Qed.

Lemma published_keeps ins outs st n out :
  Inv ins outs st -> 0 <= n -> wrote out = [] -> delivered out = [] ->
  (forall g, producer_ok (producer st) g (len ins) -> len ins = published g + n) ->
  let '(sh, p) := publish (shared st) (producer st) n in
  keeps ins outs (Ok ({| shared := sh; producer := p; consumer := consumer st |}, out)).
Proof.
  intros (g & Hpre & Hhc & Htc & Hsh & Hp & Hc) Hn E1 E2 Hlen. specialize (Hlen g Hp). pose proof Hp as (Et & Ec & Hseen & Hw & _).
  pose proof (publish_store _ _ _ _ _ n Hsh Hn Et) as H. destruct (publish _ _ n) as [sh p]. destruct H as (Hsh' & Ht' & Hpc' & Ec' & Es').
  eapply keeps_silent; [done|done|done|]. eexists. cbn [shared producer consumer].
  refine (conj _ (conj _ (conj _ (conj Hsh' (conj _ _))))); [done|done|cbn; lia| |].
  - unfold producer_ok. rewrite Hpc', Ec', Es'. cbn. split_and!; try done.
  - destruct Hc as (? & ? & Hs & ? & Hpc). split_and!; try done. cbn. by apply lookup_app_l_Some.
Qed.

Lemma producer_keeps ins outs st : Inv ins outs st -> keeps ins outs (step st StepProducer).
Proof.
  intros Hinv. pose proof Hinv as (g & Hpre & Hhc & Htc & Hsh & Hp & Hc). cbn [step]. unfold producer_step.
  assert (forall pc, (forall g, producer_ok (producer st) g (len ins) -> producer_ok (set_ppc (producer st) pc) g (len ins)) ->
    Inv ins outs {| shared := shared st; producer := set_ppc (producer st) pc; consumer := consumer st |}) as Hmove.
  { intros pc Hpc. exists g. cbn [shared producer consumer]. refine (conj _ (conj _ (conj _ (conj _ (conj _ _))))); try done. by apply Hpc. }
  pose proof Hp as (Et & _ & _ & Hw & Hpc). destruct (p_pc (producer st)) as [|v| |free n it|n] eqn:Epc.
  - ok_step. by eapply keeps_silent.
  - destruct Hpc as [Ew Hroom]. rewrite Et, <- Ew.
    pose proof (write_keeps ins outs st v PushPublish Hinv ltac:(lia)) as H. destruct (write_slot _ _ _); ok_step; ok_step in H; apply H;
      intros g' (? & ? & ? & ? & Hg); rewrite Epc in Hg; split_and!; try done; cbn; lia.
  - pose proof (published_keeps ins outs st 1 [PushOk] Hinv ltac:(lia) eq_refl eq_refl) as H. destruct (publish _ _ 1). ok_step. apply H.
    intros g' (? & ? & ? & ? & Hg). rewrite Epc in Hg. done.
  - destruct Hpc as (Hn & Ew & Ef). assert (Inv ins outs {| shared := shared st; producer := set_ppc (producer st) (BatchPublish n); consumer := consumer st |}).
    { apply Hmove. intros g' (? & ? & ? & ? & Hg). rewrite Epc in Hg. split_and!; try done; cbn; lia. }
    destruct it as [|v it]; [ok_step; by eapply keeps_silent|]. destruct (Z.ltb_spec n free); [|ok_step; by eapply keeps_silent].
    rewrite Et, wrap_add_l, <- Ew.
    pose proof (write_keeps ins outs st v (BatchWrite free (n + 1) it) Hinv ltac:(lia)) as Hkp. destruct (write_slot _ _ _); ok_step; ok_step in Hkp; apply Hkp;
      intros g' (? & ? & ? & ? & Hg); rewrite Epc in Hg; split_and!; try done; cbn; lia.
  - destruct Hpc as [Hn Ew]. destruct (Z.ltb_spec 0 n).
    + pose proof (published_keeps ins outs st n [Published n] Hinv ltac:(lia) eq_refl eq_refl) as Hkp. destruct (publish _ _ n). ok_step. apply Hkp.
      intros g' (? & ? & ? & ? & Hg). rewrite Epc in Hg. apply Hg.
    + ok_step. eapply keeps_silent; [done|done|done|]. apply Hmove. intros g' (? & ? & ? & ? & Hg). rewrite Epc in Hg. split_and!; try done; cbn; lia.
Qed.

(** ** The consumer's steps *)

Lemma consume_keeps ins outs st max pick : Inv ins outs st -> keeps ins outs (step st (CallConsume max pick)).
Proof.
  intros Hinv. cbn [step]. destruct (c_pc (consumer st)) eqn:Hidle; try (by eapply keeps_silent).
  destruct Hinv as (g & Hpre & Hhc & Htc & Hsh & Hp & Hc). destruct Hc as (Eh & Ec & Hseen & Hd & Hpc). rewrite Hidle in Hpc.
  pose proof Hsh as (_ & _ & _ & _ & _ & Ht & Htm & Htle & _). pose proof Hp as (_ & _ & _ & Hw & _).
  assert (cap <= 2 ^ 63) by (apply Z.pow_le_mono_r; lia). unfold consume_batch.
  assert (exists t seen, (if wrapping_sub (tail_cache (consumer st)) (c_head (consumer st)) <? max then
      '(t, seen) ← load (tail (shared st)) (tail_seen (consumer st)) pick;
      Ok {| c_head := c_head (consumer st); tail_cache := t; tail_seen := seen; c_pc := c_pc (consumer st) |} else Ok (consumer st)) =
      Ok (E:=False) {| c_head := w64 (len outs); tail_cache := w64 t; tail_seen := seen; c_pc := CIdle |} /\
      ts g !! seen = Some t /\ len outs <= t <= published g) as (t & seen & -> & Hts & Htr).
  { destruct (_ <? max).
    - rewrite Ht. destruct (load_ok (ts g) (tail_seen (consumer st)) pick (tc g) Htm Hseen) as (i & b & -> & Hb & Hge). ok_step.
      exists b, i. rewrite Eh, Hidle. split; [done|]. split; [done|]. split; [lia|]. by eapply (Forall_lookup_1 _ _ _ _ Htle).
    - exists (tc g), (tail_seen (consumer st)). destruct (consumer st). cbn in *. subst. split; [done|]. split; [done|lia]. }
  ok_step. cbn [tail_cache c_head]. rewrite wrap_sub_small by lia.
  assert (forall pc, match pc with CIdle => True | CRead r _ => len outs + r <= t | CAdvance _ => True end ->
    Inv ins outs {| shared := shared st; producer := producer st; consumer :=
      {| c_head := w64 (len outs); tail_cache := w64 t; tail_seen := seen; c_pc := pc |} |}) as Hmove.
  { intros pc Hr. exists (set_tc g t). cbn [shared producer consumer]. refine (conj _ (conj _ (conj _ (conj _ (conj _ _))))); try done; [cbn; lia|].
    split_and!; try done; [cbn; lia|]. by destruct pc. }
  destruct (_ =? 0); ok_step; (eapply keeps_silent; [done|done|done|]); apply Hmove; [done|lia].
Qed.

Lemma consumer_keeps ins outs st f_panics : Inv ins outs st -> keeps ins outs (step st (StepConsumer f_panics)).
Proof.
  intros Hinv. pose proof Hinv as (g & Hpre & Hhc & Htc & Hsh & Hp & Hc). cbn [step]. unfold consumer_step.
  pose proof Hc as (Eh & Ec & Hseen & Hd & Hpc). pose proof Hp as (_ & _ & _ & Hw & _).
  destruct (c_pc (consumer st)) as [|r n|returns] eqn:Epc.
  - ok_step. by eapply keeps_silent.
  - destruct (Z.leb_spec r 0).
    + ok_step. eapply keeps_silent; [done|done|done|]. exists g. cbn [shared producer consumer].
      by refine (conj _ (conj _ (conj _ (conj _ (conj _ _))))).
    + pose proof Hsh as (Hm & Hs & Hh & Hmo & Hle & Hrest). pose proof (len_nonneg outs).
      destruct (read_slot_ok _ _ _ Hm Hs ltac:(lia) ltac:(lia)) as (v & s & Er & Hv & Hs'). rewrite Eh, Er. ok_step.
      do 2 eexists. split; [done|]. change (wrote [Delivered v]) with (@nil T). change (delivered [Delivered v]) with [v]. rewrite app_nil_r.
      exists g. cbn [shared producer consumer]. rewrite len_app. change (len [v]) with 1.
      refine (conj _ (conj _ (conj _ (conj _ (conj _ _))))); [|lia|lia| |done|].
      * destruct Hpre as [rest ->]. apply get_split in Hv as (a & b & E & Ha). apply app_len_inj in E as [-> ->]; [|done].
        exists b. by rewrite <- app_assoc.
      * refine (conj _ (conj Hs' (conj _ (conj _ (conj _ Hrest))))); try done. eapply Forall_impl; [|exact Hle]. cbn. lia.
      * rewrite wrap_add_l. split_and!; try done; cbn; [lia|]. destruct f_panics; [done|lia].
  - ok_step. eapply keeps_silent; [done|by destruct returns|by destruct returns|].
    exists {| hs := hs g ++ [len outs]; ts := ts g; published := published g; hc := hc g; tc := tc g |}. cbn [shared producer consumer].
    pose proof Hsh as (Hm & Hs & Hh & Hmo & Hle & Hrest).
    refine (conj _ (conj _ (conj _ (conj _ (conj _ _))))); try done.
    + refine (conj _ (conj _ (conj _ (conj _ (conj _ Hrest))))); try done; cbn.
      * unfold store. by rewrite Hh, Eh, map_app.
      * by apply mono_snoc.
      * apply Forall_app. split; [done|]. constructor; [lia|constructor].
    + destruct Hp as (? & ? & Hl & ? & ?). split_and!; try done. cbn. by apply lookup_app_l_Some.
    + split_and!; try done. cbn. by rewrite last_snoc.
Qed.

Lemma step_keeps ins outs st e : Inv ins outs st -> keeps ins outs (step st e).
Proof.
  intros H. destruct e; [by apply push_keeps|by apply publish_keeps|by apply producer_keeps|by apply consume_keeps|by apply consumer_keeps].
Qed.

Lemma run_keeps es : forall ins outs st, Inv ins outs st -> keeps ins outs (run st es).
Proof.
  induction es as [|e es IH]; intros ins outs st H; cbn [run]; [by eapply keeps_silent|].
  destruct (step_keeps ins outs st e H) as (st1 & out1 & -> & H1). ok_step. destruct (IH _ _ _ H1) as (st2 & out2 & -> & H2). ok_step.
  exists st2, (out1 ++ out2). split; [done|]. unfold wrote, delivered in *. by rewrite !omap_app, !app_assoc.
Qed.

(** ** Start, drop and fresh calls *)

Lemma ring_init : exists st, ring cap = Ok st /\ Inv [] [] st /\ mask (shared st) = cap - 1.
Proof.
  pose proof cap_pos. unfold ring, is_power_of_two. rewrite (proj2 (Z.ltb_lt _ _)), Z.log2_pow2, Z.eqb_refl by lia. cbn [andb rassert]. ok_step.
  eexists. split; [done|]. split; [|done]. exists {| hs := [0]; ts := [0]; published := 0; hc := 0; tc := 0 |}. cbn [shared producer consumer].
  assert (mono [0]) by (intros [|i] [|j] a b; cbn; naive_solver lia).
  refine (conj _ (conj _ (conj _ (conj _ (conj _ _))))); try done.
  - refine (conj _ (conj _ _)); [done| |by repeat constructor]. split; cbn [slots].
    + rewrite len_replicate. lia.
    + intros i Hi. pose proof (Z.mod_pos_bound i cap ltac:(lia)). unfold get. rewrite (proj2 (Z.leb_le _ _)) by lia.
      rewrite lookup_replicate_2 by lia. by destruct (0 <=? i).
  - split_and!; try done. cbn [hc]. rewrite len_nil. lia.
Qed.

Lemma drop_loop_ok fuel : forall sh ins d,
  mask sh = cap - 1 -> slots_ok (slots sh) ins d -> 0 <= d <= len ins -> len ins <= d + cap -> len ins - d <= Z.of_nat fuel ->
  drop_loop fuel sh (w64 d) (w64 (len ins)) = Ok (drop (Z.to_nat d) ins).
Proof.
  assert (cap <= 2 ^ 63) by (apply Z.pow_le_mono_r; lia).
  assert (forall d n, 0 <= d <= n -> n <= d + cap -> w64 d = w64 n -> d = n) as Hinj.
  { intros d n Hd Hn E. pose proof (wrap_sub_small n d ltac:(lia)) as Hs. rewrite E in Hs. unfold wrapping_sub in Hs.
    rewrite Z.sub_diag in Hs. change (w64 0) with 0 in Hs. lia. }
  induction fuel as [|fuel IH]; intros sh ins d Hm Hs Hd Hw Hf; cbn [drop_loop].
  - assert (d = len ins) as -> by lia. rewrite Z.eqb_refl. rewrite drop_ge; [done|]. unfold len. lia.
  - destruct (Z.eqb_spec (w64 d) (w64 (len ins))) as [E|E].
    { apply Hinj in E as ->; [|done..]. rewrite drop_ge; [done|]. unfold len. lia. }
    assert (d < len ins) by (destruct (decide (d = len ins)) as [->|]; [done|lia]).
    destruct (read_slot_ok _ _ _ Hm Hs ltac:(lia) Hw) as (v & s & -> & Hv & Hs'). ok_step. rewrite wrap_add_l.
    rewrite (IH (set_slots sh s) ins (d + 1)) by (try done; lia). ok_step. apply get_lookup in Hv.
    rewrite (drop_S _ _ _ Hv). by replace (Z.to_nat (d + 1)) with (S (Z.to_nat d)) by lia.
Qed.

(** What a state with both sides idle promises: the values in flight are those a
    drop finds, and a call that sees the other side's last store acts on exactly
    them. *)
Definition settled (ins outs : list T) (st : State) : Prop :=
  let pending := drop (length outs) ins in
  drop_shared (shared st) = Ok pending /\
  (forall v pick, (length (head (shared st)) <= S pick)%nat -> exists st',
     step st (CallPush v pick) = Ok (st', if len pending =? cap then [PushFull v] else [])) /\
  (forall max pick, 1 <= max -> (length (tail (shared st)) <= S pick)%nat -> exists st' out,
     step st (CallConsume max pick) = Ok (st', out) /\
     c_pc (consumer st') = if len pending =? 0 then CIdle else CRead (Z.min (len pending) max) (Z.min (len pending) max)).

Lemma idle_settled ins outs st :
  Inv ins outs st -> p_pc (producer st) = PIdle -> c_pc (consumer st) = CIdle -> settled ins outs st.
Proof.
  intros (g & Hpre & Hhc & Htc & Hsh & Hp & Hc) Hpi Hci. pose proof Hsh as (Hm & Hs & Hh & Hmo & Hle & Ht & Htm & Htle & Htl).
  pose proof Hp as (_ & _ & _ & Hw & Hpc). pose proof Hc as (Eh & Ec & Hseen & Hd & Hcc). rewrite Hpi in Hpc. rewrite Hci in Hcc.
  assert (cap <= 2 ^ 63) by (apply Z.pow_le_mono_r; lia). pose proof (len_nonneg outs).
  assert (len (drop (length outs) ins) = len ins - len outs) as Epend.
  { unfold len in *. rewrite length_drop. apply prefix_length in Hpre. lia. }
  unfold settled. rewrite Epend. split_and!.
  - unfold drop_shared. rewrite Hh, Ht. assert (forall l a, list.last l = Some a -> list.last (map w64 l) = Some (w64 a)) as Hlast.
    { intros l a. rewrite !last_lookup, length_map, (lookup_map w64). by intros ->. }
    rewrite (Hlast _ _ Hcc), (Hlast _ _ Htl). ok_step. rewrite <- Hpc.
    destruct Hs as [Hsl Hs]. rewrite (drop_loop_ok _ _ ins (len outs)) by (try done; unfold len in *; lia).
    do 2 f_equal. unfold len. lia.
  - intros v pick Hf. rewrite Hh, length_map in Hf. cbn [step]. rewrite Hpi.
    destruct (free_slots_ok _ _ _ _ _ _ 1 pick Hsh Hp Hpi Hhc ltac:(lia)) as (h & p & Ef & Hhr & _ & _ & Hfr).
    unfold try_push. rewrite Ef. ok_step.
    replace (h + cap - published g =? 0) with (len ins - len outs =? cap); [destruct (_ =? cap); by eexists|].
    destruct Hfr as [Hfr|Hfr]; [|specialize (Hfr Hf); assert (h = len outs) as -> by congruence]; lia.
  - intros max pick Hmax Hf. rewrite Ht, length_map in Hf. cbn [step]. rewrite Hci. unfold consume_batch. rewrite Ec, Eh, wrap_sub_small by lia.
    destruct (Z.ltb_spec (tc g - len outs) max).
    + rewrite Ht, (load_fresh _ _ _ _ _ Hseen Htl Hf). ok_step. cbn [tail_cache c_head]. rewrite wrap_sub_small, <- Hpc by lia.
      destruct (_ =? 0) eqn:E0; ok_step; do 2 eexists; split; try done.
    + ok_step. rewrite Ec, Eh, wrap_sub_small by lia. rewrite (proj2 (Z.eqb_neq (tc g - _) 0)), (proj2 (Z.eqb_neq (len ins - _) 0)) by lia.
      ok_step. do 2 eexists. split; [done|]. cbn. f_equal; lia.
Qed.
End protocol.

(** C15. The ring is a bounded queue under every interleaving of the two
    sides, with loads as stale as the memory model allows: no slot is overwritten
    while it holds a value and none is read without one; what the consumer's
    callback gets is a prefix of what was moved in, in order and once each, also
    when the callback unwinds (the producer's iterators return); never more than the
    capacity is in flight. When
    both sides are idle, dropping the ring drops exactly the values in flight, a
    push that sees the last release is refused exactly when the ring is full, and
    a drain that sees the last publication takes what there is, up to its bound. *)
Theorem ring_is_fifo capacity (es : list event)
  (Hpow : is_power_of_two capacity = true) (Hcap : in_u 64 capacity) :
  exists st0 st out, ring capacity = Ok st0 /\ run st0 es = Ok (st, out) /\
    delivered out `prefix_of` wrote out /\ len (wrote out) - len (delivered out) <= capacity /\
    (p_pc (producer st) = PIdle -> c_pc (consumer st) = CIdle ->
     let pending := drop (length (delivered out)) (wrote out) in
     drop_shared (shared st) = Ok pending /\
     (forall v pick, (length (head (shared st)) <= S pick)%nat -> exists st',
        step st (CallPush v pick) = Ok (st', if len pending =? capacity then [PushFull v] else [])) /\
     (forall max pick, 1 <= max -> (length (tail (shared st)) <= S pick)%nat -> exists st' out',
        step st (CallConsume max pick) = Ok (st', out') /\
        c_pc (consumer st') = if len pending =? 0 then CIdle else CRead (Z.min (len pending) max) (Z.min (len pending) max))).
Proof.
  destruct (power_of_two capacity Hpow Hcap) as (k & Hk & ->). destruct (ring_init k Hk) as (st0 & E0 & H0 & _).
  destruct (run_keeps k Hk es [] [] st0 H0) as (st & out & Er & Hinv). exists st0, st, out. split; [done|]. split; [done|].
  pose proof Hinv as (g & Hpre & Hhc & Htc & _ & (_ & _ & _ & Hw & _) & _). split; [done|]. split; [cbn in *; lia|].
  intros Hpi Hci. by apply (idle_settled k Hk).
Qed.
End ring.

Definition demo_schedule : list (event (T:=Z)) :=
  [CallPush 1 9; StepProducer; CallConsume 8 9; StepProducer; CallPublish [2; 3; 4] 9; CallConsume 8 0; StepProducer; CallConsume 8 9;
   StepConsumer false; StepConsumer false; StepProducer; StepConsumer false; StepProducer].

Lemma ring_is_fifo_witness :
  exists st out, (st0 ← ring 2; run st0 demo_schedule) = Ok (st, out) /\ delivered out = [1] /\ wrote out = [1; 2].
Proof.
  destruct (ring_is_fifo 2 demo_schedule) as (st0 & st & out & E0 & Er & _); [done|unfold in_u; lia|].
  exists st, out. rewrite E0. ok_step. split; [done|]. vm_compute in E0. injection E0 as <-. vm_compute in Er. by injection Er as <- <-.
Defined.
End Ring.
