(* ===== verification/SegmentFs.v ===== *)
(** * SegmentFs: the file system interface of the log

    [inf-log/src/fs.rs], traits [SegmentFile] and [SegmentFs], as far as the
    metadata swap uses them. A call runs on the state of the file system and ends
    with a result or an [io::Error]; a failed call may have changed the state, so
    errors carry it too. [SimDisk] is an instance and [Envelope] a client. *)

From stdpp Require Import strings.
From S2P Require Import Prelude.

Module SegmentFs.

(** A path by its components. *)
Definition PathBuf := list string.
Definition join (dir : PathBuf) (name : string) : PathBuf := dir ++ [name].

(** What a refused envelope says. *)
Inductive InvalidReason :=
  | OverBound | Torn | OverReport | TooShort | BadMagic | Unaddressable | LengthMismatch | CrcMismatch | BadManifest.

Inductive IoError :=
  | NotFound
  | AlreadyExists
  | InvalidInput
  | InvalidData (what : InvalidReason)
  | Eio
  | PowerLost
  | Injected
  | CrossDirectory.
#[global] Instance InvalidReason_eq_dec : EqDecision InvalidReason.
Proof. solve_decision. Defined.
#[global] Instance IoError_eq_dec : EqDecision IoError.
Proof. solve_decision. Defined.

(** ** Calls *)

Definition io (S A : Type) : Type := S -> outcome IoError A * S.

Section calls.
Context {S : Type}.

Definition ret {A} (a : A) : io S A := fun s => (Ok a, s).
Definition lift {A} (c : outcome IoError A) : io S A := fun s => (c, s).
Definition bind {A B} (c : io S A) (f : A -> io S B) : io S B := fun s =>
  match c s with
  | (Ok a, s) => f a s
  | (Err e, s) => (Err e, s)
  | (Panic, s) => (Panic, s)
  end.
(** The result of a call as a value, for a caller that handles errors. *)
Definition attempt {A} (c : io S A) : io S (IoError + A) := fun s =>
  match c s with
  | (Ok a, s) => (Ok (inr a), s)
  | (Err e, s) => (Ok (inl e), s)
  | (Panic, s) => (Panic, s)
  end.
(** A handle dropped when its scope ends, by return or by [?]. *)
Definition scoped {A} (body : io S A) (drop_ : io S unit) : io S A := fun s =>
  match body s with
  | (Panic, s) => (Panic, s)
  | (r, s) => match drop_ s with (Panic, s) => (Panic, s) | (_, s) => (r, s) end
  end.
End calls.

Declare Scope io_scope.
Notation "'let!' x ':=' c 'in' k" := (bind c (fun x => k)) (at level 200, x pattern, c at level 100, k at level 200) : io_scope.
Notation "c ';!' k" := (bind c (fun _ => k)) (at level 100, right associativity) : io_scope.
#[global] Open Scope io_scope.

(** The operations the metadata swap calls; [close] is the handle's [Drop]. A read
    gets the caller's buffer and returns it with the count it reports. *)
Class SegmentFs (S File : Type) := {
  remove_file : PathBuf -> io S unit;
  create_meta : PathBuf -> io S File;
  open_read : PathBuf -> io S File;
  rename : PathBuf -> PathBuf -> io S unit;
  sync_dir : PathBuf -> io S unit;
  write_at : File -> Z -> list byte -> io S unit;
  read_at : File -> Z -> list byte -> io S (Z * list byte);
  file_size : File -> io S Z;
  sync_data : File -> io S unit;
  close : File -> io S unit;
}.

(** ** Lemmas on calls *)

Section lemmas.
Context {S : Type}.

Lemma bind_ok {A B} (c : io S A) (f : A -> io S B) s a s' : c s = (Ok a, s') -> bind c f s = f a s'.
Proof. unfold bind. by intros ->. Qed.

Lemma bind_err {A B} (c : io S A) (f : A -> io S B) s e s' : c s = (Err e, s') -> bind c f s = (Err e, s').
Proof. unfold bind. by intros ->. Qed.

(** What a call that does not panic leaves: [Q] of its result and state. *)
Definition ends {A} (c : io S A) (s : S) (Q : IoError + A -> S -> Prop) : Prop :=
  exists r s', c s = (match r with inr a => Ok a | inl e => Err e end, s') /\ Q r s'.

Lemma ends_ret {A} (a : A) s (Q : IoError + A -> S -> Prop) : Q (inr a) s -> ends (ret a) s Q.
Proof. intros H. by exists (inr a), s. Qed.

Lemma ends_fail {A} e s (Q : IoError + A -> S -> Prop) : Q (inl e) s -> ends (lift (Err e)) s Q.
Proof. intros H. by exists (inl e), s. Qed.

Lemma ends_bind {A B} (c : io S A) (f : A -> io S B) s (Q : IoError + B -> S -> Prop) :
  ends c s (fun r s' => match r with inr a => ends (f a) s' Q | inl e => Q (inl e) s' end) -> ends (bind c f) s Q.
Proof.
  intros ([e|a] & s' & E & H); unfold ends, bind; rewrite E; [by exists (inl e), s'|exact H].
Qed.

Lemma ends_attempt {A} (c : io S A) s (Q : IoError + (IoError + A) -> S -> Prop) :
  ends c s (fun r s' => Q (inr r) s') -> ends (attempt c) s Q.
Proof. intros ([e|a] & s' & E & H); unfold ends, attempt; rewrite E; by eexists (inr _), s'. Qed.

Lemma ends_scoped {A} (c : io S A) (drop_ : io S unit) s (Q : IoError + A -> S -> Prop) :
  ends c s (fun r s' => ends drop_ s' (fun _ s'' => Q r s'')) -> ends (scoped c drop_) s Q.
Proof.
  intros (r & s' & E & (rd & s'' & Ed & H)). exists r, s''. split; [|done].
  unfold scoped. rewrite E. destruct r; rewrite Ed; by destruct rd.
Qed.

Lemma ends_mono {A} (c : io S A) s (Q R : IoError + A -> S -> Prop) :
  ends c s Q -> (forall r s', Q r s' -> R r s') -> ends c s R.
Proof. intros (r & s' & E & H) HQ. exists r, s'. auto. Qed.
End lemmas.
End SegmentFs.
