(* ===== verification/SimDisk.v ===== *)
(** * SimDisk: the disk that loses what was not synced

    [inf-log/src/fs/sim.rs]. A file is an inode with two images, what the operating
    system shows and what survives a power cut; names live in two maps likewise,
    with a queue of pending changes per directory. A cut keeps a drawn prefix of
    each queue and drawn sectors of the unsynced writes, in a drawn order.

    [BTreeMap] is [gmap]; where the source iterates in key order and draws, the
    model sorts. Directory handles, the driver's file descriptors, service times
    and the direct-write refusals are not modelled: [direct] is false on every file
    made here. *)

From stdpp Require Import strings gmap sorting.
From S2P Require Import Prelude SegmentFs.

Module SimDisk.
Import SegmentFs.SegmentFs.

(** ** The random source ([inf-foundation/src/rng.rs]) *)

Definition next_u64 (state : Z) : Z * Z :=
  let state := wrap 64 (state + 11400714819323198485) in
  let z := state in
  let z := wrap 64 (Z.lxor z (Z.shiftr z 30) * 13787848793156543929) in
  let z := wrap 64 (Z.lxor z (Z.shiftr z 27) * 10723151780598845931) in
  (Z.lxor z (Z.shiftr z 31), state).

Definition next_below (rng bound : Z) : Z * Z :=
  let '(x, rng) := next_u64 rng in (Z.shiftr (x * bound) 64, rng).

(** ** Sector coverage *)

Definition SectorMap := list Z.

Definition set_sector (m : SectorMap) (sector : Z) : SectorMap :=
  let word := Z.to_nat (sector / 64) in
  let m := if (length m <=? word)%nat then m ++ replicate (word + 1 - length m) 0 else m in
  <[word := Z.lor (m !!! word) (Z.shiftl 1 (sector mod 64))]> m.

Definition set_range (m : SectorMap) (from to : Z) : SectorMap := foldl set_sector m (seqZ from (to - from)).

(** ** Inodes *)

Record PendingWrite := { pw_offset : Z; pw_data : list byte }.

Record Inode := {
  durable : list byte;
  os : list byte;
  pending : list PendingWrite;
  prealloc_target : Z;
  sector : Z;
  written : SectorMap;
  committed : SectorMap;
  read_faults_left : Z;
  write_faults_left : Z;
  truncated_since_sync : bool;
}.

(** [Vec::resize(n, 0)]. *)
Definition resize (l : list byte) (n : Z) : list byte :=
  take (Z.to_nat n) l ++ replicate (Z.to_nat n - length l) x00.

(** [if end > v.len() { v.resize(end, 0) } v[from..end].copy_from_slice(data)]. *)
Definition put (image : list byte) (from : Z) (data : list byte) : list byte :=
  let to := from + len data in
  let image := if len image <? to then resize image to else image in
  take (Z.to_nat from) image ++ data ++ drop (Z.to_nat to) image.

Definition sectors (n : Inode) (offset end_ : Z) : Z * Z :=
  (offset / sector n, (end_ + sector n - 1) / sector n).

Definition with_images (n : Inode) (d o : list byte) (p : list PendingWrite) (w c : SectorMap) (t : bool) : Inode :=
  {| durable := d; os := o; pending := p; prealloc_target := prealloc_target n; sector := sector n; written := w;
     committed := c; read_faults_left := read_faults_left n; write_faults_left := write_faults_left n;
     truncated_since_sync := t |}.

Definition with_faults (n : Inode) (r w : Z) : Inode :=
  {| durable := durable n; os := os n; pending := pending n; prealloc_target := prealloc_target n; sector := sector n;
     written := written n; committed := committed n; read_faults_left := r; write_faults_left := w;
     truncated_since_sync := truncated_since_sync n |}.

Definition take_read_fault (n : Inode) : bool * Inode :=
  if 0 <? read_faults_left n then (true, with_faults n (read_faults_left n - 1) (write_faults_left n)) else (false, n).

Definition take_write_fault (n : Inode) : bool * Inode :=
  if 0 <? write_faults_left n then (true, with_faults n (read_faults_left n) (write_faults_left n - 1)) else (false, n).

Definition write (n : Inode) (offset : Z) (data : list byte) : Inode :=
  let '(first, last) := sectors n offset (offset + len data) in
  with_images n (durable n) (put (os n) offset data) (pending n ++ [{| pw_offset := offset; pw_data := data |}])
    (set_range (written n) first last) (committed n) (truncated_since_sync n).

Definition replay (image : list byte) (w : PendingWrite) : list byte := put image (pw_offset w) (pw_data w).

Definition sync (n : Inode) : Inode :=
  let image := if truncated_since_sync n then os n else resize (foldl replay (durable n) (pending n)) (len (os n)) in
  with_images n image (os n) [] (written n) (written n) false.

(** *** The cut *)

Definition swap (order : list nat) (i j : nat) : option (list nat) :=
  x ← order !! i; y ← order !! j; Some (<[j := x]> (<[i := y]> order)).

Fixpoint shuffle (i : nat) (order : list nat) (rng : Z) : panics (list nat * Z) :=
  match i with
  | O => Ok (order, rng)
  | S k =>
      let '(j, rng) := next_below rng (Z.of_nat i + 1) in
      order ← expect (swap order i (Z.to_nat j));
      shuffle k order rng
  end.

(** The sectors of one write, each kept by a coin. *)
Fixpoint cut_pieces (fuel : nat) (grid : Z) (n : Inode) (w : PendingWrite) (at_ : Z)
    (rng : Z) (image : list byte) (kept : SectorMap) : panics (Z * list byte * SectorMap) :=
  let end_ := pw_offset w + len (pw_data w) in
  if at_ <? end_ then
    match fuel with
    | O => Panic
    | S fuel =>
        let sector_end := (at_ / grid + 1) * grid in
        let piece_end := Z.min sector_end end_ in
        let '(coin, rng) := next_below rng 2 in
        '(image, kept) ← (if coin =? 1 then
                            data ← slice (pw_data w) (at_ - pw_offset w) (piece_end - pw_offset w);
                            let '(first, last) := sectors n at_ piece_end in
                            Ok (put image at_ data, set_range kept first last)
                          else Ok (image, kept));
        cut_pieces fuel grid n w piece_end rng image kept
    end
  else Ok (rng, image, kept).

Fixpoint cut_writes (grid : Z) (n : Inode) (order : list nat) (rng : Z) (image : list byte) (kept : SectorMap) :
    panics (Z * list byte * SectorMap) :=
  match order with
  | [] => Ok (rng, image, kept)
  | idx :: order =>
      w ← expect (pending n !! idx);
      '(rng, image, kept) ← cut_pieces (length (pw_data w)) grid n w (pw_offset w) rng image kept;
      cut_writes grid n order rng image kept
  end.

Definition cut (n : Inode) (rng grid : Z) : panics (Inode * Z) :=
  '(order, rng) ← shuffle (Nat.pred (length (pending n))) (seq 0 (length (pending n))) rng;
  '(rng, image, kept) ← cut_writes grid n order rng (durable n) (committed n);
  Ok (with_images n image image [] kept kept false, rng).

(** ** Names *)

Inductive MetaOp :=
  | Create (name : PathBuf) (ino : Z)
  | Rename (from to : PathBuf)
  | Remove (name : PathBuf).

Definition apply_meta (names : gmap PathBuf Z) (op : MetaOp) : gmap PathBuf Z :=
  match op with
  | Create name ino => <[name := ino]> names
  | Rename from to =>
      match names !! from with
      | Some ino => <[to := ino]> (delete from names)
      | None => names
      end
  | Remove name => delete name names
  end.

Definition parent_dir (path : PathBuf) : PathBuf := removelast path.

(** ** The disk *)

Record OpenFile := { of_ino : Z; of_direct : bool }.

Record DiskState := {
  sector_bytes : Z;
  dirs : gset PathBuf;
  os_names : gmap PathBuf Z;
  durable_names : gmap PathBuf Z;
  pending_meta : gmap PathBuf (list MetaOp);
  inodes : gmap Z Inode;
  next_ino : Z;
  open_files : gmap Z OpenFile;
  next_file_fd : Z;
  ops_until_cut : option Z;
  sync_dir_calls : Z;
  faults_fired : Z;
}.

Definition new (sector_bytes : Z) : DiskState :=
  {| sector_bytes := sector_bytes; dirs := ∅; os_names := ∅; durable_names := ∅; pending_meta := ∅; inodes := ∅; next_ino := 0;
     open_files := ∅; next_file_fd := 0; ops_until_cut := None; sync_dir_calls := 0; faults_fired := 0 |}.

(** Updates of some fields. *)
Definition with_names (d : DiskState) (o u : gmap PathBuf Z) (p : gmap PathBuf (list MetaOp)) : DiskState :=
  {| sector_bytes := sector_bytes d; dirs := dirs d; os_names := o; durable_names := u; pending_meta := p; inodes := inodes d;
     next_ino := next_ino d; open_files := open_files d; next_file_fd := next_file_fd d; ops_until_cut := ops_until_cut d;
     sync_dir_calls := sync_dir_calls d; faults_fired := faults_fired d |}.
Definition with_inodes (d : DiskState) (i : gmap Z Inode) (next : Z) : DiskState :=
  {| sector_bytes := sector_bytes d; dirs := dirs d; os_names := os_names d; durable_names := durable_names d;
     pending_meta := pending_meta d; inodes := i; next_ino := next; open_files := open_files d; next_file_fd := next_file_fd d;
     ops_until_cut := ops_until_cut d; sync_dir_calls := sync_dir_calls d; faults_fired := faults_fired d |}.
Definition with_files (d : DiskState) (f : gmap Z OpenFile) (next : Z) : DiskState :=
  {| sector_bytes := sector_bytes d; dirs := dirs d; os_names := os_names d; durable_names := durable_names d;
     pending_meta := pending_meta d; inodes := inodes d; next_ino := next_ino d; open_files := f; next_file_fd := next;
     ops_until_cut := ops_until_cut d; sync_dir_calls := sync_dir_calls d; faults_fired := faults_fired d |}.
Definition with_dirs (d : DiskState) (ds : gset PathBuf) : DiskState :=
  {| sector_bytes := sector_bytes d; dirs := ds; os_names := os_names d; durable_names := durable_names d;
     pending_meta := pending_meta d; inodes := inodes d; next_ino := next_ino d; open_files := open_files d;
     next_file_fd := next_file_fd d; ops_until_cut := ops_until_cut d; sync_dir_calls := sync_dir_calls d;
     faults_fired := faults_fired d |}.
Definition with_counters (d : DiskState) (ops : option Z) (syncs fired : Z) : DiskState :=
  {| sector_bytes := sector_bytes d; dirs := dirs d; os_names := os_names d; durable_names := durable_names d;
     pending_meta := pending_meta d; inodes := inodes d; next_ino := next_ino d; open_files := open_files d;
     next_file_fd := next_file_fd d; ops_until_cut := ops; sync_dir_calls := syncs; faults_fired := fired |}.
Definition set_inode (d : DiskState) (ino : Z) (n : Inode) : DiskState := with_inodes d (<[ino := n]> (inodes d)) (next_ino d).

(** [pending_meta.entry(dir).or_default().push(op)]. *)
Definition queue (d : DiskState) (dir : PathBuf) : list MetaOp := default [] (pending_meta d !! dir).
Definition push_meta (d : DiskState) (dir : PathBuf) (op : MetaOp) : gmap PathBuf (list MetaOp) :=
  <[dir := queue d dir ++ [op]]> (pending_meta d).

Definition tick_op : io DiskState unit := fun d =>
  match ops_until_cut d with
  | None => (Ok tt, d)
  | Some n => if n =? 0 then (Err PowerLost, d)
              else (Ok tt, with_counters d (Some (n - 1)) (sync_dir_calls d) (faults_fired d))
  end.

Definition dead_check : io DiskState unit := fun d =>
  if bool_decide (ops_until_cut d = Some 0) then (Err PowerLost, d) else (Ok tt, d).

Definition open_fd (d : DiskState) (ino : Z) (direct : bool) : Z * DiskState :=
  (next_file_fd d, with_files d (<[next_file_fd d := {| of_ino := ino; of_direct := direct |}]> (open_files d)) (next_file_fd d + 1)).

Definition creates (ino : Z) (op : MetaOp) : bool := match op with Create _ i => i =? ino | _ => false end.

(** Some name of the map is [ino]'s. *)
Definition named (names : gmap PathBuf Z) (ino : Z) : bool := existsb (fun '(_, i) => i =? ino) (map_to_list names).

(** No name, no pending create and no open handle reaches [ino]. *)
Definition orphan (d : DiskState) (ino : Z) : bool :=
  negb (named (os_names d) ino || named (durable_names d) ino)
  && negb (existsb (fun '(_, ops) => existsb (creates ino) ops) (map_to_list (pending_meta d))
           || existsb (fun '(_, f) => of_ino f =? ino) (map_to_list (open_files d))).

Definition release_if_orphan (d : DiskState) (ino : Z) : DiskState :=
  if orphan d ino then with_inodes d (delete ino (inodes d)) (next_ino d) else d.

(** The files a queued change takes a durable name from. *)
Definition victim (names : gmap PathBuf Z) (op : MetaOp) : option Z :=
  match op with Create _ _ => None | Rename _ to => names !! to | Remove name => names !! name end.

Fixpoint commit_ops (names : gmap PathBuf Z) (ops : list MetaOp) : gmap PathBuf Z * list Z :=
  match ops with
  | [] => (names, [])
  | op :: ops =>
      let '(names', displaced) := commit_ops (apply_meta names op) ops in
      (names', match victim names op with Some ino => ino :: displaced | None => displaced end)
  end.

Definition commit_dir (d : DiskState) (dir : PathBuf) : DiskState :=
  let '(names, displaced) := commit_ops (durable_names d) (queue d dir) in
  foldl release_if_orphan (with_names d (os_names d) names (delete dir (pending_meta d))) displaced.

(** ** Files and calls *)

Record SimFile := { f_ino : Z; f_fd : Z; f_direct : bool }.

Definition create_inode (path : PathBuf) (os durable : list byte) : io DiskState SimFile :=
  tick_op;! fun d =>
  let parent := parent_dir path in
  if negb (bool_decide (parent ∈ dirs d)) then (Err NotFound, d)
  else match os_names d !! path with
  | Some _ => (Err AlreadyExists, d)
  | None =>
      let ino := next_ino d + 1 in
      let node := {| durable := durable; os := os; pending := []; prealloc_target := 0; sector := Z.max 1 (sector_bytes d);
                     written := []; committed := []; read_faults_left := 0; write_faults_left := 0;
                     truncated_since_sync := false |} in
      let d := with_inodes d (<[ino := node]> (inodes d)) ino in
      let d := with_names d (<[path := ino]> (os_names d)) (durable_names d) (push_meta d parent (Create path ino)) in
      let '(fd, d) := open_fd d ino false in
      (Ok {| f_ino := ino; f_fd := fd; f_direct := false |}, d)
  end.

Definition open_handle (path : PathBuf) (direct : bool) : io DiskState SimFile :=
  dead_check;! fun d =>
  match os_names d !! path with
  | None => (Err NotFound, d)
  | Some ino => let '(fd, d) := open_fd d ino direct in (Ok {| f_ino := ino; f_fd := fd; f_direct := direct |}, d)
  end.

Definition drop_file (f : SimFile) : io DiskState unit := fun d =>
  (Ok tt, release_if_orphan (with_files d (delete (f_fd f) (open_files d)) (next_file_fd d)) (f_ino f)).

Definition sim_write_at (f : SimFile) (offset : Z) (data : list byte) : io DiskState unit :=
  tick_op;! fun d =>
  match inodes d !! f_ino f with
  | None => (Panic, d)
  | Some n =>
      let '(fire, n) := take_write_fault n in
      if fire then (Err Eio, with_counters (set_inode d (f_ino f) n) (ops_until_cut d) (sync_dir_calls d) (faults_fired d + 1))
      else (Ok tt, set_inode d (f_ino f) (write n offset data))
  end.

Definition sim_read_at (f : SimFile) (offset : Z) (buf : list byte) : io DiskState (Z * list byte) :=
  dead_check;! fun d =>
  match inodes d !! f_ino f with
  | None => (Panic, d)
  | Some n =>
      let '(fire, n) := take_read_fault n in
      if fire then (Err Eio, with_counters (set_inode d (f_ino f) n) (ops_until_cut d) (sync_dir_calls d) (faults_fired d + 1))
      else if len (os n) <=? offset then (Ok (0, buf), d)
      else
        let k := Z.min (len buf) (len (os n) - offset) in
        (Ok (k, take (Z.to_nat k) (drop (Z.to_nat offset) (os n)) ++ drop (Z.to_nat k) buf), d)
  end.

Definition sim_file_size (f : SimFile) : io DiskState Z :=
  dead_check;! fun d =>
  match inodes d !! f_ino f with None => (Panic, d) | Some n => (Ok (len (os n)), d) end.

Definition sim_sync_data (f : SimFile) : io DiskState unit :=
  tick_op;! fun d =>
  match inodes d !! f_ino f with None => (Panic, d) | Some n => (Ok tt, set_inode d (f_ino f) (sync n)) end.

(** Every ancestor of [dir], the shortest first. *)
Fixpoint ancestors (current rest : PathBuf) : list PathBuf :=
  match rest with
  | [] => []
  | part :: rest => (current ++ [part]) :: ancestors (current ++ [part]) rest
  end.

Definition create_dir_all (dir : PathBuf) : io DiskState unit :=
  tick_op;! fun d => (Ok tt, with_dirs d (foldl (fun ds p => {[p]} ∪ ds) (dirs d) (ancestors [] dir))).

Definition sim_sync_dir (dir : PathBuf) : io DiskState unit :=
  tick_op;! fun d =>
  if negb (bool_decide (dir ∈ dirs d)) then (Err NotFound, d)
  else (Ok tt, commit_dir (with_counters d (ops_until_cut d) (sync_dir_calls d + 1) (faults_fired d)) dir).

Definition sim_create_meta (path : PathBuf) : io DiskState SimFile := create_inode path [] [].

Definition sim_rename (from to : PathBuf) : io DiskState unit :=
  tick_op;! fun d =>
  let parent := parent_dir to in
  if negb (bool_decide (parent_dir from = parent)) then (Err CrossDirectory, d)
  else if negb (bool_decide (parent ∈ dirs d)) then (Err NotFound, d)
  else match os_names d !! from with
  | None => (Err NotFound, d)
  | Some ino =>
      let names := delete from (os_names d) in
      let clobbered := names !! to in
      let d := with_names d (<[to := ino]> names) (durable_names d) (push_meta d parent (Rename from to)) in
      (Ok tt, match clobbered with Some old => release_if_orphan d old | None => d end)
  end.

Definition sim_remove_file (path : PathBuf) : io DiskState unit :=
  tick_op;! fun d =>
  match os_names d !! path with
  | None => (Err NotFound, d)
  | Some ino =>
      let d := with_names d (delete path (os_names d)) (durable_names d) (push_meta d (parent_dir path) (Remove path)) in
      (Ok tt, release_if_orphan d ino)
  end.

#[global] Instance SimDisk_SegmentFs : SegmentFs DiskState SimFile := {|
  remove_file := sim_remove_file;
  create_meta := sim_create_meta;
  open_read := fun path => open_handle path false;
  rename := sim_rename;
  sync_dir := sim_sync_dir;
  write_at := sim_write_at;
  read_at := sim_read_at;
  file_size := sim_file_size;
  sync_data := sim_sync_data;
  close := drop_file;
|}.

(** ** Faults and the power cut *)

Inductive DeviceFault := ReadEio | WriteEio.

Definition cut_after_ops (d : DiskState) (n : Z) : DiskState := with_counters d (Some n) (sync_dir_calls d) (faults_fired d).

Definition inject (path : PathBuf) (fault : DeviceFault) (count : Z) : io DiskState unit := fun d =>
  match os_names d !! path with
  | None => (Err NotFound, d)
  | Some ino =>
      match inodes d !! ino with
      | None => (Panic, d)
      | Some n =>
          (Ok tt, set_inode d ino match fault with
                                  | ReadEio => with_faults n (read_faults_left n + count) (write_faults_left n)
                                  | WriteEio => with_faults n (read_faults_left n) (write_faults_left n + count)
                                  end)
      end
  end.

Definition clear_faults (d : DiskState) : Z * DiskState :=
  (foldl Z.add 0 ((fun '(_, n) => read_faults_left n + write_faults_left n) <$> map_to_list (inodes d)),
   with_inodes d ((fun n => with_faults n 0 0) <$> inodes d) (next_ino d)).

(** [BTreeMap] order: keys compared component by component. *)
Fixpoint path_leb (a b : PathBuf) : bool :=
  match a, b with
  | [], _ => true
  | _, [] => false
  | x :: a, y :: b =>
      match String.compare x y with Lt => true | Gt => false | Eq => path_leb a b end
  end.
Definition by_path (a b : PathBuf * list MetaOp) : Prop := path_leb a.1 b.1 = true.
Definition by_ino (a b : Z * Inode) : Prop := a.1 <= b.1.
#[global] Instance by_path_dec : RelDecision by_path.
Proof. intros a b. unfold by_path. apply _. Defined.
#[global] Instance by_ino_dec : RelDecision by_ino.
Proof. intros a b. unfold by_ino. apply _. Defined.

Fixpoint keep_prefixes (queues : list (PathBuf * list MetaOp)) (names : gmap PathBuf Z) (rng : Z) : gmap PathBuf Z * Z :=
  match queues with
  | [] => (names, rng)
  | (_, ops) :: queues =>
      let '(keep, rng) := next_below rng (len ops + 1) in
      keep_prefixes queues (foldl apply_meta names (take (Z.to_nat keep) ops)) rng
  end.

Fixpoint cut_inodes (grid : Z) (nodes : list (Z * Inode)) (rng : Z) : panics (list (Z * Inode)) :=
  match nodes with
  | [] => Ok []
  | (ino, n) :: nodes =>
      '(n, rng) ← cut n rng grid;
      rest ← cut_inodes grid nodes rng;
      Ok ((ino, n) :: rest)
  end.

Definition power_cut (d : DiskState) (seed : Z) : panics DiskState :=
  let grid := Z.max 1 (sector_bytes d) in
  let '(names, rng) := keep_prefixes (merge_sort by_path (map_to_list (pending_meta d))) (durable_names d) seed in
  let reachable := filter (fun '(ino, _) => named names ino = true) (merge_sort by_ino (map_to_list (inodes d))) in
  nodes ← cut_inodes grid reachable rng;
  Ok (with_counters (with_inodes (with_names d names names ∅) (list_to_map nodes) (next_ino d)) None (sync_dir_calls d) (faults_fired d)).

(** ** Lemmas *)

Lemma next_u64_range rng : in_u 64 (next_u64 rng).1.
Proof.
  unfold next_u64. cbn [fst]. set (z := wrap 64 (_ * 10723151780598845931)).
  assert (in_u 64 z) as Hz by (apply wrap_in_u; lia). apply in_u_lxor; [lia|done|].
  rewrite shiftr_div by lia. unfold in_u in *. split; [apply Z.div_pos; lia|]. apply Z.div_lt_upper_bound; lia.
Qed.

Lemma next_below_range rng bound x rng' : 0 < bound -> next_below rng bound = (x, rng') -> 0 <= x < bound.
Proof.
  unfold next_below. pose proof (next_u64_range rng) as H. destruct (next_u64 rng) as [u r]. cbn in H. intros Hb [= <- <-].
  rewrite shiftr_div by lia. unfold in_u in H. split; [apply Z.div_pos; nia|]. apply Z.div_lt_upper_bound; nia.
Qed.

(** The generator's reference outputs for seed 0. *)
Lemma reference_sequence :
  let '(a, s) := next_u64 0 in let '(b, s) := next_u64 s in let '(c, _) := next_u64 s in
  (a, b, c) = (16294208416658607535, 7960286522194355700, 487617019471545679).
Proof. vm_compute. reflexivity. Qed.

(** A file whose bytes are all on stable storage. *)
Definition sealed (n : Inode) (image : list byte) : Prop :=
  durable n = image /\ os n = image /\ pending n = [] /\ truncated_since_sync n = false.

Lemma put_empty data : put [] 0 data = data.
Proof.
  unfold put. cbv zeta. change (0 + len data) with (len data). change (len (@nil byte)) with 0. destruct (Z.ltb_spec 0 (len data)); unfold resize, len in *; rewrite Nat2Z.id; cbn [Z.to_nat take app].
  - rewrite take_nil. cbn [app length]. rewrite drop_ge, app_nil_r; [done|]. rewrite length_replicate. lia.
  - rewrite drop_nil, app_nil_r. done.
Qed.

Lemma resize_id l : resize l (len l) = l.
Proof. unfold resize, len. rewrite Nat2Z.id, take_ge, Nat.sub_diag by lia. apply app_nil_r. Qed.

Lemma write_sync_sealed n data : durable n = [] -> os n = [] -> pending n = [] -> truncated_since_sync n = false ->
  sealed (sync (write n 0 data)) data.
Proof.
  intros Hd Ho Hp Ht. unfold sync, write, sealed. destruct (sectors _ _ _). cbn. rewrite Ht, Hp, Hd, Ho. cbn. unfold replay. cbn.
  rewrite put_empty. by rewrite resize_id.
Qed.

Lemma shuffle_ok N i order rng : (i < length order)%nat \/ i = O -> Forall (fun k => (k < N)%nat) order ->
  exists order' rng', shuffle i order rng = Ok (order', rng') /\ Forall (fun k => (k < N)%nat) order'.
Proof.
  revert order rng. induction i as [|i IH]; intros order rng Hi Ho; cbn [shuffle]; [by do 2 eexists|].
  destruct (next_below rng (Z.of_nat (S i) + 1)) as [j rng'] eqn:Ej. apply next_below_range in Ej; [|lia].
  destruct (lookup_lt_is_Some_2 order (S i)) as [x Hx]; [lia|]. destruct (lookup_lt_is_Some_2 order (Z.to_nat j)) as [y Hy]; [lia|].
  unfold swap. rewrite Hx. cbn. rewrite Hy. cbn. apply IH; [rewrite !length_insert; lia|].
  rewrite Forall_lookup in Ho. apply Forall_insert; [apply Forall_insert; [by apply Forall_lookup|eauto]|eauto].
Qed.

Lemma cut_pieces_ok fuel grid n w at_ rng image kept : 0 < grid -> pw_offset w <= at_ ->
  pw_offset w + len (pw_data w) - at_ <= Z.of_nat fuel -> exists r, cut_pieces fuel grid n w at_ rng image kept = Ok r.
Proof.
  revert at_ rng image kept. induction fuel as [|fuel IH]; intros at_ rng image kept Hg Ha Hf; cbn [cut_pieces]; destruct (Z.ltb_spec at_ (pw_offset w + len (pw_data w))); try (by eexists); [lia|].
  destruct (next_below rng 2) as [coin rng']. pose proof (Z.div_mod at_ grid). pose proof (Z.mod_pos_bound at_ grid).
  set (piece_end := Z.min _ _). assert (at_ < piece_end <= pw_offset w + len (pw_data w)) by (unfold piece_end; nia).
  destruct (coin =? 1); [|ok_step; apply IH; lia].
  destruct (slice (E:=False) (pw_data w) (at_ - pw_offset w) (piece_end - pw_offset w)) as [data| |] eqn:E; [|done|].
  - ok_step. destruct (sectors n at_ piece_end). ok_step. apply IH; lia.
  - exfalso. revert E. apply slice_not_Panic; lia.
Qed.

Lemma cut_writes_ok grid n order rng image kept : 0 < grid -> Forall (fun k => (k < length (pending n))%nat) order ->
  exists r, cut_writes grid n order rng image kept = Ok r.
Proof.
  intros Hg. revert rng image kept. induction order as [|idx order IH]; intros rng image kept Ho; cbn [cut_writes]; [by eexists|].
  inv Ho. destruct (lookup_lt_is_Some_2 (pending n) idx) as [w Hw]; [done|]. rewrite Hw. ok_step.
  destruct (cut_pieces_ok (length (pw_data w)) grid n w (pw_offset w) rng image kept) as ([[rng' image'] kept'] & ->); [done|lia|unfold len; lia|].
  ok_step. by apply IH.
Qed.

(** A cut of an inode returns, leaves no unsynced write, and a sealed file as it is. *)
Lemma cut_ok n rng grid : 0 < grid ->
  exists n' rng', cut n rng grid = Ok (n', rng') /\ (forall image, sealed n image -> sealed n' image) /\
    read_faults_left n' = read_faults_left n /\ write_faults_left n' = write_faults_left n.
Proof.
  intros Hg. unfold cut.
  destruct (shuffle_ok (length (pending n)) (Nat.pred (length (pending n))) (seq 0 (length (pending n))) rng) as (order & rng' & -> & Ho).
  { rewrite length_seq. lia. }
  { apply list.Forall_forall. intros k Hk%elem_of_seq. lia. }
  ok_step. destruct (pending n) as [|w l] eqn:Ep.
  - destruct order as [|k order]; [|inv Ho; cbn in *; lia]. cbn [cut_writes]. ok_step. do 2 eexists. split; [done|]. split; [|done].
    intros image (Hd & Hos & _ & Ht). by split_and!; cbn.
  - rewrite <- Ep in Ho. destruct (cut_writes_ok grid n order rng' (durable n) (committed n) Hg Ho) as ([[r image] kept] & ->). ok_step.
    do 2 eexists. split; [done|]. split; [|done]. intros im (_ & _ & Hp & _). congruence.
Qed.
End SimDisk.
