(* ===== verification/SimDiskSpec.v ===== *)
(** * SimDiskSpec: what the disk keeps

    The invariant of [SimDisk] ([well_formed]: the names the operating system shows
    are the durable ones with the pending changes, fresh inode numbers, no dangling
    name) and the state of one file as its clients see it ([holds]: the content the
    path shows now, and the contents a power cut may leave it with). Every operation
    preserves the invariant and acts on [holds] as its documentation says. *)

From stdpp Require Import strings gmap sorting.
From S2P Require Import Prelude SegmentFs SimDisk.

Module SimDiskSpec.
Import SegmentFs.SegmentFs SimDisk.SimDisk.

(** ** Names *)

Notation view ops names := (foldl apply_meta names ops).

Definition op_local (dir : PathBuf) (op : MetaOp) : Prop :=
  match op with
  | Create name _ | Remove name => parent_dir name = dir
  | Rename from to => parent_dir from = dir /\ parent_dir to = dir
  end.

Definition agree (dir : PathBuf) (m1 m2 : gmap PathBuf Z) : Prop := forall p, parent_dir p = dir -> m1 !! p = m2 !! p.

Lemma apply_meta_agree dir op m1 m2 : op_local dir op -> agree dir m1 m2 -> agree dir (apply_meta m1 op) (apply_meta m2 op).
Proof.
  intros Hl Ha p Hp. destruct op as [name ino|from to|name]; cbn in *.
  - destruct (decide (name = p)) as [->|]; by simplify_map_eq; auto.
  - destruct Hl as [Hf Ht]. rewrite <- (Ha from Hf). destruct (m1 !! from) as [ino|] eqn:E; [|by apply Ha].
    destruct (decide (to = p)) as [->|]; [by simplify_map_eq|]. rewrite !lookup_insert_ne by done.
    destruct (decide (from = p)) as [->|]; [by simplify_map_eq|]. rewrite !lookup_delete_ne by done. by apply Ha.
  - destruct (decide (name = p)) as [->|]; [by simplify_map_eq|]. rewrite !lookup_delete_ne by done. by apply Ha.
Qed.

Lemma apply_meta_other dir op m p : op_local dir op -> parent_dir p <> dir -> apply_meta m op !! p = m !! p.
Proof.
  intros Hl Hp. destruct op as [name ino|from to|name]; cbn in *.
  - rewrite lookup_insert_ne; [done|]. by intros ->.
  - destruct Hl as [Hf Ht]. destruct (m !! from); [|done]. rewrite lookup_insert_ne by (by intros ->). rewrite lookup_delete_ne; [done|]. by intros ->.
  - rewrite lookup_delete_ne; [done|]. by intros ->.
Qed.

Lemma view_other dir ops m p : Forall (op_local dir) ops -> parent_dir p <> dir -> view ops m !! p = m !! p.
Proof.
  intros Hl Hp. revert m. induction Hl as [|op ops Ho _ IH]; intros m; cbn [foldl]; [done|].
  rewrite IH. by apply (apply_meta_other dir).
Qed.

Lemma view_agree dir ops m1 m2 : Forall (op_local dir) ops -> agree dir m1 m2 -> agree dir (view ops m1) (view ops m2).
Proof.
  intros Hl. revert m1 m2. induction Hl as [|op ops Ho _ IH]; intros m1 m2 Ha; cbn [foldl]; [done|].
  apply IH. by apply apply_meta_agree.
Qed.

(** A name comes from the map or from a create. *)
Lemma view_source ops m p ino : view ops m !! p = Some ino -> (exists q, m !! q = Some ino) \/ exists name, Create name ino ∈ ops.
Proof.
  revert m. induction ops as [|op ops IH]; intros m H; cbn [foldl] in H; [by left; exists p|].
  destruct (IH _ H) as [[q Hq]|[name Hn]]; [|right; exists name; by apply elem_of_cons; right].
  destruct op as [name i|from to|name]; cbn in Hq.
  - apply lookup_insert_Some in Hq as [[<- <-]|[_ Hq]]; [right; exists name; apply elem_of_cons; by left|left; by exists q].
  - left. destruct (m !! from) as [i|] eqn:E; [|by exists q].
    apply lookup_insert_Some in Hq as [[<- <-]|[_ [_ Hq]%lookup_delete_Some]]; eauto.
  - left. apply lookup_delete_Some in Hq as [_ Hq]. by exists q.
Qed.

(** ** The invariant *)

(** [ino] may have a name after a power cut. *)
Definition live (d : DiskState) (ino : Z) : Prop :=
  (exists p, durable_names d !! p = Some ino) \/ exists dir name, Create name ino ∈ queue d dir.

Record well_formed (d : DiskState) : Prop := {
  wf_os : forall p, os_names d !! p = view (queue d (parent_dir p)) (durable_names d) !! p;
  wf_local : forall dir, Forall (op_local dir) (queue d dir);
  wf_fresh : forall ino, live d ino -> ino <= next_ino d;
  wf_nodes : forall ino, live d ino -> is_Some (inodes d !! ino);
}.

Lemma view_live d p n ino : view (take n (queue d (parent_dir p))) (durable_names d) !! p = Some ino -> live d ino.
Proof.
  intros [[q Hq]|[name Hn]]%view_source; [left; by exists q|right]. exists (parent_dir p), name.
  apply list_elem_of_lookup in Hn as [i Hi]. apply list_elem_of_lookup. exists i. by apply lookup_take_Some in Hi as [? _].
Qed.

Lemma os_live d p ino : well_formed d -> os_names d !! p = Some ino -> live d ino.
Proof.
  intros Hw H. rewrite (wf_os d Hw) in H. apply (view_live d p (length (queue d (parent_dir p)))). by rewrite take_ge.
Qed.

(** ** One file *)

(** The content of the file a name leads to. *)
Definition content_of (d : DiskState) (o : option Z) (v : option (list byte)) : Prop :=
  match o with
  | None => v = None
  | Some ino => exists n image, v = Some image /\ inodes d !! ino = Some n /\ sealed n image
  end.

(** What [path] leads to when [k] changes of its directory's queue survive. *)
Definition after_cut (d : DiskState) (path : PathBuf) (k : nat) : option Z :=
  view (take k (queue d (parent_dir path))) (durable_names d) !! path.

(** [path] shows [now], and holds one of [later] after a power cut. *)
Definition holds (d : DiskState) (path : PathBuf) (now : option (list byte)) (later : list (option (list byte))) : Prop :=
  content_of d (os_names d !! path) now /\ forall k, exists v, v ∈ later /\ content_of d (after_cut d path k) v.

(** [d'] has every live file of [d] but [s] with the content it had. *)
Definition keeps_files (s : option Z) (d d' : DiskState) : Prop := forall ino n image,
  live d ino -> Some ino <> s -> inodes d !! ino = Some n -> sealed n image -> exists n', inodes d' !! ino = Some n' /\ sealed n' image.

(** No power cut leads [path] to the inode [s]. *)
Definition avoids (d : DiskState) (path : PathBuf) (s : option Z) : Prop := forall k, s = None \/ after_cut d path k <> s.

Lemma content_of_keeps s d d' p k v : keeps_files s d d' -> avoids d p s ->
  content_of d (after_cut d p k) v -> content_of d' (after_cut d p k) v.
Proof.
  intros Hk Ha. specialize (Ha k). destruct (after_cut d p k) as [ino|] eqn:E; [|done]. intros (n & image & -> & Hn & Hs).
  destruct (Hk ino n image (view_live _ _ _ _ E)) as (n' & Hn' & Hs'); [destruct Ha; congruence|done|done|]. by exists n', image.
Qed.

Lemma os_after_cut d p : well_formed d -> os_names d !! p = after_cut d p (length (queue d (parent_dir p))).
Proof. intros Hw. unfold after_cut. rewrite take_ge by done. apply (wf_os d Hw). Qed.

(** A step that leaves the path's names alone. *)
Lemma holds_step s d d' p now later : well_formed d -> holds d p now later -> keeps_files s d d' -> avoids d p s ->
  os_names d' !! p = os_names d !! p -> (forall k, exists j, after_cut d' p k = after_cut d p j) -> holds d' p now later.
Proof.
  intros Hw [Hn Hl] Hk Hs Ho Ha. split.
  - rewrite Ho, (os_after_cut d p Hw) in *. by apply (content_of_keeps s).
  - intros k. destruct (Ha k) as [j ->]. destruct (Hl j) as (v & Hv & Hc). exists v. split; [done|]. by apply (content_of_keeps s).
Qed.

(** ** Steps *)

Definition quiet (d : DiskState) : Prop := forall ino n, inodes d !! ino = Some n -> read_faults_left n = 0.

(** What no operation takes away: directories, the absence of read faults, and a
    switch that is not armed. *)
Definition steady (d d' : DiskState) : Prop :=
  dirs d ⊆ dirs d' /\ (quiet d -> quiet d') /\ (ops_until_cut d = None -> ops_until_cut d' = None).

Definition step_ok (P : PathBuf -> Prop) (d d' : DiskState) : Prop :=
  well_formed d' /\ steady d d' /\ forall p now later, P p -> holds d p now later -> holds d' p now later.

Lemma step_ok_trans P d d1 d2 : step_ok P d d1 -> step_ok P d1 d2 -> step_ok P d d2.
Proof.
  intros (_ & (Hd & Hq & Ho) & Hh) (Hw & (Hd' & Hq' & Ho') & Hh'). split; [done|]. split; [split; [set_solver|auto]|]. eauto.
Qed.

Lemma step_ok_weaken (P Q : PathBuf -> Prop) d d' : step_ok P d d' -> (forall p, Q p -> P p) -> step_ok Q d d'.
Proof. intros (Hw & Hs & H) HPQ. split; [done|]. split; [done|]. eauto. Qed.

(** A step that touches no name. *)
Lemma same_names_keep s d d' : well_formed d -> os_names d' = os_names d -> durable_names d' = durable_names d ->
  pending_meta d' = pending_meta d -> next_ino d <= next_ino d' -> (forall ino, live d ino -> is_Some (inodes d' !! ino)) ->
  keeps_files s d d' -> well_formed d' /\ forall p now later, avoids d p s -> holds d p now later -> holds d' p now later.
Proof.
  intros Hw Ho Hd Hp Hn Hi Hk. assert (forall dir, queue d' dir = queue d dir) as Hq by (intros; unfold queue; by rewrite Hp).
  assert (forall ino, live d' ino -> live d ino) as Hlive.
  { intros ino [[p Hl]|(dir & name & Hl)]; [left; exists p; congruence|right; exists dir, name; by rewrite <- Hq]. }
  split; [split|].
  - intros p. rewrite Ho, Hd, Hq. apply (wf_os d Hw).
  - intros dir. rewrite Hq. apply (wf_local d Hw).
  - intros ino Hl. etrans; [|done]. by apply (wf_fresh d Hw), Hlive.
  - intros ino Hl. by apply Hi, Hlive.
  - intros p now later Ha Hh. apply (holds_step s d); [done|done|done|done|by rewrite Ho|].
    intros k. exists k. unfold after_cut. by rewrite Hd, Hq.
Qed.

Lemma same_names_step s d d' : well_formed d -> os_names d' = os_names d -> durable_names d' = durable_names d ->
  pending_meta d' = pending_meta d -> next_ino d <= next_ino d' -> (forall ino, live d ino -> is_Some (inodes d' !! ino)) ->
  keeps_files s d d' -> steady d d' -> step_ok (fun p => avoids d p s) d d'.
Proof. intros. by destruct (same_names_keep s d d'). Qed.

Lemma avoids_None d p : avoids d p None.
Proof. intros k. by left. Qed.

Lemma keeps_same d d' : inodes d' = inodes d -> keeps_files None d d'.
Proof. intros H ino n image _ _ Hn Hs. rewrite H. eauto. Qed.

(** Counters, handles and directories: no file changes. *)
Lemma quiet_step d d' : well_formed d -> os_names d' = os_names d -> durable_names d' = durable_names d ->
  pending_meta d' = pending_meta d -> inodes d' = inodes d -> next_ino d' = next_ino d -> dirs d ⊆ dirs d' ->
  (ops_until_cut d = None -> ops_until_cut d' = None) -> step_ok (fun _ => True) d d'.
Proof.
  intros Hw Ho Hd Hp Hi Hn Hds Hops. eapply step_ok_weaken; [apply (same_names_step None d d')|]; try done.
  - lia.
  - rewrite Hi. apply (wf_nodes d Hw).
  - by apply keeps_same.
  - split; [done|]. split; [|done]. intros H ino n. rewrite Hi. apply H.
  - intros p _. apply avoids_None.
Qed.

(** *** Releasing an inode *)

Lemma named_spec m ino : named m ino = true <-> exists p : PathBuf, m !! p = Some ino.
Proof.
  unfold named. rewrite existsb_exists. split.
  - intros ([p i] & Hin & ->%Z.eqb_eq). exists p. apply elem_of_map_to_list. by apply list_elem_of_In.
  - intros [p Hp]. exists (p, ino). split; [apply list_elem_of_In; by apply elem_of_map_to_list|apply Z.eqb_refl].
Qed.

Lemma orphan_dead d ino : orphan d ino = true -> ~ live d ino.
Proof.
  unfold orphan. rewrite andb_true_iff, !negb_true_iff, !orb_false_iff. intros [[_ Hd] [Hc _]] [Hp|(dir & name & Hq)].
  - apply named_spec in Hp. congruence.
  - apply not_true_iff_false in Hc. apply Hc, existsb_exists. unfold queue in Hq.
    destruct (pending_meta d !! dir) as [ops|] eqn:E; cbn in Hq; [|by apply elem_of_nil in Hq].
    exists (dir, ops). split; [apply list_elem_of_In; by apply elem_of_map_to_list|]. apply existsb_exists.
    exists (Create name ino). split; [by apply list_elem_of_In|apply Z.eqb_refl].
Qed.

Lemma release_live d ino i : live d i -> inodes (release_if_orphan d ino) !! i = inodes d !! i.
Proof.
  intros Hl. unfold release_if_orphan. destruct (orphan d ino) eqn:E; [|done]. cbn. rewrite lookup_delete_ne; [done|].
  intros ->. by apply orphan_dead in E.
Qed.

Lemma release_orphan_ok d ino : well_formed d -> step_ok (fun _ => True) d (release_if_orphan d ino).
Proof.
  intros Hw. eapply step_ok_weaken; [apply (same_names_step None d)|]; try done; try (unfold release_if_orphan; by destruct (orphan d ino)).
  - intros i Hl. rewrite release_live by done. by apply (wf_nodes d Hw).
  - intros i n image Hl _ Hn Hs. rewrite release_live by done. eauto.
  - unfold release_if_orphan. destruct (orphan d ino); [|done]. split; [done|]. split; [|done].
    intros Hq i n. cbn. intros [_ Hi]%lookup_delete_Some. by apply (Hq i).
  - intros p _. apply avoids_None.
Qed.

Lemma release_many_ok d inos : well_formed d -> step_ok (fun _ => True) d (foldl release_if_orphan d inos).
Proof.
  revert d. induction inos as [|ino inos IH]; intros d Hw; cbn [foldl]; [by apply quiet_step|].
  pose proof (release_orphan_ok d ino Hw) as H. eapply step_ok_trans; [exact H|]. apply IH, H.
Qed.

(** *** Queuing a change of names *)

Definition touches (op : MetaOp) (p : PathBuf) : Prop :=
  match op with
  | Create name _ | Remove name => name = p
  | Rename from to => from = p \/ to = p
  end.

Lemma apply_meta_untouched op p m : ~ touches op p -> apply_meta m op !! p = m !! p.
Proof.
  intros H. destruct op as [name ino|from to|name]; cbn in *.
  - by apply lookup_insert_ne.
  - destruct (m !! from); [|done]. rewrite lookup_insert_ne by tauto. apply lookup_delete_ne. tauto.
  - by apply lookup_delete_ne.
Qed.

(** [d'] is [d] with [op] queued for [dir] and shown at once. *)
Record pushed (dir : PathBuf) (op : MetaOp) (d d' : DiskState) : Prop := {
  pu_os : os_names d' = apply_meta (os_names d) op;
  pu_durable : durable_names d' = durable_names d;
  pu_pending : pending_meta d' = push_meta d dir op;
  pu_next : next_ino d <= next_ino d';
  pu_fresh : forall name ino, op = Create name ino -> ino <= next_ino d' /\ is_Some (inodes d' !! ino);
  pu_nodes : forall ino, live d ino -> inodes d' !! ino = inodes d !! ino;
}.

Section push.
Context (dir : PathBuf) (op : MetaOp) (d d' : DiskState).
Context (Hw : well_formed d) (Hl : op_local dir op) (Hp : pushed dir op d d').

Lemma pushed_queue x : queue d' x = if decide (x = dir) then queue d dir ++ [op] else queue d x.
Proof.
  unfold queue. rewrite (pu_pending _ _ _ _ Hp). unfold push_meta, queue. destruct (decide (x = dir)) as [->|].
  - by rewrite lookup_insert_eq.
  - by rewrite lookup_insert_ne.
Qed.

Lemma pushed_live ino : live d' ino -> live d ino \/ exists name, op = Create name ino.
Proof.
  intros [[p H]|(x & name & H)]; [left; left; exists p; by rewrite <- (pu_durable _ _ _ _ Hp)|].
  rewrite pushed_queue in H. destruct (decide (x = dir)) as [->|]; [|left; right; by exists x, name].
  apply elem_of_app in H as [H|H%list_elem_of_singleton]; [left; right; by exists dir, name|right; by exists name].
Qed.

Lemma pushed_wf : well_formed d'.
Proof.
  split.
  - intros p. rewrite (pu_os _ _ _ _ Hp), (pu_durable _ _ _ _ Hp), pushed_queue. destruct (decide (parent_dir p = dir)) as [E|].
    + rewrite foldl_app. cbn [foldl]. apply (apply_meta_agree dir); [done| |done]. intros q Hq. rewrite (wf_os d Hw). by rewrite Hq.
    + rewrite (apply_meta_other dir) by done. apply (wf_os d Hw).
  - intros x. rewrite pushed_queue. destruct (decide (x = dir)) as [->|]; [|apply (wf_local d Hw)].
    apply Forall_app. split; [apply (wf_local d Hw)|by constructor].
  - intros ino [Hlive|[name Hc]]%pushed_live.
    + etrans; [by apply (wf_fresh d Hw)|apply (pu_next _ _ _ _ Hp)].
    + by apply (pu_fresh _ _ _ _ Hp name).
  - intros ino [Hlive|[name Hc]]%pushed_live.
    + rewrite (pu_nodes _ _ _ _ Hp) by done. by apply (wf_nodes d Hw).
    + by apply (pu_fresh _ _ _ _ Hp name).
Qed.

Lemma pushed_keeps : keeps_files None d d'.
Proof. intros ino n image Hlive _ Hn Hs. rewrite (pu_nodes _ _ _ _ Hp) by done. eauto. Qed.

(** After a cut a path leads where it led before, or the new change survived too. *)
Lemma pushed_after_cut p k : (exists j, after_cut d' p k = after_cut d p j) \/
  (parent_dir p = dir /\ after_cut d' p k = apply_meta (view (queue d dir) (durable_names d)) op !! p).
Proof.
  unfold after_cut. rewrite (pu_durable _ _ _ _ Hp), pushed_queue. destruct (decide (parent_dir p = dir)) as [->|]; [|left; by exists k].
  destruct (decide (k <= length (queue d dir))%nat).
  - left. exists k. by rewrite take_app_le.
  - right. split; [done|]. rewrite take_ge by (rewrite length_app; cbn; lia). by rewrite foldl_app.
Qed.

Lemma pushed_untouched p k : ~ touches op p -> exists j, after_cut d' p k = after_cut d p j.
Proof.
  intros Ht. destruct (pushed_after_cut p k) as [?|[E Ha]]; [done|]. exists (length (queue d dir)).
  rewrite Ha, apply_meta_untouched by done. unfold after_cut. by rewrite E, take_ge.
Qed.

Lemma pushed_ok : steady d d' -> step_ok (fun p => ~ touches op p) d d'.
Proof.
  intros Hs. split; [apply pushed_wf|]. split; [done|]. intros p now later Ht Hh.
  apply (holds_step None d); [done|done|apply pushed_keeps|apply avoids_None| |by intros; apply pushed_untouched].
  rewrite (pu_os _ _ _ _ Hp). by apply apply_meta_untouched.
Qed.
End push.

(** Renaming a sealed file onto [p]. *)
Lemma renamed_onto d d' from p ino image now later : well_formed d -> pushed (parent_dir p) (Rename from p) d d' ->
  parent_dir from = parent_dir p -> os_names d !! from = Some ino -> content_of d (Some ino) (Some image) ->
  holds d p now later -> holds d' p (Some image) (Some image :: later).
Proof.
  intros Hw Hp Hpar Hf Hc Hh. assert (op_local (parent_dir p) (Rename from p)) as Hl by done.
  assert (content_of d' (Some ino) (Some image)) as Hc'.
  { destruct Hc as (n & im & [= <-] & Hn & Hs). exists n, image. split; [done|]. split; [|done].
    rewrite (pu_nodes _ _ _ _ Hp) by (by apply (os_live d from)). done. }
  split.
  - rewrite (pu_os _ _ _ _ Hp). cbn. rewrite Hf, lookup_insert_eq. done.
  - intros k. destruct (pushed_after_cut _ _ _ _ Hp p k) as [[j ->]|[_ ->]].
    + destruct (proj2 Hh j) as (v & Hv & Hcv). exists v. split; [by apply elem_of_cons; right|].
      eapply content_of_keeps; [by eapply pushed_keeps|apply avoids_None|done].
    + exists (Some image). split; [apply elem_of_cons; by left|]. cbn.
      replace (view (queue d (parent_dir p)) (durable_names d) !! from) with (Some ino); [by rewrite lookup_insert_eq|].
      rewrite <- Hpar, <- (wf_os d Hw). done.
Qed.

(** *** The directory barrier *)

Lemma commit_ops_view names ops : (commit_ops names ops).1 = view ops names.
Proof.
  revert names. induction ops as [|op ops IH]; intros names; cbn [commit_ops foldl]; [done|].
  specialize (IH (apply_meta names op)). by destruct (commit_ops (apply_meta names op) ops).
Qed.

Section commit.
Context (d : DiskState) (dir : PathBuf) (Hw : well_formed d).
Let d' := with_names d (os_names d) (view (queue d dir) (durable_names d)) (delete dir (pending_meta d)).

Lemma committed_queue x : queue d' x = if decide (x = dir) then [] else queue d x.
Proof.
  unfold queue. cbn. destruct (decide (x = dir)) as [->|]; [by rewrite lookup_delete_eq|by rewrite lookup_delete_ne].
Qed.

Lemma committed_after_cut p k : after_cut d' p k = if decide (parent_dir p = dir) then os_names d !! p else after_cut d p k.
Proof.
  unfold after_cut. rewrite committed_queue. cbn [d' durable_names with_names]. destruct (decide (parent_dir p = dir)) as [E|Hne].
  - rewrite take_nil, (wf_os d Hw), E. done.
  - apply (view_agree (parent_dir p)); [apply Forall_take, (wf_local d Hw)| |done].
    intros q Hq. apply (view_other dir); [apply (wf_local d Hw)|congruence].
Qed.

Lemma committed_live ino : live d' ino -> live d ino.
Proof.
  intros [[p H]|(x & name & H)].
  - cbn in H. apply view_source in H as [?|[name Hn]]; [by left|right; by exists dir, name].
  - rewrite committed_queue in H. destruct (decide (x = dir)); [by apply elem_of_nil in H|right; by exists x, name].
Qed.

Lemma committed_ok : step_ok (fun _ => True) d d'.
Proof.
  split; [split|split].
  - intros p. change (os_names d' !! p) with (os_names d !! p). pose proof (committed_after_cut p (length (queue d' (parent_dir p)))) as H.
    unfold after_cut in H at 1. rewrite take_ge in H by done. rewrite H. destruct (decide _); [done|].
    assert (queue d' (parent_dir p) = queue d (parent_dir p)) as ->. { rewrite committed_queue. by destruct (decide _). }
    by rewrite (os_after_cut d).
  - intros x. rewrite committed_queue. destruct (decide (x = dir)); [constructor|apply (wf_local d Hw)].
  - intros ino H%committed_live. by apply (wf_fresh d Hw).
  - intros ino H%committed_live. by apply (wf_nodes d Hw).
  - done.
  - intros p now later _ Hh. apply (holds_step None d); [done|done|by apply keeps_same|apply avoids_None|done|].
    intros k. rewrite committed_after_cut. destruct (decide _); [|by exists k]. rewrite (os_after_cut d p Hw). by eexists.
Qed.

(** Behind the barrier a path keeps what it shows. *)
Lemma committed_settles p now later : parent_dir p = dir -> holds d p now later -> holds d' p now [now].
Proof.
  intros E [Hn _]. split; [done|]. intros k. exists now. split; [by apply list_elem_of_singleton|].
  rewrite committed_after_cut. by rewrite decide_True.
Qed.
End commit.

Lemma commit_dir_ok d dir : well_formed d -> step_ok (fun _ => True) d (commit_dir d dir) /\
  forall p now later, parent_dir p = dir -> holds d p now later -> holds (commit_dir d dir) p now [now].
Proof.
  intros Hw. unfold commit_dir. pose proof (commit_ops_view (durable_names d) (queue d dir)) as E.
  destruct (commit_ops (durable_names d) (queue d dir)) as [names displaced]. cbn in E. subst names.
  pose proof (committed_ok d dir Hw) as H. pose proof (release_many_ok _ displaced (proj1 H)) as Hr. split.
  - by eapply step_ok_trans.
  - intros p now later Hp Hh. apply Hr; [done|]. by eapply committed_settles.
Qed.

(** *** The power cut *)

Lemma keep_prefixes_ok (queues : list (PathBuf * list MetaOp)) names rng names' rng' :
  keep_prefixes queues names rng = (names', rng') -> NoDup queues.*1 -> Forall (fun '(dir, ops) => Forall (op_local dir) ops) queues ->
  forall p, ((parent_dir p ∉ queues.*1 /\ names' !! p = names !! p) \/
             exists ops k, (parent_dir p, ops) ∈ queues /\ names' !! p = view (take k ops) names !! p).
Proof.
  revert names rng. induction queues as [|[dir ops] queues IH]; intros names rng E Hnd Hl p; cbn [keep_prefixes fmap list_fmap fst] in *.
  - simplify_eq. left. split; [apply not_elem_of_nil|done].
  - destruct (next_below rng (len ops + 1)) as [keep rng1]. apply list.NoDup_cons in Hnd as [Hdir Hnd]. apply list.Forall_cons in Hl as [Ho Hl].
    destruct (IH _ _ E Hnd Hl p) as [[Hni Hn]|(ops' & k & Hin & Hn)]; destruct (decide (parent_dir p = dir)) as [<-|Hne].
    + right. exists ops, (Z.to_nat keep). split; [apply elem_of_cons; by left|done].
    + left. split; [rewrite not_elem_of_cons; done|]. rewrite Hn. apply (view_other dir); [by apply Forall_take|done].
    + exfalso. apply Hdir. apply list_elem_of_fmap. by exists (parent_dir p, ops').
    + right. exists ops', k. split; [apply elem_of_cons; by right|]. rewrite Hn. apply (view_agree (parent_dir p)); [| |done].
      * apply Forall_take. rewrite list.Forall_forall in Hl. by apply (Hl (parent_dir p, ops')).
      * intros q Hq. apply (view_other dir); [by apply Forall_take|congruence].
Qed.

Lemma cut_inodes_ok grid nodes rng : 0 < grid -> exists nodes', cut_inodes grid nodes rng = Ok nodes' /\ nodes'.*1 = nodes.*1 /\
  (forall ino n, (ino, n) ∈ nodes -> exists n', (ino, n') ∈ nodes' /\ (forall image, sealed n image -> sealed n' image)) /\
  (forall ino n', (ino, n') ∈ nodes' -> exists n, (ino, n) ∈ nodes /\ read_faults_left n' = read_faults_left n).
Proof.
  intros Hg. revert rng. induction nodes as [|[ino n] nodes IH]; intros rng; cbn [cut_inodes].
  - exists []. split; [done|]. split; [done|]. split; intros i m H; by apply elem_of_nil in H.
  - destruct (cut_ok n rng grid Hg) as (n' & rng' & -> & Hs & Hr & _). ok_step. destruct (IH rng') as (rest & -> & Hk & Hf & Hb). ok_step.
    exists ((ino, n') :: rest). split; [done|]. split; [cbn; by rewrite Hk|]. split; intros i m [Hi|Hi]%elem_of_cons; simplify_eq.
    + exists n'. split; [apply elem_of_cons; by left|done].
    + destruct (Hf i m Hi) as (m' & ? & ?). exists m'. split; [apply elem_of_cons; by right|done].
    + exists n. split; [apply elem_of_cons; by left|done].
    + destruct (Hb i m Hi) as (m' & ? & ?). exists m'. split; [apply elem_of_cons; by right|done].
Qed.

(** The surviving names: each path leads where some prefix of its queue leads it. *)
Lemma survivors_ok d seed names rng : well_formed d ->
  keep_prefixes (merge_sort by_path (map_to_list (pending_meta d))) (durable_names d) seed = (names, rng) ->
  forall p, exists k, names !! p = after_cut d p k.
Proof.
  intros Hw E p. pose proof (merge_sort_Permutation by_path (map_to_list (pending_meta d))) as Hperm.
  destruct (keep_prefixes_ok _ _ _ _ _ E) with (p := p) as [[_ Hn]|(ops & k & Hin & Hn)].
  - rewrite Hperm. apply NoDup_fst_map_to_list.
  - rewrite Hperm. apply list.Forall_forall. intros [dir ops] Hin%elem_of_map_to_list. pose proof (wf_local d Hw dir) as Hl.
    unfold queue in Hl. by rewrite Hin in Hl.
  - exists O. by rewrite Hn.
  - rewrite Hperm, elem_of_map_to_list in Hin. exists k. rewrite Hn. unfold after_cut, queue. by rewrite Hin.
Qed.

Lemma power_cut_ok d seed : well_formed d -> exists d', power_cut d seed = Ok d' /\ well_formed d' /\ ops_until_cut d' = None /\
  dirs d' = dirs d /\ (quiet d -> quiet d') /\
  forall p now later, holds d p now later -> exists v, v ∈ later /\ holds d' p v [v].
Proof.
  intros Hw. unfold power_cut. destruct (keep_prefixes _ _ _) as [names rng] eqn:E. pose proof (survivors_ok d seed names rng Hw E) as Hn.
  set (reach := filter _ _). pose proof (merge_sort_Permutation by_ino (map_to_list (inodes d))) as Hperm.
  destruct (cut_inodes_ok (Z.max 1 (sector_bytes d)) reach rng ltac:(lia)) as (nodes & -> & Hkeys & Hf & Hb). ok_step.
  assert (NoDup nodes.*1) as Hnd.
  { rewrite Hkeys. unfold reach. eapply sublist_NoDup; [|apply fmap_sublist, sublist_filter]. rewrite Hperm. apply NoDup_fst_map_to_list. }
  set (d' := with_counters _ _ _ _). exists d'. split; [done|].
  assert (forall p ino, names !! p = Some ino -> live d ino) as Hlive.
  { intros p ino H. destruct (Hn p) as [k Hk]. rewrite Hk in H. by apply (view_live d p k). }
  assert (forall p ino n, names !! p = Some ino -> inodes d !! ino = Some n -> exists n', inodes d' !! ino = Some n' /\ forall image, sealed n image -> sealed n' image) as Hnode.
  { intros p ino n Hp Hi. destruct (Hf ino n) as (n' & Hin & Hs).
    - apply list_elem_of_filter. split; [apply named_spec; by exists p|]. rewrite Hperm. by apply elem_of_map_to_list.
    - exists n'. split; [|done]. cbn. by apply elem_of_list_to_map_1. }
  assert (forall x, queue d' x = []) as Hq by (intros; unfold queue; cbn; by rewrite lookup_empty).
  assert (forall ino, live d' ino -> exists p, names !! p = Some ino) as Hlive'.
  { intros ino [?|(x & name & H)]; [done|]. rewrite Hq in H. by apply elem_of_nil in H. }
  split; [split|split; [done|split; [done|split]]].
  - intros p. by rewrite Hq.
  - intros x. rewrite Hq. constructor.
  - intros ino [p Hp]%Hlive'. by apply (wf_fresh d Hw), (Hlive p).
  - intros ino [p Hp]%Hlive'. destruct (wf_nodes d Hw ino (Hlive p ino Hp)) as [n Hi]. destruct (Hnode p ino n Hp Hi) as (n' & -> & _). by eexists.
  - intros Hquiet ino n' Hi. cbn in Hi. apply elem_of_list_to_map_2 in Hi. destruct (Hb ino n' Hi) as (n & Hin & ->).
    apply list_elem_of_filter in Hin as [_ Hin]. rewrite Hperm in Hin. apply elem_of_map_to_list in Hin. by apply (Hquiet ino).
  - intros p now later [_ Hl]. destruct (Hn p) as [k Hk]. destruct (Hl k) as (v & Hv & Hc). exists v. split; [done|].
    assert (content_of d' (names !! p) v) as Hc'.
    { rewrite <- Hk in Hc. destruct (names !! p) as [ino|] eqn:Ep; [|done]. destruct Hc as (n & image & -> & Hi & Hs).
      destruct (Hnode p ino n Ep Hi) as (n' & Hi' & Hs'). exists n', image. auto. }
    split; [done|]. intros j. exists v. split; [by apply list_elem_of_singleton|]. unfold after_cut. by rewrite Hq, take_nil.
Qed.

(** ** The calls *)

(** Every call ends; its postcondition may look at the result and the new state. *)
Definition all_paths (_ : PathBuf) : Prop := True.

Lemma step_ok_refl P d : well_formed d -> step_ok P d d.
Proof. intros Hw. split; [done|]. split; [by split_and!|]. done. Qed.

(** [d'] differs from [d] in counters only. *)
Definition same_disk (d d' : DiskState) : Prop :=
  sector_bytes d' = sector_bytes d /\ dirs d' = dirs d /\ os_names d' = os_names d /\ durable_names d' = durable_names d /\
  pending_meta d' = pending_meta d /\ inodes d' = inodes d /\ next_ino d' = next_ino d /\ open_files d' = open_files d /\
  (ops_until_cut d = None <-> ops_until_cut d' = None).

Lemma same_disk_refl d : same_disk d d.
Proof. by split_and!. Qed.

Lemma same_disk_ok d d' : well_formed d -> same_disk d d' -> step_ok all_paths d d'.
Proof. intros Hw (_ & Hd & ? & ? & ? & ? & ? & ? & Hops). apply quiet_step; try done; [by rewrite Hd|by apply Hops]. Qed.

(** The armed switch is the only reason for [PowerLost]. *)
Lemma after_tick {A} (body : io DiskState A) d (Q : IoError + A -> DiskState -> Prop) :
  (forall d', same_disk d d' -> ends body d' Q) -> (ops_until_cut d <> None -> Q (inl PowerLost) d) ->
  ends (tick_op;! body) d Q.
Proof.
  intros Hb Hl. unfold tick_op. apply ends_bind. destruct (ops_until_cut d) as [n|] eqn:E.
  - destruct (n =? 0) eqn:En.
    + exists (inl PowerLost), d. rewrite E, En. split; [done|]. by apply Hl.
    + exists (inr tt), (with_counters d (Some (n - 1)) (sync_dir_calls d) (faults_fired d)). rewrite E, En. split; [done|].
      apply Hb. split_and!; try done. by rewrite E.
  - exists (inr tt), d. rewrite E. split; [done|]. apply Hb, same_disk_refl.
Qed.

Lemma after_dead_check {A} (body : io DiskState A) d (Q : IoError + A -> DiskState -> Prop) :
  ends body d Q -> (ops_until_cut d <> None -> Q (inl PowerLost) d) -> ends (dead_check;! body) d Q.
Proof.
  intros Hb Hl. unfold dead_check. apply ends_bind. destruct (bool_decide (ops_until_cut d = Some 0)) eqn:E.
  - exists (inl PowerLost), d. rewrite E. split; [done|]. apply bool_decide_eq_true in E. apply Hl. congruence.
  - exists (inr tt), d. by rewrite E.
Qed.

Lemma remove_ok d path : well_formed d -> ends (sim_remove_file path) d (fun r d' =>
  step_ok (fun p => p <> path) d d' /\
  match r with
  | inl PowerLost => ops_until_cut d <> None
  | inl e => e = NotFound /\ os_names d' !! path = None
  | inr _ => os_names d' !! path = None
  end).
Proof.
  intros Hw. apply after_tick; [|intros H; split; [by apply step_ok_refl|done]].
  intros d1 Hd1. pose proof (same_disk_ok d d1 Hw Hd1) as H1. pose proof (proj1 H1) as Hw1.
  assert (step_ok (fun p => p <> path) d d1) as H1' by (by eapply step_ok_weaken).
  destruct (os_names d1 !! path) as [ino|] eqn:E; [|exists (inl NotFound), d1; rewrite E; done].
  set (d2 := with_names d1 (delete path (os_names d1)) (durable_names d1) (push_meta d1 (parent_dir path) (Remove path))).
  exists (inr tt), (release_if_orphan d2 ino). rewrite E. split; [done|].
  assert (pushed (parent_dir path) (Remove path) d1 d2) as Hp by (by split).
  pose proof (pushed_ok (parent_dir path) (Remove path) d1 d2 Hw1 eq_refl Hp ltac:(by split_and!)) as H2. split.
  - eapply step_ok_trans; [exact H1'|]. eapply step_ok_trans; [|eapply step_ok_weaken; [apply (release_orphan_ok d2 ino), H2|done]].
    eapply step_ok_weaken; [exact H2|]. intros p Hne Ht. by apply Hne.
  - unfold release_if_orphan. destruct (orphan d2 ino); cbn; apply lookup_delete_eq.
Qed.

Definition fresh_node (d : DiskState) : Inode :=
  {| durable := []; os := []; pending := []; prealloc_target := 0; sector := Z.max 1 (sector_bytes d);
     written := []; committed := []; read_faults_left := 0; write_faults_left := 0; truncated_since_sync := false |}.

(** A new file has an inode no other path can lead to. *)
Lemma create_ok d path : well_formed d -> os_names d !! path = None -> ends (sim_create_meta path) d (fun r d' =>
  step_ok (fun p => p <> path) d d' /\
  match r with
  | inl PowerLost => ops_until_cut d <> None
  | inl e => e = NotFound /\ parent_dir path ∉ dirs d
  | inr f => os_names d' !! path = Some (f_ino f) /\ inodes d' !! f_ino f = Some (fresh_node d) /\
             parent_dir path ∈ dirs d' /\ forall p, p <> path -> avoids d' p (Some (f_ino f))
  end).
Proof.
  intros Hw Hnone. apply after_tick; [|intros H; split; [by apply step_ok_refl|done]].
  intros d1 Hd1. pose proof (same_disk_ok d d1 Hw Hd1) as H1. pose proof (proj1 H1) as Hw1. destruct Hd1 as (Hsec & Hdirs & Hos & Hdn & Hpm & Hin & Hni & Hof & _).
  assert (step_ok (fun p => p <> path) d d1) as H1' by (by eapply step_ok_weaken). rewrite <- Hos in Hnone. rewrite <- Hdirs.
  destruct (bool_decide (parent_dir path ∈ dirs d1)) eqn:Ed; [|exists (inl NotFound), d1; cbv beta zeta; rewrite Ed; apply bool_decide_eq_false in Ed; done].
  set (ino := next_ino d1 + 1).
  set (d2 := with_names (with_inodes d1 (<[ino := fresh_node d1]> (inodes d1)) ino) (<[path := ino]> (os_names d1)) (durable_names d1)
               (push_meta d1 (parent_dir path) (Create path ino))).
  set (d3 := with_files d2 (<[next_file_fd d1 := {| of_ino := ino; of_direct := false |}]> (open_files d1)) (next_file_fd d1 + 1)).
  assert (forall i, live d1 i -> i <> ino) as Hfr by (intros i Hi%(wf_fresh d1 Hw1); unfold ino; lia).
  assert (pushed (parent_dir path) (Create path ino) d1 d3) as Hp.
  { split; cbn; try done; [unfold ino; lia| |].
    - intros name i [= <- <-]. split; [lia|]. rewrite lookup_insert_eq. by eexists.
    - intros i Hi. apply lookup_insert_ne. by apply not_eq_sym, Hfr. }
  assert (steady d1 d3) as Hst.
  { split; [done|]. split; [|done]. intros Hq i n. cbn. intros [[<- <-]|[_ Hi]]%lookup_insert_Some; [done|by apply (Hq i)]. }
  pose proof (pushed_ok (parent_dir path) (Create path ino) d1 d3 Hw1 eq_refl Hp Hst) as H2.
  exists (inr {| f_ino := ino; f_fd := next_file_fd d1; f_direct := false |}), d3. cbv beta zeta. rewrite Ed, Hnone. cbn [negb]. split; [done|]. split.
  - eapply step_ok_trans; [exact H1'|]. eapply step_ok_weaken; [exact H2|]. intros p Hne Ht. by apply Hne.
  - cbn. rewrite !lookup_insert_eq. split; [done|]. split; [unfold fresh_node; by rewrite Hsec|]. split; [by apply bool_decide_eq_true in Ed|].
    intros p Hne k. right. destruct (pushed_untouched _ _ _ _ Hp p k) as [j ->]; [cbn; congruence|]. intros Hbad%view_live. by apply (Hfr ino).
Qed.

(** Changing one inode: the paths that avoid it keep their content. *)
Lemma set_inode_ok d ino n n' : well_formed d -> inodes d !! ino = Some n -> read_faults_left n' = read_faults_left n ->
  step_ok (fun p => avoids d p (Some ino)) d (set_inode d ino n').
Proof.
  intros Hw Hn Hr. apply (same_names_step (Some ino)); try done.
  - intros i Hi. cbn. destruct (decide (ino = i)) as [->|]; [by rewrite lookup_insert_eq|rewrite lookup_insert_ne by done; by apply (wf_nodes d Hw)].
  - intros i m image _ Hne Hm Hs. exists m. split; [|done]. cbn. rewrite lookup_insert_ne; [done|congruence].
  - split; [done|]. split; [|done]. intros Hq i m. cbn. intros [[<- <-]|[_ Hi]]%lookup_insert_Some; [rewrite Hr; by apply (Hq ino)|by apply (Hq i)].
Qed.

Lemma avoids_same d d' p s : durable_names d' = durable_names d -> pending_meta d' = pending_meta d -> avoids d p s -> avoids d' p s.
Proof. intros Hd Hp H k. specialize (H k). unfold after_cut, queue in *. by rewrite Hd, Hp. Qed.

(** The two calls that change the staged file's bytes. *)
Definition changes_file (f : SimFile) (n' : Inode) (d : DiskState) (r : IoError + unit) (d' : DiskState) : Prop :=
  step_ok (fun p => avoids d p (Some (f_ino f))) d d' /\ os_names d' = os_names d /\
  (forall p s, avoids d p s -> avoids d' p s) /\ dirs d' = dirs d /\
  match r with inl e => e = PowerLost /\ ops_until_cut d <> None | inr _ => inodes d' !! f_ino f = Some n' end.

Lemma changes_file_ok f n n' d : well_formed d -> inodes d !! f_ino f = Some n -> read_faults_left n' = read_faults_left n ->
  ends (tick_op;! fun d => (Ok tt, set_inode d (f_ino f) n')) d (changes_file f n' d).
Proof.
  intros Hw Hn Hr. apply after_tick.
  - intros d1 Hd1. pose proof (same_disk_ok d d1 Hw Hd1) as H1. destruct Hd1 as (_ & Hdirs & Hos & Hdn & Hpm & Hin & _ & _ & _).
    exists (inr tt), (set_inode d1 (f_ino f) n'). split; [done|]. split; [|split_and!].
    + rewrite <- Hin in Hn. eapply step_ok_trans; [eapply step_ok_weaken; [exact H1|done]|].
      eapply step_ok_weaken; [by apply (set_inode_ok d1 _ n), Hr; [apply H1|]|]. intros p. by apply avoids_same.
    + done.
    + intros p t Ha. by apply (avoids_same d).
    + done.
    + cbn. apply lookup_insert_eq.
  - intros Ha. split; [by apply step_ok_refl|]. split_and!; try done.
Qed.

Lemma write_ok d f n data : well_formed d -> inodes d !! f_ino f = Some n -> write_faults_left n = 0 ->
  ends (sim_write_at f 0 data) d (changes_file f (write n 0 data) d).
Proof.
  intros Hw Hn Hz. assert (read_faults_left (write n 0 data) = read_faults_left n) as Hr by (unfold write; by destruct (sectors _ _ _)).
  destruct (changes_file_ok f n (write n 0 data) d Hw Hn Hr) as (r & d' & E & H). exists r, d'. split; [|done]. rewrite <- E.
  unfold sim_write_at, bind, tick_op. destruct (ops_until_cut d) as [k|]; [destruct (k =? 0); [done|]|]; cbn; rewrite Hn; unfold take_write_fault; by rewrite Hz.
Qed.

Lemma sync_ok d f n : well_formed d -> inodes d !! f_ino f = Some n -> ends (sim_sync_data f) d (changes_file f (sync n) d).
Proof.
  intros Hw Hn. destruct (changes_file_ok f n (sync n) d Hw Hn eq_refl) as (r & d' & E & H). exists r, d'. split; [|done]. rewrite <- E.
  unfold sim_sync_data, bind, tick_op. destruct (ops_until_cut d) as [k|]; [destruct (k =? 0); [done|]|]; cbn; by rewrite Hn.
Qed.

Lemma drop_ok d f : well_formed d -> ends (drop_file f) d (fun _ d' =>
  step_ok all_paths d d' /\ os_names d' = os_names d /\ dirs d' = dirs d /\
  (ops_until_cut d' = None <-> ops_until_cut d = None) /\ forall ino, live d ino -> inodes d' !! ino = inodes d !! ino).
Proof.
  intros Hw. set (d1 := with_files d (delete (f_fd f) (open_files d)) (next_file_fd d)).
  assert (step_ok all_paths d d1) as H1 by (by apply quiet_step).
  exists (inr tt), (release_if_orphan d1 (f_ino f)). split; [done|]. split; [eapply step_ok_trans; [done|apply release_orphan_ok, H1]|].
  split; [unfold release_if_orphan; by destruct (orphan _ _)|]. split; [unfold release_if_orphan; by destruct (orphan _ _)|].
  split; [unfold release_if_orphan; by destruct (orphan _ _)|].
  intros ino Hl. rewrite release_live; [done|]. exact Hl.
Qed.

(** Renaming a sealed file onto [to] shows its content there at once, and leaves it
    or what was there before after a cut. *)
Lemma rename_ok d from to ino image : well_formed d -> parent_dir from = parent_dir to -> parent_dir to ∈ dirs d ->
  os_names d !! from = Some ino -> content_of d (Some ino) (Some image) ->
  ends (sim_rename from to) d (fun r d' => match r with
  | inl e => e = PowerLost /\ ops_until_cut d <> None /\ d' = d
  | inr _ => step_ok (fun p => p <> from /\ p <> to) d d' /\
             forall now later, holds d to now later -> holds d' to (Some image) (Some image :: later)
  end).
Proof.
  intros Hw Hpar Hdir Hf Hc. apply after_tick; [|done]. intros d1 Hd1. pose proof (same_disk_ok d d1 Hw Hd1) as H1. pose proof (proj1 H1) as Hw1.
  destruct Hd1 as (_ & Hdirs & Hos & Hdn & Hpm & Hin & _ & _ & _). rewrite <- Hos in Hf.
  set (names := delete from (os_names d1)).
  set (d2 := with_names d1 (<[to := ino]> names) (durable_names d1) (push_meta d1 (parent_dir to) (Rename from to))).
  assert (pushed (parent_dir to) (Rename from to) d1 d2) as Hp by (split; cbn; try done; by rewrite Hf).
  pose proof (pushed_ok (parent_dir to) (Rename from to) d1 d2 Hw1 (conj Hpar eq_refl) Hp ltac:(by split_and!)) as H2.
  set (d3 := match names !! to with Some old => release_if_orphan d2 old | None => d2 end).
  assert (step_ok all_paths d2 d3) as H3 by (unfold d3; destruct (names !! to); [apply release_orphan_ok, H2|apply step_ok_refl, H2]).
  exists (inr tt), d3. split; [|split].
  - cbv beta zeta. rewrite (bool_decide_eq_true_2 _ Hpar), Hdirs, (bool_decide_eq_true_2 _ Hdir), Hf. done.
  - eapply step_ok_trans; [eapply step_ok_weaken; [exact H1|done]|]. eapply step_ok_trans; [|eapply step_ok_weaken; [exact H3|done]].
    eapply step_ok_weaken; [exact H2|]. intros p [Hne1 Hne2] [?|?]; by subst.
  - intros now later Hh. apply H3; [done|]. eapply (renamed_onto d1); [done|done|done|done| |by apply H1].
    destruct Hc as (n & im & [= <-] & Hn & Hs). exists n, image. by rewrite Hin.
Qed.

Lemma sync_dir_ok d dir : well_formed d -> dir ∈ dirs d -> ends (sim_sync_dir dir) d (fun r d' => step_ok all_paths d d' /\
  match r with
  | inl e => e = PowerLost /\ ops_until_cut d <> None
  | inr _ => forall p now later, parent_dir p = dir -> holds d p now later -> holds d' p now [now]
  end).
Proof.
  intros Hw Hdir. apply after_tick; [|intros H; split; [by apply step_ok_refl|done]]. intros d1 Hd1. pose proof (same_disk_ok d d1 Hw Hd1) as H1.
  destruct Hd1 as (_ & Hdirs & _). set (d2 := with_counters d1 (ops_until_cut d1) (sync_dir_calls d1 + 1) (faults_fired d1)).
  assert (step_ok all_paths d1 d2) as H2 by (apply quiet_step; try done; apply H1).
  destruct (commit_dir_ok d2 dir (proj1 H2)) as [H3 Hset]. exists (inr tt), (commit_dir d2 dir).
  split; [cbv beta; by rewrite Hdirs, (bool_decide_eq_true_2 _ Hdir)|]. split.
  - eapply step_ok_trans; [exact H1|]. eapply step_ok_trans; [exact H2|exact H3].
  - intros p now later Hp Hh. eapply Hset; [done|]. apply H2; [done|]. by apply H1.
Qed.

(** Arming, taking and clearing faults changes no content. *)
Lemma faults_keep d d' : well_formed d -> os_names d' = os_names d -> durable_names d' = durable_names d ->
  pending_meta d' = pending_meta d -> next_ino d' = next_ino d ->
  (forall ino n, inodes d !! ino = Some n -> exists r w, inodes d' !! ino = Some (with_faults n r w)) ->
  well_formed d' /\ forall p now later, holds d p now later -> holds d' p now later.
Proof.
  intros Hw Ho Hd Hp Hn Hi. destruct (same_names_keep None d d') as [Hw' Hh]; try done.
  - lia.
  - intros ino Hl. destruct (wf_nodes d Hw ino Hl) as [n Hno]. destruct (Hi ino n Hno) as (r & w & ->). by eexists.
  - intros ino n image _ _ Hno Hs. destruct (Hi ino n Hno) as (r & w & Hno'). by eexists.
  - split; [done|]. intros p now later. apply Hh, avoids_None.
Qed.

Lemma set_faults_keep d ino n r w : well_formed d -> inodes d !! ino = Some n ->
  well_formed (set_inode d ino (with_faults n r w)) /\
  forall p now later, holds d p now later -> holds (set_inode d ino (with_faults n r w)) p now later.
Proof.
  intros Hw Hn. apply faults_keep; try done. intros i m Hm. cbn. destruct (decide (ino = i)) as [<-|].
  - rewrite lookup_insert_eq. exists r, w. congruence.
  - rewrite lookup_insert_ne by done. exists (read_faults_left m), (write_faults_left m). rewrite Hm. by destruct m.
Qed.

(** A disk without files. *)
Lemma empty_disk d : os_names d = ∅ -> durable_names d = ∅ -> pending_meta d = ∅ -> well_formed d /\ forall p, holds d p None [None].
Proof.
  intros Ho Hd Hp. assert (forall x, queue d x = []) as Hq by (intros; unfold queue; by rewrite Hp, lookup_empty).
  assert (forall ino, ~ live d ino) as Hl.
  { intros ino [[p H]|(x & name & H)]; [by rewrite Hd, lookup_empty in H|rewrite Hq in H; by apply elem_of_nil in H]. }
  split; [split|].
  - intros p. by rewrite Ho, Hd, Hq.
  - intros x. rewrite Hq. constructor.
  - intros ino H. by apply Hl in H.
  - intros ino H. by apply Hl in H.
  - intros p. split; [by rewrite Ho, lookup_empty|]. intros k. exists None. split; [by apply list_elem_of_singleton|].
    unfold after_cut. by rewrite Hq, take_nil, Hd.
Qed.
End SimDiskSpec.
