(* ===== verification/Envelope.v ===== *)
(** * Envelope: the checksummed file that is replaced as a whole

    [inf-log/src/meta.rs]: the envelope codec, the swap that replaces a committed
    file (stage, sync, rename, sync the directory) and the reader, over any file
    system ([SegmentFs]). The two fault points of the swap are arguments: whether
    each fires is the test harness's choice. *)

From stdpp Require Import strings.
From S2P Require Import Prelude Crc32c SegmentFs.

Module Envelope.
Import SegmentFs.SegmentFs.
Notation crc32c := Crc32c.Crc32c.crc32c.

(** ["INFMETA1"]. *)
Definition META_MAGIC : list byte := [x49; x4e; x46; x4d; x45; x54; x41; x31].
Definition HEADER_LEN : Z := len META_MAGIC + 4.
Definition TRAILER_LEN : Z := 4.
Definition MIN_ENVELOPE_LEN : Z := HEADER_LEN + TRAILER_LEN.
Definition MAX_ENVELOPE_LEN : Z := Z.shiftl 64 20.

Definition encode_envelope (payload : list byte) : outcome IoError (list byte) :=
  if U32_MAX <? len payload then Err InvalidInput
  else
    let envelope := META_MAGIC ++ le_bytes 4 (len payload) ++ payload in
    Ok (envelope ++ le_bytes 4 (crc32c envelope)).

Definition invalid {A} (what : InvalidReason) : outcome IoError A := Err (InvalidData what).

Definition decode_envelope (buf : list byte) : outcome IoError (list byte) :=
  if len buf <? MIN_ENVELOPE_LEN then invalid TooShort
  else
    magic ← slice buf 0 (len META_MAGIC);
    if negb (bool_decide (magic = META_MAGIC)) then invalid BadMagic
    else
      raw ← slice buf (len META_MAGIC) HEADER_LEN;
      let payload_len := le_val raw in
      expected ← ok_or (InvalidData Unaddressable) (checked_add 64 MIN_ENVELOPE_LEN payload_len);
      if negb (len buf =? expected) then invalid LengthMismatch
      else
        covered ← slice buf 0 (len buf - TRAILER_LEN);
        trailer ← slice_from buf (len buf - TRAILER_LEN);
        if negb (le_val trailer =? crc32c covered) then invalid CrcMismatch
        else slice_from covered HEADER_LEN.

(** [fs::advance_read]. *)
Definition advance_read (done_ n cap : Z) : outcome IoError Z :=
  match checked_add 64 done_ n with
  | Some next => if next <=? cap then Ok next else invalid OverReport
  | None => invalid OverReport
  end.

Section swap.
Context {S File : Type} `{SegmentFs S File}.

Definition stage (staged_path : PathBuf) (envelope : list byte) : io S unit :=
  let! staged := create_meta staged_path in
  scoped (write_at staged 0 envelope;! sync_data staged) (close staged).

Definition fault_point (fires : bool) : io S unit := if fires then lift (Err Injected) else ret tt.

Definition write_envelope (dir : PathBuf) (staging_name committed_name : string) (payload : list byte)
    (manifest_rename_fail dir_fsync_fail : bool) : io S unit :=
  let staged_path := join dir staging_name in
  let! removed := attempt (remove_file staged_path) in
  match removed with
  | inr _ | inl NotFound =>
      let! envelope := lift (encode_envelope payload) in
      stage staged_path envelope;!
      fault_point manifest_rename_fail;!
      rename staged_path (join dir committed_name);!
      fault_point dir_fsync_fail;!
      sync_dir dir
  | inl err => lift (Err err)
  end.

Fixpoint read_loop (fuel : nat) (file : File) (buf : list byte) (read : Z) : io S (list byte) :=
  if read <? len buf then
    match fuel with
    | O => lift Panic
    | Datatypes.S fuel =>
        let! (n, tail) := read_at file read (drop (Z.to_nat read) buf) in
        if n =? 0 then lift (invalid Torn)
        else
          let! next := lift (advance_read read n (len buf)) in
          read_loop fuel file (take (Z.to_nat read) buf ++ tail) next
    end
  else ret buf.

Definition read_envelope (path : PathBuf) : io S (option (list byte)) :=
  let! opened := attempt (open_read path) in
  match opened with
  | inl NotFound => ret None
  | inl err => lift (Err err)
  | inr file =>
      scoped
        (let! size := file_size file in
         if MAX_ENVELOPE_LEN <? size then lift (invalid OverBound)
         else
           let! buf := read_loop (Datatypes.S (Z.to_nat size)) file (replicate (Z.to_nat size) x00) 0 in
           let! payload := lift (decode_envelope buf) in
           ret (Some (take (length payload) (drop (Z.to_nat HEADER_LEN) buf))))
        (close file)
  end.
End swap.

(** ** The codec *)

(** The envelope of a payload. *)
Definition sealed_envelope (payload : list byte) : list byte :=
  let envelope := META_MAGIC ++ le_bytes 4 (len payload) ++ payload in envelope ++ le_bytes 4 (crc32c envelope).

Lemma encode_envelope_eq payload : encode_envelope payload = if U32_MAX <? len payload then Err InvalidInput else Ok (sealed_envelope payload).
Proof. done. Qed.

Lemma len_sealed_envelope payload : len (sealed_envelope payload) = MIN_ENVELOPE_LEN + len payload.
Proof. unfold sealed_envelope, MIN_ENVELOPE_LEN, HEADER_LEN, TRAILER_LEN. cbv zeta. rewrite !len_app, !len_le_bytes. lia. Qed.

Lemma drop_sealed_envelope payload : take (length payload) (drop (Z.to_nat HEADER_LEN) (sealed_envelope payload)) = payload.
Proof.
  unfold sealed_envelope. cbv zeta. rewrite <- !app_assoc. change (Z.to_nat HEADER_LEN) with 12%nat.
  rewrite (app_assoc META_MAGIC). rewrite drop_app_length'; [apply take_app_length|]. rewrite length_app, length_le_bytes. done.
Qed.

(** What the decoder reads out of an envelope. *)
Lemma sealed_parts payload (covered := META_MAGIC ++ le_bytes 4 (len payload) ++ payload) :
  slice (E:=IoError) (sealed_envelope payload) 0 8 = Ok META_MAGIC /\
  slice (E:=IoError) (sealed_envelope payload) 8 12 = Ok (le_bytes 4 (len payload)) /\
  slice (E:=IoError) (sealed_envelope payload) 0 (12 + len payload) = Ok covered /\
  slice_from (E:=IoError) (sealed_envelope payload) (12 + len payload) = Ok (le_bytes 4 (crc32c covered)) /\
  slice_from (E:=IoError) covered 12 = Ok payload.
Proof.
  pose proof (len_nonneg payload). assert (len covered = 12 + len payload) as Hc.
  { unfold covered. rewrite !len_app, len_le_bytes. change (len META_MAGIC) with 8. lia. }
  unfold sealed_envelope. cbv zeta. fold covered. split_and!.
  - apply slice_Ok. exists [], ((le_bytes 4 (len payload) ++ payload) ++ le_bytes 4 (crc32c covered)).
    unfold covered. by rewrite <- !app_assoc.
  - apply slice_Ok. exists META_MAGIC, (payload ++ le_bytes 4 (crc32c covered)). unfold covered. by rewrite <- !app_assoc, len_le_bytes.
  - apply slice_Ok. exists [], (le_bytes 4 (crc32c covered)). split_and!; [done|done|lia].
  - apply slice_from_Ok. by exists covered.
  - apply slice_from_Ok. exists (META_MAGIC ++ le_bytes 4 (len payload)). unfold covered. by rewrite <- app_assoc, len_app, len_le_bytes.
Qed.

Lemma decode_sealed payload : len payload <= U32_MAX -> decode_envelope (sealed_envelope payload) = Ok payload.
Proof.
  intros Hl. unfold U32_MAX in Hl. destruct (sealed_parts payload) as (E1 & E2 & E3 & E4 & E5). pose proof (len_nonneg payload).
  unfold decode_envelope. rewrite len_sealed_envelope. change MIN_ENVELOPE_LEN with 16. change HEADER_LEN with 12. change TRAILER_LEN with 4.
  change (len META_MAGIC) with 8. replace (16 + len payload - 4) with (12 + len payload) by lia.
  rewrite (proj2 (Z.ltb_ge (16 + len payload) 16)) by lia. rewrite E1. ok_step. rewrite bool_decide_eq_true_2 by done. cbn [negb].
  rewrite E2. ok_step. rewrite le_val_le_bytes_small by (unfold in_u; lia).
  rewrite (proj2 (checked_add_Some 64 16 (len payload) (16 + len payload))) by (unfold in_u; lia). ok_step.
  rewrite Z.eqb_refl. cbn [negb]. rewrite E3. ok_step. rewrite E4. ok_step.
  rewrite le_val_le_bytes_small by apply Crc32c.Crc32c.crc32c_in_u32. rewrite Z.eqb_refl. cbn [negb]. exact E5.
Qed.

Lemma decode_envelope_inv buf payload : decode_envelope buf = Ok payload -> buf = sealed_envelope payload /\ len payload <= U32_MAX.
Proof.
  unfold decode_envelope. change MIN_ENVELOPE_LEN with 16. change HEADER_LEN with 12. change TRAILER_LEN with 4. change (len META_MAGIC) with 8.
  destruct (Z.ltb_spec (len buf) 16); [done|]. intros E. inv_ok E. destruct (bool_decide (a = META_MAGIC)) eqn:Em; [|done]. apply bool_decide_eq_true in Em as ->.
  cbn [negb] in E. inv_ok E. apply checked_add_Some in E2 as [-> _]. destruct (Z.eqb_spec (len buf) (16 + le_val a)); [|done].
  cbn [negb] in E. inv_ok E. destruct (Z.eqb_spec (le_val a1) (crc32c a0)) as [Hcrc|]; [|done]. cbn [negb] in E.
  apply slice_Ok in E0 as (x0 & z0 & Hb0 & Hx0 & _). apply slice_Ok in E1 as (x1 & z1 & Hb1 & Hx1 & Hy1).
  apply slice_Ok in E2 as (x2 & z2 & Hb2 & Hx2 & Hy2). apply slice_from_Ok in E3 as (x3 & Hb3 & Hx3). apply slice_from_Ok in E as (x4 & Hb4 & Hx4).
  assert (x0 = []) as -> by (by apply len_0_nil). assert (x2 = []) as -> by (by apply len_0_nil). rewrite app_nil_l in Hb0, Hb2.
  assert (META_MAGIC = x1 /\ z0 = a ++ z1) as [<- ->] by (apply app_len_inj; [congruence|done]).
  assert (a0 = x3 /\ z2 = a1) as [<- ->] by (apply app_len_inj; [congruence|lia]).
  assert (x4 = META_MAGIC ++ a /\ payload ++ a1 = z1) as [-> <-].
  { apply app_len_inj; [rewrite app_assoc, <- Hb4, <- app_assoc; congruence|]. rewrite len_app. change (len META_MAGIC) with 8. lia. }
  clear Hb0 Hb1 Hb3. subst a0 buf. rewrite !len_app in *. change (len META_MAGIC) with 8 in *. pose proof (le_val_bound a).
  assert (length a = 4%nat) as Hla by (unfold len in *; lia). assert (length a1 = 4%nat) as Hla1 by (unfold len in *; lia).
  rewrite Hla in *. assert (le_val a = len payload) as Hv by (unfold len in *; lia). unfold U32_MAX. split; [|lia].
  unfold sealed_envelope. cbv zeta. rewrite <- Hv, le_bytes_le_val by done. rewrite <- (le_bytes_le_val 4 a1) at 1 by done.
  rewrite Hcrc. by rewrite <- !app_assoc.
Qed.

(** The decoder accepts exactly the envelopes the encoder makes, and never panics. *)
Lemma envelope_canonical buf : decode_envelope buf <> Panic /\
  forall payload, decode_envelope buf = Ok payload <-> encode_envelope payload = Ok buf.
Proof.
  split.
  - unfold decode_envelope. change MIN_ENVELOPE_LEN with 16. change HEADER_LEN with 12. change TRAILER_LEN with 4. change (len META_MAGIC) with 8.
    destruct (Z.ltb_spec (len buf) 16); [done|]. apply bind_not_Panic; [apply slice_not_Panic; lia|]. intros magic _. destruct (negb _); [done|].
    apply bind_not_Panic; [apply slice_not_Panic; lia|]. intros raw _. apply bind_not_Panic; [apply ok_or_not_Panic|]. intros expected _.
    destruct (negb (len buf =? expected)); [done|]. apply bind_not_Panic; [apply slice_not_Panic; lia|]. intros covered Hc%slice_Ok.
    apply bind_not_Panic; [apply slice_from_not_Panic; lia|]. intros trailer _. destruct (negb _); [done|].
    apply slice_from_not_Panic. destruct Hc as (x & z & -> & Hx & ->). lia.
  - intros payload. rewrite encode_envelope_eq. destruct (Z.ltb_spec U32_MAX (len payload)).
    + split; [|done]. intros [_ ?]%decode_envelope_inv. lia.
    + split; [by intros [-> _]%decode_envelope_inv|]. intros [= <-]. by apply decode_sealed.
Qed.
End Envelope.
