(* ===== verification/MetaSwap.v ===== *)
(** * MetaSwap: the committed file is a durable register

    The swap of [inf-log/src/meta.rs] run on the disk of [inf-log/src/fs/sim.rs].
    A history is any sequence of swaps of any files, reads, power cuts, armed
    switches and device faults; the file at one path behaves like a register that
    is written atomically: a completed swap is the value and survives every cut, a
    failed one is either not there or there as a whole. *)

From stdpp Require Import strings gmap.
From S2P Require Import Prelude SegmentFs SimDisk SimDiskSpec Envelope.

Module MetaSwap.
Import SegmentFs.SegmentFs SimDisk.SimDisk SimDiskSpec.SimDiskSpec Envelope.Envelope.

(** ** Histories *)

Inductive event :=
  | Swap (dir : PathBuf) (staging committed : string) (payload : list byte) (manifest_rename_fail dir_fsync_fail : bool)
  | Read
  | PowerCut (seed : Z)
  | CutAfterOps (n : Z)
  | Inject (path : PathBuf) (fault : DeviceFault) (count : Z)
  | ClearFaults
  | CreateDirAll (dir : PathBuf).

Inductive output := Done | Failed (e : IoError) | Value (v : option (list byte)).

Definition report {A} (out : A -> output) (c : outcome IoError A * DiskState) : panics (DiskState * output) :=
  match c with
  | (Ok a, d) => Ok (d, out a)
  | (Err e, d) => Ok (d, Failed e)
  | (Panic, _) => Panic
  end.

(** One event; reads are of [path]. *)
Definition step (path : PathBuf) (d : DiskState) (e : event) : panics (DiskState * output) :=
  match e with
  | Swap dir staging committed payload rf df => report (fun _ => Done) (write_envelope dir staging committed payload rf df d)
  | Read => report Value (read_envelope path d)
  | PowerCut seed => d ← power_cut d seed; Ok (d, Done)
  | CutAfterOps n => Ok (cut_after_ops d n, Done)
  | Inject p fault count => report (fun _ => Done) (inject p fault count d)
  | ClearFaults => Ok ((clear_faults d).2, Done)
  | CreateDirAll dir => report (fun _ => Done) (create_dir_all dir d)
  end.

Fixpoint run (path : PathBuf) (d : DiskState) (es : list event) : panics (DiskState * list output) :=
  match es with
  | [] => Ok (d, [])
  | e :: es => '(d, out) ← step path d e; '(d, outs) ← run path d es; Ok (d, out :: outs)
  end.

(** ** The register *)

(** The value shown, the values a cut may leave, and whether the switch or a read
    fault is armed. *)
Record reg := { now : option (list byte); later : list (option (list byte)); switch : bool; faulty : bool }.

Inductive reg_step (path : PathBuf) (r : reg) : event -> output -> reg -> Prop :=
  | SwapDone dir staging committed p :
      join dir committed = path ->
      reg_step path r (Swap dir staging committed p false false) Done
        {| now := Some p; later := [Some p]; switch := switch r; faulty := faulty r |}
  | SwapRefused dir staging committed p rf df e :
      join dir committed = path -> switch r || rf || df = true ->
      reg_step path r (Swap dir staging committed p rf df) (Failed e) r
  | SwapUnsettled dir staging committed p rf df e :
      join dir committed = path -> switch r || df = true ->
      reg_step path r (Swap dir staging committed p rf df) (Failed e)
        {| now := Some p; later := Some p :: later r; switch := switch r; faulty := faulty r |}
  | SwapElsewhere dir staging committed p rf df out :
      join dir committed <> path -> reg_step path r (Swap dir staging committed p rf df) out r
  | ReadValue : reg_step path r Read (Value (now r)) r
  | ReadFailed e : switch r || faulty r = true -> reg_step path r Read (Failed e) r
  | Cut seed v :
      v ∈ later r ->
      reg_step path r (PowerCut seed) Done {| now := v; later := [v]; switch := false; faulty := faulty r |}
  | Armed n : reg_step path r (CutAfterOps n) Done {| now := now r; later := later r; switch := true; faulty := faulty r |}
  | Injected_read p count out :
      reg_step path r (Inject p ReadEio count) out {| now := now r; later := later r; switch := switch r; faulty := true |}
  | Injected_write p count out : reg_step path r (Inject p WriteEio count) out r
  | Cleared : reg_step path r ClearFaults Done {| now := now r; later := later r; switch := switch r; faulty := false |}
  | MadeDir dir out : reg_step path r (CreateDirAll dir) out r.

Inductive reg_run (path : PathBuf) : reg -> list event -> list output -> reg -> Prop :=
  | run_nil r : reg_run path r [] [] r
  | run_cons r e out r' es outs r'' :
      reg_step path r e out r' -> reg_run path r' es outs r'' -> reg_run path r (e :: es) (out :: outs) r''.

(** No swap stages its file at [path], and the payloads written there fit the
    bound the reader enforces. *)
Definition admissible (path : PathBuf) (e : event) : Prop :=
  match e with
  | Swap dir staging committed payload _ _ =>
      join dir staging <> path /\ (join dir committed = path -> MIN_ENVELOPE_LEN + len payload <= MAX_ENVELOPE_LEN)
  | _ => True
  end.

(** ** The swap *)

Lemma join_parent dir name : parent_dir (join dir name) = dir.
Proof. unfold parent_dir, join. apply removelast_last. Qed.

Lemma stage_ok d path image : well_formed d -> os_names d !! path = None -> ends (stage path image) d (fun r d' =>
  step_ok (fun p => p <> path) d d' /\
  match r with
  | inl PowerLost => ops_until_cut d <> None
  | inl e => e = NotFound /\ parent_dir path ∉ dirs d
  | inr _ => exists ino, os_names d' !! path = Some ino /\ content_of d' (Some ino) (Some image) /\ parent_dir path ∈ dirs d'
  end).
Proof.
  intros Hw Hnone. unfold stage. apply ends_bind. eapply ends_mono; [by apply create_ok|]. intros [e|f] d1 (H1 & Hr); [done|].
  destruct Hr as (Hos & Hn & Hdir & Hav). assert (forall d2, step_ok (fun p => avoids d1 p (Some (f_ino f))) d1 d2 -> step_ok (fun p => p <> path) d d2) as Htrans.
  { intros d2 H2. eapply step_ok_trans; [exact H1|]. by eapply step_ok_weaken. }
  assert (ops_until_cut d1 <> None -> ops_until_cut d <> None) as Harm by (intros Ha Hb; by apply Ha, H1).
  apply ends_scoped, ends_bind. eapply ends_mono; [by apply (write_ok d1 f _ image (proj1 H1) Hn)|]. intros [e|[]] d2 (H2 & Hos2 & Hav2 & Hd2 & Hr2).
  { destruct Hr2 as [-> Ha]. eapply ends_mono; [apply drop_ok, H2|]. intros _ d3 (H3 & _). split; [|by apply Harm].
    eapply step_ok_trans; [by apply Htrans|by eapply step_ok_weaken]. }
  eapply ends_mono; [apply (sync_ok d2 f _ (proj1 H2) Hr2)|]. intros r d3 (H3 & Hos3 & _ & Hd3 & Hr3).
  assert (step_ok (fun p => p <> path) d d3) as Hall.
  { apply Htrans. eapply step_ok_trans; [exact H2|]. eapply step_ok_weaken; [exact H3|]. intros p. apply Hav2. }
  eapply ends_mono; [apply drop_ok, H3|]. intros _ d4 (H4 & Hos4 & Hd4 & _ & Hlive4).
  split; [eapply step_ok_trans; [exact Hall|by eapply step_ok_weaken]|]. destruct r as [e|[]].
  - destruct Hr3 as [-> Ha]. apply Harm. intros Hb. apply Ha, H2, Hb.
  - exists (f_ino f). assert (os_names d3 !! path = Some (f_ino f)) as Ho by congruence. split; [congruence|]. split; [|congruence].
    exists (sync (write (fresh_node d) 0 image)), image. split; [done|]. split; [|by apply write_sync_sealed].
    rewrite Hlive4; [done|]. by apply (os_live d3 path), Ho; apply H3.
Qed.

Section swap.
Context (dir : PathBuf) (staging committed : string) (payload : list byte) (rf df : bool).
Notation staged := (join dir staging).
Notation target := (join dir committed).
Notation image := (sealed_envelope payload).

(** What a swap leaves: other paths are as they were; on success the target is the
    new envelope for good; on failure it is untouched, or it shows the new envelope
    and a cut may bring the old one back. *)
Definition swap_post (d : DiskState) (r : IoError + unit) (d' : DiskState) : Prop :=
  step_ok (fun p => p <> staged /\ p <> target) d d' /\
  (forall now later, staged <> target -> holds d target now later ->
     match r with
     | inr _ => holds d' target (Some image) [Some image]
     | inl _ => holds d' target now later \/
                (holds d' target (Some image) (Some image :: later) /\ (ops_until_cut d <> None \/ df = true))
     end) /\
  match r with
  | inr _ => rf = false /\ df = false
  | inl _ => dir ∈ dirs d -> len payload <= U32_MAX -> ops_until_cut d <> None \/ rf = true \/ df = true
  end.

Lemma swap_stopped d e d' : step_ok (fun p => p <> staged) d d' ->
  (dir ∈ dirs d -> len payload <= U32_MAX -> ops_until_cut d <> None \/ rf = true \/ df = true) -> swap_post d (inl e) d'.
Proof.
  intros H Hr. split; [eapply step_ok_weaken; [exact H|tauto]|]. split; [|done].
  intros now later Hne Hh. left. by apply H, Hh.
Qed.

Lemma publish_ok d d1 : step_ok (fun p => p <> staged) d d1 ->
  (exists ino, os_names d1 !! staged = Some ino /\ content_of d1 (Some ino) (Some image) /\ parent_dir staged ∈ dirs d1) ->
  ends (fault_point rf;! rename staged target;! fault_point df;! sync_dir dir) d1 (swap_post d).
Proof.
  intros H1 (ino & Hos & Hc & Hdir). rewrite join_parent in Hdir. pose proof (proj1 H1) as Hw1.
  assert (ops_until_cut d1 <> None -> ops_until_cut d <> None) as Harm by (intros Ha Hb; by apply Ha, H1).
  apply ends_bind. unfold fault_point at 1. destruct rf eqn:Erf; [apply ends_fail, swap_stopped; auto|]. apply ends_ret, ends_bind.
  eapply ends_mono; [apply (rename_ok d1 staged target ino image Hw1); rewrite ?join_parent; done|]. intros [e|[]] d2.
  { intros (-> & Ha & ->). apply swap_stopped; auto. }
  intros [H2 Hnew]. assert (step_ok (fun p => p <> staged /\ p <> target) d d2) as H12.
  { eapply step_ok_trans; [eapply step_ok_weaken; [exact H1|tauto]|exact H2]. }
  assert (forall d3, step_ok all_paths d2 d3 -> step_ok (fun p => p <> staged /\ p <> target) d d3) as Hend.
  { intros d3 H3. eapply step_ok_trans; [exact H12|]. by eapply step_ok_weaken. }
  assert (forall now later, staged <> target -> holds d target now later -> holds d2 target (Some image) (Some image :: later)) as Hshow.
  { intros now later Hne Hh. eapply Hnew, H1, Hh. by apply not_eq_sym. }
  apply ends_bind. unfold fault_point. destruct df eqn:Edf.
  - apply ends_fail. split; [done|]. split; [|auto]. intros now later Hne Hh. right. split; [|by right]. by eapply Hshow.
  - apply ends_ret. eapply ends_mono; [apply (sync_dir_ok d2 dir), H2, Hdir; apply H2|]. intros [e|[]] d3 (H3 & Hr).
    + destruct Hr as [-> Ha]. assert (ops_until_cut d <> None) by (apply Harm; intros Hb; by apply Ha, H2).
      split; [by apply Hend|]. split; [|by left]. intros now later Hne Hh. right. split; [|by left]. by apply H3, (Hshow now).
    + split; [by apply Hend|]. split; [|done]. intros now later Hne Hh. eapply Hr; [apply join_parent|]. by eapply Hshow.
Qed.

Lemma swap_ok d : well_formed d -> ends (write_envelope dir staging committed payload rf df) d (swap_post d).
Proof.
  intros Hw. unfold write_envelope. apply ends_bind, ends_attempt. eapply ends_mono; [by apply remove_ok|]. intros r d1 (H1 & Hr).
  assert (os_names d1 !! staged = None -> ends (let! envelope := lift (encode_envelope payload) in stage staged envelope;!
    fault_point rf;! rename staged target;! fault_point df;! sync_dir dir) d1 (swap_post d)) as Hgo; [|].
  - intros Hnone. rewrite encode_envelope_eq. apply ends_bind. destruct (Z.ltb_spec U32_MAX (len payload)).
    { apply ends_fail, swap_stopped; [done|lia]. }
    exists (inr image), d1. split; [done|]. apply ends_bind. eapply ends_mono; [by apply stage_ok, Hnone; apply H1|]. intros [e|[]] d2 (H2 & He).
    + apply swap_stopped; [by eapply step_ok_trans|]. intros Hdir _. left. intros Ha. apply H1 in Ha.
      destruct e; try done; destruct He as [_ He]; apply He; rewrite join_parent; by apply H1.
    + apply publish_ok; [by eapply step_ok_trans|done].
  - destruct r as [e|[]]; [|by apply Hgo]. destruct e; try (by destruct Hr); [by apply Hgo, Hr|].
    apply ends_fail, swap_stopped; auto.
Qed.
End swap.

(** ** The reader *)

(** Reading a sealed file takes one call, unless the device refuses it. *)
Lemma read_file_ok d f n image : well_formed d -> inodes d !! f_ino f = Some n -> sealed n image -> len image <= MAX_ENVELOPE_LEN ->
  ends (read_loop (S (length image)) f (replicate (length image) x00) 0) d (fun r d' => step_ok all_paths d d' /\
    match r with inr buf => buf = image | inl _ => ops_until_cut d <> None \/ ~ quiet d end).
Proof.
  intros Hw Hn Hs Hmax. pose proof (len_replicate (length image) x00) as Hl. cbn [read_loop]. rewrite Hl.
  destruct (Z.ltb_spec 0 (Z.of_nat (length image))).
  2:{ destruct image; [|cbn in *; lia]. apply ends_ret. split; [by apply step_ok_refl|done]. }
  apply ends_bind. apply after_dead_check; [|intros; split; [by apply step_ok_refl|by left]]. cbn beta. unfold ends at 1. rewrite Hn.
  unfold take_read_fault. destruct (Z.ltb_spec 0 (read_faults_left n)) as [Hr|Hr].
  - eexists (inl Eio), _. split; [done|]. assert (~ quiet d) as Hnq by (intros Hq; specialize (Hq _ _ Hn); lia).
    destruct (set_faults_keep d (f_ino f) n (read_faults_left n - 1) (write_faults_left n) Hw Hn) as [Hw1 Hh1].
    split; [|by right]. eapply step_ok_trans; [split; [exact Hw1|split; [by split_and!|by intros; apply Hh1]]|]. by apply quiet_step.
  - destruct Hs as (_ & Hos & _ & _). rewrite Hos. destruct (Z.leb_spec (len image) 0); [unfold len in *; lia|].
    eexists (inr _), d. split; [done|]. cbv beta iota. change (Z.to_nat 0) with O. rewrite !drop_0, take_0, app_nil_l.
    rewrite Hl, Z.sub_0_r. unfold len in *. rewrite Z.min_id, Nat2Z.id. rewrite take_ge, drop_ge, app_nil_r by (rewrite ?length_replicate; lia).
    destruct (Z.eqb_spec (Z.of_nat (length image)) 0); [lia|]. change MAX_ENVELOPE_LEN with 67108864 in Hmax.
    unfold advance_read. rewrite (proj2 (checked_add_Some 64 0 (Z.of_nat (length image)) (Z.of_nat (length image)))) by lia.
    rewrite Z.leb_refl. apply ends_bind. eexists (inr _), d. split; [done|]. cbv beta iota.
    assert (read_loop (length image) f image (Z.of_nat (length image)) = ret image) as ->.
    { destruct (length image) as [|k] eqn:Ek; [lia|]. cbn [read_loop]. unfold len. by rewrite Ek, Z.ltb_irrefl. }
    apply ends_ret. split; [by apply step_ok_refl|done].
Qed.

Lemma read_ok d path v : well_formed d -> content_of d (os_names d !! path) (sealed_envelope <$> v) ->
  (forall p, v = Some p -> MIN_ENVELOPE_LEN + len p <= MAX_ENVELOPE_LEN) ->
  ends (read_envelope path) d (fun r d' => step_ok all_paths d d' /\
    match r with inr v' => v' = v | inl _ => ops_until_cut d <> None \/ ~ quiet d end).
Proof.
  intros Hw Hc Hb. unfold read_envelope. apply ends_bind, ends_attempt. apply after_dead_check.
  2:{ intros Ha. apply ends_fail. split; [by apply step_ok_refl|by left]. }
  cbv beta. unfold ends at 1. destruct (os_names d !! path) as [ino|] eqn:Eo.
  2:{ destruct v; [done|]. exists (inl NotFound), d. split; [done|]. apply ends_ret. split; [by apply step_ok_refl|done]. }
  destruct Hc as (n & image & Hv & Hn & Hs). destruct v as [p|]; [|done]. change (Some (sealed_envelope p) = Some image) in Hv. injection Hv as <-. specialize (Hb p eq_refl).
  cbn [open_fd]. eexists (inr _), _. split; [done|]. cbv beta iota. set (f := {| f_ino := ino; f_fd := next_file_fd d; f_direct := false |}).
  set (d1 := with_files d (<[next_file_fd d := {| of_ino := ino; of_direct := false |}]> (open_files d)) (next_file_fd d + 1)).
  assert (step_ok all_paths d d1) as H1 by (by apply quiet_step). pose proof (proj1 H1) as Hw1.
  assert (forall (r : IoError + option (list byte)) d2, step_ok all_paths d1 d2 -> match r with inr v' => v' = Some p | inl _ => ops_until_cut d <> None \/ ~ quiet d end ->
    ends (close f) d2 (fun _ d' => step_ok all_paths d d' /\ match r with inr v' => v' = Some p | inl _ => ops_until_cut d <> None \/ ~ quiet d end)) as Hclose.
  { intros r d2 H2 Hr. eapply ends_mono; [apply drop_ok, H2|]. intros _ d3 (H3 & _). split; [|done].
    eapply step_ok_trans; [exact H1|]. by eapply step_ok_trans. }
  apply ends_scoped, ends_bind. apply after_dead_check; [|intros Ha; apply (Hclose (inl PowerLost)); [by apply step_ok_refl|by left]].
  cbv beta. unfold ends at 1. change (inodes d1 !! f_ino f) with (inodes d !! ino). rewrite Hn. eexists (inr _), d1. split; [done|]. cbv beta iota.
  pose proof Hs as (_ & Hos & _ & _). rewrite Hos, len_sealed_envelope. rewrite (proj2 (Z.ltb_ge _ _)) by done.
  rewrite <- len_sealed_envelope. unfold len at 1 2. rewrite Nat2Z.id. apply ends_bind.
  eapply ends_mono; [apply (read_file_ok d1 f n (sealed_envelope p)); [done|done|done|by rewrite len_sealed_envelope]|].
  intros [e|buf] d2 (H2 & Hr); [by apply (Hclose (inl e))|]. subst buf. rewrite decode_sealed.
  2:{ change MAX_ENVELOPE_LEN with 67108864 in Hb. change MIN_ENVELOPE_LEN with 16 in Hb. unfold U32_MAX. lia. }
  apply ends_bind. eexists (inr _), d2. split; [done|]. cbv beta iota. rewrite drop_sealed_envelope. apply ends_ret. by apply (Hclose (inr (Some p))).
Qed.

(** ** The simulation *)

Definition fits (v : option (list byte)) : Prop := forall p, v = Some p -> MIN_ENVELOPE_LEN + len p <= MAX_ENVELOPE_LEN.

Section simulation.
Context (path : PathBuf).
Notation images vs := (map (fmap sealed_envelope) vs).

Record tracks (d : DiskState) (r : reg) : Prop := {
  tr_wf : well_formed d;
  tr_dir : parent_dir path ∈ dirs d;
  tr_holds : holds d path (sealed_envelope <$> now r) (images (later r));
  tr_fits : fits (now r) /\ Forall fits (later r);
  tr_switch : switch r = false -> ops_until_cut d = None;
  tr_quiet : faulty r = false -> quiet d;
}.

Lemma tracks_kept d d' r : tracks d r -> step_ok (fun p => p = path) d d' -> tracks d' r.
Proof.
  intros [Hw Hd Hh Hf Hs Hq] (Hw' & (Hd' & Hq' & Ho') & Hh'). split; try done; [set_solver|by apply Hh'|auto|auto].
Qed.

Lemma swap_tracks d r dir staging committed payload rf df : tracks d r -> admissible path (Swap dir staging committed payload rf df) ->
  exists d' out r', step path d (Swap dir staging committed payload rf df) = Ok (d', out) /\
    reg_step path r (Swap dir staging committed payload rf df) out r' /\ tracks d' r'.
Proof.
  intros Htr [Hst Hfit]. pose proof Htr as [Hw Hd Hh Hf Hs Hq].
  destruct (swap_ok dir staging committed payload rf df d Hw) as (res & d' & E & Hok & Hnew & Hwhy). cbn [step]. rewrite E.
  destruct (decide (join dir committed = path)) as [Hp|Hp].
  2:{ assert (tracks d' r) as Htr'. { eapply tracks_kept; [done|]. eapply step_ok_weaken; [exact Hok|]. intros q ->. split; by apply not_eq_sym. }
      destruct res as [e|[]]; do 3 eexists; (split; [done|split; [by apply SwapElsewhere|done]]). }
  specialize (Hfit Hp). rewrite Hp in Hnew. assert (parent_dir path = dir) as Hpar by (rewrite <- Hp; apply join_parent). destruct Hok as (Hw' & (Hd' & Hq' & Ho') & _).
  assert (forall vs, Forall fits vs -> holds d' path (Some (sealed_envelope payload)) (Some (sealed_envelope payload) :: images vs) ->
    tracks d' {| now := Some payload; later := Some payload :: vs; switch := switch r; faulty := faulty r |}) as Hput.
  { assert (fits (Some payload)) as Hfp by (by intros q [= <-]). intros vs Hvs Hh'. split; cbn; auto. }
  assert (ops_until_cut d <> None -> switch r = true) as Harm by (intros Ha; destruct (switch r); [done|]; by rewrite Hs in Ha).
  destruct res as [e|[]].
  - assert (switch r || rf || df = true) as Hcause.
    { destruct Hwhy as [Ha|[->| ->]]; [congruence| |by rewrite Harm|by rewrite orb_true_r|by rewrite !orb_true_r].
      change MIN_ENVELOPE_LEN with 16 in Hfit. change MAX_ENVELOPE_LEN with 67108864 in Hfit. unfold U32_MAX. lia. }
    destruct (Hnew _ _ Hst Hh) as [Hold|[Hunsettled Hwhy2]].
    + exists d', (Failed e), r. split; [done|]. split; [by apply SwapRefused|]. split; auto.
    + do 3 eexists. split; [done|]. split; [apply SwapUnsettled; [done|]|by apply Hput, Hunsettled; apply Hf].
      destruct Hwhy2 as [Ha| ->]; [by rewrite Harm|by rewrite orb_true_r].
  - destruct Hwhy as [-> ->]. do 3 eexists. split; [done|]. split; [by apply SwapDone|]. by apply Hput, (Hnew _ _ Hst Hh).
Qed.

Lemma read_tracks d r : tracks d r -> exists d' out r', step path d Read = Ok (d', out) /\ reg_step path r Read out r' /\ tracks d' r'.
Proof.
  intros Htr. pose proof Htr as [Hw Hd [Hn _] [Hf _] Hs Hq]. destruct (read_ok d path (now r) Hw Hn Hf) as (res & d' & E & Hok & Hr).
  assert (tracks d' r) by (eapply tracks_kept; [done|by eapply step_ok_weaken]). cbn [step]. rewrite E. destruct res as [e|v].
  - do 3 eexists. split; [done|]. split; [|done]. apply ReadFailed. destruct (switch r); [done|]. destruct (faulty r); [done|]. naive_solver.
  - subst v. do 3 eexists. split; [done|]. split; [apply ReadValue|done].
Qed.

Lemma cut_tracks d r seed : tracks d r ->
  exists d' out r', step path d (PowerCut seed) = Ok (d', out) /\ reg_step path r (PowerCut seed) out r' /\ tracks d' r'.
Proof.
  intros [Hw Hd Hh [_ Hf] Hs Hq]. destruct (power_cut_ok d seed Hw) as (d' & E & Hw' & Ho' & Hd' & Hq' & Hh'). cbn [step]. rewrite E. ok_step.
  destruct (Hh' _ _ _ Hh) as (v & Hv & Hheld). apply list_elem_of_fmap in Hv as (u & -> & Hu). rewrite list.Forall_forall in Hf.
  do 3 eexists. split; [done|]. split; [by apply (Cut path r seed u)|]. split; cbn; try done; [by rewrite Hd'|split; [auto|constructor; [auto|done]]|auto].
Qed.

(** The events that change no content. *)
Lemma tracks_faults d d' r r' : tracks d r -> now r' = now r -> later r' = later r -> os_names d' = os_names d ->
  durable_names d' = durable_names d -> pending_meta d' = pending_meta d -> next_ino d' = next_ino d -> dirs d' = dirs d ->
  (forall ino n, inodes d !! ino = Some n -> exists r w, inodes d' !! ino = Some (with_faults n r w)) ->
  (switch r' = false -> ops_until_cut d' = None) -> (faulty r' = false -> quiet d') -> tracks d' r'.
Proof.
  intros [Hw Hd Hh Hf _ _] Hnow Hlater Ho Hdn Hp Hni Hdirs Hi Hs Hq. destruct (faults_keep d d') as [Hw' Hh']; try done.
  split; rewrite ?Hnow, ?Hlater, ?Hdirs; auto.
Qed.

Lemma same_faults d ino (n : Inode) : inodes d !! ino = Some n -> exists r w, inodes d !! ino = Some (with_faults n r w).
Proof. intros ->. exists (read_faults_left n), (write_faults_left n). by destruct n. Qed.

Lemma inject_tracks d r p fault count : tracks d r ->
  exists d' out r', step path d (Inject p fault count) = Ok (d', out) /\ reg_step path r (Inject p fault count) out r' /\ tracks d' r'.
Proof.
  intros Htr. pose proof Htr as [Hw Hd Hh Hf Hs Hq]. cbn [step]. unfold inject. destruct (os_names d !! p) as [ino|] eqn:Eo.
  2:{ destruct fault; do 3 eexists; (split; [done|]); (split; [constructor|]); [|done].
      apply (tracks_faults d d r); try done. intros i m. apply same_faults. }
  destruct (wf_nodes d Hw ino (os_live d p ino Hw Eo)) as [n Hn]. rewrite Hn.
  assert (forall a b i m, inodes d !! i = Some m -> exists r w, inodes (set_inode d ino (with_faults n a b)) !! i = Some (with_faults m r w)) as Hi.
  { intros a b i m Hm. cbn. destruct (decide (ino = i)) as [<-|]; [rewrite lookup_insert_eq; exists a, b; congruence|].
    rewrite lookup_insert_ne by done. by apply same_faults. }
  destruct fault; do 3 eexists; (split; [done|]); (split; [constructor|]); apply (tracks_faults d _ r); try done; try apply Hi.
  intros Hfalse i m. cbn. intros [[<- <-]|[_ Hm]]%lookup_insert_Some; [exact (Hq Hfalse ino n Hn)|by apply (Hq Hfalse i)].
Qed.

Lemma step_tracks d r e : tracks d r -> admissible path e ->
  exists d' out r', step path d e = Ok (d', out) /\ reg_step path r e out r' /\ tracks d' r'.
Proof.
  intros Htr Ha. destruct e as [dir staging committed payload rf df| |seed|n|p fault count| |dir].
  - by apply swap_tracks.
  - by apply read_tracks.
  - by apply cut_tracks.
  - do 3 eexists. split; [done|]. split; [apply Armed|]. apply (tracks_faults d _ r); try done; [intros; by apply same_faults|apply Htr].
  - by apply inject_tracks.
  - do 3 eexists. split; [done|]. split; [apply Cleared|]. apply (tracks_faults d _ r); try done; [|apply Htr|].
    + intros ino n Hn. exists 0, 0. cbn. by rewrite lookup_fmap, Hn.
    + intros _ ino n. cbn. rewrite lookup_fmap. destruct (inodes d !! ino); [|done]. by intros [= <-].
  - cbn [step]. destruct (after_tick (fun d => (Ok tt, with_dirs d (foldl (fun ds p => {[p]} ∪ ds) (dirs d) (ancestors [] dir)))) d
      (fun _ d' => tracks d' r)) as (res & d' & E & Htr').
    + intros d1 Hd1. eexists (inr tt), _. split; [done|]. eapply tracks_kept; [exact Htr|]. eapply step_ok_trans.
      { eapply step_ok_weaken; [by apply same_disk_ok; [apply Htr|]|done]. }
      eapply step_ok_weaken; [apply quiet_step|done]; try done; [by apply (same_disk_ok d); [apply Htr|]|].
      cbn. generalize (dirs d1). induction (ancestors [] dir) as [|a l IH]; intros ds; cbn; [done|]. etrans; [|apply IH]. set_solver.
    + done.
    + unfold create_dir_all. rewrite E. destruct res as [e|[]]; do 3 eexists; (split; [done|split; [apply MadeDir|done]]).
Qed.

Lemma run_tracks d r es : tracks d r -> Forall (admissible path) es ->
  exists d' outs r', run path d es = Ok (d', outs) /\ reg_run path r es outs r'.
Proof.
  intros Htr Hes. revert d r Htr. induction Hes as [|e es He _ IH]; intros d r Htr; cbn [run]; [do 3 eexists; split; [done|constructor]|].
  destruct (step_tracks d r e Htr He) as (d1 & out & r1 & -> & Hst & Htr1). ok_step. destruct (IH d1 r1 Htr1) as (d2 & outs & r2 & -> & Hrun). ok_step.
  do 3 eexists. split; [done|]. by econstructor.
Qed.
End simulation.

(** The writer does not know the reader's bound: a payload between the two limits is
    swapped in durably, and every later read of the file is refused. *)
Lemma oversize_is_unreadable d dir staging committed payload v vs :
  well_formed d -> dir ∈ dirs d -> ops_until_cut d = None -> join dir staging <> join dir committed ->
  holds d (join dir committed) v vs -> len payload <= U32_MAX -> MAX_ENVELOPE_LEN < MIN_ENVELOPE_LEN + len payload ->
  exists d1 d2, write_envelope dir staging committed payload false false d = (Ok tt, d1) /\
    read_envelope (join dir committed) d1 = (Err (InvalidData OverBound), d2).
Proof.
  intros Hw Hd Ho Hne Hh Hu Hover. destruct (swap_ok dir staging committed payload false false d Hw) as (r & d1 & E & Hok & Hnew & Hwhy).
  destruct r as [e|[]]; [by destruct Hwhy as [?|[?|?]]|]. specialize (Hnew _ _ Hne Hh). exists d1. destruct Hok as (Hw1 & (_ & _ & Ho1) & _).
  specialize (Ho1 Ho). destruct Hnew as [Hc _]. destruct (os_names d1 !! join dir committed) as [ino|] eqn:Eo; [|done].
  destruct Hc as (n & image & [= <-] & Hn & _ & Hos & _). eexists. split; [exact E|].
  set (f := {| f_ino := ino; f_fd := next_file_fd d1; f_direct := false |}).
  set (d2 := with_files d1 (<[next_file_fd d1 := {| of_ino := ino; of_direct := false |}]> (open_files d1)) (next_file_fd d1 + 1)).
  assert (attempt (open_read (join dir committed)) d1 = (Ok (inr f), d2)) as Eopen.
  { unfold attempt. cbn [open_read SimDisk_SegmentFs]. unfold open_handle, bind, dead_check. rewrite Ho1, bool_decide_eq_false_2 by done. by rewrite Eo. }
  assert (file_size f d2 = (Ok (MIN_ENVELOPE_LEN + len payload), d2)) as Esize.
  { cbn [file_size SimDisk_SegmentFs]. unfold sim_file_size, bind, dead_check. change (ops_until_cut d2) with (ops_until_cut d1).
    rewrite Ho1, bool_decide_eq_false_2 by done. change (inodes d2 !! f_ino f) with (inodes d1 !! ino). by rewrite Hn, Hos, len_sealed_envelope. }
  unfold read_envelope. rewrite (bind_ok _ _ _ _ _ Eopen). cbv beta iota. unfold scoped. rewrite (bind_ok _ _ _ _ _ Esize).
  rewrite (proj2 (Z.ltb_lt _ _)) by done. reflexivity.
Qed.

(** ** The theorem *)

Lemma ancestors_self current rest : rest <> [] -> current ++ rest ∈ ancestors current rest.
Proof.
  revert current. induction rest as [|part rest IH]; intros current Hne; [done|]. cbn [ancestors]. apply elem_of_cons.
  destruct rest as [|x rest]; [by left|right]. specialize (IH (current ++ [part]) ltac:(done)). by rewrite <- app_assoc in IH.
Qed.

Lemma fold_dirs (l : list PathBuf) (ds : gset PathBuf) p : p ∈ l \/ p ∈ ds -> p ∈ foldl (fun ds p => {[p]} ∪ ds) ds l.
Proof.
  revert ds. induction l as [|a l IH]; intros ds H; cbn [foldl]; [destruct H as [H|H]; [by apply elem_of_nil in H|done]|].
  apply IH. rewrite elem_of_cons in H. set_solver.
Qed.

Lemma new_tracks sector dir committed : dir <> [] -> exists d0, create_dir_all dir (new sector) = (Ok tt, d0) /\
  tracks (join dir committed) d0 {| now := None; later := [None]; switch := false; faulty := false |}.
Proof.
  intros Hne. eexists. split; [done|]. set (d0 := with_dirs _ _). destruct (empty_disk d0) as [Hw Hh]; try done. split; try done.
  - rewrite join_parent. cbn. apply fold_dirs. left. by apply (ancestors_self []).
  - split; [done|]. by repeat constructor.
Qed.

(** C3. On a disk that loses, tears and reorders what was not synced, the
    committed file behaves as an atomic durable register in every history of swaps
    (of this and of other files), reads, power cuts, armed switches, fired fault
    points and device faults. The histories are those in which every payload swapped
    into this file fits the 64 MiB the reader accepts (envelope included; the writer
    does not check it) and no swap stages a file at its path. No call panics. A swap that returns is the value shown
    and the only one a cut can leave; one that fails, which needs a cause, has
    written nothing or shows the new value whole and a cut keeps it or brings an
    earlier one back. A read gives exactly the value shown, or fails for a cause; a
    cut leaves one of the values it may leave, and no other later. *)
Theorem swap_is_a_durable_register sector dir committed (es : list event)
  (Hdir : dir <> []) (Hes : Forall (admissible (join dir committed)) es) :
  exists d0 d outs r, create_dir_all dir (new sector) = (Ok tt, d0) /\
    run (join dir committed) d0 es = Ok (d, outs) /\
    reg_run (join dir committed) {| now := None; later := [None]; switch := false; faulty := false |} es outs r.
Proof.
  destruct (new_tracks sector dir committed Hdir) as (d0 & E & Htr). destruct (run_tracks _ d0 _ es Htr Hes) as (d & outs & r & Hrun & Hreg).
  by exists d0, d, outs, r.
Qed.

Definition demo_history : list event :=
  [Swap ["shard"] "META.new" "META" [x61] false false; Swap ["shard"] "META.new" "META" [x62; x62] false true; Read; PowerCut 7; Read;
   CutAfterOps 3; Swap ["shard"] "META.new" "META" [x63] false false; Read; PowerCut 5; Read].

Lemma swap_is_a_durable_register_witness : exists r,
  reg_run ["shard"; "META"] {| now := None; later := [None]; switch := false; faulty := false |} demo_history
    [Done; Failed Injected; Value (Some [x62; x62]); Done; Value (Some [x61]);
     Done; Failed PowerLost; Failed PowerLost; Done; Value (Some [x61])] r.
Proof.
  destruct (swap_is_a_durable_register 512 ["shard"] "META" demo_history) as (d0 & d & outs & r & E & Hrun & Hreg); [done| |].
  - repeat (apply list.Forall_cons; split; [done || (split; [done|intros _; vm_compute; discriminate])|]). by apply list.Forall_nil.
  - exists r. vm_compute in E. injection E as <-. vm_compute in Hrun. injection Hrun as <- <-. exact Hreg.
Defined.
End MetaSwap.
