(* ===== verification/Manifest.v ===== *)
(** * Manifest: the recovery unit of a cell

    [inf-log/src/manifest.rs]: the payload that names a checkpoint, its begin LSN,
    the live segments and the tier files, with its encoder, its decoder and the
    calls that publish and read it through the envelope. The decoder accepts exactly
    what the encoder writes of an admissible manifest, and a published manifest is
    what recovery reads back after any power cut. *)

From stdpp Require Import strings.
From S2P Require Import Prelude Tail Lsn SegmentFs Envelope.

Module Manifest.
Import SegmentFs.SegmentFs.
Notation Lsn := Lsn.Lsn.t.

Definition MANIFEST_FILE : string := "MANIFEST".
Definition MANIFEST_STAGING_FILE : string := "MANIFEST.new".
(** ["INFMAN1\0"]. *)
Definition MANIFEST_MAGIC : list byte := [x49; x4e; x46; x4d; x41; x4e; x31; x00].
Definition MANIFEST_EPOCH : Z := 1.
Definition MANIFEST_EPOCH_V2 : Z := 2.
Definition MANIFEST_EPOCH_V3 : Z := 3.
Definition MAX_SEGMENTS : Z := Z.shiftl 1 20.
Definition MAX_TIER_NS : Z := Z.shiftl 1 16.
Definition MAX_TIER_FILES : Z := Z.shiftl 1 20.
Definition ADDR_LIMIT : Z := Z.shiftl 1 48.
Definition FIXED_LEN : Z := 8 + 4 + 8 + 8 + 8 + 4.
Definition EPOCH_END : Z := 8 + 4.
Definition TIER_NS_FIXED_LEN : Z := 4 + 8 + 4.
Definition TIER_FILE_LEN : Z := 4 + 8 + 8.

Record TierFileRange := { id : Z; base : Z; durable_len : Z }.

(** [saturating_add]. *)
Definition end_ (f : TierFileRange) : Z := Z.min U64_MAX (base f + durable_len f).

Record TierNsManifest := { ns : Z; flushed : Z; files : list TierFileRange }.

Record Manifest := {
  ckpt_id : Z;
  begin_lsn : Lsn;
  segments : list Z;
  tiers : list TierNsManifest;
  key_hash_id : Z;
}.

Definition tierless (ckpt_id : Z) (begin_lsn : Lsn) (segments : list Z) (key_hash_id : Z) : Manifest :=
  {| ckpt_id := ckpt_id; begin_lsn := begin_lsn; segments := segments; tiers := []; key_hash_id := key_hash_id |}.

Definition floor (m : Manifest) : Z := Lsn.Lsn.segment (begin_lsn m).

Definition tier_ns (m : Manifest) (n : Z) : option TierNsManifest := list_find (fun t => ns t = n) (tiers m) ≫= fun '(_, t) => Some t.

Inductive ManifestDecodeError :=
  | BadMagic (got : list byte)
  | UnsupportedEpoch (epoch : Z)
  | PredatesKeyHashBinding (epoch : Z)
  | Truncated (at_ : Z)
  | TrailingBytes (extra : Z)
  | NoSegments
  | TooManySegments (count : Z)
  | SegmentsNotAscending (index : Z)
  | FloorMismatch (first begin_segment : Z)
  | TooManyTierSections (count : Z)
  | TierNsNotAscending (ns : Z)
  | TooManyTierFiles (ns count : Z)
  | TierFilesNotAscending (ns id : Z)
  | TierRangeEmpty (ns id : Z)
  | TierRangeBroken (ns id : Z)
  | TierAddrOutOfRange (ns value : Z).

(** ** The encoder *)

(** [u32::try_from(n).expect(..)]. *)
Definition expect_u32 (n : Z) : panics Z := if n <=? U32_MAX then Ok n else Panic.

(** [prev.is_none_or(|p| x > p)]. *)
Definition above (prev : option Z) (x : Z) : bool := match prev with None => true | Some p => p <? x end.

Definition file_bytes (f : TierFileRange) : list byte := le_bytes 4 (id f) ++ le_bytes 8 (base f) ++ le_bytes 8 (durable_len f).

Fixpoint encode_files (flushed prev_end : Z) (prev_id : option Z) (files : list TierFileRange) : panics (list byte) :=
  match files with
  | [] => Ok []
  | file :: files =>
      _ ← rassert (1 <=? durable_len file);
      _ ← rassert (prev_end <=? base file);
      _ ← rassert (above prev_id (id file));
      _ ← rassert (end_ file <=? flushed);
      rest ← encode_files flushed (end_ file) (Some (id file)) files;
      Ok (file_bytes file ++ rest)
  end.

Fixpoint encode_tiers (prev_ns : option Z) (tiers : list TierNsManifest) : panics (list byte) :=
  match tiers with
  | [] => Ok []
  | tier :: tiers =>
      _ ← rassert (above prev_ns (ns tier));
      _ ← rassert (flushed tier <? ADDR_LIMIT);
      count ← expect_u32 (len (files tier));
      body ← encode_files (flushed tier) 0 None (files tier);
      rest ← encode_tiers (Some (ns tier)) tiers;
      Ok (le_bytes 4 (ns tier) ++ le_bytes 8 (flushed tier) ++ le_bytes 4 count ++ body ++ rest)
  end.

Definition encode (m : Manifest) : panics (list byte) :=
  count ← expect_u32 (len (segments m));
  tier_count ← expect_u32 (len (tiers m));
  body ← encode_tiers None (tiers m);
  Ok (MANIFEST_MAGIC ++ le_bytes 4 MANIFEST_EPOCH_V3 ++ le_bytes 8 (ckpt_id m) ++ le_bytes 8 (Lsn.Lsn.to_u64 (begin_lsn m)) ++
      le_bytes 8 (key_hash_id m) ++ le_bytes 4 count ++ concat (le_bytes 4 <$> segments m) ++ le_bytes 4 tier_count ++ body).

(** ** The decoder *)

Notation result := (outcome ManifestDecodeError).

(** [chunks_exact(4)] of [n] chunks. *)
Fixpoint chunks (n : nat) (l : list byte) : list (list byte) :=
  match n with
  | O => []
  | S n => take 4 l :: chunks n (drop 4 l)
  end.

Fixpoint check_ascending (i : Z) (segments : list Z) : result unit :=
  match segments with
  | a :: ((b :: _) as rest) => if b <=? a then Err (SegmentsNotAscending (i + 1)) else check_ascending (i + 1) rest
  | _ => Ok tt
  end.

Section decoder.
Context (payload : list byte).

Definition take_ (at_ n : Z) : result (list byte * Z) :=
  end_ ← ok_or (Truncated at_) (checked_add 64 at_ n);
  raw ← ok_or (Truncated (len payload)) (get_range payload at_ end_);
  Ok (raw, end_).

Fixpoint decode_files (n : nat) (ns flushed at_ prev_end : Z) (prev_id : option Z) : result (list TierFileRange * Z) :=
  match n with
  | O => Ok ([], at_)
  | S n =>
      '(raw, at_) ← take_ at_ TIER_FILE_LEN;
      i ← slice raw 0 4;
      b ← slice raw 4 12;
      d ← slice raw 12 20;
      let file := {| id := le_val i; base := le_val b; durable_len := le_val d |} in
      if durable_len file =? 0 then Err (TierRangeEmpty ns (id file))
      else
        end_ ← ok_or (TierAddrOutOfRange ns (base file)) (checked_add 64 (base file) (durable_len file));
        if (flushed <? end_) || (base file <? prev_end) then Err (TierRangeBroken ns (id file))
        else if negb (above prev_id (id file)) then Err (TierFilesNotAscending ns (id file))
        else
          '(rest, at_) ← decode_files n ns flushed at_ end_ (Some (id file));
          Ok (file :: rest, at_)
  end.

Fixpoint decode_sections (n : nat) (at_ : Z) (prev_ns : option Z) : result (list TierNsManifest * Z) :=
  match n with
  | O => Ok ([], at_)
  | S n =>
      '(head, at_) ← take_ at_ TIER_NS_FIXED_LEN;
      r0 ← slice head 0 4;
      r1 ← slice head 4 12;
      r2 ← slice head 12 16;
      let ns := le_val r0 in
      let flushed := le_val r1 in
      let file_count := le_val r2 in
      if negb (above prev_ns ns) then Err (TierNsNotAscending ns)
      else if ADDR_LIMIT <=? flushed then Err (TierAddrOutOfRange ns flushed)
      else if MAX_TIER_FILES <? file_count then Err (TooManyTierFiles ns file_count)
      else
        '(files, at_) ← decode_files (Z.to_nat file_count) ns flushed at_ 0 None;
        '(rest, at_) ← decode_sections n at_ (Some ns);
        Ok ({| ns := ns; flushed := flushed; files := files |} :: rest, at_)
  end.

Definition decode_tiers (at_ : Z) : result (list TierNsManifest) :=
  '(raw, at_) ← take_ at_ 4;
  let ns_count := le_val raw in
  if MAX_TIER_NS <? ns_count then Err (TooManyTierSections ns_count)
  else
    '(tiers, at_) ← decode_sections (Z.to_nat ns_count) at_ None;
    if negb (at_ =? len payload) then Err (TrailingBytes (sat_sub (len payload) at_))
    else Ok tiers.

Definition decode : result Manifest :=
  if len payload <? EPOCH_END then Err (Truncated (len payload))
  else
    magic ← slice payload 0 8;
    if negb (bool_decide (magic = MANIFEST_MAGIC)) then Err (BadMagic magic)
    else
      raw ← slice payload 8 12;
      let epoch := le_val raw in
      if (epoch =? MANIFEST_EPOCH) || (epoch =? MANIFEST_EPOCH_V2) then Err (PredatesKeyHashBinding epoch)
      else if negb (epoch =? MANIFEST_EPOCH_V3) then Err (UnsupportedEpoch epoch)
      else if len payload <? FIXED_LEN then Err (Truncated (len payload))
      else
        r0 ← slice payload 12 20;
        r1 ← slice payload 20 28;
        r2 ← slice payload 28 36;
        r3 ← slice payload 36 40;
        let begin_lsn := Lsn.Lsn.from_u64 (le_val r1) in
        let count := le_val r3 in
        if count =? 0 then Err NoSegments
        else if MAX_SEGMENTS <? count then Err (TooManySegments count)
        else
          segments_end ← ok_or (TooManySegments count) (checked_add 64 (count * 4) FIXED_LEN);
          if len payload <? segments_end then Err (Truncated (len payload))
          else
            raw ← slice payload FIXED_LEN segments_end;
            let segments := le_val <$> chunks (Z.to_nat count) raw in
            _ ← check_ascending 0 segments;
            first ← expect (get segments 0);
            if negb (first =? Lsn.Lsn.segment begin_lsn) then Err (FloorMismatch first (Lsn.Lsn.segment begin_lsn))
            else
              tiers ← decode_tiers segments_end;
              Ok {| ckpt_id := le_val r0; begin_lsn := begin_lsn; segments := segments; tiers := tiers; key_hash_id := le_val r2 |}.
End decoder.

(** ** Publication *)

(** A schema error surfaces as [InvalidData]. *)
Definition schema_error (c : result Manifest) : outcome IoError (option Manifest) :=
  match c with
  | Ok m => Ok (Some m)
  | Err _ => Err (InvalidData BadManifest)
  | Panic => Panic
  end.
Definition never_fails {A} (c : panics A) : outcome IoError A :=
  match c with Ok a => Ok a | Err e => match e with end | Panic => Panic end.

Definition manifest_envelope (m : Manifest) : panics (list byte) :=
  payload ← encode m;
  match Envelope.Envelope.encode_envelope payload with Ok e => Ok e | _ => Panic end.

Section publication.
Context {S File : Type} `{SegmentFs S File}.

Definition write_manifest (shard_dir : PathBuf) (m : Manifest) (manifest_rename_fail dir_fsync_fail : bool) : io S unit :=
  let! payload := lift (never_fails (encode m)) in
  Envelope.Envelope.write_envelope shard_dir MANIFEST_STAGING_FILE MANIFEST_FILE payload manifest_rename_fail dir_fsync_fail.

Definition read_manifest (shard_dir : PathBuf) : io S (option Manifest) :=
  let! payload := Envelope.Envelope.read_envelope (join shard_dir MANIFEST_FILE) in
  match payload with
  | None => ret None
  | Some payload => lift (schema_error (decode payload))
  end.
End publication.
End Manifest.
