(* ===== verification/ManifestSpec.v ===== *)
(** * ManifestSpec: the manifest's canonical form and its publication

    What an admissible manifest is, the proof that the decoder of [Manifest] accepts
    exactly the encodings of those, and that a published one is read back after any
    power cut. *)

From Stdlib Require Import Sorting.Sorted.
From stdpp Require Import strings gmap.
From S2P Require Import Prelude Tail Lsn SegmentFs SimDisk SimDiskSpec Envelope MetaSwap Manifest.

Module ManifestSpec.
Import Manifest.Manifest.

(** ** Admissible manifests *)

Definition typed_file (f : TierFileRange) : Prop := in_u 32 (id f) /\ in_u 64 (base f) /\ in_u 64 (durable_len f).
Definition typed_tier (t : TierNsManifest) : Prop := in_u 32 (ns t) /\ in_u 64 (flushed t) /\ Forall typed_file (files t).

(** Files in order, each within what is left of [[0, flushed)]. *)
Fixpoint files_ok (flushed prev_end : Z) (prev_id : option Z) (files : list TierFileRange) : Prop :=
  match files with
  | [] => True
  | f :: files => 1 <= durable_len f /\ prev_end <= base f /\ above prev_id (id f) = true /\ base f + durable_len f <= flushed /\
      files_ok flushed (base f + durable_len f) (Some (id f)) files
  end.

Fixpoint tiers_ok (prev_ns : option Z) (tiers : list TierNsManifest) : Prop :=
  match tiers with
  | [] => True
  | t :: tiers => above prev_ns (ns t) = true /\ flushed t < ADDR_LIMIT /\ files_ok (flushed t) 0 None (files t) /\ tiers_ok (Some (ns t)) tiers
  end.

Definition admits (m : Manifest) : Prop :=
  (in_u 64 (ckpt_id m) /\ Lsn.Lsn.wf (begin_lsn m) /\ in_u 64 (key_hash_id m) /\ Forall (in_u 32) (segments m) /\ Forall typed_tier (tiers m)) /\
  1 <= len (segments m) <= MAX_SEGMENTS /\ Sorted Z.lt (segments m) /\ head (segments m) = Some (floor m) /\
  len (tiers m) <= MAX_TIER_NS /\ Forall (fun t => len (files t) <= MAX_TIER_FILES) (tiers m).

Definition files_bytes (files : list TierFileRange) : list byte := concat (file_bytes <$> files).
Definition tier_bytes (t : TierNsManifest) : list byte :=
  le_bytes 4 (ns t) ++ le_bytes 8 (flushed t) ++ le_bytes 4 (len (files t)) ++ files_bytes (files t).
Definition tiers_bytes (tiers : list TierNsManifest) : list byte := concat (tier_bytes <$> tiers).

(** ** The encoder *)

Lemma expect_u32_Ok n k : expect_u32 n = Ok k <-> k = n /\ n <= U32_MAX.
Proof. unfold expect_u32. destruct (Z.leb_spec n U32_MAX); naive_solver lia. Qed.

Lemma end_within f fl : fl < ADDR_LIMIT -> end_ f <= fl <-> base f + durable_len f <= fl.
Proof. change ADDR_LIMIT with 281474976710656. unfold end_, U64_MAX. lia. Qed.

Lemma end_exact f fl : fl < ADDR_LIMIT -> base f + durable_len f <= fl -> end_ f = base f + durable_len f.
Proof. change ADDR_LIMIT with 281474976710656. unfold end_, U64_MAX. lia. Qed.

Lemma encode_files_Ok fl pe pid fs bytes : Forall typed_file fs -> fl < ADDR_LIMIT ->
  encode_files fl pe pid fs = Ok bytes <-> files_ok fl pe pid fs /\ bytes = files_bytes fs.
Proof.
  intros Ht Hfl. revert pe pid bytes. induction Ht as [|f fs (Hi & Hb & Hd) _ IH]; intros pe pid bytes; cbn [encode_files files_ok].
  - split; [by intros [= <-]|]. by intros [_ ->].
  - split.
    + intros H. inv_ok H. apply Z.leb_le in H0, H1, H3. apply (end_within f fl Hfl) in H3. rewrite (end_exact f fl Hfl H3) in H4.
      apply IH in H4 as [? ->]. injection H as <-. by split_and!.
    + intros [(H0 & H1 & H2 & H3 & H4) ->]. rewrite (proj2 (Z.leb_le _ _) H0), (proj2 (Z.leb_le _ _) H1), H2. ok_step. cbn [rassert].
      rewrite (proj2 (Z.leb_le (end_ f) fl)) by (by apply end_within). cbn [rassert]. ok_step. rewrite (end_exact f fl Hfl H3).
      rewrite (proj2 (IH _ _ (files_bytes fs))) by done. done.
Qed.

Lemma encode_tiers_Ok prev ts bytes : Forall typed_tier ts -> Forall (fun t => len (files t) <= MAX_TIER_FILES) ts ->
  encode_tiers prev ts = Ok bytes <-> tiers_ok prev ts /\ bytes = tiers_bytes ts.
Proof.
  intros Ht Hm. revert prev bytes. induction Ht as [|t ts (Hn & Hf & Hfs) _ IH]; intros prev bytes; cbn [encode_tiers tiers_ok].
  - split; [by intros [= <-]|]. by intros [_ ->].
  - apply list.Forall_cons in Hm as [Hm Hms]. specialize (IH Hms). change MAX_TIER_FILES with 1048576 in Hm. split.
    + intros H. inv_ok H. apply expect_u32_Ok in H2 as [-> _]. apply Z.ltb_lt in H1. apply encode_files_Ok in H3 as [? ->]; [|done|done].
      apply IH in H4 as [? ->]. injection H as <-. split; [by split_and!|]. unfold tiers_bytes, tier_bytes. cbn. by rewrite <- !app_assoc.
    + intros [(H0 & H1 & H2 & H3) ->]. rewrite H0, (proj2 (Z.ltb_lt _ _) H1). cbn [rassert]. ok_step.
      rewrite (proj2 (expect_u32_Ok _ (len (files t)))) by (unfold U32_MAX; lia). ok_step.
      rewrite (proj2 (encode_files_Ok _ _ _ _ (files_bytes (files t)) Hfs H1)) by done. ok_step.
      rewrite (proj2 (IH _ (tiers_bytes ts))) by done. ok_step. by f_equal.
Qed.

(** ** The decoder *)

(** Three fields of a fixed-size block. *)
Lemma fields3 (raw x y z : list byte) a b c : len raw = c ->
  slice (E:=ManifestDecodeError) raw 0 a = Ok x -> slice (E:=ManifestDecodeError) raw a b = Ok y -> slice (E:=ManifestDecodeError) raw b c = Ok z ->
  raw = x ++ y ++ z /\ len x = a /\ len y = b - a /\ len z = c - b.
Proof.
  intros Hl (x0 & x1 & -> & Hx0 & Hx)%slice_Ok (y0 & y1 & Hy & Hy0 & Hyl)%slice_Ok (z0 & z1 & Hz & Hz0 & Hzl)%slice_Ok.
  assert (x0 = []) as -> by (by apply len_0_nil). rewrite app_nil_l in *.
  apply app_len_inj in Hy as [<- ->]; [|lia]. rewrite app_assoc in Hz. apply app_len_inj in Hz as [<- ->]; [|rewrite len_app; lia].
  assert (z1 = []) as -> by (apply len_0_nil; rewrite !len_app in Hl; lia). rewrite app_nil_r. split_and!; [done|lia|lia|lia].
Qed.

Lemma slices3 {E} (x y z : list byte) a b c : len x = a -> a + len y = b -> b + len z = c ->
  slice (E:=E) (x ++ y ++ z) 0 a = Ok x /\ slice (E:=E) (x ++ y ++ z) a b = Ok y /\ slice (E:=E) (x ++ y ++ z) b c = Ok z.
Proof.
  intros <- <- <-. split_and!; apply slice_Ok.
  - exists [], (y ++ z). split_and!; [done|done|lia].
  - exists x, z. split_and!; [done|done|lia].
  - exists (x ++ y), []. rewrite app_nil_r, <- app_assoc, len_app. split_and!; [done|done|lia].
Qed.

Lemma le_exact n l : length l = n -> in_u (8 * Z.of_nat n) (le_val l) /\ le_bytes n (le_val l) = l.
Proof. intros <-. split; [apply le_val_bound|by apply le_bytes_le_val]. Qed.

Section decoder.
Context (payload : list byte).

Lemma take_sound at_ q n raw at' : tail_at payload at_ q -> take_ payload at_ n = Ok (raw, at') ->
  exists q', q = raw ++ q' /\ len raw = n /\ at' = at_ + n /\ tail_at payload at' q'.
Proof.
  intros (p & -> & <-) H. unfold take_ in H. inv_ok H. injection H as <- <-. apply checked_add_Some in H0 as [-> _].
  apply get_range_Some in H1 as (x & z & Hx & Hlx & Hl). apply app_len_inj in Hx as [<- ->]; [|done].
  exists z. split_and!; [done|lia|done|]. exists (p ++ a0). rewrite <- app_assoc. split; [done|]. rewrite len_app. lia.
Qed.

Lemma take_complete at_ raw q n : tail_at payload at_ (raw ++ q) -> len raw = n -> len payload < 2 ^ 64 ->
  take_ payload at_ n = Ok (raw, at_ + n) /\ tail_at payload (at_ + n) q.
Proof.
  intros Ht <- Hl. split; [|by apply tail_app]. pose proof (tail_len _ _ _ Ht) as [? Hlen]. rewrite len_app in Hlen. pose proof (len_nonneg q).
  unfold take_. rewrite (proj2 (checked_add_Some 64 at_ (len raw) (at_ + len raw))) by lia. ok_step.
  destruct Ht as (p & -> & <-). rewrite (get_range_app p raw q); [done|done|lia].
Qed.

Lemma take_len at_ n raw at' : take_ payload at_ n = Ok (raw, at') -> len raw = n.
Proof.
  unfold take_. intros H. inv_ok H. apply checked_add_Some in H0 as [-> _]. apply get_range_Some in H1 as (? & ? & _ & _ & Hl).
  injection H as <- _. lia.
Qed.

Lemma take_not_Panic at_ n : take_ payload at_ n <> Panic.
Proof. unfold take_. apply bind_not_Panic; [apply ok_or_not_Panic|]. intros e _. apply bind_not_Panic; [apply ok_or_not_Panic|done]. Qed.

(** The blocks of a file range and of a section head. *)
Lemma file_block (raw i b d : list byte) : len raw = 20 ->
  slice (E:=ManifestDecodeError) raw 0 4 = Ok i -> slice (E:=ManifestDecodeError) raw 4 12 = Ok b -> slice (E:=ManifestDecodeError) raw 12 20 = Ok d ->
  let f := {| id := le_val i; base := le_val b; durable_len := le_val d |} in typed_file f /\ file_bytes f = raw.
Proof.
  intros Hr Hi Hb Hd. destruct (fields3 raw i b d 4 12 20 Hr Hi Hb Hd) as (-> & Hil & Hbl & Hdl). unfold len in Hil, Hbl, Hdl.
  destruct (le_exact 4 i ltac:(lia)) as [Ti Ei]. destruct (le_exact 8 b ltac:(lia)) as [Tb Eb]. destruct (le_exact 8 d ltac:(lia)) as [Td Ed].
  cbv zeta. unfold file_bytes. cbn [id base durable_len]. by rewrite Ei, Eb, Ed.
Qed.

Lemma head_block (raw r0 r1 r2 : list byte) : len raw = 16 ->
  slice (E:=ManifestDecodeError) raw 0 4 = Ok r0 -> slice (E:=ManifestDecodeError) raw 4 12 = Ok r1 -> slice (E:=ManifestDecodeError) raw 12 16 = Ok r2 ->
  (in_u 32 (le_val r0) /\ in_u 64 (le_val r1) /\ in_u 32 (le_val r2)) /\ le_bytes 4 (le_val r0) ++ le_bytes 8 (le_val r1) ++ le_bytes 4 (le_val r2) = raw.
Proof.
  intros Hr Hi Hb Hd. destruct (fields3 raw r0 r1 r2 4 12 16 Hr Hi Hb Hd) as (-> & Hil & Hbl & Hdl). unfold len in Hil, Hbl, Hdl.
  destruct (le_exact 4 r0 ltac:(lia)) as [Ti Ei]. destruct (le_exact 8 r1 ltac:(lia)) as [Tb Eb]. destruct (le_exact 4 r2 ltac:(lia)) as [Td Ed].
  by rewrite Ei, Eb, Ed.
Qed.

Lemma decode_files_sound n nsv fl at_ pe pid fs at' q : tail_at payload at_ q ->
  decode_files payload n nsv fl at_ pe pid = Ok (fs, at') ->
  exists q', q = files_bytes fs ++ q' /\ tail_at payload at' q' /\ length fs = n /\ Forall typed_file fs /\ files_ok fl pe pid fs.
Proof.
  revert at_ pe pid fs q. induction n as [|n IH]; intros at_ pe pid fs q Ht H; cbn [decode_files] in H.
  - injection H as <- <-. by exists q.
  - apply bind_Ok in H as ([raw at1] & Hraw & H). destruct (take_sound _ _ _ _ _ Ht Hraw) as (q1 & -> & Hl & -> & Ht1).
    apply bind_Ok in H as (i & Hi & H). apply bind_Ok in H as (b & Hb & H). apply bind_Ok in H as (d & Hd & H).
    destruct (file_block raw i b d Hl Hi Hb Hd) as [Hty Hbytes]. set (f := {| id := le_val i; base := le_val b; durable_len := le_val d |}) in *. cbv zeta in H.
    destruct (Z.eqb_spec (durable_len f) 0); [done|]. apply bind_Ok in H as (e & [-> _]%ok_or_Ok%checked_add_Some & H).
    destruct (_ || _) eqn:Ebad; [done|]. apply orb_false_iff in Ebad as [Hfl%Z.ltb_ge Hpe%Z.ltb_ge].
    destruct (above pid (id f)) eqn:Eab; [|done]. cbn [negb] in H. apply bind_Ok in H as ([rest at2] & Hrest & [= <- <-]).
    destruct (IH _ _ _ _ _ Ht1 Hrest) as (q' & -> & Ht' & <- & Hty' & Hok). exists q'. split.
    { unfold files_bytes. cbn. rewrite <- app_assoc. by rewrite Hbytes. }
    assert (1 <= durable_len f) by (destruct Hty as (_ & _ & Hdu); unfold in_u in Hdu; lia). split; [done|]. split; [done|]. split; [by constructor|by split_and!].
Qed.

Lemma decode_files_complete fs nsv fl at_ pe pid q : len payload < 2 ^ 64 -> fl < ADDR_LIMIT -> Forall typed_file fs -> files_ok fl pe pid fs ->
  tail_at payload at_ (files_bytes fs ++ q) ->
  exists at', decode_files payload (length fs) nsv fl at_ pe pid = Ok (fs, at') /\ tail_at payload at' q.
Proof.
  intros Hlen Hfl Hty. revert at_ pe pid. induction Hty as [|f fs (Hi & Hb & Hd) _ IH]; intros at_ pe pid Hok Ht; cbn [length decode_files]; [by exists at_|].
  destruct Hok as (H1 & H2 & H3 & H4 & H5). unfold files_bytes in Ht. cbn [fmap list_fmap concat] in Ht. rewrite <- app_assoc in Ht.
  destruct (take_complete at_ (file_bytes f) _ TIER_FILE_LEN Ht) as [-> Ht1]; [by unfold file_bytes; rewrite !len_app, !len_le_bytes|done|]. ok_step.
  unfold file_bytes at 1 2 3. destruct (slices3 (E:=ManifestDecodeError) (le_bytes 4 (id f)) (le_bytes 8 (base f)) (le_bytes 8 (durable_len f)) 4 12 20) as (-> & E2 & E3); try by rewrite len_le_bytes.
  ok_step. rewrite E2. ok_step. rewrite E3. ok_step. cbv zeta. cbn [id base durable_len].
  rewrite !le_val_le_bytes_small by done. destruct (Z.eqb_spec (durable_len f) 0); [lia|]. change ADDR_LIMIT with 281474976710656 in Hfl.
  rewrite (proj2 (checked_add_Some 64 (base f) (durable_len f) _)) by (split; [done|lia]). ok_step.
  rewrite (proj2 (Z.ltb_ge fl _)) by lia. rewrite (proj2 (Z.ltb_ge (base f) pe)) by lia. cbn [orb]. rewrite H3. cbn [negb].
  destruct (IH _ _ _ H5 Ht1) as (at' & -> & Ht'). ok_step. exists at'. split; [|done]. by destruct f.
Qed.

Lemma decode_sections_sound n at_ prev ts at' q : tail_at payload at_ q ->
  decode_sections payload n at_ prev = Ok (ts, at') ->
  exists q', q = tiers_bytes ts ++ q' /\ tail_at payload at' q' /\ length ts = n /\ Forall typed_tier ts /\ tiers_ok prev ts /\
    Forall (fun t => len (files t) <= MAX_TIER_FILES) ts.
Proof.
  revert at_ prev ts q. induction n as [|n IH]; intros at_ prev ts q Ht H; cbn [decode_sections] in H.
  - injection H as <- <-. by exists q.
  - apply bind_Ok in H as ([raw at1] & Hraw & H). destruct (take_sound _ _ _ _ _ Ht Hraw) as (q1 & -> & Hl & -> & Ht1).
    apply bind_Ok in H as (r0 & H0 & H). apply bind_Ok in H as (r1 & H1 & H). apply bind_Ok in H as (r2 & H2 & H).
    destruct (head_block raw r0 r1 r2 Hl H0 H1 H2) as [(T0 & T1 & T2) Hbytes]. cbv zeta in H.
    destruct (above prev (le_val r0)) eqn:Eab; [|done]. cbn [negb] in H. destruct (Z.leb_spec ADDR_LIMIT (le_val r1)); [done|].
    destruct (Z.ltb_spec MAX_TIER_FILES (le_val r2)); [done|]. apply bind_Ok in H as ([fs at2] & Hfs & H).
    destruct (decode_files_sound _ _ _ _ _ _ _ _ _ Ht1 Hfs) as (q2 & -> & Ht2 & Hn & Hty & Hok).
    apply bind_Ok in H as ([rest at3] & Hrest & [= <- <-]). destruct (IH _ _ _ _ Ht2 Hrest) as (q' & -> & Ht' & <- & Hty' & Hok' & Hmax).
    assert (len fs = le_val r2) as Hlen by (unfold len, in_u in *; lia). exists q'. split.
    { unfold tiers_bytes, tier_bytes. cbn [fmap list_fmap concat ns flushed files]. rewrite Hlen, <- !app_assoc. rewrite <- Hbytes, <- !app_assoc. done. }
    split; [done|]. split; [done|]. split; [constructor; [by split_and!|done]|]. split; [by split_and!|]. constructor; [cbn; lia|done].
Qed.

Lemma decode_sections_complete ts at_ prev q : len payload < 2 ^ 64 -> Forall typed_tier ts -> tiers_ok prev ts ->
  Forall (fun t => len (files t) <= MAX_TIER_FILES) ts -> tail_at payload at_ (tiers_bytes ts ++ q) ->
  exists at', decode_sections payload (length ts) at_ prev = Ok (ts, at') /\ tail_at payload at' q.
Proof.
  intros Hlen Hty. revert at_ prev. induction Hty as [|t ts (Hn & Hf & Hfs) _ IH]; intros at_ prev Hok Hmax Ht; cbn [length decode_sections]; [by exists at_|].
  destruct Hok as (H1 & H2 & H3 & H4). apply list.Forall_cons in Hmax as [Hm Hmax]. pose proof (len_nonneg (files t)).
  assert (in_u 32 (len (files t))) as Hc by (change MAX_TIER_FILES with 1048576 in Hm; unfold in_u; lia).
  assert (tail_at payload at_ ((le_bytes 4 (ns t) ++ le_bytes 8 (flushed t) ++ le_bytes 4 (len (files t))) ++ files_bytes (files t) ++ tiers_bytes ts ++ q)) as Ht'.
  { unfold tiers_bytes, tier_bytes in Ht. cbn [fmap list_fmap concat] in Ht. by rewrite <- !app_assoc in *. }
  destruct (take_complete at_ _ _ TIER_NS_FIXED_LEN Ht') as [-> Ht1]; [by rewrite !len_app, !len_le_bytes|done|]. ok_step.
  destruct (slices3 (E:=ManifestDecodeError) (le_bytes 4 (ns t)) (le_bytes 8 (flushed t)) (le_bytes 4 (len (files t))) 4 12 16) as (-> & -> & ->); try by rewrite len_le_bytes.
  ok_step. cbv zeta. rewrite !le_val_le_bytes_small by done. rewrite H1. cbn [negb]. rewrite (proj2 (Z.leb_gt _ _)) by done.
  rewrite (proj2 (Z.ltb_ge _ _)) by done. unfold len at 1. rewrite Nat2Z.id.
  destruct (decode_files_complete (files t) (ns t) (flushed t) _ 0 None _ Hlen H2 Hfs H3 Ht1) as (at1 & -> & Ht2). ok_step.
  destruct (IH _ _ H4 Hmax Ht2) as (at2 & -> & Ht3). ok_step. exists at2. split; [|done]. by destruct t.
Qed.

Lemma decode_files_not_Panic n nsv fl at_ pe pid : decode_files payload n nsv fl at_ pe pid <> Panic.
Proof.
  revert at_ pe pid. induction n as [|n IH]; intros at_ pe pid; cbn [decode_files]; [done|].
  apply bind_not_Panic; [apply take_not_Panic|]. intros [raw at1] Hraw.
  pose proof (take_len _ _ _ _ Hraw) as Hl. change TIER_FILE_LEN with 20 in Hl.
  apply bind_not_Panic; [apply slice_not_Panic; lia|]. intros i _. apply bind_not_Panic; [apply slice_not_Panic; lia|]. intros b _.
  apply bind_not_Panic; [apply slice_not_Panic; lia|]. intros d _. cbv zeta. destruct (_ =? 0); [done|].
  apply bind_not_Panic; [apply ok_or_not_Panic|]. intros e _. destruct (_ || _); [done|]. destruct (negb _); [done|].
  apply bind_not_Panic; [apply IH|]. by intros [rest at2] _.
Qed.

Lemma decode_sections_not_Panic n at_ prev : decode_sections payload n at_ prev <> Panic.
Proof.
  revert at_ prev. induction n as [|n IH]; intros at_ prev; cbn [decode_sections]; [done|].
  apply bind_not_Panic; [apply take_not_Panic|]. intros [raw at1] Hraw.
  pose proof (take_len _ _ _ _ Hraw) as Hl. change TIER_NS_FIXED_LEN with 16 in Hl.
  apply bind_not_Panic; [apply slice_not_Panic; lia|]. intros i _. apply bind_not_Panic; [apply slice_not_Panic; lia|]. intros b _.
  apply bind_not_Panic; [apply slice_not_Panic; lia|]. intros d _. cbv zeta. destruct (negb _); [done|]. destruct (_ <=? _); [done|]. destruct (_ <? _); [done|].
  apply bind_not_Panic; [apply decode_files_not_Panic|]. intros [fs at2] _. apply bind_not_Panic; [apply IH|]. by intros [rest at3] _.
Qed.

Lemma decode_tiers_sound at_ q ts : tail_at payload at_ q -> decode_tiers payload at_ = Ok ts ->
  q = le_bytes 4 (len ts) ++ tiers_bytes ts /\ Forall typed_tier ts /\ tiers_ok None ts /\ len ts <= MAX_TIER_NS /\
  Forall (fun t => len (files t) <= MAX_TIER_FILES) ts.
Proof.
  intros Ht H. unfold decode_tiers in H. apply bind_Ok in H as ([raw at1] & Hraw & H). destruct (take_sound _ _ _ _ _ Ht Hraw) as (q1 & -> & Hl & -> & Ht1).
  cbv zeta in H. destruct (Z.ltb_spec MAX_TIER_NS (le_val raw)); [done|]. apply bind_Ok in H as ([ts' at2] & Hts & H).
  destruct (decode_sections_sound _ _ _ _ _ _ Ht1 Hts) as (q' & -> & Ht' & Hn & Hty & Hok & Hmax).
  destruct (Z.eqb_spec at2 (len payload)); [|done]. injection H as <-. pose proof (tail_len _ _ _ Ht') as [_ Hq].
  assert (q' = []) as -> by (apply len_0_nil; lia). rewrite app_nil_r. unfold len in Hl. destruct (le_exact 4 raw ltac:(lia)) as [T E].
  assert (len ts' = le_val raw) as -> by (unfold len, in_u in *; lia). by rewrite E.
Qed.

Lemma decode_tiers_complete at_ ts : len payload < 2 ^ 64 -> Forall typed_tier ts -> tiers_ok None ts -> len ts <= MAX_TIER_NS ->
  Forall (fun t => len (files t) <= MAX_TIER_FILES) ts -> tail_at payload at_ (le_bytes 4 (len ts) ++ tiers_bytes ts) ->
  decode_tiers payload at_ = Ok ts.
Proof.
  intros Hlen Hty Hok Hns Hmax Ht. unfold decode_tiers. destruct (take_complete at_ _ _ 4 Ht) as [-> Ht1]; [by rewrite len_le_bytes|done|]. ok_step.
  cbv zeta. pose proof (len_nonneg ts). rewrite le_val_le_bytes_small by (change MAX_TIER_NS with 65536 in Hns; unfold in_u; lia).
  rewrite (proj2 (Z.ltb_ge _ _)) by done. replace (Z.to_nat (len ts)) with (length ts) by (unfold len; lia). rewrite <- (app_nil_r (tiers_bytes ts)) in Ht1.
  destruct (decode_sections_complete ts _ None [] Hlen Hty Hok Hmax Ht1) as (at' & -> & Ht'). ok_step.
  pose proof (tail_len _ _ _ Ht') as [_ Hl]. rewrite len_nil, Z.add_0_r in Hl. by rewrite Hl, Z.eqb_refl.
Qed.

Lemma decode_tiers_not_Panic at_ : decode_tiers payload at_ <> Panic.
Proof.
  unfold decode_tiers. apply bind_not_Panic; [apply take_not_Panic|]. intros [raw at1] _. cbv zeta. destruct (_ <? _); [done|].
  apply bind_not_Panic; [apply decode_sections_not_Panic|]. intros [ts at2] _. by destruct (negb _).
Qed.
End decoder.

(** ** Segments *)

Lemma chunks_sound n (raw : list byte) : len raw = 4 * Z.of_nat n ->
  concat (le_bytes 4 <$> (le_val <$> chunks n raw)) = raw /\ length (chunks n raw) = n /\ Forall (in_u 32) (le_val <$> chunks n raw).
Proof.
  revert raw. induction n as [|n IH]; intros raw Hl; [by rewrite (len_0_nil raw Hl)|]. cbn [chunks fmap list_fmap concat length].
  destruct (IH (drop 4 raw)) as (E & Hn & HF); [unfold len in *; rewrite length_drop; lia|].
  destruct (le_exact 4 (take 4 raw)) as [T E4]; [unfold len in Hl; rewrite length_take; lia|].
  split; [rewrite E4; etrans; [apply f_equal, E|apply take_drop]|]. split; [lia|by constructor].
Qed.

Lemma chunks_complete segs : Forall (in_u 32) segs -> le_val <$> chunks (length segs) (concat (le_bytes 4 <$> segs)) = segs.
Proof.
  induction 1 as [|s segs Hs _ IH]; [done|]. cbn [length chunks fmap list_fmap concat].
  rewrite take_app_length', drop_app_length' by done. rewrite le_val_le_bytes_small by done. f_equal. apply IH.
Qed.

Lemma check_ascending_Ok i segs : check_ascending i segs = Ok tt <-> Sorted Z.lt segs.
Proof.
  revert i. induction segs as [|a segs IH]; intros i; [by split; [constructor|]|]. destruct segs as [|b segs].
  - split; [by repeat constructor|done].
  - cbn [check_ascending]. destruct (Z.leb_spec b a).
    + split; [done|]. intros [_ Hh]%Sorted_inv. inv Hh. lia.
    + etrans; [apply IH|]. split; [intros Hs; constructor; [done|by constructor]|by intros [? _]%Sorted_inv].
Qed.

Lemma check_ascending_not_Panic i segs : check_ascending i segs <> Panic.
Proof.
  revert i. induction segs as [|a segs IH]; intros i; [done|]. destruct segs as [|b segs]; [done|].
  change (check_ascending i (a :: b :: segs)) with (if b <=? a then Err (SegmentsNotAscending (i + 1)) else check_ascending (i + 1) (b :: segs)).
  destruct (b <=? a); [done|apply IH].
Qed.

(** ** The fixed part *)

Lemma split_front {A} (l : list A) n : 0 <= n <= len l -> exists x y, l = x ++ y /\ len x = n.
Proof. intros H. exists (take (Z.to_nat n) l), (drop (Z.to_nat n) l). split; [by rewrite take_drop|]. rewrite len_take. lia. Qed.

Lemma header_parts (payload : list byte) : 40 <= len payload -> exists p0 p1 p2 p3 p4 p5 rest,
  payload = p0 ++ p1 ++ p2 ++ p3 ++ p4 ++ p5 ++ rest /\ len p0 = 8 /\ len p1 = 4 /\ len p2 = 8 /\ len p3 = 8 /\ len p4 = 8 /\ len p5 = 4.
Proof.
  intros Hl. destruct (split_front payload 8) as (p0 & q0 & -> & H0); [lia|]. rewrite len_app in Hl.
  destruct (split_front q0 4) as (p1 & q1 & -> & H1); [lia|]. rewrite len_app in Hl.
  destruct (split_front q1 8) as (p2 & q2 & -> & H2); [lia|]. rewrite len_app in Hl.
  destruct (split_front q2 8) as (p3 & q3 & -> & H3); [lia|]. rewrite len_app in Hl.
  destruct (split_front q3 8) as (p4 & q4 & -> & H4); [lia|]. rewrite len_app in Hl.
  destruct (split_front q4 4) as (p5 & q5 & -> & H5); [lia|]. by exists p0, p1, p2, p3, p4, p5, q5.
Qed.

(** What follows the fixed fields. *)
Definition decode_rest (payload p2 p3 p4 p5 : list byte) : result Manifest :=
  let begin_lsn := Lsn.Lsn.from_u64 (le_val p3) in
  let count := le_val p5 in
  if count =? 0 then Err NoSegments
  else if MAX_SEGMENTS <? count then Err (TooManySegments count)
  else
    segments_end ← ok_or (TooManySegments count) (checked_add 64 (count * 4) FIXED_LEN);
    if len payload <? segments_end then Err (Truncated (len payload))
    else
      raw ← slice payload FIXED_LEN segments_end;
      let segments := le_val <$> chunks (Z.to_nat count) raw in
      _ ← check_ascending 0 segments;
      first ← expect (get segments 0);
      if negb (first =? Lsn.Lsn.segment begin_lsn) then Err (FloorMismatch first (Lsn.Lsn.segment begin_lsn))
      else
        tiers ← decode_tiers payload segments_end;
        Ok {| ckpt_id := le_val p2; begin_lsn := begin_lsn; segments := segments; tiers := tiers; key_hash_id := le_val p4 |}.

Lemma decode_split p0 p1 p2 p3 p4 p5 rest (payload := p0 ++ p1 ++ p2 ++ p3 ++ p4 ++ p5 ++ rest) :
  len p0 = 8 -> len p1 = 4 -> len p2 = 8 -> len p3 = 8 -> len p4 = 8 -> len p5 = 4 ->
  tail_at payload 40 rest /\
  decode payload =
    if negb (bool_decide (p0 = MANIFEST_MAGIC)) then Err (BadMagic p0)
    else if (le_val p1 =? MANIFEST_EPOCH) || (le_val p1 =? MANIFEST_EPOCH_V2) then Err (PredatesKeyHashBinding (le_val p1))
    else if negb (le_val p1 =? MANIFEST_EPOCH_V3) then Err (UnsupportedEpoch (le_val p1))
    else decode_rest payload p2 p3 p4 p5.
Proof.
  intros H0 H1 H2 H3 H4 H5. assert (tail_at payload 0 (p0 ++ p1 ++ p2 ++ p3 ++ p4 ++ p5 ++ rest)) as T0 by (by exists []).
  pose proof (tail_app _ _ _ _ T0) as T1. pose proof (tail_app _ _ _ _ T1) as T2. pose proof (tail_app _ _ _ _ T2) as T3.
  pose proof (tail_app _ _ _ _ T3) as T4. pose proof (tail_app _ _ _ _ T4) as T5. pose proof (tail_app _ _ _ _ T5) as T6.
  rewrite H0, ?H1, ?H2, ?H3, ?H4, ?H5 in *. cbn [Z.add Pos.add Pos.succ] in *. split; [exact T6|].
  pose proof (tail_len _ _ _ T6) as [_ Hlen]. pose proof (len_nonneg rest). unfold decode. change EPOCH_END with 12. change FIXED_LEN with 40.
  rewrite (proj2 (Z.ltb_ge (len payload) 12)) by lia. rewrite (tail_slice payload 0 p0 _ 8 T0) by lia. ok_step. destruct (negb _); [done|].
  rewrite (tail_slice payload 8 p1 _ 12 T1) by lia. ok_step. destruct (_ || _); [done|]. destruct (negb _); [done|].
  rewrite (proj2 (Z.ltb_ge (len payload) 40)) by lia. rewrite (tail_slice payload 12 p2 _ 20 T2) by lia. ok_step.
  rewrite (tail_slice payload 20 p3 _ 28 T3) by lia. ok_step. rewrite (tail_slice payload 28 p4 _ 36 T4) by lia. ok_step.
  rewrite (tail_slice payload 36 p5 _ 40 T5) by lia. ok_step. reflexivity.
Qed.

Lemma decode_short (payload : list byte) : len payload < 40 -> exists e, decode payload = Err e.
Proof.
  intros Hl. unfold decode. change EPOCH_END with 12. change FIXED_LEN with 40. destruct (Z.ltb_spec (len payload) 12); [by eexists|].
  destruct (slice (E:=ManifestDecodeError) payload 0 8) as [magic|e|] eqn:E; ok_step; [|by eexists|exfalso; by apply slice_not_Panic in E; lia].
  destruct (negb _); [by eexists|].
  destruct (slice (E:=ManifestDecodeError) payload 8 12) as [raw|e|] eqn:E2; ok_step; [|by eexists|exfalso; by apply slice_not_Panic in E2; lia].
  destruct (_ || _); [by eexists|]. destruct (negb _); [by eexists|]. rewrite (proj2 (Z.ltb_lt _ _)) by done. by eexists.
Qed.

(** ** Both directions *)

Lemma manifest_encode_Ok m bytes : admits m -> encode m = Ok bytes <-> tiers_ok None (tiers m) /\
  bytes = MANIFEST_MAGIC ++ le_bytes 4 3 ++ le_bytes 8 (ckpt_id m) ++ le_bytes 8 (Lsn.Lsn.to_u64 (begin_lsn m)) ++ le_bytes 8 (key_hash_id m) ++
    le_bytes 4 (len (segments m)) ++ concat (le_bytes 4 <$> segments m) ++ le_bytes 4 (len (tiers m)) ++ tiers_bytes (tiers m).
Proof.
  intros ((_ & _ & _ & _ & Hty) & Hseg & _ & _ & Hns & Hmax). change MAX_SEGMENTS with 1048576 in Hseg. change MAX_TIER_NS with 65536 in Hns.
  unfold encode. rewrite (proj2 (expect_u32_Ok (len (segments m)) (len (segments m)))) by (split; [done|unfold U32_MAX; lia]). ok_step.
  rewrite (proj2 (expect_u32_Ok (len (tiers m)) (len (tiers m)))) by (split; [done|unfold U32_MAX; lia]). ok_step. split.
  - intros H. inv_ok H. apply encode_tiers_Ok in H0 as [? ->]; [|done|done]. by injection H as <-.
  - intros [Hok ->]. by rewrite (proj2 (encode_tiers_Ok None (tiers m) _ Hty Hmax) (conj Hok eq_refl)).
Qed.

Lemma len_segment_bytes segs : len (concat (le_bytes 4 <$> segs)) = 4 * len segs.
Proof. induction segs as [|s segs IH]; [done|]. rewrite fmap_cons. cbn [concat]. rewrite len_app, len_cons, len_le_bytes.  lia. Qed.

Lemma len_files_bytes fs : len (files_bytes fs) = 20 * len fs.
Proof.
  unfold files_bytes. induction fs as [|f fs IH]; [done|]. rewrite fmap_cons. cbn [concat]. rewrite len_app, len_cons.  rewrite IH.
  unfold file_bytes. rewrite !len_app, !len_le_bytes. lia.
Qed.

Lemma len_tiers_bytes ts : Forall (fun t => len (files t) <= MAX_TIER_FILES) ts -> len (tiers_bytes ts) <= 20971536 * len ts.
Proof.
  change MAX_TIER_FILES with 1048576. induction 1 as [|t ts Ht _ IH]; [done|]. unfold tiers_bytes in *. rewrite fmap_cons. cbn [concat].
  rewrite len_app, len_cons.  unfold tier_bytes at 1. rewrite !len_app, !len_le_bytes, len_files_bytes. lia.
Qed.

Lemma get_first {A} (l : list A) : get l 0 = head l.
Proof. by destruct l. Qed.

Lemma manifest_decode_sound payload m : decode payload = Ok m -> admits m /\ encode m = Ok payload.
Proof.
  intros H. destruct (Z.le_gt_cases 40 (len payload)) as [Hl|Hl]; [|by destruct (decode_short payload Hl) as [e He]; rewrite He in H].
  destruct (header_parts payload Hl) as (p0 & p1 & p2 & p3 & p4 & p5 & rest & -> & L0 & L1 & L2 & L3 & L4 & L5).
  destruct (decode_split p0 p1 p2 p3 p4 p5 rest L0 L1 L2 L3 L4 L5) as [Tr E]. rewrite E in H. clear E Hl. unfold decode_rest in H.
  set (payload := p0 ++ _) in *. destruct (bool_decide (p0 = MANIFEST_MAGIC)) eqn:Em; [|done]. apply bool_decide_eq_true in Em. cbn [negb] in H.
  destruct (_ || _); [done|]. destruct (Z.eqb_spec (le_val p1) MANIFEST_EPOCH_V3) as [Ee|]; [|done]. cbn [negb] in H. cbv zeta in H.
  destruct (Z.eqb_spec (le_val p5) 0); [done|]. destruct (Z.ltb_spec MAX_SEGMENTS (le_val p5)); [done|].
  apply bind_Ok in H as (se & [-> _]%ok_or_Ok%checked_add_Some & H). change FIXED_LEN with 40 in H. destruct (Z.ltb_spec (len payload) (le_val p5 * 4 + 40)); [done|].
  apply bind_Ok in H as (raw & Hraw & H). apply bind_Ok in H as ([] & Hasc%check_ascending_Ok & H). apply bind_Ok in H as (first & Hfirst%expect_Ok & H).
  destruct (Z.eqb_spec first (Lsn.Lsn.segment (Lsn.Lsn.from_u64 (le_val p3)))) as [Hfl|]; [|done]. cbn [negb] in H. apply bind_Ok in H as (ts & Hts & [= <-]).
  unfold len in L1, L2, L3, L4, L5. destruct (le_exact 4 p1 ltac:(lia)) as [T1 E1]. destruct (le_exact 8 p2 ltac:(lia)) as [T2 E2].
  destruct (le_exact 8 p3 ltac:(lia)) as [T3 E3]. destruct (le_exact 8 p4 ltac:(lia)) as [T4 E4]. destruct (le_exact 4 p5 ltac:(lia)) as [T5 E5].
  assert (exists q, rest = raw ++ q /\ tail_at payload (le_val p5 * 4 + 40) q) as (q & -> & Tq).
  { apply slice_Ok in Hraw as (x & z & Hx & Hlx & Hlr). destruct Tr as (y & Hy & Hly). rewrite Hy in Hx. apply app_len_inj in Hx as [-> ->]; [|congruence].
    exists z. split; [done|]. exists (x ++ raw). rewrite <- app_assoc. split; [done|]. rewrite len_app. lia. }
  assert (len raw = 4 * Z.of_nat (Z.to_nat (le_val p5))) as Hlr by (apply slice_Ok in Hraw as (? & ? & _ & _ & ?); unfold in_u in T5; lia).
  destruct (chunks_sound _ raw Hlr) as (Ec & Hn & Hty). destruct (decode_tiers_sound payload _ q ts Tq Hts) as (-> & Htt & Htok & Hns & Hmax).
  destruct (Lsn.Lsn.to_from_u64 _ T3) as [Hwf Hto]. set (segs := le_val <$> chunks (Z.to_nat (le_val p5)) raw) in *.
  assert (len segs = le_val p5) as Hls by (unfold len, segs; rewrite length_fmap, Hn; unfold in_u in T5; lia).
  assert (admits {| ckpt_id := le_val p2; begin_lsn := Lsn.Lsn.from_u64 (le_val p3); segments := segs; tiers := ts; key_hash_id := le_val p4 |}) as Had.
  { split; [by split_and!|]. cbn [segments tiers]. unfold in_u in T5. split; [lia|]. split; [done|]. split; [|done].
    rewrite get_first in Hfirst. by rewrite Hfirst, Hfl. }
  split; [done|]. apply manifest_encode_Ok; [done|]. split; [done|]. cbn [ckpt_id begin_lsn segments tiers key_hash_id].
  rewrite Hto, E2, E3, E4, Hls, E5. change 3 with MANIFEST_EPOCH_V3. rewrite <- Ee, E1, Ec, <- Em. done.
Qed.

Lemma decode_complete payload m : admits m -> encode m = Ok payload -> decode payload = Ok m.
Proof.
  intros Had H. apply manifest_encode_Ok in H as [Htok ->]; [|done]. destruct Had as ((Hc & Hlsn & Hk & Hsegs & Htt) & Hns & Hasc & Hfloor & Htn & Hmax).
  change MAX_SEGMENTS with 1048576 in Hns. set (rest := concat _ ++ _).
  destruct (decode_split MANIFEST_MAGIC (le_bytes 4 3) (le_bytes 8 (ckpt_id m)) (le_bytes 8 (Lsn.Lsn.to_u64 (begin_lsn m))) (le_bytes 8 (key_hash_id m))
    (le_bytes 4 (len (segments m))) rest) as [Tr E]; try by rewrite ?len_le_bytes. rewrite E. clear E. set (payload := MANIFEST_MAGIC ++ _) in *.
  rewrite bool_decide_eq_true_2 by done. cbn [negb]. rewrite (le_val_le_bytes_small 4 3) by done. cbn [Z.eqb Pos.eqb orb negb MANIFEST_EPOCH MANIFEST_EPOCH_V2 MANIFEST_EPOCH_V3].
  unfold decode_rest. cbv zeta. rewrite (le_val_le_bytes_small 4 (len (segments m))) by (unfold in_u; lia).
  rewrite (le_val_le_bytes_small 8 (ckpt_id m)), (le_val_le_bytes_small 8 (key_hash_id m)) by done.
  rewrite (le_val_le_bytes_small 8 (Lsn.Lsn.to_u64 (begin_lsn m))) by (by apply Lsn.Lsn.to_u64_range). rewrite Lsn.Lsn.from_to_u64 by done.
  destruct (Z.eqb_spec (len (segments m)) 0); [lia|]. change MAX_SEGMENTS with 1048576. rewrite (proj2 (Z.ltb_ge 1048576 _)) by lia.
  change FIXED_LEN with 40. rewrite (proj2 (checked_add_Some 64 (len (segments m) * 4) 40 (len (segments m) * 4 + 40))) by lia. ok_step.
  assert (tail_at payload (len (segments m) * 4 + 40) (le_bytes 4 (len (tiers m)) ++ tiers_bytes (tiers m))) as Tq.
  { pose proof (tail_app _ _ _ _ Tr) as Tq. rewrite len_segment_bytes in Tq. by replace (len (segments m) * 4 + 40) with (40 + 4 * len (segments m)) by lia. }
  pose proof (tail_len _ _ _ Tq) as [_ Hlen]. pose proof (len_nonneg (le_bytes 4 (len (tiers m)) ++ tiers_bytes (tiers m))).
  rewrite (proj2 (Z.ltb_ge (len payload) _)) by lia. rewrite (tail_slice payload 40 (concat (le_bytes 4 <$> segments m)) _ _ Tr) by (rewrite len_segment_bytes; lia). ok_step.
  replace (Z.to_nat (len (segments m))) with (length (segments m)) by (unfold len; lia). rewrite chunks_complete by done.
  rewrite (proj2 (check_ascending_Ok 0 (segments m)) Hasc). ok_step. rewrite get_first, Hfloor. ok_step. unfold floor. rewrite Z.eqb_refl. cbn [negb].
  rewrite (decode_tiers_complete payload _ (tiers m)); [ok_step; by destruct m| |done|done|done|done|done].
  rewrite len_app, len_le_bytes in Hlen. pose proof (len_tiers_bytes (tiers m) Hmax). change MAX_TIER_NS with 65536 in Htn. lia.
Qed.

Lemma decode_not_Panic payload : decode payload <> Panic.
Proof.
  destruct (Z.le_gt_cases 40 (len payload)) as [Hl|Hl]; [|by destruct (decode_short payload Hl) as [e ->]].
  destruct (header_parts payload Hl) as (p0 & p1 & p2 & p3 & p4 & p5 & rest & -> & L0 & L1 & L2 & L3 & L4 & L5).
  destruct (decode_split p0 p1 p2 p3 p4 p5 rest L0 L1 L2 L3 L4 L5) as [_ ->]. set (payload := p0 ++ _). destruct (negb _); [done|].
  destruct (_ || _); [done|]. destruct (negb _); [done|]. unfold decode_rest. cbv zeta. unfold len in L5. destruct (le_exact 4 p5 ltac:(lia)) as [T5 _].
  destruct (Z.eqb_spec (le_val p5) 0); [done|]. destruct (_ <? _); [done|]. apply bind_not_Panic; [apply ok_or_not_Panic|].
  intros se [-> _]%ok_or_Ok%checked_add_Some. change FIXED_LEN with 40. unfold in_u in T5. destruct (Z.ltb_spec (len payload) (le_val p5 * 4 + 40)); [done|].
  apply bind_not_Panic; [apply slice_not_Panic; lia|]. intros raw (? & ? & _ & _ & Hlr)%slice_Ok.
  apply bind_not_Panic; [apply check_ascending_not_Panic|]. intros [] _.
  destruct (chunks_sound (Z.to_nat (le_val p5)) raw) as (_ & Hn & _); [lia|]. destruct (get_in (le_val <$> chunks (Z.to_nat (le_val p5)) raw) 0) as [first ->].
  { unfold len. rewrite length_fmap, Hn. lia. }
  ok_step. destruct (negb _); [done|]. apply bind_not_Panic; [apply decode_tiers_not_Panic|done].
Qed.

(** ** What a decoded manifest guarantees *)

(** The named ranges of a section are disjoint, in the order of their files, not
    empty, and lie in [[0, flushed)] of the 48-bit address space. *)
Definition tiled (t : TierNsManifest) : Prop :=
  flushed t < 2 ^ 48 /\
  (forall i f, files t !! i = Some f -> 1 <= durable_len f /\ 0 <= base f /\ base f + durable_len f <= flushed t) /\
  forall i j f g, (i < j)%nat -> files t !! i = Some f -> files t !! j = Some g -> id f < id g /\ base f + durable_len f <= base g.

Lemma files_ok_bounds fl pe pid fs i f : files_ok fl pe pid fs -> fs !! i = Some f ->
  1 <= durable_len f /\ pe <= base f /\ base f + durable_len f <= fl /\ forall p, pid = Some p -> p < id f.
Proof.
  revert pe pid i. induction fs as [|g fs IH]; intros pe pid i Hok Hi; [done|]. destruct Hok as (H1 & H2 & H3 & H4 & H5).
  assert (forall p, pid = Some p -> p < id g) as Hid by (intros p ->; by apply Z.ltb_lt). destruct i as [|i]; cbn in Hi.
  - injection Hi as ->. by split_and!.
  - destruct (IH _ _ i H5 Hi) as (? & ? & ? & Hlt). specialize (Hlt _ eq_refl). split_and!; [done|lia|done|]. intros p Hp. specialize (Hid p Hp). lia.
Qed.

Lemma files_ok_order fl pe pid fs i j f g : files_ok fl pe pid fs -> (i < j)%nat -> fs !! i = Some f -> fs !! j = Some g ->
  id f < id g /\ base f + durable_len f <= base g.
Proof.
  revert pe pid i j. induction fs as [|h fs IH]; intros pe pid i j Hok Hij Hi Hj; [done|]. destruct Hok as (_ & _ & _ & _ & H5).
  destruct j as [|j]; [lia|]. destruct i as [|i]; cbn in Hi, Hj.
  - injection Hi as ->. destruct (files_ok_bounds _ _ _ _ _ _ H5 Hj) as (_ & ? & _ & Hlt). split; [by apply Hlt|done].
  - apply (IH _ _ i j H5); [lia|done|done].
Qed.

Lemma tiers_ok_tiled prev ts : tiers_ok prev ts -> Forall tiled ts.
Proof.
  revert prev. induction ts as [|t ts IH]; intros prev Hok; [constructor|]. destruct Hok as (_ & H2 & H3 & H4). constructor; [|by eapply IH].
  split; [done|]. split; [intros i f Hf; by destruct (files_ok_bounds _ _ _ _ _ _ H3 Hf) as (? & ? & ? & _)|].
  intros i j f g. by apply (files_ok_order (flushed t) 0 None).
Qed.

Lemma tiers_ok_sorted prev ts : tiers_ok prev ts -> Sorted Z.lt (ns <$> ts).
Proof.
  revert prev. induction ts as [|t ts IH]; intros prev Hok; [constructor|]. destruct Hok as (_ & _ & _ & H4). rewrite fmap_cons.
  constructor; [by eapply IH|]. destruct ts as [|u ts]; [constructor|]. rewrite fmap_cons. constructor. destruct H4 as (Hab & _). by apply Z.ltb_lt in Hab.
Qed.

(** C34. The manifest's decoder never panics and accepts exactly the bytes
    the encoder writes for an admissible manifest, returning that manifest: one value
    has one encoding. What it returns names strictly ascending namespaces whose file
    ranges are disjoint, not empty and inside the flushed prefix. *)
Theorem manifest_canonical payload :
  decode payload <> Panic /\
  (forall m, decode payload = Ok m <-> admits m /\ encode m = Ok payload) /\
  (forall m, decode payload = Ok m -> Sorted Z.lt (ns <$> tiers m) /\ Forall tiled (tiers m)).
Proof.
  split; [apply decode_not_Panic|]. split.
  - intros m. split; [apply manifest_decode_sound|]. intros [? ?]. by apply decode_complete.
  - intros m [Had He]%manifest_decode_sound. apply manifest_encode_Ok in He as [Hok _]; [|done]. split; [by eapply tiers_ok_sorted|by eapply tiers_ok_tiled].
Qed.

(** The encoder checks the tier sections only: a manifest without segments is encoded
    and refused by the decoder. *)
Lemma empty_manifest_undecodable : exists payload,
  encode (tierless 7 (Lsn.Lsn.new 3 64) [] 1) = Ok payload /\ decode payload = Err NoSegments.
Proof.
  exists match encode (tierless 7 (Lsn.Lsn.new 3 64) [] 1) with Ok payload => payload | _ => [] end. split; vm_compute; reflexivity.
Qed.

(** ** Publication *)

Import SegmentFs.SegmentFs SimDisk.SimDisk SimDiskSpec.SimDiskSpec Envelope.Envelope.

(** C6. Publishing an admissible manifest whose envelope is at most the 64 MiB the
    reader accepts, on a disk that serves its calls, succeeds whatever the directory
    held before, and recovery reads exactly that manifest back after a power cut at
    any later moment. The codec admits larger manifests, which the reader refuses. *)
Theorem published_manifest_survives d shard_dir m payload v vs seed
  (Hw : well_formed d) (Hdir : shard_dir ∈ dirs d) (Hon : ops_until_cut d = None) (Hquiet : quiet d)
  (Hold : holds d (join shard_dir MANIFEST_FILE) v vs)
  (Hm : admits m) (Henc : encode m = Ok payload) (Hfit : MIN_ENVELOPE_LEN + len payload <= MAX_ENVELOPE_LEN) :
  exists d1 d2 d3, write_manifest shard_dir m false false d = (Ok tt, d1) /\ power_cut d1 seed = Ok d2 /\
    read_manifest shard_dir d2 = (Ok (Some m), d3).
Proof.
  destruct (MetaSwap.MetaSwap.swap_ok shard_dir MANIFEST_STAGING_FILE MANIFEST_FILE payload false false d Hw) as (r & d1 & E & (Hw1 & Hst & _) & Hnew & Hwhy).
  destruct r as [e|[]]; [destruct Hwhy as [?|[?|?]]; [done| |done|done|done]|].
  { change MIN_ENVELOPE_LEN with 16 in Hfit. change MAX_ENVELOPE_LEN with 67108864 in Hfit. unfold U32_MAX. lia. }
  destruct Hst as (_ & Hq & _). specialize (Hnew _ _ ltac:(unfold join; by intros H%app_inj_2%proj2) Hold).
  destruct (power_cut_ok d1 seed Hw1) as (d2 & Ecut & Hw2 & Ho2 & _ & Hq2 & Hh2). destruct (Hh2 _ _ _ Hnew) as (u & ->%list_elem_of_singleton & [Hc _]).
  destruct (MetaSwap.MetaSwap.read_ok d2 (join shard_dir MANIFEST_FILE) (Some payload) Hw2 Hc) as (r & d3 & Eread & _ & Hr); [by intros p [= <-]|].
  destruct r as [e|u]; [naive_solver|]. subst u. exists d1, d2, d3. split; [|split; [done|]].
  - unfold write_manifest. rewrite Henc. exact E.
  - unfold read_manifest. rewrite (bind_ok _ _ _ _ _ Eread). rewrite (decode_complete payload m Hm Henc). reflexivity.
Qed.

Definition demo_manifest : Manifest :=
  {| ckpt_id := 7; begin_lsn := Lsn.Lsn.new 3 64; segments := [3; 4; 5];
     tiers := [{| ns := 16; flushed := 9000;
                  files := [{| id := 0; base := 0; durable_len := 4000 |}; {| id := 1; base := 4200; durable_len := 4800 |}] |};
               {| ns := 17; flushed := 0; files := [] |}];
     key_hash_id := 81985529216486895 |}.

Definition demo_payload : list byte := match encode demo_manifest with Ok payload => payload | _ => [] end.

Lemma demo_admits : admits demo_manifest.
Proof. apply (manifest_decode_sound demo_payload). vm_compute. reflexivity. Qed.

Lemma published_manifest_survives_witness : exists d d1 d2 d3, create_dir_all ["shard"] (new 512) = (Ok tt, d) /\
  write_manifest ["shard"] demo_manifest false false d = (Ok tt, d1) /\ power_cut d1 7 = Ok d2 /\
  read_manifest ["shard"] d2 = (Ok (Some demo_manifest), d3).
Proof.
  destruct (MetaSwap.MetaSwap.new_tracks 512 ["shard"] MANIFEST_FILE ltac:(done)) as (d & E & [Hw Hd Hh _ Hs Hq]).
  destruct (published_manifest_survives d ["shard"] demo_manifest demo_payload None [None] 7 Hw Hd (Hs eq_refl) (Hq eq_refl) Hh demo_admits)
    as (d1 & d2 & d3 & H); [vm_compute; reflexivity|vm_compute; discriminate|]. by exists d, d1, d2, d3.
Defined.
End ManifestSpec.
