(* ===== verification/PathProgram.v ===== *)
(** * PathProgram: the path-program bytecode

    [inf-doc/src/path/program.rs] and the syntax of [path/ast.rs]: JSONPath
    selectors compiled to bytes. [encode] is the only writer; [validate] is the
    trust boundary for foreign bytes; [read_op] reads validated bytes in place
    and panics on anything else. The theorem is that the validator accepts
    exactly the encodings of well-formed paths and that [decode] inverts the
    encoder, so the bytes of a program determine its path. *)

From S2P Require Import Prelude Tail Varint Utf8 F64 IndexKey.
Import Varint.

Module PathProgram.

(** ** Syntax *)

Record SliceSpec := { start : option Z; end_ : option Z; step : option Z }.

Inductive Member := MName (name : list byte) | MIndex (i : Z) | MSlice (s : SliceSpec).

Inductive Segment :=
  | Child (name : list byte)
  | ChildAny
  | Index (i : Z)
  | Slice (s : SliceSpec)
  | Union (members : list Member)
  | Descend (inner : Segment).

Record PathAst := { legacy : bool; segments : list Segment }.

Inductive PathErrorKind :=
  | BadSlice | BadUnionMember | TrailingDescend | PathTooLong | PathTooDeep | InvalidUtf8
  | Truncated | BadVersion | BadFlags | BadOpcode | MissingRoot.
Record PathError := { offset : Z; kind : PathErrorKind }.

Definition verr {A} (k : PathErrorKind) (at_ : Z) : outcome PathError A :=
  Err {| offset := at_; kind := k |}.

Definition PROGRAM_BYTES_CEILING : Z := 0xFFFF.
Definition SEGMENTS_MAX : Z := 128.
Definition UNION_MEMBERS_MAX : Z := 16.
Definition PROGRAM_VERSION : Z := 1.
Definition FLAG_LEGACY : Z := 1.
Definition OP_ROOT : Z := 1.
Definition OP_CHILD : Z := 2.
Definition OP_CHILD_ANY : Z := 3.
Definition OP_INDEX : Z := 4.
Definition OP_SLICE : Z := 5.
Definition OP_UNION : Z := 6.
Definition OP_DESCEND : Z := 7.
Definition SLICE_HAS_START : Z := 1.
Definition SLICE_HAS_END : Z := 2.
Definition SLICE_HAS_STEP : Z := 4.

(** [zigzag] and [unzigzag] of [tape.rs], on 64-bit words. *)
Definition zigzag (v : Z) : Z :=
  Z.lxor (wrap 64 (Z.shiftl (wrap 64 v) 1)) (wrap 64 (Z.shiftr v 63)).
Definition unzigzag (u : Z) : Z :=
  cast_signed (Z.lxor (Z.shiftr u 1) (wrap 64 (- Z.land u 1))).

(** ** The encoder *)

Definition name_bytes (name : list byte) : list byte :=
  b8 OP_CHILD :: encode_u64 (len name) ++ name.
Definition index_bytes (i : Z) : list byte := b8 OP_INDEX :: encode_u64 (zigzag i).

Definition presence_bit (o : option Z) (bit : Z) : Z := match o with Some _ => bit | None => 0 end.
Definition encode_slice (s : SliceSpec) : list byte :=
  let presence := Z.lor (Z.lor (presence_bit (start s) SLICE_HAS_START)
                               (presence_bit (end_ s) SLICE_HAS_END))
                        (presence_bit (step s) SLICE_HAS_STEP) in
  b8 OP_SLICE :: b8 presence ::
    concat (map (fun f => encode_u64 (zigzag f)) (omap id [start s; end_ s; step s])).

Definition member_bytes (m : Member) : list byte :=
  match m with MName n => name_bytes n | MIndex i => index_bytes i | MSlice s => encode_slice s end.

Definition union_count (members : list Member) : outcome PathError Z :=
  if (2 <=? len members) && (len members <=? UNION_MEMBERS_MAX) then Ok (len members)
  else verr BadUnionMember 0.

Definition encode_leaf_segment (s : Segment) : outcome PathError (list byte) :=
  match s with
  | Child name => Ok (name_bytes name)
  | ChildAny => Ok [b8 OP_CHILD_ANY]
  | Index i => Ok (index_bytes i)
  | Slice s => Ok (encode_slice s)
  | Union members =>
      count ← union_count members;
      Ok (b8 OP_UNION :: b8 count :: concat (map member_bytes members))
  | Descend _ => Panic
  end.

Definition encode_segment (s : Segment) : outcome PathError (list byte) :=
  match s with
  | Descend inner => bytes ← encode_leaf_segment inner; Ok (b8 OP_DESCEND :: bytes)
  | _ => encode_leaf_segment s
  end.

Fixpoint encode_segments (l : list Segment) : outcome PathError (list byte) :=
  match l with
  | [] => Ok []
  | s :: l => a ← encode_segment s; b ← encode_segments l; Ok (a ++ b)
  end.

Definition encode (ast : PathAst) : outcome PathError (list byte) :=
  body ← encode_segments (segments ast);
  let out := b8 PROGRAM_VERSION :: b8 (if legacy ast then FLAG_LEGACY else 0) :: b8 OP_ROOT :: body in
  if PROGRAM_BYTES_CEILING <=? len out then verr PathTooLong 0 else Ok out.

(** ** Trusted reads *)

Inductive Op :=
  | ORoot
  | OChild (key : list byte)
  | OChildAny
  | OIndex (i : Z)
  | OSlice (s : SliceSpec)
  | OUnion (count members_at : Z)
  | ODescend.

(** [varint::decode_u64(&bytes[at..]).expect(..)]. *)
Definition trusted_varint {E} (bytes : list byte) (at_ : Z) : outcome E (Z * Z) :=
  tail ← slice_from bytes at_;
  expect (decode_u64 tail).

(** One optional field of a slice, when its presence bit is set. *)
Definition read_field {E} (bytes : list byte) (presence bit next : Z) : outcome E (option Z * Z) :=
  if negb (Z.land presence bit =? 0)
  then '(raw, used) ← trusted_varint bytes next; Ok (Some (unzigzag raw), next + used)
  else Ok (None, next).

Definition read_slice {E} (bytes : list byte) (at_ : Z) : outcome E (SliceSpec * Z) :=
  presence ← byte_at bytes (at_ + 1);
  '(s, next) ← read_field bytes presence SLICE_HAS_START (at_ + 2);
  '(e, next) ← read_field bytes presence SLICE_HAS_END next;
  '(t, next) ← read_field bytes presence SLICE_HAS_STEP next;
  Ok ({| start := s; end_ := e; step := t |}, next).

Definition read_leaf {E} (bytes : list byte) (at_ : Z) : outcome E (Op * Z) :=
  op ← byte_at bytes at_;
  if op =? OP_ROOT then Ok (ORoot, at_ + 1)
  else if op =? OP_CHILD then
    '(n, used) ← trusted_varint bytes (at_ + 1);
    let data_at := at_ + 1 + used in
    tail ← slice_from bytes data_at;
    key ← slice tail 0 n;
    Ok (OChild key, data_at + len key)
  else if op =? OP_CHILD_ANY then Ok (OChildAny, at_ + 1)
  else if op =? OP_INDEX then
    '(raw, used) ← trusted_varint bytes (at_ + 1);
    Ok (OIndex (unzigzag raw), at_ + 1 + used)
  else if op =? OP_SLICE then '(s, next) ← read_slice bytes at_; Ok (OSlice s, next)
  else if op =? OP_DESCEND then Ok (ODescend, at_ + 1)
  else Panic.

(** Skip [n] leaves. *)
Fixpoint skip_leaves {E} (bytes : list byte) (n : nat) (at_ : Z) : outcome E Z :=
  match n with
  | O => Ok at_
  | S n => '(_, next) ← read_leaf bytes at_; skip_leaves bytes n next
  end.

Definition read_op {E} (bytes : list byte) (at_ : Z) : outcome E (Op * Z) :=
  op ← byte_at bytes at_;
  if negb (op =? OP_UNION) then read_leaf bytes at_
  else
    count ← byte_at bytes (at_ + 1);
    next ← skip_leaves bytes (Z.to_nat count) (at_ + 2);
    Ok (OUnion count (at_ + 2), next).

(** [UnionRef::member_at]. *)
Fixpoint member_at {E} (bytes : list byte) (at_ : Z) (m : nat) : outcome E Z :=
  match m with
  | O => Ok at_
  | S m => '(_, next) ← read_op bytes at_; member_at bytes next m
  end.

Fixpoint decode_members {E} (bytes : list byte) (n : nat) (at_ : Z) : outcome E (list Member) :=
  match n with
  | O => Ok []
  | S n =>
      '(op, next) ← read_op bytes at_;
      m ← match op with
          | OChild key => Ok (MName key)
          | OIndex i => Ok (MIndex i)
          | OSlice s => Ok (MSlice s)
          | _ => Panic
          end;
      rest ← decode_members bytes n next;
      Ok (m :: rest)
  end.

Definition op_to_segment {E} (bytes : list byte) (op : Op) : outcome E Segment :=
  match op with
  | OChild key => Ok (Child key)
  | OChildAny => Ok ChildAny
  | OIndex i => Ok (Index i)
  | OSlice s => Ok (Slice s)
  | OUnion count at_ => ms ← decode_members bytes (Z.to_nat count) at_; Ok (Union ms)
  | ORoot | ODescend => Panic
  end.

Fixpoint decode_loop (fuel : nat) {E} (bytes : list byte) (at_ : Z) : outcome E (list Segment) :=
  if negb (at_ <? len bytes) then Ok []
  else match fuel with
  | O => Panic
  | S fuel =>
      '(op, next) ← read_op bytes at_;
      '(seg, next) ← match op with
        | ODescend =>
            '(inner, inner_next) ← read_op bytes next;
            s ← op_to_segment bytes inner;
            Ok (Descend s, inner_next)
        | other => s ← op_to_segment bytes other; Ok (s, next)
        end;
      rest ← decode_loop fuel bytes next;
      Ok (seg :: rest)
  end.

Definition is_legacy {E} (bytes : list byte) : outcome E bool :=
  flags ← byte_at bytes 1; Ok (negb (Z.land flags FLAG_LEGACY =? 0)).

Definition decode {E} (bytes : list byte) : outcome E PathAst :=
  legacy ← is_legacy bytes;
  segs ← decode_loop (length bytes) bytes 3;
  Ok {| legacy := legacy; segments := segs |}.

(** ** The validator *)

(** [varint::decode_u64(&bytes[at..]).ok_or(PathError { offset, Truncated })]. *)
Definition read_varint (bytes : list byte) (at_ : Z) : outcome PathError (Z * Z) :=
  tail ← slice_from bytes at_;
  ok_or {| offset := at_; kind := Truncated |} (decode_u64 tail).

Definition validate_field (bytes : list byte) (presence bit next : Z) : outcome PathError Z :=
  if negb (Z.land presence bit =? 0)
  then
    '(raw, used) ← read_varint bytes next;
    if (bit =? SLICE_HAS_STEP) && (unzigzag raw =? 0) then verr BadSlice next else Ok (next + used)
  else Ok next.

Definition validate_selector (bytes : list byte) (at_ : Z) (union_member : bool) : outcome PathError Z :=
  match get bytes at_ with
  | None => verr Truncated at_
  | Some opcode =>
      let opcode := u8 opcode in
      if opcode =? OP_CHILD then
        '(n, used) ← read_varint bytes (at_ + 1);
        let data_at := at_ + 1 + used in
        match checked_add 64 n data_at with
        | Some next =>
            if next <=? len bytes then
              name ← slice bytes data_at next;
              if utf8_valid name then Ok next else verr InvalidUtf8 data_at
            else verr Truncated at_
        | None => verr Truncated at_
        end
      else if opcode =? OP_INDEX then
        '(_, used) ← read_varint bytes (at_ + 1);
        Ok (at_ + 1 + used)
      else if opcode =? OP_SLICE then
        match get bytes (at_ + 1) with
        | None => verr Truncated (at_ + 1)
        | Some presence =>
            let presence := u8 presence in
            if negb (Z.land presence (wrap 8 (Z.lnot 7)) =? 0) then verr BadFlags (at_ + 1)
            else
              next ← validate_field bytes presence SLICE_HAS_START (at_ + 2);
              next ← validate_field bytes presence SLICE_HAS_END next;
              validate_field bytes presence SLICE_HAS_STEP next
        end
      else if (opcode =? OP_CHILD_ANY) && negb union_member then Ok (at_ + 1)
      else verr (if union_member then BadUnionMember else BadOpcode) at_
  end.

Fixpoint validate_members (bytes : list byte) (n : nat) (at_ : Z) : outcome PathError Z :=
  match n with
  | O => Ok at_
  | S n => next ← validate_selector bytes at_ true; validate_members bytes n next
  end.

Fixpoint validate_loop (fuel : nat) (bytes : list byte) (at_ segs : Z) (descend_pending : bool)
    : outcome PathError unit :=
  if negb (at_ <? len bytes)
  then
    if descend_pending then verr TrailingDescend (len bytes)
    else if (segs =? 0) && negb (len bytes =? 3) then verr Truncated at_
    else Ok tt
  else match fuel with
  | O => Panic
  | S fuel =>
      if segs =? SEGMENTS_MAX then verr PathTooDeep at_
      else
        opcode ← byte_at bytes at_;
        if opcode =? OP_DESCEND then
          if descend_pending then verr BadOpcode at_
          else validate_loop fuel bytes (at_ + 1) segs true
        else if opcode =? OP_UNION then
          match get bytes (at_ + 1) with
          | None => verr Truncated (at_ + 1)
          | Some count =>
              let count := u8 count in
              if negb ((2 <=? count) && (count <=? UNION_MEMBERS_MAX))
              then verr BadUnionMember (at_ + 1)
              else
                next ← validate_members bytes (Z.to_nat count) (at_ + 2);
                validate_loop fuel bytes next (segs + 1) false
          end
        else if opcode =? OP_ROOT then verr BadOpcode at_
        else
          next ← validate_selector bytes at_ false;
          validate_loop fuel bytes next (segs + 1) false
  end.

Definition validate (bytes : list byte) : outcome PathError unit :=
  if len bytes <? 3 then verr Truncated (len bytes)
  else if PROGRAM_BYTES_CEILING <=? len bytes then verr PathTooLong 0
  else
    version ← byte_at bytes 0;
    if negb (version =? PROGRAM_VERSION) then verr BadVersion 0
    else
      flags ← byte_at bytes 1;
      if negb (Z.land flags (wrap 8 (Z.lnot FLAG_LEGACY)) =? 0) then verr BadFlags 1
      else
        root ← byte_at bytes 2;
        if negb (root =? OP_ROOT) then verr MissingRoot 2
        else validate_loop (length bytes) bytes 3 0 false.

Definition from_bytes (bytes : list byte) : outcome PathError (list byte) :=
  _ ← validate bytes; Ok bytes.

(** ** Walks over validated bytes *)

(** Does every op from [at] on satisfy [f]? *)
Fixpoint all_ops {E} (fuel : nat) (bytes : list byte) (f : Op -> bool) (at_ : Z) : outcome E bool :=
  if negb (at_ <? len bytes) then Ok true
  else match fuel with
  | O => Panic
  | S fuel =>
      '(op, next) ← read_op bytes at_;
      if f op then all_ops fuel bytes f next else Ok false
  end.

Definition within_index_fence {E} (bytes : list byte) : outcome E bool :=
  all_ops (length bytes) bytes
    (fun op => match op with OChild _ | OChildAny | OIndex _ => true | _ => false end) 3.

(** [simple_steps().is_some()]: only named children and indexes. *)
Definition is_simple {E} (bytes : list byte) : outcome E bool :=
  all_ops (length bytes) bytes
    (fun op => match op with OChild _ | OIndex _ => true | _ => false end) 3.

(** ** Zigzag *)

Lemma lxor_max x : in_u 64 x -> Z.lxor x U64_MAX = U64_MAX - x.
Proof.
  intros Hx. change U64_MAX with (Z.ones 64).
  assert (Z.ldiff x (Z.ones 64) = 0) as Hd.
  { apply Z.bits_inj'. intros i Hi. rewrite Z.ldiff_spec, Z.bits_0, Z.testbit_ones_nonneg by lia.
    destruct (Z.ltb_spec i 64); [apply andb_false_r|]. rewrite andb_true_r.
    unfold in_u in Hx. destruct (Z.eq_dec x 0) as [->|]; [apply Z.bits_0|].
    apply Z.bits_above_log2; [lia|]. apply Z.log2_lt_pow2; [lia|].
    apply Z.lt_le_trans with (2 ^ 64); [lia|]. apply Z.pow_le_mono_r; lia. }
  rewrite Z.sub_nocarry_ldiff by done. apply Z.bits_inj'. intros i Hi.
  apply (f_equal (fun z => Z.testbit z i)) in Hd.
  rewrite Z.ldiff_spec, Z.bits_0 in Hd. rewrite Z.lxor_spec, Z.ldiff_spec.
  by destruct (Z.testbit x i), (Z.testbit (Z.ones 64) i).
Qed.

Lemma zigzag_eq v : in_i64 v -> zigzag v = if v <? 0 then - 2 * v - 1 else 2 * v.
Proof.
  unfold in_i64, zigzag. intros Hv. rewrite Z.shiftl_mul_pow2, Z.shiftr_div_pow2 by lia. unfold wrap.
  rewrite Z.mul_mod_idemp_l by lia. destruct (Z.ltb_spec v 0).
  - replace (v / 2 ^ 63) with (-1) by (apply Z.div_unique with (v + 2 ^ 63); lia).
    change ((-1) mod 2 ^ 64) with U64_MAX.
    rewrite <- (Z_mod_plus_full (v * 2 ^ 1) 1), Z.mod_small by lia.
    rewrite lxor_max by (unfold in_u; lia). unfold U64_MAX. lia.
  - rewrite Z.div_small, (Z.mod_small 0), Z.lxor_0_r, Z.mod_small by lia. lia.
Qed.

Lemma unzigzag_eq u : in_u 64 u -> unzigzag u = if Z.odd u then - (u / 2) - 1 else u / 2.
Proof.
  unfold in_u, unzigzag. intros Hu. rewrite Z.shiftr_div_pow2, land_1_mod, Zmod_odd by lia.
  change (2 ^ 1) with 2.
  assert (0 <= u / 2 < 2 ^ 63) by (split; [apply Z.div_pos; lia|apply Z.div_lt_upper_bound; lia]).
  unfold cast_signed. destruct (Z.odd u).
  - change (wrap 64 (- (1))) with U64_MAX. rewrite lxor_max by (unfold in_u; lia).
    unfold U64_MAX. case Z.ltb_spec; lia.
  - change (wrap 64 (- 0)) with 0. rewrite Z.lxor_0_r. case Z.ltb_spec; lia.
Qed.

Lemma zigzag_range v : in_i64 v -> in_u 64 (zigzag v).
Proof. intros H. rewrite zigzag_eq by done. unfold in_i64, in_u in *. case Z.ltb_spec; lia. Qed.

Lemma unzigzag_zigzag v : in_i64 v -> unzigzag (zigzag v) = v.
Proof.
  intros H. rewrite unzigzag_eq by by apply zigzag_range. rewrite zigzag_eq by done.
  unfold in_i64 in H. destruct (Z.ltb_spec v 0).
  - replace (- 2 * v - 1) with (1 + 2 * (- v - 1)) by lia.
    rewrite Z.odd_add_mul_2. cbn [Z.odd]. rewrite Z.mul_comm, Z.div_add by lia. change (1 / 2) with 0. lia.
  - rewrite Z.odd_mul. cbn [Z.odd andb]. rewrite Z.mul_comm, Z.div_mul by lia. done.
Qed.

Lemma unzigzag_range u : in_u 64 u -> in_i64 (unzigzag u).
Proof.
  intros H. rewrite unzigzag_eq by done. unfold in_i64, in_u in *.
  assert (0 <= u / 2 < 2 ^ 63) by (split; [apply Z.div_pos; lia|apply Z.div_lt_upper_bound; lia]).
  destruct (Z.odd u); lia.
Qed.

Lemma zigzag_unzigzag u : in_u 64 u -> zigzag (unzigzag u) = u.
Proof.
  intros H. rewrite zigzag_eq by by apply unzigzag_range. rewrite unzigzag_eq by done.
  unfold in_u in H. pose proof (Z.div_mod u 2 ltac:(lia)) as E. rewrite Zmod_odd in E.
  assert (0 <= u / 2) by (apply Z.div_pos; lia).
  destruct (Z.odd u); case Z.ltb_spec; lia.
Qed.

(** ** Well-formed paths and their bytes *)

Definition wf_field (o : option Z) : Prop := match o with Some v => in_i64 v | None => True end.
Definition wf_slice (s : SliceSpec) : Prop :=
  wf_field (start s) /\ wf_field (end_ s) /\ wf_field (step s) /\ step s <> Some 0.
Definition wf_name (n : list byte) : Prop := utf8_valid n = true /\ in_u 64 (len n).
Definition wf_member (m : Member) : Prop :=
  match m with MName n => wf_name n | MIndex i => in_i64 i | MSlice s => wf_slice s end.
Definition wf_leaf (s : Segment) : Prop :=
  match s with
  | Child n => wf_name n
  | ChildAny => True
  | Index i => in_i64 i
  | Slice s => wf_slice s
  | Union ms => 2 <= len ms <= UNION_MEMBERS_MAX /\ Forall wf_member ms
  | Descend _ => False
  end.
Definition wf_segment (s : Segment) : Prop :=
  match s with Descend inner => wf_leaf inner | _ => wf_leaf s end.
Definition wf_ast (ast : PathAst) : Prop :=
  Forall wf_segment (segments ast) /\ len (segments ast) <= SEGMENTS_MAX.

Definition leaf_bytes (s : Segment) : list byte :=
  match s with
  | Child n => name_bytes n
  | ChildAny => [b8 OP_CHILD_ANY]
  | Index i => index_bytes i
  | Slice s => encode_slice s
  | Union ms => b8 OP_UNION :: b8 (len ms) :: concat (map member_bytes ms)
  | Descend _ => []
  end.
Definition seg_bytes (s : Segment) : list byte :=
  match s with Descend inner => b8 OP_DESCEND :: leaf_bytes inner | _ => leaf_bytes s end.
Definition segs_bytes (l : list Segment) : list byte := concat (map seg_bytes l).

(** A member as a segment of its own. *)
Definition member_segment (m : Member) : Segment :=
  match m with MName n => Child n | MIndex i => Index i | MSlice s => Slice s end.

(** ** Reading varints *)

Lemma tail_varint {E} bytes a v q :
  tail_at bytes a (encode_u64 v ++ q) -> in_u 64 v ->
  trusted_varint (E:=E) bytes a = Ok (v, len (encode_u64 v)).
Proof. intros H Hv. unfold trusted_varint. rewrite (tail_from _ _ _ H). ok_step. by rewrite decode_encode. Qed.

Lemma tail_read_varint bytes a v q :
  tail_at bytes a (encode_u64 v ++ q) -> in_u 64 v ->
  read_varint bytes a = Ok (v, len (encode_u64 v)).
Proof. intros H Hv. unfold read_varint. rewrite (tail_from _ _ _ H). ok_step. by rewrite decode_encode. Qed.

(** What a successful checked read says of the bytes. *)
Lemma path_varint_Ok bytes a q v n :
  tail_at bytes a q -> read_varint bytes a = Ok (v, n) ->
  in_u 64 v /\ n = len (encode_u64 v) /\ exists r, q = encode_u64 v ++ r.
Proof.
  intros H. unfold read_varint. rewrite (tail_from _ _ _ H). ok_step.
  intros Hv%ok_or_Ok. by apply decode_sound.
Qed.

Lemma u8_op z : 0 <= z < 256 -> u8 (b8 z) = z.
Proof. apply u8_b8_small. Qed.

(** ** Ops *)

Definition member_op (m : Member) : Op :=
  match m with MName n => OChild n | MIndex i => OIndex i | MSlice s => OSlice s end.

Definition field_bytes (o : option Z) : list byte :=
  match o with Some v => encode_u64 (zigzag v) | None => [] end.

Definition presence_of (s : SliceSpec) : Z :=
  Z.lor (Z.lor (presence_bit (start s) SLICE_HAS_START) (presence_bit (end_ s) SLICE_HAS_END))
        (presence_bit (step s) SLICE_HAS_STEP).

Lemma encode_slice_eq s :
  encode_slice s = b8 OP_SLICE :: b8 (presence_of s) ::
    field_bytes (start s) ++ field_bytes (end_ s) ++ field_bytes (step s).
Proof.
  unfold encode_slice, presence_of. do 2 f_equal.
  destruct (start s), (end_ s), (step s); cbn; by rewrite ?app_nil_r.
Qed.

Lemma presence_bits s :
  0 <= presence_of s < 8 /\
  (Z.land (presence_of s) SLICE_HAS_START =? 0) = bool_decide (start s = None) /\
  (Z.land (presence_of s) SLICE_HAS_END =? 0) = bool_decide (end_ s = None) /\
  (Z.land (presence_of s) SLICE_HAS_STEP =? 0) = bool_decide (step s = None).
Proof. unfold presence_of. destruct (start s), (end_ s), (step s); cbn; split_and!; done. Qed.

Lemma read_field_tail {E} bytes presence bit a o q :
  tail_at bytes a (field_bytes o ++ q) -> wf_field o ->
  (Z.land presence bit =? 0) = bool_decide (o = None) ->
  read_field (E:=E) bytes presence bit a = Ok (o, a + len (field_bytes o)).
Proof.
  intros H Hw Hb. unfold read_field. rewrite Hb. destruct o as [v|]; cbn in *.
  - rewrite (tail_varint _ _ _ _ H) by by apply zigzag_range. ok_step. by rewrite unzigzag_zigzag.
  - by rewrite Z.add_0_r.
Qed.

Lemma read_leaf_member {E} bytes a m q :
  tail_at bytes a (member_bytes m ++ q) -> wf_member m ->
  read_leaf (E:=E) bytes a = Ok (member_op m, a + len (member_bytes m)).
Proof.
  intros H Hw. destruct m as [n|i|s]; cbn [member_bytes member_op] in *; unfold read_leaf.
  - destruct Hw as [_ Hn]. unfold name_bytes in *. cbn [app] in H. rewrite (tail_byte _ _ _ _ H). ok_step.
    change (u8 (b8 OP_CHILD)) with 2. cbn [Z.eqb Pos.eqb].
    apply tail_cons in H. rewrite <- app_assoc in H. rewrite (tail_varint _ _ _ _ H) by done. ok_step.
    apply tail_app in H. rewrite (tail_from _ _ _ H). ok_step.
    assert (slice (E:=E) (n ++ q) 0 (len n) = Ok n) as -> by (unfold slice; by rewrite get_range_app_0).
    ok_step. do 2 f_equal. lens.
  - unfold index_bytes in *. cbn [app] in H. rewrite (tail_byte _ _ _ _ H). ok_step.
    change (u8 (b8 OP_INDEX)) with 4. cbn [Z.eqb Pos.eqb].
    apply tail_cons in H. rewrite (tail_varint _ _ _ _ H) by by apply zigzag_range. ok_step.
    rewrite unzigzag_zigzag by done. do 2 f_equal. lens.
  - rewrite encode_slice_eq in *. destruct Hw as (W1 & W2 & W3 & _).
    destruct (presence_bits s) as (Hp & P1 & P2 & P3).
    cbn [app] in H. rewrite <- !app_assoc in H. rewrite (tail_byte _ _ _ _ H). ok_step.
    change (u8 (b8 OP_SLICE)) with 5. cbn [Z.eqb Pos.eqb]. unfold read_slice.
    apply tail_cons in H. rewrite (tail_byte _ _ _ _ H). ok_step. rewrite u8_op by lia.
    apply tail_cons in H. rewrite <- Z.add_assoc in H. change (1 + 1) with 2 in H.
    rewrite (read_field_tail _ _ _ _ _ _ H W1 P1). ok_step.
    apply tail_app in H. rewrite (read_field_tail _ _ _ _ _ _ H W2 P2). ok_step.
    apply tail_app in H. rewrite (read_field_tail _ _ _ _ _ _ H W3 P3). ok_step.
    destruct s. cbn [start end_ step] in *. do 2 f_equal. lens.
Qed.

Lemma member_bytes_cons m : exists b r, member_bytes m = b :: r /\ u8 b <> OP_UNION /\
  u8 b <> OP_DESCEND /\ u8 b <> OP_ROOT.
Proof. destruct m; (do 2 eexists; split; [done|]); done. Qed.

Lemma read_op_member {E} bytes a m q :
  tail_at bytes a (member_bytes m ++ q) -> wf_member m ->
  read_op (E:=E) bytes a = Ok (member_op m, a + len (member_bytes m)).
Proof.
  intros H Hw. pose proof H as H'. destruct (member_bytes_cons m) as (b & r & E1 & Hb & _).
  rewrite E1 in H'. cbn [app] in H'. unfold read_op. rewrite (tail_byte _ _ _ _ H'). ok_step.
  rewrite (proj2 (Z.eqb_neq _ _) Hb). cbn [negb]. by apply (read_leaf_member _ _ _ q).
Qed.

Lemma skip_leaves_members {E} bytes ms a q :
  tail_at bytes a (concat (map member_bytes ms) ++ q) -> Forall wf_member ms ->
  skip_leaves (E:=E) bytes (length ms) a = Ok (a + len (concat (map member_bytes ms))).
Proof.
  revert a. induction ms as [|m ms IH]; intros a H Hw; cbn [length skip_leaves map concat] in *.
  { by rewrite Z.add_0_r. }
  inversion Hw; subst. rewrite <- app_assoc in H. rewrite (read_leaf_member _ _ _ _ H) by done. ok_step.
  apply tail_app in H. rewrite IH by done. f_equal. lens.
Qed.

Definition leaf_op (a : Z) (s : Segment) : Op :=
  match s with
  | Child n => OChild n
  | ChildAny => OChildAny
  | Index i => OIndex i
  | Slice s => OSlice s
  | Union ms => OUnion (len ms) (a + 2)
  | Descend _ => ODescend
  end.

Lemma leaf_as_member s :
  wf_leaf s -> (exists m, s = member_segment m /\ wf_member m /\ leaf_bytes s = member_bytes m) \/
  s = ChildAny \/ exists ms, s = Union ms.
Proof.
  destruct s as [n| |i|sl|ms|]; intros H; try done; eauto.
  - left. by exists (MName n).
  - left. by exists (MIndex i).
  - left. by exists (MSlice sl).
Qed.

Lemma read_op_leaf {E} bytes a s q :
  tail_at bytes a (leaf_bytes s ++ q) -> wf_leaf s ->
  read_op (E:=E) bytes a = Ok (leaf_op a s, a + len (leaf_bytes s)).
Proof.
  intros H Hw. destruct (leaf_as_member s Hw) as [(m & -> & Hm & E1)|[->|[ms ->]]].
  - rewrite E1 in *. rewrite (read_op_member _ _ _ _ H) by done. by destruct m.
  - cbn [leaf_bytes app] in H. unfold read_op, read_leaf. by rewrite (tail_byte _ _ _ _ H).
  - destruct Hw as [Hc Hf]. cbn [leaf_bytes app leaf_op] in *. unfold read_op.
    rewrite (tail_byte _ _ _ _ H). ok_step. change (u8 (b8 OP_UNION)) with 6. cbn [Z.eqb Pos.eqb negb].
    apply tail_cons in H. rewrite (tail_byte _ _ _ _ H). ok_step.
    unfold UNION_MEMBERS_MAX in Hc. rewrite u8_op by lia. apply tail_cons in H.
    rewrite <- Z.add_assoc in H.
    replace (Z.to_nat (len ms)) with (length ms) by (unfold len; lia).
    rewrite (skip_leaves_members _ _ _ _ H) by done. ok_step. do 2 f_equal. lens.
Qed.

Lemma member_at_members {E} bytes ms a q j :
  tail_at bytes a (concat (map member_bytes ms) ++ q) -> Forall wf_member ms -> (j <= length ms)%nat ->
  member_at (E:=E) bytes a j = Ok (a + len (concat (map member_bytes (take j ms)))).
Proof.
  revert a j. induction ms as [|m ms IH]; intros a [|j] H Hw Hj; cbn [length] in Hj; try lia;
    cbn [member_at take map concat]; try (by rewrite Z.add_0_r).
  inversion Hw; subst. cbn [map concat] in H. rewrite <- app_assoc in H.
  rewrite (read_op_member _ _ _ _ H) by done. ok_step. apply tail_app in H.
  rewrite IH by (done || lia). f_equal. lens.
Qed.

Lemma decode_members_bytes {E} bytes ms a q :
  tail_at bytes a (concat (map member_bytes ms) ++ q) -> Forall wf_member ms ->
  decode_members (E:=E) bytes (length ms) a = Ok ms.
Proof.
  revert a. induction ms as [|m ms IH]; intros a H Hw; cbn [length decode_members map concat] in *; [done|].
  inversion Hw; subst. rewrite <- app_assoc in H. rewrite (read_op_member _ _ _ _ H) by done. ok_step.
  apply tail_app in H. destruct m; cbn [member_op]; ok_step; by rewrite IH.
Qed.

Lemma op_to_segment_leaf {E} bytes a s q :
  tail_at bytes a (leaf_bytes s ++ q) -> wf_leaf s -> op_to_segment (E:=E) bytes (leaf_op a s) = Ok s.
Proof.
  intros H Hw. destruct s as [n| |i|sl|ms|]; try done. cbn [leaf_op op_to_segment].
  destruct Hw as [_ Hf]. cbn [leaf_bytes app] in H. do 2 apply tail_cons in H.
  rewrite <- Z.add_assoc in H.
  replace (Z.to_nat (len ms)) with (length ms) by (unfold len; lia). by rewrite (decode_members_bytes _ _ _ _ H).
Qed.

Lemma leaf_bytes_cons s : wf_leaf s -> exists b r, leaf_bytes s = b :: r.
Proof. destruct s; try done; intros; (do 2 eexists; done). Qed.

Lemma segment_cases s :
  wf_segment s -> (exists inner, s = Descend inner /\ wf_leaf inner) \/ (wf_leaf s /\ seg_bytes s = leaf_bytes s).
Proof. destruct s; cbn; eauto. Qed.

Lemma seg_bytes_cons s : wf_segment s -> exists b r, seg_bytes s = b :: r.
Proof.
  intros [(inner & -> & _)|[Hl ->]]%segment_cases; [by do 2 eexists|by apply leaf_bytes_cons].
Qed.

Lemma decode_loop_segs {E} bytes l a fuel :
  tail_at bytes a (segs_bytes l) -> Forall wf_segment l -> (length l <= fuel)%nat ->
  decode_loop (E:=E) fuel bytes a = Ok l.
Proof.
  revert a fuel. induction l as [|s l IH]; intros a fuel H Hw Hf.
  { apply tail_len in H as [_ H]. change (segs_bytes []) with (@nil byte) in H. rewrite len_nil in H.
    destruct fuel; cbn [decode_loop]; by rewrite (proj2 (Z.ltb_ge a (len bytes))) by lia. }
  inversion Hw as [|? ? Hs Hl]; subst. destruct fuel as [|fuel]; cbn [length] in Hf; [lia|].
  unfold segs_bytes in H. cbn [map concat] in H. fold (segs_bytes l) in H. cbn [decode_loop].
  assert (a < len bytes) as Ha.
  { apply tail_len in H as [_ H]. destruct (seg_bytes_cons s Hs) as (b & r & Eb). rewrite Eb in H. lens. }
  rewrite (proj2 (Z.ltb_lt _ _) Ha). cbn [negb].
  destruct (segment_cases s Hs) as [(inner & -> & Hi)|[Hi Es]].
  - cbn [seg_bytes app] in H. assert (read_op (E:=E) bytes a = Ok (ODescend, a + 1)) as ->.
    { unfold read_op, read_leaf. by rewrite (tail_byte _ _ _ _ H). }
    ok_step. apply tail_cons in H. rewrite (read_op_leaf _ _ _ _ H) by done. ok_step.
    rewrite (op_to_segment_leaf _ _ _ _ H) by done. ok_step. apply tail_app in H.
    by rewrite IH by (done || lia).
  - rewrite Es in H. rewrite (read_op_leaf _ _ _ _ H) by done. ok_step.
    pose proof (op_to_segment_leaf (E:=E) _ _ _ _ H Hi) as Ho. apply tail_app in H.
    destruct s; try done; cbn [leaf_op] in *; rewrite Ho; ok_step; by rewrite IH by (done || lia).
Qed.

(** ** The encoder on well-formed paths *)

Lemma encode_leaf_Ok s : wf_leaf s -> encode_leaf_segment s = Ok (leaf_bytes s).
Proof.
  destruct s as [n| |i|sl|ms|]; intros H; try done. cbn [encode_leaf_segment leaf_bytes].
  destruct H as [[H1 H2] _]. unfold union_count.
  by rewrite (proj2 (Z.leb_le _ _) H1), (proj2 (Z.leb_le _ _) H2).
Qed.

Lemma encode_segments_Ok l : Forall wf_segment l -> encode_segments l = Ok (segs_bytes l).
Proof.
  induction 1 as [|s l Hs _ IH]; [done|]. cbn [encode_segments].
  assert (encode_segment s = Ok (seg_bytes s)) as ->.
  { destruct (segment_cases s Hs) as [(inner & -> & Hi)|[Hi Es]].
    - cbn [encode_segment]. by rewrite encode_leaf_Ok.
    - rewrite Es, <- encode_leaf_Ok by done. by destruct s. }
  ok_step. by rewrite IH.
Qed.

Definition program_bytes (ast : PathAst) : list byte :=
  b8 PROGRAM_VERSION :: b8 (if legacy ast then FLAG_LEGACY else 0) :: b8 OP_ROOT :: segs_bytes (segments ast).

Lemma encode_Ok ast :
  wf_ast ast -> encode ast =
    if PROGRAM_BYTES_CEILING <=? len (program_bytes ast) then verr PathTooLong 0 else Ok (program_bytes ast).
Proof. intros [Hs _]. unfold encode. by rewrite encode_segments_Ok. Qed.

Lemma segs_bytes_length l : Forall wf_segment l -> (length l <= length (segs_bytes l))%nat.
Proof.
  induction 1 as [|s l Hs _ IH]; [done|]. unfold segs_bytes in *. cbn [map concat length].
  destruct (seg_bytes_cons s Hs) as (b & r & ->). rewrite length_app. cbn. lia.
Qed.

Lemma program_tail ast : tail_at (program_bytes ast) 3 (segs_bytes (segments ast)).
Proof. by exists (take 3 (program_bytes ast)). Qed.

Lemma decode_program {E} ast : wf_ast ast -> decode (E:=E) (program_bytes ast) = Ok ast.
Proof.
  intros [Hs _]. unfold decode. assert (is_legacy (E:=E) (program_bytes ast) = Ok (legacy ast)) as ->.
  { unfold is_legacy. rewrite (tail_byte _ 1 (b8 (if legacy ast then FLAG_LEGACY else 0)) (b8 OP_ROOT :: segs_bytes (segments ast)));
      [by destruct (legacy ast)|by exists [b8 PROGRAM_VERSION]]. }
  ok_step. rewrite (decode_loop_segs _ (segments ast)); [by destruct ast|apply program_tail|done|].
  pose proof (segs_bytes_length _ Hs). cbn [program_bytes length]. lia.
Qed.

(** ** The validator accepts exactly the encodings *)

Section validator.
Context (bytes : list byte) (Hsmall : len bytes < PROGRAM_BYTES_CEILING).

Lemma validate_field_tail presence bit a o q :
  tail_at bytes a (field_bytes o ++ q) -> wf_field o -> (bit = SLICE_HAS_STEP -> o <> Some 0) ->
  (Z.land presence bit =? 0) = bool_decide (o = None) ->
  validate_field bytes presence bit a = Ok (a + len (field_bytes o)).
Proof.
  intros H Hw H0 Hb. unfold validate_field. rewrite Hb. destruct o as [v|]; cbn in *.
  - rewrite (tail_read_varint _ _ _ _ H) by by apply zigzag_range. ok_step.
    rewrite unzigzag_zigzag by done. destruct (Z.eqb_spec bit SLICE_HAS_STEP) as [Es|], (Z.eqb_spec v 0) as [->|]; try done.
    by destruct (H0 Es).
  - by rewrite Z.add_0_r.
Qed.

Lemma validate_member a m q um :
  tail_at bytes a (member_bytes m ++ q) -> wf_member m ->
  validate_selector bytes a um = Ok (a + len (member_bytes m)).
Proof.
  intros H Hw. unfold validate_selector. pose proof (tail_len _ _ _ H) as [Ha Hl].
  destruct m as [n|i|s]; cbn [member_bytes] in *.
  - destruct Hw as [Hu Hn]. unfold name_bytes in *. cbn [app] in H. rewrite (tail_get _ _ _ H). cbn [head].
    change (u8 (b8 OP_CHILD)) with 2. cbn [Z.eqb Pos.eqb]. cbv zeta.
    apply tail_cons in H. rewrite <- app_assoc in H. rewrite (tail_read_varint _ _ _ _ H) by done. ok_step.
    apply tail_app in H. unfold PROGRAM_BYTES_CEILING in Hsmall.
    rewrite (proj2 (checked_add_Some 64 _ _ (len n + (a + 1 + len (encode_u64 (len n)))))) by lens.
    rewrite (proj2 (Z.leb_le _ _)) by lens. rewrite (tail_slice _ _ _ _ _ H) by lia. ok_step. rewrite Hu.
    f_equal. lens.
  - unfold index_bytes in *. cbn [app] in H. rewrite (tail_get _ _ _ H). cbn [head].
    change (u8 (b8 OP_INDEX)) with 4. cbn [Z.eqb Pos.eqb]. cbv zeta.
    apply tail_cons in H. rewrite (tail_read_varint _ _ _ _ H) by by apply zigzag_range. ok_step. f_equal. lens.
  - rewrite encode_slice_eq in *. destruct Hw as (W1 & W2 & W3 & W4).
    destruct (presence_bits s) as (Hp & P1 & P2 & P3). cbn [app] in H. rewrite <- !app_assoc in H.
    rewrite (tail_get _ _ _ H). cbn [head]. change (u8 (b8 OP_SLICE)) with 5. cbn [Z.eqb Pos.eqb]. cbv zeta.
    apply tail_cons in H. rewrite (tail_get _ _ _ H). cbn [head]. rewrite u8_op by lia.
    assert (Z.land (presence_of s) (wrap 8 (Z.lnot 7)) = 0) as ->.
    { unfold presence_of. by destruct (start s), (end_ s), (step s). }
    cbn [Z.eqb negb]. apply tail_cons in H. rewrite <- Z.add_assoc in H. change (1 + 1) with 2 in H.
    rewrite (validate_field_tail _ _ _ _ _ H W1) by done. ok_step. apply tail_app in H.
    rewrite (validate_field_tail _ _ _ _ _ H W2) by done. ok_step. apply tail_app in H.
    rewrite (validate_field_tail _ _ _ _ _ H W3) by done. f_equal. lens.
Qed.

Lemma validate_field_Ok presence bit a q next :
  tail_at bytes a q -> validate_field bytes presence bit a = Ok next ->
  exists o r, q = field_bytes o ++ r /\ next = a + len (field_bytes o) /\ wf_field o /\
    (bit = SLICE_HAS_STEP -> o <> Some 0) /\ (Z.land presence bit =? 0) = bool_decide (o = None).
Proof.
  intros H. unfold validate_field. destruct (Z.land presence bit =? 0); cbn [negb].
  - intros [= <-]. exists None, q. cbn [field_bytes app]. rewrite len_nil, Z.add_0_r. by split_and!.
  - intros Hv. apply bind_Ok in Hv as ([raw used] & Hr & Hv).
    apply (path_varint_Ok _ _ _ _ _ H) in Hr as (Hu & -> & r & ->).
    destruct ((bit =? SLICE_HAS_STEP) && (unzigzag raw =? 0)) eqn:E0; [done|]. injection Hv as <-.
    exists (Some (unzigzag raw)), r. cbn [field_bytes]. rewrite zigzag_unzigzag by done.
    split_and!; try done; [by apply unzigzag_range|].
    intros Es [= Ez]. by rewrite Es, Ez in E0.
Qed.

Lemma validate_selector_Ok a q um next :
  tail_at bytes a q -> validate_selector bytes a um = Ok next ->
  exists s r, q = leaf_bytes s ++ r /\ next = a + len (leaf_bytes s) /\ wf_leaf s /\
    ((exists m, s = member_segment m /\ wf_member m /\ leaf_bytes s = member_bytes m) \/ (s = ChildAny /\ um = false)).
Proof.
  intros H. unfold validate_selector. rewrite (tail_get _ _ _ H). destruct q as [|b q]; [done|]. cbn [head]. cbv zeta.
  pose proof (tail_cons _ _ _ _ H) as H1. pose proof (tail_len _ _ _ H) as [Ha _].
  destruct (Z.eqb_spec (u8 b) OP_CHILD) as [Eb|_]; [|destruct (Z.eqb_spec (u8 b) OP_INDEX) as [Eb|_];
    [|destruct (Z.eqb_spec (u8 b) OP_SLICE) as [Eb|_];
    [|destruct (Z.eqb_spec (u8 b) OP_CHILD_ANY) as [Eb|_]; cbn [andb negb]; [destruct um; cbn [negb]; [done|]|done]]]].
  all: assert (b = b8 (u8 b)) as Eb8 by (symmetry; apply b8_u8); rewrite Eb in Eb8; subst b.
  - intros Hv. apply bind_Ok in Hv as ([n used] & Hr & Hv).
    apply (path_varint_Ok _ _ _ _ _ H1) in Hr as (Hu & -> & r & ->). cbv zeta in Hv.
    apply tail_app in H1. destruct (checked_add _ _ _) as [e|] eqn:Ee; [|done].
    apply checked_add_Some in Ee as [-> _]. destruct (Z.leb_spec (n + (a + 1 + len (encode_u64 n))) (len bytes)) as [Hl|]; [|done].
    assert (exists name r', r = name ++ r' /\ len name = n) as (name & r' & -> & <-).
    { pose proof (tail_len _ _ _ H1) as [_ E1]. unfold in_u in Hu. exists (take (Z.to_nat n) r), (drop (Z.to_nat n) r).
      rewrite take_drop. split; [done|]. lens. }
    rewrite (tail_slice _ _ _ _ _ H1) in Hv by lia. cbn [mbind outcome_bind] in Hv.
    destruct (utf8_valid name) eqn:Hutf; [|done]. injection Hv as <-.
    exists (Child name), r'. cbn [leaf_bytes]. unfold name_bytes. cbn [app]. rewrite <- app_assoc.
    split_and!; try done; [lens|]. left. by exists (MName name).
  - intros Hv. apply bind_Ok in Hv as ([raw used] & Hr & Hv).
    apply (path_varint_Ok _ _ _ _ _ H1) in Hr as (Hu & -> & r & ->). injection Hv as <-.
    exists (Index (unzigzag raw)), r. cbn [leaf_bytes]. unfold index_bytes. rewrite zigzag_unzigzag by done.
    split_and!; try done; [lens|by apply unzigzag_range|]. left. exists (MIndex (unzigzag raw)).
    cbn. unfold index_bytes. rewrite zigzag_unzigzag by done. split_and!; try done. by apply unzigzag_range.
  - rewrite (tail_get _ _ _ H1). destruct q as [|p q]; [done|]. cbn [head].
    destruct (Z.eqb_spec (Z.land (u8 p) (wrap 8 (Z.lnot 7))) 0) as [Hp|]; [|done]. cbn [negb]. intros Hv.
    apply bind_Ok in Hv as (n1 & V1 & Hv). apply bind_Ok in Hv as (n2 & V2 & Hv).
    apply tail_cons in H1. rewrite <- Z.add_assoc in H1. change (1 + 1) with 2 in H1.
    apply (validate_field_Ok _ _ _ _ _ H1) in V1 as (o1 & r1 & -> & -> & W1 & _ & P1). apply tail_app in H1.
    apply (validate_field_Ok _ _ _ _ _ H1) in V2 as (o2 & r2 & -> & -> & W2 & _ & P2). apply tail_app in H1.
    apply (validate_field_Ok _ _ _ _ _ H1) in Hv as (o3 & r3 & -> & -> & W3 & W4 & P3).
    set (s := {| start := o1; end_ := o2; step := o3 |}).
    assert (wf_slice s) as Hs by (unfold wf_slice; cbn [start end_ step s]; split_and!; auto).
    assert (p = b8 (presence_of s)) as ->.
    { unfold presence_of, SLICE_HAS_START, SLICE_HAS_END, SLICE_HAS_STEP in *. cbn [start end_ step s].
      destruct o1, o2, o3; cbn in P1, P2, P3 |- *; destruct p; try discriminate Hp; try discriminate P1; try discriminate P2; try discriminate P3; reflexivity. }
    assert (leaf_bytes (Slice s) = b8 OP_SLICE :: b8 (presence_of s) :: field_bytes o1 ++ field_bytes o2 ++ field_bytes o3) as El by apply encode_slice_eq.
    exists (Slice s), r3. rewrite El. cbn [app]. rewrite <- !app_assoc.
    split_and!; try done; [lens|]. left. by exists (MSlice s).
  - intros [= <-]. exists ChildAny, q. split_and!; try done. by right.
Qed.

Lemma validate_members_tail a ms q :
  tail_at bytes a (concat (map member_bytes ms) ++ q) -> Forall wf_member ms ->
  validate_members bytes (length ms) a = Ok (a + len (concat (map member_bytes ms))).
Proof.
  revert a. induction ms as [|m ms IH]; intros a H Hw; cbn [length validate_members map concat] in *.
  { by rewrite Z.add_0_r. }
  inversion Hw; subst. rewrite <- app_assoc in H. rewrite (validate_member _ _ _ _ H) by done. ok_step.
  apply tail_app in H. rewrite IH by done. f_equal. lens.
Qed.

Lemma validate_members_Ok n a q next :
  tail_at bytes a q -> validate_members bytes n a = Ok next ->
  exists ms r, q = concat (map member_bytes ms) ++ r /\ next = a + len (concat (map member_bytes ms)) /\
    Forall wf_member ms /\ length ms = n.
Proof.
  revert a q. induction n as [|n IH]; intros a q H Hv; cbn [validate_members] in Hv.
  { injection Hv as <-. exists [], q. cbn [map concat app]. rewrite len_nil, Z.add_0_r. by split_and!. }
  apply bind_Ok in Hv as (n1 & V1 & Hv).
  apply (validate_selector_Ok _ _ _ _ H) in V1 as (s & r & -> & -> & _ & [(m & -> & Hm & Em)|[_ ?]]); [|done].
  apply tail_app in H. destruct (IH _ _ H Hv) as (ms & r' & -> & -> & Hms & <-).
  exists (m :: ms), r'. cbn [map concat]. rewrite Em in *. rewrite <- app_assoc.
  split_and!; [done|lens|by constructor|done].
Qed.

(** One selector at the head of the tail, as the loop reads it. *)
Lemma validate_step fuel a s q segs pend :
  tail_at bytes a (leaf_bytes s ++ q) -> wf_leaf s -> segs < SEGMENTS_MAX ->
  validate_loop (S fuel) bytes a segs pend =
    validate_loop fuel bytes (a + len (leaf_bytes s)) (segs + 1) false.
Proof.
  intros H Hw Hs. pose proof (tail_len _ _ _ H) as [_ Hl]. destruct (leaf_bytes_cons s Hw) as (b & r & Eb).
  cbn [validate_loop]. rewrite (proj2 (Z.ltb_lt a (len bytes))) by (rewrite Eb in Hl; lens).
  rewrite (proj2 (Z.eqb_neq segs SEGMENTS_MAX)) by lia. cbn [negb].
  destruct (leaf_as_member s Hw) as [(m & -> & Hm & Em)|[->|[ms ->]]].
  - rewrite Em in *. destruct (member_bytes_cons m) as (b' & r' & E' & N1 & N2 & N3).
    pose proof H as H'. rewrite E' in H'. cbn [app] in H'. rewrite (tail_byte _ _ _ _ H'). ok_step.
    rewrite (proj2 (Z.eqb_neq _ _) N2), (proj2 (Z.eqb_neq _ _) N1), (proj2 (Z.eqb_neq _ _) N3).
    by rewrite (validate_member _ _ _ _ H).
  - cbn [leaf_bytes app] in *. rewrite (tail_byte _ _ _ _ H). ok_step. unfold validate_selector.
    rewrite (tail_get _ _ _ H). done.
  - destruct Hw as [Hc Hf]. cbn [leaf_bytes app] in *. rewrite (tail_byte _ _ _ _ H). ok_step.
    apply tail_cons in H. rewrite (tail_get _ _ _ H). cbn [head]. change (u8 (b8 OP_UNION)) with 6.
    cbn [Z.eqb Pos.eqb]. cbv zeta. unfold UNION_MEMBERS_MAX in *. rewrite u8_op by lia.
    rewrite (proj2 (Z.leb_le 2 (len ms))), (proj2 (Z.leb_le (len ms) 16)) by lia. cbn [andb negb].
    replace (Z.to_nat (len ms)) with (length ms) by (unfold len; lia).
    apply tail_cons in H. rewrite <- Z.add_assoc in H. change (1 + 1) with 2 in H.
    rewrite (validate_members_tail _ _ _ H) by done. ok_step. f_equal. lens.
Qed.

Lemma validate_loop_tail l a segs fuel :
  tail_at bytes a (segs_bytes l) -> Forall wf_segment l -> 0 <= segs -> segs + len l <= SEGMENTS_MAX ->
  (segs = 0 -> l = [] -> len bytes = 3) -> (length (segs_bytes l) <= fuel)%nat ->
  validate_loop fuel bytes a segs false = Ok tt.
Proof.
  revert a segs fuel. induction l as [|s l IH]; intros a segs fuel H Hw H0 Hs H3 Hf.
  { apply tail_len in H as [_ H]. change (segs_bytes []) with (@nil byte) in H. rewrite len_nil in H.
    destruct fuel; cbn [validate_loop]; rewrite (proj2 (Z.ltb_ge a (len bytes))) by lia; cbn [negb];
      (destruct (Z.eqb_spec segs 0); [by rewrite H3|done]). }
  inversion Hw as [|? ? Hseg Hl]; subst. unfold segs_bytes in H, Hf. cbn [map concat] in H, Hf.
  fold (segs_bytes l) in H, Hf. rewrite length_app in Hf. rewrite len_cons in Hs. pose proof (len_nonneg l).
  destruct (segment_cases s Hseg) as [(inner & -> & Hi)|[Hi Es]].
  - cbn [seg_bytes app length] in *. destruct fuel as [|[|fuel]]; try lia.
    { destruct (leaf_bytes_cons inner Hi) as (b & r & Eb). rewrite Eb in Hf. cbn in Hf. lia. }
    assert (a < len bytes) as Ha by (apply tail_len in H as [_ H]; lens).
    set (g := S fuel). cbn [validate_loop]. rewrite (proj2 (Z.ltb_lt _ _) Ha).
    rewrite (proj2 (Z.eqb_neq segs SEGMENTS_MAX)) by lia. cbn [negb]. rewrite (tail_byte _ _ _ _ H). ok_step.
    change (u8 (b8 OP_DESCEND)) with 7. cbn [Z.eqb Pos.eqb]. unfold g.
    apply tail_cons in H. rewrite (validate_step _ _ _ _ _ _ H) by (done || lia). apply tail_app in H.
    destruct (leaf_bytes_cons inner Hi) as (b & r & Eb). rewrite Eb in Hf. cbn in Hf.
    apply IH; done || (intros; lia).
  - rewrite Es in *. destruct fuel as [|fuel].
    { destruct (leaf_bytes_cons s Hi) as (b & r & Eb). rewrite Eb in Hf. cbn in Hf. lia. }
    rewrite (validate_step _ _ _ _ _ _ H) by (done || lia). apply tail_app in H.
    destruct (leaf_bytes_cons s Hi) as (b & r & Eb). rewrite Eb in Hf. cbn in Hf.
    apply IH; done || (intros; lia).
Qed.

(** What the loop accepts. *)
Lemma validate_loop_Ok fuel a segs pend q :
  tail_at bytes a q -> 0 <= segs <= SEGMENTS_MAX -> validate_loop fuel bytes a segs pend = Ok tt ->
  if pend
  then exists s l, q = leaf_bytes s ++ segs_bytes l /\ wf_leaf s /\ Forall wf_segment l /\
         segs + 1 + len l <= SEGMENTS_MAX
  else exists l, q = segs_bytes l /\ Forall wf_segment l /\ segs + len l <= SEGMENTS_MAX.
Proof.
  revert a segs pend q. induction fuel as [|fuel IH]; intros a segs pend q H Hs Hv; cbn [validate_loop] in Hv;
    pose proof (tail_len _ _ _ H) as [Ha Hl]; destruct (Z.ltb_spec a (len bytes)) as [L|L]; cbn [negb] in Hv; try done.
  1,3: destruct pend; [done|]; exists []; assert (q = []) as -> by (apply len_0_nil; lens);
    split_and!; [done|by constructor|rewrite len_nil; lia].
  destruct (Z.eqb_spec segs SEGMENTS_MAX); [done|]. destruct q as [|b q]; [exfalso; lens|].
  rewrite (tail_byte _ _ _ _ H) in Hv. cbn [mbind outcome_bind] in Hv.
  assert (forall s r, b :: q = leaf_bytes s ++ r -> wf_leaf s ->
    validate_loop fuel bytes (a + len (leaf_bytes s)) (segs + 1) false = Ok tt ->
    exists l, r = segs_bytes l /\ Forall wf_segment l /\ segs + 1 + len l <= SEGMENTS_MAX) as Hnext.
  { intros s r E Hw Hv'. rewrite E in H. apply tail_app in H. apply (IH _ _ false _ H) in Hv'; [done|lia]. }
  assert (forall s r, b :: q = leaf_bytes s ++ r -> wf_leaf s ->
    validate_loop fuel bytes (a + len (leaf_bytes s)) (segs + 1) false = Ok tt ->
    if pend then exists s l, b :: q = leaf_bytes s ++ segs_bytes l /\ wf_leaf s /\ Forall wf_segment l /\
         segs + 1 + len l <= SEGMENTS_MAX
    else exists l, b :: q = segs_bytes l /\ Forall wf_segment l /\ segs + len l <= SEGMENTS_MAX) as Hleaf.
  { intros s r E Hw Hv'. destruct (Hnext s r E Hw Hv') as (l & -> & Hf & Hn). destruct pend; [by exists s, l|].
    exists (s :: l). split_and!; [|constructor; [by destruct s|done]|rewrite len_cons; lia].
    rewrite E. unfold segs_bytes. cbn [map concat]. f_equal. by destruct s. }
  destruct (Z.eqb_spec (u8 b) OP_DESCEND) as [Eb|_].
  { destruct pend; [done|]. apply tail_cons in H. apply (IH _ _ true _ H) in Hv as (s & l & -> & Hw & Hf & Hn); [|lia].
    exists (Descend s :: l). split_and!; [|by constructor|rewrite len_cons; lia].
    unfold segs_bytes. cbn [map concat seg_bytes app]. f_equal. by rewrite <- (b8_u8 b), Eb. }
  destruct (Z.eqb_spec (u8 b) OP_UNION) as [Eb|_].
  { pose proof (tail_cons _ _ _ _ H) as H1. rewrite (tail_get _ _ _ H1) in Hv.
    destruct q as [|c q]; [done|]. cbn [head] in Hv. cbv zeta in Hv.
    destruct ((2 <=? u8 c) && (u8 c <=? UNION_MEMBERS_MAX)) eqn:Ec; cbn [negb] in Hv; [|done].
    apply andb_true_iff in Ec as [C1%Z.leb_le C2%Z.leb_le]. apply bind_Ok in Hv as (next & Hm & Hv).
    apply tail_cons in H1. rewrite <- Z.add_assoc in H1. change (1 + 1) with 2 in H1.
    apply (validate_members_Ok _ _ _ _ H1) in Hm as (ms & r & -> & -> & Hms & Hn).
    assert (len ms = u8 c) as Hlen by (unfold len; lia).
    apply (Hleaf (Union ms) r).
    - cbn [leaf_bytes app]. rewrite <- (b8_u8 b), Eb, Hlen, b8_u8. done.
    - split; [lia|done].
    - cbn [leaf_bytes]. rewrite <- Hv. f_equal. lens. }
  destruct (Z.eqb_spec (u8 b) OP_ROOT); [done|]. apply bind_Ok in Hv as (next & Hm & Hv).
  apply (validate_selector_Ok _ _ _ _ H) in Hm as (s & r & E & -> & Hw & _). by apply (Hleaf s r).
Qed.

Lemma path_varint_not_Panic a : 0 <= a <= len bytes -> read_varint bytes a <> Panic.
Proof.
  intros Ha. unfold read_varint. apply bind_not_Panic; [by apply slice_from_not_Panic|].
  intros. apply ok_or_not_Panic.
Qed.

Lemma validate_field_not_Panic presence bit a :
  0 <= a <= len bytes ->
  validate_field bytes presence bit a <> Panic /\
  forall next, validate_field bytes presence bit a = Ok next -> 0 <= next <= len bytes.
Proof.
  intros Ha. split.
  - unfold validate_field. destruct (_ =? 0); [done|]. cbn [negb].
    apply bind_not_Panic; [by apply path_varint_not_Panic|]. intros [raw used] _. by destruct (_ && _).
  - intros next Hv. destruct (tail_exists bytes a Ha) as [q H].
    destruct (validate_field_Ok _ _ _ _ _ H Hv) as (o & r & -> & -> & _). apply tail_len in H as [_ H]. lens.
Qed.

Lemma validate_selector_not_Panic a um : 0 <= a <= len bytes -> validate_selector bytes a um <> Panic.
Proof.
  intros Ha. destruct (tail_exists bytes a Ha) as [q H]. unfold validate_selector. rewrite (tail_get _ _ _ H).
  destruct q as [|b q]; [done|]. cbn [head]. cbv zeta. pose proof (tail_len _ _ _ H) as [_ Hl].
  apply tail_cons in H. assert (0 <= a + 1 <= len bytes) as Ha1 by lens.
  destruct (_ =? OP_CHILD).
  { apply bind_not_Panic; [by apply path_varint_not_Panic|]. intros [n used] Hr.
    apply (path_varint_Ok _ _ _ _ _ H) in Hr as (Hu & -> & r & ->). unfold in_u in Hu.
    destruct (checked_add _ _ _) as [e|] eqn:Ee; [|done]. apply checked_add_Some in Ee as [-> _].
    destruct (Z.leb_spec (n + (a + 1 + len (encode_u64 n))) (len bytes)); [|done].
    apply bind_not_Panic; [apply slice_not_Panic; lens|]. intros name _. by destruct (utf8_valid name). }
  destruct (_ =? OP_INDEX).
  { apply bind_not_Panic; [by apply path_varint_not_Panic|]. by intros [raw used] _. }
  destruct (_ =? OP_SLICE); [|by destruct (_ && _)].
  rewrite (tail_get _ _ _ H). destruct q as [|p q]; [done|]. cbn [head]. destruct (_ =? 0); [|done]. cbn [negb].
  assert (0 <= a + 2 <= len bytes) as Ha2 by lens.
  apply bind_not_Panic; [by apply validate_field_not_Panic|]. intros n1 V1.
  apply validate_field_not_Panic in V1; [|done].
  apply bind_not_Panic; [by apply validate_field_not_Panic|]. intros n2 V2.
  apply validate_field_not_Panic in V2; [|done]. by apply validate_field_not_Panic.
Qed.

Lemma validate_selector_bounds a um next :
  0 <= a <= len bytes -> validate_selector bytes a um = Ok next -> a < next <= len bytes.
Proof.
  intros Ha Hv. destruct (tail_exists bytes a Ha) as [q H].
  destruct (validate_selector_Ok _ _ _ _ H Hv) as (s & r & -> & -> & Hw & _).
  destruct (leaf_bytes_cons s Hw) as (b & r' & Eb). rewrite Eb in *. apply tail_len in H as [_ H]. lens.
Qed.

Lemma validate_members_not_Panic n a :
  0 <= a <= len bytes ->
  validate_members bytes n a <> Panic /\ forall next, validate_members bytes n a = Ok next -> a <= next <= len bytes.
Proof.
  revert a. induction n as [|n IH]; intros a Ha; cbn [validate_members].
  { split; [done|]. intros next [= <-]. lia. }
  split.
  - apply bind_not_Panic; [by apply validate_selector_not_Panic|]. intros next Hv.
    apply validate_selector_bounds in Hv; [|done]. apply IH. lia.
  - intros next Hv. apply bind_Ok in Hv as (n1 & V1 & Hv). apply validate_selector_bounds in V1; [|done].
    apply IH in Hv; lia.
Qed.

Lemma validate_loop_not_Panic fuel a segs pend :
  0 <= a <= len bytes -> (Z.to_nat (len bytes - a) <= fuel)%nat ->
  validate_loop fuel bytes a segs pend <> Panic.
Proof.
  revert a segs pend. induction fuel as [|fuel IH]; intros a segs pend Ha Hf; cbn [validate_loop];
    destruct (Z.ltb_spec a (len bytes)) as [L|L]; cbn [negb]; try lia;
    try (destruct pend; [done|]; by destruct (_ && _)).
  destruct (_ =? SEGMENTS_MAX); [done|]. destruct (tail_exists bytes a Ha) as [q H].
  pose proof (tail_len _ _ _ H) as [_ Hl]. destruct q as [|b q]; [exfalso; lens|].
  rewrite (tail_byte _ _ _ _ H). ok_step. destruct (_ =? OP_DESCEND).
  { destruct pend; [done|]. apply IH; lia. }
  destruct (_ =? OP_UNION).
  { apply tail_cons in H. rewrite (tail_get _ _ _ H). destruct q as [|c q]; [done|]. cbn [head].
    destruct (_ && _); [|done]. cbn [negb]. assert (0 <= a + 2 <= len bytes) as Ha2 by lens.
    apply bind_not_Panic; [by apply validate_members_not_Panic|]. intros next Hv.
    apply validate_members_not_Panic in Hv; [|done]. apply IH; lia. }
  destruct (_ =? OP_ROOT); [done|]. apply bind_not_Panic; [by apply validate_selector_not_Panic|].
  intros next Hv. apply validate_selector_bounds in Hv; [|done]. apply IH; lia.
Qed.

End validator.

Lemma program_bytes_len ast : len (program_bytes ast) = 3 + len (segs_bytes (segments ast)).
Proof. unfold program_bytes. lens. Qed.

Lemma validate_program ast :
  wf_ast ast -> len (program_bytes ast) < PROGRAM_BYTES_CEILING -> validate (program_bytes ast) = Ok tt.
Proof.
  intros [Hs Hn] Hl. pose proof (program_bytes_len ast) as El. unfold validate.
  rewrite (proj2 (Z.ltb_ge _ 3)) by lens. rewrite (proj2 (Z.leb_gt _ _) Hl).
  rewrite (tail_byte _ 0 (b8 PROGRAM_VERSION) (tail (program_bytes ast))) by by exists [].
  rewrite (tail_byte _ 1 (b8 (if legacy ast then FLAG_LEGACY else 0)) (b8 OP_ROOT :: segs_bytes (segments ast)))
    by by exists [b8 PROGRAM_VERSION].
  rewrite (tail_byte _ 2 (b8 OP_ROOT) (segs_bytes (segments ast))) by by exists (take 2 (program_bytes ast)).
  ok_step. replace (Z.land (u8 (b8 (if legacy ast then FLAG_LEGACY else 0))) (wrap 8 (Z.lnot FLAG_LEGACY))) with 0
    by by destruct (legacy ast).
  cbn [Z.eqb negb]. change (negb (u8 (b8 PROGRAM_VERSION) =? PROGRAM_VERSION)) with false.
  change (negb (u8 (b8 OP_ROOT) =? OP_ROOT)) with false. cbn iota.
  apply (validate_loop_tail _ Hl (segments ast)); try done; [apply program_tail| |].
  - intros _ E. rewrite El, E. done.
  - cbn [program_bytes length]. lia.
Qed.

(** A valid program is the encoding of a well-formed path. *)
Lemma validate_inv b :
  validate b = Ok tt ->
  exists ast, wf_ast ast /\ b = program_bytes ast /\ len b < PROGRAM_BYTES_CEILING.
Proof.
  unfold validate. destruct (Z.ltb_spec (len b) 3); [done|]. destruct (Z.leb_spec PROGRAM_BYTES_CEILING (len b)); [done|].
  destruct b as [|b0 [|b1 [|b2 q]]]; try (exfalso; lens).
  rewrite (tail_byte _ 0 b0 (b1 :: b2 :: q)), (tail_byte _ 1 b1 (b2 :: q)), (tail_byte _ 2 b2 q);
    [|by exists [b0; b1]|by exists [b0]|by exists []]. ok_step.
  destruct (Z.eqb_spec (u8 b0) PROGRAM_VERSION) as [E0|]; [|done].
  destruct (Z.eqb_spec (Z.land (u8 b1) (wrap 8 (Z.lnot FLAG_LEGACY))) 0) as [E1|]; [|done].
  destruct (Z.eqb_spec (u8 b2) OP_ROOT) as [E2|]; [|done]. cbn [negb]. intros Hv.
  apply (validate_loop_Ok _ _ _ _ _ q) in Hv as (l & -> & Hf & Hn);
    [|by exists [b0; b1; b2]|unfold SEGMENTS_MAX; lia].
  exists {| legacy := negb (u8 b1 =? 0); segments := l |}. split; [done|]. split; [|done].
  unfold program_bytes. cbn [legacy segments]. rewrite <- E0, <- E2, !b8_u8.
  do 2 f_equal. destruct b1; try discriminate E1; done.
Qed.

Lemma validate_not_Panic b : validate b <> Panic.
Proof.
  unfold validate. destruct (Z.ltb_spec (len b) 3); [done|]. destruct (Z.leb_spec PROGRAM_BYTES_CEILING (len b)); [done|].
  destruct b as [|b0 [|b1 [|b2 q]]]; try (exfalso; lens).
  rewrite (tail_byte _ 0 b0 (b1 :: b2 :: q)), (tail_byte _ 1 b1 (b2 :: q)), (tail_byte _ 2 b2 q);
    [|by exists [b0; b1]|by exists [b0]|by exists []]. ok_step.
  repeat (destruct (_ =? _); [|done]). cbn [negb]. apply validate_loop_not_Panic; [lens|]. cbn [length]. unfold len in *. cbn [length] in *. lia.
Qed.

(** C24. Path programs are canonical: what the compiler emits for a well-formed
    path validates and decodes to that path, and every byte string the validator
    accepts is the encoding of the well-formed path it decodes to; no byte string
    makes the validator panic. *)
Theorem path_programs_canonical :
  (forall ast b, wf_ast ast -> encode ast = Ok b -> from_bytes b = Ok b /\ decode (E:=PathError) b = Ok ast) /\
  (forall b, from_bytes b = Ok b ->
     exists ast, wf_ast ast /\ decode (E:=PathError) b = Ok ast /\ encode ast = Ok b) /\
  (forall b, from_bytes b <> Panic).
Proof.
  unfold from_bytes. split_and!.
  - intros ast b Hw He. rewrite encode_Ok in He by done.
    destruct (Z.leb_spec PROGRAM_BYTES_CEILING (len (program_bytes ast))); [done|]. injection He as <-.
    by rewrite validate_program, decode_program.
  - intros b Hb. apply bind_Ok in Hb as ([] & Hv & _). apply validate_inv in Hv as (ast & Hw & -> & Hl).
    exists ast. rewrite decode_program, encode_Ok by done. by rewrite (proj2 (Z.leb_gt _ _) Hl).
  - intros b. apply bind_not_Panic; [apply validate_not_Panic|done].
Qed.

End PathProgram.
