(* ===== verification/PathEval.v ===== *)
(** * PathEval: the path evaluator

    [inf-doc/src/path/eval.rs]. A frame machine walks a document under a path
    program: each frame applies one op to one node and yields its selections;
    matches are recorded as location paths (ordinal steps from the root). A node
    budget suspends the walk into owned state ([EvalState]) that a later call
    rebuilds frames from; [eval_visit] streams matching values to a visitor
    instead. Frames hold the remaining entries of their container, which is what
    the source's iterators denote; the loops take fuel. *)

From S2P Require Import Prelude Varint Utf8 F64 IndexKey Doc PathProgram.
Import Varint PathProgram.

Module PathEval.

Inductive EvalError := TooManyMatches.

(** ** The match set *)

Record Matches := { steps : list Z; spans : list (Z * Z) }.
Definition no_matches : Matches := {| steps := []; spans := [] |}.

Definition record (m : Matches) (path : list Z) (st : option Z) (cap : Z) : outcome EvalError Matches :=
  if cap <=? len (spans m) then Err TooManyMatches
  else
    let n := len path + (if st then 1 else 0) in
    if 2 ^ 16 <=? n then Err TooManyMatches
    else if 2 ^ 32 <=? len (steps m) then Err TooManyMatches
    else
      _ ← ok_or TooManyMatches (checked_add 32 (len (steps m)) n);
      Ok {| steps := steps m ++ path ++ option_list st;
            spans := spans m ++ [(len (steps m), n)] |}.

(** [Matches::get]. *)
Definition match_path {E} (m : Matches) (i : Z) : outcome E (list Z) :=
  '(at_, n) ← expect (get (spans m) i);
  slice (steps m) at_ (at_ + n).

(** ** Frames *)

Inductive Progress :=
  | Fresh
  | Done
  | PObj (it : list (list byte * Value)) (next_ord : Z)
  | PArr (it : list Value) (next_ord : Z)
  | PSlice (next stop stride : Z)
  | PUnion (member : Z)
  | PDescendObj (it : list (list byte * Value)) (next_ord : Z)
  | PDescendArr (it : list Value) (next_ord : Z).

Record Frame := { op_at : Z; next_pc : Z; node : Value; stepped : bool; progress : Progress }.

Definition with_progress (f : Frame) (p : Progress) : Frame :=
  {| op_at := op_at f; next_pc := next_pc f; node := node f; stepped := stepped f; progress := p |}.

Record Item := { inode : Value; pc : Z; cont : Z; istep : option Z }.

Definition cont_of {E} (bytes : list byte) (at_ : Z) : outcome E Z :=
  if len bytes <=? at_ then Ok (len bytes)
  else '(_, next) ← read_op bytes at_; Ok next.

Definition child_item {E} (bytes : list byte) (f : Frame) (v : Value) (ord : Z) : outcome E Item :=
  c ← cont_of bytes (next_pc f);
  Ok {| inode := v; pc := next_pc f; cont := c; istep := Some ord |}.

Definition resolve_index (i : Z) (n : Z) : option Z :=
  let resolved := if i <? 0 then i + n else i in
  if (0 <=? resolved) && (resolved <? 2 ^ 32) then Some resolved else None.

Definition clamp (v lo hi : Z) : Z := Z.max lo (Z.min hi v).

Definition resolve_slice (spec : SliceSpec) (n : Z) : Z * Z * Z :=
  let stride := default 1 (step spec) in
  let resolve v := if v <? 0 then v + n else v in
  if 0 <? stride then
    (clamp (default 0 (resolve <$> start spec)) 0 n, clamp (default n (resolve <$> end_ spec)) 0 n, stride)
  else
    (clamp (default (n - 1) (resolve <$> start spec)) (-1) (n - 1),
     clamp (default (-1) (resolve <$> end_ spec)) (-1) (n - 1), stride).

(** [i64::saturating_add]. *)
Definition sat_add (a b : Z) : Z := clamp (a + b) (- 2 ^ 63) (2 ^ 63 - 1).

(** [o.iter().enumerate().find(|(_, (k, _))| k == key)]. *)
Fixpoint find_key (key : list byte) (l : list (list byte * Value)) (i : Z) : option (Z * Value) :=
  match l with
  | [] => None
  | (k, v) :: l => if bool_decide (k = key) then Some (i, v) else find_key key l (i + 1)
  end.

(** One selection of a frame that is past its op's start, [None] when it is
    exhausted, with the frame's next progress. *)
Definition advance {E} (bytes : list byte) (f : Frame) : outcome E (option Item * Frame) :=
  '(op, _) ← read_op bytes (op_at f);
  match op with
  | OChild key =>
      match progress f with
      | Fresh =>
          let f' := with_progress f Done in
          match node f with
          | VObj o =>
              match find_key key o 0 with
              | Some (ord, v) => item ← child_item bytes f' v (wrap 32 ord); Ok (Some item, f')
              | None => Ok (None, f')
              end
          | _ => Ok (None, f')
          end
      | _ => Ok (None, f)
      end
  | OIndex i =>
      match progress f with
      | Fresh =>
          let f' := with_progress f Done in
          match node f with
          | VArr a =>
              match resolve_index i (len a) with
              | Some ord =>
                  match get a ord with
                  | Some v => item ← child_item bytes f' v ord; Ok (Some item, f')
                  | None => Ok (None, f')
                  end
              | None => Ok (None, f')
              end
          | _ => Ok (None, f')
          end
      | _ => Ok (None, f)
      end
  | OChildAny =>
      let p := match progress f with
               | Fresh => match node f with
                          | VObj o => PObj o 0
                          | VArr a => PArr a 0
                          | _ => Done
                          end
               | p => p
               end in
      match p with
      | PObj ((_, v) :: it) ord =>
          let f' := with_progress f (PObj it (wrap 32 (ord + 1))) in
          item ← child_item bytes f' v ord; Ok (Some item, f')
      | PArr (v :: it) ord =>
          let f' := with_progress f (PArr it (wrap 32 (ord + 1))) in
          item ← child_item bytes f' v ord; Ok (Some item, f')
      | p => Ok (None, with_progress f p)
      end
  | OSlice spec =>
      let p := match progress f with
               | Fresh => match node f with
                          | VArr a => let '(next, stop, stride) := resolve_slice spec (len a) in
                                      PSlice next stop stride
                          | _ => Done
                          end
               | p => p
               end in
      match p with
      | PSlice next stop stride =>
          if ((0 <? stride) && (stop <=? next)) || ((stride <? 0) && (next <=? stop))
          then Ok (None, with_progress f p)
          else
            let f' := with_progress f (PSlice (sat_add next stride) stop stride) in
            match node f with
            | VArr a =>
                v ← expect (get a next);
                item ← child_item bytes f' v (wrap 32 next);
                Ok (Some item, f')
            | _ => Panic
            end
      | p => Ok (None, with_progress f p)
      end
  | OUnion count members_at =>
      let member := match progress f with Fresh => Some 0 | PUnion m => Some m | _ => None end in
      match member with
      | None => Ok (None, f)
      | Some m =>
          if m =? count then Ok (None, with_progress f (PUnion m))
          else
            at_ ← member_at bytes members_at (Z.to_nat m);
            Ok (Some {| inode := node f; pc := at_; cont := next_pc f; istep := None |},
                with_progress f (PUnion (m + 1)))
      end
  | ODescend =>
      let sel_at := op_at f + 1 in
      match progress f with
      | Fresh =>
          let p := match node f with
                   | VObj o => PDescendObj o 0
                   | VArr a => PDescendArr a 0
                   | _ => Done
                   end in
          c ← cont_of bytes sel_at;
          Ok (Some {| inode := node f; pc := sel_at; cont := c; istep := None |}, with_progress f p)
      | PDescendObj ((_, v) :: it) ord =>
          Ok (Some {| inode := v; pc := op_at f; cont := sel_at; istep := Some ord |},
              with_progress f (PDescendObj it (wrap 32 (ord + 1))))
      | PDescendArr (v :: it) ord =>
          Ok (Some {| inode := v; pc := op_at f; cont := sel_at; istep := Some ord |},
              with_progress f (PDescendArr it (wrap 32 (ord + 1))))
      | _ => Ok (None, f)
      end
  | ORoot => Panic
  end.

(** ** The recording walk *)

Definition fresh_frame (item : Item) (st : bool) : Frame :=
  {| op_at := pc item; next_pc := cont item; node := inode item; stepped := st; progress := Fresh |}.

(** Stacks have their top first. *)
Definition consume (item : Item) (stack : list Frame) (path : list Z) (m : Matches) (end_pc cap : Z)
    : outcome EvalError (list Frame * list Z * Matches) :=
  if pc item =? end_pc
  then m ← record m path (istep item) cap; Ok (stack, path, m)
  else Ok (fresh_frame item (bool_decide (istep item <> None)) :: stack,
           path ++ option_list (istep item), m).

Inductive SavedProgress :=
  | SFresh
  | SDone
  | SIter (next_ord : Z)
  | SSlice (next stop stride : Z)
  | SUnion (member : Z)
  | SDescendIter (next_ord : Z).

Record SavedFrame := { s_op_at : Z; s_next_pc : Z; s_stepped : bool; s_progress : SavedProgress }.

(** Saved frames are in the source's order, bottom first. *)
Record EvalState := { s_frames : list SavedFrame; s_path : list Z; s_matches : Matches }.

Definition save_frame (f : Frame) : SavedFrame :=
  {| s_op_at := op_at f; s_next_pc := next_pc f; s_stepped := stepped f;
     s_progress := match progress f with
                   | Fresh => SFresh
                   | Done => SDone
                   | PObj _ n | PArr _ n => SIter n
                   | PSlice next stop stride => SSlice next stop stride
                   | PUnion m => SUnion m
                   | PDescendObj _ n | PDescendArr _ n => SDescendIter n
                   end |}.

Definition save (stack : list Frame) (path : list Z) (m : Matches) : EvalState :=
  {| s_frames := rev (map save_frame stack); s_path := path; s_matches := m |}.

(** One hop of [resolve]. *)
Definition resolve_step (v : Value) (ord : Z) : option Value :=
  match v with
  | VObj o => snd <$> get o ord
  | VArr a => get a ord
  | _ => None
  end.

Fixpoint resolve (v : Value) (path : list Z) : option Value :=
  match path with
  | [] => Some v
  | ord :: path => v ← resolve_step v ord; resolve v path
  end.

(** [it.next().expect(..)], [n] times. *)
Definition skip_entries {E A} (n : Z) (l : list A) : outcome E (list A) :=
  if n <=? len l then Ok (drop (Z.to_nat n) l) else Panic.

Definition rebuild_progress {E} (sp : SavedProgress) (v : Value) : outcome E Progress :=
  match sp with
  | SFresh => Ok Fresh
  | SDone => Ok Done
  | SIter n =>
      match v with
      | VObj o => it ← skip_entries n o; Ok (PObj it n)
      | VArr a => it ← skip_entries n a; Ok (PArr it n)
      | _ => Panic
      end
  | SSlice next stop stride => Ok (PSlice next stop stride)
  | SUnion m => Ok (PUnion m)
  | SDescendIter n =>
      match v with
      | VObj o => it ← skip_entries n o; Ok (PDescendObj it n)
      | VArr a => it ← skip_entries n a; Ok (PDescendArr it n)
      | _ => Panic
      end
  end.

(** [stack] accumulates the rebuilt frames, top first; [path] holds the steps
    not yet taken. *)
Fixpoint rebuild_frames {E} (saved : list SavedFrame) (path : list Z) (v : Value) (stack : list Frame)
    : outcome E (list Frame) :=
  match saved with
  | [] => Ok stack
  | sf :: saved =>
      '(v, path) ← (if s_stepped sf
        then match path with
             | ord :: path => v ← expect (resolve_step v ord); Ok (v, path)
             | [] => Panic
             end
        else Ok (v, path));
      p ← rebuild_progress (s_progress sf) v;
      rebuild_frames saved path v
        ({| op_at := s_op_at sf; next_pc := s_next_pc sf; node := v; stepped := s_stepped sf;
            progress := p |} :: stack)
  end.

Inductive EvalStep := EDone (m : Matches) | Yield (s : EvalState).

Fixpoint run_loop (fuel : nat) (bytes : list byte) (cap : Z) (stack : list Frame) (path : list Z)
    (m : Matches) (budget : Z) : outcome EvalError EvalStep :=
  match fuel with
  | O => Panic
  | S fuel =>
      match stack with
      | [] => Ok (EDone m)
      | top :: stack =>
          '(next, top) ← advance bytes top;
          match next with
          | None =>
              run_loop fuel bytes cap stack (if stepped top then removelast path else path) m budget
          | Some item =>
              '(stack, path, m) ← consume item (top :: stack) path m (len bytes) cap;
              if budget =? 0 then Ok (Yield (save stack path m))
              else run_loop fuel bytes cap stack path m (budget - 1)
          end
      end
  end.

Definition run (fuel : nat) (bytes : list byte) (root : Value) (cap budget : Z)
    (resume : option EvalState) : outcome EvalError EvalStep :=
  match resume with
  | Some s =>
      stack ← rebuild_frames (s_frames s) (s_path s) root [];
      run_loop fuel bytes cap stack (s_path s) (s_matches s) budget
  | None =>
      c ← cont_of bytes 3;
      let item := {| inode := root; pc := 3; cont := c; istep := None |} in
      '(stack, path, m) ← consume item [] [] no_matches (len bytes) cap;
      run_loop fuel bytes cap stack path m budget
  end.

Definition U64_BUDGET : Z := U64_MAX.

Definition eval (fuel : nat) (bytes : list byte) (root : Value) (cap : Z) : outcome EvalError Matches :=
  step ← run fuel bytes root cap U64_BUDGET None;
  match step with EDone m => Ok m | Yield _ => Panic end.

Definition eval_budgeted (fuel : nat) (bytes : list byte) (root : Value) (cap budget : Z)
    (resume : option EvalState) : outcome EvalError EvalStep :=
  run fuel bytes root cap budget resume.

(** ** The streaming walk

    The visitor is a function on its own state that says whether to break. *)

Inductive VisitEnd := Complete | Stopped | Exhausted.
#[global] Instance VisitEnd_eq_dec : EqDecision VisitEnd.
Proof. solve_decision. Defined.

Record VisitOutcome := { vend : VisitEnd; nodes_visited : Z }.

Section visit.
Context {E A : Type} (on_match : A -> Value -> A * bool).

Definition stage_visit (item : Item) (frames : list Frame) (end_pc : Z) (s : A)
    : list Frame * A * bool :=
  if pc item =? end_pc then let '(s, brk) := on_match s (inode item) in (frames, s, brk)
  else (fresh_frame item false :: frames, s, false).

Fixpoint visit_loop (fuel : nat) (bytes : list byte) (frames : list Frame) (budget visited : Z) (s : A)
    : outcome E (VisitOutcome * A) :=
  match fuel with
  | O => Panic
  | S fuel =>
      match frames with
      | [] => Ok ({| vend := Complete; nodes_visited := visited |}, s)
      | top :: frames =>
          '(next, top) ← advance bytes top;
          match next with
          | None => visit_loop fuel bytes frames budget visited s
          | Some item =>
              if budget =? 0 then Ok ({| vend := Exhausted; nodes_visited := visited |}, s)
              else
                let '(frames, s, brk) := stage_visit item (top :: frames) (len bytes) s in
                if (brk : bool) then Ok ({| vend := Stopped; nodes_visited := visited + 1 |}, s)
                else visit_loop fuel bytes frames (budget - 1) (visited + 1) s
          end
      end
  end.

(** One hop of the simple lane. *)
Definition simple_hop (op : Op) (v : Value) : outcome E (option Value) :=
  match op with
  | OChild key =>
      Ok (match v with VObj o => snd <$> find_key key o 0 | _ => None end)
  | OIndex i =>
      Ok (match v with VArr a => ord ← resolve_index i (len a); get a ord | _ => None end)
  | _ => Panic
  end.

Fixpoint visit_simple (fuel : nat) (bytes : list byte) (at_ : Z) (v : Value) (budget visited : Z) (s : A)
    : outcome E (VisitOutcome * A) :=
  if at_ =? len bytes
  then
    let '(s, brk) := on_match s v in
    Ok ({| vend := if (brk : bool) then Stopped else Complete; nodes_visited := visited |}, s)
  else match fuel with
  | O => Panic
  | S fuel =>
      '(op, next) ← read_op bytes at_;
      child ← simple_hop op v;
      match child with
      | None => Ok ({| vend := Complete; nodes_visited := visited |}, s)
      | Some child =>
          if budget =? 0 then Ok ({| vend := Exhausted; nodes_visited := visited |}, s)
          else visit_simple fuel bytes next child (budget - 1) (visited + 1) s
      end
  end.

Definition eval_visit (fuel : nat) (bytes : list byte) (root : Value) (budget : Z) (s : A)
    : outcome E (VisitOutcome * A) :=
  simple ← is_simple bytes;
  if (simple : bool) then visit_simple (length bytes) bytes 3 root budget 0 s
  else
    c ← cont_of bytes 3;
    let '(frames, s, brk) :=
      stage_visit {| inode := root; pc := 3; cont := c; istep := None |} [] (len bytes) s in
    if (brk : bool) then Ok ({| vend := Stopped; nodes_visited := 0 |}, s)
    else visit_loop fuel bytes frames budget 0 s.
End visit.

End PathEval.
