(* ===== verification/PathSelect.v ===== *)
(** * PathSelect: what one selector of a path picks

    The children a selector picks from a container, stated by conditions on their
    positions ([select]): a name picks the first entry that has it, an index the
    position counted from the front or the back, a slice every position of its
    range that a stride from its start reaches, in the stride's direction. The
    evaluator works with resolved and clamped bounds instead ([resolve_index] and
    [resolve_slice] of [PathEval]); both pick the same children ([select_eq]). *)

From S2P Require Import Prelude Doc PathProgram PathEval.
Import PathProgram PathEval.

(** ** Selections *)

Fixpoint number {A} (o : Z) (l : list A) : list (Z * A) :=
  match l with [] => [] | x :: l => (o, x) :: number (o + 1) l end.

(** A position or bound: negative ones count from the end. *)
Definition from_end (n z : Z) : Z := if z <? 0 then n + z else z.

(** A slice of [a]: upwards the positions at least [s] and below [e], downwards
    those at most [s] and above [e], a multiple of the stride away from [s]. *)
Definition slice_of (sp : SliceSpec) (a : list Value) : list (Z * Value) :=
  let n := len a in
  let stride := default 1 (step sp) in
  if 0 <? stride then
    let s := Z.max 0 (default 0 (from_end n <$> start sp)) in
    let e := default n (from_end n <$> end_ sp) in
    filter (fun x => s <= x.1 < e /\ (x.1 - s) mod stride = 0) (number 0 a)
  else
    let s := Z.min (n - 1) (default (n - 1) (from_end n <$> start sp)) in
    let e := default (-1) (from_end n <$> end_ sp) in
    filter (fun x => e < x.1 <= s /\ (s - x.1) mod - stride = 0) (rev (number 0 a)).

(** The children of [v] a selector picks, with their ordinals, in order. *)
Definition select (s : Segment) (v : Value) : list (Z * Value) :=
  match s, v with
  | Child key, VObj o => (fun x => (x.1, x.2.2)) <$> take 1 (filter (fun x => x.2.1 = key) (number 0 o))
  | ChildAny, VObj o => number 0 o.*2
  | ChildAny, VArr a => number 0 a
  | Index i, VArr a => filter (fun x => x.1 = from_end (len a) i) (number 0 a)
  | Slice sp, VArr a => slice_of sp a
  | _, _ => []
  end.

(** ** The code's positions *)

Definition slice_done (next stop stride : Z) : bool :=
  ((0 <? stride) && (stop <=? next)) || ((stride <? 0) && (next <=? stop)).

Fixpoint slice_ords_fuel (fuel : nat) (next stop stride : Z) : list Z :=
  match fuel with
  | O => []
  | S fuel => if slice_done next stop stride then []
              else next :: slice_ords_fuel fuel (next + stride) stop stride
  end.
(** [next], [next + stride], ... up to [stop] exclusive, in either direction. *)
Definition slice_ords (next stop stride : Z) : list Z :=
  slice_ords_fuel (Z.to_nat (Z.abs (stop - next))) next stop stride.

Definition pick (a : list Value) (ords : list Z) : list (Z * Value) :=
  omap (fun o => pair o <$> get a o) ords.

(** The same children by the code's positions. *)
Definition select_ords (s : Segment) (v : Value) : list (Z * Value) :=
  match s, v with
  | Child key, VObj o => option_list (find_key key o 0)
  | ChildAny, VObj o => number 0 o.*2
  | ChildAny, VArr a => number 0 a
  | Index i, VArr a => match resolve_index i (len a) with Some o => pick a [o] | None => [] end
  | Slice sp, VArr a => let '(next, stop, stride) := resolve_slice sp (len a) in pick a (slice_ords next stop stride)
  | _, _ => []
  end.

(** ** Positions *)

Lemma number_lookup {A} (l : list A) o x k : (k, x) ∈ number o l -> o <= k < o + len l /\ get l (k - o) = Some x.
Proof.
  revert o. induction l as [|y l IH]; intros o; cbn [number]; [by intros ?%elem_of_nil|].
  rewrite elem_of_cons. intros [[= -> ->]|H].
  - split; [lens|]. by rewrite Z.sub_diag.
  - destruct (IH _ H) as [? E]. split; [lens|]. unfold get in *.
    destruct (Z.leb_spec 0 (k - (o + 1))); [|done]. rewrite (proj2 (Z.leb_le 0 (k - o))) by lia.
    replace (Z.to_nat (k - o)) with (S (Z.to_nat (k - (o + 1)))) by lia. done.
Qed.

Lemma find_key_get key l o k v :
  find_key key l o = Some (k, v) -> o <= k < o + len l /\ snd <$> get l (k - o) = Some v.
Proof.
  revert o. induction l as [|[k' v'] l IH]; intros o; cbn [find_key]; [done|].
  destruct (bool_decide (k' = key)).
  - intros [= <- <-]. split; [lens|]. by rewrite Z.sub_diag.
  - intros H. destruct (IH _ H) as [? E]. split; [lens|]. unfold get in *.
    destruct (Z.leb_spec 0 (k - (o + 1))); [|done]. rewrite (proj2 (Z.leb_le 0 (k - o))) by lia.
    replace (Z.to_nat (k - o)) with (S (Z.to_nat (k - (o + 1)))) by lia. done.
Qed.

(** ** Slices *)

Lemma slice_fuel_irrel f1 f2 next stop stride :
  (Z.to_nat (Z.abs (stop - next)) <= f1)%nat -> (Z.to_nat (Z.abs (stop - next)) <= f2)%nat -> stride <> 0 ->
  slice_ords_fuel f1 next stop stride = slice_ords_fuel f2 next stop stride.
Proof.
  revert f2 next. induction f1 as [|f1 IH]; intros [|f2] next H1 H2 H0; cbn [slice_ords_fuel]; try done.
  - unfold slice_done. destruct (_ || _) eqn:E; [done|]. exfalso. lia.
  - unfold slice_done. destruct (_ || _) eqn:E; [done|]. exfalso. lia.
  - destruct (slice_done next stop stride) eqn:E; [done|]. f_equal. unfold slice_done in E.
    destruct (Z.le_gt_cases 0 (stop - (next + stride))), (Z.le_gt_cases 0 (stop - next)).
    + apply IH; lia.
    + destruct f1, f2; cbn [slice_ords_fuel]; try done;
        (destruct (slice_done (next + stride) stop stride) eqn:E'; [done|unfold slice_done in E'; lia]).
    + destruct f1, f2; cbn [slice_ords_fuel]; try done;
        (destruct (slice_done (next + stride) stop stride) eqn:E'; [done|unfold slice_done in E'; lia]).
    + apply IH; lia.
Qed.

Lemma slice_ords_done next stop stride : slice_done next stop stride = true -> slice_ords next stop stride = [].
Proof. intros H. unfold slice_ords. destruct (Z.to_nat _); cbn; [done|]. by rewrite H. Qed.

Lemma slice_ords_step next stop stride :
  slice_done next stop stride = false -> stride <> 0 ->
  slice_ords next stop stride = next :: slice_ords (next + stride) stop stride.
Proof.
  intros H H0. unfold slice_ords at 1.
  destruct (Z.to_nat (Z.abs (stop - next))) as [|n] eqn:En.
  { unfold slice_done in H. lia. }
  cbn [slice_ords_fuel]. rewrite H. f_equal.
  destruct (slice_done (next + stride) stop stride) eqn:E'.
  - rewrite slice_ords_done by done. destruct n; cbn; [done|]. by rewrite E'.
  - unfold slice_ords. unfold slice_done in H, E'. apply slice_fuel_irrel; [lia|lia|done].
Qed.

Lemma in_rev_elem {A} (l : list A) x : x ∈ rev l -> x ∈ l.
Proof. rewrite !list_elem_of_In. by intros H%in_rev. Qed.

Section filters.
Context {A : Type}.
Implicit Types (l : list A) (P Q : A -> Prop).

Lemma filter_ext_in P Q `{!forall x, Decision (P x), !forall x, Decision (Q x)} l :
  (forall x, x ∈ l -> P x <-> Q x) -> filter P l = filter Q l.
Proof.
  induction l as [|x l IH]; intros Hpq; [done|]. rewrite !filter_cons, IH by (intros y Hy; apply Hpq; by right).
  pose proof (Hpq x ltac:(left)). repeat case_decide; naive_solver.
Qed.

Lemma filter_none P `{!forall x, Decision (P x)} l : (forall x, x ∈ l -> ~ P x) -> filter P l = [].
Proof.
  induction l as [|x l IH]; intros Hp; [done|]. rewrite filter_cons_False by (apply Hp; left).
  apply IH. intros y Hy. apply Hp. by right.
Qed.
End filters.

Lemma number_app {A} o (l k : list A) : number o (l ++ k) = number o l ++ number (o + len l) k.
Proof.
  revert o. induction l as [|x l IH]; intros o; cbn [app number]; [by rewrite len_nil, Z.add_0_r|].
  rewrite IH, len_cons. do 3 f_equal. lia.
Qed.

(** A list cut at one of its positions. *)
Lemma number_cut {A} (l : list A) k c : get l k = Some c ->
  exists x y, number 0 l = x ++ (k, c) :: y /\ (forall e, e ∈ x -> e.1 < k) /\ (forall e, e ∈ y -> k < e.1).
Proof.
  intros (x & y & -> & <-)%get_split. exists (number 0 x), (number (len x + 1) y). split_and!.
  - by rewrite number_app.
  - intros [o e] [Ho _]%number_lookup. cbn. lia.
  - intros [o e] [Ho _]%number_lookup. cbn. lia.
Qed.

Lemma number_at (a : list Value) k : filter (fun x => x.1 = k) (number 0 a) = pick a [k].
Proof.
  unfold pick. cbn [omap list_omap]. destruct (get a k) as [c|] eqn:E; cbn [fmap option_fmap option_map].
  - destruct (number_cut a k c E) as (x & y & -> & Hx & Hy).
    rewrite list.filter_app, filter_cons_True by done.
    rewrite (filter_none _ x), (filter_none _ y); [done| |]; intros e He Ee; [apply Hy in He|apply Hx in He]; lia.
  - apply filter_none. intros [o c] [Hr H]%number_lookup He. cbn in He. subst o. rewrite Z.sub_0_r in H. congruence.
Qed.

Lemma multiple_ge d z : z mod d = 0 -> 0 < d -> 0 < z -> d <= z.
Proof. intros H Hd Hz. apply Z.divide_pos_le; [done|]. by apply Z.mod_divide; [lia|]. Qed.

Lemma slice_up a stride stop : 0 < stride -> stop <= len a -> forall k next, 0 <= next -> stop - next <= Z.of_nat k ->
  filter (fun x => next <= x.1 < stop /\ (x.1 - next) mod stride = 0) (number 0 a) = pick a (slice_ords next stop stride).
Proof.
  intros Hs Hn k. induction k as [|k IH]; intros next H0 Hk; (destruct (slice_done next stop stride) eqn:Hd;
    [rewrite slice_ords_done by done; apply filter_none; unfold slice_done in Hd; lia|unfold slice_done in Hd; try lia]).
  rewrite slice_ords_step by (unfold slice_done; lia). destruct (get_in a next) as [c Hc]; [lia|].
  unfold pick. cbn [omap list_omap]. rewrite Hc. cbn [fmap option_fmap option_map]. fold (pick a (slice_ords (next + stride) stop stride)).
  rewrite <- (IH (next + stride)) by lia. destruct (number_cut a next c Hc) as (x & y & -> & Hx & Hy).
  rewrite !list.filter_app, filter_cons_True by (cbn; rewrite Z.sub_diag, Z.mod_0_l; lia).
  rewrite filter_cons_False by (cbn; lia).
  rewrite !(filter_none _ x) by (intros e He%Hx; lia). cbn [app]. f_equal. apply filter_ext_in. intros [o e] He%Hy. cbn in *.
  replace (o - (next + stride)) with (o - next + (-1) * stride) by lia. rewrite Z.mod_add by lia. split; [|intros [? ?]; split; [lia|done]].
  intros [? Hm]. split; [|done]. apply multiple_ge in Hm; lia.
Qed.

Lemma slice_down a stride stop : stride < 0 -> -1 <= stop -> forall k next, next < len a -> next - stop <= Z.of_nat k ->
  filter (fun x => stop < x.1 <= next /\ (next - x.1) mod - stride = 0) (rev (number 0 a)) = pick a (slice_ords next stop stride).
Proof.
  intros Hs Hn k. induction k as [|k IH]; intros next H0 Hk; (destruct (slice_done next stop stride) eqn:Hd;
    [rewrite slice_ords_done by done; apply filter_none; unfold slice_done in Hd; lia|unfold slice_done in Hd; try lia]).
  rewrite slice_ords_step by (unfold slice_done; lia). destruct (get_in a next) as [c Hc]; [lia|].
  unfold pick. cbn [omap list_omap]. rewrite Hc. cbn [fmap option_fmap option_map]. fold (pick a (slice_ords (next + stride) stop stride)).
  rewrite <- (IH (next + stride)) by lia. destruct (number_cut a next c Hc) as (x & y & -> & Hx & Hy).
  rewrite rev_app_distr. cbn [rev]. rewrite <- app_assoc. cbn [app].
  rewrite !list.filter_app, filter_cons_True by (cbn; rewrite Z.sub_diag, Z.mod_0_l; lia).
  rewrite filter_cons_False by (cbn; lia).
  rewrite !(filter_none _ (rev y)) by (intros e He%in_rev_elem%Hy; lia).
  cbn [app]. f_equal. apply filter_ext_in. intros [o e] He%in_rev_elem%Hx. cbn in *.
  replace (next + stride - o) with (next - o + (-1) * - stride) by lia. rewrite Z.mod_add by lia. split; [|intros [? ?]; split; [lia|done]].
  intros [? Hm]. split; [|done]. apply multiple_ge in Hm; lia.
Qed.

Lemma slice_of_ords sp a : wf_slice sp ->
  slice_of sp a = let '(next, stop, stride) := resolve_slice sp (len a) in pick a (slice_ords next stop stride).
Proof.
  intros (_ & _ & _ & Hst). assert (default 1 (step sp) <> 0) as H0 by (destruct (step sp); cbn; congruence).
  unfold slice_of, resolve_slice, clamp. set (z := default 1 (step sp)) in *. pose proof (len_nonneg a).
  assert (forall o d, default d ((fun v => if v <? 0 then v + len a else v) <$> o) = default d (from_end (len a) <$> o)) as Hd.
  { intros [v|] d; [|done]. cbn. unfold from_end. destruct (v <? 0); [apply Z.add_comm|done]. }
  rewrite !Hd. destruct (Z.ltb_spec 0 z) as [Hz|Hz].
  - set (s := default 0 _). set (e := default (len a) _).
    rewrite <- slice_up with (k := length a) by (unfold len in *; lia).
    apply filter_ext_in. intros [o c] [Ho _]%number_lookup. cbn [fst].
    destruct (Z.le_gt_cases s (len a)); [replace (Z.max 0 (Z.min (len a) s)) with (Z.max 0 s) by lia|]; lia.
  - set (s := default (len a - 1) _). set (e := default (-1) _).
    rewrite <- slice_down with (k := S (length a)) by (unfold len in *; lia).
    apply filter_ext_in. intros [o c] [Ho _]%in_rev_elem%number_lookup. cbn [fst].
    destruct (Z.le_gt_cases (-1) s); [replace (Z.max (-1) (Z.min (len a - 1) s)) with (Z.min (len a - 1) s) by lia|]; lia.
Qed.

Lemma find_key_first key l o :
  (fun x => (x.1, x.2.2)) <$> take 1 (filter (fun x => x.2.1 = key) (number o l)) = option_list (find_key key l o).
Proof.
  revert o. induction l as [|[k v] l IH]; intros o; [done|]. cbn [number find_key]. case_bool_decide as Hk.
  - by rewrite filter_cons_True.
  - by rewrite filter_cons_False, IH.
Qed.

(** The code picks what the selector says. *)
Lemma select_eq s v : (match v with VArr a => len a < 2 ^ 32 | _ => True end) -> wf_leaf s -> select s v = select_ords s v.
Proof.
  intros Hv Hw. destruct s as [key| |i|sp| |], v as [| | | | |a|es]; try done; cbn [select select_ords].
  - apply find_key_first.
  - rewrite number_at. unfold resolve_index, from_end. pose proof (len_nonneg a).
    replace (i + len a) with (len a + i) by lia. set (r := if i <? 0 then len a + i else i).
    destruct ((0 <=? r) && (r <? 2 ^ 32)) eqn:E; [done|]. unfold pick. cbn [omap list_omap].
    destruct (get a r) eqn:Eg; [|done]. apply get_lt in Eg. lia.
  - by apply slice_of_ords.
Qed.
