(* ===== verification/PathEvalSpec.v ===== *)
(** * PathEvalSpec: the evaluator computes the path's selections

    The meaning of a path is given by structural recursion: [arrive segs v p]
    lists what happens when the walk reaches value [v] at location [p] with the
    segments [segs] left, one event per visited node, [Some] for a match. The
    frame machine of [PathEval] is shown to produce exactly these events, in
    order, whatever its node budget; suspending and resuming it changes
    nothing. *)

From S2P Require Import Prelude Tail Varint Utf8 F64 IndexKey Doc PathProgram PathEval PathSelect.
Import Varint PathProgram PathEval.

(** ** Events *)

Notation event := (option (list Z * Value)).

Section selectors.
Context (kont : Value -> list Z -> list event).

Definition leaf_trace (s : Segment) (v : Value) (p : list Z) : list event :=
  concat (map (fun '(o, c) => kont c (p ++ [o])) (select s v)).

(** A union visits its node once per member. *)
Definition member_trace (v : Value) (p : list Z) (m : Member) : list event :=
  None :: leaf_trace (member_segment m) v p.

Definition sel_trace (s : Segment) (v : Value) (p : list Z) : list event :=
  match s with
  | Union ms => concat (map (member_trace v p) ms)
  | _ => leaf_trace s v p
  end.

(** Recursive descent: the node itself, then its children, in document order. *)
Fixpoint desc_trace (inner : Segment) (v : Value) (p : list Z) : list event :=
  (None :: sel_trace inner v p) ++
  match v with
  | VArr items =>
      (fix go (o : Z) (l : list Value) :=
         match l with [] => [] | c :: l => (None :: desc_trace inner c (p ++ [o])) ++ go (o + 1) l end) 0 items
  | VObj entries =>
      (fix go (o : Z) (l : list (list byte * Value)) :=
         match l with [] => [] | c :: l => (None :: desc_trace inner c.2 (p ++ [o])) ++ go (o + 1) l end) 0 entries
  | _ => []
  end.

Definition seg_trace (s : Segment) (v : Value) (p : list Z) : list event :=
  match s with Descend inner => desc_trace inner v p | _ => sel_trace s v p end.
End selectors.

Fixpoint arrive (segs : list Segment) (v : Value) (p : list Z) : list event :=
  match segs with
  | [] => [Some (p, v)]
  | s :: rest => None :: seg_trace (arrive rest) s v p
  end.

(** The matches of a path in a document, with their locations, in order. *)
Definition matches (segs : list Segment) (root : Value) : list (list Z * Value) :=
  omap id (arrive segs root []).

Fixpoint small (v : Value) : bool :=
  match v with
  | VArr items => (len items <? 2 ^ 32) && forallb small items
  | VObj entries => (len entries <? 2 ^ 32) && forallb (fun e => small e.2) entries
  | _ => true
  end.

Definition desc_children (kont : Value -> list Z -> list event) (inner : Segment) (p : list Z)
    (l : list (Z * Value)) : list event :=
  concat (map (fun '(o, c) => None :: desc_trace kont inner c (p ++ [o])) l).

(** Numbered children, whichever container. *)
Definition ord_children (v : Value) : list (Z * Value) := number 0 (children v).

Lemma desc_trace_eq kont inner v p :
  desc_trace kont inner v p = (None :: sel_trace kont inner v p) ++ desc_children kont inner p (ord_children v).
Proof.
  unfold desc_children, ord_children. destruct v as [| | | | |items|entries]; cbn [desc_trace children number map concat]; try done.
  - f_equal. generalize 0. induction items as [|c l IH]; intros o; [done|]. cbn [number map concat]. by rewrite IH.
  - f_equal. generalize 0. induction entries as [|[k c] l IH]; intros o; [done|].
    cbn [fmap list_fmap number map concat snd]. by rewrite IH.
Qed.

(** ** Slices *)

(** A step past [i64]'s range ends the slice, saturated or not. *)
Lemma slice_ords_sat next stop stride :
  in_i64 next -> in_i64 stop -> stride <> 0 -> in_i64 stride ->
  slice_ords (sat_add next stride) stop stride = slice_ords (next + stride) stop stride.
Proof.
  unfold in_i64. intros Hn Hs H0 Hst. unfold sat_add, clamp.
  destruct (Z.le_gt_cases (- 2 ^ 63) (next + stride)), (Z.le_gt_cases (next + stride) (2 ^ 63 - 1)).
  - f_equal. lia.
  - rewrite !slice_ords_done; [done|unfold slice_done; lia|unfold slice_done; lia].
  - rewrite !slice_ords_done; [done|unfold slice_done; lia|unfold slice_done; lia].
  - lia.
Qed.

(** ** Locations *)

Lemma resolve_snoc v p o : resolve v (p ++ [o]) = c ← resolve v p; resolve_step c o.
Proof.
  revert v. induction p as [|x p IH]; intros v; cbn.
  - by destruct (resolve_step v o).
  - destruct (resolve_step v x); cbn; [apply IH|done].
Qed.

Lemma get_elem_of {A} (l : list A) i x : get l i = Some x -> x ∈ l.
Proof. intros H%get_lookup. by apply list_elem_of_lookup_2 in H. Qed.

Lemma small_child v o c : small v = true -> resolve_step v o = Some c -> small c = true /\ 0 <= o < 2 ^ 32.
Proof.
  destruct v as [| | | | |a|es]; try done; cbn [small resolve_step]; rewrite andb_true_iff, forallb_forall;
    intros [Hl%Z.ltb_lt Hs] Hg.
  - split; [|apply get_lt in Hg; lia]. apply Hs, list_elem_of_In. by apply get_elem_of in Hg.
  - destruct (get es o) as [[k v]|] eqn:E; [|done]. injection Hg as <-.
    split; [|apply get_lt in E; lia]. apply get_elem_of, list_elem_of_In in E. by apply (Hs _ E).
Qed.

Lemma number_snd_resolve (es : list (list byte * Value)) o c n :
  0 <= n -> (o, c) ∈ number n (drop (Z.to_nat n) es).*2 -> snd <$> get es o = Some (c : Value).
Proof.
  intros Hn [Hr E]%number_lookup. unfold get in *. destruct (Z.leb_spec 0 (o - n)); [|lia].
  rewrite (proj2 (Z.leb_le 0 o)) by lia. rewrite list_lookup_fmap, lookup_drop in E.
  replace (Z.to_nat n + Z.to_nat (o - n))%nat with (Z.to_nat o) in E by lia. by destruct (es !! Z.to_nat o).
Qed.

Lemma number_resolve (a : list Value) o c n :
  0 <= n -> (o, c) ∈ number n (drop (Z.to_nat n) a) -> get a o = Some c.
Proof.
  intros Hn [Hr E]%number_lookup. unfold get in *. destruct (Z.leb_spec 0 (o - n)); [|lia].
  rewrite (proj2 (Z.leb_le 0 o)) by lia. rewrite lookup_drop in E.
  by replace (Z.to_nat n + Z.to_nat (o - n))%nat with (Z.to_nat o) in E by lia.
Qed.

Lemma small_arr v : small v = true -> match v with VArr a => len a < 2 ^ 32 | _ => True end.
Proof. destruct v; try done. cbn [small]. by intros [?%Z.ltb_lt _]%andb_true_iff. Qed.

(** A selected child is where its ordinal says. *)
Lemma select_resolve s v o c : (o, c) ∈ select s v -> resolve_step v o = Some c.
Proof.
  destruct s as [key| |i|sp| |], v as [| | | | |a|es]; cbn [select resolve_step]; try (by intros ?%elem_of_nil).
  - rewrite find_key_first. destruct (find_key key es 0) as [[k x]|] eqn:E; cbn; [|by intros ?%elem_of_nil].
    intros [= -> ->]%list_elem_of_singleton. apply find_key_get in E as [_ E]. by rewrite Z.sub_0_r in E.
  - intros H. by apply (number_resolve a o c 0).
  - intros H. by apply (number_snd_resolve es o c 0).
  - intros [_ H]%list_elem_of_filter. by apply (number_resolve a o c 0).
  - unfold slice_of. destruct (0 <? _); intros [_ H]%list_elem_of_filter; [|apply in_rev_elem in H];
      by apply (number_resolve a o c 0).
Qed.

Lemma drop_uncons {A} n (l : list A) x r :
  drop n l = x :: r -> r = drop (S n) l /\ l !! n = Some x.
Proof.
  intros H. split.
  - rewrite <- Nat.add_1_r, <- drop_drop, H. done.
  - rewrite <- (Nat.add_0_r n), <- lookup_drop, H. done.
Qed.

(** ** What a frame still has to produce *)

Section machine.
Context (bytes : list byte) (root : Value).

Definition at_rest (at_ : Z) (rest : list Segment) : Prop :=
  tail_at bytes at_ (segs_bytes rest) /\ Forall wf_segment rest.

Definition located (v : Value) (p : list Z) : Prop := resolve root p = Some v /\ small v = true.

(** The selections left to a frame on a plain selector. *)
Definition pending (s : Segment) (f : Frame) (pend : list (Z * Value)) : Prop :=
  match progress f with
  | Fresh => pend = select s (node f)
  | Done => pend = []
  | PObj it n => s = ChildAny /\ exists o, node f = VObj o /\ it = drop (Z.to_nat n) o /\ 0 <= n <= len o /\ pend = number n it.*2
  | PArr it n => s = ChildAny /\ exists a, node f = VArr a /\ it = drop (Z.to_nat n) a /\ 0 <= n <= len a /\ pend = number n it
  | PSlice next stop stride =>
      (exists sp, s = Slice sp) /\ exists a, node f = VArr a /\ stride <> 0 /\ in_i64 stride /\ in_i64 next /\
        -1 <= stop <= len a /\ (0 < stride -> 0 <= next) /\ (stride < 0 -> next <= len a - 1) /\
        pend = pick a (slice_ords next stop stride)
  | _ => False
  end.

(** The children left to a descending frame. *)
Definition desc_pending (f : Frame) (l : list (Z * Value)) : Prop :=
  match progress f with
  | Done => l = []
  | PDescendObj it n => exists o, node f = VObj o /\ it = drop (Z.to_nat n) o /\ 0 <= n <= len o /\ l = number n it.*2
  | PDescendArr it n => exists a, node f = VArr a /\ it = drop (Z.to_nat n) a /\ 0 <= n <= len a /\ l = number n it
  | _ => False
  end.

Inductive frame_rem (f : Frame) (p : list Z) (tr : list event) : Prop :=
  | rem_leaf s q rest pend :
      tail_at bytes (op_at f) (leaf_bytes s ++ q) -> wf_leaf s -> (forall ms, s <> Union ms) ->
      at_rest (next_pc f) rest -> pending s f pend ->
      tr = concat (map (fun '(o, c) => arrive rest c (p ++ [o])) pend) -> frame_rem f p tr
  | rem_union ms q rest m :
      tail_at bytes (op_at f) (leaf_bytes (Union ms) ++ q) -> wf_leaf (Union ms) -> at_rest (next_pc f) rest ->
      (progress f = Fresh /\ m = 0%nat \/ progress f = PUnion (Z.of_nat m)) -> (m <= length ms)%nat ->
      tr = concat (map (member_trace (arrive rest) (node f) p) (drop m ms)) -> frame_rem f p tr
  | rem_descend inner rest :
      tail_at bytes (op_at f) (b8 OP_DESCEND :: leaf_bytes inner ++ segs_bytes rest) -> wf_leaf inner ->
      Forall wf_segment rest ->
      (progress f = Fresh /\ tr = desc_trace (arrive rest) inner (node f) p \/
       exists l, desc_pending f l /\ tr = desc_children (arrive rest) inner p l) -> frame_rem f p tr.

(** The events of a produced item. *)
Definition item_rem (item : Item) (p : list Z) (tri : list event) : Prop :=
  let p' := p ++ option_list (istep item) in
  located (inode item) p' /\
  if pc item =? len bytes then tri = [Some (p', inode item)]
  else exists tr, tri = None :: tr /\ forall st, frame_rem (fresh_frame item st) p' tr.

(** Arriving at the next segment. *)
Lemma arrive_rem {E} v at_ p st rest :
  at_rest at_ rest -> located v (p ++ option_list st) ->
  exists c, cont_of (E:=E) bytes at_ = Ok c /\
    item_rem {| inode := v; pc := at_; cont := c; istep := st |} p (arrive rest v (p ++ option_list st)).
Proof.
  intros [Ht Hw] Hl. unfold cont_of, item_rem. pose proof (tail_len _ _ _ Ht) as [_ Hlen].
  destruct rest as [|s rest].
  { change (segs_bytes []) with (@nil byte) in Hlen. rewrite len_nil in Hlen.
    rewrite (proj2 (Z.leb_le _ _)) by lia. eexists. split; [done|]. cbn [istep inode pc].
    split; [done|]. by rewrite (proj2 (Z.eqb_eq _ _)) by lia. }
  inversion Hw as [|? ? Hs Hrest]; subst. unfold segs_bytes in Ht, Hlen. cbn [map concat] in Ht, Hlen.
  fold (segs_bytes rest) in Ht, Hlen.
  destruct (seg_bytes_cons s Hs) as (b & r & Eb). rewrite Eb in Hlen.
  rewrite (proj2 (Z.leb_gt _ _)) by lens.
  assert ((at_ =? len bytes) = false) as Hne by (apply Z.eqb_neq; lens).
  destruct (segment_cases s Hs) as [(inner & -> & Hi)|[Hi Es]].
  - cbn [seg_bytes app] in Ht. assert (read_op (E:=E) bytes at_ = Ok (ODescend, at_ + 1)) as ->.
    { unfold read_op, read_leaf. by rewrite (tail_byte _ _ _ _ Ht). }
    ok_step. eexists. split; [done|]. cbn [istep inode pc]. split; [done|]. rewrite Hne.
    eexists. split; [done|]. intros st'. apply (rem_descend _ _ _ inner rest); try done. by left.
  - rewrite Es in Ht. rewrite (read_op_leaf _ _ _ _ Ht) by done. ok_step. eexists. split; [done|].
    cbn [istep inode pc]. split; [done|]. rewrite Hne. eexists. split; [done|]. intros st'.
    pose proof (tail_app _ _ _ _ Ht) as Ht'.
    destruct s as [| | | |ms|]; try done;
      [eapply rem_leaf; [exact Ht|done|done|by split|done|done]..|].
    by eapply (rem_union _ _ _ ms _ rest 0); [exact Ht|done|by split|by left|lia|].
Qed.

Lemma child_item_rem {E} f v o p rest :
  at_rest (next_pc f) rest -> located v (p ++ [o]) ->
  exists item, child_item (E:=E) bytes f v o = Ok item /\ item_rem item p (arrive rest v (p ++ [o])).
Proof.
  intros Hr Hl. destruct (arrive_rem (E:=E) v (next_pc f) p (Some o) rest Hr Hl) as (c & Hc & Hi).
  unfold child_item. rewrite Hc. by eexists.
Qed.

Lemma leaf_emit {E} s q rest f f' p o c pend' :
  tail_at bytes (op_at f) (leaf_bytes s ++ q) -> wf_leaf s -> (forall ms, s <> Union ms) ->
  at_rest (next_pc f) rest -> located (node f) p -> resolve_step (node f) o = Some c ->
  op_at f' = op_at f -> next_pc f' = next_pc f -> pending s f' pend' ->
  exists item, child_item (E:=E) bytes f' c o = Ok item /\
    exists tri tr', concat (map (fun '(o, c) => arrive rest c (p ++ [o])) ((o, c) :: pend')) = tri ++ tr' /\
      item_rem item p tri /\ frame_rem f' p tr'.
Proof.
  intros Ht Hw Hnu Hr [Hl Hsm] Hstep E1 E2 Hp. rewrite <- E2 in Hr.
  destruct (child_item_rem (E:=E) f' c o p rest Hr) as (item & Hi & Hrem).
  { split; [by rewrite resolve_snoc, Hl|]. by destruct (small_child _ _ _ Hsm Hstep). }
  exists item. split; [done|]. cbn [map concat]. do 2 eexists. split; [done|]. split; [done|].
  rewrite <- E1 in Ht. by eapply rem_leaf.
Qed.

Lemma resolve_slice_bounds sp n next stop stride :
  wf_slice sp -> 0 <= n < 2 ^ 32 -> resolve_slice sp n = (next, stop, stride) ->
  stride <> 0 /\ in_i64 stride /\ in_i64 next /\ -1 <= stop <= n /\ (0 < stride -> 0 <= next) /\
  (stride < 0 -> next <= n - 1).
Proof.
  intros (_ & _ & Hst & Hst0) Hn. unfold resolve_slice, clamp.
  assert (default 1 (step sp) <> 0 /\ in_i64 (default 1 (step sp))) as [H0 Hi].
  { destruct (step sp) as [z|]; cbn in *; [split; [congruence|done]|unfold in_i64; lia]. }
  set (z := default 1 (step sp)) in *. unfold in_i64 in *.
  destruct (Z.ltb_spec 0 z); intros [= <- <- <-]; lia.
Qed.

(** One call of [advance]: the next item with its events, or none are left. *)
Definition advances (E : Type) (f : Frame) (p : list Z) (tr : list event) : Prop :=
  exists next f', advance (E:=E) bytes f = Ok (next, f') /\ node f' = node f /\ stepped f' = stepped f /\
    match next with
    | Some item => exists tri tr', tr = tri ++ tr' /\ item_rem item p tri /\ frame_rem f' p tr'
    | None => tr = []
    end.

Lemma pending_oneshot s f pend :
  pending s f pend -> s <> ChildAny -> (forall sp, s <> Slice sp) ->
  (progress f = Fresh /\ pend = select s (node f)) \/ (progress f = Done /\ pend = []).
Proof. unfold pending. destruct (progress f); naive_solver. Qed.

Ltac advance_none := do 2 eexists; split; [reflexivity|]; split_and!; try done.
Ltac advance_item H :=
  let item := fresh "item" in let tri := fresh "tri" in let tr' := fresh "tr'" in
  destruct H as (item & -> & tri & tr' & ? & ? & ?); ok_step;
  do 2 eexists; split; [reflexivity|]; split_and!; try done; cbn beta iota;
  exists tri, tr'; done.

Lemma advance_child {E} n f p q rest pend :
  tail_at bytes (op_at f) (leaf_bytes (Child n) ++ q) -> wf_leaf (Child n) -> at_rest (next_pc f) rest ->
  located (node f) p -> pending (Child n) f pend ->
  advances E f p (concat (map (fun '(o, c) => arrive rest c (p ++ [o])) pend)).
Proof.
  intros Ht Hw Hr Hl Hp. unfold advances, advance. rewrite (read_op_leaf _ _ _ _ Ht) by done. ok_step. cbn [leaf_op].
  apply pending_oneshot in Hp as [[-> ->]|[-> ->]]; [|advance_none|done..]. cbv zeta.
  rewrite select_eq by (try done; apply small_arr, Hl). cbn [select_ords].
  destruct (node f) as [| | | | | |es] eqn:En; try advance_none.
  destruct (find_key n es 0) as [[o c]|] eqn:Ek; cbn [option_list]; [|advance_none].
  apply find_key_get in Ek as Hg. destruct Hg as [Hb Hg]. rewrite Z.sub_0_r in Hg.
  assert (resolve_step (node f) o = Some c) as Hstep by by rewrite En.
  assert (located (node f) p) as Hl' by by rewrite En. clear Hl. rename Hl' into Hl. pose proof Hl as [_ Hsm].
  destruct (small_child _ o c Hsm Hstep) as [_ Ho]. rewrite wrap_id by done.
  pose proof (leaf_emit (E:=E) (Child n) q rest f (with_progress f Done) p o c [] Ht Hw ltac:(done) Hr Hl Hstep eq_refl eq_refl eq_refl) as H.
  advance_item H.
Qed.

Lemma advance_index {E} i f p q rest pend :
  tail_at bytes (op_at f) (leaf_bytes (Index i) ++ q) -> wf_leaf (Index i) -> at_rest (next_pc f) rest ->
  located (node f) p -> pending (Index i) f pend ->
  advances E f p (concat (map (fun '(o, c) => arrive rest c (p ++ [o])) pend)).
Proof.
  intros Ht Hw Hr Hl Hp. unfold advances, advance. rewrite (read_op_leaf _ _ _ _ Ht) by done. ok_step. cbn [leaf_op].
  apply pending_oneshot in Hp as [[-> ->]|[-> ->]]; [|advance_none|done..]. cbv zeta.
  rewrite select_eq by (try done; apply small_arr, Hl). cbn [select_ords].
  destruct (node f) as [| | | | |a|] eqn:En; try advance_none.
  destruct (resolve_index i (len a)) as [o|]; [|advance_none]. unfold pick. cbn [omap list_omap].
  destruct (get a o) as [c|] eqn:Eg; cbn [fmap option_fmap option_map]; [|advance_none].
  assert (resolve_step (node f) o = Some c) as Hstep by by rewrite En.
  assert (located (node f) p) as Hl' by by rewrite En. clear Hl. rename Hl' into Hl.
  pose proof (leaf_emit (E:=E) (Index i) q rest f (with_progress f Done) p o c [] Ht Hw ltac:(done) Hr Hl Hstep eq_refl eq_refl eq_refl) as H.
  advance_item H.
Qed.

Lemma advance_any {E} f p q rest pend :
  tail_at bytes (op_at f) (leaf_bytes ChildAny ++ q) -> at_rest (next_pc f) rest ->
  located (node f) p -> pending ChildAny f pend ->
  advances E f p (concat (map (fun '(o, c) => arrive rest c (p ++ [o])) pend)).
Proof.
  intros Ht Hr Hl Hp. unfold advances, advance. rewrite (read_op_leaf _ _ _ _ Ht) by done. ok_step. cbn [leaf_op].
  cbv zeta. pose proof Hl as [_ Hsm].
  assert (forall es n it, node f = VObj es -> it = drop (Z.to_nat n) es -> 0 <= n <= len es -> pend = number n it.*2 ->
    exists next f', match it with
      | (_, v) :: it' => item ← child_item bytes (with_progress f (PObj it' (wrap 32 (n + 1)))) v n;
                         Ok (E:=E) (Some item, with_progress f (PObj it' (wrap 32 (n + 1))))
      | [] => Ok (None, with_progress f (PObj it n))
      end = Ok (next, f') /\ node f' = node f /\ stepped f' = stepped f /\
    match next with
    | Some item => exists tri tr', concat (map (fun '(o, c) => arrive rest c (p ++ [o])) pend) = tri ++ tr' /\
        item_rem item p tri /\ frame_rem f' p tr'
    | None => concat (map (fun '(o, c) => arrive rest c (p ++ [o])) pend) = []
    end) as Hobj.
  { intros es n it En -> Hn ->. destruct (drop (Z.to_nat n) es) as [|[k v] it'] eqn:Ed; [advance_none|].
    destruct (drop_uncons _ _ _ _ Ed) as [Eit Hlk]. cbn [fmap list_fmap snd number].
    assert (resolve_step (node f) n = Some v) as Hstep.
    { rewrite En. cbn [resolve_step]. unfold get. by rewrite (proj2 (Z.leb_le 0 n)), Hlk by lia. }
    destruct (small_child _ _ _ Hsm Hstep) as [_ Hn32]. apply lookup_lt_Some in Hlk.
    rewrite En in Hsm. cbn [small] in Hsm. apply andb_true_iff in Hsm as [Hlen%Z.ltb_lt _].
    rewrite wrap_id by (unfold in_u, len in *; lia).
    pose proof (leaf_emit (E:=E) ChildAny q rest f (with_progress f (PObj it' (n + 1))) p n v (number (n + 1) it'.*2)
      Ht I ltac:(done) Hr Hl Hstep eq_refl eq_refl) as H.
    assert (pending ChildAny (with_progress f (PObj it' (n + 1))) (number (n + 1) it'.*2)) as Hpd.
    { cbn. split; [done|]. exists es. split_and!; try done; [|lia|unfold len; lia].
      rewrite Eit. f_equal. lia. }
    specialize (H Hpd). advance_item H. }
  assert (forall a n it, node f = VArr a -> it = drop (Z.to_nat n) a -> 0 <= n <= len a -> pend = number n it ->
    exists next f', match it with
      | v :: it' => item ← child_item bytes (with_progress f (PArr it' (wrap 32 (n + 1)))) v n;
                    Ok (E:=E) (Some item, with_progress f (PArr it' (wrap 32 (n + 1))))
      | [] => Ok (None, with_progress f (PArr it n))
      end = Ok (next, f') /\ node f' = node f /\ stepped f' = stepped f /\
    match next with
    | Some item => exists tri tr', concat (map (fun '(o, c) => arrive rest c (p ++ [o])) pend) = tri ++ tr' /\
        item_rem item p tri /\ frame_rem f' p tr'
    | None => concat (map (fun '(o, c) => arrive rest c (p ++ [o])) pend) = []
    end) as Harr.
  { intros a n it En -> Hn ->. destruct (drop (Z.to_nat n) a) as [|v it'] eqn:Ed; [advance_none|].
    destruct (drop_uncons _ _ _ _ Ed) as [Eit Hlk]. cbn [number].
    assert (resolve_step (node f) n = Some v) as Hstep.
    { rewrite En. cbn [resolve_step]. unfold get. by rewrite (proj2 (Z.leb_le 0 n)), Hlk by lia. }
    apply lookup_lt_Some in Hlk.
    rewrite En in Hsm. cbn [small] in Hsm. apply andb_true_iff in Hsm as [Hlen%Z.ltb_lt _].
    rewrite wrap_id by (unfold in_u, len in *; lia).
    pose proof (leaf_emit (E:=E) ChildAny q rest f (with_progress f (PArr it' (n + 1))) p n v (number (n + 1) it')
      Ht I ltac:(done) Hr Hl Hstep eq_refl eq_refl) as H.
    assert (pending ChildAny (with_progress f (PArr it' (n + 1))) (number (n + 1) it')) as Hpd.
    { cbn. split; [done|]. exists a. split_and!; try done; [|lia|unfold len; lia].
      rewrite Eit. f_equal. lia. }
    specialize (H Hpd). advance_item H. }
  unfold pending in Hp. destruct (progress f) eqn:Ef; try done.
  - subst pend. cbn [select]. destruct (node f) as [| | | | |a|es] eqn:En; try advance_none.
    + destruct (Harr a 0 a) as (next & f' & Hm & Hrest); try done; [pose proof (len_nonneg a); lia|].
      exists next, f'. split; [|done]. rewrite <- Hm. by destruct a.
    + destruct (Hobj es 0 es) as (next & f' & Hm & Hrest); try done; [pose proof (len_nonneg es); lia|].
      exists next, f'. split; [|done]. rewrite <- Hm. by destruct es as [|[]].
  - subst pend. advance_none.
  - destruct Hp as [_ (es & En & -> & Hn & ->)].
    destruct (Hobj es next_ord _ En eq_refl Hn eq_refl) as (next & f' & Hm & Hrest).
    exists next, f'. split; [|done]. rewrite <- Hm. by destruct (drop _ es) as [|[]].
  - destruct Hp as [_ (a & En & -> & Hn & ->)].
    destruct (Harr a next_ord _ En eq_refl Hn eq_refl) as (next & f' & Hm & Hrest).
    exists next, f'. split; [|done]. rewrite <- Hm. by destruct (drop _ a).
  - destruct Hp as [[? ?] _]. done.
Qed.

Lemma advance_slice {E} sp f p q rest pend :
  tail_at bytes (op_at f) (leaf_bytes (Slice sp) ++ q) -> wf_leaf (Slice sp) -> at_rest (next_pc f) rest ->
  located (node f) p -> pending (Slice sp) f pend ->
  advances E f p (concat (map (fun '(o, c) => arrive rest c (p ++ [o])) pend)).
Proof.
  intros Ht Hw Hr Hl Hp. unfold advances, advance. rewrite (read_op_leaf _ _ _ _ Ht) by done. ok_step. cbn [leaf_op].
  cbv zeta. pose proof Hl as [_ Hsm].
  assert (forall a next stop stride, node f = VArr a -> stride <> 0 -> in_i64 stride -> in_i64 next ->
    -1 <= stop <= len a -> (0 < stride -> 0 <= next) -> (stride < 0 -> next <= len a - 1) ->
    pend = pick a (slice_ords next stop stride) ->
    exists nx f', (if ((0 <? stride) && (stop <=? next)) || ((stride <? 0) && (next <=? stop))
          then Ok (None, with_progress f (PSlice next stop stride))
          else
            match node f with
            | VArr a =>
                v ← expect (get a next);
                item ← child_item bytes (with_progress f (PSlice (sat_add next stride) stop stride)) v (wrap 32 next);
                Ok (E:=E) (Some item, with_progress f (PSlice (sat_add next stride) stop stride))
            | _ => Panic
            end) = Ok (nx, f') /\ node f' = node f /\ stepped f' = stepped f /\
    match nx with
    | Some item => exists tri tr', concat (map (fun '(o, c) => arrive rest c (p ++ [o])) pend) = tri ++ tr' /\
        item_rem item p tri /\ frame_rem f' p tr'
    | None => concat (map (fun '(o, c) => arrive rest c (p ++ [o])) pend) = []
    end) as Hmain.
  { intros a next stop stride En H0 Hst Hn Hstop Hpos Hneg ->.
    destruct (_ || _) eqn:Ed; fold (slice_done next stop stride) in Ed.
    { rewrite slice_ords_done by done. advance_none. }
    assert (0 <= next < len a) as Hin by (unfold slice_done in Ed; lia).
    destruct (get_in a next Hin) as [c Hc].
    assert (resolve_step (node f) next = Some c) as Hstep by by rewrite En.
    destruct (small_child _ _ _ Hsm Hstep) as [_ Hn32]. rewrite wrap_id by done.
    assert (len a < 2 ^ 32) as Hla.
    { rewrite En in Hsm. cbn [small] in Hsm. by apply andb_true_iff in Hsm as [?%Z.ltb_lt _]. }
    rewrite slice_ords_step by done. unfold pick. cbn [omap list_omap]. rewrite Hc.
    cbn [fmap option_fmap option_map]. fold (pick a (slice_ords (next + stride) stop stride)).
    set (f1 := with_progress f (PSlice (sat_add next stride) stop stride)).
    pose proof (leaf_emit (E:=E) (Slice sp) q rest f f1 p next c (pick a (slice_ords (next + stride) stop stride))
      Ht Hw ltac:(done) Hr Hl Hstep eq_refl eq_refl) as H.
    assert (pending (Slice sp) f1 (pick a (slice_ords (next + stride) stop stride))) as Hpd.
    { unfold f1. cbn [pending with_progress progress node]. split; [by exists sp|]. exists a.
      unfold in_i64 in *. split_and!; try done; try lia; try (unfold sat_add, clamp; lia).
      rewrite slice_ords_sat; done || (unfold in_i64; lia). }
    specialize (H Hpd). rewrite En, Hc. cbn [expect]. ok_step. rewrite <- En. fold f1. advance_item H. }
  unfold pending in Hp. destruct (progress f) eqn:Ef; try (by destruct Hp).
  - subst pend. cbn [select]. destruct (node f) as [| | | | |a|es] eqn:En; try advance_none.
    destruct (resolve_slice sp (len a)) as [[next stop] stride] eqn:Es.
    assert (0 <= len a < 2 ^ 32) as Hla.
    { cbn [small] in Hsm. apply andb_true_iff in Hsm as [?%Z.ltb_lt _]. pose proof (len_nonneg a). lia. }
    destruct (resolve_slice_bounds sp (len a) next stop stride Hw Hla Es) as (? & ? & ? & ? & ? & ?).
    apply (Hmain a next stop stride); try done. cbn [select]. by rewrite slice_of_ords, Es.
  - subst pend. advance_none.
  - destruct Hp as [_ (a & En & ? & ? & ? & ? & ? & ? & ->)]. by apply (Hmain a next stop stride).
Qed.

Lemma advance_union {E} ms m f p q rest :
  tail_at bytes (op_at f) (leaf_bytes (Union ms) ++ q) -> wf_leaf (Union ms) -> at_rest (next_pc f) rest ->
  located (node f) p ->
  (progress f = Fresh /\ m = 0%nat \/ progress f = PUnion (Z.of_nat m)) -> (m <= length ms)%nat ->
  advances E f p (concat (map (member_trace (arrive rest) (node f) p) (drop m ms))).
Proof.
  intros Ht Hw Hr Hl Hp Hm. unfold advances, advance. rewrite (read_op_leaf _ _ _ _ Ht) by done. ok_step. cbn [leaf_op].
  cbv zeta. assert (match progress f with Fresh => Some 0 | PUnion m => Some m | _ => None end = Some (Z.of_nat m)) as ->
    by by destruct Hp as [[-> ->]| ->].
  destruct (Z.eqb_spec (Z.of_nat m) (len ms)) as [Em|Em].
  { assert (m = length ms) as -> by (unfold len in Em; lia). rewrite drop_all. advance_none. }
  destruct (lookup_lt_is_Some_2 ms m) as [mm Hmm]; [unfold len in Em; lia|].
  pose proof Hw as [Hc Hf]. pose proof Ht as Hu. cbn [leaf_bytes app] in Hu. do 2 apply tail_cons in Hu.
  rewrite <- Z.add_assoc in Hu. change (1 + 1) with 2 in Hu.
  rewrite Nat2Z.id, (member_at_members _ _ _ _ m Hu) by done. ok_step.
  rewrite (drop_S _ _ _ Hmm). cbn [map concat].
  assert (tail_at bytes (op_at f + 2 + len (concat (map member_bytes (take m ms))))
    (member_bytes mm ++ concat (map member_bytes (drop (S m) ms)) ++ q)) as Hmt.
  { rewrite <- (take_drop_middle _ _ _ Hmm), map_app, concat_app in Hu. cbn [map concat] in Hu.
    rewrite <- !app_assoc in Hu. by apply tail_app in Hu. }
  pose proof (tail_len _ _ _ Hmt) as [_ Hlen]. destruct (member_bytes_cons mm) as (b & r & Eb & _).
  assert (wf_member mm) as Hwm by by apply (Forall_lookup_1 _ _ _ _ Hf Hmm).
  do 2 eexists. split; [reflexivity|]. split_and!; try done. cbn beta iota. do 2 eexists. split; [done|]. split.
  - unfold item_rem. cbn [istep option_list inode pc]. rewrite app_nil_r. split; [done|].
    rewrite (proj2 (Z.eqb_neq _ _)) by (rewrite Eb in Hlen; lens).
    eexists. split; [done|]. intros st.
    apply (rem_leaf _ _ _ (member_segment mm) (concat (map member_bytes (drop (S m) ms)) ++ q) rest (select (member_segment mm) (node f)));
      [by destruct mm|by destruct mm|by destruct mm|done|done|done].
  - apply (rem_union _ _ _ ms q rest (S m)); try done; [|unfold len in Em; lia]. right. cbn [with_progress progress]. f_equal. lia.
Qed.

Lemma advance_descend {E} inner f p rest tr :
  tail_at bytes (op_at f) (b8 OP_DESCEND :: leaf_bytes inner ++ segs_bytes rest) -> wf_leaf inner ->
  Forall wf_segment rest -> located (node f) p ->
  (progress f = Fresh /\ tr = desc_trace (arrive rest) inner (node f) p \/
   exists l, desc_pending f l /\ tr = desc_children (arrive rest) inner p l) ->
  advances E f p tr.
Proof.
  intros Ht Hw Hf Hl Hp. unfold advances, advance.
  assert (read_op (E:=E) bytes (op_at f) = Ok (ODescend, op_at f + 1)) as ->.
  { unfold read_op, read_leaf. by rewrite (tail_byte _ _ _ _ Ht). }
  ok_step. cbv zeta. pose proof (tail_cons _ _ _ _ Ht) as Hs. pose proof (tail_len _ _ _ Hs) as [_ Hlen].
  destruct (leaf_bytes_cons inner Hw) as (b & r & Eb).
  destruct Hp as [[-> ->]|(l & Hl' & ->)].
  - unfold cont_of. rewrite (proj2 (Z.leb_gt _ _)) by (rewrite Eb in Hlen; lens).
    rewrite (read_op_leaf _ _ _ _ Hs) by done. ok_step.
    do 2 eexists. split; [reflexivity|]. split_and!; try done. cbn beta iota. rewrite desc_trace_eq.
    do 2 eexists. split; [done|]. split.
    + unfold item_rem. cbn [istep option_list inode pc]. rewrite app_nil_r. split; [done|].
      rewrite (proj2 (Z.eqb_neq _ _)) by (rewrite Eb in Hlen; lens). eexists. split; [done|]. intros st.
      apply tail_app in Hs as Hr.
      destruct inner as [| | | |ms|]; try done;
        [by eapply (rem_leaf _ _ _ _ (segs_bytes rest) rest)..|].
      by eapply (rem_union _ _ _ ms (segs_bytes rest) rest 0); [exact Hs|done|by split|by left|lia|].
    + apply (rem_descend _ _ _ inner rest); try done. right. exists (ord_children (node f)). split; [|done].
      unfold ord_children, desc_pending. cbn [with_progress progress node].
      destruct (node f) as [| | | | |a|es]; try done; [exists a|exists es]; split_and!; try done; apply len_nonneg.
  - pose proof Hl as [Hres Hsm].
    assert (forall v o f1 l1, resolve_step (node f) o = Some v -> op_at f1 = op_at f -> desc_pending f1 l1 ->
      exists tri tr', desc_children (arrive rest) inner p ((o, v) :: l1) = tri ++ tr' /\
        item_rem {| inode := v; pc := op_at f; cont := op_at f + 1; istep := Some o |} p tri /\ frame_rem f1 p tr') as Hemit.
    { intros v o f1 l1 Hstep E1 Hp1. unfold desc_children. cbn [map concat].
      eexists _, (desc_children (arrive rest) inner p l1). split; [done|]. split.
      - unfold item_rem. cbn [istep option_list inode pc]. split.
        { split; [change (resolve root (p ++ [o]) = Some v); by rewrite resolve_snoc, Hres|]. by destruct (small_child _ _ _ Hsm Hstep). }
        rewrite (proj2 (Z.eqb_neq _ _)) by (rewrite Eb in Hlen; lens). eexists. split; [done|]. intros st.
        apply (rem_descend _ _ _ inner rest); try done. by left.
      - rewrite <- E1 in Ht. apply (rem_descend _ _ _ inner rest); try done. right. by exists l1. }
    unfold desc_pending in Hl'. destruct (progress f) as [| | | | | |it n|it n] eqn:Ef; try done.
    + subst l. by advance_none.
    + destruct Hl' as (es & En & -> & Hn & ->).
      destruct (drop (Z.to_nat n) es) as [|[k v] it'] eqn:Ed; [by advance_none|].
      destruct (drop_uncons _ _ _ _ Ed) as [Eit Hlk]. cbn [fmap list_fmap snd number].
      assert (resolve_step (node f) n = Some v) as Hstep.
      { rewrite En. cbn [resolve_step]. unfold get. by rewrite (proj2 (Z.leb_le 0 n)), Hlk by lia. }
      apply lookup_lt_Some in Hlk. rewrite En in Hsm. cbn [small] in Hsm. apply andb_true_iff in Hsm as [Hlen32%Z.ltb_lt _].
      rewrite wrap_id by (unfold in_u, len in *; lia).
      do 2 eexists. split; [reflexivity|]. split_and!; try done. cbn beta iota. apply Hemit; try done.
      cbn [desc_pending with_progress progress node]. exists es. split_and!; try done; [|lia|unfold len; lia].
      rewrite Eit. f_equal. lia.
    + destruct Hl' as (a & En & -> & Hn & ->).
      destruct (drop (Z.to_nat n) a) as [|v it'] eqn:Ed; [by advance_none|].
      destruct (drop_uncons _ _ _ _ Ed) as [Eit Hlk]. cbn [number].
      assert (resolve_step (node f) n = Some v) as Hstep.
      { rewrite En. cbn [resolve_step]. unfold get. by rewrite (proj2 (Z.leb_le 0 n)), Hlk by lia. }
      apply lookup_lt_Some in Hlk. rewrite En in Hsm. cbn [small] in Hsm. apply andb_true_iff in Hsm as [Hlen32%Z.ltb_lt _].
      rewrite wrap_id by (unfold in_u, len in *; lia).
      do 2 eexists. split; [reflexivity|]. split_and!; try done. cbn beta iota. apply Hemit; try done.
      cbn [desc_pending with_progress progress node]. exists a. split_and!; try done; [|lia|unfold len; lia].
      rewrite Eit. f_equal. lia.
Qed.

Lemma advance_rem {E} f p tr : located (node f) p -> frame_rem f p tr -> advances E f p tr.
Proof.
  intros Hl [s q rest pend Ht Hw Hnu Hr Hp ->|ms q rest m Ht Hw Hr Hp Hm ->|inner rest Ht Hw Hf Hp].
  - destruct s as [n| |i|sp|ms|]; try done.
    + by apply (advance_child n _ _ q).
    + by apply (advance_any _ _ q).
    + by apply (advance_index i _ _ q).
    + by apply (advance_slice sp _ _ q).
    + by destruct (Hnu ms).
  - by apply (advance_union ms m _ _ q).
  - by apply (advance_descend inner _ _ rest).
Qed.

(** ** The machine *)

Inductive stack_rem : list Frame -> list Z -> list event -> Prop :=
  | stack_nil : stack_rem [] [] []
  | stack_cons f st p tr trs :
      located (node f) p -> frame_rem f p tr -> (stepped f = true -> p <> []) ->
      stack_rem st (if stepped f then removelast p else p) trs ->
      stack_rem (f :: st) p (tr ++ trs).

(** Record the matches among the events. *)
Fixpoint record_all (m : Matches) (evs : list event) (cap : Z) : outcome EvalError Matches :=
  match evs with
  | [] => Ok m
  | None :: evs => record_all m evs cap
  | Some (p, _) :: evs => m ← record m p None cap; record_all m evs cap
  end.

Lemma record_snoc m p o cap : record m p (Some o) cap = record m (p ++ [o]) None cap.
Proof.
  unfold record. cbn [option_list]. rewrite app_nil_r.
  by replace (len (p ++ [o]) + 0) with (len p + 1) by lens.
Qed.

Lemma record_not_Panic m p o cap : record m p o cap <> Panic.
Proof.
  unfold record. repeat (destruct (_ <=? _); [done|]). apply bind_not_Panic; [apply ok_or_not_Panic|done].
Qed.

(** Consuming an item records its event or pushes its frame. *)
Lemma consume_rem item st p tri trs m cap :
  stack_rem st p trs -> item_rem item p tri ->
  exists ev tri', tri = ev :: tri' /\
    match record_all m [ev] cap with
    | Ok m' => exists st' p', consume item st p m (len bytes) cap = Ok (st', p', m') /\
        stack_rem st' p' (tri' ++ trs) /\ (length st' <= S (length st))%nat
    | Err e => consume item st p m (len bytes) cap = Err e
    | Panic => False
    end.
Proof.
  intros Hst [Hil Hi]. unfold consume. destruct (pc item =? len bytes).
  - subst tri. do 2 eexists. split; [done|]. cbn [record_all app].
    assert (record m p (istep item) cap = record m (p ++ option_list (istep item)) None cap) as ->.
    { destruct (istep item) as [o|]; [apply record_snoc|]. cbn [option_list]. by rewrite app_nil_r. }
    pose proof (record_not_Panic m (p ++ option_list (istep item)) None cap) as Hnp.
    destruct (record m _ None cap) as [m'|e|]; [|done..]. ok_step.
    do 2 eexists. split; [done|]. split; [done|lia].
  - destruct Hi as (tr & -> & Hfr). do 2 eexists. split; [done|]. cbn [record_all].
    do 2 eexists. split; [done|]. split; [|cbn; lia].
    apply stack_cons; [done|apply Hfr| |].
    + cbn [fresh_frame stepped]. destruct (istep item) as [o|]; [|done]. intros _ E. by destruct p.
    + cbn [fresh_frame stepped]. destruct (istep item) as [o|].
      * rewrite bool_decide_true by done. change (option_list (Some o)) with [o].
        by rewrite removelast_last.
      * rewrite bool_decide_false by (intros H; by apply H). by rewrite app_nil_r.
Qed.

Lemma record_all_cons m ev evs cap :
  record_all m (ev :: evs) cap = m ← record_all m [ev] cap; record_all m evs cap.
Proof. destruct ev as [[p v]|]; cbn [record_all]; [|done]. destruct (record m p None cap); done. Qed.

Lemma run_loop_rem fuel st p tr m cap (b : nat) :
  stack_rem st p tr -> (2 * length tr + length st < fuel)%nat ->
  match record_all m (take (S b) tr) cap with
  | Ok m' =>
      if (length tr <=? b)%nat then run_loop fuel bytes cap st p m (Z.of_nat b) = Ok (EDone m')
      else exists st' p', stack_rem st' p' (drop (S b) tr) /\
             (2 * length (drop (S b) tr) + length st' <= 2 * length tr + length st)%nat /\
             run_loop fuel bytes cap st p m (Z.of_nat b) = Ok (Yield (save st' p' m'))
  | Err e => run_loop fuel bytes cap st p m (Z.of_nat b) = Err e
  | Panic => False
  end.
Proof.
  revert st p tr m b. induction fuel as [|fuel IH]; intros st p tr m b Hst Hfuel; [lia|].
  destruct Hst as [|f st p tr trs Hl Hf Hs Hst]; [by destruct b|]. cbn [run_loop].
  destruct (advance_rem (E:=EvalError) f p tr Hl Hf) as (next & f' & -> & En & Es & Hnext). ok_step.
  destruct next as [item|].
  - destruct Hnext as (tri & tr' & -> & Hi & Hf'). rewrite <- En in Hl. rewrite <- Es in Hs, Hst.
    destruct (consume_rem item (f' :: st) p tri (tr' ++ trs) m cap) as (ev & tri' & -> & Hc); [by apply stack_cons|done|].
    rewrite <- !app_assoc. cbn [app] in *. rewrite <- !app_assoc in Hfuel. cbn [take length] in *. rewrite record_all_cons.
    destruct (record_all m [ev] cap) as [m1|e|]; ok_step; [|by rewrite Hc|done].
    destruct Hc as (st' & p' & -> & Hst' & Hlen). cbn [length] in Hlen. ok_step. destruct b as [|b].
    + rewrite skipn_cons, drop_0. cbn [Z.of_nat Z.eqb take record_all Nat.leb]. exists st', p'. split; [done|]. split; [lia|done].
    + rewrite (proj2 (Z.eqb_neq _ 0)) by lia. replace (Z.of_nat (S b) - 1) with (Z.of_nat b) by lia.
      pose proof (IH st' p' _ m1 b Hst' ltac:(lia)) as IH'. rewrite skipn_cons. cbn [Nat.leb].
      destruct (record_all m1 _ cap); [|done..]. destruct (_ <=? _)%nat; [done|].
      destruct IH' as (st2 & p2 & ? & ? & ?). exists st2, p2. split; [done|]. split; [lia|done].
  - subst tr. cbn [app length] in *. rewrite Es. pose proof (IH st _ trs m b Hst ltac:(lia)) as IH'.
    destruct (record_all m _ cap); [|done..]. destruct (_ <=? _)%nat; [done|].
    destruct IH' as (st2 & p2 & ? & ? & ?). exists st2, p2. split; [done|]. split; [lia|done].
Qed.

(** ** Suspending and resuming *)

Lemma skip_entries_Ok {E A} n (l : list A) : n <= len l -> skip_entries (E:=E) n l = Ok (drop (Z.to_nat n) l).
Proof. intros H. unfold skip_entries. by rewrite (proj2 (Z.leb_le _ _)). Qed.

Lemma rebuild_saved {E} f p tr :
  frame_rem f p tr -> rebuild_progress (E:=E) (s_progress (save_frame f)) (node f) = Ok (progress f).
Proof.
  destruct 1 as [s q rest pend _ _ _ _ Hp _|ms q rest m _ _ _ Hp _ _|inner rest _ _ _ Hp].
  - unfold pending in Hp. unfold save_frame. cbn [s_progress]. destruct (progress f); try done; cbn [rebuild_progress];
      destruct Hp as (_ & ? & -> & -> & ? & _); by rewrite skip_entries_Ok by lia.
  - unfold save_frame. cbn [s_progress]. by destruct Hp as [[-> _]| ->].
  - unfold save_frame. cbn [s_progress]. destruct Hp as [[-> _]|(l & Hp & _)]; [done|].
    unfold desc_pending in Hp. destruct (progress f); try done; cbn [rebuild_progress];
      destruct Hp as (? & -> & -> & ? & _); by rewrite skip_entries_Ok by lia.
Qed.

Definition top_node (st : list Frame) : Value := match st with f :: _ => node f | [] => root end.

Lemma rebuild_stack {E} st p tr saved path :
  stack_rem st p tr ->
  resolve root p = Some (top_node st) /\
  rebuild_frames (E:=E) (rev (map save_frame st) ++ saved) (p ++ path) root [] =
  rebuild_frames saved path (top_node st) st.
Proof.
  intros H. revert saved path. induction H as [|f st p tr trs [Hl _] Hf Hs Hst IH]; intros saved path; [done|].
  split; [done|]. cbn [map rev]. rewrite <- app_assoc. cbn [app].
  assert (forall v, rebuild_frames (E:=E) (save_frame f :: saved)
            ((if stepped f then [last p 0] else []) ++ path) v st =
          '(v, path) ← (if stepped f then v ← expect (resolve_step v (last p 0)); Ok (v, path) else Ok (v, path));
          p ← rebuild_progress (s_progress (save_frame f)) v;
          rebuild_frames saved path v ({| op_at := op_at f; next_pc := next_pc f; node := v;
            stepped := stepped f; progress := p |} :: st)) as Hunf by (intros v; cbn; by destruct (stepped f)).
  destruct (stepped f) eqn:Ef.
  - pose proof (app_removelast_last 0 (Hs eq_refl)) as Ep. rewrite Ep, <- app_assoc at 1.
    destruct (IH (save_frame f :: saved) ([last p 0] ++ path)) as [Hr ->]. rewrite Hunf.
    rewrite Ep, resolve_snoc, Hr in Hl. cbn [mbind option_bind] in Hl. cbn [top_node]. rewrite Hl. ok_step.
    rewrite (rebuild_saved f p tr Hf). ok_step. destruct f. cbn in *. by subst.
  - destruct (IH (save_frame f :: saved) path) as [Hr ->]. cbn [app] in Hunf. rewrite Hunf. rewrite Hl in Hr. injection Hr as <-. ok_step.
    rewrite (rebuild_saved f p tr Hf). ok_step. destruct f. cbn in *. by subst.
Qed.

Lemma resume_saved fuel st p tr m cap budget :
  stack_rem st p tr ->
  run fuel bytes root cap budget (Some (save st p m)) = run_loop fuel bytes cap st p m budget.
Proof.
  intros H. unfold run, save. cbn [s_frames s_path s_matches].
  pose proof (rebuild_stack (E:=EvalError) st p tr [] [] H) as [_ E]. rewrite !app_nil_r in E. by rewrite E.
Qed.

End machine.

(** ** The recorded match set *)

Fixpoint spans_of (at_ : Z) (ps : list (list Z)) : list (Z * Z) :=
  match ps with [] => [] | p :: ps => (at_, len p) :: spans_of (at_ + len p) ps end.
(** The flat layout of a list of location paths. *)
Definition matches_of (ps : list (list Z)) : Matches := {| steps := concat ps; spans := spans_of 0 ps |}.

(** Within the match cap, the path-length width and the step-buffer width. *)
Definition recordable (cap : Z) (ps : list (list Z)) : bool :=
  (len ps <=? cap) && forallb (fun p => len p <? 2 ^ 16) ps && (len (concat ps) <? 2 ^ 32).

Lemma spans_of_app at_ ps qs : spans_of at_ (ps ++ qs) = spans_of at_ ps ++ spans_of (at_ + len (concat ps)) qs.
Proof.
  revert at_. induction ps as [|p ps IH]; intros at_; cbn [app spans_of concat].
  - by rewrite len_nil, Z.add_0_r.
  - rewrite IH, len_app. do 3 f_equal. lia.
Qed.

Lemma spans_of_len at_ ps : len (spans_of at_ ps) = len ps.
Proof. revert at_. induction ps as [|p ps IH]; intros at_; [done|]. cbn [spans_of]. by rewrite !len_cons, IH. Qed.

(** [Matches::get] reads back the recorded paths. *)
Lemma match_path_of {E} ps i p : get ps i = Some p -> match_path (E:=E) (matches_of ps) i = Ok p.
Proof.
  intros (l & r & -> & <-)%get_split. unfold match_path, matches_of. cbn [steps spans].
  assert (get (spans_of 0 (l ++ p :: r)) (len l) = Some (len (concat l), len p)) as ->.
  { apply get_split. rewrite spans_of_app. do 2 eexists. split; [done|apply spans_of_len]. }
  ok_step. apply slice_Ok. rewrite concat_app. do 2 eexists. split; [done|lens].
Qed.

Lemma recordable_app cap ps qs : recordable cap (ps ++ qs) = true -> recordable cap ps = true.
Proof.
  unfold recordable. rewrite concat_app, forallb_app, !len_app. intros H.
  apply andb_true_iff in H as [[H1 [H2 _]%andb_true_iff]%andb_true_iff H3].
  pose proof (len_nonneg qs). pose proof (len_nonneg (concat qs)). rewrite H2. lia.
Qed.

Lemma record_of cap ps p :
  recordable cap ps = true ->
  record (matches_of ps) p None cap =
  if recordable cap (ps ++ [p]) then Ok (matches_of (ps ++ [p])) else Err TooManyMatches.
Proof.
  unfold recordable. rewrite !andb_true_iff, Z.leb_le, Z.ltb_lt. intros [[Hc Hp] Hs].
  unfold record, matches_of. cbn [steps spans]. change (option_list None) with (@nil Z).
  assert (concat (ps ++ [p]) = concat ps ++ p) as -> by (rewrite concat_app; cbn; by rewrite app_nil_r).
  rewrite spans_of_len, forallb_app, spans_of_app, Hp. cbn [forallb spans_of andb].
  rewrite app_nil_r, andb_true_r, !Z.add_0_r, Z.add_0_l, !len_app.
  change (len [p]) with 1. rewrite (proj2 (Z.leb_gt (2 ^ 32) _)) by lia.
  destruct (Z.leb_spec cap (len ps)), (Z.leb_spec (len ps + 1) cap); try lia; [done|].
  destruct (Z.leb_spec (2 ^ 16) (len p)), (Z.ltb_spec (len p) (2 ^ 16)); try lia; [done|]. cbn [andb].
  unfold checked_add. by destruct (Z.ltb_spec (len (concat ps) + len p) (2 ^ 32)).
Qed.

Lemma record_all_of cap ps evs :
  recordable cap ps = true ->
  record_all (matches_of ps) evs cap =
  let qs := ps ++ (omap id evs).*1 in
  if recordable cap qs then Ok (matches_of qs) else Err TooManyMatches.
Proof.
  cbn zeta. revert ps. induction evs as [|[[p v]|] evs IH]; intros ps Hr; cbn [record_all omap list_omap id fmap list_fmap].
  - rewrite app_nil_r. by rewrite Hr.
  - cbn [fst]. rewrite record_of by done. rewrite (cons_middle p ps (omap id evs).*1), app_assoc.
    destruct (recordable cap (ps ++ [p])) eqn:E; ok_step; [by apply IH|].
    destruct (recordable cap ((ps ++ [p]) ++ _)) eqn:E'; [|done]. apply recordable_app in E'. congruence.
  - by apply IH.
Qed.

(** ** Slices of a budgeted walk *)

Lemma record_all_app m a b cap : record_all m (a ++ b) cap = m ← record_all m a cap; record_all m b cap.
Proof.
  revert m. induction a as [|[[p v]|] a IH]; intros m; cbn [app record_all]; [done| |apply IH].
  destruct (record m p None cap); ok_step; [apply IH|done..].
Qed.

(** Drive the walk with one budget per slice; running out of slices is a
    [Panic] of the driver. *)
Fixpoint slices (fuel : nat) (bytes : list byte) (root : Value) (cap : Z) (budgets : list Z)
    (resume : option EvalState) : outcome EvalError Matches :=
  match budgets with
  | [] => Panic
  | b :: budgets =>
      step ← eval_budgeted fuel bytes root cap b resume;
      match step with
      | EDone m => Ok m
      | Yield s => slices fuel bytes root cap budgets (Some s)
      end
  end.

(** Nodes a list of budgets pays for: each slice visits one past its budget. *)
Definition paid (budgets : list Z) : Z := foldr (fun b n => b + 1 + n) 0 budgets.

Section driver.
Context (ast : PathAst) (root : Value) (Hwf : wf_ast ast) (Hsmall : small root = true).
Notation bytes := (program_bytes ast).
Notation trace := (arrive (segments ast) root []).

(** One slice from a live stack, whether it comes from the start or from saved state. *)
Lemma slices_loop fuel st p tr m cap b budgets :
  stack_rem bytes root st p tr -> (2 * length tr + length st < fuel)%nat ->
  Forall (Z.le 0) (b :: budgets) -> len tr < paid (b :: budgets) ->
  (step ← run_loop fuel bytes cap st p m b;
   match step with EDone m => Ok m | Yield s => slices fuel bytes root cap budgets (Some s) end) =
  record_all m tr cap.
Proof.
  revert st p tr m b. induction budgets as [|b' budgets IH]; intros st p tr m b Hst Hfuel Hb Hpaid;
    inversion_clear Hb as [|? ? Hb0 Hbs]; cbn [paid foldr] in Hpaid;
    pose proof (run_loop_rem _ _ _ _ _ _ m cap (Z.to_nat b) Hst Hfuel) as Hr; rewrite Z2Nat.id in Hr by done;
    rewrite <- (take_drop (S (Z.to_nat b)) tr) at 1; rewrite record_all_app;
    destruct (record_all m (take _ tr) cap) as [m'|e|]; try done; [|by rewrite Hr| |by rewrite Hr];
    destruct (Nat.leb_spec (length tr) (Z.to_nat b)) as [Hle|Hgt].
  - rewrite Hr. ok_step. by rewrite drop_ge by lia.
  - unfold len in Hpaid. lia.
  - rewrite Hr. ok_step. by rewrite drop_ge by lia.
  - destruct Hr as (st' & p' & Hst' & Hle & ->). ok_step. unfold eval_budgeted.
    cbn [slices]. unfold eval_budgeted. rewrite (resume_saved _ _ _ _ _ _ _ _ _ Hst').
    apply IH; [done|lia|done|]. cbn [paid foldr]. unfold len in *. rewrite length_drop. unfold paid in *. lia.
Qed.

Lemma slices_start fuel cap b budgets :
  (2 * length trace < fuel)%nat -> Forall (Z.le 0) (b :: budgets) -> len trace <= paid (b :: budgets) ->
  slices fuel bytes root cap (b :: budgets) None = record_all no_matches trace cap.
Proof.
  intros Hfuel Hb Hpaid. cbn [slices]. unfold eval_budgeted, run.
  destruct (arrive_rem (E:=EvalError) bytes root root 3 [] None (segments ast)) as (c & -> & Hi).
  { split; [apply program_tail|]. by destruct Hwf as [? ?]. }
  { done. }
  ok_step. change ([] ++ option_list None) with (@nil Z) in Hi.
  destruct (consume_rem bytes root _ [] [] _ [] no_matches cap (stack_nil _ _) Hi) as (ev & tri & E & Hc).
  rewrite E in *.
  rewrite record_all_cons. rewrite app_nil_r in Hc.
  destruct (record_all no_matches [ev] cap) as [m|e|]; ok_step; [|by rewrite Hc|done].
  destruct Hc as (st & p & -> & Hst & Hlen). ok_step. cbn [length] in *. rewrite len_cons in Hpaid.
  apply slices_loop; [done|lia|done|lia].
Qed.

End driver.

(** ** Locations of the matches *)

Section locations.
Context (root : Value).

Definition event_located (e : event) : Prop :=
  match e with Some (p, v) => resolve root p = Some v | None => True end.

Lemma Forall_concat_map {A B} (P : B -> Prop) (f : A -> list B) l :
  (forall x, x ∈ l -> Forall P (f x)) -> Forall P (concat (map f l)).
Proof. intros H. by apply Forall_concat, Forall_map, list.Forall_forall. Qed.

Context (kont : Value -> list Z -> list event).
Hypothesis kont_ok : forall v p, resolve root p = Some v -> Forall event_located (kont v p).

Lemma leaf_trace_located s v p : resolve root p = Some v -> Forall event_located (leaf_trace kont s v p).
Proof.
  intros Hv. apply Forall_concat_map. intros [o c] H%select_resolve. apply kont_ok. by rewrite resolve_snoc, Hv.
Qed.

Lemma sel_trace_located s v p : resolve root p = Some v -> Forall event_located (sel_trace kont s v p).
Proof.
  intros Hv. destruct s; cbn [sel_trace]; try by apply leaf_trace_located.
  apply Forall_concat_map. intros m _. constructor; [done|by apply leaf_trace_located].
Qed.

Lemma ord_children_resolve v o c : (o, c) ∈ ord_children v -> resolve_step v o = Some c /\ c ∈ children v.
Proof.
  unfold ord_children. intros H. destruct (number_lookup _ _ _ _ H) as [_ Hg%get_elem_of]. split; [|done].
  destruct v as [| | | | |a|es]; try by apply elem_of_nil in H.
  - by apply (number_resolve a o c 0).
  - by apply (number_snd_resolve es o c 0).
Qed.

Lemma desc_trace_located s v : forall p, resolve root p = Some v -> Forall event_located (desc_trace kont s v p).
Proof.
  induction v as [v IH] using children_ind. intros p Hv. rewrite desc_trace_eq. apply Forall_app. split.
  - constructor; [done|by apply sel_trace_located].
  - apply Forall_concat_map. intros [o c] [Hr Hc]%ord_children_resolve. constructor; [done|].
    apply IH; [done|]. by rewrite resolve_snoc, Hv.
Qed.
End locations.

Lemma arrive_located root segs v p :
  resolve root p = Some v -> Forall (event_located root) (arrive segs v p).
Proof.
  revert v p. induction segs as [|s segs IH]; intros v p Hv; cbn [arrive].
  - by repeat constructor.
  - constructor; [done|]. destruct s; cbn [seg_trace]; try by apply sel_trace_located. by apply desc_trace_located.
Qed.

(** ** The streaming walk *)

Section visitor.
Context {E A : Type} (on_match : A -> Value -> A * bool).

(** Hand the matches among the events to the visitor, one unit of budget per event. *)
Fixpoint deliver (evs : list event) (budget visited : Z) (s : A) : VisitOutcome * A :=
  match evs with
  | [] => ({| vend := Complete; nodes_visited := visited |}, s)
  | e :: evs =>
      if budget =? 0 then ({| vend := Exhausted; nodes_visited := visited |}, s)
      else
        let '(s, brk) := match e with Some (_, v) => on_match s v | None => (s, false) end in
        if brk then ({| vend := Stopped; nodes_visited := visited + 1 |}, s)
        else deliver evs (budget - 1) (visited + 1) s
  end.

(** The first event, arriving at the root, is free. *)
Definition deliver_root (evs : list event) (budget visited : Z) (s : A) : VisitOutcome * A :=
  let '(s, brk) := match evs with Some (_, v) :: _ => on_match s v | _ => (s, false) end in
  if brk then ({| vend := Stopped; nodes_visited := visited |}, s)
  else deliver (tail evs) budget visited s.

Lemma deliver_eq e evs budget visited s :
  deliver (e :: evs) budget visited s =
  if budget =? 0 then ({| vend := Exhausted; nodes_visited := visited |}, s)
  else deliver_root (e :: evs) (budget - 1) (visited + 1) s.
Proof. cbn [deliver]. unfold deliver_root. by destruct (budget =? 0), e as [[p v]|]. Qed.

Context (ast : PathAst) (root : Value) (Hwf : wf_ast ast).
Notation bytes := (program_bytes ast).

Inductive visit_rem : list Frame -> list event -> Prop :=
  | visit_nil : visit_rem [] []
  | visit_cons f st p tr trs :
      located root (node f) p -> frame_rem bytes f p tr -> visit_rem st trs -> visit_rem (f :: st) (tr ++ trs).

(** Staging an item delivers its event or pushes its frame. *)
Lemma stage_rem item st p tri trs s :
  visit_rem st trs -> item_rem bytes root item p tri ->
  exists e tri' st' , tri = e :: tri' /\ visit_rem st' (tri' ++ trs) /\ (length st' <= S (length st))%nat /\
    stage_visit on_match item st (len bytes) s =
    let '(s, brk) := match e with Some (_, v) => on_match s v | None => (s, false) end in (st', s, brk).
Proof.
  intros Hst [Hil Hi]. unfold stage_visit. destruct (pc item =? len bytes).
  - subst tri. do 3 eexists. split; [done|]. cbn [app]. split; [done|]. split; [lia|done].
  - destruct Hi as (tr & -> & Hfr). exists None, tr, (fresh_frame item false :: st).
    split; [done|]. split; [by eapply visit_cons|]. split; [cbn; lia|done].
Qed.

Lemma visit_loop_rem fuel st trs budget visited s :
  visit_rem st trs -> (2 * length trs + length st < fuel)%nat ->
  visit_loop (E:=E) on_match fuel bytes st budget visited s = Ok (deliver trs budget visited s).
Proof.
  revert st trs budget visited s. induction fuel as [|fuel IH]; intros st trs budget visited s Hst Hfuel; [lia|].
  destruct Hst as [|f st p tr trs Hl Hf Hst]; [done|]. cbn [visit_loop].
  destruct (advance_rem bytes root (E:=E) f p tr Hl Hf) as (next & f' & -> & En & Es & Hnext). ok_step.
  destruct next as [item|].
  - destruct Hnext as (tri & tr' & -> & Hi & Hf'). rewrite <- En in Hl.
    destruct (stage_rem item (f' :: st) p tri (tr' ++ trs) s) as (e & tri' & st' & -> & Hst' & Hle & ->);
      [by eapply visit_cons|done|].
    rewrite <- !app_assoc in *. cbn [app length deliver] in *. destruct (budget =? 0); [done|].
    destruct (match e with Some (_, v) => _ | None => _ end) as [s' []]; [done|]. apply IH; [done|]. lia.
  - subst tr. cbn [app length] in *. apply IH; [done|lia].
Qed.

(** ** The simple lane *)

Definition simple_segment (s : Segment) : bool := match s with Child _ | Index _ => true | _ => false end.
Definition fence_segment (s : Segment) : bool :=
  match s with Child _ | ChildAny | Index _ => true | _ => false end.

Lemma all_ops_segs f g l a fuel :
  f ODescend = false -> (forall a s, wf_leaf s -> f (leaf_op a s) = g s) -> (forall s, g (Descend s) = false) ->
  Forall wf_segment l -> tail_at bytes a (segs_bytes l) -> (length l <= fuel)%nat ->
  all_ops (E:=E) fuel bytes f a = Ok (forallb g l).
Proof.
  intros Hd Hf Hg Hl. revert a fuel. induction Hl as [|s l Hs _ IH]; intros a fuel Ht Hfuel.
  - apply tail_len in Ht as [_ Ht]. change (segs_bytes []) with (@nil byte) in Ht. rewrite len_nil in Ht.
    destruct fuel; cbn [all_ops]; by rewrite (proj2 (Z.ltb_ge _ _)) by lia.
  - unfold segs_bytes in Ht. cbn [map concat] in Ht. fold (segs_bytes l) in Ht.
    pose proof (tail_len _ _ _ Ht) as [_ Hlen]. destruct (seg_bytes_cons s Hs) as (b & r & Eb). rewrite Eb in Hlen.
    destruct fuel as [|fuel]; [cbn in Hfuel; lia|]. cbn [all_ops length forallb] in *.
    rewrite (proj2 (Z.ltb_lt _ _)) by lens. cbn [negb].
    destruct (segment_cases s Hs) as [(inner & -> & Hi)|[Hi Es]].
    + cbn [seg_bytes app] in Ht. assert (read_op (E:=E) bytes a = Ok (ODescend, a + 1)) as ->.
      { unfold read_op, read_leaf. by rewrite (tail_byte _ _ _ _ Ht). }
      ok_step. by rewrite Hd, Hg.
    + rewrite Es in Ht. rewrite (read_op_leaf _ _ _ _ Ht) by done. ok_step. rewrite Hf by done.
      destruct (g s); [|done]. apply IH; [by apply tail_app in Ht|lia].
Qed.

Lemma ops_fuel : (length (segments ast) <= length bytes)%nat.
Proof. destruct Hwf as [Hs _]. apply segs_bytes_length in Hs. unfold program_bytes. cbn. lia. Qed.

Lemma is_simple_program : is_simple (E:=E) bytes = Ok (forallb simple_segment (segments ast)).
Proof.
  apply all_ops_segs; [done|by intros a []|done|apply Hwf|apply program_tail|apply ops_fuel].
Qed.

Lemma within_index_fence_program : within_index_fence (E:=E) bytes = Ok (forallb fence_segment (segments ast)).
Proof.
  apply all_ops_segs; [done|by intros a []|done|apply Hwf|apply program_tail|apply ops_fuel].
Qed.

Lemma visit_simple_rem l a v p fuel budget visited s :
  Forall wf_segment l -> small v = true -> forallb simple_segment l = true -> tail_at bytes a (segs_bytes l) -> (length l <= fuel)%nat ->
  visit_simple (E:=E) on_match fuel bytes a v budget visited s = Ok (deliver_root (arrive l v p) budget visited s).
Proof.
  intros Hl. revert a v p fuel budget visited s. induction Hl as [|g l Hg _ IH]; intros a v p fuel budget visited s Hsm Hsim Ht Hfuel.
  - apply tail_len in Ht as [_ Ht]. change (segs_bytes []) with (@nil byte) in Ht. rewrite len_nil in Ht.
    destruct fuel; cbn [visit_simple arrive]; rewrite (proj2 (Z.eqb_eq _ _)) by lia;
      unfold deliver_root; cbn [tail deliver]; by destruct (on_match s v) as [s' []].
  - unfold segs_bytes in Ht. cbn [map concat] in Ht. fold (segs_bytes l) in Ht.
    pose proof (tail_len _ _ _ Ht) as [_ Hlen]. destruct (seg_bytes_cons g Hg) as (b & r & Eb). rewrite Eb in Hlen.
    destruct fuel as [|fuel]; [cbn in Hfuel; lia|]. cbn [visit_simple length forallb] in *.
    apply andb_true_iff in Hsim as [Hgs Hsim]. rewrite (proj2 (Z.eqb_neq _ _)) by lens.
    destruct (segment_cases g Hg) as [(inner & -> & _)|[Hi Es]]; [done|].
    rewrite Es in Ht. rewrite (read_op_leaf _ _ _ _ Ht) by done. ok_step. apply tail_app in Ht.
    pose proof (select_eq g v (small_arr v Hsm) Hi) as Hsel.
    assert (simple_hop (E:=E) (leaf_op a g) v = Ok (snd <$> head (select g v))) as ->.
    { rewrite Hsel. clear Hsel. destruct g; try done; cbn [simple_hop leaf_op select_ords]; destruct v; try done.
      - by destruct (find_key _ _ 0).
      - destruct (resolve_index _ _) as [o|]; [|done]. cbn. by destruct (get _ o). }
    assert (length (select g v) <= 1)%nat as Hone.
    { rewrite Hsel. clear Hsel. destruct g; try done; cbn [select_ords]; destruct v; try (cbn; lia).
      - destruct (find_key _ _ 0); cbn; lia.
      - destruct (resolve_index _ _) as [o|]; [|cbn; lia]. cbn. destruct (get _ o); cbn; lia. }
    ok_step. unfold deliver_root. cbn [arrive tail].
    assert (seg_trace (arrive l) g v p = concat (map (fun '(o, c) => arrive l c (p ++ [o])) (select g v))) as ->
      by by destruct g.
    clear Hsel. destruct (select g v) as [|[o c] [|]] eqn:Esel; [done| |cbn in Hone; lia].
    assert (resolve_step v o = Some c) as Hc by (apply (select_resolve g); rewrite Esel; left).
    destruct (small_child v o c Hsm Hc) as [Hsc _]. cbn [head fmap option_fmap option_map snd map concat].
    rewrite app_nil_r. rewrite (IH _ c (p ++ [o]) fuel _ _ s Hsc Hsim Ht) by lia.
    assert (exists e evs, arrive l c (p ++ [o]) = e :: evs) as (e & evs & ->) by (destruct l; cbn; by do 2 eexists).
    rewrite deliver_eq. by destruct (budget =? 0).
Qed.

Hypothesis Hsmall : small root = true.

Lemma eval_visit_rem fuel budget s :
  (2 * length (arrive (segments ast) root []) < fuel)%nat ->
  eval_visit (E:=E) on_match fuel bytes root budget s = Ok (deliver_root (arrive (segments ast) root []) budget 0 s).
Proof.
  intros Hfuel. unfold eval_visit. rewrite is_simple_program. ok_step.
  destruct (forallb simple_segment (segments ast)) eqn:Hs.
  { apply visit_simple_rem; [apply Hwf|done|done|apply program_tail|apply ops_fuel]. }
  destruct (arrive_rem (E:=E) bytes root root 3 [] None (segments ast)) as (c & -> & Hi).
  { split; [apply program_tail|]. by destruct Hwf as [? ?]. }
  { done. }
  ok_step. change ([] ++ option_list None) with (@nil Z) in Hi.
  destruct (stage_rem _ [] [] _ [] s visit_nil Hi) as (e & tri & st & E1 & Hst & Hle & ->).
  rewrite E1 in *. unfold deliver_root. rewrite app_nil_r in Hst. cbn [length tail] in *.
  destruct (match e with Some (_, v) => _ | None => _ end) as [s' []]; [done|].
  apply visit_loop_rem; [done|lia].
Qed.

End visitor.

(** ** Claims *)

Section claims.
Context (ast : PathAst) (bytes : list byte) (root : Value).
Notation ms := (matches (segments ast) root).
Notation trace := (arrive (segments ast) root []).

(** C18. Running the program compiled from a path on a document records
    exactly the path's matches, in order: the result is their location paths
    laid out in the match buffers, or the typed refusal exactly when they do not
    fit the cap or the buffers' widths; every recorded location leads from the
    root to the matched value. *)
Theorem eval_selects cap fuel
  (Hwf : wf_ast ast) (Henc : encode ast = Ok bytes) (Hsmall : small root = true) (Hcap : 0 <= cap)
  (Hnodes : len trace <= 2 ^ 64) (Hfuel : (2 * length trace < fuel)%nat) :
  eval fuel bytes root cap = (if recordable cap ms.*1 then Ok (matches_of ms.*1) else Err TooManyMatches) /\
  (forall i p v, get ms i = Some (p, v) ->
     match_path (E:=EvalError) (matches_of ms.*1) i = Ok p /\ resolve root p = Some v).
Proof.
  rewrite encode_Ok in Henc by done. destruct (_ <=? _); [done|]. injection Henc as <-. split.
  - pose proof (slices_start ast root Hwf Hsmall fuel cap U64_MAX [] Hfuel) as Hs.
    cbn [slices] in Hs. unfold eval, U64_BUDGET. unfold eval_budgeted in Hs.
    rewrite Hs; [|by repeat constructor|cbn [paid foldr]; unfold U64_MAX; lia].
    change no_matches with (matches_of []). rewrite record_all_of; [done|].
    unfold recordable. change (len (@nil (list Z))) with 0. by rewrite (proj2 (Z.leb_le _ _) Hcap).
  - intros i p v Hg. split.
    + apply match_path_of. apply get_Some in Hg as [Hi Hg]. apply get_Some. split; [done|].
      by rewrite list_lookup_fmap, Hg.
    + apply get_elem_of in Hg. unfold matches in Hg. apply list_elem_of_omap in Hg as (e & He & E).
      pose proof (arrive_located root (segments ast) root [] eq_refl) as Hl.
      rewrite list.Forall_forall in Hl. specialize (Hl _ He). cbn in E. by subst e.
Qed.

(** C19. Suspending the walk changes nothing: driven with any sequence of
    node budgets that pays for the nodes, resuming each time from the saved
    counters, it ends with the same matches or the same refusal as the
    unbudgeted walk. *)
Theorem slices_agree cap fuel budgets
  (Hwf : wf_ast ast) (Henc : encode ast = Ok bytes) (Hsmall : small root = true)
  (Hnodes : len trace <= 2 ^ 64) (Hfuel : (2 * length trace < fuel)%nat)
  (Hbudgets : Forall (Z.le 0) budgets) (Hpaid : len trace <= paid budgets) :
  slices fuel bytes root cap budgets None = eval fuel bytes root cap.
Proof.
  rewrite encode_Ok in Henc by done. destruct (_ <=? _); [done|]. injection Henc as <-.
  pose proof (slices_start ast root Hwf Hsmall fuel cap U64_MAX [] Hfuel) as Hs.
  cbn [slices] in Hs. unfold eval, U64_BUDGET. unfold eval_budgeted in Hs.
  rewrite Hs; [|by repeat constructor|cbn [paid foldr]; unfold U64_MAX; lia].
  destruct budgets as [|b budgets]; [|by apply slices_start].
  exfalso. cbn [paid foldr] in Hpaid. destruct (segments ast); cbn [arrive] in Hpaid; lens.
Qed.

(** C23. The streaming walk, by its general lane or by the simple one for
    paths of named children and indexes, hands the visitor the values of the
    recording walk's matches in the same order, stops when the visitor breaks or
    the budget is spent, and reports the exact number of nodes visited. *)
Theorem eval_visit_delivers {E A} (on_match : A -> Value -> A * bool) fuel budget s
  (Hwf : wf_ast ast) (Henc : encode ast = Ok bytes) (Hsmall : small root = true)
  (Hfuel : (2 * length trace < fuel)%nat) :
  eval_visit (E:=E) on_match fuel bytes root budget s = Ok (deliver_root on_match trace budget 0 s).
Proof.
  rewrite encode_Ok in Henc by done. destruct (_ <=? _); [done|]. injection Henc as <-.
  by apply eval_visit_rem.
Qed.
End claims.

(** [$..a[*]] on [{"a":[true,null],"b":{"a":[7]}}]. *)
Definition demo_ast : PathAst :=
  {| legacy := false; segments := [Descend (Child [b8 97]); ChildAny] |}.
Definition demo_bytes : list byte := map b8 [1; 0; 1; 7; 2; 1; 97; 3].
Definition demo_doc : Value :=
  VObj [([b8 97], VArr [VBool true; VNull]); ([b8 98], VObj [([b8 97], VArr [VI64 7])])].

Lemma demo_wf : wf_ast demo_ast.
Proof. split; [|done]. repeat constructor; done. Qed.

Lemma eval_selects_witness :
  eval 100 demo_bytes demo_doc 8 = Ok (matches_of [[0; 0]; [0; 1]; [1; 0; 0]]) /\
  resolve demo_doc [1; 0; 0] = Some (VI64 7).
Proof.
  destruct (eval_selects demo_ast demo_bytes demo_doc 8 100 demo_wf eq_refl eq_refl) as [H1 H2];
    [lia|vm_compute; discriminate|vm_compute; lia|].
  split; [exact H1|]. by apply (H2 2).
Defined.

Lemma slices_agree_witness :
  slices 100 demo_bytes demo_doc 8 [1; 0; 2; 3; 20] None = eval 100 demo_bytes demo_doc 8.
Proof.
  apply (slices_agree demo_ast demo_bytes demo_doc 8 100 [1; 0; 2; 3; 20] demo_wf eq_refl eq_refl);
    [vm_compute; discriminate|vm_compute; lia|by repeat constructor|vm_compute; discriminate].
Defined.

Lemma eval_visit_delivers_witness :
  eval_visit (E:=EvalError) (fun s v => (s ++ [v], false)) 100 demo_bytes demo_doc 50 [] =
  Ok ({| vend := Complete; nodes_visited := 18 |}, [VBool true; VNull; VI64 7]).
Proof.
  rewrite (eval_visit_delivers demo_ast demo_bytes demo_doc _ 100 50 [] demo_wf eq_refl eq_refl);
    [done|vm_compute; lia].
Defined.
