(* ===== verification/PathCanonical.v ===== *)
(** * PathCanonical: the document-order view of a match set

    [Matches::canonical] of [inf-doc/src/path/eval.rs]: match ids sorted by
    location path, deduplicated, with the overlap verdict the mutation planner
    branches on. The adjacent-pair check is shown to decide whether any match is
    a strict ancestor of another. *)

From Stdlib Require Import Sorting.Sorted.
From S2P Require Import Prelude Tail Varint Utf8 F64 IndexKey Doc PathProgram PathEval PathEvalSpec.
Import PathEval.

(** [Ord] of [[u32]]: lexicographic. *)
Fixpoint step_cmp (a b : list Z) : comparison :=
  match a, b with
  | [], [] => Eq
  | [], _ => Lt
  | _, [] => Gt
  | x :: a, y :: b => match x ?= y with Eq => step_cmp a b | c => c end
  end.

(** [slice::sort_by] is stable: an element goes before the later ones it ties with. *)
Section sorting.
Context {E A : Type} (cmp : A -> A -> outcome E comparison) (same : A -> A -> outcome E bool).

Fixpoint insert_by (x : A) (l : list A) : outcome E (list A) :=
  match l with
  | [] => Ok [x]
  | y :: r =>
      c ← cmp x y;
      match c with
      | Gt => r ← insert_by x r; Ok (y :: r)
      | _ => Ok (x :: y :: r)
      end
  end.

Fixpoint sort_by (l : list A) : outcome E (list A) :=
  match l with
  | [] => Ok []
  | x :: l => l ← sort_by l; insert_by x l
  end.

(** [Vec::dedup_by]: each element is compared with the last one kept. *)
Fixpoint dedup_from (x : A) (l : list A) : outcome E (list A) :=
  match l with
  | [] => Ok [x]
  | y :: r =>
      eq ← same y x;
      if (eq : bool) then dedup_from x r else r ← dedup_from y r; Ok (x :: r)
  end.

Definition dedup_by (l : list A) : outcome E (list A) :=
  match l with [] => Ok [] | x :: l => dedup_from x l end.
End sorting.

Record CanonicalMatches := { ids : list Z; any_overlap : bool }.

Fixpoint overlap_loop {E} (m : Matches) (l : list Z) : outcome E bool :=
  match l with
  | a :: ((b :: _) as r) =>
      shorter ← match_path m a;
      longer ← match_path m b;
      if (len shorter <? len longer) && bool_decide (take (length shorter) longer = shorter) then Ok true
      else overlap_loop m r
  | _ => Ok false
  end.

Definition canonical {E} (m : Matches) : outcome E CanonicalMatches :=
  let ids := seqZ 0 (len (spans m)) in
  ids ← sort_by (fun a b => p ← match_path m a; q ← match_path m b; Ok (step_cmp p q)) ids;
  ids ← dedup_by (fun a b => p ← match_path m a; q ← match_path m b; Ok (bool_decide (p = q))) ids;
  overlap ← overlap_loop m ids;
  Ok {| ids := ids; any_overlap := overlap |}.

(** ** Lexicographic order *)

Lemma step_cmp_eq a b : step_cmp a b = Eq <-> a = b.
Proof.
  revert b. induction a as [|x a IH]; intros [|y b]; cbn [step_cmp]; try (split; congruence).
  destruct (Z.compare_spec x y) as [->|H|H].
  - rewrite IH. split; congruence.
  - split; [done|]. intros [= -> _]. lia.
  - split; [done|]. intros [= -> _]. lia.
Qed.

Lemma step_cmp_antisym a b : step_cmp b a = CompOpp (step_cmp a b).
Proof.
  revert b. induction a as [|x a IH]; intros [|y b]; cbn [step_cmp]; try done.
  rewrite Z.compare_antisym. destruct (x ?= y); cbn; [apply IH|done..].
Qed.

Definition slt (a b : list Z) : Prop := step_cmp a b = Lt.

#[global] Instance slt_trans : Transitive slt.
Proof.
  unfold slt. intros a b c. revert b c. induction a as [|x a IH]; intros [|y b] [|z c]; cbn [step_cmp]; try done.
  destruct (Z.compare_spec x y), (Z.compare_spec y z), (Z.compare_spec x z); subst; try done; try lia. apply IH.
Qed.

Lemma slt_irrefl a : ~ slt a a.
Proof. unfold slt. by rewrite (proj2 (step_cmp_eq a a) eq_refl). Qed.

(** What lies between a path and one of its descendants is a descendant. *)
Lemma between_prefix p x q : slt p x -> (x = p ++ q \/ slt x (p ++ q)) -> p `prefix_of` x.
Proof.
  unfold slt. revert x. induction p as [|s p IH]; intros x Hp Hx; [apply prefix_nil|].
  destruct x as [|y x]; [done|]. cbn [step_cmp app] in *.
  destruct Hx as [[= -> ->]|Hx]; [apply prefix_cons, IH; [|by left]; by rewrite Z.compare_refl in Hp|].
  destruct (Z.compare_spec s y) as [->|H|H]; [|exfalso|done].
  - rewrite Z.compare_refl in Hx. apply prefix_cons, IH; [done|by right].
  - rewrite (proj2 (Z.compare_gt_iff y s)) in Hx; [done|lia].
Qed.

Lemma strict_prefix_slt p q : p `prefix_of` q -> p <> q -> slt p q.
Proof.
  intros [r ->] Hne. unfold slt. induction p as [|s p IH]; cbn [step_cmp app].
  - by destruct r.
  - rewrite Z.compare_refl. apply IH. intros E. apply Hne. by rewrite E at 1.
Qed.

(** ** The view of a recorded match set *)

Section recorded.
Context {E : Type} (ps : list (list Z)).
Notation m := (matches_of ps).
Definition path_of (i : Z) : list Z := nth (Z.to_nat i) ps [].
Definition valid (i : Z) : Prop := 0 <= i < len ps.
(** Path order, then program order. *)
Definition before (a b : Z) : Prop := slt (path_of a) (path_of b) \/ path_of a = path_of b /\ a < b.

Lemma path_of_get i : valid i -> get ps i = Some (path_of i).
Proof.
  intros [? ?]. apply get_Some. split; [done|]. unfold path_of, len in *.
  destruct (nth_lookup_or_length ps (Z.to_nat i) []) as [->|]; [done|lia].
Qed.

Lemma match_path_valid i : valid i -> match_path (E:=E) m i = Ok (path_of i).
Proof. intros H. by apply match_path_of, path_of_get. Qed.

#[local] Instance before_trans : Transitive before.
Proof.
  unfold before. intros a b c [H|[H1 H2]] [H'|[H1' H2']].
  - left. by transitivity (path_of b).
  - left. by rewrite <- H1'.
  - left. by rewrite H1.
  - right. split; [congruence|lia].
Qed.

Definition by_path (a b : Z) : outcome E comparison :=
  p ← match_path m a; q ← match_path m b; Ok (step_cmp p q).
Definition same_path (a b : Z) : outcome E bool :=
  p ← match_path m a; q ← match_path m b; Ok (bool_decide (p = q)).

Lemma by_path_valid a b : valid a -> valid b -> by_path a b = Ok (step_cmp (path_of a) (path_of b)).
Proof. intros. unfold by_path. by rewrite !match_path_valid. Qed.

Lemma same_path_valid a b : valid a -> valid b -> same_path a b = Ok (bool_decide (path_of a = path_of b)).
Proof. intros. unfold same_path. by rewrite !match_path_valid. Qed.

Lemma insert_sorted x l :
  valid x -> Forall valid l -> StronglySorted before l -> Forall (Z.lt x) l ->
  exists l', insert_by by_path x l = Ok l' /\ l' ≡ₚ x :: l /\ StronglySorted before l'.
Proof.
  intros Hx Hl Hs. induction Hs as [|y r Hr IH Hy]; intros Hlt; cbn [insert_by].
  { exists [x]. by repeat constructor. }
  inversion_clear Hl as [|? ? Hvy Hvr]. inversion_clear Hlt as [|? ? Hxy Hxr].
  rewrite by_path_valid by done. ok_step. destruct (step_cmp (path_of x) (path_of y)) eqn:Ec.
  - exists (x :: y :: r). split; [done|]. split; [done|]. constructor; [by constructor|].
    assert (before x y) as Hb by (right; split; [by apply step_cmp_eq|done]).
    constructor; [done|]. eapply Forall_impl; [|exact Hy]. intros z Hz. by transitivity y.
  - exists (x :: y :: r). split; [done|]. split; [done|]. constructor; [by constructor|].
    assert (before x y) as Hb by by left.
    constructor; [done|]. eapply Forall_impl; [|exact Hy]. intros z Hz. by transitivity y.
  - destruct (IH Hvr Hxr) as (r' & E1 & Hp & Hs'). rewrite E1. ok_step.
    exists (y :: r'). split; [done|]. split; [rewrite Hp; apply Permutation_swap|]. constructor; [done|].
    rewrite Hp. constructor; [|done]. left. unfold slt. by rewrite step_cmp_antisym, Ec.
Qed.

Lemma sort_sorted l :
  Forall valid l -> StronglySorted Z.lt l ->
  exists l', sort_by by_path l = Ok l' /\ l' ≡ₚ l /\ StronglySorted before l'.
Proof.
  intros Hv Hs. induction Hs as [|x l Hl IH Hx]; cbn [sort_by]; [by exists []; repeat constructor|].
  inversion_clear Hv as [|? ? Hvx Hvl]. destruct (IH Hvl) as (l' & -> & Hp & Hs). ok_step.
  destruct (insert_sorted x l') as (l2 & -> & Hp2 & Hs2); [done|by rewrite Hp|done|by rewrite Hp|].
  exists l2. split; [done|]. split; [by rewrite Hp2, Hp|done].
Qed.

(** The first id of each path is kept. *)
Lemma dedup_sorted x l :
  Forall valid (x :: l) -> StronglySorted before (x :: l) ->
  exists l', dedup_from same_path x l = Ok l' /\ StronglySorted slt (map path_of l') /\
    (forall i, i ∈ l' <-> i ∈ x :: l /\ forall j, j ∈ x :: l -> path_of j = path_of i -> i <= j).
Proof.
  revert x. induction l as [|y r IH]; intros x Hv Hs; cbn [dedup_from].
  { exists [x]. split; [done|]. split; [by repeat constructor|]. intros i. rewrite list_elem_of_singleton.
    split; [|tauto]. intros ->. split; [done|]. intros j ->%list_elem_of_singleton. lia. }
  inversion_clear Hv as [|? ? Hvx Hvl]. inversion_clear Hvl as [|? ? Hvy Hvr].
  inversion_clear Hs as [|? ? Hsl Hx]. pose proof Hsl as Hsl'. inversion_clear Hsl' as [|? ? Hsr Hy].
  inversion_clear Hx as [|? ? Hxy Hxr].
  rewrite same_path_valid by done. ok_step. case_bool_decide as Heq.
  - destruct (IH x) as (l' & -> & Hso & Hin); [by constructor|by constructor|].
    exists l'. split; [done|]. split; [done|]. intros i. rewrite Hin.
    assert (x < y) as Hlt by (destruct Hxy as [Hxy|[_ ?]]; [rewrite Heq in Hxy; by apply slt_irrefl in Hxy|done]).
    assert (forall (z : Z) l j, j ∈ z :: l <-> j = z \/ j ∈ l) as Hc by (intros; apply elem_of_cons).
    setoid_rewrite Hc. setoid_rewrite Hc. split.
    + intros [Hi Hmin]. split; [tauto|]. intros j [->|[->|Hj]] Ej; [by apply Hmin; [left|]| |by apply Hmin; [right|]].
      transitivity x; [apply Hmin; [by left|congruence]|lia].
    + intros [[->|[->|Hi]] Hmin]; (split; [|intros j [->|Hj] Ej; by apply Hmin; [tauto|]]); [tauto| |tauto].
      exfalso. pose proof (Hmin x (or_introl eq_refl) (eq_sym Heq)). lia.
  - destruct (IH y) as (l' & -> & Hso & Hin); [by constructor|done|]. ok_step.
    assert (forall j, j ∈ y :: r -> slt (path_of x) (path_of j)) as Hlt.
    { assert (slt (path_of x) (path_of y)) as H1 by (by destruct Hxy as [|[]]). intros j [->|Hj]%elem_of_cons; [done|].
      rewrite list.Forall_forall in Hy. destruct (Hy j Hj) as [H2|[H2 _]]; [by transitivity (path_of y)|by rewrite <- H2]. }
    exists (x :: l'). split; [done|]. split.
    + cbn [map]. constructor; [done|]. apply List.Forall_map, list.Forall_forall. intros j [Hj _]%Hin. by apply Hlt.
    + intros i. rewrite (elem_of_cons _ i x), Hin, (elem_of_cons (y :: r) i x). split.
      * intros [->|[Hi Hmin]].
        -- split; [by left|]. intros j [->|Hj]%elem_of_cons Ej; [lia|]. apply Hlt in Hj. rewrite Ej in Hj. by apply slt_irrefl in Hj.
        -- split; [by right|]. intros j [->|Hj]%elem_of_cons Ej; [|by apply Hmin].
           apply Hlt in Hi. rewrite Ej in Hi. by apply slt_irrefl in Hi.
      * intros [[->|Hi] Hmin]; [by left|]. right. split; [done|]. intros j Hj. apply Hmin. by apply elem_of_cons; right.
Qed.

(** In path order an ancestor is followed at once by one of its descendants. *)
Lemma overlap_sorted l :
  Forall valid l -> StronglySorted slt (map path_of l) ->
  exists b, overlap_loop (E:=E) m l = Ok b /\
    (b = true <-> exists i j, i ∈ l /\ j ∈ l /\ path_of i `prefix_of` path_of j /\ path_of i <> path_of j).
Proof.
  intros Hv. induction Hv as [|a l Ha Hl IH]; intros Hs; cbn [overlap_loop].
  { exists false. split; [done|]. split; [done|]. by intros (i & j & ?%elem_of_nil & _). }
  cbn [map] in Hs. inversion_clear Hs as [|? ? Hsl Hal]. destruct l as [|b l].
  { exists false. split; [done|]. split; [done|].
    by intros (i & j & ->%list_elem_of_singleton & ->%list_elem_of_singleton & _ & []). }
  inversion_clear Hl as [|? ? Hb _]. rewrite !match_path_valid by done. ok_step.
  cbn [map] in Hal. inversion_clear Hal as [|? ? Hab Hal'].
  destruct ((_ <? _) && _) eqn:Ec.
  - exists true. split; [done|]. split; [|done]. intros _. apply andb_true_iff in Ec as [Hlt%Z.ltb_lt Ht%bool_decide_eq_true].
    exists a, b. split; [apply elem_of_cons; by left|]. split; [apply elem_of_cons; right; apply elem_of_cons; by left|].
    split; [|intros E'; rewrite E' in Hlt; lia]. rewrite <- Ht. apply prefix_take.
  - destruct (IH Hsl) as (v & -> & Hiff). exists v. split; [done|]. rewrite Hiff. split.
    + intros (i & j & Hi & Hj & H). exists i, j. split; [by apply elem_of_cons; right|]. split; [by apply elem_of_cons; right|done].
    + intros (i & j & Hi & Hj & Hp & Hne). apply elem_of_cons in Hi as [->|Hi].
      * exfalso. apply elem_of_cons in Hj as [->|Hj]; [done|].
        assert (path_of a `prefix_of` path_of b) as Hpb.
        { destruct Hp as [q Hq]. apply (between_prefix _ _ q); [done|]. rewrite <- Hq.
          apply elem_of_cons in Hj as [->|Hj]; [by left|]. right. inversion_clear Hsl as [|? ? _ Hbl].
          apply (proj1 (list.Forall_forall _ _) Hbl), list_elem_of_fmap. by exists j. }
        apply andb_false_iff in Ec as [Hlt%Z.ltb_ge|Ht%bool_decide_eq_false].
        -- pose proof (prefix_length _ _ Hpb). assert (path_of a = path_of b) as E'.
           { apply prefix_length_eq; [done|]. unfold len in Hlt. lia. }
           rewrite E' in Hab. by apply slt_irrefl in Hab.
        -- apply Ht. destruct Hpb as [q ->]. by rewrite take_app_length.
      * apply elem_of_cons in Hj as [->|Hj]; [|by exists i, j].
        exfalso. pose proof (strict_prefix_slt _ _ Hp Hne) as H1.
        assert (slt (path_of a) (path_of i)) as H2.
        { apply (proj1 (list.Forall_forall _ _) (List.Forall_cons _ _ _ Hab Hal')), (list_elem_of_fmap path_of (b :: l)). by exists i. }
        apply (slt_irrefl (path_of a)). by transitivity (path_of i).
Qed.
End recorded.

Lemma seqZ_sorted a n : StronglySorted Z.lt (seqZ a n).
Proof.
  destruct (Z.le_gt_cases n 0) as [?|Hn]; [rewrite seqZ_nil by done; constructor|].
  revert a. pattern n. apply Zlt_lower_bound_ind with (z:=1); [|lia]. clear n Hn. intros n IH Hn a.
  rewrite seqZ_cons by lia. constructor.
  - destruct (Z.eq_dec n 1) as [->|]; [constructor|]. apply IH. lia.
  - apply list.Forall_forall. intros x Hx%elem_of_seqZ. lia.
Qed.

Lemma first_id ps p :
  p ∈ ps -> exists i, valid ps i /\ path_of ps i = p /\ forall j, valid ps j -> path_of ps j = p -> i <= j.
Proof.
  intros Hp. destruct (list_find_elem_of (eq p) ps p Hp eq_refl) as [[i x] (Hi & <- & Hmin)%list_find_Some].
  assert (get ps (Z.of_nat i) = Some p) as Hg by (apply get_Some; rewrite Nat2Z.id; split; [lia|done]).
  assert (valid ps (Z.of_nat i)) as Hv by by apply get_lt in Hg.
  exists (Z.of_nat i). split; [done|]. split; [rewrite path_of_get in Hg by done; congruence|].
  intros j Hj Ej. apply path_of_get, get_Some in Hj as [? Hj]. destruct (Z.le_gt_cases (Z.of_nat i) j); [done|].
  exfalso. eapply Hmin; [exact Hj|lia|done].
Qed.

(** C26. The canonical view of a recorded match set is in document order
    without repeats: location paths strictly ascend, the ids kept are exactly
    the first of each path, and the verdict of the adjacent-pair check is true
    exactly when some match is a strict ancestor of another. *)
Theorem canonical_document_order {E} (ps : list (list Z)) :
  exists c, canonical (E:=E) (matches_of ps) = Ok c /\
    StronglySorted slt (map (path_of ps) (ids c)) /\
    (forall i, i ∈ ids c <-> valid ps i /\ forall j, valid ps j -> path_of ps j = path_of ps i -> i <= j) /\
    (any_overlap c = true <-> exists p q, p ∈ ps /\ q ∈ ps /\ p `prefix_of` q /\ p <> q).
Proof.
  unfold canonical. cbn [matches_of spans]. rewrite spans_of_len. fold (by_path (E:=E) ps) (same_path (E:=E) ps).
  assert (forall i, i ∈ seqZ 0 (len ps) <-> valid ps i) as Hseq by (intros i; rewrite elem_of_seqZ; unfold valid; lia).
  destruct (sort_sorted (E:=E) ps (seqZ 0 (len ps))) as (l & -> & Hp & Hs);
    [by apply list.Forall_forall; intros i ?%Hseq|apply seqZ_sorted|]. ok_step.
  assert (Forall (valid ps) l) as Hv by (rewrite Hp; by apply list.Forall_forall; intros i ?%Hseq).
  assert (exists l', dedup_by (same_path (E:=E) ps) l = Ok l' /\ StronglySorted slt (map (path_of ps) l') /\
    (forall i, i ∈ l' <-> i ∈ l /\ forall j, j ∈ l -> path_of ps j = path_of ps i -> i <= j)) as (l' & -> & Hs' & Hin).
  { destruct l as [|x l]; [|by apply dedup_sorted]. exists []. split; [done|]. split; [constructor|].
    intros i. split; [by intros ?%elem_of_nil|tauto]. }
  ok_step. destruct (overlap_sorted (E:=E) ps l') as (b & -> & Hb); [|done|].
  { apply list.Forall_forall. intros i [Hi _]%Hin. by apply (proj1 (list.Forall_forall _ _) Hv). }
  assert (forall i, i ∈ l <-> valid ps i) as Hl by (intros i; by rewrite Hp).
  ok_step. eexists. split; [done|]. cbn [ids any_overlap]. split; [done|]. split.
  { intros i. rewrite Hin. by setoid_rewrite Hl. }
  rewrite Hb. split.
  - intros (i & j & [Hi%Hl _]%Hin & [Hj%Hl _]%Hin & H). apply path_of_get, get_elem_of in Hi, Hj.
    exists (path_of ps i), (path_of ps j). done.
  - intros (p & q & Hpp & Hqq & H).
    assert (forall p, p ∈ ps -> exists i, i ∈ l' /\ path_of ps i = p) as Hfirst.
    { intros p' (i & ? & <- & ?)%first_id. exists i. split; [|done]. apply Hin. split; [by apply Hl|].
      intros j ?%Hl. auto. }
    destruct (Hfirst p Hpp) as (i & ? & <-), (Hfirst q Hqq) as (j & ? & <-). by exists i, j.
Qed.
