(* ===== verification/PredicateProgram.v ===== *)
(** * PredicateProgram: the predicate bytecode

    [inf-query/src/predicate/program.rs]: a predicate tree is serialised as a
    pool of path programs, a pool of typed constants and a prefix expression
    that refers to them by number. Pools hold no duplicates and are ordered by
    first reference, so that a predicate has one encoding. This file models the
    encoder, the validator that guards foreign bytes, and the decoder; theorems
    are in [PredicateProgramSpec]. *)

From S2P Require Import Prelude Tail Varint F64 ByteOrder Utf8 IndexKey Doc Predicate PathProgram.
Import Varint.

Module PredicateProgram.

Definition PROGRAM_VERSION : Z := 1.
Definition OP_AND : Z := 0x01.
Definition OP_OR : Z := 0x02.
Definition OP_NOT : Z := 0x03.
Definition OP_EQ : Z := 0x10.
Definition OP_NE : Z := 0x11.
Definition OP_LT : Z := 0x12.
Definition OP_LE : Z := 0x13.
Definition OP_GT : Z := 0x14.
Definition OP_GE : Z := 0x15.
Definition OP_BETWEEN : Z := 0x16.
Definition OP_BEGINS_WITH : Z := 0x17.
Definition OP_IN : Z := 0x18.
Definition OP_EXISTS : Z := 0x19.
Definition CONST_I64 : Z := 0x01.
Definition CONST_F64 : Z := 0x02.
Definition CONST_BOOL : Z := 0x03.
Definition CONST_UTF8 : Z := 0x04.

Definition PROGRAM_BYTES_CEILING : Z := 0xFFFF.
Definition PATHS_MAX : Z := 64.
Definition CONSTANTS_MAX : Z := 512.
Definition OPS_MAX : Z := 256.
Definition IN_MEMBERS_MAX : Z := 100.
Definition BOOL_ARITY_MAX : Z := 64.
Definition NESTING_DEPTH_MAX : Z := 32.

Definition opcode (op : CmpOp) : Z :=
  match op with
  | CEq => OP_EQ | CNe => OP_NE | CLt => OP_LT | CLe => OP_LE | CGt => OP_GT | CGe => OP_GE
  end.
Definition from_opcode (z : Z) : option CmpOp :=
  if z =? OP_EQ then Some CEq
  else if z =? OP_NE then Some CNe
  else if z =? OP_LT then Some CLt
  else if z =? OP_LE then Some CLe
  else if z =? OP_GT then Some CGt
  else if z =? OP_GE then Some CGe
  else None.

Inductive ConstFamily := Numeric | FamBool | FamUtf8.
#[global] Instance ConstFamily_eq_dec : EqDecision ConstFamily.
Proof. solve_decision. Defined.

Definition family (c : Constant) : ConstFamily :=
  match c with KI64 _ | KF64 _ => Numeric | KBool _ => FamBool | KUtf8 _ => FamUtf8 end.

Inductive PredicateErrorKind :=
  | Truncated | ProgramTooLong | BadVersion | BadFlags | BadOpcode | BadVarint | BadCount
  | BadConstant | BadPath | BadPoolRef | NotCanonical | BadTypeFamily | TooDeep | TooManyOps
  | TrailingBytes.
Record PredicateError := { offset : Z; kind : PredicateErrorKind }.

Inductive PredicateBuildError :=
  | TooManyPaths | TooManyConstants | BuildTooManyOps | BuildTooDeep | BadArity | BadInCount
  | NonFiniteF64 | MixedBetweenFamilies | MixedInFamilies | LegacyPath | BuildProgramTooLong.

(** ** The encoder *)

Record Pools := { paths : list (list byte); constants : list (list byte) }.
Definition Pools_default : Pools := {| paths := []; constants := [] |}.

(** [iter().position(|p| p == x)]. *)
Fixpoint position (x : list byte) (l : list (list byte)) : option Z :=
  match l with
  | [] => None
  | y :: l => if bool_decide (y = x) then Some 0 else (fun i => i + 1) <$> position x l
  end.

Definition path_id (pools : Pools) (path : list byte) : outcome PredicateBuildError (Z * Pools) :=
  legacy ← PathProgram.is_legacy path;
  if (legacy : bool) then Err LegacyPath
  else match position path (paths pools) with
  | Some i => Ok (i, pools)
  | None =>
      if len (paths pools) =? PATHS_MAX then Err TooManyPaths
      else Ok (len (paths pools), {| paths := paths pools ++ [path]; constants := constants pools |})
  end.

Definition constant_id (pools : Pools) (encoded : list byte) : outcome PredicateBuildError (Z * Pools) :=
  match position encoded (constants pools) with
  | Some i => Ok (i, pools)
  | None =>
      if len (constants pools) =? CONSTANTS_MAX then Err TooManyConstants
      else Ok (len (constants pools), {| paths := paths pools; constants := constants pools ++ [encoded] |})
  end.

(** [((v << 1) ^ (v >> 63)).cast_unsigned()]. *)
Definition zigzag (v : Z) : Z :=
  wrap 64 (Z.lxor (cast_signed (wrap 64 (Z.shiftl v 1))) (Z.shiftr v 63)).
Definition unzigzag (u : Z) : Z :=
  Z.lxor (cast_signed (Z.shiftr u 1)) (if Z.land u 1 =? 1 then -1 else 0).

(** [f64::is_finite]. *)
Definition is_finite (f : Z) : bool := magnitude f <? INFINITY.

Definition utf8_constant_bytes (s : list byte) : list byte :=
  b8 CONST_UTF8 :: encode_u64 (len s) ++ s.

Definition constant_bytes (c : Constant) : outcome PredicateBuildError (list byte) :=
  match c with
  | KI64 v => Ok (b8 CONST_I64 :: encode_u64 (zigzag v))
  | KF64 f =>
      if negb (is_finite f) then Err NonFiniteF64
      else
        let canonical := if feq f 0 then 0 else f in
        Ok (b8 CONST_F64 :: be_bytes 8 canonical)
  | KBool b => Ok [b8 CONST_BOOL; b8 (Z.b2z b)]
  | KUtf8 s => Ok (utf8_constant_bytes s)
  end.

Definition emit_path (pools : Pools) (expr : list byte) (path : list byte)
    : outcome PredicateBuildError (Pools * list byte) :=
  '(id, pools) ← path_id pools path;
  Ok (pools, expr ++ encode_u64 id).
Definition emit_constant (pools : Pools) (expr : list byte) (c : Constant)
    : outcome PredicateBuildError (Pools * list byte) :=
  encoded ← constant_bytes c;
  '(id, pools) ← constant_id pools encoded;
  Ok (pools, expr ++ encode_u64 id).
Fixpoint emit_constants (pools : Pools) (expr : list byte) (l : list Constant)
    : outcome PredicateBuildError (Pools * list byte) :=
  match l with
  | [] => Ok (pools, expr)
  | c :: l => '(pools, expr) ← emit_constant pools expr c; emit_constants pools expr l
  end.

Definition encode_leaf (leaf : Predicate) (pools : Pools) (expr : list byte)
    : outcome PredicateBuildError (Pools * list byte) :=
  match leaf with
  | PCmp op path c =>
      '(pools, expr) ← emit_path pools (expr ++ [b8 (opcode op)]) path;
      emit_constant pools expr c
  | PBetween path lo hi =>
      if negb (bool_decide (family lo = family hi)) then Err MixedBetweenFamilies
      else
        '(pools, expr) ← emit_path pools (expr ++ [b8 OP_BETWEEN]) path;
        '(pools, expr) ← emit_constant pools expr lo;
        emit_constant pools expr hi
  | PBeginsWith path prefix =>
      '(pools, expr) ← emit_path pools (expr ++ [b8 OP_BEGINS_WITH]) path;
      '(id, pools) ← constant_id pools (utf8_constant_bytes prefix);
      Ok (pools, expr ++ encode_u64 id)
  | PIn path members =>
      if negb ((1 <=? len members) && (len members <=? IN_MEMBERS_MAX)) then Err BadInCount
      else match members with
      | [] => Panic
      | m0 :: _ =>
          if existsb (fun m => negb (bool_decide (family m = family m0))) members then Err MixedInFamilies
          else
            '(pools, expr) ← emit_path pools (expr ++ [b8 OP_IN]) path;
            emit_constants pools (expr ++ [b8 (len members)]) members
      end
  | PExists path => emit_path pools (expr ++ [b8 OP_EXISTS]) path
  | PAnd _ | POr _ | PNot _ => Panic
  end.

Definition assemble (pools : Pools) (expr : list byte) : outcome PredicateBuildError (list byte) :=
  let out :=
    [b8 PROGRAM_VERSION; b8 0] ++
    encode_u64 (len (paths pools)) ++
    concat (map (fun p => encode_u64 (len p) ++ p) (paths pools)) ++
    encode_u64 (len (constants pools)) ++
    concat (constants pools) ++ expr in
  if PROGRAM_BYTES_CEILING <=? len out then Err BuildProgramTooLong else Ok out.

(** The work stack has its top first: children are pushed in reverse. *)
Fixpoint encode_work (fuel : nat) (work : list (Predicate * Z)) (pools : Pools) (expr : list byte) (ops : Z)
    : outcome PredicateBuildError (list byte) :=
  match work with
  | [] => assemble pools expr
  | (node, depth) :: work =>
      match fuel with
      | O => Panic
      | S fuel =>
          if NESTING_DEPTH_MAX <? depth then Err BuildTooDeep
          else if OPS_MAX <? ops + 1 then Err BuildTooManyOps
          else match node with
          | PAnd l | POr l =>
              if negb ((2 <=? len l) && (len l <=? BOOL_ARITY_MAX)) then Err BadArity
              else
                let op := match node with PAnd _ => OP_AND | _ => OP_OR end in
                encode_work fuel (map (fun c => (c, depth + 1)) l ++ work) pools
                  (expr ++ [b8 op; b8 (len l)]) (ops + 1)
          | PNot inner =>
              encode_work fuel ((inner, depth + 1) :: work) pools (expr ++ [b8 OP_NOT]) (ops + 1)
          | leaf =>
              '(pools, expr) ← encode_leaf leaf pools expr;
              encode_work fuel work pools expr (ops + 1)
          end
      end
  end.

Definition encode (root : Predicate) : outcome PredicateBuildError (list byte) :=
  encode_work (S (Z.to_nat OPS_MAX)) [(root, 1)] Pools_default [] 0.

(** ** The validator *)

Definition verr {A} (k : PredicateErrorKind) (at_ : Z) : outcome PredicateError A :=
  Err {| offset := at_; kind := k |}.

Definition read_varint_at (bytes : list byte) (at_ : Z) : outcome PredicateError (Z * Z) :=
  tail ← slice_from bytes at_;
  '(value, used) ← ok_or {| offset := at_; kind := BadVarint |} (decode_u64 tail);
  Ok (value, at_ + used).

Definition region_end (n start total : Z) : option Z :=
  e ← checked_add 64 n start;
  if e <=? total then Some e else None.

(** [bytes.get(at)], or the refusal. *)
Definition byte_or (bytes : list byte) (k : PredicateErrorKind) (at_ : Z) : outcome PredicateError Z :=
  b ← ok_or {| offset := at_; kind := k |} (get bytes at_); Ok (u8 b).

(** [spans.iter().any(|&(s, e)| bytes[s..e] == bytes[start..end])]. *)
Fixpoint any_span (bytes : list byte) (spans : list (Z * Z)) (start end_ : Z) : outcome PredicateError bool :=
  match spans with
  | [] => Ok false
  | (s, e) :: spans =>
      x ← slice bytes s e;
      y ← slice bytes start end_;
      if bool_decide (x = y) then Ok true else any_span bytes spans start end_
  end.

Fixpoint validate_paths_loop (n : nat) (bytes : list byte) (at_ : Z) (spans : list (Z * Z))
    : outcome PredicateError (list (Z * Z) * Z) :=
  match n with
  | O => Ok (spans, at_)
  | S n =>
      '(size, start) ← read_varint_at bytes at_;
      end_ ← ok_or {| offset := start; kind := Truncated |} (region_end size start (len bytes));
      program ← slice bytes start end_;
      match PathProgram.from_bytes program with
      | Err _ => verr BadPath start
      | Panic => Panic
      | Ok program =>
          legacy ← PathProgram.is_legacy program;
          if (legacy : bool) then verr BadPath start
          else
            dup ← any_span bytes spans start end_;
            if (dup : bool) then verr NotCanonical start
            else validate_paths_loop n bytes end_ (spans ++ [(start, end_)])
      end
  end.

Definition validate_paths (bytes : list byte) (at_ : Z) : outcome PredicateError (list (Z * Z) * Z) :=
  '(count, at_) ← read_varint_at bytes at_;
  if PATHS_MAX <? count then verr BadCount at_
  else validate_paths_loop (Z.to_nat count) bytes at_ [].

Definition validate_constant (bytes : list byte) (at_ : Z) : outcome PredicateError (ConstFamily * Z) :=
  let tag_at := at_ in
  tag ← byte_or bytes Truncated tag_at;
  let at_ := at_ + 1 in
  if tag =? CONST_I64 then '(_, at_) ← read_varint_at bytes at_; Ok (Numeric, at_)
  else if tag =? CONST_F64 then
    end_ ← ok_or {| offset := at_; kind := Truncated |} (region_end 8 at_ (len bytes));
    word ← slice bytes at_ end_;
    let bits := be_val word in
    if negb (is_finite bits) || (feq bits 0 && negb (bits =? 0)) then verr BadConstant at_
    else Ok (Numeric, end_)
  else if tag =? CONST_BOOL then
    b ← byte_or bytes Truncated at_;
    if 1 <? b then verr BadConstant at_ else Ok (FamBool, at_ + 1)
  else if tag =? CONST_UTF8 then
    '(size, start) ← read_varint_at bytes at_;
    end_ ← ok_or {| offset := start; kind := Truncated |} (region_end size start (len bytes));
    text ← slice bytes start end_;
    if negb (utf8_valid text) then verr BadConstant start else Ok (FamUtf8, end_)
  else verr BadConstant tag_at.

Fixpoint validate_constants_loop (n : nat) (bytes : list byte) (at_ : Z) (consts : list (Z * Z * ConstFamily))
    : outcome PredicateError (list (Z * Z * ConstFamily) * Z) :=
  match n with
  | O => Ok (consts, at_)
  | S n =>
      let start := at_ in
      '(fam, at_) ← validate_constant bytes at_;
      dup ← any_span bytes consts.*1 start at_;
      if (dup : bool) then verr NotCanonical start
      else validate_constants_loop n bytes at_ (consts ++ [(start, at_, fam)])
  end.

Definition validate_constants (bytes : list byte) (at_ : Z)
    : outcome PredicateError (list (Z * Z * ConstFamily) * Z) :=
  '(count, at_) ← read_varint_at bytes at_;
  if CONSTANTS_MAX <? count then verr BadCount at_
  else validate_constants_loop (Z.to_nat count) bytes at_ [].

(** [ExprCheck]: the pools' sizes and families are fixed for a walk, the next
    new references advance. *)
Record ExprCheck := { next_path : Z; next_constant : Z }.

Definition read_pool_ref (bytes : list byte) (at_ pool_len next_new : Z)
    : outcome PredicateError (Z * Z * Z) :=
  let offset := at_ in
  '(id, at_) ← read_varint_at bytes at_;
  if negb (id <? pool_len) then verr BadPoolRef offset
  else if next_new <? id then verr NotCanonical offset
  else Ok (id, at_, if id =? next_new then next_new + 1 else next_new).

Section expr.
Context (bytes : list byte) (path_count : Z) (families : list ConstFamily).

Definition path_ref (check : ExprCheck) (at_ : Z) : outcome PredicateError (Z * ExprCheck) :=
  '(_, at_, next) ← read_pool_ref bytes at_ path_count (next_path check);
  Ok (at_, {| next_path := next; next_constant := next_constant check |}).

Definition constant_ref (check : ExprCheck) (at_ : Z)
    : outcome PredicateError (ConstFamily * Z * Z * ExprCheck) :=
  let offset := at_ in
  '(id, at_, next) ← read_pool_ref bytes at_ (len families) (next_constant check);
  fam ← expect (get families id);
  Ok (fam, offset, at_, {| next_path := next_path check; next_constant := next |}).

(** The members of an [IN] after the first. *)
Fixpoint validate_members (n : nat) (first : ConstFamily) (check : ExprCheck) (at_ : Z)
    : outcome PredicateError (Z * ExprCheck) :=
  match n with
  | O => Ok (at_, check)
  | S n =>
      '(fam, offset, at_, check) ← constant_ref check at_;
      if negb (bool_decide (fam = first)) then verr BadTypeFamily offset
      else validate_members n first check at_
  end.

Definition validate_leaf (op opcode_at at_ : Z) (check : ExprCheck) : outcome PredicateError (Z * ExprCheck) :=
  if (OP_EQ <=? op) && (op <=? OP_GE) then
    '(at_, check) ← path_ref check at_;
    '(_, _, at_, check) ← constant_ref check at_;
    Ok (at_, check)
  else if op =? OP_BETWEEN then
    '(at_, check) ← path_ref check at_;
    '(lo, _, at_, check) ← constant_ref check at_;
    '(hi, offset, at_, check) ← constant_ref check at_;
    if negb (bool_decide (lo = hi)) then verr BadTypeFamily offset else Ok (at_, check)
  else if op =? OP_BEGINS_WITH then
    '(at_, check) ← path_ref check at_;
    '(fam, offset, at_, check) ← constant_ref check at_;
    if negb (bool_decide (fam = FamUtf8)) then verr BadTypeFamily offset else Ok (at_, check)
  else if op =? OP_IN then
    '(at_, check) ← path_ref check at_;
    n ← byte_or bytes Truncated at_;
    if (n <? 1) || (IN_MEMBERS_MAX <? n) then verr BadCount at_
    else
      '(first, _, at_, check) ← constant_ref check (at_ + 1);
      validate_members (Z.to_nat n - 1) first check at_
  else if op =? OP_EXISTS then path_ref check at_
  else verr BadOpcode opcode_at.

(** A completed leaf completes every ancestor whose last child it was. *)
Fixpoint cascade (stack : list Z) : list Z :=
  match stack with
  | [] => []
  | top :: stack => if 0 <? top - 1 then (top - 1) :: stack else cascade stack
  end.

(** [stack] has its top first. *)
Fixpoint validate_ops (fuel : nat) (stack : list Z) (at_ ops : Z) (check : ExprCheck)
    : outcome PredicateError (Z * ExprCheck) :=
  match stack with
  | [] => Ok (at_, check)
  | _ :: _ =>
      match fuel with
      | O => Panic
      | S fuel =>
          if NESTING_DEPTH_MAX <? len stack then verr TooDeep at_
          else if OPS_MAX <? ops + 1 then verr TooManyOps at_
          else
            let opcode_at := at_ in
            op ← byte_or bytes Truncated opcode_at;
            let at_ := at_ + 1 in
            if (op =? OP_AND) || (op =? OP_OR) then
              n ← byte_or bytes Truncated at_;
              if (n <? 2) || (BOOL_ARITY_MAX <? n) then verr BadCount at_
              else validate_ops fuel (n :: stack) (at_ + 1) (ops + 1) check
            else if op =? OP_NOT then validate_ops fuel (1 :: stack) at_ (ops + 1) check
            else
              '(at_, check) ← validate_leaf op opcode_at at_ check;
              validate_ops fuel (cascade stack) at_ (ops + 1) check
      end
  end.

Definition validate_expr (at_ : Z) : outcome PredicateError unit :=
  '(at_, check) ← validate_ops (S (Z.to_nat OPS_MAX)) [1] at_ 0 {| next_path := 0; next_constant := 0 |};
  if negb (at_ =? len bytes) then verr TrailingBytes at_
  else if negb (next_path check =? path_count) || negb (next_constant check =? len families)
  then verr NotCanonical at_
  else Ok tt.
End expr.

Definition validate (bytes : list byte) : outcome PredicateError unit :=
  if len bytes <? 2 then verr Truncated (len bytes)
  else if PROGRAM_BYTES_CEILING <=? len bytes then verr ProgramTooLong 0
  else
    version ← byte_at bytes 0;
    if negb (version =? PROGRAM_VERSION) then verr BadVersion 0
    else
      flags ← byte_at bytes 1;
      if negb (flags =? 0) then verr BadFlags 1
      else
        '(path_spans, at_) ← validate_paths bytes 2;
        '(consts, at_) ← validate_constants bytes at_;
        validate_expr bytes (len path_spans) consts.*2 at_.

Definition from_bytes (bytes : list byte) : outcome PredicateError (list byte) :=
  _ ← validate bytes; Ok bytes.

(** ** Trusted reads *)

Inductive Op :=
  | OAnd (arity : Z)
  | OOr (arity : Z)
  | ONot
  | OCmp (op : CmpOp) (path constant : Z)
  | OBetween (path lo hi : Z)
  | OBeginsWith (path prefix : Z)
  | OIn (path members_at count : Z)
  | OExists (path : Z).

Definition trusted_varint {E} (bytes : list byte) (at_ : Z) : outcome E (Z * Z) :=
  tail ← slice_from bytes at_;
  '(value, used) ← expect (decode_u64 tail);
  Ok (value, at_ + used).

(** [trusted_ref]: the reference narrows to [u32]. *)
Definition trusted_ref {E} (bytes : list byte) (at_ : Z) : outcome E (Z * Z) :=
  '(id, at_) ← trusted_varint bytes at_; Ok (wrap 32 id, at_).

(** Read [n] references. *)
Fixpoint trusted_refs {E} (n : nat) (bytes : list byte) (at_ : Z) : outcome E (list Z * Z) :=
  match n with
  | O => Ok ([], at_)
  | S n => '(id, at_) ← trusted_ref bytes at_; '(l, at_) ← trusted_refs n bytes at_; Ok (id :: l, at_)
  end.

Definition read_op {E} (bytes : list byte) (at_ : Z) : outcome E (Op * Z) :=
  op ← byte_at bytes at_;
  let next := at_ + 1 in
  if (op =? OP_AND) || (op =? OP_OR) then
    arity ← byte_at bytes next;
    Ok (if op =? OP_AND then OAnd arity else OOr arity, next + 1)
  else if op =? OP_NOT then Ok (ONot, next)
  else if op =? OP_BETWEEN then
    '(path, next) ← trusted_ref bytes next;
    '(lo, next) ← trusted_ref bytes next;
    '(hi, next) ← trusted_ref bytes next;
    Ok (OBetween path lo hi, next)
  else if op =? OP_BEGINS_WITH then
    '(path, next) ← trusted_ref bytes next;
    '(prefix, next) ← trusted_ref bytes next;
    Ok (OBeginsWith path prefix, next)
  else if op =? OP_IN then
    '(path, next) ← trusted_ref bytes next;
    count ← byte_at bytes next;
    '(_, end_) ← trusted_refs (Z.to_nat count) bytes (next + 1);
    Ok (OIn path (next + 1) count, end_)
  else if op =? OP_EXISTS then
    '(path, next) ← trusted_ref bytes next;
    Ok (OExists path, next)
  else
    c ← expect (from_opcode op);
    '(path, next) ← trusted_ref bytes next;
    '(constant, next) ← trusted_ref bytes next;
    Ok (OCmp c path constant, next).

Definition trusted_region {E} (bytes : list byte) (at_ : Z) : outcome E (list byte * Z) :=
  '(size, at_) ← trusted_varint bytes at_;
  end_ ← expect (region_end size at_ (len bytes));
  region ← expect (get_range bytes at_ end_);
  Ok (region, end_).

Fixpoint decode_paths_loop {E} (n : nat) (bytes : list byte) (at_ : Z) : outcome E (list (list byte) * Z) :=
  match n with
  | O => Ok ([], at_)
  | S n =>
      '(region, at_) ← trusted_region bytes at_;
      p ← match PathProgram.from_bytes region with Ok p => Ok p | _ => Panic end;
      '(l, at_) ← decode_paths_loop n bytes at_;
      Ok (p :: l, at_)
  end.
Definition decode_paths {E} (bytes : list byte) (at_ : Z) : outcome E (list (list byte) * Z) :=
  '(count, at_) ← trusted_varint bytes at_;
  decode_paths_loop (Z.to_nat count) bytes at_.

Definition decode_constant {E} (bytes : list byte) (at_ : Z) : outcome E (Constant * Z) :=
  tag ← byte_at bytes at_;
  let at_ := at_ + 1 in
  if tag =? CONST_I64 then '(v, at_) ← trusted_varint bytes at_; Ok (KI64 (unzigzag v), at_)
  else if tag =? CONST_F64 then
    tail ← slice_from bytes at_;
    word ← expect (get_range tail 0 8);
    Ok (KF64 (be_val word), at_ + 8)
  else if tag =? CONST_BOOL then b ← byte_at bytes at_; Ok (KBool (b =? 1), at_ + 1)
  else if tag =? CONST_UTF8 then
    '(text, at_) ← trusted_region bytes at_;
    if utf8_valid text then Ok (KUtf8 text, at_) else Panic
  else Panic.

Fixpoint decode_constants_loop {E} (n : nat) (bytes : list byte) (at_ : Z) : outcome E (list Constant * Z) :=
  match n with
  | O => Ok ([], at_)
  | S n =>
      '(c, at_) ← decode_constant bytes at_;
      '(l, at_) ← decode_constants_loop n bytes at_;
      Ok (c :: l, at_)
  end.
Definition decode_constants {E} (bytes : list byte) (at_ : Z) : outcome E (list Constant * Z) :=
  '(count, at_) ← trusted_varint bytes at_;
  decode_constants_loop (Z.to_nat count) bytes at_.

(** ** Rebuilding the tree *)

Inductive Frame :=
  | FAnd (arity : Z) (children : list Predicate)
  | FOr (arity : Z) (children : list Predicate)
  | FNot.

(** Fold a completed expression into its ancestors: the finished tree, or the
    frames that still wait for operands. *)
Fixpoint fold_frames (frames : list Frame) (completed : Predicate) : Predicate + list Frame :=
  match frames with
  | [] => inl completed
  | FNot :: frames => fold_frames frames (PNot completed)
  | FAnd arity children :: frames =>
      let children := children ++ [completed] in
      if len children <? arity then inr (FAnd arity children :: frames) else fold_frames frames (PAnd children)
  | FOr arity children :: frames =>
      let children := children ++ [completed] in
      if len children <? arity then inr (FOr arity children :: frames) else fold_frames frames (POr children)
  end.

Section decode.
Context {E : Type} (bytes : list byte) (paths : list (list byte)) (constants : list Constant).

Fixpoint pick_constants (ids : list Z) : outcome E (list Constant) :=
  match ids with
  | [] => Ok []
  | id :: ids => c ← expect (get constants id); l ← pick_constants ids; Ok (c :: l)
  end.

Definition decode_leaf (op : Op) : outcome E Predicate :=
  match op with
  | OCmp op path constant =>
      p ← expect (get paths path); c ← expect (get constants constant); Ok (PCmp op p c)
  | OBetween path lo hi =>
      p ← expect (get paths path); lo ← expect (get constants lo); hi ← expect (get constants hi);
      Ok (PBetween p lo hi)
  | OBeginsWith path prefix =>
      c ← expect (get constants prefix);
      match c with
      | KUtf8 prefix => p ← expect (get paths path); Ok (PBeginsWith p prefix)
      | _ => Panic
      end
  | OIn path members_at count =>
      p ← expect (get paths path);
      '(ids, _) ← trusted_refs (Z.to_nat count) bytes members_at;
      members ← pick_constants ids;
      Ok (PIn p members)
  | OExists path => p ← expect (get paths path); Ok (PExists p)
  | _ => Panic
  end.

Fixpoint decode_expr (fuel : nat) (frames : list Frame) (at_ : Z) : outcome E Predicate :=
  match fuel with
  | O => Panic
  | S fuel =>
      '(op, at_) ← read_op bytes at_;
      match op with
      | OAnd arity => decode_expr fuel (FAnd arity [] :: frames) at_
      | OOr arity => decode_expr fuel (FOr arity [] :: frames) at_
      | ONot => decode_expr fuel (FNot :: frames) at_
      | leaf =>
          completed ← decode_leaf leaf;
          match fold_frames frames completed with
          | inl p => Ok p
          | inr frames => decode_expr fuel frames at_
          end
      end
  end.
End decode.

Definition decode {E} (bytes : list byte) : outcome E Predicate :=
  '(paths, at_) ← decode_paths bytes 2;
  '(constants, at_) ← decode_constants bytes at_;
  decode_expr bytes paths constants (length bytes) [] at_.

End PredicateProgram.
