(* ===== verification/PredicateProgramSpec.v ===== *)
(** * PredicateProgramSpec: the predicate bytecode is canonical

    The encoding of a predicate as a function of its tree: the pools are the
    distinct paths and constants in order of first reference ([interned]), the
    expression refers to them by position ([expr_bytes]). The iterative encoder,
    validator and decoder of [PredicateProgram] are related to these functions. *)

From S2P Require Import Prelude Tail Varint F64 ByteOrder Utf8 IndexKey Doc Predicate PathProgram PredicateProgram.
Import Varint PredicateProgram.

(** Induction over the operand lists. *)
Section predicate_ind.
Variable P : Predicate -> Prop.
Hypothesis Hand : forall l, Forall P l -> P (PAnd l).
Hypothesis Hor : forall l, Forall P l -> P (POr l).
Hypothesis Hnot : forall p, P p -> P (PNot p).
Hypothesis Hcmp : forall op path c, P (PCmp op path c).
Hypothesis Hbetween : forall path lo hi, P (PBetween path lo hi).
Hypothesis Hbegins : forall path prefix, P (PBeginsWith path prefix).
Hypothesis Hin : forall path members, P (PIn path members).
Hypothesis Hexists : forall path, P (PExists path).

Fixpoint predicate_ind' (p : Predicate) : P p :=
  let all := fix all (l : list Predicate) : Forall P l :=
    match l with
    | [] => List.Forall_nil _
    | x :: l => List.Forall_cons _ _ _ (predicate_ind' x) (all l)
    end in
  match p with
  | PAnd l => Hand l (all l)
  | POr l => Hor l (all l)
  | PNot p => Hnot p (predicate_ind' p)
  | PCmp op path c => Hcmp op path c
  | PBetween path lo hi => Hbetween path lo hi
  | PBeginsWith path prefix => Hbegins path prefix
  | PIn path members => Hin path members
  | PExists path => Hexists path
  end.
End predicate_ind.

(** ** Pools in order of first reference *)

Definition intern (l : list (list byte)) (x : list byte) : list (list byte) :=
  if position x l then l else l ++ [x].
Definition interned (l xs : list (list byte)) : list (list byte) := fold_left intern xs l.
Definition index_of (l : list (list byte)) (x : list byte) : Z := default (len l) (position x l).

Lemma position_Some x l i : position x l = Some i -> get l i = Some x.
Proof.
  revert i. induction l as [|y l IH]; intros i; cbn [position]; [done|].
  case_bool_decide as E; [intros [= <-]; by subst|]. destruct (position x l) as [j|] eqn:Ej; [|done].
  intros [= <-]. specialize (IH _ eq_refl). apply get_Some in IH as [Hj IH]. apply get_Some. split; [lia|].
  by replace (Z.to_nat (j + 1)) with (S (Z.to_nat j)) by lia.
Qed.

Lemma position_app x l r i : position x l = Some i -> position x (l ++ r) = Some i.
Proof.
  revert i. induction l as [|y l IH]; intros i; cbn [position app]; [done|].
  case_bool_decide; [done|]. destruct (position x l) as [j|]; [|done]. by rewrite (IH _ eq_refl).
Qed.

Lemma position_snoc x l : position x l = None -> position x (l ++ [x]) = Some (len l).
Proof.
  induction l as [|y l IH]; cbn [position app]; [by rewrite bool_decide_true|].
  case_bool_decide; [done|]. destruct (position x l); [done|]. intros _. rewrite IH by done. cbn. f_equal. lens.
Qed.

Lemma position_None x l : position x l = None <-> x ∉ l.
Proof.
  induction l as [|y l IH]; cbn [position]; [split; [by intros _ ?%elem_of_nil|done]|].
  rewrite elem_of_cons. case_bool_decide as E; [split; [done|]; intros []; by left|].
  destruct (position x l) as [j|]; cbn.
  - split; [done|]. intros H. destruct IH as [_ IH]. discriminate IH. intros ?. apply H. by right.
  - split; [|done]. intros _ [?|?]; [by subst|]. by apply IH.
Qed.

Lemma position_get x l i : NoDup l -> get l i = Some x -> position x l = Some i.
Proof.
  intros Hn Hg. destruct (position x l) as [j|] eqn:E.
  - f_equal. apply position_Some, get_Some in E as [Hj E]. apply get_Some in Hg as [Hi Hg].
    pose proof (NoDup_lookup l _ _ _ Hn E Hg). lia.
  - apply position_None in E. apply get_lookup, list_elem_of_lookup_2 in Hg. done.
Qed.

Lemma intern_position x l : exists i, position x (intern l x) = Some i.
Proof.
  unfold intern. destruct (position x l) as [i|] eqn:E; [by exists i|]. eexists. by apply position_snoc.
Qed.

Lemma intern_prefix l x : l `prefix_of` intern l x.
Proof. unfold intern. destruct (position x l); [done|]. by exists [x]. Qed.

Lemma interned_prefix l xs : l `prefix_of` interned l xs.
Proof.
  revert l. induction xs as [|x xs IH]; intros l; [done|]. cbn. etrans; [apply intern_prefix|apply IH].
Qed.

Lemma interned_app l xs ys : interned l (xs ++ ys) = interned (interned l xs) ys.
Proof. apply fold_left_app. Qed.

Lemma NoDup_snoc {A} (l : list A) x : NoDup l -> x ∉ l -> NoDup (l ++ [x]).
Proof.
  intros Hl Hx. apply list.NoDup_app. split; [done|]. split; [|apply NoDup_singleton].
  by intros y Hy ->%list_elem_of_singleton.
Qed.

Lemma intern_NoDup l x : NoDup l -> NoDup (intern l x).
Proof.
  intros Hl. unfold intern. destruct (position x l) eqn:E; [done|]. by apply NoDup_snoc, position_None.
Qed.

Lemma interned_NoDup l xs : NoDup l -> NoDup (interned l xs).
Proof. revert l. induction xs as [|x xs IH]; intros l Hl; [done|]. cbn. by apply IH, intern_NoDup. Qed.

Lemma index_of_prefix l l' x : x ∈ l -> l `prefix_of` l' -> index_of l' x = index_of l x.
Proof.
  intros Hx [r ->]. unfold index_of. destruct (position x l) as [i|] eqn:E; [by rewrite (position_app _ _ _ _ E)|].
  by apply position_None in E.
Qed.

Lemma intern_elem l x : x ∈ intern l x.
Proof. unfold intern. destruct (position x l) eqn:E.
  - by apply position_Some, get_lookup, list_elem_of_lookup_2 in E.
  - apply elem_of_app. right. by apply list_elem_of_singleton.
Qed.

Lemma index_of_lt l x : x ∈ l -> 0 <= index_of l x < len l.
Proof.
  intros Hx. unfold index_of. destruct (position x l) as [i|] eqn:E; [by apply position_Some, get_lt in E|].
  by apply position_None in E.
Qed.

Lemma index_of_get l x : x ∈ l -> get l (index_of l x) = Some x.
Proof.
  intros Hx. unfold index_of. destruct (position x l) as [i|] eqn:E; [by apply position_Some in E|].
  by apply position_None in E.
Qed.

(** ** Trees *)

(** A constant in its type's range; floats finite. *)
Definition wf_constant (c : Constant) : Prop :=
  match c with
  | KI64 v => in_i64 v
  | KF64 f => in_u 64 f /\ is_finite f = true
  | KBool _ => True
  | KUtf8 s => utf8_valid s = true /\ in_u 64 (len s)
  end.

(** [-0.0] is stored as [0.0]. *)
Definition norm_const (c : Constant) : Constant :=
  match c with KF64 f => KF64 (if feq f 0 then 0 else f) | c => c end.

(** A tree with its constants in stored form. *)
Fixpoint norm (p : Predicate) : Predicate :=
  match p with
  | PAnd l => PAnd (map norm l)
  | POr l => POr (map norm l)
  | PNot p => PNot (norm p)
  | PCmp op path c => PCmp op path (norm_const c)
  | PBetween path lo hi => PBetween path (norm_const lo) (norm_const hi)
  | PIn path members => PIn path (map norm_const members)
  | p => p
  end.

(** The stored bytes of a constant. *)
Definition const_bytes (c : Constant) : list byte :=
  match c with
  | KI64 v => b8 CONST_I64 :: encode_u64 (zigzag v)
  | KF64 f => b8 CONST_F64 :: be_bytes 8 (if feq f 0 then 0 else f)
  | KBool b => [b8 CONST_BOOL; b8 (Z.b2z b)]
  | KUtf8 s => utf8_constant_bytes s
  end.

(** A path program a predicate may hold. *)
Definition wf_path (p : list byte) : Prop :=
  PathProgram.from_bytes p = Ok p /\ PathProgram.is_legacy (E:=PredicateError) p = Ok false.

(** The paths and constants of a tree in order of reference. *)
Fixpoint path_refs (p : Predicate) : list (list byte) :=
  match p with
  | PAnd l | POr l => concat (map path_refs l)
  | PNot p => path_refs p
  | PCmp _ path _ | PBetween path _ _ | PBeginsWith path _ | PIn path _ | PExists path => [path]
  end.
Fixpoint const_refs (p : Predicate) : list Constant :=
  match p with
  | PAnd l | POr l => concat (map const_refs l)
  | PNot p => const_refs p
  | PCmp _ _ c => [c]
  | PBetween _ lo hi => [lo; hi]
  | PBeginsWith _ prefix => [KUtf8 prefix]
  | PIn _ members => members
  | PExists _ => []
  end.

Fixpoint ops (p : Predicate) : Z :=
  match p with
  | PAnd l | POr l => 1 + foldr (fun p n => ops p + n) 0 l
  | PNot p => 1 + ops p
  | _ => 1
  end.
Definition all_ops (l : list Predicate) : Z := foldr (fun p n => ops p + n) 0 l.

Definition one_family (l : list Constant) : Prop :=
  match l with [] => True | c :: _ => Forall (fun m => family m = family c) l end.

(** The shape rules: depth, arities and families. *)
Fixpoint shaped (depth : Z) (p : Predicate) : Prop :=
  depth <= NESTING_DEPTH_MAX /\
  match p with
  | PAnd l | POr l =>
      2 <= len l <= BOOL_ARITY_MAX /\ (fix all l := match l with [] => True | p :: l => shaped (depth + 1) p /\ all l end) l
  | PNot p => shaped (depth + 1) p
  | PBetween _ lo hi => family lo = family hi
  | PIn _ members => 1 <= len members <= IN_MEMBERS_MAX /\ one_family members
  | _ => True
  end.

Lemma shaped_all depth l :
  (fix all l := match l with [] => True | p :: l => shaped (depth + 1) p /\ all l end) l <-> Forall (shaped (depth + 1)) l.
Proof.
  induction l as [|p l IH]; [done|]. rewrite Forall_cons_iff, IH. done.
Qed.

(** Paths and constants are well formed. *)
Definition operands_wf (p : Predicate) : Prop := Forall wf_path (path_refs p) /\ Forall wf_constant (const_refs p).

Section bytes.
Context (P C : list (list byte)).
Definition path_ref_bytes (path : list byte) : list byte := encode_u64 (index_of P path).
Definition const_ref_bytes (c : Constant) : list byte := encode_u64 (index_of C (const_bytes c)).

Fixpoint expr_bytes (p : Predicate) : list byte :=
  match p with
  | PAnd l => b8 OP_AND :: b8 (len l) :: concat (map expr_bytes l)
  | POr l => b8 OP_OR :: b8 (len l) :: concat (map expr_bytes l)
  | PNot p => b8 OP_NOT :: expr_bytes p
  | PCmp op path c => b8 (opcode op) :: path_ref_bytes path ++ const_ref_bytes c
  | PBetween path lo hi => b8 OP_BETWEEN :: path_ref_bytes path ++ const_ref_bytes lo ++ const_ref_bytes hi
  | PBeginsWith path prefix => b8 OP_BEGINS_WITH :: path_ref_bytes path ++ const_ref_bytes (KUtf8 prefix)
  | PIn path members =>
      b8 OP_IN :: path_ref_bytes path ++ b8 (len members) :: concat (map const_ref_bytes members)
  | PExists path => b8 OP_EXISTS :: path_ref_bytes path
  end.
End bytes.

Definition pools_of (p : Predicate) : Pools :=
  {| paths := interned [] (path_refs p); constants := interned [] (map const_bytes (const_refs p)) |}.

Definition image (pools : Pools) (expr : list byte) : list byte :=
  [b8 PROGRAM_VERSION; b8 0] ++
  encode_u64 (len (paths pools)) ++ concat (map (fun p => encode_u64 (len p) ++ p) (paths pools)) ++
  encode_u64 (len (constants pools)) ++ concat (constants pools) ++ expr.

(** The encoding of a tree. *)
Definition program_bytes (p : Predicate) : list byte :=
  image (pools_of p) (expr_bytes (paths (pools_of p)) (constants (pools_of p)) p).

Definition legacy_free (q : list byte) : Prop := PathProgram.is_legacy (E:=PredicateBuildError) q = Ok false.
Definition finite_const (c : Constant) : bool := match c with KF64 f => is_finite f | _ => true end.
Definition operands_ok (p : Predicate) : Prop :=
  Forall legacy_free (path_refs p) /\ Forall (fun c => finite_const c = true) (const_refs p).

(** What the encoder accepts. *)
Definition encodable (p : Predicate) : Prop :=
  shaped 1 p /\ operands_ok p /\
  ops p <= OPS_MAX /\ len (paths (pools_of p)) <= PATHS_MAX /\ len (constants (pools_of p)) <= CONSTANTS_MAX /\
  len (program_bytes p) < PROGRAM_BYTES_CEILING.

(** ** The recursive encoder *)

Section encode_list.
Context (enc : Predicate -> Z -> Pools -> list byte -> Z -> outcome PredicateBuildError (Pools * list byte * Z)).
Fixpoint encode_list (l : list (Predicate * Z)) (pools : Pools) (expr : list byte) (n : Z)
    : outcome PredicateBuildError (Pools * list byte * Z) :=
  match l with
  | [] => Ok (pools, expr, n)
  | (p, d) :: l => '(pools, expr, n) ← enc p d pools expr n; encode_list l pools expr n
  end.
End encode_list.

Fixpoint encode_tree (p : Predicate) (depth : Z) (pools : Pools) (expr : list byte) (n : Z)
    : outcome PredicateBuildError (Pools * list byte * Z) :=
  let children := fix children l d pools expr n :=
    match l with
    | [] => Ok (pools, expr, n)
    | p :: l => '(pools, expr, n) ← encode_tree p d pools expr n; children l d pools expr n
    end in
  if NESTING_DEPTH_MAX <? depth then Err BuildTooDeep
  else if OPS_MAX <? n + 1 then Err BuildTooManyOps
  else match p with
  | PAnd l =>
      if negb ((2 <=? len l) && (len l <=? BOOL_ARITY_MAX)) then Err BadArity
      else children l (depth + 1) pools (expr ++ [b8 OP_AND; b8 (len l)]) (n + 1)
  | POr l =>
      if negb ((2 <=? len l) && (len l <=? BOOL_ARITY_MAX)) then Err BadArity
      else children l (depth + 1) pools (expr ++ [b8 OP_OR; b8 (len l)]) (n + 1)
  | PNot p => encode_tree p (depth + 1) pools (expr ++ [b8 OP_NOT]) (n + 1)
  | leaf => '(pools, expr) ← encode_leaf leaf pools expr; Ok (pools, expr, n + 1)
  end.

Definition encode_all := encode_list encode_tree.
Definition at_depth (d : Z) (l : list Predicate) : list (Predicate * Z) := map (fun p => (p, d)) l.

Lemma encode_children l d pools expr n :
  (fix children l d pools expr n :=
    match l with
    | [] => Ok (pools, expr, n)
    | p :: l => '(pools, expr, n) ← encode_tree p d pools expr n; children l d pools expr n
    end) l d pools expr n = encode_all (at_depth d l) pools expr n.
Proof.
  revert pools expr n. induction l as [|p l IH]; intros; [done|]. cbn.
  destruct (encode_tree p d pools expr n) as [[[? ?] ?]| |]; cbn; [apply IH|done..].
Qed.

Lemma encode_list_app l r pools expr n :
  encode_all (l ++ r) pools expr n = '(pools, expr, n) ← encode_all l pools expr n; encode_all r pools expr n.
Proof.
  revert pools expr n. induction l as [|[p d] l IH]; intros; [done|]. cbn [app encode_all encode_list].
  unfold encode_all. cbn [encode_list]. destruct (encode_tree p d pools expr n) as [[[? ?] ?]| |]; ok_step; [|done..]. apply IH.
Qed.

Definition arity_ok (l : list Predicate) : bool := (2 <=? len l) && (len l <=? BOOL_ARITY_MAX).

Lemma encode_tree_eq p depth pools expr n :
  encode_tree p depth pools expr n =
  if NESTING_DEPTH_MAX <? depth then Err BuildTooDeep
  else if OPS_MAX <? n + 1 then Err BuildTooManyOps
  else match p with
  | PAnd l =>
      if negb (arity_ok l) then Err BadArity
      else encode_all (at_depth (depth + 1) l) pools (expr ++ [b8 OP_AND; b8 (len l)]) (n + 1)
  | POr l =>
      if negb (arity_ok l) then Err BadArity
      else encode_all (at_depth (depth + 1) l) pools (expr ++ [b8 OP_OR; b8 (len l)]) (n + 1)
  | PNot p => encode_tree p (depth + 1) pools (expr ++ [b8 OP_NOT]) (n + 1)
  | leaf => '(pools, expr) ← encode_leaf leaf pools expr; Ok (pools, expr, n + 1)
  end.
Proof. destruct p; cbn [encode_tree]; rewrite ?encode_children; done. Qed.

(** The work stack computes the recursion. *)
Lemma encode_work_eq fuel work pools expr n :
  (Z.to_nat (OPS_MAX - n) < fuel)%nat -> n <= OPS_MAX ->
  encode_work fuel work pools expr n =
  '(pools, expr, _) ← encode_all work pools expr n; assemble pools expr.
Proof.
  revert work pools expr n. induction fuel as [|fuel IH]; intros work pools expr n Hf Hn; [lia|].
  destruct work as [|[p d] work]; [done|]. cbn [encode_work]. unfold encode_all. cbn [encode_list].
  fold encode_all. rewrite encode_tree_eq. destruct (NESTING_DEPTH_MAX <? d); [done|].
  destruct (Z.ltb_spec OPS_MAX (n + 1)); [done|].
  assert (forall work pools expr, encode_work fuel work pools expr (n + 1) =
    '(pools, expr, _) ← encode_all work pools expr (n + 1); assemble pools expr) as IH' by (intros; apply IH; lia).
  destruct p as [l|l|p|op path c|path lo hi|path prefix|path members|path];
    try (destruct (encode_leaf _ pools expr) as [[? ?]| |]; ok_step; [apply IH'|done..]).
  - unfold arity_ok. destruct (negb _); [done|]. rewrite IH', encode_list_app. fold (at_depth (d + 1) l).
    by destruct (encode_all (at_depth (d + 1) l) _ _ _) as [[[? ?] ?]| |].
  - unfold arity_ok. destruct (negb _); [done|]. rewrite IH', encode_list_app. fold (at_depth (d + 1) l).
    by destruct (encode_all (at_depth (d + 1) l) _ _ _) as [[[? ?] ?]| |].
  - rewrite IH'. unfold encode_all. cbn [encode_list].
    by destruct (encode_tree p (d + 1) _ _ _) as [[[? ?] ?]| |].
Qed.

(** ** What the encoder emits *)

Definition add (pools : Pools) (prefs : list (list byte)) (crefs : list Constant) : Pools :=
  {| paths := interned (paths pools) prefs; constants := interned (constants pools) (map const_bytes crefs) |}.
Definition fits (pools : Pools) : Prop := len (paths pools) <= PATHS_MAX /\ len (constants pools) <= CONSTANTS_MAX.
Definition extends (a b : Pools) : Prop := paths a `prefix_of` paths b /\ constants a `prefix_of` constants b.
Definition covers (pools : Pools) (prefs : list (list byte)) (crefs : list Constant) : Prop :=
  Forall (fun x => x ∈ paths pools) prefs /\ Forall (fun c => const_bytes c ∈ constants pools) crefs.

Lemma add_extends pools a b : extends pools (add pools a b).
Proof. split; apply interned_prefix. Qed.

Lemma add_app pools a a' b b' : add (add pools a b) a' b' = add pools (a ++ a') (b ++ b').
Proof. unfold add. cbn [paths constants]. by rewrite map_app, !interned_app. Qed.

Lemma add_consts_cons pools c l : add pools [] (c :: l) = add (add pools [] [c]) [] l.
Proof. by rewrite add_app. Qed.

Lemma add_nil pools : add pools [] [] = pools.
Proof. by destruct pools. Qed.

Lemma extends_fits a b : extends a b -> fits b -> fits a.
Proof. intros [H1%prefix_length H2%prefix_length] [? ?]. unfold fits, len in *. lia. Qed.

Lemma extends_trans a b c : extends a b -> extends b c -> extends a c.
Proof. intros [? ?] [? ?]. split; by etrans. Qed.

Lemma interned_covers l xs : Forall (fun x => x ∈ interned l xs) xs.
Proof.
  revert l. induction xs as [|x xs IH]; intros l; constructor; [|apply IH].
  cbn. eapply elem_of_prefix; [apply intern_elem|apply interned_prefix].
Qed.

Lemma add_covers pools a b : covers (add pools a b) a b.
Proof.
  split; [apply interned_covers|].
  apply (proj1 (List.Forall_map const_bytes (fun x => x ∈ constants (add pools a b)) b)), interned_covers.
Qed.

Lemma covers_extends pools pools' a b : covers pools a b -> extends pools pools' -> covers pools' a b.
Proof.
  intros [H1 H2] [E1 E2]. split; (eapply Forall_impl; [|eassumption]); intros x Hx.
  - by apply (elem_of_prefix (paths pools)).
  - by apply (elem_of_prefix (constants pools)).
Qed.

Lemma covers_app pools a a' b b' : covers pools (a ++ a') (b ++ b') <-> covers pools a b /\ covers pools a' b'.
Proof. unfold covers. rewrite !Forall_app. tauto. Qed.

Definition expr_of (pools : Pools) (p : Predicate) : list byte := expr_bytes (paths pools) (constants pools) p.

Lemma path_ref_ext a b x : x ∈ paths a -> extends a b -> path_ref_bytes (paths b) x = path_ref_bytes (paths a) x.
Proof. intros Hx [E _]. unfold path_ref_bytes. by rewrite (index_of_prefix _ _ _ Hx E). Qed.

Lemma const_ref_ext a b c :
  const_bytes c ∈ constants a -> extends a b -> const_ref_bytes (constants b) c = const_ref_bytes (constants a) c.
Proof. intros Hx [_ E]. unfold const_ref_bytes. by rewrite (index_of_prefix _ _ _ Hx E). Qed.

Lemma Forall_concat_elem {A B} (P : B -> Prop) (f : A -> list B) l :
  Forall P (concat (map f l)) <-> Forall (fun x => Forall P (f x)) l.
Proof. by rewrite Forall_concat, Forall_map. Qed.

(** References do not move when the pools grow. *)
Lemma expr_of_ext a b p : covers a (path_refs p) (const_refs p) -> extends a b -> expr_of b p = expr_of a p.
Proof.
  intros Hc He. unfold expr_of.
  assert (forall l, Forall (fun p => covers a (path_refs p) (const_refs p) ->
      expr_bytes (paths b) (constants b) p = expr_bytes (paths a) (constants a) p) l ->
    covers a (concat (map path_refs l)) (concat (map const_refs l)) ->
    map (expr_bytes (paths b) (constants b)) l = map (expr_bytes (paths a) (constants a)) l) as Hl.
  { intros l Hl. induction Hl as [|q l Hq _ IH]; [done|]. cbn [map concat]. intros [H1 H2]%covers_app.
    by rewrite Hq, IH. }
  induction p as [l Hi|l Hi|p IH|op path c|path lo hi|path prefix|path members|path] using predicate_ind';
    cbn [expr_bytes path_refs const_refs] in *;
    try (rewrite (Hl l Hi Hc); done); try (by rewrite IH);
    destruct Hc as [Hp Hk]; rewrite ?Forall_cons_iff in Hp; rewrite ?Forall_cons_iff in Hk;
    destruct Hp as [Hp _]; rewrite (path_ref_ext a b _ Hp He).
  - destruct Hk as [Hk _]. by rewrite (const_ref_ext a b).
  - destruct Hk as (Hk1 & Hk2 & _). by rewrite !(const_ref_ext a b).
  - destruct Hk as [Hk _]. by rewrite (const_ref_ext a b).
  - do 4 f_equal. apply map_ext_Forall. eapply Forall_impl; [|exact Hk]. intros c Hx. by apply const_ref_ext.
  - done.
Qed.

(** ** The encoder accepts exactly the encodable trees *)

Lemma len_intern l x : len (intern l x) = if position x l then len l else len l + 1.
Proof. unfold intern. destruct (position x l); [done|]. lens. Qed.

Lemma emit_path_iff pools expr path r :
  fits pools ->
  emit_path pools expr path = Ok r <->
  legacy_free path /\ fits (add pools [path] []) /\
  r = (add pools [path] [], expr ++ path_ref_bytes (paths (add pools [path] [])) path).
Proof.
  intros [F1 F2]. unfold emit_path, path_id, legacy_free, fits, add, path_ref_bytes, index_of. cbn [interned fold_left paths constants map].
  rewrite len_intern. unfold intern.
  destruct (PathProgram.is_legacy path) as [[]| |]; ok_step; try (split; [done|by intros [[=] _]]).
  destruct (position path (paths pools)) as [i|] eqn:E; ok_step.
  - rewrite E. cbn [default]. destruct pools. split; [intros [= <-]; done|]. by intros (_ & _ & ->).
  - rewrite position_snoc by done. cbn [default]. destruct (Z.eqb_spec (len (paths pools)) PATHS_MAX).
    + split; [done|]. intros (_ & [? ?] & _). lia.
    + split; [intros [= <-]; split_and!; [done|lia|lia|done]|]. by intros (_ & _ & ->).
Qed.

Lemma constant_id_iff pools (expr : list byte) (b : list byte) r :
  fits pools ->
  ('(id, pools) ← constant_id pools b; Ok (pools, expr ++ encode_u64 id)) = Ok r <->
  len (intern (constants pools) b) <= CONSTANTS_MAX /\
  r = ({| paths := paths pools; constants := intern (constants pools) b |},
       expr ++ encode_u64 (index_of (intern (constants pools) b) b)).
Proof.
  intros [F1 F2]. unfold constant_id, index_of. rewrite len_intern. unfold intern.
  destruct (position b (constants pools)) as [i|] eqn:E; ok_step.
  - rewrite E. cbn [default]. destruct pools. split; [intros [= <-]; done|]. by intros (_ & ->).
  - rewrite position_snoc by done. cbn [default]. destruct (Z.eqb_spec (len (constants pools)) CONSTANTS_MAX); ok_step.
    + split; [done|]. intros [? _]. lia.
    + split; [intros [= <-]; split; [lia|done]|]. by intros (_ & ->).
Qed.

Lemma constant_bytes_eq c : constant_bytes c = if finite_const c then Ok (const_bytes c) else Err NonFiniteF64.
Proof. destruct c as [v|f|b|s]; try done. cbn [constant_bytes const_bytes finite_const]. by destruct (is_finite f). Qed.

Lemma emit_constant_iff pools expr c r :
  fits pools ->
  emit_constant pools expr c = Ok r <->
  finite_const c = true /\ fits (add pools [] [c]) /\
  r = (add pools [] [c], expr ++ const_ref_bytes (constants (add pools [] [c])) c).
Proof.
  intros F. unfold emit_constant. rewrite constant_bytes_eq. destruct (finite_const c); ok_step; [|split; [done|by intros [? _]]].
  rewrite constant_id_iff by done. unfold fits, add, const_ref_bytes. cbn [paths constants interned fold_left map].
  destruct F. tauto.
Qed.

Lemma fits_before pools a b : fits (add pools a b) -> fits pools.
Proof. apply extends_fits, add_extends. Qed.

Lemma emit_constants_iff pools expr l r :
  fits pools ->
  emit_constants pools expr l = Ok r <->
  Forall (fun c => finite_const c = true) l /\ fits (add pools [] l) /\
  r = (add pools [] l, expr ++ concat (map (const_ref_bytes (constants (add pools [] l))) l)).
Proof.
  revert pools expr r. induction l as [|c l IH]; intros pools expr r F; cbn [emit_constants].
  { rewrite add_nil. cbn. rewrite app_nil_r. split; [intros [= <-]; done|]. by intros (_ & _ & ->). }
  rewrite bind_Ok, Forall_cons_iff. change (c :: l) with ([c] ++ l). change (@nil (list byte)) with (@nil (list byte) ++ []).
  rewrite <- (add_app pools [] [] [c] l). set (pools1 := add pools [] [c]).
  assert (fits pools1 -> const_ref_bytes (constants (add pools1 [] l)) c = const_ref_bytes (constants pools1) c) as Hc.
  { intros _. apply (const_ref_ext pools1); [|apply add_extends]. apply intern_elem. }
  split.
  - intros ([p1 e1] & (Hf & F1 & [= -> ->])%emit_constant_iff & H2); [|done]. fold pools1 in F1, H2.
    apply IH in H2 as (Hl & F2 & ->); [|done]. split_and!; [done|done|done|]. cbn [map concat app]. rewrite Hc by done.
    by rewrite app_assoc.
  - intros ([Hf Hl] & F2 & ->). pose proof (fits_before _ _ _ F2) as F1.
    eexists. split; [apply emit_constant_iff; done|]. apply IH; [done|]. split_and!; [done|done|].
    fold pools1. cbn [map concat app]. by rewrite Hc, <- app_assoc.
Qed.

(** The leaves' own shape rules. *)
Definition leaf_shape (p : Predicate) : Prop :=
  match p with
  | PBetween _ lo hi => family lo = family hi
  | PIn _ members => 1 <= len members <= IN_MEMBERS_MAX /\ one_family members
  | _ => True
  end.
Definition is_leaf (p : Predicate) : bool := match p with PAnd _ | POr _ | PNot _ => false | _ => true end.

Definition added (pools : Pools) (p : Predicate) : Pools := add pools (path_refs p) (const_refs p).

Lemma mixed_families members :
  1 <= len members ->
  match members with [] => True | m0 :: _ => existsb (fun m => negb (bool_decide (family m = family m0))) members = false end
  <-> one_family members.
Proof.
  destruct members as [|m0 l]; [done|]. intros _. unfold one_family. rewrite <- not_true_iff_false, existsb_exists, Forall_forall.
  split.
  - intros H m Hm. destruct (decide (family m = family m0)) as [|n]; [done|]. destruct H. exists m. split; [done|].
    by rewrite bool_decide_false.
  - intros H (m & Hm & E). rewrite bool_decide_true in E; [done|]. by apply H.
Qed.

(** A path reference, then constant references. *)
Lemma emit_seq_iff pools expr path mid l r :
  fits pools ->
  ('(pools, expr) ← emit_path pools expr path; emit_constants pools (expr ++ mid) l) = Ok r <->
  legacy_free path /\ Forall (fun c => finite_const c = true) l /\ fits (add pools [path] l) /\
  r = (add pools [path] l, expr ++ path_ref_bytes (paths (add pools [path] l)) path ++ mid ++
         concat (map (const_ref_bytes (constants (add pools [path] l))) l)).
Proof.
  intros F. rewrite bind_Ok. assert (add (add pools [path] []) [] l = add pools [path] l) as Ha by by rewrite add_app.
  assert (path_ref_bytes (paths (add pools [path] l)) path = path_ref_bytes (paths (add pools [path] [])) path) as Hp by done.
  split.
  - intros ([p1 e1] & (Hf & F1 & [= -> ->])%emit_path_iff & H2); [|done].
    apply emit_constants_iff in H2 as (Hl & F2 & ->); [|done]. rewrite Ha in *. by rewrite Hp, <- !app_assoc.
  - intros (Hf & Hl & F2 & ->). rewrite <- Ha in F2. pose proof (fits_before _ _ _ F2) as F1.
    eexists. split; [apply emit_path_iff; done|]. apply emit_constants_iff; [done|]. rewrite Ha in *. by rewrite <- !app_assoc.
Qed.

Lemma emit_one pools expr c : emit_constants pools expr [c] = emit_constant pools expr c.
Proof. cbn [emit_constants]. by destruct (emit_constant pools expr c) as [[? ?]| |]. Qed.

Lemma encode_leaf_iff p pools expr r :
  is_leaf p = true -> fits pools ->
  encode_leaf p pools expr = Ok r <->
  leaf_shape p /\ operands_ok p /\ fits (added pools p) /\ r = (added pools p, expr ++ expr_of (added pools p) p).
Proof.
  intros Hleaf F. unfold operands_ok, added, expr_of.
  assert (forall b path mid l, ('(pools, expr) ← emit_path pools (expr ++ [b]) path; emit_constants pools (expr ++ mid) l) = Ok r <->
    Forall legacy_free [path] /\ Forall (fun c => finite_const c = true) l /\ fits (add pools [path] l) /\
    r = (add pools [path] l, expr ++ b :: path_ref_bytes (paths (add pools [path] l)) path ++ mid ++
         concat (map (const_ref_bytes (constants (add pools [path] l))) l))) as Hseq.
  { intros b path mid l. rewrite emit_seq_iff, Forall_cons_iff, <- app_assoc by done. cbn [app]. pose proof (List.Forall_nil legacy_free). tauto. }
  destruct p as [l|l|p|op path c|path lo hi|path prefix|path members|path]; try done;
    cbn [encode_leaf leaf_shape path_refs const_refs expr_bytes].
  - etrans; [|etrans; [apply (Hseq (b8 (opcode op)) path [] [c])|]].
    + destruct (emit_path _ _ _) as [[p1 e1]| |]; ok_step; [|done..]. by rewrite app_nil_r, emit_one.
    + cbn [map concat app]. rewrite app_nil_r. tauto.
  - etrans; [|etrans; [apply (and_iff_compat_l (family lo = family hi)), (Hseq (b8 OP_BETWEEN) path [] [lo; hi])|]].
    + case_bool_decide as Hf; cbn [negb]; [|split; [done|tauto]].
      destruct (emit_path _ _ _) as [[p1 e1]| |]; ok_step; [|split; [done|tauto]..]. rewrite app_nil_r. cbn [emit_constants].
      destruct (emit_constant p1 e1 lo) as [[p2 e2]| |]; ok_step; [|split; [done|tauto]..].
      destruct (emit_constant p2 e2 hi) as [[p3 e3]| |]; ok_step; tauto.
    + cbn [map concat app]. rewrite app_nil_r. tauto.
  - etrans; [|etrans; [apply (Hseq (b8 OP_BEGINS_WITH) path [] [KUtf8 prefix])|]].
    + destruct (emit_path _ _ _) as [[p1 e1]| |]; ok_step; [|done..]. by rewrite app_nil_r, emit_one.
    + cbn [map concat app]. rewrite app_nil_r. tauto.
  - etrans; [|etrans; [apply (and_iff_compat_l (leaf_shape (PIn path members))), (Hseq (b8 OP_IN) path [b8 (len members)] members)|]];
      cbn [leaf_shape]; [|cbn [app]; tauto].
    destruct (Z.leb_spec 1 (len members)), (Z.leb_spec (len members) IN_MEMBERS_MAX); cbn [andb negb];
      try (split; [done|]; intros [[? _] _]; lia).
    pose proof (mixed_families members ltac:(done)) as Hm. destruct members as [|m0 l]; [done|].
    destruct (existsb _ (m0 :: l)).
    + split; [done|]. intros [[_ ?%Hm] _]. done.
    + assert (one_family (m0 :: l)) by by apply Hm. split; [intros ?; split; [split; [lia|done]|done]|tauto].
  - etrans; [|etrans; [apply (Hseq (b8 OP_EXISTS) path [] [])|]].
    + destruct (emit_path _ _ _) as [[p1 e1]| |]; ok_step; [|done..]. cbn [emit_constants]. by rewrite app_nil_r.
    + cbn [map concat app]. rewrite app_nil_r. tauto.
Qed.

Definition added_all (pools : Pools) (l : list Predicate) : Pools :=
  add pools (concat (map path_refs l)) (concat (map const_refs l)).

Lemma ops_pos p : 1 <= ops p.
Proof.
  assert (forall l, Forall (fun p => 1 <= ops p) l -> 0 <= all_ops l) as Hl.
  { intros l H. induction H; cbn [all_ops foldr] in *; unfold all_ops in *; lia. }
  induction p as [l Hi|l Hi|p IH| | | | |] using predicate_ind'; cbn [ops]; try lia; specialize (Hl l Hi); unfold all_ops in Hl; lia.
Qed.

Lemma all_ops_nonneg l : 0 <= all_ops l.
Proof. induction l as [|p l IH]; cbn [all_ops foldr] in *; [lia|]. pose proof (ops_pos p). unfold all_ops in *. lia. Qed.

Definition tree_encodes (p : Predicate) : Prop := forall d pools expr n r,
  fits pools ->
  encode_tree p d pools expr n = Ok r <->
  shaped d p /\ operands_ok p /\ n + ops p <= OPS_MAX /\ fits (added pools p) /\
  r = (added pools p, expr ++ expr_of (added pools p) p, n + ops p).

Lemma encode_all_iff d l pools expr n r :
  Forall tree_encodes l -> fits pools -> n <= OPS_MAX ->
  encode_all (at_depth d l) pools expr n = Ok r <->
  Forall (shaped d) l /\ Forall operands_ok l /\ n + all_ops l <= OPS_MAX /\ fits (added_all pools l) /\
  r = (added_all pools l, expr ++ concat (map (expr_of (added_all pools l)) l), n + all_ops l).
Proof.
  intros Hl. revert pools expr n r. induction Hl as [|p l Hp _ IH]; intros pools expr n r F Hn.
  { unfold encode_all, added_all. cbn [at_depth map encode_list concat all_ops foldr]. rewrite add_nil, app_nil_r, Z.add_0_r.
    split; [intros [= <-]; split_and!; try done; lia|]. by intros (_ & _ & _ & _ & ->). }
  unfold encode_all. cbn [at_depth map encode_list]. fold encode_all. fold (at_depth d l).
  rewrite bind_Ok, !Forall_cons_iff. cbn [all_ops foldr]. fold (all_ops l).
  assert (added_all (added pools p) l = added_all pools (p :: l)) as Ea by (unfold added_all, added; by rewrite add_app).
  assert (expr_of (added_all (added pools p) l) p = expr_of (added pools p) p) as Ee
    by (apply expr_of_ext; [apply add_covers|apply add_extends]).
  pose proof (all_ops_nonneg l). split.
  - intros ([[p1 e1] n1] & H1 & H2). apply Hp in H1 as (Hs & Ho & Hc & F1 & [= -> -> ->]); [|done].
    apply IH in H2 as (Hs2 & Ho2 & Hc2 & F2 & ->); [|done|done]. rewrite Ea in *. cbn [map concat]. rewrite Ee.
    rewrite <- app_assoc. split_and!; try done; try lia. by rewrite Z.add_assoc.
  - intros ([Hs Hs2] & [Ho Ho2] & Hc & F2 & ->). rewrite <- Ea in F2. pose proof (fits_before _ _ _ F2) as F1.
    eexists. split; [apply Hp; [done|]; split_and!; try done; lia|]. cbn beta iota.
    apply IH; [done|lia|]. rewrite Ea in *. cbn [map concat]. rewrite Ee, <- app_assoc. split_and!; try done; try lia.
    by rewrite Z.add_assoc.
Qed.

Lemma shaped_eq d p :
  shaped d p <-> d <= NESTING_DEPTH_MAX /\
  match p with
  | PAnd l | POr l => 2 <= len l <= BOOL_ARITY_MAX /\ Forall (shaped (d + 1)) l
  | PNot p => shaped (d + 1) p
  | leaf => leaf_shape leaf
  end.
Proof. destruct p; cbn [shaped leaf_shape]; rewrite ?shaped_all; done. Qed.

Lemma operands_ok_concat l :
  Forall legacy_free (concat (map path_refs l)) /\ Forall (fun c => finite_const c = true) (concat (map const_refs l)) <->
  Forall operands_ok l.
Proof. unfold operands_ok. rewrite !Forall_concat_elem. by rewrite list.Forall_and. Qed.

(** One connective over its operands. *)
Lemma encode_connective_iff b l d pools expr n r :
  Forall tree_encodes l -> fits pools -> n + 1 <= OPS_MAX ->
  (if negb (arity_ok l) then Err BadArity
   else encode_all (at_depth (d + 1) l) pools (expr ++ [b; b8 (len l)]) (n + 1)) = Ok r <->
  (2 <= len l <= BOOL_ARITY_MAX /\ Forall (shaped (d + 1)) l) /\ Forall operands_ok l /\
  n + (1 + all_ops l) <= OPS_MAX /\ fits (added_all pools l) /\
  r = (added_all pools l, expr ++ b :: b8 (len l) :: concat (map (expr_of (added_all pools l)) l), n + (1 + all_ops l)).
Proof.
  intros Hl F Hn. unfold arity_ok.
  destruct (Z.leb_spec 2 (len l)), (Z.leb_spec (len l) BOOL_ARITY_MAX); cbn [andb negb];
    try (split; [done|]; intros [[? _] _]; lia).
  rewrite encode_all_iff by done. rewrite <- app_assoc, Z.add_assoc. cbn [app]. tauto.
Qed.

Lemma encode_tree_iff p : tree_encodes p.
Proof.
  induction p as [l Hi|l Hi|p IH|op path c|path lo hi|path prefix|path members|path] using predicate_ind';
    intros d pools expr n r F; rewrite encode_tree_eq, shaped_eq;
    (destruct (Z.ltb_spec NESTING_DEPTH_MAX d) as [Hd|Hd]; [split; [done|]; intros [[? _] _]; lia|]);
    (destruct (Z.ltb_spec OPS_MAX (n + 1)) as [Hn|Hn];
       [split; [done|]; intros (_ & _ & Hc & _); match type of Hc with _ + ops ?p <= _ => pose proof (ops_pos p) end; lia|]);
    try (rewrite bind_Ok; split;
      [intros ([p1 e1] & (? & ? & ? & [= -> ->])%encode_leaf_iff & [= <-]); [|done..]; split_and!; done
      |intros ([_ ?] & ? & ? & ? & ->); eexists; split; [apply encode_leaf_iff; done|done]]).
  - rewrite encode_connective_iff by done. rewrite <- operands_ok_concat. cbn [ops]. fold (all_ops l).
    unfold operands_ok, added, added_all. cbn [path_refs const_refs]. unfold expr_of. cbn [expr_bytes]. tauto.
  - rewrite encode_connective_iff by done. rewrite <- operands_ok_concat. cbn [ops]. fold (all_ops l).
    unfold operands_ok, added, added_all. cbn [path_refs const_refs]. unfold expr_of. cbn [expr_bytes]. tauto.
  - unfold tree_encodes in IH. rewrite IH by done. cbn [ops]. unfold added, operands_ok, expr_of. cbn [path_refs const_refs expr_bytes].
    rewrite <- app_assoc, Z.add_assoc. cbn [app]. tauto.
Qed.

Lemma assemble_eq pools expr :
  assemble pools expr = if PROGRAM_BYTES_CEILING <=? len (image pools expr) then Err BuildProgramTooLong else Ok (image pools expr).
Proof. done. Qed.

(** The encoder accepts exactly the encodable trees, and writes their encoding. *)
Lemma encode_iff p b : encode p = Ok b <-> encodable p /\ b = program_bytes p.
Proof.
  unfold encode. rewrite encode_work_eq by (unfold OPS_MAX; lia). rewrite bind_Ok.
  change [(p, 1)] with (at_depth 1 [p]). unfold encodable.
  assert (added_all Pools_default [p] = pools_of p) as Ea
    by (unfold added_all, add, pools_of; cbn [map concat]; by rewrite !app_nil_r).
  assert (fits Pools_default) as F by done. assert (Forall tree_encodes [p]) as Hp by (constructor; [apply encode_tree_iff|done]).
  split.
  - intros ([[pools expr] n] & H & Hb). apply encode_all_iff in H as (Hs & Ho & Hc & Hf & [= -> -> ->]); [|done..].
    rewrite Forall_cons_iff in Hs, Ho. rewrite Ea in Hf, Hb. cbn [map concat app] in Hb. rewrite app_nil_r, assemble_eq in Hb.
    destruct (Z.leb_spec PROGRAM_BYTES_CEILING (len (image (pools_of p) (expr_of (pools_of p) p)))); [done|].
    injection Hb as <-. cbn [all_ops foldr] in Hc. rewrite Z.add_0_r in Hc. destruct Hf, Hs, Ho. split_and!; try done.
  - intros [(Hs & Ho & Hc & Hp1 & Hp2 & Hl) ->]. eexists. split.
    + apply encode_all_iff; [done..|]. rewrite Ea. split_and!; try done; [by constructor|by constructor|].
      cbn [all_ops foldr]. lia.
    + cbn beta iota. cbn [map concat app]. rewrite app_nil_r, assemble_eq. unfold program_bytes in Hl.
      unfold expr_of. by rewrite (proj2 (Z.leb_gt _ _) Hl).
Qed.

(** ** Reading values back *)

Lemma cast_wrap x : exists k, cast_signed (wrap 64 x) = x + k * 2 ^ 64.
Proof.
  unfold cast_signed, wrap. destruct (Z.ltb_spec (x mod 2 ^ 64) (2 ^ 63)).
  - exists (- (x / 2 ^ 64)). pose proof (Z.div_mod x (2 ^ 64)). lia.
  - exists (- (x / 2 ^ 64) - 1). pose proof (Z.div_mod x (2 ^ 64)). lia.
Qed.

(** Both codecs zigzag alike. *)
Lemma zigzag_path v : in_i64 v -> zigzag v = PathProgram.zigzag v.
Proof.
  intros Hv. rewrite PathProgram.zigzag_eq by done. unfold zigzag, in_i64 in *.
  destruct (cast_wrap (Z.shiftl v 1)) as [k ->]. rewrite Z.shiftl_mul_pow2, Z.shiftr_div_pow2 by lia.
  unfold wrap. destruct (Z.ltb_spec v 0).
  - replace (v / 2 ^ 63) with (-1) by (apply Z.div_unique with (v + 2 ^ 63); lia).
    rewrite Z.lxor_m1_r. unfold Z.lnot. symmetry. apply Z.mod_unique with (- k); lia.
  - rewrite Z.div_small, Z.lxor_0_r by lia. rewrite Z_mod_plus_full, Z.mod_small; lia.
Qed.

Lemma unzigzag_path u : in_u 64 u -> unzigzag u = PathProgram.unzigzag u.
Proof.
  intros Hu. rewrite PathProgram.unzigzag_eq by done. unfold unzigzag, in_u in *.
  rewrite Z.shiftr_div_pow2, land_1_mod, Zmod_odd by lia. change (2 ^ 1) with 2.
  assert (0 <= u / 2 < 2 ^ 63) by (split; [apply Z.div_pos; lia|apply Z.div_lt_upper_bound; lia]).
  unfold cast_signed. rewrite (proj2 (Z.ltb_lt _ _)) by lia.
  destruct (Z.odd u); cbn [Z.eqb Pos.eqb]; [rewrite Z.lxor_m1_r; unfold Z.lnot; lia|by rewrite Z.lxor_0_r].
Qed.

Section reading.
Context (bytes : list byte) (Hlen : len bytes < 2 ^ 32).

Lemma varint_ok a v q :
  tail_at bytes a (encode_u64 v ++ q) -> in_u 64 v ->
  read_varint_at bytes a = Ok (v, a + len (encode_u64 v)).
Proof. intros H Hv. unfold read_varint_at. rewrite (tail_from _ _ _ H). ok_step. rewrite decode_encode by done. done. Qed.

Lemma varint_inv a q v a' :
  tail_at bytes a q -> read_varint_at bytes a = Ok (v, a') ->
  in_u 64 v /\ a' = a + len (encode_u64 v) /\ exists r, q = encode_u64 v ++ r /\ tail_at bytes a' r.
Proof.
  intros H. unfold read_varint_at. rewrite (tail_from _ _ _ H). ok_step. intros ([v' n] & Hv%ok_or_Ok & [= -> <-])%bind_Ok.
  apply decode_sound in Hv as (Hu & -> & r & ->). split; [done|]. split; [done|]. exists r. split; [done|]. by apply tail_app in H.
Qed.

Lemma trusted_ok {E} a v q :
  tail_at bytes a (encode_u64 v ++ q) -> in_u 64 v ->
  trusted_varint (E:=E) bytes a = Ok (v, a + len (encode_u64 v)).
Proof. intros H Hv. unfold trusted_varint. rewrite (tail_from _ _ _ H). ok_step. rewrite decode_encode by done. done. Qed.

Lemma tail_bound a q : tail_at bytes a q -> 0 <= a <= len bytes.
Proof. intros H%tail_len. pose proof (len_nonneg q). lia. Qed.

Lemma region_end_tail a x q : tail_at bytes a (x ++ q) -> region_end (len x) a (len bytes) = Some (a + len x).
Proof.
  intros H. pose proof (tail_len _ _ _ H) as [? Hl]. rewrite len_app in Hl. pose proof (len_nonneg q).
  unfold region_end, checked_add. rewrite (proj2 (Z.ltb_lt _ _)) by lia. cbn.
  rewrite (proj2 (Z.leb_le _ _)) by lia. f_equal. lia.
Qed.

(** A region that fits is a piece of the tail. *)
Lemma region_end_inv a q n e :
  tail_at bytes a q -> 0 <= n -> region_end n a (len bytes) = Some e ->
  exists x r, q = x ++ r /\ len x = n /\ e = a + n /\ slice (E:=PredicateError) bytes a e = Ok x /\ tail_at bytes e r.
Proof.
  intros H Hn. pose proof (tail_len _ _ _ H) as [? Hl]. unfold region_end, checked_add.
  destruct (_ <? _); [|done]. cbn. destruct (Z.leb_spec (n + a) (len bytes)); [|done]. intros [= <-].
  exists (take (Z.to_nat n) q), (drop (Z.to_nat n) q).
  assert (len (take (Z.to_nat n) q) = n) as Hx by lens.
  rewrite <- (take_drop (Z.to_nat n) q) in H. split; [by rewrite take_drop|]. split; [done|]. split; [lia|].
  split; [apply (tail_slice _ _ _ _ _ H); lia|]. apply tail_app in H. rewrite Hx in H. by replace (n + a) with (a + n) by lia.
Qed.

Lemma byte_or_ok k a b q : tail_at bytes a (b :: q) -> byte_or bytes k a = Ok (u8 b).
Proof. intros H%tail_get. unfold byte_or. by rewrite H. Qed.

Lemma byte_or_inv k a q v :
  tail_at bytes a q -> byte_or bytes k a = Ok v -> exists b r, q = b :: r /\ v = u8 b /\ tail_at bytes (a + 1) r.
Proof.
  intros H. unfold byte_or. rewrite (tail_get _ _ _ H). destruct q as [|b r]; [done|]. ok_step. intros [= <-].
  exists b, r. split; [done|]. split; [done|]. by apply tail_cons in H.
Qed.
End reading.

(** ** The constant pool *)

(** A constant in its stored form. *)
Definition stored (c : Constant) : Prop := wf_constant c /\ norm_const c = c.

Lemma family_bytes c d : const_bytes c = const_bytes d -> family c = family d.
Proof. destruct c, d; cbn; intros [= H]; try done. Qed.

Section constants.
Context (bytes : list byte) (Hlen : len bytes < 2 ^ 32).

Lemma f64_stored f : in_u 64 f -> is_finite f = true ->
  let z := if feq f 0 then 0 else f in
  in_u 64 z /\ negb (is_finite z) || (feq z 0 && negb (z =? 0)) = false.
Proof.
  intros Hf Hfin. destruct (feq f 0) eqn:E; cbn zeta; [split; [unfold in_u; lia|done]|].
  split; [done|]. by rewrite Hfin, E.
Qed.

Lemma validate_constant_ok a c q :
  tail_at bytes a (const_bytes c ++ q) -> wf_constant c ->
  validate_constant bytes a = Ok (family c, a + len (const_bytes c)).
Proof.
  intros Ht Hc. unfold validate_constant.
  destruct c as [v|f|b|s]; cbn [const_bytes family wf_constant] in *; unfold utf8_constant_bytes in *; cbn [app] in Ht.
  - rewrite (byte_or_ok _ _ _ _ _ Ht), u8_b8_small by done. ok_step. apply tail_cons in Ht.
    rewrite (varint_ok _ _ _ _ Ht) by (rewrite zigzag_path by done; by apply PathProgram.zigzag_range). ok_step.
    do 2 f_equal. lens.
  - destruct Hc as [Hf Hfin]. destruct (f64_stored f Hf Hfin) as [Hz Hok]. revert Ht Hz Hok.
    generalize (if feq f 0 then 0 else f). cbn zeta. intros z Ht Hz Hok.
    rewrite (byte_or_ok _ _ _ _ _ Ht), u8_b8_small by done. ok_step. apply tail_cons in Ht.
    assert (len (be_bytes 8 z) = 8) as H8 by (unfold len; by rewrite length_be_bytes).
    change (CONST_F64 =? CONST_I64) with false. change (CONST_F64 =? CONST_F64) with true. cbn iota.
    rewrite <- H8 at 1. rewrite (region_end_tail _ Hlen _ _ _ Ht). ok_step.
    rewrite (tail_slice _ _ _ _ _ Ht) by done. ok_step. rewrite be_val_be_bytes by exact Hz. rewrite Hok. do 2 f_equal. lens.
  - rewrite (byte_or_ok _ _ _ _ _ Ht), u8_b8_small by done. ok_step. apply tail_cons in Ht.
    rewrite (byte_or_ok _ _ _ _ _ Ht), u8_b8_small by (by destruct b). transitivity (Ok (E:=PredicateError) (FamBool, a + 1 + 1)); [by destruct b|]. do 2 f_equal. lens.
  - destruct Hc as [Hu Hs]. rewrite (byte_or_ok _ _ _ _ _ Ht), u8_b8_small by done.
    ok_step. apply tail_cons in Ht. rewrite <- app_assoc in Ht. rewrite (varint_ok _ _ _ _ Ht) by done. ok_step. apply tail_app in Ht.
    rewrite (region_end_tail _ Hlen _ _ _ Ht). ok_step. rewrite (tail_slice _ _ _ _ _ Ht) by done. ok_step.
    rewrite Hu. cbn [negb]. do 2 f_equal. lens.
Qed.

Lemma validate_constant_inv a q fam a' :
  tail_at bytes a q -> validate_constant bytes a = Ok (fam, a') ->
  exists c r, stored c /\ q = const_bytes c ++ r /\ fam = family c /\ a' = a + len (const_bytes c) /\ tail_at bytes a' r.
Proof.
  intros Ht. unfold validate_constant. intros (tag & (b & r & -> & -> & Ht')%(byte_or_inv _ _ _ _ _ Ht) & H)%bind_Ok.
  destruct (Z.eqb_spec (u8 b) CONST_I64) as [Eb|_]; [|destruct (Z.eqb_spec (u8 b) CONST_F64) as [Eb|_];
    [|destruct (Z.eqb_spec (u8 b) CONST_BOOL) as [Eb|_]; [|destruct (Z.eqb_spec (u8 b) CONST_UTF8) as [Eb|_]; [|done]]]];
    rewrite <- (b8_u8 b), Eb.
  - apply bind_Ok in H as ([v at_] & Hv & [= <- <-]). apply (varint_inv _ _ _ _ _ Ht') in Hv as (Hu & -> & r' & -> & Ht2).
    exists (KI64 (unzigzag v)), r'. cbn [const_bytes family]. rewrite unzigzag_path, zigzag_path by (try done; by apply PathProgram.unzigzag_range).
    rewrite PathProgram.zigzag_unzigzag by done. split_and!; try done; [|lens].
    split; [|done]. by apply PathProgram.unzigzag_range.
  - apply bind_Ok in H as (e & He%ok_or_Ok & H). apply (region_end_inv _ _ _ _ _ Ht') in He as (w & r' & -> & Hw & -> & Hs & Ht2); [|done].
    rewrite Hs in H. ok_step in H. apply (f_equal Z.to_nat) in Hw. unfold len in Hw. rewrite Nat2Z.id in Hw. change (Z.to_nat 8) with 8%nat in Hw.
    pose proof (be_val_bound w) as Hb. rewrite Hw in Hb. change (8 * Z.of_nat 8) with 64 in Hb.
    destruct (is_finite (be_val w)) eqn:Hfin; cbn [negb orb] in H; [|done].
    exists (KF64 (be_val w)), r'. cbn [const_bytes family norm_const].
    assert ((if feq (be_val w) 0 then 0 else be_val w) = be_val w) as Hn.
    { destruct (feq (be_val w) 0); [|done]. cbn [andb] in H. by destruct (Z.eqb_spec (be_val w) 0) as [->|]. }
    destruct (_ && _); [done|]. injection H as <- <-. unfold stored. cbn [norm_const wf_constant]. rewrite Hn, be_bytes_be_val by done. split_and!; try done.
    rewrite len_cons. unfold len. rewrite Hw. lia.
  - apply bind_Ok in H as (v & (b' & r' & -> & -> & Ht2)%(byte_or_inv _ _ _ _ _ Ht') & H).
    destruct (Z.ltb_spec 1 (u8 b')) as [|Hle]; [done|]. injection H as <- <-. pose proof (u8_range b').
    exists (KBool (u8 b' =? 1)), r'. cbn [const_bytes family]. assert (b8 (Z.b2z (u8 b' =? 1)) = b') as ->.
    { rewrite <- (b8_u8 b') at 2. f_equal. destruct (Z.eqb_spec (u8 b') 1); cbn; lia. }
    split_and!; try done; lens.
  - apply bind_Ok in H as ([v at_] & Hv & H). apply (varint_inv _ _ _ _ _ Ht') in Hv as (Hu & -> & r' & -> & Ht2).
    apply bind_Ok in H as (e & He%ok_or_Ok & H).
    apply (region_end_inv _ _ _ _ _ Ht2) in He as (w & r2 & -> & Hw & -> & Hs & Ht3); [|unfold in_u in Hu; lia].
    rewrite Hs in H. ok_step in H. destruct (utf8_valid w) eqn:Hval; cbn [negb] in H; [|done]. injection H as <- <-.
    exists (KUtf8 w), r2. cbn [const_bytes family]. unfold utf8_constant_bytes. rewrite Hw. split_and!; try done.
    + split; [|done]. split; [done|]. by rewrite Hw.
    + cbn [app]. by rewrite <- app_assoc.
    + lens.
Qed.
End constants.

(** ** The pools *)

Definition framed (p : list byte) : list byte := encode_u64 (len p) ++ p.
Definition stored_bytes (cs : list Constant) : list byte := concat (map const_bytes cs).

Lemma is_legacy_any {E E'} q b : PathProgram.is_legacy (E:=E) q = Ok b -> PathProgram.is_legacy (E:=E') q = Ok b.
Proof.
  unfold PathProgram.is_legacy, byte_at. destruct (get q 1); ok_step; [|done]. by intros [= <-].
Qed.

Section pools.
Context (bytes : list byte) (Hlen : len bytes < 2 ^ 32).

Definition spans_hold (spans : list (Z * Z)) (L : list (list byte)) : Prop :=
  Forall2 (fun se x => slice (E:=PredicateError) bytes se.1 se.2 = Ok x) spans L.

Lemma any_span_eq spans L s e x :
  spans_hold spans L -> slice (E:=PredicateError) bytes s e = Ok x ->
  any_span bytes spans s e = Ok (bool_decide (x ∈ L)).
Proof.
  intros H Hx. induction H as [|[s' e'] y spans L Hy _ IH]; cbn [any_span].
  { rewrite bool_decide_false; [done|]. by intros ?%elem_of_nil. }
  cbn [fst snd] in Hy. rewrite Hy. ok_step. rewrite Hx. ok_step. destruct (bool_decide_reflect (y = x)) as [->|Hne].
  - rewrite bool_decide_true; [done|]. by apply elem_of_cons; left.
  - rewrite IH. f_equal. apply bool_decide_ext. rewrite elem_of_cons. naive_solver.
Qed.

Lemma spans_hold_snoc spans L s e x :
  spans_hold spans L -> slice (E:=PredicateError) bytes s e = Ok x -> spans_hold (spans ++ [(s, e)]) (L ++ [x]).
Proof. intros H Hx. apply Forall2_app; [done|]. by constructor. Qed.

Lemma NoDup_snoc_app {A} (L l : list A) x : NoDup (L ++ x :: l) <-> x ∉ L /\ NoDup ((L ++ [x]) ++ l).
Proof.
  rewrite <- app_assoc. cbn [app]. split; [|tauto]. intros H. split; [|done].
  apply list.NoDup_app in H as (_ & H & _). intros Hx. apply (H x Hx). by apply elem_of_cons; left.
Qed.

Lemma paths_loop_ok l a q spans L :
  tail_at bytes a (concat (map framed l) ++ q) -> Forall wf_path l -> NoDup (L ++ l) -> spans_hold spans L ->
  exists spans', validate_paths_loop (length l) bytes a spans = Ok (spans', a + len (concat (map framed l))) /\
    spans_hold spans' (L ++ l).
Proof.
  intros Ht Hw. revert a spans L Ht. induction Hw as [|p l [Hp Hleg] _ IH]; intros a spans L Ht Hn Hs.
  { exists spans. rewrite app_nil_r. split; [|done]. cbn. by rewrite len_nil, Z.add_0_r. }
  cbn [map concat length validate_paths_loop] in *. unfold framed at 1 in Ht. rewrite <- !app_assoc in Ht.
  pose proof (tail_len _ _ _ Ht) as [_ Hl]. rewrite !len_app in Hl.
  pose proof (len_nonneg p). pose proof (len_nonneg (encode_u64 (len p))). pose proof (len_nonneg (concat (map framed l))). pose proof (len_nonneg q).
  assert (0 <= a) by (by apply tail_len in Ht as [? _]).
  rewrite (varint_ok _ _ _ _ Ht) by (unfold in_u; lia). ok_step. apply tail_app in Ht.
  rewrite (region_end_tail _ Hlen _ _ _ Ht). ok_step.
  pose proof (tail_slice (E:=PredicateError) _ _ _ _ _ Ht eq_refl) as Hsl. rewrite Hsl. ok_step. rewrite Hp, Hleg. ok_step.
  apply NoDup_snoc_app in Hn as [Hx Hn]. rewrite (any_span_eq _ _ _ _ _ Hs Hsl). ok_step. rewrite bool_decide_false by done.
  apply tail_app in Ht.
  destruct (IH _ (spans ++ [(a + len (encode_u64 (len p)), a + len (encode_u64 (len p)) + len p)]) (L ++ [p]) Ht Hn) as (spans' & -> & Hs');
    [by apply spans_hold_snoc|].
  exists spans'. rewrite <- app_assoc in Hs'. split; [|done]. do 2 f_equal. unfold framed. lens.
Qed.

Lemma paths_loop_inv n a q spans L spans' a' :
  tail_at bytes a q -> spans_hold spans L -> NoDup L ->
  validate_paths_loop n bytes a spans = Ok (spans', a') ->
  exists l r, length l = n /\ Forall wf_path l /\ NoDup (L ++ l) /\ q = concat (map framed l) ++ r /\
    tail_at bytes a' r /\ spans_hold spans' (L ++ l).
Proof.
  revert a q spans L. induction n as [|n IH]; intros a q spans L Ht Hs Hn; cbn [validate_paths_loop].
  { intros [= <- <-]. exists [], q. rewrite app_nil_r. split_and!; done. }
  intros ([size start] & Hv & H)%bind_Ok. apply (varint_inv _ _ _ _ _ Ht) in Hv as (Hu & -> & r & -> & Ht2).
  apply bind_Ok in H as (e & He%ok_or_Ok & H).
  apply (region_end_inv _ _ _ _ _ Ht2) in He as (p & r2 & -> & Hp & -> & Hsl & Ht3); [|unfold in_u in Hu; lia].
  rewrite Hsl in H. ok_step in H. destruct (PathProgram.from_bytes p) as [p'|e|] eqn:Ep; [|done..].
  assert (p' = p) as -> by (unfold PathProgram.from_bytes in Ep; destruct (PathProgram.validate p); try done; by injection Ep).
  apply bind_Ok in H as ([] & Hleg & H); [done|].
  rewrite (any_span_eq _ _ _ _ _ Hs Hsl) in H. ok_step in H. case_bool_decide as Hx; [done|].
  destruct (IH _ _ _ (L ++ [p]) Ht3 (spans_hold_snoc _ _ _ _ _ Hs Hsl)) as (l & r3 & Hll & Hw & Hn' & -> & Ht4 & Hs');
    [by apply NoDup_snoc|done|].
  exists (p :: l), r3. rewrite <- app_assoc in Hs'. cbn [length map concat].
  assert (framed p = encode_u64 size ++ p) as -> by (unfold framed; by rewrite Hp). rewrite <- !app_assoc.
  split_and!; try done; [by rewrite Hll| |by apply NoDup_snoc_app].
  constructor; [|done]. split; [done|]. done.
Qed.

Lemma constants_loop_ok l a q consts L :
  tail_at bytes a (stored_bytes l ++ q) -> Forall wf_constant l -> NoDup (L ++ map const_bytes l) -> spans_hold consts.*1 L ->
  exists consts', validate_constants_loop (length l) bytes a consts = Ok (consts', a + len (stored_bytes l)) /\
    consts'.*2 = consts.*2 ++ map family l.
Proof.
  intros Ht Hw. revert a consts L Ht. unfold stored_bytes. induction Hw as [|c l Hc _ IH]; intros a consts L Ht Hn Hs.
  { exists consts. cbn. by rewrite len_nil, Z.add_0_r, app_nil_r. }
  cbn [map concat length validate_constants_loop] in *. rewrite <- app_assoc in Ht.
  rewrite (validate_constant_ok _ Hlen _ _ _ Ht) by done. ok_step.
  pose proof (tail_slice (E:=PredicateError) _ _ _ _ _ Ht eq_refl) as Hsl.
  apply NoDup_snoc_app in Hn as [Hx Hn]. rewrite (any_span_eq _ _ _ _ _ Hs Hsl). ok_step. rewrite bool_decide_false by done.
  apply tail_app in Ht.
  destruct (IH _ (consts ++ [(a, a + len (const_bytes c), family c)]) (L ++ [const_bytes c]) Ht Hn) as (consts' & -> & E).
  { rewrite fmap_app. by apply spans_hold_snoc. }
  exists consts'. split; [do 2 f_equal; lens|]. rewrite E, fmap_app, <- app_assoc. done.
Qed.

Lemma constants_loop_inv n a q consts L consts' a' :
  tail_at bytes a q -> spans_hold consts.*1 L -> NoDup L ->
  validate_constants_loop n bytes a consts = Ok (consts', a') ->
  exists l r, length l = n /\ Forall stored l /\ NoDup (L ++ map const_bytes l) /\ q = stored_bytes l ++ r /\
    tail_at bytes a' r /\ consts'.*2 = consts.*2 ++ map family l.
Proof.
  revert a q consts L. unfold stored_bytes. induction n as [|n IH]; intros a q consts L Ht Hs Hn; cbn [validate_constants_loop].
  { intros [= <- <-]. exists [], q. rewrite !app_nil_r. split_and!; done. }
  intros ([fam at_] & Hv & H)%bind_Ok.
  apply (validate_constant_inv _ _ _ _ _ Ht) in Hv as (c & r & Hc & -> & -> & -> & Ht2).
  pose proof (tail_slice (E:=PredicateError) _ _ _ _ _ Ht eq_refl) as Hsl.
  rewrite (any_span_eq _ _ _ _ _ Hs Hsl) in H. ok_step in H. case_bool_decide as Hx; [done|].
  destruct (IH _ _ (consts ++ [(a, a + len (const_bytes c), family c)]) (L ++ [const_bytes c]) Ht2)
    as (l & r3 & Hll & Hw & Hn' & -> & Ht4 & E); [|by apply NoDup_snoc|done|].
  { rewrite fmap_app. by apply spans_hold_snoc. }
  exists (c :: l), r3. cbn [length map concat]. rewrite <- app_assoc. split_and!; try done; [by rewrite Hll|by constructor| |].
  - by apply NoDup_snoc_app.
  - by rewrite E, fmap_app, <- app_assoc.
Qed.

Lemma count_small {A} (l : list A) m : len l <= m -> m < 2 ^ 64 -> in_u 64 (len l).
Proof. pose proof (len_nonneg l). unfold in_u. lia. Qed.

Lemma validate_paths_ok P a q :
  tail_at bytes a (encode_u64 (len P) ++ concat (map framed P) ++ q) -> Forall wf_path P -> NoDup P -> len P <= PATHS_MAX ->
  exists spans, validate_paths bytes a = Ok (spans, a + len (encode_u64 (len P)) + len (concat (map framed P))) /\ len spans = len P.
Proof.
  intros Ht Hw Hn Hm. unfold validate_paths. rewrite (varint_ok _ _ _ _ Ht) by (apply (count_small _ _ Hm); unfold PATHS_MAX; lia).
  ok_step. rewrite (proj2 (Z.ltb_ge _ _)) by lia. apply tail_app in Ht.
  destruct (paths_loop_ok P _ q [] [] Ht) as (spans & E & Hs); [done|done|constructor|].
  replace (Z.to_nat (len P)) with (length P) by (unfold len; lia). rewrite E. exists spans. split; [done|].
  apply Forall2_length in Hs. unfold len. by rewrite Hs.
Qed.

Lemma validate_paths_inv a q spans a' :
  tail_at bytes a q -> validate_paths bytes a = Ok (spans, a') ->
  exists P r, Forall wf_path P /\ NoDup P /\ len P <= PATHS_MAX /\ len spans = len P /\
    q = encode_u64 (len P) ++ concat (map framed P) ++ r /\ tail_at bytes a' r.
Proof.
  intros Ht. unfold validate_paths. intros ([n at_] & Hv & H)%bind_Ok.
  apply (varint_inv _ _ _ _ _ Ht) in Hv as (Hu & -> & r & -> & Ht2).
  destruct (Z.ltb_spec PATHS_MAX n); [done|].
  apply (paths_loop_inv _ _ _ _ [] _ _ Ht2) in H as (P & r2 & Hl & Hw & Hn & -> & Ht3 & Hs); [|constructor|constructor].
  assert (len P = n) as <- by (unfold len, in_u in *; lia).
  exists P, r2. apply Forall2_length in Hs. split_and!; try done. unfold len. by rewrite Hs.
Qed.

Lemma validate_constants_ok cs a q :
  tail_at bytes a (encode_u64 (len cs) ++ stored_bytes cs ++ q) -> Forall wf_constant cs -> NoDup (map const_bytes cs) ->
  len cs <= CONSTANTS_MAX ->
  exists consts, validate_constants bytes a = Ok (consts, a + len (encode_u64 (len cs)) + len (stored_bytes cs)) /\
    consts.*2 = map family cs.
Proof.
  intros Ht Hw Hn Hm. unfold validate_constants.
  rewrite (varint_ok _ _ _ _ Ht) by (apply (count_small _ _ Hm); unfold CONSTANTS_MAX; lia).
  ok_step. rewrite (proj2 (Z.ltb_ge _ _)) by lia. apply tail_app in Ht.
  destruct (constants_loop_ok cs _ q [] [] Ht) as (consts & E & Hs); [done|done|constructor|].
  replace (Z.to_nat (len cs)) with (length cs) by (unfold len; lia). rewrite E. by exists consts.
Qed.

Lemma validate_constants_inv a q consts a' :
  tail_at bytes a q -> validate_constants bytes a = Ok (consts, a') ->
  exists cs r, Forall stored cs /\ NoDup (map const_bytes cs) /\ len cs <= CONSTANTS_MAX /\ consts.*2 = map family cs /\
    q = encode_u64 (len cs) ++ stored_bytes cs ++ r /\ tail_at bytes a' r.
Proof.
  intros Ht. unfold validate_constants. intros ([n at_] & Hv & H)%bind_Ok.
  apply (varint_inv _ _ _ _ _ Ht) in Hv as (Hu & -> & r & -> & Ht2).
  destruct (Z.ltb_spec CONSTANTS_MAX n); [done|].
  apply (constants_loop_inv _ _ _ _ [] _ _ Ht2) in H as (cs & r2 & Hl & Hw & Hn & -> & Ht3 & E); [|constructor|constructor].
  assert (len cs = n) as <- by (unfold len, in_u in *; lia). by exists cs, r2.
Qed.
End pools.

(** ** References *)

Section refs.
Context (bytes : list byte).

Lemma pool_ref_ok L X x a q :
  tail_at bytes a (encode_u64 (index_of L x) ++ q) -> x ∈ L -> intern X x `prefix_of` L -> len L < 2 ^ 64 ->
  read_pool_ref bytes a (len L) (len X) = Ok (index_of L x, a + len (encode_u64 (index_of L x)), len (intern X x)).
Proof.
  intros Ht Hx Hp HL. pose proof (index_of_lt _ _ Hx) as Hi. unfold read_pool_ref.
  rewrite (varint_ok _ _ _ _ Ht) by (unfold in_u; lia). ok_step. rewrite (proj2 (Z.ltb_lt _ _)) by lia. cbn [negb].
  unfold intern in *. destruct (position x X) as [i|] eqn:E.
  - assert (index_of L x = i) as -> by (destruct Hp as [r ->]; unfold index_of; by rewrite (position_app _ _ _ _ E)).
    apply position_Some, get_lt in E. rewrite (proj2 (Z.ltb_ge _ _)), (proj2 (Z.eqb_neq _ _)) by lia. done.
  - assert (index_of L x = len X) as ->.
    { destruct Hp as [r ->]. unfold index_of. by rewrite (position_app _ _ r _ (position_snoc _ _ E)). }
    rewrite Z.ltb_irrefl, Z.eqb_refl. do 2 f_equal. lens.
Qed.

Lemma pool_ref_inv L X a q id a' next :
  tail_at bytes a q -> X `prefix_of` L -> NoDup L ->
  read_pool_ref bytes a (len L) (len X) = Ok (id, a', next) ->
  exists x r, x ∈ L /\ index_of L x = id /\ q = encode_u64 (index_of L x) ++ r /\
    tail_at bytes a' r /\ intern X x `prefix_of` L /\ next = len (intern X x).
Proof.
  intros Ht [R ->] Hn. unfold read_pool_ref. intros ([v at_] & Hv & H)%bind_Ok.
  apply (varint_inv _ _ _ _ _ Ht) in Hv as (Hu & -> & r & -> & Ht2).
  destruct (Z.ltb_spec v (len (X ++ R))) as [Hlt|]; [|done]. cbn [negb] in H.
  destruct (Z.ltb_spec (len X) v) as [|Hle]; [done|]. injection H as <- <- <-. unfold in_u in Hu.
  destruct (get_in (X ++ R) v) as [x Hg]; [lia|]. pose proof (position_get _ _ _ Hn Hg) as Hpos.
  assert (index_of (X ++ R) x = v) as Hi by (unfold index_of; by rewrite Hpos).
  exists x, r. split; [by apply get_lookup, list_elem_of_lookup_2 in Hg|]. rewrite Hi. split; [done|].
  split; [done|]. split; [done|]. unfold intern. destruct (Z.eqb_spec v (len X)) as [->|Hne].
  - apply get_Some in Hg as [_ Hg]. unfold len in Hg. rewrite Nat2Z.id, lookup_app_r, Nat.sub_diag in Hg by lia.
    destruct R as [|y R]; [done|]. injection Hg as ->. apply list.NoDup_app in Hn as (_ & Hn & _).
    destruct (position x X) as [i|] eqn:E.
    + exfalso. apply position_Some, get_lookup, list_elem_of_lookup_2 in E. apply (Hn x E). by apply elem_of_cons; left.
    + split; [exists R; by rewrite <- app_assoc|lens].
  - apply get_Some in Hg as [_ Hg]. rewrite lookup_app_l in Hg by (unfold len in *; lia).
    apply list_elem_of_lookup_2 in Hg. destruct (position x X) as [i|] eqn:E; [split; [by exists R|done]|].
    by apply position_None in E.
Qed.
End refs.

(** ** Expressions *)

Section exprs.
Context (bytes : list byte) (P : list (list byte)) (cs : list Constant).
Context (HP : NoDup P) (HC : NoDup (map const_bytes cs)) (HPl : len P <= PATHS_MAX) (HCl : len cs <= CONSTANTS_MAX).
Definition full : Pools := {| paths := P; constants := map const_bytes cs |}.
Notation fams := (map family cs).
Notation refs x := (path_ref_bytes P x).
Notation crefs c := (const_ref_bytes (map const_bytes cs) c).
Definition check_of (st : Pools) : ExprCheck :=
  {| next_path := len (paths st); next_constant := len (constants st) |}.

Lemma len_map_cs {B} (f : Constant -> B) : len (map f cs) = len cs.
Proof. unfold len. by rewrite length_map. Qed.

Lemma small_pools : len P < 2 ^ 64 /\ len (map const_bytes cs) < 2 ^ 64.
Proof. rewrite len_map_cs. unfold PATHS_MAX, CONSTANTS_MAX in *. lia. Qed.

Lemma path_ref_ok st x a q :
  tail_at bytes a (refs x ++ q) -> extends (add st [x] []) full ->
  path_ref bytes (len P) (check_of st) a = Ok (a + len (refs x), check_of (add st [x] [])).
Proof.
  intros Ht [Hp _]. unfold path_ref, check_of. cbn [next_path next_constant]. cbn [add paths interned fold_left full] in Hp.
  rewrite (pool_ref_ok _ _ _ x _ q); [done|done| |done|apply small_pools].
  eapply elem_of_prefix; [apply intern_elem|exact Hp].
Qed.

Lemma path_ref_inv st a q a' check :
  tail_at bytes a q -> extends st full -> path_ref bytes (len P) (check_of st) a = Ok (a', check) ->
  exists x r, x ∈ P /\ q = refs x ++ r /\ tail_at bytes a' r /\ extends (add st [x] []) full /\
    check = check_of (add st [x] []).
Proof.
  intros Ht [Hp Hk]. unfold path_ref, check_of. cbn [next_path next_constant]. intros ([[id at_] next] & H & [= <- <-])%bind_Ok.
  apply (pool_ref_inv _ _ _ _ _ _ _ _ Ht Hp HP) in H as (x & r & Hx & _ & -> & Ht2 & Hp2 & ->).
  exists x, r. split_and!; try done.
Qed.

Lemma family_at c : const_bytes c ∈ map const_bytes cs -> get fams (index_of (map const_bytes cs) (const_bytes c)) = Some (family c).
Proof.
  intros Hx. pose proof (index_of_get _ _ Hx) as Hg. apply get_Some in Hg as [Hi Hg]. apply get_Some. split; [done|].
  rewrite (lookup_map const_bytes) in Hg. rewrite (lookup_map family). destruct (cs !! _) as [d|]; [|done]. injection Hg as Hg. cbn. f_equal. by apply family_bytes.
Qed.

Lemma constant_ref_ok st c a q :
  tail_at bytes a (crefs c ++ q) -> extends (add st [] [c]) full ->
  constant_ref bytes fams (check_of st) a = Ok (family c, a, a + len (crefs c), check_of (add st [] [c])).
Proof.
  intros Ht [_ Hk]. unfold constant_ref, check_of. cbn [next_path next_constant]. cbn [add constants map interned fold_left full] in Hk.
  assert (const_bytes c ∈ map const_bytes cs) as Hc by (eapply elem_of_prefix; [apply intern_elem|exact Hk]).
  replace (len fams) with (len (map const_bytes cs)) by (rewrite !len_map_cs; done).
  rewrite (pool_ref_ok _ _ _ (const_bytes c) _ q); [|done|done|done|apply small_pools]. ok_step.
  by rewrite family_at.
Qed.

Lemma constant_ref_inv st a q fam off a' check :
  tail_at bytes a q -> extends st full -> constant_ref bytes fams (check_of st) a = Ok (fam, off, a', check) ->
  exists c r, c ∈ cs /\ fam = family c /\ q = crefs c ++ r /\ tail_at bytes a' r /\ extends (add st [] [c]) full /\
    check = check_of (add st [] [c]).
Proof.
  intros Ht [Hp Hk]. unfold constant_ref, check_of. cbn [next_path next_constant].
  replace (len fams) with (len (map const_bytes cs)) by (rewrite !len_map_cs; done).
  intros ([[id at_] next] & H & (f & Hf%expect_Ok & [= <- <- <- <-])%bind_Ok)%bind_Ok.
  apply (pool_ref_inv _ _ _ _ _ _ _ _ Ht Hk HC) in H as (x & r & Hx & Hi & -> & Ht2 & Hk2 & ->).
  apply list_elem_of_fmap in Hx as (c & -> & Hc). exists c, r.
  rewrite <- Hi, family_at in Hf by (apply list_elem_of_fmap; by exists c). injection Hf as <-.
  split_and!; try done.
Qed.

Lemma extends_left st a b : extends (add st a b) full -> extends st full.
Proof. apply extends_trans, add_extends. Qed.

Lemma members_ok st l a q fam :
  tail_at bytes a (concat (map (fun c => crefs c) l) ++ q) -> extends (add st [] l) full -> Forall (fun c => family c = fam) l ->
  validate_members bytes fams (length l) fam (check_of st) a =
  Ok (a + len (concat (map (fun c => crefs c) l)), check_of (add st [] l)).
Proof.
  intros Ht He Hf. revert st a Ht He. induction Hf as [|c l Hc _ IH]; intros st a Ht He.
  { cbn. rewrite add_nil. by rewrite len_nil, Z.add_0_r. }
  cbn [length validate_members map concat] in *. rewrite add_consts_cons in *. rewrite <- app_assoc in Ht.
  rewrite (constant_ref_ok st c _ _ Ht) by by eapply extends_left. ok_step. rewrite bool_decide_true by done. cbn [negb].
  apply tail_app in Ht. rewrite (IH _ _ Ht He). do 2 f_equal. lens.
Qed.

Lemma members_inv n st a q fam a' check :
  tail_at bytes a q -> extends st full -> validate_members bytes fams n fam (check_of st) a = Ok (a', check) ->
  exists l r, length l = n /\ Forall (fun c => c ∈ cs) l /\ Forall (fun c => family c = fam) l /\
    q = concat (map (fun c => crefs c) l) ++ r /\ tail_at bytes a' r /\ extends (add st [] l) full /\
    check = check_of (add st [] l).
Proof.
  revert st a q. induction n as [|n IH]; intros st a q Ht He; cbn [validate_members].
  { intros [= <- <-]. exists [], q. by rewrite add_nil. }
  intros ([[[f off] at_] ck] & Hc & H)%bind_Ok.
  apply (constant_ref_inv _ _ _ _ _ _ _ Ht He) in Hc as (c & r & Hc & -> & -> & Ht2 & He2 & ->).
  case_bool_decide as Hf; [|done]. cbn [negb] in H. apply (IH _ _ _ Ht2 He2) in H as (l & r2 & Hl & Hlc & Hlf & -> & Ht3 & He3 & ->).
  exists (c :: l), r2. rewrite add_consts_cons. cbn [map concat length]. rewrite <- app_assoc. split_and!; try done; [lia|by constructor..].
Qed.

Definition opcode_of (p : Predicate) : Z :=
  match p with
  | PAnd _ => OP_AND | POr _ => OP_OR | PNot _ => OP_NOT
  | PCmp op _ _ => opcode op | PBetween _ _ _ => OP_BETWEEN | PBeginsWith _ _ => OP_BEGINS_WITH
  | PIn _ _ => OP_IN | PExists _ => OP_EXISTS
  end.
Definition leaf_body (p : Predicate) : list byte :=
  match p with
  | PCmp _ path c => refs path ++ crefs c
  | PBetween path lo hi => refs path ++ crefs lo ++ crefs hi
  | PBeginsWith path prefix => refs path ++ crefs (KUtf8 prefix)
  | PIn path members => refs path ++ b8 (len members) :: concat (map (fun c => crefs c) members)
  | PExists path => refs path
  | _ => []
  end.

Lemma expr_leaf p : is_leaf p = true -> expr_of full p = b8 (opcode_of p) :: leaf_body p.
Proof. by destruct p. Qed.

Lemma add_path_consts st path l : add st [path] l = add (add st [path] []) [] l.
Proof. by rewrite add_app. Qed.

Lemma opcode_range op : (OP_EQ <=? opcode op) && (opcode op <=? OP_GE) = true.
Proof. by destruct op. Qed.

(** Tests of one known opcode against another. *)
Ltac known_ops := repeat match goal with
  | |- context [if ?b then _ else _] =>
      let v := eval vm_compute in b in
      match v with true => change b with true | false => change b with false end; cbn iota
  end.

Lemma validate_leaf_ok p st oa a q :
  is_leaf p = true -> leaf_shape p -> tail_at bytes a (leaf_body p ++ q) -> extends (added st p) full ->
  validate_leaf bytes (len P) fams (opcode_of p) oa a (check_of st) = Ok (a + len (leaf_body p), check_of (added st p)).
Proof.
  intros Hleaf Hsh Ht He. unfold added in *.
  destruct p as [l|l|p|op path c|path lo hi|path prefix|path members|path]; try done;
    cbn [opcode_of leaf_body path_refs const_refs leaf_shape] in *; unfold validate_leaf;
    rewrite ?opcode_range; known_ops; rewrite add_path_consts in He |- *; rewrite <- ?app_assoc in Ht;
    pose proof (extends_left _ _ _ He) as He1;
    rewrite (path_ref_ok _ _ _ _ Ht) by done; ok_step; try (apply tail_app in Ht).
  - rewrite (constant_ref_ok _ _ _ _ Ht) by done. ok_step. do 2 f_equal. lens.
  - rewrite add_consts_cons in He |- *. pose proof (extends_left _ _ _ He) as He2.
    rewrite (constant_ref_ok _ _ _ _ Ht) by done. ok_step. apply tail_app in Ht.
    rewrite (constant_ref_ok _ _ _ _ Ht) by done. ok_step. rewrite bool_decide_true by done. cbn [negb]. do 2 f_equal. lens.
  - rewrite (constant_ref_ok _ _ _ _ Ht) by done. ok_step. rewrite bool_decide_true by done. cbn [negb]. do 2 f_equal. lens.
  - cbn [app] in Ht. destruct Hsh as [Hn Hf]. rewrite (byte_or_ok _ _ _ _ _ Ht), u8_b8_small by (unfold IN_MEMBERS_MAX in Hn; lia). ok_step.
    rewrite (proj2 (Z.ltb_ge _ _)), (proj2 (Z.ltb_ge _ _)) by lia. cbn [orb]. apply tail_cons in Ht.
    destruct members as [|c l]; [rewrite len_nil in Hn; lia|]. rewrite add_consts_cons in He |- *. pose proof (extends_left _ _ _ He) as He2.
    cbn [map concat] in Ht. rewrite <- app_assoc in Ht. rewrite (constant_ref_ok _ _ _ _ Ht) by done. ok_step. apply tail_app in Ht.
    replace (Z.to_nat (len (c :: l)) - 1)%nat with (length l) by (unfold len; cbn [length]; lia).
    cbn [one_family] in Hf. apply Forall_cons_iff in Hf as [_ Hf].
    rewrite (members_ok _ _ _ _ _ Ht) by done. do 2 f_equal. cbn [map concat]. lens.
  - by rewrite add_nil.
Qed.

Lemma utf8_family c : family c = FamUtf8 -> exists s, c = KUtf8 s.
Proof. destruct c as [| | |s]; try done. by exists s. Qed.

Lemma validate_leaf_inv op oa a q st a' check :
  tail_at bytes a q -> extends st full ->
  validate_leaf bytes (len P) fams op oa a (check_of st) = Ok (a', check) ->
  exists p r, is_leaf p = true /\ op = opcode_of p /\ leaf_shape p /\
    Forall (fun x => x ∈ P) (path_refs p) /\ Forall (fun c => c ∈ cs) (const_refs p) /\
    q = leaf_body p ++ r /\ tail_at bytes a' r /\ extends (added st p) full /\ check = check_of (added st p).
Proof.
  intros Ht He. unfold validate_leaf, added.
  assert (forall rest, ('(at_, ck) ← path_ref bytes (len P) (check_of st) a; rest at_ ck) = Ok (a', check) ->
    exists path r at_, path ∈ P /\ q = refs path ++ r /\ tail_at bytes at_ r /\ extends (add st [path] []) full /\
      rest at_ (check_of (add st [path] [])) = Ok (a', check)) as Hpath.
  { intros rest ([at_ ck] & (path & r & Hp & -> & Ht2 & He2 & ->)%(path_ref_inv _ _ _ _ _ Ht He) & H)%bind_Ok.
    by exists path, r, at_. }
  destruct ((OP_EQ <=? op) && (op <=? OP_GE)) eqn:Eop;
    [|destruct (Z.eqb_spec op OP_BETWEEN) as [->|];
      [|destruct (Z.eqb_spec op OP_BEGINS_WITH) as [->|];
        [|destruct (Z.eqb_spec op OP_IN) as [->|];
          [|destruct (Z.eqb_spec op OP_EXISTS) as [->|]; [|done]]]]].
  - intros (path & r & at_ & Hp & -> & Ht2 & He2 & H)%Hpath.
    apply bind_Ok in H as ([[[fam off] at2] ck] & (c & r2 & Hc & _ & -> & Ht3 & He3 & ->)%(constant_ref_inv _ _ _ _ _ _ _ Ht2 He2) & [= <- <-]).
    assert (exists o, op = opcode o) as [o ->].
    { apply andb_true_iff in Eop as [H1%Z.leb_le H2%Z.leb_le]. unfold OP_EQ, OP_GE in *.
      assert (op = 16 \/ op = 17 \/ op = 18 \/ op = 19 \/ op = 20 \/ op = 21) as Hop by lia.
      destruct Hop as [->|[->|[->|[->|[->| ->]]]]]; [by exists CEq|by exists CNe|by exists CLt|by exists CLe|by exists CGt|by exists CGe]. }
    exists (PCmp o path c), r2. cbn [leaf_body path_refs const_refs]. rewrite add_path_consts, <- app_assoc.
    split_and!; try done; by repeat constructor.
  - intros (path & r & at_ & Hp & -> & Ht2 & He2 & H)%Hpath.
    apply bind_Ok in H as ([[[f1 o1] at2] ck] & (lo & r2 & Hc & -> & -> & Ht3 & He3 & ->)%(constant_ref_inv _ _ _ _ _ _ _ Ht2 He2) & H).
    apply bind_Ok in H as ([[[f2 o2] at3] ck] & (hi & r3 & Hc' & -> & -> & Ht4 & He4 & ->)%(constant_ref_inv _ _ _ _ _ _ _ Ht3 He3) & H).
    case_bool_decide as Hf; [|done]. injection H as <- <-.
    exists (PBetween path lo hi), r3. cbn [leaf_body path_refs const_refs].
    rewrite add_path_consts, add_consts_cons, <- !app_assoc. split_and!; try done; by repeat constructor.
  - intros (path & r & at_ & Hp & -> & Ht2 & He2 & H)%Hpath.
    apply bind_Ok in H as ([[[f1 o1] at2] ck] & (c & r2 & Hc & -> & -> & Ht3 & He3 & ->)%(constant_ref_inv _ _ _ _ _ _ _ Ht2 He2) & H).
    case_bool_decide as Hf; [|done]. injection H as <- <-. apply utf8_family in Hf as [s ->].
    exists (PBeginsWith path s), r2. cbn [leaf_body path_refs const_refs].
    rewrite add_path_consts, <- !app_assoc. split_and!; try done; by repeat constructor.
  - intros (path & r & at_ & Hp & -> & Ht2 & He2 & H)%Hpath.
    apply bind_Ok in H as (nn & (b & r1 & -> & -> & Ht3)%(byte_or_inv _ _ _ _ _ Ht2) & H).
    destruct (Z.ltb_spec (u8 b) 1); [done|]. destruct (Z.ltb_spec IN_MEMBERS_MAX (u8 b)); [done|]. cbn [orb] in H.
    apply bind_Ok in H as ([[[f1 o1] at2] ck] & (c & r2 & Hc & -> & -> & Ht4 & He3 & ->)%(constant_ref_inv _ _ _ _ _ _ _ Ht3 He2) & H).
    apply (members_inv _ _ _ _ _ _ _ Ht4 He3) in H as (l & r3 & Hl & Hlc & Hlf & -> & Ht5 & He4 & ->).
    exists (PIn path (c :: l)), r3. cbn [leaf_body path_refs const_refs leaf_shape].
    assert (len (c :: l) = u8 b) as -> by (unfold len; cbn [length]; lia).
    rewrite add_path_consts, add_consts_cons, <- !app_assoc, b8_u8. cbn [map concat app]. rewrite <- !app_assoc.
    split_and!; try done; try lia; by repeat constructor.
  - intros H. destruct (Hpath (fun x y => Ok (x, y))) as (path & r & at_ & Hp & -> & Ht2 & He2 & [= <- <-]).
    { rewrite H. done. }
    exists (PExists path), r. cbn [leaf_body path_refs const_refs]. split_and!; try done. by repeat constructor.
Qed.

(** *** Open operands

    A stack of remaining-operand counts stands for the depths at which the
    expressions still to come lie, the current operand first. *)

Fixpoint lower (stack : list Z) : list Z :=
  match stack with [] => [] | n :: s => replicate (Z.to_nat (n - 1)) (len stack) ++ lower s end.
Definition todo (stack : list Z) : list Z :=
  match stack with [] => [] | n :: s => replicate (Z.to_nat n) (len stack) ++ lower s end.

Lemma todo_top stack : stack <> [] -> Forall (Z.le 1) stack -> todo stack = len stack :: lower stack.
Proof.
  destruct stack as [|n s]; [done|]. intros _ [Hn _]%Forall_cons_iff. cbn [todo lower].
  replace (Z.to_nat n) with (S (Z.to_nat (n - 1))) by lia. done.
Qed.

Lemma todo_cascade stack : Forall (Z.le 1) stack -> todo (cascade stack) = lower stack /\ Forall (Z.le 1) (cascade stack).
Proof.
  induction 1 as [|n s Hn Hs [IH1 IH2]]; [done|]. cbn [cascade lower]. destruct (Z.ltb_spec 0 (n - 1)).
  - cbn [todo]. split; [done|]. constructor; [lia|done].
  - replace (Z.to_nat (n - 1)) with 0%nat by lia. done.
Qed.

Lemma all_ops_cons p l : all_ops (p :: l) = ops p + all_ops l.
Proof. done. Qed.

Lemma all_ops_app l r : all_ops (l ++ r) = all_ops l + all_ops r.
Proof. induction l as [|p l IH]; [done|]. cbn [app]. rewrite !all_ops_cons, IH. lia. Qed.

Definition exprs_of (l : list Predicate) : list byte := concat (map (expr_of full) l).

Lemma exprs_cons p l : exprs_of (p :: l) = expr_of full p ++ exprs_of l.
Proof. done. Qed.

Lemma exprs_app l r : exprs_of (l ++ r) = exprs_of l ++ exprs_of r.
Proof. unfold exprs_of. by rewrite map_app, concat_app. Qed.

Lemma added_all_app st l r : added_all st (l ++ r) = added_all (added_all st l) r.
Proof. unfold added_all. by rewrite add_app, !map_app, !concat_app. Qed.

Lemma added_all_cons st p l : added_all st (p :: l) = added_all (added st p) l.
Proof. unfold added_all, added. by rewrite add_app. Qed.

Lemma leaf_opcode p : is_leaf p = true ->
  (opcode_of p =? OP_AND) || (opcode_of p =? OP_OR) = false /\ (opcode_of p =? OP_NOT) = false /\ 0 <= opcode_of p < 256.
Proof. destruct p as [| | |op| | | |]; try done. by destruct op. Qed.

Lemma repeat_shaped d l : Forall2 shaped (replicate (length l) d) l <-> Forall (shaped d) l.
Proof.
  induction l as [|p l IH]; [done|]. cbn [length replicate]. rewrite Forall_cons_iff, <- IH.
  split; [by inversion 1|]. intros [? ?]. by constructor.
Qed.

(** One round of the validator. *)
Section round.
Context (fuel : nat) (stack : list Z) (at_ n : Z) (st : Pools).
Hypothesis Hne : stack <> [].
Hypothesis Hdepth : len stack <= NESTING_DEPTH_MAX.
Hypothesis Hops : n + 1 <= OPS_MAX.
Notation go := (validate_ops bytes (len P) fams).

Lemma validate_connective b k q :
  b = OP_AND \/ b = OP_OR -> 2 <= k <= BOOL_ARITY_MAX -> tail_at bytes at_ (b8 b :: b8 k :: q) ->
  go (S fuel) stack at_ n (check_of st) = go fuel (k :: stack) (at_ + 1 + 1) (n + 1) (check_of st).
Proof.
  intros Hb Hk Ht. destruct stack as [|top s]; [done|]. cbn [validate_ops].
  rewrite (proj2 (Z.ltb_ge _ _)), (proj2 (Z.ltb_ge _ _)) by lia.
  rewrite (byte_or_ok _ _ _ _ _ Ht), u8_b8_small by (destruct Hb; subst; done). ok_step.
  assert ((b =? OP_AND) || (b =? OP_OR) = true) as -> by (destruct Hb; subst; done).
  apply tail_cons in Ht. rewrite (byte_or_ok _ _ _ _ _ Ht), u8_b8_small by (unfold BOOL_ARITY_MAX in Hk; lia). ok_step.
  by rewrite (proj2 (Z.ltb_ge _ _)), (proj2 (Z.ltb_ge _ _)) by lia.
Qed.

Lemma validate_not q :
  tail_at bytes at_ (b8 OP_NOT :: q) ->
  go (S fuel) stack at_ n (check_of st) = go fuel (1 :: stack) (at_ + 1) (n + 1) (check_of st).
Proof.
  intros Ht. destruct stack as [|top s]; [done|]. cbn [validate_ops].
  rewrite (proj2 (Z.ltb_ge _ _)), (proj2 (Z.ltb_ge _ _)) by lia.
  by rewrite (byte_or_ok _ _ _ _ _ Ht), u8_b8_small by done.
Qed.

Lemma validate_one_leaf p q :
  is_leaf p = true -> leaf_shape p -> tail_at bytes at_ (expr_of full p ++ q) -> extends (added st p) full ->
  go (S fuel) stack at_ n (check_of st) =
  go fuel (cascade stack) (at_ + len (expr_of full p)) (n + 1) (check_of (added st p)).
Proof.
  intros Hleaf Hsh Ht He. rewrite expr_leaf in Ht |- * by done. cbn [app] in Ht. destruct (leaf_opcode p Hleaf) as (E1 & E2 & Hr).
  destruct stack as [|top s]; [done|]. cbn [validate_ops].
  rewrite (proj2 (Z.ltb_ge _ _)), (proj2 (Z.ltb_ge _ _)) by lia.
  rewrite (byte_or_ok _ _ _ _ _ Ht), u8_b8_small by done. ok_step. rewrite E1, E2. apply tail_cons in Ht.
  rewrite (validate_leaf_ok _ _ _ _ _ Hleaf Hsh Ht He). ok_step. f_equal. lens.
Qed.
End round.

Lemma validate_ops_ok fuel stack l at_ n st q :
  Forall2 shaped (todo stack) l -> Forall (Z.le 1) stack ->
  tail_at bytes at_ (exprs_of l ++ q) -> extends (added_all st l) full ->
  n + all_ops l <= OPS_MAX -> (Z.to_nat (all_ops l) <= fuel)%nat ->
  validate_ops bytes (len P) fams fuel stack at_ n (check_of st) =
  Ok (at_ + len (exprs_of l), check_of (added_all st l)).
Proof.
  revert stack l at_ n st. induction fuel as [|fuel IH]; intros stack l at_ n st Hsh Hst Ht He Hn Hf;
    (destruct (decide (stack = [])) as [->|Hne];
      [inversion Hsh; subst; cbn; unfold added_all; cbn; by rewrite add_nil, len_nil, Z.add_0_r|]);
    rewrite todo_top in Hsh by done; inversion Hsh as [|d p ds l' Hp Hl]; subst;
    rewrite all_ops_cons in Hn, Hf; pose proof (ops_pos p) as Hop; pose proof (all_ops_nonneg l') as Hal; [lia|].
  assert (n + 1 <= OPS_MAX) as Hn1 by lia. apply shaped_eq in Hp as [Hd Hp]. rewrite added_all_cons in He |- *.
  rewrite exprs_cons in Ht |- *. rewrite <- app_assoc in Ht.
  assert (forall b ch, b = OP_AND \/ b = OP_OR -> expr_of full p = b8 b :: b8 (len ch) :: exprs_of ch ->
     added st p = added_all st ch -> ops p = 1 + all_ops ch -> 2 <= len ch <= BOOL_ARITY_MAX ->
     Forall (shaped (len stack + 1)) ch ->
     validate_ops bytes (len P) fams (S fuel) stack at_ n (check_of st) =
     Ok (at_ + len (expr_of full p ++ exprs_of l'), check_of (added_all (added st p) l'))) as Hconn.
  { intros b ch Hb Ee Ea Eo Har Hch. rewrite Ee in Ht |- *. cbn [app] in Ht. rewrite Ea in He |- *. rewrite <- added_all_app in He |- *.
    rewrite (validate_connective _ _ _ _ _ Hne Hd Hn1 b _ _ Hb Har Ht).
    do 2 apply tail_cons in Ht. rewrite app_assoc, <- exprs_app in Ht.
    rewrite (IH (len ch :: stack) (ch ++ l') _ (n + 1) st); [| |by constructor; [lia|]|done|done| |].
    - do 2 f_equal. rewrite exprs_app. lens.
    - cbn [todo]. apply Forall2_app; [|done]. replace (Z.to_nat (len ch)) with (length ch) by (unfold len; lia).
      apply repeat_shaped. by replace (len (len ch :: stack)) with (len stack + 1) by lens.
    - rewrite all_ops_app. lia.
    - rewrite all_ops_app. lia. }
  destruct (is_leaf p) eqn:Hleaf.
  - clear Hconn. rewrite (validate_one_leaf _ _ _ _ _ Hne Hd Hn1 _ _ Hleaf ltac:(by destruct p) Ht) by by eapply extends_left.
    apply tail_app in Ht. destruct (todo_cascade stack Hst) as [E1 E2].
    rewrite (IH (cascade stack) l' _ (n + 1)); [|by rewrite E1|done|done|done|lia|lia]. do 2 f_equal. lens.
  - destruct p as [ch|ch|p| | | | |]; try done.
    + apply (Hconn OP_AND ch); try tauto; try done.
    + apply (Hconn OP_OR ch); try tauto; try done.
    + clear Hconn. change (expr_of full (PNot p)) with (b8 OP_NOT :: expr_of full p) in Ht |- *. cbn [app] in Ht.
      rewrite (validate_not _ _ _ _ _ Hne Hd Hn1 _ Ht). apply tail_cons in Ht.
      change (ops (PNot p)) with (1 + ops p) in *. rewrite app_assoc in Ht. change (expr_of full p ++ exprs_of l') with (exprs_of (p :: l')) in Ht.
      rewrite (IH (1 :: stack) (p :: l') _ (n + 1) st); [| |by constructor|exact Ht|by rewrite added_all_cons|rewrite all_ops_cons; lia|rewrite all_ops_cons; lia].
      * rewrite added_all_cons. change (added st (PNot p)) with (added st p). do 2 f_equal. rewrite exprs_cons. lens.
      * cbn [todo]. constructor; [by replace (len (1 :: stack)) with (len stack + 1) by lens|done].
Qed.

(** Every operand comes from the pools. *)
Definition pooled (p : Predicate) : Prop :=
  Forall (fun x => x ∈ P) (path_refs p) /\ Forall (fun c => c ∈ cs) (const_refs p).

Lemma pooled_concat l :
  Forall (fun x => x ∈ P) (concat (map path_refs l)) /\ Forall (fun c => c ∈ cs) (concat (map const_refs l)) <->
  Forall pooled l.
Proof. unfold pooled. rewrite !Forall_concat_elem. by rewrite list.Forall_and. Qed.

(** The expressions read so far, from [at_] on. *)
Definition exprs_read (depths : list Z) (n : Z) (st : Pools) (q : list byte) (a' : Z) (check : ExprCheck) : Prop :=
  exists l r, Forall2 shaped depths l /\ n + all_ops l <= OPS_MAX /\ Forall pooled l /\
    q = exprs_of l ++ r /\ tail_at bytes a' r /\ extends (added_all st l) full /\ check = check_of (added_all st l).

(** Operands read at depth [d + 1] make one connective at depth [d]. *)
Lemma read_connective (mk : list Predicate -> Predicate) b k d ds n st q a' check :
  b = OP_AND /\ mk = PAnd \/ b = OP_OR /\ mk = POr -> d <= NESTING_DEPTH_MAX -> 2 <= k <= BOOL_ARITY_MAX ->
  exprs_read (replicate (Z.to_nat k) (d + 1) ++ ds) (n + 1) st q a' check ->
  exprs_read (d :: ds) n st (b8 b :: b8 k :: q) a' check.
Proof.
  intros Hmk Hd Hk (l & r & Hsh & Hn & Hp & -> & Ht & He & ->).
  apply Forall2_app_inv_l in Hsh as (ch & l' & Hch & Hl & ->).
  pose proof (Forall2_length Hch) as Hlen. rewrite length_replicate in Hlen.
  assert (len ch = k) as Ek by (unfold len; lia).
  apply Forall_app in Hp as [Hp1 Hp2]. rewrite Hlen in Hch. apply repeat_shaped in Hch.
  rewrite all_ops_app in Hn. rewrite added_all_app in He |- *.
  exists (mk ch :: l'), r. rewrite all_ops_cons, added_all_cons, exprs_cons, exprs_app.
  assert (shaped d (mk ch)) by (apply shaped_eq; split; [done|]; rewrite <- Ek in Hk; destruct Hmk as [[_ ->]|[_ ->]]; done).
  assert (pooled (mk ch)) by (unfold pooled; destruct Hmk as [[_ ->]|[_ ->]]; by apply pooled_concat).
  assert (ops (mk ch) = 1 + all_ops ch) as -> by (destruct Hmk as [[_ ->]|[_ ->]]; done).
  assert (added st (mk ch) = added_all st ch) as -> by (destruct Hmk as [[_ ->]|[_ ->]]; done).
  assert (expr_of full (mk ch) = b8 b :: b8 k :: exprs_of ch) as ->
    by (rewrite <- Ek; destruct Hmk as [[-> ->]|[-> ->]]; done).
  cbn [app]. rewrite <- !app_assoc. split_and!; try done; [by constructor|lia|by constructor].
Qed.

Lemma validate_ops_inv fuel stack at_ n st q a' check :
  Forall (Z.le 1) stack -> n <= OPS_MAX -> tail_at bytes at_ q -> extends st full ->
  validate_ops bytes (len P) fams fuel stack at_ n (check_of st) = Ok (a', check) ->
  exprs_read (todo stack) n st q a' check.
Proof.
  revert stack at_ n st q. induction fuel as [|fuel IH]; intros stack at_ n st q Hst Hn Ht He;
    (destruct stack as [|k s];
      [cbn [validate_ops]; intros [= <- <-]; exists [], q; unfold added_all; cbn [map concat]; rewrite add_nil;
       split_and!; try done; change (all_ops []) with 0; lia|]); [done|].
  cbn [validate_ops]. remember (k :: s) as stack eqn:Es. destruct (Z.ltb_spec NESTING_DEPTH_MAX (len stack)) as [|Hd]; [done|].
  destruct (Z.ltb_spec OPS_MAX (n + 1)) as [|Hn1]; [done|].
  intros (op & (b & r & -> & -> & Ht1)%(byte_or_inv _ _ _ _ _ Ht) & H)%bind_Ok.
  rewrite todo_top by (by subst). rewrite <- (b8_u8 b).
  destruct ((u8 b =? OP_AND) || (u8 b =? OP_OR)) eqn:Eop.
  - apply bind_Ok in H as (nn & (b2 & r2 & -> & -> & Ht2)%(byte_or_inv _ _ _ _ _ Ht1) & H).
    destruct (Z.ltb_spec (u8 b2) 2); [done|]. destruct (Z.ltb_spec BOOL_ARITY_MAX (u8 b2)); [done|]. cbn [orb] in H.
    assert (Forall (Z.le 1) (u8 b2 :: stack)) as Hst2 by (constructor; [lia|done]).
    apply (IH _ _ _ _ _ Hst2 Hn1 Ht2 He) in H. cbn [todo] in H.
    replace (len (u8 b2 :: stack)) with (len stack + 1) in H by lens. rewrite <- (b8_u8 b2).
    apply orb_true_iff in Eop as [->%Z.eqb_eq| ->%Z.eqb_eq];
      [eapply (read_connective PAnd); [by left|done|lia|done]|eapply (read_connective POr); [by right|done|lia|done]].
  - destruct (Z.eqb_spec (u8 b) OP_NOT) as [->|Hnot].
    + assert (Forall (Z.le 1) (1 :: stack)) as Hst2 by (constructor; [lia|done]).
      apply (IH _ _ _ _ _ Hst2 Hn1 Ht1 He) in H. cbn [todo replicate] in H.
      destruct H as (l & r2 & Hsh & Hn2 & Hp & -> & Ht2 & He2 & ->). cbn [app] in Hsh. inversion Hsh as [|d p ds l' Hsp Hsl]; subst.
      apply Forall_cons_iff in Hp as [Hp Hpl]. rewrite all_ops_cons in Hn2.
      exists (PNot p :: l'), r2. rewrite all_ops_cons. change (ops (PNot p)) with (1 + ops p).
      rewrite !added_all_cons in *. change (added st (PNot p)) with (added st p).
      split_and!; try done; [|lia|by constructor].
      constructor; [|done]. apply shaped_eq. split; [done|]. by replace (len (1 :: k :: s)) with (len (k :: s) + 1) in Hsp by lens.
    + apply bind_Ok in H as ([at2 ck] & Hl & H).
      apply (validate_leaf_inv _ _ _ _ _ _ _ Ht1 He) in Hl as (p & r2 & Hleaf & Ep & Hsh & Hp1 & Hp2 & -> & Ht2 & He2 & ->).
      destruct (todo_cascade stack Hst) as [Ec1 Ec2].
      apply (IH _ _ _ _ _ Ec2 Hn1 Ht2 He2) in H. rewrite Ec1 in H. destruct H as (l & r3 & Hsl & Hn2 & Hpl & -> & Ht3 & He3 & ->).
      assert (ops p = 1) as Eo by by destruct p.
      exists (p :: l), r3. rewrite all_ops_cons, exprs_cons, added_all_cons, expr_leaf, Eo, Ep, <- app_assoc by done.
      split_and!; try done; [|lia|by constructor].
      constructor; [|done]. apply shaped_eq. split; [done|]. by destruct p.
Qed.

(** ** Trusted reads of an expression *)

Definition path_index (path : list byte) : Z := index_of P path.
Definition const_index (c : Constant) : Z := index_of (map const_bytes cs) (const_bytes c).

(** The op read at the head of an expression at [at_]. *)
Definition op_of (at_ : Z) (p : Predicate) : Op :=
  match p with
  | PAnd l => OAnd (len l)
  | POr l => OOr (len l)
  | PNot _ => ONot
  | PCmp op path c => OCmp op (path_index path) (const_index c)
  | PBetween path lo hi => OBetween (path_index path) (const_index lo) (const_index hi)
  | PBeginsWith path prefix => OBeginsWith (path_index path) (const_index (KUtf8 prefix))
  | PIn path members => OIn (path_index path) (at_ + 1 + len (refs path) + 1) (len members)
  | PExists path => OExists (path_index path)
  end.
Definition head_len (p : Predicate) : Z :=
  match p with PAnd _ | POr _ => 2 | PNot _ => 1 | leaf => len (expr_of full leaf) end.

Lemma trusted_ref_ok {E} a v q :
  tail_at bytes a (encode_u64 v ++ q) -> 0 <= v < 2 ^ 32 ->
  trusted_ref (E:=E) bytes a = Ok (v, a + len (encode_u64 v)).
Proof.
  intros Ht Hv. unfold trusted_ref. rewrite (trusted_ok _ _ _ _ Ht) by (unfold in_u; lia). ok_step.
  rewrite wrap_id; [done|]. unfold in_u. lia.
Qed.

Lemma path_index_small x : x ∈ P -> 0 <= path_index x < 2 ^ 32.
Proof. intros H%index_of_lt. unfold path_index, PATHS_MAX in *. lia. Qed.

Lemma const_index_small c : const_bytes c ∈ map const_bytes cs -> 0 <= const_index c < 2 ^ 32.
Proof. intros H%index_of_lt. rewrite len_map_cs in H. unfold const_index, CONSTANTS_MAX in *. lia. Qed.

Lemma trusted_path {E} a x q :
  tail_at bytes a (refs x ++ q) -> x ∈ P -> trusted_ref (E:=E) bytes a = Ok (path_index x, a + len (refs x)).
Proof. intros Ht Hx. by apply (trusted_ref_ok _ _ _ Ht), path_index_small. Qed.

Lemma trusted_const {E} a c q :
  tail_at bytes a (crefs c ++ q) -> const_bytes c ∈ map const_bytes cs ->
  trusted_ref (E:=E) bytes a = Ok (const_index c, a + len (crefs c)).
Proof. intros Ht Hx. by apply (trusted_ref_ok _ _ _ Ht), const_index_small. Qed.

Lemma trusted_consts {E} l a q :
  tail_at bytes a (concat (map (fun c => crefs c) l) ++ q) -> Forall (fun c => const_bytes c ∈ map const_bytes cs) l ->
  trusted_refs (E:=E) (length l) bytes a = Ok (map const_index l, a + len (concat (map (fun c => crefs c) l))).
Proof.
  intros Ht Hl. revert a Ht. induction Hl as [|c l Hc _ IH]; intros a Ht; cbn [length trusted_refs map concat] in *.
  { by rewrite len_nil, Z.add_0_r. }
  rewrite <- app_assoc in Ht. rewrite (trusted_const _ _ _ Ht Hc). ok_step. apply tail_app in Ht. rewrite (IH _ Ht). ok_step.
  do 2 f_equal. lens.
Qed.

Lemma from_opcode_opcode op : from_opcode (opcode op) = Some op.
Proof. by destruct op. Qed.

Lemma read_op_ok {E} p a q :
  tail_at bytes a (expr_of full p ++ q) -> covers full (path_refs p) (const_refs p) ->
  match p with PAnd l | POr l => len l < 256 | PIn _ l => len l < 256 | _ => True end ->
  read_op (E:=E) bytes a = Ok (op_of a p, a + head_len p).
Proof.
  intros Ht [Hp Hc] Har. unfold read_op, expr_of in *. cbn [full paths constants] in Hp, Hc, Ht.
  pose proof (len_nonneg (A:=Predicate)) as Hnn. pose proof (len_nonneg (A:=Constant)) as Hnc.
  destruct p as [l|l|p|op path c|path lo hi|path prefix|path members|path];
    cbn [expr_bytes op_of head_len path_refs const_refs] in *; unfold expr_of; cbn [expr_bytes full paths constants];
    cbn [app] in Ht; rewrite (tail_byte _ _ _ _ Ht); ok_step; try (rewrite u8_b8_small by (by try destruct op));
    rewrite ?Forall_cons_iff in Hp; rewrite ?Forall_cons_iff in Hc; apply tail_cons in Ht; rewrite <- ?app_assoc in Ht.
  - known_ops. rewrite (tail_byte _ _ _ _ Ht). ok_step. rewrite u8_b8_small by (specialize (Hnn l); lia). do 2 f_equal. lia.
  - known_ops. rewrite (tail_byte _ _ _ _ Ht). ok_step. rewrite u8_b8_small by (specialize (Hnn l); lia). do 2 f_equal. lia.
  - known_ops. done.
  - destruct Hp as [Hp _], Hc as [Hc _].
    assert (((opcode op =? OP_AND) || (opcode op =? OP_OR)) = false) as -> by by destruct op.
    assert ((opcode op =? OP_NOT) = false) as -> by by destruct op.
    assert ((opcode op =? OP_BETWEEN) = false) as -> by by destruct op.
    assert ((opcode op =? OP_BEGINS_WITH) = false) as -> by by destruct op.
    assert ((opcode op =? OP_IN) = false) as -> by by destruct op.
    assert ((opcode op =? OP_EXISTS) = false) as -> by by destruct op.
    rewrite from_opcode_opcode. ok_step. rewrite (trusted_path _ _ _ Ht) by done. ok_step. apply tail_app in Ht.
    rewrite (trusted_const _ _ _ Ht) by done. ok_step. do 2 f_equal. lens.
  - destruct Hp as [Hp _], Hc as (Hc1 & Hc2 & _). known_ops. rewrite (trusted_path _ _ _ Ht) by done. ok_step. apply tail_app in Ht.
    rewrite (trusted_const _ _ _ Ht) by done. ok_step. apply tail_app in Ht. rewrite (trusted_const _ _ _ Ht) by done. ok_step.
    do 2 f_equal. lens.
  - destruct Hp as [Hp _], Hc as [Hc _]. known_ops. rewrite (trusted_path _ _ _ Ht) by done. ok_step. apply tail_app in Ht.
    rewrite (trusted_const _ _ _ Ht) by done. ok_step. do 2 f_equal. lens.
  - destruct Hp as [Hp _]. known_ops. rewrite (trusted_path _ _ _ Ht) by done. ok_step. apply tail_app in Ht. cbn [app] in Ht.
    rewrite (tail_byte _ _ _ _ Ht). ok_step. rewrite u8_b8_small by (specialize (Hnc members); lia). apply tail_cons in Ht.
    replace (Z.to_nat (len members)) with (length members) by (unfold len; lia).
    rewrite (trusted_consts _ _ _ Ht) by done. ok_step. do 2 f_equal.
    change (map (const_ref_bytes (map const_bytes cs)) members) with (map (fun c => crefs c) members). lens.
  - destruct Hp as [Hp _]. known_ops. rewrite (trusted_path _ _ _ Ht) by done. ok_step. do 2 f_equal. lens.
Qed.

(** ** Rebuilding the tree *)

Context (Hstored : Forall stored cs).

Lemma zigzag_inj v w : in_i64 v -> in_i64 w -> zigzag v = zigzag w -> v = w.
Proof.
  intros Hv Hw. rewrite !zigzag_path by done. intros E.
  rewrite <- (PathProgram.unzigzag_zigzag v), E by done. by apply PathProgram.unzigzag_zigzag.
Qed.

Lemma encode_u64_prefix v w x y :
  in_u 64 v -> in_u 64 w -> encode_u64 v ++ x = encode_u64 w ++ y -> v = w /\ x = y.
Proof.
  intros Hv Hw E. pose proof (decode_encode v x Hv) as H1. rewrite E, decode_encode in H1 by done.
  injection H1 as -> _. by apply app_inv_head in E.
Qed.

Lemma be_bytes_inj v w : in_u 64 v -> in_u 64 w -> be_bytes 8 v = be_bytes 8 w -> v = w.
Proof. intros Hv Hw E. rewrite <- (be_val_be_bytes 8 v), E by exact Hv. by apply be_val_be_bytes. Qed.

(** Stored bytes determine the constant. *)
Lemma const_bytes_inj c d : wf_constant c -> stored d -> const_bytes c = const_bytes d -> d = norm_const c.
Proof.
  intros Hc [Hd Hn] E.
  assert (forall z, in_i64 z -> in_u 64 (zigzag z)) as Hz by (intros z Hz; rewrite zigzag_path by done; by apply PathProgram.zigzag_range).
  destruct c as [v|f|b|s], d as [w|g|b'|t]; cbn [const_bytes norm_const wf_constant] in *; unfold utf8_constant_bytes in *;
    pose proof (f_equal head E) as Eh; try discriminate Eh; apply (f_equal tail) in E; cbn [tail] in E.
  - rewrite <- (app_nil_r (encode_u64 (zigzag v))), <- (app_nil_r (encode_u64 (zigzag w))) in E.
    apply encode_u64_prefix in E as [E _]; [|by apply Hz..]. f_equal. symmetry. by apply zigzag_inj.
  - injection Hn as Hn. rewrite Hn in E. destruct Hc as [Hc _], Hd as [Hd _]. f_equal. symmetry.
    apply be_bytes_inj in E; [done| |done]. destruct (feq f 0); [unfold in_u; lia|done].
  - by destruct b, b'.
  - destruct Hc as [_ Hc], Hd as [_ Hd]. by apply encode_u64_prefix in E as [_ ->].
Qed.

Definition operand_at (c : Constant) : Prop := wf_constant c /\ const_bytes c ∈ map const_bytes cs.

Lemma constant_at c : operand_at c -> get cs (const_index c) = Some (norm_const c).
Proof.
  intros [Hw Hc]. pose proof (index_of_get _ _ Hc) as Hg. apply get_Some in Hg as [Hi Hg]. apply get_Some. split; [done|].
  unfold const_index. rewrite (lookup_map const_bytes) in Hg. destruct (cs !! _) as [d|] eqn:Ed; [|done]. injection Hg as Hg.
  f_equal. apply const_bytes_inj; [done| |done]. rewrite list.Forall_forall in Hstored.
  by eapply Hstored, list_elem_of_lookup_2.
Qed.

Lemma path_at x : x ∈ P -> get P (path_index x) = Some x.
Proof. apply index_of_get. Qed.

Lemma constants_at {E} l : Forall operand_at l -> pick_constants (E:=E) cs (map const_index l) = Ok (map norm_const l).
Proof.
  induction 1 as [|c l Hc _ IH]; [done|]. cbn [map pick_constants]. rewrite constant_at by done. ok_step. by rewrite IH.
Qed.

(** Operands in range and in the pools. *)
Definition operands_at (p : Predicate) : Prop :=
  Forall (fun x => x ∈ P) (path_refs p) /\ Forall operand_at (const_refs p).

Lemma operands_covers p : operands_at p -> covers full (path_refs p) (const_refs p).
Proof. intros [H1 H2]. split; [done|]. eapply Forall_impl; [|exact H2]. by intros c [_ ?]. Qed.

Lemma decode_leaf_ok {E} p a q :
  is_leaf p = true -> leaf_shape p -> operands_at p -> tail_at bytes a (expr_of full p ++ q) ->
  decode_leaf (E:=E) bytes P cs (op_of a p) = Ok (norm p).
Proof.
  intros Hleaf Hsh Ho Ht. destruct (operands_covers p Ho) as [_ Hcov]. destruct Ho as [Hp Hc].
  destruct p as [l|l|p|op path c|path lo hi|path prefix|path members|path]; try done;
    cbn [op_of decode_leaf norm path_refs const_refs] in *;
    rewrite ?Forall_cons_iff in Hp; destruct Hp as [Hp _].
  - rewrite Forall_cons_iff in Hc. rewrite path_at, constant_at by tauto. done.
  - rewrite !Forall_cons_iff in Hc. rewrite path_at, !constant_at by tauto. done.
  - rewrite Forall_cons_iff in Hc. rewrite constant_at by tauto. ok_step. cbn [norm_const]. by rewrite path_at.
  - rewrite path_at by done. ok_step. unfold expr_of in Ht. cbn [expr_bytes full paths constants] in Ht. cbn [app] in Ht.
    apply tail_cons in Ht. rewrite <- app_assoc in Ht. apply tail_app in Ht. cbn [app] in Ht. apply tail_cons in Ht.
    replace (Z.to_nat (len members)) with (length members) by (unfold len; lia).
    rewrite (trusted_consts _ _ _ Ht Hcov). ok_step. by rewrite constants_at.
  - by rewrite path_at.
Qed.

(** Hand a completed expression to its ancestors. *)
Definition resume {E} (fuel : nat) (frames : list Frame) (p : Predicate) (at_ : Z) : outcome E Predicate :=
  match fold_frames frames p with
  | inl t => Ok t
  | inr frames => decode_expr bytes P cs fuel frames at_
  end.

Definition decodes (p : Predicate) : Prop := forall E d fuel frames a q,
  shaped d p -> operands_at p -> tail_at bytes a (expr_of full p ++ q) ->
  decode_expr (E:=E) bytes P cs (Z.to_nat (ops p) + fuel) frames a = resume fuel frames (norm p) (a + len (expr_of full p)).

Definition connective_frame (mk : list Predicate -> Predicate) (fr : Z -> list Predicate -> Frame) : Prop :=
  mk = PAnd /\ fr = FAnd \/ mk = POr /\ fr = FOr.

Lemma fold_connective mk fr n done_ frames p :
  connective_frame mk fr ->
  fold_frames (fr n done_ :: frames) p =
  if len (done_ ++ [p]) <? n then inr (fr n (done_ ++ [p]) :: frames) else fold_frames frames (mk (done_ ++ [p])).
Proof. by intros [[-> ->]|[-> ->]]. Qed.

Lemma decode_children {E} mk fr l : forall d done_ frames fuel a q,
  connective_frame mk fr -> l <> [] -> Forall decodes l -> Forall (shaped d) l -> Forall operands_at l ->
  tail_at bytes a (exprs_of l ++ q) ->
  decode_expr (E:=E) bytes P cs (Z.to_nat (all_ops l) + fuel) (fr (len (done_ ++ l)) done_ :: frames) a =
  resume fuel frames (mk (done_ ++ map norm l)) (a + len (exprs_of l)).
Proof.
  induction l as [|p l IH]; intros d done_ frames fuel a q Hmk Hne Hdec Hsh Ho Ht; [done|].
  apply Forall_cons_iff in Hdec as [Hp Hdec], Hsh as [Hs Hsh], Ho as [Hop Ho]. rewrite exprs_cons, <- app_assoc in Ht.
  pose proof (ops_pos p). pose proof (all_ops_nonneg l). rewrite all_ops_cons, Z2Nat.inj_add, <- Nat.add_assoc by lia.
  rewrite (Hp E d _ _ _ _ Hs Hop Ht). unfold resume at 1. rewrite (fold_connective _ _ _ _ _ _ Hmk). apply tail_app in Ht.
  destruct l as [|p' l].
  - rewrite (proj2 (Z.ltb_ge _ _)) by lens. unfold resume. cbn [map]. rewrite exprs_cons. change (exprs_of []) with (@nil byte).
    by rewrite app_nil_r.
  - rewrite (proj2 (Z.ltb_lt _ _)) by lens. rewrite cons_middle, app_assoc.
    assert (len ((done_ ++ [p]) ++ p' :: l) = len ((done_ ++ [norm p]) ++ p' :: l)) as -> by lens.
    rewrite (IH d (done_ ++ [norm p]) frames fuel _ q Hmk ltac:(done) Hdec Hsh Ho Ht).
    cbn [map]. rewrite <- app_assoc, (exprs_cons p). cbn [app]. f_equal. lens.
Qed.

Lemma operands_at_concat l :
  Forall (fun x => x ∈ P) (concat (map path_refs l)) /\ Forall operand_at (concat (map const_refs l)) <->
  Forall operands_at l.
Proof. unfold operands_at. rewrite !Forall_concat_elem. by rewrite list.Forall_and. Qed.

Lemma decode_one_leaf p : is_leaf p = true -> decodes p.
Proof.
  intros Hleaf E d fuel frames a q [_ Hs]%shaped_eq Ho Ht.
  assert (ops p = 1 /\ leaf_shape p /\ head_len p = len (expr_of full p)) as (Eo & Hsh & Eh) by by destruct p.
  rewrite Eo. change (Z.to_nat 1 + fuel)%nat with (S fuel). cbn [decode_expr].
  rewrite (read_op_ok _ _ _ Ht); [|by apply operands_covers|destruct p; try done; cbn [leaf_shape] in Hsh; unfold IN_MEMBERS_MAX in Hsh; lia].
  ok_step. rewrite Eh. pose proof (decode_leaf_ok (E:=E) _ _ _ Hleaf Hsh Ho Ht) as Hd.
  by destruct p; try done; cbn [op_of] in *; rewrite Hd.
Qed.

Lemma decode_expr_ok p : decodes p.
Proof.
  assert (forall mk fr b l, connective_frame mk fr -> b = OP_AND \/ b = OP_OR -> Forall decodes l ->
    (forall (E : Type) a, op_of a (mk l) = OAnd (len l) /\ fr = FAnd \/ op_of a (mk l) = OOr (len l) /\ fr = FOr) ->
    expr_of full (mk l) = b8 b :: b8 (len l) :: exprs_of l -> head_len (mk l) = 2 -> ops (mk l) = 1 + all_ops l ->
    norm (mk l) = mk (map norm l) ->
    (forall d, shaped d (mk l) -> 2 <= len l <= BOOL_ARITY_MAX /\ Forall (shaped (d + 1)) l) ->
    (operands_at (mk l) -> Forall operands_at l) -> decodes (mk l)) as Hconn.
  { intros mk fr b l Hmk Hb Hl Hop Ee Eh Eo En Hsh Hops E d fuel frames a q Hs Ho Ht.
    destruct (Hsh d Hs) as [Har Hch]. rewrite Eo, En. pose proof (all_ops_nonneg l).
    replace (Z.to_nat (1 + all_ops l) + fuel)%nat with (S (Z.to_nat (all_ops l) + fuel)) by lia. cbn [decode_expr].
    rewrite (read_op_ok _ _ _ Ht) by (first [by apply operands_covers|by destruct Hmk as [[-> _]|[-> _]]; unfold BOOL_ARITY_MAX in Har; lia]).
    ok_step. rewrite Eh. rewrite Ee in Ht |- *. cbn [app] in Ht. do 2 apply tail_cons in Ht.
    assert (l <> []) as Hne by (intros ->; rewrite len_nil in Har; lia).
    pose proof (decode_children (E:=E) mk fr l (d + 1) [] frames fuel _ q Hmk Hne Hl Hch (Hops Ho) Ht) as Hd.
    cbn [app] in Hd. replace (a + len (b8 b :: b8 (len l) :: exprs_of l)) with (a + 1 + 1 + len (exprs_of l)) by lens.
    rewrite <- Hd. replace (a + 2) with (a + 1 + 1) by lia. by destruct (Hop E a) as [[-> ->]|[-> ->]]. }
  induction p as [l Hi|l Hi|p IH|op path c|path lo hi|path prefix|path members|path] using predicate_ind'.
  - apply (Hconn PAnd FAnd OP_AND); try done; [by left|by left|by left| |by apply operands_at_concat].
    intros d [_ H]%shaped_eq. done.
  - apply (Hconn POr FOr OP_OR); try done; [by right|by right|by right| |by apply operands_at_concat].
    intros d [_ H]%shaped_eq. done.
  - intros E d fuel frames a q [_ Hs]%shaped_eq Ho Ht. change (ops (PNot p)) with (1 + ops p). pose proof (ops_pos p).
    replace (Z.to_nat (1 + ops p) + fuel)%nat with (S (Z.to_nat (ops p) + fuel)) by lia. cbn [decode_expr].
    rewrite (read_op_ok _ _ _ Ht) by (first [by apply operands_covers|done]). ok_step. cbn [op_of head_len].
    change (expr_of full (PNot p)) with (b8 OP_NOT :: expr_of full p) in Ht |- *. cbn [app] in Ht. apply tail_cons in Ht.
    rewrite (IH E (d + 1) _ _ _ _ Hs Ho Ht). unfold resume. cbn [fold_frames norm]. by replace (a + len (b8 OP_NOT :: expr_of full p)) with (a + 1 + len (expr_of full p)) by lens.
  - by apply decode_one_leaf.
  - by apply decode_one_leaf.
  - by apply decode_one_leaf.
  - by apply decode_one_leaf.
  - by apply decode_one_leaf.
Qed.
End exprs.
