(* ===== verification/PredicateCanonical.v ===== *)
(** * PredicateCanonical: predicate programs as whole images

    The validator accepts a byte string exactly when it is the image
    ([program_bytes]) of a tree within the limits, over validated paths and
    constants in range, and the decoder reads that tree back with [-0.0] stored
    as [0.0]: every tree has one program and every program one tree. Neither the
    validator on arbitrary bytes nor the decoder on a validated program
    panics. *)

From S2P Require Import Prelude Tail Varint F64 ByteOrder Utf8 IndexKey Doc Predicate.
From S2P Require Import PathProgram PredicateProgram PredicateProgramSpec.
Import Varint PredicateProgram.

(** ** Trusted reads of the pools *)

Section trusted.
Context (bytes : list byte) (Hlen : len bytes < 2 ^ 32).

Lemma trusted_region_ok {E} a x q :
  tail_at bytes a (framed x ++ q) -> trusted_region (E:=E) bytes a = Ok (x, a + len (framed x)).
Proof.
  intros Ht. unfold framed in *. rewrite <- app_assoc in Ht. pose proof (tail_len _ _ _ Ht) as [Ha Hl]. rewrite !len_app in Hl.
  pose proof (len_nonneg x). pose proof (len_nonneg q). pose proof (len_nonneg (encode_u64 (len x))).
  unfold trusted_region. rewrite (trusted_ok _ _ _ _ Ht) by (unfold in_u; lia). ok_step. apply tail_app in Ht.
  rewrite (region_end_tail _ Hlen _ _ _ Ht). ok_step.
  pose proof (tail_slice (E:=E) _ _ _ _ _ Ht eq_refl) as Hs. unfold slice in Hs. rewrite Hs. ok_step. do 2 f_equal. lens.
Qed.

Lemma decode_paths_loop_ok {E} P a q :
  tail_at bytes a (concat (map framed P) ++ q) -> Forall wf_path P ->
  decode_paths_loop (E:=E) (length P) bytes a = Ok (P, a + len (concat (map framed P))).
Proof.
  intros Ht Hw. revert a Ht. induction Hw as [|p P [Hp _] _ IH]; intros a Ht; cbn [map concat length decode_paths_loop] in *.
  { by rewrite len_nil, Z.add_0_r. }
  rewrite <- app_assoc in Ht. rewrite (trusted_region_ok _ _ _ Ht). ok_step. rewrite Hp. ok_step.
  apply tail_app in Ht. rewrite (IH _ Ht). ok_step. do 2 f_equal. lens.
Qed.

Lemma decode_paths_ok {E} P a q :
  tail_at bytes a (encode_u64 (len P) ++ concat (map framed P) ++ q) -> Forall wf_path P -> len P <= PATHS_MAX ->
  decode_paths (E:=E) bytes a = Ok (P, a + len (encode_u64 (len P)) + len (concat (map framed P))).
Proof.
  intros Ht Hw Hm. unfold decode_paths. pose proof (len_nonneg P).
  rewrite (trusted_ok _ _ _ _ Ht) by (unfold in_u, PATHS_MAX in *; lia). ok_step. apply tail_app in Ht.
  replace (Z.to_nat (len P)) with (length P) by (unfold len; lia). by apply (decode_paths_loop_ok _ _ _ Ht).
Qed.

Lemma decode_constant_ok {E} c a q :
  tail_at bytes a (const_bytes c ++ q) -> wf_constant c ->
  decode_constant (E:=E) bytes a = Ok (norm_const c, a + len (const_bytes c)).
Proof.
  intros Ht Hc. unfold decode_constant.
  destruct c as [v|f|b|s]; cbn [const_bytes wf_constant norm_const] in *; unfold utf8_constant_bytes in *; cbn [app] in Ht;
    rewrite (tail_byte _ _ _ _ Ht), u8_b8_small by done; ok_step; apply tail_cons in Ht.
  - assert (in_u 64 (zigzag v)) by (rewrite zigzag_path by done; by apply PathProgram.zigzag_range).
    rewrite (trusted_ok _ _ _ _ Ht) by done. ok_step.
    rewrite unzigzag_path, zigzag_path, PathProgram.unzigzag_zigzag by done. do 2 f_equal. lens.
  - rewrite (tail_from _ _ _ Ht). ok_step. destruct Hc as [Hf Hfin]. destruct (f64_stored f Hf Hfin) as [Hz _].
    rewrite get_range_app_0 by (by rewrite len_be_bytes). ok_step. rewrite be_val_be_bytes by exact Hz. do 2 f_equal.
    rewrite len_cons, len_be_bytes. lia.
  - rewrite (tail_byte _ _ _ _ Ht), u8_b8_small by (by destruct b). ok_step. do 2 f_equal; [by destruct b|lens].
  - change (encode_u64 (len s) ++ s) with (framed s) in *. rewrite (trusted_region_ok _ _ _ Ht). ok_step.
    destruct Hc as [-> _]. do 2 f_equal. lens.
Qed.

Lemma decode_constants_ok {E} cs a q :
  tail_at bytes a (encode_u64 (len cs) ++ stored_bytes cs ++ q) -> Forall stored cs -> len cs <= CONSTANTS_MAX ->
  decode_constants (E:=E) bytes a = Ok (cs, a + len (encode_u64 (len cs)) + len (stored_bytes cs)).
Proof.
  intros Ht Hw Hm. unfold decode_constants. pose proof (len_nonneg cs).
  rewrite (trusted_ok _ _ _ _ Ht) by (unfold in_u, CONSTANTS_MAX in *; lia). ok_step. apply tail_app in Ht.
  replace (Z.to_nat (len cs)) with (length cs) by (unfold len; lia). generalize (a + len (encode_u64 (len cs))) Ht.
  clear -Hw Hlen. unfold stored_bytes. induction Hw as [|c cs [Hc Hn] _ IH]; intros a Ht;
    cbn [map concat length decode_constants_loop] in *.
  { by rewrite len_nil, Z.add_0_r. }
  rewrite <- app_assoc in Ht. rewrite (decode_constant_ok _ _ _ Ht Hc). ok_step. rewrite Hn.
  apply tail_app in Ht. rewrite (IH _ Ht). ok_step. do 2 f_equal. lens.
Qed.
End trusted.

(** ** The constants of a tree, in stored form *)

Lemma norm_wf c : wf_constant c -> stored (norm_const c) /\ const_bytes (norm_const c) = const_bytes c.
Proof.
  destruct c as [v|f|b|s]; [done| |done|done]. intros [Hf Hfin]. unfold stored.
  cbn [norm_const const_bytes wf_constant]. destruct (feq f 0) eqn:E; rewrite ?E; [|done]. by repeat split.
Qed.

Lemma stored_pool L : Forall (fun x => exists c, stored c /\ const_bytes c = x) L -> exists cs, map const_bytes cs = L /\ Forall stored cs.
Proof.
  induction 1 as [|x L (c & Hc & <-) _ (cs & <- & IH)]; [by exists []|]. exists (c :: cs). split; [done|]. by constructor.
Qed.

Lemma interned_subset xs L x : x ∈ interned L xs -> x ∈ L \/ x ∈ xs.
Proof.
  revert L. induction xs as [|y xs IH]; intros L; cbn; [by left|]. intros [H|H]%IH; [|right; by right].
  unfold intern in H. destruct (position y L); [by left|]. apply elem_of_app in H as [H|H%list_elem_of_singleton]; [by left|].
  subst. right. by left.
Qed.

(** The pools of a tree with operands in range. *)
Lemma pools_stored p :
  operands_wf p ->
  exists cs, pools_of p = full (interned [] (path_refs p)) cs /\ Forall stored cs /\
    Forall wf_path (interned [] (path_refs p)) /\ NoDup (interned [] (path_refs p)) /\ NoDup (map const_bytes cs).
Proof.
  intros [Hp Hc]. assert (Forall wf_path (interned [] (path_refs p))) as HP.
  { apply list.Forall_forall. intros x [Hx|Hx]%interned_subset; [by apply not_elem_of_nil in Hx|].
    by apply (proj1 (list.Forall_forall _ _) Hp). }
  destruct (stored_pool (interned [] (map const_bytes (const_refs p)))) as (cs & E & Hs).
  { apply list.Forall_forall. intros x [Hx|(c & -> & Hx)%list_elem_of_fmap]%interned_subset; [by apply not_elem_of_nil in Hx|].
    apply (proj1 (list.Forall_forall _ _) Hc), norm_wf in Hx as [Hs He]. eauto. }
  exists cs. unfold full, pools_of. rewrite E. split_and!; try done; apply interned_NoDup; constructor.
Qed.

Lemma operands_at_pools p cs :
  operands_wf p -> pools_of p = full (interned [] (path_refs p)) cs ->
  operands_at (interned [] (path_refs p)) cs p.
Proof.
  intros [_ Hc] [= E]. split; [apply interned_covers|]. apply list.Forall_forall. intros c Hin. split; [by apply (proj1 (list.Forall_forall _ _) Hc)|].
  rewrite <- E. apply (proj1 (list.Forall_forall _ _) (interned_covers [] _)). by apply list_elem_of_fmap_2.
Qed.

(** ** Images *)

(** The parts of an image, each at its offset. *)
Lemma image_tails P cs expr b :
  b = image (full P cs) expr ->
  exists a1 a2 : Z,
    tail_at b 2 (encode_u64 (len P) ++ concat (map framed P) ++ encode_u64 (len cs) ++ stored_bytes cs ++ expr) /\
    a1 = 2 + len (encode_u64 (len P)) + len (concat (map framed P)) /\
    tail_at b a1 (encode_u64 (len cs) ++ stored_bytes cs ++ expr) /\
    a2 = a1 + len (encode_u64 (len cs)) + len (stored_bytes cs) /\ tail_at b a2 expr.
Proof.
  intros ->. do 2 eexists.
  assert (tail_at (image (full P cs) expr) 2 (encode_u64 (len P) ++ concat (map framed P) ++ encode_u64 (len cs) ++ stored_bytes cs ++ expr)) as H.
  { exists [b8 PROGRAM_VERSION; b8 0]. split; [|done]. unfold image, full. cbn [paths constants]. by rewrite len_map_cs. }
  split; [exact H|]. split; [reflexivity|]. do 2 apply tail_app in H. split; [exact H|]. split; [reflexivity|].
  do 2 apply tail_app in H. exact H.
Qed.

Lemma pools_of_added p : added_all Pools_default [p] = pools_of p.
Proof. unfold added_all, add, pools_of. cbn [map concat]. by rewrite !app_nil_r. Qed.

Lemma validate_image p : encodable p -> operands_wf p -> validate (program_bytes p) = Ok tt.
Proof.
  intros (Hsh & _ & Hops & HP & HC & Hl) Hwf. destruct (pools_stored p Hwf) as (cs & Ep & Hst & HwP & HnP & HnC).
  remember (interned [] (path_refs p)) as P eqn:EP.
  assert (program_bytes p = image (full P cs) (expr_of (full P cs) p)) as Eb by (unfold program_bytes; by rewrite Ep).
  rewrite Ep in HP, HC. cbn [full paths constants] in HP, HC. rewrite len_map_cs in HC.
  destruct (image_tails P cs _ _ Eb) as (a1 & a2 & H1 & E1 & H2 & E2 & H3).
  assert (len (program_bytes p) < 2 ^ 32) as Hlen by (unfold PROGRAM_BYTES_CEILING in Hl; lia).
  assert (2 <= len (program_bytes p)) as Hl2 by (apply tail_len in H1; pose proof (len_nonneg (A:=byte)) as Hn; match type of H1 with _ /\ _ + len ?q = _ => specialize (Hn q) end; lia).
  unfold validate. rewrite (proj2 (Z.ltb_ge _ _)), (proj2 (Z.leb_gt _ _)) by lia.
  assert (tail_at (program_bytes p) 0 (program_bytes p)) as H0 by (by exists []).
  rewrite Eb in H0 at 2. cbn [image app] in H0. rewrite (tail_byte _ _ _ _ H0). ok_step. rewrite u8_b8_small by done.
  apply tail_cons in H0. rewrite (tail_byte _ _ _ _ H0). ok_step. rewrite u8_b8_small by done. cbn [negb Z.eqb].
  rewrite Z.eqb_refl. cbn [negb].
  destruct (validate_paths_ok _ Hlen P _ _ H1 HwP HnP HP) as (spans & -> & Hsp). ok_step. rewrite <- E1.
  assert (Forall wf_constant cs) as HwC by (eapply Forall_impl; [|exact Hst]; by intros c [? _]).
  destruct (validate_constants_ok _ Hlen cs _ _ H2 HwC HnC HC) as (consts & -> & Ef). ok_step. rewrite Ef, Hsp, <- E2.
  unfold validate_expr. assert (Hex : exprs_of P cs [p] = expr_of (full P cs) p) by (unfold exprs_of; cbn; apply app_nil_r).
  rewrite <- (app_nil_r (expr_of _ p)), <- Hex in H3.
  assert (Forall2 shaped (todo [1]) [p]) as Ht1 by (by repeat constructor).
  change {| next_path := 0; next_constant := 0 |} with (check_of Pools_default).
  rewrite (validate_ops_ok _ P cs HP HC _ [1] [p] _ _ _ _ Ht1 ltac:(by repeat constructor) H3);
    [|rewrite pools_of_added, Ep; done| |].
  - ok_step. rewrite pools_of_added, Ep. apply tail_len in H3. rewrite app_nil_r in H3. rewrite (proj2 (Z.eqb_eq _ _)) by lia.
    cbn [check_of next_path next_constant full paths constants]. by rewrite !len_map_cs, !Z.eqb_refl.
  - rewrite all_ops_cons. change (all_ops []) with 0. lia.
  - rewrite all_ops_cons. change (all_ops []) with 0. unfold OPS_MAX in *. lia.
Qed.

(** A pool that extends another of the same size is that pool. *)
Lemma extends_same a b :
  extends a b -> len (paths a) = len (paths b) -> len (constants a) = len (constants b) -> a = b.
Proof.
  assert (forall l k : list (list byte), l `prefix_of` k -> len l = len k -> l = k) as Heq.
  { intros l k [r ->] H. destruct r; [by rewrite app_nil_r|]. exfalso. revert H. rewrite len_app, len_cons. pose proof (len_nonneg r). lia. }
  destruct a, b. cbn. intros [H1 H2] E1 E2. f_equal; by apply Heq.
Qed.

Lemma norm_stored p : Forall stored (const_refs p) -> norm p = p.
Proof.
  assert (forall l, Forall stored l -> map norm_const l = l) as Hm.
  { induction 1 as [|c l [_ Hc] _ IH]; [done|]. cbn. by rewrite Hc, IH. }
  induction p as [l Hi|l Hi|p IH|op path c|path lo hi|path prefix|path members|path] using predicate_ind';
    cbn [const_refs norm]; intros H; f_equal; auto; try (by rewrite !Forall_cons_iff in H; unfold stored in H; tauto).
  all: rewrite Forall_concat_elem in H; clear -Hi H; induction Hi as [|p l Hp _ IH]; cbn; [done|];
    rewrite Forall_cons_iff in H; destruct H; f_equal; auto.
Qed.

Lemma pooled_wf P cs p : Forall wf_path P -> Forall stored cs -> pooled P cs p -> operands_wf p /\ Forall stored (const_refs p).
Proof.
  intros HP HC [H1 H2].
  assert (Forall stored (const_refs p)) as Hs by (eapply Forall_impl; [|exact H2]; by apply list.Forall_forall).
  split; [split|done].
  - eapply Forall_impl; [|exact H1]. by apply list.Forall_forall.
  - eapply Forall_impl; [|exact Hs]. by intros c [? _].
Qed.

Lemma operands_wf_ok p : operands_wf p -> operands_ok p.
Proof.
  intros [H1 H2]. split; (eapply Forall_impl; [|eassumption]).
  - intros q [_ H]. exact (is_legacy_any _ _ H).
  - intros [v|f|b|s]; cbn; tauto.
Qed.

(** What the validator accepts is the image of a tree over stored constants. *)
Lemma validate_only b :
  validate b = Ok tt ->
  exists p, b = program_bytes p /\ encodable p /\ operands_wf p /\ Forall stored (const_refs p).
Proof.
  unfold validate. destruct (Z.ltb_spec (len b) 2); [done|]. destruct (Z.leb_spec PROGRAM_BYTES_CEILING (len b)) as [|Hc]; [done|].
  assert (len b < 2 ^ 32) as Hlen by (unfold PROGRAM_BYTES_CEILING in Hc; lia).
  destruct b as [|v [|f b]]; [done|done|]. intros (v' & [= <-] & H')%bind_Ok.
  destruct (Z.eqb_spec (u8 v) PROGRAM_VERSION) as [Hv|]; [|done]. cbn [negb] in H'. apply bind_Ok in H' as (f' & [= <-] & H').
  destruct (Z.eqb_spec (u8 f) 0) as [Hf|]; [|done]. cbn [negb] in H'.
  apply bind_Ok in H' as ([spans a1] & HvP & H'). apply bind_Ok in H' as ([consts a2] & HvC & H').
  assert (tail_at (v :: f :: b) 2 b) as H2 by (by exists [v; f]).
  apply (validate_paths_inv _ _ _ _ _ H2) in HvP as (P & r & HwP & HnP & HlP & Es & Eb & H3).
  apply (validate_constants_inv _ _ _ _ _ H3) in HvC as (cs & r' & HsC & HnC & HlC & Ef & -> & H4).
  rewrite Es, Ef in H'. unfold validate_expr in H'. apply bind_Ok in H' as ([at_ check] & Hops & H').
  change {| next_path := 0; next_constant := 0 |} with (check_of Pools_default) in Hops.
  apply (validate_ops_inv _ P cs HnP HnC _ [1] _ 0 _ _ _ _ ltac:(by repeat constructor) ltac:(done) H4) in Hops
    as (l & r2 & Hl & Hn & Hpool & -> & H5 & He & ->); [|split; apply prefix_nil].
  change (todo [1]) with [1] in Hl. apply Forall2_cons_inv_l in Hl as (p & l' & Hsh & Hnil & ->).
  apply Forall2_nil_inv_l in Hnil as ->.
  destruct (Z.eqb_spec at_ (len (v :: f :: b))) as [Ee|]; [|done]. cbn [negb] in H'.
  rewrite pools_of_added in He, H'. cbn [check_of next_path next_constant] in H'. rewrite len_map_cs in H'.
  destruct (negb (len (paths (pools_of p)) =? len P) || negb (len (constants (pools_of p)) =? len cs)) eqn:En; [done|].
  apply orb_false_iff in En as [E1%negb_false_iff%Z.eqb_eq E2%negb_false_iff%Z.eqb_eq].
  apply extends_same in He as Ep; [|done|cbn [full constants]; by rewrite len_map_cs].
  rewrite Forall_cons_iff in Hpool. destruct (pooled_wf P cs p HwP HsC) as [Hwf Hst]; [tauto|].
  assert (r2 = []) as ->. { apply tail_len in H5. destruct r2; [done|]. rewrite len_cons in H5. pose proof (len_nonneg r2). lia. }
  assert (v :: f :: b = program_bytes p) as Eq.
  { unfold program_bytes. rewrite Ep, Eb. unfold image, full, exprs_of, stored_bytes. cbn [paths constants map concat app].
    rewrite len_map_cs, <- (b8_u8 v), <- (b8_u8 f), Hv, Hf, !app_nil_r. done. }
  exists p. split_and!; try done. rewrite Eq in Hc. unfold encodable. rewrite E1, E2. revert Hn. rewrite all_ops_cons.
  change (all_ops []) with 0. intros Hn. split_and!; try done; [by apply operands_wf_ok|lia].
Qed.

(** Every op takes a byte. *)
Lemma ops_len P C p : ops p <= len (expr_bytes P C p).
Proof.
  assert (forall l, Forall (fun p => ops p <= len (expr_bytes P C p)) l -> all_ops l <= len (concat (map (expr_bytes P C) l))) as Hl.
  { induction 1 as [|x l Hx _ IH]; [done|]. rewrite all_ops_cons. cbn [map concat]. rewrite len_app. lia. }
  induction p as [l Hi|l Hi|p IH|op path c|path lo hi|path prefix|path members|path] using predicate_ind';
    cbn [ops expr_bytes]; rewrite !len_cons; try (apply Hl in Hi; unfold all_ops in Hi; lia); try lia;
    match goal with |- context [len ?x] => pose proof (len_nonneg x) end; lia.
Qed.

(** The pools and the expression of an image, as the trusted reads find them. *)
Lemma program_read {E} p :
  encodable p -> operands_wf p ->
  exists cs a1 a2, let P := interned [] (path_refs p) in let b := program_bytes p in
    decode_paths (E:=E) b 2 = Ok (P, a1) /\ decode_constants (E:=E) b a1 = Ok (cs, a2) /\
    len P <= PATHS_MAX /\ len cs <= CONSTANTS_MAX /\ Forall stored cs /\ Forall wf_path P /\
    operands_at P cs p /\ tail_at b a2 (expr_of (full P cs) p).
Proof.
  intros (Hsh & _ & Hops & HP & HC & Hl) Hwf. destruct (pools_stored p Hwf) as (cs & Ep & Hst & HwP & HnP & HnC).
  pose proof (operands_at_pools _ _ Hwf Ep) as Hat. cbn zeta. revert Ep Hat HwP HnP. generalize (interned [] (path_refs p)). intros P Ep Hat HwP HnP.
  assert (program_bytes p = image (full P cs) (expr_of (full P cs) p)) as Eb by (unfold program_bytes; by rewrite Ep).
  rewrite Ep in HP, HC. cbn [full paths constants] in HP, HC. rewrite len_map_cs in HC.
  destruct (image_tails P cs _ _ Eb) as (a1 & a2 & H1 & E1 & H2 & E2 & H3).
  assert (len (program_bytes p) < 2 ^ 32) as Hlen by (unfold PROGRAM_BYTES_CEILING in Hl; lia).
  exists cs, a1, a2. rewrite (decode_paths_ok _ Hlen _ _ _ H1 HwP HP), <- E1.
  rewrite (decode_constants_ok _ Hlen _ _ _ H2 Hst HC), <- E2. by split_and!.
Qed.

(** The decoder reads the tree back. *)
Lemma decode_image {E} p : encodable p -> operands_wf p -> decode (E:=E) (program_bytes p) = Ok (norm p).
Proof.
  intros He Hwf. destruct (program_read (E:=E) p He Hwf) as (cs & a1 & a2 & Hp & Hc & HP & HC & Hst & _ & Hat & H3).
  unfold decode. rewrite Hp. ok_step. rewrite Hc. ok_step. rewrite <- (app_nil_r (expr_of _ p)) in H3.
  assert (length (program_bytes p) = Z.to_nat (ops p) + (length (program_bytes p) - Z.to_nat (ops p)))%nat as ->.
  { pose proof (tail_len _ _ _ H3) as Ht. rewrite app_nil_r in Ht. unfold expr_of, full in Ht. cbn [paths constants] in Ht.
    match type of Ht with _ /\ _ + len (expr_bytes ?P ?C p) = _ => pose proof (ops_len P C p) end. unfold len in *. lia. }
  by rewrite (decode_expr_ok _ _ cs HP HC Hst p E 1 _ [] _ [] (proj1 He) Hat H3).
Qed.

(** ** Validation never panics

    [safe off c]: the step does not panic, and the offset of its result lies
    within the program. *)

Section safe.
Context (bytes : list byte).
Notation within a := (0 <= a <= len bytes).

Definition safe {A} (off : A -> Z) (c : outcome PredicateError A) : Prop :=
  c <> Panic /\ forall r, c = Ok r -> within (off r).

Lemma safe_bind {A B} (off : A -> Z) (off' : B -> Z) c f :
  safe off c -> (forall r, c = Ok r -> within (off r) -> safe off' (f r)) -> safe off' (c ≫= f).
Proof.
  intros [Hc Hr] Hf. split.
  - apply bind_not_Panic; [done|]. intros r Hr'. apply (Hf r Hr' (Hr r Hr')).
  - intros r (x & Hx & H)%bind_Ok. by apply (Hf x Hx (Hr x Hx)).
Qed.

Lemma safe_pure {A B} (off : B -> Z) (c : outcome PredicateError A) f a :
  within a -> c <> Panic -> (forall r, c = Ok r -> safe off (f r)) -> safe off (c ≫= f).
Proof. intros Ha Hc Hf. apply (safe_bind (fun _ => a)); [by split|]. intros r Hr _. by apply Hf. Qed.

Lemma safe_Ok {A} (off : A -> Z) r : within (off r) -> safe off (Ok r).
Proof. intros H. split; [done|]. by intros r' [= <-]. Qed.

Lemma safe_err {A} (off : A -> Z) k a : safe off (verr k a).
Proof. by split. Qed.

Lemma varint_safe a : within a -> safe snd (read_varint_at bytes a).
Proof.
  intros Ha. split.
  - unfold read_varint_at. apply bind_not_Panic; [by apply slice_from_not_Panic|]. intros t _. apply bind_not_Panic; [apply ok_or_not_Panic|].
    by intros [v u] _.
  - intros [v a'] H. destruct (tail_exists _ _ Ha) as [q Hq]. destruct (varint_inv _ _ _ _ _ Hq H) as (_ & _ & r & _ & Ht).
    by apply tail_bound in Ht.
Qed.

Lemma varint_nonneg a v a' : within a -> read_varint_at bytes a = Ok (v, a') -> 0 <= v.
Proof.
  intros Ha H. destruct (tail_exists _ _ Ha) as [q Hq]. destruct (varint_inv _ _ _ _ _ Hq H) as [Hu _]. unfold in_u in Hu. lia.
Qed.

Lemma byte_safe k a : within a -> safe (fun _ => a + 1) (byte_or bytes k a).
Proof.
  intros Ha. unfold byte_or. destruct (get bytes a) eqn:E; [|by split]. apply get_lt in E. ok_step. apply safe_Ok. lia.
Qed.

Lemma region_safe {B} (off : B -> Z) n a e f :
  within a -> 0 <= n ->
  (forall end_ x, slice (E:=PredicateError) bytes a end_ = Ok x -> within end_ -> safe off (f end_ x)) ->
  safe off (end_ ← ok_or e (region_end n a (len bytes)); x ← slice bytes a end_; f end_ x).
Proof.
  intros Ha Hn Hf. destruct (region_end n a (len bytes)) as [end_|] eqn:E; ok_step; [|by split].
  destruct (tail_exists _ _ Ha) as [q Hq]. destruct (region_end_inv _ _ _ _ _ Hq Hn E) as (x & r & _ & _ & _ & Hsl & Ht).
  rewrite Hsl. ok_step. apply Hf; [done|]. by apply tail_bound in Ht.
Qed.

Lemma any_span_safe spans L s e x :
  spans_hold bytes spans L -> slice (E:=PredicateError) bytes s e = Ok x -> any_span bytes spans s e <> Panic.
Proof. intros H Hs. by rewrite (any_span_eq _ _ _ _ _ _ H Hs). Qed.

Lemma from_bytes_path program q : PathProgram.from_bytes program = Ok q -> q = program /\ PathProgram.is_legacy (E:=PredicateError) q <> Panic.
Proof.
  unfold PathProgram.from_bytes. intros ([] & Hv & [= <-])%bind_Ok. split; [done|].
  unfold PathProgram.validate in Hv. destruct (Z.ltb_spec (len program) 3); [done|].
  unfold PathProgram.is_legacy, byte_at. destruct (get_in program 1) as [b ->]; [lia|]. done.
Qed.

Lemma paths_loop_safe n : forall a spans L,
  within a -> spans_hold bytes spans L -> safe snd (validate_paths_loop n bytes a spans).
Proof.
  induction n as [|n IH]; intros a spans L Ha Hs; cbn [validate_paths_loop]; [by apply safe_Ok|].
  apply (safe_bind snd); [by apply varint_safe|]. intros [size start] Hv Hstart. apply varint_nonneg in Hv; [|done].
  apply region_safe; [done..|]. intros end_ program Hsl Hend.
  destruct (PathProgram.from_bytes program) as [q|e|] eqn:Ep; [|apply safe_err|].
  2:{ unfold PathProgram.from_bytes in Ep. pose proof (PathProgram.validate_not_Panic program). by destruct (PathProgram.validate program). }
  destruct (from_bytes_path _ _ Ep) as [-> Hleg]. apply (safe_pure _ _ _ _ Ha Hleg). intros [] _; [apply safe_err|].
  apply (safe_pure _ _ _ _ Ha (any_span_safe _ _ _ _ _ Hs Hsl)). intros [] _; [apply safe_err|].
  by eapply IH, (spans_hold_snoc _ _ _ _ _ _ Hs Hsl).
Qed.

Lemma paths_safe a : within a -> safe snd (validate_paths bytes a).
Proof.
  intros Ha. apply (safe_bind snd); [by apply varint_safe|]. intros [count at_] _ Hat. destruct (_ <? _); [apply safe_err|].
  apply (paths_loop_safe _ _ _ []); [done|constructor].
Qed.

Lemma constant_safe a : within a -> safe snd (validate_constant bytes a).
Proof.
  intros Ha. unfold validate_constant. apply (safe_bind (fun _ => a + 1)); [by apply byte_safe|]. intros tag _ Ha1.
  destruct (_ =? _). { apply (safe_bind snd); [by apply varint_safe|]. intros [v at_] _ H. by apply safe_Ok. }
  destruct (_ =? _). { apply region_safe; [done..|]. intros end_ x _ H. destruct (_ || _); [apply safe_err|]. by apply safe_Ok. }
  destruct (_ =? _).
  { apply (safe_bind (fun _ => a + 1 + 1)); [by apply byte_safe|]. intros b _ H. destruct (_ <? _); [apply safe_err|]. by apply safe_Ok. }
  destruct (_ =? _); [|apply safe_err]. apply (safe_bind snd); [by apply varint_safe|]. intros [size start] Hv Hs.
  apply varint_nonneg in Hv; [|done]. apply region_safe; [done..|]. intros end_ x _ H.
  destruct (negb _); [apply safe_err|]. by apply safe_Ok.
Qed.

Lemma constants_loop_safe n : forall a consts L,
  within a -> spans_hold bytes consts.*1 L -> safe snd (validate_constants_loop n bytes a consts).
Proof.
  induction n as [|n IH]; intros a consts L Ha Hs; cbn [validate_constants_loop]; [by apply safe_Ok|].
  apply (safe_bind snd); [by apply constant_safe|]. intros [fam a'] Hc Ha'. destruct (tail_exists _ _ Ha) as [q Hq].
  destruct (validate_constant_inv _ _ _ _ _ Hq Hc) as (c & r & _ & -> & _ & -> & _).
  pose proof (tail_slice (E:=PredicateError) _ _ _ _ _ Hq eq_refl) as Hsl.
  apply (safe_pure _ _ _ _ Ha (any_span_safe _ _ _ _ _ Hs Hsl)). intros [] _; [apply safe_err|].
  eapply IH; [done|]. rewrite fmap_app. by apply (spans_hold_snoc _ _ _ _ _ _ Hs Hsl).
Qed.

Lemma constants_safe a : within a -> safe snd (validate_constants bytes a).
Proof.
  intros Ha. apply (safe_bind snd); [by apply varint_safe|]. intros [count at_] _ Hat. destruct (_ <? _); [apply safe_err|].
  apply (constants_loop_safe _ _ _ []); [done|constructor].
Qed.

Section exprs_safe.
Context (n : Z) (fams : list ConstFamily).

Lemma pool_ref_safe a k next : within a -> safe (fun '(_, a, _) => a) (read_pool_ref bytes a k next).
Proof.
  intros Ha. apply (safe_bind snd); [by apply varint_safe|]. intros [id at_] _ H. destruct (negb _); [apply safe_err|].
  destruct (_ <? _); [apply safe_err|]. by apply safe_Ok.
Qed.

Lemma path_ref_safe check a : within a -> safe fst (path_ref bytes n check a).
Proof.
  intros Ha. eapply safe_bind; [by apply pool_ref_safe|]. intros [[id at_] next] _ H. by apply safe_Ok.
Qed.

Lemma constant_ref_safe check a : within a -> safe (fun '(_, _, a, _) => a) (constant_ref bytes fams check a).
Proof.
  intros Ha. eapply safe_bind; [by apply pool_ref_safe|]. intros [[id at_] next] Hid H.
  apply bind_Ok in Hid as ([v a'] & Hv%varint_nonneg & Hid); [|done].
  destruct (Z.ltb_spec v (len fams)); [|done]. cbn [negb] in Hid. destruct (_ <? _) in Hid; [done|]. injection Hid as -> _ _.
  destruct (get_in fams id) as [fam ->]; [lia|]. ok_step. by apply safe_Ok.
Qed.

Lemma members_safe k first : forall check a, within a -> safe fst (validate_members bytes fams k first check a).
Proof.
  induction k as [|k IH]; intros check a Ha; cbn [validate_members]; [by apply safe_Ok|].
  eapply safe_bind; [by apply constant_ref_safe|]. intros [[[fam off] at_] check'] _ H.
  destruct (negb _); [apply safe_err|]. by apply IH.
Qed.

Lemma leaf_safe op oa a check : within a -> safe fst (validate_leaf bytes n fams op oa a check).
Proof.
  intros Ha. unfold validate_leaf.
  destruct (_ && _); [|destruct (_ =? _); [|destruct (_ =? _); [|destruct (_ =? _); [|destruct (_ =? _); [by apply path_ref_safe|apply safe_err]]]]];
    (eapply safe_bind; [by apply path_ref_safe|]; intros [a1 check1] _ H1; cbn [fst] in H1).
  - eapply safe_bind; [by apply constant_ref_safe|]. intros [[[? ?] ?] ?] _ ?. by apply safe_Ok.
  - eapply safe_bind; [by apply constant_ref_safe|]. intros [[[? ?] ?] ?] _ ?.
    eapply safe_bind; [by apply constant_ref_safe|]. intros [[[? ?] ?] ?] _ ?. destruct (negb _); [apply safe_err|by apply safe_Ok].
  - eapply safe_bind; [by apply constant_ref_safe|]. intros [[[? ?] ?] ?] _ ?. destruct (negb _); [apply safe_err|by apply safe_Ok].
  - eapply safe_bind; [by apply byte_safe|]. intros k _ H2. destruct (_ || _); [apply safe_err|].
    eapply safe_bind; [by apply constant_ref_safe|]. intros [[[? ?] ?] ?] _ ?. by apply members_safe.
Qed.

(** The op limit is met before the rounds run out. *)
Lemma ops_safe fuel : forall stack a k check,
  within a -> 0 <= k <= OPS_MAX -> OPS_MAX - k < Z.of_nat fuel -> safe fst (validate_ops bytes n fams fuel stack a k check).
Proof.
  induction fuel as [|fuel IH]; intros stack a k check Ha Hk Hf; [lia|].
  destruct stack as [|top s]; cbn [validate_ops]; [by apply safe_Ok|].
  destruct (_ <? _); [apply safe_err|]. destruct (Z.ltb_spec OPS_MAX (k + 1)); [apply safe_err|].
  eapply safe_bind; [by apply byte_safe|]. intros op _ H1. destruct (_ || _).
  { eapply safe_bind; [by apply byte_safe|]. intros m _ H2. destruct (_ || _); [apply safe_err|]. apply IH; [done|lia..]. }
  destruct (_ =? _); [apply IH; [done|lia..]|].
  eapply safe_bind; [by apply leaf_safe|]. intros [a' check'] _ H2. apply IH; [done|lia..].
Qed.
End exprs_safe.

Lemma validate_total : validate bytes <> Panic.
Proof.
  unfold validate. destruct (Z.ltb_spec (len bytes) 2); [done|]. destruct (_ <=? _); [done|]. unfold byte_at.
  destruct (get_in bytes 0) as [v ->]; [lia|]. ok_step. destruct (negb _); [done|].
  destruct (get_in bytes 1) as [f ->]; [lia|]. ok_step. destruct (negb _); [done|].
  assert (within 2) as H2 by lia. destruct (paths_safe _ H2) as [HP HPr]. apply bind_not_Panic; [done|]. intros [spans a1] E1%HPr.
  destruct (constants_safe _ E1) as [HC HCr]. apply bind_not_Panic; [done|]. intros [consts a2] E2%HCr.
  apply bind_not_Panic; [apply ops_safe; [done|unfold OPS_MAX; lia..]|]. intros [a3 check] _.
  destruct (negb _); [done|]. by destruct (_ || _).
Qed.
End safe.

(** ** Encoding never panics over path programs *)

Definition paths_wf (p : Predicate) : Prop := Forall wf_path (path_refs p).

Lemma emit_path_safe pools expr path : wf_path path -> emit_path pools expr path <> Panic.
Proof.
  intros [_ Hl]. apply (is_legacy_any (E' := PredicateBuildError)) in Hl. unfold emit_path, path_id. rewrite Hl. ok_step.
  destruct (position _ _); [done|]. by destruct (_ =? _).
Qed.

Lemma constant_id_safe pools encoded : constant_id pools encoded <> Panic.
Proof. unfold constant_id. destruct (position _ _); [done|]. by destruct (_ =? _). Qed.

Lemma emit_constant_safe pools expr c : emit_constant pools expr c <> Panic.
Proof.
  unfold emit_constant. apply bind_not_Panic; [destruct c; try done; cbn; by destruct (negb _)|]. intros encoded _.
  apply bind_not_Panic; [apply constant_id_safe|]. by intros [? ?] _.
Qed.

Lemma emit_constants_safe l : forall pools expr, emit_constants pools expr l <> Panic.
Proof.
  induction l as [|c l IH]; intros pools expr; cbn [emit_constants]; [done|].
  apply bind_not_Panic; [apply emit_constant_safe|]. intros [? ?] _. apply IH.
Qed.

Lemma encode_leaf_safe p pools expr : is_leaf p = true -> paths_wf p -> encode_leaf p pools expr <> Panic.
Proof.
  intros Hleaf Hw. unfold paths_wf in Hw.
  destruct p as [l|l|p|op path c|path lo hi|path prefix|path members|path]; try done; cbn [path_refs encode_leaf] in *;
    rewrite Forall_cons_iff in Hw; destruct Hw as [Hw _].
  - apply bind_not_Panic; [by apply emit_path_safe|]. intros [? ?] _. apply emit_constant_safe.
  - destruct (negb _); [done|]. apply bind_not_Panic; [by apply emit_path_safe|]. intros [? ?] _.
    apply bind_not_Panic; [apply emit_constant_safe|]. intros [? ?] _. apply emit_constant_safe.
  - apply bind_not_Panic; [by apply emit_path_safe|]. intros [? ?] _.
    apply bind_not_Panic; [apply constant_id_safe|]. by intros [? ?] _.
  - destruct members as [|m0 l]; [done|]. destruct (negb _); [done|]. destruct (existsb _ _); [done|].
    apply bind_not_Panic; [by apply emit_path_safe|]. intros [? ?] _. apply emit_constants_safe.
  - by apply emit_path_safe.
Qed.

Lemma encode_tree_safe p : forall d pools expr n, paths_wf p -> encode_tree p d pools expr n <> Panic.
Proof.
  assert (forall l, Forall (fun p => forall d pools expr n, paths_wf p -> encode_tree p d pools expr n <> Panic) l ->
    Forall paths_wf l -> forall d pools expr n, encode_all (at_depth d l) pools expr n <> Panic) as Hl.
  { induction 1 as [|x l Hx _ IH]; intros Hw d pools expr n; [done|]. apply Forall_cons_iff in Hw as [Hw1 Hw].
    unfold encode_all. cbn [at_depth map encode_list]. apply bind_not_Panic; [by apply Hx|]. intros [[? ?] ?] _. by apply IH. }
  induction p as [l Hi|l Hi|p IH|op path c|path lo hi|path prefix|path members|path] using predicate_ind';
    intros d pools expr n Hw; rewrite encode_tree_eq; (destruct (_ <? d); [done|]); (destruct (_ <? _); [done|]);
    try (apply bind_not_Panic; [by apply encode_leaf_safe|]; by intros [? ?] _).
  - destruct (negb _); [done|]. apply Hl; [done|]. by apply Forall_concat_elem.
  - destruct (negb _); [done|]. apply Hl; [done|]. by apply Forall_concat_elem.
  - by apply IH.
Qed.

Lemma encode_safe p : paths_wf p -> encode p <> Panic.
Proof.
  intros Hw. unfold encode. rewrite encode_work_eq by (unfold OPS_MAX; lia). unfold encode_all. cbn [encode_list].
  destruct (encode_tree p 1 Pools_default [] 0) as [[[pools expr] n]|e|] eqn:E; ok_step; [|done|by apply encode_tree_safe in E].
  unfold assemble. by destruct (_ <=? _).
Qed.

(** C17. Predicate programs are canonical: over path programs and constants in
    range the builder refuses or emits a program and never panics, and what it
    emits validates and decodes to the tree with [-0.0] as [0.0]; every byte
    string the validator accepts is the program of the tree it decodes to, so
    two programs that decode to the same tree are equal; and no byte string
    makes the validator panic. *)
Theorem predicate_programs_canonical :
  (forall p, operands_wf p -> encode p <> Panic) /\
  (forall p b, operands_wf p -> encode p = Ok b -> from_bytes b = Ok b /\ decode (E:=PredicateError) b = Ok (norm p)) /\
  (forall b, from_bytes b = Ok b ->
     exists p, operands_wf p /\ norm p = p /\ decode (E:=PredicateError) b = Ok p /\ encode p = Ok b) /\
  (forall b, from_bytes b <> Panic).
Proof.
  unfold from_bytes. split_and!.
  - intros p [Hw _]. by apply encode_safe.
  - intros p b Hw [He ->]%encode_iff. by rewrite validate_image, decode_image.
  - intros b ([] & Hv & _)%bind_Ok. apply validate_only in Hv as (p & -> & He & Hw & Hs).
    exists p. rewrite decode_image, norm_stored, encode_iff by done. done.
  - intros b. apply bind_not_Panic; [apply validate_total|done].
Qed.
