(* ===== verification/PredicateVm.v ===== *)
(** * PredicateVm: the predicate machine

    [inf-query/src/predicate/vm.rs]. A validated program is decoded into its
    pools once ([new]); [eval] walks the op tape with a stack of open connectives,
    streams the values of each leaf's path through [PathEval.eval_visit], and
    meters fuel: one unit per op decoded, evaluated or skipped, one per document
    node the walks visit, one per [IN] member tested. A settled connective decodes
    past its remaining operands.

    Debug assertions and index bounds are panics of the model. [gas] bounds the
    rounds of the path walks; the rounds of the op loop are bounded by the bytes
    of the program, since every op takes one. *)

From S2P Require Import Prelude Tail F64 ByteOrder Utf8 IndexKey Doc Predicate PathProgram PathEval PredicateProgram.
Import PathEval PredicateProgram.

Module PredicateVm.

Record EvalFlags := { missing : bool; type_mismatch : bool }.
Definition EvalFlags_default : EvalFlags := {| missing := false; type_mismatch := false |}.
Definition set_mismatch (f : EvalFlags) : EvalFlags := {| missing := missing f; type_mismatch := true |}.
Definition set_missing (f : EvalFlags) : EvalFlags := {| missing := true; type_mismatch := type_mismatch f |}.

Record EvalOutcome := { verdict : bool; flags : EvalFlags; fuel_used : Z }.

Inductive PredicateEvalError := FuelExhausted.
Notation result := (outcome PredicateEvalError).

Record PredicateVm := { program : list byte; vm_paths : list (list byte); vm_constants : list Constant; expr_at : Z }.

(** ** Fuel *)

Record Fuel := { used : Z; budget : Z }.

Definition charge (f : Fuel) (units : Z) : result Fuel :=
  match checked_add 64 (used f) units with
  | Some next => if next <=? budget f then Ok {| used := next; budget := budget f |} else Err FuelExhausted
  | None => Err FuelExhausted
  end.

(** [self.budget - self.used]. *)
Definition remaining (f : Fuel) : result Z := expect (checked_sub (budget f) (used f)).

Inductive Pending := OpenAnd (n : Z) | OpenOr (n : Z) | OpenNot.

Definition new {E} (program : list byte) : outcome E PredicateVm :=
  '(paths, at_) ← decode_paths program 2;
  '(constants, at_) ← decode_constants program at_;
  _ ← rassert (at_ <? len program);
  _ ← rassert (at_ <? 2 ^ 32);
  Ok {| program := program; vm_paths := paths; vm_constants := constants; expr_at := at_ |}.

(** ** Leaves *)

(** A test of one value, with the fuel and flags it leaves behind. *)
Definition Test := Value -> Fuel -> EvalFlags -> result bool * Fuel * EvalFlags.

(** What the visitor of a leaf carries; [failed] holds the error of a test, or
    its panic. *)
Record LeafState := { any_match : bool; satisfied : bool; failed : result unit; lfuel : Fuel; lflags : EvalFlags }.

Definition leaf_visit (test : Test) (s : LeafState) (v : Value) : LeafState * bool :=
  let '(r, f, fl) := test v (lfuel s) (lflags s) in
  match r with
  | Ok true => ({| any_match := true; satisfied := true; failed := failed s; lfuel := f; lflags := fl |}, false)
  | Ok false => ({| any_match := true; satisfied := satisfied s; failed := failed s; lfuel := f; lflags := fl |}, false)
  | Err e => ({| any_match := true; satisfied := satisfied s; failed := Err e; lfuel := f; lflags := fl |}, true)
  | Panic => ({| any_match := true; satisfied := satisfied s; failed := Panic; lfuel := f; lflags := fl |}, true)
  end.

Section machine.
Context (gas : nat) (vm : PredicateVm) (root : Value).
Notation bytes := (program vm).

Definition leaf (path : Z) (f : Fuel) (fl : EvalFlags) (test : Test) : result (bool * Fuel * EvalFlags) :=
  budget_nodes ← remaining f;
  p ← expect (get (vm_paths vm) path);
  '(outcome, s) ← eval_visit (leaf_visit test) gas p root budget_nodes
    {| any_match := false; satisfied := false; failed := Ok tt; lfuel := f; lflags := fl |};
  if failed s is Panic then Panic
  else
    f ← charge (lfuel s) (nodes_visited outcome);
    _ ← failed s;
    if bool_decide (vend outcome = Exhausted) then Err FuelExhausted
    else Ok (satisfied s, f, if any_match s then lflags s else set_missing (lflags s)).

Definition exists_ (path : Z) (f : Fuel) : result (bool * Fuel) :=
  p ← expect (get (vm_paths vm) path);
  budget_nodes ← remaining f;
  '(outcome, found) ← eval_visit (fun _ _ => (true, true)) gas p root budget_nodes false;
  f ← charge f (nodes_visited outcome);
  if bool_decide (vend outcome = Exhausted) then Err FuelExhausted else Ok (found, f).

(** [members.iter()] from [at_] with [n] left. *)
Fixpoint in_test (n : nat) (at_ : Z) (v : Value) (f : Fuel) (fl : EvalFlags) : result bool * Fuel * EvalFlags :=
  match n with
  | O => (Ok false, f, fl)
  | S n =>
      match trusted_ref (E:=PredicateEvalError) bytes at_ with
      | Ok (member, at_) =>
          match charge f 1 with
          | Ok f =>
              match get (vm_constants vm) member with
              | None => (Panic, f, fl)
              | Some c =>
                  match relation v c with
                  | Some Eq => (Ok true, f, fl)
                  | Some _ => in_test n at_ v f fl
                  | None => (Ok false, f, set_mismatch fl)
                  end
              end
          | Err e => (Err e, f, fl)
          | Panic => (Panic, f, fl)
          end
      | Err e => (Err e, f, fl)
      | Panic => (Panic, f, fl)
      end
  end.

Definition eval_leaf (op : Op) (f : Fuel) (fl : EvalFlags) : result (bool * Fuel * EvalFlags) :=
  match op with
  | OCmp op path constant =>
      c ← expect (get (vm_constants vm) constant);
      leaf path f fl (fun v f fl =>
        match relation v c with
        | Some ordering => (Ok (cmp_matches op ordering), f, fl)
        | None => (Ok false, f, set_mismatch fl)
        end)
  | OBetween path lo hi =>
      lo ← expect (get (vm_constants vm) lo);
      hi ← expect (get (vm_constants vm) hi);
      leaf path f fl (fun v f fl =>
        match relation v lo, relation v hi with
        | Some versus_lo, Some versus_hi =>
            (Ok (negb (bool_decide (versus_lo = Lt)) && negb (bool_decide (versus_hi = Gt))), f, fl)
        | _, _ => (Ok false, f, set_mismatch fl)
        end)
  | OBeginsWith path prefix =>
      c ← expect (get (vm_constants vm) prefix);
      match c with
      | KUtf8 prefix =>
          leaf path f fl (fun v f fl =>
            match v with
            | VStr s => (Ok (starts_with s prefix), f, fl)
            | _ => (Ok false, f, set_mismatch fl)
            end)
      | _ => Panic
      end
  | OIn path members_at count => leaf path f fl (in_test (Z.to_nat count) members_at)
  | OExists path => '(found, f) ← exists_ path f; Ok (found, f, fl)
  | OAnd _ | OOr _ | ONot => Panic
  end.

(** ** Connectives *)

Fixpoint skip_loop (rounds : nat) (pc open_operands : Z) (f : Fuel) : result (Z * Fuel) :=
  if open_operands <=? 0 then Ok (pc, f)
  else match rounds with
  | O => Panic
  | S rounds =>
      f ← charge f 1;
      '(op, pc) ← read_op bytes pc;
      let open_operands := open_operands - 1 in
      match op with
      | OAnd arity | OOr arity => skip_loop rounds pc (open_operands + arity) f
      | ONot => skip_loop rounds pc (open_operands + 1) f
      | _ => skip_loop rounds pc open_operands f
      end
  end.
Definition skip_operands (pc count : Z) (f : Fuel) : result (Z * Fuel) := skip_loop (length bytes) pc count f.

(** The stack has its top first. [inl]: the root completed; [inr]: go on at the
    next operand. *)
Fixpoint fold (v : bool) (pc : Z) (stack : list Pending) (f : Fuel)
    : result (bool * Z * Fuel + Z * list Pending * Fuel) :=
  match stack with
  | [] => Ok (inl (v, pc, f))
  | OpenNot :: stack => fold (negb v) pc stack f
  | OpenAnd n :: stack =>
      if negb v then '(pc, f) ← skip_operands pc (n - 1) f; fold v pc stack f
      else if n =? 1 then fold v pc stack f
      else Ok (inr (pc, OpenAnd (n - 1) :: stack, f))
  | OpenOr n :: stack =>
      if v then '(pc, f) ← skip_operands pc (n - 1) f; fold v pc stack f
      else if n =? 1 then fold v pc stack f
      else Ok (inr (pc, OpenOr (n - 1) :: stack, f))
  end.

(** [stack[depth] = p; depth += 1] in the fixed array. *)
Definition push (p : Pending) (stack : list Pending) : result (list Pending) :=
  if len stack <? NESTING_DEPTH_MAX then Ok (p :: stack) else Panic.

Fixpoint eval_loop (rounds : nat) (pc : Z) (stack : list Pending) (f : Fuel) (fl : EvalFlags) : result EvalOutcome :=
  match rounds with
  | O => Panic
  | S rounds =>
      f ← charge f 1;
      '(op, pc) ← read_op bytes pc;
      match op with
      | OAnd arity => stack ← push (OpenAnd arity) stack; eval_loop rounds pc stack f fl
      | OOr arity => stack ← push (OpenOr arity) stack; eval_loop rounds pc stack f fl
      | ONot => stack ← push OpenNot stack; eval_loop rounds pc stack f fl
      | leaf =>
          '(v, f, fl) ← eval_leaf leaf f fl;
          r ← fold v pc stack f;
          match r with
          | inl (v, pc, f) =>
              _ ← rassert (pc =? len bytes);
              Ok {| verdict := v; flags := fl; fuel_used := used f |}
          | inr (pc, stack, f) => eval_loop rounds pc stack f fl
          end
      end
  end.

Definition eval (fuel_budget : Z) : result EvalOutcome :=
  eval_loop (length bytes) (expr_at vm) [] {| used := 0; budget := fuel_budget |} EvalFlags_default.
End machine.

End PredicateVm.
