(* ===== verification/PredicateVmSpec.v ===== *)
(** * PredicateVmSpec: the predicate machine computes the meaning of the tree

    Over the events of a path walk ([PathEvalSpec]) a predicate tree has a
    verdict ([Predicate.verdict]), anomaly flags ([flags_of]) and a price
    ([cost]): one unit per op, evaluated or skipped, one per node a walk visits,
    one per [IN] member tested. The machine, run on the bytes of the tree, returns
    the three exactly when its budget covers the price, refuses otherwise, and
    never panics. *)

From S2P Require Import Prelude Tail Varint F64 ByteOrder Utf8 IndexKey Doc Predicate.
From S2P Require Import PathProgram PathEval PathEvalSpec PredicateProgram PredicateProgramSpec PredicateCanonical PredicateVm.
Import PredicateProgram PredicateVm.

(** ** Meaning *)

(** Whether a value satisfies a leaf, whether it is of the wrong type for it, and
    how many members it was tested against. *)
Record Judgement := { satisfies : bool; mismatched : bool; tested : Z }.
Notation judge := (Value -> Judgement).

Definition plain (b : bool) : Judgement := {| satisfies := b; mismatched := false; tested := 0 |}.
Definition wrong_type : Judgement := {| satisfies := false; mismatched := true; tested := 0 |}.

(** Members in order, up to the first equal or incomparable one. *)
Fixpoint judge_members (members : list Constant) (v : Value) : Judgement :=
  match members with
  | [] => plain false
  | c :: members =>
      match relation v c with
      | Some Eq => {| satisfies := true; mismatched := false; tested := 1 |}
      | Some _ => let j := judge_members members v in
          {| satisfies := satisfies j; mismatched := mismatched j; tested := 1 + tested j |}
      | None => {| satisfies := false; mismatched := true; tested := 1 |}
      end
  end.

Definition judge_cmp (op : CmpOp) (c : Constant) (v : Value) : Judgement :=
  match relation v c with Some o => plain (cmp_matches op o) | None => wrong_type end.
Definition judge_between (lo hi : Constant) (v : Value) : Judgement :=
  match relation v lo, relation v hi with Some _, Some _ => plain (between_test lo hi v) | _, _ => wrong_type end.
Definition judge_prefix (prefix : list byte) (v : Value) : Judgement :=
  match v with VStr s => plain (starts_with s prefix) | _ => wrong_type end.

(** Flags accumulate. *)
Definition join (a b : EvalFlags) : EvalFlags :=
  {| missing := missing a || missing b; type_mismatch := type_mismatch a || type_mismatch b |}.

Definition event_values (evs : list event) : list Value := omap (fun e => snd <$> e) evs.

(** Events up to the first match. *)
Fixpoint to_match (evs : list event) : Z :=
  match evs with [] => 0 | Some _ :: _ => 1 | None :: evs => 1 + to_match evs end.

Section meaning.
Context (root : Value).

(** The walk of a path program over the document; its first event, at the root,
    is free. *)
Definition trace_of (path : list byte) : list event :=
  match PathProgram.decode (E:=PathProgram.PathError) path with
  | Ok ast => arrive (PathProgram.segments ast) root []
  | _ => []
  end.
Definition values (path : list byte) : list Value := event_values (trace_of path).
Definition walk_nodes (path : list byte) : Z := len (tail (trace_of path)).
Definition match_nodes (path : list byte) : Z :=
  match trace_of path with Some _ :: _ => 0 | evs => to_match (tail evs) end.

Definition tested_all (j : judge) (vs : list Value) : Z := foldr (fun v n => tested (j v) + n) 0 vs.
Definition leaf_flags (j : judge) (vs : list Value) : EvalFlags :=
  {| missing := bool_decide (vs = []); type_mismatch := existsb (fun v => mismatched (j v)) vs |}.

Definition leaf_cost (j : judge) (path : list byte) : Z := walk_nodes path + tested_all j (values path).

(** The path and the test of a comparison leaf. *)
Definition comparison_of (p : Predicate) : option (list byte * judge) :=
  match p with
  | PCmp op path c => Some (path, judge_cmp op c)
  | PBetween path lo hi => Some (path, judge_between lo hi)
  | PBeginsWith path prefix => Some (path, judge_prefix prefix)
  | PIn path members => Some (path, judge_members members)
  | _ => None
  end.

Notation holds := (Predicate.verdict values).

Fixpoint cost (p : Predicate) : Z :=
  1 +
  match p with
  | PAnd l =>
      (fix go l := match l with [] => 0 | p :: l => cost p + (if holds p then go l else all_ops l) end) l
  | POr l =>
      (fix go l := match l with [] => 0 | p :: l => cost p + (if holds p then all_ops l else go l) end) l
  | PNot p => cost p
  | PExists path => match_nodes path
  | leaf => match comparison_of leaf with Some (path, j) => leaf_cost j path | None => 0 end
  end.

Fixpoint flags_of (p : Predicate) : EvalFlags :=
  match p with
  | PAnd l =>
      (fix go l := match l with [] => EvalFlags_default
        | p :: l => join (flags_of p) (if holds p then go l else EvalFlags_default) end) l
  | POr l =>
      (fix go l := match l with [] => EvalFlags_default
        | p :: l => join (flags_of p) (if holds p then EvalFlags_default else go l) end) l
  | PNot p => flags_of p
  | PExists _ => EvalFlags_default
  | leaf => match comparison_of leaf with Some (path, j) => leaf_flags j (values path) | None => EvalFlags_default end
  end.

(** Operands of a settling connective: [stop] is the verdict that settles it. *)
Fixpoint run_cost (stop : bool) (l : list Predicate) : Z :=
  match l with [] => 0 | p :: l => cost p + (if eqb (holds p) stop then all_ops l else run_cost stop l) end.
Fixpoint run_flags (stop : bool) (l : list Predicate) : EvalFlags :=
  match l with
  | [] => EvalFlags_default
  | p :: l => join (flags_of p) (if eqb (holds p) stop then EvalFlags_default else run_flags stop l)
  end.
Fixpoint run_holds (stop : bool) (l : list Predicate) : bool :=
  match l with [] => negb stop | p :: l => if eqb (holds p) stop then stop else run_holds stop l end.

Lemma cost_and l : cost (PAnd l) = 1 + run_cost false l.
Proof. cbn [cost]. f_equal. induction l as [|p l IH]; [done|]. cbn [run_cost]. rewrite IH. by destruct (holds p). Qed.
Lemma cost_or l : cost (POr l) = 1 + run_cost true l.
Proof. cbn [cost]. f_equal. induction l as [|p l IH]; [done|]. cbn [run_cost]. rewrite IH. by destruct (holds p). Qed.
Lemma flags_and l : flags_of (PAnd l) = run_flags false l.
Proof. cbn [flags_of]. induction l as [|p l IH]; [done|]. cbn [run_flags]. rewrite IH. by destruct (holds p). Qed.
Lemma flags_or l : flags_of (POr l) = run_flags true l.
Proof. cbn [flags_of]. induction l as [|p l IH]; [done|]. cbn [run_flags]. rewrite IH. by destruct (holds p). Qed.
Lemma holds_and l : holds (PAnd l) = run_holds false l.
Proof. cbn [Predicate.verdict]. induction l as [|p l IH]; [done|]. cbn [run_holds forallb]. rewrite IH. by destruct (holds p). Qed.
Lemma holds_or l : holds (POr l) = run_holds true l.
Proof. cbn [Predicate.verdict]. induction l as [|p l IH]; [done|]. cbn [run_holds existsb]. rewrite IH. by destruct (holds p). Qed.
End meaning.

(** ** Judgements and tests *)

Lemma tested_nonneg_members l v : 0 <= tested (judge_members l v).
Proof.
  induction l as [|c l IH]; cbn [judge_members]; [cbn; lia|]. destruct (relation v c) as [[]|]; cbn [tested]; lia.
Qed.

Lemma join_default a : join a EvalFlags_default = a.
Proof. destruct a. unfold join. cbn. by rewrite !orb_false_r. Qed.
Lemma join_default_l a : join EvalFlags_default a = a.
Proof. by destruct a. Qed.
Lemma join_assoc a b c : join (join a b) c = join a (join b c).
Proof. unfold join. cbn. by rewrite !orb_assoc. Qed.

Section fuel.
Context (B : Z) (HB : in_u 64 B).
Definition fuel_at (u : Z) : Fuel := {| used := u; budget := B |}.
Notation at_used := fuel_at.

Lemma charge_eq u k :
  0 <= u -> 0 <= k -> charge (at_used u) k = if u + k <=? B then Ok (at_used (u + k)) else Err FuelExhausted.
Proof.
  intros. unfold charge, fuel_at, checked_add, in_u in *. cbn [used budget].
  destruct (Z.ltb_spec (u + k) (2 ^ 64)); [done|]. by rewrite (proj2 (Z.leb_gt _ _)) by lia.
Qed.

Lemma remaining_eq u : u <= B -> remaining (at_used u) = Ok (B - u).
Proof. intros. unfold remaining, checked_sub, fuel_at. cbn [used budget]. by rewrite (proj2 (Z.leb_le _ _)). Qed.

(** A test that pays for its members and judges as [j] says, or runs out. *)
Definition performs (test : Test) (j : judge) : Prop := forall v u fl,
  0 <= u <= B -> 0 <= tested (j v) /\
  if u + tested (j v) <=? B
  then test v (at_used u) fl =
    (Ok (satisfies (j v)), at_used (u + tested (j v)), if mismatched (j v) then set_mismatch fl else fl)
  else exists u' fl', 0 <= u' <= B /\ test v (at_used u) fl = (Err FuelExhausted, at_used u', fl').

(** The visitor's state after the values [vs]. *)
Definition seen (j : judge) (vs : list Value) (s : LeafState) : LeafState :=
  {| any_match := any_match s || negb (bool_decide (vs = []));
     satisfied := satisfied s || existsb (fun v => satisfies (j v)) vs;
     failed := failed s;
     lfuel := at_used (used (lfuel s) + tested_all j vs);
     lflags := join (lflags s) {| missing := false; type_mismatch := existsb (fun v => mismatched (j v)) vs |} |}.

Definition live (s : LeafState) : Prop :=
  failed s = Ok tt /\ exists u, lfuel s = at_used u /\ 0 <= u <= B.

(** The walk could not be paid for. *)
Definition spent (r : PathEval.VisitOutcome * LeafState) : Prop :=
  (exists u, lfuel r.2 = at_used u /\ 0 <= u <= B) /\ 0 <= PathEval.nodes_visited r.1 /\
  (failed r.2 = Err FuelExhausted \/ failed r.2 = Ok tt /\ PathEval.vend r.1 = PathEval.Exhausted).

Context (test : Test) (j : judge) (Hj : performs test j).

Lemma tested_all_nonneg vs : 0 <= tested_all j vs.
Proof.
  induction vs as [|v vs IH]; cbn; [done|]. destruct (Hj v 0 EvalFlags_default) as [H _]; [unfold in_u in HB; lia|].
  unfold tested_all in IH. lia.
Qed.

Lemma seen_nil s : live s -> seen j [] s = s.
Proof.
  intros [_ (u & Hu & _)]. destruct s. unfold seen. cbn in *. subst. rewrite !orb_false_r, join_default, Z.add_0_r. done.
Qed.

Lemma visit_one s v :
  live s -> let u := used (lfuel s) in
  if u + tested (j v) <=? B
  then leaf_visit test s v = (seen j [v] s, false) /\ live (seen j [v] s)
  else exists s', leaf_visit test s v = (s', true) /\ failed s' = Err FuelExhausted /\ exists u', lfuel s' = at_used u' /\ 0 <= u' <= B.
Proof.
  intros [Hf (u & Hu & Hr)]. destruct s as [am sat fd lf fl]. cbn in Hf, Hu. subst. cbn [lfuel used fuel_at]. cbn zeta.
  destruct (Hj v u fl Hr) as [Hn Ht]. unfold leaf_visit. cbn [lfuel lflags].
  destruct (Z.leb_spec (u + tested (j v)) B).
  - rewrite Ht. unfold seen, live. cbn. unfold tested_all. cbn. rewrite Z.add_0_r, orb_true_r. split; [|split; [done|eexists; split; [done|lia]]].
    destruct (satisfies (j v)), (mismatched (j v)); unfold join, set_mismatch; destruct fl; cbn; by rewrite ?orb_true_r, ?orb_false_r.
  - destruct Ht as (u' & fl' & Hu' & ->). eexists. split; [done|]. split; [done|]. by exists u'.
Qed.

Lemma seen_cons v vs s : seen j vs (seen j [v] s) = seen j (v :: vs) s.
Proof.
  unfold seen. cbn. unfold tested_all. cbn. rewrite !orb_false_r, orb_true_r. cbn.
  f_equal; [by rewrite orb_assoc|f_equal; lia|by rewrite join_assoc].
Qed.

Lemma deliver_leaf evs : forall n visited s,
  live s -> 0 <= n -> 0 <= n + visited -> -1 <= visited ->
  let vs := event_values evs in
  if (len evs <=? n) && (used (lfuel s) + tested_all j vs <=? B)
  then deliver (leaf_visit test) evs n visited s =
    ({| PathEval.vend := PathEval.Complete; PathEval.nodes_visited := visited + len evs |}, seen j vs s)
  else spent (deliver (leaf_visit test) evs n visited s).
Proof.
  induction evs as [|e evs IH]; intros n visited s Hs Hn Hnv Hv; cbn zeta.
  - destruct Hs as [Hf (u & Hu & Hr)]. rewrite (proj2 (Z.leb_le _ _)) by (rewrite len_nil; lia). rewrite Hu. cbn [used fuel_at].
    cbn. rewrite (proj2 (Z.leb_le _ _)) by lia. rewrite seen_nil, Z.add_0_r by (split; eauto). done.
  - cbn [deliver]. destruct (Z.eqb_spec n 0) as [->|Hne].
    { rewrite (proj2 (Z.leb_gt _ _)) by lens. cbn. destruct Hs as [Hf Hl]. split; [done|]. split; [cbn; lia|]. right. done. }
    destruct e as [[path v]|].
    + change (event_values (Some (path, v) :: evs)) with (v :: event_values evs).
      change (tested_all j (v :: event_values evs)) with (tested (j v) + tested_all j (event_values evs)).
      pose proof (visit_one s v Hs) as H1. cbn zeta in H1. pose proof (tested_all_nonneg (event_values evs)).
      destruct (Z.leb_spec (used (lfuel s) + tested (j v)) B).
      * destruct H1 as [-> Hs']. specialize (IH (n - 1) (visited + 1) _ Hs' ltac:(lia) ltac:(lia) ltac:(lia)). cbn zeta in IH.
        rewrite seen_cons in IH. cbn [seen lfuel used fuel_at] in IH.
        replace (len (Some (path, v) :: evs) <=? n) with (len evs <=? n - 1) by (rewrite len_cons; lia).
        replace (used (lfuel s) + (tested (j v) + tested_all j (event_values evs)) <=? B)
          with (used (lfuel s) + tested_all j [v] + tested_all j (event_values evs) <=? B)
          by (f_equal; change (tested_all j [v]) with (tested (j v) + 0); lia).
        destruct (_ && _); [|done]. rewrite IH. do 2 f_equal. lens.
      * destruct H1 as (s' & -> & Hf & Hu). rewrite (proj2 (Z.leb_gt (used (lfuel s) + _) _)) by lia. rewrite andb_false_r.
        split; [done|]. split; [cbn; lia|]. by left.
    + change (event_values (None :: evs)) with (event_values evs).
      specialize (IH (n - 1) (visited + 1) _ Hs ltac:(lia) ltac:(lia) ltac:(lia)). cbn zeta in IH.
      replace (len (None :: evs) <=? n) with (len evs <=? n - 1) by (rewrite len_cons; lia).
      destruct (_ && _); [|done]. rewrite IH. do 2 f_equal. lens.
Qed.

(** The walk of a comparison leaf from the root. *)
Lemma deliver_root_leaf tr n s :
  live s -> 0 <= n -> tr <> [] ->
  let vs := event_values tr in
  if (len (tail tr) <=? n) && (used (lfuel s) + tested_all j vs <=? B)
  then deliver_root (leaf_visit test) tr n 0 s =
    ({| PathEval.vend := PathEval.Complete; PathEval.nodes_visited := len (tail tr) |}, seen j vs s)
  else spent (deliver_root (leaf_visit test) tr n 0 s).
Proof.
  intros Hs Hn Hne. destruct tr as [|e tr]; [done|]. cbn zeta. cbn [tail].
  pose proof (deliver_leaf (e :: tr) (n + 1) (-1) s Hs ltac:(lia) ltac:(lia) ltac:(lia)) as H. cbn zeta in H.
  rewrite deliver_eq, (proj2 (Z.eqb_neq (n + 1) 0)) in H by lia. replace (n + 1 - 1) with n in H by lia.
  change (-1 + 1) with 0 in H. replace (len (e :: tr) <=? n + 1) with (len tr <=? n) in H by (rewrite len_cons; lia).
  destruct (_ && _); [|done]. rewrite H. do 2 f_equal. lens.
Qed.
End fuel.

(** ** Leaves *)

Lemma path_ast x :
  wf_path x -> exists ast, PathProgram.wf_ast ast /\ x = PathProgram.program_bytes ast /\
    PathProgram.decode (E:=PathProgram.PathError) x = Ok ast.
Proof.
  unfold wf_path, PathProgram.from_bytes. intros [([] & Hv & _)%bind_Ok _]. apply PathProgram.validate_inv in Hv as (ast & Hw & -> & _).
  exists ast. split; [done|]. split; [done|]. by apply PathProgram.decode_program.
Qed.

Section leaves.
Context (gas : nat) (vm : PredicateVm) (root : Value) (B : Z) (HB : in_u 64 B) (Hsmall : small root = true).
Notation at_used := (fuel_at B).

(** A path of the pool, with a walk that ends within [gas]. *)
Definition walks (x : list byte) : Prop := wf_path x /\ (2 * length (trace_of root x) < gas)%nat.

Lemma trace_nonempty x : wf_path x -> trace_of root x <> [].
Proof. intros (ast & _ & _ & E)%path_ast. unfold trace_of. rewrite E. by destruct (PathProgram.segments ast). Qed.

Lemma visit_trace {A} (on_match : A -> Value -> A * bool) x n s :
  walks x -> PathEval.eval_visit (E:=PredicateEvalError) on_match gas x root n s = Ok (deliver_root on_match (trace_of root x) n 0 s).
Proof.
  intros [(ast & Hw & -> & E)%path_ast Hg]. unfold trace_of in *. rewrite E in *. by apply eval_visit_rem.
Qed.

Lemma leaf_exact path x test j u fl :
  get (vm_paths vm) path = Some x -> walks x -> performs B test j -> 0 <= u <= B ->
  leaf gas vm root path (at_used u) fl test =
  if u + leaf_cost root j x <=? B
  then Ok (existsb (fun v => satisfies (j v)) (values root x), at_used (u + leaf_cost root j x), join fl (leaf_flags j (values root x)))
  else Err FuelExhausted.
Proof.
  intros Hx Hw Hj Hu. unfold leaf. rewrite remaining_eq by lia. ok_step. rewrite Hx. ok_step. rewrite visit_trace by done. ok_step.
  set (s0 := {| any_match := _ |}). assert (live B s0) as Hs by (split; [done|]; by exists u).
  pose proof (deliver_root_leaf B HB test j Hj (trace_of root x) (B - u) s0 Hs ltac:(lia) (trace_nonempty _ (proj1 Hw))) as Hd.
  cbn zeta in Hd. fold (values root x) (walk_nodes root x) in Hd. pose proof (tested_all_nonneg B HB test j Hj (values root x)) as Ht.
  pose proof (len_nonneg (tail (trace_of root x))) as Hn. fold (walk_nodes root x) in Hn. cbn [s0 lfuel fuel_at used] in Hd. unfold leaf_cost.
  destruct (Z.leb_spec (walk_nodes root x) (B - u)), (Z.leb_spec (u + tested_all j (values root x)) B); cbn [andb] in Hd.
  2-4: rewrite (proj2 (Z.leb_gt _ _)) by lia; destruct (deliver_root _ _ _ _ _) as [out s];
    destruct Hd as ((u' & Eu & Hu') & Hv & Hf); cbn [fst snd] in *; rewrite Eu, (charge_eq _ HB) by lia;
    destruct Hf as [->|[-> Hf]]; cbn; [by destruct (_ <=? _)|]; destruct (_ <=? _); [|done]; ok_step; by rewrite bool_decide_true.
  rewrite Hd. cbn [seen failed s0 lfuel lflags any_match satisfied used fuel_at PathEval.nodes_visited PathEval.vend orb].
  rewrite (charge_eq _ HB) by lia. replace (u + tested_all j (values root x) + walk_nodes root x) with (u + (walk_nodes root x + tested_all j (values root x))) by lia.
  destruct (_ <=? _); [|done]. ok_step. rewrite bool_decide_false by done. do 2 f_equal. unfold leaf_flags, join, set_missing.
  destruct (bool_decide_reflect (values root x = [])) as [->|]; cbn; rewrite ?orb_false_r, ?orb_true_r; done.
Qed.

Definition some_match (evs : list event) : bool := match event_values evs with [] => false | _ => true end.

Lemma to_match_nonneg evs : 0 <= to_match evs.
Proof. induction evs as [|[?|] evs IH]; cbn [to_match]; lia. Qed.

Lemma deliver_first evs : forall n visited,
  0 <= n ->
  deliver (fun _ _ => (true, true)) evs n visited false =
  if to_match evs <=? n
  then ({| PathEval.vend := if some_match evs then PathEval.Stopped else PathEval.Complete;
           PathEval.nodes_visited := visited + to_match evs |}, some_match evs)
  else ({| PathEval.vend := PathEval.Exhausted; PathEval.nodes_visited := visited + n |}, false).
Proof.
  induction evs as [|e evs IH]; intros n visited Hn; cbn [deliver to_match].
  { rewrite (proj2 (Z.leb_le _ _)) by done. by rewrite Z.add_0_r. }
  destruct (Z.eqb_spec n 0) as [->|Hne].
  { pose proof (to_match_nonneg evs). rewrite (proj2 (Z.leb_gt _ _)) by (destruct e; lia). by rewrite Z.add_0_r. }
  destruct e as [[p v]|]; [by rewrite (proj2 (Z.leb_le _ _)) by lia|].
  rewrite IH by lia. change (some_match (None :: evs)) with (some_match evs).
  replace (1 + to_match evs <=? n) with (to_match evs <=? n - 1) by lia.
  destruct (_ <=? _); do 2 f_equal; lia.
Qed.

Lemma exists_exact path x u :
  get (vm_paths vm) path = Some x -> walks x -> 0 <= u <= B ->
  exists_ gas vm root path (at_used u) =
  if u + match_nodes root x <=? B
  then Ok (some_match (trace_of root x), at_used (u + match_nodes root x)) else Err FuelExhausted.
Proof.
  intros Hx Hw Hu. unfold exists_. rewrite Hx. ok_step. rewrite remaining_eq by lia. ok_step. rewrite visit_trace by done. ok_step.
  unfold deliver_root, match_nodes. pose proof (trace_nonempty x (proj1 Hw)) as Hne. destruct (trace_of root x) as [|[[p v]|] evs]; [done|..].
  - rewrite Z.add_0_r, (proj2 (Z.leb_le _ _)) by lia. cbn [PathEval.nodes_visited]. rewrite (charge_eq _ HB), Z.add_0_r by lia.
    by rewrite (proj2 (Z.leb_le _ _)) by lia.
  - cbn [tail]. pose proof (to_match_nonneg evs). rewrite deliver_first by lia. change (some_match (None :: evs)) with (some_match evs).
    destruct (Z.leb_spec (to_match evs) (B - u)); cbn [PathEval.nodes_visited PathEval.vend]; rewrite (charge_eq _ HB) by lia.
    + rewrite Z.add_0_l, (proj2 (Z.leb_le _ _)) by lia. ok_step. rewrite bool_decide_false by (by destruct (some_match evs)). done.
    + rewrite (proj2 (Z.leb_le (u + (0 + (B - u))) B)), (proj2 (Z.leb_gt (u + to_match evs) B)) by lia. ok_step. by rewrite bool_decide_true.
Qed.

(** ** Tests *)

(** Tests that charge nothing. *)
Lemma performs_free test (j : judge) :
  (forall v, tested (j v) = 0) ->
  (forall v f fl, test v f fl = (Ok (satisfies (j v)), f, if mismatched (j v) then set_mismatch fl else fl)) ->
  performs B test j.
Proof.
  intros H0 Ht v u fl Hu. rewrite H0. split; [done|]. rewrite Z.add_0_r, (proj2 (Z.leb_le _ _)) by lia. apply Ht.
Qed.

(** The member references of an [IN] at [a] name the constants [l]. *)
Definition members_at (a : Z) (l : list Constant) : Prop :=
  exists ids b, trusted_refs (E:=PredicateEvalError) (length l) (program vm) a = Ok (ids, b) /\
    Forall2 (fun id c => get (vm_constants vm) id = Some c) ids l.

Lemma performs_members l a : members_at a l -> performs B (in_test vm (length l) a) (judge_members l).
Proof.
  intros Hl v u fl Hu. split; [apply tested_nonneg_members|].
  revert a u Hl Hu. induction l as [|c l IH]; intros a u Hl Hu; cbn [length in_test judge_members].
  { cbn. by rewrite Z.add_0_r, (proj2 (Z.leb_le _ _)) by lia. }
  destruct Hl as (ids & b & Hr & Hids). cbn [length trusted_refs] in Hr.
  apply bind_Ok in Hr as ([id a1] & Hid & Hr). apply bind_Ok in Hr as ([ids' b'] & Hr & [= <- ->]).
  apply Forall2_cons_1 in Hids as [Hc Hids]. rewrite Hid, (charge_eq _ HB) by lia.
  pose proof (tested_nonneg_members l v) as Hn.
  destruct (Z.leb_spec (u + 1) B) as [Hb|Hb].
  - rewrite Hc. destruct (relation v c) as [[]|]; cbn [tested satisfies mismatched].
    + by rewrite (proj2 (Z.leb_le _ _)) by lia.
    + assert (members_at a1 l) as Hm by (exists ids', b; done). specialize (IH a1 (u + 1) Hm ltac:(lia)).
      replace (u + (1 + tested (judge_members l v))) with (u + 1 + tested (judge_members l v)) by lia. exact IH.
    + assert (members_at a1 l) as Hm by (exists ids', b; done). specialize (IH a1 (u + 1) Hm ltac:(lia)).
      replace (u + (1 + tested (judge_members l v))) with (u + 1 + tested (judge_members l v)) by lia. exact IH.
    + by rewrite (proj2 (Z.leb_le _ _)) by lia.
  - rewrite (proj2 (Z.leb_gt _ _)) by (destruct (relation v c) as [[]|]; cbn [tested]; lia). by exists u, fl.
Qed.
End leaves.

(** ** Stored constants judge as the tree's *)

Lemma feq_zero f : in_u 64 f -> feq f 0 = true -> f = 0 \/ f = 2 ^ 63.
Proof.
  unfold in_u, feq. intros Hf [_ H%Z.eqb_eq]%andb_true_iff. change (scaled 0) with 0 in H. unfold scaled in H.
  assert (scaled_mag (magnitude f) = 0) as Hm by (destruct (negative f); lia). clear H. revert Hm. unfold scaled_mag, magnitude.
  destruct (Z.eqb_spec (f mod 2 ^ 63 / 2 ^ 52) 0) as [E|E]; intros Hm.
  - apply Z.div_small_iff in E; [|lia]. rewrite Z.mod_small in Hm by lia. apply Z.mod_divide in Hm as [k Hk]; [lia|lia].
  - exfalso. assert (0 <= f mod 2 ^ 63 / 2 ^ 52) by (apply Z.div_pos; [apply Z.mod_pos_bound|]; lia).
    pose proof (Z.mod_pos_bound (f mod 2 ^ 63) (2 ^ 52) ltac:(lia)).
    pose proof (Z.pow_pos_nonneg 2 (f mod 2 ^ 63 / 2 ^ 52 - 1) ltac:(lia) ltac:(lia)). nia.
Qed.

Lemma relation_norm v c : wf_constant c -> relation v (norm_const c) = relation v c.
Proof.
  destruct c as [i|f|b|s]; try done. intros [Hf _]. cbn [norm_const]. destruct (feq f 0) eqn:E; [|done].
  by apply feq_zero in E as [->| ->]; [|destruct v|].
Qed.

Lemma judge_members_norm l v : Forall wf_constant l -> judge_members (map norm_const l) v = judge_members l v.
Proof. induction 1 as [|c l Hc _ IH]; [done|]. cbn [map judge_members]. rewrite relation_norm by done. by rewrite IH. Qed.

(** The members of an [IN] are of one family: incomparable with one, incomparable with all. *)
Lemma relation_family v c d :
  wf_constant c -> wf_constant d -> family c = family d -> relation v c = None -> relation v d = None.
Proof.
  destruct c as [i|f|b|s], d as [i'|f'|b'|s']; try done; intros Hc Hd _; destruct v as [|vb|vi|vf|vs|va|vo]; try done; cbn [relation];
    unfold partial_cmp; destruct (is_nan vf); try done; cbn [orb]; cbn [wf_constant] in Hc, Hd; unfold is_finite in *.
  all: unfold is_nan; repeat match goal with H : _ /\ _ |- _ => destruct H end;
    repeat match goal with |- context [INFINITY <? magnitude ?x] => destruct (Z.ltb_spec INFINITY (magnitude x)) end; try done; lia.
Qed.

Lemma in_test_members l v :
  Forall wf_constant l -> one_family l -> satisfies (judge_members l v) = Predicate.in_test l v.
Proof.
  assert (forall c l, Forall wf_constant (c :: l) -> Forall (fun m => family m = family c) l -> relation v c = None ->
    Predicate.in_test (c :: l) v = false) as Hnone.
  { intros c k Hw Hf Hc. apply not_true_iff_false. unfold Predicate.in_test. rewrite existsb_exists. intros (d & Hd & Hr).
    apply bool_decide_eq_true in Hr. rewrite Forall_forall in Hw. destruct Hd as [->|Hd]; [congruence|].
    rewrite Forall_forall in Hf. rewrite (relation_family v c d) in Hr; [done|apply Hw; by left|apply Hw; by right|symmetry; by apply Hf|done]. }
  destruct l as [|c0 l]; [done|]. intros Hw Hf. apply Forall_cons_iff in Hf as [_ Hf].
  assert (forall l, Forall wf_constant l -> Forall (fun m => family m = family c0) l ->
    satisfies (judge_members l v) = Predicate.in_test l v) as H; [|apply H; [done|by constructor]].
  clear l Hw Hf. induction l as [|c l IH]; intros Hw Hf; [done|]. apply Forall_cons_iff in Hf as [Hc Hf].
  pose proof Hw as Hw'. apply Forall_cons_iff in Hw' as [Hwc Hwl]. cbn [judge_members]. destruct (relation v c) as [[]|] eqn:E.
  - unfold Predicate.in_test. cbn [existsb]. by rewrite E.
  - cbn [satisfies]. rewrite IH by done. unfold Predicate.in_test. cbn [existsb]. by rewrite E.
  - cbn [satisfies]. rewrite IH by done. unfold Predicate.in_test. cbn [existsb]. by rewrite E.
  - cbn [satisfies]. rewrite Hnone; [done|done| |done]. eapply Forall_impl; [|exact Hf]. cbn. congruence.
Qed.

Lemma existsb_ext' {A} (f g : A -> bool) l : (forall x, f x = g x) -> existsb f l = existsb g l.
Proof. intros H. induction l as [|x l IH]; cbn; [done|]. by rewrite H, IH. Qed.

(** ** The machine on the bytes of a tree *)

Section machine.
Context (gas : nat) (vm : PredicateVm) (root : Value) (B : Z) (HB : in_u 64 B) (Hsmall : small root = true).
Context (HPl : len (vm_paths vm) <= PATHS_MAX) (HCl : len (vm_constants vm) <= CONSTANTS_MAX).
Context (Hstored : Forall stored (vm_constants vm)) (Hwalks : Forall (walks gas root) (vm_paths vm)).
Notation P := (vm_paths vm).
Notation cs := (vm_constants vm).
Notation bytes := (program vm).
Notation pools := (full P cs).
Notation at_used := (fuel_at B).
Notation holds := (Predicate.verdict (values root)).
Notation cost := (cost root).
Notation flags_of := (flags_of root).

Lemma walks_at x : x ∈ P -> walks gas root x.
Proof. by apply list.Forall_forall. Qed.

Lemma cmp_performs op c : performs B
  (fun v f fl => match relation v c with Some o => (Ok (cmp_matches op o), f, fl) | None => (Ok false, f, set_mismatch fl) end)
  (judge_cmp op c).
Proof. apply performs_free; intros v; unfold judge_cmp; by destruct (relation v c). Qed.

Lemma between_performs lo hi : performs B
  (fun v f fl => match relation v lo, relation v hi with
    | Some l, Some h => (Ok (negb (bool_decide (l = Lt)) && negb (bool_decide (h = Gt))), f, fl)
    | _, _ => (Ok false, f, set_mismatch fl) end)
  (judge_between lo hi).
Proof.
  apply performs_free; intros v; unfold judge_between, between_test; destruct (relation v lo), (relation v hi); done.
Qed.

Lemma prefix_performs prefix : performs B
  (fun v f fl => match v with VStr s => (Ok (starts_with s prefix), f, fl) | _ => (Ok false, f, set_mismatch fl) end)
  (judge_prefix prefix).
Proof. apply performs_free; intros v; by destruct v. Qed.

(** Reading the members of an [IN] op. *)
Lemma op_members path members a q :
  operands_at P cs (PIn path members) -> tail_at bytes a (expr_of pools (PIn path members) ++ q) ->
  members_at vm (a + 1 + len (path_ref_bytes P path) + 1) (map norm_const members).
Proof.
  intros Ho Ht. destruct (operands_covers P cs _ Ho) as [_ Hcov]. destruct Ho as [_ Hc]. unfold expr_of in Ht.
  cbn [expr_bytes full paths constants const_refs] in *. cbn [app] in Ht.
  apply tail_cons in Ht. rewrite <- app_assoc in Ht. apply tail_app in Ht. cbn [app] in Ht. apply tail_cons in Ht.
  unfold members_at. rewrite length_map. rewrite (trusted_consts _ P cs HCl _ _ _ Ht Hcov). do 2 eexists. split; [done|].
  clear -Hc Hstored. induction Hc as [|c l Hc _ IH]; cbn [map]; constructor; [|done]. by apply constant_at.
Qed.

Lemma leaf_eval path j test u fl :
  path ∈ P -> performs B test j -> 0 <= u <= B ->
  leaf gas vm root (path_index P path) (at_used u) fl test =
  if u + leaf_cost root j path <=? B
  then Ok (existsb (fun v => satisfies (j v)) (values root path), at_used (u + leaf_cost root j path), join fl (leaf_flags j (values root path)))
  else Err FuelExhausted.
Proof. intros Hp Hj Hu. apply leaf_exact; try done; [by apply path_at|by apply walks_at]. Qed.

Lemma leaf_meaning p x j :
  comparison_of p = Some (x, j) -> Forall wf_constant (const_refs p) -> leaf_shape p ->
  holds p = existsb (fun v => satisfies (j v)) (values root x) /\ cost p = 1 + leaf_cost root j x /\
  flags_of p = leaf_flags j (values root x).
Proof.
  intros Hc Hw Hs. destruct p as [l|l|p|op path c|path lo hi|path prefix|path members|path]; try done; injection Hc as <- <-;
    (split; [|done]); cbn [Predicate.verdict]; apply existsb_ext'; intros v.
  - unfold judge_cmp, cmp_test. by destruct (relation v c).
  - unfold judge_between, between_test. by destruct (relation v lo), (relation v hi).
  - by destruct v.
  - symmetry. apply in_test_members; [done|apply Hs].
Qed.

(** The op of a leaf yields its verdict and flags for its price. *)
Lemma eval_leaf_exact p a q u fl :
  is_leaf p = true -> leaf_shape p -> operands_at P cs p -> tail_at bytes a (expr_of pools p ++ q) -> 0 <= u <= B ->
  eval_leaf gas vm root (op_of P cs a p) (at_used u) fl =
  if u + (cost p - 1) <=? B then Ok (holds p, at_used (u + (cost p - 1)), join fl (flags_of p)) else Err FuelExhausted.
Proof.
  intros Hleaf Hsh Ho Ht Hu. pose proof Ho as [Hp Hc].
  assert (Forall wf_constant (const_refs p)) as Hw by (eapply Forall_impl; [|exact Hc]; by intros c [? _]).
  destruct (comparison_of p) as [[x j]|] eqn:Ej.
  - destruct (leaf_meaning p x j Ej Hw Hsh) as (-> & -> & ->). replace (1 + leaf_cost root j x - 1) with (leaf_cost root j x) by lia.
    assert (forall j', (forall v, j v = j' v) -> forall test, performs B test j' -> performs B test j) as Hext.
    { intros j' Hjj test H v. rewrite Hjj. apply H. }
    destruct p as [l|l|p|op path c|path lo hi|path prefix|path members|path]; try done; injection Ej as <- <-;
      cbn [op_of eval_leaf path_refs const_refs] in *; rewrite ?Forall_cons_iff in Hp; destruct Hp as [Hp _].
    + rewrite Forall_cons_iff in Hc, Hw. rewrite (constant_at cs Hstored) by tauto. ok_step. apply leaf_eval; try done.
      eapply Hext, cmp_performs. intros v. unfold judge_cmp. by rewrite relation_norm by tauto.
    + rewrite !Forall_cons_iff in Hc, Hw. rewrite !(constant_at cs Hstored) by tauto. ok_step. apply leaf_eval; try done.
      eapply Hext, between_performs. intros v. unfold judge_between, between_test. by rewrite !relation_norm by tauto.
    + rewrite Forall_cons_iff in Hc. rewrite (constant_at cs Hstored) by tauto. ok_step. cbn [norm_const]. apply leaf_eval; try done.
      apply prefix_performs.
    + apply leaf_eval; try done. replace (Z.to_nat (len members)) with (length (map norm_const members)) by (rewrite length_map; unfold len; lia).
      eapply Hext; [|by apply performs_members; [|eapply op_members]]. intros v. by rewrite judge_members_norm.
  - destruct p as [l|l|p|op path c|path lo hi|path prefix|path members|path]; try done.
    cbn [op_of eval_leaf path_refs const_refs Predicate.verdict] in *. rewrite ?Forall_cons_iff in Hp; destruct Hp as [Hp _].
    rewrite (exists_exact _ _ _ _ HB Hsmall _ path); [|by apply path_at|by apply walks_at|done].
    change (cost (PExists path)) with (1 + match_nodes root path). replace (1 + match_nodes root path - 1) with (match_nodes root path) by lia.
    destruct (_ <=? _); [|done]. ok_step. change (flags_of (PExists path)) with EvalFlags_default. by rewrite join_default.
Qed.

(** ** Skipping operands *)

Definition sound (p : Predicate) : Prop := (exists d, shaped d p) /\ operands_at P cs p.
Definition kids (p : Predicate) : list Predicate :=
  match p with PAnd l | POr l => l | PNot p => [p] | _ => [] end.

Lemma sound_kids p : sound p -> Forall sound (kids p).
Proof.
  intros [[d Hd] Ho]. apply shaped_eq in Hd as [_ Hd].
  assert (forall l, Forall (shaped (d + 1)) l -> Forall (operands_at P cs) l -> Forall sound l) as Hl.
  { intros l H1 H2. apply list.Forall_forall. intros x Hx. split; [exists (d + 1)|]; by eapply list.Forall_forall. }
  destruct p as [l|l|p| | | | |]; cbn [kids]; try (by constructor); try (apply Hl; [tauto|by apply operands_at_concat]).
  apply Hl; constructor; done.
Qed.

Lemma expr_kids p q : exists h, expr_of pools p ++ q = h ++ exprs_of P cs (kids p) ++ q /\ len h = head_len P cs p.
Proof.
  destruct p as [l|l|p|op path c|path lo hi|path prefix|path members|path]; cbn [kids head_len].
  - by exists [b8 OP_AND; b8 (len l)].
  - by exists [b8 OP_OR; b8 (len l)].
  - exists [b8 OP_NOT]. split; [|done]. unfold exprs_of. cbn [map concat]. rewrite app_nil_r. done.
  - by eexists.
  - by eexists.
  - by eexists.
  - by eexists.
  - by eexists.
Qed.

Lemma ops_kids p : ops p = 1 + all_ops (kids p).
Proof. destruct p as [l|l|p| | | | |]; try done. cbn [kids ops]. rewrite all_ops_cons. change (all_ops []) with 0. lia. Qed.

Lemma read_sound {E} p a q :
  sound p -> tail_at bytes a (expr_of pools p ++ q) -> read_op (E:=E) bytes a = Ok (op_of P cs a p, a + head_len P cs p).
Proof.
  intros [[d Hd] Ho] Ht. apply (read_op_ok _ P cs HPl HCl _ _ _ Ht); [by apply operands_covers|].
  apply shaped_eq in Hd as [_ Hd]. unfold BOOL_ARITY_MAX, leaf_shape, IN_MEMBERS_MAX in Hd. destruct p; try done; lia.
Qed.

Lemma skip_exact rounds : forall l pc u q,
  Forall sound l -> tail_at bytes pc (exprs_of P cs l ++ q) -> 0 <= u <= B -> all_ops l <= Z.of_nat rounds ->
  skip_loop vm rounds pc (len l) (at_used u) =
  if u + all_ops l <=? B then Ok (pc + len (exprs_of P cs l), at_used (u + all_ops l)) else Err FuelExhausted.
Proof.
  induction rounds as [|rounds IH]; intros [|p l] pc u q Hl Ht Hu Hr.
  1,3: change (all_ops []) with 0; change (len (exprs_of P cs [])) with 0; rewrite !Z.add_0_r, (proj2 (Z.leb_le u B)) by lia; done.
  { rewrite all_ops_cons in Hr. pose proof (ops_pos p). pose proof (all_ops_nonneg l). lia. }
  apply Forall_cons_iff in Hl as [Hp Hl]. rewrite all_ops_cons, ops_kids in Hr |- *. rewrite exprs_cons, <- app_assoc in Ht.
  pose proof (all_ops_nonneg l). pose proof (all_ops_nonneg (kids p)).
  cbn [skip_loop]. rewrite (proj2 (Z.leb_gt _ _)) by lens. rewrite (charge_eq _ HB) by lia.
  destruct (Z.leb_spec (u + 1) B); ok_step; [|by rewrite (proj2 (Z.leb_gt _ _)) by lia].
  rewrite (read_sound _ _ _ Hp Ht). ok_step. destruct (expr_kids p (exprs_of P cs l ++ q)) as (h & Eh & Hh).
  rewrite Eh in Ht. apply tail_app in Ht. rewrite Hh, app_assoc, <- exprs_app in Ht.
  assert (Forall sound (kids p ++ l)) as Hk by (apply Forall_app; split; [by apply sound_kids|done]).
  specialize (IH (kids p ++ l) _ (u + 1) q Hk Ht ltac:(lia)). rewrite all_ops_app in IH. specialize (IH ltac:(lia)).
  assert (len (exprs_of P cs (p :: l)) = head_len P cs p + len (exprs_of P cs (kids p ++ l))) as ->.
  { apply (f_equal len) in Eh. rewrite exprs_cons, exprs_app. revert Eh. rewrite !len_app, Hh. lia. }
  replace (u + (1 + all_ops (kids p) + all_ops l)) with (u + 1 + (all_ops (kids p) + all_ops l)) by lia.
  rewrite (Z.add_assoc pc), <- IH.
  destruct p as [k|k|p|op path c|path lo hi|path prefix|path members|path]; cbn [op_of kids app]; f_equal; lens.
Qed.

(** ** Verdicts of operands *)

(** Hand a verdict to the open connectives and go on. *)
Definition settle (rounds : nat) (v : bool) (pc : Z) (stack : list Pending) (f : Fuel) (fl : EvalFlags) : result EvalOutcome :=
  r ← fold vm v pc stack f;
  match r with
  | inl (v, pc, f) => _ ← rassert (pc =? len bytes); Ok {| PredicateVm.verdict := v; flags := fl; fuel_used := used f |}
  | inr (pc, stack, f) => eval_loop gas vm root rounds pc stack f fl
  end.

(** [c] reaches the verdict [v] at [pc] with [price] more fuel used, with at least
    [n] rounds left; or refuses, when the budget does not cover the price. *)
Definition reaches (c : result EvalOutcome) (n : nat) (v : bool) (pc : Z) (stack : list Pending) (u price : Z) (fl : EvalFlags) : Prop :=
  if u + price <=? B then exists k, (n <= k)%nat /\ c = settle k v pc stack (at_used (u + price)) fl
  else c = Err FuelExhausted.

Definition runs (p : Predicate) : Prop := forall d n stack pc u fl q,
  shaped d p -> len stack + 1 <= d -> operands_at P cs p -> tail_at bytes pc (expr_of pools p ++ q) -> 0 <= u <= B ->
  reaches (eval_loop gas vm root (Z.to_nat (ops p) + n) pc stack (at_used u) fl) n
    (holds p) (pc + len (expr_of pools p)) stack u (cost p) (join fl (flags_of p)).

Lemma tested_all_free j vs : (forall v, tested (j v) = 0) -> tested_all j vs = 0.
Proof. intros H. induction vs as [|v vs IH]; [done|]. unfold tested_all in *. cbn [foldr]. rewrite H, IH. done. Qed.

Lemma leaf_cost_nonneg p x j : comparison_of p = Some (x, j) -> 0 <= leaf_cost root j x.
Proof.
  intros Hc. unfold leaf_cost, walk_nodes. pose proof (len_nonneg (tail (trace_of root x))).
  enough (0 <= tested_all j (values root x)) by lia.
  destruct p as [l|l|p|op path c|path lo hi|path prefix|path members|path]; try done; injection Hc as <- <-.
  1-3: rewrite tested_all_free; [done|]; intros v.
  - unfold judge_cmp. by destruct (relation v c).
  - unfold judge_between. by destruct (relation v lo), (relation v hi).
  - by destruct v.
  - induction (values root path) as [|v vs IH]; [done|]. unfold tested_all in *. cbn [foldr].
    pose proof (tested_nonneg_members members v). lia.
Qed.

Lemma run_cost_nonneg stop l : Forall (fun p => 1 <= cost p) l -> 0 <= run_cost root stop l.
Proof.
  induction 1 as [|p l Hp _ IH]; cbn [run_cost]; [done|]. pose proof (all_ops_nonneg l). destruct (eqb _ _); lia.
Qed.

Lemma cost_pos p : 1 <= cost p.
Proof.
  induction p as [l Hi|l Hi|p IH|op path c|path lo hi|path prefix|path members|path] using predicate_ind'.
  - rewrite cost_and. apply (run_cost_nonneg false) in Hi. lia.
  - rewrite cost_or. apply (run_cost_nonneg true) in Hi. lia.
  - cbn [PredicateVmSpec.cost]. lia.
  - pose proof (leaf_cost_nonneg _ _ _ (eq_refl (comparison_of (PCmp op path c)))). cbn. lia.
  - pose proof (leaf_cost_nonneg _ _ _ (eq_refl (comparison_of (PBetween path lo hi)))). cbn. lia.
  - pose proof (leaf_cost_nonneg _ _ _ (eq_refl (comparison_of (PBeginsWith path prefix)))). cbn. lia.
  - pose proof (leaf_cost_nonneg _ _ _ (eq_refl (comparison_of (PIn path members)))). cbn. lia.
  - cbn. unfold match_nodes. destruct (trace_of root path) as [|[?|] evs]; [done|done|]. cbn [tail]. pose proof (to_match_nonneg evs). lia.
Qed.

(** An open connective; [stop] settles it. *)
Definition open (stop : bool) (n : Z) : Pending := if stop then OpenOr n else OpenAnd n.

Lemma fold_open stop n v pc stack f :
  fold vm v pc (open stop n :: stack) f =
  if eqb v stop then '(pc, f) ← skip_operands vm pc (n - 1) f; fold vm v pc stack f
  else if n =? 1 then fold vm v pc stack f
  else Ok (inr (pc, open stop (n - 1) :: stack, f)).
Proof. by destruct stop, v. Qed.

Lemma reaches_trans c n v pc stack u a b fl :
  0 <= b -> (if u + a <=? B then reaches c n v pc stack (u + a) b fl else c = Err FuelExhausted) ->
  reaches c n v pc stack u (a + b) fl.
Proof.
  intros Hb. unfold reaches. rewrite Z.add_assoc. destruct (Z.leb_spec (u + a) B); [done|].
  by rewrite (proj2 (Z.leb_gt _ _)) by lia.
Qed.

Lemma reaches_weaken c n m v pc stack u a fl : (m <= n)%nat -> reaches c n v pc stack u a fl -> reaches c m v pc stack u a fl.
Proof. unfold reaches. destruct (_ <=? _); [|done]. intros Hm (k & Hk & ->). exists k. split; [lia|done]. Qed.

Lemma exprs_ops l pc q : tail_at bytes pc (exprs_of P cs l ++ q) -> all_ops l <= Z.of_nat (length bytes).
Proof.
  intros [? Ht]%tail_len. rewrite len_app in Ht. pose proof (len_nonneg q).
  enough (all_ops l <= len (exprs_of P cs l)) by (unfold len in *; lia). clear. induction l as [|p l IH]; [done|].
  rewrite all_ops_cons, exprs_cons, len_app. pose proof (ops_len P (map const_bytes cs) p). unfold expr_of, full. cbn [paths constants]. lia.
Qed.

(** The operands of a connective, from left to right. *)
Lemma run_operands stop l : forall d n stack pc u fl q,
  l <> [] -> Forall runs l -> Forall (shaped d) l -> len stack + 2 <= d -> Forall (operands_at P cs) l ->
  tail_at bytes pc (exprs_of P cs l ++ q) -> 0 <= u <= B ->
  reaches (eval_loop gas vm root (Z.to_nat (all_ops l) + n) pc (open stop (len l) :: stack) (at_used u) fl) n
    (run_holds root stop l) (pc + len (exprs_of P cs l)) stack u (run_cost root stop l) (join fl (run_flags root stop l)).
Proof.
  induction l as [|p l IH]; intros d n stack pc u fl q Hne Hr Hsh Hd Ho Ht Hu; [done|].
  apply Forall_cons_iff in Hr as [Hrp Hr], Hsh as [Hsp Hsh], Ho as [Hop Ho]. pose proof (cost_pos p).
  assert (0 <= run_cost root stop l) by (apply run_cost_nonneg, list.Forall_forall; intros; apply cost_pos).
  pose proof (all_ops_nonneg l). pose proof (ops_pos p). rewrite exprs_cons, <- app_assoc in Ht. cbn [run_cost].
  apply reaches_trans; [destruct (eqb _ _); lia|]. rewrite all_ops_cons, Z2Nat.inj_add, <- Nat.add_assoc by lia.
  pose proof (Hrp d (Z.to_nat (all_ops l) + n)%nat (open stop (len (p :: l)) :: stack) pc u fl _ Hsp ltac:(lens) Hop Ht Hu) as Hp.
  unfold reaches in Hp. destruct (Z.leb_spec (u + cost p) B) as [Hb|]; [|done]. destruct Hp as (k & Hk & ->).
  apply tail_app in Ht. rewrite exprs_cons, len_app, Z.add_assoc. cbn [run_holds run_flags]. unfold settle. rewrite fold_open.
  replace (len (p :: l) - 1) with (len l) by lens. destruct (eqb (holds p) stop) eqn:Ev.
  - apply eqb_prop in Ev. unfold reaches, skip_operands. rewrite join_default.
    assert (Forall sound l) as Hsl by (apply list.Forall_forall; intros x Hx; split; [exists d|]; by eapply list.Forall_forall).
    rewrite (skip_exact _ _ _ _ _ Hsl Ht) by (first [lia|by eapply exprs_ops]). destruct (_ <=? _); [|done]. ok_step.
    exists k. split; [lia|]. by rewrite Ev.
  - destruct l as [|p' l].
    + rewrite (proj2 (Z.eqb_eq _ _)) by lens. unfold reaches. cbn [run_cost run_holds run_flags].
      change (len (exprs_of P cs [])) with 0. rewrite !Z.add_0_r, (proj2 (Z.leb_le _ _)), join_default by lia.
      exists k. split; [lia|]. unfold settle. by destruct (holds p), stop.
    + rewrite (proj2 (Z.eqb_neq _ _)) by lens. ok_step. rewrite <- join_assoc. remember (p' :: l) as l' eqn:El.
      replace k with (Z.to_nat (all_ops l') + (k - Z.to_nat (all_ops l')))%nat by lia.
      eapply reaches_weaken, (IH d _ _ _ _ _ _ ltac:(by subst) Hr Hsh Hd Ho Ht); lia.
Qed.

(** Opening a frame: the validated depth is below the array's. *)
Lemma push_ok frame stack d : len stack + 1 <= d -> d <= NESTING_DEPTH_MAX -> push frame stack = Ok (frame :: stack).
Proof. intros. unfold push. by rewrite (proj2 (Z.ltb_lt _ _)) by lia. Qed.

(** One unit for the op of a connective, then its operands. *)
Lemma run_head p d n m stack pc u fl q v pc' a fl' frame :
  shaped d p -> len stack + 1 <= d -> operands_at P cs p -> tail_at bytes pc (expr_of pools p ++ q) -> 0 <= u <= B -> 0 <= a ->
  match op_of P cs pc p with OAnd k => frame = OpenAnd k | OOr k => frame = OpenOr k | ONot => frame = OpenNot | _ => False end ->
  (u + 1 <= B -> reaches (eval_loop gas vm root m (pc + head_len P cs p) (frame :: stack) (at_used (u + 1)) fl) n v pc' stack (u + 1) a fl') ->
  reaches (eval_loop gas vm root (S m) pc stack (at_used u) fl) n v pc' stack u (1 + a) fl'.
Proof.
  intros Hsh Hd Ho Ht Hu Ha Hf Hrest. pose proof Hsh as [Hmax _]%shaped_eq. apply reaches_trans; [done|]. cbn [eval_loop].
  rewrite (charge_eq _ HB) by lia. destruct (Z.leb_spec (u + 1) B) as [Hb|]; ok_step; [|done].
  rewrite (read_sound _ _ _ (conj (ex_intro _ d Hsh) Ho) Ht). ok_step.
  destruct (op_of P cs pc p); try done; subst frame; rewrite (push_ok _ _ d) by done; by apply Hrest.
Qed.

Lemma runs_leaf p : is_leaf p = true -> runs p.
Proof.
  intros Hleaf d n stack pc u fl q Hsh Hd Ho Ht Hu.
  assert (ops p = 1 /\ leaf_shape p /\ head_len P cs p = len (expr_of pools p)) as (Eo & Hls & Eh)
    by (pose proof Hsh as [_ Hs]%shaped_eq; by destruct p).
  rewrite Eo. change (Z.to_nat 1 + n)%nat with (S n). pose proof (cost_pos p). replace (cost p) with (1 + (cost p - 1)) by lia.
  apply reaches_trans; [lia|]. cbn [eval_loop]. rewrite (charge_eq _ HB) by lia. destruct (Z.leb_spec (u + 1) B) as [Hb|]; ok_step; [|done].
  rewrite (read_sound _ _ _ (conj (ex_intro _ d Hsh) Ho) Ht). ok_step. rewrite Eh. unfold reaches.
  pose proof (eval_leaf_exact p pc q (u + 1) fl Hleaf Hls Ho Ht ltac:(lia)) as He.
  destruct (u + 1 + (cost p - 1) <=? B).
  - exists n. split; [lia|]. by destruct p; try done; cbn [op_of] in *; rewrite He.
  - by destruct p; try done; cbn [op_of] in *; rewrite He.
Qed.

Lemma runs_connective (stop : bool) mk l : mk = (if stop then POr else PAnd) -> Forall runs l -> runs (mk l).
Proof.
  intros -> Hl d n stack pc u fl q Hsh Hd Ho Ht Hu. pose proof Hsh as [Hmax Hs]%shaped_eq.
  assert (2 <= len l <= BOOL_ARITY_MAX /\ Forall (shaped (d + 1)) l) as [Har Hch] by by destruct stop.
  assert (Forall (operands_at P cs) l) as Hol by (apply operands_at_concat; by destruct stop).
  assert (l <> []) as Hne by (intros ->; rewrite len_nil in Har; lia). pose proof (all_ops_nonneg l).
  set (p := (if stop then POr else PAnd) l) in *.
  assert (ops p = 1 + all_ops l) as -> by by destruct stop.
  assert (holds p = run_holds root stop l) as -> by (destruct stop; [apply holds_or|apply holds_and]).
  assert (cost p = 1 + run_cost root stop l) as -> by (destruct stop; [apply cost_or|apply cost_and]).
  assert (flags_of p = run_flags root stop l) as -> by (destruct stop; [apply flags_or|apply flags_and]).
  destruct (expr_kids p q) as (h & Eh & Hh). assert (kids p = l) as Ek by by destruct stop. rewrite Ek in Eh.
  assert (head_len P cs p = 2) as E2 by by destruct stop.
  assert (len (expr_of pools p) = 2 + len (exprs_of P cs l)) as ->.
  { apply (f_equal len) in Eh. revert Eh. rewrite !len_app, Hh, E2. lia. }
  replace (Z.to_nat (1 + all_ops l) + n)%nat with (S (Z.to_nat (all_ops l) + n)) by lia.
  apply (run_head p d n _ stack pc u fl q _ _ _ _ (open stop (len l))); try done.
  - apply run_cost_nonneg, list.Forall_forall. intros. apply cost_pos.
  - by destruct stop.
  - intros Hb. rewrite Z.add_assoc. rewrite Eh in Ht. apply tail_app in Ht. rewrite Hh, E2 in Ht. rewrite E2.
    by apply (run_operands stop l (d + 1) n stack _ (u + 1) fl q); try done; lia.
Qed.

Lemma runs_all p : runs p.
Proof.
  induction p as [l Hi|l Hi|p IH|op path c|path lo hi|path prefix|path members|path] using predicate_ind'.
  - by apply (runs_connective false PAnd).
  - by apply (runs_connective true POr).
  - intros d n stack pc u fl q Hsh Hd Ho Ht Hu. pose proof Hsh as [Hmax Hs]%shaped_eq. pose proof (ops_pos p).
    change (ops (PNot p)) with (1 + ops p). replace (Z.to_nat (1 + ops p) + n)%nat with (S (Z.to_nat (ops p) + n)) by lia.
    change (cost (PNot p)) with (1 + cost p). pose proof (cost_pos p).
    apply (run_head (PNot p) d n _ stack pc u fl q _ _ _ _ OpenNot); try done; [lia|]. intros Hb.
    change (expr_of pools (PNot p)) with (b8 OP_NOT :: expr_of pools p) in *. cbn [app head_len] in *. apply tail_cons in Ht.
    pose proof (IH (d + 1) n (OpenNot :: stack) (pc + 1) (u + 1) fl q Hs ltac:(lens) Ho Ht ltac:(lia)) as Hp.
    unfold reaches in *. destruct (_ <=? _); [|done]. destruct Hp as (k & Hk & ->). exists k. split; [done|].
    by replace (pc + len (b8 OP_NOT :: expr_of pools p)) with (pc + 1 + len (expr_of pools p)) by lens.
  - by apply runs_leaf.
  - by apply runs_leaf.
  - by apply runs_leaf.
  - by apply runs_leaf.
  - by apply runs_leaf.
Qed.

(** A whole expression at the end of the program. *)
Lemma eval_exact p :
  shaped 1 p -> operands_at P cs p -> tail_at bytes (expr_at vm) (expr_of pools p) ->
  eval gas vm root B =
  if cost p <=? B
  then Ok {| PredicateVm.verdict := holds p; flags := flags_of p; fuel_used := cost p |} else Err FuelExhausted.
Proof.
  intros Hsh Ho Ht. rewrite <- (app_nil_r (expr_of pools p)) in Ht. pose proof (tail_len _ _ _ Ht) as [_ Hl]. rewrite app_nil_r in Hl.
  unfold eval. change {| used := 0; budget := B |} with (at_used 0). pose proof (ops_len P (map const_bytes cs) p) as Hol. pose proof (ops_pos p).
  assert (length bytes = Z.to_nat (ops p) + (length bytes - Z.to_nat (ops p)))%nat as ->.
  { unfold expr_of, full in Ht. cbn [paths constants] in Ht. apply tail_len in Ht as [? Ht]. rewrite app_nil_r in Ht. unfold len in *. lia. }
  pose proof (runs_all p 1 (length bytes - Z.to_nat (ops p))%nat [] (expr_at vm) 0 EvalFlags_default [] Hsh ltac:(done) Ho Ht) as Hr.
  unfold reaches in Hr. rewrite Z.add_0_l, join_default_l in Hr. unfold in_u in HB. specialize (Hr ltac:(lia)).
  destruct (_ <=? _); [|exact Hr]. destruct Hr as (k & _ & Hr). rewrite Hr. unfold settle. cbn [fold]. ok_step.
  rewrite (proj2 (Z.eqb_eq _ _)) by lia. done.
Qed.
End machine.

(** C16. The predicate machine is exact: over a program the builder emitted, on
    any document and any budget, it returns the verdict of the tree over the values
    its paths select, the anomaly flags of the operands that are evaluated, and
    their exact price, when the budget covers that price; otherwise it reports
    exhaustion. It never panics and never answers from a truncated walk. *)
Theorem predicate_vm_exact p b root budget gas
  (Hwf : operands_wf p) (Henc : encode p = Ok b) (Hsmall : small root = true) (Hbudget : in_u 64 budget)
  (Hgas : Forall (fun x => (2 * length (trace_of root x) < gas)%nat) (path_refs p)) :
  (vm ← new b; eval gas vm root budget) =
  if cost root p <=? budget
  then Ok {| PredicateVm.verdict := Predicate.verdict (values root) p; flags := flags_of root p; fuel_used := cost root p |}
  else Err FuelExhausted.
Proof.
  apply encode_iff in Henc as [He ->]. pose proof He as (Hsh & _ & _ & _ & _ & Hl).
  destruct (program_read (E:=PredicateEvalError) p He Hwf) as (cs & a1 & a2 & Hp & Hc & HP & HC & Hst & HwP & Hat & Ht).
  unfold new. rewrite Hp. ok_step. rewrite Hc. ok_step. pose proof (tail_len _ _ _ Ht) as [? Hlen].
  unfold expr_of, full in Hlen. cbn [paths constants] in Hlen. unfold PROGRAM_BYTES_CEILING in Hl.
  pose proof (ops_pos p). match type of Hlen with _ + len (expr_bytes ?P ?C p) = _ => pose proof (ops_len P C p) end.
  rewrite (proj2 (Z.ltb_lt a2 (len _))), (proj2 (Z.ltb_lt a2 (2 ^ 32))) by lia. ok_step.
  apply eval_exact; try done. cbn [vm_paths]. apply list.Forall_forall. intros x Hx. split; [by eapply list.Forall_forall|].
  apply interned_subset in Hx as [Hx|Hx]; [by apply not_elem_of_nil in Hx|].
  by apply (proj1 (list.Forall_forall _ _) Hgas).
Qed.

(** [$.a IN (9, -0.0, 7) OR NOT EXISTS $..a[*] OR $..a[*] < 8] on [{"a":[7,null]}]. *)
Definition path_a : list byte := map b8 [1; 0; 1; 2; 1; 97].
Definition demo_tree : Predicate :=
  POr [PIn path_a [KI64 9; KF64 (2 ^ 63); KI64 7]; PNot (PExists demo_bytes); PCmp CLt demo_bytes (KI64 8)].
Definition demo_row : Value := VObj [([b8 97], VArr [VI64 7; VNull])].
Definition demo_program : list byte :=
  map b8 [1; 0; 2; 6; 1; 0; 1; 2; 1; 97; 8; 1; 0; 1; 7; 2; 1; 97; 3; 4; 1; 18; 2; 0; 0; 0; 0; 0; 0; 0; 0; 1; 14; 1; 16;
    2; 3; 24; 0; 3; 0; 1; 2; 3; 25; 1; 18; 1; 3].

Lemma demo_operands : operands_wf demo_tree.
Proof. split; repeat constructor; done. Qed.

Lemma predicate_vm_exact_witness :
  (vm ← new demo_program; eval 100 vm demo_row 50) =
    Ok {| PredicateVm.verdict := true; flags := {| missing := false; type_mismatch := true |}; fuel_used := 20 |} /\
  (vm ← new demo_program; eval 100 vm demo_row 19) = Err FuelExhausted.
Proof.
  split.
  - rewrite (predicate_vm_exact demo_tree demo_program demo_row 50 100 demo_operands);
      [by vm_compute|by vm_compute|done|unfold in_u; lia|repeat constructor].
  - rewrite (predicate_vm_exact demo_tree demo_program demo_row 19 100 demo_operands);
      [by vm_compute|by vm_compute|done|unfold in_u; lia|repeat constructor].
Defined.
